(* ===== verification/_CoqProject ===== *)
-Q . S2P
Prelude.v
Memory.v
Bytes.v
Tagging.v
Entry.v
Vectors.v
Examples.v
Calls.v
Xeps.v
Engines.v
Dispatch.v
Nodes.v
Values.v
MachineWord.v
MachineWordLaws.v
Nlx.v
Alloc.v
Symbols.v
Concur.v
ConcurLogic.v
Tlv.v
TlvLaws.v
TlvClients.v
Locks.v
LockLaws.v
RecursiveLaws.v
LockClients.v
Semaphores.v
PosixSemaphores.v
EmulatedSemaphores.v
Joins.v
LockExamples.v
Effects.v
HeapTable.v
HeapTableLaws.v
HeapUtils.v
HeapTrail.v
HeapTrailTables.v
HeapTrailLaws.v
HeapOrder.v
HeapOrderLaws.v
HarpLocks.v
Ownership.v
HarpLockLaws.v
LockLibrary.v
HarpClients.v
HarpSemaphores.v
HarpProgress.v
WinLocks.v
WinLockLaws.v
WinNotifications.v
WinClients.v
WinExamples.v
NubOS.v
Nub.v
NubPoints.v
NubEvents.v
NubWait.v
NubCalls.v
NubAccess.v
NubLaws.v
NubBreakpoints.v
NubSessions.v
NubDebuggee.v
NubInvariant.v
NubRecovery.v
NubAccessLaws.v
NubStack.v
NubAnswers.v
NubProgress.v
CodeView.v
DebugMap.v
SourceLocations.v
CodeViewExample.v
DebugMapLaws.v
LexicalLaws.v
SourceLaws.v
CoffMap.v
SymbolLookup.v
SymbolLookupLaws.v
