(* ===== verification/Prelude.v ===== *)
(** * The Open Dylan C run-time: a verification library

    Open Dylan compiles a Dylan program to C (or LLVM, or native code) and links
    it with a run-time written in C, [src/sources/lib/run-time/].  The compiled
    code holds no calling convention of its own: every call of a Dylan function,
    every dispatch of a generic function, every keyword argument, multiple
    value, closure, [block]/[cleanup], allocation and machine-word operation
    goes through that run-time.  This development models the run-time of the C
    back end in its 64-bit Unix build (x86_64, Boehm collector, [NO_LONGLONG],
    no profiling macros) and proves what its functions do.  It models also the
    debugger nub, the program through which the Dylan debugger controls a process
    on Windows, [src/sources/runtime-manager/debugger-nub/x86-win32/].

    ** The parts and how they interact

    A call [f(a, b)] of a Dylan function reaches the external entry point in the
    [xep] slot of [f].  For a method that is one of the functions of the families
    [xep_k], [rest_xep_k], [rest_key_xep_k] and the slot-accessor entry points:
    it checks the argument count and the argument types against the signature,
    gathers optional arguments in a stack vector, matches keyword arguments, and
    calls the compiled body, the [iep].  For a generic function it is [gf_xep],
    which checks the arguments and enters the engine node in the [engine] slot;
    engine nodes form a decision tree (discriminators on the argument's class or
    identity, keyword checks, cache headers, slot accesses, method calls and
    callbacks into the Dylan dispatcher), each with an [entry_point] function
    that picks the next node, until a method is called through its [mep].
    Arguments, the function being called, the next-method list and the multiple
    values travel in the thread environment block ([TEB]).  A [block] with an
    exit procedure or a [cleanup] pushes a frame the non-local exit functions
    unwind.  Objects come from the allocation primitives.

    The nub stands between the debugger and the debugging functions of Windows.
    The debugger sets breakpoints and stepping points, which the nub writes into
    the code of the process, and waits for a stop reason: the nub takes debug
    events from Windows, decides for each what it means (a breakpoint that is
    met is lifted, and written back when the thread has made one step), continues
    those that do not concern the debugger and returns the first that does.  While
    the process is stopped, the debugger reads and writes its memory and the
    registers of its threads, walks their stacks, and has them call functions.

    ** Files

    - [Prelude]: machine integers at their width ([u64], [s64], [s32]), bit
      fields, the tactics [word] and [zmod], the hint database [crt].
    - [Memory]: the state (word-addressed memory, allocation pointer, [TEB]) and
      the effects: the monad [M] with [Fault] for undefined behaviour and [Trap]
      for a Dylan error; arrays and their separation ([arr], [mapped], [mset]).
    - [Bytes]: bytes of words and the C library's loops over them.
    - [Tagging]: tagged integers and characters, vector and signature layouts
      ([run-time.h]).
    - [Entry]: code pointers.  [entry] is the type of the run-time functions a
      pointer can hold; the classes [Linker] (addresses of functions, injective)
      and [DylanCode] (what compiled Dylan code answers: type checks, callbacks)
      are the interfaces to the code that is not part of the run-time.
    - [Vectors]: vectors on heap and stack, the invariant [wf] on states, [heap].
    - [Examples]: concrete states and executable predicates for the witnesses.
    - [Calls]: call checks, [primitive_apply], [primitive_mep_apply] and the
      functions they share (c-run-time.c, sections FUNCTION to CALLING CONVENTION).
    - [Xeps]: external and method entry points, keyword processing.
    - [Engines]: generic functions and engine nodes; [enter] runs the function at
      a code pointer and [run] follows the tail calls ([Jump]) between them.
    - [Dispatch]: the abstract decision tree and its agreement with [run].
    - [Nodes]: initialisers of nodes, slot accessors, counters.
    - [Values]: multiple values, closures, value cells.
    - [MachineWord], [MachineWordLaws]: machine-word primitives
      ([c-primitives-math.c]) and their mathematical meaning.
    - [Nlx]: frames of non-local exits ([c-run-time-nlx.c]), the code the C back
      end emits around them ([c-emit-computation.dylan]) and its semantics.
    - [Alloc]: the allocation primitives ([boehm-collector.c], [collector.c]) and
      the allocators, fill, replace and compare routines of [c-run-time.c].
    - [Symbols]: the table of symbols of [c-run-time.c]; the collector's
      reallocation and the Dylan allocator of instances are the class [Allocator],
      their promises the class [AllocatorLaws].
    - [Concur]: programs of atomic actions on a shared memory and the threads that
      run them, as a step relation and executably by schedules.
    - [ConcurLogic]: weakest preconditions for them in Iris: words of memory,
      blocks, loops, starting a thread, mutexes.
    - [Tlv]: thread variables and the start and end of threads
      ([posix-threads.c]).
    - [TlvLaws]: their invariants, a specification for each primitive, and the
      proof that the vectors can be replaced while threads read and write them.
    - [TlvClients]: programs made of these primitives, their sequential
      specification, and the theorem that every interleaving meets it.
    - [Locks]: POSIX mutexes and condition variables as their documentation has
      them, and on them the simple and recursive locks, notifications, semaphores
      and joins of [posix-threads.c].
    - [LockLaws], [RecursiveLaws]: an invariant and a specification for each
      primitive on simple locks and notifications, and on recursive locks.
    - [LockClients]: threads that share a resource under a lock of either kind,
      and the theorem that every interleaving keeps its invariant.
    - [Semaphores]: threads that share a semaphore, whatever its kind, and the
      theorem about its count; [PosixSemaphores]: the semaphores of platforms that
      have POSIX ones, as Linux does; [EmulatedSemaphores]: those of the others, on a
      mutex and a condition variable.
    - [Joins]: threads that share the right to join other threads, and the result of
      a thread that is joined.
    - [LockExamples]: schedules that show where the primitives go wrong.
    - [HarpLocks]: the locks, notifications and semaphores that native code uses
      ([unix-threads-primitives.c]), on the mutexes of [Locks].
    - [Ownership]: the invariant of a lock's owner field, which any thread may read
      and only the thread that has the lock writes, whatever the lock is made of.
    - [HarpLockLaws]: the specifications of the HARP locks.
    - [LockLibrary]: the interface between locks and the programs that use them.
      The class [lock_library] has the operations, the class [lock_library_laws]
      what they promise; the programs are verified against the promises alone.
    - [HarpClients]: the HARP locks as an instance, and the theorem for every
      interleaving; [HarpSemaphores]: the same for semaphores; [HarpProgress]: the
      calls that return whatever other threads do.
    - [WinLocks]: the locks, notifications and semaphores on Windows
      ([windows-threads-primitives.c]), on its semaphores and events;
      [WinLockLaws], [WinNotifications]: their specifications; [WinClients]: the
      Windows locks as the second instance of the interface; [WinExamples]:
      priorities, and runs in which the primitives fall short.
    - [HeapTable], [HeapTableLaws]: the hash table of the heap statistics
      ([heap-table.c]) and its agreement with a finite map.
    - [Effects]: [St], the monad of the heap statistics and of the nub (a state, or
      undefined behaviour), with the tactics that take a run of it apart ([sinv])
      or make one ([sstep]), [Keeps], a relation that holds between the states
      before and after, and [ends], total correctness.
    - [HeapUtils]: decoding of objects, tracing and columns ([heap-utils.c]).
    - [HeapTrail]: the search for the references that keep an object alive
      ([heap-trail.c]); [HeapTrailTables]: its tables of chained records, and
      printing; [HeapTrailLaws]: the search finds shortest trails.
    - [HeapOrder]: counts and sizes of the objects of each class
      ([heap-order1.c]); [HeapOrderLaws]: the display lists each class once, the
      greatest total size first.
    - [NubOS]: the functions of Windows that the nub calls, a class, and what
      their documentation says of them, a class of laws.
    - [Nub]: the descriptors of process, threads and breakpoints ([nub-core.h]).
    - [NubPoints]: breakpoints ([debug_points.c]), with the suspension of threads,
      their contexts and stack traces; [NubEvents]: continuing and stopping, the
      descriptors, housekeeping ([app_control.c], [misc_utils.c]); [NubWait]: the
      decision about an event and the loop that waits ([stop_reasons.c]);
      [NubCalls]: calls of functions in the process ([remote_function_call.c],
      [remote_object_registration.c]); [NubAccess]: memory and registers
      ([memory_access.c], [register_access.c]).
    - [NubLaws]: which operations leave the code and the points alone;
      [NubBreakpoints]: the invariant of breakpoints and that the operations on
      points keep it; [NubSessions]: the same for the functions of the interface;
      [NubInvariant]: for waiting and continuing, and for whole sessions.
    - [NubDebuggee]: a processor of a few instructions as an instance of Windows
      and its laws, for the examples.
    - [NubRecovery]: a breakpoint set and cleared, met and written back;
      [NubAnswers]: every debug event is answered once; [NubProgress]: a wait ends
      with an event for the debugger; [NubAccessLaws]: what is written reads back;
      [NubStack]: interactive code and stack traces ([stack_backtrace2.c]).
    - [CodeView]: the CodeView information of a mapped image: its directory, its
      records and what each says ([cv-extract.h], and of [debug_map.c] the functions
      on one record); [DebugMap]: the searches over all symbols, with the record
      that is remembered between them; [SourceLocations]: lines and addresses
      ([debug_map.c], [source_location_info.c]); [CoffMap]: the symbols of images
      without CodeView information ([coff_map.c]); [SymbolLookup]: what the
      debugger asks about symbols and the cache of bounds ([symbol_lookup.c]); the
      mapping of the information and DbgHelp are the class [LibraryFile].
    - [CodeViewExample]: a small image, for the examples; [DebugMapLaws]: the
      remembered record changes no answer, and which symbol an address has;
      [LexicalLaws]: the variables in scope; [SourceLaws]: the address of a line;
      [SymbolLookupLaws]: the cache of bounds.

    A definition has the name of the C function or macro it translates.  A family
    of C functions that differ only in a number or a type ([xep_0] to [xep_9],
    [primitive_alloc_s_rf] to [_rdwf]) is one definition with that number or type
    as its first parameter.  An executable definition returns in the monad [M]; a
    function that ends in a call through a pointer answers with the pointer and
    its arguments ([Jump]).

    ** What the theorems show

    - Dispatch: a generic-function call runs the tree of engine nodes to the
      method the abstract tree decides on, with the arguments unchanged; the
      keyed nodes reject unknown keywords; the initialisers install the entry
      point that fits the node.
    - Calls: each entry point rejects wrong argument counts, types and keywords
      with the matching error and otherwise calls the body with the arguments in
      place: the rest vector holds the optionals, every keyword slot holds the
      leftmost supplied value or the default.  [apply] spreads its last argument.
    - Non-local exits: compiled code behaves as a direct semantics of [block],
      exits and [cleanup] says (a refinement), for cleanups that do not exit.
    - Values, closures, slots: spilling and restoring, setting and reading are
      inverse to each other; bounds checks are exact.
    - Allocation: the allocators lay out exactly the object asked for in fresh
      memory and change nothing else; stack objects are laid out as heap ones.
    - Symbols: any sequence of calls gives one object to equal names and different
      objects to different ones, whatever the collector does with the table.
    - Thread variables: in every interleaving each thread sees its variables as
      a memory of its own, and nothing is touched outside allocated memory; a
      schedule shows that a thread that exits can break this.
    - Locks: what a lock guards is only touched by its holder, in every
      interleaving of any number of threads, and a lock taken again by its holder
      is given up by as many releases; a notification gives the lock up and takes
      it again.  A semaphore never grants more permits than were released to it
      and never counts past the greatest value of the system (an emulated one: past
      its maximum).  Of all joins of a thread one at most is answered, with the result
      the thread's function returned; the others are refused, at the same time or
      later.  A timed wait until a time that is not valid, as some negative timeouts
      give it, is answered with an error, not a timeout.  These are partial: they
      say nothing of a thread that waits for ever.
    - HARP locks: the same for the native back end's primitives, whose callers
      may also misuse them: each call answers the code that the specification
      gives, and no assertion fails; [primitive_unlock_recursive_lock] is left out,
      whose assertion can fail.  Nine of the calls that wait with a timeout or not
      at all return within a number of steps of their thread, whatever the
      others do ([call_bound] lists them).
    - Windows locks: the same for callers that do not unlock a lock that is not
      theirs, although the count of waiting threads that a lock keeps can be too
      small or too great; that it can is why a thread may wait for ever for a lock
      that is free, as examples show.  That count has 32 bits, and waits that time out
      leave it too great: the theorem is about at most 2^31 - 1 waits, each of which
      spends one of that many credits.
    - Heap statistics: the hash table is a finite map, through growth, failed
      growth and deleted entries, and every operation on it ends; the trail
      search always ends, prints a shortest trail from a root to an object where
      there is one, and leaves its tables empty; the report by class lists every
      class with its count and size in decimal, below 10^8; a printed column reads
      back as the number.
    - The nub: after any session of the debugger the code is the original one but
      for the enabled breakpoints, whose bytes the nub keeps; a breakpoint that is
      set, met and cleared does what it should to memory, contexts and lists;
      every debug event is answered once, in order; a wait returns when there is
      something to report; memory that can be written and the general registers
      give back what is written; stack walks end.  The theorems about breakpoints that
      are set and met, about events and about waits are of a process that is not
      exiting; while it exits the nub neither sets nor lifts anything.  They assume
      that the debugger is
      [polite] (no stepping point at the address of another point, and the like)
      and that Windows reports a breakpoint only where there is one
      ([breakpoints_stop]) and events only of threads it has announced
      ([events_of_known_threads]); examples show what happens otherwise.
    - Symbols of the nub: the search by address finds the first function or block
      that has it in its code, or else the closest symbol below it; the variables
      in scope at an address are those of the enclosing scopes, where the records
      are nested as the tree [item] says; a line is found exactly or as the
      closest one, in a file of one segment (an example shows what happens with
      two); the caches for records and for bounds keep to what was computed.
    - Machine words: division, carry, overflow, shift and count primitives compute
      the mathematical functions, on the inputs where C defines them; boxing is
      injective.
    - Theorems about sessions of the nub, like those about interleavings, are about
      the states they reach.  Every theorem about a call states that it ends: fuel is a
      number of tail calls or loop steps, and any fuel at least the stated bound
      gives the result ([run] needs the depth of the decision tree and a few
      steps, [strlen] the length of the string, a wait of the nub the number of events
      that it passes over).

    Lemmas with [Example] or a name that says what goes wrong record behaviour of
    the code that differs from its intent: the dropped carries of
    [multiply_double], the rounding division by an odd divisor, a cleanup that
    runs twice, comparison primitives that answer the opposite.

    ** What is not modelled

    Other builds (32-bit, LLVM, and of the HARP run-times for Unix and Windows all
    but their locks, notifications and semaphores: not the creation of threads,
    joins and thread variables), floating-point conversions, the
    collector itself (its memory is fresh, its contents arbitrary), the stack
    walker and debug printing.  The heap statistics and the HARP primitives, on Unix and Windows, are
    those of 32-bit programs, as their code assumes: [int], [long] and pointers
    have 32 bits there.  Of the heap statistics the counts of references
    between classes ([heap-order2.c]) are not modelled, nor what the debugger may write into the limits
    of the trail search at a break; a walk of the collector over the heap or its
    roots is a list.  Nor is it modelled that the allocation of a
    record of the trail search can fail.  Of the nub, its server, the
    start of processes, names of threads, [nub_application_restart] and page
    permissions are not modelled, nor how it finds the file with the debug
    information and reads its headers and sections, [iterate_coff_symbols], and
    the release of what it has read; the COFF symbols and the tables of symbols by kind have
    definitions without a theorem.  The bytes of a mapped image are a partial function of
    the address, so a read outside is undefined behaviour.  Its linked lists are
    lists of addresses of descriptors; a context is read and written as a whole, and
    Windows may correct the flags and the segments of one that is written;
    floats are their bytes, and the instructions that convert them are
    parameters; the nub runs in 32 bits.  Of
    [posix-threads.c], [primitive_sleep] and the emulation of timed mutexes are left
    out, and the errors EAGAIN and ENOMEM of the pthread library; [primitive_thread_join_multiple] and
    [primitive_initialize_current_thread] are definitions without a theorem (the
    first has an example).  The semaphores of Windows have no theorem, and its calls do not fail
    once an object is made.  The threads of [Concur] share a sequentially
    consistent memory; one that waits for a mutex, a condition or an object of Windows
    polls it, and a
    condition variable may wake a waiter at any time, as POSIX allows.  A thread
    of [LockClients], [PosixSemaphores], [EmulatedSemaphores] and [Joins] runs the part of [trampoline] that
    these primitives see, without the thread variables; [TlvClients] runs all of
    it.  The symbol table is that of one thread: its primitives take no lock.
    The argument buffers of the thread environment block hold 256 words each, and
    nothing is mapped behind them: the functions that fill one before they check the
    number of arguments have undefined behaviour above that, and theorems say so.
    Memory is word addressed: addresses of words are unrelated to the address
    space limit, and a pointer stays valid for ever, as under a collector.  The
    copy of overlapping blocks with [COPY_WORDS] is the copy of the words read
    first. *)

From Stdlib Require Import ZArith Lia Bool.
From stdpp Require Import base tactics option list numbers gmap.

#[export] Set Default Goal Selector "!".

(** ** Notations and scopes *)

Declare Scope crt_scope.
Delimit Scope crt_scope with crt.

Local Open Scope Z_scope.

#[global] Coercion Z.of_nat : nat >-> Z.

(** ** Machine integers

    The model fixes the 64-bit Unix build of the run-time ([long], [unsigned
    long] and pointers have 64 bits, [int] has 32).  A word in memory is kept
    in its canonical unsigned form, between [0] and [2^64 - 1]; the C casts
    are the functions below. *)

(** [(unsigned long)x] *)
Definition u64 (x : Z) : Z := x mod 18446744073709551616.

(** [(long)x] *)
Definition s64 (x : Z) : Z :=
  (x + 9223372036854775808) mod 18446744073709551616 - 9223372036854775808.

(** [(int)x] *)
Definition s32 (x : Z) : Z := (x + 2147483648) mod 4294967296 - 2147483648.

(** [(unsigned int)x]; also [(unsigned long)x] where that has 32 bits *)
Definition u32 (x : Z) : Z := x mod 4294967296.

Definition in_u64 (x : Z) : Prop := 0 <= x < 18446744073709551616.
Definition in_s64 (x : Z) : Prop := -9223372036854775808 <= x < 9223372036854775808.
Definition in_s32 (x : Z) : Prop := -2147483648 <= x < 2147483648.
Definition in_u32 (x : Z) : Prop := 0 <= x < 4294967296.

#[export] Instance in_u64_dec x : Decision (in_u64 x).
Proof. unfold in_u64. apply _. Defined.
#[export] Instance in_s64_dec x : Decision (in_s64 x).
Proof. unfold in_s64. apply _. Defined.
#[export] Instance in_s32_dec x : Decision (in_s32 x).
Proof. unfold in_s32. apply _. Defined.

(** Linear arithmetic with divisions and remainders by constants, and with the
    range predicates unfolded. *)
Ltac zmod := Z.div_mod_to_equations; lia.
Ltac word := unfold in_u64, in_s64, in_s32, u64, s64, s32 in *; zmod.

Create HintDb crt discriminated.
Create Rewrite HintDb crt.

Lemma u64_range x : in_u64 (u64 x).
Proof. word. Qed.
Lemma s64_range x : in_s64 (s64 x).
Proof. word. Qed.
Lemma s32_range x : in_s32 (s32 x).
Proof. word. Qed.
Lemma u64_id x : in_u64 x → u64 x = x.
Proof. word. Qed.
Lemma s64_id x : in_s64 x → s64 x = x.
Proof. word. Qed.
Lemma s32_id x : in_s32 x → s32 x = x.
Proof. word. Qed.
Lemma u32_id x : in_u32 x → u32 x = x.
Proof. unfold in_u32, u32. zmod. Qed.
Lemma u64_s64 x : u64 (s64 x) = u64 x.
Proof. word. Qed.
Lemma s64_u64 x : s64 (u64 x) = s64 x.
Proof. word. Qed.
Lemma s64_neg x : in_u64 x → (s64 x < 0 ↔ 9223372036854775808 <= x).
Proof. word. Qed.

#[export] Hint Resolve u64_range s64_range s32_range : crt.
#[export] Hint Rewrite u64_s64 s64_u64 : crt.

(** ** Bit fields *)

Lemma testbit_small t k n : 0 <= t < 2 ^ k → k <= n → Z.testbit t n = false.
Proof.
  intros Ht Hn. destruct (Z.lt_ge_cases k 0).
  - rewrite Z.pow_neg_r in Ht; lia.
  - rewrite <- (Z.mod_small t (2 ^ k)) by done. apply Z.mod_pow2_bits_high. lia.
Qed.

(** A multiple of [2^k] has no bit in common with a number below [2^k]. *)
Lemma land_field x t k : 0 <= k → 0 <= t < 2 ^ k → Z.land (2 ^ k * x) t = 0.
Proof.
  intros Hk Ht. apply Z.bits_inj'. intros n Hn. rewrite Z.land_spec, Z.bits_0.
  destruct (Z.lt_ge_cases n k).
  - by rewrite Z.mul_comm, Z.mul_pow2_bits_low.
  - rewrite (testbit_small t k n); [apply andb_false_r|done|lia].
Qed.

Lemma lor_field x t k : 0 <= k → 0 <= t < 2 ^ k → Z.lor (2 ^ k * x) t = 2 ^ k * x + t.
Proof. intros Hk Ht. rewrite <- Z.add_lor_land, (land_field x t k Hk Ht). by rewrite Z.add_0_r. Qed.

(** Masking with [2^k - 1] and with a contiguous field of ones. *)
Lemma land_mask x k : 0 <= k → Z.land x (2 ^ k - 1) = x mod 2 ^ k.
Proof. intros Hk. rewrite <- Z.land_ones, Z.ones_equiv by done. f_equal; lia. Qed.

Lemma land_mask_shift x k j :
  0 <= k → 0 <= j → Z.land x ((2 ^ k - 1) * 2 ^ j) = (x / 2 ^ j) mod 2 ^ k * 2 ^ j.
Proof.
  intros Hk Hj. rewrite <- land_mask, <- Z.shiftr_div_pow2, <- !Z.shiftl_mul_pow2 by done.
  apply Z.bits_inj'. intros n Hn. rewrite Z.land_spec.
  destruct (Z.lt_ge_cases n j).
  - rewrite !Z.shiftl_spec_low by done. apply andb_false_r.
  - rewrite !Z.shiftl_spec, Z.land_spec, Z.shiftr_spec by lia. do 2 f_equal. lia.
Qed.

Lemma land_bit x k : 0 <= k → Z.land x (2 ^ k) = (x / 2 ^ k) mod 2 * 2 ^ k.
Proof.
  intros Hk. pose proof (land_mask_shift x 1 k ltac:(lia) Hk) as H.
  change (2 ^ 1 - 1) with 1 in H. by rewrite Z.mul_1_l in H.
Qed.
