(* ===== verification/Memory.v ===== *)
(** * Memory, the thread environment block and the run-time's effects

    The state the C code works on: a word-addressed memory, the bump pointer
    of the allocator and of the C stack, and the scalar fields of the thread
    environment block ([TEB] of [run-time.h]).  The effects are those of the
    code: undefined behaviour ([Fault]), a call into a Dylan error function
    that does not come back ([Trap]), and state passing. *)

From S2P Require Import Prelude.
From stdpp Require Import base tactics option list numbers gmap.
From Stdlib Require Import ZArith Lia.

Local Open Scope Z_scope.

(** ** The thread environment block

    The scalar fields of [TEB].  Its arrays ([return_values.value] and the six
    argument buffers) live in memory, at the addresses below, so that a pointer
    into them is an ordinary address. What an overrun of one of them would reach
    in C is not defined: here the words behind each buffer are not mapped, so
    that going past its end is a [Fault]. *)
Record TEB := mkTEB {
  function : Z;
  argument_count : Z;
  next_methods : Z;
  return_values_count : Z;
  uwp_frame : Z
}.

Record state := mkState {
  mem : gmap Z Z;     (* byte address, a multiple of 8 -> 64-bit word *)
  brk : Z;            (* the next fresh address *)
  junk : Z → Z;       (* contents of memory nobody has written yet *)
  teb : TEB
}.

(** [VALUES_MAX] and [MAX_ARGUMENTS] *)
Definition VALUES_MAX : Z := 64.
Definition MAX_ARGUMENTS : Z := 256.

(** The addresses of the arrays of the [TEB], in the order of the struct: each
    argument buffer has room for [MAX_ARGUMENTS] words, 2048 bytes, and 256
    bytes that nothing is mapped at follow it. *)
Definition teb_return_values : Z := 4096.
Definition teb_arguments : Z := 6656.
Definition teb_new_arguments : Z := teb_arguments + 2304.
Definition teb_a : Z := teb_arguments + 4608.
Definition teb_iep_a : Z := teb_arguments + 6912.
Definition teb_apply_buffer : Z := teb_arguments + 9216.
Definition teb_buffer : Z := teb_arguments + 11520.
Definition teb_end : Z := teb_arguments + 13824.

Definition argument_buffers : list Z :=
  [teb_arguments; teb_new_arguments; teb_a; teb_iep_a; teb_apply_buffer; teb_buffer].

(** The word behind the last one of the buffer [b]. *)
Definition behind (b : Z) : Z := b + 8 * MAX_ARGUMENTS.

Ltac teb_lia :=
  unfold behind, teb_end, teb_return_values, teb_new_arguments, teb_a, teb_iep_a,
    teb_apply_buffer, teb_buffer, teb_arguments, MAX_ARGUMENTS, VALUES_MAX in *;
  first [lia|reflexivity].

Ltac buffer := unfold argument_buffers; set_solver.

(** Objects the linker places: the canonical booleans, the unbound marker, the
    empty vector and the wrappers the run-time names.  The addresses are
    arbitrary; only their being word-aligned, non-null and distinct matters.
    Where the run-time declares a Dylan constant as a C variable that holds a
    pointer ([Pempty_vectorVKi], [Dabsent_engine_nodeVKg],
    [Dinapplicable_engine_nodeVKg], [Ddirect_object_mm_wrappersVKi]), the
    definition is the pointer, which is never reassigned. *)
Definition NULL : Z := 0.
Definition KPfalseVKi : Z := 256.
Definition KPtrueVKi : Z := 272.
Definition KPunboundVKi : Z := 288.
Definition Pempty_vectorVKi : Z := 304.
Definition KLsimple_object_vectorGVKdW : Z := 320.
Definition KLmachine_wordGVKeW : Z := 384.
Definition KLdouble_integerGVKeW : Z := 448.
Definition KLbyte_stringGVKdW : Z := 512.
Definition LobjectGVKd : Z := 576.
Definition LsymbolGVKd : Z := 640.
Definition Dabsent_engine_nodeVKg : Z := 704.
Definition Dinapplicable_engine_nodeVKg : Z := 768.
Definition Ddirect_object_mm_wrappersVKi : Z := 832.

Definition DTRUE : Z := KPtrueVKi.
Definition DFALSE : Z := KPfalseVKi.

(** [RAWASBOOL(x)] *)
Definition RAWASBOOL (b : bool) : Z := if b then DTRUE else DFALSE.

(** ** Outcomes

    The Dylan functions the run-time calls to report an error; each signals a
    Dylan condition and leaves by a non-local exit, so a call to one ends the
    run.  [Break] is [primitive_break] and [Abort] is [abort()] or a failed
    [assert]. *)
Inductive trap :=
| Type_check_error (argument specializer : Z)
| Argument_count_overflow_error (fn argc : Z)
| Argument_count_error (fn argc : Z)
| Odd_keyword_arguments_error (fn argc : Z)
| Odd_number_of_keyword_args_trap (gfargs gf engine : Z)
| Invalid_keyword_trap (gfargs gf engine badkwd keys implicitp : Z)
| Repeated_slot_getter_index_out_of_range_trap (obj idx : Z)
| Repeated_slot_setter_index_out_of_range_trap (val obj idx : Z)
| Unbound_instance_slot (obj offset : Z)
| Unbound_repeated_slot (obj offset : Z)
| Break
| Abort.

Inductive res (A : Type) :=
| Ok (a : A) (s : state)
| Trap (t : trap) (s : state)
| Fault.
Arguments Ok {A} a s.
Arguments Trap {A} t s.
Arguments Fault {A}.

Definition M (A : Type) : Type := state → res A.

#[export] Instance M_ret : MRet M := λ A a s, Ok a s.
#[export] Instance M_bind : MBind M := λ A B f m s,
  match m s with
  | Ok a s' => f a s'
  | Trap t s' => Trap t s'
  | Fault => Fault
  end.

Definition trap_with {A} (t : trap) : M A := λ s, Trap t s.
Definition fault {A} : M A := λ _, Fault.
Definition gets {A} (f : state → A) : M A := λ s, Ok (f s) s.
Definition lift_option {A} (o : option A) : M A := λ s,
  match o with Some a => Ok a s | None => Fault end.
Definition when (b : bool) (m : M ()) : M () := if b then m else mret ().

Lemma bind_ok {A B} (m : M A) (f : A → M B) s a s' :
  m s = Ok a s' → (m ≫= f) s = f a s'.
Proof. intros H. unfold mbind, M_bind. by rewrite H. Qed.

Lemma bind_assoc {A B C} (m : M A) (f : A → M B) (g : B → M C) s :
  ((m ≫= f) ≫= g) s = (m ≫= (λ a, f a ≫= g)) s.
Proof. unfold mbind, M_bind. by destruct (m s). Qed.

Lemma bind_ret {A B} (a : A) (f : A → M B) s : (mret a ≫= f) s = f a s.
Proof. done. Qed.

Lemma bind_trap {A B} (m : M A) (f : A → M B) s t s' :
  m s = Trap t s' → (m ≫= f) s = Trap t s'.
Proof. intros H. unfold mbind, M_bind. by rewrite H. Qed.

(** Running a monadic program: [mnorm] reassociates and drops returns, [mstep H]
    runs the first operation with the equation [H] that says what it does. *)
Ltac mnorm := repeat first [rewrite bind_assoc | rewrite bind_ret | progress cbv beta].
Ltac mstep H := mnorm; first [rewrite (bind_ok _ _ _ _ _ H) | rewrite H]; mnorm.

(** ** Field updates *)
Definition with_mem (m : gmap Z Z) (s : state) : state :=
  mkState m (brk s) (junk s) (teb s).
Definition with_teb (f : TEB → TEB) (s : state) : state :=
  mkState (mem s) (brk s) (junk s) (f (teb s)).

Definition set_function (v : Z) (t : TEB) : TEB :=
  mkTEB v (argument_count t) (next_methods t) (return_values_count t) (uwp_frame t).
Definition set_argument_count (v : Z) (t : TEB) : TEB :=
  mkTEB (function t) v (next_methods t) (return_values_count t) (uwp_frame t).
Definition set_next_methods (v : Z) (t : TEB) : TEB :=
  mkTEB (function t) (argument_count t) v (return_values_count t) (uwp_frame t).
Definition set_return_values_count (v : Z) (t : TEB) : TEB :=
  mkTEB (function t) (argument_count t) (next_methods t) v (uwp_frame t).
Definition set_uwp_frame (v : Z) (t : TEB) : TEB :=
  mkTEB (function t) (argument_count t) (next_methods t) (return_values_count t) v.

Definition modify_teb (f : TEB → TEB) : M () := λ s, Ok () (with_teb f s).
Definition get_teb : M TEB := gets teb.

(** ** Loads, stores and allocation *)

(** Reading the word at [a]; a word that is not mapped is undefined behaviour. *)
Definition load (a : Z) : M Z := λ s,
  match mem s !! a with Some v => Ok v s | None => Fault end.

Definition store (a v : Z) : M () := λ s,
  match mem s !! a with
  | Some _ => Ok () (with_mem (<[a := v]> (mem s)) s)
  | None => Fault
  end.

(** [p[i]] for a pointer [p] to words *)
Definition idx (p i : Z) : Z := p + 8 * i.

(** A byte at any address, in the word that holds it (x86_64 is
    little-endian). *)
Definition load_byte (a : Z) : M Z :=
  w ← load (a - a mod 8); mret (Z.land (Z.shiftr w (8 * (a mod 8))) 255).

Definition store_byte (a v : Z) : M () :=
  w ← load (a - a mod 8);
  let k := 8 * (a mod 8) in
  store (a - a mod 8)
    (Z.lor (Z.ldiff w (Z.shiftl 255 k)) (Z.shiftl (Z.land v 255) k)).

Fixpoint read_words (a : Z) (n : nat) : M (list Z) :=
  match n with
  | O => mret []
  | S n => v ← load a; l ← read_words (a + 8) n; mret (v :: l)
  end.

Fixpoint write_words (a : Z) (l : list Z) : M () :=
  match l with
  | [] => mret ()
  | v :: l => store a v ;; write_words (a + 8) l
  end.

(** [COPY_WORDS(dst, src, size)]: [memcpy] of [size] words; a negative size is
    a huge [size_t]. *)
Definition COPY_WORDS (dst src size : Z) : M () :=
  if size <? 0 then fault
  else l ← read_words src (Z.to_nat size); write_words dst l.

(** Writing a list at an address, as a function on memories. *)
Fixpoint mset (m : gmap Z Z) (a : Z) (l : list Z) : gmap Z Z :=
  match l with
  | [] => m
  | v :: l => mset (<[a := v]> m) (a + 8) l
  end.

Definition junk_words (j : Z → Z) (a : Z) (n : nat) : list Z :=
  (λ i : nat, j (a + 8 * i)) <$> seq 0 n.

(** Fresh words, from [GC_MALLOC]/[malloc] or from the C stack; their contents
    are whatever [junk] says. *)
Definition alloc_words (n : Z) : M Z := λ s,
  if n <? 0 then Fault
  else Ok (brk s)
          (mkState (mset (mem s) (brk s) (junk_words (junk s) (brk s) (Z.to_nat n)))
                   (brk s + 8 * n) (junk s) (teb s)).

(** ** Arrays in memory *)

Definition arr (m : gmap Z Z) (a : Z) (l : list Z) : Prop :=
  ∀ (i : nat) x, l !! i = Some x → m !! (a + 8 * i) = Some x.

Definition mapped (m : gmap Z Z) (a : Z) (n : Z) : Prop :=
  ∀ i, 0 <= i < n → is_Some (m !! (a + 8 * i)).

(** The two blocks do not overlap. *)
Definition disjoint_blocks (a n b k : Z) : Prop :=
  ∀ i j, 0 <= i < n → 0 <= j < k → a + 8 * i ≠ b + 8 * j.

(** Two blocks one of which is empty or ends before the other starts. *)
Definition apart (a n b k : Z) : Prop :=
  n <= 0 ∨ k <= 0 ∨ a + 8 * n <= b ∨ b + 8 * k <= a.

Lemma apart_disjoint a n b k : apart a n b k → disjoint_blocks a n b k.
Proof. intros H i j Hi Hj. unfold apart in H. lia. Qed.

Ltac disjoint := intros ? ? ? ?; unfold idx in *; simpl length in *; lia.

Lemma arr_nil m a : arr m a [].
Proof. intros i x H. done. Qed.

Lemma arr_cons m a x l : arr m a (x :: l) ↔ m !! a = Some x ∧ arr m (a + 8) l.
Proof.
  split.
  - intros H. split.
    + specialize (H 0%nat x eq_refl). by rewrite Z.add_0_r in H.
    + intros i y Hi. specialize (H (S i) y Hi).
      replace (a + 8 + 8 * i) with (a + 8 * S i) by lia. done.
  - intros [H1 H2] [|i] y Hi; simpl in Hi.
    + injection Hi as <-. by replace (a + 8 * 0%nat) with a by lia.
    + replace (a + 8 * S i) with (a + 8 + 8 * i) by lia. eauto.
Qed.

Lemma arr_app m a l1 l2 :
  arr m a (l1 ++ l2) ↔ arr m a l1 ∧ arr m (a + 8 * length l1) l2.
Proof.
  revert a. induction l1 as [|x l1 IH]; intros a; simpl.
  - replace (a + 8 * 0%nat) with a by lia. pose proof (arr_nil m a). tauto.
  - rewrite !arr_cons, IH. replace (a + 8 + 8 * length l1) with (a + 8 * S (length l1)) by lia.
    tauto.
Qed.

Lemma arr_lookup m a l (i : nat) x :
  arr m a l → l !! i = Some x → m !! (a + 8 * i) = Some x.
Proof. intros H. apply H. Qed.

Lemma arr_take m a l n : arr m a l → arr m a (take n l).
Proof. intros H i x Hi. apply H. apply lookup_take_Some in Hi. tauto. Qed.

Lemma arr_drop m a l (n : nat) : arr m a l → arr m (a + 8 * n) (drop n l).
Proof.
  intros H i x Hi. rewrite lookup_drop in Hi.
  replace (a + 8 * n + 8 * i) with (a + 8 * (n + i)%nat) by lia. by apply H.
Qed.

Lemma arr_mapped m a l : arr m a l → mapped m a (length l).
Proof.
  intros H i Hi. destruct (l !! Z.to_nat i) as [x|] eqn:E.
  - specialize (H _ _ E). rewrite Z2Nat.id in H by lia. eauto.
  - apply lookup_ge_None in E. lia.
Qed.

Lemma mapped_arr m a (n : nat) : mapped m a n → ∃ l, length l = n ∧ arr m a l.
Proof.
  revert a. induction n as [|n IH]; intros a H.
  - exists []. split; [done|apply arr_nil].
  - destruct (H 0) as [x Hx]; [lia|]. rewrite Z.mul_0_r, Z.add_0_r in Hx.
    destruct (IH (a + 8)) as (l & Hl & Ha).
    + intros i Hi. replace (a + 8 + 8 * i) with (a + 8 * (i + 1)) by lia. apply H. lia.
    + exists (x :: l). split; [simpl; lia|]. by apply arr_cons.
Qed.

Lemma mapped_sub m a n i k :
  mapped m a n → 0 <= i → i + k <= n → mapped m (a + 8 * i) k.
Proof.
  intros H Hi Hk j Hj. replace (a + 8 * i + 8 * j) with (a + 8 * (i + j)) by lia.
  apply H. lia.
Qed.

Lemma mapped_le m a n k : mapped m a n → k <= n → mapped m a k.
Proof. intros H Hk i Hi. apply H. lia. Qed.

(** *** [mset] *)

Lemma mset_app m a l1 l2 :
  mset m a (l1 ++ l2) = mset (mset m a l1) (a + 8 * length l1) l2.
Proof.
  revert m a. induction l1 as [|x l1 IH]; intros m a; simpl.
  - by rewrite Z.add_0_r.
  - rewrite IH. f_equal. lia.
Qed.

Lemma lookup_mset_out m a l b :
  (∀ i, 0 <= i < length l → b ≠ a + 8 * i) → mset m a l !! b = m !! b.
Proof.
  revert m a. induction l as [|x l IH]; intros m a H; simpl in *; [done|].
  rewrite IH.
  - rewrite lookup_insert_ne; [done|]. specialize (H 0). lia.
  - intros i Hi E. apply (H (i + 1)); lia.
Qed.

Lemma arr_mset m a l : arr (mset m a l) a l.
Proof.
  revert m a. induction l as [|x l IH]; intros m a; simpl.
  - apply arr_nil.
  - apply arr_cons. split; [|apply IH].
    rewrite lookup_mset_out; [apply lookup_insert_eq|]. intros. lia.
Qed.

Lemma lookup_mset_disjoint m a l b k i :
  disjoint_blocks a (length l) b k → 0 <= i < k →
  mset m a l !! (b + 8 * i) = m !! (b + 8 * i).
Proof.
  intros D Hi. apply lookup_mset_out. intros j Hj E. by apply (D j i).
Qed.

Lemma arr_mset_disjoint m a l b k :
  disjoint_blocks a (length l) b (length k) → arr m b k → arr (mset m a l) b k.
Proof.
  intros D H i x Hi. rewrite (lookup_mset_disjoint m a l b (length k)).
  - by apply H.
  - done.
  - apply lookup_lt_Some in Hi. lia.
Qed.

Lemma mapped_mset m a l b n : mapped m b n → mapped (mset m a l) b n.
Proof.
  intros H i Hi. specialize (H i Hi). revert m a H. induction l as [|x l IH]; intros m a H; simpl.
  - done.
  - apply IH. destruct (decide (a = b + 8 * i)) as [->|].
    + rewrite lookup_insert_eq. eauto.
    + by rewrite lookup_insert_ne.
Qed.

Lemma lookup_mset_is_Some m a l b : is_Some (m !! b) → is_Some (mset m a l !! b).
Proof.
  intros H. assert (mapped m b 1) as Hm.
  { intros i Hi. by replace (b + 8 * i) with b by lia. }
  destruct (mapped_mset m a l b 1 Hm 0) as [x Hx]; [lia|].
  rewrite Z.mul_0_r, Z.add_0_r in Hx. eauto.
Qed.

Lemma insert_mset_out m a l b v :
  (∀ i, 0 <= i < length l → b ≠ a + 8 * i) →
  <[b := v]> (mset m a l) = mset (<[b := v]> m) a l.
Proof.
  revert m a. induction l as [|x l IH]; intros m a H; simpl in *; [done|].
  rewrite IH.
  - f_equal. apply insert_insert_ne. specialize (H 0). lia.
  - intros i Hi E. apply (H (i + 1)); lia.
Qed.

Lemma insert_mset m a l (i : nat) v :
  (i < length l)%nat → <[a + 8 * i := v]> (mset m a l) = mset m a (<[i := v]> l).
Proof.
  revert m a i. induction l as [|x l IH]; intros m a i Hi; simpl in *; [lia|].
  destruct i as [|i]; simpl.
  - rewrite Z.add_0_r, insert_mset_out by lia. f_equal. apply insert_insert_eq.
  - replace (a + 8 * S i) with (a + 8 + 8 * i) by lia. apply IH. lia.
Qed.

Lemma mset_same m a l : arr m a l → mset m a l = m.
Proof.
  revert m a. induction l as [|x l IH]; intros m a H; simpl; [done|].
  apply arr_cons in H as [H1 H2]. rewrite insert_id by done. by apply IH.
Qed.

(** *** The monadic operations *)

Lemma load_ok s a v : mem s !! a = Some v → load a s = Ok v s.
Proof. intros H. unfold load. by rewrite H. Qed.

Lemma store_ok s a v :
  is_Some (mem s !! a) → store a v s = Ok () (with_mem (<[a := v]> (mem s)) s).
Proof. intros [x H]. unfold store. by rewrite H. Qed.

Lemma with_mem_id s : with_mem (mem s) s = s.
Proof. by destruct s. Qed.

Lemma with_mem_with_mem m m' s : with_mem m (with_mem m' s) = with_mem m s.
Proof. done. Qed.

Lemma read_words_ok s a l : arr (mem s) a l → read_words a (length l) s = Ok l s.
Proof.
  revert a. induction l as [|x l IH]; intros a H; simpl; [done|].
  apply arr_cons in H as [H1 H2].
  rewrite (bind_ok _ _ _ _ _ (load_ok _ _ _ H1)).
  rewrite (bind_ok _ _ _ _ _ (IH _ H2)). done.
Qed.

Lemma write_words_ok s a l :
  mapped (mem s) a (length l) →
  write_words a l s = Ok () (with_mem (mset (mem s) a l) s).
Proof.
  revert s a. induction l as [|x l IH]; intros s a H; simpl in *.
  - by rewrite with_mem_id.
  - rewrite (bind_ok _ _ s () (with_mem (<[a := x]> (mem s)) s)).
    + rewrite IH; [done|]. simpl.
      apply (mapped_mset (mem s) a [x]).
      apply (mapped_sub _ _ _ 1) with (k := length l) in H; [|lia|lia].
      by replace (a + 8 * 1) with (a + 8) in H by lia.
    + apply store_ok. destruct (H 0) as [y Hy]; [lia|].
      rewrite Z.mul_0_r, Z.add_0_r in Hy. eauto.
Qed.

Lemma COPY_WORDS_ok s dst src l :
  arr (mem s) src l → mapped (mem s) dst (length l) →
  COPY_WORDS dst src (length l) s = Ok () (with_mem (mset (mem s) dst l) s).
Proof.
  intros H Hd. unfold COPY_WORDS. destruct (Z.ltb_spec (length l) 0); [lia|].
  rewrite Nat2Z.id. rewrite (bind_ok _ _ _ _ _ (read_words_ok _ _ _ H)).
  by apply write_words_ok.
Qed.

Lemma modify_teb_ok f s : modify_teb f s = Ok () (with_teb f s).
Proof. done. Qed.

Lemma get_teb_ok s : get_teb s = Ok (teb s) s.
Proof. done. Qed.

Lemma length_junk_words j a n : length (junk_words j a n) = n.
Proof. unfold junk_words. by rewrite length_fmap, length_seq. Qed.

#[export] Hint Resolve arr_nil arr_mset arr_take arr_drop mapped_mset arr_mapped : crt.
