(* ===== verification/Bytes.v ===== *)
(** * Bytes in a word-addressed memory

    The bytes of a word, reading and writing them, and the C library's loops
    over them ([memset], [memcpy], [memcmp], [strlen]). *)

From S2P Require Import Prelude Memory.
From stdpp Require Import base tactics option list numbers gmap.
From Stdlib Require Import ZArith Lia Bool.

Local Open Scope Z_scope.

(** ** One byte *)

Definition byte_of (w k : Z) : Z := Z.land (Z.shiftr w (8 * k)) 255.

Definition set_byte (w k v : Z) : Z :=
  Z.lor (Z.ldiff w (Z.shiftl 255 (8 * k))) (Z.shiftl (Z.land v 255) (8 * k)).

Lemma testbit_255 n : Z.testbit 255 n = bool_decide (0 <= n < 8).
Proof.
  destruct (decide (0 <= n < 8)) as [Hn|Hn].
  - rewrite bool_decide_true by done.
    assert (n = 0 ∨ n = 1 ∨ n = 2 ∨ n = 3 ∨ n = 4 ∨ n = 5 ∨ n = 6 ∨ n = 7)
      as [->|[->|[->|[->|[->|[->|[->| ->]]]]]]] by lia; reflexivity.
  - rewrite bool_decide_false by done. destruct (Z.lt_ge_cases n 0).
    + by apply Z.testbit_neg_r.
    + apply (testbit_small 255 8); lia.
Qed.

Lemma byte_of_set_byte w k v j :
  0 <= k → 0 <= j → byte_of (set_byte w k v) j = if j =? k then Z.land v 255 else byte_of w j.
Proof.
  intros Hk Hj. unfold byte_of, set_byte. apply Z.bits_inj'. intros n Hn.
  destruct (Z.eqb_spec j k) as [->|Hne];
    rewrite !Z.land_spec, Z.shiftr_spec, Z.lor_spec, Z.ldiff_spec, !testbit_255 by lia.
  - rewrite !Z.shiftl_spec, Z.land_spec, !testbit_255 by lia.
    replace (n + 8 * k - 8 * k) with n by lia.
    case_bool_decide; rewrite ?andb_false_r; [|done].
    by destruct (Z.testbit w (n + 8 * k)), (Z.testbit v n).
  - rewrite !Z.shiftl_spec, Z.land_spec, !testbit_255, Z.shiftr_spec by lia.
    destruct (decide (0 <= n < 8)) as [Hb|Hb].
    + rewrite (bool_decide_false (0 <= n + 8 * j - 8 * k < 8)) by lia.
      by rewrite !andb_false_r, orb_false_r, !andb_true_r.
    + rewrite (bool_decide_false (0 <= n < 8)) by done. by rewrite !andb_false_r.
Qed.

Lemma load_byte_ok s a w :
  mem s !! (a - a mod 8) = Some w → load_byte a s = Ok (byte_of w (a mod 8)) s.
Proof. intros H1'. unfold load_byte. by mstep (load_ok _ _ _ H1'). Qed.

Lemma store_byte_ok s a v w :
  mem s !! (a - a mod 8) = Some w →
  store_byte a v s = Ok () (with_mem (<[a - a mod 8 := set_byte w (a mod 8) v]> (mem s)) s).
Proof.
  intros Hw. unfold store_byte. mstep (load_ok _ _ _ Hw). cbv zeta.
  by rewrite (store_ok s _ _ (mk_is_Some _ _ Hw)).
Qed.

(** Reading any byte after writing one. *)
Lemma load_byte_after_store s a v w b wb :
  mem s !! (a - a mod 8) = Some w → mem s !! (b - b mod 8) = Some wb →
  let s' := with_mem (<[a - a mod 8 := set_byte w (a mod 8) v]> (mem s)) s in
  load_byte b s' = Ok (if b =? a then Z.land v 255 else byte_of wb (b mod 8)) s'.
Proof.
  intros Ha Hb s'. pose proof (Z.mod_pos_bound a 8). pose proof (Z.mod_pos_bound b 8).
  destruct (decide (a - a mod 8 = b - b mod 8)) as [E|E].
  - rewrite E in Ha. rewrite Hb in Ha. injection Ha as ->.
    rewrite (load_byte_ok s' b (set_byte w (a mod 8) v)).
    + f_equal. rewrite byte_of_set_byte by lia.
      destruct (Z.eqb_spec b a) as [->|Hne]; [by rewrite Z.eqb_refl|].
      by rewrite (proj2 (Z.eqb_neq _ _)) by lia.
    + simpl. rewrite E. apply lookup_insert_eq.
  - rewrite (load_byte_ok s' b wb).
    + by rewrite (proj2 (Z.eqb_neq b a)) by congruence.
    + simpl. by rewrite lookup_insert_ne.
Qed.

(** ** Byte-addressed views

    The byte at any address, if its word is mapped. *)
Definition byte_at (m : gmap Z Z) (a : Z) : option Z :=
  (λ w, byte_of w (a mod 8)) <$> m !! (a - a mod 8).

(** The words that hold the bytes from [a] to [a + n - 1]. *)
Definition holds_byte (a n c : Z) : Prop := ∃ b, a <= b < a + n ∧ c = b - b mod 8.

(** [s'] is [s] with the bytes from [a] to [a + n - 1] replaced by [f]. *)
Record bytes_set (s s' : state) (a n : Z) (f : Z → Z) : Prop := {
  bs_state : s' = with_mem (mem s') s;
  bs_bytes b : byte_at (mem s') b
               = if decide (a <= b < a + n) then Some (f b) else byte_at (mem s) b;
  bs_words c : ¬ holds_byte a n c → mem s' !! c = mem s !! c;
  bs_mapped c : is_Some (mem s' !! c) ↔ is_Some (mem s !! c)
}.

Lemma byte_at_word m a v : m !! (a - a mod 8) = Some v → byte_at m a = Some (byte_of v (a mod 8)).
Proof. unfold byte_at. by intros ->. Qed.

Lemma store_byte_set s a v :
  is_Some (byte_at (mem s) a) →
  ∃ s', store_byte a v s = Ok () s' ∧ bytes_set s s' a 1 (λ _, Z.land v 255).
Proof.
  intros [x Hx]. unfold byte_at in Hx. destruct (mem s !! (a - a mod 8)) as [w|] eqn:Hw; [|done].
  eexists. split; [by apply store_byte_ok|]. pose proof (Z.mod_pos_bound a 8).
  constructor; simpl; [done| | |].
  - intros b. unfold byte_at at 1. pose proof (Z.mod_pos_bound b 8).
    destruct (decide (a - a mod 8 = b - b mod 8)) as [E|E].
    + rewrite <- E, lookup_insert_eq. simpl. rewrite byte_of_set_byte by lia.
      destruct (decide (a <= b < a + 1)) as [D|D].
      * assert (b = a) as -> by lia. by rewrite Z.eqb_refl.
      * rewrite (proj2 (Z.eqb_neq _ _)) by lia. unfold byte_at. by rewrite <- E, Hw.
    + rewrite lookup_insert_ne by done. rewrite decide_False; [done|].
      intros D. assert (b = a) as -> by lia. done.
  - intros c Hc. apply lookup_insert_ne. intros <-. apply Hc. exists a. split; [lia|done].
  - intros c. destruct (decide (c = a - a mod 8)) as [->|N].
    + rewrite lookup_insert_eq, Hw. split; eauto.
    + by rewrite lookup_insert_ne.
Qed.

Lemma bytes_set_trans s1 s2 s3 a n k f :
  0 <= n → 0 <= k →
  bytes_set s1 s2 a n f → bytes_set s2 s3 (a + n) k f → bytes_set s1 s3 a (n + k) f.
Proof.
  intros Hn Hk [S1 B1 W1 M1] [S2 B2 W2 M2]. constructor.
  - rewrite S2, S1. simpl. by destruct s1.
  - intros b. rewrite B2, B1. repeat case_decide; try done; lia.
  - intros c Hc. rewrite W2, W1; [done| |]; intros (b & Hb & ->); apply Hc; exists b; split;
      (done || lia).
  - intros c. by rewrite M2, M1.
Qed.

Lemma bytes_set_nil s a f : bytes_set s s a 0 f.
Proof.
  constructor; [by destruct s| |done|done]. intros b. rewrite decide_False; [done|lia].
Qed.

Lemma byte_at_mapped s s' a n f b :
  bytes_set s s' a n f → is_Some (byte_at (mem s) b) → is_Some (byte_at (mem s') b).
Proof. intros [_ B _ _] H. rewrite B. case_decide; eauto. Qed.

(** ** [memset], [memcpy], [memcmp] and [strlen] *)

Fixpoint memset (d v : Z) (count : nat) : M () :=
  match count with
  | O => mret ()
  | S count => store_byte d v ;; memset (d + 1) v count
  end.

Fixpoint copy_bytes (dst src : Z) (count : nat) : M () :=
  match count with
  | O => mret ()
  | S count => x ← load_byte src; store_byte dst x ;; copy_bytes (dst + 1) (src + 1) count
  end.

(** [memcpy] between overlapping blocks is undefined. *)
Definition memcpy (dst src : Z) (count : nat) : M () :=
  if (dst + count <=? src) || (src + count <=? dst) then copy_bytes dst src count else fault.

Fixpoint read_bytes (a : Z) (n : nat) : M (list Z) :=
  match n with
  | O => mret []
  | S n => x ← load_byte a; l ← read_bytes (a + 1) n; mret (x :: l)
  end.

(** The sign of the first difference. *)
Fixpoint compare_lists (l k : list Z) : Z :=
  match l, k with
  | x :: l, y :: k => if x =? y then compare_lists l k else Z.sgn (x - y)
  | _, _ => 0
  end.

Definition memcmp (a b : Z) (n : nat) : M Z :=
  l ← read_bytes a n; k ← read_bytes b n; mret (compare_lists l k).

(** The scan stops at the first zero byte; [fuel] bounds it. *)
Fixpoint strlen (fuel : nat) (s : Z) : M Z :=
  x ← load_byte s;
  if x =? 0 then mret 0
  else match fuel with
       | O => fault
       | S fuel => n ← strlen fuel (s + 1); mret (n + 1)
       end.

Lemma load_byte_at s a x : byte_at (mem s) a = Some x → load_byte a s = Ok x s.
Proof.
  unfold byte_at. destruct (mem s !! (a - a mod 8)) as [w|] eqn:Hw; [|done]. intros [= <-].
  by apply load_byte_ok.
Qed.

Lemma memset_ok s d v (count : nat) :
  (∀ b, d <= b < d + count → is_Some (byte_at (mem s) b)) →
  ∃ s', memset d v count s = Ok () s' ∧ bytes_set s s' d count (λ _, Z.land v 255).
Proof.
  revert s d. induction count as [|count IH]; intros s d Hm.
  - exists s. split; [done|apply bytes_set_nil].
  - destruct (store_byte_set s d v) as (s1 & E1 & B1); [apply Hm; lia|].
    destruct (IH s1 (d + 1)) as (s2 & E2 & B2).
    { intros b Hb. eapply byte_at_mapped; [done|]. apply Hm. lia. }
    exists s2. simpl. split; [by mstep E1|].
    replace (Z.of_nat (S count)) with (1 + Z.of_nat count) by lia.
    apply (bytes_set_trans s s1 s2); [lia|lia|done|done].
Qed.

(** A C string: bytes that are not zero, then a zero byte. *)
Definition cstring (m : gmap Z Z) (a : Z) (l : list Z) : Prop :=
  (∀ (i : nat) x, l !! i = Some x → byte_at m (a + i) = Some x ∧ x ≠ 0) ∧
  byte_at m (a + length l) = Some 0.

Lemma cstring_cons m a x l :
  cstring m a (x :: l) ↔ byte_at m a = Some x ∧ x ≠ 0 ∧ cstring m (a + 1) l.
Proof.
  split.
  - intros [H1 H2]. destruct (H1 0%nat x eq_refl) as [Hb Hx].
    rewrite Z.add_0_r in Hb. split_and!; try done. split.
    + intros i y Hi. destruct (H1 (S i) y Hi) as [H3 H4]. split; [|done].
      by replace (a + 1 + i) with (a + S i) by lia.
    + by replace (a + 1 + length l) with (a + length (x :: l)) by (simpl; lia).
  - intros (Hb & Hx & H1 & H2). split.
    + intros [|i] y Hi; simpl in Hi.
      * injection Hi as ->. by rewrite Z.add_0_r.
      * replace (a + S i) with (a + 1 + i) by lia. by apply H1.
    + by replace (a + length (x :: l)) with (a + 1 + length l) by (simpl; lia).
Qed.

Lemma strlen_ok s a l fuel :
  cstring (mem s) a l → (length l ≤ fuel)%nat → strlen fuel a s = Ok (length l : Z) s.
Proof.
  revert a fuel. induction l as [|x l IH]; intros a fuel H Hf.
  - destruct H as [_ H]. simpl in H. rewrite Z.add_0_r in H.
    destruct fuel; simpl; by mstep (load_byte_at _ _ _ H).
  - apply cstring_cons in H as (Hb & Hx & H). destruct fuel as [|fuel]; [simpl in Hf; lia|].
    simpl in Hf |- *. mstep (load_byte_at _ _ _ Hb). rewrite (proj2 (Z.eqb_neq x 0)) by done.
    mstep (IH (a + 1) fuel H ltac:(lia)). unfold mret, M_ret. f_equal. simpl. lia.
Qed.

Lemma byte_at_range m a x : byte_at m a = Some x → 0 <= x < 256.
Proof.
  unfold byte_at. destruct (m !! (a - a mod 8)) as [w|]; [|done]. intros [= <-]. unfold byte_of.
  change 255 with (2 ^ 8 - 1). rewrite land_mask by lia. by apply Z.mod_pos_bound.
Qed.

Lemma bytes_set_ext s s' a n f g :
  (∀ b, a <= b < a + n → f b = g b) → bytes_set s s' a n f → bytes_set s s' a n g.
Proof.
  intros E [S B W M]. constructor; try done. intros b. rewrite B. case_decide; [by rewrite E|done].
Qed.

(** Copying bytes to a block that does not overlap them. *)
Lemma copy_bytes_ok s dst src (l : list Z) :
  (∀ (i : nat) x, l !! i = Some x → byte_at (mem s) (src + i) = Some x) →
  (∀ b, dst <= b < dst + length l → is_Some (byte_at (mem s) b)) →
  dst + length l <= src ∨ src + length l <= dst →
  ∃ s', copy_bytes dst src (length l) s = Ok () s' ∧
    bytes_set s s' dst (length l) (λ b, default 0 (l !! Z.to_nat (b - dst))).
Proof.
  revert s dst src. induction l as [|x l IH]; intros s dst src Hl Hm Hd.
  - exists s. split; [done|apply bytes_set_nil].
  - assert (byte_at (mem s) src = Some x) as Hx.
    { specialize (Hl 0%nat x eq_refl). by rewrite Z.add_0_r in Hl. }
    pose proof (byte_at_range _ _ _ Hx) as Rx. cbn [length] in *.
    destruct (store_byte_set s dst x) as (s1 & E1 & B1); [apply Hm; lia|].
    destruct (IH s1 (dst + 1) (src + 1)) as (s2 & E2 & B2).
    + intros i y Hi. rewrite (bs_bytes _ _ _ _ _ B1). rewrite decide_False.
      * replace (src + 1 + i) with (src + S i) by lia. by apply Hl.
      * apply lookup_lt_Some in Hi. lia.
    + intros b Hb. eapply byte_at_mapped; [done|]. apply Hm. lia.
    + lia.
    + exists s2. simpl. split.
      { mstep (load_byte_at _ _ _ Hx). by mstep E1. }
      replace (Z.of_nat (S (length l))) with (1 + Z.of_nat (length l)) by lia.
      apply (bytes_set_trans s s1 s2); [lia|lia| |].
      * eapply bytes_set_ext; [|exact B1]. intros b Hb. replace (b - dst) with 0 by lia. simpl.
        change 255 with (2 ^ 8 - 1). rewrite land_mask by lia. by apply Z.mod_small.
      * eapply bytes_set_ext; [|exact B2]. intros b Hb. simpl.
        replace (Z.to_nat (b - dst)) with (S (Z.to_nat (b - (dst + 1)))) by lia. done.
Qed.

Lemma memcpy_ok s dst src (l : list Z) :
  (∀ (i : nat) x, l !! i = Some x → byte_at (mem s) (src + i) = Some x) →
  (∀ b, dst <= b < dst + length l → is_Some (byte_at (mem s) b)) →
  dst + length l <= src ∨ src + length l <= dst →
  ∃ s', memcpy dst src (length l) s = Ok () s' ∧
    bytes_set s s' dst (length l) (λ b, default 0 (l !! Z.to_nat (b - dst))).
Proof.
  intros Hl Hm Hd. unfold memcpy.
  replace ((dst + length l <=? src) || (src + length l <=? dst)) with true by lia.
  by apply copy_bytes_ok.
Qed.

Lemma read_bytes_ok s a (l : list Z) :
  (∀ (i : nat) x, l !! i = Some x → byte_at (mem s) (a + i) = Some x) →
  read_bytes a (length l) s = Ok l s.
Proof.
  revert a. induction l as [|x l IH]; intros a H; simpl; [done|].
  assert (byte_at (mem s) a = Some x) as Hx.
  { specialize (H 0%nat x eq_refl). by rewrite Z.add_0_r in H. }
  mstep (load_byte_at _ _ _ Hx). assert (read_bytes (a + 1) (length l) s = Ok l s) as E.
  { apply IH. intros i y Hi. replace (a + 1 + i) with (a + S i) by lia. by apply H. }
  by mstep E.
Qed.

Lemma compare_lists_0 l k : length l = length k → compare_lists l k = 0 ↔ l = k.
Proof.
  revert k. induction l as [|x l IH]; intros [|y k] H; simpl in *; try done.
  destruct (Z.eqb_spec x y) as [->|N].
  - rewrite IH by lia. split; [by intros ->|by intros [= ->]].
  - split; [|congruence]. intros E. assert (x - y = 0) by lia. lia.
Qed.

Lemma memcmp_ok s a b (l k : list Z) :
  (∀ (i : nat) x, l !! i = Some x → byte_at (mem s) (a + i) = Some x) →
  (∀ (i : nat) x, k !! i = Some x → byte_at (mem s) (b + i) = Some x) →
  length k = length l →
  ∃ r, memcmp a b (length l) s = Ok r s ∧ (r = 0 ↔ l = k).
Proof.
  intros Hl Hk E. exists (compare_lists l k). split; [|by apply compare_lists_0].
  unfold memcmp. mstep (read_bytes_ok _ _ _ Hl). rewrite <- E.
  by mstep (read_bytes_ok _ _ _ Hk).
Qed.
