(* ===== verification/Tagging.v ===== *)
(** * Tagged values, object layouts and signatures

    The tagging macros of [run-time.h], the field offsets of the structs the
    dispatcher reads, and the packed properties word of a signature. *)

From S2P Require Import Prelude Memory.
From stdpp Require Import base tactics option list numbers gmap.
From Stdlib Require Import ZArith Lia Bool.

Local Open Scope Z_scope.

(** ** Tags *)

Definition ITAG : Z := 1.
Definition CTAG : Z := 2.
Definition UTAG : Z := 3.

Definition TAG_BITS (x : Z) : Z := Z.land (u64 x) 3.

(** Boxing a raw integer, byte character or Unicode character. *)
Definition I (n : Z) : Z := Z.lor (u64 (Z.shiftl (u64 n) 2)) ITAG.
Definition C (n : Z) : Z := Z.lor (u64 (Z.shiftl (u64 n) 2)) CTAG.
Definition U (n : Z) : Z := Z.lor (u64 (Z.shiftl (u64 n) 2)) UTAG.

(** Unboxing, whatever the tag. *)
Definition R (w : Z) : Z := Z.shiftr (s64 w) 2.

(** Forcing a tag onto a word. *)
Definition FI (n : Z) : Z := Z.lor (u64 n) ITAG.
Definition FC (n : Z) : Z := Z.lor (u64 n) CTAG.
Definition FU (n : Z) : Z := Z.lor (u64 n) UTAG.

Definition TAGGEDQ (n : Z) : bool := negb (TAG_BITS n =? 0).

Definition primitive_integerQ (x : Z) : Z := RAWASBOOL (TAG_BITS x =? 1).

(** The range of a boxed integer: 62 bits, signed. *)
Definition in_fixnum (n : Z) : Prop := -2305843009213693952 <= n < 2305843009213693952.

#[export] Instance in_fixnum_dec n : Decision (in_fixnum n).
Proof. unfold in_fixnum. apply _. Defined.

(** ** The macros in closed form *)

Lemma TAG_BITS_eq x : TAG_BITS x = x mod 4.
Proof. unfold TAG_BITS. change 3 with (2 ^ 2 - 1). rewrite land_mask by lia. word. Qed.

Lemma box_eq n t : 0 <= t < 4 →
  Z.lor (u64 (Z.shiftl (u64 n) 2)) t = u64 (4 * n) + t.
Proof.
  intros Ht. rewrite Z.shiftl_mul_pow2 by lia.
  replace (u64 (u64 n * 2 ^ 2)) with (2 ^ 2 * (u64 (4 * n) / 4)) by word.
  rewrite lor_field by lia. word.
Qed.

Lemma I_eq n : I n = u64 (4 * n) + 1.
Proof. by apply box_eq. Qed.
Lemma C_eq n : C n = u64 (4 * n) + 2.
Proof. by apply box_eq. Qed.
Lemma U_eq n : U n = u64 (4 * n) + 3.
Proof. by apply box_eq. Qed.

Lemma R_eq w : R w = s64 w / 4.
Proof. unfold R. by rewrite Z.shiftr_div_pow2. Qed.

Lemma FI_eq n : n mod 4 = 0 → FI n = u64 n + 1.
Proof.
  intros H. unfold FI, ITAG. replace (u64 n) with (2 ^ 2 * (u64 n / 4)) by word.
  rewrite lor_field; lia.
Qed.

Lemma I_range n : in_u64 (I n).
Proof. rewrite I_eq. word. Qed.

(** [I] never yields the null pointer. *)
Lemma I_nonzero n : I n ≠ 0.
Proof. rewrite I_eq. word. Qed.

Lemma R_box n t : 0 <= t < 4 → in_fixnum n → R (u64 (4 * n) + t) = n.
Proof. intros Ht Hn. rewrite R_eq. unfold in_fixnum in Hn. word. Qed.

Lemma R_I_id n : in_fixnum n → R (I n) = n.
Proof. intros Hn. rewrite I_eq. by apply R_box. Qed.

Lemma I_inj n m : in_fixnum n → in_fixnum m → I n = I m → n = m.
Proof. intros Hn Hm E. by rewrite <- (R_I_id n), <- (R_I_id m), E. Qed.

#[export] Hint Resolve I_range : crt.
#[export] Hint Rewrite R_I_id using (unfold in_fixnum; lia) : crt.

(** ** Vectors

    [struct _dylan_simple_object_vector]: class, boxed size, elements. *)

Definition VECTOR_HEADER_SIZE : Z := 2.

Definition vector_size (v : Z) : M Z := w ← load (idx v 1); mret (s32 (R w)).

Definition vector_size_setter (new_size v : Z) : M Z :=
  store (idx v 1) (I new_size) ;; mret new_size.

Definition vector_data (v : Z) : Z := idx v 2.

Definition vector_ref (v offset : Z) : M Z := load (idx (vector_data v) offset).

Definition vector_ref_setter (new_value v offset : Z) : M Z :=
  store (idx (vector_data v) offset) new_value ;; mret new_value.

(** [is_vec m v l]: a vector object with elements [l] lies at [v]. *)
Definition is_vec (m : gmap Z Z) (v : Z) (l : list Z) : Prop :=
  m !! (idx v 1) = Some (I (length l)) ∧ arr m (vector_data v) l ∧
  length l < 2147483648.

Lemma vector_size_ok s v l : is_vec (mem s) v l → vector_size v s = Ok (length l : Z) s.
Proof.
  intros (H & _ & Hl). unfold vector_size.
  rewrite (bind_ok _ _ _ _ _ (load_ok _ _ _ H)), R_I_id by (unfold in_fixnum; lia).
  unfold mret, M_ret. f_equal. apply s32_id. unfold in_s32. lia.
Qed.

Lemma vector_ref_ok s v l (i : nat) x :
  is_vec (mem s) v l → l !! i = Some x → vector_ref v i s = Ok x s.
Proof. intros (_ & H & _) Hi. apply load_ok. by apply H. Qed.

Lemma vec_arr m v l : is_vec m v l → arr m (vector_data v) l.
Proof. by intros (_ & H & _). Qed.

#[export] Hint Resolve vec_arr : crt.

(** ** Signatures *)

Definition NUMBER_REQUIRED_MASK : Z := 255.        (* 0x0000ff *)
Definition NUMBER_VALUES_MASK : Z := 65280.        (* 0x00ff00 *)
Definition NUMBER_VALUES_OFFSET : Z := 8.
Definition KEY_P_MASK : Z := 65536.                (* 0x010000 *)
Definition ALL_KEYS_P_MASK : Z := 131072.          (* 0x020000 *)
Definition REST_P_MASK : Z := 262144.              (* 0x040000 *)
Definition OPTIONALS_P_MASK : Z := Z.lor KEY_P_MASK REST_P_MASK.
Definition REST_VALUE_P_MASK : Z := 524288.        (* 0x080000 *)
Definition NEXT_P_MASK : Z := 1048576.             (* 0x100000 *)

(** Readers of the unboxed properties [R(sig->properties)]. *)
Definition sig_number_required (p : Z) : Z := Z.land p NUMBER_REQUIRED_MASK.
Definition sig_number_values (p : Z) : Z :=
  Z.shiftr (Z.land p NUMBER_VALUES_MASK) NUMBER_VALUES_OFFSET.
Definition sig_flag (mask p : Z) : bool := 0 <? Z.land p mask.

(** [sig->properties], [sig->required], [sig->values], [sig->rest_value] *)
Definition signature_properties (sig : Z) : M Z := load (idx sig 1).
Definition signature_required (sig : Z) : M Z := load (idx sig 2).
Definition signature_values (sig : Z) : M Z := load (idx sig 3).
Definition signature_rest_value (sig : Z) : M Z := load (idx sig 4).

Definition signature_number_required (sig : Z) : M Z :=
  p ← signature_properties sig; mret (sig_number_required (R p)).
Definition signature_number_values (sig : Z) : M Z :=
  p ← signature_properties sig; mret (sig_number_values (R p)).
Definition signature_key_p (sig : Z) : M bool :=
  p ← signature_properties sig; mret (sig_flag KEY_P_MASK (R p)).
Definition signature_all_keys_p (sig : Z) : M bool :=
  p ← signature_properties sig; mret (sig_flag ALL_KEYS_P_MASK (R p)).
Definition signature_rest_p (sig : Z) : M bool :=
  p ← signature_properties sig; mret (sig_flag REST_P_MASK (R p)).
Definition signature_optionals_p (sig : Z) : M bool :=
  p ← signature_properties sig; mret (sig_flag OPTIONALS_P_MASK (R p)).
Definition signature_rest_value_p (sig : Z) : M bool :=
  p ← signature_properties sig; mret (sig_flag REST_VALUE_P_MASK (R p)).
Definition signature_next_p (sig : Z) : M bool :=
  p ← signature_properties sig; mret (sig_flag NEXT_P_MASK (R p)).

Definition flag_bits (b : bool) (mask : Z) : Z := if b then mask else 0.

Definition signature_make_properties
    (number_required number_values : Z) (key_p all_keys_p rest_p rest_value_p : bool) : Z :=
  I (Z.lor (Z.lor (Z.lor (Z.lor (Z.lor number_required
       (Z.shiftl number_values NUMBER_VALUES_OFFSET))
       (flag_bits key_p KEY_P_MASK))
       (flag_bits all_keys_p ALL_KEYS_P_MASK))
       (flag_bits rest_p REST_P_MASK))
       (flag_bits rest_value_p REST_VALUE_P_MASK)).

(** ** Closed form of the packed properties *)

Lemma lor_low_field t x k : 0 <= k → 0 <= t < 2 ^ k → Z.lor t (2 ^ k * x) = t + 2 ^ k * x.
Proof. intros Hk Ht. rewrite Z.lor_comm, lor_field by done. lia. Qed.

Definition sig_sum (nreq nval : Z) (key all rest restval : bool) : Z :=
  nreq + 256 * nval + 65536 * Z.b2z key + 131072 * Z.b2z all
  + 262144 * Z.b2z rest + 524288 * Z.b2z restval.

Lemma signature_make_properties_eq nreq nval key all rest restval :
  0 <= nreq < 256 → 0 <= nval < 256 →
  signature_make_properties nreq nval key all rest restval
  = I (sig_sum nreq nval key all rest restval).
Proof.
  intros Hr Hv. unfold signature_make_properties, sig_sum. f_equal.
  assert (∀ b m, flag_bits b (2 ^ m) = 2 ^ m * Z.b2z b) as Hf.
  { intros [] m; simpl; lia. }
  change KEY_P_MASK with (2 ^ 16). change ALL_KEYS_P_MASK with (2 ^ 17).
  change REST_P_MASK with (2 ^ 18). change REST_VALUE_P_MASK with (2 ^ 19).
  rewrite !Hf, Z.shiftl_mul_pow2 by (unfold NUMBER_VALUES_OFFSET; lia).
  rewrite (Z.mul_comm nval). unfold NUMBER_VALUES_OFFSET.
  assert (∀ b, 0 <= Z.b2z b <= 1) as Hb by (intros []; simpl; lia).
  pose proof (Hb key). pose proof (Hb all). pose proof (Hb rest). pose proof (Hb restval).
  rewrite (lor_low_field nreq nval 8) by lia.
  rewrite (lor_low_field _ _ 16) by lia.
  rewrite (lor_low_field _ _ 17) by lia.
  rewrite (lor_low_field _ _ 18) by lia.
  rewrite (lor_low_field _ _ 19) by lia. lia.
Qed.

Lemma sig_number_required_eq p : sig_number_required p = p mod 256.
Proof. unfold sig_number_required, NUMBER_REQUIRED_MASK. change 255 with (2 ^ 8 - 1). by rewrite land_mask. Qed.

Lemma sig_number_values_eq p : sig_number_values p = (p / 256) mod 256.
Proof.
  unfold sig_number_values, NUMBER_VALUES_MASK, NUMBER_VALUES_OFFSET.
  change 65280 with ((2 ^ 8 - 1) * 2 ^ 8). rewrite land_mask_shift, Z.shiftr_div_pow2 by lia.
  by rewrite Z.div_mul.
Qed.

Lemma sig_flag_bit k p : 0 <= k → sig_flag (2 ^ k) p = Z.odd (p / 2 ^ k).
Proof.
  intros Hk. unfold sig_flag. rewrite land_bit by done.
  pose proof (Z.pow_pos_nonneg 2 k ltac:(lia) Hk).
  rewrite Zmod_odd. destruct (Z.odd (p / 2 ^ k)); lia.
Qed.

Lemma sig_flag_optionals p :
  sig_flag OPTIONALS_P_MASK p = sig_flag KEY_P_MASK p || sig_flag REST_P_MASK p.
Proof.
  unfold sig_flag, OPTIONALS_P_MASK. rewrite Z.land_lor_distr_r.
  change KEY_P_MASK with (2 ^ 16). change REST_P_MASK with (2 ^ 18).
  rewrite !land_bit by lia.
  pose proof (Z.mod_pos_bound (p / 2 ^ 16) 2 ltac:(lia)).
  pose proof (Z.mod_pos_bound (p / 2 ^ 18) 2 ltac:(lia)).
  set (a := (p / 2 ^ 16) mod 2) in *. set (b := (p / 2 ^ 18) mod 2) in *.
  assert (a = 0 ∨ a = 1) as [->| ->] by lia;
    assert (b = 0 ∨ b = 1) as [->| ->] by lia; reflexivity.
Qed.

Lemma sig_sum_flags nreq nval key all rest restval :
  0 <= nreq < 256 → 0 <= nval < 256 →
  let p := sig_sum nreq nval key all rest restval in
  sig_flag KEY_P_MASK p = key ∧ sig_flag ALL_KEYS_P_MASK p = all ∧
  sig_flag REST_P_MASK p = rest ∧ sig_flag REST_VALUE_P_MASK p = restval ∧
  sig_flag NEXT_P_MASK p = false.
Proof.
  intros Hr Hv p.
  change KEY_P_MASK with (2 ^ 16). change ALL_KEYS_P_MASK with (2 ^ 17).
  change REST_P_MASK with (2 ^ 18). change REST_VALUE_P_MASK with (2 ^ 19).
  change NEXT_P_MASK with (2 ^ 20). rewrite !sig_flag_bit by lia.
  assert (∀ c m, p / 2 ^ m = c → Z.odd (p / 2 ^ m) = Z.odd c) as Hc by (intros; by f_equal).
  unfold sig_sum in p.
  repeat split.
  - rewrite (Hc (Z.b2z key + 2 * (Z.b2z all + 2 * (Z.b2z rest + 2 * Z.b2z restval)))).
    + rewrite Z.odd_add_mul_2. by destruct key.
    + symmetry. apply Z.div_unique with (nreq + 256 * nval); [lia|]. unfold p. lia.
  - rewrite (Hc (Z.b2z all + 2 * (Z.b2z rest + 2 * Z.b2z restval))).
    + rewrite Z.odd_add_mul_2. by destruct all.
    + symmetry. apply Z.div_unique with (nreq + 256 * nval + 65536 * Z.b2z key).
      * destruct key; simpl; lia.
      * unfold p. lia.
  - rewrite (Hc (Z.b2z rest + 2 * Z.b2z restval)).
    + rewrite Z.odd_add_mul_2. by destruct rest.
    + symmetry. apply Z.div_unique
        with (nreq + 256 * nval + 65536 * Z.b2z key + 131072 * Z.b2z all).
      * destruct key, all; simpl; lia.
      * unfold p. lia.
  - rewrite (Hc (Z.b2z restval)); [by destruct restval|].
    symmetry. apply Z.div_unique with (nreq + 256 * nval + 65536 * Z.b2z key
      + 131072 * Z.b2z all + 262144 * Z.b2z rest).
    + destruct key, all, rest; simpl; lia.
    + unfold p. lia.
  - rewrite Z.div_small; [done|]. unfold p. destruct key, all, rest, restval; simpl; lia.
Qed.
