(* ===== verification/Entry.v ===== *)
(** * Code pointers

    The run-time reaches most of its functions through pointers stored in
    objects: the [xep], [mep] and [iep] of a method or generic function and the
    [entry_point] of an engine node.  This file names the functions of
    [c-run-time.c] that such a pointer can hold, the interface of the linker
    that gives them addresses, and the interface of compiled Dylan code. *)

From S2P Require Import Prelude Memory Tagging.
From stdpp Require Import base tactics option list numbers gmap countable.
From Stdlib Require Import ZArith Lia.

Local Open Scope Z_scope.

(** The three ways a keyed single-method engine node checks keywords
    ([KEYED_SKIP_COUNT_explicit] and its siblings). *)
Inductive keyed := explicit | implicit | unrestricted.

(** The four families [DEFINE_DISCRIMINATOR_ENGINE],
    [DEFINE_MONOMORPHIC_DISCRIMINATOR], [DEFINE_IF_TYPE_DISCRIMINATOR] and
    [DEFINE_TYPECHECK_DISCRIMINATOR]. *)
Inductive discrimination := by_callback | monomorphic | if_type | typecheck.

(** The six kinds of accessor method ([primitive_set_accessor_method_xep]). *)
Inductive slotacc :=
| single_q_instance_getter | single_q_instance_setter
| single_q_class_getter | single_q_class_setter
| repeated_instance_getter | repeated_instance_setter.

(** The slot engine nodes with an entry point of their own. *)
Inductive slot_engine :=
| boxed_instance_slot_getter | boxed_instance_slot_setter
| boxed_repeated_instance_slot_getter | boxed_repeated_instance_slot_setter
| raw_byte_repeated_instance_slot_getter | raw_byte_repeated_instance_slot_setter.

(** The functions of [c-run-time.c] that are reached through a pointer.  A
    numeric suffix of the C name is the argument of the constructor; the
    variant with no number (or with suffix [n]) has a constructor of its own. *)
Inductive entry :=
| E_xep (k : nat) | E_xep_n
| E_rest_xep (k : nat) | E_rest_xep_n
| E_rest_key_xep (k : nat) | E_rest_key_xep_n
| E_key_mep (k : nat) | E_key_mep_n
| E_gf_xep (k : nat) | E_gf_xep_n
| E_gf_optional_xep (k : nat) | E_gf_optional_xep_n
| E_slotacc_xep (a : slotacc)
| E_general_engine_node (k : nat) | E_general_engine_node_n
| E_general_engine_node_spread
| E_slot_engine (e : slot_engine)
| E_single_method_engine (k : nat) | E_single_method_engine_n
| E_keyed_single_method_engine (how : keyed) (k : nat)
| E_keyed_single_method_engine_n (how : keyed)
| E_cache_header_engine (k : nat) | E_cache_header_engine_n
| E_profiling_cache_header_engine (k : nat) | E_profiling_cache_header_engine_n
| E_discriminator (d : discrimination) (argnum nargs : nat)
| E_discriminator_n_n (d : discrimination).

#[export] Instance keyed_eq_dec : EqDecision keyed.
Proof. solve_decision. Defined.
#[export] Instance discrimination_eq_dec : EqDecision discrimination.
Proof. solve_decision. Defined.
#[export] Instance slotacc_eq_dec : EqDecision slotacc.
Proof. solve_decision. Defined.
#[export] Instance slot_engine_eq_dec : EqDecision slot_engine.
Proof. solve_decision. Defined.
#[export] Instance entry_eq_dec : EqDecision entry.
Proof. solve_decision. Defined.

(** What a C function does last: return a value, or call through a pointer in
    tail position. *)
Inductive outcome :=
| Return (v : Z)
| Jump (code : Z) (args : list Z).

(** ** The linker

    An injective placement of the run-time's functions; every other address is
    code the Dylan compiler generated.  [slotacc_iep] places the six internal
    accessor functions the run-time calls by name
    ([KPslotacc_single_q_instance_getterVKiI] and its siblings). *)
Class Linker := {
  addr_of : entry → Z;
  entry_of : Z → option entry;
  slotacc_iep : slotacc → Z;
  entry_of_addr_of : ∀ e, entry_of (addr_of e) = Some e
}.

(** ** Compiled Dylan code

    [instancep_code code x type m] is the value returned by the
    [instancep_function] at [code] in memory [m]; [callback_code code args] is
    a call of an engine node's callback. *)
Class DylanCode := {
  instancep_code : Z → Z → Z → gmap Z Z → Z;
  callback_code : Z → list Z → M Z
}.

Lemma addr_of_inj `{Linker} e1 e2 : addr_of e1 = addr_of e2 → e1 = e2.
Proof.
  intros E. pose proof (entry_of_addr_of e1) as H1. rewrite E, entry_of_addr_of in H1.
  congruence.
Qed.

(** ** A concrete linker

    It numbers the functions; witnesses use it. *)

Definition keyed_code (h : keyed) : nat :=
  match h with explicit => 0 | implicit => 1 | unrestricted => 2 end.
Definition keyed_decode (n : nat) : keyed :=
  match n with O => explicit | 1%nat => implicit | _ => unrestricted end.
Definition discrimination_code (d : discrimination) : nat :=
  match d with by_callback => 0 | monomorphic => 1 | if_type => 2 | typecheck => 3 end.
Definition discrimination_decode (n : nat) : discrimination :=
  match n with
  | O => by_callback | 1%nat => monomorphic | 2%nat => if_type | _ => typecheck
  end.
Definition slotacc_code (a : slotacc) : nat :=
  match a with
  | single_q_instance_getter => 0 | single_q_instance_setter => 1
  | single_q_class_getter => 2 | single_q_class_setter => 3
  | repeated_instance_getter => 4 | repeated_instance_setter => 5
  end.
Definition slotacc_decode (n : nat) : slotacc :=
  match n with
  | 0 => single_q_instance_getter | 1 => single_q_instance_setter
  | 2 => single_q_class_getter | 3 => single_q_class_setter
  | 4 => repeated_instance_getter | _ => repeated_instance_setter
  end%nat.
Definition slot_engine_code (e : slot_engine) : nat :=
  match e with
  | boxed_instance_slot_getter => 0 | boxed_instance_slot_setter => 1
  | boxed_repeated_instance_slot_getter => 2 | boxed_repeated_instance_slot_setter => 3
  | raw_byte_repeated_instance_slot_getter => 4
  | raw_byte_repeated_instance_slot_setter => 5
  end.
Definition slot_engine_decode (n : nat) : slot_engine :=
  match n with
  | 0 => boxed_instance_slot_getter | 1 => boxed_instance_slot_setter
  | 2 => boxed_repeated_instance_slot_getter | 3 => boxed_repeated_instance_slot_setter
  | 4 => raw_byte_repeated_instance_slot_getter
  | _ => raw_byte_repeated_instance_slot_setter
  end%nat.

Definition entry_code (e : entry) : nat * nat * nat :=
  match e with
  | E_xep k => (0, k, 0) | E_xep_n => (1, 0, 0)
  | E_rest_xep k => (2, k, 0) | E_rest_xep_n => (3, 0, 0)
  | E_rest_key_xep k => (4, k, 0) | E_rest_key_xep_n => (5, 0, 0)
  | E_key_mep k => (6, k, 0) | E_key_mep_n => (7, 0, 0)
  | E_gf_xep k => (8, k, 0) | E_gf_xep_n => (9, 0, 0)
  | E_gf_optional_xep k => (10, k, 0) | E_gf_optional_xep_n => (11, 0, 0)
  | E_slotacc_xep a => (12, slotacc_code a, 0)
  | E_general_engine_node k => (13, k, 0) | E_general_engine_node_n => (14, 0, 0)
  | E_general_engine_node_spread => (15, 0, 0)
  | E_slot_engine e => (16, slot_engine_code e, 0)
  | E_single_method_engine k => (17, k, 0) | E_single_method_engine_n => (18, 0, 0)
  | E_keyed_single_method_engine how k => (19, keyed_code how, k)
  | E_keyed_single_method_engine_n how => (20, keyed_code how, 0)
  | E_cache_header_engine k => (21, k, 0) | E_cache_header_engine_n => (22, 0, 0)
  | E_profiling_cache_header_engine k => (23, k, 0)
  | E_profiling_cache_header_engine_n => (24, 0, 0)
  | E_discriminator d i n => (25 + discrimination_code d, i, n)
  | E_discriminator_n_n d => (29, discrimination_code d, 0)
  end%nat.

Definition entry_decode (t : nat * nat * nat) : entry :=
  match t with
  | (0, k, _) => E_xep k | (1, _, _) => E_xep_n
  | (2, k, _) => E_rest_xep k | (3, _, _) => E_rest_xep_n
  | (4, k, _) => E_rest_key_xep k | (5, _, _) => E_rest_key_xep_n
  | (6, k, _) => E_key_mep k | (7, _, _) => E_key_mep_n
  | (8, k, _) => E_gf_xep k | (9, _, _) => E_gf_xep_n
  | (10, k, _) => E_gf_optional_xep k | (11, _, _) => E_gf_optional_xep_n
  | (12, a, _) => E_slotacc_xep (slotacc_decode a)
  | (13, k, _) => E_general_engine_node k | (14, _, _) => E_general_engine_node_n
  | (15, _, _) => E_general_engine_node_spread
  | (16, e, _) => E_slot_engine (slot_engine_decode e)
  | (17, k, _) => E_single_method_engine k | (18, _, _) => E_single_method_engine_n
  | (19, h, k) => E_keyed_single_method_engine (keyed_decode h) k
  | (20, h, _) => E_keyed_single_method_engine_n (keyed_decode h)
  | (21, k, _) => E_cache_header_engine k | (22, _, _) => E_cache_header_engine_n
  | (23, k, _) => E_profiling_cache_header_engine k
  | (24, _, _) => E_profiling_cache_header_engine_n
  | (25, i, n) => E_discriminator by_callback i n
  | (26, i, n) => E_discriminator monomorphic i n
  | (27, i, n) => E_discriminator if_type i n
  | (28, i, n) => E_discriminator typecheck i n
  | (_, d, _) => E_discriminator_n_n (discrimination_decode d)
  end%nat.

Lemma entry_decode_code e : entry_decode (entry_code e) = e.
Proof.
  destruct e as [| | | | | | | | | | | |a| | | |e| | |h|h| | | | |d|d]; try done.
  - by destruct a.
  - by destruct e.
  - by destruct h.
  - by destruct h.
  - by destruct d.
  - by destruct d.
Qed.

(** Functions sit above the data of the examples, sixteen bytes apart. *)
Definition code_base : Z := 4194304.

Definition example_addr_of (e : entry) : Z := code_base + 16 * Z.pos (encode (entry_code e)).

Definition example_entry_of (a : Z) : option entry :=
  if decide (code_base < a ∧ (a - code_base) mod 16 = 0)
  then entry_decode <$> decode (Z.to_pos ((a - code_base) / 16))
  else None.

Lemma example_entry_of_addr_of e : example_entry_of (example_addr_of e) = Some e.
Proof.
  unfold example_entry_of, example_addr_of.
  replace (code_base + 16 * Z.pos (encode (entry_code e)) - code_base)
    with (Z.pos (encode (entry_code e)) * 16) by lia.
  rewrite decide_True.
  - rewrite Z.div_mul by done. simpl. rewrite decode_encode. simpl.
    by rewrite entry_decode_code.
  - split; [lia|]. by apply Z.mod_mul.
Qed.

Definition example_linker : Linker :=
  {| addr_of := example_addr_of; entry_of := example_entry_of;
     slotacc_iep := λ a, 2097152 + 16 * slotacc_code a;
     entry_of_addr_of := example_entry_of_addr_of |}.
