(* ===== verification/Vectors.v ===== *)
(** * Vectors and stack vectors

    Allocation and initialisation of simple object vectors, on the heap and on
    the C stack, and the transfer of variadic arguments into a buffer
    ([c-run-time.c], sections VECTOR and VARARGS SUPPORT). *)

From S2P Require Import Prelude Memory Tagging.
From stdpp Require Import base tactics option list numbers gmap.
From Stdlib Require Import ZArith Lia.

Local Open Scope Z_scope.

(** ** Definitions *)

(** [primitive_allocate]: [size] words from the collector. *)
Definition primitive_allocate (size : Z) : M Z := alloc_words size.

Definition allocate_vector (size : Z) : M Z :=
  if size =? 0 then mret Pempty_vectorVKi
  else primitive_allocate (size + VECTOR_HEADER_SIZE).

Definition initialize_vector_from_buffer_with_size
    (vector vector_size buffer buffer_size : Z) : M Z :=
  store vector KLsimple_object_vectorGVKdW ;;
  vector_size_setter vector_size vector ;;
  COPY_WORDS (vector_data vector) buffer buffer_size ;;
  mret vector.

Definition initialize_vector_from_buffer (vector size buffer : Z) : M Z :=
  initialize_vector_from_buffer_with_size vector size buffer size.

Definition make_vector_from_buffer (size buffer : Z) : M Z :=
  copy ← allocate_vector size;
  initialize_vector_from_buffer copy size buffer ;;
  mret copy.

Definition primitive_copy_vector (vector : Z) : M Z :=
  n ← vector_size vector;
  make_vector_from_buffer n (vector_data vector).

Definition primitive_raw_as_vector (size buffer : Z) : M Z :=
  make_vector_from_buffer (s32 size) buffer.

Definition VECTOR_REF_OR_F (vector offset : Z) : M Z :=
  n ← vector_size vector;
  if n <=? offset then mret DFALSE else vector_ref vector offset.

(** [DEF_STACK_VECTOR]: room for a vector on the C stack. *)
Definition DEF_STACK_VECTOR (size : Z) : M Z := alloc_words (size + VECTOR_HEADER_SIZE).

Definition init_stack_vector (vector size : Z) : M Z :=
  store vector KLsimple_object_vectorGVKdW ;;
  vector_size_setter size vector ;;
  mret vector.

Definition DEF_STACK_VECTOR_INITTED (size : Z) : M Z :=
  v ← DEF_STACK_VECTOR size; init_stack_vector v size.

Definition DEF_STACK_VECTOR_FROM_BUFFER_WITH_SIZE (vector_size buffer buffer_size : Z) : M Z :=
  v ← DEF_STACK_VECTOR vector_size;
  initialize_vector_from_buffer_with_size v vector_size buffer buffer_size.

Definition DEF_STACK_VECTOR_FROM_BUFFER (size buffer : Z) : M Z :=
  DEF_STACK_VECTOR_FROM_BUFFER_WITH_SIZE size buffer size.

(** The element-by-element copying loops: [n] words from [src] to [dst]. *)
Fixpoint copy_loop (dst src : Z) (n : nat) : M () :=
  match n with
  | O => mret ()
  | S n => v ← load src; store dst v ;; copy_loop (dst + 8) (src + 8) n
  end.

(** [va_arg]: the next variadic argument of a call that passed [ap]; asking for
    one that was not passed is undefined. *)
Definition take_args (n : Z) (ap : list Z) : M (list Z) :=
  if Z.of_nat (length ap) <? n then fault else mret (take (Z.to_nat n) ap).

(** [BUFFER_VARARGS(n, last_parameter, buffer)], the variadic arguments being
    [ap]. *)
Definition transfer_varargs (ap : list Z) (n arguments : Z) : M () :=
  l ← take_args n ap; write_words arguments l.

(** ** Well-formed states

    Everything in use lies below [brk]; the argument buffers, the return
    values and the empty vector are mapped, and the word behind each argument
    buffer is not. *)

Lemma argument_buffer_bounds b :
  b ∈ argument_buffers → teb_arguments <= b ∧ behind b + 8 <= teb_end.
Proof.
  intros H. unfold argument_buffers in H. rewrite !elem_of_cons, elem_of_nil in H.
  destruct_or?; subst; try done; teb_lia.
Qed.

Record wf (s : state) : Prop := {
  wf_brk : teb_end <= brk s;
  wf_fresh : ∀ a, brk s <= a → mem s !! a = None;
  wf_return_values : mapped (mem s) teb_return_values VALUES_MAX;
  wf_buffers : ∀ b, b ∈ argument_buffers → mapped (mem s) b MAX_ARGUMENTS;
  wf_behind : ∀ b, b ∈ argument_buffers → mem s !! behind b = None;
  wf_empty : is_vec (mem s) Pempty_vectorVKi [];
  wf_empty_class : mem s !! Pempty_vectorVKi = Some KLsimple_object_vectorGVKdW
}.

(** Heap objects lie outside the thread environment block. *)
Definition outside_teb (a n : Z) : Prop := a + 8 * n <= teb_return_values ∨ teb_end <= a.

Lemma outside_teb_disjoint a n b k :
  outside_teb a n → teb_return_values <= b → b + 8 * k <= teb_end → disjoint_blocks b k a n.
Proof. intros [Ho|Ho] Hb Hk i j Hi Hj; lia. Qed.

(** ** The heap

    The part of memory outside the thread environment block.  Run-time code
    writes the block's buffers and fresh memory, so it keeps the heap. *)
Definition in_heap (a : Z) : bool := (a + 8 <=? teb_return_values) || (teb_end <=? a).

Definition heap (m : gmap Z Z) : gmap Z Z := filter (λ b, in_heap b.1 = true) m.

Lemma lookup_heap m a x : heap m !! a = Some x ↔ m !! a = Some x ∧ in_heap a = true.
Proof. unfold heap. by rewrite map_lookup_filter_Some. Qed.

Lemma heap_sub m : heap m ⊆ m.
Proof. apply map_filter_subseteq. Qed.

Lemma lookup_sub (m m' : gmap Z Z) a x : m ⊆ m' → m !! a = Some x → m' !! a = Some x.
Proof. intros S H. by eapply lookup_weaken. Qed.

Lemma arr_sub m m' a l : m ⊆ m' → arr m a l → arr m' a l.
Proof. intros S H i x Hi. eapply lookup_sub; [done|by apply H]. Qed.

Lemma vec_sub m m' v l : m ⊆ m' → is_vec m v l → is_vec m' v l.
Proof.
  intros S (H1 & H2 & H3). split_and!; [by eapply lookup_sub|by eapply arr_sub|done].
Qed.

(** An array of the heap is apart from every block of the environment block. *)
Lemma heap_arr_apart m a n b l :
  arr (heap m) b l → teb_return_values <= a → a + 8 * n <= teb_end → apart a n b (length l).
Proof.
  intros H Ha Hn.
  assert (length l = 0%nat ∨ b + 8 * length l <= teb_return_values ∨ teb_end <= b) as D.
  { clear a n Ha Hn. revert b H. induction l as [|x l IH]; intros b H; [by left|right].
    apply arr_cons in H as [H1 H2]. apply lookup_heap in H1 as [_ H1]. unfold in_heap in H1.
    apply orb_true_iff in H1. simpl length. specialize (IH _ H2). teb_lia. }
  unfold apart. lia.
Qed.

Lemma heap_lookup_apart m a n b x :
  heap m !! b = Some x → teb_return_values <= a → a + 8 * n <= teb_end → apart a n b 1.
Proof.
  intros H Ha Hn. apply (heap_arr_apart m a n b [x]); [|done|done].
  apply arr_cons. split; [done|apply arr_nil].
Qed.

(** Writing the environment block, or fresh memory, keeps the heap. *)
Lemma heap_mset m a l :
  teb_return_values <= a → a + 8 * length l <= teb_end → heap m ⊆ heap (mset m a l).
Proof.
  intros Ha Hl. apply map_subseteq_spec. intros b x H. apply lookup_heap.
  pose proof (heap_lookup_apart _ a (length l) _ _ H Ha Hl) as A.
  apply lookup_heap in H as [H Hb]. split; [|done].
  rewrite lookup_mset_out; [done|]. unfold apart in A. intros. lia.
Qed.

(** ** Facts about allocation *)

(** The memory after allocating [n] words at [brk s]. *)
Definition after_alloc (n : Z) (s : state) : state :=
  mkState (mset (mem s) (brk s) (junk_words (junk s) (brk s) (Z.to_nat n)))
          (brk s + 8 * n) (junk s) (teb s).

Lemma alloc_words_ok n s : 0 <= n → alloc_words n s = Ok (brk s) (after_alloc n s).
Proof. intros H. unfold alloc_words. destruct (Z.ltb_spec n 0); [lia|]. done. Qed.

Lemma mapped_after_alloc n s : 0 <= n → mapped (mem (after_alloc n s)) (brk s) n.
Proof.
  intros H. unfold after_alloc; simpl.
  pose proof (arr_mapped _ _ _ (arr_mset (mem s) (brk s)
    (junk_words (junk s) (brk s) (Z.to_nat n)))) as Hm.
  rewrite length_junk_words, Z2Nat.id in Hm by lia. done.
Qed.

(** Memory that was mapped keeps its contents when fresh memory is written. *)
Definition extends (m m' : gmap Z Z) (b : Z) : Prop :=
  ∀ a, a < b → m' !! a = m !! a.

Lemma extends_refl m b : extends m m b.
Proof. done. Qed.

Lemma extends_trans m1 m2 m3 b1 b2 :
  extends m1 m2 b1 → extends m2 m3 b2 → b1 <= b2 → extends m1 m3 b1.
Proof. intros H1 H2 Hb a Ha. rewrite H2, H1 by lia. done. Qed.

Lemma extends_mset m b l a : b <= a → extends m (mset m a l) b.
Proof. intros Hb c Hc. apply lookup_mset_out. intros i Hi. lia. Qed.

Lemma extends_arr m m' b a l :
  extends m m' b → a + 8 * length l <= b → arr m a l → arr m' a l.
Proof.
  intros E Hb H i x Hi. rewrite E; [by apply H|].
  apply lookup_lt_Some in Hi. lia.
Qed.

Lemma extends_mapped m m' b a n :
  extends m m' b → a + 8 * n <= b → mapped m a n → mapped m' a n.
Proof. intros E Hb H i Hi. rewrite E; [by apply H|]. lia. Qed.

Lemma extends_vec m m' b v l :
  extends m m' b → v + 16 + 8 * length l <= b → is_vec m v l → is_vec m' v l.
Proof.
  intros E Hb (H1 & H2 & H3). unfold is_vec, vector_data, idx in *.
  split_and!; [rewrite E by lia; done| |done].
  eapply extends_arr; [done| |done]. lia.
Qed.

(** A block that is in use lies below [brk]. *)
Lemma wf_below s a x : wf s → mem s !! a = Some x → a < brk s.
Proof.
  intros W H. destruct (Z.lt_ge_cases a (brk s)) as [|Hge]; [done|].
  rewrite (wf_fresh s W a Hge) in H. done.
Qed.

Lemma wf_arr_below s a l j :
  wf s → arr (mem s) a l → 0 <= j < length l → a + 8 * j < brk s.
Proof.
  intros W H Hj. destruct (arr_mapped _ _ _ H j Hj) as [x Hx]. by eapply wf_below.
Qed.

Lemma arr_after s m a l :
  wf s → extends (mem s) m (brk s) → arr (mem s) a l → arr m a l.
Proof.
  intros W E H i x Hi. rewrite E; [by apply H|]. eapply wf_below; [done|by apply H].
Qed.

Lemma mapped_after s m a n :
  wf s → extends (mem s) m (brk s) → mapped (mem s) a n → mapped m a n.
Proof.
  intros W E H i Hi. destruct (H i Hi) as [x Hx]. exists x. rewrite E; [done|].
  by eapply wf_below.
Qed.

Lemma lookup_after s m a x :
  wf s → extends (mem s) m (brk s) → mem s !! a = Some x → m !! a = Some x.
Proof. intros W E H. rewrite E; [done|]. by eapply wf_below. Qed.

Lemma vec_after s m v l :
  wf s → extends (mem s) m (brk s) → is_vec (mem s) v l → is_vec m v l.
Proof.
  intros W E (H1 & H2 & H3). split_and!; [by eapply lookup_after| |done].
  by eapply arr_after.
Qed.

(** Allocating and writing fresh memory keeps a state well formed. *)
Lemma wf_extend s m b :
  wf s → brk s <= b → extends (mem s) m (brk s) → (∀ a, b <= a → m !! a = None) →
  wf (mkState m b (junk s) (teb s)).
Proof.
  intros W Hb E Hf. pose proof (wf_brk s W) as H0.
  unfold teb_end, teb_arguments in H0. constructor; simpl.
  - unfold teb_end, teb_arguments. lia.
  - done.
  - eapply extends_mapped; [done| |by apply wf_return_values].
    unfold teb_return_values, VALUES_MAX. lia.
  - intros a Ha. eapply extends_mapped; [done| |by apply wf_buffers].
    pose proof (argument_buffer_bounds a Ha). teb_lia.
  - intros a Ha. rewrite E; [by apply wf_behind|].
    pose proof (argument_buffer_bounds a Ha). teb_lia.
  - eapply extends_vec; [done| |by apply wf_empty]. unfold Pempty_vectorVKi. simpl. lia.
  - rewrite E; [by apply wf_empty_class|]. unfold Pempty_vectorVKi. lia.
Qed.

Lemma heap_extends s m : wf s → extends (mem s) m (brk s) → heap (mem s) ⊆ heap m.
Proof.
  intros W E. apply map_subseteq_spec. intros b x H.
  apply lookup_heap in H as [H Hb]. apply lookup_heap. split; [|done].
  rewrite E; [done|].
  destruct (Z.lt_ge_cases b (brk s)) as [|Hge]; [done|].
  by rewrite (wf_fresh s W b Hge) in H.
Qed.

(** ** A vector built from a buffer *)

(** What [make_vector_from_buffer] and the stack-vector macros leave behind:
    a vector [v] with the given elements in fresh memory. *)
Record fresh_vec (s s' : state) (v : Z) (l : list Z) : Prop := {
  fv_addr : v = brk s;
  fv_vec : is_vec (mem s') v l;
  fv_class : mem s' !! v = Some KLsimple_object_vectorGVKdW;
  fv_extends : extends (mem s) (mem s') (brk s);
  fv_brk : brk s' = brk s + 8 * (length l + 2);
  fv_teb : teb s' = teb s;
  fv_wf : wf s'
}.

Lemma initialize_vector_with_size_ok s v n src l :
  Z.of_nat (length l) <= n → mapped (mem s) v (n + 2) → arr (mem s) src l →
  disjoint_blocks v 2 src (length l) →
  initialize_vector_from_buffer_with_size v n src (length l) s
  = Ok v (with_mem (mset (mem s) v ([KLsimple_object_vectorGVKdW; I n] ++ l)) s).
Proof.
  intros Hn Hm Ha Hd. unfold initialize_vector_from_buffer_with_size, vector_size_setter.
  assert (is_Some (mem s !! v)) as H0.
  { destruct (Hm 0) as [x Hx]; [lia|]. rewrite Z.mul_0_r, Z.add_0_r in Hx. eauto. }
  mstep (store_ok _ _ KLsimple_object_vectorGVKdW H0).
  set (s1 := with_mem _ s).
  assert (is_Some (mem s1 !! idx v 1)) as H1.
  { apply (lookup_mset_is_Some _ v [_]). apply (Hm 1). lia. }
  mstep (store_ok _ _ (I n) H1).
  set (s2 := with_mem _ s1).
  assert (mem s2 = mset (mem s) v [KLsimple_object_vectorGVKdW; I n]) as E by done.
  assert (arr (mem s2) src l) as Ha2 by (rewrite E; by apply arr_mset_disjoint).
  assert (mapped (mem s2) (vector_data v) (length l)) as Hm2.
  { rewrite E. apply mapped_mset. unfold vector_data, idx.
    apply (mapped_sub _ _ _ 2) with (k := length l) in Hm; [done|lia|lia]. }
  mstep (COPY_WORDS_ok _ _ _ _ Ha2 Hm2).
  unfold mret, M_ret. f_equal. unfold s2, s1. rewrite !with_mem_with_mem. f_equal.
  unfold vector_data, idx. simpl. f_equal. lia.
Qed.

Lemma initialize_vector_ok s v src l :
  mapped (mem s) v (length l + 2) → arr (mem s) src l →
  disjoint_blocks v 2 src (length l) →
  initialize_vector_from_buffer_with_size v (length l) src (length l) s
  = Ok v (with_mem (mset (mem s) v ([KLsimple_object_vectorGVKdW; I (length l)] ++ l)) s).
Proof. intros Hm Ha Hd. by apply initialize_vector_with_size_ok. Qed.

Lemma mset_after_alloc_fresh s n l a :
  0 <= n → Z.of_nat (length l) <= n → brk s + 8 * n <= a → wf s →
  mset (mem (after_alloc n s)) (brk s) l !! a = None.
Proof.
  intros Hn Hl Ha W. unfold after_alloc. simpl. rewrite !lookup_mset_out.
  - apply (wf_fresh s W). lia.
  - rewrite length_junk_words. intros i Hi. lia.
  - intros i Hi. lia.
Qed.

(** Allocating a vector and filling it from a buffer. *)
Lemma alloc_initialize_ok s src l :
  wf s → arr (mem s) src l → length l < 2147483648 →
  ∃ s', (v ← alloc_words (length l + 2);
         initialize_vector_from_buffer_with_size v (length l) src (length l)) s
        = Ok (brk s) s' ∧ fresh_vec s s' (brk s) l.
Proof.
  intros W Ha Hl.
  assert (disjoint_blocks (brk s) 2 src (length l)) as Hd.
  { intros i j Hi Hj E. pose proof (wf_arr_below s _ _ j W Ha Hj). lia. }
  rewrite (bind_ok _ _ _ _ _ (alloc_words_ok (length l + 2) s ltac:(lia))).
  set (s1 := after_alloc (length l + 2) s).
  assert (extends (mem s) (mem s1) (brk s)) as E1.
  { apply extends_mset. lia. }
  assert (arr (mem s1) src l) as Ha1.
  { by apply (arr_after s). }
  rewrite initialize_vector_ok; [|by apply mapped_after_alloc; lia|done|done].
  eexists. split; [reflexivity|].
  set (l' := [KLsimple_object_vectorGVKdW; I (length l)] ++ l).
  assert (length l' = length l + 2)%nat as Hl' by (unfold l'; rewrite length_app; simpl; lia).
  pose proof (arr_mset (mem s1) (brk s) l') as Hv. unfold l' in Hv. apply arr_app in Hv.
  destruct Hv as [Hh Hd']. apply arr_cons in Hh as [Hc Hh]. apply arr_cons in Hh as [Hs _].
  assert (extends (mem s) (mset (mem s1) (brk s) l') (brk s)) as E2.
  { eapply extends_trans; [apply E1| |reflexivity]. apply extends_mset. lia. }
  constructor; try done.
  apply (wf_extend s); [done|simpl; lia|exact E2|].
  intros a Ha'. apply mset_after_alloc_fresh; [lia|lia|simpl in Ha'; lia|done].
Qed.

(** A stack vector with room for one element more than the buffer holds, as the
    functions that append a rest vector make it. *)
Lemma DEF_STACK_VECTOR_one_more_ok s src l :
  wf s → arr (mem s) src l → length l + 1 < 2147483648 →
  ∃ s', DEF_STACK_VECTOR_FROM_BUFFER_WITH_SIZE (length l + 1) src (length l) s
        = Ok (brk s) s' ∧
        mem s' !! idx (brk s) 1 = Some (I (length l + 1)) ∧
        arr (mem s') (vector_data (brk s)) l ∧
        is_Some (mem s' !! idx (vector_data (brk s)) (length l)) ∧
        extends (mem s) (mem s') (brk s) ∧ brk s' = brk s + 8 * (length l + 3) ∧
        teb s' = teb s ∧ wf s'.
Proof.
  intros W Ha Hl.
  unfold DEF_STACK_VECTOR_FROM_BUFFER_WITH_SIZE, DEF_STACK_VECTOR, VECTOR_HEADER_SIZE.
  replace (length l + 1 + 2) with (length l + 3) by lia.
  mstep (alloc_words_ok (length l + 3) s ltac:(lia)).
  set (s1 := after_alloc (length l + 3) s).
  assert (extends (mem s) (mem s1) (brk s)) as E1 by (apply extends_mset; lia).
  assert (mapped (mem s1) (brk s) (length l + 3)) as Hm by (apply mapped_after_alloc; lia).
  rewrite initialize_vector_with_size_ok; [|lia| |by apply (arr_after s)|].
  - eexists. split; [reflexivity|]. simpl mem.
    set (l' := [KLsimple_object_vectorGVKdW; I (length l + 1)] ++ l).
    assert (length l' = length l + 2)%nat as Hl' by (unfold l'; rewrite length_app; simpl; lia).
    pose proof (arr_mset (mem s1) (brk s) l') as Hv. unfold l' in Hv. apply arr_app in Hv.
    destruct Hv as [Hh Hd']. apply arr_cons in Hh as [Hc Hh]. apply arr_cons in Hh as [Hs _].
    assert (extends (mem s) (mset (mem s1) (brk s) l') (brk s)) as E2.
    { eapply extends_trans; [apply E1| |reflexivity]. apply extends_mset. lia. }
    split_and!; try done.
    + apply (lookup_mset_is_Some (mem s1) (brk s) l'). unfold vector_data, idx.
      replace (brk s + 8 * 2 + 8 * length l) with (brk s + 8 * (length l + 2)) by lia.
      apply Hm. lia.
    + apply (wf_extend s); [done|simpl; lia|exact E2|].
      intros a Ha'. apply mset_after_alloc_fresh; [lia|lia|simpl in Ha'; lia|done].
  - by replace (length l + 1 + 2) with (length l + 3) by lia.
  - intros i j Hi Hj E. pose proof (wf_arr_below s _ _ j W Ha Hj). lia.
Qed.

Lemma DEF_STACK_VECTOR_FROM_BUFFER_ok s src l :
  wf s → arr (mem s) src l → length l < 2147483648 →
  ∃ s', DEF_STACK_VECTOR_FROM_BUFFER (length l) src s = Ok (brk s) s' ∧
        fresh_vec s s' (brk s) l.
Proof. intros W Ha Hl. by apply alloc_initialize_ok. Qed.

(** A heap vector: as a stack vector, except that an empty one is the shared
    empty vector. *)
Lemma make_vector_from_buffer_ok s src l :
  wf s → arr (mem s) src l → 0 < length l < 2147483648 →
  ∃ s', make_vector_from_buffer (length l) src s = Ok (brk s) s' ∧
        fresh_vec s s' (brk s) l.
Proof.
  intros W Ha Hl.
  destruct (alloc_initialize_ok s src l W Ha ltac:(lia)) as (s' & E & F).
  exists s'. split; [|done]. unfold make_vector_from_buffer, allocate_vector.
  destruct (Z.eqb_spec (length l) 0); [lia|].
  unfold primitive_allocate, VECTOR_HEADER_SIZE, initialize_vector_from_buffer.
  unfold mbind, M_bind in E |- *.
  destruct (alloc_words (length l + 2) s) as [v s1| |] eqn:E1; [|done|done].
  rewrite E. unfold alloc_words in E1. destruct (length l + 2 <? 0); [done|].
  by injection E1 as <- <-.
Qed.

Lemma make_vector_from_buffer_empty s src :
  wf s → make_vector_from_buffer 0 src s = Ok Pempty_vectorVKi s.
Proof.
  intros W. unfold make_vector_from_buffer, allocate_vector. simpl.
  destruct (wf_empty s W) as (Hs & _ & _). pose proof (wf_empty_class s W) as Hc.
  unfold initialize_vector_from_buffer, initialize_vector_from_buffer_with_size,
    vector_size_setter. mnorm.
  mstep (store_ok s _ KLsimple_object_vectorGVKdW (mk_is_Some _ _ Hc)).
  rewrite insert_id, with_mem_id by done. simpl in Hs.
  mstep (store_ok s _ (I 0) (mk_is_Some _ _ Hs)).
  rewrite insert_id, with_mem_id by done. done.
Qed.

(** The elements of a freshly built vector, and of the vectors that were there. *)
Lemma fresh_vec_keeps s s' v l u k :
  wf s → fresh_vec s s' v l → is_vec (mem s) u k → is_vec (mem s') u k.
Proof. intros W F. by apply (vec_after s), fv_extends with v l. Qed.

Lemma fresh_vec_arr s s' v l a k :
  wf s → fresh_vec s s' v l → arr (mem s) a k → arr (mem s') a k.
Proof. intros W F. by apply (arr_after s), fv_extends with v l. Qed.

Lemma fresh_vec_lookup s s' v l a x :
  wf s → fresh_vec s s' v l → mem s !! a = Some x → mem s' !! a = Some x.
Proof. intros W F. by apply (lookup_after s), fv_extends with v l. Qed.

(** All the words of a fresh vector, header included. *)
Lemma fresh_vec_words s s' v l :
  fresh_vec s s' v l → arr (mem s') v ([KLsimple_object_vectorGVKdW; I (length l)] ++ l).
Proof.
  intros F. destruct (fv_vec _ _ _ _ F) as (H1 & H2 & _).
  apply arr_cons. split; [by apply F|]. apply arr_cons. split; [exact H1|].
  unfold vector_data, idx in H2. by replace (v + 8 + 8) with (v + 8 * 2) by lia.
Qed.

(** Initialising it again from the same buffer changes nothing. *)
Lemma initialize_fresh_vec_again s s' v src l :
  wf s → fresh_vec s s' v l → arr (mem s) src l →
  initialize_vector_from_buffer_with_size v (length l) src (length l) s' = Ok v s'.
Proof.
  intros W F Ha. pose proof (fresh_vec_words _ _ _ _ F) as Hw.
  rewrite initialize_vector_ok.
  - by rewrite mset_same, with_mem_id.
  - apply arr_mapped in Hw. rewrite length_app in Hw. simpl in Hw.
    by replace (Z.of_nat (S (S (length l)))) with (length l + 2) in Hw by lia.
  - by eapply fresh_vec_arr.
  - rewrite (fv_addr _ _ _ _ F). intros i j Hi Hj E.
    pose proof (wf_arr_below s _ _ j W Ha Hj). lia.
Qed.

Lemma vec_mset_apart m a w v l :
  apart a (length w) v (2 + length l) → is_vec m v l → is_vec (mset m a w) v l.
Proof.
  unfold apart. intros A (H1 & H2 & H3). split_and!; [| |done].
  - rewrite lookup_mset_out; [done|]. unfold idx. intros. lia.
  - apply arr_mset_disjoint; [|done]. unfold vector_data, idx. intros i j Hi Hj. lia.
Qed.

(** ** Copying loops *)

Lemma copy_loop_ok s na a l :
  arr (mem s) a l → mapped (mem s) na (length l) → apart na (length l) a (length l) →
  copy_loop na a (length l) s = Ok () (with_mem (mset (mem s) na l) s).
Proof.
  unfold apart. revert s na a. induction l as [|x l IH]; intros s na a Ha Hm Hd; simpl in *.
  - by rewrite with_mem_id.
  - apply arr_cons in Ha as [H1 H2]. mstep (load_ok _ _ _ H1).
    assert (is_Some (mem s !! na)) as Hs.
    { destruct (Hm 0) as [y Hy]; [lia|]. rewrite Z.mul_0_r, Z.add_0_r in Hy. eauto. }
    mstep (store_ok _ _ x Hs). rewrite IH; [done| | |lia].
    + apply (arr_mset_disjoint _ na [x]); [|done]. apply apart_disjoint.
      unfold apart. simpl. lia.
    + apply (mapped_mset _ na [x]).
      apply (mapped_sub _ _ _ 1) with (k := length l) in Hm; [|lia|lia].
      by rewrite Z.mul_1_r in Hm.
Qed.

(** ** Variadic arguments *)

Lemma take_args_ok (n : nat) ap s :
  (n ≤ length ap)%nat → take_args n ap s = Ok (take n ap) s.
Proof.
  intros H. unfold take_args. destruct (Z.ltb_spec (length ap) n); [lia|].
  by rewrite Nat2Z.id.
Qed.

Lemma transfer_varargs_ok s ap a :
  mapped (mem s) a (length ap) →
  transfer_varargs ap (length ap) a s = Ok () (with_mem (mset (mem s) a ap) s).
Proof.
  intros H. unfold transfer_varargs. mstep (take_args_ok (length ap) ap s (le_n _)).
  rewrite take_ge by lia. by apply write_words_ok.
Qed.

(** Writing more words than are mapped is undefined behaviour. *)
Lemma write_words_overrun s a (k : nat) l :
  mapped (mem s) a k → mem s !! (a + 8 * k) = None → (k < length l)%nat →
  write_words a l s = Fault.
Proof.
  revert s a k. induction l as [|x l IH]; intros s a k Hm Hn Hk; simpl in Hk; [lia|].
  destruct k as [|k].
  - replace (a + 8 * 0%nat) with a in Hn by lia. simpl. unfold mbind, M_bind, store. by rewrite Hn.
  - destruct (Hm 0) as [y Hy]; [lia|]. rewrite Z.mul_0_r, Z.add_0_r in Hy. cbn [write_words].
    mstep (store_ok s a x (mk_is_Some _ _ Hy)). apply IH with (k := k); [| |lia].
    + simpl. apply (mapped_mset _ a [x]).
      apply (mapped_sub _ _ _ 1) with (k := Z.of_nat k) in Hm; [|lia|lia].
      by rewrite Z.mul_1_r in Hm.
    + simpl. rewrite lookup_insert_ne by lia. rewrite <- Hn. f_equal. lia.
Qed.

(** So is filling an argument buffer with more than [MAX_ARGUMENTS] words. *)
Lemma buffer_overrun s b l :
  wf s → b ∈ argument_buffers → MAX_ARGUMENTS < length l → write_words b l s = Fault.
Proof.
  intros W Hb Hl. apply (write_words_overrun s b (Z.to_nat MAX_ARGUMENTS)).
  - by apply wf_buffers.
  - by apply wf_behind.
  - unfold MAX_ARGUMENTS in *. lia.
Qed.

Lemma transfer_varargs_overrun s ap b :
  wf s → b ∈ argument_buffers → MAX_ARGUMENTS < length ap →
  transfer_varargs ap (length ap) b s = Fault.
Proof.
  intros W Hb Hl. unfold transfer_varargs. mstep (take_args_ok (length ap) ap s (le_n _)).
  rewrite take_ge by lia. by apply buffer_overrun.
Qed.

(** Writing to memory in use keeps a state well formed, unless it touches the
    empty vector. *)
Lemma wf_mset s a l :
  wf s → mapped (mem s) a (length l) → Pempty_vectorVKi + 16 <= a →
  wf (with_mem (mset (mem s) a l) s).
Proof.
  intros W Hm Ha. constructor; simpl.
  - by apply wf_brk.
  - intros b Hb. rewrite lookup_mset_out; [by apply wf_fresh|].
    intros i Hi E. destruct (Hm i Hi) as [x Hx].
    apply (wf_below s _ _ W) in Hx. lia.
  - apply mapped_mset. by apply wf_return_values.
  - intros b Hb. apply mapped_mset. by apply wf_buffers.
  - intros b Hb. rewrite lookup_mset_out; [by apply wf_behind|]. intros i Hi E.
    destruct (Hm i Hi) as [x Hx]. by rewrite <- E, (wf_behind s W b Hb) in Hx.
  - destruct (wf_empty s W) as (H1 & H2 & H3). split_and!; [|apply arr_nil|done].
    rewrite lookup_mset_out; [done|]. unfold idx. intros i Hi. lia.
  - rewrite lookup_mset_out; [by apply wf_empty_class|]. intros i Hi. lia.
Qed.
