(* ===== verification/Examples.v ===== *)
(** * Concrete states

    Small memories for the witnesses: the thread environment block and the
    empty vector, plus blocks of words placed at given addresses above them;
    and executable versions of the memory predicates, so that a witness
    discharges them by evaluation. *)

From S2P Require Import Prelude Memory Tagging Vectors.
From stdpp Require Import base tactics option list numbers gmap.
From Stdlib Require Import ZArith Lia Bool.

Local Open Scope Z_scope.

Definition base_mem : gmap Z Z :=
  mset (foldr (λ b m, mset m b (replicate 256 0)) (mset ∅ teb_return_values (replicate 64 0))
          argument_buffers)
    Pempty_vectorVKi [KLsimple_object_vectorGVKdW; I 0].

Definition blocks := list (Z * list Z).

Definition blocks_mem (l : blocks) : gmap Z Z :=
  foldr (λ b m, mset m b.1 b.2) base_mem l.

Definition example_brk : Z := 1048576.

Definition example_state (l : blocks) : state :=
  mkState (blocks_mem l) example_brk (λ _, 0) (mkTEB 0 0 0 0 0).

(** The blocks lie between the thread environment block and the break. *)
Definition blocks_ok (l : blocks) : bool :=
  forallb (λ b, (teb_end <=? b.1) && (b.1 + 8 * length b.2 <=? example_brk)) l.

(** A vector object and the words of a function object and its signature. *)
Definition vec_words (l : list Z) : list Z := KLsimple_object_vectorGVKdW :: I (length l) :: l.
Definition signature_words (p specs : Z) : list Z := [0; I p; specs; 0; 0].

(** ** Executable memory predicates *)

Fixpoint arrb (m : gmap Z Z) (a : Z) (l : list Z) : bool :=
  match l with
  | [] => true
  | x :: l => bool_decide (m !! a = Some x) && arrb m (a + 8) l
  end.

Lemma arrb_true m a l : arrb m a l = true → arr m a l.
Proof.
  revert a. induction l as [|x l IH]; intros a H; [apply arr_nil|].
  simpl in H. apply andb_true_iff in H as [H1 H2]. apply arr_cons.
  split; [by apply bool_decide_eq_true in H1|by apply IH].
Qed.

Definition is_vecb (m : gmap Z Z) (v : Z) (l : list Z) : bool :=
  bool_decide (m !! idx v 1 = Some (I (length l))) && arrb m (vector_data v) l &&
  (length l <? 2147483648).

Lemma is_vecb_true m v l : is_vecb m v l = true → is_vec m v l.
Proof.
  intros H. apply andb_true_iff in H as [H H3]. apply andb_true_iff in H as [H1 H2].
  split_and!; [by apply bool_decide_eq_true in H1|by apply arrb_true|lia].
Qed.

Fixpoint mappedb (m : gmap Z Z) (a : Z) (n : nat) : bool :=
  match n with
  | O => true
  | S n => bool_decide (is_Some (m !! a)) && mappedb m (a + 8) n
  end.

Lemma mappedb_true m a n : mappedb m a n = true → mapped m a n.
Proof.
  revert a. induction n as [|n IH]; intros a H i Hi; [lia|].
  simpl in H. apply andb_true_iff in H as [H1 H2]. apply bool_decide_eq_true in H1.
  destruct (Z.eq_dec i 0) as [->|Hne].
  - by rewrite Z.mul_0_r, Z.add_0_r.
  - replace (a + 8 * i) with (a + 8 + 8 * (i - 1)) by lia. apply IH; [done|lia].
Qed.

(** ** The example states are well formed *)

Lemma blocks_mem_low l a : blocks_ok l = true → a < teb_end → blocks_mem l !! a = base_mem !! a.
Proof.
  intros H Ha. induction l as [|[b w] l IH]; [done|].
  simpl in *. apply andb_true_iff in H as [H H']. rewrite lookup_mset_out; [by apply IH|].
  intros i Hi. lia.
Qed.

Lemma buffers_out bs m a :
  (∀ b, b ∈ bs → b + 8 * 256%nat <= a) →
  foldr (λ b m, mset m b (replicate 256 0)) m bs !! a = m !! a.
Proof.
  induction bs as [|b bs IH]; intros H; [done|]. cbn [foldr]. rewrite lookup_mset_out.
  - apply IH. intros c Hc. apply H. by right.
  - intros i Hi. rewrite length_replicate in Hi. specialize (H b ltac:(by left)). lia.
Qed.

Lemma blocks_mem_high l a :
  blocks_ok l = true → example_brk <= a → blocks_mem l !! a = None.
Proof.
  intros H Ha. unfold example_brk in Ha. induction l as [|[b w] l IH].
  - unfold blocks_mem, base_mem. cbn [foldr]. rewrite lookup_mset_out, buffers_out, lookup_mset_out.
    + apply lookup_empty.
    + rewrite length_replicate. intros. teb_lia.
    + intros b Hb. pose proof (argument_buffer_bounds b Hb). teb_lia.
    + unfold Pempty_vectorVKi. simpl. intros. lia.
  - simpl in *. apply andb_true_iff in H as [H H']. rewrite lookup_mset_out; [by apply IH|].
    intros i Hi. unfold example_brk in H. lia.
Qed.

Lemma base_mem_ok :
  mappedb base_mem teb_return_values 64
  && forallb (λ b, mappedb base_mem b 256 && bool_decide (base_mem !! behind b = None))
       argument_buffers
  && is_vecb base_mem Pempty_vectorVKi []
  && bool_decide (base_mem !! Pempty_vectorVKi = Some KLsimple_object_vectorGVKdW) = true.
Proof. vm_compute. reflexivity. Qed.

Lemma wf_example l : blocks_ok l = true → wf (example_state l).
Proof.
  intros H. pose proof base_mem_ok as B.
  apply andb_true_iff in B as [B B4]. apply andb_true_iff in B as [B B3].
  apply andb_true_iff in B as [B1 B2].
  apply mappedb_true in B1. rewrite forallb_forall in B2.
  assert (∀ b, b ∈ argument_buffers →
            mapped base_mem b MAX_ARGUMENTS ∧ base_mem !! behind b = None) as B2'.
  { intros b Hb. apply list_elem_of_In in Hb. specialize (B2 b Hb).
    apply andb_true_iff in B2 as [Bm Bn]. apply bool_decide_eq_true in Bn.
    split; [exact (mappedb_true _ _ _ Bm)|exact Bn]. }
  apply is_vecb_true in B3 as (V1 & _ & V3). apply bool_decide_eq_true in B4.
  assert (extends base_mem (blocks_mem l) teb_end) as X.
  { intros a Ha. by apply blocks_mem_low. }
  constructor; simpl.
  - unfold example_brk. teb_lia.
  - intros a. by apply blocks_mem_high.
  - eapply extends_mapped; [exact X| |exact B1]. teb_lia.
  - intros b Hb. eapply extends_mapped; [exact X| |exact (proj1 (B2' b Hb))].
    pose proof (argument_buffer_bounds b Hb). teb_lia.
  - intros b Hb. rewrite X; [exact (proj2 (B2' b Hb))|].
    pose proof (argument_buffer_bounds b Hb). teb_lia.
  - split_and!; [|apply arr_nil|done]. rewrite X; [done|]. unfold idx, Pempty_vectorVKi. teb_lia.
  - rewrite X; [done|]. unfold Pempty_vectorVKi. teb_lia.
Qed.

(** Discharging a memory predicate of an example state by evaluation. *)
Ltac eval_mem :=
  lazymatch goal with
  | |- wf _ => apply wf_example; vm_compute; reflexivity
  | |- is_vec _ _ _ => apply is_vecb_true; vm_compute; reflexivity
  | |- arr _ _ _ => apply arrb_true; vm_compute; reflexivity
  | |- mapped _ _ _ => apply mappedb_true; vm_compute; reflexivity
  | |- _ = _ => vm_compute; reflexivity
  | |- _ <= _ => vm_compute; congruence
  | |- _ < _ => vm_compute; reflexivity
  | |- in_fixnum _ => vm_compute; split; congruence
  | |- outside_teb _ _ => first [left; eval_mem | right; eval_mem]
  | |- NoDup _ => apply (bool_decide_unpack _); vm_compute; exact Logic.I
  | |- _ ∧ _ => split; eval_mem
  end.

(** The memory of an example is never unfolded by unification, only by
    [vm_compute]. *)
#[global] Strategy 1000 [base_mem blocks_mem].
