(* ===== verification/Calls.v ===== *)
(** * Functions, call checks and application

    The fields of function objects, the argument-count and type checks every
    external entry point performs, and the functions that spread a vector of
    arguments into a call ([c-run-time.c], sections FUNCTION, CALL CHECKS and
    the first half of CALLING CONVENTION). *)

From S2P Require Import Prelude Memory Tagging Entry Vectors Examples.
From stdpp Require Import base tactics option list numbers gmap.
From Stdlib Require Import ZArith Lia Bool.

Local Open Scope Z_scope.

(** ** Function objects

    [dylan_simple_method] and [dylan_keyword_method]: class, xep, signature,
    mep, then iep and keyword specifiers. *)

Definition function_class (fn : Z) : M Z := load (idx fn 0).
Definition function_xep (fn : Z) : M Z := load (idx fn 1).
Definition function_signature (fn : Z) : M Z := load (idx fn 2).
Definition function_mep (fn : Z) : M Z := load (idx fn 3).

(** The iep of a method without keywords is kept in its [mep] field. *)
Definition function_iep (fn : Z) : M Z := load (idx fn 3).
Definition keyword_function_iep (fn : Z) : M Z := load (idx fn 4).
Definition method_keyword_specifiers (fn : Z) : M Z := load (idx fn 5).

Definition function_specializers (fn : Z) : M Z :=
  sig ← function_signature fn; signature_required sig.
Definition function_number_required (fn : Z) : M Z :=
  sig ← function_signature fn; signature_number_required sig.
Definition function_number_values (fn : Z) : M Z :=
  sig ← function_signature fn; signature_number_values sig.
Definition function_key_p (fn : Z) : M bool :=
  sig ← function_signature fn; signature_key_p sig.
Definition function_all_keys_p (fn : Z) : M bool :=
  sig ← function_signature fn; signature_all_keys_p sig.
Definition function_rest_p (fn : Z) : M bool :=
  sig ← function_signature fn; signature_rest_p sig.
Definition function_optionals_p (fn : Z) : M bool :=
  sig ← function_signature fn; signature_optionals_p sig.
Definition function_rest_value_p (fn : Z) : M bool :=
  sig ← function_signature fn; signature_rest_value_p sig.
Definition function_next_p (fn : Z) : M bool :=
  sig ← function_signature fn; signature_next_p sig.

(** The wrapper's subtype mask has bit 6 set exactly for functions. *)
Definition FUNCTIONP (x : Z) : M bool :=
  w ← load (idx x 0);
  mask ← load (idx w 2);
  mret (negb (Z.land (R mask) 64 =? 0)).

Section Checks.
Context `{DylanCode}.

(** ** Type checks *)

(** [primitive_instanceQ(x, y)]: call the type's [instancep_function]. *)
Definition primitive_instanceQ (x y : Z) : M Z :=
  code ← load (idx y 1);
  m ← gets mem;
  mret (instancep_code code x y m).

Definition INSTANCEP (x y : Z) : M bool :=
  v ← primitive_instanceQ x y; mret (negb (v =? DFALSE)).

Definition PERFORM_INLINE_TYPE_CHECK (value type : Z) : M Z :=
  ok ← (if type =? LobjectGVKd then mret true else INSTANCEP value type);
  (if ok : bool then mret () else trap_with (Type_check_error value type)) ;;
  mret value.

Definition primitive_type_check (value type : Z) : M Z := PERFORM_INLINE_TYPE_CHECK value type.

Definition TYPE_CHECK_ARG (specializer argument : Z) : M () :=
  PERFORM_INLINE_TYPE_CHECK argument specializer ;; mret ().

(** The loop of [TYPE_CHECK_ARGS]: [n] specializers at [specs], [n] arguments
    at [args]. *)
Fixpoint type_check_loop (specs args : Z) (n : nat) : M () :=
  match n with
  | O => mret ()
  | S n =>
    specializer ← load specs;
    argument ← load args;
    TYPE_CHECK_ARG specializer argument ;;
    type_check_loop (specs + 8) (args + 8) n
  end.

Definition TYPE_CHECK_ARGS (fn argument_count arguments : Z) : M () :=
  specs ← function_specializers fn;
  if specs =? NULL then mret ()
  else type_check_loop (vector_data specs) arguments (Z.to_nat argument_count).

(** The unrolled loop of [TYPE_CHECK_ARGS_1] to [TYPE_CHECK_ARGS_9], over
    arguments passed as parameters. *)
Fixpoint type_check_each (specs : Z) (args : list Z) : M () :=
  match args with
  | [] => mret ()
  | a :: args =>
    specializer ← load specs;
    TYPE_CHECK_ARG specializer a ;;
    type_check_each (specs + 8) args
  end.

Definition TYPE_CHECK_ARGS_k (fn : Z) (args : list Z) : M () :=
  specs ← function_specializers fn;
  if specs =? NULL then mret () else type_check_each (vector_data specs) args.

(** ** Argument-count checks *)

Definition CALL_CHECK (fn argument_count : Z) : M () :=
  if MAX_ARGUMENTS <? argument_count
  then trap_with (Argument_count_overflow_error fn (I argument_count))
  else mret ().

Definition BASIC_REQUIRED_CALL_CHECK (fn number_required argument_count : Z) : M () :=
  CALL_CHECK fn argument_count ;;
  if argument_count =? number_required then mret ()
  else trap_with (Argument_count_error fn (I argument_count)).

Definition REQUIRED_CALL_CHECK (fn number_required argument_count arguments : Z) : M () :=
  BASIC_REQUIRED_CALL_CHECK fn number_required argument_count ;;
  TYPE_CHECK_ARGS fn argument_count arguments.

Definition BASIC_OPTIONAL_CALL_CHECK (fn number_required argument_count : Z) : M () :=
  CALL_CHECK fn argument_count ;;
  if argument_count <? number_required
  then trap_with (Argument_count_error fn (I argument_count))
  else mret ().

Definition OPTIONAL_CALL_CHECK (fn number_required argument_count arguments : Z) : M () :=
  BASIC_OPTIONAL_CALL_CHECK fn number_required argument_count ;;
  TYPE_CHECK_ARGS fn number_required arguments.

Definition KEYWORD_CALL_CHECK (fn number_required argument_count arguments : Z) : M () :=
  OPTIONAL_CALL_CHECK fn number_required argument_count arguments ;;
  if Z.odd (argument_count - number_required)
  then trap_with (Odd_keyword_arguments_error fn (I argument_count))
  else mret ().

(** ** Spreading arguments into calls *)

(** The [switch] shared by the apply functions: up to nine arguments are passed
    exactly, more are passed as sixty-four words, and more than sixty-four stop
    the process. *)
Definition spread_args (n a : Z) : M (list Z) :=
  if (0 <=? n) && (n <=? 9) then read_words a (Z.to_nat n)
  else when (64 <? n) (trap_with Break) ;; read_words a 64.

Definition primitive_xep_apply (fn n a : Z) : M outcome :=
  xep ← function_xep fn;
  modify_teb (set_function fn) ;;
  modify_teb (set_next_methods DFALSE) ;;
  args ← spread_args n a;
  mret (Jump xep (fn :: n :: args)).

Definition primitive_xep_call (fn n : Z) (ap : list Z) : M outcome :=
  transfer_varargs ap n teb_arguments ;;
  nreq ← function_number_required fn;
  REQUIRED_CALL_CHECK fn nreq n teb_arguments ;;
  primitive_xep_apply fn n teb_arguments.

Definition primitive_mep_apply_with_optionals (fn new_next_methods args : Z) : M outcome :=
  mep ← function_mep fn;
  modify_teb (set_next_methods new_next_methods) ;;
  modify_teb (set_function fn) ;;
  n ← vector_size args;
  modify_teb (set_argument_count n) ;;
  l ← spread_args n (vector_data args);
  mret (Jump mep l).

(** Walking up the [parent] links of cache headers to the generic function;
    the chain is finite, [fuel] bounds its length. *)
Fixpoint parent_gf (fuel : nat) (x : Z) : M Z :=
  f ← FUNCTIONP x;
  if f : bool then mret x
  else match fuel with
       | O => fault
       | S fuel => parent ← load (idx x 5); parent_gf fuel parent
       end.

Definition primitive_engine_node_apply_with_optionals (eng parent args : Z) : M outcome :=
  ep ← load (idx eng 3);
  modify_teb (set_next_methods parent) ;;
  modify_teb (set_function eng) ;;
  n ← vector_size args;
  modify_teb (set_argument_count n) ;;
  if (0 <=? n) && (n <=? 7) then
    l ← read_words (vector_data args) (Z.to_nat n); mret (Jump ep l)
  else
    f ← FUNCTIONP eng;
    if f : bool then primitive_mep_apply_with_optionals eng parent args
    else mret (Jump ep [args]).

Definition inline_invoke_engine_node (eng argcount : Z) (ap : list Z) : M outcome :=
  t ← get_teb;
  argvec ← DEF_STACK_VECTOR_INITTED (argument_count t);
  l ← take_args argcount ap;
  write_words (vector_data argvec) l ;;
  f ← FUNCTIONP eng;
  if f : bool then primitive_mep_apply_with_optionals eng (next_methods t) argvec
  else ep ← load (idx eng 3); mret (Jump ep [argvec]).

(** Gathering the optional arguments of a vector [a] into a rest vector:
    the branch [primitive_engine_node_apply] and [primitive_mep_apply] share. *)
Definition restify (number_required argument_count a : Z) : M Z :=
  new_arguments ← DEF_STACK_VECTOR_FROM_BUFFER_WITH_SIZE
                    (number_required + 1) (vector_data a) number_required;
  rest_arguments ← DEF_STACK_VECTOR_FROM_BUFFER
                    (argument_count - number_required) (idx (vector_data a) number_required);
  vector_ref_setter rest_arguments new_arguments number_required ;;
  mret new_arguments.

Definition primitive_engine_node_apply (fuel : nat) (eng parent a : Z) : M outcome :=
  gf ← parent_gf fuel parent;
  sig ← function_signature gf;
  number_required ← signature_number_required sig;
  argument_count ← vector_size a;
  opt ← signature_optionals_p sig;
  if opt : bool then
    v ← restify number_required argument_count a;
    primitive_engine_node_apply_with_optionals eng parent v
  else primitive_engine_node_apply_with_optionals eng parent a.

Definition primitive_mep_apply (fn next_methods a : Z) : M outcome :=
  number_required ← function_number_required fn;
  argument_count ← vector_size a;
  opt ← function_optionals_p fn;
  if opt : bool then
    v ← restify number_required argument_count a;
    primitive_mep_apply_with_optionals fn next_methods v
  else primitive_mep_apply_with_optionals fn next_methods a.

Definition iep_apply (iep n a : Z) : M outcome :=
  l ← spread_args n a; mret (Jump iep l).

Definition primitive_iep_apply (fn n a : Z) : M outcome :=
  modify_teb (set_function fn) ;;
  modify_teb (set_next_methods DFALSE) ;;
  iep ← function_iep fn;
  iep_apply iep n a.

(** [primitive_apply]: the last of the [n] arguments is a vector to spread. *)
Definition primitive_apply_using_buffer (fn n a : Z) : M outcome :=
  optionals ← load (idx a (n - 1));
  optionals_size ← vector_size optionals;
  front ← read_words a (Z.to_nat (n - 1));
  write_words teb_apply_buffer front ;;
  back ← read_words (vector_data optionals) (Z.to_nat optionals_size);
  write_words (idx teb_apply_buffer (n - 1)) back ;;
  primitive_xep_apply fn (n + optionals_size - 1) teb_apply_buffer.

Definition primitive_apply (fn args : Z) : M outcome :=
  n ← vector_size args;
  primitive_apply_using_buffer fn n (vector_data args).

Definition primitive_apply_spread (fn n : Z) (ap : list Z) : M outcome :=
  transfer_varargs ap n teb_buffer ;;
  primitive_apply_using_buffer fn n teb_buffer.

(** The vector [primitive_mep_apply_spread] and
    [primitive_engine_node_apply_spread] build: the first [n - 1] arguments,
    then the elements of the last. *)
Definition spread_vector (n : Z) (ap : list Z) : M Z :=
  transfer_varargs ap n teb_buffer ;;
  v ← load (idx teb_buffer (n - 1));
  v_size ← vector_size v;
  new_arguments ← DEF_STACK_VECTOR_FROM_BUFFER_WITH_SIZE (n + v_size - 1) teb_buffer (n - 1);
  COPY_WORDS (idx (vector_data new_arguments) (n - 1)) (vector_data v) v_size ;;
  mret new_arguments.

Definition primitive_mep_apply_spread (fn nm n : Z) (ap : list Z) : M outcome :=
  new_arguments ← spread_vector n ap;
  primitive_mep_apply fn nm new_arguments.

Definition primitive_engine_node_apply_spread (fuel : nat) (e parent n : Z) (ap : list Z)
  : M outcome :=
  new_arguments ← spread_vector n ap;
  primitive_engine_node_apply fuel e parent new_arguments.


(** ** The checks, on every branch *)

(** Does [a] pass the check against the specializer [sp]? *)
Definition passes (m : gmap Z Z) (sp a : Z) : bool :=
  (sp =? LobjectGVKd) ||
  match m !! idx sp 1 with
  | Some code => negb (instancep_code code a sp m =? DFALSE)
  | None => false
  end.

(** The check can be performed: the specializer is [<object>] or a type object. *)
Definition checkable (m : gmap Z Z) (sp : Z) : Prop :=
  sp = LobjectGVKd ∨ is_Some (m !! idx sp 1).

(** The first argument that fails its specializer, with it. *)
Fixpoint first_failure (m : gmap Z Z) (spl args : list Z) : option (Z * Z) :=
  match spl, args with
  | sp :: spl, a :: args => if passes m sp a then first_failure m spl args else Some (a, sp)
  | _, _ => None
  end.

(** What a run of the type checks does. *)
Definition type_check_result (s : state) (spl args : list Z) : res () :=
  match first_failure (mem s) spl args with
  | None => Ok () s
  | Some (a, sp) => Trap (Type_check_error a sp) s
  end.

Lemma TYPE_CHECK_ARG_ok s sp a :
  checkable (mem s) sp →
  TYPE_CHECK_ARG sp a s
  = if passes (mem s) sp a then Ok () s else Trap (Type_check_error a sp) s.
Proof.
  intros Hc. unfold TYPE_CHECK_ARG, PERFORM_INLINE_TYPE_CHECK, passes.
  destruct (Z.eqb_spec sp LobjectGVKd) as [->|Hne]; [done|].
  destruct Hc as [?|[code Hcode]]; [done|]. simpl. rewrite Hcode.
  unfold INSTANCEP, primitive_instanceQ, gets. mnorm. mstep (load_ok _ _ _ Hcode).
  unfold mbind, M_bind, mret, M_ret. by destruct (instancep_code _ _ _ _ =? DFALSE).
Qed.

Lemma type_check_each_ok s specs spl args :
  arr (mem s) specs spl → length spl = length args → Forall (checkable (mem s)) spl →
  type_check_each specs args s = type_check_result s spl args.
Proof.
  revert specs spl. induction args as [|a args IH]; intros specs [|sp spl] Ha Hl Hc;
    simplify_eq/=; [done|].
  apply arr_cons in Ha as [H1 H2]. apply Forall_cons in Hc as [Hc1 Hc2].
  mstep (load_ok _ _ _ H1). unfold type_check_result. simpl.
  unfold mbind at 1, M_bind at 1. rewrite TYPE_CHECK_ARG_ok by done.
  destruct (passes (mem s) sp a); [|done]. by apply IH.
Qed.

Lemma type_check_loop_ok s specs args spl l :
  arr (mem s) specs spl → arr (mem s) args l → length spl = length l →
  Forall (checkable (mem s)) spl →
  type_check_loop specs args (length l) s = type_check_result s spl l.
Proof.
  revert specs args spl. induction l as [|a l IH]; intros specs args [|sp spl] Ha Hb Hl Hc;
    simplify_eq/=; [done|].
  apply arr_cons in Ha as [H1 H2]. apply arr_cons in Hb as [H3 H4].
  apply Forall_cons in Hc as [Hc1 Hc2].
  mstep (load_ok _ _ _ H1). mstep (load_ok _ _ _ H3). unfold type_check_result. simpl.
  unfold mbind at 1, M_bind at 1. rewrite TYPE_CHECK_ARG_ok by done.
  destruct (passes (mem s) sp a); [|done]. by apply IH.
Qed.

Lemma CALL_CHECK_ok s fn n : n <= MAX_ARGUMENTS → CALL_CHECK fn n s = Ok () s.
Proof. intros Hn. unfold CALL_CHECK. destruct (Z.ltb_spec MAX_ARGUMENTS n); [lia|done]. Qed.

Lemma CALL_CHECK_overflow s fn n :
  MAX_ARGUMENTS < n → CALL_CHECK fn n s = Trap (Argument_count_overflow_error fn (I n)) s.
Proof. intros Hn. unfold CALL_CHECK. destruct (Z.ltb_spec MAX_ARGUMENTS n); [done|lia]. Qed.

Lemma BASIC_REQUIRED_CALL_CHECK_ok s fn n :
  n <= MAX_ARGUMENTS → BASIC_REQUIRED_CALL_CHECK fn n n s = Ok () s.
Proof.
  intros Hn. unfold BASIC_REQUIRED_CALL_CHECK. mstep (CALL_CHECK_ok s fn n Hn).
  by rewrite Z.eqb_refl.
Qed.

Lemma BASIC_OPTIONAL_CALL_CHECK_ok s fn k n :
  k <= n <= MAX_ARGUMENTS → BASIC_OPTIONAL_CALL_CHECK fn k n s = Ok () s.
Proof.
  intros Hn. unfold BASIC_OPTIONAL_CALL_CHECK. mstep (CALL_CHECK_ok s fn n ltac:(lia)).
  destruct (Z.ltb_spec n k); [lia|done].
Qed.

(** ** Function objects in memory *)

(** [fn] is a function with signature [sig], unboxed signature properties [p]
    and specializers [specs] ([NULL] or a vector). *)
Record is_function (m : gmap Z Z) (fn sig p specs : Z) : Prop := {
  if_signature : m !! idx fn 2 = Some sig;
  if_properties : m !! idx sig 1 = Some (I p);
  if_range : in_fixnum p;
  if_specializers : m !! idx sig 2 = Some specs
}.

(** The specializers, as the list the checks run over: none if there is no
    vector. *)
Definition specializers (m : gmap Z Z) (specs : Z) (spl : list Z) : Prop :=
  if decide (specs = NULL) then spl = []
  else arr m (vector_data specs) spl ∧ Forall (checkable m) spl.

Lemma function_signature_ok s fn sig p specs :
  is_function (mem s) fn sig p specs → function_signature fn s = Ok sig s.
Proof. intros F. apply load_ok. apply F. Qed.

Lemma function_number_required_ok s fn sig p specs :
  is_function (mem s) fn sig p specs →
  function_number_required fn s = Ok (sig_number_required p) s.
Proof.
  intros F. unfold function_number_required. mstep (function_signature_ok _ _ _ _ _ F).
  unfold signature_number_required, signature_properties.
  mstep (load_ok _ _ _ (if_properties _ _ _ _ _ F)).
  rewrite R_I_id by apply F. done.
Qed.

Lemma function_specializers_ok s fn sig p specs :
  is_function (mem s) fn sig p specs → function_specializers fn s = Ok specs s.
Proof.
  intros F. unfold function_specializers. mstep (function_signature_ok _ _ _ _ _ F).
  apply load_ok. apply F.
Qed.

Lemma first_failure_nil m args : first_failure m [] args = None.
Proof. done. Qed.

Lemma TYPE_CHECK_ARGS_k_ok s fn sig p specs spl args :
  is_function (mem s) fn sig p specs → specializers (mem s) specs spl →
  (specs ≠ NULL → length spl = length args) →
  TYPE_CHECK_ARGS_k fn args s = type_check_result s spl args.
Proof.
  intros F S Hl. unfold TYPE_CHECK_ARGS_k. mstep (function_specializers_ok _ _ _ _ _ F).
  unfold specializers in S. destruct (Z.eqb_spec specs NULL) as [E|E].
  - rewrite decide_True in S by done. by subst spl.
  - rewrite decide_False in S by done. apply type_check_each_ok; [tauto|auto|tauto].
Qed.

Lemma TYPE_CHECK_ARGS_ok s fn sig p specs spl a l :
  is_function (mem s) fn sig p specs → specializers (mem s) specs spl →
  (specs ≠ NULL → length spl = length l) → arr (mem s) a l →
  TYPE_CHECK_ARGS fn (length l) a s = type_check_result s spl l.
Proof.
  intros F S Hl Ha. unfold TYPE_CHECK_ARGS. mstep (function_specializers_ok _ _ _ _ _ F).
  unfold specializers in S. destruct (Z.eqb_spec specs NULL) as [E|E].
  - rewrite decide_True in S by done. by subst spl.
  - rewrite decide_False in S by done. rewrite Nat2Z.id.
    apply type_check_loop_ok; [tauto|done|auto|tauto].
Qed.

Lemma sig_number_required_range p : 0 <= sig_number_required p < 256.
Proof. rewrite sig_number_required_eq. apply Z.mod_pos_bound. lia. Qed.

Lemma is_function_sub m m' fn sig p specs :
  m ⊆ m' → is_function m fn sig p specs → is_function m' fn sig p specs.
Proof.
  intros S [F1 F2 F3 F4]. constructor; try done; by eapply lookup_sub.
Qed.

Lemma specializers_sub m m' specs spl :
  m ⊆ m' → specializers m specs spl → specializers m' specs spl.
Proof.
  intros S. unfold specializers. destruct (decide (specs = NULL)); [done|].
  intros [Ha Hc]. split; [by eapply arr_sub|].
  eapply Forall_impl; [done|]. intros sp [->|[code Hcode]]; [by left|right].
  exists code. by eapply lookup_sub.
Qed.

(** ** Spreading *)

Lemma spread_args_ok s a l :
  arr (mem s) a l → (length l ≤ 9)%nat → spread_args (length l) a s = Ok l s.
Proof.
  intros Ha Hl. unfold spread_args.
  destruct (Z.leb_spec 0 (length l)); [|lia]. destruct (Z.leb_spec (length l) 9); [|lia].
  simpl. rewrite Nat2Z.id. by apply read_words_ok.
Qed.

Lemma spread_args_many s a l k :
  arr (mem s) a (l ++ k) → length (l ++ k) = 64%nat → 9 < length l →
  spread_args (length l) a s = Ok (l ++ k) s.
Proof.
  intros Ha Hl Hn. unfold spread_args. destruct (Z.leb_spec (length l) 9); [lia|].
  rewrite andb_false_r. rewrite length_app in Hl.
  destruct (Z.ltb_spec 64 (length l)); [lia|]. cbn [andb]. unfold when. rewrite bind_ret.
  replace 64%nat with (length (l ++ k)) by (rewrite length_app; lia).
  by apply read_words_ok.
Qed.

Lemma spread_args_too_many s a n : 64 < n → spread_args n a s = Trap Break s.
Proof.
  intros Hn. unfold spread_args. destruct (Z.leb_spec n 9); [lia|]. rewrite andb_false_r.
  destruct (Z.ltb_spec 64 n); [done|lia].
Qed.


(** ** Application *)

(** The state in which [primitive_xep_apply] calls [fn]. *)
Definition calling (fn : Z) (s : state) : state :=
  with_teb (set_next_methods DFALSE) (with_teb (set_function fn) s).

(** The words passed to a function called with the arguments [l]: up to nine are
    passed exactly, more are passed as sixty-four words that start with them. *)
Definition passed (l : list Z) (args : list Z) : Prop :=
  if decide (length l ≤ 9)%nat then args = l
  else l `prefix_of` args ∧ length args = 64%nat.

Lemma spread_args_passed s a l :
  arr (mem s) a l → (length l ≤ 64)%nat → mapped (mem s) a 64 →
  ∃ args, spread_args (length l) a s = Ok args s ∧ passed l args.
Proof.
  intros Ha Hl Hm. unfold passed. destruct (decide (length l ≤ 9)%nat) as [Hs|Hs].
  - exists l. split; [|done]. by apply spread_args_ok.
  - destruct (mapped_arr (mem s) (a + 8 * length l) (64 - length l)) as (k & Hk & Hak).
    { replace (Z.of_nat (64 - length l)) with (64 - length l) by lia.
      by apply (mapped_sub _ _ 64); [|lia|lia]. }
    exists (l ++ k). split; [|split].
    + apply spread_args_many; [by apply arr_app|rewrite length_app; lia|lia].
    + by apply prefix_app_r.
    + rewrite length_app. lia.
Qed.

Lemma primitive_xep_apply_ok s fn xep a l :
  mem s !! idx fn 1 = Some xep → arr (mem s) a l → (length l ≤ 64)%nat →
  mapped (mem s) a 64 →
  ∃ args, primitive_xep_apply fn (length l) a s
          = Ok (Jump xep (fn :: Z.of_nat (length l) :: args)) (calling fn s) ∧ passed l args.
Proof.
  intros Hx Ha Hl Hm.
  destruct (spread_args_passed (calling fn s) a l Ha Hl Hm) as (args & E & P).
  exists args. split; [|done]. unfold primitive_xep_apply, function_xep, calling in *.
  mstep (load_ok _ _ _ Hx). mstep (modify_teb_ok (set_function fn) s).
  mstep (modify_teb_ok (set_next_methods DFALSE) (with_teb (set_function fn) s)).
  by mstep E.
Qed.

Lemma primitive_xep_apply_many s fn xep a n :
  mem s !! idx fn 1 = Some xep → 64 < n →
  primitive_xep_apply fn n a s = Trap Break (calling fn s).
Proof.
  intros Hx Hn. unfold primitive_xep_apply, function_xep, calling.
  mstep (load_ok _ _ _ Hx). mstep (modify_teb_ok (set_function fn) s).
  mstep (modify_teb_ok (set_next_methods DFALSE) (with_teb (set_function fn) s)).
  apply bind_trap. by apply spread_args_too_many.
Qed.

(** The buffer after [primitive_apply_using_buffer] has filled it. *)
Definition apply_buffered (l : list Z) (s : state) : state :=
  with_mem (mset (mem s) teb_apply_buffer l) s.

Lemma wf_buffer_mapped s a n :
  wf s → a ∈ argument_buffers → n <= MAX_ARGUMENTS →
  mapped (mem s) a n.
Proof.
  intros W Ha Hn. eapply mapped_le; [by apply wf_buffers|done].
Qed.

Lemma primitive_apply_using_buffer_run s fn a front v back :
  wf s → arr (mem s) a (front ++ [v]) → is_vec (mem s) v back →
  disjoint_blocks teb_apply_buffer (length front) (vector_data v) (length back) →
  length (front ++ back) <= MAX_ARGUMENTS →
  primitive_apply_using_buffer fn (length front + 1) a s
  = primitive_xep_apply fn (length (front ++ back)) teb_apply_buffer
      (apply_buffered (front ++ back) s).
Proof.
  intros W Ha Hv Hd Hl. rewrite length_app in Hl.
  apply arr_app in Ha as [Hf Hlast]. apply arr_cons in Hlast as [Hlast _].
  assert (mapped (mem s) teb_apply_buffer (length front + length back)) as Hm.
  { apply wf_buffer_mapped; [done|by buffer|teb_lia]. }
  unfold primitive_apply_using_buffer, idx.
  replace (length front + 1 - 1) with (Z.of_nat (length front)) by lia.
  mstep (load_ok _ _ _ Hlast). mstep (vector_size_ok _ _ _ Hv).
  rewrite !Nat2Z.id. mstep (read_words_ok _ _ _ Hf).
  assert (mapped (mem s) teb_apply_buffer (length front)) as Hm1.
  { eapply mapped_le; [exact Hm|lia]. }
  mstep (write_words_ok _ _ _ Hm1).
  set (s1 := with_mem _ s).
  assert (arr (mem s1) (vector_data v) back) as Hb.
  { apply arr_mset_disjoint; [done|by apply vec_arr]. }
  mstep (read_words_ok _ _ _ Hb).
  assert (mapped (mem s1) (teb_apply_buffer + 8 * length front) (length back)) as Hm2.
  { apply mapped_mset. eapply mapped_sub; [exact Hm|lia|lia]. }
  mstep (write_words_ok _ _ _ Hm2). unfold apply_buffered, s1.
  rewrite mset_app, length_app, with_mem_with_mem. do 2 f_equal. lia.
Qed.

(** More than [MAX_ARGUMENTS] arguments go past the end of the buffer. *)
Lemma primitive_apply_using_buffer_overrun s fn a front v back :
  wf s → arr (mem s) a (front ++ [v]) → is_vec (mem s) v back →
  outside_teb (vector_data v) (length back) → MAX_ARGUMENTS < length (front ++ back) →
  primitive_apply_using_buffer fn (length front + 1) a s = Fault.
Proof.
  intros W Ha Hv Ov Hl. rewrite length_app in Hl.
  apply arr_app in Ha as [Hf Hlast]. apply arr_cons in Hlast as [Hlast _].
  unfold primitive_apply_using_buffer, idx.
  replace (length front + 1 - 1) with (Z.of_nat (length front)) by lia.
  mstep (load_ok _ _ _ Hlast). mstep (vector_size_ok _ _ _ Hv).
  rewrite !Nat2Z.id. mstep (read_words_ok _ _ _ Hf).
  destruct (decide (MAX_ARGUMENTS < length front)) as [Ho|Ho].
  { unfold mbind at 1, M_bind at 1. rewrite buffer_overrun; [done|done|by buffer|done]. }
  assert (mapped (mem s) teb_apply_buffer (length front)) as Hm1.
  { apply wf_buffer_mapped; [done|by buffer|lia]. }
  mstep (write_words_ok _ _ _ Hm1). set (s1 := with_mem _ s).
  assert (arr (mem s1) (vector_data v) back) as Hb.
  { apply arr_mset_disjoint; [|by apply vec_arr].
    apply outside_teb_disjoint; [done|teb_lia|teb_lia]. }
  mstep (read_words_ok _ _ _ Hb). unfold mbind at 1, M_bind at 1.
  rewrite (write_words_overrun s1 _ (Z.to_nat MAX_ARGUMENTS - length front)%nat); [done| | |].
  - apply mapped_mset.
    pose proof (wf_buffers s W teb_apply_buffer ltac:(by buffer)) as Hb'.
    eapply mapped_sub; [exact Hb'|lia|teb_lia].
  - simpl. rewrite lookup_mset_out.
    + rewrite <- (wf_behind s W teb_apply_buffer) by buffer. f_equal. teb_lia.
    + intros. teb_lia.
  - unfold MAX_ARGUMENTS in *. lia.
Qed.

(** The checks of a function of required arguments, on every branch: too many
    arguments, a wrong number of them, the first argument that fails its
    specializer, or none. *)
Lemma required_call_check s fn sig p specs spl a l :
  is_function (mem s) fn sig p specs → specializers (mem s) specs spl →
  (specs ≠ NULL → length spl = Z.to_nat (sig_number_required p)) → arr (mem s) a l →
  REQUIRED_CALL_CHECK fn (sig_number_required p) (length l) a s
  = if decide (MAX_ARGUMENTS < length l)
    then Trap (Argument_count_overflow_error fn (I (length l))) s
    else if decide (length l ≠ Z.to_nat (sig_number_required p))
    then Trap (Argument_count_error fn (I (length l))) s
    else type_check_result s spl l.
Proof.
  intros F S Hl Ha. pose proof (sig_number_required_range p) as Hr.
  unfold REQUIRED_CALL_CHECK, BASIC_REQUIRED_CALL_CHECK.
  destruct (decide (MAX_ARGUMENTS < length l)) as [Ho|Ho].
  - mnorm. apply bind_trap. by apply CALL_CHECK_overflow.
  - mstep (CALL_CHECK_ok s fn (length l) ltac:(lia)).
    destruct (decide (length l ≠ Z.to_nat (sig_number_required p))) as [Hc|Hc].
    + rewrite (proj2 (Z.eqb_neq _ _)); [done|lia].
    + rewrite (proj2 (Z.eqb_eq _ _)) by lia. rewrite bind_ret.
      eapply TYPE_CHECK_ARGS_ok; [done|done|intros; lia|done].
Qed.

(** The checks of a function that takes optional arguments: only the required
    ones are type checked. *)
Lemma optional_call_check s fn sig p specs spl a l :
  is_function (mem s) fn sig p specs → specializers (mem s) specs spl →
  (specs ≠ NULL → length spl = Z.to_nat (sig_number_required p)) → arr (mem s) a l →
  OPTIONAL_CALL_CHECK fn (sig_number_required p) (length l) a s
  = if decide (MAX_ARGUMENTS < length l)
    then Trap (Argument_count_overflow_error fn (I (length l))) s
    else if decide (length l < sig_number_required p)
    then Trap (Argument_count_error fn (I (length l))) s
    else type_check_result s spl (take (Z.to_nat (sig_number_required p)) l).
Proof.
  intros F S Hl Ha. pose proof (sig_number_required_range p) as Hr.
  unfold OPTIONAL_CALL_CHECK, BASIC_OPTIONAL_CALL_CHECK.
  destruct (decide (MAX_ARGUMENTS < length l)) as [Ho|Ho].
  - mnorm. apply bind_trap. by apply CALL_CHECK_overflow.
  - mstep (CALL_CHECK_ok s fn (length l) ltac:(lia)).
    destruct (decide (length l < sig_number_required p)) as [Hc|Hc].
    + rewrite (proj2 (Z.ltb_lt _ _)); [done|lia].
    + rewrite (proj2 (Z.ltb_ge _ _)) by lia. rewrite bind_ret.
      set (t := take _ l).
      assert (sig_number_required p = length t) as E.
      { unfold t. rewrite length_take. lia. }
      rewrite E at 1. eapply TYPE_CHECK_ARGS_ok; [done|done| |by apply arr_take].
      intros Hs. rewrite (Hl Hs), E. lia.
Qed.

(** ** Gathering optional arguments *)

Lemma restify_ok s a req opts :
  wf s → is_vec (mem s) a (req ++ opts) → length req < 256 →
  ∃ v rest s', restify (length req) (length (req ++ opts)) a s = Ok v s' ∧
    is_vec (mem s') v (req ++ [rest]) ∧ is_vec (mem s') rest opts ∧
    extends (mem s) (mem s') (brk s) ∧ teb s' = teb s ∧ wf s'.
Proof.
  intros W Ha Hreq. pose proof (vec_arr _ _ _ Ha) as Hd. destruct Ha as (_ & _ & Hlen).
  rewrite length_app in *. apply arr_app in Hd as [Hr Ho].
  destruct (DEF_STACK_VECTOR_one_more_ok s _ req W Hr ltac:(lia))
    as (s1 & E1 & Hsz & Hdat & Hroom & X1 & B1 & T1 & W1).
  destruct (DEF_STACK_VECTOR_FROM_BUFFER_ok s1 (idx (vector_data a) (length req)) opts W1)
    as (s2 & E2 & F2); [by apply (arr_after s)|lia|].
  pose proof (fv_extends _ _ _ _ F2) as X2.
  set (slot := idx (vector_data (brk s)) (length req)) in *.
  assert (slot < brk s1) as Hslot by (unfold slot, vector_data, idx; lia).
  assert (is_Some (mem s2 !! slot)) as Hroom2 by (rewrite X2; done).
  exists (brk s), (brk s1), (with_mem (<[slot := brk s1]> (mem s2)) s2).
  split_and!.
  - unfold restify. mstep E1.
    replace ((length req + length opts)%nat - length req) with (Z.of_nat (length opts)) by lia.
    mstep E2. unfold vector_ref_setter. by mstep (store_ok s2 slot (brk s1) Hroom2).
  - simpl. split_and!.
    + rewrite lookup_insert_ne by (unfold slot, vector_data, idx; lia).
      rewrite X2 by (unfold idx; lia). rewrite Hsz, length_app. simpl. do 2 f_equal. lia.
    + apply arr_app. split.
      * intros n x Hn. rewrite lookup_insert_ne.
        -- eapply arr_lookup; [|done]. eapply extends_arr; [exact X2| |done].
           unfold vector_data, idx. lia.
        -- apply lookup_lt_Some in Hn. unfold slot, idx. lia.
      * apply arr_cons. split; [|apply arr_nil]. apply lookup_insert_eq.
    + rewrite length_app. simpl. lia.
  - destruct (fv_vec _ _ _ _ F2) as (V1 & V2 & V3). simpl. split_and!; [| |done].
    + rewrite lookup_insert_ne; [done|]. unfold idx. lia.
    + intros n x Hn. rewrite lookup_insert_ne; [by apply V2|].
      unfold vector_data, idx in *. lia.
  - intros b Hb. simpl. rewrite lookup_insert_ne by (unfold slot, vector_data, idx; lia).
    rewrite X2 by lia. by apply X1.
  - simpl. by rewrite (fv_teb _ _ _ _ F2).
  - apply (wf_mset s2 slot [brk s1]).
    + apply F2.
    + intros n Hn. simpl in Hn. by replace (slot + 8 * n) with slot by lia.
    + pose proof (wf_brk s W). unfold slot, vector_data, idx, Pempty_vectorVKi. teb_lia.
Qed.

Lemma FUNCTION_optionals_ok s fn sig p specs :
  is_function (mem s) fn sig p specs →
  function_optionals_p fn s = Ok (sig_flag OPTIONALS_P_MASK p) s.
Proof.
  intros F. unfold function_optionals_p. mstep (function_signature_ok _ _ _ _ _ F).
  unfold signature_optionals_p, signature_properties.
  mstep (load_ok _ _ _ (if_properties _ _ _ _ _ F)).
  by rewrite R_I_id by apply F.
Qed.

(** The state in which a method's mep runs. *)
Definition calling_mep (fn next_methods n : Z) (s : state) : state :=
  with_teb (set_argument_count n)
    (with_teb (set_function fn) (with_teb (set_next_methods next_methods) s)).

Lemma primitive_mep_apply_with_optionals_ok s fn mep nm v l :
  mem s !! idx fn 3 = Some mep → is_vec (mem s) v l → (length l ≤ 9)%nat →
  primitive_mep_apply_with_optionals fn nm v s
  = Ok (Jump mep l) (calling_mep fn nm (length l) s).
Proof.
  intros Hm Hv Hl. unfold primitive_mep_apply_with_optionals, function_mep, calling_mep.
  mstep (load_ok _ _ _ Hm). mstep (modify_teb_ok (set_next_methods nm) s).
  set (s1 := with_teb _ s). mstep (modify_teb_ok (set_function fn) s1).
  set (s2 := with_teb _ s1). mstep (vector_size_ok s2 v l Hv).
  mstep (modify_teb_ok (set_argument_count (length l)) s2). set (s3 := with_teb _ s2).
  assert (arr (mem s3) (vector_data v) l) as Ha by (by apply vec_arr).
  by mstep (spread_args_ok s3 _ _ Ha Hl).
Qed.

(** ** Properties *)

(** C27: primitive_apply, with up to 256 arguments in all, calls a function's
    external entry point with the leading arguments followed by the elements
    of the last one, and their total count; with ten to sixty-four arguments
    the words after the last argument are whatever the buffer holds, and
    with more than sixty-four the process breaks into the debugger. With
    more than 256 it goes past the end of teb->apply_buffer, which is
    undefined behaviour, before any check. *)
Theorem primitive_apply_spreads s fn xep args front v back :
  wf s → mem s !! idx fn 1 = Some xep →
  is_vec (mem s) args (front ++ [v]) → is_vec (mem s) v back →
  outside_teb (idx fn 1) 1 → outside_teb (vector_data v) (length back) →
  let l := front ++ back in
  let s' := calling fn (apply_buffered l s) in
  if decide (MAX_ARGUMENTS < length l) then primitive_apply fn args s = Fault
  else if decide (length l ≤ 64)%nat
  then ∃ words, primitive_apply fn args s
                = Ok (Jump xep (fn :: Z.of_nat (length l) :: words)) s' ∧ passed l words
  else primitive_apply fn args s = Trap Break s'.
Proof.
  intros W Hx Ha Hv Of Ov l s'. destruct (decide (MAX_ARGUMENTS < length l)) as [Ho|Hl].
  { unfold primitive_apply. mstep (vector_size_ok _ _ _ Ha). rewrite length_app. simpl.
    replace (Z.of_nat (length front + 1)) with (length front + 1) by lia.
    by apply primitive_apply_using_buffer_overrun with (v := v) (back := back);
      [|apply vec_arr| | |]. }
  assert (length (front ++ back) <= MAX_ARGUMENTS) by (fold l; lia).
  assert (primitive_apply fn args s
          = primitive_xep_apply fn (length l) teb_apply_buffer (apply_buffered l s)) as E.
  { unfold primitive_apply. mstep (vector_size_ok _ _ _ Ha). rewrite length_app. simpl.
    replace (Z.of_nat (length front + 1)) with (length front + 1) by lia.
    apply primitive_apply_using_buffer_run with (v := v); try done; [by apply vec_arr|].
    subst l. rewrite length_app in Hl. apply outside_teb_disjoint; [done|teb_lia|teb_lia]. }
  assert (mem (apply_buffered l s) !! idx fn 1 = Some xep) as Hx'.
  { simpl. rewrite lookup_mset_out; [done|]. intros i Hi Ei. fold l in Hl.
    destruct Of as [Of|Of]; teb_lia. }
  rewrite E. destruct (decide (length l ≤ 64)%nat) as [Hs|Hs].
  - apply primitive_xep_apply_ok; [done|apply arr_mset|done|].
    apply mapped_mset. apply wf_buffer_mapped; [done|by buffer|teb_lia].
  - eapply primitive_xep_apply_many; [done|lia].
Qed.

(** primitive_mep_apply on a method with optionals and at most eight required arguments enters its method entry
    point with the required arguments and a rest vector of exactly the
    optional ones, the method and its next methods in the thread environment
    block, and touches no memory in use before. *)
Theorem primitive_mep_apply_gathers_optionals s fn sig p specs mep nm a req opts :
  wf s → is_function (mem s) fn sig p specs → mem s !! idx fn 3 = Some mep →
  is_vec (mem s) a (req ++ opts) → sig_flag OPTIONALS_P_MASK p = true →
  Z.of_nat (length req) = sig_number_required p → (length req ≤ 8)%nat →
  ∃ rest s', primitive_mep_apply fn nm a s = Ok (Jump mep (req ++ [rest])) s' ∧
    is_vec (mem s') rest opts ∧ extends (mem s) (mem s') (brk s) ∧
    function (teb s') = fn ∧ next_methods (teb s') = nm ∧
    argument_count (teb s') = length req + 1.
Proof.
  intros W F Hm Ha Hopt Hr H8. pose proof (sig_number_required_range p).
  destruct (restify_ok s a req opts W Ha ltac:(lia))
    as (v & rest & s1 & E & V & Vr & X & T & W1).
  exists rest, (calling_mep fn nm (length (req ++ [rest])) s1).
  split_and!; try done.
  - unfold primitive_mep_apply. mstep (function_number_required_ok _ _ _ _ _ F).
    mstep (vector_size_ok _ _ _ Ha). mstep (FUNCTION_optionals_ok _ _ _ _ _ F).
    rewrite Hopt, <- Hr. mstep E.
    apply primitive_mep_apply_with_optionals_ok; [by apply (lookup_after s)|done|].
    rewrite length_app. simpl. lia.
  - simpl. rewrite length_app. simpl. lia.
Qed.

End Checks.

(** ** Evaluation, for witnesses *)

Definition checkableb (m : gmap Z Z) (sp : Z) : bool :=
  (sp =? LobjectGVKd) || bool_decide (is_Some (m !! idx sp 1)).

Definition specializersb (m : gmap Z Z) (specs : Z) (spl : list Z) : bool :=
  if specs =? NULL then match spl with [] => true | _ => false end
  else arrb m (vector_data specs) spl && forallb (checkableb m) spl.

Lemma specializersb_true m specs spl : specializersb m specs spl = true → specializers m specs spl.
Proof.
  unfold specializersb, specializers. destruct (Z.eqb_spec specs NULL) as [E|E].
  - rewrite decide_True by done. by destruct spl.
  - rewrite decide_False by done. intros [H1 H2]%andb_true_iff.
    split; [by apply arrb_true|]. apply Forall_forall. intros sp Hsp.
    rewrite forallb_forall in H2. specialize (H2 sp (proj1 (list_elem_of_In _ _) Hsp)).
    unfold checkableb in H2. apply orb_true_iff in H2 as [H2|H2].
    + left. lia.
    + right. by apply bool_decide_eq_true in H2.
Qed.

Ltac eval_call :=
  lazymatch goal with
  | |- is_function _ _ _ _ _ => constructor; eval_mem
  | |- specializers _ _ _ => apply specializersb_true; vm_compute; reflexivity
  | |- _ => eval_mem
  end.

(** ** Witnesses *)

(** A function at 65536 with signature at 65600, taking one required argument
    and a rest argument; a vector of two arguments and a vector to spread. *)
Definition call_blocks : blocks :=
  [(65536, [0; 4096; 65600; 8192; 8200; 0]);
   (65600, signature_words (sig_sum 1 0 false false true false) NULL);
   (65700 + 60, vec_words [11; 66560]);
   (66560, vec_words [22; 33; 44])].

Example primitive_apply_spreads_witness :
  let s := example_state call_blocks in
  ∃ words, primitive_apply 65536 65760 s
    = Ok (Jump 4096 (65536 :: Z.of_nat 4 :: words))
         (calling 65536 (apply_buffered [11; 22; 33; 44] s)) ∧
    passed [11; 22; 33; 44] words.
Proof.
  pose proof (primitive_apply_spreads (example_state call_blocks) 65536 4096 65760
                [11] 66560 [22; 33; 44]
                ltac:(eval_mem) ltac:(eval_mem) ltac:(eval_mem) ltac:(eval_mem)
                ltac:(eval_mem) ltac:(eval_mem)) as T.
  cbv zeta in T. rewrite decide_False in T by (vm_compute; congruence).
  rewrite decide_True in T by (simpl; lia). exact T.
Defined.

Example primitive_mep_apply_gathers_optionals_witness :
  ∃ rest s', primitive_mep_apply 65536 77 66560 (example_state call_blocks)
             = Ok (Jump 8192 [22; rest]) s' ∧
    is_vec (mem s') rest [33; 44] ∧
    extends (mem (example_state call_blocks)) (mem s') example_brk ∧
    function (teb s') = 65536 ∧ next_methods (teb s') = 77 ∧
    argument_count (teb s') = 1%nat + 1.
Proof.
  apply (primitive_mep_apply_gathers_optionals (example_state call_blocks) 65536 65600
           (sig_sum 1 0 false false true false) NULL 8192 77 66560 [22] [33; 44]);
    try eval_mem.
  - constructor; eval_mem.
  - simpl. lia.
Defined.
