(* ===== verification/Xeps.v ===== *)
(** * External and method entry points

    The functions a call reaches first ([c-run-time.c], sections "required
    xep's", "REST XEP'S", "ACCESSOR-METHOD XEP'S", "KEYWORD PROCESSING SUPPORT",
    "REST and KEY XEP's" and "METHOD ENTRY POINTS"): they check the arguments,
    gather optional arguments into a rest vector, place keyword arguments, and
    call the internal entry point.

    A family of C functions that differ only in a number ([xep_0] to [xep_9])
    is one definition with that number as its first parameter [k].  The
    arguments a function was actually called with are the list [ap]; a named
    parameter that was not passed is undefined behaviour. *)

From S2P Require Import Prelude Memory Tagging Entry Vectors Examples Calls.
From stdpp Require Import base tactics option list numbers gmap.
From Stdlib Require Import ZArith Lia Bool.

Local Open Scope Z_scope.

Section Xeps.
Context `{Linker} `{DylanCode}.

(** ** Required arguments only *)

(** [xep_0] to [xep_9]; [xep_0] has no arguments to type check. *)
Definition xep_k (k : nat) (fn n : Z) (ap : list Z) : M outcome :=
  BASIC_REQUIRED_CALL_CHECK fn k n ;;
  args ← take_args k ap;
  when (0 <? k) (TYPE_CHECK_ARGS_k fn args) ;;
  modify_teb (set_function fn) ;;
  modify_teb (set_next_methods DFALSE) ;;
  iep ← function_iep fn;
  mret (Jump iep args).

Definition xep (fn n : Z) (ap : list Z) : M outcome :=
  transfer_varargs ap n teb_arguments ;;
  nreq ← function_number_required fn;
  REQUIRED_CALL_CHECK fn nreq n teb_arguments ;;
  iep ← function_iep fn;
  iep_apply iep n teb_arguments.

(** ** Rest arguments *)

(** [rest_xep_0] to [rest_xep_9] *)
Definition rest_xep_k (k : nat) (fn n : Z) (ap : list Z) : M outcome :=
  args ← take_args k ap;
  transfer_varargs (drop k ap) (n - k) teb_arguments ;;
  BASIC_OPTIONAL_CALL_CHECK fn k n ;;
  when (0 <? k) (TYPE_CHECK_ARGS_k fn args) ;;
  modify_teb (set_function fn) ;;
  modify_teb (set_next_methods DFALSE) ;;
  iep ← function_iep fn;
  rest ← make_vector_from_buffer (n - k) teb_arguments;
  mret (Jump iep (args ++ [rest])).

Definition rest_xep (fn n : Z) (ap : list Z) : M outcome :=
  number_required ← function_number_required fn;
  transfer_varargs ap n teb_arguments ;;
  OPTIONAL_CALL_CHECK fn number_required n teb_arguments ;;
  COPY_WORDS teb_new_arguments teb_arguments number_required ;;
  rest_arguments ← DEF_STACK_VECTOR_FROM_BUFFER (n - number_required)
                     (idx teb_arguments number_required);
  store (idx teb_new_arguments number_required) rest_arguments ;;
  modify_teb (set_function fn) ;;
  modify_teb (set_next_methods DFALSE) ;;
  iep ← function_iep fn;
  iep_apply iep (number_required + 1) teb_new_arguments.

(** ** Accessor methods *)

(** The number of arguments of each kind of accessor. *)
Definition slotacc_nargs (a : slotacc) : nat :=
  match a with
  | single_q_instance_getter | single_q_class_getter => 1
  | single_q_instance_setter | single_q_class_setter => 2
  | repeated_instance_getter => 2
  | repeated_instance_setter => 3
  end.

(** [slotacc_single_q_instance_getter_xep] and its siblings: the accessor method
    comes first, then the arguments of the call. *)
Definition slotacc_xep (a : slotacc) (am n : Z) (ap : list Z) : M outcome :=
  BASIC_REQUIRED_CALL_CHECK am (slotacc_nargs a) n ;;
  args ← take_args (slotacc_nargs a) ap;
  mret (Jump (slotacc_iep a) (am :: args)).

Definition primitive_set_accessor_method_xep (accmeth what : Z) : M Z :=
  let set (a : slotacc) := store (idx accmeth 1) (addr_of (E_slotacc_xep a)) in
  match R what with
  | 0 => set single_q_instance_getter
  | 1 => set single_q_instance_setter
  | 2 => set single_q_class_getter
  | 3 => set single_q_class_setter
  | 4 => set repeated_instance_getter
  | 5 => set repeated_instance_setter
  | _ => mret ()
  end ;;
  mret accmeth.

(** ** Keyword arguments *)

(** The second loop of [default_arguments]: the default of each keyword. *)
Fixpoint default_keywords (new_arguments keyword_specifiers : Z) (n : nat) : M () :=
  match n with
  | O => mret ()
  | S n =>
    v ← load (idx keyword_specifiers 1); store new_arguments v ;;
    default_keywords (new_arguments + 8) (keyword_specifiers + 16) n
  end.

Definition default_arguments (number_required arguments number_keywords keyword_specifiers
    keyword_arguments_offset new_arguments : Z) : M () :=
  copy_loop new_arguments arguments (Z.to_nat number_required) ;;
  default_keywords (idx new_arguments keyword_arguments_offset) keyword_specifiers
    (Z.to_nat number_keywords).

(** The inner loop of [process_keyword_parameters]: the first specifier equal
    to [keyword] decides the slot; [slot] is [&new_arguments[k]]. *)
Fixpoint place_keyword (keyword value keyword_specifiers slot : Z) (n : nat) : M () :=
  match n with
  | O => mret ()
  | S n =>
    lambda_keyword ← load keyword_specifiers;
    if keyword =? lambda_keyword then store slot value
    else place_keyword keyword value (keyword_specifiers + 16) (slot + 8) n
  end.

(** The outer loop, from the last keyword/value pair to the first; [i] is the
    index of the pair's value, and the loop runs at most [pairs] times. *)
Fixpoint place_keywords (keyword_specifiers : Z) (number_keywords : nat)
    (optional_arguments slots i : Z) (pairs : nat) : M () :=
  match pairs with
  | O => mret ()
  | S pairs =>
    if i <? 0 then mret ()
    else
      value ← load (idx optional_arguments i);
      keyword ← load (idx optional_arguments (i - 1));
      place_keyword keyword value keyword_specifiers slots number_keywords ;;
      place_keywords keyword_specifiers number_keywords optional_arguments slots (i - 2) pairs
  end.

Definition process_keyword_parameters (number_required number_keywords keyword_specifiers
    number_optionals optional_arguments new_arguments : Z) : M () :=
  place_keywords keyword_specifiers (Z.to_nat number_keywords) optional_arguments
    (idx new_arguments (number_required + 1)) (number_optionals - 1)
    (Z.to_nat number_optionals).

(** [fn] is the parameter the code calls [function]. *)
Definition process_keyword_call_into (new_arguments fn number_required required_arguments
    optionals_count optional_arguments rest_arguments : Z) : M Z :=
  keyword_specifier_vector ← method_keyword_specifiers fn;
  size ← vector_size keyword_specifier_vector;
  let number_keywords := Z.quot size 2 in
  let keyword_specifiers := vector_data keyword_specifier_vector in
  default_arguments number_required required_arguments number_keywords keyword_specifiers
    (number_required + 1) new_arguments ;;
  process_keyword_parameters number_required number_keywords keyword_specifiers
    optionals_count optional_arguments new_arguments ;;
  store (idx new_arguments number_required) rest_arguments ;;
  mret (number_required + number_keywords + 1).

Definition process_keyword_call_and_restify_into
    (new_arguments fn argument_count arguments rest_arguments : Z) : M Z :=
  number_required ← function_number_required fn;
  let optionals_count := argument_count - number_required in
  KEYWORD_CALL_CHECK fn number_required argument_count arguments ;;
  initialize_vector_from_buffer_with_size rest_arguments optionals_count
    (idx arguments number_required) optionals_count ;;
  process_keyword_call_into new_arguments fn number_required arguments optionals_count
    (idx arguments number_required) rest_arguments.

Definition process_keyword_call (fn argument_count arguments rest_arguments : Z) : M Z :=
  process_keyword_call_and_restify_into teb_new_arguments fn argument_count arguments
    rest_arguments ;;
  mret teb_new_arguments.

(** The second result is [*new_argument_count]. *)
Definition process_keyword_call_and_n (fn argument_count arguments rest_arguments : Z)
  : M (Z * Z) :=
  new_argument_count ← process_keyword_call_and_restify_into teb_new_arguments fn
                         argument_count arguments rest_arguments;
  mret (teb_new_arguments, new_argument_count).

(** ** Rest and keyword arguments

    [rest_key_xep_k]: [k], from 1 to 9, is the number of parameters of the iep. *)

Definition rest_key_xep_k (k : nat) (fn n : Z) (ap : list Z) : M outcome :=
  number_required ← function_number_required fn;
  let optionals_count := n - number_required in
  transfer_varargs ap n teb_arguments ;;
  KEYWORD_CALL_CHECK fn number_required n teb_arguments ;;
  rest_arguments ← DEF_STACK_VECTOR_FROM_BUFFER optionals_count
                     (idx teb_arguments number_required);
  a ← process_keyword_call fn n teb_arguments rest_arguments;
  modify_teb (set_function fn) ;;
  modify_teb (set_next_methods DFALSE) ;;
  iep ← keyword_function_iep fn;
  args ← read_words a k;
  mret (Jump iep args).

Definition rest_key_xep (fn n : Z) (ap : list Z) : M outcome :=
  number_required ← function_number_required fn;
  let optionals_count := n - number_required in
  transfer_varargs ap n teb_arguments ;;
  KEYWORD_CALL_CHECK fn number_required n teb_arguments ;;
  rest_arguments ← DEF_STACK_VECTOR_FROM_BUFFER optionals_count
                     (idx teb_arguments number_required);
  '(a, new_n) ← process_keyword_call_and_n fn n teb_arguments rest_arguments;
  modify_teb (set_function fn) ;;
  modify_teb (set_next_methods DFALSE) ;;
  iep ← keyword_function_iep fn;
  iep_apply iep new_n a.

(** ** Method entry points

    A mep is called by dispatch, with the optional arguments already gathered;
    the method is [teb->function] and the number of arguments
    [teb->argument_count]. *)

(** The part the meps share: spill the arguments to [teb->a], find the rest
    vector, and build the iep's arguments at [new_arguments]. *)
Definition key_mep_arguments (new_arguments : Z) (ap : list Z) : M (Z * Z) :=
  t ← get_teb;
  let fn := function t in
  number_required ← function_number_required fn;
  a1 ← take_args 1 ap;
  write_words teb_a a1 ;;
  transfer_varargs (drop 1 ap) (argument_count t - 1) (idx teb_a 1) ;;
  rest ← load (idx teb_a number_required);
  optionals_count ← vector_size rest;
  new_argument_count ← process_keyword_call_into new_arguments fn number_required teb_a
                         optionals_count (vector_data rest) rest;
  mret (fn, new_argument_count).

(** [key_mep_1] to [key_mep_9] *)
Definition key_mep_k (k : nat) (ap : list Z) : M outcome :=
  '(fn, _) ← key_mep_arguments teb_iep_a ap;
  iep ← keyword_function_iep fn;
  args ← read_words teb_iep_a k;
  mret (Jump iep args).

Definition key_mep (ap : list Z) : M outcome :=
  '(fn, new_argument_count) ← key_mep_arguments teb_new_arguments ap;
  iep ← keyword_function_iep fn;
  iep_apply iep new_argument_count teb_new_arguments.


(** ** Keyword arguments, as functions on lists

    Keyword specifiers and supplied arguments are lists of pairs; in memory
    they are flat. *)
Fixpoint flat (ps : list (Z * Z)) : list Z :=
  match ps with [] => [] | (k, v) :: ps => k :: v :: flat ps end.

Fixpoint place (specs : list (Z * Z)) (keyword value : Z) (slots : list Z) : list Z :=
  match specs, slots with
  | (k, _) :: specs, x :: slots =>
      if keyword =? k then value :: slots else x :: place specs keyword value slots
  | _, _ => slots
  end.

Definition place_all (specs opts : list (Z * Z)) (slots : list Z) : list Z :=
  foldr (λ p slots, place specs p.1 p.2 slots) slots opts.

(** The value a keyword parameter gets: that of the leftmost occurrence of its
    keyword, or its default. *)
Fixpoint supplied (keyword : Z) (opts : list (Z * Z)) : option Z :=
  match opts with
  | [] => None
  | (k, v) :: opts => if k =? keyword then Some v else supplied keyword opts
  end.

Definition keyword_value (opts : list (Z * Z)) (spec : Z * Z) : Z :=
  default spec.2 (supplied spec.1 opts).

Lemma length_flat ps : length (flat ps) = (2 * length ps)%nat.
Proof. induction ps as [|[k v] ps IH]; simpl; [done|]. rewrite IH. lia. Qed.

Lemma flat_app ps qs : flat (ps ++ qs) = flat ps ++ flat qs.
Proof. induction ps as [|[k v] ps IH]; simpl; [done|]. by rewrite IH. Qed.

Lemma length_place specs kw v slots : length (place specs kw v slots) = length slots.
Proof.
  revert slots. induction specs as [|[k d] specs IH]; intros [|x slots]; simpl; try done.
  destruct (kw =? k); simpl; [done|]. by rewrite IH.
Qed.

Lemma length_place_all specs opts slots : length (place_all specs opts slots) = length slots.
Proof.
  induction opts as [|p opts IH]; simpl; [done|]. by rewrite length_place.
Qed.

Lemma place_all_app specs o1 o2 slots :
  place_all specs (o1 ++ o2) slots = place_all specs o1 (place_all specs o2 slots).
Proof. unfold place_all. apply foldr_app. Qed.

(** Placing a value changes the slot of the keyword and no other. *)
Lemma place_map specs kw v (f : Z * Z → Z) :
  NoDup specs.*1 →
  place specs kw v (f <$> specs) = (λ sp, if sp.1 =? kw then v else f sp) <$> specs.
Proof.
  induction specs as [|[k d] specs IH]; simpl; [done|]. intros Hnd.
  apply NoDup_cons in Hnd as [Hk Hnd]. rewrite (Z.eqb_sym k kw).
  destruct (Z.eqb_spec kw k) as [->|Hne].
  - f_equal. apply list_fmap_ext. intros i sp Hsp.
    destruct (Z.eqb_spec sp.1 k) as [E|]; [|done]. exfalso. apply Hk. rewrite <- E.
    apply list_elem_of_fmap. exists sp. split; [done|]. by eapply list_elem_of_lookup_2.
  - f_equal. by apply IH.
Qed.

Lemma place_all_values specs opts :
  NoDup specs.*1 → place_all specs opts specs.*2 = keyword_value opts <$> specs.
Proof.
  intros Hnd. induction opts as [|[k v] opts IH]; [done|].
  simpl. rewrite IH, place_map by done. apply list_fmap_ext. intros i sp _.
  unfold keyword_value. simpl. rewrite (Z.eqb_sym k). by destruct (sp.1 =? k).
Qed.

(** ** The keyword routines *)

Lemma default_keywords_ok s slot ks specs :
  arr (mem s) ks (flat specs) → mapped (mem s) slot (length specs) →
  apart slot (length specs) ks (2 * length specs) →
  default_keywords slot ks (length specs) s = Ok () (with_mem (mset (mem s) slot specs.*2) s).
Proof.
  unfold apart. revert s slot ks.
  induction specs as [|[k d] specs IH]; intros s slot ks Ha Hm Hd; simpl in *.
  - by rewrite with_mem_id.
  - apply arr_cons in Ha as [_ Ha]. apply arr_cons in Ha as [H1 H2].
    mstep (load_ok s (idx ks 1) d H1).
    assert (is_Some (mem s !! slot)) as Hs.
    { destruct (Hm 0) as [y Hy]; [lia|]. rewrite Z.mul_0_r, Z.add_0_r in Hy. eauto. }
    mstep (store_ok _ _ d Hs). rewrite IH; [done| | |lia].
    + apply (arr_mset_disjoint _ slot [d]).
      * apply apart_disjoint. unfold apart. rewrite length_flat. simpl. lia.
      * by replace (ks + 16) with (ks + 8 + 8) by lia.
    + apply (mapped_mset _ slot [d]).
      apply (mapped_sub _ _ _ 1) with (k := length specs) in Hm; [|lia|lia].
      by rewrite Z.mul_1_r in Hm.
Qed.

Lemma place_keyword_ok s m kw v ks slot specs slots :
  arr (mset m slot slots) ks (flat specs) → length slots = length specs →
  place_keyword kw v ks slot (length specs) (with_mem (mset m slot slots) s)
  = Ok () (with_mem (mset m slot (place specs kw v slots)) s).
Proof.
  revert m ks slot slots.
  induction specs as [|[k d] specs IH]; intros m ks slot [|x slots] Ha Hl; simplify_eq/=; [done|].
  apply arr_cons in Ha as [H1 Ha]. apply arr_cons in Ha as [_ H2].
  mstep (load_ok (with_mem (mset (<[slot:=x]> m) (slot + 8) slots) s) ks k H1).
  destruct (Z.eqb_spec kw k) as [_|_].
  - rewrite store_ok.
    + simpl. f_equal. rewrite with_mem_with_mem. f_equal.
      pose proof (insert_mset m slot (x :: slots) 0 v ltac:(simpl; lia)) as E.
      rewrite Z.mul_0_r, Z.add_0_r in E. exact E.
    + exists x. simpl. rewrite lookup_mset_out; [apply lookup_insert_eq|]. intros. lia.
  - apply IH; [|done]. by replace (ks + 16) with (ks + 8 + 8) by lia.
Qed.

Lemma place_keywords_ok s m ks slot specs oa opts slots pairs :
  arr m ks (flat specs) → arr m oa (flat opts) → length slots = length specs →
  apart slot (length specs) ks (2 * length specs) →
  apart slot (length specs) oa (2 * length opts) → (length opts ≤ pairs)%nat →
  place_keywords ks (length specs) oa slot (2 * length opts - 1) pairs
    (with_mem (mset m slot slots) s)
  = Ok () (with_mem (mset m slot (place_all specs opts slots)) s).
Proof.
  intros Hk. revert slots pairs.
  induction opts as [|[kw v] opts IH] using rev_ind; intros slots pairs Ho Hl Dk Do Hp.
  - destruct pairs; done.
  - rewrite flat_app in Ho. pose proof Ho as Ho'. apply arr_app in Ho' as [Ho1 Ho2].
    rewrite length_app in *. simpl in *. destruct pairs as [|pairs]; [lia|].
    cbn [place_keywords]. rewrite (proj2 (Z.ltb_ge _ _)) by lia.
    apply arr_cons in Ho2 as [Hkw Ho2]. apply arr_cons in Ho2 as [Hv _].
    rewrite length_flat in Hkw, Hv.
    assert (∀ b k, apart slot (length specs) b k → 
              ∀ i, 0 <= i < k → mset m slot slots !! (b + 8 * i) = m !! (b + 8 * i)) as X.
    { intros b k A i Hi. apply (lookup_mset_disjoint _ _ _ _ k); [|done].
      rewrite Hl. by apply apart_disjoint. }
    set (s1 := with_mem (mset m slot slots) s).
    assert (mem s1 !! idx oa (2 * (length opts + 1)%nat - 1) = Some v) as L1.
    { unfold idx. simpl. rewrite (X oa _ Do) by lia. rewrite <- Hv. f_equal. lia. }
    assert (mem s1 !! idx oa (2 * (length opts + 1)%nat - 1 - 1) = Some kw) as L2.
    { unfold idx. simpl. rewrite (X oa _ Do) by lia. rewrite <- Hkw. f_equal. lia. }
    mstep (load_ok _ _ _ L1). mstep (load_ok _ _ _ L2).
    assert (arr (mset m slot slots) ks (flat specs)) as Hk'.
    { apply arr_mset_disjoint; [|done]. rewrite Hl, length_flat. apply apart_disjoint.
      unfold apart in *. lia. }
    mstep (place_keyword_ok s m kw v ks slot specs slots Hk' Hl).
    replace (2 * (length opts + 1)%nat - 1 - 2) with (2 * length opts - 1) by lia.
    rewrite IH; [|done|by rewrite length_place|done|unfold apart in *; lia|lia].
    by rewrite place_all_app.
Qed.

Lemma process_keyword_call_into_ok s na fn kv specs ra req oa opts rest :
  mem s !! idx fn 5 = Some kv → is_vec (mem s) kv (flat specs) →
  arr (mem s) ra req → arr (mem s) oa (flat opts) →
  let n := length req + 1 + length specs in
  mapped (mem s) na n → apart na n ra (length req) →
  apart na n (vector_data kv) (2 * length specs) → apart na n oa (2 * length opts) →
  process_keyword_call_into na fn (length req) ra (2 * length opts) oa rest s
  = Ok (length req + length specs + 1)
       (with_mem (mset (mem s) na (req ++ [rest] ++ place_all specs opts specs.*2)) s).
Proof.
  intros Hfn Hkv Ha Ho n Hm Dr Dk Do. unfold apart in *. subst n.
  pose proof (vec_arr _ _ _ Hkv) as Hks.
  unfold process_keyword_call_into, method_keyword_specifiers.
  mstep (load_ok _ _ _ Hfn). mstep (vector_size_ok _ _ _ Hkv).
  rewrite length_flat. replace (Z.quot (2 * length specs)%nat 2) with (Z.of_nat (length specs))
    by (rewrite Nat2Z.inj_mul, Z.mul_comm, Z.quot_mul by lia; done).
  set (slot := idx na (length req + 1)). set (m1 := mset (mem s) na req).
  assert (default_arguments (length req) ra (length specs) (vector_data kv) (length req + 1) na s
          = Ok () (with_mem (mset m1 slot specs.*2) s)) as E1.
  { unfold default_arguments. rewrite !Nat2Z.id.
    rewrite (bind_ok _ _ s () (with_mem m1 s)).
    - rewrite default_keywords_ok; [done| | |].
      + apply arr_mset_disjoint; [|done]. rewrite length_flat. apply apart_disjoint.
        unfold apart. lia.
      + apply mapped_mset. eapply mapped_sub; [exact Hm|lia|lia].
      + unfold apart, idx. lia.
    - apply copy_loop_ok; [done|eapply mapped_le; [exact Hm|lia]|unfold apart; lia]. }
  mstep E1.
  assert (process_keyword_parameters (length req) (length specs) (vector_data kv)
            (2 * length opts) oa na (with_mem (mset m1 slot specs.*2) s)
          = Ok () (with_mem (mset m1 slot (place_all specs opts specs.*2)) s)) as E2.
  { unfold process_keyword_parameters. rewrite Nat2Z.id. apply place_keywords_ok.
    - apply arr_mset_disjoint; [|done]. rewrite length_flat. apply apart_disjoint.
      unfold apart. lia.
    - apply arr_mset_disjoint; [|done]. rewrite length_flat. apply apart_disjoint.
      unfold apart. lia.
    - by rewrite length_fmap.
    - unfold apart, slot, idx. lia.
    - unfold apart, slot, idx. lia.
    - lia. }
  mstep E2. set (vs := place_all specs opts specs.*2).
  set (s2 := with_mem (mset m1 slot vs) s).
  assert (is_Some (mem s2 !! idx na (length req))) as Hr.
  { simpl. apply lookup_mset_is_Some. apply lookup_mset_is_Some. apply Hm. lia. }
  mstep (store_ok _ _ rest Hr). unfold mret, M_ret, s2. simpl mem. rewrite with_mem_with_mem.
  f_equal. f_equal. rewrite insert_mset_out by (unfold slot, idx; lia).
  unfold m1, slot, idx. rewrite mset_app. simpl. f_equal. lia.
Qed.

(** ** The checks of keyword calls *)

(** The arguments as [BUFFER_VARARGS] leaves them. *)
Definition buffered (args : list Z) (s : state) : state :=
  with_mem (mset (mem s) teb_arguments args) s.

Lemma buffer_ok s args :
  wf s → length args <= MAX_ARGUMENTS →
  transfer_varargs args (length args) teb_arguments s = Ok () (buffered args s) ∧
  wf (buffered args s) ∧ heap (mem s) ⊆ heap (mem (buffered args s)).
Proof.
  intros W Hl.
  assert (mapped (mem s) teb_arguments (length args)) as Hm.
  { apply wf_buffer_mapped; [done|by buffer|teb_lia]. }
  split_and!; [by apply transfer_varargs_ok| |].
  - apply wf_mset; [done|done|]. unfold Pempty_vectorVKi. teb_lia.
  - apply heap_mset; teb_lia.
Qed.

Lemma KEYWORD_CALL_CHECK_ok s fn sig p specs spl a req opts :
  is_function (mem s) fn sig p specs → specializers (mem s) specs spl →
  (specs ≠ NULL → length spl = Z.to_nat (sig_number_required p)) →
  arr (mem s) a (req ++ opts) → Z.of_nat (length req) = sig_number_required p →
  length (req ++ opts) <= MAX_ARGUMENTS → Z.odd (length opts) = false →
  first_failure (mem s) spl req = None →
  KEYWORD_CALL_CHECK fn (sig_number_required p) (length (req ++ opts)) a s = Ok () s.
Proof.
  intros F S Hspl Ha Hr Hl Hodd Hf. unfold KEYWORD_CALL_CHECK. rewrite length_app in *.
  assert (OPTIONAL_CALL_CHECK fn (sig_number_required p) (length (req ++ opts)) a s = Ok () s)
    as E.
  { rewrite (optional_call_check s fn sig p specs spl a _ F S Hspl Ha), length_app.
    rewrite decide_False by lia. rewrite decide_False by lia.
    rewrite <- Hr, Nat2Z.id, take_app_length. unfold type_check_result. by rewrite Hf. }
  rewrite length_app in E. mstep E.
  replace ((length req + length opts)%nat - sig_number_required p) with (Z.of_nat (length opts))
    by lia. by rewrite Hodd.
Qed.

(** What a function taking keywords needs from memory: its signature,
    specializers and keyword specifiers. *)
Record is_keyword_method (m : gmap Z Z) (fn sig p specs : Z) (spl : list Z) (iep kv : Z)
    (kspecs : list (Z * Z)) : Prop := {
  km_function : is_function m fn sig p specs;
  km_specializers : specializers m specs spl;
  km_length : specs ≠ NULL → length spl = Z.to_nat (sig_number_required p);
  km_iep : m !! idx fn 4 = Some iep;
  km_keywords : m !! idx fn 5 = Some kv;
  km_vec : is_vec m kv (flat kspecs);
  km_nodup : NoDup kspecs.*1
}.

Lemma is_keyword_method_sub m m' fn sig p specs spl iep kv kspecs :
  m ⊆ m' → is_keyword_method m fn sig p specs spl iep kv kspecs →
  is_keyword_method m' fn sig p specs spl iep kv kspecs.
Proof.
  intros S [F Sp L I K V N]. constructor; try done.
  - by eapply is_function_sub.
  - by eapply specializers_sub.
  - by eapply lookup_sub.
  - by eapply lookup_sub.
  - by eapply vec_sub.
Qed.

(** ** Properties *)

(** The state in which [process_keyword_call] returns: the arguments of the iep
    in [teb->new_arguments]. *)
Lemma process_keyword_call_ok s0 s fn sig p specs spl iep kv kspecs a req opts rest :
  wf s0 → wf s →
  is_keyword_method (heap (mem s)) fn sig p specs spl iep kv kspecs →
  Z.of_nat (length req) = sig_number_required p →
  length (req ++ flat opts) <= MAX_ARGUMENTS →
  length req + 1 + length kspecs <= MAX_ARGUMENTS →
  arr (mem s0) a (req ++ flat opts) → fresh_vec s0 s rest (flat opts) →
  apart teb_new_arguments MAX_ARGUMENTS a (length (req ++ flat opts)) →
  first_failure (mem s) spl req = None →
  process_keyword_call fn (length (req ++ flat opts)) a rest s
  = Ok teb_new_arguments
       (with_mem (mset (mem s) teb_new_arguments
                    (req ++ [rest] ++ (keyword_value opts <$> kspecs))) s).
Proof.
  intros W0 W K Hr Hl Hk Ha F Dn Hf.
  assert (is_keyword_method (mem s) fn sig p specs spl iep kv kspecs) as K'.
  { eapply is_keyword_method_sub; [apply heap_sub|done]. }
  pose proof (fresh_vec_arr _ _ _ _ _ _ W0 F Ha) as Ha'.
  pose proof Ha' as Ha2. apply arr_app in Ha2 as [Hreq Hopts].
  assert (arr (mem s0) (idx a (length req)) (flat opts)) as Hopts0.
  { apply arr_app in Ha as [_ Ha]. exact Ha. }
  unfold process_keyword_call, process_keyword_call_and_restify_into.
  destruct K' as [F1 S1 L1 I1 K1 V1 N1].
  mstep (function_number_required_ok _ _ _ _ _ F1).
  assert (length (req ++ flat opts) - sig_number_required p = Z.of_nat (length (flat opts))) as Eo.
  { rewrite length_app. lia. }
  assert (KEYWORD_CALL_CHECK fn (sig_number_required p) (length (req ++ flat opts)) a s = Ok () s)
    as E1.
  { apply (KEYWORD_CALL_CHECK_ok s fn sig p specs spl); try done.
    rewrite length_flat, Nat2Z.inj_mul. apply Z.odd_mul. }
  mstep E1. rewrite Eo, <- Hr.
  mstep (initialize_fresh_vec_again _ _ _ _ _ W0 F Hopts0).
  replace (Z.of_nat (length (flat opts))) with (2 * length opts) by (rewrite length_flat; lia).
  rewrite length_app, length_flat in *. unfold apart in Dn.
  assert (heap_ks : apart teb_new_arguments (length req + 1 + length kspecs) (vector_data kv)
                      (2 * length kspecs)).
  { destruct (km_vec _ _ _ _ _ _ _ _ _ K) as (_ & Hks & _).
    pose proof (heap_arr_apart _ teb_new_arguments (length req + 1 + length kspecs) _ _ Hks) as A.
    rewrite length_flat in A. unfold apart in *. teb_lia. }
  erewrite bind_ok; [|apply (process_keyword_call_into_ok s teb_new_arguments fn kv kspecs
                               a req _ opts rest); try done].
  - rewrite place_all_values by done. reflexivity.
  - apply wf_buffer_mapped; [done|by buffer|teb_lia].
  - unfold apart. teb_lia.
  - unfold apart, idx. teb_lia.
Qed.

(** process_keyword_call_into writes the required arguments, the rest
    vector and one value per keyword of the method (the leftmost supplied
    value, or the default) into the new argument area, returns their number,
    and changes nothing else. *)
Theorem keyword_call_arguments s na fn kv kspecs ra req oa opts rest :
  mem s !! idx fn 5 = Some kv → is_vec (mem s) kv (flat kspecs) → NoDup kspecs.*1 →
  arr (mem s) ra req → arr (mem s) oa (flat opts) →
  let n := length req + 1 + length kspecs in
  mapped (mem s) na n → apart na n ra (length req) →
  apart na n (vector_data kv) (2 * length kspecs) → apart na n oa (2 * length opts) →
  process_keyword_call_into na fn (length req) ra (2 * length opts) oa rest s
  = Ok (length req + length kspecs + 1)
       (with_mem (mset (mem s) na (req ++ [rest] ++ (keyword_value opts <$> kspecs))) s).
Proof.
  intros Hfn Hkv Hnd Ha Ho n Hm Dr Dk Do.
  rewrite (process_keyword_call_into_ok s na fn kv kspecs ra req oa opts rest) by done.
  by rewrite place_all_values.
Qed.

(** C21: The external entry point of a method of k required arguments signals
    argument-count-overflow above 256 arguments, argument-count for any
    other number but k, a type error for the leftmost argument that is not
    an instance of its specializer, and otherwise calls the method with its
    arguments, no next methods, and itself in teb->function. *)
Theorem xep_k_checks_and_calls k fn sig p specs spl iep args s :
  is_function (mem s) fn sig p specs → specializers (mem s) specs spl →
  (specs ≠ NULL → length spl = k) → mem s !! idx fn 3 = Some iep →
  xep_k k fn (length args) args s
  = if decide (MAX_ARGUMENTS < length args)
    then Trap (Argument_count_overflow_error fn (I (length args))) s
    else if decide (length args ≠ k) then Trap (Argument_count_error fn (I (length args))) s
    else match first_failure (mem s) spl args with
         | Some (a, sp) => Trap (Type_check_error a sp) s
         | None => Ok (Jump iep args) (calling fn s)
         end.
Proof.
  intros F S Hl Hi. unfold xep_k, BASIC_REQUIRED_CALL_CHECK.
  destruct (decide (MAX_ARGUMENTS < length args)) as [Ho|Ho].
  { mnorm. apply bind_trap. by apply CALL_CHECK_overflow. }
  mstep (CALL_CHECK_ok s fn (length args) ltac:(lia)).
  destruct (decide (length args ≠ k)) as [Hc|Hc].
  { by rewrite (proj2 (Z.eqb_neq _ _)) by lia. }
  assert (length args = k) as <- by lia. rewrite Z.eqb_refl.
  mnorm. mstep (take_args_ok (length args) args s (le_n _)). rewrite take_ge by lia.
  assert (when (0 <? length args) (TYPE_CHECK_ARGS_k fn args) s = type_check_result s spl args)
    as E.
  { destruct args as [|a args].
    - unfold type_check_result. by destruct spl as [|? ?].
    - by eapply TYPE_CHECK_ARGS_k_ok. }
  unfold type_check_result in E. destruct (first_failure (mem s) spl args) as [[a sp]|].
  - by apply bind_trap.
  - mstep E. mstep (modify_teb_ok (set_function fn) s).
    set (s1 := with_teb _ s). mstep (modify_teb_ok (set_next_methods DFALSE) s1).
    set (s2 := with_teb _ s1). unfold function_iep. by mstep (load_ok s2 _ _ Hi).
Qed.

(** C22: The external entry point of a method with k required arguments and a
    rest parameter, called with correct arguments and some optional ones,
    enters the method with the required arguments and a fresh vector of
    exactly the optional ones, and the heap keeps its contents. *)
Theorem rest_xep_k_calls k fn sig p specs spl iep req opts s :
  wf s → is_function (heap (mem s)) fn sig p specs → specializers (heap (mem s)) specs spl →
  (specs ≠ NULL → length spl = k) → heap (mem s) !! idx fn 3 = Some iep →
  length req = k → length (req ++ opts) <= MAX_ARGUMENTS → opts ≠ [] →
  first_failure (mem (buffered opts s)) spl req = None →
  ∃ rest s', rest_xep_k k fn (length (req ++ opts)) (req ++ opts) s
             = Ok (Jump iep (req ++ [rest])) s' ∧
    is_vec (mem s') rest opts ∧ heap (mem s) ⊆ heap (mem s') ∧
    function (teb s') = fn ∧ next_methods (teb s') = DFALSE.
Proof.
  intros W F S Hl Hi Hr Hlen Hne Hf. rewrite length_app in Hlen.
  destruct (buffer_ok s opts W ltac:(lia)) as (E1 & W1 & X1).
  set (s1 := buffered opts s) in *.
  set (s2 := calling fn s1).
  assert (wf s2) as W2 by (destruct W1; by constructor).
  assert (arr (mem s2) teb_arguments opts) as Ha by apply arr_mset.
  assert (0 < length opts) by (destruct opts; [done|simpl; lia]).
  destruct (make_vector_from_buffer_ok s2 _ opts W2 Ha ltac:(teb_lia)) as (s3 & E3 & F3).
  assert (heap (mem s) ⊆ mem s1) as X1' by (etrans; [apply X1|apply heap_sub]).
  exists (brk s2), s3. split_and!.
  - unfold rest_xep_k. mstep (take_args_ok k (req ++ opts) s ltac:(rewrite length_app; lia)).
    rewrite <- Hr, take_app_length, drop_app_length, length_app.
    replace ((length req + length opts)%nat - length req) with (Z.of_nat (length opts)) by lia.
    mstep E1. mstep (BASIC_OPTIONAL_CALL_CHECK_ok s1 fn (length req) (length req + length opts)%nat
                      ltac:(lia)).
    assert (when (0 <? length req) (TYPE_CHECK_ARGS_k fn req) s1 = Ok () s1) as E2.
    { destruct req as [|a req]; [done|]. unfold when.
      rewrite (proj2 (Z.ltb_lt _ _)) by (simpl; lia).
      rewrite (TYPE_CHECK_ARGS_k_ok s1 fn sig p specs spl (a :: req)).
      - unfold type_check_result. by rewrite Hf.
      - by eapply is_function_sub.
      - by eapply specializers_sub.
      - intros. by rewrite Hr, Hl. }
    mstep E2. mstep (modify_teb_ok (set_function fn) s1).
    mstep (modify_teb_ok (set_next_methods DFALSE) (with_teb (set_function fn) s1)).
    fold (calling fn s1). fold s2. unfold function_iep.
    mstep (load_ok s2 (idx fn 3) iep (lookup_sub _ _ _ _ X1' Hi)). by mstep E3.
  - apply F3.
  - etrans; [exact X1|]. apply (heap_extends s2); [done|apply F3].
  - by rewrite (fv_teb _ _ _ _ F3).
  - by rewrite (fv_teb _ _ _ _ F3).
Qed.

(** C20: The external entry point of a keyword method checks the call and enters
    the method with its required arguments, a fresh rest vector of all the
    optional arguments, and for every keyword of the method the leftmost
    value supplied for it or else its default. *)
Theorem rest_key_xep_k_calls fn sig p specs spl iep kv kspecs req opts s :
  wf s → is_keyword_method (heap (mem s)) fn sig p specs spl iep kv kspecs →
  Z.of_nat (length req) = sig_number_required p →
  length (req ++ flat opts) <= MAX_ARGUMENTS →
  length req + 1 + length kspecs <= MAX_ARGUMENTS →
  (∀ m, heap (mem s) ⊆ heap m → first_failure m spl req = None) →
  let args := req ++ flat opts in
  ∃ rest s', rest_key_xep_k (length req + 1 + length kspecs) fn (length args) args s
             = Ok (Jump iep (req ++ [rest] ++ (keyword_value opts <$> kspecs))) s' ∧
    is_vec (mem s') rest (flat opts) ∧ heap (mem s) ⊆ heap (mem s') ∧
    function (teb s') = fn ∧ next_methods (teb s') = DFALSE.
Proof.
  intros W K Hr Hl Hk Hf args.
  destruct (buffer_ok s args W Hl) as (E1 & W1 & X1). set (s1 := buffered args s) in *.
  assert (arr (mem s1) teb_arguments args) as Ha by apply arr_mset.
  pose proof Ha as Ha2. apply arr_app in Ha2 as [_ Ho].
  destruct (DEF_STACK_VECTOR_FROM_BUFFER_ok s1 _ (flat opts) W1 Ho) as (s2 & E2 & F2).
  { unfold args in *. rewrite length_app in Hl. teb_lia. }
  assert (heap (mem s1) ⊆ heap (mem s2)) as X2 by (apply heap_extends; [done|apply F2]).
  assert (heap (mem s) ⊆ heap (mem s2)) as X by (by etrans).
  assert (is_keyword_method (mem s1) fn sig p specs spl iep kv kspecs) as K1.
  { eapply is_keyword_method_sub; [etrans; [apply X1|apply heap_sub]|done]. }
  assert (is_keyword_method (heap (mem s2)) fn sig p specs spl iep kv kspecs) as K2.
  { by eapply is_keyword_method_sub. }
  set (vals := req ++ [brk s1] ++ (keyword_value opts <$> kspecs)).
  set (s3 := with_mem (mset (mem s2) teb_new_arguments vals) s2).
  assert (length vals = length req + 1 + length kspecs)%nat as Hv.
  { unfold vals. rewrite !length_app, length_fmap. simpl. lia. }
  assert (heap (mem s2) ⊆ heap (mem s3)) as X3 by (apply heap_mset; teb_lia).
  exists (brk s1), (calling fn s3). split_and!.
  - unfold rest_key_xep_k.
    assert (is_function (mem s) fn sig p specs) as F.
    { eapply is_function_sub; [apply heap_sub|apply K]. }
    mstep (function_number_required_ok _ _ _ _ _ F). mstep E1.
    mstep (KEYWORD_CALL_CHECK_ok s1 fn sig p specs spl teb_arguments req (flat opts)
             (km_function _ _ _ _ _ _ _ _ _ K1) (km_specializers _ _ _ _ _ _ _ _ _ K1)
             (km_length _ _ _ _ _ _ _ _ _ K1) Ha Hr Hl
             ltac:(rewrite length_flat, Nat2Z.inj_mul; apply Z.odd_mul) (Hf _ X1)).
    rewrite <- Hr.
    replace (length args - length req) with (Z.of_nat (length (flat opts)))
      by (unfold args; rewrite length_app; lia).
    mstep E2.
    mstep (process_keyword_call_ok s1 s2 fn sig p specs spl iep kv kspecs teb_arguments req opts
             (brk s1) W1 (fv_wf _ _ _ _ F2) K2 Hr Hl Hk Ha F2
             ltac:(unfold apart; teb_lia) (Hf _ X)).
    fold vals. fold s3.
    mstep (modify_teb_ok (set_function fn) s3).
    mstep (modify_teb_ok (set_next_methods DFALSE) (with_teb (set_function fn) s3)).
    fold (calling fn s3). unfold keyword_function_iep.
    assert (mem (calling fn s3) !! idx fn 4 = Some iep) as Hi.
    { eapply lookup_sub; [|apply K2]. etrans; [apply X3|apply heap_sub]. }
    mstep (load_ok _ _ _ Hi). rewrite <- Hv.
    mstep (read_words_ok (calling fn s3) teb_new_arguments vals (arr_mset _ _ _)). done.
  - apply vec_mset_apart; [|apply F2]. pose proof (wf_brk s1 W1). unfold apart. teb_lia.
  - simpl. by etrans; [exact X|].
  - done.
  - done.
Qed.

(** C23: The external entry point of a keyword method, called with at most 256
    arguments of which the required ones pass their type checks, never calls
    the method when there are fewer than required or an odd number of
    optional ones: it signals argument-count-error, or else odd-keyword-
    arguments-error. With more than 256 arguments it goes past the end of
    teb->arguments, which is undefined behaviour, before it comes to its
    check. *)
Theorem rest_key_xep_k_rejects k fn sig p specs spl iep kv kspecs args s :
  wf s → is_keyword_method (heap (mem s)) fn sig p specs spl iep kv kspecs →
  let nreq := sig_number_required p in
  let s' := buffered args s in
  first_failure (mem s') spl (take (Z.to_nat nreq) args) = None →
  MAX_ARGUMENTS < length args ∨ length args < nreq ∨ Z.odd (length args - nreq) = true →
  rest_key_xep_k k fn (length args) args s
  = if decide (MAX_ARGUMENTS < length args) then Fault
    else Trap (if decide (length args < nreq) then Argument_count_error fn (I (length args))
               else Odd_keyword_arguments_error fn (I (length args))) s'.
Proof.
  intros W K nreq s' Hf Hbad.
  assert (is_function (mem s) fn sig p specs) as F.
  { eapply is_function_sub; [apply heap_sub|apply K]. }
  unfold rest_key_xep_k. mstep (function_number_required_ok _ _ _ _ _ F). fold nreq.
  destruct (decide (MAX_ARGUMENTS < length args)) as [Ho|Ho].
  { unfold mbind at 1, M_bind at 1.
    rewrite transfer_varargs_overrun; [done|done|by buffer|done]. }
  assert (mapped (mem s) teb_arguments (length args)) as Hm.
  { apply wf_buffer_mapped; [done|by buffer|lia]. }
  assert (heap (mem s) ⊆ mem s') as X.
  { etrans; [apply (heap_mset _ teb_arguments args); teb_lia|apply heap_sub]. }
  assert (is_keyword_method (mem s') fn sig p specs spl iep kv kspecs) as K1.
  { by eapply is_keyword_method_sub. }
  mstep (transfer_varargs_ok s args teb_arguments Hm). fold (buffered args s). fold s'.
  apply bind_trap. unfold KEYWORD_CALL_CHECK.
  pose proof (optional_call_check s' fn sig p specs spl teb_arguments args
    (km_function _ _ _ _ _ _ _ _ _ K1) (km_specializers _ _ _ _ _ _ _ _ _ K1)
    (km_length _ _ _ _ _ _ _ _ _ K1) (arr_mset _ _ _)) as E.
  fold nreq in E. unfold type_check_result in E.
  rewrite Hf, decide_False in E by done.
  destruct (decide (length args < nreq)) as [Hc|Hc]; [by apply bind_trap|].
  mstep E. destruct Hbad as [?|[?|Hodd]]; [lia|lia|]. by rewrite Hodd.
Qed.

End Xeps.

(** ** Witnesses *)

(** Compiled code for the examples: every instance check succeeds except that
    of the function at 6000, and a callback returns its first argument. *)
Definition example_code : DylanCode :=
  {| instancep_code := λ code _ _ _, if code =? 6000 then DFALSE else DTRUE;
     callback_code := λ _ args, match args with a :: _ => mret a | [] => fault end |}.

(** A method at 65536 with two required arguments of which the second has a
    specializer, a rest parameter and two keyword parameters, named 501 and 502
    with defaults 7 and 8; a simple method of the same specializers at 66304. *)
Definition xep_blocks : blocks :=
  [(65536, [0; 4096; 65664; 8192; 8200; 65792]);
   (65664, signature_words (sig_sum 2 0 true false true false) 65920);
   (65792, vec_words [501; 7; 502; 8]);
   (65920, vec_words [LobjectGVKd; 66048]);
   (66048, [0; 5000]);
   (66304, [0; 4096; 66432; 8300]);
   (66432, signature_words (sig_sum 2 0 false false true false) 66560);
   (66560, vec_words [LobjectGVKd; 66688]);
   (66688, [0; 6000])].

Lemma xep_example_method m :
  heap (mem (example_state xep_blocks)) ⊆ m →
  is_keyword_method m 65536 65664 (sig_sum 2 0 true false true false)
    65920 [LobjectGVKd; 66048] 8200 65792 [(501, 7); (502, 8)].
Proof.
  intros S. eapply is_keyword_method_sub; [exact S|]. constructor; try eval_call.
  done.
Qed.

Example keyword_call_arguments_witness :
  let s := example_state ((67072, [11; 12]) :: (67200, [502; 3; 502; 4; 503; 5]) :: xep_blocks) in
  process_keyword_call_into teb_iep_a 65536 2 67072 (2 * 3%nat) 67200 67192 s
  = Ok 5 (with_mem (mset (mem s) teb_iep_a [11; 12; 67192; 7; 3]) s).
Proof.
  apply (keyword_call_arguments
    (example_state ((67072, [11; 12]) :: (67200, [502; 3; 502; 4; 503; 5]) :: xep_blocks))
    teb_iep_a 65536 65792 [(501, 7); (502, 8)] 67072 [11; 12] 67200
    [(502, 3); (502, 4); (503, 5)] 67192); try eval_mem.
  - apply (mappedb_true _ _ 5). vm_compute. reflexivity.
  - unfold apart. right. right. left. vm_compute. congruence.
  - unfold apart. right. right. left. vm_compute. congruence.
  - unfold apart. right. right. left. vm_compute. congruence.
Defined.

Example xep_k_checks_and_calls_witness :
  xep_k (H0 := example_code) 2 66304 2 [5; 9] (example_state xep_blocks)
  = Trap (Type_check_error 9 66688) (example_state xep_blocks).
Proof.
  pose proof (xep_k_checks_and_calls (H0 := example_code) 2 66304 66432
    (sig_sum 2 0 false false true false) 66560 [LobjectGVKd; 66688] 8300 [5; 9]
    (example_state xep_blocks)) as T.
  rewrite decide_False in T by (vm_compute; congruence).
  rewrite decide_False in T by (simpl; lia).
  apply T.
  - eval_call.
  - eval_call.
  - done.
  - eval_call.
Defined.

Example rest_xep_k_calls_witness :
  let s := example_state xep_blocks in
  ∃ rest s', rest_xep_k (H0 := example_code) 2 65536 4 [5; 9; 501; 6] s
             = Ok (Jump 8192 [5; 9; rest]) s' ∧
    is_vec (mem s') rest [501; 6] ∧ heap (mem s) ⊆ heap (mem s') ∧
    function (teb s') = 65536 ∧ next_methods (teb s') = DFALSE.
Proof.
  apply (rest_xep_k_calls (H0 := example_code) 2 65536 65664 (sig_sum 2 0 true false true false)
    65920 [LobjectGVKd; 66048] 8192 [5; 9] [501; 6] (example_state xep_blocks)); try eval_call.
  all: done.
Defined.

Example rest_key_xep_k_calls_witness :
  let s := example_state xep_blocks in
  ∃ rest s', rest_key_xep_k (H0 := example_code) 5 65536 6 [5; 9; 502; 3; 502; 4] s
             = Ok (Jump 8200 [5; 9; rest; 7; 3]) s' ∧
    is_vec (mem s') rest [502; 3; 502; 4] ∧ heap (mem s) ⊆ heap (mem s') ∧
    function (teb s') = 65536 ∧ next_methods (teb s') = DFALSE.
Proof.
  apply (rest_key_xep_k_calls (H0 := example_code) 65536 65664
    (sig_sum 2 0 true false true false) 65920 [LobjectGVKd; 66048] 8200 65792
    [(501, 7); (502, 8)] [5; 9] [(502, 3); (502, 4)] (example_state xep_blocks));
    try eval_call.
  - by apply xep_example_method.
  - intros m S. pose proof (xep_example_method (heap m) S) as K.
    assert (heap m !! idx 66048 1 = Some 5000) as E.
    { eapply lookup_sub; [exact S|]. eval_mem. }
    apply lookup_heap in E as [E _]. simpl. unfold passes. by rewrite E.
Defined.

Example rest_key_xep_k_rejects_witness :
  let s := example_state xep_blocks in
  rest_key_xep_k (H0 := example_code) 5 65536 5 [5; 9; 502; 3; 502] s
  = Trap (Odd_keyword_arguments_error 65536 (I 5)) (buffered [5; 9; 502; 3; 502] s).
Proof.
  pose proof (rest_key_xep_k_rejects (H0 := example_code) 5 65536 65664
    (sig_sum 2 0 true false true false) 65920 [LobjectGVKd; 66048] 8200 65792
    [(501, 7); (502, 8)] [5; 9; 502; 3; 502] (example_state xep_blocks)) as T.
  cbv zeta in T. rewrite decide_False in T by (vm_compute; congruence).
  rewrite decide_False in T by (vm_compute; congruence).
  apply T; try eval_call.
  - by apply xep_example_method.
  - right. right. eval_mem.
Defined.
