(* ===== verification/Engines.v ===== *)
(** * Generic functions and engine nodes

    Dispatch of a generic function ([c-run-time.c], sections "NEW GF SUPPORT"
    to the end of [primitive_initialize_discriminator]).  A generic function
    enters the engine node in its [engine] slot; every node has an entry point
    that chooses another node, or a method, or calls back into Dylan.  The node
    being run is in [teb->function], and [teb->next_methods] holds its parent:
    the generic function or the innermost cache header.

    The arguments of an entry point are the list it was called with; up to seven
    implementation arguments (the required ones and the rest vector, if any)
    are passed spread, more are passed as one vector. *)

From S2P Require Import Prelude Memory Tagging Entry Vectors Calls Xeps.
From stdpp Require Import base tactics option list numbers gmap.
From Stdlib Require Import ZArith Lia Bool.

Local Open Scope Z_scope.

(** ** Layouts and properties words *)

(** Fields of [ENGINE] and of its variants. *)
Definition engine_properties (e : Z) : M Z := load (idx e 1).
Definition engine_callback (e : Z) : M Z := load (idx e 2).
Definition engine_entry_point (e : Z) : M Z := load (idx e 3).
Definition set_entry_point (e code : Z) : M () := store (idx e 3) code.
Definition generic_function_engine (gf : Z) : M Z := load (idx gf 6).

Definition ENGINE_absent : Z := 0.
Definition ENGINE_inapplicable : Z := 1.
Definition ENGINE_unkeyed_single_method : Z := 2.
Definition ENGINE_implicit_keyed_single_method : Z := 3.
Definition ENGINE_explicit_keyed_single_method : Z := 4.
Definition ENGINE_unrestricted_keyed_single_method : Z := 5.
Definition ENGINE_reserved_terminal_n_a : Z := 6.
Definition ENGINE_profiling_cache_header : Z := 13.
Definition ENGINE_cache_header : Z := 14.
Definition ENGINE_ambiguous_methods : Z := 15.
Definition ENGINE_boxed_instance_slot_getter : Z := 16.
Definition ENGINE_boxed_instance_slot_setter : Z := 17.
Definition ENGINE_boxed_repeated_instance_slot_getter : Z := 18.
Definition ENGINE_boxed_repeated_instance_slot_setter : Z := 19.
Definition ENGINE_boxed_class_slot_getter : Z := 20.
Definition ENGINE_boxed_class_slot_setter : Z := 21.
Definition ENGINE_raw_byte_repeated_instance_slot_getter : Z := 22.
Definition ENGINE_raw_byte_repeated_instance_slot_setter : Z := 23.
Definition ENGINE_typecheck : Z := 32.
Definition ENGINE_if_type : Z := 33.
Definition ENGINE_value_object_hashed_singleton : Z := 42.
Definition ENGINE_monomorphic : Z := 42.

Definition EPROPS_V_ENTRY_TYPE : Z := 2.
Definition EPROPS_M_ENTRY_TYPE : Z := 252.        (* 0xfc *)
Definition DPROPS_V_ARGNUM : Z := 8.
Definition DPROPS_M_ARGNUM : Z := 65280.          (* 0xFF00 *)
Definition DPROPS_V_NREQUIRED : Z := 16.
Definition DPROPS_M_NREQUIRED : Z := 16711680.    (* 0xFF0000 *)
Definition DPROPS_V_OPTIONALS : Z := 24.
Definition DPROPS_M_OPTIONALS : Z := 16777216.    (* 0x1000000 *)
Definition SLOTENGINE_V_INDEX : Z := 16.

(** [etype]: the entry type in a properties word. *)
Definition entry_type (props : Z) : Z :=
  Z.shiftr (Z.land props EPROPS_M_ENTRY_TYPE) EPROPS_V_ENTRY_TYPE.

(** [UNBOUND_P] *)
Definition UNBOUND_P (x : Z) : bool := x =? KPunboundVKi.

(** [(int)(((DADDR)(e->properties)) >> SLOTENGINE_V_INDEX)] *)
Definition slot_engine_index (props : Z) : Z := s32 (Z.shiftr (u64 props) SLOTENGINE_V_INDEX).

(** The slot macros of [run-time.h]: an object's slots follow its wrapper. *)
Definition slot_address (object position : Z) : Z := idx object (1 + position).
Definition primitive_initialized_slot_value (object position : Z) : M Z :=
  load (slot_address object position).
Definition primitive_slot_value_setter (new_value object position : Z) : M () :=
  store (slot_address object position) new_value.
Definition primitive_repeated_slot_value (object base_position position : Z) : M Z :=
  load (slot_address object (base_position + position)).
Definition primitive_repeated_slot_value_setter
    (new_value object base_position position : Z) : M () :=
  store (slot_address object (base_position + position)) new_value.
Definition primitive_repeated_instance_size (object base_position : Z) : M Z :=
  w ← load (slot_address object (base_position - 1)); mret (R w).
Definition primitive_byte_element (object position index : Z) : M Z :=
  load_byte (slot_address object position + index).
Definition primitive_byte_element_setter (new_value object position index : Z) : M () :=
  store_byte (slot_address object position + index) (Z.land new_value 255).

Section Engines.
Context `{Linker} `{DylanCode}.

(** ** Generic function entry points *)

(** [gf_iep_0] to [gf_iep_7] *)
Definition gf_iep_k (args : list Z) : M outcome :=
  t ← get_teb;
  let gf := function t in
  e ← generic_function_engine gf;
  modify_teb (set_next_methods gf) ;;
  modify_teb (set_function e) ;;
  ep ← engine_entry_point e;
  mret (Jump ep args).

(** Entering a node, or a method in its place, with a vector of arguments. *)
Definition enter_vectored (e parent new_arguments : Z) : M outcome :=
  f ← FUNCTIONP e;
  if f : bool then primitive_mep_apply_with_optionals e parent new_arguments
  else
    modify_teb (set_next_methods parent) ;;
    modify_teb (set_function e) ;;
    ep ← engine_entry_point e;
    mret (Jump ep [new_arguments]).

Definition gf_iep (new_arguments : Z) : M outcome :=
  t ← get_teb;
  let gf := function t in
  e ← generic_function_engine gf;
  enter_vectored e gf new_arguments.

(** [gf_xep_0] to [gf_xep_7] *)
Definition gf_xep_k (k : nat) (fn n : Z) (ap : list Z) : M outcome :=
  modify_teb (set_function fn) ;;
  BASIC_REQUIRED_CALL_CHECK fn k n ;;
  args ← take_args k ap;
  gf_iep_k args.

Definition gf_xep (fn n : Z) (ap : list Z) : M outcome :=
  number_required ← function_number_required fn;
  transfer_varargs ap n teb_arguments ;;
  modify_teb (set_function fn) ;;
  BASIC_REQUIRED_CALL_CHECK fn number_required n ;;
  new_arguments ← DEF_STACK_VECTOR_FROM_BUFFER number_required teb_arguments;
  gf_iep new_arguments.

(** [gf_optional_xep_0] to [gf_optional_xep_6] *)
Definition gf_optional_xep_k (k : nat) (fn n : Z) (ap : list Z) : M outcome :=
  let optionals_count := n - k in
  BASIC_OPTIONAL_CALL_CHECK fn k n ;;
  modify_teb (set_function fn) ;;
  transfer_varargs ap n teb_a ;;
  rest_arguments ← DEF_STACK_VECTOR_FROM_BUFFER optionals_count (idx teb_a k);
  store (idx teb_a k) rest_arguments ;;
  args ← read_words teb_a (k + 1);
  gf_iep_k args.

Definition gf_optional_xep (fn n : Z) (ap : list Z) : M outcome :=
  number_required ← function_number_required fn;
  let optionals_count := n - number_required in
  transfer_varargs ap n teb_arguments ;;
  BASIC_OPTIONAL_CALL_CHECK fn number_required n ;;
  new_arguments ← DEF_STACK_VECTOR_FROM_BUFFER_WITH_SIZE
                    (number_required + 1) teb_arguments number_required;
  rest_arguments ← DEF_STACK_VECTOR_FROM_BUFFER optionals_count
                     (idx teb_arguments number_required);
  vector_ref_setter rest_arguments new_arguments number_required ;;
  modify_teb (set_function fn) ;;
  gf_iep new_arguments.

(** The [switch] of the two halves: [limit] is the last numbered entry point. *)
Definition by_count (numbered : nat → entry) (unnumbered : entry) (limit : nat) (n : Z) : entry :=
  if (0 <=? n) && (n <=? limit) then numbered (Z.to_nat n) else unnumbered.

Definition primitive_set_generic_function_entrypoints (fn : Z) : M Z :=
  opt ← function_optionals_p fn;
  n ← function_number_required fn;
  store (idx fn 1)
    (addr_of (if opt : bool
              then by_count E_gf_optional_xep E_gf_optional_xep_n 6 n
              else by_count E_gf_xep E_gf_xep_n 7 n)) ;;
  mret fn.

(** ** General engine nodes: call back into Dylan *)

(** [general_engine_node_1_engine] to [general_engine_node_3_engine] *)
Definition general_engine_node_k_engine (k : nat) (ap : list Z) : M outcome :=
  args ← take_args k ap;
  t ← get_teb;
  let e := function t in
  cb ← engine_callback e;
  mret (Jump cb (args ++ [e; next_methods t])).

(** The number of required and of implementation arguments of the generic
    function above [parent]. *)
Definition gf_argument_counts (fuel : nat) (parent : Z) : M (Z * Z) :=
  gf ← parent_gf fuel parent;
  sig ← function_signature gf;
  nreq ← signature_number_required sig;
  opt ← signature_optionals_p sig;
  mret (nreq, nreq + Z.b2z opt).

(** [DEF_STACK_VECTOR_INITTED(svec, n)] filled with [n] spread arguments. *)
Definition stack_vector_of_args (n : Z) (ap : list Z) : M Z :=
  svec ← DEF_STACK_VECTOR_INITTED n;
  args ← take_args n ap;
  write_words (vector_data svec) args ;;
  mret svec.

Definition general_engine_node_n_engine (fuel : nat) (ap : list Z) : M outcome :=
  t ← get_teb;
  let e := function t in
  let parent := next_methods t in
  '(nreq, impargs) ← gf_argument_counts fuel parent;
  cb ← engine_callback e;
  if 7 <? impargs then
    a1 ← take_args 1 ap; mret (Jump cb (a1 ++ [e; parent]))
  else
    svec ← stack_vector_of_args impargs ap;
    mret (Jump cb [svec; e; parent]).

(** The vector [general_engine_node_spread_engine] builds from [nreq] required
    arguments at [required] and the rest vector [optargvec]. *)
Definition spread_optionals (nreq required optargvec : Z) : M Z :=
  nopts ← vector_size optargvec;
  svec ← DEF_STACK_VECTOR_INITTED (nreq + nopts);
  front ← read_words required (Z.to_nat nreq);
  write_words (vector_data svec) front ;;
  back ← read_words (vector_data optargvec) (Z.to_nat nopts);
  write_words (idx (vector_data svec) nreq) back ;;
  mret svec.

Definition general_engine_node_spread_engine (fuel : nat) (ap : list Z) : M outcome :=
  t ← get_teb;
  let e := function t in
  let parent := next_methods t in
  '(nreq, impargs) ← gf_argument_counts fuel parent;
  cb ← engine_callback e;
  if negb (nreq =? impargs) then
    if 7 <? impargs then
      a1 ← take_args 1 ap;
      mepargvec ← lift_option (head a1);
      optargvec ← load (idx (vector_data mepargvec) nreq);
      svec ← spread_optionals nreq (vector_data mepargvec) optargvec;
      mret (Jump cb [svec; e; parent])
    else
      a1 ← take_args 1 ap;
      write_words teb_arguments a1 ;;
      transfer_varargs (drop 1 ap) nreq (idx teb_arguments 1) ;;
      optargvec ← load (idx teb_arguments nreq);
      svec ← spread_optionals nreq teb_arguments optargvec;
      mret (Jump cb [svec; e; parent])
  else if 7 <? impargs then
    a1 ← take_args 1 ap; mret (Jump cb (a1 ++ [e; parent]))
  else
    svec ← stack_vector_of_args nreq ap;
    mret (Jump cb [svec; e; parent]).

(** ** Slot access engine nodes *)

Definition this_slot_index : M Z :=
  t ← get_teb;
  props ← engine_properties (function t);
  mret (slot_engine_index props).

Definition boxed_instance_slot_getter_engine (object : Z) : M outcome :=
  i ← this_slot_index;
  slot_value ← primitive_initialized_slot_value object i;
  if UNBOUND_P slot_value then trap_with (Unbound_instance_slot object (I i))
  else mret (Return slot_value).

Definition boxed_instance_slot_setter_engine (newval object : Z) : M outcome :=
  baseidx ← this_slot_index;
  primitive_slot_value_setter newval object baseidx ;;
  mret (Return newval).

(** [ridx >= 0 && ridx < size], both converted to [int] *)
Definition in_range (ridx size : Z) : bool := (0 <=? s32 ridx) && (s32 ridx <? s32 size).

Definition boxed_repeated_instance_slot_getter_engine (object i : Z) : M outcome :=
  baseidx ← this_slot_index;
  size ← primitive_repeated_instance_size object baseidx;
  let ridx := R i in
  if in_range ridx size then
    slot_value ← primitive_repeated_slot_value object baseidx (s32 ridx);
    if UNBOUND_P slot_value then trap_with (Unbound_repeated_slot object i)
    else mret (Return slot_value)
  else trap_with (Repeated_slot_getter_index_out_of_range_trap object i).

Definition boxed_repeated_instance_slot_setter_engine (newval object i : Z) : M outcome :=
  baseidx ← this_slot_index;
  size ← primitive_repeated_instance_size object baseidx;
  let ridx := R i in
  if in_range ridx size then
    primitive_repeated_slot_value_setter newval object baseidx (s32 ridx) ;;
    mret (Return newval)
  else trap_with (Repeated_slot_setter_index_out_of_range_trap newval object i).

Definition raw_byte_repeated_instance_slot_getter_engine (object i : Z) : M outcome :=
  baseidx ← this_slot_index;
  size ← primitive_repeated_instance_size object baseidx;
  let ridx := R i in
  if in_range ridx size then
    b ← primitive_byte_element object baseidx (s32 ridx);
    mret (Return (C b))
  else trap_with (Repeated_slot_getter_index_out_of_range_trap object i).

Definition raw_byte_repeated_instance_slot_setter_engine (newval object i : Z) : M outcome :=
  baseidx ← this_slot_index;
  size ← primitive_repeated_instance_size object baseidx;
  let ridx := R i in
  if in_range ridx size then
    primitive_byte_element_setter (R newval) object baseidx (s32 ridx) ;;
    mret (Return newval)
  else trap_with (Repeated_slot_setter_index_out_of_range_trap newval object i).

(** ** Single-method engine nodes

    The method is in [meth] (field 4), the next-method data in [data] (5), the
    keywords of the generic function in [keywords] (6). *)

(** [single_method_engine_0] to [single_method_engine_7] *)
Definition single_method_engine_k (k : nat) (ap : list Z) : M outcome :=
  args ← take_args k ap;
  t ← get_teb;
  let e := function t in
  meth ← load (idx e 4);
  mep ← function_mep meth;
  modify_teb (set_function meth) ;;
  data ← load (idx e 5);
  modify_teb (set_next_methods data) ;;
  mret (Jump mep args).

Definition single_method_engine_n (impargvec : Z) : M outcome :=
  t ← get_teb;
  let e := function t in
  meth ← load (idx e 4);
  data ← load (idx e 5);
  primitive_mep_apply_with_optionals meth data impargvec.

(** The inner loop of [check_explicit_kwds]: is [kwdarg] among the [kwdsize]
    words at [kwddata], taken [kwdskip] at a time?  [steps] bounds the number of
    words read. *)
Fixpoint find_keyword (kwdarg kwddata j kwdsize kwdskip : Z) (steps : nat) : M bool :=
  match steps with
  | O => mret false
  | S steps =>
    if j <? kwdsize then
      kwd ← load (idx kwddata j);
      if kwd =? kwdarg then mret true
      else find_keyword kwdarg kwddata (j + kwdskip) kwdsize kwdskip steps
    else mret false
  end.

(** The outer loop: the first supplied keyword that is not recognised. *)
Fixpoint check_each_keyword (optdata kwddata i optsize kwdsize kwdskip : Z) (steps : nat)
  : M Z :=
  match steps with
  | O => mret NULL
  | S steps =>
    if i <? optsize then
      kwdarg ← load (idx optdata i);
      found ← find_keyword kwdarg kwddata 0 kwdsize kwdskip (Z.to_nat kwdsize);
      if found : bool
      then check_each_keyword optdata kwddata (i + 2) optsize kwdsize kwdskip steps
      else mret kwdarg
    else mret NULL
  end.

Definition check_explicit_kwds (optionals kwds kwdskip : Z) : M Z :=
  optsize ← vector_size optionals;
  kwdsize ← vector_size kwds;
  if Z.odd optsize then mret DFALSE
  else check_each_keyword (vector_data optionals) (vector_data kwds) 0 optsize kwdsize kwdskip
         (Z.to_nat optsize).

Definition check_unrestricted_kwds (optionals : Z) : M Z :=
  optsize ← vector_size optionals;
  mret (if Z.odd optsize then DFALSE else NULL).

(** [CHECK_KEYWORDS_explicit] and its siblings *)
Definition CHECK_KEYWORDS (how : keyed) (optionals meth e : Z) : M Z :=
  match how with
  | explicit => keywords ← load (idx e 6); check_explicit_kwds optionals keywords 1
  | implicit => specs ← method_keyword_specifiers meth; check_explicit_kwds optionals specs 2
  | unrestricted => check_unrestricted_kwds optionals
  end.

(** [INVALID_KEYWORD_explicit] and its siblings *)
Definition INVALID_KEYWORD (how : keyed) (gf argvec badkwd e : Z) : M outcome :=
  if badkwd =? DFALSE then trap_with (Odd_number_of_keyword_args_trap argvec gf e)
  else
    match how with
    | explicit =>
        keywords ← load (idx e 6);
        trap_with (Invalid_keyword_trap argvec gf e badkwd keywords DFALSE)
    | implicit =>
        meth ← load (idx e 4);
        specs ← method_keyword_specifiers meth;
        trap_with (Invalid_keyword_trap argvec gf e badkwd specs DTRUE)
    | unrestricted => trap_with (Invalid_keyword_trap argvec gf e badkwd DFALSE DFALSE)
    end.

(** [explicit_keyed_single_method_engine_0] to [_6] and their siblings: [k]
    required arguments, then the optionals vector. *)
Definition keyed_single_method_engine_k (fuel : nat) (how : keyed) (k : nat) (ap : list Z)
  : M outcome :=
  args ← take_args (k + 1) ap;
  optionals ← lift_option (last args);
  t ← get_teb;
  let e := function t in
  let parent := next_methods t in
  meth ← load (idx e 4);
  badkwd ← CHECK_KEYWORDS how optionals meth e;
  if badkwd =? NULL then
    modify_teb (set_function meth) ;;
    data ← load (idx e 5);
    modify_teb (set_next_methods data) ;;
    mep ← function_mep meth;
    mret (Jump mep args)
  else
    argvec ← DEF_STACK_VECTOR_INITTED (k + 1);
    write_words (vector_data argvec) args ;;
    gf ← parent_gf fuel parent;
    INVALID_KEYWORD how gf argvec badkwd e.

Definition keyed_single_method_engine_n (fuel : nat) (how : keyed) (mepargvec : Z) : M outcome :=
  t ← get_teb;
  let e := function t in
  let parent := next_methods t in
  meth ← load (idx e 4);
  nimpargs ← vector_size mepargvec;
  optionals ← vector_ref mepargvec (nimpargs - 1);
  badkwd ← CHECK_KEYWORDS how optionals meth e;
  if badkwd =? NULL then
    data ← load (idx e 5);
    primitive_mep_apply_with_optionals meth data mepargvec
  else
    gf ← parent_gf fuel parent;
    INVALID_KEYWORD how gf mepargvec badkwd e.

(** ** Cache headers

    [nextnode] is field 4, [parent] 5; a profiling header counts its calls in
    [count1] and [count2] (6 and 7). *)

(** [cache_header_engine_0] to [cache_header_engine_7] *)
Definition cache_header_engine_k (k : nat) (ap : list Z) : M outcome :=
  args ← take_args k ap;
  t ← get_teb;
  let e := function t in
  nxt ← load (idx e 4);
  entrypt ← engine_entry_point nxt;
  modify_teb (set_function nxt) ;;
  modify_teb (set_next_methods e) ;;
  mret (Jump entrypt args).

Definition cache_header_engine_n (argvec : Z) : M outcome :=
  t ← get_teb;
  let e := function t in
  newengine ← load (idx e 4);
  enter_vectored newengine e argvec.

(** [e->count1 += 4; if (e->count1 == I(0)) e->count2 += 4] *)
Definition count_call (e : Z) : M () :=
  count1 ← load (idx e 6);
  store (idx e 6) (u64 (count1 + 4)) ;;
  when (u64 (count1 + 4) =? I 0)
    (count2 ← load (idx e 7); store (idx e 7) (u64 (count2 + 4))).

(** [profiling_cache_header_engine_0] to [profiling_cache_header_engine_7] *)
Definition profiling_cache_header_engine_k (k : nat) (ap : list Z) : M outcome :=
  args ← take_args k ap;
  t ← get_teb;
  let e := function t in
  nxt ← load (idx e 4);
  entrypt ← engine_entry_point nxt;
  modify_teb (set_function nxt) ;;
  modify_teb (set_next_methods e) ;;
  count_call e ;;
  mret (Jump entrypt args).

(** The variant with a vector of arguments does not count. *)
Definition profiling_cache_header_engine_n (argvec : Z) : M outcome :=
  t ← get_teb;
  let e := function t in
  newengine ← load (idx e 4);
  enter_vectored newengine e argvec.

(** The [switch] on the number of implementation arguments has no default. *)
Definition primitive_enable_cache_header_engine_node (engine genfun : Z) : M Z :=
  sig ← function_signature genfun;
  props ← engine_properties engine;
  nreq ← signature_number_required sig;
  opt ← signature_optionals_p sig;
  let impargs := nreq + Z.b2z opt in
  let etype := entry_type props in
  (if (0 <=? impargs) && (impargs <=? 7) then
     if etype =? ENGINE_cache_header
     then set_entry_point engine (addr_of (E_cache_header_engine (Z.to_nat impargs)))
     else if etype =? ENGINE_profiling_cache_header
     then set_entry_point engine (addr_of (E_profiling_cache_header_engine (Z.to_nat impargs)))
     else mret ()
   else mret ()) ;;
  mret engine.

Definition primitive_invalidate_cache_engine_node (engine genfun : Z) : M Z :=
  set_entry_point engine (addr_of E_general_engine_node_n) ;;
  mret engine.

(** ** Discriminators

    Each family has its own way of choosing the next node from the argument it
    discriminates on. *)

(** [MONO_WRAPPER_KEY(x)] *)
Definition MONO_WRAPPER_KEY (x : Z) : M Z :=
  if TAGGEDQ x then load (idx Ddirect_object_mm_wrappersVKi (TAG_BITS x))
  else load (idx x 0).

Definition choose_node (d : discrimination) (arg parent e : Z) : M Z :=
  match d with
  | by_callback => cb ← engine_callback e; callback_code cb [arg; parent; e]
  | monomorphic =>
      wrapper ← MONO_WRAPPER_KEY arg;
      key ← load (idx e 4);
      if FI wrapper =? key then load (idx e 5) else mret Dabsent_engine_nodeVKg
  | if_type =>
      type ← load (idx e 4);
      ok ← INSTANCEP arg type;
      if ok : bool then load (idx e 5) else load (idx e 6)
  | typecheck =>
      type ← load (idx e 4);
      ok ← INSTANCEP arg type;
      if ok : bool then load (idx e 5) else mret Dinapplicable_engine_nodeVKg
  end.

(** [discriminate_engine_1_1] to [discriminate_engine_7_7] and the three other
    families; [argnum] counts from 1.  A method in place of a node is entered
    through its mep, which is at the offset of a node's entry point. *)
Definition discriminate_engine (d : discrimination) (argnum nargs : nat) (ap : list Z)
  : M outcome :=
  args ← take_args nargs ap;
  t ← get_teb;
  let e := function t in
  let parent := next_methods t in
  arg ← lift_option (args !! (argnum - 1)%nat);
  newengine ← choose_node d arg parent e;
  ncb ← engine_entry_point newengine;
  modify_teb (set_function newengine) ;;
  modify_teb (set_next_methods parent) ;;
  mret (Jump ncb args).

(** [discriminate_engine_n_n] and its siblings *)
Definition discriminate_engine_n_n (d : discrimination) (args : Z) : M outcome :=
  t ← get_teb;
  let e := function t in
  let parent := next_methods t in
  props ← engine_properties e;
  let argnum := Z.land (Z.shiftr (s64 props) 8) 255 in
  arg ← load (idx (vector_data args) argnum);
  newengine ← choose_node d arg parent e;
  enter_vectored newengine parent args.

(** ** Installing entry points *)

(** The entry point of a single-method node, from the number of required
    arguments of its method and whether it takes optionals. *)
Definition single_method_entry (etype nreq impargs : Z) : entry :=
  if etype =? ENGINE_unkeyed_single_method
  then by_count E_single_method_engine E_single_method_engine_n 7 impargs
  else
    let how := if etype =? ENGINE_explicit_keyed_single_method then explicit
               else if etype =? ENGINE_implicit_keyed_single_method then implicit
               else unrestricted in
    by_count (E_keyed_single_method_engine how) (E_keyed_single_method_engine_n how) 6 nreq.

Definition is_single_method (etype : Z) : bool :=
  (ENGINE_unkeyed_single_method <=? etype) && (etype <=? ENGINE_unrestricted_keyed_single_method).

(** The entry points that depend on the entry type alone; the reserved types
    take the place of the ones they are reserved for. *)
Definition fixed_entry (etype : Z) : option entry :=
  match etype with
  | 0 => Some E_general_engine_node_n
  | 15 | 1 => Some E_general_engine_node_spread
  | 16 => Some (E_slot_engine boxed_instance_slot_getter)
  | 17 => Some (E_slot_engine boxed_instance_slot_setter)
  | 18 => Some (E_slot_engine boxed_repeated_instance_slot_getter)
  | 19 => Some (E_slot_engine boxed_repeated_instance_slot_setter)
  | 22 => Some (E_slot_engine raw_byte_repeated_instance_slot_getter)
  | 23 => Some (E_slot_engine raw_byte_repeated_instance_slot_setter)
  | 20 | 24 | 26 => Some (E_general_engine_node 1)
  | 25 | 27 | 21 | 28 | 30 => Some (E_general_engine_node 2)
  | 29 | 31 => Some (E_general_engine_node 3)
  | _ => None
  end.

Definition primitive_initialize_engine_node (fuel : nat) (engine : Z) : M Z :=
  props ← engine_properties engine;
  let etype := entry_type props in
  match fixed_entry etype with
  | Some e => set_entry_point engine (addr_of e)
  | None =>
    if is_single_method etype then
      meth ← load (idx engine 4);
      sig ← function_signature meth;
      nreq ← signature_number_required sig;
      opt ← signature_optionals_p sig;
      set_entry_point engine (addr_of (single_method_entry etype nreq (nreq + Z.b2z opt)))
    else if (ENGINE_reserved_terminal_n_a <=? etype) && (etype <=? ENGINE_cache_header) then
      gf ← parent_gf fuel engine;
      primitive_enable_cache_header_engine_node engine gf ;;
      mret ()
    else mret ()
  end ;;
  mret engine.

(** The family of a discriminator. *)
Definition discriminator_family (etype : Z) : discrimination :=
  if etype =? ENGINE_if_type then if_type
  else if etype =? ENGINE_typecheck then typecheck
  else if etype =? ENGINE_monomorphic then monomorphic
  else by_callback.

(** [argnum], [nreq] and [optionals] in a discriminator's properties word. *)
Definition dprops_argnum (props : Z) : Z :=
  Z.shiftr (Z.land props DPROPS_M_ARGNUM) DPROPS_V_ARGNUM.
Definition dprops_nrequired (props : Z) : Z :=
  Z.shiftr (Z.land props DPROPS_M_NREQUIRED) DPROPS_V_NREQUIRED.
Definition dprops_optionals (props : Z) : Z :=
  Z.shiftr (Z.land props DPROPS_M_OPTIONALS) DPROPS_V_OPTIONALS.

(** The nested [switch] on the number of implementation arguments and on
    [argnum]; an [argnum] out of range leaves [handler] uninitialised. *)
Definition discriminator_handler (d : discrimination) (argnum impargs : Z) : option entry :=
  if (1 <=? impargs) && (impargs <=? 7) then
    if impargs =? 1 then Some (E_discriminator d 1 1)
    else if argnum <? impargs
    then Some (E_discriminator d (Z.to_nat (argnum + 1)) (Z.to_nat impargs))
    else None
  else Some (E_discriminator_n_n d).

Definition primitive_initialize_discriminator (discriminator : Z) : M Z :=
  w ← engine_properties discriminator;
  let props := s64 w in
  let impargs := dprops_nrequired props + dprops_optionals props in
  handler ← lift_option
    (discriminator_handler (discriminator_family (entry_type props))
       (dprops_argnum props) impargs);
  set_entry_point discriminator (addr_of handler) ;;
  mret discriminator.

(** ** The machine

    [enter e args]: the body of the function [e], called with [args].  The
    arguments of an external entry point are the function, the number of
    arguments, and the arguments. *)

Definition enter_xep (xep : Z → Z → list Z → M outcome) (args : list Z) : M outcome :=
  match args with fn :: n :: ap => xep fn n ap | _ => fault end.

Definition with_vector (f : Z → M outcome) (args : list Z) : M outcome :=
  match args with v :: _ => f v | [] => fault end.

Definition enter_slot_engine (e : slot_engine) (args : list Z) : M outcome :=
  match e, args with
  | boxed_instance_slot_getter, object :: _ => boxed_instance_slot_getter_engine object
  | boxed_instance_slot_setter, newval :: object :: _ =>
      boxed_instance_slot_setter_engine newval object
  | boxed_repeated_instance_slot_getter, object :: i :: _ =>
      boxed_repeated_instance_slot_getter_engine object i
  | boxed_repeated_instance_slot_setter, newval :: object :: i :: _ =>
      boxed_repeated_instance_slot_setter_engine newval object i
  | raw_byte_repeated_instance_slot_getter, object :: i :: _ =>
      raw_byte_repeated_instance_slot_getter_engine object i
  | raw_byte_repeated_instance_slot_setter, newval :: object :: i :: _ =>
      raw_byte_repeated_instance_slot_setter_engine newval object i
  | _, _ => fault
  end.

Definition enter (fuel : nat) (e : entry) (args : list Z) : M outcome :=
  match e with
  | E_xep k => enter_xep (xep_k k) args
  | E_xep_n => enter_xep xep args
  | E_rest_xep k => enter_xep (rest_xep_k k) args
  | E_rest_xep_n => enter_xep rest_xep args
  | E_rest_key_xep k => enter_xep (rest_key_xep_k k) args
  | E_rest_key_xep_n => enter_xep rest_key_xep args
  | E_key_mep k => key_mep_k k args
  | E_key_mep_n => key_mep args
  | E_gf_xep k => enter_xep (gf_xep_k k) args
  | E_gf_xep_n => enter_xep gf_xep args
  | E_gf_optional_xep k => enter_xep (gf_optional_xep_k k) args
  | E_gf_optional_xep_n => enter_xep gf_optional_xep args
  | E_slotacc_xep a => enter_xep (slotacc_xep a) args
  | E_general_engine_node k => general_engine_node_k_engine k args
  | E_general_engine_node_n => general_engine_node_n_engine fuel args
  | E_general_engine_node_spread => general_engine_node_spread_engine fuel args
  | E_slot_engine e => enter_slot_engine e args
  | E_single_method_engine k => single_method_engine_k k args
  | E_single_method_engine_n => with_vector single_method_engine_n args
  | E_keyed_single_method_engine how k => keyed_single_method_engine_k fuel how k args
  | E_keyed_single_method_engine_n how => with_vector (keyed_single_method_engine_n fuel how) args
  | E_cache_header_engine k => cache_header_engine_k k args
  | E_cache_header_engine_n => with_vector cache_header_engine_n args
  | E_profiling_cache_header_engine k => profiling_cache_header_engine_k k args
  | E_profiling_cache_header_engine_n => with_vector profiling_cache_header_engine_n args
  | E_discriminator d argnum nargs => discriminate_engine d argnum nargs args
  | E_discriminator_n_n d => with_vector (discriminate_engine_n_n d) args
  end.

(** A call through the pointer [code]: run-time functions are run, and their
    tail calls followed, until control reaches compiled Dylan code or a value
    is returned.  [steps] bounds the number of calls followed. *)
Fixpoint run (fuel steps : nat) (code : Z) (args : list Z) : M outcome :=
  match entry_of code with
  | None => mret (Jump code args)
  | Some e =>
    match steps with
    | O => fault
    | S steps =>
      o ← enter fuel e args;
      match o with
      | Return v => mret (Return v)
      | Jump code args => run fuel steps code args
      end
    end
  end.

(** The same, as a relation between configurations. *)
Inductive step (fuel : nat) : Z * list Z * state → Z * list Z * state → Prop :=
| step_enter code e args s code' args' s' :
    entry_of code = Some e → enter fuel e args s = Ok (Jump code' args') s' →
    step fuel (code, args, s) (code', args', s').

End Engines.
