(* ===== verification/Dispatch.v ===== *)
(** * Dispatch of generic functions

    What the engine nodes of [Engines.v] compute.  A tree of nodes is an
    abstract decision tree; running the machine from a generic function reaches
    the method the tree decides on, with the arguments unchanged and the
    next-method data the method expects. *)

From S2P Require Import Prelude Memory Tagging Entry Vectors Examples Calls Xeps Engines.
From stdpp Require Import base tactics option list numbers gmap.
From Stdlib Require Import ZArith Lia Bool.

Local Open Scope Z_scope.

(** ** Decision trees

    Specification: a leaf is whatever is called at the end, a method or a node
    that is not looked into (such as the absent or the inapplicable one);
    argument numbers count from 1. *)
Inductive tree :=
| Leaf (callee : Z)
| Single_method (node meth data : Z)
| If_type (node : Z) (argnum : nat) (type : Z) (yes no : tree)
| Typecheck (node : Z) (argnum : nat) (type : Z) (next : tree)
| Monomorphic (node : Z) (argnum : nat) (key : Z) (next : tree)
| Cache_header (node : Z) (next : tree).

Definition root (t : tree) : Z :=
  match t with
  | Leaf c => c
  | Single_method n _ _ | If_type n _ _ _ _ | Typecheck n _ _ _ | Monomorphic n _ _ _
  | Cache_header n _ => n
  end.

Fixpoint depth (t : tree) : nat :=
  match t with
  | Leaf _ => 0
  | Single_method _ _ _ => 1
  | If_type _ _ _ yes no => S (Nat.max (depth yes) (depth no))
  | Typecheck _ _ _ next | Monomorphic _ _ _ next | Cache_header _ next => S (depth next)
  end.

Section Dispatch.
Context `{Linker} `{DylanCode}.

Definition instance (m : gmap Z Z) (x type : Z) : bool :=
  match m !! idx type 1 with
  | Some code => negb (instancep_code code x type m =? DFALSE)
  | None => false
  end.

(** The key of a monomorphic discriminator is the wrapper of the argument. *)
Definition wrapper_key (m : gmap Z Z) (x : Z) : option Z :=
  if TAGGEDQ x then m !! idx Ddirect_object_mm_wrappersVKi (TAG_BITS x) else m !! idx x 0.

(** The callee and the value of [teb->next_methods] it is called with. *)
Fixpoint dispatch (m : gmap Z Z) (args : list Z) (parent : Z) (t : tree) : option (Z * Z) :=
  match t with
  | Leaf c => Some (c, parent)
  | Single_method _ meth data => Some (meth, data)
  | If_type _ i type yes no =>
      a ← args !! (i - 1)%nat;
      dispatch m args parent (if instance m a type then yes else no)
  | Typecheck _ i type next =>
      a ← args !! (i - 1)%nat;
      if instance m a type then dispatch m args parent next
      else Some (Dinapplicable_engine_nodeVKg, parent)
  | Monomorphic _ i key next =>
      a ← args !! (i - 1)%nat;
      w ← wrapper_key m a;
      if FI w =? key then dispatch m args parent next
      else Some (Dabsent_engine_nodeVKg, parent)
  | Cache_header node next => dispatch m args node next
  end.

(** The tree [t] for calls with [nargs] implementation arguments is what the
    memory holds. *)
Fixpoint repr (m : gmap Z Z) (nargs : nat) (t : tree) : Prop :=
  match t with
  | Leaf c => is_Some (m !! idx c 3)
  | Single_method node meth data =>
      m !! idx node 3 = Some (addr_of (E_single_method_engine nargs)) ∧
      m !! idx node 4 = Some meth ∧ m !! idx node 5 = Some data
  | If_type node i type yes no =>
      m !! idx node 3 = Some (addr_of (E_discriminator if_type i nargs)) ∧
      m !! idx node 4 = Some type ∧ is_Some (m !! idx type 1) ∧
      m !! idx node 5 = Some (root yes) ∧ m !! idx node 6 = Some (root no) ∧
      repr m nargs yes ∧ repr m nargs no
  | Typecheck node i type next =>
      m !! idx node 3 = Some (addr_of (E_discriminator typecheck i nargs)) ∧
      m !! idx node 4 = Some type ∧ is_Some (m !! idx type 1) ∧
      m !! idx node 5 = Some (root next) ∧ repr m nargs next
  | Monomorphic node i key next =>
      m !! idx node 3 = Some (addr_of (E_discriminator monomorphic i nargs)) ∧
      m !! idx node 4 = Some key ∧ m !! idx node 5 = Some (root next) ∧ repr m nargs next
  | Cache_header node next =>
      m !! idx node 3 = Some (addr_of (E_cache_header_engine nargs)) ∧
      m !! idx node 4 = Some (root next) ∧ repr m nargs next
  end.

Lemma repr_entry m nargs t : repr m nargs t → is_Some (m !! idx (root t) 3).
Proof. destruct t; simpl; intros; destruct_and?; eauto. Qed.

(** ** One step of the machine *)

(** The state in which [callee] is entered with [nm] in [next_methods]. *)
Definition entering (callee nm : Z) (s : state) : state :=
  with_teb (λ t, set_next_methods nm (set_function callee t)) s.

Lemma entering_id s : entering (function (teb s)) (next_methods (teb s)) s = s.
Proof. by destruct s as [? ? ? []]. Qed.

Lemma entering_entering c nm c' nm' s : entering c nm (entering c' nm' s) = entering c nm s.
Proof. done. Qed.

Lemma run_step fuel steps e args s code' args' s' :
  enter fuel e args s = Ok (Jump code' args') s' →
  run fuel (S steps) (addr_of e) args s = run fuel steps code' args' s'.
Proof. intros E. simpl. rewrite entry_of_addr_of. by mstep E. Qed.

Lemma take_all (l : list Z) n s : length l = n → take_args n l s = Ok l s.
Proof. intros <-. rewrite take_args_ok by lia. by rewrite take_ge. Qed.

Lemma lift_option_ok {A} (o : option A) a s : o = Some a → lift_option o s = Ok a s.
Proof. by intros ->. Qed.

Lemma INSTANCEP_ok s x type :
  is_Some (mem s !! idx type 1) → INSTANCEP x type s = Ok (instance (mem s) x type) s.
Proof.
  intros [code Hc]. unfold INSTANCEP, primitive_instanceQ, instance, gets.
  mnorm. mstep (load_ok _ _ _ Hc). by rewrite Hc.
Qed.

(** A discriminator hands over to the node it chooses. *)
Lemma discriminate_engine_ok s d i nargs args arg newengine code :
  length args = nargs → args !! (i - 1)%nat = Some arg →
  choose_node d arg (next_methods (teb s)) (function (teb s)) s = Ok newengine s →
  mem s !! idx newengine 3 = Some code →
  discriminate_engine d i nargs args s
  = Ok (Jump code args) (entering newengine (next_methods (teb s)) s).
Proof.
  intros Hl Ha Hc Hn. unfold discriminate_engine.
  mstep (take_all args nargs s Hl). mstep (get_teb_ok s). mstep (lift_option_ok _ _ s Ha). mstep Hc.
  unfold engine_entry_point. by mstep (load_ok _ _ _ Hn).
Qed.

Lemma choose_if_type s arg parent e type yes no :
  mem s !! idx e 4 = Some type → is_Some (mem s !! idx type 1) →
  mem s !! idx e 5 = Some yes → mem s !! idx e 6 = Some no →
  choose_node if_type arg parent e s = Ok (if instance (mem s) arg type then yes else no) s.
Proof.
  intros H4 Ht H5 H6. unfold choose_node. mstep (load_ok _ _ _ H4).
  mstep (INSTANCEP_ok s arg type Ht). destruct (instance _ _ _); by apply load_ok.
Qed.

Lemma choose_typecheck s arg parent e type next :
  mem s !! idx e 4 = Some type → is_Some (mem s !! idx type 1) →
  mem s !! idx e 5 = Some next →
  choose_node typecheck arg parent e s
  = Ok (if instance (mem s) arg type then next else Dinapplicable_engine_nodeVKg) s.
Proof.
  intros H4 Ht H5. unfold choose_node. mstep (load_ok _ _ _ H4).
  mstep (INSTANCEP_ok s arg type Ht). destruct (instance _ _ _); [by apply load_ok|done].
Qed.

Lemma choose_monomorphic s arg parent e w key next :
  mem s !! idx e 4 = Some key → mem s !! idx e 5 = Some next →
  wrapper_key (mem s) arg = Some w →
  choose_node monomorphic arg parent e s
  = Ok (if FI w =? key then next else Dabsent_engine_nodeVKg) s.
Proof.
  intros H4 H5 Hw. unfold choose_node, MONO_WRAPPER_KEY, wrapper_key in *.
  assert ((if TAGGEDQ arg then load (idx Ddirect_object_mm_wrappersVKi (TAG_BITS arg))
           else load (idx arg 0)) s = Ok w s) as E.
  { destruct (TAGGEDQ arg); by apply load_ok. }
  mstep E. mstep (load_ok _ _ _ H4). destruct (FI w =? key); [by apply load_ok|done].
Qed.

(** ** The refinement *)

Lemma run_discriminator fuel k d i nargs args arg newengine code s :
  length args = nargs → args !! (i - 1)%nat = Some arg →
  choose_node d arg (next_methods (teb s)) (function (teb s)) s = Ok newengine s →
  mem s !! idx newengine 3 = Some code →
  run fuel (S k) (addr_of (E_discriminator d i nargs)) args s
  = run fuel k code args (entering newengine (next_methods (teb s)) s).
Proof. intros Hl Ha Hc Hn. apply run_step. by eapply discriminate_engine_ok. Qed.

(** Running the nodes of [t] reaches the callee it decides on. *)
Definition reaches (fuel k nargs : nat) (args : list Z) (callee nm code : Z) (t : tree) : Prop :=
  ∀ ep s, repr (mem s) nargs t → function (teb s) = root t →
    dispatch (mem s) args (next_methods (teb s)) t = Some (callee, nm) →
    mem s !! idx (root t) 3 = Some ep → mem s !! idx callee 3 = Some code →
    ∃ d, (d ≤ depth t)%nat ∧
      run fuel (d + k) ep args s = run fuel k code args (entering callee nm s).

Lemma reaches_child fuel k nargs args callee nm code next d i arg s :
  length args = nargs → args !! (i - 1)%nat = Some arg →
  reaches fuel k nargs args callee nm code next →
  repr (mem s) nargs next →
  choose_node d arg (next_methods (teb s)) (function (teb s)) s = Ok (root next) s →
  dispatch (mem s) args (next_methods (teb s)) next = Some (callee, nm) →
  mem s !! idx callee 3 = Some code →
  ∃ n, (n ≤ S (depth next))%nat ∧
    run fuel (n + k) (addr_of (E_discriminator d i nargs)) args s
    = run fuel k code args (entering callee nm s).
Proof.
  intros Hl Ha IH R C D Hc. destruct (repr_entry _ _ _ R) as [c Hc'].
  destruct (IH c (entering (root next) (next_methods (teb s)) s)) as (n & Hn & Hr); try done.
  exists (S n). split; [lia|]. simpl Nat.add.
  rewrite (run_discriminator fuel (n + k) d i nargs args arg (root next) c s) by done.
  by rewrite Hr.
Qed.

Lemma run_tree fuel k nargs args callee nm code t :
  length args = nargs → reaches fuel k nargs args callee nm code t.
Proof.
  intros Hl. induction t as [c|node meth data|node i type yes IHy no IHn|node i type next IH
    |node i key next IH|node next IH]; intros ep s R Hf D He Hc; simpl in *.
  - injection D as <- <-. exists 0%nat. split; [lia|].
    rewrite He in Hc. injection Hc as <-. by rewrite <- Hf, entering_id.
  - destruct R as (R3 & R4 & R5). injection D as <- <-. rewrite R3 in He. injection He as <-.
    exists 1%nat. split; [lia|]. apply run_step. cbn [enter]. unfold single_method_engine_k.
    mstep (take_all args nargs s Hl). mstep (get_teb_ok s). rewrite Hf.
    mstep (load_ok _ _ _ R4). unfold function_mep. mstep (load_ok _ _ _ Hc).
    mstep (modify_teb_ok (set_function meth) s).
    by mstep (load_ok (with_teb (set_function meth) s) _ _ R5).
  - destruct R as (R3 & R4 & Rt & R5 & R6 & Ry & Rn). rewrite R3 in He. injection He as <-.
    destruct (args !! (i - 1)%nat) as [a|] eqn:Ea; [|done]. simpl in D.
    pose proof (choose_if_type s a (next_methods (teb s)) node type _ _ R4 Rt R5 R6) as C.
    rewrite <- Hf in C. destruct (instance (mem s) a type).
    + destruct (reaches_child fuel k _ _ _ _ _ _ _ i a s Hl Ea IHy Ry C D Hc) as (n & ? & ?).
      exists n. split; [lia|done].
    + destruct (reaches_child fuel k _ _ _ _ _ _ _ i a s Hl Ea IHn Rn C D Hc) as (n & ? & ?).
      exists n. split; [lia|done].
  - destruct R as (R3 & R4 & Rt & R5 & Rn). rewrite R3 in He. injection He as <-.
    destruct (args !! (i - 1)%nat) as [a|] eqn:Ea; [|done]. simpl in D.
    pose proof (choose_typecheck s a (next_methods (teb s)) node type _ R4 Rt R5) as C.
    rewrite <- Hf in C. destruct (instance (mem s) a type).
    + by apply (reaches_child fuel k _ _ _ _ _ _ _ i a s Hl Ea IH Rn C D Hc).
    + injection D as <- <-. exists 1%nat. split; [lia|]. by eapply run_discriminator.
  - destruct R as (R3 & R4 & R5 & Rn). rewrite R3 in He. injection He as <-.
    destruct (args !! (i - 1)%nat) as [a|] eqn:Ea; [|done]. simpl in D.
    destruct (wrapper_key (mem s) a) as [w|] eqn:Ew; [|done]. simpl in D.
    pose proof (choose_monomorphic s a (next_methods (teb s)) node w key _ R4 R5 Ew) as C.
    rewrite <- Hf in C. destruct (FI w =? key).
    + by apply (reaches_child fuel k _ _ _ _ _ _ _ i a s Hl Ea IH Rn C D Hc).
    + injection D as <- <-. exists 1%nat. split; [lia|]. by eapply run_discriminator.
  - destruct R as (R3 & R4 & Rn). rewrite R3 in He. injection He as <-.
    destruct (repr_entry _ _ _ Rn) as [c Hc'].
    assert (enter fuel (E_cache_header_engine nargs) args s
            = Ok (Jump c args) (entering (root next) node s)) as E.
    { cbn [enter]. unfold cache_header_engine_k.
      mstep (take_all args nargs s Hl). mstep (get_teb_ok s). rewrite Hf. mstep (load_ok _ _ _ R4).
      unfold engine_entry_point. by mstep (load_ok _ _ _ Hc'). }
    destruct (IH c (entering (root next) node s)) as (d & Hd & Hr); try done.
    exists (S d). split; [lia|]. simpl Nat.add. rewrite (run_step _ _ _ _ _ _ _ _ E). by rewrite Hr.
Qed.

(** ** Keyword checking *)

Lemma find_keyword_1 s a pre ks kwdarg steps :
  arr (mem s) a (pre ++ ks) → (length ks ≤ steps)%nat →
  find_keyword kwdarg a (length pre) (length (pre ++ ks)) 1 steps s
  = Ok (bool_decide (kwdarg ∈ ks)) s.
Proof.
  revert pre steps. induction ks as [|k ks IH]; intros pre steps Ha Hs; simpl in Hs.
  - rewrite app_nil_r in *. rewrite bool_decide_false by set_solver.
    destruct steps as [|steps]; [done|]. simpl. by rewrite Z.ltb_irrefl.
  - destruct steps as [|steps]; [lia|]. cbn [find_keyword].
    rewrite (proj2 (Z.ltb_lt _ _)) by (rewrite length_app; simpl; lia).
    pose proof Ha as Ha'. apply arr_app in Ha' as [_ Hk]. apply arr_cons in Hk as [Hk _].
    mstep (load_ok _ _ _ Hk). destruct (Z.eqb_spec k kwdarg) as [->|Hne].
    + by rewrite bool_decide_true by set_solver.
    + specialize (IH (pre ++ [k]) steps). rewrite <- app_assoc, (length_app pre [k]) in IH.
      simpl in IH. replace (length pre + 1) with (Z.of_nat (length pre + 1)) by lia.
      rewrite IH by (done || lia). unfold mret, M_ret. f_equal. apply bool_decide_ext. rewrite elem_of_cons.
      split; [by right|intros [?|?]; [congruence|done]].
Qed.

Lemma find_keyword_2 s a pre specs kwdarg steps :
  arr (mem s) a (pre ++ flat specs) → (length specs ≤ steps)%nat →
  find_keyword kwdarg a (length pre) (length (pre ++ flat specs)) 2 steps s
  = Ok (bool_decide (kwdarg ∈ specs.*1)) s.
Proof.
  revert pre steps. induction specs as [|[k d] specs IH]; intros pre steps Ha Hs; simpl in Hs.
  - simpl in *. rewrite app_nil_r in *.
    destruct steps as [|steps]; [done|]. simpl. by rewrite Z.ltb_irrefl.
  - destruct steps as [|steps]; [lia|]. cbn [find_keyword].
    rewrite (proj2 (Z.ltb_lt _ _)) by (rewrite length_app; simpl; lia).
    pose proof Ha as Ha'. apply arr_app in Ha' as [_ Hk]. apply arr_cons in Hk as [Hk _].
    mstep (load_ok _ _ _ Hk). destruct (Z.eqb_spec k kwdarg) as [->|Hne].
    + by rewrite bool_decide_true by set_solver.
    + specialize (IH (pre ++ [k; d]) steps). rewrite <- app_assoc, (length_app pre [k; d]) in IH.
      simpl in IH. replace (length pre + 2) with (Z.of_nat (length pre + 2)) by lia.
      simpl flat. rewrite IH by (done || lia). unfold mret, M_ret. f_equal.
      apply bool_decide_ext. csimpl. rewrite elem_of_cons.
      split; [by right|intros [?|?]; [congruence|done]].
Qed.

(** The first supplied keyword that is not among the known ones. *)
Fixpoint first_unknown (known : list Z) (opts : list (Z * Z)) : option Z :=
  match opts with
  | [] => None
  | (k, _) :: opts => if bool_decide (k ∈ known) then first_unknown known opts else Some k
  end.

Lemma check_each_keyword_ok s optdata kwddata pre opts known kwdsize skip steps :
  (∀ kw, find_keyword kw kwddata 0 kwdsize skip (Z.to_nat kwdsize) s
         = Ok (bool_decide (kw ∈ known)) s) →
  arr (mem s) optdata (pre ++ flat opts) → (length opts ≤ steps)%nat →
  check_each_keyword optdata kwddata (length pre) (length (pre ++ flat opts)) kwdsize skip steps s
  = Ok (default NULL (first_unknown known opts)) s.
Proof.
  intros Hf. revert pre steps.
  induction opts as [|[k v] opts IH]; intros pre steps Ha Hs; simpl in Hs.
  - simpl in *. rewrite app_nil_r in *.
    destruct steps as [|steps]; [done|]. simpl. by rewrite Z.ltb_irrefl.
  - destruct steps as [|steps]; [lia|]. cbn [check_each_keyword].
    rewrite (proj2 (Z.ltb_lt _ _)) by (rewrite length_app; simpl; lia).
    pose proof Ha as Ha'. apply arr_app in Ha' as [_ Hk]. apply arr_cons in Hk as [Hk _].
    mstep (load_ok _ _ _ Hk). mstep (Hf k). simpl.
    destruct (bool_decide (k ∈ known)); [|done].
    specialize (IH (pre ++ [k; v]) steps). rewrite <- app_assoc, (length_app pre [k; v]) in IH.
    simpl in IH. replace (length pre + 2) with (Z.of_nat (length pre + 2)) by lia.
    by rewrite IH by (done || lia).
Qed.

(** The keywords a keyed node accepts: those of the generic function, which the
    node holds, those of its method, or all. *)
Definition accepts (m : gmap Z Z) (how : keyed) (meth e : Z) (known : list Z) : Prop :=
  match how with
  | explicit => ∃ kv, m !! idx e 6 = Some kv ∧ is_vec m kv known
  | implicit => ∃ kv specs, m !! idx meth 5 = Some kv ∧ is_vec m kv (flat specs) ∧
                            known = specs.*1
  | unrestricted => True
  end.

Definition rejected (how : keyed) (known : list Z) (opts : list (Z * Z)) : option Z :=
  match how with unrestricted => None | _ => first_unknown known opts end.

(** Either every keyword is accepted, or the first rejected one is a supplied
    keyword that is not known. *)
Lemma rejected_cases how known opts :
  Forall (λ p, p.1 ≠ NULL ∧ p.1 ≠ DFALSE) opts →
  rejected how known opts = None ∨
  (∃ kw, rejected how known opts = Some kw ∧ kw ≠ NULL ∧ kw ≠ DFALSE ∧
         kw ∈ opts.*1 ∧ (kw ∉ known) ∧ how ≠ unrestricted).
Proof.
  intros Hk. destruct how; simpl; [| |by left].
  all: induction Hk as [|[k v] opts [Hn Hd] Hk IH]; simpl in *; [by left|].
  all: destruct (decide (k ∈ known)) as [Hkn|Hkn];
    [rewrite bool_decide_true by done|rewrite bool_decide_false by done].
  all: try (right; exists k; split_and!; try done; left).
  all: destruct IH as [->|(kw & -> & ? & ? & ? & ? & ?)]; [by left|right].
  all: exists kw; split_and!; try done; by right.
Qed.

Lemma CHECK_KEYWORDS_ok s how optionals meth e known opts :
  accepts (mem s) how meth e known → is_vec (mem s) optionals (flat opts) →
  CHECK_KEYWORDS how optionals meth e s = Ok (default NULL (rejected how known opts)) s.
Proof.
  intros A V. pose proof (vec_arr _ _ _ V) as Ho.
  assert (Z.odd (length (flat opts)) = false) as Hodd.
  { rewrite length_flat, Nat2Z.inj_mul. apply Z.odd_mul. }
  destruct how; simpl in *.
  - destruct A as (kv & H6 & Hk). mstep (load_ok _ _ _ H6). unfold check_explicit_kwds.
    mstep (vector_size_ok _ _ _ V). mstep (vector_size_ok _ _ _ Hk). rewrite Hodd.
    apply (check_each_keyword_ok s _ _ [] opts known).
    + intros kw. apply (find_keyword_1 s _ [] known); [by apply vec_arr|lia].
    + done.
    + rewrite length_flat. lia.
  - destruct A as (kv & specs & H5 & Hk & ->). unfold method_keyword_specifiers.
    mstep (load_ok _ _ _ H5). unfold check_explicit_kwds.
    mstep (vector_size_ok _ _ _ V). mstep (vector_size_ok _ _ _ Hk). rewrite Hodd.
    apply (check_each_keyword_ok s _ _ [] opts specs.*1).
    + intros kw. apply (find_keyword_2 s _ [] specs); [by apply vec_arr|].
      rewrite length_flat. lia.
    + done.
    + rewrite length_flat. lia.
  - unfold check_unrestricted_kwds. mstep (vector_size_ok _ _ _ V). by rewrite Hodd.
Qed.

(** ** The generic function above a node *)

Definition functionp (m : gmap Z Z) (x : Z) : option bool :=
  w ← m !! idx x 0; mask ← m !! idx w 2; Some (negb (Z.land (R mask) 64 =? 0)).

Fixpoint gf_above (m : gmap Z Z) (fuel : nat) (x : Z) : option Z :=
  f ← functionp m x;
  if f : bool then Some x
  else match fuel with
       | O => None
       | S fuel => parent ← m !! idx x 5; gf_above m fuel parent
       end.

Lemma FUNCTIONP_ok s x b : functionp (mem s) x = Some b → FUNCTIONP x s = Ok b s.
Proof.
  unfold functionp, FUNCTIONP. intros E.
  destruct (mem s !! idx x 0) as [w|] eqn:E1; [|done]. simpl in E.
  destruct (mem s !! idx w 2) as [mask|] eqn:E2; [|done]. simpl in E. injection E as <-.
  mstep (load_ok _ _ _ E1). by mstep (load_ok _ _ _ E2).
Qed.

Lemma parent_gf_ok fuel s x gf : gf_above (mem s) fuel x = Some gf → parent_gf fuel x s = Ok gf s.
Proof.
  revert x. induction fuel as [|fuel IH]; intros x E; simpl in *;
    destruct (functionp (mem s) x) as [b|] eqn:F; try done; simpl in E;
    mstep (FUNCTIONP_ok _ _ _ F); destruct b; simplify_eq/=; try done.
  destruct (mem s !! idx x 5) as [parent|] eqn:P; [|done]. simpl in E.
  mstep (load_ok _ _ _ P). by apply IH.
Qed.

Lemma functionp_sub m m' x b : m ⊆ m' → functionp m x = Some b → functionp m' x = Some b.
Proof.
  unfold functionp. intros S E.
  destruct (m !! idx x 0) as [w|] eqn:E1; [|done]. simpl in E.
  destruct (m !! idx w 2) as [mask|] eqn:E2; [|done].
  rewrite (lookup_sub _ _ _ _ S E1). simpl. by rewrite (lookup_sub _ _ _ _ S E2).
Qed.

Lemma gf_above_sub fuel m m' x gf :
  m ⊆ m' → gf_above m fuel x = Some gf → gf_above m' fuel x = Some gf.
Proof.
  intros S. revert x. induction fuel as [|fuel IH]; intros x E; simpl in *;
    destruct (functionp m x) as [b|] eqn:F; try done; simpl in E;
    rewrite (functionp_sub _ _ _ _ S F); simpl; destruct b; try done.
  destruct (m !! idx x 5) as [parent|] eqn:P; [|done]. simpl in E.
  rewrite (lookup_sub _ _ _ _ S P). by apply IH.
Qed.

(** ** Properties *)

(** C1: Calling a generic function of k required arguments through gf_xep_k
    walks its tree of engine nodes (if-type, typecheck and monomorphic
    discriminators, cache headers, single-method nodes): for every tree the
    memory represents and every method the tree selects for the arguments,
    the calls made by the C code reach, in at most depth + 1 steps, the
    method's entry point with the same arguments, the method in
    teb->function and the next methods the tree gives in teb->next_methods. *)
Theorem generic_function_call_dispatches fuel k gf n t args callee nm code s :
  repr (mem s) (length args) t → mem s !! idx gf 6 = Some (root t) →
  n = Z.of_nat (length args) → n <= MAX_ARGUMENTS →
  dispatch (mem s) args gf t = Some (callee, nm) → mem s !! idx callee 3 = Some code →
  ∃ d, (d ≤ S (depth t))%nat ∧
    run fuel (d + k) (addr_of (E_gf_xep (length args))) (gf :: n :: args) s
    = run fuel k code args (entering callee nm s).
Proof.
  intros R He -> Hn D Hc. destruct (repr_entry _ _ _ R) as [ep Hep].
  assert (enter fuel (E_gf_xep (length args)) (gf :: Z.of_nat (length args) :: args) s
          = Ok (Jump ep args) (entering (root t) gf s)) as E.
  { cbn [enter enter_xep]. unfold gf_xep_k. mstep (modify_teb_ok (set_function gf) s).
    set (s1 := with_teb (set_function gf) s).
    mstep (BASIC_REQUIRED_CALL_CHECK_ok s1 gf (length args) Hn).
    mstep (take_all args (length args) s1 eq_refl). unfold gf_iep_k.
    mstep (get_teb_ok s1). unfold generic_function_engine. mstep (load_ok s1 (idx gf 6) _ He).
    mstep (modify_teb_ok (set_next_methods gf) s1).
    set (s2 := with_teb (set_next_methods gf) s1).
    mstep (modify_teb_ok (set_function (root t)) s2).
    set (s3 := with_teb _ s2). unfold engine_entry_point. by mstep (load_ok s3 _ _ Hep). }
  destruct (run_tree fuel k (length args) args callee nm code t eq_refl ep (entering (root t) gf s))
    as (d & Hd & Hr); try done.
  exists (S d). split; [lia|]. simpl Nat.add. rewrite (run_step _ _ _ _ _ _ _ _ E). by rewrite Hr.
Qed.

(** The stack vector in which a keyed node hands the arguments to the error
    function. *)
Lemma stack_args_ok s args :
  wf s → length args < 256 →
  ∃ s', (argvec ← DEF_STACK_VECTOR_INITTED (length args);
         write_words (vector_data argvec) args ;; mret argvec) s = Ok (brk s) s' ∧
    is_vec (mem s') (brk s) args ∧ extends (mem s) (mem s') (brk s) ∧ teb s' = teb s.
Proof.
  intros W Hl. unfold DEF_STACK_VECTOR_INITTED, DEF_STACK_VECTOR, init_stack_vector,
    VECTOR_HEADER_SIZE, vector_size_setter.
  mstep (alloc_words_ok (length args + 2) s ltac:(lia)).
  set (s1 := after_alloc (length args + 2) s).
  assert (mapped (mem s1) (brk s) (length args + 2)) as Hm by (apply mapped_after_alloc; lia).
  assert (is_Some (mem s1 !! brk s)) as H1.
  { destruct (Hm 0) as [x Hx]; [lia|]. rewrite Z.mul_0_r, Z.add_0_r in Hx. eauto. }
  mstep (store_ok _ _ KLsimple_object_vectorGVKdW H1). set (s2 := with_mem _ s1).
  assert (is_Some (mem s2 !! idx (brk s) 1)) as H2.
  { apply (lookup_mset_is_Some _ (brk s) [_]). apply (Hm 1). lia. }
  mstep (store_ok _ _ (I (length args)) H2). set (s3 := with_mem _ s2).
  assert (mapped (mem s3) (vector_data (brk s)) (length args)) as H3.
  { apply (mapped_mset _ (idx (brk s) 1) [_]). apply (mapped_mset _ (brk s) [_]).
    unfold vector_data, idx. apply (mapped_sub _ _ (length args + 2) 2); [done|lia|lia]. }
  mstep (write_words_ok _ _ _ H3). eexists. split_and!; [reflexivity| | |done].
  - split_and!; [|apply arr_mset|lia]. simpl.
    rewrite lookup_mset_out by (unfold vector_data, idx; lia). apply lookup_insert_eq.
  - intros a Ha. simpl. rewrite lookup_mset_out by (unfold vector_data, idx; lia).
    rewrite !lookup_insert_ne by (unfold idx; lia).
    apply lookup_mset_out. intros. lia.
Qed.

Lemma last_snoc_ok {A} (l : list A) x s : lift_option (last (l ++ [x])) s = Ok x s.
Proof. by rewrite last_snoc. Qed.

(** C24: A keyed single-method engine node for up to six required arguments (the
    variadic node for more is not covered), given keywords none of which is
    #f or NULL, enters its method with the arguments unchanged when every
    keyword supplied is one the node's check accepts (explicit: the node's
    vector; implicit: the method's specifiers; unrestricted: any), and
    otherwise signals invalid-keyword with the first unknown keyword, the
    generic function above the node and a vector of all the arguments. (An
    unknown keyword #f is taken for an odd number of arguments.) *)
Theorem keyed_node_checks_keywords fuel how req optionals known opts meth mep data gf s :
  wf s → let e := function (teb s) in
  mem s !! idx e 4 = Some meth → mem s !! idx e 5 = Some data →
  mem s !! idx meth 3 = Some mep →
  accepts (mem s) how meth e known → is_vec (mem s) optionals (flat opts) →
  Forall (λ p, p.1 ≠ NULL ∧ p.1 ≠ DFALSE) opts → (length req ≤ 6)%nat →
  gf_above (mem s) fuel (next_methods (teb s)) = Some gf →
  match rejected how known opts with
  | None => keyed_single_method_engine_k fuel how (length req) (req ++ [optionals]) s
            = Ok (Jump mep (req ++ [optionals])) (entering meth data s)
  | Some kw => ∃ argvec keys implicitp s',
      keyed_single_method_engine_k fuel how (length req) (req ++ [optionals]) s
      = Trap (Invalid_keyword_trap argvec gf e kw keys implicitp) s' ∧
      is_vec (mem s') argvec (req ++ [optionals]) ∧ kw ∈ opts.*1 ∧ kw ∉ known
  end.
Proof.
  intros W e H4 H5 H3 A V Hk Hreq Hgf.
  set (args := req ++ [optionals]).
  assert (length args = length req + 1)%nat as Hargs by (unfold args; rewrite length_app; done).
  unfold keyed_single_method_engine_k. fold args.
  pose proof (CHECK_KEYWORDS_ok s how optionals meth e known opts A V) as C.
  pose proof (take_all args _ s Hargs) as Et.
  replace (Z.of_nat (length req + 1)) with (length req + 1) in Et by lia.
  destruct (rejected_cases how known opts Hk) as [Er|(kw & Er & N1 & N2 & Hin & Hout & Hu)].
  - rewrite Er in C |- *. simpl in C.
    mstep Et. mstep (last_snoc_ok req optionals s). mstep (get_teb_ok s). fold e.
    mstep (load_ok _ _ _ H4). mstep C. simpl.
    mstep (modify_teb_ok (set_function meth) s).
    set (s1 := with_teb (set_function meth) s). mstep (load_ok s1 _ _ H5).
    mstep (modify_teb_ok (set_next_methods data) s1). set (s2 := with_teb _ s1).
    unfold function_mep. by mstep (load_ok s2 _ _ H3).
  - rewrite Er in C |- *. simpl in C.
    destruct (stack_args_ok s args W ltac:(lia)) as (s' & E & V' & X & T).
    assert (mem s' !! idx e 4 = Some meth) as H4' by (by apply (lookup_after s)).
    assert (gf_above (mem s') fuel (next_methods (teb s)) = Some gf) as Hgf'.
    { eapply gf_above_sub; [|done]. apply map_subseteq_spec. intros a x Hx.
      by apply (lookup_after s). }
    assert (∃ keys implicitp, INVALID_KEYWORD how gf (brk s) kw e s'
              = Trap (Invalid_keyword_trap (brk s) gf e kw keys implicitp) s')
      as (keys & implicitp & Ei).
    { unfold INVALID_KEYWORD. rewrite (proj2 (Z.eqb_neq _ _) N2). destruct how; [| |done].
      - destruct A as (kv & H6 & _). exists kv, DFALSE.
        by mstep (load_ok s' (idx e 6) kv (lookup_after s _ _ _ W X H6)).
      - destruct A as (kv & specs & H5' & _). exists kv, DTRUE.
        mstep (load_ok s' (idx e 4) meth H4'). unfold method_keyword_specifiers.
        by mstep (load_ok s' (idx meth 5) kv (lookup_after s _ _ _ W X H5')). }
    exists (brk s), keys, implicitp, s'. split; [|done].
    mstep Et. mstep (last_snoc_ok req optionals s). mstep (get_teb_ok s). fold e.
    mstep (load_ok _ _ _ H4). mstep C. rewrite (proj2 (Z.eqb_neq _ _) N1).
    rewrite Hargs in E. replace (Z.of_nat (length req + 1)) with (length req + 1) in E by lia.
    unfold mbind, M_bind in E |- *.
    destruct (DEF_STACK_VECTOR_INITTED (length req + 1) s) as [v s1| |]; [|done|done].
    destruct (write_words (vector_data v) args s1) as [[] s2| |]; [|done|done].
    injection E as -> ->. rewrite (parent_gf_ok _ _ _ _ Hgf'). exact Ei.
Qed.

End Dispatch.

(** ** Witnesses *)

(** A generic function of two required arguments: an argument whose type check
    (the code at 5000) succeeds goes on to a cache header and a single-method
    node, another to the inapplicable node; the second argument must be an
    instance of a wrapper. *)
Definition dispatch_blocks : blocks :=
  [(65536, [65664; 0; 65728; 0; 0; 0; 65792]);           (* generic function *)
   (65664, [0; 0; I 64]);                                (* its wrapper *)
   (65728, signature_words (sig_sum 2 0 false false false false) NULL);
   (65792, [0; 0; 0; example_addr_of (E_discriminator if_type 1 2); 65920; 66048; 66176]);
   (65920, [0; 5000]);                                   (* type *)
   (66048, [0; 0; 0; example_addr_of (E_cache_header_engine 2); 66304; 65536]);
   (66176, [0; 0; 0; 7000]);                             (* a method *)
   (66304, [0; 0; 0; example_addr_of (E_discriminator monomorphic 2 2); 66433; 66560]);
   (66432, [0; 0; 0]);                                   (* a wrapper *)
   (66560, [0; 0; 0; example_addr_of (E_single_method_engine 2); 66688; 66816]);
   (66688, [0; 0; 0; 7100]);                             (* a method *)
   (66944, [66432]);                                     (* an instance *)
   (67072, vec_words [501; 9]);                          (* optionals *)
   (67200, vec_words [501; 502]);                        (* known keywords *)
   (67328, [0; 0; 0; example_addr_of (E_keyed_single_method_engine explicit 1);
            66688; 66816; 67200]);
   (67456, vec_words [501; 9; 503; 1])].

Definition dispatch_tree : tree :=
  If_type 65792 1 65920
    (Cache_header 66048 (Monomorphic 66304 2 66433 (Single_method 66560 66688 66816)))
    (Leaf 66176).

Ltac eval_repr :=
  lazymatch goal with
  | |- _ ∧ _ => split; eval_repr
  | |- is_Some _ => eexists; eval_mem
  | |- _ = _ => eval_mem
  end.

Example generic_function_call_dispatches_witness :
  let s := example_state dispatch_blocks in
  ∃ d, (d ≤ 5)%nat ∧
    run (H := example_linker) (H0 := example_code) 3 (d + 1)
      (example_addr_of (E_gf_xep 2)) [65536; 2; 5; 66944] s
    = run (H := example_linker) (H0 := example_code) 3 1 7100 [5; 66944]
        (entering 66688 66816 s).
Proof.
  apply (generic_function_call_dispatches (H := example_linker) (H0 := example_code) 3 1
    65536 2 dispatch_tree [5; 66944] 66688 66816 7100 (example_state dispatch_blocks)).
  - cbn [repr dispatch_tree root length]. eval_repr.
  - eval_mem.
  - reflexivity.
  - eval_mem.
  - eval_mem.
  - eval_mem.
Defined.

Example keyed_node_checks_keywords_witness :
  let s := entering 67328 65536 (example_state dispatch_blocks) in
  ∃ argvec keys implicitp s',
    keyed_single_method_engine_k 3 explicit 1 [5; 67456] s
    = Trap (Invalid_keyword_trap argvec 65536 67328 503 keys implicitp) s' ∧
    is_vec (mem s') argvec [5; 67456] ∧ 503 ∈ [501; 503] ∧ 503 ∉ [501; 502].
Proof.
  apply (keyed_node_checks_keywords 3 explicit [5] 67456 [501; 502] [(501, 9); (503, 1)]
    66688 7100 66816 65536 (entering 67328 65536 (example_state dispatch_blocks))).
  - assert (wf (example_state dispatch_blocks)) as W by eval_mem. destruct W; by constructor.
  - eval_mem.
  - eval_mem.
  - eval_mem.
  - exists 67200. split; eval_mem.
  - eval_mem.
  - repeat constructor; done.
  - simpl. lia.
  - eval_mem.
Defined.
