(* ===== verification/Nodes.v ===== *)
(** * Engine nodes: installation, counters and slots

    The entry points the initialisers store, the counter of a profiling cache
    header, the slot access nodes, and the vector a spread node hands to its
    callback. *)

From S2P Require Import Prelude Memory Bytes Tagging Entry Vectors Examples Calls Xeps Engines Dispatch.
From stdpp Require Import base tactics option list numbers gmap.
From Stdlib Require Import ZArith Lia Bool.

Local Open Scope Z_scope.

(** ** Properties words *)

(** A discriminator's properties word: tagged fixnum, entry type, argument
    number, required count, optionals bit (the layout drawn in [run-time.h]). *)
Definition discriminator_properties (etype argnum nreq : Z) (opt : bool) : Z :=
  1 + 4 * etype + 256 * argnum + 65536 * nreq + 16777216 * Z.b2z opt.

Lemma entry_type_eq props : entry_type props = (props / 4) mod 64.
Proof.
  unfold entry_type, EPROPS_M_ENTRY_TYPE, EPROPS_V_ENTRY_TYPE.
  change 252 with ((2 ^ 6 - 1) * 2 ^ 2). rewrite land_mask_shift, Z.shiftr_div_pow2 by lia.
  by rewrite Z.div_mul.
Qed.

Lemma dprops_argnum_eq props : dprops_argnum props = (props / 256) mod 256.
Proof.
  unfold dprops_argnum, DPROPS_M_ARGNUM, DPROPS_V_ARGNUM.
  change 65280 with ((2 ^ 8 - 1) * 2 ^ 8). rewrite land_mask_shift, Z.shiftr_div_pow2 by lia.
  by rewrite Z.div_mul.
Qed.

Lemma dprops_nrequired_eq props : dprops_nrequired props = (props / 65536) mod 256.
Proof.
  unfold dprops_nrequired, DPROPS_M_NREQUIRED, DPROPS_V_NREQUIRED.
  change 16711680 with ((2 ^ 8 - 1) * 2 ^ 16). rewrite land_mask_shift, Z.shiftr_div_pow2 by lia.
  by rewrite Z.div_mul.
Qed.

Lemma dprops_optionals_eq props : dprops_optionals props = (props / 16777216) mod 2.
Proof.
  unfold dprops_optionals, DPROPS_M_OPTIONALS, DPROPS_V_OPTIONALS.
  change 16777216 with (2 ^ 24). rewrite land_bit, Z.shiftr_div_pow2 by lia.
  by rewrite Z.div_mul.
Qed.

Lemma discriminator_properties_fields etype argnum nreq opt :
  0 <= etype < 64 → 0 <= argnum < 256 → 0 <= nreq < 256 →
  let w := discriminator_properties etype argnum nreq opt in
  in_u64 w ∧ s64 w = w ∧ entry_type w = etype ∧ dprops_argnum w = argnum ∧
  dprops_nrequired w = nreq ∧ dprops_optionals w = Z.b2z opt.
Proof.
  intros He Ha Hn w.
  rewrite entry_type_eq, dprops_argnum_eq, dprops_nrequired_eq, dprops_optionals_eq.
  unfold w, discriminator_properties.
  assert (0 <= Z.b2z opt <= 1) by (destruct opt; simpl; lia).
  split_and!; word.
Qed.

(** ** The counter of a profiling cache header

    [count1] and [count2] are boxed 62-bit counters, read here as unsigned. *)

Definition counter (c : Z) : Z := c / 4.
Definition calls_counted (m : gmap Z Z) (e : Z) : option Z :=
  c1 ← m !! idx e 6; c2 ← m !! idx e 7;
  Some (counter c1 + 4611686018427387904 * counter c2).

Definition is_count (c : Z) : Prop := in_u64 c ∧ c mod 4 = 1.

Section Nodes.
Context `{Linker} `{DylanCode}.

Lemma count_call_ok s e c1 c2 :
  mem s !! idx e 6 = Some c1 → mem s !! idx e 7 = Some c2 → is_count c1 → is_count c2 →
  ∃ c1' c2', count_call e s
    = Ok () (with_mem (<[idx e 7 := c2']> (<[idx e 6 := c1']> (mem s))) s) ∧
    is_count c1' ∧ is_count c2' ∧
    counter c1' + 4611686018427387904 * counter c2'
    = (counter c1 + 4611686018427387904 * counter c2 + 1)
      mod 21267647932558653966460912964485513216.
Proof.
  intros H6 H7 [R1 T1] [R2 T2]. unfold count_call. mstep (load_ok _ _ _ H6).
  mstep (store_ok s (idx e 6) (u64 (c1 + 4)) (mk_is_Some _ _ H6)).
  set (s1 := with_mem _ s).
  assert (mem s1 !! idx e 7 = Some c2) as H7'.
  { simpl. rewrite lookup_insert_ne; [done|]. unfold idx. lia. }
  unfold is_count, counter. rewrite I_eq. unfold when.
  destruct (Z.eqb_spec (u64 (c1 + 4)) (u64 (4 * 0) + 1)) as [E|E].
  - exists (u64 (c1 + 4)), (u64 (c2 + 4)). mstep (load_ok _ _ _ H7').
    rewrite (store_ok s1 (idx e 7) _ (mk_is_Some _ _ H7')).
    split_and!; [done|word|word|word|word|word].
  - exists (u64 (c1 + 4)), c2. split_and!; [|word|word|word|word|word].
    rewrite (insert_id _ (idx e 7) c2) by done. done.
Qed.

(** ** Slot nodes *)

Lemma this_slot_index_ok s e props :
  function (teb s) = e → mem s !! idx e 1 = Some props →
  this_slot_index s = Ok (slot_engine_index props) s.
Proof.
  intros <- Hp. unfold this_slot_index, engine_properties. mstep (get_teb_ok s).
  by mstep (load_ok _ _ _ Hp).
Qed.

Lemma primitive_repeated_instance_size_ok s object base n :
  mem s !! slot_address object (base - 1) = Some (I n) → in_fixnum n →
  primitive_repeated_instance_size object base s = Ok n s.
Proof.
  intros Hs Hn. unfold primitive_repeated_instance_size. mstep (load_ok _ _ _ Hs).
  by rewrite R_I_id.
Qed.

Lemma in_range_eq n size :
  in_s32 n → in_s32 size → in_range n size = bool_decide (0 <= n < size).
Proof.
  intros H1' H2'. unfold in_range. rewrite !s32_id by done.
  destruct (decide (0 <= n < size)) as [Hr|Hr].
  - rewrite bool_decide_true by done. lia.
  - rewrite bool_decide_false by done. lia.
Qed.

(** ** Properties *)

(** C29: Setting a slot through the boxed-instance-slot setter node and reading
    it back through a getter node of the same index returns the value set
    (or signals unbound-slot if it is the unbound marker), and no other word
    changes. *)
Theorem boxed_slot_setter_then_getter s nm object newval setter getter props props' old :
  function (teb s) = setter → mem s !! idx setter 1 = Some props →
  mem s !! idx getter 1 = Some props' → slot_engine_index props' = slot_engine_index props →
  let slot := slot_address object (slot_engine_index props) in
  mem s !! slot = Some old → idx getter 1 ≠ slot →
  ∃ s', boxed_instance_slot_setter_engine newval object s = Ok (Return newval) s' ∧
    (∀ a, a ≠ slot → mem s' !! a = mem s !! a) ∧
    boxed_instance_slot_getter_engine object (entering getter nm s')
    = if UNBOUND_P newval
      then Trap (Unbound_instance_slot object (I (slot_engine_index props))) (entering getter nm s')
      else Ok (Return newval) (entering getter nm s').
Proof.
  intros Hf Hp Hp' Hi slot Hold Hne.
  exists (with_mem (<[slot := newval]> (mem s)) s). split_and!.
  - unfold boxed_instance_slot_setter_engine, primitive_slot_value_setter.
    mstep (this_slot_index_ok s setter props Hf Hp).
    by mstep (store_ok s slot newval (mk_is_Some _ _ Hold)).
  - intros a Ha. simpl. by rewrite lookup_insert_ne.
  - set (s1 := entering getter nm _). unfold boxed_instance_slot_getter_engine.
    assert (mem s1 !! idx getter 1 = Some props') as Hg by (simpl; by rewrite lookup_insert_ne).
    mstep (this_slot_index_ok s1 getter props' eq_refl Hg). rewrite Hi. fold slot.
    unfold primitive_initialized_slot_value. fold slot.
    mstep (load_ok s1 slot newval (lookup_insert_eq _ _ _)).
    by destruct (UNBOUND_P newval).
Qed.

(** C30: The repeated-slot getter node returns element n of the repeated slot
    for an index within its size, signals unbound-slot for an unbound
    element, and signals index-out-of-range for every other 32-bit index,
    negative ones included; it never reads outside the slot. *)
Theorem boxed_repeated_getter_checks_bounds s e props object n size vals :
  function (teb s) = e → mem s !! idx e 1 = Some props →
  let base := slot_engine_index props in
  mem s !! slot_address object (base - 1) = Some (I (length vals)) →
  arr (mem s) (slot_address object base) vals →
  size = Z.of_nat (length vals) → in_s32 size → in_s32 n →
  boxed_repeated_instance_slot_getter_engine object (I n) s
  = match (if decide (0 <= n) then vals !! Z.to_nat n else None) with
    | None => Trap (Repeated_slot_getter_index_out_of_range_trap object (I n)) s
    | Some v => if UNBOUND_P v then Trap (Unbound_repeated_slot object (I n)) s
                else Ok (Return v) s
    end.
Proof.
  intros Hf Hp base Hs Ha -> Hsz Hn.
  assert (in_fixnum n ∧ in_fixnum (length vals)) as [Fn Fl].
  { unfold in_fixnum, in_s32 in *. lia. }
  unfold boxed_repeated_instance_slot_getter_engine.
  mstep (this_slot_index_ok s e props Hf Hp). fold base.
  mstep (primitive_repeated_instance_size_ok s object base _ Hs Fl). cbv zeta.
  rewrite R_I_id, in_range_eq by done. rewrite (s32_id n) by done.
  destruct (decide (0 <= n)) as [H0'|H0'].
  - destruct (vals !! Z.to_nat n) as [v|] eqn:Ev.
    + pose proof (lookup_lt_Some _ _ _ Ev). rewrite bool_decide_true by lia.
      apply (arr_lookup _ _ _ _ _ Ha) in Ev. rewrite Z2Nat.id in Ev by lia.
      unfold primitive_repeated_slot_value, slot_address, idx in *.
      replace (object + 8 * (1 + (base + n))) with (object + 8 * (1 + base) + 8 * n) by lia.
      mstep (load_ok _ _ _ Ev). by destruct (UNBOUND_P v).
    + apply lookup_ge_None in Ev. by rewrite bool_decide_false by lia.
  - by rewrite bool_decide_false by lia.
Qed.

(** Writing a byte through the raw-byte repeated-slot setter changes that
    element and no other: reading any element back through the getter gives
    the new byte at that index and the old byte elsewhere, tagged as a
    character. *)
Theorem raw_byte_setter_then_getter s nm object setter getter props props' size i j v wi wj :
  function (teb s) = setter → mem s !! idx setter 1 = Some props →
  mem s !! idx getter 1 = Some props' → slot_engine_index props' = slot_engine_index props →
  let base := slot_engine_index props in
  let byte_address k := slot_address object base + k in
  let word_address a := a - a mod 8 in
  mem s !! slot_address object (base - 1) = Some (I size) → in_s32 size →
  0 <= i < size → 0 <= j < size → 0 <= v < 256 →
  mem s !! word_address (byte_address i) = Some wi →
  mem s !! word_address (byte_address j) = Some wj →
  word_address (byte_address i) ≠ idx getter 1 →
  word_address (byte_address i) ≠ slot_address object (base - 1) →
  ∃ s', raw_byte_repeated_instance_slot_setter_engine (C v) object (I i) s
        = Ok (Return (C v)) s' ∧
    raw_byte_repeated_instance_slot_getter_engine object (I j) (entering getter nm s')
    = Ok (Return (C (if j =? i then v else byte_of wj (byte_address j mod 8))))
         (entering getter nm s').
Proof.
  intros Hf Hp Hp' Hix base byte_address word_address Hs Hsz Hi Hj Hv Hwi Hwj Hne1 Hne2.
  assert (in_fixnum i ∧ in_fixnum j ∧ in_fixnum size ∧ in_fixnum v ∧ in_s32 i ∧ in_s32 j)
    as (Fi & Fj & Fs & Fv & Si & Sj) by (unfold in_fixnum, in_s32 in *; lia).
  assert (R (C v) = v) as Rv by (rewrite C_eq; by apply R_box).
  assert (Z.land (Z.land v 255) 255 = v) as Lv.
  { change 255 with (2 ^ 8 - 1). rewrite !land_mask by lia. zmod. }
  set (s1 := with_mem (<[word_address (byte_address i)
       := set_byte wi (byte_address i mod 8) (Z.land v 255)]> (mem s)) s).
  exists s1. split.
  - unfold raw_byte_repeated_instance_slot_setter_engine.
    mstep (this_slot_index_ok s setter props Hf Hp). fold base.
    mstep (primitive_repeated_instance_size_ok s object base _ Hs Fs). cbv zeta.
    rewrite R_I_id, in_range_eq, bool_decide_true by done.
    unfold primitive_byte_element_setter. rewrite Rv, (s32_id i) by done.
    by mstep (store_byte_ok s _ (Z.land v 255) wi Hwi).
  - set (s2 := entering getter nm s1).
    unfold raw_byte_repeated_instance_slot_getter_engine.
    assert (mem s2 !! idx getter 1 = Some props') as Hg by (simpl; by rewrite lookup_insert_ne).
    assert (mem s2 !! slot_address object (base - 1) = Some (I size)) as Hs'
      by (simpl; by rewrite lookup_insert_ne).
    mstep (this_slot_index_ok s2 getter props' eq_refl Hg). rewrite Hix. fold base.
    mstep (primitive_repeated_instance_size_ok s2 object base _ Hs' Fs). cbv zeta.
    rewrite R_I_id, in_range_eq, bool_decide_true by done. rewrite (s32_id j) by done.
    unfold primitive_byte_element.
    mstep (load_byte_after_store (entering getter nm s) (byte_address i) (Z.land v 255) wi
             (byte_address j) wj Hwi Hwj).
    unfold byte_address at 1 2. rewrite Lv.
    replace (slot_address object base + j =? slot_address object base + i) with (j =? i)
      by (destruct (Z.eqb_spec j i); lia).
    done.
Qed.

(** The profiling cache-header node advances its pair of tagged counters,
    as one 124-bit number, by exactly one per call, and enters the next node
    with the arguments unchanged and itself as the parent. *)
Theorem profiling_header_counts_calls s e nxt code args c1 c2 :
  function (teb s) = e → mem s !! idx e 4 = Some nxt → mem s !! idx nxt 3 = Some code →
  mem s !! idx e 6 = Some c1 → mem s !! idx e 7 = Some c2 → is_count c1 → is_count c2 →
  ∃ c1' c2' s', profiling_cache_header_engine_k (length args) args s = Ok (Jump code args) s' ∧
    mem s' = <[idx e 7 := c2']> (<[idx e 6 := c1']> (mem s)) ∧
    function (teb s') = nxt ∧ next_methods (teb s') = e ∧ is_count c1' ∧ is_count c2' ∧
    counter c1' + 2 ^ 62 * counter c2'
    = (counter c1 + 2 ^ 62 * counter c2 + 1) mod 2 ^ 124.
Proof.
  intros Hf H4 H3 H6 H7 C1 C2.
  set (s1 := with_teb (set_next_methods e) (with_teb (set_function nxt) s)).
  destruct (count_call_ok s1 e c1 c2 H6 H7 C1 C2) as (c1' & c2' & E & C1' & C2' & Hc).
  exists c1', c2', (with_mem (<[idx e 7 := c2']> (<[idx e 6 := c1']> (mem s))) s1).
  split_and!; try done. unfold profiling_cache_header_engine_k.
  mstep (take_all args _ s eq_refl). mstep (get_teb_ok s). rewrite Hf.
  mstep (load_ok _ _ _ H4). unfold engine_entry_point. mstep (load_ok _ _ _ H3).
  mstep (modify_teb_ok (set_function nxt) s).
  mstep (modify_teb_ok (set_next_methods e) (with_teb (set_function nxt) s)).
  fold s1. by mstep E.
Qed.

(** primitive_initialize_discriminator decodes the packed properties and
    installs the discriminating function of the right family for the
    argument position and the number of implementation arguments, or the
    vectored one for more than seven, and writes nothing else. *)
Theorem initialize_discriminator_installs s d etype argnum nreq opt old :
  0 <= etype < 64 → 0 <= nreq < 256 → 0 <= argnum < nreq + Z.b2z opt → argnum < 256 →
  mem s !! idx d 1 = Some (discriminator_properties etype argnum nreq opt) →
  mem s !! idx d 3 = Some old →
  let impargs := nreq + Z.b2z opt in
  let family := if decide (etype = 33) then if_type
                else if decide (etype = 32) then typecheck
                else if decide (etype = 42) then monomorphic else by_callback in
  primitive_initialize_discriminator d s
  = Ok d (with_mem (<[idx d 3 := addr_of
        (if decide (impargs <= 7)
         then E_discriminator family (Z.to_nat argnum + 1) (Z.to_nat impargs)
         else E_discriminator_n_n family)]> (mem s)) s).
Proof.
  intros He Hn Ha Ha' H1' H3' impargs family.
  destruct (discriminator_properties_fields etype argnum nreq opt He ltac:(lia) Hn)
    as (_ & E1 & E2 & E3 & E4 & E5).
  unfold primitive_initialize_discriminator, engine_properties.
  mstep (load_ok _ _ _ H1'). cbv zeta. rewrite E1, E2, E3, E4, E5. fold impargs.
  assert (discriminator_family etype = family) as ->.
  { unfold discriminator_family, family, ENGINE_if_type, ENGINE_typecheck, ENGINE_monomorphic.
    repeat case_decide; subst; try done.
    by rewrite !(proj2 (Z.eqb_neq _ _)) by done. }
  assert (discriminator_handler family argnum impargs
          = Some (if decide (impargs <= 7)
                  then E_discriminator family (Z.to_nat argnum + 1) (Z.to_nat impargs)
                  else E_discriminator_n_n family)) as ->.
  { unfold discriminator_handler. assert (1 <= impargs) by lia.
    rewrite (proj2 (Z.leb_le 1 impargs)) by done.
    destruct (decide (impargs <= 7)) as [H7|H7].
    - rewrite (proj2 (Z.leb_le _ _)) by done. simpl andb. cbv iota.
      destruct (Z.eqb_spec impargs 1) as [E|E].
      + rewrite E. assert (argnum = 0) as -> by lia. done.
      + rewrite (proj2 (Z.ltb_lt _ _)) by lia. do 2 f_equal. lia.
    - rewrite (proj2 (Z.leb_gt _ _)) by lia. done. }
  set (handler := if decide (impargs <= 7) then _ else _).
  mstep (lift_option_ok (Some handler) handler s eq_refl). unfold set_entry_point.
  by mstep (store_ok s (idx d 3) (addr_of handler) (mk_is_Some _ _ H3')).
Qed.

Lemma function_optionals_sig s fn sig p specs :
  is_function (mem s) fn sig p specs →
  signature_optionals_p sig s = Ok (sig_flag OPTIONALS_P_MASK p) s ∧
  signature_number_required sig s = Ok (sig_number_required p) s.
Proof.
  intros F. unfold signature_optionals_p, signature_number_required, signature_properties. split;
    mstep (load_ok _ _ _ (if_properties _ _ _ _ _ F)); by rewrite R_I_id by apply F.
Qed.

(** An unkeyed single-method engine node of at most seven implementation arguments,
    initialised by primitive_initialize_engine_node, has an entry point that, entered with
    the number of arguments its method takes, calls that method with those
    arguments and the node's data as next methods. *)
Theorem initialized_single_method_node_calls fuel k s node meth sig p specs data mep nm args props old :
  is_function (mem s) meth sig p specs → mem s !! idx meth 3 = Some mep →
  mem s !! idx node 1 = Some props → entry_type props = ENGINE_unkeyed_single_method →
  mem s !! idx node 3 = Some old → mem s !! idx node 4 = Some meth →
  mem s !! idx node 5 = Some data → meth ≠ node →
  Z.of_nat (length args)
    = sig_number_required p + Z.b2z (sig_flag OPTIONALS_P_MASK p) → (length args ≤ 7)%nat →
  ∃ s' ep, primitive_initialize_engine_node fuel node s = Ok node s' ∧
    mem s' !! idx node 3 = Some ep ∧
    run fuel (S k) ep args (entering node nm s')
    = run fuel k mep args (entering meth data s').
Proof.
  intros F Hmep H1' Ht H3' H4' H5' Hne Hl H7.
  set (code := addr_of (E_single_method_engine (length args))).
  set (s' := with_mem (<[idx node 3 := code]> (mem s)) s).
  exists s', code. split_and!.
  - unfold primitive_initialize_engine_node, engine_properties. mstep (load_ok _ _ _ H1').
    cbv zeta. rewrite Ht. change (fixed_entry ENGINE_unkeyed_single_method) with (@None entry).
    change (is_single_method ENGINE_unkeyed_single_method) with true. cbv iota.
    mstep (load_ok _ _ _ H4'). mstep (function_signature_ok _ _ _ _ _ F).
    destruct (function_optionals_sig s meth sig p specs F) as [Eo En].
    mstep En. mstep Eo. rewrite <- Hl. unfold single_method_entry. rewrite Z.eqb_refl.
    unfold by_count. rewrite (proj2 (Z.leb_le 0 _)), (proj2 (Z.leb_le _ 7%nat)) by lia.
    simpl andb. cbv iota. rewrite Nat2Z.id. unfold set_entry_point.
    by mstep (store_ok s (idx node 3) code (mk_is_Some _ _ H3')).
  - simpl. apply lookup_insert_eq.
  - set (s1 := entering node nm s').
    assert (repr (mem s1) (length args) (Single_method node meth data)) as Rp.
    { simpl. split_and!; [apply lookup_insert_eq| |];
        by rewrite lookup_insert_ne by (unfold idx; lia). }
    apply run_step. cbn [enter]. unfold single_method_engine_k. simpl in Rp.
    destruct Rp as (R3 & R4 & R5).
    mstep (take_all args _ s1 eq_refl). mstep (get_teb_ok s1). simpl function.
    mstep (load_ok s1 _ _ R4). unfold function_mep.
    assert (mem s1 !! idx meth 3 = Some mep) as Hm.
    { simpl. rewrite lookup_insert_ne; [done|]. unfold idx. lia. }
    mstep (load_ok s1 _ _ Hm). mstep (modify_teb_ok (set_function meth) s1).
    by mstep (load_ok (with_teb (set_function meth) s1) _ _ R5).
Qed.

(** The vector a spread node builds: the required arguments, then the elements
    of the rest vector. *)
Lemma spread_optionals_ok s required req rest opts :
  wf s → arr (mem s) required req → is_vec (mem s) rest opts →
  length (req ++ opts) < 2147483648 →
  ∃ s', spread_optionals (length req) required rest s = Ok (brk s) s' ∧
    is_vec (mem s') (brk s) (req ++ opts) ∧ extends (mem s) (mem s') (brk s) ∧ teb s' = teb s.
Proof.
  intros W Hr Hv Hl. unfold spread_optionals. mstep (vector_size_ok _ _ _ Hv).
  rewrite length_app in Hl.
  unfold DEF_STACK_VECTOR_INITTED, DEF_STACK_VECTOR, init_stack_vector,
    VECTOR_HEADER_SIZE, vector_size_setter.
  set (n := length req + length opts).
  mstep (alloc_words_ok (n + 2) s ltac:(lia)).
  set (s1 := after_alloc (n + 2) s).
  assert (extends (mem s) (mem s1) (brk s)) as X1 by (apply extends_mset; lia).
  assert (mapped (mem s1) (brk s) (n + 2)) as Hm by (apply mapped_after_alloc; lia).
  assert (is_Some (mem s1 !! brk s)) as H1'.
  { destruct (Hm 0) as [x Hx]; [lia|]. rewrite Z.mul_0_r, Z.add_0_r in Hx. eauto. }
  mstep (store_ok _ _ KLsimple_object_vectorGVKdW H1'). set (s2 := with_mem _ s1).
  assert (is_Some (mem s2 !! idx (brk s) 1)) as H2'.
  { apply (lookup_mset_is_Some _ (brk s) [_]). apply (Hm 1). lia. }
  mstep (store_ok _ _ (I n) H2'). set (s3 := with_mem _ s2).
  assert (extends (mem s1) (mem s3) (brk s)) as X3.
  { intros a Ha. simpl. by rewrite !lookup_insert_ne by (unfold idx; lia). }
  assert (extends (mem s) (mem s3) (brk s)) as X by (eapply extends_trans; [done|done|lia]).
  assert (mapped (mem s3) (vector_data (brk s)) n) as H3'.
  { apply (mapped_mset _ (idx (brk s) 1) [_]). apply (mapped_mset _ (brk s) [_]).
    unfold vector_data, idx. apply (mapped_sub _ _ (n + 2) 2); [done|lia|lia]. }
  rewrite !Nat2Z.id. mstep (read_words_ok s3 _ _ (arr_after s _ _ _ W X Hr)).
  assert (mapped (mem s3) (vector_data (brk s)) (length req)) as Hm1.
  { eapply mapped_le; [exact H3'|lia]. }
  mstep (write_words_ok s3 _ _ Hm1). set (s4 := with_mem _ s3).
  assert (extends (mem s3) (mem s4) (brk s)) as X4.
  { apply extends_mset. unfold vector_data, idx. lia. }
  assert (arr (mem s4) (vector_data rest) opts) as Ho.
  { apply (arr_after s); [done| |by apply vec_arr]. eapply extends_trans; [exact X|exact X4|lia]. }
  mstep (read_words_ok s4 _ _ Ho).
  assert (mapped (mem s4) (idx (vector_data (brk s)) (length req)) (length opts)) as Hm2.
  { apply mapped_mset. unfold idx. eapply mapped_sub; [exact H3'|lia|lia]. }
  mstep (write_words_ok s4 _ _ Hm2).
  set (m5 := mset (mem s3) (vector_data (brk s)) (req ++ opts)).
  assert (mset (mem s4) (idx (vector_data (brk s)) (length req)) opts
          = m5) as -> by (unfold m5; by rewrite mset_app).
  exists (with_mem m5 s4). split_and!; [reflexivity| | |done].
  - split_and!; [|apply arr_mset|rewrite length_app; lia]. simpl. unfold m5.
    rewrite lookup_mset_out by (unfold vector_data, idx; lia). simpl.
    rewrite lookup_insert_eq. unfold n. rewrite length_app. do 2 f_equal. lia.
  - eapply extends_trans; [exact X| |reflexivity]. apply extends_mset.
    unfold vector_data, idx. lia.
Qed.

(** general_engine_node_spread_engine, for a generic function with
    optionals, calls the node's callback with one fresh vector of the
    required arguments followed by the elements of the rest vector, the node
    and its parent, and keeps the heap and the thread environment block's
    dispatch fields. *)
Theorem spread_node_flattens_optionals fuel s e parent gf sig p specs cb req rest opts :
  wf s → function (teb s) = e → next_methods (teb s) = parent →
  gf_above (mem s) fuel parent = Some gf → is_function (heap (mem s)) gf sig p specs →
  heap (mem s) !! idx e 2 = Some cb → sig_flag OPTIONALS_P_MASK p = true →
  Z.of_nat (length req) = sig_number_required p → (1 ≤ length req ≤ 6)%nat →
  is_vec (heap (mem s)) rest opts → length opts < 2 ^ 30 →
  ∃ svec s', general_engine_node_spread_engine fuel (req ++ [rest]) s
             = Ok (Jump cb [svec; e; parent]) s' ∧
    is_vec (mem s') svec (req ++ opts) ∧ heap (mem s) ⊆ heap (mem s') ∧ teb s' = teb s.
Proof.
  intros W Hf Hn Hgf F Hcb Hopt Hreq H6 Hv Hlo.
  assert (is_function (mem s) gf sig p specs) as F' by (eapply is_function_sub; [apply heap_sub|done]).
  destruct (function_optionals_sig s gf sig p specs F') as [Eo En].
  destruct req as [|a1 req]; [simpl in H6; lia|].
  set (args := (a1 :: req) ++ [rest]).
  assert (length args = length req + 2)%nat as Hargs by (unfold args; rewrite length_app; simpl; lia).
  set (m1 := mset (mem s) teb_arguments args). set (s1 := with_mem m1 s).
  assert (mapped (mem s) teb_arguments (length args)) as Hm.
  { apply wf_buffer_mapped; [done|by buffer|]. simpl in H6. teb_lia. }
  assert (wf s1) as W1 by (apply wf_mset; [done|done|unfold Pempty_vectorVKi; teb_lia]).
  assert (heap (mem s) ⊆ heap m1) as X1 by (simpl in H6; apply heap_mset; teb_lia).
  pose proof (arr_mset (mem s) teb_arguments args) as Ha. fold m1 in Ha. unfold args in Ha.
  apply arr_app in Ha as [Ha1 Ha2]. apply arr_cons in Ha2 as [Ha2 _].
  assert (is_vec m1 rest opts) as Hv1.
  { eapply vec_sub; [|exact Hv]. etrans; [exact X1|apply heap_sub]. }
  destruct (spread_optionals_ok s1 teb_arguments (a1 :: req) rest opts W1 Ha1 Hv1)
    as (s2 & E2 & V2 & X2 & T2).
  { rewrite length_app. simpl in *. lia. }
  exists (brk s1), s2. split_and!; [|done| |by rewrite T2].
  - unfold general_engine_node_spread_engine. mstep (get_teb_ok s). rewrite Hf, Hn.
    unfold gf_argument_counts. mstep (parent_gf_ok _ _ _ _ Hgf).
    mstep (function_signature_ok _ _ _ _ _ F'). mstep En. mstep Eo. rewrite Hopt.
    unfold engine_callback. mstep (load_ok s (idx e 2) cb (lookup_sub _ _ _ _ (heap_sub _) Hcb)).
    rewrite <- Hreq. change (Z.b2z true) with 1.
    rewrite (proj2 (Z.eqb_neq _ _)) by lia. rewrite (proj2 (Z.ltb_ge 7 _)) by lia.
    cbn [negb].
    mstep (take_args_ok 1 ((a1 :: req) ++ [rest]) s ltac:(simpl; lia)). simpl take. simpl drop.
    assert (mapped (mem s) teb_arguments (length [a1])) as Hm1 by (eapply mapped_le; [exact Hm|simpl; lia]).
    mstep (write_words_ok s teb_arguments [a1] Hm1).
    assert (length (req ++ [rest]) = length (a1 :: req)) as Hlen by (rewrite length_app; simpl; lia).
    assert (mapped (mem (with_mem (mset (mem s) teb_arguments [a1]) s)) (idx teb_arguments 1)
              (length (req ++ [rest]))) as Hm2.
    { apply mapped_mset. unfold idx. eapply mapped_sub; [exact Hm|lia|rewrite Hargs, Hlen; simpl; lia]. }
    pose proof (transfer_varargs_ok _ (req ++ [rest]) _ Hm2) as E1. rewrite Hlen in E1.
    mstep E1. rewrite with_mem_with_mem. change (with_mem _ s) with s1.
    mstep (load_ok s1 (idx teb_arguments (length (a1 :: req))) rest Ha2).
    by mstep E2.
  - etrans; [exact X1|]. apply (heap_extends s1); done.
Qed.

(** ** What modelling showed

    An index that does not fit an [int] is truncated before the bounds check:
    index [2^32 + n] reads element [n]. *)
Lemma repeated_getter_truncates_index s object n :
  in_fixnum n → in_fixnum (n + 2 ^ 32) → in_s32 n →
  ∀ base size vals,
  mem s !! idx (function (teb s)) 1 = Some base →
  mem s !! slot_address object (slot_engine_index base - 1) = Some (I size) → in_fixnum size →
  arr (mem s) (slot_address object (slot_engine_index base)) vals →
  in_range n size = true → (0 <= n < length vals) →
  boxed_repeated_instance_slot_getter_engine object (I (n + 2 ^ 32)) s
  = match vals !! Z.to_nat n with
    | Some v => if UNBOUND_P v then Trap (Unbound_repeated_slot object (I (n + 2 ^ 32))) s
                else Ok (Return v) s
    | None => Fault
    end.
Proof.
  intros Fn Fb Sn base size vals Hp Hs Fs Ha Hr Hn.
  unfold boxed_repeated_instance_slot_getter_engine.
  mstep (this_slot_index_ok s _ base eq_refl Hp).
  mstep (primitive_repeated_instance_size_ok s object _ _ Hs Fs). cbv zeta.
  rewrite R_I_id by done.
  assert (s32 (n + 2 ^ 32) = n) as E by word.
  assert (in_range (n + 2 ^ 32) size = true) as ->.
  { unfold in_range in *. by rewrite E, (s32_id n) in * by done. }
  rewrite E. destruct (lookup_lt_is_Some_2 vals (Z.to_nat n)) as [v Ev]; [lia|].
  rewrite Ev. apply (arr_lookup _ _ _ _ _ Ha) in Ev. rewrite Z2Nat.id in Ev by lia.
  unfold primitive_repeated_slot_value, slot_address, idx in *.
  replace (object + 8 * (1 + (slot_engine_index base + n)))
    with (object + 8 * (1 + slot_engine_index base) + 8 * n) by lia.
  mstep (load_ok _ _ _ Ev). by destruct (UNBOUND_P v).
Qed.

(** The two entry types that share a number share a handler. *)
Lemma hashed_singleton_node_is_monomorphic :
  discriminator_family ENGINE_value_object_hashed_singleton = monomorphic.
Proof. reflexivity. Qed.

(** A cache header with more than seven implementation arguments keeps its old
    entry point. *)
Lemma wide_cache_header_not_enabled s engine gf sig p specs props :
  is_function (mem s) gf sig p specs → mem s !! idx engine 1 = Some props →
  7 < sig_number_required p →
  primitive_enable_cache_header_engine_node engine gf s = Ok engine s.
Proof.
  intros F Hp Hn. unfold primitive_enable_cache_header_engine_node, engine_properties.
  mstep (function_signature_ok _ _ _ _ _ F). mstep (load_ok _ _ _ Hp).
  destruct (function_optionals_sig s gf sig p specs F) as [Eo En].
  mstep En. mstep Eo. rewrite (proj2 (Z.leb_gt _ 7)).
  - by rewrite andb_false_r.
  - destruct (sig_flag OPTIONALS_P_MASK p); simpl; lia.
Qed.

End Nodes.

(** ** Witnesses *)

(** A setter and a getter node for slot 1, an object with two slots, a repeated
    object whose slot 0 holds the size, a byte object, a profiling header whose
    low counter is about to wrap, and a discriminator and a method node that
    have not been initialised. *)
Definition node_blocks : blocks :=
  [(65536, [0; 1 + 65536 * 1; 0; 0]);
   (65600, [0; 5 + 65536 * 1; 0; 0]);
   (65664, [0; 10; 20]);
   (65728, [0; I 3; 30; KPunboundVKi; 32]);
   (65792, [0; I 10; 4407873210513; 99]);
   (65856, [0; 0; 0; 0; 65920; 0; I (-1); I 6]);
   (65920, [0; 0; 0; 7000]);
   (65984, [0; discriminator_properties 33 1 2 true; 0; 0]);
   (66048, [0; 1 + 4 * 2; 0; 0; 66112; 66816; 0]);
   (66112, [0; 0; 66176; 7100]);
   (66176, signature_words (sig_sum 1 0 false false true false) NULL);
   (66240, [0; 0; 7200]);
   (66304, [66368; 0; 66432]);
   (66368, [0; 0; I 64]);
   (66432, signature_words (sig_sum 2 0 false false true false) NULL);
   (66496, vec_words [7; 8; 9])].

Definition in_node (e nm : Z) : state := entering e nm (example_state node_blocks).

Lemma wf_in_node e nm : wf (in_node e nm).
Proof. assert (wf (example_state node_blocks)) as [] by eval_mem. by constructor. Qed.

Example boxed_slot_setter_then_getter_witness :
  ∃ s', boxed_instance_slot_setter_engine 77 65664 (in_node 65536 0) = Ok (Return 77) s' ∧
    (∀ a, a ≠ 65680 → mem s' !! a = mem (in_node 65536 0) !! a) ∧
    boxed_instance_slot_getter_engine 65664 (entering 65600 0 s')
    = Ok (Return 77) (entering 65600 0 s').
Proof.
  apply (boxed_slot_setter_then_getter (in_node 65536 0) 0 65664 77 65536 65600
           (1 + 65536 * 1) (5 + 65536 * 1) 20); try eval_mem.
  vm_compute. discriminate.
Defined.

Example boxed_repeated_getter_checks_bounds_witness :
  boxed_repeated_instance_slot_getter_engine 65728 (I 3) (in_node 65536 0)
  = Trap (Repeated_slot_getter_index_out_of_range_trap 65728 (I 3)) (in_node 65536 0).
Proof.
  apply (boxed_repeated_getter_checks_bounds (in_node 65536 0) 65536 (1 + 65536 * 1) 65728 3 3
           [30; KPunboundVKi; 32]); try eval_mem.
  - vm_compute. split; congruence.
  - vm_compute. split; congruence.
Defined.

Example raw_byte_setter_then_getter_witness :
  ∃ s', raw_byte_repeated_instance_slot_setter_engine (C 200) 65792 (I 8) (in_node 65536 0)
        = Ok (Return (C 200)) s' ∧
    raw_byte_repeated_instance_slot_getter_engine 65792 (I 8) (entering 65600 0 s')
    = Ok (Return (C 200)) (entering 65600 0 s').
Proof.
  apply (raw_byte_setter_then_getter (in_node 65536 0) 0 65792 65536 65600
           (1 + 65536 * 1) (5 + 65536 * 1) 10 8 8 200 99 99); try eval_mem; try lia;
    vm_compute; (discriminate || (split; congruence)).
Defined.

Example profiling_header_counts_calls_witness :
  ∃ c1' c2' s', profiling_cache_header_engine_k 1 [5] (in_node 65856 0) = Ok (Jump 7000 [5]) s' ∧
    mem s' = <[idx 65856 7 := c2']> (<[idx 65856 6 := c1']> (mem (in_node 65856 0))) ∧
    function (teb s') = 65920 ∧ next_methods (teb s') = 65856 ∧
    is_count c1' ∧ is_count c2' ∧
    counter c1' + 2 ^ 62 * counter c2'
    = (counter (I (-1)) + 2 ^ 62 * counter (I 6) + 1) mod 2 ^ 124.
Proof.
  apply (profiling_header_counts_calls (in_node 65856 0) 65856 65920 7000 [5] (I (-1)) (I 6));
    try eval_mem.
  - split; [split|]; vm_compute; congruence.
  - split; [split|]; vm_compute; congruence.
Defined.

Example initialize_discriminator_installs_witness :
  primitive_initialize_discriminator (H := example_linker) 65984 (in_node 0 0)
  = Ok 65984 (with_mem (<[idx 65984 3 := example_addr_of (E_discriminator if_type 2 3)]>
                          (mem (in_node 0 0))) (in_node 0 0)).
Proof.
  apply (initialize_discriminator_installs (H := example_linker) (in_node 0 0) 65984 33 1 2 true 0);
    try lia; eval_mem.
Defined.

Example initialized_single_method_node_calls_witness :
  ∃ s' ep, primitive_initialize_engine_node (H := example_linker) 0 66048 (in_node 0 0)
           = Ok 66048 s' ∧ mem s' !! idx 66048 3 = Some ep ∧
    run (H := example_linker) (H0 := example_code) 0 1 ep [5; 6] (entering 66048 0 s')
    = run (H := example_linker) (H0 := example_code) 0 0 7100 [5; 6] (entering 66112 66816 s').
Proof.
  apply (initialized_single_method_node_calls (H := example_linker) (H0 := example_code) 0 0
    (in_node 0 0) 66048 66112 66176 (sig_sum 1 0 false false true false) NULL 66816 7100 0 [5; 6]
    9 0); try eval_call.
  - discriminate.
  - simpl. lia.
Defined.

Example spread_node_flattens_optionals_witness :
  ∃ svec s', general_engine_node_spread_engine 0 ([5; 6] ++ [66496]) (in_node 66240 66304)
             = Ok (Jump 7200 [svec; 66240; 66304]) s' ∧
    is_vec (mem s') svec [5; 6; 7; 8; 9] ∧
    heap (mem (in_node 66240 66304)) ⊆ heap (mem s') ∧ teb s' = teb (in_node 66240 66304).
Proof.
  apply (spread_node_flattens_optionals 0 (in_node 66240 66304) 66240 66304 66304 66432
    (sig_sum 2 0 false false true false) NULL 7200 [5; 6] 66496 [7; 8; 9]); try eval_call.
  - apply wf_in_node.
  - simpl. lia.
Defined.
