(* ===== verification/Values.v ===== *)
(** * Multiple values, closures and cells

    The multiple-value area of the thread environment block and the operations
    that spill it, restore it and turn it into vectors; closures and their
    environments; value cells ([c-run-time.c], sections MULTIPLE VALUES,
    CLOSURES and PRIMITIVES). *)

From S2P Require Import Prelude Memory Tagging Entry Vectors Examples Calls Xeps.
From stdpp Require Import base tactics option list numbers gmap.
From Stdlib Require Import ZArith Lia Bool.

Local Open Scope Z_scope.

(** ** Multiple values

    An [MV] in memory is a count followed by the values; the one of the
    environment block keeps its count in [return_values_count] and its values
    at [teb_return_values]. *)

Definition return_value (i : Z) : Z := idx teb_return_values i.

Definition MV_GET_ELT (n : Z) : M Z :=
  t ← get_teb;
  if n <? return_values_count t then load (return_value n) else mret DFALSE.
Definition MV_SET_ELT (n t : Z) : M () := store (return_value n) t.
Definition MV_SET_COUNT (n : Z) : M () := modify_teb (set_return_values_count n).

Definition MV_SPILL_into (first_value dest : Z) : M Z :=
  t ← get_teb;
  let n := return_values_count t in
  store (return_value 0) first_value ;;
  copy_loop (idx dest 1) (return_value 0) (Z.to_nat n) ;;
  store dest n ;;
  mret dest.

Definition MV_SPILL (first_value : Z) : M Z :=
  t ← get_teb;
  let n := return_values_count t in
  dest ← primitive_allocate (1 + n);
  MV_SPILL_into first_value dest ;;
  mret dest.

(** The value an expression context sees: the first one, or [#f]. *)
Definition first_return_value : M Z :=
  t ← get_teb;
  if return_values_count t =? 0 then mret DFALSE else load (return_value 0).

Definition MV_UNSPILL (spill_t : Z) : M Z :=
  n ← load spill_t;
  copy_loop (return_value 0) (idx spill_t 1) (Z.to_nat n) ;;
  modify_teb (set_return_values_count n) ;;
  first_return_value.

Definition MV_GET_REST_AT (first_value first : Z) : M Z :=
  t ← get_teb;
  let offset := s32 first in
  let n := return_values_count t - offset in
  store (return_value 0) first_value ;;
  make_vector_from_buffer (if n <? 0 then 0 else n) (return_value offset).

Definition MV_SET_REST_AT (v first : Z) : M Z :=
  size ← vector_size v;
  let offset := s32 first in
  copy_loop (return_value offset) (vector_data v) (Z.to_nat size) ;;
  modify_teb (set_return_values_count (offset + size)) ;;
  first_return_value.

Definition primitive_values (v : Z) : M Z := MV_SET_REST_AT v 0.

Definition MV2_ (x y : Z) : M Z :=
  store (return_value 0) x ;;
  store (return_value 1) y ;;
  modify_teb (set_return_values_count 2) ;;
  mret x.

Definition MV3_ (x y z : Z) : M Z :=
  store (return_value 0) x ;;
  store (return_value 1) y ;;
  store (return_value 2) z ;;
  modify_teb (set_return_values_count 3) ;;
  mret x.

(** ** Closures

    A simple closure: the four words of a method, the boxed size of the
    environment, the environment.  A keyword closure has two more words. *)

Definition simple_closure_words : Z := 5.
Definition keyword_closure_words : Z := 7.

(** [allocate] and the [memcpy] of a schema of [header] words. *)
Definition copy_schema (schema header closure_size : Z) : M Z :=
  fn ← alloc_words (header + closure_size);
  COPY_WORDS fn schema header ;;
  mret fn.

Definition MAKE_CLOSURE (schema closure_size : Z) : M Z :=
  copy_schema schema simple_closure_words closure_size.

Definition set_signature (fn sig : Z) : M () := store (idx fn 2) sig.

Definition MAKE_CLOSURE_SIG (schema sig closure_size : Z) : M Z :=
  fn ← copy_schema schema simple_closure_words closure_size;
  set_signature fn sig ;; mret fn.

Definition init_environment (fn size buf : Z) : M () :=
  when (0 <? size) (COPY_WORDS (idx fn 5) buf size) ;;
  store (idx fn 4) (I size).

Definition INIT_CLOSURE (fn closure_size : Z) (ap : list Z) : M () :=
  transfer_varargs ap closure_size teb_buffer ;;
  init_environment fn closure_size teb_buffer.

Definition MAKE_CLOSURE_INITD (schema closure_size : Z) (ap : list Z) : M Z :=
  fn ← copy_schema schema simple_closure_words closure_size;
  transfer_varargs ap closure_size teb_buffer ;;
  init_environment fn closure_size teb_buffer ;;
  mret fn.

Definition MAKE_CLOSURE_INITD_SIG (schema sig closure_size : Z) (ap : list Z) : M Z :=
  fn ← copy_schema schema simple_closure_words closure_size;
  set_signature fn sig ;;
  transfer_varargs ap closure_size teb_buffer ;;
  init_environment fn closure_size teb_buffer ;;
  mret fn.

Definition MAKE_METHOD_SIG (schema sig : Z) : M Z :=
  fn ← copy_schema schema simple_closure_words 0;
  set_signature fn sig ;; mret fn.

Definition SET_METHOD_SIG (method sig : Z) : M Z := set_signature method sig ;; mret method.

Definition MAKE_KEYWORD_CLOSURE (schema closure_size : Z) : M Z :=
  copy_schema schema keyword_closure_words closure_size.

Definition MAKE_KEYWORD_CLOSURE_SIG (schema sig closure_size : Z) : M Z :=
  fn ← copy_schema schema keyword_closure_words closure_size;
  set_signature fn sig ;; mret fn.

Definition init_keyword_environment (fn size buf : Z) : M () :=
  when (0 <? size) (COPY_WORDS (idx fn 7) buf size) ;;
  store (idx fn 6) (I size).

Definition INIT_KEYWORD_CLOSURE (fn closure_size : Z) (ap : list Z) : M () :=
  transfer_varargs ap closure_size teb_buffer ;;
  init_keyword_environment fn closure_size teb_buffer.

Definition MAKE_KEYWORD_CLOSURE_INITD (schema closure_size : Z) (ap : list Z) : M Z :=
  fn ← copy_schema schema keyword_closure_words closure_size;
  transfer_varargs ap closure_size teb_buffer ;;
  init_keyword_environment fn closure_size teb_buffer ;;
  mret fn.

Definition MAKE_KEYWORD_CLOSURE_INITD_SIG (schema sig closure_size : Z) (ap : list Z) : M Z :=
  fn ← copy_schema schema keyword_closure_words closure_size;
  set_signature fn sig ;;
  transfer_varargs ap closure_size teb_buffer ;;
  init_keyword_environment fn closure_size teb_buffer ;;
  mret fn.

(** A keyword method is a keyword closure without the size word. *)
Definition MAKE_KEYWORD_METHOD_SIG (schema sig : Z) : M Z :=
  fn ← copy_schema schema 6 0;
  set_signature fn sig ;; mret fn.

Definition SET_KEYWORD_METHOD_SIG (method sig : Z) : M Z :=
  set_signature method sig ;; mret method.

(** ** Cells and vectors of arguments *)

Definition MAKE_DYLAN_VALUE_CELL (value : Z) : M Z :=
  cell ← primitive_allocate 1; store cell value ;; mret cell.

(** [primitive_vector(n, ...)], [n] boxed *)
Definition primitive_vector (n : Z) (ap : list Z) : M Z :=
  transfer_varargs ap (s32 (R n)) teb_arguments ;;
  make_vector_from_buffer (s32 (R n)) teb_arguments.

Definition primitive_slot_value (object position : Z) : M Z :=
  slot_value ← load (idx object (1 + position));
  if slot_value =? KPunboundVKi then trap_with (Unbound_instance_slot object (I position))
  else mret slot_value.

Definition SLOT_VALUE (object position : Z) : M Z :=
  slot_value ← load (idx object (1 + position));
  if slot_value =? KPunboundVKi then trap_with (Unbound_instance_slot object (I position))
  else mret slot_value.

Section Values.
Context `{DylanCode}.

(** The checking loops of [MV_CHECK_TYPE_REST]. *)
Fixpoint check_values (a : Z) (types : list Z) : M () :=
  match types with
  | [] => mret ()
  | type :: types =>
    v ← load a;
    PERFORM_INLINE_TYPE_CHECK v type ;;
    check_values (a + 8) types
  end.

Definition MV_CHECK_TYPE_REST (first_value rest_type n : Z) (ap : list Z) : M Z :=
  t ← get_teb;
  let mv_n := return_values_count t in
  spill ← alloc_words (1 + VALUES_MAX);
  MV_SPILL_into first_value spill ;;
  types ← take_args n ap;
  check_values (idx spill 1) types ;;
  check_values (idx (idx spill 1) n) (replicate (Z.to_nat (mv_n - n)) rest_type) ;;
  MV_UNSPILL spill ;;
  mret first_value.

(** ** Spilling and restoring *)

(** The values a continuation sees when the first is [first_value]. *)
Definition with_first (first_value : Z) (vals : list Z) : list Z :=
  match vals with [] => [] | _ :: vals => first_value :: vals end.

Lemma length_with_first f vals : length (with_first f vals) = length vals.
Proof. by destruct vals. Qed.

(** The multiple values of a state. *)
Record returns (s : state) (vals : list Z) : Prop := {
  rt_count : return_values_count (teb s) = length vals;
  rt_max : length vals <= VALUES_MAX;
  rt_values : arr (mem s) (return_value 0) vals
}.

Lemma return_value_0 : return_value 0 = teb_return_values.
Proof. reflexivity. Qed.

Lemma wf_return_value s i : wf s → 0 <= i < VALUES_MAX → is_Some (mem s !! return_value i).
Proof. intros W Hi. by apply (wf_return_values s W). Qed.

(** Replacing the first value. *)
Lemma store_first_ok s f vals :
  wf s → returns s vals →
  ∃ s', store (return_value 0) f s = Ok () s' ∧ returns s' (with_first f vals) ∧ wf s' ∧
    s' = with_mem (mset (mem s) (return_value 0) [f]) s.
Proof.
  intros W [C L A]. pose proof (wf_return_value s 0 W ltac:(done)) as H0'.
  exists (with_mem (mset (mem s) (return_value 0) [f]) s). split_and!; try done.
  - by rewrite store_ok.
  - constructor; simpl; [by rewrite length_with_first|by rewrite length_with_first|].
    destruct vals as [|v vals]; [apply arr_nil|]. simpl. apply arr_cons in A as [_ A].
    apply arr_cons. split; [apply lookup_insert_eq|].
    apply (arr_mset_disjoint _ (return_value 0) [f]); [|done]. intros i j Hi Hj. simpl in Hi. lia.
  - apply wf_mset; [done| |].
    + intros i Hi. simpl in Hi. by replace (return_value 0 + 8 * i) with (return_value 0) by lia.
    + unfold Pempty_vectorVKi, return_value, idx. teb_lia.
Qed.

Lemma MV_SPILL_into_ok s f vals dest :
  wf s → returns s vals → mapped (mem s) dest (length vals + 1) → teb_end <= dest →
  MV_SPILL_into f dest s
  = Ok dest (with_mem (mset (mset (mem s) (return_value 0) [f]) dest
                        (Z.of_nat (length vals) :: with_first f vals)) s).
Proof.
  intros W Rt Hm Hd. unfold MV_SPILL_into. mstep (get_teb_ok s). rewrite (rt_count _ _ Rt).
  destruct (store_first_ok s f vals W Rt) as (s1 & E1 & R1 & W1 & Es1).
  mstep E1. rewrite Nat2Z.id. pose proof (length_with_first f vals) as Hl.
  pose proof (rt_max _ _ Rt).
  assert (mapped (mem s1) dest (length vals + 1)) as Hm1 by (subst s1; by apply mapped_mset).
  assert (mapped (mem s1) (idx dest 1) (length (with_first f vals))) as Hm2.
  { rewrite Hl. unfold idx. eapply mapped_sub; [exact Hm1|lia|lia]. }
  assert (apart (idx dest 1) (length (with_first f vals)) (return_value 0)
            (length (with_first f vals))) as Ap.
  { unfold apart, idx, return_value, idx. rewrite Hl. teb_lia. }
  pose proof (copy_loop_ok s1 (idx dest 1) (return_value 0) _ (rt_values _ _ R1) Hm2 Ap) as E2.
  rewrite Hl in E2. mstep E2. set (s2 := with_mem _ s1).
  assert (is_Some (mem s2 !! dest)) as Hs.
  { apply lookup_mset_is_Some. destruct (Hm1 0) as [x Hx]; [lia|].
    rewrite Z.mul_0_r, Z.add_0_r in Hx. eauto. }
  mstep (store_ok s2 dest (length vals) Hs). unfold mret, M_ret, s2. f_equal. simpl mem.
  rewrite with_mem_with_mem, insert_mset_out by (unfold idx; lia). subst s1. done.
Qed.

Lemma first_return_value_ok s vals :
  returns s vals → first_return_value s = Ok (default DFALSE (head vals)) s.
Proof.
  intros [C L A]. unfold first_return_value. mstep (get_teb_ok s). rewrite C.
  destruct vals as [|v vals]; [done|]. simpl. apply arr_cons in A as [A _]. by apply load_ok.
Qed.

Lemma MV_UNSPILL_ok s d vals :
  wf s → length vals <= VALUES_MAX → teb_end <= d →
  arr (mem s) d (Z.of_nat (length vals) :: vals) →
  ∃ s', MV_UNSPILL d s = Ok (default DFALSE (head vals)) s' ∧ returns s' vals ∧
    s' = with_teb (set_return_values_count (length vals))
           (with_mem (mset (mem s) (return_value 0) vals) s).
Proof.
  intros W Hl Hd A. apply arr_cons in A as [A0 A].
  assert (mapped (mem s) (return_value 0) (length vals)) as Hm.
  { eapply mapped_le; [by apply wf_return_values|done]. }
  set (s' := with_teb _ _). exists s'.
  assert (returns s' vals) as Rt by (constructor; [done|done|apply arr_mset]).
  split_and!; [|done|done]. unfold MV_UNSPILL. mstep (load_ok _ _ _ A0). rewrite Nat2Z.id.
  assert (apart (return_value 0) (length vals) (idx d 1) (length vals)) as Ap.
  { unfold apart, return_value, idx. teb_lia. }
  mstep (copy_loop_ok s (return_value 0) (idx d 1) vals A Hm Ap).
  set (s1 := with_mem _ s).
  mstep (modify_teb_ok (set_return_values_count (length vals)) s1).
  by apply first_return_value_ok.
Qed.

(** Allocating room and spilling into it. *)
Lemma spill_fresh_ok s f vals size :
  wf s → returns s vals → length vals + 1 <= size →
  let m := mset (mset (mem (after_alloc size s)) (return_value 0) [f]) (brk s)
             (Z.of_nat (length vals) :: with_first f vals) in
  let s1 := with_mem m (after_alloc size s) in
  (d ← alloc_words size; MV_SPILL_into f d) s = Ok (brk s) s1 ∧ wf s1 ∧
  arr (mem s1) (brk s) (Z.of_nat (length vals) :: with_first f vals) ∧
  heap (mem s) ⊆ heap (mem s1).
Proof.
  intros W Rt Hsz m s1. pose proof (wf_brk s W) as Hb. pose proof (rt_max _ _ Rt) as Hmax.
  mstep (alloc_words_ok size s ltac:(lia)).
  assert (wf (after_alloc size s)) as Wa.
  { apply (wf_extend s); [done|simpl; lia|apply extends_mset; lia|].
    intros a Ha. simpl in Ha. apply (mset_after_alloc_fresh s size [] a); simpl; [lia|lia|lia|done]. }
  assert (extends (mem s) (mem (after_alloc size s)) (brk s)) as X by (apply extends_mset; lia).
  assert (returns (after_alloc size s) vals) as Ra.
  { destruct Rt as [C L A]. constructor; [done|done|]. by apply (arr_after s). }
  assert (mapped (mem (after_alloc size s)) (brk s) size) as Hm by (apply mapped_after_alloc; lia).
  split_and!.
  - apply MV_SPILL_into_ok; [done|done|eapply mapped_le; [exact Hm|lia]|lia].
  - set (s0 := with_mem (mset (mem (after_alloc size s)) (return_value 0) [f]) (after_alloc size s)).
    apply (wf_mset s0 (brk s) (Z.of_nat (length vals) :: with_first f vals)).
    + apply wf_mset; [done| |unfold Pempty_vectorVKi, return_value, idx; teb_lia].
      intros i Hi. simpl in Hi. replace (return_value 0 + 8 * i) with (return_value 0) by lia.
      by apply wf_return_value.
    + apply (mapped_mset (mem (after_alloc size s)) (return_value 0) [f]).
      eapply mapped_le; [exact Hm|]. simpl. rewrite length_with_first. lia.
    + unfold Pempty_vectorVKi. teb_lia.
  - apply arr_mset.
  - apply map_subseteq_spec. intros a x Hx.
    pose proof (heap_lookup_apart _ (return_value 0) 1 _ _ Hx) as Ap.
    apply lookup_heap in Hx as [Hx Hh]. apply lookup_heap. split; [|done].
    pose proof (wf_below s _ _ W Hx). change (mem s1) with m. unfold m.
    rewrite lookup_mset_out by lia. rewrite lookup_mset_out; [by rewrite X|].
    intros i Hi. simpl in Hi. unfold apart, return_value, idx in *. teb_lia.
Qed.

(** ** Properties *)

(** C31: Spilling the multiple values and restoring them later gives back the
    same values (with the first replaced by the one passed), whatever
    happened to the multiple-value area in between, as long as the spill
    area itself was not written. *)
Theorem mv_spill_unspill s f vals :
  wf s → returns s vals →
  ∃ d s1, MV_SPILL f s = Ok d s1 ∧ heap (mem s) ⊆ heap (mem s1) ∧
    ∀ s2, wf s2 → (∀ i, 0 <= i <= length vals → mem s2 !! idx d i = mem s1 !! idx d i) →
    ∃ s3, MV_UNSPILL d s2 = Ok (default DFALSE (head (with_first f vals))) s3 ∧
      returns s3 (with_first f vals) ∧ heap (mem s2) ⊆ heap (mem s3).
Proof.
  intros W Rt. pose proof (rt_max _ _ Rt) as Hmax. pose proof (wf_brk s W) as Hb.
  destruct (spill_fresh_ok s f vals (1 + length vals) W Rt ltac:(lia)) as (E & W1 & A & X).
  set (s1 := with_mem _ _) in *. exists (brk s), s1. split_and!; [|done|].
  - unfold MV_SPILL, primitive_allocate. mstep (get_teb_ok s). rewrite (rt_count _ _ Rt).
    mstep (alloc_words_ok (1 + length vals) s ltac:(lia)).
    rewrite (bind_ok _ _ _ _ _ (alloc_words_ok (1 + length vals) s ltac:(lia))) in E.
    by mstep E.
  - intros s2 W2 Hs.
    assert (arr (mem s2) (brk s) (Z.of_nat (length vals) :: with_first f vals)) as A2.
    { intros i x Hi. pose proof (lookup_lt_Some _ _ _ Hi) as Hlt. simpl in Hlt.
      rewrite length_with_first in Hlt. unfold idx in Hs. rewrite Hs by lia. by apply A. }
    rewrite <- (length_with_first f vals) in A2.
    destruct (MV_UNSPILL_ok s2 (brk s) (with_first f vals) W2) as (s3 & E3 & R3 & Es3);
      [rewrite length_with_first; lia|lia|done|].
    exists s3. split_and!; [done|done|]. subst s3.
    apply heap_mset; rewrite ?length_with_first; unfold return_value, idx; teb_lia.
Qed.

(** Returning a vector as the rest values from an offset and collecting the
    rest values from the same offset gives a fresh vector with the same
    elements, and the values before the offset are kept. *)
Theorem set_rest_then_get_rest s v l offset f vals :
  wf s → returns s vals → is_vec (heap (mem s)) v l → l ≠ [] →
  1 <= offset <= length vals → offset + length l <= VALUES_MAX →
  ∃ r1 s1 r s2, MV_SET_REST_AT v offset s = Ok r1 s1 ∧
    returns s1 (take (Z.to_nat offset) vals ++ l) ∧
    MV_GET_REST_AT f offset s1 = Ok r s2 ∧ is_vec (mem s2) r l ∧ mem s !! r = None.
Proof.
  intros W [C L A] Hv Hne Ho Hl.
  assert (is_vec (mem s) v l) as Hv' by (eapply vec_sub; [apply heap_sub|done]).
  assert (mapped (mem s) (return_value offset) (length l)) as Hm.
  { unfold return_value, idx. eapply mapped_sub; [by apply wf_return_values|lia|lia]. }
  assert (s32 offset = offset) as Eo by (apply s32_id; unfold in_s32; teb_lia).
  destruct Hv as (_ & Hd & _).
  pose proof (heap_arr_apart _ (return_value offset) (length l) _ _ Hd) as Ap.
  set (m1 := mset (mem s) (return_value offset) l).
  set (s1 := with_teb (set_return_values_count (offset + length l)) (with_mem m1 s)).
  assert (returns s1 (take (Z.to_nat offset) vals ++ l)) as R1.
  { constructor.
    - simpl. rewrite length_app, length_take. lia.
    - rewrite length_app, length_take. lia.
    - apply arr_app. rewrite length_take. split.
      + apply arr_mset_disjoint; [|by apply arr_take]. rewrite length_take.
        intros i j Hi Hj. unfold return_value, idx. lia.
      + replace (return_value 0 + 8 * (Z.to_nat offset `min` length vals)%nat)
          with (return_value offset) by (unfold return_value, idx; lia).
        apply arr_mset. }
  set (s2' := with_mem (mset m1 (return_value 0) [f]) s1).
  assert (wf s1) as W1.
  { assert (wf (with_mem m1 s)) as Wm.
    { apply wf_mset; [done|done|]. unfold Pempty_vectorVKi, return_value, idx. teb_lia. }
    by destruct Wm. }
  assert (wf s2') as W2.
  { apply (wf_mset s1 (return_value 0) [f]); [done| |unfold Pempty_vectorVKi, return_value, idx; teb_lia].
    intros i Hi. simpl in Hi. replace (return_value 0 + 8 * i) with (return_value 0) by lia.
    by apply wf_return_value. }
  assert (arr (mem s2') (return_value offset) l) as A2.
  { apply arr_mset_disjoint; [|apply arr_mset]. intros i j Hi Hj. simpl in Hi.
    unfold return_value, idx. lia. }
  assert (0 < length l) by (destruct l; [done|simpl; lia]).
  destruct (make_vector_from_buffer_ok s2' _ l W2 A2 ltac:(teb_lia)) as (s3 & E3 & F3).
  exists (default DFALSE (head (take (Z.to_nat offset) vals ++ l))), s1, (brk s2'), s3. split_and!.
  - unfold MV_SET_REST_AT. mstep (vector_size_ok _ _ _ Hv'). rewrite Eo, Nat2Z.id.
    mstep (copy_loop_ok s (return_value offset) (vector_data v) l (vec_arr _ _ _ Hv') Hm
             ltac:(apply Ap; unfold return_value, idx; teb_lia)).
    mstep (modify_teb_ok (set_return_values_count (offset + length l)) (with_mem m1 s)).
    fold s1. by apply first_return_value_ok.
  - done.
  - unfold MV_GET_REST_AT. mstep (get_teb_ok s1). rewrite Eo.
    mstep (store_ok s1 (return_value 0) f (wf_return_value s1 0 W1 ltac:(done))).
    change (with_mem _ s1) with s2'. simpl return_values_count.
    replace (offset + length l - offset) with (Z.of_nat (length l)) by lia.
    rewrite (proj2 (Z.ltb_ge _ _)) by lia. exact E3.
  - apply F3.
  - apply (wf_fresh s W). simpl. lia.
Qed.

(** MAKE_CLOSURE_INITD_SIG returns fresh memory that holds the schema's
    header with the new signature, the tagged size and the environment, and
    leaves the heap as it was. *)
Theorem closure_initialised s schema hdr sig env :
  wf s → arr (mem s) schema hdr → length hdr = 5%nat → length env <= MAX_ARGUMENTS →
  ∃ s', MAKE_CLOSURE_INITD_SIG schema sig (length env) env s = Ok (brk s) s' ∧
    arr (mem s') (brk s) (<[4%nat := I (length env)]> (<[2%nat := sig]> hdr) ++ env) ∧
    mem s !! brk s = None ∧ heap (mem s) ⊆ heap (mem s').
Proof.
  intros W Hs Hh Hl. pose proof (wf_brk s W) as Hb. set (fn := brk s).
  set (n := 5 + length env). set (s1 := after_alloc n s).
  assert (extends (mem s) (mem s1) fn) as X1 by (apply extends_mset; unfold fn; lia).
  assert (mapped (mem s1) fn n) as Hm by (apply mapped_after_alloc; lia).
  assert (arr (mem s1) schema hdr) as Hs1 by (by apply (arr_after s)).
  assert (mapped (mem s1) fn (length hdr)) as Hm1 by (eapply mapped_le; [exact Hm|lia]).
  set (s2 := with_mem (mset (mem s1) fn hdr) s1).
  assert (∀ i, 0 <= i < 5 → is_Some (mem s2 !! idx fn i)) as Hf.
  { intros i Hi. apply lookup_mset_is_Some. apply Hm1. lia. }
  set (s3 := with_mem (<[idx fn 2 := sig]> (mem s2)) s2).
  assert (mem s3 = mset (mem s1) fn (<[2%nat := sig]> hdr)) as E3.
  { simpl. unfold idx. apply (insert_mset _ fn hdr 2). lia. }
  assert (∀ a x, mem s !! a = Some x → mem s3 !! a = Some x) as K3.
  { intros a x Ha. pose proof (wf_below s _ _ W Ha). rewrite E3, lookup_mset_out by lia.
    by rewrite X1. }
  assert (mapped (mem s3) teb_buffer (length env)) as Hm3.
  { intros i Hi. destruct (wf_buffer_mapped s teb_buffer (length env) W) with (i := i) as [x Hx];
      [by buffer|done|done|]. eauto. }
  set (s4 := with_mem (mset (mem s3) teb_buffer env) s3).
  assert (mapped (mem s4) (idx fn 5) (length env)) as Hm4.
  { apply mapped_mset. rewrite E3. apply mapped_mset. unfold idx.
    eapply mapped_sub; [exact Hm|lia|lia]. }
  set (s5 := with_mem (mset (mem s4) (idx fn 5) env) s4).
  assert (is_Some (mem s5 !! idx fn 4)) as H4.
  { apply lookup_mset_is_Some, lookup_mset_is_Some. rewrite E3. apply lookup_mset_is_Some.
    apply Hm. lia. }
  set (s6 := with_mem (<[idx fn 4 := I (length env)]> (mem s5)) s5). exists s6. split_and!.
  - unfold MAKE_CLOSURE_INITD_SIG, copy_schema, simple_closure_words, set_signature,
      init_environment. fold n. mstep (alloc_words_ok n s ltac:(lia)). fold s1 fn.
    pose proof (COPY_WORDS_ok s1 fn schema hdr Hs1 Hm1) as E. rewrite Hh in E. mstep E.
    fold s2. mstep (store_ok s2 (idx fn 2) sig (Hf 2 ltac:(lia))). fold s3.
    mstep (transfer_varargs_ok s3 env teb_buffer Hm3). fold s4.
    assert (when (0 <? length env) (COPY_WORDS (idx fn 5) teb_buffer (length env)) s4 = Ok () s5)
      as E5.
    { destruct env as [|v env]; [done|]. unfold when.
      rewrite (proj2 (Z.ltb_lt _ _)) by (simpl; lia). by apply COPY_WORDS_ok; [apply arr_mset|]. }
    mstep E5. by mstep (store_ok s5 (idx fn 4) (I (length env)) H4).
  - apply arr_app. rewrite !length_insert, Hh. split.
    + intros i x Hi. destruct (decide (i = 4%nat)) as [->|Hi4].
      * rewrite list_lookup_insert_eq in Hi by (rewrite length_insert; lia). injection Hi as <-.
        apply lookup_insert_eq.
      * rewrite list_lookup_insert_ne in Hi by done. apply lookup_lt_Some in Hi as Hlt.
        rewrite length_insert, Hh in Hlt. simpl mem. unfold idx.
        rewrite lookup_insert_ne by lia. rewrite lookup_mset_out by lia.
        rewrite lookup_mset_out by (intros; teb_lia).
        pose proof (arr_mset (mem s1) fn (<[2%nat:=sig]> hdr)) as Ar. rewrite <- E3 in Ar.
        by apply Ar.
    + intros i x Hi. simpl mem. rewrite lookup_insert_ne by (unfold idx; lia).
      by apply (arr_mset (mem s4) (idx fn 5) env).
  - apply (wf_fresh s W). unfold fn. lia.
  - apply map_subseteq_spec. intros a x Hx.
    pose proof (heap_lookup_apart _ teb_buffer (length env) _ _ Hx) as Ap.
    apply lookup_heap in Hx as [Hx Hh']. apply lookup_heap. split; [|done].
    pose proof (wf_below s _ _ W Hx). simpl mem. unfold idx.
    rewrite lookup_insert_ne by lia. rewrite lookup_mset_out by lia.
    rewrite lookup_mset_out; [by apply K3|]. unfold apart in Ap. intros. teb_lia.
Qed.

Lemma check_values_ok s a types l :
  arr (mem s) a l → length types = length l → Forall (checkable (mem s)) types →
  check_values a types s = type_check_result s types l.
Proof.
  revert a l. induction types as [|sp types IH]; intros a [|v l] Ha Hl Hc; simplify_eq/=; [done|].
  apply arr_cons in Ha as [H1' H2']. apply Forall_cons in Hc as [Hc1 Hc2].
  mstep (load_ok _ _ _ H1'). unfold type_check_result. simpl.
  pose proof (TYPE_CHECK_ARG_ok s sp v Hc1) as E. unfold TYPE_CHECK_ARG in E.
  unfold mbind, M_bind in E |- *.
  destruct (PERFORM_INLINE_TYPE_CHECK v sp s) as [w s'|t s'|]; destruct (passes (mem s) sp v);
    try done.
  injection E as ->. by apply IH.
Qed.

Lemma first_failure_app m t1 t2 l1 l2 :
  length t1 = length l1 →
  first_failure m (t1 ++ t2) (l1 ++ l2)
  = match first_failure m t1 l1 with None => first_failure m t2 l2 | Some x => Some x end.
Proof.
  revert l1. induction t1 as [|sp t1 IH]; intros [|a l1] Hl; simplify_eq/=; [done|].
  destruct (passes m sp a); [by apply IH|done].
Qed.

(** C32: MV_CHECK_TYPE_REST, when at least as many values are returned as there
    are fixed types, checks every returned value, the first ones against the
    fixed types and the others against the rest type, signals a type error
    for the leftmost failure, and otherwise restores all the values. *)
Theorem check_type_rest_checks_all s f rest_type types vals :
  wf s → returns s vals → (length types ≤ length vals)%nat →
  Forall (checkable (heap (mem s))) (rest_type :: types) →
  let all := types ++ replicate (length vals - length types) rest_type in
  ∃ s1, heap (mem s) ⊆ heap (mem s1) ∧
  match first_failure (mem s1) all (with_first f vals) with
  | Some (a, sp) => MV_CHECK_TYPE_REST f rest_type (length types) types s
                    = Trap (Type_check_error a sp) s1
  | None => ∃ s', MV_CHECK_TYPE_REST f rest_type (length types) types s = Ok f s' ∧
                  returns s' (with_first f vals)
  end.
Proof.
  intros W Rt Hle Hc all. pose proof (rt_max _ _ Rt) as Hmax. pose proof (wf_brk s W) as Hb.
  destruct (spill_fresh_ok s f vals (1 + VALUES_MAX) W Rt ltac:(lia)) as (E & W1 & A & X).
  set (s1 := with_mem _ _) in *. exists s1. split; [done|].
  set (l := with_first f vals) in *.
  assert (length l = length vals) as Hl by apply length_with_first.
  pose proof A as A1. apply arr_cons in A1 as [_ A1].
  assert (Forall (checkable (mem s1)) (rest_type :: types)) as Hc1.
  { eapply Forall_impl; [exact Hc|]. intros sp [->|[code Hcode]]; [by left|right].
    exists code. eapply lookup_sub; [|exact Hcode]. etrans; [exact X|apply heap_sub]. }
  apply Forall_cons in Hc1 as [Hcr Hct].
  set (n := length types). set (rests := replicate (length vals - n) rest_type).
  assert (length (take n l) = n) as Hl1 by (rewrite length_take; lia).
  assert (length rests = length (drop n l)) as Hl2.
  { unfold rests. rewrite length_replicate, length_drop. lia. }
  rewrite <- (take_drop n l) in A1. apply arr_app in A1 as [A1 A2]. rewrite Hl1 in A2.
  pose proof (check_values_ok s1 _ types _ A1 ltac:(lia) Hct) as C1.
  pose proof (check_values_ok s1 _ rests _ A2 Hl2 ltac:(by apply Forall_replicate)) as C2.
  destruct (MV_UNSPILL_ok s1 (brk s) l W1 ltac:(lia) Hb ltac:(by rewrite Hl)) as (s' & Eu & Ru & _).
  assert (MV_CHECK_TYPE_REST f rest_type n types s
          = (check_values (idx (brk s) 1) types ;;
             check_values (idx (brk s) 1 + 8 * n) rests ;;
             MV_UNSPILL (brk s) ;; mret f) s1) as ->.
  { unfold MV_CHECK_TYPE_REST. mstep (get_teb_ok s). rewrite (rt_count _ _ Rt).
    mstep (alloc_words_ok (1 + VALUES_MAX) s ltac:(teb_lia)).
    rewrite (bind_ok _ _ _ _ _ (alloc_words_ok (1 + VALUES_MAX) s ltac:(teb_lia))) in E. mstep E.
    mstep (take_args_ok n types s1 (le_n _)). rewrite take_ge by done.
    replace (Z.to_nat (length vals - n)) with (length vals - n)%nat by lia. done. }
  rewrite <- (take_drop n l). unfold all. fold n rests. rewrite first_failure_app by done.
  unfold type_check_result in C1, C2.
  destruct (first_failure (mem s1) types (take n l)) as [[a sp]|]; [by apply bind_trap|].
  destruct (first_failure (mem s1) rests (drop n l)) as [[a sp]|].
  - mstep C1. by apply bind_trap.
  - exists s'. split; [|by rewrite take_drop]. mstep C1. mstep C2. by mstep Eu.
Qed.

End Values.

(** ** Witnesses *)

(** Three values, a vector of two, a closure schema, two types. *)
Definition value_blocks : blocks :=
  [(teb_end, [0]);
   (65536, vec_words [8; 9]);
   (65600, [11; 12; 13; 14; 15]);
   (65664, [0; 5000]);
   (65728, [0; 6000])].

Definition value_state : state :=
  let s := example_state value_blocks in
  with_teb (set_return_values_count 3) (with_mem (mset (mem s) (return_value 0) [1; 2; 3]) s).

Lemma wf_value_state : wf value_state.
Proof.
  assert (wf (example_state value_blocks)) as W by eval_mem.
  assert (wf (with_mem (mset (mem (example_state value_blocks)) (return_value 0) [1; 2; 3])
                (example_state value_blocks))) as W'.
  { apply wf_mset; [done| |vm_compute; congruence].
    eapply mapped_le; [by apply wf_return_values|vm_compute; congruence]. }
  destruct W'. constructor; assumption.
Qed.

Lemma returns_value_state : returns value_state [1; 2; 3].
Proof.
  constructor; [reflexivity|vm_compute; congruence|].
  unfold value_state. cbn [mem with_teb with_mem]. apply arr_mset.
Qed.

Example mv_spill_unspill_witness :
  ∃ d s1, MV_SPILL 7 value_state = Ok d s1 ∧ heap (mem value_state) ⊆ heap (mem s1) ∧
    ∀ s2, wf s2 → (∀ i, 0 <= i <= 3%nat → mem s2 !! idx d i = mem s1 !! idx d i) →
    ∃ s3, MV_UNSPILL d s2 = Ok 7 s3 ∧ returns s3 [7; 2; 3] ∧ heap (mem s2) ⊆ heap (mem s3).
Proof. apply (mv_spill_unspill value_state 7 [1; 2; 3] wf_value_state returns_value_state). Defined.

Example set_rest_then_get_rest_witness :
  ∃ r1 s1 r s2, MV_SET_REST_AT 65536 2 value_state = Ok r1 s1 ∧
    returns s1 [1; 2; 8; 9] ∧ MV_GET_REST_AT 5 2 s1 = Ok r s2 ∧
    is_vec (mem s2) r [8; 9] ∧ mem value_state !! r = None.
Proof.
  apply (set_rest_then_get_rest value_state 65536 [8; 9] 2 5 [1; 2; 3] wf_value_state
           returns_value_state).
  - apply is_vecb_true. vm_compute. reflexivity.
  - done.
  - simpl. lia.
  - vm_compute. congruence.
Defined.

Example closure_initialised_witness :
  ∃ s', MAKE_CLOSURE_INITD_SIG 65600 77 2%nat [21; 22] value_state = Ok (brk value_state) s' ∧
    arr (mem s') (brk value_state) [11; 12; 77; 14; I 2; 21; 22] ∧
    mem value_state !! brk value_state = None ∧ heap (mem value_state) ⊆ heap (mem s').
Proof.
  apply (closure_initialised value_state 65600 [11; 12; 13; 14; 15] 77 [21; 22] wf_value_state).
  - apply arrb_true. vm_compute. reflexivity.
  - done.
  - vm_compute. congruence.
Defined.

Example check_type_rest_checks_all_witness :
  ∃ s1, heap (mem value_state) ⊆ heap (mem s1) ∧
  match first_failure (H := example_code) (mem s1) [65664; LobjectGVKd; LobjectGVKd] [7; 2; 3] with
  | Some (a, sp) => MV_CHECK_TYPE_REST (H := example_code) 7 LobjectGVKd 1%nat [65664] value_state
                    = Trap (Type_check_error a sp) s1
  | None => ∃ s', MV_CHECK_TYPE_REST (H := example_code) 7 LobjectGVKd 1%nat [65664] value_state
                  = Ok 7 s' ∧ returns s' [7; 2; 3]
  end.
Proof.
  apply (check_type_rest_checks_all (H := example_code) value_state 7 LobjectGVKd [65664]
           [1; 2; 3] wf_value_state returns_value_state).
  - simpl. lia.
  - constructor; [by left|]. constructor; [|constructor]. right. exists 5000.
    vm_compute. reflexivity.
Defined.
