(* ===== verification/MachineWord.v ===== *)
(** * Machine-word arithmetic

    The machine-word primitives ([c-primitives-math.c] and the macros of
    [run-time.h]), for the x86_64 build: [DMINT] is a signed and [DUMINT] an
    unsigned 64-bit integer, and [NO_LONGLONG] is defined.  A [DMINT] is its
    signed value.  Signed overflow, division by zero or of the least integer by
    -1, and a shift count outside 0 to 63 are undefined behaviour ([Fault]);
    unsigned arithmetic wraps, and so does [<<] on a signed operand, as GCC and
    Clang define it. *)

From S2P Require Import Prelude Memory Tagging Vectors Examples Values.
From stdpp Require Import base tactics option list numbers gmap.
From Stdlib Require Import ZArith Lia Bool.

Local Open Scope Z_scope.

(** ** C arithmetic *)

(** The result of a signed operation, if it is representable. *)
Definition checked (z : Z) : option Z := if decide (in_s64 z) then Some z else None.

Definition LONG_BIT : Z := 64.
Definition WORD_BIT : Z := 32.
Definition LOHALF (x : Z) : Z := Z.land x 4294967295.
Definition HIHALF (x : Z) : Z := Z.shiftr (Z.land (u64 x) 18446744069414584320) 32.

(** [ldiv] and [labs] of the C library. *)
Definition ldiv (x y : Z) : option (Z * Z) :=
  if y =? 0 then None else q ← checked (Z.quot x y); Some (q, Z.rem x y).
Definition labs (x : Z) : option Z := checked (Z.abs x).

(** Unsigned shifts. *)
Definition shift_ok (k : Z) : bool := (0 <=? k) && (k <? LONG_BIT).
Definition shl (x k : Z) : option Z := if shift_ok k then Some (u64 (Z.shiftl (u64 x) k)) else None.
Definition shr (x k : Z) : option Z := if shift_ok k then Some (Z.shiftr (u64 x) k) else None.

(** ** Returning several values *)

Definition MV2 (x y : Z) : M Z := r ← MV2_ (u64 x) (u64 y); mret (s64 r).
Definition MV2U (x y : Z) : M Z := r ← MV2_ (u64 x) (u64 y); mret (u64 r).
Definition MV3 (x y z : Z) : M Z := r ← MV3_ (u64 x) (u64 y) (u64 z); mret (s64 r).

Definition MV2_byref_ (x v y : Z) : M Z := store v (u64 y) ;; mret x.
Definition MV3_byref_ (x v1 y v2 z : Z) : M Z :=
  store v1 (u64 y) ;; store v2 (u64 z) ;; mret x.
Definition MV2_byref (x v y : Z) : M Z := r ← MV2_byref_ (u64 x) v y; mret (s64 r).
Definition MV3_byref (x v1 y v2 z : Z) : M Z := r ← MV3_byref_ (u64 x) v1 y v2 z; mret (s64 r).

(** ** Division

    The corrections that turn truncating division into the other roundings, on
    a quotient and a remainder. *)

Definition floor_adjust (y : Z) (z : Z * Z) : option (Z * Z) :=
  let '(q, r) := z in
  if negb (r =? 0) && (if y <? 0 then 0 <? r else r <? 0)
  then q' ← checked (q - 1); r' ← checked (r + y); Some (q', r')
  else Some (q, r).

Definition ceiling_adjust (y : Z) (z : Z * Z) : option (Z * Z) :=
  let '(q, r) := z in
  if negb (r =? 0) && (if y <? 0 then r <? 0 else 0 <? r)
  then q' ← checked (q + 1); r' ← checked (r - y); Some (q', r')
  else Some (q, r).

Definition round_adjust (y : Z) (z : Z * Z) : option (Z * Z) :=
  let '(q, r) := z in
  a ← labs y;
  let threshold := Z.quot a 2 in
  let up := q' ← checked (q + 1); r' ← checked (r - y); Some (q', r') in
  let down := q' ← checked (q - 1); r' ← checked (r + y); Some (q', r') in
  if (threshold <? r) || ((r =? threshold) && Z.odd q)
  then (if y <? 0 then down else up)
  else if (r <? - threshold) || ((r =? - threshold) && Z.odd q)
  then (if y <? 0 then up else down)
  else Some (q, r).

Definition truncate_adjust (y : Z) (z : Z * Z) : option (Z * Z) := Some z.

(** [divide_double]: only the low half of each word of the dividend is used. *)
Definition divide_double (xl xh y : Z) : option (Z * Z) :=
  let dividend := s64 (s64 (Z.shiftl (LOHALF xh) WORD_BIT) + LOHALF xl) in
  if y =? 0 then None
  else
    q ← checked (Z.quot dividend y);
    let r := Z.rem dividend y in
    if (xh <? 0) && (0 <? xl)
    then q' ← checked (- q); r' ← checked (- r); Some (q', r')
    else Some (q, r).

Definition unsigned_divide_double (xl xh y : Z) : option (Z * Z) :=
  let dividend := u64 (u64 (Z.shiftl (LOHALF xh) WORD_BIT) + LOHALF xl) in
  let divisor := u64 y in
  if divisor =? 0 then None else Some (dividend / divisor, dividend mod divisor).


Definition primitive_machine_word_divide (x y : Z) : M Z :=
  '(q, r) ← lift_option (ldiv x y); MV2 q r.

Definition primitive_machine_word_floorS_quotient (x y : Z) : M Z :=
  '(q, _) ← lift_option (ldiv x y ≫= floor_adjust y); mret q.

Definition primitive_machine_word_floorS_remainder (x y : Z) : M Z :=
  '(_, r) ← lift_option (ldiv x y ≫= floor_adjust y); mret r.

Definition primitive_machine_word_floorS (x y : Z) : M Z :=
  '(q, r) ← lift_option (ldiv x y ≫= floor_adjust y); MV2 q r.

Definition primitive_machine_word_ceilingS_quotient (x y : Z) : M Z :=
  '(q, _) ← lift_option (ldiv x y ≫= ceiling_adjust y); mret q.

Definition primitive_machine_word_ceilingS_remainder (x y : Z) : M Z :=
  '(_, r) ← lift_option (ldiv x y ≫= ceiling_adjust y); mret r.

Definition primitive_machine_word_ceilingS (x y : Z) : M Z :=
  '(q, r) ← lift_option (ldiv x y ≫= ceiling_adjust y); MV2 q r.

Definition primitive_machine_word_roundS_quotient (x y : Z) : M Z :=
  '(q, _) ← lift_option (ldiv x y ≫= round_adjust y); mret q.

Definition primitive_machine_word_roundS_remainder (x y : Z) : M Z :=
  '(_, r) ← lift_option (ldiv x y ≫= round_adjust y); mret r.

Definition primitive_machine_word_roundS (x y : Z) : M Z :=
  '(q, r) ← lift_option (ldiv x y ≫= round_adjust y); MV2 q r.

Definition primitive_machine_word_truncateS_quotient (x y : Z) : M Z :=
  '(q, _) ← lift_option (ldiv x y ≫= truncate_adjust y); mret q.

Definition primitive_machine_word_truncateS_remainder (x y : Z) : M Z :=
  '(_, r) ← lift_option (ldiv x y ≫= truncate_adjust y); mret r.

Definition primitive_machine_word_truncateS (x y : Z) : M Z :=
  '(q, r) ← lift_option (ldiv x y ≫= truncate_adjust y); MV2 q r.

Definition primitive_machine_word_double_floorS_quotient (xl xh y : Z) : M Z :=
  '(q, _) ← lift_option (divide_double xl xh y ≫= floor_adjust y); mret q.

Definition primitive_machine_word_double_floorS_remainder (xl xh y : Z) : M Z :=
  '(_, r) ← lift_option (divide_double xl xh y ≫= floor_adjust y); mret r.

Definition primitive_machine_word_double_floorS (xl xh y : Z) : M Z :=
  '(q, r) ← lift_option (divide_double xl xh y ≫= floor_adjust y); MV2 q r.

Definition primitive_machine_word_double_ceilingS_quotient (xl xh y : Z) : M Z :=
  '(q, _) ← lift_option (divide_double xl xh y ≫= ceiling_adjust y); mret q.

Definition primitive_machine_word_double_ceilingS_remainder (xl xh y : Z) : M Z :=
  '(_, r) ← lift_option (divide_double xl xh y ≫= ceiling_adjust y); mret r.

Definition primitive_machine_word_double_ceilingS (xl xh y : Z) : M Z :=
  '(q, r) ← lift_option (divide_double xl xh y ≫= ceiling_adjust y); MV2 q r.

Definition primitive_machine_word_double_roundS_quotient (xl xh y : Z) : M Z :=
  '(q, _) ← lift_option (divide_double xl xh y ≫= round_adjust y); mret q.

Definition primitive_machine_word_double_roundS_remainder (xl xh y : Z) : M Z :=
  '(_, r) ← lift_option (divide_double xl xh y ≫= round_adjust y); mret r.

Definition primitive_machine_word_double_roundS (xl xh y : Z) : M Z :=
  '(q, r) ← lift_option (divide_double xl xh y ≫= round_adjust y); MV2 q r.

Definition primitive_machine_word_double_truncateS_quotient (xl xh y : Z) : M Z :=
  '(q, _) ← lift_option (divide_double xl xh y ≫= truncate_adjust y); mret q.

Definition primitive_machine_word_double_truncateS_remainder (xl xh y : Z) : M Z :=
  '(_, r) ← lift_option (divide_double xl xh y ≫= truncate_adjust y); mret r.

Definition primitive_machine_word_double_truncateS (xl xh y : Z) : M Z :=
  '(q, r) ← lift_option (divide_double xl xh y ≫= truncate_adjust y); MV2 q r.

Definition primitive_machine_word_double_divide_quotient (xl xh y : Z) : M Z :=
  '(q, _) ← lift_option (divide_double xl xh y ≫= truncate_adjust y); mret q.

Definition primitive_machine_word_double_divide_remainder (xl xh y : Z) : M Z :=
  '(_, r) ← lift_option (divide_double xl xh y ≫= truncate_adjust y); mret r.

Definition primitive_machine_word_double_divide (xl xh y : Z) : M Z :=
  '(q, r) ← lift_option (divide_double xl xh y ≫= truncate_adjust y); MV2 q r.

(** ** Counting zeros, for compilers without the built-ins *)

Definition low_zeros_table (i : Z) : Z :=
  nth (Z.to_nat i) [4; 0; 1; 0; 2; 0; 1; 0; 3; 0; 1; 0; 2; 0; 1; 0] 0.
Definition high_zeros_table (i : Z) : Z :=
  nth (Z.to_nat i) [4; 3; 2; 2; 1; 1; 1; 1; 0; 0; 0; 0; 0; 0; 0; 0] 0.

(** The scan for a non-zero low nibble; sixteen steps reach it if the word is
    not zero. *)
Fixpoint scan_low_nibble (steps : nat) (x count : Z) : option (Z * Z) :=
  let index := Z.land 15 x in
  if negb (index =? 0) then Some (count, index)
  else match steps with
       | O => None
       | S steps => scan_low_nibble steps (Z.shiftr x 4) (count + 4)
       end.

Fixpoint scan_high_nibble (steps : nat) (ux count : Z) : option (Z * Z) :=
  let uindex := Z.land 17293822569102704640 ux in
  if negb (uindex =? 0) then Some (count, Z.shiftr uindex 60)
  else match steps with
       | O => None
       | S steps => scan_high_nibble steps (u64 (Z.shiftl ux 4)) (count + 4)
       end.

Definition primitive_machine_word_count_low_zeros (x : Z) : M Z :=
  if x =? 0 then mret 64
  else
    '(count, index) ← lift_option (scan_low_nibble 16 x 0);
    mret (count + low_zeros_table index).

Definition primitive_machine_word_count_high_zeros (x : Z) : M Z :=
  if x =? 0 then mret 64
  else
    '(count, index) ← lift_option (scan_high_nibble 16 (u64 x) 0);
    mret (count + high_zeros_table index).

(** ** Multiplication and overflow *)

Definition multiply_double (x y : Z) : Z * Z :=
  let xl := LOHALF (u64 x) in
  let xh := HIHALF x in
  let yl := LOHALF (u64 y) in
  let yh := HIHALF y in
  let zll := u64 (xl * yl) in
  let zlh := u64 (xl * yh) in
  let zhl := u64 (xh * yl) in
  let zhh := u64 (xh * yh) in
  (u64 (zll + u64 (Z.shiftl (u64 (LOHALF zlh + LOHALF zhl)) WORD_BIT)),
   u64 (zhh + HIHALF zlh + HIHALF zhl)).

(** The overflow flags the primitives compute. *)
Definition add_flag (x y r : Z) : bool := (0 <=? Z.lxor x y) && (Z.lxor r x <? 0).
Definition subtract_flag (x y r : Z) : bool := (Z.lxor x y <? 0) && (Z.lxor r x <? 0).
Definition multiply_flag (x y rh : Z) : bool :=
  if Z.lxor x y <? 0 then 0 <=? s64 rh else s64 rh <? 0.
Definition multiply_low_flag (x y r : Z) : option bool :=
  if (if Z.lxor x y <? 0 then 0 <=? r else r <? 0) then Some true
  else
    ar ← labs r; ax ← labs x;
    if ar <? ax then Some true else ay ← labs y; Some (ar <? ay).

(** [primitive_machine_word_shift_left_low] *)
Definition shift_left_low (x i : Z) : option Z :=
  if shift_ok i then Some (s64 (Z.shiftl x i)) else None.

Definition primitive_machine_word_add_with_overflow (x y : Z) : M Z :=
  let r := s64 (u64 x + u64 y) in
  MV2 r (RAWASBOOL (add_flag x y r)).

Definition primitive_machine_word_subtract_with_overflow (x y : Z) : M Z :=
  let r := s64 (u64 x - u64 y) in
  MV2 r (RAWASBOOL (subtract_flag x y r)).

Definition primitive_machine_word_multiply_with_overflow (x y : Z) : M Z :=
  let '(rl, rh) := multiply_double x y in
  MV3 rl rh (RAWASBOOL (multiply_flag x y rh)).

Definition primitive_machine_word_negative_with_overflow (x : Z) : M Z :=
  r ← lift_option (checked (- x));
  MV2 r (RAWASBOOL ((x <? 0) && (r <=? 0))).

Definition primitive_machine_word_abs_with_overflow (x : Z) : M Z :=
  r ← lift_option (labs x);
  MV2 r (RAWASBOOL ((x <? 0) && (r <=? 0))).

Definition primitive_machine_word_shift_left_with_overflow (x y : Z) : M Z :=
  r ← lift_option (shift_left_low x y);
  MV2 r 0.

Definition primitive_machine_word_multiply_high (x y : Z) : M Z :=
  mret (s64 (multiply_double x y).2).

Definition primitive_machine_word_multiply_lowShigh (x y : Z) : M Z :=
  let '(zl, zh) := multiply_double x y in MV2 zl zh.

Definition primitive_machine_word_multiply_low_with_overflow (x y : Z) : M Z :=
  r ← lift_option (checked (x * y));
  b ← lift_option (multiply_low_flag x y r);
  MV2 r (RAWASBOOL b).

(** ** Unsigned operations *)

Definition unsigned_add_carry (x y : Z) : Z :=
  let ux := u64 x in
  let uy := u64 y in
  let bbc := if Z.odd ux && Z.odd uy then 1 else 0 in
  if s64 (u64 (u64 (Z.shiftr ux 1 + Z.shiftr uy 1) + bbc)) <? 0 then 1 else 0.

Definition primitive_machine_word_unsigned_add_with_carry (x y : Z) : M Z :=
  MV2 (u64 (u64 x + u64 y)) (unsigned_add_carry x y).

Definition primitive_machine_word_unsigned_subtract_with_borrow (x y : Z) : M Z :=
  MV2 (u64 (u64 x - u64 y)) (if u64 x <? u64 y then 1 else 0).

Definition primitive_machine_word_unsigned_multiply_high (x y : Z) : M Z :=
  mret (s64 (multiply_double x y).2).

Definition primitive_machine_word_unsigned_multiply (x y : Z) : M Z :=
  let '(zl, zh) := multiply_double x y in MV2 zl zh.

Definition primitive_machine_word_unsigned_divide (x y : Z) : M Z :=
  '(q, r) ← lift_option (unsigned_divide_double x (if x <? 0 then -1 else 0) y);
  MV2 q r.

Definition primitive_machine_word_unsigned_rotate_left (x y : Z) : M Z :=
  low ← lift_option (shr x (LONG_BIT - y));
  high ← lift_option (shl x y);
  mret (s64 (Z.lor low high)).

Definition primitive_machine_word_unsigned_rotate_right (x y : Z) : M Z :=
  high ← lift_option (shl x (LONG_BIT - y));
  low ← lift_option (shr x y);
  mret (s64 (Z.lor low high)).

Definition primitive_machine_word_unsigned_double_divide_quotient (xl xh y : Z) : M Z :=
  '(q, _) ← lift_option (unsigned_divide_double xl xh y); mret (s64 q).

Definition primitive_machine_word_unsigned_double_divide_remainder (xl xh y : Z) : M Z :=
  '(_, r) ← lift_option (unsigned_divide_double xl xh y); mret (s64 r).

Definition primitive_machine_word_unsigned_double_divide (xl xh y : Z) : M Z :=
  '(q, r) ← lift_option (unsigned_divide_double xl xh y); MV2 q r.

Definition primitive_machine_word_unsigned_shift_left_high (x y : Z) : M Z :=
  h ← lift_option (shr x (LONG_BIT - y)); mret (s64 h).

(** The high word of a double shift to the left, the low word of one to the
    right. *)
Definition double_left_high (xl xh y : Z) : option Z :=
  lowpart ← shr xl (LONG_BIT - y); highpart ← shl xh y; Some (Z.lor lowpart highpart).

Definition double_right_low (xl xh y : Z) : option Z :=
  lowpart ← shr xl y; highpart ← shl xh (LONG_BIT - y); Some (Z.lor lowpart highpart).

Definition primitive_machine_word_unsigned_double_shift_left_high (xl xh y : Z) : M Z :=
  h ← lift_option (double_left_high xl xh y); mret (s64 h).

Definition primitive_machine_word_unsigned_double_shift_left (xl xh y : Z) : M Z :=
  h ← lift_option (double_left_high xl xh y);
  l ← lift_option (shl xl y);
  MV2 l h.

Definition primitive_machine_word_unsigned_double_shift_right_low (xl xh y : Z) : M Z :=
  l ← lift_option (double_right_low xl xh y); mret (s64 l).

Definition primitive_machine_word_unsigned_double_shift_right_high (xl xh y : Z) : M Z :=
  h ← lift_option (shr xh y); mret (s64 h).

Definition primitive_machine_word_unsigned_double_shift_right (xl xh y : Z) : M Z :=
  l ← lift_option (double_right_low xl xh y);
  h ← lift_option (shr xh y);
  MV2 l h.

(** ** The variants that return their other values by reference

    The first value is returned, the others are stored through pointers. *)

Definition primitive_machine_word_divide_byref (x y v2 : Z) : M Z :=
  '(q, r) ← lift_option (ldiv x y); MV2_byref q v2 r.

Definition primitive_machine_word_floorS_byref (x y v2 : Z) : M Z :=
  '(q, r) ← lift_option (ldiv x y ≫= floor_adjust y); MV2_byref q v2 r.

Definition primitive_machine_word_ceilingS_byref (x y v2 : Z) : M Z :=
  '(q, r) ← lift_option (ldiv x y ≫= ceiling_adjust y); MV2_byref q v2 r.

Definition primitive_machine_word_roundS_byref (x y v2 : Z) : M Z :=
  '(q, r) ← lift_option (ldiv x y ≫= round_adjust y); MV2_byref q v2 r.

Definition primitive_machine_word_truncateS_byref (x y v2 : Z) : M Z :=
  '(q, r) ← lift_option (ldiv x y ≫= truncate_adjust y); MV2_byref q v2 r.

Definition primitive_machine_word_double_floorS_byref (xl xh y v2 : Z) : M Z :=
  '(q, r) ← lift_option (divide_double xl xh y ≫= floor_adjust y); MV2_byref q v2 r.

Definition primitive_machine_word_double_ceilingS_byref (xl xh y v2 : Z) : M Z :=
  '(q, r) ← lift_option (divide_double xl xh y ≫= ceiling_adjust y); MV2_byref q v2 r.

Definition primitive_machine_word_double_roundS_byref (xl xh y v2 : Z) : M Z :=
  '(q, r) ← lift_option (divide_double xl xh y ≫= round_adjust y); MV2_byref q v2 r.

Definition primitive_machine_word_double_truncateS_byref (xl xh y v2 : Z) : M Z :=
  '(q, r) ← lift_option (divide_double xl xh y ≫= truncate_adjust y); MV2_byref q v2 r.

Definition primitive_machine_word_double_divide_byref (xl xh y v2 : Z) : M Z :=
  '(q, r) ← lift_option (divide_double xl xh y ≫= truncate_adjust y); MV2_byref q v2 r.

Definition primitive_machine_word_add_with_overflow_byref (x y v2 : Z) : M Z :=
  let r := s64 (u64 x + u64 y) in
  MV2_byref r v2 (RAWASBOOL (add_flag x y r)).

Definition primitive_machine_word_subtract_with_overflow_byref (x y v2 : Z) : M Z :=
  let r := s64 (u64 x - u64 y) in
  MV2_byref r v2 (RAWASBOOL (subtract_flag x y r)).

Definition primitive_machine_word_multiply_with_overflow_byref (x y v2 v3 : Z) : M Z :=
  let '(rl, rh) := multiply_double x y in
  MV3_byref rl v2 rh v3 (RAWASBOOL (multiply_flag x y rh)).

Definition primitive_machine_word_negative_with_overflow_byref (x v2 : Z) : M Z :=
  r ← lift_option (checked (- x));
  MV2_byref r v2 (RAWASBOOL ((x <? 0) && (r <=? 0))).

Definition primitive_machine_word_abs_with_overflow_byref (x v2 : Z) : M Z :=
  r ← lift_option (labs x);
  MV2_byref r v2 (RAWASBOOL ((x <? 0) && (r <=? 0))).

Definition primitive_machine_word_shift_left_with_overflow_byref (x y v2 v3 : Z) : M Z :=
  r ← lift_option (shift_left_low x y);
  MV3_byref r v2 0 v3 (RAWASBOOL false).

Definition primitive_machine_word_multiply_lowShigh_byref (x y v2 : Z) : M Z :=
  let '(zl, zh) := multiply_double x y in MV2_byref zl v2 zh.

Definition primitive_machine_word_multiply_low_with_overflow_byref (x y v2 : Z) : M Z :=
  r ← lift_option (checked (x * y));
  b ← lift_option (multiply_low_flag x y r);
  MV2_byref r v2 (RAWASBOOL b).

Definition primitive_machine_word_unsigned_add_with_carry_byref (x y v2 : Z) : M Z :=
  MV2_byref (u64 (u64 x + u64 y)) v2 (unsigned_add_carry x y).

Definition primitive_machine_word_unsigned_subtract_with_borrow_byref (x y v2 : Z) : M Z :=
  MV2_byref (u64 (u64 x - u64 y)) v2 (if u64 x <? u64 y then 1 else 0).

Definition primitive_machine_word_unsigned_multiply_byref (x y v2 : Z) : M Z :=
  let '(zl, zh) := multiply_double x y in MV2_byref zl v2 zh.

Definition primitive_machine_word_unsigned_divide_byref (x y v2 : Z) : M Z :=
  '(q, r) ← lift_option (unsigned_divide_double x (if x <? 0 then -1 else 0) y);
  MV2_byref q v2 r.

Definition primitive_machine_word_unsigned_double_divide_byref (xl xh y v2 : Z) : M Z :=
  '(q, r) ← lift_option (unsigned_divide_double xl xh y); MV2_byref q v2 r.

Definition primitive_machine_word_unsigned_double_shift_left_byref (xl xh y v2 : Z) : M Z :=
  h ← lift_option (double_left_high xl xh y);
  l ← lift_option (shl xl y);
  MV2_byref l v2 h.

Definition primitive_machine_word_unsigned_double_shift_right_byref (xl xh y v2 : Z) : M Z :=
  l ← lift_option (double_right_low xl xh y);
  h ← lift_option (shr xh y);
  MV2_byref l v2 h.

(** ** Boxing integers *)

Definition HIGH_BITS : Z := u64 (Z.shiftl (u64 (-1)) 62).
Definition HIGH_BITS_AND_SIGN : Z := u64 (Z.shiftl (u64 (-1)) 61).

(** A fresh double integer: wrapper, low word, high word. *)
Definition make_double_integer (low high : Z) : M Z :=
  xd ← alloc_words 3;
  store (idx xd 0) KLdouble_integerGVKeW ;;
  store (idx xd 1) low ;;
  store (idx xd 2) high ;;
  mret xd.

Definition primitive_wrap_abstract_integer (x : Z) : M Z :=
  let hs := Z.land (u64 x) HIGH_BITS_AND_SIGN in
  if negb (hs =? 0) && negb (hs =? HIGH_BITS_AND_SIGN)
  then make_double_integer (u64 x) (u64 (if x <? 0 then -1 else 0))
  else mret (I x).

Definition primitive_wrap_unsigned_abstract_integer (x : Z) : M Z :=
  if negb (Z.land (u64 x) HIGH_BITS =? 0) then make_double_integer (u64 x) 0
  else mret (I x).

Definition primitive_unwrap_abstract_integer (x : Z) : M Z :=
  if primitive_integerQ x =? DTRUE then mret (R x)
  else low ← load (idx x 1); mret (s64 low).
(** ** Division: facts *)

Lemma checked_ok z : in_s64 z → checked z = Some z.
Proof. intros Hz. unfold checked. by rewrite decide_True. Qed.

Lemma checked_none z : ¬ in_s64 z → checked z = None.
Proof. intros Hz. unfold checked. by rewrite decide_False. Qed.

(** The division is defined. *)
Definition divisible (x y : Z) : Prop :=
  in_s64 x ∧ in_s64 y ∧ y ≠ 0 ∧ ¬ (x = -9223372036854775808 ∧ y = -1).

#[export] Instance divisible_dec x y : Decision (divisible x y).
Proof. unfold divisible. apply _. Defined.

Lemma quot_facts x y :
  y ≠ 0 → let q := Z.quot x y in let r := Z.rem x y in
  x = y * q + r ∧ Z.abs r < Z.abs y ∧ 0 <= r * x ∧ Z.abs q * Z.abs y <= Z.abs x.
Proof.
  intros Hy q r. pose proof (Z.quot_rem' x y) as E. pose proof (Z.rem_bound_abs x y Hy).
  pose proof (Z.rem_sign_mul x y Hy). fold q in E. fold r in E, H, H0. split_and!; try done.
  assert (Z.abs q = Z.quot (Z.abs x) (Z.abs y)) as -> by (unfold q; by rewrite Z.quot_abs).
  rewrite Z.mul_comm. apply Z.mul_quot_le; lia.
Qed.

Lemma ldiv_ok x y : divisible x y → ldiv x y = Some (Z.quot x y, Z.rem x y).
Proof.
  intros (Hx & Hy & H0 & Hov). unfold ldiv. rewrite (proj2 (Z.eqb_neq y 0)) by done.
  destruct (quot_facts x y H0) as (E & Hr & Hs & Hq). rewrite checked_ok; [done|].
  unfold in_s64 in *. assert (Z.abs (Z.quot x y) <= Z.abs x) by nia.
  destruct (decide (Z.quot x y = 9223372036854775808)) as [E'|]; [|lia].
  exfalso. rewrite E' in *. cbn [Z.abs] in Hq. assert (Z.abs y = 1) by lia. apply Hov. nia.
Qed.

(** With a remainder, the quotient is far from the ends of the range. *)
Lemma quot_inexact x y :
  divisible x y → Z.rem x y ≠ 0 → Z.abs (Z.quot x y) <= 4611686018427387904 ∧ 2 <= Z.abs y.
Proof.
  intros (Hx & Hy & H0 & _) Hr. destruct (quot_facts x y H0) as (E & Hb & Hs & Hq).
  unfold in_s64 in *. split; nia.
Qed.

Lemma rem_s64 x y : divisible x y → in_s64 (Z.rem x y).
Proof.
  intros (Hx & Hy & H0 & _). destruct (quot_facts x y H0) as (E & Hb & Hs & Hq).
  unfold in_s64 in *. lia.
Qed.

Lemma quot_s64 x y : divisible x y → in_s64 (Z.quot x y).
Proof.
  intros D. pose proof (ldiv_ok x y D) as E. unfold ldiv in E.
  destruct (y =? 0); [done|]. unfold checked in E. by destruct (decide (in_s64 (Z.quot x y))).
Qed.

Lemma floor_adjust_ok x y : divisible x y → ldiv x y ≫= floor_adjust y = Some (x / y, x mod y).
Proof.
  intros D. rewrite (ldiv_ok x y D). simpl.
  pose proof (quot_inexact x y D) as Hi. pose proof (rem_s64 x y D) as Hr.
  destruct D as (Hx & Hy & H0 & _). destruct (quot_facts x y H0) as (E & Hb & _ & _).
  set (q := Z.quot x y) in *. set (r := Z.rem x y) in *.
  assert (∀ q' r', x = y * q' + r' → (0 <= r' < y ∨ y < r' <= 0) → x / y = q' ∧ x mod y = r')
    as U.
  { intros q' r' E' B. split; symmetry.
    - by apply Z.div_unique with r'.
    - by apply Z.mod_unique with q'. }
  destruct (Z.eqb_spec r 0) as [Er|Er]; cbn [negb andb].
  - destruct (U q r E) as [-> ->]; [lia|done].
  - specialize (Hi Er). destruct (Z.ltb_spec y 0) as [Hy0|Hy0].
    + destruct (Z.ltb_spec 0 r).
      * destruct (U (q - 1) (r + y)) as [-> ->]; [lia|lia|].
        by rewrite !checked_ok by (unfold in_s64 in *; lia).
      * destruct (U q r E) as [-> ->]; [lia|done].
    + destruct (Z.ltb_spec r 0).
      * destruct (U (q - 1) (r + y)) as [-> ->]; [lia|lia|].
        by rewrite !checked_ok by (unfold in_s64 in *; lia).
      * destruct (U q r E) as [-> ->]; [lia|done].
Qed.

Definition ceiling (x y : Z) : Z := - ((- x) / y).

Lemma ceiling_adjust_ok x y :
  divisible x y → ldiv x y ≫= ceiling_adjust y = Some (ceiling x y, x - y * ceiling x y).
Proof.
  intros D. rewrite (ldiv_ok x y D). simpl.
  pose proof (quot_inexact x y D) as Hi. pose proof (rem_s64 x y D) as Hr.
  destruct D as (Hx & Hy & H0 & _). destruct (quot_facts x y H0) as (E & Hb & _ & _).
  set (q := Z.quot x y) in *. set (r := Z.rem x y) in *.
  assert (∀ q' r', x = y * q' + r' → (0 <= - r' < y ∨ y < - r' <= 0) →
                   ceiling x y = q' ∧ x - y * ceiling x y = r') as U.
  { intros q' r' E' B. assert (ceiling x y = q') as Eq.
    { unfold ceiling. rewrite <- (Z.div_unique (- x) y (- q') (- r')); [lia|done|lia]. }
    rewrite Eq. lia. }
  destruct (Z.eqb_spec r 0) as [Er|Er]; cbn [negb andb].
  - destruct (U q r E) as [-> ->]; [lia|done].
  - specialize (Hi Er). destruct (Z.ltb_spec y 0) as [Hy0|Hy0].
    + destruct (Z.ltb_spec r 0).
      * destruct (U (q + 1) (r - y)) as [-> ->]; [lia|lia|].
        by rewrite !checked_ok by (unfold in_s64 in *; lia).
      * destruct (U q r E) as [-> ->]; [lia|done].
    + destruct (Z.ltb_spec 0 r).
      * destruct (U (q + 1) (r - y)) as [-> ->]; [lia|lia|].
        by rewrite !checked_ok by (unfold in_s64 in *; lia).
      * destruct (U q r E) as [-> ->]; [lia|done].
Qed.

(** [q] is [x / y] rounded to the nearest integer, to the even one if there are
    two. *)
Definition rounds_to (x y q : Z) : Prop :=
  2 * Z.abs (x - y * q) <= Z.abs y ∧ (2 * Z.abs (x - y * q) = Z.abs y → Z.even q = true).

Lemma even_neighbours q : Z.odd q = true → Z.even (q + 1) = true ∧ Z.even (q - 1) = true.
Proof. intros Ho. rewrite Z.even_add, Z.even_sub, <- Z.negb_odd, Ho. done. Qed.

Lemma even_of_not_odd q : Z.odd q = false → Z.even q = true.
Proof. intros Ho. by rewrite <- Z.negb_odd, Ho. Qed.

(** One correction of the quotient, up or down. *)
Lemma step_quotient (c : bool) y q r :
  in_s64 (q + (if c then 1 else -1)) → in_s64 (r - (if c then y else - y)) →
  (if c then q' ← checked (q + 1); r' ← checked (r - y); Some (q', r')
   else q' ← checked (q - 1); r' ← checked (r + y); Some (q', r'))
  = Some (q + (if c then 1 else -1), r - (if c then y else - y)).
Proof.
  destruct c; intros H1 H2.
  - by rewrite !checked_ok.
  - replace (q + -1) with (q - 1) in * by lia. replace (r - - y) with (r + y) in * by lia.
    by rewrite !checked_ok.
Qed.

(** The side conditions of one correction. *)
Local Ltac close_step := cbn beta iota; intros; first [done | lia | exfalso; lia].

Lemma round_adjust_ok x y :
  divisible x y → y ≠ -9223372036854775808 → Z.even y = true →
  ∃ q, ldiv x y ≫= round_adjust y = Some (q, x - y * q) ∧ rounds_to x y q.
Proof.
  intros D Hmin Hev. rewrite (ldiv_ok x y D). simpl.
  pose proof (quot_inexact x y D) as Hi. pose proof (rem_s64 x y D) as Hr.
  destruct D as (Hx & Hy & H0 & _). destruct (quot_facts x y H0) as (E & Hb & _ & _).
  set (q := Z.quot x y) in *. set (r := Z.rem x y) in *.
  apply Z.even_spec in Hev as [h Hh].
  unfold labs. rewrite (checked_ok (Z.abs y)) by (unfold in_s64 in *; lia). simpl.
  assert (Z.quot (Z.abs y) 2 = Z.abs h) as ->.
  { replace (Z.abs y) with (Z.abs h * 2) by lia. by rewrite Z.quot_mul. }
  assert (∀ c, r ≠ 0 → 2 * Z.abs (r - (if c : bool then y else - y)) <= Z.abs y →
    (2 * Z.abs (r - (if c then y else - y)) = Z.abs y → Z.odd q = true) →
    ∃ q', (if c then q' ← checked (q + 1); r' ← checked (r - y); Some (q', r')
           else q' ← checked (q - 1); r' ← checked (r + y); Some (q', r'))
          = Some (q', x - y * q') ∧ rounds_to x y q') as Step.
  { intros c Hr0 Hle Hodd. specialize (Hi Hr0). exists (q + (if c then 1 else -1)).
    assert (x - y * (q + (if c then 1 else -1)) = r - (if c then y else - y)) as Ex
      by (destruct c; lia).
    rewrite step_quotient; [|unfold in_s64 in *; destruct c; lia|unfold in_s64 in *; destruct c; lia].
    split; [by rewrite Ex|]. split; rewrite Ex; [done|]. intros Heq.
    destruct (even_neighbours q (Hodd Heq)) as [? ?]. by destruct c. }
  assert (∃ q', Some (q, r) = Some (q', x - y * q') ∧ q' = q) as (q0 & Eq0 & ->)
    by (exists q; split; [f_equal; f_equal; lia|done]).
  destruct (Z.ltb_spec (Z.abs h) r) as [H1|H1]; cbn [orb].
  { destruct (Z.ltb_spec y 0); [apply (Step false)|apply (Step true)]; close_step. }
  destruct (Z.eqb_spec r (Z.abs h)) as [H2|H2]; cbn [orb andb].
  { destruct (Z.odd q) eqn:Ho.
    - destruct (Z.ltb_spec y 0); [apply (Step false)|apply (Step true)]; close_step.
    - rewrite (proj2 (Z.ltb_ge _ _)) by lia. cbn [orb]. rewrite andb_false_r.
      exists q. split; [done|]. unfold rounds_to. replace (x - y * q) with r by lia.
      split; [lia|]. intros _. by apply even_of_not_odd. }
  destruct (Z.ltb_spec r (- Z.abs h)) as [H3|H3]; cbn [orb].
  { destruct (Z.ltb_spec y 0); [apply (Step true)|apply (Step false)]; close_step. }
  destruct (Z.eqb_spec r (- Z.abs h)) as [H4|H4]; cbn [andb].
  { destruct (Z.odd q) eqn:Ho.
    - destruct (Z.ltb_spec y 0); [apply (Step true)|apply (Step false)]; close_step.
    - exists q. split; [done|]. unfold rounds_to. replace (x - y * q) with r by lia.
      split; [lia|]. intros _. by apply even_of_not_odd. }
  exists q. split; [done|]. unfold rounds_to. replace (x - y * q) with r by lia. lia.
Qed.

(** For an odd divisor the threshold is too low by one half. *)
Lemma roundS_wrong : ldiv 4 3 ≫= round_adjust 3 = Some (2, -2).
Proof. reflexivity. Qed.
Lemma roundS_by_one_wrong : ldiv 3 1 ≫= round_adjust 1 = Some (4, -1).
Proof. reflexivity. Qed.
