(* ===== verification/MachineWordLaws.v ===== *)
(** * What the machine-word primitives compute

    The divisions are the mathematical ones wherever C defines them; the
    overflow, carry and borrow flags are exact; rotations are inverse to each
    other and double shifts are shifts of a 128-bit number; the zero counts are
    exact; boxing an integer loses nothing. *)

From S2P Require Import Prelude Memory Tagging Vectors Examples Values MachineWord.
From stdpp Require Import base tactics option list numbers gmap.
From Stdlib Require Import ZArith Lia Bool.

Local Open Scope Z_scope.

(** ** Returning two values *)

Lemma MV2__ok s x y :
  wf s → ∃ s', MV2_ x y s = Ok x s' ∧ returns s' [x; y] ∧ wf s'.
Proof.
  intros W. unfold MV2_.
  mstep (store_ok s (return_value 0) x (wf_return_value s 0 W ltac:(done))).
  set (s1 := with_mem _ s).
  assert (wf s1) as W1.
  { apply (wf_mset s (return_value 0) [x]); [done| |].
    - intros i Hi. simpl in Hi. replace (return_value 0 + 8 * i) with (return_value 0) by lia.
      by apply wf_return_value.
    - unfold Pempty_vectorVKi, return_value, idx. teb_lia. }
  mstep (store_ok s1 (return_value 1) y (wf_return_value s1 1 W1 ltac:(done))).
  set (s2 := with_mem _ s1).
  assert (wf s2) as W2.
  { apply (wf_mset s1 (return_value 1) [y]); [done| |].
    - intros i Hi. simpl in Hi. replace (return_value 1 + 8 * i) with (return_value 1) by lia.
      by apply wf_return_value.
    - unfold Pempty_vectorVKi, return_value, idx. teb_lia. }
  mstep (modify_teb_ok (set_return_values_count 2) s2). eexists. split; [reflexivity|]. split.
  - constructor; simpl; [done|unfold VALUES_MAX; lia|]. apply arr_cons. split.
    + rewrite lookup_insert_ne by (unfold return_value, idx; lia). apply lookup_insert_eq.
    + apply arr_cons. split; [apply lookup_insert_eq|apply arr_nil].
  - by destruct W2; constructor.
Qed.

(** [m] returns [v] and the two values [v] and [w]. *)
Definition gives_two (m : M Z) (s : state) (v w : Z) : Prop :=
  ∃ s', m s = Ok v s' ∧ returns s' [u64 v; u64 w] ∧ wf s'.

Lemma MV2_ok s x y : wf s → in_s64 x → gives_two (MV2 x y) s x y.
Proof.
  intros W Hx. destruct (MV2__ok s (u64 x) (u64 y) W) as (s' & E & R' & W').
  exists s'. split_and!; [|done|done]. unfold MV2. mstep E. unfold mret, M_ret.
  by rewrite s64_u64, s64_id.
Qed.

Lemma MV2_words_ok s x y :
  wf s → in_u64 x → in_u64 y →
  ∃ s', MV2 x y s = Ok (s64 x) s' ∧ returns s' [x; y] ∧ wf s'.
Proof.
  intros W Hx Hy. destruct (MV2__ok s x y W) as (s' & E & R' & W').
  exists s'. split_and!; [|done|done]. unfold MV2. rewrite (u64_id x), (u64_id y) by done.
  by mstep E.
Qed.

Lemma lift_ok {A B} (o : option A) a (f : A → M B) s :
  o = Some a → (lift_option o ≫= f) s = f a s.
Proof. by intros ->. Qed.

Lemma gives_ext m m' s v w : m s = m' s → gives_two m' s v w → gives_two m s v w.
Proof. intros E (s' & H). exists s'. by rewrite E. Qed.

(** ** Division *)

(** The primitives of one rounding, given what the correction computes. *)
Lemma rounding_ok (adj : Z → Z * Z → option (Z * Z)) x y q r s :
  wf s → in_s64 q → ldiv x y ≫= adj y = Some (q, r) →
  ('(q, _) ← lift_option (ldiv x y ≫= adj y); mret q) s = Ok q s ∧
  ('(_, r) ← lift_option (ldiv x y ≫= adj y); mret r) s = Ok r s ∧
  gives_two ('(q, r) ← lift_option (ldiv x y ≫= adj y); MV2 q r) s q r.
Proof.
  intros W Hq E. split_and!; [by rewrite (lift_ok _ _ _ _ E)..|].
  eapply gives_ext; [by rewrite (lift_ok _ _ _ _ E)|]. by apply MV2_ok.
Qed.

Lemma adjusted_s64 (adj : Z → Z * Z → option (Z * Z)) x y q r :
  (∀ y z q r, adj y z = Some (q, r) → z.1 = q ∨ in_s64 q) →
  divisible x y → ldiv x y ≫= adj y = Some (q, r) → in_s64 q.
Proof.
  intros H D E. pose proof (quot_s64 x y D). rewrite (ldiv_ok x y D) in E.
  apply H in E as [<-|]; done.
Qed.

Lemma checked_s64 x y : checked x = Some y → in_s64 y.
Proof. unfold checked. by destruct (decide (in_s64 x)); intros [= <-]. Qed.

(** Every correction returns the quotient it was given, or a checked one. *)
Local Ltac adjusted :=
  intros y [q0 r0] q r E; simpl in *;
  repeat match type of E with
    | (_ ← checked ?e; _) = _ =>
        let H := fresh in destruct (checked e) eqn:H; [apply checked_s64 in H|done]; simpl in E
    | (_ ← ?e; _) = _ => destruct e; [|done]; simpl in E
    | (if ?b then _ else _) = _ => destruct b
    end; injection E as <- <-; auto.

Lemma floor_adjust_s64 y z q r : floor_adjust y z = Some (q, r) → z.1 = q ∨ in_s64 q.
Proof. revert y z q r. unfold floor_adjust. adjusted. Qed.
Lemma ceiling_adjust_s64 y z q r : ceiling_adjust y z = Some (q, r) → z.1 = q ∨ in_s64 q.
Proof. revert y z q r. unfold ceiling_adjust. adjusted. Qed.
Lemma round_adjust_s64 y z q r : round_adjust y z = Some (q, r) → z.1 = q ∨ in_s64 q.
Proof. revert y z q r. unfold round_adjust. adjusted. Qed.

(** Outside [divisible], C leaves the division undefined. *)
Lemma ldiv_undefined x y : in_s64 x → in_s64 y → ¬ divisible x y → ldiv x y = None.
Proof.
  intros Hx Hy D. unfold ldiv. destruct (Z.eqb_spec y 0) as [|H0]; [done|].
  destruct (decide (x = -9223372036854775808 ∧ y = -1)) as [[-> ->]|N]; [done|].
  exfalso. by apply D.
Qed.

(** C38: The three floor-division primitives return the floor quotient and the
    modulus of the mathematical integers for all operands C can divide. *)
Theorem floor_division s x y :
  wf s → divisible x y →
  primitive_machine_word_floorS_quotient x y s = Ok (x / y) s ∧
  primitive_machine_word_floorS_remainder x y s = Ok (x mod y) s ∧
  gives_two (primitive_machine_word_floorS x y) s (x / y) (x mod y).
Proof.
  intros W D. pose proof (floor_adjust_ok x y D) as E.
  apply rounding_ok; [done| |done].
  by apply (adjusted_s64 floor_adjust x y _ (x mod y) floor_adjust_s64).
Qed.

Lemma floor_division_witness :
  divisible (-7) 2 ∧ primitive_machine_word_floorS_quotient (-7) 2 (example_state [])
                     = Ok (-4) (example_state []).
Proof.
  assert (divisible (-7) 2) as D by (split_and!; [word|word|done|intros [? _]; done]).
  split; [done|]. pose proof (floor_division (example_state []) (-7) 2) as T.
  apply T; [eval_mem|done].
Defined.

(** The three ceiling-division primitives return the quotient rounded up
    and the matching remainder for all operands C can divide. *)
Theorem ceiling_division s x y :
  wf s → divisible x y →
  primitive_machine_word_ceilingS_quotient x y s = Ok (ceiling x y) s ∧
  primitive_machine_word_ceilingS_remainder x y s = Ok (x - y * ceiling x y) s ∧
  gives_two (primitive_machine_word_ceilingS x y) s (ceiling x y) (x - y * ceiling x y).
Proof.
  intros W D. pose proof (ceiling_adjust_ok x y D) as E.
  apply rounding_ok; [done| |done].
  by apply (adjusted_s64 ceiling_adjust x y _ (x - y * ceiling x y) ceiling_adjust_s64).
Qed.

Lemma ceiling_division_witness :
  divisible 7 2 ∧ primitive_machine_word_ceilingS_quotient 7 2 (example_state [])
                  = Ok 4 (example_state []).
Proof.
  assert (divisible 7 2) as D by (split_and!; [word|word|done|intros [? _]; done]).
  split; [done|]. pose proof (ceiling_division (example_state []) 7 2) as T.
  apply T; [eval_mem|done].
Defined.

(** For an even divisor the rounding-division primitives return a nearest
    quotient, the even one of two equally near ones, and the matching
    remainder (for odd divisors the halved threshold makes them wrong, see
    MachineWord.roundS_wrong). *)
Theorem round_division_even_divisor s x y :
  wf s → divisible x y → y ≠ -9223372036854775808 → Z.even y = true →
  ∃ q, rounds_to x y q ∧
    primitive_machine_word_roundS_quotient x y s = Ok q s ∧
    primitive_machine_word_roundS_remainder x y s = Ok (x - y * q) s ∧
    gives_two (primitive_machine_word_roundS x y) s q (x - y * q).
Proof.
  intros W D Hm He. destruct (round_adjust_ok x y D Hm He) as (q & E & Hr). exists q.
  split; [done|]. apply rounding_ok; [done| |done].
  by apply (adjusted_s64 round_adjust x y _ (x - y * q) round_adjust_s64).
Qed.

Lemma round_division_even_divisor_witness :
  ∃ q, rounds_to 7 2 q ∧ primitive_machine_word_roundS_quotient 7 2 (example_state [])
                         = Ok q (example_state []).
Proof.
  assert (divisible 7 2) as D by (split_and!; [word|word|done|intros [? _]; done]).
  destruct (round_division_even_divisor (example_state []) 7 2) as (q & Hr & Hq & _);
    [eval_mem|exact D|lia|reflexivity|]. exists q. exact (conj Hr Hq).
Defined.

(** Truncate/ and divide return the truncated quotient and remainder
    exactly when the divisor is not zero and the quotient is representable;
    otherwise every division primitive is undefined behaviour. *)
Theorem truncating_division s x y :
  wf s → in_s64 x → in_s64 y →
  if decide (divisible x y) then
    primitive_machine_word_truncateS_quotient x y s = Ok (Z.quot x y) s ∧
    primitive_machine_word_truncateS_remainder x y s = Ok (Z.rem x y) s ∧
    gives_two (primitive_machine_word_truncateS x y) s (Z.quot x y) (Z.rem x y) ∧
    gives_two (primitive_machine_word_divide x y) s (Z.quot x y) (Z.rem x y)
  else
    primitive_machine_word_truncateS x y s = Fault ∧
    primitive_machine_word_divide x y s = Fault ∧
    primitive_machine_word_floorS x y s = Fault ∧
    primitive_machine_word_ceilingS x y s = Fault ∧
    primitive_machine_word_roundS x y s = Fault.
Proof.
  intros W Hx Hy. destruct (decide (divisible x y)) as [D|D].
  - pose proof (ldiv_ok x y D) as E. pose proof (quot_s64 x y D) as Hq.
    assert (ldiv x y ≫= truncate_adjust y = Some (Z.quot x y, Z.rem x y)) as E'
      by (by rewrite E).
    destruct (rounding_ok truncate_adjust x y _ _ s W Hq E') as (A & B & G). split_and!; try done.
    eapply gives_ext; [unfold primitive_machine_word_divide; by rewrite (lift_ok _ _ _ _ E)|].
    by apply MV2_ok.
  - pose proof (ldiv_undefined x y Hx Hy D) as E.
    unfold primitive_machine_word_truncateS, primitive_machine_word_divide,
      primitive_machine_word_floorS, primitive_machine_word_ceilingS,
      primitive_machine_word_roundS. by rewrite E.
Qed.

Lemma truncating_division_witness :
  primitive_machine_word_truncateS_remainder (-7) 2 (example_state []) = Ok (-1) (example_state [])
  ∧ primitive_machine_word_divide 5 0 (example_state []) = Fault.
Proof.
  assert (divisible (-7) 2) as D by (split_and!; [word|word|done|intros [? _]; done]).
  split.
  - pose proof (truncating_division (example_state []) (-7) 2 ltac:(eval_mem)
      ltac:(word) ltac:(word)) as T.
    rewrite decide_True in T by exact D. apply T.
  - pose proof (truncating_division (example_state []) 5 0 ltac:(eval_mem)
      ltac:(word) ltac:(word)) as T.
    rewrite decide_False in T by (intros (_ & _ & H & _); by apply H). apply T.
Defined.

(** ** Overflow, carry and borrow *)

Lemma lxor_sign x y : (Z.lxor x y <? 0) = xorb (x <? 0) (y <? 0).
Proof.
  pose proof (Z.lxor_nonneg x y).
  destruct (Z.ltb_spec (Z.lxor x y) 0), (Z.ltb_spec x 0), (Z.ltb_spec y 0); try done; simpl; lia.
Qed.

Lemma nonneg_negb x : (0 <=? x) = negb (x <? 0).
Proof. lia. Qed.

(** The sign rule for overflow, for sums and for differences. *)
Local Ltac by_signs x y r :=
  destruct (Z.ltb_spec x 0), (Z.ltb_spec y 0), (Z.ltb_spec r 0); try done; exfalso.

Lemma add_flag_ok x y :
  in_s64 x → in_s64 y → add_flag x y (s64 (x + y)) = negb (bool_decide (in_s64 (x + y))).
Proof.
  intros Hx Hy. unfold add_flag. rewrite nonneg_negb, !lxor_sign.
  destruct (decide (in_s64 (x + y))) as [D|D].
  - rewrite bool_decide_true, s64_id by done. by_signs x y (x + y); lia.
  - rewrite bool_decide_false by done. unfold in_s64, s64 in *.
    by_signs x y ((x + y + 9223372036854775808) mod 18446744073709551616 - 9223372036854775808);
      zmod.
Qed.

Lemma subtract_flag_ok x y :
  in_s64 x → in_s64 y → subtract_flag x y (s64 (x - y)) = negb (bool_decide (in_s64 (x - y))).
Proof.
  intros Hx Hy. unfold subtract_flag. rewrite !lxor_sign.
  destruct (decide (in_s64 (x - y))) as [D|D].
  - rewrite bool_decide_true, s64_id by done. by_signs x y (x - y); lia.
  - rewrite bool_decide_false by done. unfold in_s64, s64 in *.
    by_signs x y ((x - y + 9223372036854775808) mod 18446744073709551616 - 9223372036854775808);
      zmod.
Qed.

Lemma RAWASBOOL_range b : in_u64 (RAWASBOOL b).
Proof. destruct b; by vm_compute. Qed.

(** C39: add-with-overflow and subtract-with-overflow return the wrapped result
    and set the overflow flag exactly when the mathematical result does not
    fit in a signed word. *)
Theorem signed_overflow_flags_exact s x y :
  wf s → in_s64 x → in_s64 y →
  gives_two (primitive_machine_word_add_with_overflow x y) s
    (s64 (x + y)) (RAWASBOOL (negb (bool_decide (in_s64 (x + y))))) ∧
  gives_two (primitive_machine_word_subtract_with_overflow x y) s
    (s64 (x - y)) (RAWASBOOL (negb (bool_decide (in_s64 (x - y))))).
Proof.
  intros W Hx Hy.
  unfold primitive_machine_word_add_with_overflow, primitive_machine_word_subtract_with_overflow.
  replace (s64 (u64 x + u64 y)) with (s64 (x + y)) by word.
  replace (s64 (u64 x - u64 y)) with (s64 (x - y)) by word.
  cbv zeta. rewrite add_flag_ok, subtract_flag_ok by done.
  split; apply MV2_ok; auto using s64_range.
Qed.

Lemma signed_overflow_flags_exact_witness :
  gives_two (primitive_machine_word_add_with_overflow 9223372036854775807 1) (example_state [])
    (s64 9223372036854775808) (RAWASBOOL true).
Proof.
  apply (signed_overflow_flags_exact (example_state []) 9223372036854775807 1);
    [eval_mem|word|word].
Defined.

Lemma odd_mod x : Z.odd x = (x mod 2 =? 1).
Proof. rewrite Zmod_odd. by destruct (Z.odd x). Qed.

Lemma unsigned_add_carry_ok x y :
  unsigned_add_carry x y = if 18446744073709551616 <=? u64 x + u64 y then 1 else 0.
Proof.
  unfold unsigned_add_carry. cbv zeta. rewrite !Z.shiftr_div_pow2, !odd_mod by lia.
  change (2 ^ 1) with 2. pose proof (u64_range x) as Hx. pose proof (u64_range y) as Hy.
  unfold in_u64 in *. set (ux := u64 x) in *. set (uy := u64 y) in *.
  set (b := if _ && _ then 1 else 0).
  assert (b = 1 ∧ ux mod 2 = 1 ∧ uy mod 2 = 1 ∨ b = 0 ∧ (ux mod 2 = 0 ∨ uy mod 2 = 0)) as Hb.
  { unfold b. destruct (Z.eqb_spec (ux mod 2) 1), (Z.eqb_spec (uy mod 2) 1); simpl; zmod. }
  clearbody b. rewrite (u64_id (ux / 2 + uy / 2)), u64_id by (unfold in_u64; zmod).
  assert (s64 (ux / 2 + uy / 2 + b) < 0 ↔ 9223372036854775808 <= ux / 2 + uy / 2 + b) as E
    by (apply s64_neg; unfold in_u64; zmod).
  destruct (Z.ltb_spec (s64 (ux / 2 + uy / 2 + b)) 0) as [L|L];
    destruct (Z.leb_spec 18446744073709551616 (ux + uy)) as [G|G]; try done; exfalso.
  - apply E in L. clear E. zmod.
  - assert (¬ 9223372036854775808 <= ux / 2 + uy / 2 + b) as N by (rewrite <- E; lia).
    clear E. zmod.
Qed.

Lemma carry_sum a b :
  in_u64 a → in_u64 b →
  a + b = u64 (a + b)
          + 18446744073709551616 * (if 18446744073709551616 <=? a + b then 1 else 0).
Proof. destruct (Z.leb_spec 18446744073709551616 (a + b)); word. Qed.

Lemma borrow_difference a b :
  in_u64 a → in_u64 b →
  a - b = u64 (a - b) - 18446744073709551616 * (if a <? b then 1 else 0).
Proof. destruct (Z.ltb_spec a b); word. Qed.

(** The unsigned add-with-carry and subtract-with-borrow primitives return
    a word and a bit that together are exactly the sum or the difference of
    the operands as unsigned words. *)
Theorem unsigned_carry_and_borrow_exact s x y :
  wf s →
  (∃ s' r c,
    primitive_machine_word_unsigned_add_with_carry x y s = Ok (s64 r) s' ∧
    returns s' [r; c] ∧ wf s' ∧ in_u64 r ∧ (c = 0 ∨ c = 1) ∧
    u64 x + u64 y = r + 18446744073709551616 * c) ∧
  (∃ s' r c,
    primitive_machine_word_unsigned_subtract_with_borrow x y s = Ok (s64 r) s' ∧
    returns s' [r; c] ∧ wf s' ∧ in_u64 r ∧ (c = 0 ∨ c = 1) ∧
    u64 x - u64 y = r - 18446744073709551616 * c).
Proof.
  intros W. pose proof (u64_range x) as Hx. pose proof (u64_range y) as Hy.
  split.
  - set (r := u64 (u64 x + u64 y)). set (c := unsigned_add_carry x y).
    assert (c = if 18446744073709551616 <=? u64 x + u64 y then 1 else 0) as Ec
      by apply unsigned_add_carry_ok.
    assert (in_u64 c) by (rewrite Ec; by destruct (_ <=? _)).
    destruct (MV2_words_ok s r c W (u64_range _)) as (s' & E & R' & W'); [done|].
    exists s', r, c. split_and!; try done.
    + apply u64_range.
    + rewrite Ec. destruct (_ <=? _); auto.
    + rewrite Ec. by apply carry_sum.
  - set (r := u64 (u64 x - u64 y)). set (c := if u64 x <? u64 y then 1 else 0).
    assert (in_u64 c) by (unfold c; by destruct (_ <? _)).
    destruct (MV2_words_ok s r c W (u64_range _)) as (s' & E & R' & W'); [done|].
    exists s', r, c. split_and!; try done.
    + apply u64_range.
    + unfold c. destruct (_ <? _); auto.
    + by apply borrow_difference.
Qed.

Lemma unsigned_carry_and_borrow_exact_witness :
  ∃ s' r c, primitive_machine_word_unsigned_add_with_carry (-1) 1 (example_state []) = Ok (s64 r) s'
    ∧ (c = 0 ∨ c = 1) ∧ u64 (-1) + u64 1 = r + 18446744073709551616 * c.
Proof.
  destruct (unsigned_carry_and_borrow_exact (example_state []) (-1) 1 ltac:(eval_mem))
    as [(s' & r & c & E & _ & _ & _ & Hc & S) _].
  exists s', r, c. exact (conj E (conj Hc S)).
Defined.

(** ** Rotations and double shifts *)

Lemma shl_ok x k :
  0 <= k < 64 → shl x k = Some (2 ^ k * (u64 x mod 2 ^ (64 - k))).
Proof.
  intros Hk. unfold shl, shift_ok, LONG_BIT.
  replace ((0 <=? k) && (k <? 64)) with true by lia. f_equal.
  rewrite Z.shiftl_mul_pow2 by lia. unfold u64 at 1.
  replace 18446744073709551616 with (2 ^ k * 2 ^ (64 - k)).
  - by rewrite (Z.mul_comm (u64 x)), Z.mul_mod_distr_l by lia.
  - rewrite <- Z.pow_add_r by lia. by replace (k + (64 - k)) with 64 by lia.
Qed.

Lemma shr_ok x k : 0 <= k < 64 → shr x k = Some (u64 x / 2 ^ k).
Proof.
  intros Hk. unfold shr, shift_ok, LONG_BIT.
  replace ((0 <=? k) && (k <? 64)) with true by lia. by rewrite Z.shiftr_div_pow2 by lia.
Qed.

Lemma split_word k : 0 <= k <= 64 → 2 ^ k * 2 ^ (64 - k) = 18446744073709551616.
Proof. intros Hk. rewrite <- Z.pow_add_r by lia. by replace (k + (64 - k)) with 64 by lia. Qed.

(** The bits moved out of one end of a word are below the bits moved in. *)
Lemma high_part_small u k : in_u64 u → 0 <= k <= 64 → 0 <= u / 2 ^ (64 - k) < 2 ^ k.
Proof.
  intros Hu Hk. pose proof (split_word k Hk). unfold in_u64 in Hu.
  assert (0 < 2 ^ (64 - k)) by (apply Z.pow_pos_nonneg; lia).
  split; [apply Z.div_pos; lia|]. apply Z.div_lt_upper_bound; lia.
Qed.

(** [u], rotated by [k] bits to the left. *)
Definition rotl (u k : Z) : Z := 2 ^ k * (u mod 2 ^ (64 - k)) + u / 2 ^ (64 - k).

Lemma rotl_range u k : in_u64 u → 0 <= k <= 64 → in_u64 (rotl u k).
Proof.
  intros Hu Hk. pose proof (high_part_small u k Hu Hk). pose proof (split_word k Hk).
  pose proof (Z.mod_pos_bound u (2 ^ (64 - k)) ltac:(apply Z.pow_pos_nonneg; lia)).
  unfold rotl, in_u64. nia.
Qed.

Lemma rotl_rotl u k : in_u64 u → 0 <= k <= 64 → rotl (rotl u k) (64 - k) = u.
Proof.
  intros Hu Hk. pose proof (high_part_small u k Hu Hk) as Hs. unfold rotl.
  replace (64 - (64 - k)) with k by lia.
  set (hi := u / 2 ^ (64 - k)) in *. set (lo := u mod 2 ^ (64 - k)).
  assert (0 < 2 ^ k) by (apply Z.pow_pos_nonneg; lia).
  rewrite (Z.mul_comm (2 ^ k) lo), (Z.add_comm (lo * 2 ^ k) hi).
  rewrite Z.mod_add, Z.div_add, Z.mod_small, Z.div_small by lia.
  unfold hi, lo. rewrite Z.add_0_l. symmetry. apply Z.div_mod.
  apply Z.pow_nonzero; lia.
Qed.

Lemma rotate_left_ok x y s :
  0 < y < 64 → primitive_machine_word_unsigned_rotate_left x y s = Ok (s64 (rotl (u64 x) y)) s.
Proof.
  intros Hy. unfold primitive_machine_word_unsigned_rotate_left, LONG_BIT.
  rewrite (lift_ok _ _ _ _ (shr_ok x (64 - y) ltac:(lia))).
  rewrite (lift_ok _ _ _ _ (shl_ok x y ltac:(lia))). unfold mret, M_ret. do 2 f_equal.
  rewrite Z.lor_comm, lor_field; [done|lia|].
  apply high_part_small; [apply u64_range|lia].
Qed.

Lemma rotate_right_ok x y s :
  0 < y < 64 →
  primitive_machine_word_unsigned_rotate_right x y s = Ok (s64 (rotl (u64 x) (64 - y))) s.
Proof.
  intros Hy. unfold primitive_machine_word_unsigned_rotate_right, LONG_BIT.
  rewrite (lift_ok _ _ _ _ (shl_ok x (64 - y) ltac:(lia))).
  rewrite (lift_ok _ _ _ _ (shr_ok x y ltac:(lia))). unfold mret, M_ret. do 2 f_equal.
  rewrite Z.lor_comm, lor_field; [|lia|].
  - unfold rotl. by replace (64 - (64 - y)) with y by lia.
  - replace y with (64 - (64 - y)) at 1 2 by lia.
    apply high_part_small; [apply u64_range|lia].
Qed.

(** For a count from 1 to 63, rotating a word left and then right by the
    same count, or the other way round, gives the word back. *)
Theorem rotations_inverse x y s :
  in_s64 x → 0 < y < 64 →
  ∃ r, primitive_machine_word_unsigned_rotate_left x y s = Ok r s ∧
    primitive_machine_word_unsigned_rotate_right r y s = Ok x s ∧
    ∃ l, primitive_machine_word_unsigned_rotate_right x y s = Ok l s ∧
      primitive_machine_word_unsigned_rotate_left l y s = Ok x s.
Proof.
  intros Hx Hy. pose proof (u64_range x) as Hu.
  exists (s64 (rotl (u64 x) y)). split_and!; [by apply rotate_left_ok| |].
  - rewrite rotate_right_ok, u64_s64, (u64_id (rotl _ _)), rotl_rotl
      by (done || lia || (apply rotl_range; [done|lia])).
    by rewrite s64_u64, s64_id.
  - exists (s64 (rotl (u64 x) (64 - y))). split; [by apply rotate_right_ok|].
    rewrite rotate_left_ok, u64_s64, (u64_id (rotl _ _))
      by (done || (apply rotl_range; [done|lia])).
    replace y with (64 - (64 - y)) at 2 by lia. rewrite rotl_rotl by (done || lia).
    by rewrite s64_u64, s64_id.
Qed.

Lemma rotations_inverse_witness :
  ∃ r, primitive_machine_word_unsigned_rotate_left (-2) 5 (example_state [])
       = Ok r (example_state []) ∧
    primitive_machine_word_unsigned_rotate_right r 5 (example_state [])
    = Ok (-2) (example_state []).
Proof.
  destruct (rotations_inverse (-2) 5 (example_state [])) as (r & A & B & _); [word|lia|].
  exists r. exact (conj A B).
Defined.

(** A double word. *)
Definition double (low high : Z) : Z := u64 low + 18446744073709551616 * u64 high.

(** Two words cut in two: the arithmetic of the shifts. *)
Lemma left_arith W K ul uh a b c d J :
  W = 18446744073709551616 → K * J = W → 0 < K → 0 < J → ul = J * a + b → uh = J * c + d →
  0 <= a < K → 0 <= b < J → 0 <= d < J →
  in_u64 (K * b) ∧ in_u64 (K * d + a) ∧
  K * b + W * (K * d + a) = ((ul + W * uh) * K) mod (W * W).
Proof.
  intros EW HW HK HJ Eu Ev Ha Hb Hd. unfold in_u64. rewrite <- EW.
  assert (0 <= K * b <= W - K) as B1 by nia. assert (0 <= K * d <= W - K) as B2 by nia.
  split_and!; [lia..|]. apply Z.mod_unique with (q := c).
  - left. split; [nia|]. assert (K * d + a <= W - 1) by lia. nia.
  - subst ul uh. rewrite <- HW. ring.
Qed.

Lemma right_arith W K ul uh a b c d J :
  W = 18446744073709551616 → K * J = W → 0 < K → 0 < J → ul = K * a + b → uh = K * c + d →
  0 <= a < J → 0 <= b < K → 0 <= d < K → in_u64 uh →
  in_u64 (J * d + a) ∧ in_u64 c ∧ J * d + a + W * c = (ul + W * uh) / K.
Proof.
  intros EW HW HK HJ Eu Ev Ha Hb Hd Hu. unfold in_u64 in *. rewrite <- EW in *.
  split_and!; [nia|nia|nia|nia|]. apply Z.div_unique with (r := b); [lia|].
  subst ul uh. rewrite <- HW. ring.
Qed.

Lemma double_left_ok xl xh k :
  0 < k < 64 →
  ∃ l h, shl xl k = Some l ∧ double_left_high xl xh k = Some h ∧ in_u64 l ∧ in_u64 h ∧
    l + 18446744073709551616 * h = (double xl xh * 2 ^ k) mod 2 ^ 128.
Proof.
  intros Hk. pose proof (u64_range xl) as Hl. pose proof (u64_range xh) as Hh.
  pose proof (split_word k ltac:(lia)) as Hw. unfold double_left_high, LONG_BIT.
  rewrite (shl_ok xl), (shl_ok xh), (shr_ok xl) by lia. simpl. eexists _, _.
  split; [done|]. split; [done|].
  pose proof (high_part_small (u64 xl) k Hl ltac:(lia)) as Hs.
  assert (0 < 2 ^ (64 - k)) as Hp by (apply Z.pow_pos_nonneg; lia).
  pose proof (Z.mod_pos_bound (u64 xl) _ Hp) as Bl. pose proof (Z.mod_pos_bound (u64 xh) _ Hp) as Bh.
  pose proof (Z.div_mod (u64 xl) (2 ^ (64 - k)) ltac:(lia)) as El.
  pose proof (Z.div_mod (u64 xh) (2 ^ (64 - k)) ltac:(lia)) as Eh.
  rewrite Z.lor_comm, lor_field by lia. unfold double.
  change (2 ^ 128) with (18446744073709551616 * 18446744073709551616).
  assert (0 < 2 ^ k) as Hp' by (apply Z.pow_pos_nonneg; lia).
  by apply left_arith with (c := u64 xh / 2 ^ (64 - k)) (J := 2 ^ (64 - k)).
Qed.

Lemma double_right_ok xl xh k :
  0 < k < 64 →
  ∃ l h, double_right_low xl xh k = Some l ∧ shr xh k = Some h ∧ in_u64 l ∧ in_u64 h ∧
    l + 18446744073709551616 * h = double xl xh / 2 ^ k.
Proof.
  intros Hk. pose proof (u64_range xl) as Hl. pose proof (u64_range xh) as Hh.
  pose proof (split_word k ltac:(lia)) as Hw. unfold double_right_low, LONG_BIT.
  rewrite (shl_ok xh), (shr_ok xh), (shr_ok xl) by lia. simpl. eexists _, _.
  split; [done|]. split; [done|]. replace (64 - (64 - k)) with k by lia.
  pose proof (high_part_small (u64 xl) (64 - k) Hl ltac:(lia)) as Hs.
  replace (64 - (64 - k)) with k in Hs by lia.
  assert (0 < 2 ^ k) as Hp by (apply Z.pow_pos_nonneg; lia).
  pose proof (Z.mod_pos_bound (u64 xl) _ Hp) as Bl. pose proof (Z.mod_pos_bound (u64 xh) _ Hp) as Bh.
  pose proof (Z.div_mod (u64 xl) (2 ^ k) ltac:(lia)) as El.
  pose proof (Z.div_mod (u64 xh) (2 ^ k) ltac:(lia)) as Eh.
  rewrite Z.lor_comm, lor_field by lia. unfold double.
  assert (0 < 2 ^ (64 - k)) as Hp' by (apply Z.pow_pos_nonneg; lia).
  by apply right_arith with (b := u64 xl mod 2 ^ k) (d := u64 xh mod 2 ^ k).
Qed.

(** For a count from 1 to 63 the unsigned double-shift primitives compute,
    word by word, the shift of the 128-bit number made of the two words. *)
Theorem double_shifts_are_128_bit_shifts xl xh k s :
  wf s → 0 < k < 64 →
  (∃ s' l h,
    primitive_machine_word_unsigned_double_shift_left xl xh k s = Ok (s64 l) s' ∧
    returns s' [l; h] ∧ wf s' ∧
    primitive_machine_word_unsigned_double_shift_left_high xl xh k s = Ok (s64 h) s ∧
    double l h = (double xl xh * 2 ^ k) mod 2 ^ 128) ∧
  (∃ s' l h,
    primitive_machine_word_unsigned_double_shift_right xl xh k s = Ok (s64 l) s' ∧
    returns s' [l; h] ∧ wf s' ∧
    primitive_machine_word_unsigned_double_shift_right_low xl xh k s = Ok (s64 l) s ∧
    primitive_machine_word_unsigned_double_shift_right_high xl xh k s = Ok (s64 h) s ∧
    double l h = double xl xh / 2 ^ k).
Proof.
  intros W Hk. split.
  - destruct (double_left_ok xl xh k Hk) as (l & h & El & Eh & Hl & Hh & E).
    destruct (MV2_words_ok s l h W Hl Hh) as (s' & Em & R' & W'). exists s', l, h.
    unfold primitive_machine_word_unsigned_double_shift_left,
      primitive_machine_word_unsigned_double_shift_left_high, double at 1.
    rewrite !(lift_ok _ _ _ _ Eh), (lift_ok _ _ _ _ El), (u64_id l), (u64_id h) by done.
    done.
  - destruct (double_right_ok xl xh k Hk) as (l & h & El & Eh & Hl & Hh & E).
    destruct (MV2_words_ok s l h W Hl Hh) as (s' & Em & R' & W'). exists s', l, h.
    unfold primitive_machine_word_unsigned_double_shift_right,
      primitive_machine_word_unsigned_double_shift_right_low,
      primitive_machine_word_unsigned_double_shift_right_high, double at 1.
    rewrite !(lift_ok _ _ _ _ El), !(lift_ok _ _ _ _ Eh), (u64_id l), (u64_id h) by done.
    done.
Qed.

Lemma double_shifts_are_128_bit_shifts_witness :
  ∃ s' l h,
    primitive_machine_word_unsigned_double_shift_left (-1) 3 8 (example_state []) = Ok (s64 l) s'
    ∧ returns s' [l; h] ∧ double l h = (double (-1) 3 * 2 ^ 8) mod 2 ^ 128.
Proof.
  destruct (double_shifts_are_128_bit_shifts (-1) 3 8 (example_state []) ltac:(eval_mem) ltac:(lia))
    as [(s' & l & h & E & R' & _ & _ & D) _].
  exists s', l, h. exact (conj E (conj R' D)).
Defined.

(** ** Multiplication *)

Lemma LOHALF_eq x : LOHALF x = x mod 4294967296.
Proof. unfold LOHALF. change 4294967295 with (2 ^ 32 - 1). by rewrite land_mask. Qed.

Lemma HIHALF_eq x : HIHALF x = u64 x / 4294967296.
Proof.
  unfold HIHALF. change 18446744069414584320 with ((2 ^ 32 - 1) * 2 ^ 32).
  rewrite land_mask_shift, Z.shiftr_div_pow2, Z.div_mul by lia.
  change (2 ^ 32) with 4294967296. word.
Qed.

(** The carries out of the low word, which the high word misses. *)
Definition multiply_carries (x y : Z) : Z :=
  let xl := u64 x mod 4294967296 in
  let xh := u64 x / 4294967296 in
  let yl := u64 y mod 4294967296 in
  let yh := u64 y / 4294967296 in
  (xl * yl + 4294967296 * ((xl * yh) mod 4294967296 + (xh * yl) mod 4294967296))
  / 18446744073709551616.

(** Adding four partial products below [(2^32-1)^2]. *)
Lemma partial_products hh hl lh ll :
  0 <= hh <= 18446744065119617025 → 0 <= hl <= 18446744065119617025 →
  0 <= lh <= 18446744065119617025 → 0 <= ll <= 18446744065119617025 →
  let p := 18446744073709551616 * hh + 4294967296 * lh + 4294967296 * hl + ll in
  let t := ll + 4294967296 * (lh mod 4294967296 + hl mod 4294967296) in
  (u64 (ll + u64 (Z.shiftl (u64 (lh mod 4294967296 + hl mod 4294967296)) WORD_BIT)),
   u64 (hh + u64 lh / 4294967296 + u64 hl / 4294967296))
  = (p mod 18446744073709551616, p / 18446744073709551616 - t / 18446744073709551616) ∧
  0 <= t / 18446744073709551616 <= p / 18446744073709551616 ∧ t / 18446744073709551616 <= 2.
Proof.
  intros Bhh Bhl Blh Bll p t. unfold WORD_BIT. rewrite Z.shiftl_mul_pow2 by lia.
  change (2 ^ 32) with 4294967296. rewrite (u64_id lh), (u64_id hl) by (unfold in_u64; lia).
  assert (∀ z, 0 <= z <= 18446744065119617025 →
    ∃ a b, z / 4294967296 = a ∧ z mod 4294967296 = b ∧ z = 4294967296 * a + b ∧
      0 <= a <= 4294967294 ∧ 0 <= b < 4294967296) as S.
  { intros z Hz. eexists _, _. split; [reflexivity|]. split; [reflexivity|]. zmod. }
  destruct (S lh Blh) as (lh1 & lh0 & El1 & El0 & El & L1 & L0).
  destruct (S hl Bhl) as (hl1 & hl0 & Eh1 & Eh0 & Eh & M1 & M0).
  clear S. subst t. rewrite El1, El0, Eh1, Eh0. clear El1 El0 Eh1 Eh0.
  set (t := ll + 4294967296 * (lh0 + hl0)).
  assert (p = t + (hh + lh1 + hl1) * 18446744073709551616) as -> by (subst p t; lia).
  rewrite Z.mod_add, Z.div_add by lia.
  assert (u64 (lh0 + hl0) = lh0 + hl0) as -> by (apply u64_id; unfold in_u64; lia).
  assert (0 <= t / 18446744073709551616 <= 2) by (subst t; clear - Bll L0 M0; zmod).
  split; [|lia]. f_equal.
  - unfold u64. rewrite Z.add_mod_idemp_r by lia. subst t. f_equal. lia.
  - rewrite u64_id; [lia|unfold in_u64; lia].
Qed.

Lemma multiply_double_ok x y :
  let p := u64 x * u64 y in
  multiply_double x y
  = (p mod 18446744073709551616, p / 18446744073709551616 - multiply_carries x y) ∧
  0 <= multiply_carries x y <= p / 18446744073709551616 ∧ multiply_carries x y <= 2.
Proof.
  unfold multiply_double, multiply_carries. cbv zeta. rewrite !LOHALF_eq, !HIHALF_eq.
  pose proof (u64_range x) as Hx. pose proof (u64_range y) as Hy. unfold in_u64 in *.
  pose proof (Z.div_mod (u64 x) 4294967296 ltac:(lia)) as Ex.
  pose proof (Z.div_mod (u64 y) 4294967296 ltac:(lia)) as Ey.
  pose proof (Z.mod_pos_bound (u64 x) 4294967296 ltac:(lia)) as Bx.
  pose proof (Z.mod_pos_bound (u64 y) 4294967296 ltac:(lia)) as By.
  assert (0 <= u64 x / 4294967296 < 4294967296) as Cx by zmod.
  assert (0 <= u64 y / 4294967296 < 4294967296) as Cy by zmod.
  set (xl := u64 x mod 4294967296) in *. set (xh := u64 x / 4294967296) in *.
  set (yl := u64 y mod 4294967296) in *. set (yh := u64 y / 4294967296) in *.
  rewrite Ex, Ey. clearbody xl xh yl yh. clear Ex Ey Hx Hy.
  assert (∀ a b, 0 <= a < 4294967296 → 0 <= b < 4294967296 →
    u64 (a * b) = a * b ∧ 0 <= a * b <= 18446744065119617025) as P
    by (intros a b Ha Hb; assert (0 <= a * b <= 18446744065119617025) by nia;
        split; [apply u64_id; unfold in_u64; lia|done]).
  destruct (P xl yl) as [-> Bll]; [done..|]. destruct (P xl yh) as [-> Blh]; [done..|].
  destruct (P xh yl) as [-> Bhl]; [done..|]. destruct (P xh yh) as [-> Bhh]; [done..|].
  replace ((4294967296 * xh + xl) * (4294967296 * yh + yl))
    with (18446744073709551616 * (xh * yh) + 4294967296 * (xl * yh) + 4294967296 * (xh * yl)
          + xl * yl) by lia.
  generalize dependent (xl * yl). generalize dependent (xl * yh).
  generalize dependent (xh * yl). generalize dependent (xh * yh). clear.
  intros hh Bhh hl Bhl lh Blh ll Bll. by apply partial_products.
Qed.

(** unsigned-multiply returns the exact low word of the 128-bit product,
    and a high word that is short of the exact one by precisely the carries
    (at most two) out of the low word's partial sums, which the code drops. *)
Theorem unsigned_multiply_misses_only_carries s x y :
  wf s →
  let p := u64 x * u64 y in
  ∃ s' h,
    primitive_machine_word_unsigned_multiply x y s = Ok (s64 (x * y)) s' ∧
    returns s' [p mod 18446744073709551616; h] ∧ wf s' ∧
    primitive_machine_word_unsigned_multiply_high x y s = Ok (s64 h) s ∧
    h = p / 18446744073709551616 - multiply_carries x y ∧
    0 <= multiply_carries x y <= 2.
Proof.
  intros W p. destruct (multiply_double_ok x y) as (E & B & B2). fold p in E, B.
  unfold primitive_machine_word_unsigned_multiply, primitive_machine_word_unsigned_multiply_high.
  rewrite E. pose proof (u64_range x) as Hx. pose proof (u64_range y) as Hy. unfold in_u64 in *.
  assert (0 <= p <= 340282366920938463426481119284349108225) as Bp by (subst p; nia).
  destruct (MV2_words_ok s (p mod 18446744073709551616)
    (p / 18446744073709551616 - multiply_carries x y) W) as (s' & Em & R' & W').
  { unfold in_u64. apply Z.mod_pos_bound. lia. }
  { unfold in_u64. split; [lia|]. assert (p / 18446744073709551616 < 18446744073709551616)
      by (apply Z.div_lt_upper_bound; lia). lia. }
  exists s', (p / 18446744073709551616 - multiply_carries x y).
  split_and!; try done; [|lia]. rewrite Em. f_equal.
  change (p mod 18446744073709551616) with (u64 p). unfold p. rewrite <- (s64_u64 (x * y)).
  f_equal. unfold u64. symmetry. by apply Z.mul_mod.
Qed.

Lemma unsigned_multiply_misses_only_carries_witness :
  ∃ s' h, primitive_machine_word_unsigned_multiply 4294967296 4294967296 (example_state [])
          = Ok (s64 (4294967296 * 4294967296)) s' ∧
    returns s' [0; h] ∧ h = 1 - multiply_carries 4294967296 4294967296.
Proof.
  destruct (unsigned_multiply_misses_only_carries (example_state []) 4294967296 4294967296
    ltac:(eval_mem)) as (s' & h & E & R' & _ & _ & Eh & _).
  exists s', h. exact (conj E (conj R' Eh)).
Defined.

(** The carries are not always zero. *)
Lemma multiply_high_wrong :
  (multiply_double 4294967295 8589934591).2 = 0 ∧
  4294967295 * 8589934591 / 18446744073709551616 = 1.
Proof. split; reflexivity. Qed.

(** ** Counting zeros *)

Lemma land_15 x : Z.land x 15 = x mod 16.
Proof. by apply (land_mask x 4). Qed.

(** Shifting out the low nibbles that are zero: [j] of them. *)
Lemma scan_low_nibble_ok steps x count :
  x mod 2 ^ (4 * (steps + 1)%nat) ≠ 0 →
  ∃ (j : nat) y, scan_low_nibble steps x count = Some (count + 4 * j, y mod 16) ∧
    x = 2 ^ (4 * j) * y ∧ y mod 16 ≠ 0.
Proof.
  revert x count. induction steps as [|steps IH]; intros x count Hx; simpl;
    rewrite (Z.land_comm 15 x), land_15.
  - change (2 ^ (4 * (0 + 1)%nat)) with 16 in Hx.
    destruct (Z.eqb_spec (x mod 16) 0); [done|]. exists 0%nat, x. simpl.
    split_and!; [do 2 f_equal; lia|lia|done].
  - destruct (Z.eqb_spec (x mod 16) 0) as [E|E]; simpl.
    + rewrite Z.shiftr_div_pow2 by done. change (2 ^ 4) with 16.
      assert (x = 16 * (x / 16)) as Ex by zmod.
      destruct (IH (x / 16) (count + 4)) as (j & y & E1 & E2 & E3).
      { intros N. apply Hx. rewrite Ex.
        replace (2 ^ (4 * (S steps + 1)%nat)) with (16 * 2 ^ (4 * (steps + 1)%nat)).
        - by rewrite Z.mul_mod_distr_l, N by (done || (apply Z.pow_nonzero; lia)).
        - change 16 with (2 ^ 4). rewrite <- Z.pow_add_r by lia. f_equal. lia. }
      exists (S j), y. rewrite E1. split_and!; [do 2 f_equal; lia| |done].
      rewrite Ex, E2 at 1. replace (4 * S j) with (4 + 4 * j) by lia.
      rewrite Z.pow_add_r by lia. change (2 ^ 4) with 16. lia.
    + exists 0%nat, x. simpl. split_and!; [do 2 f_equal; lia|lia|done].
Qed.

(** A nibble in the table. *)
Lemma low_zeros_table_ok i :
  0 < i < 16 → 0 <= low_zeros_table i <= 3 ∧ i = 2 ^ low_zeros_table i * (i / 2 ^ low_zeros_table i)
  ∧ Z.odd (i / 2 ^ low_zeros_table i) = true.
Proof.
  intros Hi. assert (∃ n : nat, i = n ∧ (0 < n < 16)%nat) as (n & -> & Hn)
    by (exists (Z.to_nat i); lia).
  do 16 (destruct n as [|n]; [try lia; vm_compute; repeat split; congruence|]). lia.
Qed.

(** The nibble scan of count-low-zeros terminates on every non-zero word
    and returns the exponent of the largest power of two that divides it. *)
Theorem count_low_zeros_exact x s :
  in_s64 x → x ≠ 0 →
  ∃ n y, primitive_machine_word_count_low_zeros x s = Ok n s ∧ 0 <= n ∧
    x = 2 ^ n * y ∧ Z.odd y = true.
Proof.
  intros Hx H0. unfold primitive_machine_word_count_low_zeros.
  rewrite (proj2 (Z.eqb_neq x 0)) by done.
  destruct (scan_low_nibble_ok 16 x 0) as (j & y & E & Ex & Hy).
  { change (2 ^ (4 * (16 + 1)%nat)) with 295147905179352825856. unfold in_s64 in Hx. zmod. }
  rewrite (lift_ok _ _ _ _ E). set (t := low_zeros_table (y mod 16)).
  pose proof (Z.mod_pos_bound y 16 ltac:(lia)) as B.
  destruct (low_zeros_table_ok (y mod 16)) as (Bt & Et & Ot); [lia|]. fold t in Bt, Et, Ot.
  exists (4 * j + t), (2 ^ (4 - t) * (y / 16) + y mod 16 / 2 ^ t).
  split_and!; [done|lia| |].
  - rewrite Z.pow_add_r by lia. rewrite Ex at 1. rewrite <- Z.mul_assoc. f_equal.
    rewrite Z.mul_add_distr_l, Z.mul_assoc, <- Z.pow_add_r, <- Et by lia.
    replace (t + (4 - t)) with 4 by lia. apply Z.div_mod. lia.
  - replace (4 - t) with (1 + (3 - t)) by lia. rewrite Z.pow_add_r by lia.
    change (2 ^ 1) with 2. rewrite <- Z.mul_assoc, Z.odd_add_mul_2 || rewrite Z.add_comm, <- Z.mul_assoc, Z.odd_add_mul_2.
    done.
Qed.

Lemma count_low_zeros_exact_witness :
  ∃ n y, primitive_machine_word_count_low_zeros 96 (example_state []) = Ok n (example_state []) ∧
    0 <= n ∧ 96 = 2 ^ n * y ∧ Z.odd y = true.
Proof. apply (count_low_zeros_exact 96 (example_state [])); [word|lia]. Defined.

(** Shifting out the high nibbles that are zero. *)
Lemma scan_high_nibble_ok (steps : nat) u count :
  in_u64 u → 2 ^ 60 <= u * 2 ^ (4 * steps) →
  ∃ (j : nat), scan_high_nibble steps u count
               = Some (count + 4 * j, 2 ^ (4 * j) * u / 2 ^ 60) ∧
    2 ^ 60 <= 2 ^ (4 * j) * u < 2 ^ 64.
Proof.
  revert u count. induction steps as [|steps IH]; intros u count Hu Hs; simpl;
    rewrite (Z.land_comm _ u);
    change 17293822569102704640 with ((2 ^ 4 - 1) * 2 ^ 60);
    rewrite (land_mask_shift u 4 60), Z.mod_small by (done || (unfold in_u64 in Hu; zmod)).
  - change (2 ^ (4 * 0%nat)) with 1 in Hs.
    destruct (Z.eqb_spec (u / 2 ^ 60 * 2 ^ 60) 0) as [E|E]; [exfalso; zmod|]. simpl.
    exists 0%nat. rewrite Z.shiftr_div_pow2, Z.div_mul by done. change (2 ^ (4 * 0%nat)) with 1.
    rewrite Z.mul_1_l. unfold in_u64 in Hu. split; [do 2 f_equal; lia|lia].
  - destruct (Z.eqb_spec (u / 2 ^ 60 * 2 ^ 60) 0) as [E|E]; simpl.
    + assert (u < 2 ^ 60) as Hlt by zmod. unfold in_u64 in Hu.
      rewrite Z.shiftl_mul_pow2, u64_id by (done || (unfold in_u64; lia)).
      destruct (IH (u * 2 ^ 4) (count + 4)) as (j & Ej & Bj).
      { unfold in_u64. lia. }
      { rewrite <- Z.mul_assoc, <- Z.pow_add_r by lia.
        by replace (4 + 4 * steps) with (4 * S steps) by lia. }
      exists (S j). replace (4 * S j) with (4 * j + 4) by lia. rewrite Z.pow_add_r by lia.
      replace (2 ^ (4 * j) * 2 ^ 4 * u) with (2 ^ (4 * j) * (u * 2 ^ 4)) by lia.
      split; [|done]. rewrite Ej. do 2 f_equal. lia.
    + exists 0%nat. rewrite Z.shiftr_div_pow2, Z.div_mul by done. change (2 ^ (4 * 0%nat)) with 1.
      rewrite Z.mul_1_l. unfold in_u64 in Hu. split; [do 2 f_equal; lia|zmod].
Qed.

Lemma high_zeros_table_ok i : 0 < i < 16 → high_zeros_table i = 3 - Z.log2 i.
Proof.
  intros Hi. assert (∃ n : nat, i = n ∧ (0 < n < 16)%nat) as (n & -> & Hn)
    by (exists (Z.to_nat i); lia).
  do 16 (destruct n as [|n]; [try lia; reflexivity|]). lia.
Qed.

(** The nibble scan of count-high-zeros terminates on every non-zero word
    and returns 63 minus the position of its highest bit. *)
Theorem count_high_zeros_exact x s :
  in_s64 x → x ≠ 0 →
  primitive_machine_word_count_high_zeros x s = Ok (63 - Z.log2 (u64 x)) s.
Proof.
  intros Hx H0. unfold primitive_machine_word_count_high_zeros.
  rewrite (proj2 (Z.eqb_neq x 0)) by done. pose proof (u64_range x) as Hu.
  assert (0 < u64 x) as Hp by word.
  destruct (scan_high_nibble_ok 16 (u64 x) 0 Hu) as (j & E & B).
  { change (2 ^ (4 * 16%nat)) with 18446744073709551616. lia. }
  rewrite (lift_ok _ _ _ _ E). unfold mret, M_ret. f_equal.
  set (v := 2 ^ (4 * j) * u64 x) in *.
  assert (0 < v / 2 ^ 60 < 16) as Bi by zmod. rewrite high_zeros_table_ok by done.
  assert (Z.log2 v = 4 * j + Z.log2 (u64 x)) as E1.
  { unfold v. rewrite Z.mul_comm, Z.log2_mul_pow2 by lia. lia. }
  assert (Z.log2 v = 60 + Z.log2 (v / 2 ^ 60)) as E2.
  { rewrite <- Z.shiftr_div_pow2, Z.log2_shiftr by lia.
    assert (60 <= Z.log2 v) by (apply Z.log2_le_pow2; lia). lia. }
  lia.
Qed.

Lemma count_high_zeros_exact_witness :
  primitive_machine_word_count_high_zeros 96 (example_state [])
  = Ok (63 - Z.log2 (u64 96)) (example_state []).
Proof. apply (count_high_zeros_exact 96 (example_state [])); [word|lia]. Defined.

(** ** Boxing integers *)

(** The test of the three high bits is the test that the integer fits in a
    fixnum. *)
Lemma high_bits_fixnum x :
  in_s64 x →
  (negb (Z.land (u64 x) HIGH_BITS_AND_SIGN =? 0) &&
   negb (Z.land (u64 x) HIGH_BITS_AND_SIGN =? HIGH_BITS_AND_SIGN))
  = negb (bool_decide (in_fixnum x)).
Proof.
  intros Hx. change HIGH_BITS_AND_SIGN with ((2 ^ 3 - 1) * 2 ^ 61).
  rewrite land_mask_shift by done. pose proof (u64_range x) as Hu.
  assert (0 <= u64 x / 2 ^ 61 < 8) as B by (unfold in_u64 in Hu; zmod).
  change (2 ^ 3) with 8. rewrite Z.mod_small by done.
  destruct (decide (in_fixnum x)) as [F|F]; unfold in_fixnum in *.
  - rewrite bool_decide_true by done.
    destruct (Z.eqb_spec (u64 x / 2 ^ 61 * 2 ^ 61) 0); [done|].
    destruct (Z.eqb_spec (u64 x / 2 ^ 61 * 2 ^ 61) ((8 - 1) * 2 ^ 61)); [done|].
    exfalso. clear B. unfold in_u64, u64 in *. zmod.
  - rewrite bool_decide_false by done. unfold in_s64 in Hx.
    destruct (Z.eqb_spec (u64 x / 2 ^ 61 * 2 ^ 61) 0) as [E|_].
    { exfalso. clear B. unfold in_u64, u64 in *. zmod. }
    destruct (Z.eqb_spec (u64 x / 2 ^ 61 * 2 ^ 61) ((8 - 1) * 2 ^ 61)) as [E|]; [|done].
    exfalso. clear B. unfold in_u64, u64 in *. zmod.
Qed.

(** A fresh double integer, and nothing else is touched. *)
Lemma make_double_integer_ok s low high :
  wf s →
  ∃ s', make_double_integer low high s = Ok (brk s) s' ∧ wf s' ∧
    arr (mem s') (brk s) [KLdouble_integerGVKeW; low; high] ∧ heap (mem s) ⊆ heap (mem s').
Proof.
  intros W. unfold make_double_integer. mstep (alloc_words_ok 3 s ltac:(lia)).
  set (s1 := after_alloc 3 s).
  assert (mapped (mem s1) (brk s) 3) as M1 by by apply mapped_after_alloc.
  assert (∀ m j, mapped m (brk s) 3 → 0 <= j < 3 → is_Some (m !! idx (brk s) j)) as At
    by (intros m j Hm Hj; by apply Hm).
  mstep (store_ok s1 (idx (brk s) 0) KLdouble_integerGVKeW (At _ 0 M1 ltac:(lia))).
  set (s2 := with_mem _ s1).
  assert (mapped (mem s2) (brk s) 3) as M2
    by exact (mapped_mset (mem s1) (idx (brk s) 0) [KLdouble_integerGVKeW] (brk s) 3 M1).
  mstep (store_ok s2 (idx (brk s) 1) low (At _ 1 M2 ltac:(lia))). set (s3 := with_mem _ s2).
  assert (mapped (mem s3) (brk s) 3) as M3
    by exact (mapped_mset (mem s2) (idx (brk s) 1) [low] (brk s) 3 M2).
  mstep (store_ok s3 (idx (brk s) 2) high (At _ 2 M3 ltac:(lia))). set (s' := with_mem _ s3).
  assert (mem s' = mset (mset (mem s) (brk s) (junk_words (junk s) (brk s) 3)) (brk s)
                     [KLdouble_integerGVKeW; low; high]) as Em.
  { transitivity (<[idx (brk s) 2:=high]> (<[idx (brk s) 1:=low]>
      (<[idx (brk s) 0:=KLdouble_integerGVKeW]> (mem s1)))); [done|].
    simpl mset at 1. unfold idx.
    replace (brk s + 8 * 0) with (brk s) by lia.
    by replace (brk s + 8 * 2) with (brk s + 8 + 8) by lia. }
  exists s'.
  assert (extends (mem s) (mem s') (brk s)) as X.
  { intros a Ha. rewrite Em, !lookup_mset_out; [done|..]; intros i Hi; lia. }
  split_and!; [done| |rewrite Em; apply arr_mset|by apply heap_extends].
  apply (wf_extend s (mem s') (brk s + 8 * 3)); [done|lia|done|].
  intros a Ha. rewrite Em. by apply (mset_after_alloc_fresh s 3).
Qed.

(** Boxing any signed word as an abstract integer and unboxing it gives the
    word back; integers of the fixnum range are tagged without touching
    memory, the others become a fresh double integer with the sign extended
    into its high word. *)
Theorem wrap_unwrap_abstract_integer x s :
  wf s → in_s64 x → in_u64 (brk s) → brk s mod 8 = 0 →
  ∃ v s', primitive_wrap_abstract_integer x s = Ok v s' ∧ wf s' ∧
    heap (mem s) ⊆ heap (mem s') ∧
    primitive_unwrap_abstract_integer v s' = Ok x s' ∧
    if decide (in_fixnum x) then v = I x ∧ s' = s
    else arr (mem s') v [KLdouble_integerGVKeW; u64 x; u64 (if x <? 0 then -1 else 0)].
Proof.
  intros W Hx Hb Hal. unfold primitive_wrap_abstract_integer. cbv zeta.
  rewrite high_bits_fixnum by done. destruct (decide (in_fixnum x)) as [F|F].
  - rewrite bool_decide_true by done. exists (I x), s. split_and!; try done.
    unfold primitive_unwrap_abstract_integer, primitive_integerQ.
    rewrite TAG_BITS_eq, I_eq. replace ((u64 (4 * x) + 1) mod 4 =? 1) with true by word.
    rewrite <- I_eq. simpl. by rewrite R_I_id.
  - rewrite bool_decide_false by done. simpl.
    destruct (make_double_integer_ok s (u64 x) (u64 (if x <? 0 then -1 else 0)) W)
      as (s' & E & W' & A & Hh).
    exists (brk s), s'. split_and!; try done.
    unfold primitive_unwrap_abstract_integer, primitive_integerQ. rewrite TAG_BITS_eq.
    rewrite (proj2 (Z.eqb_neq (brk s mod 4) 1)) by (clear - Hal; zmod).
    apply arr_cons in A as [_ A]. apply arr_cons in A as [A _].
    assert (mem s' !! idx (brk s) 1 = Some (u64 x)) as A' by done.
    simpl. mstep (load_ok _ _ _ A'). unfold mret, M_ret. by rewrite s64_u64, s64_id.
Qed.

Lemma wrap_unwrap_abstract_integer_witness :
  ∃ v s', primitive_wrap_abstract_integer 9223372036854775807 (example_state []) = Ok v s' ∧
    primitive_unwrap_abstract_integer v s' = Ok 9223372036854775807 s'.
Proof.
  destruct (wrap_unwrap_abstract_integer 9223372036854775807 (example_state []))
    as (v & s' & E & _ & _ & U & _); [eval_mem|word|by vm_compute|reflexivity|].
  exists v, s'. exact (conj E U).
Defined.

(** The unsigned variant boxes an integer from 2^61 to 2^62 - 1 as a fixnum that
    reads back as a negative one. *)
Lemma wrap_unsigned_wrong s :
  primitive_wrap_unsigned_abstract_integer 2305843009213693952 s
  = Ok (I 2305843009213693952) s ∧
  primitive_unwrap_abstract_integer (I 2305843009213693952) s = Ok (-2305843009213693952) s.
Proof. split; reflexivity. Qed.
