(* ===== verification/Nlx.v ===== *)
(** * Non-local exits

    The frames of bind-exit blocks and unwind-protect forms, and the protocol
    that unwinds them ([c-run-time-nlx.c]).  A frame is a record at an address;
    the [jmp_buf] it starts with is identified with that address, so a
    [longjmp] is an outcome that names the frame whose [setjmp] returns again.
    The compiled code around the run-time calls is the one the C back end
    emits for [block] and [cleanup]; it is modelled by [exec] on a small
    language of control, and compared with a direct semantics, [sem]. *)

From S2P Require Import Prelude Memory.
From stdpp Require Import base tactics option list numbers gmap.
From Stdlib Require Import ZArith Lia Bool.

Local Open Scope Z_scope.

(** ** Frames *)

(** [struct _mv] *)
Record MV := mkMV { mv_count : Z; mv_value : list Z }.

(** [struct _bind_exit_frame] *)
Record Bind_exit_frame := mkBef {
  bef_return_values : MV;
  present_unwind_protect_frame : Z
}.

(** [struct _unwind_protect_frame] *)
Record Unwind_protect_frame := mkUwp {
  uwp_return_values : MV;
  ultimate_destination : Z;
  previous_unwind_protect_frame : Z
}.

(** The part of a thread's state the protocol uses: the two fields of the
    environment block, the frames, and the observable effects so far. *)
Record nlx_state := mkNlx {
  teb_values : MV;
  teb_uwp_frame : Z;
  befs : gmap Z Bind_exit_frame;
  uwps : gmap Z Unwind_protect_frame;
  stack_pointer : Z;
  events : list Z
}.

Definition with_values (v : MV) (s : nlx_state) : nlx_state :=
  mkNlx v (teb_uwp_frame s) (befs s) (uwps s) (stack_pointer s) (events s).
Definition with_uwp_frame (p : Z) (s : nlx_state) : nlx_state :=
  mkNlx (teb_values s) p (befs s) (uwps s) (stack_pointer s) (events s).
Definition with_bef (a : Z) (b : Bind_exit_frame) (s : nlx_state) : nlx_state :=
  mkNlx (teb_values s) (teb_uwp_frame s) (<[a := b]> (befs s)) (uwps s) (stack_pointer s)
        (events s).
Definition with_uwp (a : Z) (u : Unwind_protect_frame) (s : nlx_state) : nlx_state :=
  mkNlx (teb_values s) (teb_uwp_frame s) (befs s) (<[a := u]> (uwps s)) (stack_pointer s)
        (events s).

(** ** Operations *)

(** What a piece of C code does last: return, or [longjmp] to the [setjmp] of
    the frame at an address. *)
Inductive control :=
| Returned (v : Z)
| Jumped (frame : Z).

(** [COPY_WORDS] of [n] values, from index [i] on. *)
Definition copy_values (i n : nat) (src dst : list Z) : list Z :=
  take i dst ++ take n (drop i src) ++ drop (i + n) dst.

(** The multiple values with a given first one, as [FALL_THROUGH_UNWIND] and
    [NLX] save them in the frame's area [dst]. *)
Definition save_values (argument : Z) (v dst : MV) : MV :=
  let value := <[0%nat := argument]> (mv_value dst) in
  mkMV (mv_count v)
       (if 1 <? mv_count v
        then copy_values 1 (Z.to_nat (mv_count v - 1)) (mv_value v) value else value).

Definition nlx_step (target : Z) (s : nlx_state) : option (control * nlx_state) :=
  b ← befs s !! target;
  next_frame ← uwps s !! teb_uwp_frame s;
  if teb_uwp_frame s =? present_unwind_protect_frame b
  then
    Some (Jumped target,
          with_uwp (teb_uwp_frame s)
            (mkUwp (uwp_return_values next_frame) NULL
                   (previous_unwind_protect_frame next_frame)) s)
  else
    let p := previous_unwind_protect_frame next_frame in
    u ← uwps s !! p;
    Some (Jumped (teb_uwp_frame s),
          with_uwp p (mkUwp (uwp_return_values u) target (previous_unwind_protect_frame u))
            (with_uwp_frame p s)).

Definition FALL_THROUGH_UNWIND (argument : Z) (s : nlx_state) : option nlx_state :=
  u ← uwps s !! teb_uwp_frame s;
  Some (with_uwp (teb_uwp_frame s)
          (mkUwp (save_values argument (teb_values s) (uwp_return_values u)) NULL
                 (previous_unwind_protect_frame u)) s).

Definition CONTINUE_UNWIND (s : nlx_state) : option (control * nlx_state) :=
  u ← uwps s !! teb_uwp_frame s;
  if negb (ultimate_destination u =? NULL) then nlx_step (ultimate_destination u) s
  else
    let r := uwp_return_values u in
    let n := mv_count r in
    let value := copy_values 0 (Z.to_nat n) (mv_value r) (mv_value (teb_values s)) in
    let s := with_uwp_frame (previous_unwind_protect_frame u) (with_values (mkMV n value) s) in
    if n =? 0 then Some (Returned DFALSE, s)
    else v ← head value; Some (Returned v, s).

Definition NLX (target argument : Z) (s : nlx_state) : option (control * nlx_state) :=
  b ← befs s !! target;
  nlx_step target
    (with_bef target
       (mkBef (save_values argument (teb_values s) (bef_return_values b))
              (present_unwind_protect_frame b)) s).

Definition SETUP_EXIT_FRAME (frame : Z) (s : nlx_state) : option nlx_state :=
  b ← befs s !! frame;
  Some (with_bef frame (mkBef (bef_return_values b) (teb_uwp_frame s)) s).

Definition SETUP_UNWIND_FRAME (frame : Z) (s : nlx_state) : option nlx_state :=
  u ← uwps s !! frame;
  Some (with_uwp_frame frame
          (with_uwp frame (mkUwp (uwp_return_values u) NULL (teb_uwp_frame s)) s)).

Definition FRAME_RETVAL (frame : Z) (s : nlx_state) : option (Z * nlx_state) :=
  b ← befs s !! frame;
  let r := bef_return_values b in
  let value := copy_values 0 (Z.to_nat (mv_count r)) (mv_value r) (mv_value (teb_values s)) in
  v ← head (mv_value r);
  Some (v, with_values (mkMV (mv_count r) value) s).

(** ** Compiled code

    A language of control: calls with a visible effect that return some values,
    sequences, [block (exit) ... end], calls of the exit procedure of the
    [k]-th enclosing block, and [block () body cleanup ... end]. *)
Inductive code :=
| Call (event : Z) (vals : list Z)
| Seq (c1 c2 : code)
| Block (body : code)
| Exit (k : nat) (vals : list Z)
| Protect (body cleanup : code).

(** Returning [vals]: the first value is the C result, the others and the count
    are in the multiple-value area; the area's first word is not written. *)
Definition return_values (vals : list Z) (s : nlx_state) : Z * nlx_state :=
  (default DFALSE (head vals),
   with_values (mkMV (length vals)
                  (copy_values 1 (length vals - 1) vals (mv_value (teb_values s)))) s).

(** A frame on the C stack; its contents are whatever was there. *)
Definition junk_MV : MV := mkMV 0 (replicate (Z.to_nat VALUES_MAX) 0).

Definition enter_exit_frame (s : nlx_state) : option (Z * nlx_state) :=
  let a := stack_pointer s in
  let s := with_bef a (mkBef junk_MV NULL) s in
  s ← SETUP_EXIT_FRAME a
        (mkNlx (teb_values s) (teb_uwp_frame s) (befs s) (uwps s) (a + 1) (events s));
  Some (a, s).

Definition enter_unwind_frame (s : nlx_state) : option (Z * nlx_state) :=
  let a := stack_pointer s in
  let s := with_uwp a (mkUwp junk_MV NULL NULL) s in
  s ← SETUP_UNWIND_FRAME a
        (mkNlx (teb_values s) (teb_uwp_frame s) (befs s) (uwps s) (a + 1) (events s));
  Some (a, s).

(** Each time the [setjmp] of an unwind-protect frame returns again the cleanup
    runs again; [retries] bounds that. *)
Fixpoint run_cleanup (cleanup : nlx_state → option (control * nlx_state)) (frame : Z)
    (retries : nat) (s : nlx_state) : option (control * nlx_state) :=
  '(o, s) ← cleanup s;
  match o with
  | Returned _ => CONTINUE_UNWIND s
  | Jumped f =>
      if f =? frame
      then match retries with
           | O => None
           | S retries => run_cleanup cleanup frame retries s
           end
      else Some (Jumped f, s)
  end.

(** The code the C back end emits; [env] holds the frames of the enclosing
    blocks, innermost first. *)
Fixpoint exec (retries : nat) (c : code) (env : list Z) (s : nlx_state)
  : option (control * nlx_state) :=
  match c with
  | Call event vals =>
      let '(v, s) := return_values vals s in
      Some (Returned v,
            mkNlx (teb_values s) (teb_uwp_frame s) (befs s) (uwps s) (stack_pointer s)
                  (events s ++ [event]))
  | Seq c1 c2 =>
      '(o, s) ← exec retries c1 env s;
      match o with Returned _ => exec retries c2 env s | Jumped f => Some (Jumped f, s) end
  | Block body =>
      '(frame, s) ← enter_exit_frame s;
      '(o, s) ← exec retries body (frame :: env) s;
      match o with
      | Returned v => Some (Returned v, s)
      | Jumped f =>
          if f =? frame then '(v, s) ← FRAME_RETVAL frame s; Some (Returned v, s)
          else Some (Jumped f, s)
      end
  | Exit k vals =>
      target ← env !! k;
      let '(v, s) := return_values vals s in NLX target v s
  | Protect body cleanup =>
      '(frame, s) ← enter_unwind_frame s;
      '(o, s) ← exec retries body env s;
      match o with
      | Returned v =>
          s ← FALL_THROUGH_UNWIND v s;
          run_cleanup (exec retries cleanup env) frame retries s
      | Jumped f =>
          if f =? frame then run_cleanup (exec retries cleanup env) frame retries s
          else Some (Jumped f, s)
      end
  end.

(** ** The meaning of the language *)

Inductive result :=
| Done (vals : list Z)
| Exiting (k : nat) (vals : list Z).

(** The effects in order, and how the code ends. *)
Fixpoint sem (c : code) : list Z * result :=
  match c with
  | Call event vals => ([event], Done vals)
  | Seq c1 c2 =>
      match (sem c1).2 with
      | Done _ => ((sem c1).1 ++ (sem c2).1, (sem c2).2)
      | Exiting k vals => sem c1
      end
  | Block body =>
      ((sem body).1,
       match (sem body).2 with
       | Exiting 0 vals => Done vals
       | Exiting (S k) vals => Exiting k vals
       | Done vals => Done vals
       end)
  | Exit k vals => ([], Exiting k vals)
  | Protect body cleanup =>
      ((sem body).1 ++ (sem cleanup).1,
       match (sem cleanup).2 with
       | Done _ => (sem body).2
       | Exiting k vals => Exiting k vals
       end)
  end.

(** No exit procedure is called. *)
Fixpoint calm (c : code) : bool :=
  match c with
  | Call _ _ => true
  | Seq c1 c2 => calm c1 && calm c2
  | Block body => calm body
  | Exit _ _ => false
  | Protect body cleanup => calm body && calm cleanup
  end.

(** Exits stay within [depth] blocks, results fit in the multiple-value area,
    and cleanups call no exit procedure. *)
Fixpoint well_formed (depth : nat) (c : code) : bool :=
  match c with
  | Call _ vals => Z.of_nat (length vals) <=? VALUES_MAX
  | Seq c1 c2 => well_formed depth c1 && well_formed depth c2
  | Block body => well_formed (S depth) body
  | Exit k vals => (k <? depth)%nat && (Z.of_nat (length vals) <=? VALUES_MAX)
  | Protect body cleanup => well_formed depth body && well_formed depth cleanup && calm cleanup
  end.

(** ** The initial state: the top frame of the thread ([make_teb]) *)

Definition top_uwp_frame : Z := 1.
Definition make_teb : nlx_state :=
  mkNlx (mkMV 0 (replicate (Z.to_nat VALUES_MAX) 0)) top_uwp_frame ∅
        {[ top_uwp_frame := mkUwp (mkMV 0 (replicate (Z.to_nat VALUES_MAX) 0)) NULL NULL ]} 2 [].

Definition run_code (retries : nat) (c : code) : option (control * nlx_state) :=
  exec retries c [] make_teb.

(** ** Multiple values: facts *)

(** [vals] as a C call returns them: the first is [x], the others are in [v]. *)
Record holds (v : MV) (x : Z) (vals : list Z) : Prop := {
  ho_count : mv_count v = length vals;
  ho_max : length vals <= VALUES_MAX;
  ho_first : x = default DFALSE (head vals);
  ho_rest : drop 1 (take (length vals) (mv_value v)) = drop 1 vals
}.

(** [vals] as a frame keeps them. *)
Record saved (v : MV) (x : Z) (vals : list Z) : Prop := {
  sa_count : mv_count v = length vals;
  sa_max : length vals <= VALUES_MAX;
  sa_first : x = default DFALSE (head vals);
  sa_head : head (mv_value v) = Some x;
  sa_values : take (length vals) (mv_value v) = vals
}.

Definition full (v : MV) : Prop := length (mv_value v) = Z.to_nat VALUES_MAX.

Lemma length_copy_values i n src dst :
  (i + n ≤ length dst)%nat → (i + n ≤ length src)%nat →
  length (copy_values i n src dst) = length dst.
Proof.
  intros H1 H2. unfold copy_values.
  rewrite !length_app, !length_take, !length_drop. lia.
Qed.

Lemma save_values_full x v dst :
  full v → full dst → 0 <= mv_count v <= VALUES_MAX → full (save_values x v dst).
Proof.
  unfold full, save_values. intros Hv Hd Hc. simpl. destruct (Z.ltb_spec 1 (mv_count v)).
  - rewrite length_copy_values; rewrite ?length_insert; lia.
  - by rewrite length_insert.
Qed.

Lemma save_values_saved x v dst vals :
  holds v x vals → full v → full dst → saved (save_values x v dst) x vals.
Proof.
  intros [Hc Hm Hf Hr] Hv Hd. unfold full in *.
  destruct dst as [dc [|d0 dl]]; [done|]. destruct v as [vc [|v0 vl]]; [done|].
  cbn -[Z.of_nat Z.to_nat] in *. unfold save_values. cbn -[Z.of_nat Z.to_nat]. subst vc x.
  destruct vals as [|x0 vals]; [by constructor|].
  destruct (Z.ltb_spec 1 (Z.of_nat (length (x0 :: vals)))) as [L|L].
  - replace (Z.to_nat _) with (length vals) by (cbn [length]; lia).
    cbn [take drop length] in Hr. rewrite !drop_0 in Hr.
    unfold copy_values. cbn -[Z.of_nat Z.to_nat]. rewrite drop_0, take_0. cbn [app].
    constructor; try done; cbn -[Z.of_nat Z.to_nat]. f_equal.
    rewrite Hr. apply take_app_length.
  - destruct vals; [by constructor|]. cbn [length] in L. lia.
Qed.

(** Copying a frame's values back. *)
Lemma restore_holds r x vals cur :
  saved r x vals → length cur = Z.to_nat VALUES_MAX → full r →
  holds (mkMV (mv_count r) (copy_values 0 (Z.to_nat (mv_count r)) (mv_value r) cur)) x vals ∧
  full (mkMV (mv_count r) (copy_values 0 (Z.to_nat (mv_count r)) (mv_value r) cur)).
Proof.
  intros [Hc Hm Hf Hh Hv] Hl Hr. unfold full in *. rewrite Hc, Nat2Z.id. split.
  - constructor; simpl; [done|done|done|]. unfold copy_values. simpl. rewrite drop_0, Hv.
    by rewrite take_app_length.
  - simpl. rewrite length_copy_values; lia.
Qed.

Lemma return_values_holds vals s :
  length vals <= VALUES_MAX → full (teb_values s) →
  holds (teb_values (return_values vals s).2) (return_values vals s).1 vals ∧
  full (teb_values (return_values vals s).2).
Proof.
  intros Hm Hs. unfold return_values, full in *. simpl.
  destruct (mv_value (teb_values s)) as [|w0 wl] eqn:E; [done|]. split.
  - constructor; simpl; [done|done|done|]. unfold copy_values.
    destruct vals as [|x vals]; [done|]. simpl. rewrite Nat.sub_0_r, !drop_0.
    rewrite (firstn_all vals) at 1. by rewrite take_app_length.
  - unfold copy_values. simpl. rewrite !length_app, length_drop, length_take, length_drop.
    unfold VALUES_MAX in *. simpl in *. destruct vals; simpl in *; lia.
Qed.

(** ** The frames of a state *)

Record good (s : nlx_state) : Prop := {
  go_values : full (teb_values s);
  go_sp : 0 < stack_pointer s;
  go_here : is_Some (uwps s !! teb_uwp_frame s);
  go_bef a b : befs s !! a = Some b →
    0 < a < stack_pointer s ∧ present_unwind_protect_frame b < stack_pointer s ∧
    full (bef_return_values b);
  go_uwp a u : uwps s !! a = Some u →
    0 < a < stack_pointer s ∧ full (uwp_return_values u)
}.

(** [s'] comes after [s]: the older frames are there and linked as before, and
    untouched if [strict]. *)
Record after (strict : bool) (s s' : nlx_state) : Prop := {
  af_sp : stack_pointer s <= stack_pointer s';
  af_bef a b : befs s !! a = Some b → ∃ b', befs s' !! a = Some b' ∧
    present_unwind_protect_frame b' = present_unwind_protect_frame b ∧
    (strict = true → b' = b);
  af_uwp a u : uwps s !! a = Some u → ∃ u', uwps s' !! a = Some u' ∧
    previous_unwind_protect_frame u' = previous_unwind_protect_frame u ∧
    (strict = true → u' = u)
}.

Lemma after_refl strict s : after strict s s.
Proof. constructor; [lia|eauto|eauto]. Qed.

Lemma after_trans p q s1 s2 s3 : after p s1 s2 → after q s2 s3 → after (p && q) s1 s3.
Proof.
  intros [A1 A2 A3] [B1 B2 B3]. constructor; [lia| |].
  - intros a b H. destruct (A2 a b H) as (b' & H' & E & S).
    destruct (B2 a b' H') as (b'' & H'' & E' & S'). exists b''. split_and!; [done|congruence|].
    intros [-> ->]%andb_true_iff. rewrite S' by done. auto.
  - intros a u H. destruct (A3 a u H) as (u' & H' & E & S).
    destruct (B3 a u' H') as (u'' & H'' & E' & S'). exists u''. split_and!; [done|congruence|].
    intros [-> ->]%andb_true_iff. rewrite S' by done. auto.
Qed.

Lemma after_weaken p s s' : after p s s' → after false s s'.
Proof. intros A. rewrite <- (andb_false_r p). eapply after_trans; [done|apply after_refl]. Qed.

(** [nlx_step] at the block's own level, and one level further in. *)
Lemma nlx_step_here s b bf :
  good s → befs s !! b = Some bf → present_unwind_protect_frame bf = teb_uwp_frame s →
  ∃ s', nlx_step b s = Some (Jumped b, s') ∧ good s' ∧ after false s s' ∧
    teb_uwp_frame s' = teb_uwp_frame s ∧ befs s' = befs s ∧ teb_values s' = teb_values s ∧
    events s' = events s.
Proof.
  intros G Hb Hp. destruct (go_here s G) as [u Hu]. unfold nlx_step. rewrite Hb, Hu. simpl.
  rewrite Hp, Z.eqb_refl. eexists. split; [done|]. split_and!; try done.
  - destruct G as [G1 G2 G3 G4 G5]. constructor; simpl; try done.
    + rewrite lookup_insert_eq. eauto.
    + intros a v. destruct (decide (a = teb_uwp_frame s)) as [->|N].
      * rewrite lookup_insert_eq. intros [= <-]. by apply (G5 _ u).
      * rewrite lookup_insert_ne by done. apply G5.
  - constructor; simpl; [lia|eauto|]. intros a v Ha.
    destruct (decide (a = teb_uwp_frame s)) as [->|N].
    + rewrite lookup_insert_eq. assert (v = u) as -> by congruence. eexists. done.
    + rewrite lookup_insert_ne by done. eauto.
Qed.

Lemma nlx_step_up s b bf u :
  good s → befs s !! b = Some bf → present_unwind_protect_frame bf ≠ teb_uwp_frame s →
  uwps s !! teb_uwp_frame s = Some u → is_Some (uwps s !! previous_unwind_protect_frame u) →
  let p := previous_unwind_protect_frame u in
  ∃ s', nlx_step b s = Some (Jumped (teb_uwp_frame s), s') ∧ good s' ∧ after false s s' ∧
    teb_uwp_frame s' = p ∧ befs s' = befs s ∧ events s' = events s ∧
    ∃ v, uwps s' !! p = Some v ∧ ultimate_destination v = b.
Proof.
  intros G Hb Hp Hu [w Hw] p. unfold nlx_step. rewrite Hb, Hu. simpl.
  rewrite (proj2 (Z.eqb_neq _ _)) by congruence. rewrite Hw. simpl. eexists. split; [done|].
  split_and!; try done.
  - destruct G as [G1 G2 G3 G4 G5]. constructor; simpl; try done.
    + rewrite lookup_insert_eq. eauto.
    + intros a v. destruct (decide (a = p)) as [->|N].
      * unfold p. rewrite lookup_insert_eq. intros [= <-]. by apply (G5 _ w).
      * rewrite lookup_insert_ne by done. apply G5.
  - constructor; simpl; [lia|eauto|]. intros a v Ha. destruct (decide (a = p)) as [->|N].
    + unfold p in *. rewrite lookup_insert_eq. assert (v = w) as -> by congruence. eexists. done.
    + rewrite lookup_insert_ne by done. eauto.
  - simpl. unfold p. rewrite lookup_insert_eq. eexists. done.
Qed.

(** Where a step can lead. *)
Lemma nlx_step_target b s r :
  nlx_step b s = Some r → r.1 = Jumped b ∨ r.1 = Jumped (teb_uwp_frame s).
Proof.
  unfold nlx_step. destruct (befs s !! b); [|done].
  destruct (uwps s !! teb_uwp_frame s); [|done]. simpl.
  destruct (_ =? _); [intros [= <-]; auto|]. destruct (uwps s !! _); [|done].
  intros [= <-]. auto.
Qed.

(** Entering a block and a protected body. *)
Lemma enter_exit_frame_ok s :
  good s → ∃ s', enter_exit_frame s = Some (stack_pointer s, s') ∧ good s' ∧ after true s s' ∧
    teb_uwp_frame s' = teb_uwp_frame s ∧ events s' = events s ∧
    ∃ b, befs s' !! stack_pointer s = Some b ∧ present_unwind_protect_frame b = teb_uwp_frame s.
Proof.
  intros G. pose proof (go_here s G) as [u Hu]. pose proof (go_uwp s G _ _ Hu) as [Bu _].
  unfold enter_exit_frame, SETUP_EXIT_FRAME. simpl. rewrite lookup_insert_eq. simpl.
  eexists. split; [done|]. destruct G as [G1 G2 G3 G4 G5]. split_and!; try done.
  - constructor; simpl; [done|lia|done| |].
    + intros a b. destruct (decide (a = stack_pointer s)) as [->|N].
      * rewrite lookup_insert_eq. intros [= <-]. simpl. split_and!; try lia. done.
      * rewrite !lookup_insert_ne by done. intros H. destruct (G4 a b H) as (? & ? & ?).
        split_and!; try lia. done.
    + intros a v H. destruct (G5 a v H). split; [lia|done].
  - constructor; simpl; [lia| |eauto]. intros a b H. pose proof (G4 a b H).
    rewrite !lookup_insert_ne by lia. eauto.
  - simpl. rewrite lookup_insert_eq. eexists. done.
Qed.

Lemma enter_unwind_frame_ok s :
  good s → ∃ s', enter_unwind_frame s = Some (stack_pointer s, s') ∧ good s' ∧ after true s s' ∧
    teb_uwp_frame s' = stack_pointer s ∧ events s' = events s ∧
    ∃ u, uwps s' !! stack_pointer s = Some u ∧ previous_unwind_protect_frame u = teb_uwp_frame s.
Proof.
  intros G. unfold enter_unwind_frame, SETUP_UNWIND_FRAME. simpl. rewrite lookup_insert_eq. simpl.
  eexists. split; [done|]. destruct G as [G1 G2 G3 G4 G5]. split_and!; try done.
  - constructor; simpl; [done|lia|rewrite lookup_insert_eq; eauto| |].
    + intros a b H. destruct (G4 a b H) as (? & ? & ?). split_and!; try lia. done.
    + intros a u. destruct (decide (a = stack_pointer s)) as [->|N].
      * rewrite lookup_insert_eq. intros [= <-]. split; [lia|done].
      * rewrite !lookup_insert_ne by done. intros H. destruct (G5 a u H). split; [lia|done].
  - constructor; simpl; [lia|eauto|]. intros a u H. destruct (G5 a u H) as [? _].
    rewrite !lookup_insert_ne by lia. eauto.
  - simpl. rewrite lookup_insert_eq. eexists. done.
Qed.

Lemma holds_bounds v x vals : holds v x vals → 0 <= mv_count v <= VALUES_MAX.
Proof. intros [-> H _ _]. lia. Qed.

(** Leaving a protected body normally, and going on after its cleanup. *)
Lemma FALL_THROUGH_ok s x vals u :
  good s → holds (teb_values s) x vals → uwps s !! teb_uwp_frame s = Some u →
  ∃ s' u', FALL_THROUGH_UNWIND x s = Some s' ∧ good s' ∧ befs s' = befs s ∧
    uwps s' = <[teb_uwp_frame s := u']> (uwps s) ∧ stack_pointer s' = stack_pointer s ∧
    teb_uwp_frame s' = teb_uwp_frame s ∧ events s' = events s ∧
    saved (uwp_return_values u') x vals ∧ ultimate_destination u' = NULL ∧
    previous_unwind_protect_frame u' = previous_unwind_protect_frame u.
Proof.
  intros G H Hu. unfold FALL_THROUGH_UNWIND. rewrite Hu. simpl. eexists _, _.
  split; [done|]. pose proof (go_uwp s G _ _ Hu) as [Bu Fu].
  assert (full (save_values x (teb_values s) (uwp_return_values u))) as F'.
  { apply save_values_full; [apply G|done|by eapply holds_bounds]. }
  destruct G as [G1 G2 G3 G4 G5]. split_and!; try done.
  - constructor; simpl; try done; [rewrite lookup_insert_eq; eauto|].
    intros a v. destruct (decide (a = teb_uwp_frame s)) as [->|N].
    + rewrite lookup_insert_eq. by intros [= <-].
    + rewrite lookup_insert_ne by done. apply G5.
  - by apply save_values_saved.
Qed.

Lemma CONTINUE_ok s x vals u :
  good s → uwps s !! teb_uwp_frame s = Some u → ultimate_destination u = NULL →
  saved (uwp_return_values u) x vals → is_Some (uwps s !! previous_unwind_protect_frame u) →
  ∃ s', CONTINUE_UNWIND s = Some (Returned x, s') ∧ good s' ∧ befs s' = befs s ∧
    uwps s' = uwps s ∧ stack_pointer s' = stack_pointer s ∧ events s' = events s ∧
    teb_uwp_frame s' = previous_unwind_protect_frame u ∧ holds (teb_values s') x vals.
Proof.
  intros G Hu Hn Hs Hp. unfold CONTINUE_UNWIND. rewrite Hu. simpl. rewrite Hn. simpl.
  destruct (restore_holds _ x vals (mv_value (teb_values s)) Hs) as [Hr Hf];
    [apply G|by apply (go_uwp s G _ _ Hu)|].
  set (s' := with_uwp_frame _ (with_values _ s)).
  assert (good s') as G' by (destruct G; by constructor).
  destruct Hs as [Sc Sm Sf Sh Sv]. exists s'. split_and!; try done.
  destruct (Z.eqb_spec (mv_count (uwp_return_values u)) 0) as [E|E].
  - destruct vals; [by rewrite Sf|]. rewrite Sc in E. cbn [length] in E. lia.
  - assert (∃ l, copy_values 0 (Z.to_nat (mv_count (uwp_return_values u)))
                   (mv_value (uwp_return_values u)) (mv_value (teb_values s)) = x :: l) as [l ->].
    { destruct (mv_value (uwp_return_values u)) as [|w l]; [done|]. injection Sh as ->.
      rewrite Sc, Nat2Z.id in *. destruct vals as [|v vals]; [done|].
      unfold copy_values. simpl. eauto. }
    done.
Qed.

Lemma NLX_ok s b bf x vals :
  good s → holds (teb_values s) x vals → befs s !! b = Some bf →
  ∃ s1 bf', NLX b x s = nlx_step b s1 ∧ good s1 ∧ after false s s1 ∧
    befs s1 !! b = Some bf' ∧ saved (bef_return_values bf') x vals ∧
    teb_uwp_frame s1 = teb_uwp_frame s ∧ events s1 = events s.
Proof.
  intros G H Hb. unfold NLX. rewrite Hb. simpl. eexists _, _. split; [done|].
  pose proof (go_bef s G _ _ Hb) as (Bb & Pb & Fb).
  assert (full (save_values x (teb_values s) (bef_return_values bf))) as F'.
  { apply save_values_full; [apply G|done|by eapply holds_bounds]. }
  destruct G as [G1 G2 G3 G4 G5]. split_and!; try done.
  - constructor; simpl; try done. intros a v. destruct (decide (a = b)) as [->|N].
    + rewrite lookup_insert_eq. by intros [= <-].
    + rewrite lookup_insert_ne by done. apply G4.
  - constructor; simpl; [lia| |eauto]. intros a v Ha. destruct (decide (a = b)) as [->|N].
    + rewrite lookup_insert_eq. assert (v = bf) as -> by congruence. eexists. done.
    + rewrite lookup_insert_ne by done. eauto.
  - simpl. apply lookup_insert_eq.
  - by apply save_values_saved.
Qed.

Lemma FRAME_RETVAL_ok s b bf x vals :
  good s → befs s !! b = Some bf → saved (bef_return_values bf) x vals →
  ∃ s', FRAME_RETVAL b s = Some (x, s') ∧ good s' ∧ after true s s' ∧
    holds (teb_values s') x vals ∧ teb_uwp_frame s' = teb_uwp_frame s ∧ events s' = events s.
Proof.
  intros G Hb Hs. unfold FRAME_RETVAL. rewrite Hb. simpl. rewrite (sa_head _ _ _ Hs). simpl.
  destruct (restore_holds _ x vals (mv_value (teb_values s)) Hs) as [Hr Hf];
    [apply G|by apply (go_bef s G _ _ Hb)|].
  eexists. split; [done|]. split_and!; try done.
  - destruct G; by constructor.
  - constructor; simpl; [lia|eauto|eauto].
Qed.

(** ** The refinement *)

(** What running [c] from [s] comes to: as [sem] says, with the frames of the
    surrounding code in order; an exit that leaves [c] is the first step of
    its unwinding. *)
Definition runs (strict : bool) (m : option (control * nlx_state)) (env : list Z)
    (s : nlx_state) (r : list Z * result) : Prop :=
  match r.2 with
  | Done vals => ∃ x s', m = Some (Returned x, s') ∧ good s' ∧ after strict s s' ∧
      teb_uwp_frame s' = teb_uwp_frame s ∧ holds (teb_values s') x vals ∧
      events s' = events s ++ r.1
  | Exiting k vals => ∃ b x s1 bf, env !! k = Some b ∧ m = nlx_step b s1 ∧ good s1 ∧
      after false s s1 ∧ teb_uwp_frame s1 = teb_uwp_frame s ∧ befs s1 !! b = Some bf ∧
      saved (bef_return_values bf) x vals ∧ events s1 = events s ++ r.1
  end.

Definition env_ok (env : list Z) (s : nlx_state) : Prop :=
  Forall (λ a, is_Some (befs s !! a)) env.

Lemma env_ok_after p env s s' : after p s s' → env_ok env s → env_ok env s'.
Proof.
  intros A H. eapply Forall_impl; [exact H|]. intros a [b Hb].
  destruct (af_bef _ _ _ A a b Hb) as (b' & H' & _). eauto.
Qed.

Lemma calm_done c : calm c = true → ∃ vals, (sem c).2 = Done vals.
Proof.
  induction c; simpl; intros H; try done; eauto.
  - apply andb_true_iff in H as [H1 H2]. destruct (IHc1 H1) as [v ->]. by apply IHc2.
  - destruct (IHc H) as [v ->]. eauto.
  - apply andb_true_iff in H as [H1 H2]. destruct (IHc2 H2) as [v ->]. by apply IHc1.
Qed.

(** An exit that is not for a frame of this level passes through. *)
Lemma pass_through b s (m : option (control * nlx_state)) f (k : nlx_state → option (control * nlx_state)) :
  m = nlx_step b s → f ≠ b → f ≠ teb_uwp_frame s →
  ('(o, s') ← m;
   match o with
   | Returned v => Some (Returned v, s')
   | Jumped f' => if f' =? f then k s' else Some (Jumped f', s')
   end) = nlx_step b s.
Proof.
  intros -> Hb Hu. destruct (nlx_step b s) as [[o s']|] eqn:E; [|done].
  apply nlx_step_target in E as [E|E]; simpl in E; subst o; simpl;
    by rewrite (proj2 (Z.eqb_neq _ _)) by congruence.
Qed.

Definition exec_runs retries c : Prop := ∀ env s,
  well_formed (length env) c = true → good s → env_ok env s →
  runs (calm c) (exec retries c env s) env s (sem c).

(** Running a calm cleanup, then going on: normally or with an exit. *)
Lemma run_cleanup_ok retries c env s frame :
  exec_runs retries c → well_formed (length env) c = true → calm c = true → good s →
  env_ok env s →
  ∃ s', run_cleanup (exec retries c env) frame retries s = CONTINUE_UNWIND s' ∧ good s' ∧
    after true s s' ∧ teb_uwp_frame s' = teb_uwp_frame s ∧ events s' = events s ++ (sem c).1.
Proof.
  intros X Hw Hc G He. pose proof (X env s Hw G He) as R. unfold runs in R.
  destruct (calm_done c Hc) as [vals Ed]. rewrite Ed, Hc in R.
  destruct R as (x & s' & E & G' & A & U & _ & Ev). exists s'.
  split_and!; try done. destruct retries; simpl; by rewrite E.
Qed.

(** Code that leaves through an exit is not calm. *)
Lemma exiting_not_calm c ev k vals : sem c = (ev, Exiting k vals) → calm c = false.
Proof.
  intros E. destruct (calm c) eqn:Hc; [|done]. destruct (calm_done c Hc) as [v Ed].
  by rewrite E in Ed.
Qed.

Lemma exec_Block retries body : exec_runs retries body → exec_runs retries (Block body).
Proof.
  intros IH env s Hw G He. simpl in Hw. simpl exec. cbn [calm].
  destruct (enter_exit_frame_ok s G) as (s0 & E0 & G0 & A0 & U0 & V0 & b & Hb & Pb).
  rewrite E0. simpl. set (frame := stack_pointer s) in *.
  assert (env_ok (frame :: env) s0) as He0.
  { constructor; [eauto|by eapply env_ok_after]. }
  specialize (IH (frame :: env) s0 Hw G0 He0). unfold runs in IH |- *. simpl sem.
  destruct (sem body) as [ev r] eqn:Es. simpl in *. destruct r as [vals|[|k] vals].
  - destruct IH as (x & s' & -> & G' & A & U & H & Ev). exists x, s'.
    split_and!; try done; [|congruence|by rewrite Ev, V0].
    by apply (after_trans true _ _ s0).
  - rewrite (exiting_not_calm _ _ _ _ Es).
    destruct IH as (b' & x & s1 & bf & [= <-] & -> & G1 & A1 & U1 & Hbf & S & Ev).
    destruct (af_bef _ _ _ A1 frame b Hb) as (bf2 & Hbf2 & Pbf & _).
    assert (bf2 = bf) as -> by congruence.
    destruct (nlx_step_here s1 frame bf G1 Hbf) as (s2 & -> & G2 & A2 & U2 & B2 & _ & Ev2);
      [congruence|].
    simpl. rewrite Z.eqb_refl. rewrite <- B2 in Hbf.
    destruct (FRAME_RETVAL_ok s2 frame bf x vals G2 Hbf S) as (s3 & -> & G3 & A3 & H3 & U3 & Ev3).
    simpl. exists x, s3. split_and!; try done; [|congruence|by rewrite Ev3, Ev2, Ev, V0].
    apply (after_trans true false _ s0); [done|]. apply (after_trans false false _ s1); [done|].
    by apply (after_trans false true _ s2).
  - destruct IH as (b' & x & s1 & bf & Hk & E1 & G1 & A1 & U1 & Hbf & S & Ev).
    exists b', x, s1, bf. simpl in Hk.
    assert (is_Some (befs s !! b')) as [bb Hbb].
    { eapply Forall_lookup in He; [exact He|done]. }
    pose proof (go_bef s G _ _ Hbb) as [Hlt _].
    destruct (go_here s G) as [u Hu]. pose proof (go_uwp s G _ _ Hu) as [Hlu _].
    split_and!; try done; [| |congruence|by rewrite Ev, V0].
    + by apply pass_through; [exact E1|lia|rewrite U1, U0; lia].
    + by apply (after_trans true false _ s0).
Qed.

Lemma exec_Seq retries c1 c2 :
  exec_runs retries c1 → exec_runs retries c2 → exec_runs retries (Seq c1 c2).
Proof.
  intros IH1 IH2 env s Hw G He. simpl in Hw. apply andb_true_iff in Hw as [Hw1 Hw2].
  simpl exec. cbn [calm]. specialize (IH1 env s Hw1 G He). unfold runs in IH1 |- *. simpl sem.
  destruct (sem c1) as [ev1 r1] eqn:Es. simpl in *. destruct r1 as [vals|k vals].
  - destruct IH1 as (x & s1 & -> & G1 & A1 & U1 & H1 & Ev1). simpl.
    specialize (IH2 env s1 Hw2 G1 (env_ok_after _ _ _ _ A1 He)). unfold runs in IH2.
    destruct (sem c2) as [ev2 r2]. simpl in *. destruct r2 as [vals2|k vals2].
    + destruct IH2 as (x2 & s2 & -> & G2 & A2 & U2 & H2 & Ev2). exists x2, s2.
      split_and!; try done; [|congruence|by rewrite Ev2, Ev1, app_assoc].
      by eapply after_trans.
    + destruct IH2 as (b & x2 & s2 & bf & Hk & -> & G2 & A2 & U2 & Hbf & S & Ev2).
      exists b, x2, s2, bf. split_and!; try done; [|congruence|by rewrite Ev2, Ev1, app_assoc].
      eapply after_weaken. by eapply after_trans.
  - destruct IH1 as (b & x & s1 & bf & Hk & -> & G1 & A1 & U1 & Hbf & S & Ev).
    exists b, x, s1, bf. split_and!; try done. simpl.
    destruct (nlx_step b s1) as [[o s2]|] eqn:E; [|done].
    apply nlx_step_target in E as [E|E]; simpl in E; by subst o.
Qed.

Lemma exec_Call retries event vals : exec_runs retries (Call event vals).
Proof.
  intros env s Hw G He. simpl in Hw.
  destruct (return_values_holds vals s) as [H F]; [lia|apply G|].
  unfold runs. simpl in *. eexists _, _. split; [done|].
  split_and!; try done.
  - destruct G; by constructor.
  - constructor; simpl; [lia|eauto|eauto].
Qed.

Lemma exec_Exit retries k vals : exec_runs retries (Exit k vals).
Proof.
  intros env s Hw G He. simpl in Hw. apply andb_true_iff in Hw as [Hk Hm].
  apply Nat.ltb_lt in Hk. destruct (lookup_lt_is_Some_2 env k Hk) as [b Hb].
  assert (is_Some (befs s !! b)) as [bf Hbf] by (eapply Forall_lookup in He; [exact He|done]).
  destruct (return_values_holds vals s) as [H F]; [lia|apply G|].
  unfold runs. simpl. rewrite Hb. simpl. set (s0 := with_values _ s) in *.
  assert (good s0) as G0 by (destruct G; by constructor).
  destruct (NLX_ok s0 b bf (default DFALSE (head vals)) vals G0 H Hbf) as (s1 & bf' & -> & G1 & A1 & Hb1 & S & U & Ev).
  eexists b, _, s1, bf'. split_and!; try done.
  - destruct A1 as [A2 A3 A4]. by constructor.
  - by rewrite Ev, app_nil_r.
Qed.

(** The older frames of [s] do not include a frame set up since. *)
Lemma after_insert p s s1 s2 f u :
  after p s s1 → uwps s !! f = None → befs s2 = befs s1 → uwps s2 = <[f := u]> (uwps s1) →
  stack_pointer s2 = stack_pointer s1 → after p s s2.
Proof.
  intros [A1 A2 A3] Hf Eb Eu Es. constructor; [lia|by rewrite Eb|].
  intros a v Ha. rewrite Eu, lookup_insert_ne by congruence. auto.
Qed.

Lemma after_same p s s1 s2 :
  after p s s1 → befs s2 = befs s1 → uwps s2 = uwps s1 → stack_pointer s2 = stack_pointer s1 →
  after p s s2.
Proof.
  intros [A1 A2 A3] Eb Eu Es. constructor; [lia|by rewrite Eb|by rewrite Eu].
Qed.

Lemma exec_Protect retries body cleanup :
  exec_runs retries body → exec_runs retries cleanup → exec_runs retries (Protect body cleanup).
Proof.
  intros IH1 IH2 env s Hw G He. simpl in Hw.
  apply andb_true_iff in Hw as [Hw Hc]. apply andb_true_iff in Hw as [Hw1 Hw2].
  simpl exec. cbn [calm]. rewrite Hc, andb_true_r.
  destruct (enter_unwind_frame_ok s G) as (s0 & E0 & G0 & A0 & U0 & V0 & u & Hu & Pu).
  rewrite E0. simpl. set (frame := stack_pointer s) in *.
  specialize (IH1 env s0 Hw1 G0 (env_ok_after _ _ _ _ A0 He)). unfold runs in IH1 |- *.
  simpl sem. destruct (calm_done cleanup Hc) as [cvals Ec]. rewrite Ec.
  destruct (sem body) as [ev r] eqn:Es. simpl in *.
  destruct (go_here s G) as [up Hup]. destruct r as [vals|k vals].
  - destruct IH1 as (x & s1 & -> & G1 & A1 & U1 & H1 & Ev1). simpl.
    destruct (af_uwp _ _ _ A1 frame u Hu) as (u1 & Hu1 & Pu1 & _).
    assert (uwps s1 !! teb_uwp_frame s1 = Some u1) as Hu1' by (by rewrite U1, U0).
    destruct (FALL_THROUGH_ok s1 x vals u1 G1 H1 Hu1')
      as (s2 & u2 & -> & G2 & B2 & W2 & P2 & U2 & Ev2 & S2 & N2 & Pu2). simpl.
    assert (after (calm body) s s1) as As1 by by apply (after_trans true _ _ s0).
    assert (uwps s !! frame = None) as Hfr.
    { destruct (uwps s !! frame) eqn:Ef; [|done]. pose proof (go_uwp s G _ _ Ef). lia. }
    rewrite U1, U0 in W2.
    assert (after (calm body) s s2) as As2 by by eapply after_insert.
    destruct (run_cleanup_ok retries cleanup env s2 frame IH2 Hw2 Hc G2
      (env_ok_after _ _ _ _ As2 He)) as (s3 & -> & G3 & A3 & U3 & Ev3).
    assert (after (calm body) s s3) as As3.
    { rewrite <- (andb_true_r (calm body)). by eapply after_trans. }
    destruct (af_uwp _ _ _ A3 frame u2) as (u3 & Hu3 & _ & Eu3);
      [rewrite W2; apply lookup_insert_eq|]. rewrite Eu3 in Hu3 by done.
    assert (teb_uwp_frame s3 = frame) as Uf by congruence.
    assert (previous_unwind_protect_frame u2 = teb_uwp_frame s) as Pf by congruence.
    destruct (af_uwp _ _ _ As3 _ up Hup) as (up3 & Hup3 & _).
    destruct (CONTINUE_ok s3 x vals u2) as (s4 & E4 & G4 & B4 & W4 & P4 & Ev4 & U4 & H4);
      [done|by rewrite Uf|done|done|rewrite Pf; eauto|].
    exists x, s4. split_and!; try done; [by eapply after_same|congruence|].
    by rewrite Ev4, Ev3, Ev2, Ev1, V0, app_assoc.
  - destruct IH1 as (b & x & s1 & bf & Hk & -> & G1 & A1 & U1 & Hbf & S & Ev1).
    assert (is_Some (befs s !! b)) as [bb Hbb] by (eapply Forall_lookup in He; [exact He|done]).
    pose proof (go_bef s G _ _ Hbb) as (Hlt & Hlp & _).
    assert (after false s s1) as As1 by by apply (after_trans true _ _ s0).
    destruct (af_bef _ _ _ As1 b bb Hbb) as (bf' & Hbf' & Pbf & _).
    assert (bf' = bf) as -> by congruence.
    destruct (af_uwp _ _ _ A1 frame u Hu) as (u1 & Hu1 & Pu1 & _).
    destruct (af_uwp _ _ _ As1 _ up Hup) as (up1 & Hup1 & _).
    destruct (nlx_step_up s1 b bf u1 G1 Hbf)
      as (s2 & E2 & G2 & A2 & U2 & B2 & Ev2 & w & Hw' & Dw);
      [rewrite U1, U0; lia|by rewrite U1, U0|rewrite Pu1, Pu; eauto|].
    rewrite E2. simpl. rewrite U1, U0, Z.eqb_refl.
    assert (after false s s2) as As2 by by apply (after_trans false false _ s1).
    destruct (run_cleanup_ok retries cleanup env s2 frame IH2 Hw2 Hc G2
      (env_ok_after _ _ _ _ As2 He)) as (s3 & -> & G3 & A3 & U3 & Ev3).
    rewrite <- B2 in Hbf. destruct (af_bef _ _ _ A3 b bf Hbf) as (b3 & Hb3 & _ & Eb3).
    rewrite Eb3 in Hb3 by done. destruct (af_uwp _ _ _ A3 _ w Hw') as (w3 & Hw3 & _ & Ew3).
    rewrite Ew3 in Hw3 by done. rewrite <- U2, <- U3 in Hw3.
    exists b, x, s3, bf. split_and!; try done.
    + unfold CONTINUE_UNWIND. rewrite Hw3. simpl. rewrite Dw.
      by rewrite (proj2 (Z.eqb_neq b NULL)) by (unfold NULL; lia).
    + by apply (after_trans false true _ s2).
    + congruence.
    + by rewrite Ev3, Ev2, Ev1, V0, app_assoc.
Qed.

Lemma exec_ok retries c : exec_runs retries c.
Proof.
  induction c; eauto using exec_Call, exec_Seq, exec_Block, exec_Exit, exec_Protect.
Qed.

Lemma good_make_teb : good make_teb.
Proof.
  constructor; simpl.
  - by vm_compute.
  - lia.
  - eexists. apply lookup_singleton_eq.
  - intros a b H. by rewrite lookup_empty in H.
  - intros a u [<- <-]%lookup_singleton_Some. split; [unfold top_uwp_frame; lia|by vm_compute].
Qed.

(** C2: For code made of calls, blocks with exit procedures and unwind-protect
    forms whose cleanups call no exit procedure, the frames and the
    unwinding protocol of the run-time implement the direct semantics: an
    exit runs the cleanups of exactly the protected bodies it leaves,
    innermost first, each once, and arrives at its block with its values;
    every other effect happens in program order, the values of the whole are
    returned, and the thread's own frame is current again. The run-time
    never gets stuck. *)
Theorem nonlocal_exits_unwind retries c :
  well_formed 0 c = true →
  ∃ vals x s, (sem c).2 = Done vals ∧ run_code retries c = Some (Returned x, s) ∧
    events s = (sem c).1 ∧ holds (teb_values s) x vals ∧ teb_uwp_frame s = top_uwp_frame.
Proof.
  intros Hw. pose proof (exec_ok retries c [] make_teb Hw good_make_teb (Forall_nil_2 _)) as R.
  unfold runs in R. destruct (sem c) as [ev r]. simpl in *. destruct r as [vals|k vals].
  - destruct R as (x & s & E & G & A & U & H & Ev). by exists vals, x, s.
  - by destruct R as (b & x & s1 & bf & Hk & _).
Qed.

(** Two nested protected bodies, left by an exit with two values. *)
Definition nested_exit : code :=
  Block (Seq (Protect (Seq (Protect (Exit 0 [7; 8]) (Call 4 [])) (Call 5 [])) (Call 6 []))
             (Call 9 [])).

Lemma nonlocal_exits_unwind_witness :
  ∃ x s, run_code 0 nested_exit = Some (Returned x, s) ∧ events s = [4; 6] ∧
    holds (teb_values s) x [7; 8].
Proof.
  destruct (nonlocal_exits_unwind 0 nested_exit eq_refl) as (vals & x & s & Es & E & Ev & H & _).
  exists x, s. split; [exact E|]. split; [exact Ev|].
  injection Es as <-. exact H.
Defined.

(** ** Where the protocol fails

    A cleanup that leaves through an exit runs twice, since its own frame is
    still current. *)
Lemma cleanup_exit_runs_cleanup_twice :
  let c := Block (Protect (Call 1 []) (Seq (Call 2 []) (Exit 0 [7]))) in
  (λ r, events r.2) <$> run_code 1 c = Some [1; 2; 2] ∧ (sem c).1 = [1; 2].
Proof. split; vm_compute; reflexivity. Qed.

(** An exit within a cleanup, while another exit is being carried out, makes
    the protocol forget the other one: the code after the protected body runs,
    and the thread is left without an unwind-protect frame. *)
Lemma exit_in_cleanup_forgets_pending_exit :
  let c := Block (Seq (Protect (Exit 0 [7]) (Block (Exit 0 []))) (Call 9 [])) in
  (λ r, (events r.2, teb_uwp_frame r.2)) <$> run_code 1 c = Some ([9], NULL) ∧
  sem c = ([], Done [7]).
Proof. split; vm_compute; reflexivity. Qed.
