(* ===== verification/Alloc.v ===== *)
(** * Allocation of Dylan objects

    The allocation primitives of the Boehm collector's interface
    ([boehm-collector.c], [collector.c]) and the allocators of [c-run-time.c]
    built on them.  The collector itself gives fresh memory with unknown
    contents ([alloc_words]); its pools (general, leaf, weak, wrapper) differ in
    what the collector scans, which the contents do not depend on.  On Unix
    outside 32-bit x86 the fill routines are the C loops. *)

From S2P Require Import Prelude Memory Bytes Tagging Vectors Examples.
From stdpp Require Import base tactics option list numbers gmap.
From Stdlib Require Import ZArith Lia Bool.

Local Open Scope Z_scope.

(** ** The collector *)

Inductive pool := MMAllocateObject | MMAllocateLeaf | MMAllocateExactAWL | MMAllocateWeakAWL
  | MMAllocateWrapper.

(** [GC_MALLOC(size)] and its variants, in whole words; an unreasonable size is
    not served. *)
Definition GC_MALLOC (p : pool) (size : Z) : M Z :=
  if (0 <=? size) && (size <? 9223372036854775808) then alloc_words ((size + 7) / 8) else fault.

(** ** Filling *)

(** The element types of repeated slots. *)
Inductive element := dylan_object | word | double_word | half_word | single_float
  | double_float | byte_char.

Definition sizeof (t : element) : Z :=
  match t with
  | dylan_object | word | double_word | double_float => 8
  | single_float => 4
  | half_word => 2
  | byte_char => 1
  end.

(** The low bytes of [v], least significant first. *)
Fixpoint store_bytes (a v : Z) (n : nat) : M () :=
  match n with
  | O => mret ()
  | S n => store_byte a v ;; store_bytes (a + 1) (Z.shiftr v 8) n
  end.

Definition store_element (t : element) (a v : Z) : M () :=
  if sizeof t =? 8 then store a v else store_bytes a v (Z.to_nat (sizeof t)).

(** [while (index < count) mem[index++] = fill]; a floating-point value is its
    bit pattern. *)
Fixpoint fill_loop (t : element) (a fill : Z) (count : nat) : M () :=
  match count with
  | O => mret ()
  | S count => store_element t a fill ;; fill_loop t (a + sizeof t) fill count
  end.

Definition fill_mem (t : element) (a fill count : Z) : M () :=
  fill_loop t a fill (Z.to_nat (s32 count)).

Definition fill_dylan_object_mem (a fill count : Z) : M () := fill_mem dylan_object a fill count.

(** The tagged size of a repeated slot. *)
Definition size_word (n : Z) : Z := u64 (u64 (Z.shiftl n 2) + 1).

Definition untraced_fill_byte_char_mem (object fill count count_slot : Z) (ztq : bool) : M () :=
  let d := idx object (count_slot + 1) in
  let n := s32 count in
  (if n <? 0 then fault else memset d fill (Z.to_nat n)) ;;
  when ztq (store_byte (d + n) 0).

Definition untraced_fill_mem (t : element) (object fill count count_slot : Z) (ztq : bool) : M () :=
  if sizeof t =? 1 then untraced_fill_byte_char_mem object fill count count_slot ztq
  else
    store (idx object count_slot) (size_word count) ;;
    fill_loop t (idx object (count_slot + 1)) fill (Z.to_nat (u64 count)).

(** ** The streamlined allocators

    The options of [alloc_internal]: [s1], [s2] are the first two slots, [s] is
    the number of slots to fill and what with, [r] the repeated size and its
    slot, [rf] the fill of a traced repeated slot and [uf] that of an untraced
    one, with or without a terminating zero. *)
Definition alloc_internal (size wrapper : Z) (s1 s2 : option Z) (s r : option (Z * Z))
    (rf : option (element * Z)) (uf : option (bool * element * Z)) (allocator : pool) : M Z :=
  object ← GC_MALLOC allocator size;
  store (idx object 0) wrapper ;;
  (match s with
   | Some (no_to_fill, fill) => fill_dylan_object_mem (idx object 1) fill no_to_fill
   | None => mret ()
   end) ;;
  (match s1 with Some v => store (idx object 1) v | None => mret () end) ;;
  (match s2 with Some v => store (idx object 2) v | None => mret () end) ;;
  let '(rep_size, rep_size_slot) := default (0, 0) r in
  when (bool_decide (is_Some r) && negb (rep_size_slot =? 0))
    (store (idx object rep_size_slot) (size_word rep_size)) ;;
  (match rf with
   | Some (t, fill) => fill_mem t (idx object (rep_size_slot + 1)) fill rep_size
   | None => mret ()
   end) ;;
  (match uf with
   | Some (ztq, t, fill) =>
       when (bool_decide (is_Some r)) (untraced_fill_mem t object fill rep_size rep_size_slot ztq)
   | None => mret ()
   end) ;;
  mret object.

Definition primitive_alloc (size wrapper : Z) : M Z :=
  alloc_internal size wrapper None None None None None None MMAllocateObject.
Definition primitive_alloc_s1 (size wrapper data1 : Z) : M Z :=
  alloc_internal size wrapper (Some data1) None None None None None MMAllocateObject.
Definition primitive_alloc_s2 (size wrapper data1 data2 : Z) : M Z :=
  alloc_internal size wrapper (Some data1) (Some data2) None None None None MMAllocateObject.
Definition primitive_alloc_s (size wrapper no_to_fill fill : Z) : M Z :=
  alloc_internal size wrapper None None (Some (no_to_fill, fill)) None None None MMAllocateObject.
Definition primitive_alloc_r (size wrapper rep_size rep_size_slot : Z) : M Z :=
  alloc_internal size wrapper None None None (Some (rep_size, rep_size_slot)) None None
    MMAllocateObject.
Definition primitive_alloc_rf (size wrapper rep_size rep_size_slot fill : Z) : M Z :=
  alloc_internal size wrapper None None None (Some (rep_size, rep_size_slot))
    (Some (dylan_object, fill)) None MMAllocateObject.
Definition primitive_alloc_s_r (size wrapper no_to_fill fill rep_size rep_size_slot : Z) : M Z :=
  alloc_internal size wrapper None None (Some (no_to_fill, fill))
    (Some (rep_size, rep_size_slot)) None None MMAllocateObject.

(** [primitive_alloc_s_rf], [_rwf], [_rhf], [_rsff], [_rdff] and [_rdwf]. *)
Definition primitive_alloc_s_rf (t : element)
    (size wrapper no_to_fill fill rep_size rep_size_slot rep_fill : Z) : M Z :=
  alloc_internal size wrapper None None (Some (no_to_fill, fill))
    (Some (rep_size, rep_size_slot)) (Some (t, rep_fill)) None MMAllocateObject.

Definition primitive_alloc_s_rbf
    (size wrapper no_to_fill fill rep_size rep_size_slot byte_fill : Z) : M Z :=
  alloc_internal size wrapper None None (Some (no_to_fill, fill))
    (Some (rep_size, rep_size_slot)) None (Some (false, byte_char, byte_fill)) MMAllocateObject.
Definition primitive_alloc_s_rbfz
    (size wrapper no_to_fill fill rep_size rep_size_slot byte_fill : Z) : M Z :=
  alloc_internal size wrapper None None (Some (no_to_fill, fill))
    (Some (rep_size, rep_size_slot)) None (Some (true, byte_char, byte_fill)) MMAllocateObject.
Definition primitive_alloc_rbfz (size wrapper rep_size rep_size_slot byte_fill : Z) : M Z :=
  alloc_internal size wrapper None None None
    (Some (rep_size, rep_size_slot)) None (Some (true, byte_char, byte_fill)) MMAllocateObject.
Definition primitive_alloc_s_rb (size wrapper no_to_fill fill rep_size rep_size_slot : Z) : M Z :=
  primitive_alloc_s_r size wrapper no_to_fill fill rep_size rep_size_slot.

Definition primitive_alloc_leaf (size wrapper : Z) : M Z :=
  alloc_internal size wrapper None None None None None None MMAllocateLeaf.
Definition primitive_alloc_leaf_s_r
    (size wrapper no_to_fill fill rep_size rep_size_slot : Z) : M Z :=
  alloc_internal size wrapper None None (Some (no_to_fill, fill))
    (Some (rep_size, rep_size_slot)) None None MMAllocateLeaf.
Definition primitive_alloc_leaf_s1 (size wrapper data1 : Z) : M Z :=
  alloc_internal size wrapper (Some data1) None None None None None MMAllocateLeaf.
Definition primitive_alloc_leaf_s2 (size wrapper data1 data2 : Z) : M Z :=
  alloc_internal size wrapper (Some data1) (Some data2) None None None None MMAllocateLeaf.
Definition primitive_alloc_leaf_s (size wrapper no_to_fill fill : Z) : M Z :=
  alloc_internal size wrapper None None (Some (no_to_fill, fill)) None None None MMAllocateLeaf.
Definition primitive_alloc_leaf_r (size wrapper rep_size rep_size_slot : Z) : M Z :=
  alloc_internal size wrapper None None None (Some (rep_size, rep_size_slot)) None None
    MMAllocateLeaf.
Definition primitive_alloc_leaf_s_rbf
    (size wrapper no_to_fill fill rep_size rep_size_slot byte_fill : Z) : M Z :=
  alloc_internal size wrapper None None (Some (no_to_fill, fill))
    (Some (rep_size, rep_size_slot)) None (Some (false, byte_char, byte_fill)) MMAllocateLeaf.

(** [primitive_alloc_leaf_rf], [_rbf], [_rhf], [_rsff], [_rdff] and [_rdwf]:
    no slot is filled, and the repeated slot as an untraced one. *)
Definition primitive_alloc_leaf_rf (t : element)
    (size wrapper rep_size rep_size_slot rep_fill : Z) : M Z :=
  alloc_internal size wrapper None None (Some (0, 0))
    (Some (rep_size, rep_size_slot)) None (Some (false, t, rep_fill)) MMAllocateLeaf.

Definition primitive_alloc_leaf_s_rbfz
    (size wrapper no_to_fill fill rep_size rep_size_slot byte_fill : Z) : M Z :=
  alloc_internal size wrapper None None (Some (no_to_fill, fill))
    (Some (rep_size, rep_size_slot)) None (Some (true, byte_char, byte_fill)) MMAllocateLeaf.
Definition primitive_alloc_leaf_rbfz (size wrapper rep_size rep_size_slot byte_fill : Z) : M Z :=
  alloc_internal size wrapper None None None
    (Some (rep_size, rep_size_slot)) None (Some (true, byte_char, byte_fill)) MMAllocateLeaf.
Definition primitive_alloc_leaf_s_rb
    (size wrapper no_to_fill fill rep_size rep_size_slot : Z) : M Z :=
  primitive_alloc_leaf_s_r size wrapper no_to_fill fill rep_size rep_size_slot.

Definition primitive_alloc_exact_awl_s_r
    (size wrapper assoc no_to_fill fill rep_size rep_size_slot : Z) : M Z :=
  alloc_internal size wrapper (Some assoc) None (Some (no_to_fill, fill))
    (Some (rep_size, rep_size_slot)) None None MMAllocateExactAWL.
Definition primitive_alloc_weak_awl_s_r
    (size wrapper assoc no_to_fill fill rep_size rep_size_slot : Z) : M Z :=
  alloc_internal size wrapper (Some assoc) None (Some (no_to_fill, fill))
    (Some (rep_size, rep_size_slot)) None None MMAllocateWeakAWL.
Definition primitive_alloc_exact_awl_rf
    (size wrapper assoc rep_size rep_size_slot fill : Z) : M Z :=
  alloc_internal size wrapper (Some assoc) None None
    (Some (rep_size, rep_size_slot)) (Some (dylan_object, fill)) None MMAllocateExactAWL.
Definition primitive_alloc_weak_awl_rf
    (size wrapper assoc rep_size rep_size_slot fill : Z) : M Z :=
  alloc_internal size wrapper (Some assoc) None None
    (Some (rep_size, rep_size_slot)) (Some (dylan_object, fill)) None MMAllocateWeakAWL.
Definition primitive_alloc_wrapper_s_r
    (size wrapper no_to_fill fill rep_size rep_size_slot : Z) : M Z :=
  alloc_internal size wrapper None None (Some (no_to_fill, fill))
    (Some (rep_size, rep_size_slot)) None None MMAllocateWrapper.

(** Allocation from a template. *)
Definition primitive_alloc_rt (size wrapper rep_size rep_size_slot template : Z) : M Z :=
  object ← GC_MALLOC MMAllocateObject size;
  store (idx object 0) wrapper ;;
  store (idx object rep_size_slot) (size_word rep_size) ;;
  COPY_WORDS (idx object (rep_size_slot + 1)) template rep_size ;;
  mret object.

Definition primitive_copy (size template : Z) : M Z :=
  _ ← load (idx template 0);
  object ← GC_MALLOC MMAllocateObject size;
  memcpy object template (Z.to_nat size) ;;
  mret object.

Definition primitive_copy_r (size rep_size rep_size_slot template : Z) : M Z :=
  _ ← load (idx template 0);
  object ← GC_MALLOC MMAllocateObject size;
  COPY_WORDS object template rep_size_slot ;;
  store (idx object rep_size_slot) (size_word rep_size) ;;
  fill_dylan_object_mem (idx object (rep_size_slot + 1)) NULL rep_size ;;
  mret object.

(** ** Filling, replacing and comparing the memory of objects *)

Definition primitive_fillX (dst base_offset offset size value : Z) : M () :=
  fill_loop dylan_object (idx dst (s32 base_offset + s32 offset)) value (Z.to_nat (s32 size)).

Definition primitive_fill_bytesX (dst base_offset offset size value : Z) : M () :=
  when (0 <? s32 size)
    (memset (idx dst (s32 base_offset) + s32 offset) value (Z.to_nat (s32 size))).

(** The index of the first element of the repeated slot, from the number of
    fixed slots in the wrapper. *)
Definition primitive_repeated_slot_offset (x : Z) : M Z :=
  wrapper ← load (idx x 0);
  fixed_part ← load (idx wrapper 3);
  let n_slots := Z.shiftr (s64 fixed_part) 2 in
  mret (1 + n_slots + 1).

Definition primitive_repeated_slot_as_raw (x offset : Z) : Z := idx x offset.

Definition primitive_replace_bytesX
    (dst dst_base_offset dst_offset src src_base_offset src_offset size : Z) : M () :=
  when (0 <? size)
    (memcpy (idx dst dst_base_offset + dst_offset) (idx src src_base_offset + src_offset)
       (Z.to_nat size)).

(** The source offset is taken from [dst_base_offset]; [src_base_offset] is ignored. *)
Definition primitive_replaceX
    (dst dst_base_offset dst_offset src src_base_offset src_offset size : Z) : M () :=
  when (0 <? size)
    (COPY_WORDS (idx dst (dst_base_offset + dst_offset))
       (idx src (dst_base_offset + src_offset)) size).

Definition string_data (s : Z) : Z := idx s 2.

Definition primitive_compare_bytes (base1 offset1 base2 offset2 size : Z) : M Z :=
  if size <? 0 then fault
  else r ← memcmp (string_data base1 + offset1) (string_data base2 + offset2) (Z.to_nat size);
       mret (RAWASBOOL (negb (r =? 0))).

Definition primitive_compare_words (base1 offset1 base2 offset2 size : Z) : M Z :=
  if size <? 0 then fault
  else r ← memcmp (string_data base1 + offset1) (string_data base2 + offset2)
             (Z.to_nat (size * 8));
       mret (RAWASBOOL (negb (r =? 0))).

(** ** Allocation of objects with repeated slots *)

Definition round_up_to_word (val : Z) : Z := s64 (Z.ldiff (u64 (u64 (val + 8) - 1)) 7).

Definition primitive_byte_allocate_filled_terminated
    (size number_bytes class_wrapper number_slots fill_value repeated_size
     repeated_size_offset : Z) : M Z :=
  let size := round_up_to_word (size * 8 + number_bytes) in
  let byte_fill := s32 (R fill_value) in
  if number_slots =? 0 then
    primitive_alloc_leaf_rbfz size class_wrapper repeated_size repeated_size_offset byte_fill
  else
    primitive_alloc_leaf_s_rbfz size class_wrapper number_slots fill_value repeated_size
      repeated_size_offset byte_fill.

Definition primitive_byte_allocate_filled
    (size class_wrapper number_slots fill_value repeated_size repeated_size_offset
     repeated_fill_value : Z) : M Z :=
  let size := round_up_to_word (size * 8 + repeated_size) in
  if repeated_size_offset =? 0 then primitive_alloc_s size class_wrapper number_slots fill_value
  else
    primitive_alloc_s_rbf size class_wrapper number_slots fill_value repeated_size
      repeated_size_offset repeated_fill_value.

Definition primitive_byte_allocate_leaf_filled_terminated := primitive_byte_allocate_filled_terminated.

Definition primitive_byte_allocate_leaf_filled
    (size class_wrapper number_slots fill_value repeated_size repeated_size_offset
     repeated_fill_value : Z) : M Z :=
  let size := round_up_to_word (size * 8 + repeated_size) in
  if repeated_size_offset =? 0 then
    primitive_alloc_leaf_s size class_wrapper number_slots fill_value
  else
    primitive_alloc_leaf_s_rbf size class_wrapper number_slots fill_value repeated_size
      repeated_size_offset repeated_fill_value.

(** [define_repeated_allocator(name, type, alloc_rf, alloc_s_rf)]; the words of
    [type] are [t]. *)
Definition repeated_allocate_filled (t : element)
    (alloc_rf : Z → Z → Z → Z → Z → M Z) (alloc_s_rf : Z → Z → Z → Z → Z → Z → Z → M Z)
    (size class_wrapper number_slots fill_value repeated_size repeated_size_offset
     repeated_fill_value : Z) : M Z :=
  let size := size * 8 + repeated_size * sizeof t in
  if number_slots =? 0 then
    alloc_rf size class_wrapper repeated_size repeated_size_offset repeated_fill_value
  else
    alloc_s_rf size class_wrapper number_slots fill_value repeated_size repeated_size_offset
      repeated_fill_value.

Definition primitive_object_allocate_filled :=
  repeated_allocate_filled dylan_object primitive_alloc_rf (primitive_alloc_s_rf dylan_object).
Definition primitive_double_byte_allocate_filled :=
  repeated_allocate_filled half_word (primitive_alloc_leaf_rf half_word)
    (primitive_alloc_s_rf half_word).
Definition primitive_single_float_allocate_filled :=
  repeated_allocate_filled single_float (primitive_alloc_leaf_rf single_float)
    (primitive_alloc_s_rf single_float).
Definition primitive_double_float_allocate_filled :=
  repeated_allocate_filled double_float (primitive_alloc_leaf_rf double_float)
    (primitive_alloc_s_rf double_float).

(** The fill passed on is the address of the argument, not its value. *)
Definition primitive_word_allocate_filled
    (size class_wrapper number_slots fill_value repeated_size repeated_size_offset
     repeated_fill_value : Z) : M Z :=
  address ← alloc_words 1;
  store address repeated_fill_value ;;
  repeated_allocate_filled word (primitive_alloc_leaf_rf dylan_object)
    (primitive_alloc_s_rf dylan_object) size class_wrapper number_slots fill_value
    repeated_size repeated_size_offset address.

Definition primitive_allocate_filled
    (size class_wrapper number_slots fill_value repeated_size repeated_size_offset : Z) : M Z :=
  let size := size * 8 in
  if repeated_size_offset =? 0 then
    if number_slots =? 0 then primitive_alloc size class_wrapper
    else if number_slots =? 1 then primitive_alloc_s1 size class_wrapper fill_value
    else if number_slots =? 2 then primitive_alloc_s2 size class_wrapper fill_value fill_value
    else primitive_alloc_s size class_wrapper repeated_size fill_value
  else trap_with Abort.

Definition primitive_allocate_in_awl_pool
    (size class_wrapper number_slots fill_value repeated_size repeated_size_offset
     assoc : Z) : M Z :=
  let size := size * 8 in
  if number_slots =? 1 then
    primitive_alloc_exact_awl_rf size class_wrapper assoc repeated_size repeated_size_offset
      fill_value
  else
    primitive_alloc_exact_awl_s_r size class_wrapper assoc number_slots fill_value
      repeated_size repeated_size_offset.

Definition primitive_allocate_weak_in_awl_pool
    (size class_wrapper number_slots fill_value repeated_size repeated_size_offset
     assoc : Z) : M Z :=
  let size := size * 8 in
  if number_slots =? 0 then
    primitive_alloc_weak_awl_rf size class_wrapper assoc repeated_size repeated_size_offset
      fill_value
  else
    primitive_alloc_weak_awl_s_r size class_wrapper assoc number_slots fill_value
      repeated_size repeated_size_offset.

Definition primitive_allocate_wrapper
    (size class_wrapper number_slots fill_value repeated_size repeated_size_offset : Z) : M Z :=
  primitive_alloc_wrapper_s_r (size * 8) class_wrapper number_slots fill_value repeated_size
    repeated_size_offset.

(** ** Objects on the stack *)

(** The fill byte, a raw byte, is shifted as if it were tagged. *)
Definition initialize_byte_stack_allocate_filled
    (ptr class_wrapper number_slots fill_value repeated_size repeated_size_offset
     repeated_fill_value : Z) : M Z :=
  store (idx ptr 0) class_wrapper ;;
  primitive_fillX ptr 1 0 number_slots fill_value ;;
  primitive_fill_bytesX ptr (repeated_size_offset + 1) 0 repeated_size
    (Z.land (R (Z.land repeated_fill_value 255)) 255) ;;
  store_byte (idx ptr (repeated_size_offset + 1) + repeated_size) 0 ;;
  when (0 <? repeated_size_offset) (store (idx ptr repeated_size_offset) (I repeated_size)) ;;
  mret ptr.

Definition initialize_object_stack_allocate_filled
    (ptr class_wrapper number_slots fill_value repeated_size repeated_size_offset
     repeated_fill_value : Z) : M Z :=
  store (idx ptr 0) class_wrapper ;;
  primitive_fillX ptr 1 0 number_slots fill_value ;;
  fill_loop dylan_object (idx ptr (repeated_size_offset + 1)) repeated_fill_value
    (Z.to_nat repeated_size) ;;
  when (0 <? repeated_size_offset) (store (idx ptr repeated_size_offset) (I repeated_size)) ;;
  mret ptr.

(** ** Boxes, vectors and strings *)

Definition primitive_wrap_c_pointer (wrapper x : Z) : M Z :=
  primitive_allocate_filled 2 wrapper 1 x 0 0.

Definition primitive_wrap_machine_word (x : Z) : M Z :=
  primitive_allocate_filled 2 KLmachine_wordGVKeW 1 x 0 0.

Definition make_dylan_vector (n : Z) : M Z :=
  if n =? 0 then mret Pempty_vectorVKi
  else
    let size := u64 (u64 (n + VECTOR_HEADER_SIZE) * 8) in
    primitive_alloc_rf size KLsimple_object_vectorGVKdW n 1 KPunboundVKi.

Definition primitive_make_vector (size : Z) : M Z := make_dylan_vector (u64 (s32 size)).

Definition primitive_raw_as_string (fuel : nat) (buffer : Z) : M Z :=
  let base_size := 16 in
  len ← strlen fuel buffer;
  let size := round_up_to_word (base_size + len + 1) in
  string ← primitive_alloc_leaf_r size KLbyte_stringGVKdW len 1;
  memcpy (string_data string) buffer (Z.to_nat (len + 1)) ;;
  mret string.

(** ** Fresh objects

    [put s a l] has the words [l] at [a], [alloc_with s l] has them in freshly
    allocated memory. *)
Definition put (s : state) (a : Z) (l : list Z) : state := with_mem (mset (mem s) a l) s.

Definition bump (s : state) (n : Z) : state := mkState (mem s) (brk s + 8 * n) (junk s) (teb s).

Definition alloc_with (s : state) (l : list Z) : state := put (bump s (length l)) (brk s) l.

Lemma GC_MALLOC_ok p size n s :
  0 <= n < 1152921504606846976 → size = 8 * n →
  ∃ l, length l = Z.to_nat n ∧ GC_MALLOC p size s = Ok (brk s) (put (bump s n) (brk s) l).
Proof.
  intros Hn ->. exists (junk_words (junk s) (brk s) (Z.to_nat n)).
  rewrite length_junk_words. split; [done|]. unfold GC_MALLOC.
  replace ((0 <=? 8 * n) && (8 * n <? 9223372036854775808)) with true by lia.
  replace ((8 * n + 7) / 8) with n by zmod. rewrite alloc_words_ok by lia.
  done.
Qed.

Lemma mset_splice m a l1 l2 r l3 :
  length l2 = length r →
  mset (mset m a (l1 ++ l2 ++ l3)) (a + 8 * length l1) r = mset m a (l1 ++ r ++ l3).
Proof.
  revert l1 l2. induction r as [|v r IH]; intros l1 l2 H.
  - by destruct l2.
  - destruct l2 as [|x l2]; [done|]. simpl in H |- *.
    rewrite insert_mset by (rewrite length_app; simpl; lia).
    rewrite insert_app_r_alt by lia. rewrite Nat.sub_diag. simpl.
    specialize (IH (l1 ++ [v]) l2 ltac:(lia)). rewrite length_app, <- !app_assoc in IH.
    simpl in IH. rewrite <- IH. f_equal. lia.
Qed.

Lemma store_splice s a l1 x l3 v i :
  length l1 = Z.to_nat i → 0 <= i →
  store (idx a i) v (put s a (l1 ++ x :: l3)) = Ok () (put s a (l1 ++ v :: l3)).
Proof.
  intros H Hi. unfold idx. replace (8 * i) with (8 * length l1) by lia. rewrite store_ok.
  - unfold put, with_mem. simpl. do 2 f_equal.
    apply (mset_splice _ _ l1 [x] [v] l3 eq_refl).
  - simpl. exists x. apply (arr_mset _ _ (l1 ++ x :: l3)). by rewrite list_lookup_middle.
Qed.

(** Filling the words [l2] that start at index [i]. *)
Lemma fill_loop_splice s a t l1 l2 l3 v i n :
  sizeof t = 8 → length l1 = Z.to_nat i → 0 <= i → length l2 = n →
  fill_loop t (idx a i) v n (put s a (l1 ++ l2 ++ l3)) =
  Ok () (put s a (l1 ++ replicate n v ++ l3)).
Proof.
  intros Ht. revert l1 l2 i. induction n as [|n IH]; intros l1 l2 i H1 Hi H2.
  - by destruct l2.
  - destruct l2 as [|x l2]; [done|]. simpl. unfold store_element. rewrite Ht. simpl.
    mstep (store_splice s a l1 x (l2 ++ l3) v i H1 Hi).
    replace (idx a i + 8) with (idx a (i + 1)) by (unfold idx; lia).
    specialize (IH (l1 ++ [v]) l2 (i + 1)). rewrite <- !app_assoc in IH. apply IH.
    + rewrite length_app. simpl. lia.
    + lia.
    + by injection H2.
Qed.

Lemma fill_mem_splice s a t l1 l2 l3 v i n :
  sizeof t = 8 → length l1 = Z.to_nat i → 0 <= i → in_s32 n → length l2 = Z.to_nat n →
  fill_mem t (idx a i) v n (put s a (l1 ++ l2 ++ l3)) =
  Ok () (put s a (l1 ++ replicate (Z.to_nat n) v ++ l3)).
Proof.
  intros. unfold fill_mem. rewrite (s32_id n) by done. by apply fill_loop_splice.
Qed.

(** The parts of a fresh object with [n] fixed slots and a repeated slot of [k]
    words. *)
Lemma split_object {l : list Z} n k :
  0 <= n → 0 <= k → length l = Z.to_nat (n + 2 + k) →
  ∃ w ls r lr, l = w :: ls ++ r :: lr ∧ length ls = Z.to_nat n ∧ length lr = Z.to_nat k.
Proof.
  intros Hn Hk H. destruct l as [|w l]; [simpl in H; lia|].
  rewrite <- (take_drop (Z.to_nat n) l) in H |- *.
  assert (length (take (Z.to_nat n) l) = Z.to_nat n) as Hl.
  { rewrite length_take. simpl in H. rewrite length_app, length_take, length_drop in H. lia. }
  simpl in H. rewrite length_app in H.
  destruct (drop (Z.to_nat n) l) as [|r lr] eqn:E; [simpl in H; lia|].
  exists w, (take (Z.to_nat n) l), r, lr. split_and!; [done|done|simpl in H; lia].
Qed.

Lemma size_word_I n : size_word n = I n.
Proof.
  unfold size_word. rewrite I_eq, Z.shiftl_mul_pow2 by lia. change (2 ^ 2) with 4.
  replace (u64 (n * 4)) with (u64 (4 * n)) by (f_equal; lia). rewrite <- I_eq.
  apply u64_id, I_range.
Qed.

(** The words of an object with [n] fixed slots and a repeated slot. *)
Definition object_words (wrapper : Z) (n : Z) (fill : Z) (rep : list Z) : list Z :=
  wrapper :: replicate (Z.to_nat n) fill ++ I (length rep) :: rep.

(** Storing the wrapper and filling the fixed slots, if there are any. *)
Definition fills_slots (slots : option (Z * Z)) (n fill : Z) : Prop :=
  slots = Some (n, fill) ∨ n = 0 ∧ (slots = None ∨ ∃ x, slots = Some (0, x)).

Lemma fill_slots_splice s a ls l3 wrapper slots n fill :
  fills_slots slots n fill → 0 <= n < 2147483648 → length ls = Z.to_nat n →
  match slots with
  | Some (no_to_fill, x) => fill_dylan_object_mem (idx a 1) x no_to_fill
  | None => mret ()
  end (put s a (wrapper :: ls ++ l3)) =
  Ok () (put s a (wrapper :: replicate (Z.to_nat n) fill ++ l3)).
Proof.
  intros Hf Hn Hs.
  assert (∀ x, fill_dylan_object_mem (idx a 1) x n (put s a (wrapper :: ls ++ l3)) =
    Ok () (put s a (wrapper :: replicate (Z.to_nat n) x ++ l3))) as F.
  { intros x. apply (fill_mem_splice s a dylan_object [wrapper] ls l3 x 1 n); (done || word). }
  destruct Hf as [->|[-> Hf]]; [apply F|].
  destruct ls; [|done]. simpl. destruct Hf as [->|[x ->]]; [done|apply F].
Qed.

(** A traced or an untraced fill of a repeated slot of words. *)
Definition fills_words (rf : option (element * Z)) (uf : option (bool * element * Z)) (v : Z) : Prop :=
  ∃ t, sizeof t = 8 ∧ (rf = Some (t, v) ∧ uf = None ∨ rf = None ∧ ∃ z, uf = Some (z, t, v)).

Lemma alloc_with_object s wrapper n fill k v :
  0 <= n → 0 <= k →
  alloc_with s (object_words wrapper n fill (replicate (Z.to_nat k) v)) =
  put (bump s (n + 2 + k)) (brk s) (object_words wrapper n fill (replicate (Z.to_nat k) v)).
Proof.
  intros Hn Hk. unfold alloc_with. do 2 f_equal. unfold object_words. simpl.
  rewrite length_app. simpl. rewrite !length_replicate. lia.
Qed.

(** What remains of [alloc_internal] once the header is stored: filling the
    repeated slot, whose [k] words are [lr]. *)
Definition fill_repeated (a rep_size rep_size_slot : Z) (rf : option (element * Z))
    (uf : option (bool * element * Z)) : M Z :=
  (match rf with
   | Some (t, fill) => fill_mem t (idx a (rep_size_slot + 1)) fill rep_size
   | None => mret ()
   end) ;;
  (match uf with
   | Some (ztq, t, fill) => untraced_fill_mem t a fill rep_size rep_size_slot ztq
   | None => mret ()
   end) ;;
  mret a.

Lemma alloc_internal_header s p wrapper slots n fill k rep_size rf uf :
  fills_slots slots n fill → 0 <= n < 2147483648 → 0 <= k < 2147483648 →
  ∃ lr, length lr = Z.to_nat k ∧
    alloc_internal ((n + 2 + k) * 8) wrapper None None slots (Some (rep_size, n + 1)) rf uf p s =
    fill_repeated (brk s) rep_size (n + 1) rf uf
      (put (bump s (n + 2 + k)) (brk s)
         ((wrapper :: replicate (Z.to_nat n) fill) ++ I rep_size :: lr)).
Proof.
  intros Hf Hn Hk. unfold alloc_internal. cbn [default from_option].
  set (s1 := bump s (n + 2 + k)). set (a := brk s).
  destruct (GC_MALLOC_ok p ((n + 2 + k) * 8) (n + 2 + k) s) as (l & Hl & E); [lia|lia|].
  destruct (split_object n k ltac:(lia) ltac:(lia) Hl) as (w & ls & r & lr & -> & Hs & Hr).
  exists lr. split; [done|]. mstep E.
  mstep (store_splice s1 a [] w (ls ++ r :: lr) wrapper 0 eq_refl ltac:(lia)). simpl app.
  mstep (fill_slots_splice s1 a ls (r :: lr) wrapper slots n fill Hf Hn Hs).
  unfold default, id. replace (negb (n + 1 =? 0)) with true by lia.
  rewrite bool_decide_true by eauto. simpl when. rewrite size_word_I, app_comm_cons.
  mstep (store_splice s1 a (wrapper :: replicate (Z.to_nat n) fill) r lr (I rep_size) (n + 1)
    ltac:(simpl; rewrite length_replicate; lia) ltac:(lia)).
  done.
Qed.

(** Filling a repeated slot of words. *)
Lemma fill_repeated_words s a wrapper n fill lr k rf uf v :
  fills_words rf uf v → 0 <= n < 2147483648 → 0 <= k < 2147483648 → length lr = Z.to_nat k →
  fill_repeated a k (n + 1) rf uf
    (put s a ((wrapper :: replicate (Z.to_nat n) fill) ++ I k :: lr)) =
  Ok a (put s a (object_words wrapper n fill (replicate (Z.to_nat k) v))).
Proof.
  intros (t & Ht & Hu) Hn Hk Hr. remember (wrapper :: replicate (Z.to_nat n) fill) as hd eqn:Hd.
  assert (length hd = Z.to_nat (n + 1)) as Hh.
  { rewrite Hd. simpl. rewrite length_replicate. lia. }
  assert (fill_loop t (idx a (n + 1 + 1)) v (Z.to_nat k) (put s a (hd ++ I k :: lr)) =
    Ok () (put s a (object_words wrapper n fill (replicate (Z.to_nat k) v)))) as F.
  { pose proof (fill_loop_splice s a t (hd ++ [I k]) lr [] v (n + 1 + 1) (Z.to_nat k) Ht) as F.
    rewrite !app_nil_r, <- !app_assoc in F. simpl app in F. rewrite F.
    - unfold object_words. by rewrite app_comm_cons, <- Hd, length_replicate, Z2Nat.id by lia.
    - rewrite length_app. simpl. lia.
    - lia.
    - done. }
  unfold fill_repeated. destruct Hu as [[-> ->]|[-> [z ->]]].
  - unfold fill_mem. rewrite (s32_id k) by word. by mstep F.
  - unfold untraced_fill_mem. rewrite Ht. simpl (_ =? _). cbv iota. rewrite size_word_I.
    mstep (store_splice s a hd (I k) lr (I k) (n + 1) Hh ltac:(lia)).
    rewrite (u64_id k) by word. by mstep F.
Qed.

Lemma alloc_internal_words s p wrapper slots n fill k rf uf v :
  fills_slots slots n fill → fills_words rf uf v →
  0 <= n < 2147483648 → 0 <= k < 2147483648 →
  alloc_internal ((n + 2 + k) * 8) wrapper None None slots (Some (k, n + 1)) rf uf p s =
  Ok (brk s) (alloc_with s (object_words wrapper n fill (replicate (Z.to_nat k) v))).
Proof.
  intros Hf Hu Hn Hk. rewrite alloc_with_object by lia.
  destruct (alloc_internal_header s p wrapper slots n fill k k rf uf Hf Hn Hk) as (lr & Hr & ->).
  by apply fill_repeated_words.
Qed.

(** ** Objects with a repeated slot of bytes *)

(** [v] is a fresh object whose repeated slot holds the bytes [l] and then a zero. *)
Record byte_object (s s' : state) (v wrapper n fill : Z) (l : list Z) : Prop := {
  bo_header : arr (mem s') v ((wrapper :: replicate (Z.to_nat n) fill) ++ [I (length l)]);
  bo_bytes : ∀ (i : nat) x, l !! i = Some x → byte_at (mem s') (idx v (n + 2) + i) = Some x;
  bo_end : byte_at (mem s') (idx v (n + 2) + length l) = Some 0;
  bo_fresh : brk s <= v ∧ idx v (n + 2) + length l < brk s';
  bo_keeps : extends (mem s) (mem s') (brk s);
  bo_teb : teb s' = teb s
}.

Lemma byte_mapped m a k b :
  mapped m a k → a mod 8 = 0 → a <= b < a + 8 * k → is_Some (byte_at m b).
Proof.
  intros H Ha Hb. destruct (H ((b - a) / 8)) as [x Hx]; [zmod|].
  exists (byte_of x (b mod 8)). apply byte_at_word. rewrite <- Hx. f_equal. zmod.
Qed.

Lemma put_byte_mapped s a l1 l2 b :
  a mod 8 = 0 → a + 8 * length l1 <= b < a + 8 * length l1 + 8 * length l2 →
  is_Some (byte_at (mem (put s a (l1 ++ l2))) b).
Proof.
  intros Ha Hb. apply (byte_mapped _ (a + 8 * length l1) (length l2)); [|zmod|done].
  apply arr_mapped, (proj2 (proj1 (arr_app _ _ _ _) (arr_mset (mem s) a (l1 ++ l2)))).
Qed.

(** Writing the bytes of a fresh block of words, and what it leaves of the rest. *)
Lemma byte_object_intro s s' k wrapper n fill (r : Z) (l lr : list Z) f :
  brk s mod 8 = 0 → 0 <= n → r = length l → length lr = Z.to_nat k → length l < 8 * k →
  let hd := (wrapper :: replicate (Z.to_nat n) fill) ++ [I r] in
  bytes_set (put (bump s (n + 2 + k)) (brk s) (hd ++ lr)) s' (idx (brk s) (n + 2))
    (length l + 1) f →
  (∀ (i : nat) x, l !! i = Some x → f (idx (brk s) (n + 2) + i) = x) →
  f (idx (brk s) (n + 2) + length l) = 0 →
  byte_object s s' (brk s) wrapper n fill l.
Proof.
  intros Ha Hn -> Hlr Hk hd [S B W _] Hf He.
  assert (length hd = Z.to_nat (n + 2)) as Hh.
  { unfold hd. rewrite length_app. simpl. rewrite length_replicate. lia. }
  assert (∀ c, c mod 8 = 0 → c < idx (brk s) (n + 2) → ¬ holds_byte (idx (brk s) (n + 2))
    (length l + 1) c) as N by (intros c Hc Hi (b & Hb & ->); unfold idx in *; zmod).
  constructor.
  - pose proof (proj1 (proj1 (arr_app _ _ _ _) (arr_mset (mem s) (brk s) (hd ++ lr)))) as A.
    change (arr (mem s') (brk s) hd). intros i x Hi. rewrite W; [by apply A|].
    apply lookup_lt_Some in Hi. apply N; unfold idx; [zmod|lia].
  - intros i x Hi. rewrite B, decide_True; [by rewrite (Hf i x Hi)|].
    apply lookup_lt_Some in Hi. lia.
  - rewrite B, decide_True; [by rewrite He|lia].
  - rewrite S. simpl. unfold idx. lia.
  - intros c Hc. rewrite W.
    + change (mset (mem s) (brk s) (hd ++ lr) !! c = mem s !! c). apply lookup_mset_out. lia.
    + intros (b & Hb & ->). unfold idx in *. zmod.
  - by rewrite S.
Qed.

(** Filling with a byte, terminated. *)
Lemma fill_repeated_bytes s wrapper n fill lr k r v :
  brk s mod 8 = 0 → 0 <= n → 0 <= r < 2147483648 → r < 8 * k → length lr = Z.to_nat k →
  ∃ s', fill_repeated (brk s) r (n + 1) None (Some (true, byte_char, v))
      (put (bump s (n + 2 + k)) (brk s)
         ((wrapper :: replicate (Z.to_nat n) fill) ++ I r :: lr)) = Ok (brk s) s' ∧
    byte_object s s' (brk s) wrapper n fill (replicate (Z.to_nat r) (Z.land v 255)).
Proof.
  intros Ha Hn Hr Hk Hl. set (hd := (wrapper :: replicate (Z.to_nat n) fill) ++ [I r]).
  assert (length hd = Z.to_nat (n + 2)) as Hh.
  { unfold hd. rewrite length_app. simpl. rewrite length_replicate. lia. }
  replace ((wrapper :: replicate (Z.to_nat n) fill) ++ I r :: lr) with (hd ++ lr)
    by (unfold hd; by rewrite <- app_assoc).
  set (s0 := put (bump s (n + 2 + k)) (brk s) (hd ++ lr)).
  set (d := idx (brk s) (n + 2)).
  assert (∀ b, d <= b < d + 8 * k → is_Some (byte_at (mem s0) b)) as M.
  { intros b Hb. apply put_byte_mapped; [done|]. unfold d, idx in Hb. lia. }
  destruct (memset_ok s0 d v (Z.to_nat r)) as (s1 & E1 & B1); [intros; apply M; lia|].
  destruct (store_byte_set s1 (d + r) 0) as (s2 & E2 & B2).
  { eapply byte_at_mapped; [done|]. apply M. lia. }
  exists s2. split.
  - unfold fill_repeated, untraced_fill_mem, untraced_fill_byte_char_mem. mnorm.
    simpl (sizeof byte_char =? 1). cbv iota. cbv zeta. rewrite (s32_id r) by word.
    replace (n + 1 + 1) with (n + 2) by lia. fold d.
    replace (r <? 0) with false by lia. mstep E1. simpl when. by mstep E2.
  - rewrite Z2Nat.id in B1 by lia.
    apply (byte_object_intro s s2 k wrapper n fill r _ lr
      (λ b, if b =? d + r then 0 else Z.land v 255)); try done.
    + rewrite length_replicate. lia.
    + rewrite length_replicate. lia.
    + rewrite length_replicate, Z2Nat.id by lia.
      apply (bytes_set_trans s0 s1 s2); [lia|lia| |].
      * eapply bytes_set_ext; [|exact B1]. intros b Hb. simpl.
        by rewrite (proj2 (Z.eqb_neq b (d + r))) by lia.
      * eapply bytes_set_ext; [|exact B2]. intros b Hb. simpl.
        by replace (b =? d + r) with true by lia.
    + intros i x Hi. apply lookup_replicate in Hi as [-> Hi]. fold d.
      by rewrite (proj2 (Z.eqb_neq _ _)) by lia.
    + fold d. rewrite length_replicate, Z2Nat.id by lia. by rewrite Z.eqb_refl.
Qed.

(** ** Theorems *)

Lemma repeated_allocate_filled_words t alloc_rf alloc_s_rf s wrapper n fill k v :
  sizeof t = 8 → 0 <= n < 2147483648 → 0 <= k < 2147483648 →
  (∀ size, alloc_rf size wrapper k (n + 1) v s =
    alloc_internal size wrapper None None None (Some (k, n + 1)) (Some (t, v)) None
      MMAllocateObject s ∨
    alloc_rf size wrapper k (n + 1) v s =
    alloc_internal size wrapper None None (Some (0, 0)) (Some (k, n + 1)) None
      (Some (false, t, v)) MMAllocateLeaf s) →
  (∀ size, alloc_s_rf size wrapper n fill k (n + 1) v s =
    alloc_internal size wrapper None None (Some (n, fill)) (Some (k, n + 1)) (Some (t, v)) None
      MMAllocateObject s) →
  repeated_allocate_filled t alloc_rf alloc_s_rf (n + 2) wrapper n fill k (n + 1) v s =
  Ok (brk s) (alloc_with s (object_words wrapper n fill (replicate (Z.to_nat k) v))).
Proof.
  intros Ht Hn Hk H1 H2. unfold repeated_allocate_filled. cbv zeta. rewrite Ht.
  replace ((n + 2) * 8 + k * 8) with ((n + 2 + k) * 8) by lia.
  destruct (Z.eqb_spec n 0) as [->|N].
  - destruct (H1 ((0 + 2 + k) * 8)) as [->| ->]; apply alloc_internal_words; try done.
    + right. auto.
    + exists t. auto.
    + right. eauto.
    + exists t. eauto.
  - rewrite H2. apply alloc_internal_words; try done; [by left|]. exists t. auto.
Qed.

(** For counts below 2^31, the object and double-float repeated-slot allocators return a fresh
    object that holds exactly the wrapper, the fixed slots filled with their
    fill, the tagged size and the repeated slot filled with its fill, and
    change nothing else, whether or not there are fixed slots. *)
Theorem repeated_allocators_fill_object s wrapper n fill k v :
  0 <= n < 2147483648 → 0 <= k < 2147483648 →
  let object := object_words wrapper n fill (replicate (Z.to_nat k) v) in
  primitive_object_allocate_filled (n + 2) wrapper n fill k (n + 1) v s =
    Ok (brk s) (alloc_with s object) ∧
  primitive_double_float_allocate_filled (n + 2) wrapper n fill k (n + 1) v s =
    Ok (brk s) (alloc_with s object).
Proof.
  intros Hn Hk object. split; apply repeated_allocate_filled_words; auto.
Qed.

(** The fill of [primitive_word_allocate_filled] is the address of its argument. *)
Lemma word_allocate_fills_with_address s wrapper n fill k v :
  0 <= n < 2147483648 → 0 <= k < 2147483648 →
  primitive_word_allocate_filled (n + 2) wrapper n fill k (n + 1) v s =
  Ok (brk s + 8) (alloc_with (alloc_with s [v])
    (object_words wrapper n fill (replicate (Z.to_nat k) (brk s)))).
Proof.
  intros Hn Hk. unfold primitive_word_allocate_filled.
  mstep (alloc_words_ok 1 s ltac:(lia)).
  assert (store (brk s) v (after_alloc 1 s) = Ok () (alloc_with s [v])) as E.
  { replace (brk s) with (idx (brk s) 0) at 1 by (unfold idx; lia).
    apply (store_splice (bump s 1) (brk s) [] (junk s (brk s + 8 * 0%nat)) [] v 0); done. }
  mstep E. change (repeated_allocate_filled word) with (repeated_allocate_filled dylan_object).
  replace (brk s + 8) with (brk (alloc_with s [v])) by (simpl; lia).
  apply repeated_allocate_filled_words; auto.
Qed.

(** Initialising stack memory as an object with a repeated slot leaves in
    it exactly the words the heap allocator gives such an object. *)
Theorem stack_object_as_on_heap s ptr wrapper n fill k v :
  0 <= n < 2147483648 → 0 <= k < 2147483648 → mapped (mem s) ptr (n + 2 + k) →
  initialize_object_stack_allocate_filled ptr wrapper n fill k (n + 1) v s =
  Ok ptr (put s ptr (object_words wrapper n fill (replicate (Z.to_nat k) v))).
Proof.
  intros Hn Hk Hm. destruct (mapped_arr (mem s) ptr (Z.to_nat (n + 2 + k))) as (l & Hl & A).
  { by rewrite Z2Nat.id by lia. }
  assert (s = put s ptr l) as Es by (unfold put; by rewrite mset_same, with_mem_id).
  destruct (split_object n k ltac:(lia) ltac:(lia) Hl) as (w & ls & r & lr & -> & Hs & Hr).
  unfold initialize_object_stack_allocate_filled. rewrite Es at 1.
  mstep (store_splice s ptr [] w (ls ++ r :: lr) wrapper 0 eq_refl ltac:(lia)).
  unfold primitive_fillX. rewrite (s32_id n) by word. change (s32 1 + s32 0) with 1.
  mstep (fill_loop_splice s ptr dylan_object [wrapper] ls (r :: lr) fill 1 (Z.to_nat n)
    eq_refl eq_refl ltac:(lia) Hs).
  remember ([wrapper] ++ replicate (Z.to_nat n) fill) as hd eqn:Hd.
  assert (length hd = Z.to_nat (n + 1)) as Hh.
  { rewrite Hd. simpl. rewrite length_replicate. lia. }
  rewrite app_assoc, <- Hd.
  pose proof (fill_loop_splice s ptr dylan_object (hd ++ [r]) lr [] v (n + 1 + 1) (Z.to_nat k)
    eq_refl) as F.
  rewrite !app_nil_r, <- !app_assoc in F. simpl app in F.
  mstep (F ltac:(rewrite length_app; simpl; lia) ltac:(lia) Hr).
  replace (0 <? n + 1) with true by lia. simpl when.
  mstep (store_splice s ptr hd r (replicate (Z.to_nat k) v) (I k) (n + 1) Hh ltac:(lia)).
  unfold object_words. rewrite length_replicate, Z2Nat.id by lia. by rewrite Hd.
Qed.

Lemma round_up_ok x k : 0 <= x < 4611686018427387904 → k = (x + 7) / 8 → round_up_to_word x = 8 * k.
Proof.
  intros Hx ->. unfold round_up_to_word.
  replace (u64 (u64 (x + 8) - 1)) with (x + 7) by word.
  change 7 with (Z.ones 3) at 2. rewrite Z.ldiff_ones_r, Z.shiftl_mul_pow2, Z.shiftr_div_pow2 by lia.
  change (2 ^ 3) with 8. word.
Qed.

(** Allocating a terminated byte object rounds its size up to words and
    returns a fresh object with its wrapper, filled slots, tagged size, the
    given number of fill bytes and a zero byte, all inside the block,
    keeping the rest of memory. *)
Theorem byte_allocate_filled_terminated_layout s wrapper n fill r bytes :
  brk s mod 8 = 0 → 0 <= n < 2147483648 → 0 <= r < bytes → bytes < 2147483648 →
  ∃ s', primitive_byte_allocate_filled_terminated (n + 2) bytes wrapper n fill r (n + 1) s =
      Ok (brk s) s' ∧
    byte_object s s' (brk s) wrapper n fill (replicate (Z.to_nat r) (R fill mod 256)).
Proof.
  intros Ha Hn Hr Hb. remember ((bytes + 7) / 8) as k eqn:Ek.
  assert (0 <= k < 2147483648 ∧ r < 8 * k ∧ (8 * (n + 2) + bytes + 7) / 8 = n + 2 + k) as (Hk & Hrk & Hs)
    by zmod.
  unfold primitive_byte_allocate_filled_terminated. cbv zeta.
  rewrite (round_up_ok _ (n + 2 + k)) by (rewrite <- ?Hs; f_equal; lia).
  replace (8 * (n + 2 + k)) with ((n + 2 + k) * 8) by lia.
  replace (R fill mod 256) with (Z.land (s32 (R fill)) 255).
  2: { change 255 with (2 ^ 8 - 1). rewrite land_mask by lia. change (2 ^ 8) with 256. word. }
  destruct (Z.eqb_spec n 0) as [->|N].
  - unfold primitive_alloc_leaf_rbfz.
    destruct (alloc_internal_header s MMAllocateLeaf wrapper None 0 fill k r None
      (Some (true, byte_char, s32 (R fill)))) as (lr & Hl & ->); [right; auto|lia|lia|].
    apply fill_repeated_bytes; lia || done.
  - unfold primitive_alloc_leaf_s_rbfz.
    destruct (alloc_internal_header s MMAllocateLeaf wrapper (Some (n, fill)) n fill k r None
      (Some (true, byte_char, s32 (R fill)))) as (lr & Hl & ->); [by left|lia|lia|].
    apply fill_repeated_bytes; lia || done.
Qed.

(** Bytes that were mapped are below [brk] and stay. *)
Lemma byte_at_put s n l a x :
  wf s → brk s mod 8 = 0 → byte_at (mem s) a = Some x →
  byte_at (mem (put (bump s n) (brk s) l)) a = Some x ∧ a < brk s.
Proof.
  intros W Ha H. unfold byte_at in *. destruct (mem s !! (a - a mod 8)) as [w|] eqn:E; [|done].
  pose proof (wf_below _ _ _ W E) as B. pose proof (Z.mod_pos_bound a 8). split; [|zmod].
  simpl. rewrite lookup_mset_out by lia. by rewrite E.
Qed.

Lemma fill_repeated_none a r o s : fill_repeated a r o None None s = Ok a s.
Proof. done. Qed.

(** Making a Dylan byte string from a C string returns a fresh byte string
    with the same bytes, their number as its tagged size and a terminating
    zero, keeping the rest of memory. *)
Theorem raw_as_string_copies s buffer l fuel :
  wf s → brk s mod 8 = 0 → cstring (mem s) buffer l → length l < 1073741824 →
  (length l ≤ fuel)%nat →
  ∃ s', primitive_raw_as_string fuel buffer s = Ok (brk s) s' ∧
    byte_object s s' (brk s) KLbyte_stringGVKdW 0 0 l.
Proof.
  intros W Ha Hc Hl Hf. unfold primitive_raw_as_string. mstep (strlen_ok s buffer l fuel Hc Hf).
  cbv zeta. remember ((length l + 1 + 7) / 8) as k eqn:Ek.
  assert (0 <= k < 2147483648 ∧ length l < 8 * k ∧ (16 + length l + 1 + 7) / 8 = 0 + 2 + k)
    as (Hk & Hlk & Hs) by zmod.
  rewrite (round_up_ok _ (0 + 2 + k)) by (rewrite <- ?Hs; f_equal; lia).
  replace (8 * (0 + 2 + k)) with ((0 + 2 + k) * 8) by lia. unfold primitive_alloc_leaf_r.
  destruct (alloc_internal_header s MMAllocateLeaf KLbyte_stringGVKdW None 0 0 k (length l) None
    None) as (lr & Hr & E); [right; auto|lia|lia|].
  rewrite fill_repeated_none in E. mstep E. clear E.
  change ((KLbyte_stringGVKdW :: replicate (Z.to_nat 0) 0) ++ I (length l) :: lr)
    with (((KLbyte_stringGVKdW :: replicate (Z.to_nat 0) 0) ++ [I (length l)]) ++ lr).
  set (hd := (KLbyte_stringGVKdW :: replicate (Z.to_nat 0) 0) ++ [I (length l)]).
  set (s1 := put (bump s (0 + 2 + k)) (brk s) (hd ++ lr)).
  change (string_data (brk s)) with (idx (brk s) (0 + 2)). set (d := idx (brk s) (0 + 2)).
  assert (∀ (i : nat) x, (l ++ [0]) !! i = Some x → byte_at (mem s) (buffer + i) = Some x) as Hb.
  { destruct Hc as [H1 H2]. intros i x Hi. apply lookup_app_Some in Hi as [Hi|[Hi Hx]].
    - by apply H1.
    - apply list_lookup_singleton_Some in Hx as [Hx <-].
      by replace (buffer + i) with (buffer + length l) by lia. }
  assert (length (l ++ [0]) = (length l + 1)%nat) as Hl0 by by rewrite length_app.
  destruct (memcpy_ok s1 d buffer (l ++ [0])) as (s2 & E2 & B2).
  - intros i x Hi. apply byte_at_put; [done|done|by apply Hb].
  - intros b Hd. apply put_byte_mapped; [done|]. unfold d, idx in Hd. simpl length. lia.
  - right. specialize (Hb (length l) 0). rewrite lookup_app_r, Nat.sub_diag in Hb by lia.
    apply (byte_at_put s (0 + 2 + k) (hd ++ lr)) in Hb as [_ Hb]; [|done|done|done].
    unfold d, idx. lia.
  - exists s2. replace (Z.to_nat (length l + 1)) with (length (l ++ [0])) by lia.
    mstep E2. split; [done|].
    apply (byte_object_intro s s2 k _ 0 0 (length l) l lr
      (λ b, default 0 ((l ++ [0]) !! Z.to_nat (b - d)))); try done.
    + by replace (length l + 1) with (Z.of_nat (length (l ++ [0]))) by lia.
    + intros i x Hi. fold d. replace (Z.to_nat (d + i - d)) with i by lia.
      by rewrite (lookup_app_l_Some _ _ _ _ Hi).
    + fold d. replace (Z.to_nat (d + length l - d)) with (length l) by lia.
      by rewrite lookup_app_r, Nat.sub_diag by lia.
Qed.

(** primitive_make_vector returns a simple object vector of the given size
    with every element unbound: the canonical empty vector for size zero,
    otherwise a fresh object. *)
Theorem make_vector_is_unbound s n :
  wf s → 0 <= n < 1073741824 →
  ∃ v s', primitive_make_vector n s = Ok v s' ∧
    is_vec (mem s') v (replicate (Z.to_nat n) KPunboundVKi) ∧
    mem s' !! v = Some KLsimple_object_vectorGVKdW ∧
    extends (mem s) (mem s') (brk s) ∧ teb s' = teb s.
Proof.
  intros W Hn. unfold primitive_make_vector, make_dylan_vector.
  replace (u64 (s32 n)) with n by word. destruct (Z.eqb_spec n 0) as [->|N].
  - exists Pempty_vectorVKi, s. split_and!; [done|apply wf_empty; done|by apply wf_empty_class| |done].
    apply extends_refl.
  - unfold VECTOR_HEADER_SIZE. replace (u64 (u64 (n + 2) * 8)) with ((0 + 2 + n) * 8) by word.
    unfold primitive_alloc_rf.
    assert (∀ size, alloc_internal size KLsimple_object_vectorGVKdW None None None (Some (n, 1))
      (Some (dylan_object, KPunboundVKi)) None MMAllocateObject s = alloc_internal size
      KLsimple_object_vectorGVKdW None None None (Some (n, 0 + 1)) (Some (dylan_object, KPunboundVKi))
      None MMAllocateObject s) as -> by done.
    rewrite (alloc_internal_words s _ _ _ 0 0 n _ _ KPunboundVKi);
      [|right; auto|exists dylan_object; auto|lia|lia].
    eexists _, _. split; [done|].
    pose proof (arr_mset (mem s) (brk s) (object_words KLsimple_object_vectorGVKdW 0 0
      (replicate (Z.to_nat n) KPunboundVKi))) as A.
    apply arr_cons in A as [A1 A]. apply arr_cons in A as [A2 A3].
    split_and!; [|done| |done].
    + split_and!.
      * unfold idx. by replace (8 * 1) with 8 by lia.
      * unfold vector_data, idx. by replace (brk s + 8 * 2) with (brk s + 8 + 8) by lia.
      * rewrite length_replicate. lia.
    + by apply extends_mset.
Qed.

(** The bytes [l] at [a]. *)
Definition bytes_at (m : gmap Z Z) (a : Z) (l : list Z) : Prop :=
  ∀ (i : nat) x, l !! i = Some x → byte_at m (a + i) = Some x.

(** primitive_compare_bytes terminates with a canonical boolean that is
    true exactly when the two blocks of bytes differ. *)
Theorem compare_bytes_answers_difference s base1 offset1 base2 offset2 l k :
  bytes_at (mem s) (string_data base1 + offset1) l →
  bytes_at (mem s) (string_data base2 + offset2) k →
  length k = length l →
  ∃ b, primitive_compare_bytes base1 offset1 base2 offset2 (length l) s = Ok b s ∧
    (b = DTRUE ↔ l ≠ k) ∧ (b = DFALSE ↔ l = k).
Proof.
  intros Hl Hk E. unfold primitive_compare_bytes.
  replace (length l <? 0) with false by lia. rewrite Nat2Z.id.
  destruct (memcmp_ok s _ _ _ _ Hl Hk E) as (r & M & Hr). mstep M.
  destruct (Z.eqb_spec r 0) as [E0|N]; eexists; (split; [done|]); simpl;
    rewrite <- Hr; split; split; try done; congruence.
Qed.

(** primitive_replace_bytesX copies the source bytes to the destination,
    both given by a base offset in words and an offset in bytes, when the
    blocks do not overlap, and changes no other byte. *)
Theorem replace_bytes_copies s dst dst_base dst_offset src src_base src_offset l :
  let d := idx dst dst_base + dst_offset in
  bytes_at (mem s) (idx src src_base + src_offset) l →
  (∀ b, d <= b < d + length l → is_Some (byte_at (mem s) b)) →
  d + length l <= idx src src_base + src_offset ∨ idx src src_base + src_offset + length l <= d →
  ∃ s', primitive_replace_bytesX dst dst_base dst_offset src src_base src_offset (length l) s =
      Ok () s' ∧
    bytes_at (mem s') d l ∧
    (∀ b, ¬ d <= b < d + length l → byte_at (mem s') b = byte_at (mem s) b).
Proof.
  intros d Hl Hm Hd. unfold primitive_replace_bytesX. fold d.
  destruct (memcpy_ok s d _ l Hl Hm Hd) as (s' & E & [_ B _ _]).
  destruct (Z.ltb_spec 0 (length l)) as [H|H]; simpl when.
  - exists s'. rewrite Nat2Z.id. split_and!; [done| |].
    + intros i x Hi. rewrite B. pose proof (lookup_lt_Some _ _ _ Hi).
      rewrite decide_True by lia. replace (Z.to_nat (d + i - d)) with i by lia. by rewrite Hi.
    + intros b Hb. by rewrite B, decide_False.
  - destruct l; [|simpl in H; lia]. exists s. by split_and!.
Qed.

(** ** Witnesses *)

(** Two byte strings, "abc" at 65536 and "abd" at 65568, and free words. *)
Definition abc_state : state :=
  example_state [(65536, [KLbyte_stringGVKdW; I 3; 6513249; 0]);
                 (65568, [KLbyte_stringGVKdW; I 3; 6578785; 0]); (65600, replicate 8 0)].

Lemma wf_abc_state : wf abc_state.
Proof. apply wf_example. reflexivity. Qed.

Definition bytes_atb (m : gmap Z Z) (a : Z) (l : list Z) : bool :=
  forallb (λ b, bool_decide (byte_at m (a + b.1) = Some b.2)) (imap (λ i x, (Z.of_nat i, x)) l).

Lemma bytes_atb_true m a l : bytes_atb m a l = true → bytes_at m a l.
Proof.
  intros H i x Hi. unfold bytes_atb in H. rewrite forallb_forall in H.
  specialize (H (Z.of_nat i, x)). rewrite bool_decide_eq_true in H. apply H.
  apply list_elem_of_In, list_elem_of_lookup. exists i. by rewrite list_lookup_imap, Hi.
Qed.

Example repeated_allocators_fill_object_witness :
  let s := abc_state in
  primitive_object_allocate_filled 3 512 1 7 2 2 9 s =
    Ok (brk s) (alloc_with s [512; 7; I 2; 9; 9]) ∧
  primitive_double_float_allocate_filled 3 512 1 7 2 2 9 s =
    Ok (brk s) (alloc_with s [512; 7; I 2; 9; 9]).
Proof.
  exact (repeated_allocators_fill_object abc_state 512 1 7 2 9 ltac:(lia) ltac:(lia)).
Defined.

Example stack_object_as_on_heap_witness :
  initialize_object_stack_allocate_filled 65600 512 2 7 3 3 9 abc_state =
  Ok 65600 (put abc_state 65600 [512; 7; 7; I 3; 9; 9; 9]).
Proof.
  apply (stack_object_as_on_heap abc_state 65600 512 2 7 3 9); [lia|lia|].
  apply mappedb_true with (n := 7%nat). vm_compute. reflexivity.
Defined.

Example byte_allocate_filled_terminated_layout_witness :
  ∃ s', primitive_byte_allocate_filled_terminated 3 11 512 1 (I 65) 10 2 abc_state =
      Ok (brk abc_state) s' ∧
    byte_object abc_state s' (brk abc_state) 512 1 (I 65) (replicate 10 65).
Proof.
  apply (byte_allocate_filled_terminated_layout abc_state 512 1 (I 65) 10 11);
    [reflexivity|lia|lia|lia].
Defined.

Example raw_as_string_copies_witness :
  ∃ s', primitive_raw_as_string 16 65552 abc_state = Ok (brk abc_state) s' ∧
    byte_object abc_state s' (brk abc_state) KLbyte_stringGVKdW 0 0 [97; 98; 99].
Proof.
  apply (raw_as_string_copies abc_state 65552 [97; 98; 99]);
    [apply wf_abc_state|reflexivity| |simpl; lia|simpl; lia].
  split; [|vm_compute; reflexivity].
  intros i x Hi. split.
  - revert i x Hi. apply bytes_atb_true. vm_compute. reflexivity.
  - destruct i as [|[|[|i]]]; [injection Hi as <-; lia..|discriminate].
Defined.

Example make_vector_is_unbound_witness :
  ∃ v s', primitive_make_vector 3 abc_state = Ok v s' ∧
    is_vec (mem s') v [KPunboundVKi; KPunboundVKi; KPunboundVKi] ∧
    mem s' !! v = Some KLsimple_object_vectorGVKdW ∧
    extends (mem abc_state) (mem s') (brk abc_state) ∧ teb s' = teb abc_state.
Proof. apply (make_vector_is_unbound abc_state 3); [apply wf_abc_state|lia]. Defined.

Example compare_bytes_answers_difference_witness :
  ∃ b, primitive_compare_bytes 65536 0 65568 0 3%nat abc_state = Ok b abc_state ∧
    (b = DTRUE ↔ [97; 98; 99] ≠ [97; 98; 100]) ∧ (b = DFALSE ↔ [97; 98; 99] = [97; 98; 100]).
Proof.
  apply (compare_bytes_answers_difference abc_state 65536 0 65568 0 [97; 98; 99] [97; 98; 100]).
  - apply bytes_atb_true. vm_compute. reflexivity.
  - apply bytes_atb_true. vm_compute. reflexivity.
  - reflexivity.
Defined.

Example replace_bytes_copies_witness :
  ∃ s', primitive_replace_bytesX 65600 1 3 65536 2 1 2%nat abc_state = Ok () s' ∧
    bytes_at (mem s') 65611 [98; 99] ∧
    (∀ b, ¬ 65611 <= b < 65611 + 2%nat → byte_at (mem s') b = byte_at (mem abc_state) b).
Proof.
  apply (replace_bytes_copies abc_state 65600 1 3 65536 2 1 [98; 99]).
  - apply bytes_atb_true. vm_compute. reflexivity.
  - intros b Hb. apply (byte_mapped _ 65600 8); [|reflexivity|unfold idx in Hb; simpl in Hb; lia].
    apply mappedb_true with (n := 8%nat). vm_compute. reflexivity.
  - right. unfold idx. simpl. lia.
Defined.

(** Comparing equal strings answers [#f]. *)
Example compare_bytes_of_equal_strings :
  match primitive_compare_bytes 65536 0 65536 0 3 abc_state with
  | Ok b _ => b = DFALSE
  | _ => False
  end.
Proof. vm_compute. reflexivity. Qed.

(** An object with three slots and no repeated slot keeps the junk of its memory. *)
Example allocate_filled_three_slots_unfilled :
  match primitive_allocate_filled 4 512 3 7 0 0 abc_state with
  | Ok v s => mem s !! (v + 8) = Some 0
  | _ => False
  end.
Proof. vm_compute. reflexivity. Qed.
