(* ===== verification/Symbols.v ===== *)
(** * The symbol table

    The list of symbols the run-time keeps until the Dylan library has its own
    table ([c-run-time.c], section "Hack oblist"): symbols of equal names, up to
    the case of ASCII letters, are one object.  The three static variables are a
    record that the primitives pass on.  [GC_REALLOC], a function of the collector,
    and the Dylan function that allocates an instance are an interface, with what
    they promise as laws; a bump allocator is an implementation. *)

From S2P Require Import Prelude Memory Bytes Tagging Vectors Examples Alloc.
From stdpp Require Import base tactics option list numbers gmap.
From Stdlib Require Import ZArith Lia Bool.

Local Open Scope Z_scope.

(** ** The interface to the allocators *)

(** [gc_block s p n]: the collector has [p] as a block of [n] words. *)
Class Allocator := {
  GC_REALLOC : Z → Z → M Z;
  Ksystem_allocate_simple_instanceVKeI : Z → Z → Z → M Z;
  gc_block : state → Z → nat → Prop
}.

(** The words of a block *)
Definition within (p n a : Z) : Prop := ∃ i, 0 <= i < n ∧ a = p + 8 * i.

Lemma within_arr m p l a : arr m p l → within p (length l) a → is_Some (m !! a).
Proof. intros H (i & Hi & ->). by apply (arr_mapped m p l H). Qed.

(** A reallocated block starts with the words of the old one, in the same place or
    in memory that was free; an instance is its wrapper and its slots, filled. *)
Class AllocatorLaws `{Allocator} := {
  realloc_ok s p l (n : nat) :
    wf s → (p = NULL ∧ l = [] ∨ gc_block s p (length l)) → arr (mem s) p l →
    (length l ≤ n)%nat → 0 < n < 2147483648 →
    ∃ q rest s', GC_REALLOC p (8 * n) s = Ok q s' ∧
      length (l ++ rest) = n ∧ arr (mem s') q (l ++ rest) ∧ gc_block s' q n ∧
      (∀ a x, mem s !! a = Some x → ¬ within p (length l) a → mem s' !! a = Some x) ∧
      (∀ a x, within q n a → mem s !! a = Some x → within p (length l) a) ∧
      wf s' ∧ teb s' = teb s;
  allocate_symbol_ok s :
    wf s → ∃ v wrapper s',
      Ksystem_allocate_simple_instanceVKeI LsymbolGVKd Pempty_vectorVKi KPunboundVKi s =
        Ok v s' ∧
      arr (mem s') v [wrapper; KPunboundVKi] ∧ mem s ⊆ mem s' ∧
      (∀ a, within v 2 a → mem s !! a = None) ∧ v ≠ NULL ∧
      (∀ p n, gc_block s p n → gc_block s' p n) ∧ wf s' ∧ teb s' = teb s;
  gc_block_store s p n m : gc_block s p n → gc_block (with_mem m s) p n
}.

(** ** Comparing names *)

(** [tolower] of the C locale *)
Definition tolower (c : Z) : Z := if (65 <=? c) && (c <=? 90) then c + 32 else c.

(** [strncasecmp]: the comparison ends at the first difference, at a null byte or
    after [n] bytes. *)
Fixpoint strncasecmp (a b : Z) (n : nat) : M Z :=
  match n with
  | O => mret 0
  | S n =>
      x ← load_byte a; y ← load_byte b;
      let d := tolower x - tolower y in
      if (d =? 0) && negb (x =? 0) then strncasecmp (a + 1) (b + 1) n else mret d
  end.

(** The part of a name it looks at, in lower case. *)
Fixpoint folded (l : list Z) : list Z :=
  match l with
  | [] => []
  | x :: l => if x =? 0 then [] else tolower x :: folded l
  end.

(** ** The table *)

Definition INITIAL_OBLIST_SIZE : Z := 64.

Record oblist_state := mkOblist {
  oblist_size : Z;
  oblist_cursor : Z;
  oblist : Z
}.

Definition initial_oblist : oblist_state := mkOblist 0 0 NULL.

(** An [int] result; overflow is undefined. *)
Definition int (x : Z) : M Z := if bool_decide (in_s32 x) then mret x else fault.

Definition byte_string_size (string : Z) : M Z := w ← load (idx string 1); mret (s32 (R w)).

Definition symbol_name (symbol : Z) : M Z := load (idx symbol 1).

Section symbols.
Context `{Allocator}.

Definition primitive_make_symbol (string : Z) : M Z :=
  symbol ← Ksystem_allocate_simple_instanceVKeI LsymbolGVKd Pempty_vectorVKi KPunboundVKi;
  store (idx symbol 1) string ;;
  mret symbol.

Definition primitive_preboot_symbols (t : oblist_state) : M Z :=
  primitive_raw_as_vector (u64 (oblist_cursor t)) (oblist t).

(** The loop over the table from element [i] on, [n] of them left. *)
Fixpoint oblist_search (t : oblist_state) (i : Z) (n : nat)
    (input_string_size input_string_data : Z) : M (option Z) :=
  match n with
  | O => mret None
  | S n =>
      oblist_symbol ← load (idx (oblist t) i);
      name ← symbol_name oblist_symbol;
      oblist_string_size ← byte_string_size name;
      r ← (if oblist_string_size =? input_string_size then
             strncasecmp (string_data name) input_string_data (Z.to_nat (u64 input_string_size))
           else mret 1);
      if r =? 0 then mret (Some oblist_symbol)
      else oblist_search t (i + 1) n input_string_size input_string_data
  end.

Definition oblist_grow (t : oblist_state) : M oblist_state :=
  if oblist_size t <=? oblist_cursor t then
    size ← int (oblist_size t + INITIAL_OBLIST_SIZE);
    p ← GC_REALLOC (oblist t) (u64 (u64 size * 8));
    mret (mkOblist size (oblist_cursor t) p)
  else mret t.

Definition primitive_string_as_symbol_using_symbol (string symbol : Z) (t : oblist_state) :
    M (Z * oblist_state) :=
  input_string_size ← byte_string_size string;
  found ← oblist_search t 0 (Z.to_nat (oblist_cursor t)) input_string_size (string_data string);
  match found with
  | Some oblist_symbol => mret (oblist_symbol, t)
  | None =>
      t ← oblist_grow t;
      symbol ← (if symbol =? NULL then primitive_make_symbol string else mret symbol);
      store (idx (oblist t) (oblist_cursor t)) symbol ;;
      cursor ← int (oblist_cursor t + 1);
      mret (symbol, mkOblist (oblist_size t) cursor (oblist t))
  end.

Definition primitive_string_as_symbol (string : Z) (t : oblist_state) : M (Z * oblist_state) :=
  primitive_string_as_symbol_using_symbol string NULL t.

Definition primitive_resolve_symbol (symbol : Z) (t : oblist_state) : M (Z * oblist_state) :=
  name ← symbol_name symbol;
  primitive_string_as_symbol_using_symbol name symbol t.

(** ** Sequences of calls

    The initialisation code of compiled libraries resolves the symbols they hold
    and interns strings. *)

Inductive symbol_call := As_symbol (string : Z) | Resolve (symbol : Z).

Definition symbol_call_run (c : symbol_call) : oblist_state → M (Z * oblist_state) :=
  match c with
  | As_symbol string => primitive_string_as_symbol string
  | Resolve symbol => primitive_resolve_symbol symbol
  end.

Fixpoint symbol_calls (l : list symbol_call) (t : oblist_state) : M (list Z * oblist_state) :=
  match l with
  | [] => mret ([], t)
  | c :: l =>
      r ← symbol_call_run c t;
      rs ← symbol_calls l r.2;
      mret (r.1 :: rs.1, rs.2)
  end.

End symbols.

(** ** What the table holds *)

(** Equal names: what [strncasecmp] sees of two strings of one length. *)
Definition same_name (l k : list Z) : Prop := length l = length k ∧ folded l = folded k.

#[export] Instance same_name_dec l k : Decision (same_name l k).
Proof. unfold same_name. apply _. Defined.

#[export] Instance same_name_equivalence : Equivalence same_name.
Proof.
  unfold same_name. split; [done|intros l k [-> ->]; done|].
  intros l k n [-> ->] [-> ->]. done.
Qed.

Definition byte_string (m : gmap Z Z) (a : Z) (l : list Z) : Prop :=
  m !! idx a 1 = Some (I (length l)) ∧ bytes_at m (string_data a) l ∧ length l < 2147483648.

(** A symbol at [v] whose name is [l]. *)
Definition named (m : gmap Z Z) (v : Z) (l : list Z) : Prop :=
  ∃ name, m !! idx v 1 = Some name ∧ byte_string m name l.

Lemma byte_at_sub m m' a x : m ⊆ m' → byte_at m a = Some x → byte_at m' a = Some x.
Proof.
  unfold byte_at. intros E. destruct (m !! (a - a mod 8)) as [w|] eqn:Hw; [|done].
  by rewrite (lookup_sub _ _ _ _ E Hw).
Qed.

Lemma byte_string_sub m m' a l : m ⊆ m' → byte_string m a l → byte_string m' a l.
Proof.
  intros E (H1 & H2 & H3). split_and!; [by eapply lookup_sub| |done].
  intros i x Hi. eapply byte_at_sub; [done|by apply H2].
Qed.

Lemma named_sub m m' v l : m ⊆ m' → named m v l → named m' v l.
Proof.
  intros E (name & Hn & Hs). exists name. split; [by eapply lookup_sub|by eapply byte_string_sub].
Qed.

Lemma byte_string_unique m a l k : byte_string m a l → byte_string m a k → l = k.
Proof.
  intros (L1 & L2 & L3) (K1 & K2 & K3). rewrite L1 in K1.
  assert (length l = length k) as E.
  { injection K1 as K1. apply I_inj in K1; [lia|unfold in_fixnum; lia..]. }
  apply list_eq. intros i. destruct (l !! i) as [x|] eqn:Hx.
  - destruct (k !! i) as [y|] eqn:Hy; [|apply lookup_ge_None in Hy; apply lookup_lt_Some in Hx; lia].
    specialize (L2 _ _ Hx). specialize (K2 _ _ Hy). congruence.
  - symmetry. apply lookup_ge_None in Hx. apply lookup_ge_None. lia.
Qed.

Lemma named_unique m v l k : named m v l → named m v k → l = k.
Proof.
  intros (n & Hn & Hl) (n' & Hn' & Hk). rewrite Hn in Hn'. injection Hn' as <-.
  by eapply byte_string_unique.
Qed.

Lemma tolower_zero x : 0 <= x → tolower x = 0 ↔ x = 0.
Proof.
  intros Hx. unfold tolower. destruct (Z.leb_spec 65 x), (Z.leb_spec x 90); simpl; lia.
Qed.

Lemma strncasecmp_ok s a b l k :
  bytes_at (mem s) a l → bytes_at (mem s) b k → length l = length k →
  ∃ r, strncasecmp a b (length l) s = Ok r s ∧ (r = 0 ↔ folded l = folded k).
Proof.
  revert a b k. induction l as [|x l IH]; intros a b [|y k] Hl Hk E; try done.
  { by exists 0. }
  assert (byte_at (mem s) a = Some x) as Hx.
  { specialize (Hl 0%nat x eq_refl). by rewrite Z.add_0_r in Hl. }
  assert (byte_at (mem s) b = Some y) as Hy.
  { specialize (Hk 0%nat y eq_refl). by rewrite Z.add_0_r in Hk. }
  destruct (byte_at_range _ _ _ Hx) as [Rx _]. destruct (byte_at_range _ _ _ Hy) as [Ry _].
  pose proof (tolower_zero x Rx). pose proof (tolower_zero y Ry).
  cbn [strncasecmp length folded]. mstep (load_byte_at _ _ _ Hx). mstep (load_byte_at _ _ _ Hy).
  cbv zeta. destruct (Z.eqb_spec (tolower x - tolower y) 0) as [D|D]; cbn [andb].
  - destruct (Z.eqb_spec x 0) as [X|X]; cbn [negb].
    + exists (tolower x - tolower y). split; [done|]. by rewrite (proj2 (Z.eqb_eq y 0)) by lia.
    + destruct (IH (a + 1) (b + 1) k) as (r & -> & Hr).
      * intros i z Hi. replace (a + 1 + i) with (a + S i) by lia. by apply Hl.
      * intros i z Hi. replace (b + 1 + i) with (b + S i) by lia. by apply Hk.
      * simpl in E. lia.
      * exists r. split; [done|]. rewrite (proj2 (Z.eqb_neq y 0)) by lia. rewrite Hr.
        replace (tolower y) with (tolower x) by lia. split; [by intros ->|congruence].
  - exists (tolower x - tolower y). split; [done|]. split; [lia|]. intros F. exfalso.
    destruct (Z.eqb_spec x 0), (Z.eqb_spec y 0); try done; [lia|]. injection F. lia.
Qed.

(** The abstract table: symbols with their names; the first entry for a name. *)
Fixpoint find_name (l : list Z) (tbl : list (Z * list Z)) : option Z :=
  match tbl with
  | [] => None
  | (v, k) :: tbl => if decide (same_name k l) then Some v else find_name l tbl
  end.

Definition enter (l : list Z) (v : Z) (tbl : list (Z * list Z)) : list (Z * list Z) :=
  match find_name l tbl with Some _ => tbl | None => tbl ++ [(v, l)] end.

Lemma find_name_Some l tbl v :
  find_name l tbl = Some v → ∃ k, (v, k) ∈ tbl ∧ same_name k l.
Proof.
  induction tbl as [|[w k] tbl IH]; simpl; [done|]. case_decide as D.
  - intros [= ->]. exists k. split; [left|done].
  - intros (k' & Hk & Hs)%IH. exists k'. split; [by right|done].
Qed.

Lemma find_name_app l tbl tbl' :
  find_name l (tbl ++ tbl') = match find_name l tbl with Some v => Some v | None => find_name l tbl' end.
Proof. induction tbl as [|[w k] tbl IH]; simpl; [done|]. by case_decide. Qed.

Lemma find_name_same l l' tbl : same_name l l' → find_name l tbl = find_name l' tbl.
Proof.
  intros E. induction tbl as [|[w k] tbl IH]; simpl; [done|].
  rewrite (decide_ext (same_name k l) (same_name k l')) by (by rewrite E). by rewrite IH.
Qed.

Lemma find_name_enter l v tbl : find_name l (enter l v tbl) = Some (default v (find_name l tbl)).
Proof.
  unfold enter. destruct (find_name l tbl) as [w|] eqn:E; [done|].
  rewrite find_name_app, E. simpl. by rewrite decide_True.
Qed.

Lemma find_name_enter_other l k v tbl :
  find_name l tbl = None → ¬ same_name k l → find_name l (enter k v tbl) = None.
Proof.
  intros E N. unfold enter. destruct (find_name k tbl); [done|].
  rewrite find_name_app, E. simpl. by rewrite decide_False.
Qed.

Lemma find_name_enter_keep l k v w tbl :
  find_name l tbl = Some w → find_name l (enter k v tbl) = Some w.
Proof.
  intros E. unfold enter. destruct (find_name k tbl); [done|]. by rewrite find_name_app, E.
Qed.

(** ** The primitives keep the table *)

(** Writing a word in use, other than the empty vector's. *)
Lemma wf_store s a v :
  wf s → is_Some (mem s !! a) → a ≠ Pempty_vectorVKi → a ≠ idx Pempty_vectorVKi 1 →
  wf (with_mem (<[a := v]> (mem s)) s).
Proof.
  intros W Ha N0 N1. pose proof (mapped_mset (mem s) a [v]) as M. simpl in M. constructor; simpl.
  - by apply wf_brk.
  - intros b Hb. rewrite lookup_insert_ne; [by apply wf_fresh|]. intros ->.
    destruct Ha as [x Hx]. apply (wf_below s _ _ W) in Hx. lia.
  - by apply M, wf_return_values.
  - intros b Hb. by apply M, wf_buffers.
  - intros b Hb. rewrite lookup_insert_ne; [by apply wf_behind|]. intros ->.
    destruct Ha as [x Hx]. by rewrite (wf_behind s W b Hb) in Hx.
  - destruct (wf_empty s W) as (H1 & H2 & H3). split_and!; [|apply arr_nil|done].
    by rewrite lookup_insert_ne.
  - rewrite lookup_insert_ne by done. by apply wf_empty_class.
Qed.

Lemma lookup_sub_is_Some (m m' : gmap Z Z) a : m ⊆ m' → is_Some (m !! a) → is_Some (m' !! a).
Proof. intros E [x Hx]. exists x. by eapply lookup_sub. Qed.

Section laws.
Context `{AllocatorLaws}.

(** [h]: the part of memory the symbols and their names are in; the table's own
    block lies outside it. *)
Record table_ok (h : gmap Z Z) (s : state) (t : oblist_state) (tbl : list (Z * list Z)) : Prop := {
  to_wf : wf s;
  to_heap : h ⊆ mem s;
  to_empty : is_Some (h !! Pempty_vectorVKi) ∧ is_Some (h !! idx Pempty_vectorVKi 1);
  to_cursor : oblist_cursor t = length tbl;
  to_size : length tbl <= oblist_size t < 2147483648;
  to_block : ∃ rest, Z.of_nat (length (tbl.*1 ++ rest)) = oblist_size t ∧
    arr (mem s) (oblist t) (tbl.*1 ++ rest);
  to_gc : oblist t = NULL ∧ oblist_size t = 0 ∨
    gc_block s (oblist t) (Z.to_nat (oblist_size t));
  to_apart a : is_Some (h !! a) → ¬ within (oblist t) (oblist_size t) a;
  to_named : Forall (λ e, named h e.1 e.2) tbl
}.

Lemma byte_string_size_ok s string l :
  byte_string (mem s) string l → byte_string_size string s = Ok (length l : Z) s.
Proof.
  intros (E & _ & Hl). unfold byte_string_size. mstep (load_ok _ _ _ E).
  rewrite R_I_id by (unfold in_fixnum; lia). rewrite s32_id; [done|]. unfold in_s32. lia.
Qed.

Lemma oblist_search_ok s t string l tbl i :
  byte_string (mem s) string l → Forall (λ e, named (mem s) e.1 e.2) tbl →
  arr (mem s) (idx (oblist t) i) tbl.*1 →
  oblist_search t i (length tbl) (length l) (string_data string) s = Ok (find_name l tbl) s.
Proof.
  intros Hs Hn. revert i. induction Hn as [|[v k] tbl (name & Hv & Hk) Hn IH]; intros i Ha; [done|].
  cbn [fst snd fmap list_fmap] in *. apply arr_cons in Ha as [Hi Ha].
  assert (oblist_search t (i + 1) (length tbl) (length l) (string_data string) s
    = Ok (find_name l tbl) s) as Hnext.
  { apply IH. by replace (idx (oblist t) (i + 1)) with (idx (oblist t) i + 8) by (unfold idx; lia). }
  cbn [oblist_search length find_name]. mstep (load_ok _ _ _ Hi).
  unfold symbol_name. mstep (load_ok _ _ _ Hv). mstep (byte_string_size_ok _ _ _ Hk).
  destruct Hk as (_ & Hk & _), Hs as (_ & Hs & Hlen).
  destruct (Z.eqb_spec (length k) (length l)) as [E|E].
  - replace (Z.to_nat (u64 (length l))) with (length k) by (rewrite u64_id; [lia|unfold in_u64; lia]).
    destruct (strncasecmp_ok s _ _ _ _ Hk Hs ltac:(lia)) as (r & Er & Hr). mstep Er.
    destruct (Z.eqb_spec r 0) as [R0|R0].
    + rewrite decide_True; [done|]. split; [lia|tauto].
    + rewrite decide_False; [done|]. intros [_ F]. tauto.
  - mnorm. simpl. rewrite decide_False; [done|]. intros [F _]. lia.
Qed.

Lemma int_ok x s : in_s32 x → int x s = Ok x s.
Proof. intros Hx. unfold int. by rewrite bool_decide_true. Qed.

(** Making room for one more symbol: the table's entries are kept and the objects
    are untouched. *)
Lemma oblist_grow_ok h s t tbl :
  table_ok h s t tbl → length tbl < 2147483584 →
  ∃ t' s', oblist_grow t s = Ok t' s' ∧ table_ok h s' t' tbl ∧ length tbl < oblist_size t' ∧
    teb s' = teb s.
Proof.
  intros T Hlen. destruct (to_size _ _ _ _ T) as [Hc Hb]. unfold oblist_grow.
  rewrite (to_cursor _ _ _ _ T). destruct (Z.leb_spec (oblist_size t) (length tbl)) as [L|L].
  2: { exists t, s. by split_and!. }
  destruct (to_block _ _ _ _ T) as (rest & Hr & Ha).
  rewrite length_app, length_fmap in Hr.
  destruct rest; [|simpl in Hr; lia]. rewrite app_nil_r in Ha.
  unfold INITIAL_OBLIST_SIZE. mstep (int_ok (oblist_size t + 64) s ltac:(unfold in_s32; lia)).
  set (n := Z.to_nat (oblist_size t + 64)).
  replace (u64 (u64 (oblist_size t + 64) * 8)) with (8 * n)
    by (rewrite !u64_id; unfold in_u64; rewrite ?u64_id; unfold in_u64; lia).
  destruct (realloc_ok s (oblist t) tbl.*1 n (to_wf _ _ _ _ T)) as
    (q & rest & s' & E & Hq & Aq & Gq & Keep & New & W & Teb); [|done|rewrite length_fmap; lia|lia|].
  { rewrite length_fmap. destruct (to_gc _ _ _ _ T) as [[Hp Hz]|G]; [left|right].
    - split; [done|]. destruct tbl; [done|simpl in *; lia].
    - by replace (length tbl) with (Z.to_nat (oblist_size t)) by lia. }
  mstep E. eexists _, s'. split; [done|]. split; [|split; [simpl; lia|done]].
  assert (∀ a, is_Some (h !! a) → ¬ within (oblist t) (length tbl.*1) a) as Hout.
  { intros a Ha'. rewrite length_fmap. replace (Z.of_nat (length tbl)) with (oblist_size t) by lia.
    by apply T. }
  constructor; simpl; try done; try lia.
  - apply map_subseteq_spec. intros a x Hx. apply Keep; [|by apply Hout].
    by eapply lookup_sub; [apply T|].
  - apply T.
  - exists rest. split; [lia|done].
  - by right.
  - intros a Ha' Hw. apply (Hout a Ha'). destruct Ha' as [x Hx]. apply (New a x).
    + by replace (Z.of_nat n) with (oblist_size t + 64) by lia.
    + by eapply lookup_sub; [apply T|].
  - apply T.
Qed.

(** Objects made meanwhile join [h]. *)
Lemma make_symbol_ok h s t tbl string l :
  table_ok h s t tbl → byte_string h string l →
  ∃ v s' h', primitive_make_symbol string s = Ok v s' ∧ table_ok h' s' t tbl ∧ h ⊆ h' ∧
    named h' v l ∧ teb s' = teb s.
Proof.
  intros T Hs. unfold primitive_make_symbol.
  destruct (allocate_symbol_ok s (to_wf _ _ _ _ T)) as
    (v & w & s1 & E & Av & Sub & New & _ & Gc & W & Teb).
  mstep E. apply arr_cons in Av as [_ Av]. apply arr_cons in Av as [Av _].
  replace (v + 8) with (idx v 1) in Av by (unfold idx; lia).
  assert (mem s !! idx v 1 = None) as Hnew.
  { apply New. exists 1. split; [lia|done]. }
  mstep (store_ok s1 _ string (mk_is_Some _ _ Av)).
  eexists v, _, (<[idx v 1 := string]> h). split; [done|].
  assert (h !! idx v 1 = None) as Hh.
  { destruct (h !! idx v 1) eqn:F; [|done]. apply (lookup_sub h (mem s)) in F; [congruence|apply T]. }
  assert (h ⊆ <[idx v 1 := string]> h) as Hsub by by apply insert_subseteq.
  split; [|split; [done|split; [|done]]].
  2: { exists string. split; [apply lookup_insert_eq|by eapply byte_string_sub]. }
  destruct (to_block _ _ _ _ T) as (rest & Hr & Ha). constructor; simpl; try apply T.
  - apply wf_store; [done|done| |]; intros F; rewrite F in Hh;
      destruct (to_empty _ _ _ _ T) as [[x Hx] [y Hy]]; congruence.
  - apply insert_mono. etransitivity; [apply T|done].
  - split; eapply lookup_sub_is_Some; [done|apply T|done|apply T].
  - exists rest. split; [done|]. intros i x Hi. specialize (Ha i x Hi).
    rewrite lookup_insert_ne; [by eapply lookup_sub|]. intros F. congruence.
  - destruct (to_gc _ _ _ _ T) as [|G]; [by left|right]. by apply gc_block_store, Gc.
  - intros a [x Hx]. destruct (decide (a = idx v 1)) as [->|N].
    + intros Hw. rewrite <- Hr in Hw. apply (within_arr _ _ _ _ Ha) in Hw as [y Hy]. congruence.
    + rewrite lookup_insert_ne in Hx by done. by apply T.
  - eapply Forall_impl; [apply T|]. intros e. by apply named_sub.
Qed.

(** Adding a symbol at the end of a table with room for it. *)
Lemma add_symbol_ok h s t tbl v l :
  table_ok h s t tbl → length tbl < oblist_size t → named h v l →
  ∃ s', store (idx (oblist t) (oblist_cursor t)) v s = Ok () s' ∧ teb s' = teb s ∧
    table_ok h s' (mkOblist (oblist_size t) (oblist_cursor t + 1) (oblist t)) (tbl ++ [(v, l)]).
Proof.
  intros T Hroom Hv. destruct (to_block _ _ _ _ T) as (rest & Hr & Ha).
  rewrite (to_cursor _ _ _ _ T). set (a := idx (oblist t) (length tbl)).
  assert (within (oblist t) (oblist_size t) a) as Hin by (exists (length tbl); split; [lia|done]).
  assert (h !! a = None) as Hh.
  { destruct (h !! a) eqn:F; [|done]. exfalso. eapply (to_apart _ _ _ _ T a); [by eexists|done]. }
  assert (is_Some (mem s !! a)) as Hm by (rewrite <- Hr in Hin; by apply (within_arr _ _ _ _ Ha)).
  eexists. split; [by apply store_ok|]. split; [done|].
  destruct (to_empty _ _ _ _ T) as [[x Hx] [y Hy]]. pose proof (to_cursor _ _ _ _ T) as Hc.
  destruct T as [W Sub Hem _ Hsize _ Hgc Hapart Hnamed]. constructor; simpl; try done.
  - apply wf_store; [done|done|congruence..].
  - apply insert_subseteq_r; done.
  - rewrite length_app. simpl. lia.
  - rewrite length_app. simpl. lia.
  - destruct rest as [|z rest]; [rewrite app_nil_r, length_fmap in Hr; lia|].
    exists rest. rewrite fmap_app, <- app_assoc. simpl. split.
    { rewrite <- Hr, !length_app. done. }
    intros i w Hi. destruct (decide (i = length tbl)) as [->|N].
    + rewrite <- (length_fmap fst tbl), list_lookup_middle in Hi by done. injection Hi as <-.
      apply lookup_insert_eq.
    + rewrite lookup_insert_ne by (unfold a, idx; lia). apply Ha.
      rewrite <- (list_lookup_insert_ne _ (length tbl) i v) by done.
      rewrite insert_app_r_alt by (by rewrite length_fmap).
      by rewrite length_fmap, Nat.sub_diag.
  - destruct Hgc as [|G]; [by left|right]. by apply gc_block_store.
  - apply Forall_app. split; [done|]. by apply Forall_singleton.
Qed.

(** One call: an entry for the name is answered as it is; without one, the symbol
    passed, or a new one, is entered. *)
Lemma using_symbol_ok h s t tbl string symbol l :
  table_ok h s t tbl → byte_string h string l → length tbl < 2147483584 →
  (symbol ≠ NULL → h !! idx symbol 1 = Some string) →
  ∃ v t' s' h', primitive_string_as_symbol_using_symbol string symbol t s = Ok (v, t') s' ∧
    table_ok h' s' t' (enter l v tbl) ∧ h ⊆ h' ∧ teb s' = teb s ∧
    match find_name l tbl with
    | Some w => v = w
    | None => named h' v l ∧ (symbol ≠ NULL → v = symbol)
    end.
Proof.
  intros T Hs Hlen Hsym. unfold primitive_string_as_symbol_using_symbol.
  pose proof (byte_string_sub _ _ _ _ (to_heap _ _ _ _ T) Hs) as Hs'.
  mstep (byte_string_size_ok _ _ _ Hs').
  rewrite (to_cursor _ _ _ _ T), Nat2Z.id. destruct (to_block _ _ _ _ T) as (rest & _ & Ha).
  apply arr_app in Ha as [Ha _].
  assert (Forall (λ e, named (mem s) e.1 e.2) tbl) as Hn.
  { eapply Forall_impl; [apply T|]. intros e. apply named_sub, T. }
  mstep (oblist_search_ok s t string l tbl 0 Hs' Hn
    ltac:(unfold idx; by replace (oblist t + 8 * 0) with (oblist t) by lia)).
  unfold enter. destruct (find_name l tbl) as [w|].
  { exists w, t, s, h. by split_and!. }
  destruct (oblist_grow_ok h s t tbl T Hlen) as (t1 & s1 & E1 & T1 & Hroom & B1). mstep E1.
  assert (∃ v s2 h', (if symbol =? NULL then primitive_make_symbol string else mret symbol) s1
    = Ok v s2 ∧ table_ok h' s2 t1 tbl ∧ h ⊆ h' ∧ named h' v l ∧ teb s2 = teb s1 ∧
    (symbol ≠ NULL → v = symbol)) as (v & s2 & h' & E2 & T2 & Sub & Hv & B2 & Hsymv).
  { destruct (Z.eqb_spec symbol NULL) as [Z|N].
    - destruct (make_symbol_ok h s1 t1 tbl string l T1 Hs) as (v & s2 & h' & F).
      exists v, s2, h'. by split_and!; try apply F.
    - exists symbol, s1, h. split_and!; try done. exists string. auto. }
  mstep E2. destruct (add_symbol_ok h' s2 t1 tbl v l T2 Hroom Hv) as (s3 & E3 & B3 & T3).
  mstep E3. rewrite (to_cursor _ _ _ _ T2) in T3 |- *.
  mstep (int_ok (length tbl + 1) s3 ltac:(unfold in_s32; lia)).
  eexists v, _, s3, h'. split; [done|]. split_and!; try done. congruence.
Qed.

(** ** Sequences of calls *)

Definition call_named (m : gmap Z Z) (c : symbol_call) (l : list Z) : Prop :=
  match c with
  | As_symbol string => byte_string m string l
  | Resolve symbol => symbol ≠ NULL ∧ named m symbol l
  end.

Lemma call_named_sub m m' c l : m ⊆ m' → call_named m c l → call_named m' c l.
Proof.
  intros E. destruct c as [string|symbol]; simpl; [by apply byte_string_sub|].
  intros [N Hl]. split; [done|by eapply named_sub].
Qed.

Lemma symbol_call_ok h s t tbl c l :
  table_ok h s t tbl → call_named h c l → length tbl < 2147483584 →
  ∃ v t' s' h', symbol_call_run c t s = Ok (v, t') s' ∧
    table_ok h' s' t' (enter l v tbl) ∧ h ⊆ h' ∧ teb s' = teb s ∧
    match find_name l tbl with
    | Some w => v = w
    | None => named h' v l ∧ (∀ x, c = Resolve x → v = x)
    end.
Proof.
  intros T Hc Hlen. destruct c as [string|symbol]; simpl in Hc |- *.
  - destruct (using_symbol_ok h s t tbl string NULL l T Hc Hlen) as (v & t' & s' & h' & E & T' & F);
      [done|]. exists v, t', s', h'. split_and!; try done; try apply F.
    destruct F as (_ & _ & F). destruct (find_name l tbl); [done|]. by split; [apply F|].
  - destruct Hc as (N & string & Hn & Hs).
    destruct (using_symbol_ok h s t tbl string symbol l T Hs Hlen) as
      (v & t' & s' & h' & E & T' & F); [done|]. unfold primitive_resolve_symbol, symbol_name.
    mstep (load_ok s _ _ (lookup_sub _ _ _ _ (to_heap _ _ _ _ T) Hn)).
    exists v, t', s', h'. split_and!; try done; try apply F.
    destruct F as (_ & _ & F). destruct (find_name l tbl); [done|]. split; [apply F|].
    intros x [= <-]. by apply F.
Qed.

(** The objects in the table, in the order in which they first appear. *)
Definition register (seen : list Z) (v : Z) : list Z :=
  if bool_decide (v ∈ seen) then seen else seen ++ [v].

Lemma enter_register h h' tbl l v :
  Forall (λ e, named h e.1 e.2) tbl → h ⊆ h' →
  match find_name l tbl with Some w => v = w | None => named h' v l end →
  (enter l v tbl).*1 = register tbl.*1 v.
Proof.
  intros Hn Sub Hv. unfold enter, register. destruct (find_name l tbl) as [w|] eqn:E.
  - subst. apply find_name_Some in E as (k & Hk & _). rewrite bool_decide_true; [done|].
    by apply (list_elem_of_fmap_2 fst) in Hk.
  - rewrite fmap_app, bool_decide_false; [done|]. intros ([v' k] & -> & Hin)%list_elem_of_fmap.
    rewrite Forall_forall in Hn. specialize (Hn _ Hin). simpl in *.
    rewrite (named_unique _ _ _ _ (named_sub _ _ _ _ Sub Hn) Hv) in Hin.
    clear -E Hin. induction tbl as [|[w k'] tbl IH]; [by apply elem_of_nil in Hin|].
    simpl in E. case_decide as D; [done|]. apply elem_of_cons in Hin as [[= -> ->]|Hin]; eauto.
    by apply D.
Qed.

Lemma length_enter l v tbl : (length (enter l v tbl) ≤ S (length tbl))%nat.
Proof. unfold enter. destruct (find_name l tbl); [lia|]. rewrite length_app. simpl. lia. Qed.

Lemma symbol_calls_ok calls names h s t tbl :
  Forall2 (call_named h) calls names → table_ok h s t tbl →
  length tbl + length calls <= 2147483584 →
  ∃ rs t' s' h' tbl', symbol_calls calls t s = Ok (rs, t') s' ∧ table_ok h' s' t' tbl' ∧
    teb s' = teb s ∧ (∀ l w, find_name l tbl = Some w → find_name l tbl' = Some w) ∧
    Forall2 (λ l r, find_name l tbl' = Some r) names rs ∧
    tbl'.*1 = fold_left register rs tbl.*1 ∧
    (∀ i x l, calls !! i = Some (Resolve x) → names !! i = Some l → find_name l tbl = None →
      (∀ j k, (j < i)%nat → names !! j = Some k → ¬ same_name k l) → rs !! i = Some x).
Proof.
  intros Hc. revert s t tbl. generalize dependent h.
  induction calls as [|c calls IH] in names |- *; intros h Hc s t tbl T Hlen.
  { apply Forall2_nil_inv_l in Hc as ->. exists [], t, s, h, tbl. by split_and!. }
  apply Forall2_cons_inv_l in Hc as (l & names' & Hl & Hc & ->). simpl in Hlen.
  destruct (symbol_call_ok h s t tbl c l T Hl ltac:(lia)) as (v & t1 & s1 & h1 & E1 & T1 & Sub & B1 & Hv).
  pose proof (length_enter l v tbl) as Hle.
  destruct (IH names' h1) with (s := s1) (t := t1) (tbl := enter l v tbl)
    as (rs & t' & s' & h' & tbl' & E & T' & B & Keep & Hrs & Hreg & Hres);
    [eapply Forall2_impl; [exact Hc|]; intros; by eapply call_named_sub|done|lia|].
  assert (find_name l (enter l v tbl) = Some v) as Hfind.
  { rewrite find_name_enter. destruct (find_name l tbl); simpl; congruence. }
  exists (v :: rs), t', s', h', tbl'. split_and!.
  - cbn [symbol_calls]. mstep E1. cbn [fst snd]. by mstep E.
  - done.
  - congruence.
  - intros k w Hk. by apply Keep, find_name_enter_keep.
  - constructor; [by apply Keep|done].
  - simpl. rewrite Hreg. f_equal. apply (enter_register h h1); [apply T|done|].
    destruct (find_name l tbl); [done|apply Hv].
  - intros [|i] x k Hi Hk Hnone Hfirst; simpl in *.
    + injection Hi as ->. injection Hk as ->. rewrite Hnone in Hv. f_equal. by apply Hv.
    + apply (Hres i x k); try done.
      * apply find_name_enter_other; [done|]. by apply (Hfirst 0%nat); [lia|].
      * intros j k' Hj Hk'. apply (Hfirst (S j)); [lia|done].
Qed.

Lemma table_ok_initial s : wf s → table_ok (mem s) s initial_oblist [].
Proof.
  intros W. constructor; simpl; try done; try lia.
  - destruct (wf_empty s W) as (Hs & _). split; eexists; [by apply wf_empty_class|exact Hs].
  - exists []. split; [done|apply arr_nil].
  - intros a _ (i & Hi & _). lia.
Qed.

Lemma preboot_symbols_ok h s t tbl :
  table_ok h s t tbl →
  ∃ v s', primitive_preboot_symbols t s = Ok v s' ∧ is_vec (mem s') v tbl.*1.
Proof.
  intros T. unfold primitive_preboot_symbols, primitive_raw_as_vector.
  destruct (to_size _ _ _ _ T). rewrite (to_cursor _ _ _ _ T).
  rewrite u64_id, s32_id by (unfold in_s32, in_u64; lia).
  destruct (to_block _ _ _ _ T) as (rest & _ & Ha). apply arr_app in Ha as [Ha _].
  destruct (decide (tbl = [])) as [->|N].
  - exists Pempty_vectorVKi, s. split; [by apply make_vector_from_buffer_empty, T|].
    apply wf_empty, T.
  - destruct (make_vector_from_buffer_ok s (oblist t) tbl.*1) as (s' & E & F);
      [apply T|done|rewrite length_fmap; destruct tbl; [done|simpl in *; lia]|].
    rewrite length_fmap in E. exists (brk s), s'. split; [done|by apply F].
Qed.

End laws.

(** C12: For every sequence of calls of primitive_string_as_symbol and
    primitive_resolve_symbol, from the empty table on, the table being
    reallocated as it grows: every call returns a symbol whose name is the
    requested one up to the case of ASCII letters, two calls return the same
    object exactly when their names are equal in this sense (same length,
    and equal up to case before the first null byte), resolving a symbol
    whose name is new returns that symbol itself, and
    primitive_preboot_symbols lists the symbols in the order of their first
    appearance. *)
Theorem symbols_are_interned `{AllocatorLaws} calls names s :
  wf s → Forall2 (call_named (mem s)) calls names → length calls <= 2147483584 →
  ∃ rs t s', symbol_calls calls initial_oblist s = Ok (rs, t) s' ∧ teb s' = teb s ∧
    (∀ i j ri rj li lj, rs !! i = Some ri → rs !! j = Some rj →
      names !! i = Some li → names !! j = Some lj → ri = rj ↔ same_name li lj) ∧
    Forall2 (λ l r, ∃ k, named (mem s') r k ∧ same_name k l) names rs ∧
    (∀ i x l, calls !! i = Some (Resolve x) → names !! i = Some l →
      (∀ j k, (j < i)%nat → names !! j = Some k → ¬ same_name k l) → rs !! i = Some x) ∧
    ∃ v s'', primitive_preboot_symbols t s' = Ok v s'' ∧
      is_vec (mem s'') v (fold_left register rs []).
Proof.
  intros W Hc Hlen.
  destruct (symbol_calls_ok calls names (mem s) s initial_oblist [] Hc (table_ok_initial s W) Hlen)
    as (rs & t & s' & h & tbl & E & T & B & _ & Hrs & Hreg & Hres).
  assert (∀ l r, find_name l tbl = Some r → ∃ k, named h r k ∧ same_name k l) as Hnamed.
  { intros l r (k & Hk & Hs)%find_name_Some. exists k. split; [|done].
    pose proof (to_named _ _ _ _ T) as Hn. rewrite Forall_forall in Hn. apply (Hn _ Hk). }
  exists rs, t, s'. split_and!; [done|done| | | |].
  - intros i j ri rj li lj Hri Hrj Hli Hlj.
    pose proof (Forall2_lookup_lr _ _ _ _ _ _ Hrs Hli Hri) as Fi.
    pose proof (Forall2_lookup_lr _ _ _ _ _ _ Hrs Hlj Hrj) as Fj. simpl in Fi, Fj. split.
    + intros ->. destruct (Hnamed _ _ Fi) as (k & Hk & <-). destruct (Hnamed _ _ Fj) as (k' & Hk' & <-).
      by rewrite (named_unique _ _ _ _ Hk Hk').
    + intros Hs. rewrite (find_name_same _ _ _ Hs) in Fi. congruence.
  - eapply Forall2_impl; [exact Hrs|]. intros l r (k & Hk & Hs)%Hnamed. exists k.
    split; [|done]. eapply named_sub; [apply T|done].
  - intros i x l Hi Hl. by apply Hres.
  - destruct (preboot_symbols_ok h s' t tbl T) as (v & s'' & Ev & Hv). exists v, s''.
    split; [done|]. simpl in Hreg. by rewrite <- Hreg.
Qed.

(** ** An allocator *)

(** Fresh memory each time; reallocation copies the words that are there. *)
Definition bump_realloc (p size : Z) : M Z := λ s,
  let n := Z.to_nat (size / 8) in
  let l := (λ i : nat, default 0 (mem s !! (p + 8 * i))) <$> seq 0 n in
  Ok (brk s) (alloc_with s l).

Definition bump_instance (class initargs fill : Z) : M Z := λ s,
  Ok (brk s) (alloc_with s [class; fill]).

#[export] Instance bump_allocator : Allocator := {
  GC_REALLOC := bump_realloc;
  Ksystem_allocate_simple_instanceVKeI := bump_instance;
  gc_block _ _ _ := True
}.

Lemma wf_alloc_with s l : wf s → wf (alloc_with s l).
Proof.
  intros W. pose proof (wf_brk s W). unfold alloc_with, put, bump, with_mem. simpl.
  apply wf_extend; [done|lia|by apply extends_mset|]. intros a Ha.
  rewrite lookup_mset_out; [apply wf_fresh; [done|lia]|]. intros i Hi. lia.
Qed.

Lemma alloc_with_keeps s l a x : wf s → mem s !! a = Some x → mem (alloc_with s l) !! a = Some x.
Proof.
  intros W Hx. simpl. rewrite lookup_mset_out; [done|]. intros i Hi ->.
  pose proof (wf_below s _ _ W Hx). lia.
Qed.

#[export] Instance bump_allocator_laws : AllocatorLaws.
Proof.
  split; [| |done].
  - intros s p l n W _ Ha Hl Hn. simpl. unfold bump_realloc.
    replace (Z.to_nat (8 * n / 8)) with n by (rewrite Z.mul_comm, Z.div_mul by lia; lia).
    set (k := (λ i : nat, _) <$> seq 0 n). assert (length k = n) as Hk by by unfold k; rewrite length_fmap, length_seq.
    assert (k = l ++ drop (length l) k) as Ek.
    { rewrite <- (take_drop (length l) k) at 1. f_equal. apply list_eq. intros i.
      destruct (decide (i < length l)%nat) as [Hi|Hi].
      - destruct (lookup_lt_is_Some_2 l i Hi) as [x Hx]. rewrite lookup_take_lt, Hx by done.
        unfold k. rewrite list_lookup_fmap, lookup_seq_lt by lia. simpl. f_equal.
        specialize (Ha i x Hx). by rewrite Ha.
      - rewrite !lookup_ge_None_2; [done|lia|]. rewrite length_take. lia. }
    exists (brk s), (drop (length l) k), (alloc_with s k). rewrite <- Ek.
    split_and!; try done.
    + apply arr_mset.
    + intros a x Hx _. by apply alloc_with_keeps.
    + intros a x (i & Hi & ->) Hx. pose proof (wf_below s _ _ W Hx). lia.
    + by apply wf_alloc_with.
  - intros s W. pose proof (wf_brk s W) as Hb.
    exists (brk s), LsymbolGVKd, (alloc_with s [LsymbolGVKd; KPunboundVKi]).
    split_and!; try done.
    + apply arr_mset.
    + apply map_subseteq_spec. intros a x Hx. by apply alloc_with_keeps.
    + intros a (i & Hi & ->). apply wf_fresh; [done|lia].
    + unfold teb_end, teb_arguments, NULL in *. lia.
    + by apply wf_alloc_with.
Qed.

(** ** Witnesses *)

(** The strings "Red", "blue", "RED" and "red", and a symbol object named by the
    last. *)
Definition colours_state : state :=
  example_state [(65536, [KLbyte_stringGVKdW; I 3; 6579538]);
                 (65568, [KLbyte_stringGVKdW; I 4; 1702194274]);
                 (65600, [KLbyte_stringGVKdW; I 3; 4474194]);
                 (65632, [KLbyte_stringGVKdW; I 3; 6579570]);
                 (65664, [LsymbolGVKd; 65632])].

Definition byte_stringb (m : gmap Z Z) (a : Z) (l : list Z) : bool :=
  bool_decide (m !! idx a 1 = Some (I (length l))) && bytes_atb m (string_data a) l &&
  (length l <? 2147483648).

Lemma byte_stringb_true m a l : byte_stringb m a l = true → byte_string m a l.
Proof.
  unfold byte_stringb. intros [[H1%bool_decide_eq_true H2]%andb_prop H3]%andb_prop.
  split_and!; [done|by apply bytes_atb_true|lia].
Qed.

Example symbols_are_interned_witness :
  ∃ rs t s', symbol_calls [As_symbol 65536; As_symbol 65568; As_symbol 65600; Resolve 65664]
      initial_oblist colours_state = Ok (rs, t) s' ∧ teb s' = teb colours_state ∧
    (∀ i j ri rj li lj, rs !! i = Some ri → rs !! j = Some rj →
      [[82; 101; 100]; [98; 108; 117; 101]; [82; 69; 68]; [114; 101; 100]] !! i = Some li →
      [[82; 101; 100]; [98; 108; 117; 101]; [82; 69; 68]; [114; 101; 100]] !! j = Some lj →
      ri = rj ↔ same_name li lj) ∧
    Forall2 (λ l r, ∃ k, named (mem s') r k ∧ same_name k l)
      [[82; 101; 100]; [98; 108; 117; 101]; [82; 69; 68]; [114; 101; 100]] rs ∧
    (∀ i x l, [As_symbol 65536; As_symbol 65568; As_symbol 65600; Resolve 65664] !! i = Some (Resolve x) →
      [[82; 101; 100]; [98; 108; 117; 101]; [82; 69; 68]; [114; 101; 100]] !! i = Some l →
      (∀ j k, (j < i)%nat →
        [[82; 101; 100]; [98; 108; 117; 101]; [82; 69; 68]; [114; 101; 100]] !! j = Some k →
        ¬ same_name k l) → rs !! i = Some x) ∧
    ∃ v s'', primitive_preboot_symbols t s' = Ok v s'' ∧
      is_vec (mem s'') v (fold_left register rs []).
Proof.
  apply (symbols_are_interned _ _ colours_state).
  - apply wf_example. vm_compute. reflexivity.
  - repeat apply Forall2_cons_2; [..|apply Forall2_nil_2].
    + apply byte_stringb_true. vm_compute. reflexivity.
    + apply byte_stringb_true. vm_compute. reflexivity.
    + apply byte_stringb_true. vm_compute. reflexivity.
    + split; [done|]. exists 65632. split; [vm_compute; reflexivity|].
      apply byte_stringb_true. vm_compute. reflexivity.
  - simpl. lia.
Defined.

(** Running it: the new symbols lie after the table's block. *)
Definition results (r : res (list Z * oblist_state)) : option (list Z) :=
  match r with Ok a _ => Some a.1 | _ => None end.

Example colours_run :
  results (symbol_calls [As_symbol 65536; As_symbol 65568; As_symbol 65600; Resolve 65664]
    initial_oblist colours_state) = Some [1049088; 1049104; 1049088; 1049088].
Proof. vm_compute. reflexivity. Qed.

(** "a", a null byte and "b", and the same with "c", are one symbol: the comparison
    ends at the null byte. *)
Example null_byte_ends_name :
  results (symbol_calls [As_symbol 65536; As_symbol 65568] initial_oblist
    (example_state [(65536, [KLbyte_stringGVKdW; I 3; 6422625]);
                    (65568, [KLbyte_stringGVKdW; I 3; 6488161])])) = Some [1049088; 1049088].
Proof. vm_compute. reflexivity. Qed.
