(* ===== verification/Concur.v ===== *)
(** * Concurrent run-time code

    The code of [posix-threads.c] as programs of atomic actions on a shared
    memory, run by threads that interleave.  A program is a shallow term: C
    variables are variables of Rocq, a C expression that reads or writes shared
    memory is one action per access, and a loop whose condition depends on what
    it read is a [While].  Memory is sequentially consistent and word addressed,
    as in [Memory]; a [pthread_mutex_t] is one word, 0 when it is free, and
    waiting for it is polling it. *)

From S2P Require Import Prelude.
From stdpp Require Import base tactics option list numbers gmap.
From iris.program_logic Require Import language.

Local Open Scope Z_scope.

(** ** Actions *)

Inductive action :=
| Load (a : Z)
| Store (a v : Z)
| Fetch_and_add (a n : Z)              (* the new value *)
| Fetch_and_add32 (a n : Z)            (* the same for an [int] *)
| Compare_and_swap (a exchange compare : Z)    (* the old value *)
| Try_lock (a : Z)                     (* 1 when the mutex was taken *)
| Unlock (a : Z)
| Allocate (l : list Z)                (* fresh words with contents [l] *)
| Deallocate (a n : Z).

(** [brk] is the next fresh address, [mem] what is allocated. *)
Record cstate := mkC { cmem : gmap Z Z; cbrk : Z }.

Definition cwrite (a v : Z) (s : cstate) : cstate := mkC (<[a := v]> (cmem s)) (cbrk s).

Fixpoint words_map (a : Z) (l : list Z) : gmap Z Z :=
  match l with
  | [] => ∅
  | v :: l => <[a := v]> (words_map (a + 8) l)
  end.

Fixpoint unmap (m : gmap Z Z) (a : Z) (n : nat) : option (gmap Z Z) :=
  match n with
  | O => Some m
  | S n => match m !! a with Some _ => unmap (delete a m) (a + 8) n | None => None end
  end.

(** What an action returns; touching memory that is not allocated, or unlocking
    a free mutex, is undefined. *)
Definition act (x : action) (s : cstate) : option (Z * cstate) :=
  match x with
  | Load a => v ← cmem s !! a; Some (v, s)
  | Store a v => _ ← cmem s !! a; Some (v, cwrite a v s)
  | Fetch_and_add a n => v ← cmem s !! a; Some (v + n, cwrite a (v + n) s)
  | Fetch_and_add32 a n => v ← cmem s !! a; Some (s32 (v + n), cwrite a (s32 (v + n)) s)
  | Compare_and_swap a exchange compare =>
      v ← cmem s !! a; Some (v, if v =? compare then cwrite a exchange s else s)
  | Try_lock a =>
      v ← cmem s !! a; if v =? 0 then Some (1, cwrite a 1 s) else Some (0, s)
  | Unlock a => v ← cmem s !! a; if v =? 1 then Some (0, cwrite a 0 s) else None
  | Allocate l => Some (cbrk s, mkC (words_map (cbrk s) l ∪ cmem s) (cbrk s + 8 * length l))
  | Deallocate a n => m ← unmap (cmem s) a (Z.to_nat n); Some (0, mkC m (cbrk s))
  end.

(** ** Programs *)

Inductive prog :=
| Ret (v : Z)
| Act (x : action)
| Bind (p : prog) (f : Z → prog)
| While (c : Z → bool) (x : Z) (body : Z → prog)
| Fork (p : prog).

Declare Scope prog_scope.
Delimit Scope prog_scope with prog.
Notation "x '<~' p ;; q" := (Bind p (λ x, q))
  (at level 100, p at next level, q at level 200, right associativity) : prog_scope.
Notation "p ;;; q" := (Bind p (λ _, q))
  (at level 100, q at level 200, right associativity) : prog_scope.
Open Scope prog_scope.

(** [if (b) p] *)
Definition If (b : bool) (p : prog) : prog := if b then p else Ret 0.

(** [do { r = p } while (c(r))] *)
Definition Do (p : prog) (c : Z → bool) : prog := r <~ p;; While c r (λ _, p).

(** [pthread_mutex_lock] and [pthread_mutex_unlock] *)
Definition pthread_mutex_lock (a : Z) : prog :=
  While (λ r, r =? 0) 0 (λ _, Act (Try_lock a));;; Ret 0.

Definition pthread_mutex_unlock (a : Z) : prog := Act (Unlock a).

(** The process ends, for the thread that called it. *)
Definition halt : prog := While (λ _, true) 0 Ret.

(** A thread takes one step: an action, a jump, or starting another thread. *)
Inductive prog_step : prog → cstate → list unit → prog → cstate → list prog → Prop :=
| step_act x s v s' : act x s = Some (v, s') → prog_step (Act x) s [] (Ret v) s' []
| step_bind p f s p' s' ps :
    prog_step p s [] p' s' ps → prog_step (Bind p f) s [] (Bind p' f) s' ps
| step_ret v f s : prog_step (Bind (Ret v) f) s [] (f v) s []
| step_while c x body s :
    prog_step (While c x body) s []
      (if c x then Bind (body x) (λ x, While c x body) else Ret x) s []
| step_fork p s : prog_step (Fork p) s [] (Ret 0) s [p].

(** ** Running a schedule

    [next p s]: the step of a thread. *)
Fixpoint next (p : prog) (s : cstate) : option (prog * cstate * list prog) :=
  match p with
  | Ret _ => None
  | Act x => r ← act x s; Some (Ret r.1, r.2, [])
  | Bind (Ret v) f => Some (f v, s, [])
  | Bind p f => r ← next p s; Some (Bind r.1.1 f, r.1.2, r.2)
  | While c x body => Some (if c x then Bind (body x) (λ x, While c x body) else Ret x, s, [])
  | Fork p => Some (Ret 0, s, [p])
  end.

(** One step of thread [i] of a pool. *)
Definition pool_step (i : nat) (ps : list prog * cstate) : option (list prog * cstate) :=
  p ← ps.1 !! i; r ← next p ps.2;
  Some (<[i := r.1.1]> ps.1 ++ r.2, r.1.2).

(** The threads named by a schedule step in turn. *)
Fixpoint run_schedule (l : list nat) (ps : list prog * cstate) : option (list prog * cstate) :=
  match l with
  | [] => Some ps
  | i :: l => ps ← pool_step i ps; run_schedule l ps
  end.

(** A thread by itself, to its end. *)
Fixpoint run_alone (n : nat) (p : prog) (s : cstate) : option (Z * cstate) :=
  match p with
  | Ret v => Some (v, s)
  | _ => match n with O => None | S n => r ← next p s; run_alone n r.1.1 r.1.2 end
  end.

Lemma next_step p s p' s' ps : next p s = Some (p', s', ps) → prog_step p s [] p' s' ps.
Proof.
  revert p' s' ps. induction p as [v|x|p IH f _|c x body _|p IH]; intros p' s' ps H; simpl in H.
  - done.
  - destruct (act x s) as [[v s1]|] eqn:E; [|done]. injection H as <- <- <-. by constructor.
  - destruct p; try (destruct (next _ s) as [[[q s1] qs]|] eqn:E; [|done];
      injection H as <- <- <-; constructor; by apply IH).
    injection H as <- <- <-. constructor.
  - injection H as <- <- <-. constructor.
  - injection H as <- <- <-. constructor.
Qed.

Lemma step_next p s k p' s' ps : prog_step p s k p' s' ps → next p s = Some (p', s', ps).
Proof.
  induction 1 as [x s v s' E|p f s p' s' ps H IH|v f s|c x body s|p s]; simpl.
  - by rw E.
  - rw IH. destruct p; [inversion H|done..].
  - done.
  - done.
  - done.
Qed.

(** What can be seen of a run. *)
Lemma observe_schedule {A} (f : list prog * cstate → A) l p a :
  f <$> run_schedule l p = Some a → ∃ ps s, run_schedule l p = Some (ps, s) ∧ f (ps, s) = a.
Proof. intros ([ps s] & E & ->)%fmap_Some. eauto. Qed.

(** ** The language of threads *)

Definition prog_to_val (p : prog) : option Z := match p with Ret v => Some v | _ => None end.

Lemma prog_mixin : LanguageMixin Ret prog_to_val prog_step.
Proof.
  split; [done| |].
  - intros p v H. destruct p; simpl in H; congruence.
  - intros p s k p' s' ps H. by destruct H.
Qed.

Canonical Structure threads : language := Language prog_mixin.

#[export] Instance cstate_inhabited : Inhabited cstate := populate (mkC ∅ 0).

#[export] Instance bind_ctx f : LanguageCtx (λ p : expr threads, Bind p f : expr threads).
Proof.
  split.
  - done.
  - intros p s k p' s' ps H. simpl in *. assert (k = []) as -> by by destruct H. by constructor.
  - intros p s k p' s' ps Hp H. simpl in *. inversion H; subst; [eauto|done].
Qed.

(** A schedule is a run of the language. *)
Lemma run_schedule_steps l ps s ps' s' :
  run_schedule l (ps, s) = Some (ps', s') →
  rtc (erased_step (Λ := threads)) (ps : list (expr threads), s) (ps', s').
Proof.
  revert ps s. induction l as [|i l IH]; intros ps s H; simpl in H.
  - injection H as <- <-. done.
  - destruct (pool_step i (ps, s)) as [[ps1 s1]|] eqn:E; [|done]. unfold pool_step in E; simpl in E.
    destruct (ps !! i) as [p|] eqn:Hi; [|done]. simpl in E.
    destruct (next p s) as [[[p1 s2] fs]|] eqn:Hp; [|done]. injection E as <- ->.
    eapply rtc_l; [|apply IH, H]. apply next_step in Hp.
    exists []. eapply (step_atomic (Λ := threads) p s p1 s1 fs (take i ps) (drop (S i) ps)); [| |exact Hp].
    + f_equal. symmetry. by apply take_drop_middle.
    + simpl. f_equal. rw insert_take_drop; [|by eapply lookup_lt_Some]. by rw -app_assoc.
Qed.

(** A thread that is neither finished nor able to go on. *)
Definition is_stuck (p : prog) (s : cstate) : bool :=
  match prog_to_val p, next p s with None, None => true | _, _ => false end.

Lemma not_stuck_next (p : prog) (s : cstate) :
  language.not_stuck (Λ := threads) p s → is_stuck p s = false.
Proof.
  intros [[v Hv]|(k & p' & s' & ps & H)]; unfold is_stuck.
  - simpl in Hv. by rw Hv.
  - simpl in H. apply step_next in H. rw H. by destruct (prog_to_val p).
Qed.
