(* ===== verification/ConcurLogic.v ===== *)
(** * A program logic for concurrent run-time code

    Iris's weakest precondition for the programs of [Concur.v], with ownership of
    memory words ([a ↦ v]) and of blocks of them, and the specification of
    mutexes. *)

From S2P Require Import Prelude Concur.
From stdpp Require Import base tactics option list numbers gmap.
From iris.proofmode Require Import proofmode.
From iris.base_logic.lib Require Import invariants token ghost_map.
From iris.program_logic Require Import weakestpre lifting adequacy.

Local Open Scope Z_scope.

#[global] Arguments expr : simpl never.
#[global] Arguments val : simpl never.

Class concurGS (Σ : gFunctors) := ConcurGS {
  concur_invGS : invGS Σ;
  #[global] concur_heapG :: ghost_mapG Σ Z Z;
  concur_heap : gname;
  #[global] concur_tokenG :: tokenG Σ
}.

(** Every address from [cbrk] on is free, and [NULL] lies below. *)
Definition cfresh (s : cstate) : Prop := 0 < cbrk s ∧ ∀ a, cbrk s <= a → cmem s !! a = None.

#[export] Instance concur_irisGS `{!concurGS Σ} : irisGS threads Σ := {
  iris_invGS := concur_invGS;
  state_interp s _ _ _ := (ghost_map_auth concur_heap 1 (cmem s) ∗ ⌜cfresh s⌝)%I;
  fork_post _ := True%I;
  num_laters_per_step _ := 0%nat;
  state_interp_mono _ _ _ _ := fupd_intro _ _
}.

(** The word [v] at [a], or a share of it. *)
Abbreviation pointsto a dq v := (ghost_map_elem (K := Z) (V := Z) concur_heap a dq v).
Notation "a ↦ v" := (pointsto a (DfracOwn 1) v) (at level 20, format "a  ↦  v") : bi_scope.
Notation "a ↦{ q } v" := (pointsto a (DfracOwn q) v)
  (at level 20, q at level 50, format "a  ↦{ q }  v") : bi_scope.

Section logic.
Context `{!concurGS Σ}.
Implicit Types (p : prog) (Φ : val threads → iProp Σ).

Lemma prog_step_act_inv x s k p' s' ps :
  prog_step (Act x) s k p' s' ps → ∃ v, act x s = Some (v, s') ∧ p' = Ret v ∧ k = [] ∧ ps = [].
Proof. inversion 1; subst; eauto. Qed.

(** An action that is defined, with the update of the memory it makes. *)
Lemma wp_act x E Φ :
  (∀ s, (ghost_map_auth concur_heap 1 (cmem s) ∗ ⌜cfresh s⌝) ={E}=∗
    ∃ v s', ⌜act x s = Some (v, s')⌝ ∗
      ▷ (|={E}=> ghost_map_auth concur_heap 1 (cmem s') ∗ ⌜cfresh s'⌝ ∗ Φ v)) -∗
  WP (Act x : expr threads) @ E {{ Φ }}.
Proof.
  iIntros "H". iApply wp_lift_atomic_step; [done|]. iIntros (s ns k ks nt) "Hs".
  iMod ("H" with "Hs") as (v s' Ha) "H". iModIntro. iSplit.
  - iPureIntro. exists [], (Ret v), s', []. by constructor.
  - iNext. iIntros (p' s2 ps Hstep) "_".
    apply prog_step_act_inv in Hstep as (v' & Ha' & -> & _ & ->).
    rw Ha in Ha'. injection Ha' as <- <-. iMod "H" as "($ & $ & $)". iModIntro. simpl. done.
Qed.

#[global] Instance act_atomic s x : Atomic s (Act x : expr threads).
Proof.
  intros s1 p' k s2 ps H. apply prog_step_act_inv in H as (v & _ & -> & _).
  destruct s; [by eauto|]. intros ? ? ? ? H. inversion H.
Qed.

Lemma wp_ret v E Φ : Φ v -∗ WP (Ret v : expr threads) @ E {{ Φ }}.
Proof. iIntros "H". iApply (wp_value' (Λ := threads)). done. Qed.

Lemma wp_load a dq v E Φ :
  ▷ pointsto a dq v -∗ ▷ (pointsto a dq v -∗ Φ v) -∗ WP (Act (Load a) : expr threads) @ E {{ Φ }}.
Proof.
  iIntros ">Ha HΦ". iApply wp_act. iIntros (s) "[Hs %]".
  iDestruct (ghost_map_lookup with "Hs Ha") as %E1. iModIntro. iExists v, s.
  iSplit; [by rw /= E1|]. iIntros "!> !>". iFrame "Hs". iSplit; [done|]. by iApply "HΦ".
Qed.

Lemma cfresh_write a v w s : cmem s !! a = Some w → cfresh s → cfresh (cwrite a v s).
Proof.
  intros E [H0 H]. split; [done|]. intros b Hb. simpl in *.
  rw lookup_insert_ne; [by apply H|]. intros ->. specialize (H b Hb). congruence.
Qed.

(** The actions that replace the word [v] at [a] by [w]. *)
Lemma wp_replace x a r v w E Φ :
  (∀ s, cmem s !! a = Some v → act x s = Some (r, cwrite a w s)) →
  ▷ a ↦ v -∗ ▷ (a ↦ w -∗ Φ r) -∗ WP (Act x : expr threads) @ E {{ Φ }}.
Proof.
  iIntros (Hx) ">Ha HΦ". iApply wp_act. iIntros (s) "[Hs %]".
  iDestruct (ghost_map_lookup with "Hs Ha") as %E1. iModIntro. iExists r, (cwrite a w s).
  iSplit; [by rw (Hx s E1)|]. iIntros "!>".
  iMod (ghost_map_update w with "Hs Ha") as "[$ Ha]". iModIntro.
  iSplit; [iPureIntro; by eapply cfresh_write|]. by iApply "HΦ".
Qed.

Lemma wp_store a v w E Φ :
  ▷ a ↦ v -∗ ▷ (a ↦ w -∗ Φ w) -∗ WP (Act (Store a w) : expr threads) @ E {{ Φ }}.
Proof. apply wp_replace. intros s Hs. by rw /= Hs. Qed.

Lemma wp_fetch_and_add a n v E Φ :
  ▷ a ↦ v -∗ ▷ (a ↦ (v + n) -∗ Φ (v + n)) -∗
  WP (Act (Fetch_and_add a n) : expr threads) @ E {{ Φ }}.
Proof. apply wp_replace. intros s Hs. by rw /= Hs. Qed.

Lemma wp_fetch_and_add32 a n v E Φ :
  ▷ a ↦ v -∗ ▷ (a ↦ s32 (v + n) -∗ Φ (s32 (v + n))) -∗
  WP (Act (Fetch_and_add32 a n) : expr threads) @ E {{ Φ }}.
Proof. apply wp_replace. intros s Hs. by rw /= Hs. Qed.

Lemma wp_compare_and_swap a new old v E Φ :
  ▷ a ↦ v -∗ ▷ (a ↦ (if v =? old then new else v) -∗ Φ v) -∗
  WP (Act (Compare_and_swap a new old) : expr threads) @ E {{ Φ }}.
Proof.
  destruct (Z.eqb_spec v old) as [->|N].
  - apply wp_replace. intros s Hs. by rw /= Hs /= Z.eqb_refl.
  - iIntros ">Ha HΦ". iApply wp_act. iIntros (s) "[Hs %]".
    iDestruct (ghost_map_lookup with "Hs Ha") as %E1. iModIntro. iExists v, s.
    iSplit; [rw /= E1 /=; by rw (proj2 (Z.eqb_neq v old)) |].
    iIntros "!> !>". iFrame "Hs". iSplit; [done|]. by iApply "HΦ".
Qed.

Lemma wp_try_lock a v E Φ :
  ▷ a ↦ v -∗ ▷ (a ↦ (if v =? 0 then 1 else v) -∗ Φ (if v =? 0 then 1 else 0)) -∗
  WP (Act (Try_lock a) : expr threads) @ E {{ Φ }}.
Proof.
  destruct (Z.eqb_spec v 0) as [->|N].
  - apply wp_replace. intros s Hs. by rw /= Hs.
  - iIntros ">Ha HΦ". iApply wp_act. iIntros (s) "[Hs %]".
    iDestruct (ghost_map_lookup with "Hs Ha") as %E1. iModIntro. iExists 0, s.
    iSplit; [rw /= E1 /=; by rw (proj2 (Z.eqb_neq v 0)) |].
    iIntros "!> !>". iFrame "Hs". iSplit; [done|]. by iApply "HΦ".
Qed.

Lemma wp_unlock a E Φ :
  ▷ a ↦ 1 -∗ ▷ (a ↦ 0 -∗ Φ 0) -∗ WP (Act (Unlock a) : expr threads) @ E {{ Φ }}.
Proof. apply wp_replace. intros s Hs. by rw /= Hs. Qed.

(** *** Control *)

Lemma wp_seq p (f : Z → prog) E Φ :
  WP (p : expr threads) @ E {{ v, ▷ WP (f v : expr threads) @ E {{ Φ }} }} -∗
  WP (Bind p f : expr threads) @ E {{ Φ }}.
Proof.
  iIntros "H". pose proof (bind_ctx f) as Hctx. iApply (wp_bind (Λ := threads) (λ p, Bind p f)).
  iApply (wp_wand with "H"). iIntros (v) "H".
  iApply (wp_lift_pure_det_step_no_fork (Bind (Ret v) f : expr threads) (f v : expr threads)).
  - intros s. exists [], (f v), s, []. constructor.
  - intros s k p' s2 ps Hs. inversion Hs as [| ? ? ? ? ? ? Hr | | | ]; subst; [inversion Hr|done].
  - iIntros "!> !> !> _". done.
Qed.

Lemma wp_while (c : Z → bool) x (body : Z → prog) E Φ :
  ▷ WP ((if c x then Bind (body x) (λ y, While c y body) else Ret x) : expr threads)
    @ E {{ Φ }} -∗
  WP (While c x body : expr threads) @ E {{ Φ }}.
Proof.
  iIntros "H". iApply (wp_lift_pure_det_step_no_fork (While c x body : expr threads)
    ((if c x then Bind (body x) (λ y, While c y body) else Ret x) : expr threads)).
  - intros s. eexists [], _, s, []. constructor.
  - intros s k p' s2 ps Hs. by inversion Hs; subst.
  - iIntros "!> !> !> _". done.
Qed.

(** A loop with an invariant. *)
Lemma wp_while_inv (J : val threads → iProp Σ) (c : Z → bool) x (body : Z → prog) Φ :
  J x -∗
  □ (∀ y, ⌜c y = true⌝ -∗ J y -∗ WP (body y : expr threads) {{ J }}) -∗
  (∀ y, ⌜c y = false⌝ -∗ J y -∗ Φ y) -∗
  WP (While c x body : expr threads) {{ Φ }}.
Proof.
  iIntros "HJ #Hbody HΦ". iLöb as "IH" forall (x). iApply wp_while. iNext.
  destruct (c x) eqn:E.
  - iApply wp_seq. iApply (wp_wand with "[HJ]"); [by iApply "Hbody"|].
    iIntros (y) "HJ !>". by iApply ("IH" with "HJ").
  - iApply wp_ret. by iApply "HΦ".
Qed.

(** An attempt, repeated while other threads are faster. *)
Lemma wp_attempts (p : prog) (J : Z → iProp Σ) Φ :
  J 2 -∗ □ (J 2 -∗ WP (p : expr threads) {{ r, J r }}) -∗ (∀ r, ⌜r ≠ 2⌝ -∗ J r -∗ Φ r) -∗
  WP (Do p (λ r, r =? 2) : expr threads) {{ Φ }}.
Proof.
  iIntros "HJ #Hp HΦ". unfold Do. iApply wp_seq. iApply (wp_wand with "[HJ]"); [by iApply "Hp"|].
  iIntros (r) "HJ !>". iApply (wp_while_inv J with "HJ").
  - iIntros "!>" (y Hy) "HJ". apply Z.eqb_eq in Hy as ->. by iApply "Hp".
  - iIntros (y Hy) "HJ". iApply ("HΦ" with "[%] HJ"). by apply Z.eqb_neq.
Qed.

Lemma wp_halt Φ : ⊢ WP (halt : expr threads) {{ Φ }}.
Proof.
  iApply (wp_while_inv (λ _, True)%I); [done| |by iIntros (y Hy)].
  iIntros "!>" (y Hy) "_". by iApply wp_ret.
Qed.

Lemma wp_fork p E Φ :
  ▷ WP (p : expr threads) {{ _, True }} -∗ ▷ Φ 0 -∗ WP (Fork p : expr threads) @ E {{ Φ }}.
Proof.
  iIntros "Hp HΦ". iApply wp_lift_atomic_step; [done|]. iIntros (s ns k ks nt) "Hs".
  iModIntro. iSplit.
  - iPureIntro. exists [], (Ret 0), s, [p]. constructor.
  - iNext. iIntros (p' s2 ps Hstep) "_". inversion Hstep; subst. iModIntro. by iFrame.
Qed.

(** *** Blocks *)

Definition words (a : Z) (q : Qp) (l : list Z) : iProp Σ :=
  [∗ list] i ↦ v ∈ l, (a + 8 * Z.of_nat i) ↦{q} v.

Lemma words_cons (a : Z) q v l : words a q (v :: l) ⊣⊢ a ↦{q} v ∗ words (a + 8) q l.
Proof.
  unfold words. rw big_sepL_cons. apply bi.sep_proper.
  - by rw Z.add_0_r.
  - apply big_sepL_proper. intros i w _. by replace (a + 8 * S i) with (a + 8 + 8 * i) by lia.
Qed.

Lemma words_app (a : Z) q l1 l2 :
  words a q (l1 ++ l2) ⊣⊢ words a q l1 ∗ words (a + 8 * Z.of_nat (length l1)) q l2.
Proof.
  unfold words. rw big_sepL_app. apply bi.sep_proper; [done|].
  apply big_sepL_proper. intros i w _.
  by replace (a + 8 * (length l1 + i)%nat) with (a + 8 * length l1 + 8 * i) by lia.
Qed.

Lemma words_acc (a : Z) q l (i : nat) v :
  l !! i = Some v →
  words a q l -∗ (a + 8 * i) ↦{q} v ∗
    (∀ w, (a + 8 * i) ↦{q} w -∗ words a q (<[i := w]> l)).
Proof.
  intros Hi. iIntros "H". by iApply (big_sepL_insert_acc with "H").
Qed.

Lemma lookup_words_map (a : Z) (l : list Z) b :
  is_Some (words_map a l !! b) → a <= b < a + 8 * length l.
Proof.
  revert a. induction l as [|v l IH]; intros a H; simpl in *; [by destruct H|].
  destruct (decide (a = b)) as [->|N]; [lia|]. rw lookup_insert_ne // in H.
  specialize (IH _ H). lia.
Qed.

Lemma words_map_words (a : Z) l : ([∗ map] b ↦ v ∈ words_map a l, b ↦ v) ⊣⊢ words a 1 l.
Proof.
  revert a. induction l as [|v l IH]; intros a; simpl.
  - by rw big_sepM_empty.
  - rw words_cons -IH big_sepM_insert //. apply eq_None_not_Some. intros [w Hw].
    pose proof (lookup_words_map (a + 8) l a (mk_is_Some _ _ Hw)). lia.
Qed.

Lemma wp_allocate l E Φ :
  ▷ (∀ a, ⌜0 < a⌝ -∗ words a 1 l -∗ Φ a) -∗ WP (Act (Allocate l) : expr threads) @ E {{ Φ }}.
Proof.
  iIntros "HΦ". iApply wp_act. iIntros (s) "[Hs [%H0 %Hf]]". iModIntro. iExists _, _.
  iSplit; [done|]. iNext.
  assert (words_map (cbrk s) l ##ₘ cmem s) as D.
  { apply map_disjoint_spec. intros b v w Hb Hw.
    pose proof (lookup_words_map _ _ b (mk_is_Some _ _ Hb)). rw Hf in Hw; [done|lia]. }
  iMod (ghost_map_insert_big with "Hs") as "[$ Hl]"; [done|]. iModIntro. iSplit.
  - iPureIntro. split; [simpl; lia|]. intros b Hb. simpl in *. apply lookup_union_None. split; [|apply Hf; lia].
    destruct (words_map (cbrk s) l !! b) eqn:E1; [|done].
    pose proof (lookup_words_map _ _ b (mk_is_Some _ _ E1)). lia.
  - iApply "HΦ"; [done|]. by rw words_map_words.
Qed.

Lemma unmap_words (a : Z) l m :
  ghost_map_auth concur_heap 1 m -∗ words a 1 l ==∗
  ∃ m', ⌜unmap m a (length l) = Some m' ∧ m' ⊆ m⌝ ∗ ghost_map_auth concur_heap 1 m'.
Proof.
  revert a m. induction l as [|v l IH]; intros a m; iIntros "Hm Hl".
  - iModIntro. iExists m. by iFrame.
  - rw words_cons. iDestruct "Hl" as "[Ha Hl]".
    iDestruct (ghost_map_lookup with "Hm Ha") as %E.
    iMod (ghost_map_delete with "Hm Ha") as "Hm".
    iMod (IH with "Hm Hl") as (m') "[[%Hm' %Hsub] $]". iPureIntro. simpl. rw E. split; [done|].
    etrans; [exact Hsub|]. apply delete_subseteq.
Qed.

Lemma wp_deallocate a n l E Φ :
  n = Z.of_nat (length l) →
  ▷ words a 1 l -∗ ▷ Φ 0 -∗ WP (Act (Deallocate a n) : expr threads) @ E {{ Φ }}.
Proof.
  iIntros (->) ">Hl HΦ". iApply wp_act. iIntros (s) "[Hs [%H0 %Hf]]".
  iMod (unmap_words with "Hs Hl") as (m') "[[%Hm %Hsub] Hs]". iModIntro.
  iExists 0, (mkC m' (cbrk s)). iSplit; [by rw /= Nat2Z.id Hm|]. iIntros "!> !>". iFrame "Hs HΦ".
  iPureIntro. split; [done|]. intros b Hb. simpl in *. specialize (Hf b Hb).
  apply eq_None_not_Some. intros [v Hv]. by rw (lookup_weaken _ _ _ _ Hv Hsub) in Hf.
Qed.

(** *** Mutexes *)

Definition mutexN : namespace := nroot .@ "mutex".

Definition mutex_inv (g : gname) (a : Z) (R : iProp Σ) : iProp Σ :=
  a ↦ 0 ∗ token g ∗ R ∨ a ↦ 1.

Definition is_mutex (g : gname) (a : Z) (R : iProp Σ) : iProp Σ :=
  inv mutexN (mutex_inv g a R).

Lemma mutex_alloc a R E : a ↦ 0 -∗ R ={E}=∗ ∃ g, is_mutex g a R.
Proof.
  iIntros "Ha HR". iMod token_alloc as (g) "Hg". iExists g.
  iApply (inv_alloc mutexN E (mutex_inv g a R)). iNext. iLeft. iFrame.
Qed.

Lemma wp_mutex_lock g a R Φ :
  is_mutex g a R -∗ (token g -∗ R -∗ Φ 0) -∗ WP (pthread_mutex_lock a : expr threads) {{ Φ }}.
Proof.
  iIntros "#Hm HΦ". unfold pthread_mutex_lock. iApply wp_seq.
  iApply (wp_while_inv (λ r : val threads, ⌜r = 0⌝ ∨ ⌜r = 1⌝ ∗ token g ∗ R)%I); [by iLeft| |].
  - iIntros "!>" (r Hr) "_". unfold is_mutex. cbv beta. iInv mutexN as "[(Ha & Hg & HR)|Ha]".
    + iApply (wp_try_lock with "Ha"). iIntros "!> Ha !>". iSplitL "Ha"; [by iRight|].
      iRight. by iFrame.
    + iApply (wp_try_lock with "Ha"). iIntros "!> Ha !>". iSplitL "Ha"; [by iRight|]. by iLeft.
  - iIntros (r Hr) "[->|(-> & Hg & HR)]"; [done|]. iNext. iApply wp_ret.
    by iApply ("HΦ" with "Hg").
Qed.

Lemma wp_mutex_unlock g a R Φ :
  is_mutex g a R -∗ token g -∗ R -∗ Φ 0 -∗
  WP (pthread_mutex_unlock a : expr threads) {{ Φ }}.
Proof.
  iIntros "#Hm Hg HR HΦ". unfold is_mutex, pthread_mutex_unlock. iInv mutexN as "[(Ha & >Hg' & _)|Ha]".
  - by iDestruct (token_exclusive with "Hg Hg'") as %[].
  - iApply (wp_unlock with "Ha"). iIntros "!> Ha !>". iFrame "HΦ". iNext. iLeft. iFrame.
Qed.
End logic.

(** A schedule of a program that is adequate. *)
Lemma adequate_schedule (p : prog) s0 (φ : Z → Prop) l ps s :
  adequate NotStuck (p : expr threads) s0 (λ v _, φ v) →
  run_schedule l ([p], s0) = Some (ps, s) →
  (∀ v, ps !! 0%nat = Some (Ret v) → φ v) ∧ Forall (λ p, is_stuck p s = false) ps.
Proof.
  intros [Hv Hs] Hl%run_schedule_steps. split.
  - intros v Hp. destruct ps as [|q ps]; [done|]. injection Hp as ->. by eapply (Hv ps s v).
  - apply Forall_forall. intros q Hq. apply not_stuck_next. by eapply Hs.
Qed.
