(* ===== verification/Tlv.v ===== *)
(** * Thread variables

    Thread-local variables of [posix-threads.c]: every thread has a vector of
    values, indexed by the handle of the variable; a default vector holds the
    initial values for new threads.  Allocating a variable may replace all the
    vectors by larger ones while the threads run, and a counter of writers keeps
    that from losing a write.  The globals of the file are words at the
    addresses below; of the thread environment block only the fields of the
    thread primitives are there. *)

From S2P Require Import Prelude Memory Tagging Concur.
From stdpp Require Import base tactics option list numbers gmap.
From Stdlib Require Import ZArith Lia.

Local Open Scope Z_scope.
Local Open Scope prog_scope.

(** ** Globals and layouts *)

Definition tlv_writer_counter : Z := 960.
Definition tlv_vector_list_lock : Z := 968.
Definition default_tlv_vector : Z := 976.
Definition tlv_vector_list : Z := 984.
Definition TLV_vector_offset : Z := 992.
Definition thread_join_lock : Z := 1000.

Definition TLV_GROW : Z := -2000000.
Definition TLV_VECTOR_INITIAL_SIZE : Z := 20.

(** [teb->tlv_vector], [teb->thread] and [teb->thread_handle] *)
Definition teb_tlv_vector (teb : Z) : Z := idx teb 0.
Definition teb_thread (teb : Z) : Z := idx teb 1.
Definition teb_thread_handle (teb : Z) : Z := idx teb 2.

(** [DTHREAD] and [THREAD] *)
Definition thread_handle1 (thread : Z) : Z := idx thread 1.
Definition thread_handle2 (thread : Z) : Z := idx thread 2.
Definition thread_function_results (thread : Z) : Z := idx thread 6.
Definition thread_thread_id (thread : Z) : Z := idx thread 7.
Definition rthread_tid (rthread : Z) : Z := idx rthread 0.
Definition rthread_teb (rthread : Z) : Z := idx rthread 1.

Definition COMPLETED : Z := 1.
Definition MARKED : Z := 2.
Definition JOINED : Z := 4.

(** [struct tlv_vector_list_element] *)
Definition element_thread (e : Z) : Z := idx e 0.
Definition element_teb (e : Z) : Z := idx e 1.
Definition element_tlv_vector (e : Z) : Z := idx e 2.
Definition element_next (e : Z) : Z := idx e 3.

Definition atomic_increment (a : Z) : prog := Act (Fetch_and_add a 1).
Definition atomic_decrement (a : Z) : prog := Act (Fetch_and_add a (-1)).
Definition atomic_cas (a exchange compare : Z) : prog := Act (Compare_and_swap a exchange compare).

(** [Alloc.make_dylan_vector], whose result nobody else sees before it returns,
    as one action.  A size that cannot be served ends the process. *)
Definition make_dylan_vector (n : Z) : prog :=
  if n =? 0 then Ret Pempty_vectorVKi
  else if 288230376151711744 <=? n then halt
  else Act (Allocate (KLsimple_object_vectorGVKdW :: I n :: replicate (Z.to_nat n) KPunboundVKi)).

(** ** The vectors *)

Definition copy_tlv_vector (destination source : Z) : prog :=
  size <~ Act (Load (idx source 1));;
  let limit := Z.shiftr size 2 + 2 in
  While (λ i, i <? limit) 2 (λ i,
    v <~ Act (Load (idx source i));;
    Act (Store (idx destination i) v);;;
    Ret (i + 1)).

Definition grow_tlv_vector (vector newsize : Z) : prog :=
  new_vector <~ make_dylan_vector newsize;;
  copy_tlv_vector new_vector vector;;;
  Ret new_vector.

(** One element of the list, and the next one. *)
Definition grow_element (newsize list : Z) : prog :=
  v <~ Act (Load (element_tlv_vector list));;
  v <~ grow_tlv_vector v newsize;;
  Act (Store (element_tlv_vector list) v);;;
  teb <~ Act (Load (element_teb list));;
  v <~ Act (Load (element_tlv_vector list));;
  Act (Store (teb_tlv_vector teb) v);;;
  Act (Load (element_next list)).

Definition grow_all_tlv_vectors (newsize : Z) : prog :=
  Do (atomic_cas tlv_writer_counter TLV_GROW 0) (λ r, negb (r =? 0));;;
  new_default <~ make_dylan_vector newsize;;
  default <~ Act (Load default_tlv_vector);;
  copy_tlv_vector new_default default;;;
  Act (Store default_tlv_vector new_default);;;
  list <~ Act (Load tlv_vector_list);;
  While (λ list, negb (list =? NULL)) list (grow_element newsize);;;
  Do (atomic_cas tlv_writer_counter 0 TLV_GROW) (λ r, negb (r =? TLV_GROW)).

Definition update_tlv_vectors (offset value : Z) : prog :=
  list <~ Act (Load tlv_vector_list);;
  While (λ list, negb (list =? NULL)) list (λ list,
    v <~ Act (Load (element_tlv_vector list));;
    Act (Store (idx v offset) value);;;
    Act (Load (element_next list))).

(** ** The list of threads *)

Definition add_tlv_vector (thread teb tlv_vector : Z) : prog :=
  new_element <~ Act (Allocate [0; 0; 0; 0]);;
  Act (Store (element_thread new_element) thread);;;
  Act (Store (element_teb new_element) teb);;;
  Act (Store (element_tlv_vector new_element) tlv_vector);;;
  head <~ Act (Load tlv_vector_list);;
  Act (Store (element_next new_element) head);;;
  Act (Store tlv_vector_list new_element).

(** The scan of [remove_tlv_vector]: [last] is the element before [current];
    it answers 0 when it has cut out the thread's element, 1 at the end. *)
Fixpoint remove_scan (fuel : nat) (thread last current : Z) : prog :=
  if current =? NULL then Ret 1
  else
    match fuel with
    | O => Act (Load NULL)
    | S fuel =>
        t <~ Act (Load (element_thread current));;
        if t =? thread then
          next <~ Act (Load (element_next current));;
          Act (Store (element_next last) next);;;
          Act (Deallocate current 4);;;
          Ret 0
        else
          next <~ Act (Load (element_next current));;
          remove_scan fuel thread current next
    end.

(** It takes no lock. *)
Definition remove_tlv_vector (fuel : nat) (thread : Z) : prog :=
  list <~ Act (Load tlv_vector_list);;
  if list =? NULL then Ret 1
  else
    last <~ Act (Load tlv_vector_list);;
    list <~ Act (Load tlv_vector_list);;
    t <~ Act (Load (element_thread list));;
    list <~ Act (Load tlv_vector_list);;
    next <~ Act (Load (element_next list));;
    if t =? thread then
      Act (Store tlv_vector_list next);;;
      Act (Deallocate last 4);;;
      Ret 0
    else remove_scan fuel thread last next.

Definition setup_tlv_vector (thread teb : Z) : prog :=
  pthread_mutex_lock tlv_vector_list_lock;;;
  v <~ Act (Load (teb_tlv_vector teb));;
  (if v =? NULL then
    default <~ Act (Load default_tlv_vector);;
    size <~ Act (Load (idx default 1));;
    tlv_vector <~ make_dylan_vector (Z.shiftr size 2);;
    Act (Store (teb_tlv_vector teb) tlv_vector);;;
    default <~ Act (Load default_tlv_vector);;
    copy_tlv_vector tlv_vector default;;;
    add_tlv_vector thread teb tlv_vector
  else Ret 0);;;
  pthread_mutex_unlock tlv_vector_list_lock.

(** ** The primitives *)

Definition primitive_allocate_thread_variable (v : Z) : prog :=
  pthread_mutex_lock tlv_vector_list_lock;;;
  variable_offset <~ Act (Load TLV_vector_offset);;
  Act (Store TLV_vector_offset (variable_offset + 1));;;
  default <~ Act (Load default_tlv_vector);;
  size <~ Act (Load (idx default 1));;
  let size := Z.shiftr size 2 in
  If (size + 2 <=? variable_offset) (grow_all_tlv_vectors (size + size));;;
  default <~ Act (Load default_tlv_vector);;
  Act (Store (idx default variable_offset) v);;;
  update_tlv_vectors variable_offset v;;;
  pthread_mutex_unlock tlv_vector_list_lock;;;
  Ret variable_offset.

Definition primitive_read_thread_variable (teb h : Z) : prog :=
  tlv_vector <~ Act (Load (teb_tlv_vector teb));;
  Act (Load (idx tlv_vector h)).

Definition primitive_write_thread_variable_blocked : prog :=
  Do (c <~ atomic_decrement tlv_writer_counter;;
      If (c <? 0)
        (pthread_mutex_lock tlv_vector_list_lock;;; pthread_mutex_unlock tlv_vector_list_lock);;;
      atomic_increment tlv_writer_counter)
    (λ c, c <? 0).

Definition primitive_write_thread_variable (teb h nv : Z) : prog :=
  c <~ atomic_increment tlv_writer_counter;;
  If (c <? 0) primitive_write_thread_variable_blocked;;;
  tlv_vector <~ Act (Load (teb_tlv_vector teb));;
  Act (Store (idx tlv_vector h) nv);;;
  atomic_decrement tlv_writer_counter;;;
  Ret nv.

(** ** Threads *)

(** The fields the thread primitives use; the block is zeroed. *)
Definition make_teb : prog := Act (Allocate [0; 0; 0]).

Definition free_teb (teb : Z) : prog := Act (Deallocate teb 3).

Definition initialize_threads_primitives : prog :=
  default <~ make_dylan_vector TLV_VECTOR_INITIAL_SIZE;;
  Act (Store default_tlv_vector default);;;
  teb <~ make_teb;;
  setup_tlv_vector NULL teb;;;
  Ret teb.

(** The end of [trampoline]: the thread has completed.  Nobody waits for
    [thread_exit_event] without polling, so broadcasting it does nothing. *)
Definition complete_thread (thread : Z) : prog :=
  pthread_mutex_lock thread_join_lock;;;
  state <~ Act (Load (thread_handle1 thread));;
  Act (Store (thread_handle1 thread) (Z.lor state COMPLETED));;;
  pthread_mutex_unlock thread_join_lock.

(** What a thread runs; [f] is its Dylan function, and the list of threads has at
    most [fuel] elements after the first when it returns. *)
Definition trampoline (fuel : nat) (thread : Z) (f : Z → prog) : prog :=
  rthread <~ Act (Load (thread_handle2 thread));;
  teb <~ make_teb;;
  Act (Store (rthread_teb rthread) teb);;;
  setup_tlv_vector thread teb;;;
  result <~ f teb;;
  remove_tlv_vector fuel thread;;;
  complete_thread thread;;;
  free_teb teb;;;
  Ret result.

(** What the pthread library answers when a thread is made; 0 is success. *)
Record pthread_results := mkResults {
  pthread_attr_init : Z;
  pthread_attr_setdetachstate : Z;
  pthread_create : Z;
  pthread_attr_destroy : Z
}.

Definition OK : Z := I 0.
Definition CREATE_ERROR : Z := I 1.

(** The function is code, not a word of [rthread]. *)
Definition primitive_make_thread (r : pthread_results) (fuel : nat) (thread : Z) (f : Z → prog)
    : prog :=
  rthread <~ Act (Allocate [0; 0; 0]);;
  Act (Store (thread_handle1 thread) 0);;;
  Act (Store (thread_handle2 thread) rthread);;;
  if negb (pthread_attr_init r =? 0) then Ret CREATE_ERROR
  else if negb (pthread_attr_setdetachstate r =? 0) then Ret CREATE_ERROR
  else if negb (pthread_create r =? 0) then Ret CREATE_ERROR
  else
    Fork (trampoline fuel thread f);;;
    if negb (pthread_attr_destroy r =? 0) then Ret CREATE_ERROR
    else Ret OK.

(** Called in a new thread; [id] is the operating system's name of it. *)
Definition primitive_initialize_current_thread (id thread teb : Z) : prog :=
  Act (Store (thread_thread_id thread) (I id));;;
  rthread <~ Act (Load (thread_handle2 thread));;
  Act (Store (teb_thread teb) thread);;;
  tid <~ Act (Load (rthread_tid rthread));;
  Act (Store (teb_thread_handle teb) tid);;;
  setup_tlv_vector thread teb;;;
  Ret thread.

Definition primitive_initialize_special_thread (id thread teb : Z) : prog :=
  primitive_initialize_current_thread id thread teb.

Definition primitive_current_thread (teb : Z) : prog := Act (Load (teb_thread teb)).

(** The state the program starts in. *)
Definition initial_cstate : cstate :=
  mkC (<[tlv_writer_counter := 0]> (<[tlv_vector_list_lock := 0]> (<[default_tlv_vector := NULL]>
        (<[tlv_vector_list := NULL]> (<[TLV_vector_offset := 2]> {[thread_join_lock := 0]})))))
    1048576.
