(* ===== verification/TlvLaws.v ===== *)
(** * Thread variables behave as private memory

    However the threads interleave, and although allocating a variable may
    replace every thread's vector, a thread reads from a variable what it last
    wrote there, or the variable's default.  The proof is in Iris: an invariant
    owns the vectors, the lock of the list of threads owns the list and the cells
    of variables not allocated yet, and a count of writers decides who may write. *)

From S2P Require Import Prelude Memory Tagging Concur ConcurLogic Tlv.
From stdpp Require Import base tactics option list numbers gmap fin_maps.
From Stdlib Require Import ZArith Lia.
From iris.proofmode Require Import proofmode.
From iris.algebra Require Import auth numbers.
From iris.base_logic.lib Require Import invariants token ghost_map ghost_var own.
From iris.program_logic Require Import weakestpre adequacy.

Local Open Scope Z_scope.

(** ** What the proof keeps track of

    What a thread is doing: reading a cell of vector [p] that holds [v], waiting
    for a growth to end with the writer counter incremented, or writing, once it
    has loaded its vector. *)
Inductive mode :=
| Quiet
| Reading (p : Z) (i : nat) (v : Z)
| Waiting
| Writing (p : option Z).

Definition counted (m : mode) : bool :=
  match m with Waiting | Writing _ => true | _ => false end.

(** A thread: the variables it has written, by index, and its mode. *)
Abbreviation tstate := (gmap nat Z * mode)%type.

(** An element of the list of threads. *)
Record elt := mkElt { e_node : Z; e_thread : Z; e_teb : Z; e_vec : Z }.

Definition set_vec (x : elt) (p : Z) : elt := mkElt (e_node x) (e_thread x) (e_teb x) p.

Definition node_at (els : list elt) (i : nat) : Z := default NULL (e_node <$> els !! i).

(** The contents of a thread's vector: its writes, over the defaults [ds]. *)
Definition contents (w : gmap nat Z) (ds : list Z) : list Z :=
  imap (λ i d, default d (w !! i)) ds.

Lemma length_contents w ds : length (contents w ds) = length ds.
Proof. apply length_imap. Qed.

Lemma contents_lookup w ds i d :
  ds !! i = Some d → contents w ds !! i = Some (default d (w !! i)).
Proof. intros H. unfold contents. by rw list_lookup_imap H. Qed.

Lemma contents_write w ds i v :
  (i < length ds)%nat → <[i := v]> (contents w ds) = contents (<[i := v]> w) ds.
Proof.
  intros Hi. apply list_eq. intros j. unfold contents.
  destruct (decide (i = j)) as [<-|N].
  - rw list_lookup_insert_eq; [|by rw length_imap].
    destruct (lookup_lt_is_Some_2 ds i Hi) as [d Hd].
    by rw !list_lookup_imap Hd /= lookup_insert_eq.
  - rw list_lookup_insert_ne // !list_lookup_imap.
    by rw lookup_insert_ne.
Qed.

Lemma contents_snoc w ds d :
  (∀ i, (length ds ≤ i)%nat → w !! i = None) → contents w (ds ++ [d]) = contents w ds ++ [d].
Proof.
  intros H. unfold contents. rw imap_app. f_equal. simpl. rw Nat.add_0_r H //.
Qed.

(** The number of threads that have incremented the writer counter. *)
Definition writers (reg : gmap Z tstate) : Z := size (filter (λ x, counted x.2.2 = true) reg).

Lemma writers_delete reg t w m :
  reg !! t = Some (w, m) →
  writers reg = writers (delete t reg) + (if counted m then 1 else 0).
Proof.
  intros H. unfold writers. rw -{1}(insert_delete_id reg t (w, m) H).
  assert (filter (λ x, counted x.2.2 = true) (delete t reg) !! t = None) as Hf.
  { by rw map_lookup_filter lookup_delete_eq. }
  destruct (counted m) eqn:E.
  - rw map_filter_insert_True //. rw map_size_insert_None //. lia.
  - rw map_filter_insert_False; [|by rw /= E]. rw delete_id; [|apply lookup_delete_eq]. lia.
Qed.

Lemma writers_insert reg t w m w' m' :
  reg !! t = Some (w, m) →
  writers (<[t := (w', m')]> reg) =
    writers reg - (if counted m then 1 else 0) + (if counted m' then 1 else 0).
Proof.
  intros H. rw (writers_delete reg t w m H).
  rw (writers_delete (<[t := (w', m')]> reg) t w' m'); [|by rw lookup_insert_eq].
  rw delete_insert_eq. lia.
Qed.

Lemma writers_new reg t w m :
  reg !! t = None → counted m = false → writers (<[t := (w, m)]> reg) = writers reg.
Proof.
  intros H Hm. unfold writers. rw map_filter_insert_False.
  - by rw delete_id.
  - simpl. congruence.
Qed.

Lemma writers_le reg : 0 <= writers reg <= size reg.
Proof.
  unfold writers. split; [lia|]. apply inj_le, map_subseteq_size, map_filter_subseteq.
Qed.

Lemma writers_counted reg t w m :
  reg !! t = Some (w, m) → counted m = true → 0 < writers reg.
Proof.
  intros H Hm. unfold writers. apply (inj_lt 0), Nat.neq_0_lt_0.
  intros E. apply map_size_empty_inv in E.
  assert (filter (λ x : Z * tstate, counted x.2.2 = true) reg !! t = Some (w, m)) as F.
  { by apply map_lookup_filter_Some. }
  by rw E in F.
Qed.

Lemma writers_quiet reg t w m :
  writers reg = 0 → reg !! t = Some (w, m) → counted m = false.
Proof.
  intros H1 H2. destruct (counted m) eqn:E; [|done].
  pose proof (writers_counted reg t w m H2 E). lia.
Qed.

(** ** Ghost state and invariants *)

Class tlvGS (Σ : gFunctors) := TlvGS {
  #[global] tlv_concurGS :: concurGS Σ;
  #[global] tlv_vars :: ghost_mapG Σ nat Z;
  #[global] tlv_reg :: ghost_mapG Σ Z tstate;
  #[global] tlv_ds :: ghost_varG Σ (list Z);
  #[global] tlv_els :: ghost_varG Σ (list elt);
  #[global] tlv_grow :: ghost_varG Σ bool;
  #[global] tlv_count :: inG Σ (authR natUR)
}.

(** Ghost names: allocated variables (with their defaults), threads, and shared
    knowledge of the lock and the invariant: the defaults, the list of threads,
    whether a growth is going on; and permits for threads. *)
Record names := mkNames {
  n_vars : gname; n_reg : gname; n_ds : gname; n_els : gname; n_grow : gname; n_count : gname;
  n_lock : gname
}.

Section tlv.
Context `{!tlvGS Σ} (g : names) (N : nat).
Implicit Types (x : elt) (w : gmap nat Z) (m : mode) (ds : list Z) (els : list elt).

Definition tlvN : namespace := nroot .@ "tlv".

Definition mode_res growing ds x w m : iProp Σ :=
  match m with
  | Reading p i v =>
      ⌜contents w ds !! i = Some v⌝ ∗ (⌜p = e_vec x⌝ ∨ ∃ q, (idx p 2 + 8 * i) ↦{q} v)
  | Writing o => ⌜growing = false ∧ (o = None ∨ o = Some (e_vec x))⌝
  | _ => True
  end.

(** While a growth is going on, the grower holds half of the cells. *)
Definition thread_res growing ds x w m : iProp Σ :=
  teb_tlv_vector (e_teb x) ↦ e_vec x ∗
  words (idx (e_vec x) 2) (if growing : bool then 1/2 else 1)%Qp (contents w ds) ∗
  ⌜∀ i, (length ds ≤ i)%nat → w !! i = None⌝ ∗
  mode_res growing ds x w m.

Definition thread_at growing ds (reg : gmap Z tstate) x : iProp Σ :=
  ∃ w m, ⌜reg !! e_teb x = Some (w, m)⌝ ∗ thread_res growing ds x w m.

Definition tlv_state : iProp Σ :=
  ∃ reg els ds (growing : bool),
    ghost_map_auth (n_vars g) 1 (map_seq 0 ds) ∗
    ghost_var (n_ds g) (1/2) ds ∗
    ghost_var (n_els g) (1/2) els ∗
    ghost_var (n_grow g) (1/2) growing ∗
    ghost_map_auth (n_reg g) 1 reg ∗
    own (n_count g) (● N) ∗ own (n_count g) (◯ size reg) ∗
    tlv_writer_counter ↦ (writers reg + if growing then TLV_GROW else 0) ∗
    ⌜NoDup (e_teb <$> els) ∧ dom reg = list_to_set (e_teb <$> els)⌝ ∗
    [∗ list] x ∈ els, thread_at growing ds reg x.

Definition is_tlv : iProp Σ := inv tlvN tlv_state.

#[global] Instance mode_res_timeless growing ds x w m : Timeless (mode_res growing ds x w m).
Proof. destruct m; apply _. Qed.

#[global] Instance words_timeless a q l : Timeless (words a q l).
Proof. apply _. Qed.

#[global] Instance tlv_state_timeless : Timeless tlv_state.
Proof. apply _. Qed.

(** A thread of the program, with what it has written. *)
Definition thread (t : Z) (w : gmap nat Z) : iProp Σ := t ↪[n_reg g] (w, Quiet).

(** The handle [h] is a variable with default [d]. *)
Definition variable (h d : Z) : iProp Σ :=
  ∃ i : nat, ⌜h = (2 + Z.of_nat i)%Z⌝ ∗ i ↪[n_vars g]□ d.

(** Variables a thread knows of, by handle. *)
Definition known (vars : gmap Z Z) : iProp Σ := [∗ map] h ↦ d ∈ vars, variable h d.

#[global] Instance known_persistent vars : Persistent (known vars).
Proof. apply _. Qed.

(** Taking out what the invariant holds for a thread, and putting it back. *)
Lemma thread_acc growing ds els reg t w m :
  NoDup (e_teb <$> els) → dom reg = list_to_set (e_teb <$> els) → reg !! t = Some (w, m) →
  ([∗ list] x ∈ els, thread_at growing ds reg x) -∗
  ∃ x, ⌜e_teb x = t⌝ ∗ thread_res growing ds x w m ∗
    (∀ w' m', thread_res growing ds x w' m' -∗
      [∗ list] x ∈ els, thread_at growing ds (<[t := (w', m')]> reg) x).
Proof.
  iIntros (Hnd Hdom Ht) "H".
  assert (t ∈ e_teb <$> els) as Hin.
  { apply (elem_of_list_to_set (C := gset Z)). rw -Hdom. by apply elem_of_dom_2 in Ht. }
  apply list_elem_of_fmap in Hin as (x & -> & Hx). apply list_elem_of_lookup in Hx as [i Hi].
  iDestruct (big_sepL_lookup_acc_impl with "H") as "[Hx H]"; [done|].
  iDestruct "Hx" as (w1 m1 Ht1) "Hx". rw Ht in Ht1. injection Ht1 as <- <-.
  iExists x. iSplit; [done|]. iFrame "Hx". iIntros (w' m') "Hx".
  iApply ("H" with "[] [Hx]").
  - iIntros "!>" (k y Hk Hne) "(%w1 & %m1 & %Hy & Hy)". iExists w1, m1. iFrame "Hy".
    iPureIntro. rw lookup_insert_ne //. intros E. apply Hne.
    eapply NoDup_lookup; [exact Hnd| |].
    + by rw list_lookup_fmap Hk /=.
    + by rw list_lookup_fmap Hi /= E.
  - iExists w', m'. iFrame "Hx". iPureIntro. by rw lookup_insert_eq.
Qed.

(** Replacing the state of a registered thread keeps the set of threads. *)
Lemma dom_replace (reg : gmap Z tstate) t s s' :
  reg !! t = Some s → dom (<[t := s']> reg) = dom reg ∧ size (<[t := s']> reg) = size reg.
Proof.
  intros H. split; [|by apply map_size_insert_Some].
  rw dom_insert_L. apply elem_of_dom_2 in H. set_solver.
Qed.

Lemma idx_cell p (i : nat) : idx p (2 + i) = idx p 2 + 8 * i.
Proof. unfold idx. lia. Qed.

(** Everything a thread needs of the invariant at one of its actions; it puts
    back its resources in a new state, with the counter changed to match. *)
Lemma tlv_access t w m :
  tlv_state -∗ t ↪[n_reg g] (w, m) -∗
  ∃ x ds growing (n : Z),
    ⌜e_teb x = t ∧ 0 <= n <= N⌝ ∗
    thread_res growing ds x w m ∗
    ghost_map_auth (n_vars g) 1 (map_seq 0 ds) ∗
    tlv_writer_counter ↦ (n + if growing : bool then TLV_GROW else 0) ∗
    (∀ w' m',
      thread_res growing ds x w' m' -∗
      ghost_map_auth (n_vars g) 1 (map_seq 0 ds) -∗
      tlv_writer_counter ↦ (n - (if counted m then 1 else 0) + (if counted m' then 1 else 0)
        + if growing then TLV_GROW else 0) ==∗
      tlv_state ∗ t ↪[n_reg g] (w', m')).
Proof.
  iIntros "(%reg & %els & %ds & %gr & Hvars & Hds & Hels & Hgr & Hreg & Hc & Hn & Hcnt &
    (%Hnd & %Hdom) & Hall) Ht".
  iDestruct (ghost_map_lookup with "Hreg Ht") as %Ht.
  iDestruct (thread_acc with "Hall") as (x Hx) "(Hx & Hall)"; [done|done|done|].
  iDestruct (own_valid_2 with "Hc Hn") as %[Hn _]%auth_both_valid_discrete.
  apply nat_included in Hn. pose proof (writers_le reg).
  iExists x, ds, gr, (writers reg). iSplit; [iPureIntro; split_and!; [done|lia|lia]|].
  iFrame "Hx Hvars Hcnt". iIntros (w' m') "Hx Hvars Hcnt".
  iMod (ghost_map_update (w', m') with "Hreg Ht") as "[Hreg $]". iModIntro.
  destruct (dom_replace reg t _ (w', m') Ht) as [Hdom' Hsize].
  iExists (<[t := (w', m')]> reg), els, ds, gr. rw Hdom' Hsize (writers_insert reg t w m w' m' Ht).
  iFrame. iSplit; [done|]. by iApply "Hall".
Qed.

(** *** Reading *)

Lemma wp_read_thread_variable t w h d Φ :
  is_tlv -∗ thread t w -∗ variable h d -∗
  (thread t w -∗ Φ (default d (w !! Z.to_nat (h - 2)))) -∗
  WP (primitive_read_thread_variable t h : expr threads) {{ Φ }}.
Proof.
  iIntros "#Hinv Ht (%i & -> & #Hv) HΦ". unfold primitive_read_thread_variable, is_tlv.
  replace (Z.to_nat (2 + i - 2)) with i by lia. iApply wp_seq.
  iInv tlvN as ">Hst".
  iDestruct (tlv_access with "Hst Ht") as (x ds gr n (<- & _)) "((Hf & Hw & Hdef & _) & Hvars & Hcnt & Hclose)".
  iDestruct (ghost_map_lookup with "Hvars Hv") as %Hd. apply lookup_map_seq_Some in Hd as [_ Hd].
  rw Nat.sub_0_r in Hd.
  iApply (wp_load with "Hf"). iIntros "!> Hf".
  set (v := default d (w !! i)).
  iMod ("Hclose" $! w (Reading (e_vec x) i v) with "[$Hf $Hw $Hdef] Hvars [Hcnt]") as "[$ Ht]".
  { iSplit; [iPureIntro; by apply contents_lookup|by iLeft]. }
  { rw Z.add_0_r Z.sub_0_r. iFrame. }
  iIntros "!> !>". rw idx_cell. set (p := e_vec x).
  iInv tlvN as ">Hst". clear Hd ds.
  iDestruct (tlv_access with "Hst Ht") as (y ds gr' n' (Hy & _)) "((Hf & Hw & Hdef & (%Hc & Hm)) & Hvars & Hcnt & Hclose)".
  iDestruct "Hm" as "[%Hp|(%q & Hm)]".
  - rw Hp. iDestruct (words_acc with "Hw") as "[Hcell Hw]"; [done|].
    iApply (wp_load with "Hcell"). iIntros "!> Hcell".
    iSpecialize ("Hw" with "Hcell"). rw list_insert_id //.
    iMod ("Hclose" $! w Quiet with "[$Hf $Hw $Hdef] Hvars [Hcnt]") as "[$ Ht]".
    { rw Z.add_0_r Z.sub_0_r. iFrame. }
    iModIntro. by iApply "HΦ".
  - iApply (wp_load with "Hm"). iIntros "!> _".
    iMod ("Hclose" $! w Quiet with "[$Hf $Hw $Hdef] Hvars [Hcnt]") as "[$ Ht]".
    { rw Z.add_0_r Z.sub_0_r. iFrame. }
    iModIntro. by iApply "HΦ".
Qed.

(** *** The lock of the list of threads *)

(** An element of the list, and the cells of its vector for variables that are
    not allocated yet; [sz] is the size of the vectors. *)
Definition elem_res ds (sz : nat) x : iProp Σ :=
  ⌜0 < e_node x⌝ ∗
  element_thread (e_node x) ↦ e_thread x ∗
  element_teb (e_node x) ↦ e_teb x ∗
  element_tlv_vector (e_node x) ↦ e_vec x ∗
  idx (e_vec x) 1 ↦ I sz ∗
  ∃ tail, ⌜(length ds + length tail = sz)%nat⌝ ∗ words (idx (e_vec x) 2 + 8 * length ds) 1 tail.

Definition default_res ds (sz : nat) : iProp Σ :=
  ∃ dv tail, default_tlv_vector ↦ dv ∗ idx dv 1 ↦ I sz ∗ words (idx dv 2) 1 (ds ++ tail) ∗
    ⌜(length ds + length tail = sz)%nat⌝.

Definition links els : iProp Σ :=
  tlv_vector_list ↦ node_at els 0 ∗
  [∗ list] i ↦ x ∈ els, element_next (e_node x) ↦ node_at els (S i).

Definition size_ok (sz : nat) : Prop := 0 < sz < 288230376151711744.

(** What the lock holder shares with the invariant. *)
Definition shared ds els (growing : bool) : iProp Σ :=
  ghost_var (n_ds g) (1/2) ds ∗ ghost_var (n_els g) (1/2) els ∗
  ghost_var (n_grow g) (1/2) growing.

Definition lock_res : iProp Σ :=
  ∃ ds els sz,
    shared ds els false ∗ TLV_vector_offset ↦ (2 + length ds) ∗ ⌜size_ok sz⌝ ∗
    default_res ds sz ∗ links els ∗ [∗ list] x ∈ els, elem_res ds sz x.

Definition is_list_lock : iProp Σ := is_mutex (n_lock g) tlv_vector_list_lock lock_res.

(** *** Writing *)

(** The threads are too few to turn a growth around. *)
Hypothesis few_threads : N < 1999999.

Definition entered (c : Z) : mode := if c <? 0 then Waiting else Writing None.

Lemma wp_enter t w Φ :
  is_tlv -∗ thread t w -∗ (∀ c, t ↪[n_reg g] (w, entered c) -∗ Φ c) -∗
  WP (atomic_increment tlv_writer_counter : expr threads) {{ Φ }}.
Proof.
  iIntros "#Hinv Ht HΦ". unfold is_tlv, atomic_increment. iInv tlvN as ">Hst".
  iDestruct (tlv_access with "Hst Ht") as (x ds gr n (<- & Hn))
    "((Hf & Hw & Hdef & _) & Hvars & Hcnt & Hclose)".
  iApply (wp_fetch_and_add with "Hcnt"). iIntros "!> Hcnt".
  set (c := n + (if gr then TLV_GROW else 0) + 1).
  iMod ("Hclose" $! w (entered c) with "[$Hf $Hw $Hdef] Hvars [Hcnt]") as "[$ Ht]".
  - unfold entered, mode_res. destruct (Z.ltb_spec c 0); [done|]. iPureIntro.
    destruct gr; [|by auto]. unfold TLV_GROW in c. lia.
  - replace (if counted (entered c) then 1 else 0) with 1 by (unfold entered; by destruct (c <? 0)).
    simpl. by replace (n - 0 + 1 + (if gr then TLV_GROW else 0)) with c by (unfold c; lia).
  - iModIntro. by iApply "HΦ".
Qed.

Lemma wp_leave t w m Φ :
  counted m = true →
  is_tlv -∗ t ↪[n_reg g] (w, m) -∗ (∀ c, thread t w -∗ Φ c) -∗
  WP (atomic_decrement tlv_writer_counter : expr threads) {{ Φ }}.
Proof.
  iIntros (Hm) "#Hinv Ht HΦ". unfold is_tlv, atomic_decrement. iInv tlvN as ">Hst".
  iDestruct (tlv_access with "Hst Ht") as (x ds gr n (<- & Hn))
    "((Hf & Hw & Hdef & _) & Hvars & Hcnt & Hclose)".
  iApply (wp_fetch_and_add with "Hcnt"). iIntros "!> Hcnt".
  iMod ("Hclose" $! w Quiet with "[$Hf $Hw $Hdef] Hvars [Hcnt]") as "[$ Ht]".
  - rw Hm /= Z.add_0_r.
    by replace (n + (if gr then TLV_GROW else 0) + -1) with (n - 1 + (if gr then TLV_GROW else 0)) by lia.
  - iModIntro. by iApply "HΦ".
Qed.

Lemma wp_write_blocked t w Φ :
  is_tlv -∗ is_list_lock -∗ t ↪[n_reg g] (w, Waiting) -∗
  (∀ c, t ↪[n_reg g] (w, Writing None) -∗ Φ c) -∗
  WP (primitive_write_thread_variable_blocked : expr threads) {{ Φ }}.
Proof.
  iIntros "#Hinv #Hlock Ht HΦ". unfold primitive_write_thread_variable_blocked, Do.
  set (body := (Bind (atomic_decrement tlv_writer_counter) _ : prog)).
  iAssert (□ ∀ Ψ : val threads → iProp Σ, t ↪[n_reg g] (w, Waiting) -∗
    (∀ c, t ↪[n_reg g] (w, entered c) -∗ Ψ c) -∗ WP (body : expr threads) {{ Ψ }})%I as "#Hbody".
  { iIntros "!>" (Ψ) "Ht HΨ". unfold body. iApply wp_seq.
    iApply (wp_leave with "Hinv Ht"); [done|]. iIntros (c) "Ht !>". iApply wp_seq.
    unfold If. destruct (c <? 0).
    - iApply wp_seq. iApply (wp_mutex_lock with "Hlock"). iIntros "Hl HR !>".
      iApply (wp_mutex_unlock with "Hlock Hl HR"). iIntros "!>". by iApply (wp_enter with "Hinv Ht").
    - iApply wp_ret. iIntros "!>". by iApply (wp_enter with "Hinv Ht"). }
  iApply wp_seq. iApply ("Hbody" with "Ht"). iIntros (c) "Ht !>".
  iApply (wp_while_inv (λ c, t ↪[n_reg g] (w, entered c))%I with "Ht").
  - iIntros "!>" (y Hy) "Ht". simpl in Hy. assert (entered y = Waiting) as -> by by rw /entered Hy. iApply ("Hbody" with "Ht"). by iIntros (z) "?".
  - iIntros (y Hy) "Ht". simpl in Hy. rw /entered Hy. by iApply "HΦ".
Qed.

Lemma wp_write_thread_variable t w h d v Φ :
  is_tlv -∗ is_list_lock -∗ thread t w -∗ variable h d -∗
  (thread t (<[Z.to_nat (h - 2) := v]> w) -∗ Φ v) -∗
  WP (primitive_write_thread_variable t h v : expr threads) {{ Φ }}.
Proof.
  iIntros "#Hinv #Hlock Ht (%i & -> & #Hv) HΦ". unfold primitive_write_thread_variable.
  replace (Z.to_nat (2 + i - 2)) with i by lia.
  iApply wp_seq. iApply (wp_enter with "Hinv Ht"). iIntros (c) "Ht !>".
  iApply wp_seq. unfold If.
  iAssert (WP ((if c <? 0 then primitive_write_thread_variable_blocked else Ret 0) : expr threads)
    {{ _, t ↪[n_reg g] (w, Writing None) }})%I with "[Ht]" as "Hwait".
  { unfold entered. destruct (c <? 0).
    - iApply (wp_write_blocked with "Hinv Hlock Ht"). by iIntros (z) "?".
    - by iApply wp_ret. }
  iApply (wp_wand with "Hwait"). iIntros (z) "Ht !>". unfold is_tlv.
  iApply wp_seq. iInv tlvN as ">Hst".
  iDestruct (tlv_access with "Hst Ht") as (x ds gr n (<- & Hn))
    "((Hf & Hw & Hdef & (%Hgr & _)) & Hvars & Hcnt & Hclose)".
  iApply (wp_load with "Hf"). iIntros "!> Hf".
  iMod ("Hclose" $! w (Writing (Some (e_vec x))) with "[$Hf $Hw $Hdef] Hvars [Hcnt]") as "[$ Ht]".
  { iPureIntro. auto. }
  { simpl. by rw Z.sub_add. }
  clear Hgr ds gr n Hn. iIntros "!> !>". set (p := e_vec x). rw idx_cell.
  iApply wp_seq. iInv tlvN as ">Hst".
  iDestruct (tlv_access with "Hst Ht") as (y ds gr n (Hy & Hn))
    "((Hf & Hw & %Hdef & (-> & %Hp)) & Hvars & Hcnt & Hclose)".
  destruct Hp as [?|[= Hp]]; [done|]. rw Hp.
  iDestruct (ghost_map_lookup with "Hvars Hv") as %Hd. apply lookup_map_seq_Some in Hd as [_ Hd].
  rw Nat.sub_0_r in Hd. pose proof (lookup_lt_Some _ _ _ Hd) as Hi.
  iDestruct (words_acc with "Hw") as "[Hcell Hw]"; [by apply contents_lookup|].
  iApply (wp_store with "Hcell"). iIntros "!> Hcell".
  iSpecialize ("Hw" with "Hcell"). rw (contents_write w ds i v Hi).
  iMod ("Hclose" $! (<[i := v]> w) (Writing None) with "[$Hf $Hw] Hvars [Hcnt]") as "[$ Ht]".
  { iPureIntro. split; [|by auto]. intros j Hj. rw lookup_insert_ne; [|lia]. by apply Hdef. }
  { simpl. by rw Z.sub_add. }
  iIntros "!> !>". iApply wp_seq. iApply (wp_leave with "Hinv Ht"); [done|].
  iIntros (c') "Ht !>". iApply wp_ret. by iApply "HΦ".
Qed.

(** *** Vectors *)

Lemma words_halves a l : words a 1 l ⊣⊢ words a (1/2) l ∗ words a (1/2) l.
Proof.
  unfold words. rw -big_sepL_sep. apply big_sepL_proper. intros i v _.
  iSplit; [iIntros "[$ $]"|iIntros "[H1 H2]"; by iCombine "H1 H2" as "$"].
Qed.

Lemma words_agree a q1 q2 l1 l2 :
  length l1 = length l2 → words a q1 l1 -∗ words a q2 l2 -∗ ⌜l1 = l2⌝.
Proof.
  revert a l2. induction l1 as [|v l1 IH]; intros a [|w l2] H; try done.
  - by iIntros "_ _".
  - rw !words_cons. iIntros "[H1 H2] [H3 H4]".
    iDestruct (ghost_map_elem_agree with "H1 H3") as %->.
    iDestruct (IH with "H2 H4") as %->; [by injection H|done].
Qed.

Lemma size_I (sz : nat) : sz < 288230376151711744 → Z.shiftr (I sz) 2 = sz.
Proof.
  intros H. rw I_eq Z.shiftr_div_pow2 //. rw u64_id; [|unfold in_u64; lia].
  change (2 ^ 2) with 4. zmod.
Qed.

Lemma wp_make_vector (n : nat) Φ :
  (0 < n)%nat →
  (∀ a, ⌜0 < a ∧ size_ok n⌝ -∗ idx a 1 ↦ I n -∗ words (idx a 2) 1 (replicate n KPunboundVKi) -∗ Φ a) -∗
  WP (make_dylan_vector n : expr threads) {{ Φ }}.
Proof.
  iIntros (Hn) "HΦ". unfold make_dylan_vector. rw (proj2 (Z.eqb_neq n 0)); [|lia].
  destruct (Z.leb_spec 288230376151711744 n); [iApply wp_halt|].
  iApply wp_allocate. iIntros "!>" (a Ha) "Hl". rw !words_cons Nat2Z.id.
  iDestruct "Hl" as "(_ & Hs & Hl)". iApply ("HΦ" with "[%] [Hs] [Hl]").
  - unfold size_ok. lia.
  - by replace (idx a 1) with (a + 8) by (unfold idx; lia).
  - by replace (idx a 2) with (a + 8 + 8) by (unfold idx; lia).
Qed.

Lemma wp_copy_tlv_vector dst src q1 q2 (sz : nat) l k Φ :
  length l = sz → (sz ≤ length k)%nat → sz < 288230376151711744 →
  idx src 1 ↦{q1} I sz -∗ words (idx src 2) q2 l -∗ words (idx dst 2) 1 k -∗
  (∀ r, idx src 1 ↦{q1} I sz -∗ words (idx src 2) q2 l -∗
    words (idx dst 2) 1 (l ++ drop sz k) -∗ Φ r) -∗
  WP (copy_tlv_vector dst src : expr threads) {{ Φ }}.
Proof.
  iIntros (Hl Hk Hsz) "Hs Hsrc Hdst HΦ". unfold copy_tlv_vector. iApply wp_seq.
  iApply (wp_load with "Hs"). iIntros "!> Hs !>". rw size_I //.
  iApply (wp_while_inv (λ r : val threads, ∃ j : nat, ⌜r = (2 + Z.of_nat j)%Z ∧ (j ≤ sz)%nat⌝ ∗
    words (idx src 2) q2 l ∗ words (idx dst 2) 1 (take j l ++ drop j k))%I
    with "[Hsrc Hdst]").
  - iExists 0%nat. rw take_0 drop_0 /=. iFrame. iPureIntro. lia.
  - iIntros "!>" (y Hy) "(%j & (-> & %Hj) & Hsrc & Hdst)". apply Z.ltb_lt in Hy.
    assert (j < sz)%nat as Hlt by lia.
    destruct (lookup_lt_is_Some_2 l j) as [v Hv]; [lia|].
    destruct (lookup_lt_is_Some_2 k j) as [u Hu]; [lia|].
    rw !idx_cell. iApply wp_seq.
    iDestruct (words_acc with "Hsrc") as "[Hc Hsrc]"; [done|].
    iApply (wp_load with "Hc"). iIntros "!> Hc !>". iSpecialize ("Hsrc" with "Hc").
    rw list_insert_id //. iApply wp_seq.
    iDestruct (words_acc _ _ _ j u with "Hdst") as "[Hc Hdst]".
    { rw lookup_app_r; rw length_take_le //; try lia. rw lookup_drop.
      by replace (j + (j - j))%nat with j by lia. }
    iApply (wp_store with "Hc"). iIntros "!> Hc !>". iSpecialize ("Hdst" with "Hc").
    iApply wp_ret. iExists (S j). iSplit; [iPureIntro; lia|]. iFrame "Hsrc".
    rw insert_app_r_alt; rw length_take_le; try lia. rw Nat.sub_diag.
    rw (drop_S k u j Hu) /= (take_S_r l j v Hv) -app_assoc. done.
  - iIntros (y Hy) "(%j & (-> & %Hj) & Hsrc & Hdst)". apply Z.ltb_ge in Hy.
    assert (j = sz) as -> by lia. rw take_ge; [|lia]. iApply ("HΦ" with "Hs Hsrc Hdst").
Qed.

(** *** New threads *)

(** The right to start one more thread. *)
Definition permit : iProp Σ := own (n_count g) (◯ 1%nat).

Lemma contents_empty ds : contents ∅ ds = ds.
Proof.
  apply list_eq. intros i. unfold contents. rw list_lookup_imap lookup_empty.
  by destruct (ds !! i).
Qed.

(** Nobody else has the thread environment block of a new thread. *)
Lemma new_teb growing ds els reg t p :
  teb_tlv_vector t ↦ p -∗ ([∗ list] x ∈ els, thread_at growing ds reg x) -∗
  ⌜t ∉ e_teb <$> els⌝.
Proof.
  iIntros "Hf Hall" ([x [-> Hx]]%list_elem_of_fmap).
  iDestruct (big_sepL_elem_of with "Hall") as (w m) "(_ & Hf' & _)"; [done|].
  by iDestruct (ghost_map_elem_ne with "Hf Hf'") as %?.
Qed.

Lemma register_thread ds els x :
  is_tlv -∗ shared ds els false -∗ permit -∗
  teb_tlv_vector (e_teb x) ↦ e_vec x -∗ words (idx (e_vec x) 2) 1 ds ={⊤}=∗
  shared ds (x :: els) false ∗ thread (e_teb x) ∅.
Proof.
  iIntros "#Hinv (Hds & Hels & Hgr) Hp Hf Hw". unfold is_tlv.
  iInv tlvN as ">(%reg & %els' & %ds' & %gr & Hvars & Hds' & Hels' & Hgr' & Hreg & Hc & Hn & Hcnt &
    (%Hnd & %Hdom) & Hall)".
  iDestruct (ghost_var_agree with "Hds Hds'") as %<-.
  iDestruct (ghost_var_agree with "Hels Hels'") as %<-.
  iDestruct (ghost_var_agree with "Hgr Hgr'") as %<-.
  iDestruct (new_teb with "Hf Hall") as %Hnew.
  assert (reg !! e_teb x = None) as Hreg.
  { apply not_elem_of_dom. rw Hdom. by rw elem_of_list_to_set. }
  iMod (ghost_var_update_halves (x :: els) with "Hels Hels'") as "[Hels Hels']".
  iMod (ghost_map_insert (e_teb x) (∅, Quiet) with "Hreg") as "[Hreg Ht]"; [done|].
  iCombine "Hn Hp" as "Hn". iModIntro. iSplitR "Hds Hels Hgr Ht"; [iNext|by iFrame].
  iExists (<[e_teb x := (∅, Quiet)]> reg), (x :: els), ds, false.
  rw (writers_new reg (e_teb x) ∅ Quiet Hreg eq_refl) (map_size_insert_None _ _ _ Hreg).
  iFrame "Hvars Hds' Hels' Hgr' Hreg Hc Hcnt".
  iSplitL "Hn". { by replace (S (size reg)) with (size reg + 1)%nat by lia. }
  iSplit.
  { iPureIntro. rw fmap_cons. split; [by constructor|]. rw dom_insert_L Hdom. set_solver. }
  iSplitL "Hf Hw".
  - iExists ∅, Quiet. iSplit; [by rw lookup_insert_eq|]. rw /thread_res contents_empty.
    iFrame. iSplit; [|done]. iPureIntro. intros. apply lookup_empty.
  - iApply (big_sepL_impl with "Hall"). iIntros "!>" (i y Hy) "(%w & %m & %Hw & Hy)".
    iExists w, m. iFrame "Hy". iPureIntro. rw lookup_insert_ne //. intros E. apply Hnew.
    apply list_elem_of_fmap. exists y. split; [done|]. by eapply list_elem_of_lookup_2.
Qed.

Lemma wp_setup_tlv_vector th t Φ :
  is_tlv -∗ is_list_lock -∗ permit -∗ teb_tlv_vector t ↦ NULL -∗
  (∀ r, thread t ∅ -∗ Φ r) -∗
  WP (setup_tlv_vector th t : expr threads) {{ Φ }}.
Proof.
  iIntros "#Hinv #Hlock Hp Hf HΦ". unfold setup_tlv_vector.
  iApply wp_seq. iApply (wp_mutex_lock with "Hlock").
  iIntros "Hl (%ds & %els & %sz & Hsh & Hoff & %Hsz & (%dv & %tail & Hdv & Hdsz & Hdw & %Hlen) & Hlinks & Helems) !>".
  iApply wp_seq. iApply (wp_load with "Hf"). iIntros "!> Hf !>". simpl.
  iApply wp_seq. iApply wp_seq. iApply (wp_load with "Hdv"). iIntros "!> Hdv !>".
  iApply wp_seq. iApply (wp_load with "Hdsz"). iIntros "!> Hdsz !>".
  unfold size_ok in Hsz. rw size_I; [|lia].
  iApply wp_seq. iApply wp_make_vector; [lia|]. iIntros (p [Hp _]) "Hpsz Hpw !>".
  iApply wp_seq. iApply (wp_store with "Hf"). iIntros "!> Hf !>".
  iApply wp_seq. iApply (wp_load with "Hdv"). iIntros "!> Hdv !>".
  iApply wp_seq. iApply (wp_copy_tlv_vector _ _ _ _ sz with "Hdsz Hdw Hpw").
  { by rw length_app. } { by rw length_replicate. } { lia. }
  iIntros (r) "Hdsz Hdw Hpw !>". clear r.
  rw drop_ge; [|by rw length_replicate]. rw app_nil_r.
  iDestruct (words_app with "Hpw") as "[Hpw Hpt]". unfold add_tlv_vector.
  iApply wp_seq. iApply wp_allocate. iIntros "!>" (e He) "He !>".
  rw !words_cons. iDestruct "He" as "(He0 & He1 & He2 & He3 & _)".
  replace (e + 8 + 8 + 8) with (element_next e) by (unfold element_next, idx; lia).
  replace (e + 8 + 8) with (element_tlv_vector e) by (unfold element_tlv_vector, idx; lia).
  replace (e + 8) with (element_teb e) by (unfold element_teb, idx; lia).
  iApply wp_seq. replace e with (element_thread e) at 1 by (unfold element_thread, idx; lia).
  iApply (wp_store with "He0"). iIntros "!> He0 !>".
  iApply wp_seq. iApply (wp_store with "He1"). iIntros "!> He1 !>".
  iApply wp_seq. iApply (wp_store with "He2"). iIntros "!> He2 !>".
  iDestruct "Hlinks" as "[Hhead Hlinks]".
  iApply wp_seq. iApply (wp_load with "Hhead"). iIntros "!> Hhead !>".
  iApply wp_seq. iApply (wp_store with "He3"). iIntros "!> He3 !>".
  iApply (wp_store with "Hhead"). iIntros "!> Hhead !>".
  set (x := mkElt e th t p).
  iApply fupd_wp. iMod (register_thread ds els x with "Hinv Hsh Hp Hf Hpw") as "[Hsh Ht]".
  iModIntro. iApply (wp_mutex_unlock with "Hlock Hl [-Ht HΦ]"); [|by iApply "HΦ"].
  iExists ds, (x :: els), sz. iFrame "Hsh Hoff". iSplit; [done|].
  iFrame "Hdv Hdsz Hdw Helems". iFrame "Hhead He3 Hlinks".
  iSplit; [done|]. iSplit; [done|]. iFrame. done.
Qed.

(** *** Loops over the list of threads *)

Definition nexts els : iProp Σ :=
  [∗ list] i ↦ x ∈ els, element_next (e_node x) ↦ node_at els (S i).

Lemma node_at_middle pre x rest : node_at (pre ++ x :: rest) (length pre) = e_node x.
Proof. unfold node_at. by rw list_lookup_middle. Qed.

Lemma node_at_end pre : node_at (pre ++ []) (length pre) = NULL.
Proof. unfold node_at. rw app_nil_r. by rw (lookup_ge_None_2 pre (length pre)). Qed.

Lemma node_at_same pre x x' rest i :
  e_node x' = e_node x → node_at (pre ++ x' :: rest) i = node_at (pre ++ x :: rest) i.
Proof.
  intros H. unfold node_at. rw -!list_lookup_fmap !fmap_app !fmap_cons. by rw H.
Qed.

(** The next fields depend on the elements' addresses only; taking one out. *)
Lemma nexts_acc pre x rest :
  nexts (pre ++ x :: rest) -∗
  element_next (e_node x) ↦ node_at (pre ++ x :: rest) (S (length pre)) ∗
  (∀ x', ⌜e_node x' = e_node x⌝ -∗
    element_next (e_node x) ↦ node_at (pre ++ x :: rest) (S (length pre)) -∗
    nexts (pre ++ x' :: rest)).
Proof.
  iIntros "H". unfold nexts. rw big_sepL_app big_sepL_cons Nat.add_0_r.
  iDestruct "H" as "(H1 & $ & H2)". iIntros (x' Hx) "H".
  rw big_sepL_app big_sepL_cons Nat.add_0_r Hx (node_at_same _ _ _ _ _ Hx). iFrame "H".
  iSplitL "H1"; (iApply (big_sepL_impl with "[$]"); iIntros "!>" (i y _) "H";
    by rw (node_at_same _ _ _ _ _ Hx)).
Qed.

(** A loop over the elements turns [Old] resources into [New] ones, and may
    change the elements but not their addresses. *)
Lemma wp_elements (St : list elt → iProp Σ) (Old New : elt → iProp Σ) (body : Z → prog) els Φ :
  (∀ x, Old x ⊢ ⌜0 < e_node x⌝) →
  □ (∀ pre x rest nx, St (pre ++ x :: rest) -∗ Old x -∗ element_next (e_node x) ↦ nx -∗
    WP (body (e_node x) : expr threads) {{ r, ⌜r = nx⌝ ∗ element_next (e_node x) ↦ nx ∗
      ∃ x', ⌜e_node x' = e_node x⌝ ∗ St (pre ++ x' :: rest) ∗ New x' }}) -∗
  St els -∗ nexts els -∗ ([∗ list] x ∈ els, Old x) -∗
  (∀ els' r, St els' -∗ nexts els' -∗ ⌜node_at els' 0 = node_at els 0⌝ -∗
    ([∗ list] x ∈ els', New x) -∗ Φ r) -∗
  WP (While (λ list, negb (list =? NULL)) (node_at els 0) body : expr threads) {{ Φ }}.
Proof.
  iIntros (Hpos) "#Hbody HSt Hnexts Hels HΦ".
  iApply (wp_while_inv (λ y : val threads, ∃ pre rest,
    ⌜y = node_at (pre ++ rest) (length pre) ∧ node_at (pre ++ rest) 0 = node_at els 0⌝ ∗
    St (pre ++ rest) ∗ nexts (pre ++ rest) ∗ ([∗ list] x ∈ pre, New x) ∗
    ([∗ list] x ∈ rest, Old x))%I with "[HSt Hnexts Hels]").
  - iExists [], els. simpl. by iFrame.
  - iIntros "!>" (y Hy) "(%pre & %rest & (-> & %H0) & HSt & Hnexts & Hnew & Hold)".
    destruct rest as [|x rest].
    { simpl in Hy. rw node_at_end in Hy. done. }
    rw node_at_middle big_sepL_cons. iDestruct "Hold" as "[Hx Hold]".
    iDestruct (nexts_acc with "Hnexts") as "[Hnx Hnexts]".
    iApply (wp_wand with "[HSt Hx Hnx]"); [iApply ("Hbody" with "HSt Hx Hnx")|].
    iIntros (r) "(-> & Hnx & %x' & %Hx' & HSt & Hx)".
    iExists (pre ++ [x']), rest. rw -app_assoc /= big_sepL_snoc. iFrame "HSt Hnew Hx Hold".
    iSplit.
    + iPureIntro. rw !(node_at_same _ _ _ _ _ Hx') length_app Nat.add_1_r. done.
    + by iApply "Hnexts".
  - iIntros (y Hy) "(%pre & %rest & (-> & %H0) & HSt & Hnexts & Hnew & Hold)".
    destruct rest as [|x rest].
    + rw app_nil_r in H0 |- *. by iApply ("HΦ" with "HSt Hnexts [//] Hnew").
    + rw big_sepL_cons. iDestruct "Hold" as "[Hx Hold]". iDestruct (Hpos with "Hx") as %Hx.
      simpl in Hy. rw node_at_middle in Hy. unfold NULL in Hy. lia.
Qed.

(** *** Allocating a variable *)

(** The cell of the variable being allocated. *)
Definition new_cell ds v x : iProp Σ := (idx (e_vec x) 2 + 8 * length ds) ↦ v.

Lemma elem_res_pos ds sz x : elem_res ds sz x ⊢ ⌜0 < e_node x⌝.
Proof. by iIntros "[% _]". Qed.

Lemma wp_update_tlv_vectors ds els (sz : nat) v Φ :
  (length ds < sz)%nat →
  links els -∗ ([∗ list] x ∈ els, elem_res ds sz x) -∗
  (∀ r, links els -∗ ([∗ list] x ∈ els, elem_res (ds ++ [v]) sz x ∗ new_cell ds v x) -∗ Φ r) -∗
  WP (update_tlv_vectors (2 + length ds) v : expr threads) {{ Φ }}.
Proof.
  iIntros (Hsz) "[Hhead Hnexts] Hels HΦ". unfold update_tlv_vectors. iApply wp_seq.
  iApply (wp_load with "Hhead"). iIntros "!> Hhead !>".
  iApply (wp_elements (λ els', ⌜els' = els⌝)%I (elem_res ds sz)
    (λ x, elem_res (ds ++ [v]) sz x ∗ new_cell ds v x)%I with "[] [//] Hnexts Hels").
  - apply elem_res_pos.
  - iIntros "!>" (pre x rest nx) "%Hels (%Hpos & H0 & H1 & H2 & H3 & %tail & %Hlen & Htail) Hnx".
    iApply wp_seq. iApply (wp_load with "H2"). iIntros "!> H2 !>".
    rw idx_cell. destruct tail as [|u tail]; [simpl in Hlen; lia|]. rw words_cons.
    iDestruct "Htail" as "[Hu Htail]".
    iApply wp_seq. iApply (wp_store with "Hu"). iIntros "!> Hu !>".
    iApply (wp_load with "Hnx"). iIntros "!> $". iSplit; [done|].
    iExists x. iFrame "H0 H1 H2 H3 Hu". iSplit; [done|]. iSplit; [done|]. iSplit; [done|].
    iExists tail. rw length_app. iSplit; [iPureIntro; simpl in *; lia|].
    by replace (idx (e_vec x) 2 + 8 * length ds + 8) with
      (idx (e_vec x) 2 + 8 * (length ds + length [v])%nat) by (simpl; lia).
  - iIntros (els' r) "-> Hnexts _ Hels". iApply ("HΦ" with "[$Hhead $Hnexts] Hels").
Qed.

(** The next handle is not one of a variable. *)
Lemma known_old vars ds :
  ghost_map_auth (n_vars g) 1 (map_seq 0 ds) -∗ known vars -∗
  ⌜vars !! (2 + Z.of_nat (length ds))%Z = None⌝.
Proof.
  iIntros "Hvars Hknown". destruct (vars !! _) as [d|] eqn:E; [|done].
  iDestruct (big_sepM_lookup with "Hknown") as (i Hi) "Hv"; [exact E|].
  iDestruct (ghost_map_lookup with "Hvars Hv") as %Hd. apply lookup_map_seq_Some in Hd as [_ Hd].
  apply lookup_lt_Some in Hd. iPureIntro. lia.
Qed.

(** The new variable becomes one of every thread's. *)
Lemma publish_variable vars ds els v :
  is_tlv -∗ known vars -∗ shared ds els false -∗ ([∗ list] x ∈ els, new_cell ds v x) ={⊤}=∗
  shared (ds ++ [v]) els false ∗ ⌜vars !! (2 + Z.of_nat (length ds))%Z = None⌝ ∗
    variable (2 + length ds) v.
Proof.
  iIntros "#Hinv #Hknown (Hds & Hels & Hgr) Hcells". unfold is_tlv.
  iInv tlvN as ">(%reg & %els' & %ds' & %gr & Hvars & Hds' & Hels' & Hgr' & Hreg & Hc & Hn & Hcnt &
    Hdom & Hall)".
  iDestruct (ghost_var_agree with "Hds Hds'") as %<-.
  iDestruct (ghost_var_agree with "Hels Hels'") as %<-.
  iDestruct (ghost_var_agree with "Hgr Hgr'") as %<-.
  iDestruct (known_old with "Hvars Hknown") as %Hnew.
  iMod (ghost_var_update_halves (ds ++ [v]) with "Hds Hds'") as "[Hds Hds']".
  iMod (ghost_map_insert_persist (length ds) v with "Hvars") as "[Hvars Hv]".
  { apply lookup_map_seq_None. lia. }
  iModIntro. iSplitR "Hds Hels Hgr Hv".
  - iNext. iExists reg, els, (ds ++ [v]), false. rw map_seq_snoc. iFrame.
    iCombine "Hall Hcells" as "Hall". rw -big_sepL_sep.
    iApply (big_sepL_impl with "Hall"). iIntros "!>" (i x _) "[(%w & %m & %Hw & Hf & Hw & %Hdef & Hm) Hcell]".
    iExists w, m. iSplit; [done|]. iFrame "Hf".
    rw /thread_res contents_snoc // words_app words_cons length_contents.
    iFrame "Hw Hcell". iSplit; [by iApply big_sepL_nil|]. iSplit.
    + iPureIntro. intros j Hj. apply Hdef. rw length_app in Hj. lia.
    + destruct m; try done. iDestruct "Hm" as "[%Hi $]". iPureIntro.
      rw contents_snoc //. by apply lookup_app_l_Some.
  - iModIntro. by iFrame.
Qed.

(** *** Growing the vectors *)

(** The grower's half of a thread's cells. *)
Definition half ds x : iProp Σ :=
  ∃ l, ⌜length l = length ds⌝ ∗ words (idx (e_vec x) 2) (1/2) l.

Lemma start_growing ds x reg :
  (∀ w m, reg !! e_teb x = Some (w, m) → counted m = false) →
  thread_at false ds reg x -∗ thread_at true ds reg x ∗ half ds x.
Proof.
  iIntros (Hq) "(%w & %m & %Hw & $ & Hw & $ & Hm)". rw words_halves. iDestruct "Hw" as "[Hw1 Hw2]".
  iSplitR "Hw2".
  - iExists m. iFrame "Hw1". iSplit; [done|]. specialize (Hq _ _ Hw). by destruct m.
  - iExists _. iFrame "Hw2". by rw length_contents.
Qed.

Lemma stop_growing ds x reg :
  thread_at true ds reg x -∗ half ds x -∗ thread_at false ds reg x.
Proof.
  iIntros "(%w & %m & %Hw & Hf & Hw & %Hdef & Hm) (%l & %Hl & Hl)".
  iDestruct (words_agree with "Hw Hl") as %<-; [by rw length_contents|].
  iExists w, m. iFrame "Hf". iSplit; [done|]. iSplitL "Hw Hl".
  - rw words_halves. iFrame.
  - iSplit; [done|]. destruct m; try done. by iDestruct "Hm" as %[? _].
Qed.

Lemma wp_start_growing ds els Φ :
  is_tlv -∗ shared ds els false -∗
  (∀ r, (⌜r ≠ 0⌝ ∗ shared ds els false ∨
         ⌜r = 0⌝ ∗ shared ds els true ∗ [∗ list] x ∈ els, half ds x) -∗ Φ r) -∗
  WP (atomic_cas tlv_writer_counter TLV_GROW 0 : expr threads) {{ Φ }}.
Proof.
  iIntros "#Hinv (Hds & Hels & Hgr) HΦ". unfold is_tlv, atomic_cas.
  iInv tlvN as ">(%reg & %els' & %ds' & %gr & Hvars & Hds' & Hels' & Hgr' & Hreg & Hc & Hn & Hcnt &
    Hdom & Hall)".
  iDestruct (ghost_var_agree with "Hds Hds'") as %<-.
  iDestruct (ghost_var_agree with "Hels Hels'") as %<-.
  iDestruct (ghost_var_agree with "Hgr Hgr'") as %<-. rw Z.add_0_r.
  iApply (wp_compare_and_swap with "Hcnt"). iIntros "!> Hcnt".
  destruct (Z.eqb_spec (writers reg) 0) as [E|N0].
  - iMod (ghost_var_update_halves true with "Hgr Hgr'") as "[Hgr Hgr']".
    iAssert ([∗ list] x ∈ els, thread_at true ds reg x ∗ half ds x)%I with "[Hall]" as "Hall".
    { iApply (big_sepL_impl with "Hall"). iIntros "!>" (i x _) "Hx".
      iApply (start_growing with "Hx"). intros w m. by apply writers_quiet. }
    rw big_sepL_sep. iDestruct "Hall" as "[Hall Hhalf]". iModIntro.
    iSplitR "HΦ Hhalf Hds Hels Hgr".
    + iNext. iExists reg, els, ds, true. rw E Z.add_0_l. iFrame.
    + iApply "HΦ". iRight. by iFrame.
  - iModIntro. iSplitR "HΦ Hds Hels Hgr".
    + iNext. iExists reg, els, ds, false. rw Z.add_0_r. iFrame.
    + iApply "HΦ". iLeft. by iFrame.
Qed.

Lemma wp_stop_growing ds els Φ :
  is_tlv -∗ shared ds els true -∗ ([∗ list] x ∈ els, half ds x) -∗
  (∀ r, (⌜r ≠ TLV_GROW⌝ ∗ shared ds els true ∗ ([∗ list] x ∈ els, half ds x) ∨
         ⌜r = TLV_GROW⌝ ∗ shared ds els false) -∗ Φ r) -∗
  WP (atomic_cas tlv_writer_counter 0 TLV_GROW : expr threads) {{ Φ }}.
Proof.
  iIntros "#Hinv (Hds & Hels & Hgr) Hhalf HΦ". unfold is_tlv, atomic_cas.
  iInv tlvN as ">(%reg & %els' & %ds' & %gr & Hvars & Hds' & Hels' & Hgr' & Hreg & Hc & Hn & Hcnt &
    Hdom & Hall)".
  iDestruct (ghost_var_agree with "Hds Hds'") as %<-.
  iDestruct (ghost_var_agree with "Hels Hels'") as %<-.
  iDestruct (ghost_var_agree with "Hgr Hgr'") as %<-.
  iApply (wp_compare_and_swap with "Hcnt"). iIntros "!> Hcnt".
  destruct (Z.eqb_spec (writers reg + TLV_GROW) TLV_GROW) as [E|N0].
  - iMod (ghost_var_update_halves false with "Hgr Hgr'") as "[Hgr Hgr']".
    iCombine "Hall Hhalf" as "Hall". rw -big_sepL_sep.
    iModIntro. iSplitR "HΦ Hds Hels Hgr".
    + iNext. iExists reg, els, ds, false. assert (writers reg = 0) as -> by lia. iFrame.
      iApply (big_sepL_impl with "Hall"). iIntros "!>" (i x _) "[Hx Hh]".
      iApply (stop_growing with "Hx Hh").
    + iApply "HΦ". iRight. by iFrame.
  - iModIntro. iSplitR "HΦ Hhalf Hds Hels Hgr".
    + iNext. iExists reg, els, ds, true. iFrame.
    + iApply "HΦ". iLeft. by iFrame.
Qed.

(** The thread's block gets the new vector; what the thread may still be
    reading is its old one. *)
Lemma wp_swap_vector ds pre x rest l q Φ :
  length l = length ds →
  is_tlv -∗ shared ds (pre ++ x :: rest) true -∗ words (idx (e_vec x) 2) (1/2) l -∗
  words (idx q 2) 1 l -∗
  (∀ r, shared ds (pre ++ set_vec x q :: rest) true -∗ half ds (set_vec x q) -∗ Φ r) -∗
  WP (Act (Store (teb_tlv_vector (e_teb x)) q) : expr threads) {{ Φ }}.
Proof.
  iIntros (Hl) "#Hinv (Hds & Hels & Hgr) Hold Hnew HΦ". unfold is_tlv.
  iInv tlvN as ">(%reg & %els' & %ds' & %gr & Hvars & Hds' & Hels' & Hgr' & Hreg & Hc & Hn & Hcnt &
    Hdom & Hall)".
  iDestruct (ghost_var_agree with "Hds Hds'") as %<-.
  iDestruct (ghost_var_agree with "Hels Hels'") as %<-.
  iDestruct (ghost_var_agree with "Hgr Hgr'") as %<-.
  rw big_sepL_app big_sepL_cons.
  iDestruct "Hall" as "(Hpre & (%w & %m & %Hw & Hf & Hw & Hdef & Hm) & Hrest)".
  iDestruct (words_agree with "Hw Hold") as %<-; [by rw length_contents|].
  iApply (wp_store with "Hf"). iIntros "!> Hf".
  iMod (ghost_var_update_halves (pre ++ set_vec x q :: rest) with "Hels Hels'") as "[Hels Hels']".
  iDestruct (words_halves with "Hnew") as "[Hnew Hnew']".
  iModIntro. iSplitR "HΦ Hds Hels Hgr Hnew'".
  - iNext. iExists reg, _, ds, true. iFrame "Hvars Hds' Hels' Hgr' Hreg Hc Hn Hcnt".
    rw !fmap_app !fmap_cons big_sepL_app big_sepL_cons. iFrame "Hdom Hpre Hrest".
    iExists w, m. iSplit; [done|]. iFrame "Hf Hnew Hdef". destruct m as [|p i v| |]; try done.
    + iDestruct "Hm" as "[%Hi Hm]". iSplit; [done|]. iRight. iDestruct "Hm" as "[->|$]".
      iExists (1/2)%Qp. by iDestruct (words_acc with "Hw") as "[$ _]".
    + by iDestruct "Hm" as %[? _].
  - iApply ("HΦ" with "[$Hds $Hels $Hgr]"). iExists _. by iFrame "Hnew'".
Qed.

Lemma wp_grow_element ds (sz sz' : nat) pre x rest nx :
  size_ok sz → (sz ≤ sz')%nat →
  is_tlv -∗ shared ds (pre ++ x :: rest) true -∗ elem_res ds sz x ∗ half ds x -∗
  element_next (e_node x) ↦ nx -∗
  WP (grow_element sz' (e_node x) : expr threads) {{ r, ⌜r = nx⌝ ∗ element_next (e_node x) ↦ nx ∗
    ∃ x', ⌜e_node x' = e_node x⌝ ∗ shared ds (pre ++ x' :: rest) true ∗
      elem_res ds sz' x' ∗ half ds x' }}.
Proof.
  iIntros (Hsz Hle) "#Hinv Hsh [(%Hpos & H0 & H1 & H2 & H3 & %tail & %Hlen & Htail) (%l & %Hl & Hw)] Hnx".
  unfold size_ok in Hsz. unfold grow_element. iApply wp_seq. iApply (wp_load with "H2").
  iIntros "!> H2 !>". iApply wp_seq. unfold grow_tlv_vector. iApply wp_seq.
  iApply wp_make_vector; [lia|]. iIntros (q [Hq Hsz']) "Hqs Hqw !>".
  iDestruct (words_halves with "Htail") as "[Htail _]".
  rw -{1}Hl. iDestruct (words_app with "[$Hw $Htail]") as "Hw".
  iApply wp_seq. iApply (wp_copy_tlv_vector with "H3 Hw Hqw").
  { rw length_app. lia. } { by rw length_replicate. } { lia. }
  iIntros (r) "_ Hw Hqw !>". iApply wp_ret. iIntros "!>". clear r.
  iDestruct (words_app with "Hw") as "[Hw _]". rw -app_assoc.
  iDestruct (words_app with "Hqw") as "[Hqw Hqt]".
  iApply wp_seq. iApply (wp_store with "H2"). iIntros "!> H2 !>".
  iApply wp_seq. iApply (wp_load with "H1"). iIntros "!> H1 !>".
  iApply wp_seq. iApply (wp_load with "H2"). iIntros "!> H2 !>".
  iApply wp_seq. iApply (wp_swap_vector with "Hinv Hsh Hw Hqw"); [done|].
  iIntros (r) "Hsh Hhalf !>". iApply (wp_load with "Hnx"). iIntros "!> $". iSplit; [done|].
  iExists (set_vec x q). iSplit; [done|]. iFrame "Hsh Hhalf H0 H1 H2 Hqs". iSplit; [done|].
  iExists _. rw Hl. iFrame "Hqt". iPureIntro.
  rw length_app length_drop length_replicate. lia.
Qed.

Lemma wp_grow_all ds els (sz : nat) Φ :
  size_ok sz →
  is_tlv -∗ shared ds els false -∗ default_res ds sz -∗ links els -∗
  ([∗ list] x ∈ els, elem_res ds sz x) -∗
  (∀ els' r, ⌜size_ok (sz + sz)⌝ -∗ shared ds els' false -∗ default_res ds (sz + sz) -∗
    links els' -∗ ([∗ list] x ∈ els', elem_res ds (sz + sz) x) -∗ Φ r) -∗
  WP (grow_all_tlv_vectors (sz + sz)%nat : expr threads) {{ Φ }}.
Proof.
  iIntros (Hsz) "#Hinv Hsh (%dv & %tail & Hdv & Hds & Hdw & %Hlen) [Hhead Hnexts] Hels HΦ".
  unfold size_ok in Hsz. unfold grow_all_tlv_vectors, Do. iApply wp_seq.
  iAssert (WP (Bind (atomic_cas tlv_writer_counter TLV_GROW 0)
      (λ r, While (λ r, negb (r =? 0)) r (λ _, atomic_cas tlv_writer_counter TLV_GROW 0))
    : expr threads) {{ _, shared ds els true ∗ [∗ list] x ∈ els, half ds x }})%I
    with "[Hsh]" as "Hstart".
  { iApply wp_seq. iApply (wp_start_growing with "Hinv Hsh"). iIntros (r) "H !>".
    iApply (wp_while_inv (λ r : val threads, ⌜r ≠ 0⌝ ∗ shared ds els false ∨
      ⌜r = 0⌝ ∗ shared ds els true ∗ [∗ list] x ∈ els, half ds x)%I with "H").
    - iIntros "!>" (y Hy) "[[_ Hsh]|[-> _]]"; [|done].
      iApply (wp_start_growing with "Hinv Hsh"). by iIntros (z) "?".
    - iIntros (y Hy) "[[%N0 _]|[_ $]]". simpl in Hy. lia. }
  iApply (wp_wand with "Hstart"). iIntros (r) "[Hsh Hhalf] !>". clear r.
  iApply wp_seq. iApply wp_make_vector; [lia|]. iIntros (q [Hq Hsz']) "Hqs Hqw !>".
  iApply wp_seq. iApply (wp_load with "Hdv"). iIntros "!> Hdv !>".
  iApply wp_seq. iApply (wp_copy_tlv_vector with "Hds Hdw Hqw").
  { by rw length_app. } { rw length_replicate. lia. } { lia. }
  iIntros (r) "_ _ Hqw !>". clear r.
  iApply wp_seq. iApply (wp_store with "Hdv"). iIntros "!> Hdv !>".
  iApply wp_seq. iApply (wp_load with "Hhead"). iIntros "!> Hhead !>".
  iApply wp_seq.
  iApply (wp_elements (λ els, shared ds els true) (λ x, elem_res ds sz x ∗ half ds x)%I
    (λ x, elem_res ds (sz + sz) x ∗ half ds x)%I with "[] Hsh Hnexts [Hels Hhalf]").
  { iIntros (x) "[Hx _]". by iApply elem_res_pos. }
  { iIntros "!>" (pre x rest nx) "Hsh Hx Hnx".
    iApply (wp_grow_element with "Hinv Hsh Hx Hnx"); [done|lia]. }
  { rw big_sepL_sep. iFrame. }
  iIntros (els' r) "Hsh Hnexts %Hhd Hels !>". clear r. rw big_sepL_sep.
  iDestruct "Hels" as "[Hels Hhalf]".
  iApply wp_seq. iApply (wp_stop_growing with "Hinv Hsh Hhalf"). iIntros (r) "H !>".
  iApply (wp_while_inv (λ r : val threads,
    ⌜r ≠ TLV_GROW⌝ ∗ shared ds els' true ∗ ([∗ list] x ∈ els', half ds x) ∨
    ⌜r = TLV_GROW⌝ ∗ shared ds els' false)%I with "H").
  - iIntros "!>" (y Hy) "[(_ & Hsh & Hhalf)|[-> _]]"; [|done].
    iApply (wp_stop_growing with "Hinv Hsh Hhalf"). by iIntros (z) "?".
  - iIntros (y Hy) "[[%N0 _]|[_ Hsh]]"; [simpl in Hy; lia|].
    iApply ("HΦ" $! els' with "[//] Hsh [Hdv Hqs Hqw] [Hhead Hnexts] Hels").
    + iExists q, _. iFrame "Hdv Hqs". rw -app_assoc. iFrame "Hqw". iPureIntro.
      rw length_app length_drop length_replicate. lia.
    + unfold links. rw Hhd. iFrame.
Qed.

Lemma wp_allocate_thread_variable vars v Φ :
  is_tlv -∗ is_list_lock -∗ known vars -∗ (∀ h, ⌜vars !! h = None⌝ -∗ variable h v -∗ Φ h) -∗
  WP (primitive_allocate_thread_variable v : expr threads) {{ Φ }}.
Proof.
  iIntros "#Hinv #Hlock #Hknown HΦ". unfold primitive_allocate_thread_variable.
  iApply wp_seq. iApply (wp_mutex_lock with "Hlock").
  iIntros "Hl (%ds & %els & %sz & Hsh & Hoff & %Hsz & Hdef & Hlinks & Hels) !>".
  iApply wp_seq. iApply (wp_load with "Hoff"). iIntros "!> Hoff !>".
  iApply wp_seq. iApply (wp_store with "Hoff"). iIntros "!> Hoff !>".
  iDestruct "Hdef" as (dv tail) "(Hdv & Hds & Hdw & %Hlen)".
  iApply wp_seq. iApply (wp_load with "Hdv"). iIntros "!> Hdv !>".
  iApply wp_seq. iApply (wp_load with "Hds"). iIntros "!> Hds !>".
  pose proof Hsz as [H0 H1]. rw (size_I sz H1).
  iAssert (WP (If (sz + 2 <=? 2 + length ds) (grow_all_tlv_vectors (Z.of_nat sz + sz)) : expr threads)
    {{ _, ∃ els sz, ⌜size_ok sz ∧ (length ds < sz)%nat⌝ ∗ shared ds els false ∗
      default_res ds sz ∗ links els ∗ [∗ list] x ∈ els, elem_res ds sz x }})%I
    with "[Hsh Hdv Hds Hdw Hlinks Hels]" as "Hgrow".
  { unfold If. rw -Nat2Z.inj_add. destruct (Z.leb_spec (sz + 2) (2 + length ds)).
    - iApply (wp_grow_all with "Hinv Hsh [Hdv Hds Hdw] Hlinks Hels"); [done| |].
      + iExists dv, tail. by iFrame.
      + iIntros (els' r Hsz') "Hsh Hdef Hlinks Hels". iExists els', (sz + sz)%nat. iFrame.
        iPureIntro. split; [done|lia].
    - iApply wp_ret. iExists els, sz. iFrame. iPureIntro. split_and!; [done|lia|done]. }
  iApply wp_seq. iApply (wp_wand with "Hgrow"). clear Hsz Hlen H0 H1 dv tail els sz.
  iIntros (r) "(%els & %sz & (%Hsz & %Hlt) & Hsh & (%dv & %tail & Hdv & Hds & Hdw & %Hlen) & Hlinks & Hels) !>".
  clear r. iApply wp_seq. iApply (wp_load with "Hdv"). iIntros "!> Hdv !>".
  destruct tail as [|u tail]; [simpl in Hlen; lia|]. rw idx_cell.
  iDestruct (words_app with "Hdw") as "[Hdw Hdt]". rw words_cons. iDestruct "Hdt" as "[Hu Hdt]".
  iApply wp_seq. iApply (wp_store with "Hu"). iIntros "!> Hu !>".
  iApply wp_seq. iApply (wp_update_tlv_vectors with "Hlinks Hels"); [done|].
  iIntros (r) "Hlinks Hels !>". clear r. rw big_sepL_sep. iDestruct "Hels" as "[Hels Hcells]".
  iApply fupd_wp. iMod (publish_variable with "Hinv Hknown Hsh Hcells")
    as "(Hsh & %Hnew & Hv)". iModIntro.
  iApply wp_seq. iApply (wp_mutex_unlock with "Hlock Hl [-HΦ Hv]").
  - iExists (ds ++ [v]), els, sz. iFrame "Hsh Hlinks Hels". iSplitL "Hoff".
    { rw length_app /=. by replace (2 + (length ds + 1)%nat) with (2 + length ds + 1) by lia. }
    iSplit; [done|]. iExists dv, tail. iFrame "Hdv Hds". iSplit.
    + rw -app_assoc /=. iApply words_app. iFrame "Hdw". iApply words_cons. iFrame.
    + iPureIntro. rw length_app /=. simpl in Hlen. lia.
  - iIntros "!>". iApply wp_ret. by iApply ("HΦ" with "[//]").
Qed.
End tlv.
