(* ===== verification/TlvClients.v ===== *)
(** * Programs that use thread variables

    A client allocates, reads and writes thread variables and starts threads that
    do the same; it runs on the primitives of [Tlv.v].  Its specification gives
    every thread a memory of its own.  The theorem is that all interleavings
    agree with it. *)

From S2P Require Import Prelude Memory Tagging Concur ConcurLogic Tlv TlvLaws.
From stdpp Require Import base tactics option list numbers gmap fin_maps.
From Stdlib Require Import ZArith Lia.
From iris.proofmode Require Import proofmode.
From iris.algebra Require Import auth numbers.
From iris.base_logic.lib Require Import invariants token ghost_map ghost_var own.
From iris.program_logic Require Import weakestpre adequacy.

Local Open Scope Z_scope.

(** ** Clients *)

Inductive client :=
| Done (v : Z)
| Crash
| Read_variable (h : Z) (k : Z → client)
| Write_variable (h v : Z) (k : client)
| Allocate_variable (v : Z) (k : Z → client)
| Start_thread (r : pthread_results) (c : client) (k : Z → client).

(** The client of the thread whose block is [teb].  To crash is to touch [NULL].
    A thread that was started stays when its client is done; thread objects have
    eight words. *)
Fixpoint run_client (c : client) (teb : Z) : prog :=
  match c with
  | Done v => Ret v
  | Crash => Act (Load NULL)
  | Read_variable h k =>
      v <~ primitive_read_thread_variable teb h;; run_client (k v) teb
  | Write_variable h v k =>
      primitive_write_thread_variable teb h v;;; run_client k teb
  | Allocate_variable v k =>
      h <~ primitive_allocate_thread_variable v;; run_client (k h) teb
  | Start_thread r c k =>
      thread <~ Act (Allocate (replicate 8 0));;
      res <~ primitive_make_thread r 0 thread (λ teb, run_client c teb;;; halt);;
      run_client (k res) teb
  end.

(** The process: its initial thread runs [c]. *)
Definition process (c : client) : prog :=
  teb <~ initialize_threads_primitives;; run_client c teb.

(** What a client does when its thread's variables are a memory [w] nobody else
    sees: reading a variable it knows of ([vars], with their defaults) gives what
    the thread wrote last, or the default.  At most [n] threads are started, by
    it or by the threads it starts; [Φ] holds of its result, and none of them
    crashes or uses a handle it was not given. *)
Fixpoint client_spec (c : client) (n : nat) (vars w : gmap Z Z) (Φ : Z → Prop) : Prop :=
  match c with
  | Done v => Φ v
  | Crash => False
  | Read_variable h k =>
      ∃ d, vars !! h = Some d ∧ client_spec (k (default d (w !! h))) n vars w Φ
  | Write_variable h v k =>
      is_Some (vars !! h) ∧ client_spec k n vars (<[h := v]> w) Φ
  | Allocate_variable v k =>
      ∀ h, vars !! h = None → client_spec (k h) n (<[h := v]> vars) w Φ
  | Start_thread _ c k =>
      ∃ i j, n = S (i + j) ∧
        client_spec c i vars ∅ (λ _, True) ∧
        client_spec (k OK) j vars w Φ ∧ client_spec (k CREATE_ERROR) j vars w Φ
  end.

(** ** Clients meet their specification *)

(** The thread's writes by handle and by index. *)
Definition same_writes (vars w : gmap Z Z) (w' : gmap nat Z) : Prop :=
  (∀ i : nat, w' !! i = w !! (2 + Z.of_nat i)) ∧ (∀ h, vars !! h = None → w !! h = None).

Lemma same_writes_write vars w w' (i : nat) v :
  is_Some (vars !! (2 + Z.of_nat i)) → same_writes vars w w' →
  same_writes vars (<[2 + Z.of_nat i := v]> w) (<[i := v]> w').
Proof.
  intros [d Hd] [H1 H2]. split.
  - intros j. destruct (decide (i = j)) as [<-|N]; [by rw !lookup_insert_eq|].
    rw !lookup_insert_ne; [apply H1|lia|done].
  - intros h Hh. rw lookup_insert_ne; [by apply H2|congruence].
Qed.

Lemma same_writes_allocate vars w w' h v :
  same_writes vars w w' → same_writes (<[h := v]> vars) w w'.
Proof.
  intros [H1 H2]. split; [done|]. intros j [Hj _]%lookup_insert_None. by apply H2.
Qed.

Lemma idx_0 a : idx a 0 = a.
Proof. unfold idx. lia. Qed.
Lemma idx_1 a : idx a 1 = a + 8.
Proof. unfold idx. lia. Qed.
Lemma idx_2 a : idx a 2 = a + 8 + 8.
Proof. unfold idx. lia. Qed.

Section clients.
Context `{!tlvGS Σ} (g : names) (N : nat).
Hypothesis few_threads : N < 1999999.

(** The right to start [n] more threads. *)
Definition permits (n : nat) : iProp Σ := own (n_count g) (◯ n).

Lemma permits_split i j : permits (i + j) ⊣⊢ permits i ∗ permits j.
Proof. unfold permits. by rw -own_op -auth_frag_op. Qed.

Lemma known_allocate vars h d :
  vars !! h = None → known g vars -∗ variable g h d -∗ known g (<[h := d]> vars).
Proof. iIntros (H) "#Hk #Hv". unfold known. rw big_sepM_insert //. by iFrame "#". Qed.

(** A thread whose function does not return. *)
Lemma wp_trampoline fuel th t f Φ :
  is_tlv g N -∗ is_list_lock g -∗ permits 1 -∗
  thread_handle2 th ↦ t -∗ words t 1 [0; 0; 0] -∗
  (∀ teb, thread g teb ∅ -∗ WP (f teb : expr threads) {{ _, False }}) -∗
  WP (trampoline fuel th f : expr threads) {{ Φ }}.
Proof.
  iIntros "#Hinv #Hlock Hp H2 Hr Hf". unfold trampoline. rw !words_cons.
  iDestruct "Hr" as "(_ & Hr & _)".
  iApply wp_seq. iApply (wp_load with "H2"). iIntros "!> H2 !>".
  iApply wp_seq. iApply wp_allocate. iIntros "!>" (teb Hteb) "Hteb !>".
  rw words_cons. iDestruct "Hteb" as "[Hteb _]".
  iApply wp_seq. iApply (wp_store with "[Hr]"). { by rw /rthread_teb idx_1. }
  iIntros "!> Hr !>".
  iApply wp_seq. iApply (wp_setup_tlv_vector with "Hinv Hlock Hp [Hteb]").
  { by rw /teb_tlv_vector idx_0. }
  iIntros (r) "Ht !>". iApply wp_seq. iApply (wp_wand with "[Ht Hf]"); [by iApply "Hf"|].
  by iIntros (v) "?".
Qed.

Lemma wp_make_thread r fuel th a b f Φ :
  is_tlv g N -∗ is_list_lock g -∗ permits 1 -∗ thread_handle1 th ↦ a -∗ thread_handle2 th ↦ b -∗
  (∀ teb, thread g teb ∅ -∗ WP (f teb : expr threads) {{ _, False }}) -∗
  (∀ res, ⌜res = OK ∨ res = CREATE_ERROR⌝ -∗ Φ res) -∗
  WP (primitive_make_thread r fuel th f : expr threads) {{ Φ }}.
Proof.
  iIntros "#Hinv #Hlock Hp H1 H2 Hf HΦ". unfold primitive_make_thread.
  iApply wp_seq. iApply wp_allocate. iIntros "!>" (t Ht) "Hr !>".
  iApply wp_seq. iApply (wp_store with "H1"). iIntros "!> H1 !>".
  iApply wp_seq. iApply (wp_store with "H2"). iIntros "!> H2 !>".
  assert (∀ Ψ : val threads → iProp Σ, (∀ res, ⌜res = OK ∨ res = CREATE_ERROR⌝ -∗ Ψ res) -∗
    WP (Ret CREATE_ERROR : expr threads) {{ Ψ }}) as Herr.
  { iIntros (Ψ) "H". iApply wp_ret. iApply "H". auto. }
  destruct (negb (pthread_attr_init r =? 0)); [by iApply Herr|].
  destruct (negb (pthread_attr_setdetachstate r =? 0)); [by iApply Herr|].
  destruct (negb (pthread_create r =? 0)); [by iApply Herr|].
  iApply wp_seq. iApply (wp_fork with "[Hp H2 Hr Hf]").
  - iNext. iApply (wp_trampoline with "Hinv Hlock Hp H2 Hr Hf").
  - iIntros "!> !>". destruct (negb (pthread_attr_destroy r =? 0)); [by iApply Herr|].
    iApply wp_ret. iApply "HΦ". auto.
Qed.

Lemma wp_client c n vars w w' t (φ : Z → Prop) :
  same_writes vars w w' → client_spec c n vars w φ →
  is_tlv g N -∗ is_list_lock g -∗ known g vars -∗ thread g t w' -∗ permits n -∗
  WP (run_client c t : expr threads) {{ v, ⌜φ v⌝ }}.
Proof.
  iIntros (Hw Hc) "#Hinv #Hlock #Hknown Ht Hn".
  iInduction c as [v| |h k IH|h v k IH|v k IH|r c IHc k IHk] forall (n vars w w' t φ Hw Hc) "Hknown";
    cbn [run_client]; simpl in Hc.
  - iApply wp_ret. done.
  - done.
  - destruct Hc as (d & Hd & Hc). iDestruct (big_sepM_lookup with "Hknown") as "#Hv"; [exact Hd|].
    iApply wp_seq. iApply (wp_read_thread_variable with "Hinv Ht Hv"). iIntros "Ht !>".
    iDestruct "Hv" as (i Hi) "_". subst h.
    replace (Z.to_nat (2 + i - 2)) with i by lia. rw (proj1 Hw i).
    by iApply ("IH" with "[//] [//] Ht Hn").
  - destruct Hc as [[d Hd] Hc]. iDestruct (big_sepM_lookup with "Hknown") as "#Hv"; [exact Hd|].
    iApply wp_seq. iApply (wp_write_thread_variable with "Hinv Hlock Ht Hv"); [done|].
    iIntros "Ht !>".
    iDestruct "Hv" as (i Hi) "_". subst h. replace (Z.to_nat (2 + i - 2)) with i by lia.
    iApply ("IH" with "[%] [//] Ht Hn [//]"). by apply same_writes_write.
  - iApply wp_seq. iApply (wp_allocate_thread_variable with "Hinv Hlock Hknown").
    iIntros (h) "%Hh #Hv !>".
    iApply ("IH" with "[%] [%] Ht Hn"); [by apply same_writes_allocate|by apply Hc|].
    iModIntro. by iApply (known_allocate with "Hknown Hv").
  - destruct Hc as (i & j & -> & Hc & Hk & Hk').
    replace (S (i + j)) with (1 + (i + j))%nat by lia. rw !permits_split.
    iDestruct "Hn" as "(Hp & Hi & Hj)".
    iApply wp_seq. iApply wp_allocate. iIntros "!>" (th Hth) "Hth !>". rw !words_cons.
    iDestruct "Hth" as "(_ & H1 & H2 & _)".
    iApply wp_seq. iApply (wp_make_thread with "Hinv Hlock Hp [H1] [H2] [Hi]").
    { by rw /thread_handle1 idx_1. } { by rw /thread_handle2 idx_2. }
    + iIntros (teb) "Ht". iApply wp_seq. iApply (wp_wand with "[Ht Hi]").
      * iApply ("IHc" with "[%] [//] Ht Hi Hknown"). split; [done|]. intros; apply lookup_empty.
      * iIntros (v) "_ !>". iApply wp_halt.
    + iIntros (res) "%Hres !>".
      iApply ("IHk" with "[//] [%] Ht Hj Hknown"). by destruct Hres as [-> | ->].
Qed.
End clients.

(** ** The start of the process *)

(** The globals, with the first default vector in place, make the invariant and
    the lock. *)
Lemma start_tlv `{!tlvGS Σ} (N : nat) dv :
  tlv_writer_counter ↦ 0 -∗ tlv_vector_list_lock ↦ 0 -∗ tlv_vector_list ↦ NULL -∗
  TLV_vector_offset ↦ 2 -∗ default_tlv_vector ↦ dv -∗ idx dv 1 ↦ I TLV_VECTOR_INITIAL_SIZE -∗
  words (idx dv 2) 1 (replicate (Z.to_nat TLV_VECTOR_INITIAL_SIZE) KPunboundVKi) ={⊤}=∗
  ∃ g, is_tlv g N ∗ is_list_lock g ∗ permits g N.
Proof.
  iIntros "Hc Hl Hlist Hoff Hdv Hsz Hw".
  iMod (ghost_map_alloc_empty (K := nat) (V := Z)) as (vars) "Hvars".
  iMod (ghost_map_alloc_empty (K := Z) (V := tstate)) as (reg) "Hreg".
  iMod (ghost_var_alloc (@nil Z)) as (ds) "Hds".
  iMod (ghost_var_alloc (@nil elt)) as (els) "Hels".
  iMod (ghost_var_alloc false) as (gr) "Hgr".
  iMod (own_alloc (● N ⋅ ◯ N)) as (count) "[HN Hn]"; [by apply auth_both_valid_discrete|].
  iDestruct "Hds" as "[Hds Hds']". iDestruct "Hels" as "[Hels Hels']".
  iDestruct "Hgr" as "[Hgr Hgr']".
  set (g0 := mkNames vars reg ds els gr count count).
  iMod (mutex_alloc _ (lock_res g0) with "Hl [Hds Hels Hgr Hlist Hoff Hdv Hsz Hw]") as (l) "#Hlock".
  { iExists [], [], 20%nat. iFrame "Hds Hels Hgr Hoff Hlist". iSplit; [done|]. iSplitL; [|by iSplit].
    iExists dv, _. by iFrame "Hdv Hsz Hw". }
  set (g := mkNames vars reg ds els gr count l).
  iDestruct (permits_split g 0 N with "Hn") as "[H0 Hn]".
  iMod (inv_alloc tlvN _ (tlv_state g N) with "[-Hn]") as "#Hinv".
  { iNext. iExists ∅, [], [], false. iFrame "Hvars Hds' Hels' Hgr' Hreg HN H0 Hc".
    iSplit; [|done]. iPureIntro. split; [constructor|]. by rw dom_empty_L. }
  iModIntro. iExists g. by iFrame "Hn Hinv Hlock".
Qed.

Lemma wp_initialize `{!tlvGS Σ} (N : nat) Φ :
  N < 1999999 → (0 < N)%nat →
  tlv_writer_counter ↦ 0 -∗ tlv_vector_list_lock ↦ 0 -∗ default_tlv_vector ↦ NULL -∗
  tlv_vector_list ↦ NULL -∗ TLV_vector_offset ↦ 2 -∗
  (∀ g t, is_tlv g N -∗ is_list_lock g -∗ permits g (N - 1) -∗ thread g t ∅ -∗ Φ t) -∗
  WP (initialize_threads_primitives : expr threads) {{ Φ }}.
Proof.
  iIntros (HN H0) "Hc Hl Hd Hlist Hoff HΦ". unfold initialize_threads_primitives.
  change TLV_VECTOR_INITIAL_SIZE with (Z.of_nat 20).
  iApply wp_seq. iApply (wp_make_vector N); [lia|]. iIntros (dv _) "Hsz Hw !>".
  iApply wp_seq. iApply (wp_store with "Hd"). iIntros "!> Hd !>".
  iApply fupd_wp. iMod (start_tlv with "Hc Hl Hlist Hoff Hd Hsz Hw") as (g) "(#Hinv & #Hlock & Hn)".
  iModIntro. iAssert (permits g 1 ∗ permits g (N - 1))%I with "[Hn]" as "[Hp Hn]".
  { rw -permits_split. by replace (1 + (N - 1))%nat with N by lia. }
  iApply wp_seq. iApply wp_allocate. iIntros "!>" (t Ht) "Ht !>". rw words_cons.
  iDestruct "Ht" as "[Ht _]".
  iApply wp_seq. iApply (wp_setup_tlv_vector with "Hinv Hlock Hp [Ht]").
  { by rw /teb_tlv_vector idx_0. }
  iIntros (r) "Ht !>". iApply wp_ret. by iApply ("HΦ" with "Hinv Hlock Hn Ht").
Qed.

Definition tlvΣ : gFunctors :=
  #[invΣ; ghost_mapΣ Z Z; tokenΣ; ghost_mapΣ nat Z; ghost_mapΣ Z tstate; ghost_varΣ (list Z);
    ghost_varΣ (list elt); ghost_varΣ bool; GFunctor (authR natUR)].

Class tlvGpreS (Σ : gFunctors) := TlvGpreS {
  #[global] pre_inv :: invGpreS Σ;
  #[global] pre_heap :: ghost_mapG Σ Z Z;
  #[global] pre_token :: tokenG Σ;
  #[global] pre_vars :: ghost_mapG Σ nat Z;
  #[global] pre_reg :: ghost_mapG Σ Z tstate;
  #[global] pre_ds :: ghost_varG Σ (list Z);
  #[global] pre_els :: ghost_varG Σ (list elt);
  #[global] pre_grow :: ghost_varG Σ bool;
  #[global] pre_count :: inG Σ (authR natUR)
}.

#[export] Instance subG_tlv Σ : subG tlvΣ Σ → tlvGpreS Σ.
Proof. solve_inG. Qed.

Lemma initial_fresh : cfresh initial_cstate.
Proof.
  split; [done|]. intros a Ha. simpl in *. unfold tlv_writer_counter, tlv_vector_list_lock,
    default_tlv_vector, tlv_vector_list, TLV_vector_offset, thread_join_lock.
  rw !lookup_insert_ne; [|lia..]. apply lookup_empty.
Qed.

(** The process, from the memory it starts with. *)
Lemma wp_process `{!tlvGS Σ} (n : nat) c (φ : Z → Prop) :
  n < 1999998 → client_spec c n ∅ ∅ φ →
  ([∗ map] a ↦ v ∈ cmem initial_cstate, a ↦ v) -∗
  WP (process c : expr threads) {{ v, ⌜φ v⌝ }}.
Proof.
  iIntros (Hn Hc) "Hm". simpl cmem. rw !big_sepM_insert // big_sepM_empty.
  iDestruct "Hm" as "(Hc & Hl & Hd & Hlist & Hoff & Hj & _)".
  iApply wp_seq. iApply (wp_initialize (S n) with "Hc Hl Hd Hlist Hoff"); [lia|lia|].
  iIntros (g t) "Hinv Hlock Hp Ht !>". rw Nat.sub_succ Nat.sub_0_r.
  iApply (wp_client g (S n) ltac:(lia) c n ∅ ∅ ∅ with "Hinv Hlock [] Ht Hp"); [|done|].
  - split; intros; apply lookup_empty.
  - by rw /known big_sepM_empty.
Qed.

Lemma process_adequate (n : nat) (c : client) (φ : Z → Prop) :
  n < 1999998 → client_spec c n ∅ ∅ φ →
  adequate NotStuck (process c : expr threads) initial_cstate (λ v _, φ v).
Proof.
  intros Hn Hc. apply (wp_adequacy tlvΣ threads). intros Hinv κs.
  iMod (ghost_map_alloc (cmem initial_cstate)) as (heap) "[Hs Hm]".
  iModIntro. iExists (λ s _, ghost_map_auth heap 1 (cmem s) ∗ ⌜cfresh s⌝)%I, (λ _, True)%I.
  iFrame "Hs". iSplit; [iPureIntro; apply initial_fresh|].
  iPoseProof (@wp_process tlvΣ (TlvGS tlvΣ (ConcurGS tlvΣ Hinv _ heap _) _ _ _ _ _ _) n c φ Hn Hc)
    as "H".
  iApply ("H" with "Hm").
Qed.

(** C3: For every program whose threads allocate, read and write thread
    variables and start further threads, and every interleaving of their
    atomic actions, the vectors being replaced while they run included: a
    thread that respects its specification (each thread reads what it last
    wrote to a variable, or the variable's default, as if it had a memory of
    its own) never gets stuck, and a result of the initial thread is one the
    specification allows. The program starts fewer than 1,999,998 threads,
    which do not exit; each step is one action. *)
Theorem thread_variables_are_private (n : nat) (c : client) (φ : Z → Prop) (l : list nat) ps s :
  n < 1999998 → client_spec c n ∅ ∅ φ →
  run_schedule l ([process c], initial_cstate) = Some (ps, s) →
  (∀ v, ps !! 0%nat = Some (Ret v) → φ v) ∧ Forall (λ p, is_stuck p s = false) ps.
Proof.
  intros Hn Hc. apply adequate_schedule. by apply (process_adequate n).
Qed.

(** The initial thread allocates two variables, starts a thread that writes both
    of them, writes the first itself and reads both. *)
Definition two_threads : client :=
  Allocate_variable 41 (λ h1, Allocate_variable 42 (λ h2,
    Start_thread (mkResults 0 0 0 0)
      (Write_variable h1 1 (Write_variable h2 2 (Read_variable h1 (λ v,
        if v =? 1 then Done 0 else Crash))))
      (λ _, Write_variable h1 43 (Read_variable h1 (λ v1, Read_variable h2 (λ v2,
        Done (v1 + v2))))))).

(** The initial thread by itself until it has started the other one, which runs
    by itself until it has its vector; then they take turns to the end. *)
Definition in_turn : list nat :=
  replicate 240 0%nat ++ replicate 170 1%nat ++ concat (replicate 20 [1%nat; 0%nat]).

Lemma two_threads_spec : client_spec two_threads 1 ∅ ∅ (λ v, v = 85).
Proof.
  intros h1 _ h2 Hh. rw lookup_insert_None in Hh. destruct Hh as [_ Hh].
  exists 0%nat, 0%nat. split; [done|]. split; simpl.
  - repeat split; try (eexists; by simplify_map_eq).
  - split; (split; [eexists; by simplify_map_eq|]; exists 41; split; [by simplify_map_eq|];
      exists 42; split; by simplify_map_eq).
Qed.

Lemma two_threads_run :
  ∃ ps s, run_schedule in_turn ([process two_threads], initial_cstate) = Some (ps, s) ∧
    prog_to_val <$> ps = [Some 85; None].
Proof.
  apply (observe_schedule (λ r, prog_to_val <$> r.1)). vm_compute. reflexivity.
Qed.

Lemma thread_variables_are_private_witness :
  ∃ ps s, run_schedule in_turn ([process two_threads], initial_cstate) = Some (ps, s) ∧
    prog_to_val <$> ps = [Some 85; None] ∧
    ((∀ v, ps !! 0%nat = Some (Ret v) → v = 85) ∧ Forall (λ p, is_stuck p s = false) ps).
Proof.
  destruct two_threads_run as (ps & s & E & Hps). exists ps, s. split; [exact E|]. split; [exact Hps|].
  apply (thread_variables_are_private 1 two_threads (λ v, v = 85) in_turn ps s); [lia| |exact E].
  apply two_threads_spec.
Defined.

(** ** A thread that exits *)

(** The initial thread allocates a variable while another thread exits. *)
Definition exiting_thread : prog :=
  initialize_threads_primitives;;;
  thread <~ Act (Allocate (replicate 8 0));;
  primitive_make_thread (mkResults 0 0 0 0) 2 thread (λ _, Ret 0);;;
  primitive_allocate_thread_variable 41.

(** The exiting thread is in the list; the initial thread has read the head of
    the list when the other one, which takes no lock, cuts itself out. *)
Definition exit_schedule : list nat :=
  replicate 174 0%nat ++ replicate 163 1%nat ++ replicate 24 0%nat ++ replicate 33 1%nat.

(** remove_tlv_vector, which an exiting thread calls without the lock of
    the list of threads, can free the element that a thread allocating a
    variable is about to update: there is a schedule of two threads after
    which the allocating thread is stuck on freed memory. *)
Theorem thread_exit_races_with_allocation :
  ∃ ps s p, run_schedule exit_schedule ([exiting_thread], initial_cstate) = Some (ps, s) ∧
    ps !! 0%nat = Some p ∧ ps !! 1%nat = Some (Ret 0) ∧ is_stuck p s = true.
Proof.
  destruct (observe_schedule (λ r, (λ p, (is_stuck p r.2, prog_to_val p)) <$> r.1)
    exit_schedule ([exiting_thread], initial_cstate) [(true, None); (false, Some 0)])
    as (ps & s & E & Hps); [vm_compute; reflexivity|].
  destruct ps as [|p [|q [|]]]; try discriminate Hps. injection Hps as Hp _ _ Hq.
  exists [p; q], s, p. split; [exact E|]. split; [done|]. split; [|done].
  destruct q; try discriminate Hq. by injection Hq as ->.
Qed.
