(* ===== verification/Locks.v ===== *)
(** * Locks, semaphores, notifications and joins

    The synchronization primitives of [posix-threads.c] as programs of [Concur.v].
    A POSIX mutex of error-checking or recursive type is its documented behaviour
    over one word (the thread that holds it, or 0) or two (and a count), and a
    POSIX semaphore is its value; waiting is polling, and waiting for a condition
    variable may return at any time, as POSIX allows, so that signalling one does
    nothing.  A wait until a time whose nanoseconds are out of range is refused with
    [EINVAL].  A thread is named by its [TEB]. *)

From S2P Require Import Prelude Memory Tagging Concur Tlv.
From stdpp Require Import base tactics option list numbers gmap.
From Stdlib Require Import ZArith Lia.

Local Open Scope Z_scope.
Local Open Scope prog_scope.

(** ** Time *)

Record timespec := mkTime { tv_sec : Z; tv_nsec : Z }.

Definition timespec_add_msecs (tp : timespec) (msecs : Z) : timespec :=
  let secs := Z.quot msecs 1000 in
  let msecs := Z.rem msecs 1000 in
  let sec := tv_sec tp + secs in
  let nsec := tv_nsec tp + msecs * 1000000 in
  if 1000000000 <=? nsec then
    mkTime (sec + Z.quot nsec 1000000000) (Z.rem nsec 1000000000)
  else mkTime sec nsec.

(** What the pthread library takes for a time *)
Definition valid_time (tp : timespec) : bool := (0 <=? tv_nsec tp) && (tv_nsec tp <? 1000000000).

(** Adding a non-negative timeout in milliseconds to a valid time gives the
    valid time that is exactly that much later, without overflow. *)
Theorem timespec_add_msecs_exact tp msecs :
  0 <= tv_sec tp < 4611686018427387904 → 0 <= tv_nsec tp < 1000000000 →
  0 <= msecs < 2305843009213693952 →
  let r := timespec_add_msecs tp msecs in
  0 <= tv_nsec r < 1000000000 ∧ in_s64 (tv_sec r) ∧
  tv_sec r * 1000000000 + tv_nsec r = tv_sec tp * 1000000000 + tv_nsec tp + msecs * 1000000.
Proof.
  intros Hs Hn Hm. unfold timespec_add_msecs, in_s64.
  rewrite (Z.quot_div_nonneg msecs 1000), (Z.rem_mod_nonneg msecs 1000) by lia.
  destruct (Z.leb_spec 1000000000 (tv_nsec tp + msecs mod 1000 * 1000000)); cbn [tv_sec tv_nsec].
  - rewrite Z.quot_div_nonneg, Z.rem_mod_nonneg by (Z.to_euclidean_division_equations; lia).
    Z.to_euclidean_division_equations. lia.
  - Z.to_euclidean_division_equations. lia.
Qed.

Lemma timespec_add_msecs_exact_witness :
  timespec_add_msecs (mkTime 10 999000000) 2500 = mkTime 13 499000000 ∧
  let r := timespec_add_msecs (mkTime 10 999000000) 2500 in
  0 <= tv_nsec r < 1000000000 ∧ in_s64 (tv_sec r) ∧
  tv_sec r * 1000000000 + tv_nsec r = 10 * 1000000000 + 999000000 + 2500 * 1000000.
Proof.
  split; [reflexivity|]. apply (timespec_add_msecs_exact (mkTime 10 999000000) 2500); simpl; lia.
Defined.

(** ** The pthread library *)

Definition EPERM : Z := 1.
Definition EINTR : Z := 4.
Definition EAGAIN : Z := 11.
Definition EINVAL : Z := 22.
Definition EDEADLK : Z := 35.
Definition ETIMEDOUT : Z := 110.

(** Error-checking mutexes *)
Definition errorcheck_lock (self m : Z) : prog :=
  r <~ Do (Act (Compare_and_swap m self 0)) (λ r, negb ((r =? 0) || (r =? self)));;
  Ret (if r =? self then EDEADLK else 0).

Definition errorcheck_unlock (self m : Z) : prog :=
  o <~ Act (Load m);;
  if o =? self then Act (Store m 0);;; Ret 0 else Ret EPERM.

(** [n] more tries until the time [limit], that is looked at when the mutex cannot be
    locked at once *)
Fixpoint errorcheck_timedlock (limit : timespec) (n : nat) (self m : Z) : prog :=
  r <~ Act (Compare_and_swap m self 0);;
  if r =? self then Ret EDEADLK
  else if r =? 0 then Ret 0
  else if negb (valid_time limit) then Ret EINVAL
  else match n with O => Ret ETIMEDOUT | S n => errorcheck_timedlock limit n self m end.

(** Recursive mutexes: the count is the next word. *)
Definition recursive_lock (self m : Z) : prog :=
  o <~ Act (Load m);;
  if o =? self then
    c <~ Act (Load (m + 8));; Act (Store (m + 8) (c + 1));;; Ret 0
  else
    Do (Act (Compare_and_swap m self 0)) (λ r, negb (r =? 0));;;
    Act (Store (m + 8) 1);;; Ret 0.

Definition recursive_unlock (self m : Z) : prog :=
  o <~ Act (Load m);;
  if o =? self then
    c <~ Act (Load (m + 8));;
    Act (Store (m + 8) (c - 1));;;
    If (c =? 1) (Act (Store m 0));;;
    Ret 0
  else Ret EPERM.

Fixpoint recursive_tries (limit : timespec) (n : nat) (self m : Z) : prog :=
  r <~ Act (Compare_and_swap m self 0);;
  if r =? 0 then Act (Store (m + 8) 1);;; Ret 0
  else if negb (valid_time limit) then Ret EINVAL
  else match n with O => Ret ETIMEDOUT | S n => recursive_tries limit n self m end.

Definition recursive_timedlock (limit : timespec) (n : nat) (self m : Z) : prog :=
  o <~ Act (Load m);;
  if o =? self then
    c <~ Act (Load (m + 8));; Act (Store (m + 8) (c + 1));;; Ret 0
  else recursive_tries limit n self m.

(** Waiting for a condition variable with an error-checking mutex; the lock is
    taken again even when the time was up. *)
Definition errorcheck_cond_wait (self m result : Z) : prog :=
  o <~ Act (Load m);;
  if o =? self then
    Act (Store m 0);;;
    Do (Act (Compare_and_swap m self 0)) (λ r, negb (r =? 0));;;
    Ret result
  else Ret EPERM.

(** Until a time; [up]: whether it comes before a signal.  With an invalid time the
    mutex is kept. *)
Definition errorcheck_cond_timedwait (limit : timespec) (up : bool) (self m : Z) : prog :=
  if negb (valid_time limit) then Ret EINVAL
  else errorcheck_cond_wait self m (if up then ETIMEDOUT else 0).

(** With a mutex of the default type. *)
Definition pthread_cond_wait (m : Z) : prog :=
  pthread_mutex_unlock m;;; pthread_mutex_lock m.

Definition pthread_cond_signal : prog := Ret 0.
Definition pthread_cond_broadcast : prog := Ret 0.

(** Semaphores: one attempt to count off is 0, 1 when the semaphore is at zero, 2 when
    another thread was faster. *)
Definition SEM_VALUE_MAX : Z := 2147483647.

Definition sem_attempt (sema : Z) : prog :=
  v <~ Act (Load sema);;
  if v <=? 0 then Ret 1
  else r <~ Act (Compare_and_swap sema (v - 1) v);; Ret (if r =? v then 0 else 2).

(** 0, or [answer] when the semaphore was at zero [n] times more *)
Fixpoint sem_tries (n : nat) (answer sema : Z) : prog :=
  r <~ Do (sem_attempt sema) (λ r, r =? 2);;
  if r =? 0 then Ret 0
  else match n with O => Ret answer | S n => sem_tries n answer sema end.

(** 0 or the error.  [signal]: how often the semaphore is tried before a signal handler
    interrupts the wait, if one does. *)
Definition sem_wait (signal : option nat) (sema : Z) : prog :=
  match signal with
  | None => Do (sem_attempt sema) (λ r, negb (r =? 0))
  | Some n => sem_tries n EINTR sema
  end.

(** [n] more tries until the time [limit], or until a signal handler interrupts *)
Definition sem_timedwait (limit : timespec) (n : nat) (interrupted : bool) (sema : Z) : prog :=
  r <~ Do (sem_attempt sema) (λ r, r =? 2);;
  if r =? 0 then Ret 0
  else if negb (valid_time limit) then Ret EINVAL
  else sem_tries n (if interrupted then EINTR else ETIMEDOUT) sema.

(** 0, or -1 when the value would be too large. *)
Definition sem_post (sema : Z) : prog :=
  r <~ Do (v <~ Act (Load sema);;
           if v =? SEM_VALUE_MAX then Ret 1
           else r <~ Act (Compare_and_swap sema (v + 1) v);; Ret (if r =? v then 0 else 2))
    (λ r, r =? 2);;
  Ret (if r =? 0 then 0 else -1).

(** ** Return codes and containers *)

Definition GENERAL_ERROR : Z := I (-1).
Definition TIMEOUT : Z := I 1.
Definition NOT_LOCKED : Z := I 2.
Definition ALREADY_LOCKED : Z := I 2.
Definition COUNT_EXCEEDED : Z := I 3.

Definition IS_ZINT (x : Z) : bool := Z.land x 3 =? 1.

(** A failed assertion aborts: a state nothing may reach. *)
Definition assert (b : bool) : prog := If (negb b) (Act (Load NULL)).

(** [CONTAINER], [SIMPLELOCK], [RECURSIVELOCK] and [SEMAPHORE] *)
Definition container_handle (c : Z) : Z := idx c 1.
Definition slock_owner (s : Z) : Z := idx s 0.
Definition slock_mutex (s : Z) : Z := idx s 1.
Definition rlock_owner (r : Z) : Z := idx r 0.
Definition rlock_count (r : Z) : Z := idx r 1.
Definition rlock_mutex (r : Z) : Z := idx r 2.
Definition semaphore_mutex (s : Z) : Z := idx s 0.
Definition semaphore_count (s : Z) : Z := idx s 2.
Definition semaphore_max_count (s : Z) : Z := idx s 3.

(** The assertions on a container that every primitive starts with. *)
Definition assert_handle (c : Z) : prog :=
  assert (negb (c =? NULL));;;
  h <~ Act (Load (container_handle c));;
  assert (negb (h =? NULL)).

Definition get_handle (c : Z) : prog :=
  assert_handle c;;;
  Act (Load (container_handle c)).

(** What the library answers when a mutex is made; 0 is success. *)
Record mutex_results := mkMutexResults {
  pthread_mutexattr_init : Z;
  pthread_mutexattr_settype : Z;
  pthread_mutex_init : Z
}.

Definition mutex_made (r : mutex_results) : bool :=
  (pthread_mutexattr_init r =? 0) && (pthread_mutexattr_settype r =? 0) &&
  (pthread_mutex_init r =? 0).

(** ** Simple locks *)

Definition primitive_make_simple_lock (r : mutex_results) (lock : Z) : prog :=
  assert (negb (lock =? NULL));;;
  slock <~ Act (Allocate [0; 0]);;
  if slock =? NULL then Ret GENERAL_ERROR
  else if mutex_made r then
    Act (Store (slock_mutex slock) 0);;;
    Act (Store (slock_owner slock) 0);;;
    Act (Store (container_handle lock) slock);;;
    Ret OK
  else
    Act (Deallocate slock 2);;;
    Ret GENERAL_ERROR.

(** [res]: the answer of [pthread_mutex_destroy]. *)
Definition primitive_destroy_simple_lock (res lock : Z) : prog :=
  slock <~ get_handle lock;;
  if negb (res =? 0) then Ret GENERAL_ERROR
  else
    Act (Store (container_handle lock) NULL);;;
    Act (Deallocate slock 2);;;
    Ret OK.

Definition primitive_wait_for_simple_lock (teb lock : Z) : prog :=
  slock <~ get_handle lock;;
  res <~ errorcheck_lock teb (slock_mutex slock);;
  if res =? EDEADLK then Ret ALREADY_LOCKED
  else if negb (res =? 0) then Ret GENERAL_ERROR
  else
    Act (Store (slock_owner slock) teb);;;
    Ret OK.

(** [now] is the current time; [tries end] how often the mutex is tried before
    the time [end]. *)
Definition primitive_wait_for_simple_lock_timed (now : timespec) (tries : timespec → nat)
    (teb lock ms : Z) : prog :=
  assert_handle lock;;;
  assert (IS_ZINT ms);;;
  slock <~ Act (Load (container_handle lock));;
  let limit := timespec_add_msecs now (Z.shiftr (s64 ms) 2) in
  res <~ errorcheck_timedlock limit (tries limit) teb (slock_mutex slock);;
  if res =? ETIMEDOUT then Ret TIMEOUT
  else if res =? EDEADLK then Ret ALREADY_LOCKED
  else if negb (res =? 0) then Ret GENERAL_ERROR
  else
    Act (Store (slock_owner slock) teb);;;
    Ret OK.

Definition primitive_release_simple_lock (teb lock : Z) : prog :=
  slock <~ get_handle lock;;
  Act (Store (slock_owner slock) 0);;;
  res <~ errorcheck_unlock teb (slock_mutex slock);;
  if res =? EPERM then Ret NOT_LOCKED
  else if negb (res =? 0) then Ret GENERAL_ERROR
  else Ret OK.

Definition primitive_owned_simple_lock (teb lock : Z) : prog :=
  slock <~ get_handle lock;;
  owner <~ Act (Load (slock_owner slock));;
  if owner =? teb then Ret (I 1) else Ret (I 0).

Definition primitive_unlock_simple_lock (teb lock : Z) : prog :=
  slock <~ get_handle lock;;
  owner <~ Act (Load (slock_owner slock));;
  if owner =? 0 then Ret OK
  else
    Act (Store (slock_owner slock) 0);;;
    res <~ errorcheck_unlock teb (slock_mutex slock);;
    if negb (res =? 0) then Ret GENERAL_ERROR else Ret OK.

(** ** Notifications *)

(** [res]: the answer of [pthread_cond_init]. *)
Definition primitive_make_notification (res notif : Z) : prog :=
  assert (negb (notif =? NULL));;;
  notification <~ Act (Allocate [0]);;
  if notification =? NULL then Ret GENERAL_ERROR
  else if negb (res =? 0) then
    Act (Deallocate notification 1);;;
    Ret GENERAL_ERROR
  else
    Act (Store (container_handle notif) notification);;;
    Ret OK.

Definition primitive_destroy_notification (res notif : Z) : prog :=
  notification <~ get_handle notif;;
  if negb (res =? 0) then Ret GENERAL_ERROR
  else
    Act (Deallocate notification 1);;;
    Ret OK.

Definition primitive_wait_for_notification (teb notif lock : Z) : prog :=
  assert_handle notif;;;
  assert_handle lock;;;
  notification <~ Act (Load (container_handle notif));;
  slock <~ Act (Load (container_handle lock));;
  error <~ errorcheck_cond_wait teb (slock_mutex slock) 0;;
  if negb (error =? 0) then Ret GENERAL_ERROR else Ret OK.

(** [up end]: whether the time [end] comes before a signal. *)
Definition primitive_wait_for_notification_timed (now : timespec) (up : timespec → bool)
    (teb notif lock ms : Z) : prog :=
  assert_handle notif;;;
  assert_handle lock;;;
  assert (IS_ZINT ms);;;
  notification <~ Act (Load (container_handle notif));;
  slock <~ Act (Load (container_handle lock));;
  let limit := timespec_add_msecs now (Z.shiftr (s64 ms) 2) in
  res <~ errorcheck_cond_timedwait limit (up limit) teb (slock_mutex slock);;
  if res =? ETIMEDOUT then Ret TIMEOUT
  else if negb (res =? 0) then Ret GENERAL_ERROR
  else Ret OK.

Definition primitive_release_notification (notif lock : Z) : prog :=
  assert_handle notif;;;
  assert_handle lock;;;
  notification <~ Act (Load (container_handle notif));;
  r <~ pthread_cond_signal;;
  if negb (r =? 0) then Ret GENERAL_ERROR else Ret OK.

Definition primitive_release_all_notification (notif lock : Z) : prog :=
  assert_handle notif;;;
  assert_handle lock;;;
  notification <~ Act (Load (container_handle notif));;
  r <~ pthread_cond_broadcast;;
  if negb (r =? 0) then Ret GENERAL_ERROR else Ret OK.

(** ** Recursive locks *)

Definition primitive_make_recursive_lock (r : mutex_results) (lock : Z) : prog :=
  assert (negb (lock =? NULL));;;
  rlock <~ Act (Allocate [0; 0; 0; 0]);;
  if rlock =? NULL then Ret GENERAL_ERROR
  else if mutex_made r then
    Act (Store (rlock_mutex rlock) 0);;;
    Act (Store (rlock_owner rlock) 0);;;
    Act (Store (rlock_count rlock) 0);;;
    Act (Store (container_handle lock) rlock);;;
    Ret OK
  else
    Act (Deallocate rlock 4);;;
    Ret GENERAL_ERROR.

Definition primitive_destroy_recursive_lock (res lock : Z) : prog :=
  rlock <~ get_handle lock;;
  if negb (res =? 0) then Ret GENERAL_ERROR
  else
    Act (Deallocate rlock 4);;;
    Ret OK.

(** The lock has been taken. *)
Definition claim_recursive_lock (teb rlock : Z) : prog :=
  atomic_increment (rlock_count rlock);;;
  Act (Store (rlock_owner rlock) teb);;;
  Ret OK.

Definition primitive_wait_for_recursive_lock (teb lock : Z) : prog :=
  rlock <~ get_handle lock;;
  res <~ recursive_lock teb (rlock_mutex rlock);;
  if res =? EDEADLK then Ret ALREADY_LOCKED
  else if negb (res =? 0) then Ret GENERAL_ERROR
  else claim_recursive_lock teb rlock.

Definition primitive_wait_for_recursive_lock_timed (now : timespec) (tries : timespec → nat)
    (teb lock ms : Z) : prog :=
  assert_handle lock;;;
  assert (IS_ZINT ms);;;
  rlock <~ Act (Load (container_handle lock));;
  let limit := timespec_add_msecs now (Z.shiftr (s64 ms) 2) in
  res <~ recursive_timedlock limit (tries limit) teb (rlock_mutex rlock);;
  if res =? ETIMEDOUT then Ret TIMEOUT
  else if res =? EDEADLK then Ret ALREADY_LOCKED
  else if negb (res =? 0) then Ret GENERAL_ERROR
  else claim_recursive_lock teb rlock.

Definition primitive_release_recursive_lock (teb lock : Z) : prog :=
  rlock <~ get_handle lock;;
  res <~ recursive_unlock teb (rlock_mutex rlock);;
  if res =? EPERM then Ret NOT_LOCKED
  else if negb (res =? 0) then Ret GENERAL_ERROR
  else
    atomic_decrement (rlock_count rlock);;;
    Ret OK.

Definition primitive_owned_recursive_lock (teb lock : Z) : prog :=
  rlock <~ get_handle lock;;
  owner <~ Act (Load (rlock_owner rlock));;
  if owner =? teb then
    count <~ Act (Load (rlock_count rlock));;
    if negb (count =? 0) then Ret (I 1) else Ret (I 0)
  else Ret (I 0).

Definition primitive_unlock_recursive_lock (teb lock : Z) : prog :=
  rlock <~ get_handle lock;;
  count <~ Act (Load (rlock_count rlock));;
  if count =? 0 then Ret OK
  else
    Act (Store (rlock_owner rlock) 0);;;
    Act (Store (rlock_count rlock) 0);;;
    res <~ recursive_unlock teb (rlock_mutex rlock);;
    if negb (res =? 0) then Ret GENERAL_ERROR else Ret OK.

(** ** Semaphores

    Those of platforms with POSIX semaphores; the maximum is only looked at when the
    semaphore is made. *)

Definition semaphore_semaphore (s : Z) : Z := idx s 0.

(** [res]: the answer of [sem_init] to a value it can take, an [unsigned int]. *)
Definition sem_init (res sema value : Z) : prog :=
  if (res =? 0) && (u32 value <=? SEM_VALUE_MAX) then Act (Store sema (u32 value));;; Ret 0
  else Ret (-1).

Definition primitive_make_semaphore (res lock initial max : Z) : prog :=
  assert (negb (lock =? NULL));;;
  assert (IS_ZINT initial);;;
  assert (IS_ZINT max);;;
  if SEM_VALUE_MAX <? Z.shiftr (s64 max) 2 then Ret GENERAL_ERROR
  else
    semaphore <~ Act (Allocate [0]);;
    if semaphore =? NULL then Ret GENERAL_ERROR
    else
      r <~ sem_init res (semaphore_semaphore semaphore) (Z.shiftr (s64 initial) 2);;
      if negb (r =? 0) then
        Act (Deallocate semaphore 1);;;
        Ret GENERAL_ERROR
      else
        Act (Store (container_handle lock) semaphore);;;
        Ret OK.

(** [res]: the answer of [sem_destroy]. *)
Definition primitive_destroy_semaphore (res lock : Z) : prog :=
  semaphore <~ get_handle lock;;
  if negb (res =? 0) then Ret GENERAL_ERROR
  else
    Act (Deallocate semaphore 1);;;
    Ret OK.

Definition primitive_wait_for_semaphore (signal : option nat) (lock : Z) : prog :=
  semaphore <~ get_handle lock;;
  res <~ sem_wait signal (semaphore_semaphore semaphore);;
  if negb (res =? 0) then Ret GENERAL_ERROR else Ret OK.

Definition primitive_wait_for_semaphore_timed (now : timespec) (tries : timespec → nat)
    (interrupted : bool) (lock ms : Z) : prog :=
  assert_handle lock;;;
  assert (IS_ZINT ms);;;
  let limit := timespec_add_msecs now (Z.shiftr (s64 ms) 2) in
  semaphore <~ Act (Load (container_handle lock));;
  errno <~ sem_timedwait limit (tries limit) interrupted (semaphore_semaphore semaphore);;
  if negb (errno =? 0) then
    if errno =? ETIMEDOUT then Ret TIMEOUT else Ret GENERAL_ERROR
  else Ret OK.

Definition primitive_release_semaphore (lock : Z) : prog :=
  semaphore <~ get_handle lock;;
  res <~ sem_post (semaphore_semaphore semaphore);;
  if negb (res =? 0) then Ret GENERAL_ERROR else Ret OK.

(** ** Emulated semaphores

    Those of platforms without POSIX semaphores, such as macOS: the other branches of the
    same functions. *)

(** [r1], [r2]: the answers of [pthread_mutex_init] and [pthread_cond_init]. *)
Definition primitive_make_semaphore_emulated (r1 r2 lock initial max : Z) : prog :=
  assert (negb (lock =? NULL));;;
  assert (IS_ZINT initial);;;
  assert (IS_ZINT max);;;
  semaphore <~ Act (Allocate [0; 0; 0; 0]);;
  if semaphore =? NULL then Ret GENERAL_ERROR
  else if negb (r1 =? 0) || negb (r2 =? 0) then Ret GENERAL_ERROR
  else
    Act (Store (semaphore_mutex semaphore) 0);;;
    Act (Store (semaphore_count semaphore) (Z.shiftr (s64 initial) 2));;;
    Act (Store (semaphore_max_count semaphore) (Z.shiftr (s64 max) 2));;;
    Act (Store (container_handle lock) semaphore);;;
    Ret OK.

Definition primitive_destroy_semaphore_emulated (r1 r2 lock : Z) : prog :=
  semaphore <~ get_handle lock;;
  if negb (r1 =? 0) || negb (r2 =? 0) then Ret GENERAL_ERROR
  else
    Act (Deallocate semaphore 4);;;
    Ret OK.

Definition semaphore_count_off (semaphore : Z) : prog :=
  count <~ Act (Load (semaphore_count semaphore));;
  Act (Store (semaphore_count semaphore) (count - 1));;;
  pthread_mutex_unlock (semaphore_mutex semaphore);;;
  Ret OK.

Definition primitive_wait_for_semaphore_emulated (lock : Z) : prog :=
  semaphore <~ get_handle lock;;
  pthread_mutex_lock (semaphore_mutex semaphore);;;
  count <~ Act (Load (semaphore_count semaphore));;
  While (λ count, count <=? 0) count (λ _,
    pthread_cond_wait (semaphore_mutex semaphore);;;
    Act (Load (semaphore_count semaphore)));;;
  semaphore_count_off semaphore.

(** [n] waits until the time is up; when the time is invalid no wait waits, and the loop
    does not notice. *)
Fixpoint semaphore_wait_timed (n : nat) (semaphore : Z) : prog :=
  count <~ Act (Load (semaphore_count semaphore));;
  if count <=? 0 then
    pthread_cond_wait (semaphore_mutex semaphore);;;
    match n with
    | O => pthread_mutex_unlock (semaphore_mutex semaphore);;; Ret TIMEOUT
    | S n => semaphore_wait_timed n semaphore
    end
  else semaphore_count_off semaphore.

Definition semaphore_wait_invalid (semaphore : Z) : prog :=
  count <~ Act (Load (semaphore_count semaphore));;
  While (λ count, count <=? 0) count (λ _, Act (Load (semaphore_count semaphore)));;;
  semaphore_count_off semaphore.

Definition primitive_wait_for_semaphore_timed_emulated (now : timespec) (waits : timespec → nat)
    (lock ms : Z) : prog :=
  assert_handle lock;;;
  assert (IS_ZINT ms);;;
  semaphore <~ Act (Load (container_handle lock));;
  let limit := timespec_add_msecs now (Z.shiftr (s64 ms) 2) in
  pthread_mutex_lock (semaphore_mutex semaphore);;;
  if valid_time limit then semaphore_wait_timed (waits limit) semaphore
  else semaphore_wait_invalid semaphore.

Definition primitive_release_semaphore_emulated (lock : Z) : prog :=
  semaphore <~ get_handle lock;;
  pthread_mutex_lock (semaphore_mutex semaphore);;;
  count <~ Act (Load (semaphore_count semaphore));;
  max_count <~ Act (Load (semaphore_max_count semaphore));;
  if max_count <=? count then Ret COUNT_EXCEEDED
  else
    count <~ Act (Load (semaphore_count semaphore));;
    Act (Store (semaphore_count semaphore) (count + 1));;;
    pthread_mutex_unlock (semaphore_mutex semaphore);;;
    r <~ pthread_cond_signal;;
    if negb (r =? 0) then Ret GENERAL_ERROR else Ret OK.

(** ** Joins *)

(** [state & MARKED || state & JOINED] *)
Definition in_join (state : Z) : bool :=
  negb (Z.land state MARKED =? 0) || negb (Z.land state JOINED =? 0).

Definition primitive_thread_join_single (thread : Z) : prog :=
  assert (negb (thread =? NULL));;;
  pthread_mutex_lock thread_join_lock;;;
  state <~ Act (Load (thread_handle1 thread));;
  if in_join state then
    pthread_mutex_unlock thread_join_lock;;;
    Ret GENERAL_ERROR
  else
    Act (Store (thread_handle1 thread) (Z.lor state MARKED));;;
    While (λ completed, completed =? 0) (Z.land state COMPLETED) (λ _,
      pthread_cond_wait thread_join_lock;;;
      state <~ Act (Load (thread_handle1 thread));;
      Ret (Z.land state COMPLETED));;;
    state <~ Act (Load (thread_handle1 thread));;
    Act (Store (thread_handle1 thread) (Z.lxor state (Z.lor JOINED MARKED)));;;
    pthread_mutex_unlock thread_join_lock;;;
    Ret OK.

(** The loops of [primitive_thread_join_multiple] over the [n] threads at
    [threads]: whether one is part of a join, marking them, finding one that has
    completed ([NULL] if there is none), and clearing the marks. *)
Fixpoint any_in_join (n : nat) (threads : Z) : prog :=
  match n with
  | O => Ret 0
  | S n =>
      thread <~ Act (Load threads);;
      state <~ Act (Load (thread_handle1 thread));;
      if in_join state then Ret 1 else any_in_join n (threads + 8)
  end.

Fixpoint mark_threads (n : nat) (threads : Z) : prog :=
  match n with
  | O => Ret 0
  | S n =>
      thread <~ Act (Load threads);;
      state <~ Act (Load (thread_handle1 thread));;
      Act (Store (thread_handle1 thread) (Z.lor state MARKED));;;
      mark_threads n (threads + 8)
  end.

Fixpoint find_completed (n : nat) (threads : Z) : prog :=
  match n with
  | O => Ret NULL
  | S n =>
      thread <~ Act (Load threads);;
      state <~ Act (Load (thread_handle1 thread));;
      if negb (Z.land state COMPLETED =? 0) then Ret thread else find_completed n (threads + 8)
  end.

Fixpoint unmark_threads (n : nat) (threads : Z) : prog :=
  match n with
  | O => Ret 0
  | S n =>
      thread <~ Act (Load threads);;
      state <~ Act (Load (thread_handle1 thread));;
      Act (Store (thread_handle1 thread) (Z.lxor state MARKED));;;
      unmark_threads n (threads + 8)
  end.

Definition primitive_thread_join_multiple (v : Z) : prog :=
  assert (negb (v =? NULL));;;
  size <~ Act (Load (idx v 1));;
  assert (IS_ZINT size);;;
  let n := Z.to_nat (Z.shiftr size 2) in
  let threads := idx v 2 in
  pthread_mutex_lock thread_join_lock;;;
  duplicate <~ any_in_join n threads;;
  if duplicate =? 1 then Ret GENERAL_ERROR
  else
    mark_threads n threads;;;
    joined_thread <~ find_completed n threads;;
    joined_thread <~ While (λ j, j =? NULL) joined_thread (λ _,
      pthread_cond_wait thread_join_lock;;;
      find_completed n threads);;
    state <~ Act (Load (thread_handle1 joined_thread));;
    Act (Store (thread_handle1 joined_thread) (Z.lor state JOINED));;;
    unmark_threads n threads;;;
    pthread_mutex_unlock thread_join_lock;;;
    Ret joined_thread.
