(* ===== verification/LockLaws.v ===== *)
(** * Specifications of locks and notifications

    In the logic of [ConcurLogic.v], each lock hands over a resource [R].  A
    thread that uses a lock is registered with it, as being outside the lock or
    holding it. *)

From S2P Require Import Prelude Memory Tagging Concur ConcurLogic Tlv Locks.
From stdpp Require Import base tactics option list numbers gmap fin_maps.
From Stdlib Require Import ZArith Lia.
From iris.proofmode Require Import proofmode.
From iris.algebra Require Import auth numbers.
From iris.base_logic.lib Require Import invariants token ghost_map own.
From iris.program_logic Require Import weakestpre.

Local Open Scope Z_scope.

Class lockGS (Σ : gFunctors) := LockGS {
  #[global] lock_concurGS :: concurGS Σ;
  #[global] lock_simple :: ghost_mapG Σ Z (bool * bool);
  #[global] lock_recursive :: ghost_mapG Σ Z bool;
  #[global] lock_count :: inG Σ (authR natUR)
}.

(** A thread's block, whose address names the thread for ever. *)
Definition thread_block `{!lockGS Σ} (t : Z) : iProp Σ := ∃ v, pointsto (teb_thread t) DfracDiscarded v.

(** Who is registered: the threads of [M] have their blocks. *)
Definition threads_of `{!lockGS Σ} {A} (M : gmap Z A) : iProp Σ :=
  ⌜M !! 0 = None⌝ ∗ [∗ map] t ↦ _ ∈ M, thread_block t.

Lemma threads_of_new `{!lockGS Σ} {A} (M : gmap Z A) t v :
  teb_thread t ↦ v -∗ threads_of M -∗ ⌜M !! t = None⌝.
Proof.
  iIntros "Ht [_ HM]". destruct (M !! t) as [a|] eqn:E; [|done].
  iDestruct (big_sepM_lookup with "HM") as (u) "Hu"; [exact E|].
  by iDestruct (ghost_map_elem_ne with "Ht Hu") as %?.
Qed.

Lemma threads_of_insert `{!lockGS Σ} {A} (M : gmap Z A) t a :
  t ≠ 0 → M !! t = None → thread_block t -∗ threads_of M -∗ threads_of (<[t := a]> M).
Proof.
  iIntros (Ht HM) "Hb [%H0 H]". unfold threads_of. rw big_sepM_insert //. iFrame. iPureIntro.
  by rw lookup_insert_ne.
Qed.

Lemma threads_of_update `{!lockGS Σ} {A} (M : gmap Z A) t a b :
  M !! t = Some a → threads_of M -∗ threads_of (<[t := b]> M).
Proof.
  iIntros (HM) "[%H0 #H]". unfold threads_of. iSplit.
  - iPureIntro. rw lookup_insert_ne //. congruence.
  - iApply (big_sepM_insert_2 with "[] H"). by iApply (big_sepM_lookup with "H").
Qed.

(** ** Times

    A wait for [ms] ends with a timeout, or is refused because its end is no valid
    time. *)
Definition timeout_end (now : timespec) (ms : Z) : timespec :=
  timespec_add_msecs now (Z.shiftr (s64 ms) 2).

Definition not_locked (limit : timespec) (r : Z) : Prop :=
  r = ETIMEDOUT ∨ r = EINVAL ∧ valid_time limit = false.

Definition not_in_time (now : timespec) (ms r : Z) : Prop :=
  r = TIMEOUT ∨ r = GENERAL_ERROR ∧ valid_time (timeout_end now ms) = false.

(** ** Containers *)

(** The container [c] has the handle [h]. *)
Definition handle_is `{!lockGS Σ} (c h : Z) : iProp Σ :=
  ⌜c ≠ NULL ∧ h ≠ NULL⌝ ∗ pointsto (container_handle c) DfracDiscarded h.

Lemma wp_assert `{!lockGS Σ} b Φ :
  b = true → Φ 0 -∗ WP (assert b : expr threads) {{ Φ }}.
Proof. iIntros (->) "H". by iApply wp_ret. Qed.

Lemma wp_assert_handle `{!lockGS Σ} c h Φ :
  handle_is c h -∗ Φ 0 -∗ WP (assert_handle c : expr threads) {{ Φ }}.
Proof.
  iIntros "[[%Hc %Hh] #Hch] HΦ". unfold assert_handle.
  iApply wp_seq. iApply wp_assert; [by apply negb_true_iff, Z.eqb_neq|]. iIntros "!>".
  iApply wp_seq. iApply (wp_load with "Hch"). iIntros "!> _ !>".
  by iApply wp_assert; [apply negb_true_iff, Z.eqb_neq|].
Qed.

Lemma wp_load_handle `{!lockGS Σ} c h Φ :
  handle_is c h -∗ Φ h -∗ WP (Act (Load (container_handle c)) : expr threads) {{ Φ }}.
Proof. iIntros "[_ #Hch] HΦ". iApply (wp_load with "Hch"). by iIntros "!> _". Qed.

Lemma wp_get_handle `{!lockGS Σ} c h Φ :
  handle_is c h -∗ Φ h -∗ WP (get_handle c : expr threads) {{ Φ }}.
Proof.
  iIntros "#Hc HΦ". iApply wp_seq. iApply (wp_assert_handle with "Hc"). iIntros "!>".
  by iApply (wp_load_handle with "Hc").
Qed.

(** ** Simple locks *)

(** How a thread stands to a lock: whether it holds the mutex, and whether the
    owner field may name it. *)
Section simple.
Context `{!lockGS Σ} (g : gname) (lock slock : Z) (R : iProp Σ) `{!Timeless R}.
Implicit Types (M : gmap Z (bool * bool)).

Definition simpleN : namespace := nroot .@ "simple_lock".

Definition stands (w o t : Z) (s : bool * bool) : Prop :=
  s.1 = bool_decide (t = w) ∧ (s.2 = false → t ≠ o).

(** Free, the lock keeps the resource and half of the owner field. *)
Definition simple_res (w : Z) : iProp Σ :=
  (if w =? 0 then R ∗ ∃ o, slock_owner slock ↦{1/2} o else True)%I.

Definition simple_state : iProp Σ :=
  ∃ M w o, ghost_map_auth g 1 M ∗ threads_of M ∗
    slock_mutex slock ↦ w ∗ slock_owner slock ↦{1/2} o ∗
    ⌜map_Forall (stands w o) M ∧ (w = 0 ∨ is_Some (M !! w)) ∧ (o = 0 ∨ is_Some (M !! o))⌝ ∗
    simple_res w.

Definition is_simple_lock : iProp Σ := handle_is lock slock ∗ inv simpleN simple_state.

Definition outside (t : Z) : iProp Σ := t ↪[g] (false, false).

(** [sure]: the owner field is known to name the thread. *)
Definition holding (t : Z) (sure : bool) : iProp Σ :=
  t ↪[g] (true, true) ∗ ∃ o, slock_owner slock ↦{1/2} o ∗ ⌜sure = true → o = t⌝.

#[global] Instance simple_res_timeless w : Timeless (simple_res w).
Proof using Type*. unfold simple_res. destruct (w =? 0); apply _. Qed.

#[global] Instance is_simple_lock_persistent : Persistent is_simple_lock.
Proof. apply _. Qed.

(** A step of thread [t] on the lock's words. *)
Definition moves (t w w' o o' : Z) : Prop :=
  (w' = w ∨ w = 0 ∧ w' = t ∨ w = t ∧ w' = 0) ∧ (o' = o ∨ o' = t ∨ o' = 0).

Lemma stands_moves M t s s' w w' o o' :
  M !! t = Some s → M !! 0 = None → moves t w w' o o' → stands w' o' t s' →
  map_Forall (stands w o) M ∧ (w = 0 ∨ is_Some (M !! w)) ∧ (o = 0 ∨ is_Some (M !! o)) →
  map_Forall (stands w' o') (<[t := s']> M) ∧
    (w' = 0 ∨ is_Some (<[t := s']> M !! w')) ∧ (o' = 0 ∨ is_Some (<[t := s']> M !! o')).
Proof.
  intros Ht H0 [Hw Ho] Hs' (HM & Hdw & Hdo).
  assert (t ≠ 0) as Ht0 by congruence. split_and!.
  - intros u [b c] Hu. destruct (decide (u = t)) as [->|N].
    + rw lookup_insert_eq in Hu. by injection Hu as <-.
    + rw lookup_insert_ne // in Hu. destruct (HM u _ Hu) as [H1 H2].
      assert (u ≠ 0) by congruence. split; simpl in *.
      * rw H1. apply bool_decide_ext. naive_solver.
      * naive_solver.
  - destruct (decide (w' = t)) as [->|N]; [rw lookup_insert_eq; by eauto|].
    rw lookup_insert_ne //. naive_solver.
  - destruct (decide (o' = t)) as [->|N]; [rw lookup_insert_eq; by eauto|].
    rw lookup_insert_ne //. naive_solver.
Qed.

Lemma simple_access t s :
  simple_state -∗ t ↪[g] s -∗
  ∃ w o, ⌜t ≠ 0 ∧ stands w o t s⌝ ∗ slock_mutex slock ↦ w ∗ slock_owner slock ↦{1/2} o ∗
    simple_res w ∗
    (∀ s' w' o', ⌜moves t w w' o o' ∧ stands w' o' t s'⌝ -∗
      slock_mutex slock ↦ w' -∗ slock_owner slock ↦{1/2} o' -∗ simple_res w' ==∗
      simple_state ∗ t ↪[g] s').
Proof.
  iIntros "(%M & %w & %o & HM & [%H0 Hthreads] & Hw & Ho & %Hst & HR) Ht".
  iDestruct (ghost_map_lookup with "HM Ht") as %Ht. iExists w, o. iFrame "Hw Ho HR". iSplit.
  { iPureIntro. split; [congruence|]. by apply Hst. }
  iIntros (s' w' o') "[%Hmv %Hs'] Hw Ho HR". iMod (ghost_map_update s' with "HM Ht") as "[HM $]".
  iModIntro. iExists _, w', o'. iFrame "HM Hw Ho HR". iSplit.
  - iApply (threads_of_update with "[$Hthreads //]"); done.
  - iPureIntro. by eapply stands_moves.
Qed.

(** One attempt to take the mutex, by a thread that does not hold it. *)
Lemma wp_take t b Φ :
  is_simple_lock -∗ t ↪[g] (false, b) -∗
  (∀ r, ⌜r = 0⌝ ∗ holding t false ∗ R ∨ ⌜r ≠ 0 ∧ r ≠ t⌝ ∗ t ↪[g] (false, b) -∗ Φ r) -∗
  WP (Act (Compare_and_swap (slock_mutex slock) t 0) : expr threads) {{ Φ }}.
Proof using Type*.
  iIntros "[_ #Hinv] Ht HΦ". iInv simpleN as ">Hst".
  iDestruct (simple_access with "Hst Ht") as (w o [Ht0 [Hb Ho0]]) "(Hw & Ho & HR & Hclose)".
  simpl in Hb. symmetry in Hb. apply bool_decide_eq_false in Hb.
  iApply (wp_compare_and_swap with "Hw"). iIntros "!> Hw". destruct (Z.eqb_spec w 0) as [->|N].
  - unfold simple_res at 1. simpl. iDestruct "HR" as "[HR (%o' & Ho')]".
    iMod ("Hclose" $! (true, true) t o with "[%] Hw Ho []") as "[$ Ht]".
    { split; [split; auto|]. split; [by rw bool_decide_true|done]. }
    { unfold simple_res. by rw (proj2 (Z.eqb_neq t 0)). }
    iModIntro. iApply "HΦ". iLeft. iSplit; [done|]. iFrame "HR". iFrame "Ht Ho'". by iPureIntro.
  - iMod ("Hclose" $! (false, b) w o with "[%] Hw Ho HR") as "[$ Ht]".
    { split; [split; auto|]. split; [by rw bool_decide_false|done]. }
    iModIntro. iApply "HΦ". iRight. iFrame "Ht". by iPureIntro.
Qed.

Lemma wp_take_loop t b (c : Z → bool) Φ :
  c 0 = false → (∀ r, r ≠ 0 → r ≠ t → c r = true) →
  is_simple_lock -∗ t ↪[g] (false, b) -∗ (holding t false -∗ R -∗ Φ 0) -∗
  WP (Do (Act (Compare_and_swap (slock_mutex slock) t 0)) c : expr threads) {{ Φ }}.
Proof using Type*.
  iIntros (Hc0 Hc) "#Hlock Ht HΦ". unfold Do. iApply wp_seq.
  iApply (wp_take with "Hlock Ht"). iIntros (r) "H !>".
  iApply (wp_while_inv (λ r : val threads, ⌜r = 0⌝ ∗ holding t false ∗ R ∨
    ⌜r ≠ 0 ∧ r ≠ t⌝ ∗ t ↪[g] (false, b))%I with "H").
  - iIntros "!>" (y Hy) "[[-> _]|[_ Ht]]"; [simpl in Hy; congruence|].
    iApply (wp_take with "Hlock Ht"). by iIntros (z) "H".
  - iIntros (y Hy) "[(-> & Ht & HR)|[[%H0 %Ht] _]]".
    + by iApply ("HΦ" with "Ht").
    + simpl in Hy. rw Hc in Hy; done.
Qed.

(** The owner field, for the thread that holds the lock. *)
Lemma wp_store_owner t b v Φ :
  v = t ∨ v = 0 →
  is_simple_lock -∗ holding t b -∗
  (t ↪[g] (true, true) -∗ slock_owner slock ↦{1/2} v -∗ Φ v) -∗
  WP (Act (Store (slock_owner slock) v) : expr threads) {{ Φ }}.
Proof using Type*.
  iIntros (Hv) "[_ #Hinv] [Ht (%o' & Ho' & _)] HΦ". iInv simpleN as ">Hst".
  iDestruct (simple_access with "Hst Ht") as (w o [Ht0 [Hb Ho0]]) "(Hw & Ho & HR & Hclose)".
  iDestruct (ghost_map_elem_agree with "Ho Ho'") as %<-. iCombine "Ho Ho'" as "Ho".
  iApply (wp_store with "Ho"). iIntros "!> [Ho Ho']".
  iMod ("Hclose" $! (true, true) w v with "[%] Hw Ho HR") as "[$ Ht]".
  { split; [split; [by left|naive_solver]|]. by split. }
  iModIntro. by iApply ("HΦ" with "Ht").
Qed.

(** Giving the mutex back; the thread stays in the owner field if it is about to
    wait for a notification ([b]). *)
Lemma wp_give_back t o b Φ :
  (b = false → o = 0) →
  is_simple_lock -∗ t ↪[g] (true, true) -∗ slock_owner slock ↦{1/2} o -∗ R -∗
  (t ↪[g] (false, b) -∗ Φ 0) -∗
  WP (Act (Store (slock_mutex slock) 0) : expr threads) {{ Φ }}.
Proof using Type*.
  iIntros (Hob) "[_ #Hinv] Ht Ho' HR HΦ". iInv simpleN as ">Hst".
  iDestruct (simple_access with "Hst Ht") as (w o1 [Ht0 [Hb Ho0]]) "(Hw & Ho & _ & Hclose)".
  iDestruct (ghost_map_elem_agree with "Ho Ho'") as %->. simpl in Hb. symmetry in Hb.
  apply bool_decide_eq_true in Hb as <-.
  iApply (wp_store with "Hw"). iIntros "!> Hw".
  iMod ("Hclose" $! (false, b) 0 o with "[%] Hw Ho [HR Ho']") as "[$ Ht]".
  { split; [split; auto|]. split; [by rw bool_decide_false|]. simpl. intros E. rw (Hob E). done. }
  { unfold simple_res. simpl. iFrame. }
  iModIntro. by iApply "HΦ".
Qed.

(** A look at the mutex by the thread that holds it. *)
Lemma wp_load_mutex t Φ :
  is_simple_lock -∗ t ↪[g] (true, true) -∗ (t ↪[g] (true, true) -∗ Φ t) -∗
  WP (Act (Load (slock_mutex slock)) : expr threads) {{ Φ }}.
Proof using Type*.
  iIntros "[_ #Hinv] Ht HΦ". iInv simpleN as ">Hst".
  iDestruct (simple_access with "Hst Ht") as (w o [Ht0 [Hb Ho0]]) "(Hw & Ho & HR & Hclose)".
  assert (t = w) as <- by (simpl in Hb; symmetry in Hb; by apply bool_decide_eq_true in Hb).
  iApply (wp_load with "Hw"). iIntros "!> Hw".
  iMod ("Hclose" $! (true, true) t o with "[%] Hw Ho HR") as "[$ Ht]".
  { split; [split; auto|]. by split. }
  iModIntro. by iApply "HΦ".
Qed.

(** A thread that has the address in the map is not 0. *)
Lemma holding_nonzero t (s : bool * bool) :
  is_simple_lock -∗ t ↪[g] s ={⊤}=∗ ⌜t ≠ 0⌝ ∗ t ↪[g] s.
Proof using Type*.
  iIntros "[_ #Hinv] Ht". iInv simpleN as ">Hst".
  iDestruct (simple_access with "Hst Ht") as (w o [Ht0 Hs]) "(Hw & Ho & HR & Hclose)".
  iMod ("Hclose" $! s w o with "[%] Hw Ho HR") as "[$ $]"; [|done].
  split; [split; auto|done].
Qed.

(** The mutex is the thread's own already. *)
Lemma wp_take_held t b Φ :
  is_simple_lock -∗ holding t b -∗ (holding t b -∗ Φ t) -∗
  WP (Act (Compare_and_swap (slock_mutex slock) t 0) : expr threads) {{ Φ }}.
Proof using Type*.
  iIntros "[_ #Hinv] [Ht Hown] HΦ". iInv simpleN as ">Hst".
  iDestruct (simple_access with "Hst Ht") as (w o [Ht0 [Hb Ho0]]) "(Hw & Ho & HR & Hclose)".
  assert (t = w) as <- by (simpl in Hb; symmetry in Hb; by apply bool_decide_eq_true in Hb).
  iApply (wp_compare_and_swap with "Hw"). iIntros "!> Hw". rw (proj2 (Z.eqb_neq t 0)) //.
  iMod ("Hclose" $! (true, true) t o with "[%] Hw Ho HR") as "[$ Ht]".
  { split; [split; auto|]. by split. }
  iModIntro. iApply "HΦ". iFrame.
Qed.

(** *** The primitives *)

(** What [primitive_wait_for_simple_lock] and its timed variant do once the
    mutex is theirs. *)
Lemma wp_claim t b Φ :
  is_simple_lock -∗ holding t b -∗ (holding t true -∗ Φ OK) -∗
  WP (Bind (Act (Store (slock_owner slock) t)) (λ _, Ret OK) : expr threads) {{ Φ }}.
Proof using Type*.
  iIntros "#Hlock Ht HΦ". iApply wp_seq. iApply (wp_store_owner with "Hlock Ht"); [by left|].
  iIntros "Ht Ho !>". iApply wp_ret. iApply "HΦ". iFrame. by iPureIntro.
Qed.

Lemma wp_wait_for_simple_lock t Φ :
  is_simple_lock -∗ outside t -∗ (holding t true -∗ R -∗ Φ OK) -∗
  WP (primitive_wait_for_simple_lock t lock : expr threads) {{ Φ }}.
Proof using Type*.
  iIntros "#Hlock Ht HΦ". iApply fupd_wp.
  iMod (holding_nonzero with "Hlock Ht") as "[%Ht0 Ht]". iModIntro.
  unfold primitive_wait_for_simple_lock. iApply wp_seq.
  iApply wp_get_handle; [by iDestruct "Hlock" as "[$ _]"|]. iIntros "!>".
  iApply wp_seq. unfold errorcheck_lock. iApply wp_seq.
  iApply (wp_take_loop with "Hlock Ht"); [done| |].
  { intros r H1 H2. apply negb_true_iff, orb_false_iff. by rw !Z.eqb_neq. }
  iIntros "Ht HR !>". rw (proj2 (Z.eqb_neq 0 t)) //. iApply wp_ret. iIntros "!>". simpl.
  iApply (wp_claim with "Hlock Ht"). iIntros "Ht". by iApply ("HΦ" with "Ht").
Qed.

Lemma wp_wait_for_simple_lock_held t b Φ :
  is_simple_lock -∗ holding t b -∗ (holding t b -∗ Φ ALREADY_LOCKED) -∗
  WP (primitive_wait_for_simple_lock t lock : expr threads) {{ Φ }}.
Proof using Type*.
  iIntros "#Hlock Ht HΦ". unfold primitive_wait_for_simple_lock. iApply wp_seq.
  iApply wp_get_handle; [by iDestruct "Hlock" as "[$ _]"|]. iIntros "!>".
  iApply wp_seq. unfold errorcheck_lock, Do. iApply wp_seq. iApply wp_seq.
  iApply (wp_take_held with "Hlock Ht"). iIntros "Ht !>". iApply wp_while. iNext.
  rw Z.eqb_refl orb_true_r. iApply wp_ret. iIntros "!>". rw Z.eqb_refl. iApply wp_ret.
  iIntros "!>". iApply wp_ret. by iApply "HΦ".
Qed.

Lemma wp_timedlock limit n t Φ :
  t ≠ 0 →
  is_simple_lock -∗ outside t -∗
  (∀ r, ⌜r = 0⌝ ∗ holding t false ∗ R ∨ ⌜not_locked limit r⌝ ∗ outside t -∗ Φ r) -∗
  WP (errorcheck_timedlock limit n t (slock_mutex slock) : expr threads) {{ Φ }}.
Proof using Type*.
  iIntros (Ht0) "#Hlock Ht HΦ". iInduction n as [|n] "IH"; simpl; iApply wp_seq;
    (iApply (wp_take with "Hlock Ht"); iIntros (r) "[(-> & Ht & HR)|[[%H0 %Hr] Ht]] !>";
      [rw (proj2 (Z.eqb_neq 0 t)) //; iApply wp_ret; iApply "HΦ"; iLeft; by iFrame|
       rw !(proj2 (Z.eqb_neq r _)) //; destruct (valid_time limit) eqn:Hlimit; simpl]).
  2, 4: iApply wp_ret; iApply "HΦ"; iRight; iFrame; iPureIntro; by right.
  - iApply wp_ret. iApply "HΦ". iRight. iFrame. iPureIntro. by left.
  - by iApply ("IH" with "Ht").
Qed.

Lemma wp_wait_for_simple_lock_timed now tries t ms Φ :
  IS_ZINT ms = true →
  is_simple_lock -∗ outside t -∗
  (∀ r, ⌜r = OK⌝ ∗ holding t true ∗ R ∨ ⌜not_in_time now ms r⌝ ∗ outside t -∗ Φ r) -∗
  WP (primitive_wait_for_simple_lock_timed now tries t lock ms : expr threads) {{ Φ }}.
Proof using Type*.
  iIntros (Hms) "#Hlock Ht HΦ". iApply fupd_wp.
  iMod (holding_nonzero with "Hlock Ht") as "[%Ht0 Ht]". iModIntro.
  unfold primitive_wait_for_simple_lock_timed. iApply wp_seq.
  iApply wp_assert_handle; [by iDestruct "Hlock" as "[$ _]"|]. iIntros "!>".
  iApply wp_seq. iApply wp_assert; [done|]. iIntros "!>".
  iApply wp_seq. iApply wp_load_handle; [by iDestruct "Hlock" as "[$ _]"|]. iIntros "!>".
  iApply wp_seq. iApply (wp_timedlock with "Hlock Ht"); [done|].
  iIntros (r) "[(-> & Ht & HR)|[%Hr Ht]] !>".
  - iApply (wp_claim with "Hlock Ht"). iIntros "Ht". iApply "HΦ". iLeft. by iFrame.
  - destruct Hr as [-> |[-> Hlimit]]; iApply wp_ret; iApply "HΦ"; iRight; iFrame;
      iPureIntro; [by left|by right].
Qed.

Lemma wp_wait_for_simple_lock_timed_held now tries t b ms Φ :
  IS_ZINT ms = true →
  is_simple_lock -∗ holding t b -∗ (holding t b -∗ Φ ALREADY_LOCKED) -∗
  WP (primitive_wait_for_simple_lock_timed now tries t lock ms : expr threads) {{ Φ }}.
Proof using Type*.
  iIntros (Hms) "#Hlock Ht HΦ". unfold primitive_wait_for_simple_lock_timed. iApply wp_seq.
  iApply wp_assert_handle; [by iDestruct "Hlock" as "[$ _]"|]. iIntros "!>".
  iApply wp_seq. iApply wp_assert; [done|]. iIntros "!>".
  iApply wp_seq. iApply wp_load_handle; [by iDestruct "Hlock" as "[$ _]"|]. iIntros "!>".
  iApply wp_seq. destruct (tries _) as [|n]; simpl; iApply wp_seq;
    (iApply (wp_take_held with "Hlock Ht"); iIntros "Ht !>"; rw Z.eqb_refl; iApply wp_ret;
     iIntros "!>"; iApply wp_ret; by iApply "HΦ").
Qed.

(** Unlocking the mutex after the owner field was cleared. *)
Lemma wp_errorcheck_unlock t Φ :
  is_simple_lock -∗ t ↪[g] (true, true) -∗ slock_owner slock ↦{1/2} 0 -∗ R -∗
  (outside t -∗ Φ 0) -∗
  WP (errorcheck_unlock t (slock_mutex slock) : expr threads) {{ Φ }}.
Proof using Type*.
  iIntros "#Hlock Ht Ho HR HΦ". unfold errorcheck_unlock. iApply wp_seq.
  iApply (wp_load_mutex with "Hlock Ht"). iIntros "Ht !>". rw Z.eqb_refl. iApply wp_seq.
  iApply (wp_give_back _ _ false with "Hlock Ht Ho HR"); [done|]. iIntros "Ht !>". iApply wp_ret.
  by iApply "HΦ".
Qed.

Lemma wp_release_simple_lock t b Φ :
  is_simple_lock -∗ holding t b -∗ R -∗ (outside t -∗ Φ OK) -∗
  WP (primitive_release_simple_lock t lock : expr threads) {{ Φ }}.
Proof using Type*.
  iIntros "#Hlock Ht HR HΦ". unfold primitive_release_simple_lock. iApply wp_seq.
  iApply wp_get_handle; [by iDestruct "Hlock" as "[$ _]"|]. iIntros "!>".
  iApply wp_seq. iApply (wp_store_owner with "Hlock Ht"); [by right|]. iIntros "Ht Ho !>".
  iApply wp_seq. iApply (wp_errorcheck_unlock with "Hlock Ht Ho HR"). iIntros "Ht !>".
  iApply wp_ret. by iApply "HΦ".
Qed.

(** A look at the owner field. *)
Lemma wp_load_owner_outside t Φ :
  is_simple_lock -∗ outside t -∗ (∀ o, ⌜o ≠ t⌝ -∗ outside t -∗ Φ o) -∗
  WP (Act (Load (slock_owner slock)) : expr threads) {{ Φ }}.
Proof using Type*.
  iIntros "[_ #Hinv] Ht HΦ". iInv simpleN as ">Hst".
  iDestruct (simple_access with "Hst Ht") as (w o [Ht0 [Hb Ho0]]) "(Hw & Ho & HR & Hclose)".
  iApply (wp_load with "Ho"). iIntros "!> Ho".
  iMod ("Hclose" $! (false, false) w o with "[%] Hw Ho HR") as "[$ Ht]".
  { split; [split; auto|]. by split. }
  iModIntro. iApply ("HΦ" with "[%] Ht"). intros ->. by apply Ho0.
Qed.

Lemma wp_load_owner t b Φ :
  is_simple_lock -∗ holding t b -∗ (∀ o, ⌜b = true → o = t⌝ -∗ holding t b -∗ Φ o) -∗
  WP (Act (Load (slock_owner slock)) : expr threads) {{ Φ }}.
Proof.
  iIntros "_ [Ht (%o & Ho & %Hb)] HΦ". iApply (wp_load with "Ho"). iIntros "!> Ho".
  iApply "HΦ"; [done|]. by iFrame.
Qed.

Lemma wp_owned_outside t Φ :
  is_simple_lock -∗ outside t -∗ (outside t -∗ Φ (I 0)) -∗
  WP (primitive_owned_simple_lock t lock : expr threads) {{ Φ }}.
Proof using Type*.
  iIntros "#Hlock Ht HΦ". unfold primitive_owned_simple_lock. iApply wp_seq.
  iApply wp_get_handle; [by iDestruct "Hlock" as "[$ _]"|]. iIntros "!>".
  iApply wp_seq. iApply (wp_load_owner_outside with "Hlock Ht"). iIntros (o) "%Ho Ht !>".
  rw (proj2 (Z.eqb_neq o t)) //. iApply wp_ret. by iApply "HΦ".
Qed.

Lemma wp_owned t b Φ :
  is_simple_lock -∗ holding t b -∗
  (∀ r, ⌜r = I 1 ∨ b = false ∧ r = I 0⌝ -∗ holding t b -∗ Φ r) -∗
  WP (primitive_owned_simple_lock t lock : expr threads) {{ Φ }}.
Proof using Type*.
  iIntros "#Hlock Ht HΦ". unfold primitive_owned_simple_lock. iApply wp_seq.
  iApply wp_get_handle; [by iDestruct "Hlock" as "[$ _]"|]. iIntros "!>".
  iApply wp_seq. iApply (wp_load_owner with "Hlock Ht"). iIntros (o) "%Ho Ht !>".
  destruct (Z.eqb_spec o t) as [->|N]; iApply wp_ret; iApply ("HΦ" with "[%] Ht"); [by left|].
  right. split; [|done]. destruct b; [|done]. by destruct (N (Ho eq_refl)).
Qed.

Lemma wp_unlock_simple_lock t Φ :
  is_simple_lock -∗ holding t true -∗ R -∗ (outside t -∗ Φ OK) -∗
  WP (primitive_unlock_simple_lock t lock : expr threads) {{ Φ }}.
Proof using Type*.
  iIntros "#Hlock Ht HR HΦ". iApply fupd_wp. iDestruct "Ht" as "[Ht Ho]".
  iMod (holding_nonzero with "Hlock Ht") as "[%Ht0 Ht]". iModIntro.
  iAssert (holding t true) with "[$Ht $Ho]" as "Ht".
  unfold primitive_unlock_simple_lock. iApply wp_seq.
  iApply wp_get_handle; [by iDestruct "Hlock" as "[$ _]"|]. iIntros "!>".
  iApply wp_seq. iApply (wp_load_owner with "Hlock Ht"). iIntros (o) "%Ho Ht !>".
  rw (Ho eq_refl) (proj2 (Z.eqb_neq t 0)) //.
  iApply wp_seq. iApply (wp_store_owner with "Hlock Ht"); [by right|]. iIntros "Ht Ho !>".
  iApply wp_seq. iApply (wp_errorcheck_unlock with "Hlock Ht Ho HR"). iIntros "Ht !>".
  iApply wp_ret. by iApply "HΦ".
Qed.

(** Waiting for a notification gives the lock up and takes it again; the owner
    field is not restored. *)
Lemma wp_cond_wait t b r Φ :
  is_simple_lock -∗ holding t b -∗ R -∗ (holding t false -∗ R -∗ Φ r) -∗
  WP (errorcheck_cond_wait t (slock_mutex slock) r : expr threads) {{ Φ }}.
Proof using Type*.
  iIntros "#Hlock [Ht (%o & Ho & _)] HR HΦ". unfold errorcheck_cond_wait.
  iApply wp_seq. iApply (wp_load_mutex with "Hlock Ht"). iIntros "Ht !>". rw Z.eqb_refl.
  iApply wp_seq. iApply (wp_give_back _ _ true with "Hlock Ht Ho HR"); [done|]. iIntros "Ht !>".
  iApply wp_seq. iApply (wp_take_loop with "Hlock Ht"); [done| |].
  { intros x H1 H2. by apply negb_true_iff, Z.eqb_neq. }
  iIntros "Ht HR !>". iApply wp_ret. by iApply ("HΦ" with "Ht").
Qed.

Lemma wp_wait_for_notification notif n t b Φ :
  handle_is notif n -∗ is_simple_lock -∗ holding t b -∗ R -∗ (holding t false -∗ R -∗ Φ OK) -∗
  WP (primitive_wait_for_notification t notif lock : expr threads) {{ Φ }}.
Proof using Type*.
  iIntros "#Hn #Hlock Ht HR HΦ". unfold primitive_wait_for_notification.
  iApply wp_seq. iApply wp_assert_handle; [done|]. iIntros "!>".
  iApply wp_seq. iApply wp_assert_handle; [by iDestruct "Hlock" as "[$ _]"|]. iIntros "!>".
  iApply wp_seq. iApply wp_load_handle; [done|]. iIntros "!>".
  iApply wp_seq. iApply wp_load_handle; [by iDestruct "Hlock" as "[$ _]"|]. iIntros "!>".
  iApply wp_seq. iApply (wp_cond_wait with "Hlock Ht HR"). iIntros "Ht HR !>".
  iApply wp_ret. by iApply ("HΦ" with "Ht").
Qed.

Lemma wp_wait_for_notification_timed now up notif n t b ms Φ :
  IS_ZINT ms = true →
  handle_is notif n -∗ is_simple_lock -∗ holding t b -∗ R -∗
  (∀ r, ⌜r = OK ∨ r = TIMEOUT⌝ ∗ holding t false ∗ R ∨
    ⌜r = GENERAL_ERROR ∧ valid_time (timeout_end now ms) = false⌝ ∗ holding t b ∗ R -∗ Φ r) -∗
  WP (primitive_wait_for_notification_timed now up t notif lock ms : expr threads) {{ Φ }}.
Proof using Type*.
  iIntros (Hms) "#Hn #Hlock Ht HR HΦ". unfold primitive_wait_for_notification_timed.
  iApply wp_seq. iApply wp_assert_handle; [done|]. iIntros "!>".
  iApply wp_seq. iApply wp_assert_handle; [by iDestruct "Hlock" as "[$ _]"|]. iIntros "!>".
  iApply wp_seq. iApply wp_assert; [done|]. iIntros "!>".
  iApply wp_seq. iApply wp_load_handle; [done|]. iIntros "!>".
  iApply wp_seq. iApply wp_load_handle; [by iDestruct "Hlock" as "[$ _]"|]. iIntros "!>".
  iApply wp_seq. unfold errorcheck_cond_timedwait. fold (timeout_end now ms).
  destruct (valid_time (timeout_end now ms)) eqn:Hlimit; cbn [negb].
  - iApply (wp_cond_wait with "Hlock Ht HR"). iIntros "Ht HR !>".
    destruct (up _); simpl; iApply wp_ret; iApply "HΦ"; iLeft; iFrame; auto.
  - iApply wp_ret. iIntros "!>". iApply wp_ret. iApply "HΦ". iRight. by iFrame.
Qed.

Lemma wp_release_notification notif n Φ :
  handle_is notif n -∗ is_simple_lock -∗ Φ OK -∗
  WP (primitive_release_notification notif lock : expr threads) {{ Φ }} ∧
  WP (primitive_release_all_notification notif lock : expr threads) {{ Φ }}.
Proof using Type*.
  iIntros "#Hn #Hlock HΦ". iSplit; iApply wp_seq;
    (iApply wp_assert_handle; [done|]; iIntros "!>"; iApply wp_seq;
     iApply wp_assert_handle; [by iDestruct "Hlock" as "[$ _]"|]; iIntros "!>"; iApply wp_seq;
     iApply wp_load_handle; [done|]; iIntros "!>"; iApply wp_seq; iApply wp_ret; iIntros "!>"; by iApply wp_ret).
Qed.

(** A new thread: nobody of its name is registered, and it can be. *)
Lemma simple_enroll t v :
  t ≠ 0 →
  simple_state -∗ teb_thread t ↦ v -∗
  teb_thread t ↦ v ∗ (thread_block t ==∗ simple_state ∗ outside t).
Proof.
  iIntros (Ht0) "(%M & %w & %o & HM & Hthreads & Hw & Ho & (%HM & %Hdw & %Hdo) & HR) Hv".
  iDestruct (threads_of_new with "Hv Hthreads") as %Hnew. iFrame "Hv". iIntros "Hb".
  iMod (ghost_map_insert t (false, false) with "HM") as "[HM $]"; [done|]. iModIntro.
  iExists _, w, o. iFrame "HM Hw Ho HR". iSplitL "Hthreads Hb".
  - by iApply (threads_of_insert with "Hb Hthreads").
  - iPureIntro. assert (∀ x, x = 0 ∨ is_Some (M !! x) → t ≠ x) as Hne.
    { intros x [->|[a Ha]]; congruence. }
    split_and!.
    + apply map_Forall_insert_2; [|done]. split; simpl; [rw bool_decide_false //|]; by auto.
    + rw lookup_insert_ne; [done|by auto].
    + rw lookup_insert_ne; [done|by auto].
Qed.
End simple.

(** ** Making locks and notifications *)

Section making.
Context `{!lockGS Σ}.

Lemma idx_next p (i : Z) : idx p i + 8 = idx p (i + 1).
Proof. unfold idx. lia. Qed.

Lemma idx_first p : idx p 0 = p.
Proof. unfold idx. lia. Qed.

(** A block of fresh words by their indices. *)
Lemma words_fields p l :
  words p 1 l ⊣⊢ [∗ list] i ↦ v ∈ l, idx p (Z.of_nat i) ↦ v.
Proof. apply big_sepL_proper. intros i v _. done. Qed.

Lemma simple_alloc lock slock R `{!Timeless R} E :
  lock ≠ NULL → slock ≠ NULL →
  container_handle lock ↦ slock -∗ slock_mutex slock ↦ 0 -∗ slock_owner slock ↦ 0 -∗ R ={E}=∗
  ∃ g, is_simple_lock g lock slock R.
Proof.
  iIntros (Hl Hs) "Hc Hw [Ho Ho'] HR". iMod (ghost_map_elem_persist with "Hc") as "Hc".
  iMod (ghost_map_alloc_empty (K := Z) (V := bool * bool)) as (g) "HM". iExists g.
  iMod (inv_alloc simpleN _ (simple_state g slock R) with "[-Hc]") as "$".
  - iNext. iExists ∅, 0, 0. iFrame "HM Hw Ho". iSplit; [iSplit; [done|by iApply big_sepM_empty]|].
    iSplit; [iPureIntro; split_and!; [apply map_Forall_empty|by left|by left]|].
    unfold simple_res. simpl. iFrame.
  - iModIntro. by iFrame.
Qed.

Lemma wp_make_simple_lock r lock v Φ :
  lock ≠ NULL →
  container_handle lock ↦ v -∗
  (∀ res, ⌜res = OK⌝ ∗ (∃ slock, ⌜slock ≠ NULL⌝ ∗ container_handle lock ↦ slock ∗
      slock_mutex slock ↦ 0 ∗ slock_owner slock ↦ 0) ∨
    ⌜res = GENERAL_ERROR⌝ ∗ container_handle lock ↦ v -∗ Φ res) -∗
  WP (primitive_make_simple_lock r lock : expr threads) {{ Φ }}.
Proof.
  iIntros (Hl) "Hc HΦ". unfold primitive_make_simple_lock.
  iApply wp_seq. iApply wp_assert; [by apply negb_true_iff, Z.eqb_neq|]. iIntros "!>".
  iApply wp_seq. iApply wp_allocate. iIntros "!>" (p Hp) "Hw !>".
  rw (proj2 (Z.eqb_neq p NULL)); [|unfold NULL; lia].
  destruct (mutex_made r).
  - rw words_fields. iDestruct "Hw" as "(Ho & Hm & _)".
    iApply wp_seq. iApply (wp_store with "Hm"). iIntros "!> Hm !>".
    iApply wp_seq. iApply (wp_store with "Ho"). iIntros "!> Ho !>".
    iApply wp_seq. iApply (wp_store with "Hc"). iIntros "!> Hc !>".
    iApply wp_ret. iApply "HΦ". iLeft. iSplit; [done|]. iExists p. iFrame.
    iPureIntro. unfold NULL. lia.
  - iApply wp_seq. iApply (wp_deallocate with "Hw"); [done|]. iIntros "!> !>".
    iApply wp_ret. iApply "HΦ". iRight. by iFrame.
Qed.

Lemma wp_make_notification r notif v Φ :
  notif ≠ NULL →
  container_handle notif ↦ v -∗
  (∀ res, ⌜res = OK⌝ ∗ (∃ n, handle_is notif n) ∨
    ⌜res = GENERAL_ERROR⌝ ∗ container_handle notif ↦ v -∗ Φ res) -∗
  WP (primitive_make_notification r notif : expr threads) {{ Φ }}.
Proof.
  iIntros (Hl) "Hc HΦ". unfold primitive_make_notification.
  iApply wp_seq. iApply wp_assert; [by apply negb_true_iff, Z.eqb_neq|]. iIntros "!>".
  iApply wp_seq. iApply wp_allocate. iIntros "!>" (p Hp) "Hw !>".
  rw (proj2 (Z.eqb_neq p NULL)); [|unfold NULL; lia].
  destruct (negb (r =? 0)).
  - iApply wp_seq. iApply (wp_deallocate with "Hw"); [done|]. iIntros "!> !>".
    iApply wp_ret. iApply "HΦ". iRight. by iFrame.
  - iApply wp_seq. iApply (wp_store with "Hc"). iIntros "!> Hc !>".
    iApply fupd_wp. iMod (ghost_map_elem_persist with "Hc") as "Hc". iModIntro.
    iApply wp_ret. iApply "HΦ". iLeft. iSplit; [done|]. iExists p. iFrame.
    iPureIntro. split; [done|unfold NULL; lia].
Qed.
End making.
