(* ===== verification/RecursiveLaws.v ===== *)
(** * Specifications of recursive locks

    As in [LockLaws.v]; the mutex counts how often its thread has taken it, and
    the lock's own [count] field is the sum of what the threads have added. *)

From S2P Require Import Prelude Memory Tagging Concur ConcurLogic Tlv Locks LockLaws.
From stdpp Require Import base tactics option list numbers gmap fin_maps.
From Stdlib Require Import ZArith Lia.
From iris.proofmode Require Import proofmode.
From iris.algebra Require Import auth numbers.
From iris.base_logic.lib Require Import invariants token ghost_map own.
From iris.program_logic Require Import weakestpre.

Local Open Scope Z_scope.

(** ** Recursive locks *)

Section recursive.
Context `{!lockGS Σ} (g gc : gname) (lock rlock : Z) (R : iProp Σ) `{!Timeless R}.
Implicit Types (M : gmap Z bool).

Definition recursiveN : namespace := nroot .@ "recursive_lock".

Definition recursive_res (w : Z) : iProp Σ :=
  (if w =? 0 then R ∗ (∃ d : Z, (rlock_mutex rlock + 8) ↦ d) ∗ ∃ o : Z, rlock_owner rlock ↦{1/2} o
   else True)%I.

(** The field [count] of the lock adds up what the threads have added to it. *)
Definition recursive_state : iProp Σ :=
  ∃ M (w o : Z) (n : nat), ghost_map_auth g 1 M ∗ threads_of M ∗
    rlock_mutex rlock ↦ w ∗ rlock_owner rlock ↦{1/2} o ∗
    rlock_count rlock ↦ Z.of_nat n ∗ own gc (● n) ∗
    ⌜map_Forall (λ t b, b = bool_decide (t = w)) M ∧ (w = 0 ∨ is_Some (M !! w))⌝ ∗
    recursive_res w.

Definition is_recursive_lock : iProp Σ := handle_is lock rlock ∗ inv recursiveN recursive_state.

Definition away (t : Z) : iProp Σ := t ↪[g] false.

(** A thread's share of the field [count]. *)
Definition added (k : nat) : iProp Σ := own gc (◯ k).

(** A thread that has the mutex [d] times and has added [k] to the count; [o] is
    in the owner field. *)
Definition inside (t : Z) (d k : nat) (o : Z) : iProp Σ :=
  ⌜(0 < d)%nat⌝ ∗ t ↪[g] true ∗ (rlock_mutex rlock + 8) ↦ Z.of_nat d ∗ added k ∗
    rlock_owner rlock ↦{1/2} o.

#[global] Instance recursive_res_timeless w : Timeless (recursive_res w).
Proof using Type*. unfold recursive_res. destruct (w =? 0); apply _. Qed.

#[global] Instance is_recursive_lock_persistent : Persistent is_recursive_lock.
Proof. apply _. Qed.

Lemma recursive_access t b :
  recursive_state -∗ t ↪[g] b -∗
  ∃ (w o : Z) (n : nat), ⌜t ≠ 0 ∧ b = bool_decide (t = w)⌝ ∗ rlock_mutex rlock ↦ w ∗
    rlock_owner rlock ↦{1/2} o ∗ rlock_count rlock ↦ Z.of_nat n ∗ own gc (● n) ∗ recursive_res w ∗
    (∀ (b' : bool) (w' o' : Z) (n' : nat), ⌜(w' = w ∨ w = 0 ∧ w' = t ∨ w = t ∧ w' = 0) ∧ b' = bool_decide (t = w')⌝ -∗
      rlock_mutex rlock ↦ w' -∗ rlock_owner rlock ↦{1/2} o' -∗ rlock_count rlock ↦ Z.of_nat n' -∗
      own gc (● n') -∗ recursive_res w' ==∗
      recursive_state ∗ t ↪[g] b').
Proof.
  iIntros "(%M & %w & %o & %n & HM & [%H0 Hthreads] & Hw & Ho & Hn & Hc & [%Hst %Hdw] & HR) Ht".
  iDestruct (ghost_map_lookup with "HM Ht") as %Ht. iExists w, o, n. iFrame "Hw Ho Hn Hc HR". iSplit.
  { iPureIntro. split; [congruence|]. by apply (Hst t). }
  iIntros (b' w' o' n') "[%Hw %Hb] Hw Ho Hn Hc HR".
  iMod (ghost_map_update b' with "HM Ht") as "[HM $]".
  iModIntro. iExists _, w', o', n'. iFrame "HM Hw Ho Hn Hc HR". iSplit.
  - iApply (threads_of_update with "[$Hthreads //]"); done.
  - iPureIntro. split.
    + intros u c Hu. destruct (decide (u = t)) as [->|N].
      * rw lookup_insert_eq in Hu. by injection Hu as <-.
      * rw lookup_insert_ne // in Hu. rw (Hst u c Hu). apply bool_decide_ext.
        assert (u ≠ 0) by congruence. naive_solver.
    + destruct (decide (w' = t)) as [->|N]; [rw lookup_insert_eq; by eauto|].
      rw lookup_insert_ne //. naive_solver.
Qed.

(** *** The count *)

Lemma wp_add_count k Φ :
  is_recursive_lock -∗ added k -∗ (∀ c, added (S k) -∗ Φ c) -∗
  WP (atomic_increment (rlock_count rlock) : expr threads) {{ Φ }}.
Proof using Type*.
  iIntros "[_ #Hinv] Hk HΦ". unfold atomic_increment.
  iInv recursiveN as ">(%M & %w & %o & %n & HM & Hth & Hw & Ho & Hn & Hc & Hst & HR)".
  iApply (wp_fetch_and_add with "Hn"). iIntros "!> Hn". iCombine "Hc Hk" as "Hc".
  iMod (own_update _ _ (● S n ⋅ ◯ S k) with "Hc") as "[Hc Hk]".
  { apply auth_update, nat_local_update. lia. }
  iModIntro. iSplitR "Hk HΦ"; [|by iApply "HΦ"]. iNext. iExists M, w, o, (S n).
  replace (Z.of_nat (S n)) with (n + 1) by lia. iFrame.
Qed.

Lemma wp_sub_count k Φ :
  is_recursive_lock -∗ added (S k) -∗ (∀ c, added k -∗ Φ c) -∗
  WP (atomic_decrement (rlock_count rlock) : expr threads) {{ Φ }}.
Proof using Type*.
  iIntros "[_ #Hinv] Hk HΦ". unfold atomic_decrement.
  iInv recursiveN as ">(%M & %w & %o & %n & HM & Hth & Hw & Ho & Hn & Hc & Hst & HR)".
  iDestruct (own_valid_2 with "Hc Hk") as %[Hle%nat_included _]%auth_both_valid_discrete.
  iApply (wp_fetch_and_add with "Hn"). iIntros "!> Hn". iCombine "Hc Hk" as "Hc".
  iMod (own_update _ _ (● Nat.pred n ⋅ ◯ k) with "Hc") as "[Hc Hk]".
  { apply auth_update, nat_local_update. lia. }
  iModIntro. iSplitR "Hk HΦ"; [|by iApply "HΦ"]. iNext. iExists M, w, o, (Nat.pred n).
  replace (Z.of_nat (Nat.pred n)) with (n + -1) by lia. iFrame.
Qed.

Lemma wp_load_count k Φ :
  is_recursive_lock -∗ added k -∗ (∀ c : Z, ⌜k <= c⌝ -∗ added k -∗ Φ c) -∗
  WP (Act (Load (rlock_count rlock)) : expr threads) {{ Φ }}.
Proof using Type*.
  iIntros "[_ #Hinv] Hk HΦ".
  iInv recursiveN as ">(%M & %w & %o & %n & HM & Hth & Hw & Ho & Hn & Hc & Hst & HR)".
  iDestruct (own_valid_2 with "Hc Hk") as %[Hle%nat_included _]%auth_both_valid_discrete.
  iApply (wp_load with "Hn"). iIntros "!> Hn". iModIntro.
  iSplitR "Hk HΦ"; [|iApply ("HΦ" with "[%] Hk"); lia]. iNext. iExists M, w, o, n. iFrame.
Qed.

(** *** The mutex *)

Lemma away_nonzero t b :
  is_recursive_lock -∗ t ↪[g] b ={⊤}=∗ ⌜t ≠ 0⌝ ∗ t ↪[g] b.
Proof using Type*.
  iIntros "[_ #Hinv] Ht". iInv recursiveN as ">Hst".
  iDestruct (recursive_access with "Hst Ht") as (w o n [Ht0 Hs]) "(Hw & Ho & Hn & Hc & HR & Hclose)".
  iMod ("Hclose" $! b w o n with "[%] Hw Ho Hn Hc HR") as "[$ $]"; [|done]. auto.
Qed.

Lemma wp_load_recursive t b Φ :
  is_recursive_lock -∗ t ↪[g] b -∗ (∀ w, ⌜b = bool_decide (t = w)⌝ -∗ t ↪[g] b -∗ Φ w) -∗
  WP (Act (Load (rlock_mutex rlock)) : expr threads) {{ Φ }}.
Proof using Type*.
  iIntros "[_ #Hinv] Ht HΦ". iInv recursiveN as ">Hst".
  iDestruct (recursive_access with "Hst Ht") as (w o n [Ht0 Hs]) "(Hw & Ho & Hn & Hc & HR & Hclose)".
  iApply (wp_load with "Hw"). iIntros "!> Hw".
  iMod ("Hclose" $! b w o n with "[%] Hw Ho Hn Hc HR") as "[$ Ht]"; [by auto|].
  iModIntro. by iApply "HΦ".
Qed.

(** The mutex was taken, but its count is not set yet. *)
Definition taken (t : Z) : iProp Σ :=
  t ↪[g] true ∗ R ∗ (∃ d : Z, (rlock_mutex rlock + 8) ↦ d) ∗ ∃ o : Z, rlock_owner rlock ↦{1/2} o.

Lemma wp_take_recursive t Φ :
  is_recursive_lock -∗ away t -∗
  (∀ r, ⌜r = 0⌝ ∗ taken t ∨ ⌜r ≠ 0⌝ ∗ away t -∗ Φ r) -∗
  WP (Act (Compare_and_swap (rlock_mutex rlock) t 0) : expr threads) {{ Φ }}.
Proof using Type*.
  iIntros "[_ #Hinv] Ht HΦ". iInv recursiveN as ">Hst".
  iDestruct (recursive_access with "Hst Ht") as (w o n [Ht0 Hs]) "(Hw & Ho & Hn & Hc & HR & Hclose)".
  symmetry in Hs. apply bool_decide_eq_false in Hs.
  iApply (wp_compare_and_swap with "Hw"). iIntros "!> Hw". destruct (Z.eqb_spec w 0) as [->|N].
  - unfold recursive_res at 1. simpl.
    iMod ("Hclose" $! true t o n with "[%] Hw Ho Hn Hc []") as "[$ Ht]".
    { split; [by auto|]. by rw bool_decide_true. }
    { unfold recursive_res. by rw (proj2 (Z.eqb_neq t 0)). }
    iModIntro. iApply "HΦ". iLeft. by iFrame.
  - iMod ("Hclose" $! false w o n with "[%] Hw Ho Hn Hc HR") as "[$ Ht]".
    { split; [by auto|]. by rw bool_decide_false. }
    iModIntro. iApply "HΦ". iRight. by iFrame.
Qed.

(** Setting the count of the mutex. *)
Lemma wp_taken t Φ :
  is_recursive_lock -∗ taken t -∗ (∀ o, inside t 1 0 o -∗ R -∗ Φ 0) -∗
  WP (Bind (Act (Store (rlock_mutex rlock + 8) 1)) (λ _, Ret 0) : expr threads) {{ Φ }}.
Proof using Type*.
  iIntros "_ (Ht & HR & (%d & Hd) & %o & Ho) HΦ". iMod (own_unit (authR natUR) gc) as "Hk".
  iApply wp_seq. iApply (wp_store with "Hd"). iIntros "!> Hd !>". iApply wp_ret.
  iApply ("HΦ" with "[-HR] HR"). iSplit; [by iPureIntro; lia|]. iFrame "Ht Hd Ho".
  iFrame "Hk".
Qed.

Lemma wp_recursive_lock t Φ :
  is_recursive_lock -∗ away t -∗ (∀ o, inside t 1 0 o -∗ R -∗ Φ 0) -∗
  WP (recursive_lock t (rlock_mutex rlock) : expr threads) {{ Φ }}.
Proof using Type*.
  iIntros "#Hlock Ht HΦ". unfold recursive_lock. iApply wp_seq.
  iApply (wp_load_recursive with "Hlock Ht"). iIntros (w) "%Hw Ht !>".
  symmetry in Hw. apply bool_decide_eq_false in Hw. rw (proj2 (Z.eqb_neq w t)); [|done].
  iApply wp_seq. unfold Do. iApply wp_seq. iApply (wp_take_recursive with "Hlock Ht").
  iIntros (r) "H !>".
  iApply (wp_while_inv (λ r : val threads, ⌜r = 0⌝ ∗ taken t ∨ ⌜r ≠ 0⌝ ∗ away t)%I with "H").
  - iIntros "!>" (y Hy) "[[-> _]|[_ Ht]]"; [done|].
    iApply (wp_take_recursive with "Hlock Ht"). by iIntros (z) "H".
  - iIntros (y Hy) "[[-> Ht]|[%N _]]"; [|by apply negb_false_iff, Z.eqb_eq in Hy].
    iNext. by iApply (wp_taken with "Hlock Ht").
Qed.

Lemma wp_recursive_again t d k o Φ :
  is_recursive_lock -∗ inside t d k o -∗ (inside t (S d) k o -∗ Φ 0) -∗
  WP (c <~ Act (Load (rlock_mutex rlock + 8));;
      Act (Store (rlock_mutex rlock + 8) (c + 1));;; Ret 0 : expr threads) {{ Φ }}.
Proof.
  iIntros "_ (%Hd & Ht & Hd & Hk & Ho) HΦ".
  iApply wp_seq. iApply (wp_load with "Hd"). iIntros "!> Hd !>".
  iApply wp_seq. iApply (wp_store with "Hd"). iIntros "!> Hd !>". iApply wp_ret. iApply "HΦ".
  replace (d + 1) with (Z.of_nat (S d)) by lia. iFrame. iPureIntro. lia.
Qed.

Lemma wp_load_inside t d k o Φ :
  is_recursive_lock -∗ inside t d k o -∗ (inside t d k o -∗ Φ t) -∗
  WP (Act (Load (rlock_mutex rlock)) : expr threads) {{ Φ }}.
Proof using Type*.
  iIntros "#Hlock (%Hd & Ht & Hrest) HΦ". iApply (wp_load_recursive with "Hlock Ht").
  iIntros (w) "%Hw Ht". symmetry in Hw. apply bool_decide_eq_true in Hw as <-. iApply "HΦ".
  by iFrame.
Qed.

Lemma wp_store_recursive_owner t d k o Φ :
  is_recursive_lock -∗ inside t d k o -∗ (inside t d k t -∗ Φ t) -∗
  WP (Act (Store (rlock_owner rlock) t) : expr threads) {{ Φ }}.
Proof using Type*.
  iIntros "[_ #Hinv] (%Hd & Ht & Hd & Hk & Ho') HΦ". iInv recursiveN as ">Hst".
  iDestruct (recursive_access with "Hst Ht") as (w o1 n [Ht0 Hs]) "(Hw & Ho & Hn & Hc & HR & Hclose)".
  iDestruct (ghost_map_elem_agree with "Ho Ho'") as %->. iCombine "Ho Ho'" as "Ho".
  iApply (wp_store with "Ho"). iIntros "!> [Ho Ho']".
  iMod ("Hclose" $! true w t n with "[%] Hw Ho Hn Hc HR") as "[$ Ht]"; [by auto|].
  iModIntro. iApply "HΦ". by iFrame.
Qed.

Lemma wp_claim_recursive t k o Φ :
  is_recursive_lock -∗ inside t (S k) k o -∗ (inside t (S k) (S k) t -∗ Φ OK) -∗
  WP (claim_recursive_lock t rlock : expr threads) {{ Φ }}.
Proof using Type*.
  iIntros "#Hlock (%Hd & Ht & Hd & Hk & Ho) HΦ". unfold claim_recursive_lock.
  iApply wp_seq. iApply (wp_add_count with "Hlock Hk"). iIntros (c) "Hk !>".
  iApply wp_seq. iApply (wp_store_recursive_owner with "Hlock [$Ht $Hd $Hk $Ho //]").
  iIntros "Ht !>". iApply wp_ret. by iApply "HΦ".
Qed.

(** Unlocking once of several times. *)
Lemma wp_unlock_once t d k o Φ :
  is_recursive_lock -∗ inside t (S (S d)) k o -∗ (inside t (S d) k o -∗ Φ 0) -∗
  WP (recursive_unlock t (rlock_mutex rlock) : expr threads) {{ Φ }}.
Proof using Type*.
  iIntros "#Hlock Ht HΦ". unfold recursive_unlock.
  iApply wp_seq. iApply (wp_load_inside with "Hlock Ht").
  iIntros "(%Hd & Ht & Hd & Hk & Ho) !>". rw Z.eqb_refl.
  iApply wp_seq. iApply (wp_load with "Hd"). iIntros "!> Hd !>".
  iApply wp_seq. iApply (wp_store with "Hd"). iIntros "!> Hd !>".
  unfold If. rw (proj2 (Z.eqb_neq (S (S d)) 1)); [|lia].
  iApply wp_seq. iApply wp_ret. iIntros "!>". iApply wp_ret. iApply "HΦ".
  replace (S (S d) - 1) with (Z.of_nat (S d)) by lia. iFrame. iPureIntro. lia.
Qed.

(** The last time: the lock is free, though the count still has the thread's
    share. *)
Lemma wp_unlock_last t k o Φ :
  is_recursive_lock -∗ inside t 1 k o -∗ R -∗ (away t -∗ added k -∗ Φ 0) -∗
  WP (recursive_unlock t (rlock_mutex rlock) : expr threads) {{ Φ }}.
Proof using Type*.
  iIntros "#Hlock Ht HR HΦ". unfold recursive_unlock.
  iApply wp_seq. iApply (wp_load_inside with "Hlock Ht").
  iIntros "(%Hd & Ht & Hd & Hk & Ho') !>". rw Z.eqb_refl.
  iApply wp_seq. iApply (wp_load with "Hd"). iIntros "!> Hd !>".
  iApply wp_seq. iApply (wp_store with "Hd"). iIntros "!> Hd !>".
  iApply wp_seq. simpl. iDestruct "Hlock" as "[_ Hinv]". iInv recursiveN as ">Hst".
  iDestruct (recursive_access with "Hst Ht") as (w o1 n [Ht0 Hs]) "(Hw & Ho & Hn & Hc & _ & Hclose)".
  symmetry in Hs. apply bool_decide_eq_true in Hs as <-.
  iApply (wp_store with "Hw"). iIntros "!> Hw".
  iMod ("Hclose" $! false 0 o1 n with "[%] Hw Ho Hn Hc [HR Hd Ho']") as "[$ Ht]".
  { split; [by auto|]. by rw bool_decide_false. }
  { unfold recursive_res. simpl. iFrame. }
  iIntros "!> !>". iApply wp_ret. by iApply ("HΦ" with "Ht").
Qed.

(** *** The primitives *)

Lemma wp_wait_for_recursive_lock t Φ :
  is_recursive_lock -∗ away t -∗ (inside t 1 1 t -∗ R -∗ Φ OK) -∗
  WP (primitive_wait_for_recursive_lock t lock : expr threads) {{ Φ }}.
Proof using Type*.
  iIntros "#Hlock Ht HΦ". unfold primitive_wait_for_recursive_lock. iApply wp_seq.
  iApply wp_get_handle; [by iDestruct "Hlock" as "[$ _]"|]. iIntros "!>".
  iApply wp_seq. iApply (wp_recursive_lock with "Hlock Ht"). iIntros (o) "Ht HR !>". simpl.
  iApply (wp_claim_recursive with "Hlock Ht"). iIntros "Ht". by iApply ("HΦ" with "Ht").
Qed.

Lemma wp_wait_for_recursive_lock_again t k Φ :
  is_recursive_lock -∗ inside t k k t -∗ (inside t (S k) (S k) t -∗ Φ OK) -∗
  WP (primitive_wait_for_recursive_lock t lock : expr threads) {{ Φ }}.
Proof using Type*.
  iIntros "#Hlock Ht HΦ". unfold primitive_wait_for_recursive_lock. iApply wp_seq.
  iApply wp_get_handle; [by iDestruct "Hlock" as "[$ _]"|]. iIntros "!>".
  iApply wp_seq. unfold recursive_lock. iApply wp_seq. iApply (wp_load_inside with "Hlock Ht").
  iIntros "Ht !>". rw Z.eqb_refl. iApply (wp_recursive_again with "Hlock Ht").
  iIntros "Ht !>". simpl. by iApply (wp_claim_recursive with "Hlock Ht").
Qed.

Lemma wp_recursive_tries limit n t Φ :
  is_recursive_lock -∗ away t -∗
  (∀ r, ⌜r = 0⌝ ∗ (∃ o, inside t 1 0 o) ∗ R ∨ ⌜not_locked limit r⌝ ∗ away t -∗ Φ r) -∗
  WP (recursive_tries limit n t (rlock_mutex rlock) : expr threads) {{ Φ }}.
Proof using Type*.
  iIntros "#Hlock Ht HΦ". iInduction n as [|n] "IH"; simpl; iApply wp_seq;
    (iApply (wp_take_recursive with "Hlock Ht"); iIntros (r) "[[-> Ht]|[%N Ht]] !>";
      [iApply (wp_taken with "Hlock Ht"); iIntros (o) "Ht HR"; iApply "HΦ"; iLeft; by iFrame|
       rw (proj2 (Z.eqb_neq r 0)) //; destruct (valid_time limit) eqn:Hlimit; simpl]).
  2, 4: iApply wp_ret; iApply "HΦ"; iRight; iFrame; iPureIntro; by right.
  - iApply wp_ret. iApply "HΦ". iRight. iFrame. iPureIntro. by left.
  - by iApply ("IH" with "Ht").
Qed.

Lemma wp_wait_for_recursive_lock_timed now tries t ms Φ :
  IS_ZINT ms = true →
  is_recursive_lock -∗ away t -∗
  (∀ r, ⌜r = OK⌝ ∗ inside t 1 1 t ∗ R ∨ ⌜not_in_time now ms r⌝ ∗ away t -∗ Φ r) -∗
  WP (primitive_wait_for_recursive_lock_timed now tries t lock ms : expr threads) {{ Φ }}.
Proof using Type*.
  iIntros (Hms) "#Hlock Ht HΦ". unfold primitive_wait_for_recursive_lock_timed. iApply wp_seq.
  iApply wp_assert_handle; [by iDestruct "Hlock" as "[$ _]"|]. iIntros "!>".
  iApply wp_seq. iApply wp_assert; [done|]. iIntros "!>".
  iApply wp_seq. iApply wp_load_handle; [by iDestruct "Hlock" as "[$ _]"|]. iIntros "!>".
  iApply wp_seq. unfold recursive_timedlock. iApply wp_seq.
  iApply (wp_load_recursive with "Hlock Ht"). iIntros (w) "%Hw Ht !>".
  symmetry in Hw. apply bool_decide_eq_false in Hw. rw (proj2 (Z.eqb_neq w t)); [|done].
  iApply (wp_recursive_tries with "Hlock Ht").
  iIntros (r) "[(-> & (%o & Ht) & HR)|[%Hr Ht]] !>".
  - iApply (wp_claim_recursive with "Hlock Ht"). iIntros "Ht". iApply "HΦ". iLeft. by iFrame.
  - destruct Hr as [-> |[-> Hlimit]]; iApply wp_ret; iApply "HΦ"; iRight; iFrame;
      iPureIntro; [by left|by right].
Qed.

Lemma wp_wait_for_recursive_lock_timed_again now tries t k ms Φ :
  IS_ZINT ms = true →
  is_recursive_lock -∗ inside t k k t -∗ (inside t (S k) (S k) t -∗ Φ OK) -∗
  WP (primitive_wait_for_recursive_lock_timed now tries t lock ms : expr threads) {{ Φ }}.
Proof using Type*.
  iIntros (Hms) "#Hlock Ht HΦ". unfold primitive_wait_for_recursive_lock_timed. iApply wp_seq.
  iApply wp_assert_handle; [by iDestruct "Hlock" as "[$ _]"|]. iIntros "!>".
  iApply wp_seq. iApply wp_assert; [done|]. iIntros "!>".
  iApply wp_seq. iApply wp_load_handle; [by iDestruct "Hlock" as "[$ _]"|]. iIntros "!>".
  iApply wp_seq. unfold recursive_timedlock. iApply wp_seq. iApply (wp_load_inside with "Hlock Ht").
  iIntros "Ht !>". rw Z.eqb_refl. iApply (wp_recursive_again with "Hlock Ht").
  iIntros "Ht !>". simpl. by iApply (wp_claim_recursive with "Hlock Ht").
Qed.

(** Releasing once of several times, and for the last time. *)
Lemma wp_release_recursive_lock_once t k Φ :
  is_recursive_lock -∗ inside t (S (S k)) (S (S k)) t -∗ (inside t (S k) (S k) t -∗ Φ OK) -∗
  WP (primitive_release_recursive_lock t lock : expr threads) {{ Φ }}.
Proof using Type*.
  iIntros "#Hlock Ht HΦ". unfold primitive_release_recursive_lock. iApply wp_seq.
  iApply wp_get_handle; [by iDestruct "Hlock" as "[$ _]"|]. iIntros "!>".
  iApply wp_seq. iApply (wp_unlock_once with "Hlock Ht").
  iIntros "(%Hd & Ht & Hd & Hk & Ho) !>". simpl.
  iApply wp_seq. iApply (wp_sub_count with "Hlock Hk"). iIntros (c) "Hk !>". iApply wp_ret.
  iApply "HΦ". by iFrame.
Qed.

Lemma wp_release_recursive_lock t Φ :
  is_recursive_lock -∗ inside t 1 1 t -∗ R -∗ (away t -∗ Φ OK) -∗
  WP (primitive_release_recursive_lock t lock : expr threads) {{ Φ }}.
Proof using Type*.
  iIntros "#Hlock Ht HR HΦ". unfold primitive_release_recursive_lock. iApply wp_seq.
  iApply wp_get_handle; [by iDestruct "Hlock" as "[$ _]"|]. iIntros "!>".
  iApply wp_seq. iApply (wp_unlock_last with "Hlock Ht HR").
  iIntros "Ht Hk !>". simpl.
  iApply wp_seq. iApply (wp_sub_count with "Hlock Hk"). iIntros (c) "_ !>". iApply wp_ret.
  by iApply "HΦ".
Qed.

Lemma wp_owned_recursive t k Φ :
  is_recursive_lock -∗ inside t k k t -∗ (inside t k k t -∗ Φ (I 1)) -∗
  WP (primitive_owned_recursive_lock t lock : expr threads) {{ Φ }}.
Proof using Type*.
  iIntros "#Hlock (%Hd & Ht & Hd & Hk & Ho) HΦ". unfold primitive_owned_recursive_lock.
  iApply wp_seq. iApply wp_get_handle; [by iDestruct "Hlock" as "[$ _]"|]. iIntros "!>".
  iApply wp_seq. iApply (wp_load with "Ho"). iIntros "!> Ho !>". rw Z.eqb_refl.
  iApply wp_seq. iApply (wp_load_count with "Hlock Hk"). iIntros (c) "%Hc Hk !>".
  rw (proj2 (Z.eqb_neq c 0)); [|lia]. iApply wp_ret. iApply "HΦ". by iFrame.
Qed.

(** A thread that does not hold the lock can be told that it does. *)
Lemma wp_owned_recursive_away t Φ :
  is_recursive_lock -∗ away t -∗ (∀ r, ⌜r = I 0 ∨ r = I 1⌝ -∗ away t -∗ Φ r) -∗
  WP (primitive_owned_recursive_lock t lock : expr threads) {{ Φ }}.
Proof using Type*.
  iIntros "#Hlock Ht HΦ". unfold primitive_owned_recursive_lock.
  iApply wp_seq. iApply wp_get_handle; [by iDestruct "Hlock" as "[$ _]"|]. iIntros "!>".
  iApply wp_seq. iAssert (WP (Act (Load (rlock_owner rlock)) : expr threads) {{ _, away t }})%I
    with "[Ht]" as "Hload".
  { iDestruct "Hlock" as "[_ Hinv]". iInv recursiveN as ">Hst".
    iDestruct (recursive_access with "Hst Ht") as (w o1 n [Ht0 Hs]) "(Hw & Ho & Hn & Hc & HR & Hclose)".
    iApply (wp_load with "Ho"). iIntros "!> Ho".
    by iMod ("Hclose" $! false w o1 n with "[%] Hw Ho Hn Hc HR") as "[$ $]"; [auto|]. }
  iApply (wp_wand with "Hload"). iIntros (o) "Ht !>". destruct (o =? t).
  - iMod (own_unit (authR natUR) gc) as "Hk". iApply wp_seq.
    iApply (wp_load_count 0 with "Hlock Hk"). iIntros (c) "_ _ !>".
    destruct (negb (c =? 0)); iApply wp_ret; iApply ("HΦ" with "[%] Ht"); auto.
  - iApply wp_ret. iApply ("HΦ" with "[%] Ht"). auto.
Qed.

Lemma recursive_enroll t v :
  t ≠ 0 →
  recursive_state -∗ teb_thread t ↦ v -∗
  teb_thread t ↦ v ∗ (thread_block t ==∗ recursive_state ∗ away t).
Proof.
  iIntros (Ht0) "(%M & %w & %o & %n & HM & Hthreads & Hw & Ho & Hn & Hc & (%HM & %Hdw) & HR) Hv".
  iDestruct (threads_of_new with "Hv Hthreads") as %Hnew. iFrame "Hv". iIntros "Hb".
  iMod (ghost_map_insert t false with "HM") as "[HM $]"; [done|]. iModIntro.
  iExists _, w, o, n. iFrame "HM Hw Ho HR Hn Hc". iSplitL "Hthreads Hb".
  - by iApply (threads_of_insert with "Hb Hthreads").
  - iPureIntro. assert (t ≠ w) as Hne by (destruct Hdw as [->|[a Ha]]; congruence). split.
    + apply map_Forall_insert_2; [by rw bool_decide_false|done].
    + rw lookup_insert_ne; [done|by auto].
Qed.
End recursive.

(** ** Making recursive locks *)

Section making.
Context `{!lockGS Σ}.

Lemma recursive_alloc lock rlock R `{!Timeless R} E :
  lock ≠ NULL → rlock ≠ NULL →
  container_handle lock ↦ rlock -∗ rlock_mutex rlock ↦ 0 -∗ (∃ d : Z, (rlock_mutex rlock + 8) ↦ d) -∗
  rlock_owner rlock ↦ 0 -∗ rlock_count rlock ↦ 0 -∗ R ={E}=∗
  ∃ g gc, is_recursive_lock g gc lock rlock R.
Proof.
  iIntros (Hl Hs) "Hc Hw Hd [Ho Ho'] Hn HR". iMod (ghost_map_elem_persist with "Hc") as "Hc".
  iMod (ghost_map_alloc_empty (K := Z) (V := bool)) as (g) "HM".
  iMod (own_alloc (● 0%nat)) as (gc) "Hcount"; [by apply auth_auth_valid|]. iExists g, gc.
  iMod (inv_alloc recursiveN _ (recursive_state g gc rlock R) with "[-Hc]") as "$".
  - iNext. iExists ∅, 0, 0, 0%nat. iFrame "HM Hw Ho Hn Hcount".
    iSplit; [iSplit; [done|by iApply big_sepM_empty]|].
    iSplit; [iPureIntro; split; [apply map_Forall_empty|by left]|].
    unfold recursive_res. simpl. iFrame.
  - iModIntro. by iFrame.
Qed.

Lemma wp_make_recursive_lock r lock v Φ :
  lock ≠ NULL →
  container_handle lock ↦ v -∗
  (∀ res, ⌜res = OK⌝ ∗ (∃ rlock, ⌜rlock ≠ NULL⌝ ∗ container_handle lock ↦ rlock ∗
      rlock_mutex rlock ↦ 0 ∗ (∃ d : Z, (rlock_mutex rlock + 8) ↦ d) ∗ rlock_owner rlock ↦ 0 ∗
      rlock_count rlock ↦ 0) ∨
    ⌜res = GENERAL_ERROR⌝ ∗ container_handle lock ↦ v -∗ Φ res) -∗
  WP (primitive_make_recursive_lock r lock : expr threads) {{ Φ }}.
Proof.
  iIntros (Hl) "Hc HΦ". unfold primitive_make_recursive_lock.
  iApply wp_seq. iApply wp_assert; [by apply negb_true_iff, Z.eqb_neq|]. iIntros "!>".
  iApply wp_seq. iApply wp_allocate. iIntros "!>" (p Hp) "Hw !>".
  rw (proj2 (Z.eqb_neq p NULL)); [|unfold NULL; lia].
  destruct (mutex_made r).
  - rw words_fields. iDestruct "Hw" as "(Ho & Hn & Hm & Hd & _)".
    iApply wp_seq. iApply (wp_store with "Hm"). iIntros "!> Hm !>".
    iApply wp_seq. iApply (wp_store with "Ho"). iIntros "!> Ho !>".
    iApply wp_seq. iApply (wp_store with "Hn"). iIntros "!> Hn !>".
    iApply wp_seq. iApply (wp_store with "Hc"). iIntros "!> Hc !>".
    iApply wp_ret. iApply "HΦ". iLeft. iSplit; [done|]. iExists p. iFrame. iSplit.
    + iPureIntro. unfold NULL. lia.
    + iExists 0. unfold rlock_mutex. by rw idx_next.
  - iApply wp_seq. iApply (wp_deallocate with "Hw"); [done|]. iIntros "!> !>".
    iApply wp_ret. iApply "HΦ". iRight. by iFrame.
Qed.
End making.
