(* ===== verification/LockClients.v ===== *)
(** * Programs that use locks

    Threads that share a simple lock with a notification, a recursive lock, and a
    word each of them protects.  The specification of such a program sees the word
    only while it holds the lock, and then nobody else does; the theorem is that
    all interleavings agree with it. *)

From S2P Require Import Prelude Memory Tagging Concur ConcurLogic Tlv Locks LockLaws RecursiveLaws.
From stdpp Require Import base tactics option list numbers gmap fin_maps.
From Stdlib Require Import ZArith Lia.
From iris.proofmode Require Import proofmode.
From iris.algebra Require Import auth numbers.
From iris.base_logic.lib Require Import invariants token ghost_map own.
From iris.program_logic Require Import weakestpre adequacy.

Local Open Scope Z_scope.

(** ** Clients *)

(** The objects they share: containers of locks and of a notification, and the
    words the locks protect. *)
Record objects := mkObjects {
  o_lock : Z; o_notification : Z; o_word : Z;
  o_recursive_lock : Z; o_recursive_word : Z
}.

Inductive lock_client :=
| Finish (v : Z)
| Failure
| Wait (k : Z → lock_client)
| Wait_timed (now : timespec) (tries : timespec → nat) (ms : Z) (k : Z → lock_client)
| Release (k : Z → lock_client)
| Unlock_simple (k : Z → lock_client)
| Owned (k : Z → lock_client)
| Wait_notification (k : Z → lock_client)
| Wait_notification_timed (now : timespec) (up : timespec → bool) (ms : Z) (k : Z → lock_client)
| Release_notification (all : bool) (k : Z → lock_client)
| Get (k : Z → lock_client)
| Put (v : Z) (k : lock_client)
| Wait_recursive (k : Z → lock_client)
| Wait_recursive_timed (now : timespec) (tries : timespec → nat) (ms : Z) (k : Z → lock_client)
| Release_recursive (k : Z → lock_client)
| Owned_recursive (k : Z → lock_client)
| Get_recursive (k : Z → lock_client)
| Put_recursive (v : Z) (k : lock_client)
| Start (c k : lock_client).

Fixpoint run_lock_client (e : objects) (c : lock_client) (teb : Z) : prog :=
  match c with
  | Finish v => Ret v
  | Failure => Act (Load NULL)
  | Wait k =>
      r <~ primitive_wait_for_simple_lock teb (o_lock e);; run_lock_client e (k r) teb
  | Wait_timed now tries ms k =>
      r <~ primitive_wait_for_simple_lock_timed now tries teb (o_lock e) ms;;
      run_lock_client e (k r) teb
  | Release k =>
      r <~ primitive_release_simple_lock teb (o_lock e);; run_lock_client e (k r) teb
  | Unlock_simple k =>
      r <~ primitive_unlock_simple_lock teb (o_lock e);; run_lock_client e (k r) teb
  | Owned k =>
      r <~ primitive_owned_simple_lock teb (o_lock e);; run_lock_client e (k r) teb
  | Wait_notification k =>
      r <~ primitive_wait_for_notification teb (o_notification e) (o_lock e);;
      run_lock_client e (k r) teb
  | Wait_notification_timed now up ms k =>
      r <~ primitive_wait_for_notification_timed now up teb (o_notification e) (o_lock e) ms;;
      run_lock_client e (k r) teb
  | Release_notification all k =>
      r <~ (if all then primitive_release_all_notification (o_notification e) (o_lock e)
            else primitive_release_notification (o_notification e) (o_lock e));;
      run_lock_client e (k r) teb
  | Get k => v <~ Act (Load (o_word e));; run_lock_client e (k v) teb
  | Put v k => Act (Store (o_word e) v);;; run_lock_client e k teb
  | Wait_recursive k =>
      r <~ primitive_wait_for_recursive_lock teb (o_recursive_lock e);;
      run_lock_client e (k r) teb
  | Wait_recursive_timed now tries ms k =>
      r <~ primitive_wait_for_recursive_lock_timed now tries teb (o_recursive_lock e) ms;;
      run_lock_client e (k r) teb
  | Release_recursive k =>
      r <~ primitive_release_recursive_lock teb (o_recursive_lock e);;
      run_lock_client e (k r) teb
  | Owned_recursive k =>
      r <~ primitive_owned_recursive_lock teb (o_recursive_lock e);;
      run_lock_client e (k r) teb
  | Get_recursive k => v <~ Act (Load (o_recursive_word e));; run_lock_client e (k v) teb
  | Put_recursive v k => Act (Store (o_recursive_word e) v);;; run_lock_client e k teb
  | Start c k =>
      Fork (teb <~ make_teb;; run_lock_client e c teb);;; run_lock_client e k teb
  end.

(** The process makes the objects, with [v] and [w] in the words, and runs [c];
    [r1], [r2] and [r3] are what the pthread library answers. *)
Definition lock_process (r1 r2 : mutex_results) (r3 : Z) (v w : Z) (c : lock_client) : prog :=
  lock <~ Act (Allocate [0; 0]);;
  notification <~ Act (Allocate [0; 0]);;
  word <~ Act (Allocate [v]);;
  recursive_lock <~ Act (Allocate [0; 0]);;
  recursive_word <~ Act (Allocate [w]);;
  a <~ primitive_make_simple_lock r1 lock;;
  b <~ primitive_make_notification r3 notification;;
  d <~ primitive_make_recursive_lock r2 recursive_lock;;
  if (a =? OK) && (b =? OK) && (d =? OK) then
    teb <~ make_teb;;
    run_lock_client (mkObjects lock notification word recursive_lock recursive_word) c teb
  else halt.

(** What a thread knows: the value of the protected word while it holds the
    simple lock, and whether [owned?] is certain to say so, which a wait for a
    notification ends; and the value of the other word while it holds the
    recursive lock, and how many times more than once.  [P] and [Q] are what the
    words satisfy while the locks are free. *)
Fixpoint lock_client_spec (P Q : Z → Prop) (c : lock_client)
    (s : option (Z * bool)) (r : option (Z * nat)) (Φ : Z → Prop) : Prop :=
  match c with
  | Finish v => Φ v
  | Failure => False
  | Wait k =>
      match s with
      | None => ∀ v, P v → lock_client_spec P Q (k OK) (Some (v, true)) r Φ
      | Some _ => lock_client_spec P Q (k ALREADY_LOCKED) s r Φ
      end
  | Wait_timed now _ ms k =>
      IS_ZINT ms = true ∧
      match s with
      | None =>
          (∀ v, P v → lock_client_spec P Q (k OK) (Some (v, true)) r Φ) ∧
          ∀ x, not_in_time now ms x → lock_client_spec P Q (k x) None r Φ
      | Some _ => lock_client_spec P Q (k ALREADY_LOCKED) s r Φ
      end
  | Release k =>
      match s with
      | None => False
      | Some (v, _) => P v ∧ lock_client_spec P Q (k OK) None r Φ
      end
  | Unlock_simple k =>
      match s with
      | Some (v, true) => P v ∧ lock_client_spec P Q (k OK) None r Φ
      | _ => False
      end
  | Owned k =>
      match s with
      | None => lock_client_spec P Q (k (I 0)) s r Φ
      | Some (_, b) =>
          lock_client_spec P Q (k (I 1)) s r Φ ∧
          (b = false → lock_client_spec P Q (k (I 0)) s r Φ)
      end
  | Wait_notification k =>
      match s with
      | None => False
      | Some (v, _) => P v ∧ ∀ v, P v → lock_client_spec P Q (k OK) (Some (v, false)) r Φ
      end
  | Wait_notification_timed now _ ms k =>
      IS_ZINT ms = true ∧
      match s with
      | None => False
      | Some (v, b) =>
          P v ∧
          (∀ v, P v → lock_client_spec P Q (k OK) (Some (v, false)) r Φ ∧
            lock_client_spec P Q (k TIMEOUT) (Some (v, false)) r Φ) ∧
          (valid_time (timeout_end now ms) = false →
            ∀ v, P v → lock_client_spec P Q (k GENERAL_ERROR) (Some (v, b)) r Φ)
      end
  | Release_notification _ k => lock_client_spec P Q (k OK) s r Φ
  | Get k =>
      match s with
      | None => False
      | Some (v, _) => lock_client_spec P Q (k v) s r Φ
      end
  | Put v k =>
      match s with
      | None => False
      | Some (_, b) => lock_client_spec P Q k (Some (v, b)) r Φ
      end
  | Wait_recursive k =>
      match r with
      | None => ∀ v, Q v → lock_client_spec P Q (k OK) s (Some (v, O)) Φ
      | Some (v, n) => lock_client_spec P Q (k OK) s (Some (v, S n)) Φ
      end
  | Wait_recursive_timed now _ ms k =>
      IS_ZINT ms = true ∧
      match r with
      | None =>
          (∀ v, Q v → lock_client_spec P Q (k OK) s (Some (v, O)) Φ) ∧
          ∀ x, not_in_time now ms x → lock_client_spec P Q (k x) s None Φ
      | Some (v, n) => lock_client_spec P Q (k OK) s (Some (v, S n)) Φ
      end
  | Release_recursive k =>
      match r with
      | None => False
      | Some (v, O) => Q v ∧ lock_client_spec P Q (k OK) s None Φ
      | Some (v, S n) => lock_client_spec P Q (k OK) s (Some (v, n)) Φ
      end
  | Owned_recursive k =>
      lock_client_spec P Q (k (I 1)) s r Φ ∧
      (r = None → lock_client_spec P Q (k (I 0)) s r Φ)
  | Get_recursive k =>
      match r with
      | None => False
      | Some (v, _) => lock_client_spec P Q (k v) s r Φ
      end
  | Put_recursive v k =>
      match r with
      | None => False
      | Some (_, n) => lock_client_spec P Q k s (Some (v, n)) Φ
      end
  | Start c k =>
      lock_client_spec P Q c None None (λ _, True) ∧ lock_client_spec P Q k s r Φ
  end.

(** ** Clients meet their specification *)

Section lock_clients.
Context `{!lockGS Σ} (g gr gc : gname) (e : objects) (slock rlock n : Z) (P Q : Z → Prop).

Definition word_res : iProp Σ := ∃ v, o_word e ↦ v ∗ ⌜P v⌝.
Definition recursive_word_res : iProp Σ := ∃ v, o_recursive_word e ↦ v ∗ ⌜Q v⌝.

Definition the_lock : iProp Σ := is_simple_lock g (o_lock e) slock word_res.
Definition the_recursive_lock : iProp Σ :=
  is_recursive_lock gr gc (o_recursive_lock e) rlock recursive_word_res.

(** What a thread has. *)
Definition has (t : Z) (s : option (Z * bool)) : iProp Σ :=
  match s with
  | None => outside g t
  | Some (v, b) => holding g slock t b ∗ o_word e ↦ v
  end.

Definition has_recursive (t : Z) (r : option (Z * nat)) : iProp Σ :=
  match r with
  | None => away gr t
  | Some (v, k) => inside gr gc rlock t (S k) (S k) t ∗ o_recursive_word e ↦ v
  end.

Lemma new_thread t v :
  t ≠ 0 → the_lock -∗ the_recursive_lock -∗ teb_thread t ↦ v ={⊤}=∗
  has t None ∗ has_recursive t None.
Proof.
  iIntros (Ht) "[_ #H1] [_ #H2] Hv".
  iInv simpleN as ">Hs". iInv recursiveN as ">Hr".
  iDestruct (simple_enroll with "Hs Hv") as "[Hv Hs]"; [done|].
  iDestruct (recursive_enroll with "Hr Hv") as "[Hv Hr]"; [done|].
  iMod (ghost_map_elem_persist with "Hv") as "#Hv".
  iMod ("Hs" with "[]") as "[$ $]"; [by iExists v|].
  iMod ("Hr" with "[]") as "[$ $]"; [by iExists v|]. done.
Qed.

Lemma wp_lock_client c t s r (φ : Z → Prop) :
  lock_client_spec P Q c s r φ →
  the_lock -∗ the_recursive_lock -∗ handle_is (o_notification e) n -∗
  has t s -∗ has_recursive t r -∗
  WP (run_lock_client e c t : expr threads) {{ v, ⌜φ v⌝ }}.
Proof.
  iIntros (Hc) "#Hl #Hr #Hn Hs Hrs".
  iInduction c as [v| |k IH|now tries ms k IH|k IH|k IH|k IH|k IH|now up ms k IH|all k IH|k IH|v k IH
    |k IH|now tries ms k IH|k IH|k IH|k IH|v k IH|c IHc k IHk] forall (t s r φ Hc);
    cbn [run_lock_client]; simpl in Hc.
  - by iApply wp_ret.
  - done.
  - iApply wp_seq. destruct s as [[v b]|].
    + iDestruct "Hs" as "[Ht Hv]". iApply (wp_wait_for_simple_lock_held with "Hl Ht").
      iIntros "Ht !>". by iApply ("IH" with "[//] [$Ht $Hv] Hrs").
    + iApply (wp_wait_for_simple_lock with "Hl Hs"). iIntros "Ht (%v & Hv & %Hv) !>".
      iApply ("IH" $! _ _ (Some (v, true)) with "[%] [$Ht $Hv] Hrs"). by apply Hc.
  - destruct Hc as [Hms Hc]. iApply wp_seq. destruct s as [[v b]|].
    + iDestruct "Hs" as "[Ht Hv]". iApply (wp_wait_for_simple_lock_timed_held with "Hl Ht"); [done|].
      iIntros "Ht !>". by iApply ("IH" with "[//] [$Ht $Hv] Hrs").
    + iApply (wp_wait_for_simple_lock_timed with "Hl Hs"); [done|].
      iIntros (x) "[(-> & Ht & %v & Hv & %Hv)|[%Hx Ht]] !>".
      * iApply ("IH" $! _ _ (Some (v, true)) with "[%] [$Ht $Hv] Hrs"). by apply Hc.
      * iApply ("IH" $! _ _ None with "[%] Ht Hrs"). by apply Hc.
  - destruct s as [[v b]|]; [|done]. destruct Hc as [Hv Hc]. iDestruct "Hs" as "[Ht Hv]".
    iApply wp_seq. iApply (wp_release_simple_lock with "Hl Ht [Hv]"); [by iExists v; iFrame|].
    iIntros "Ht !>". by iApply ("IH" $! _ _ None with "[//] Ht Hrs").
  - destruct s as [[v [|]]|]; [|done..]. destruct Hc as [Hv Hc]. iDestruct "Hs" as "[Ht Hv]".
    iApply wp_seq. iApply (wp_unlock_simple_lock with "Hl Ht [Hv]"); [by iExists v; iFrame|].
    iIntros "Ht !>". by iApply ("IH" $! _ _ None with "[//] Ht Hrs").
  - iApply wp_seq. destruct s as [[v b]|].
    + destruct Hc as [H1 H0]. iDestruct "Hs" as "[Ht Hv]". iApply (wp_owned with "Hl Ht").
      iIntros (x) "%Hx Ht !>". iApply ("IH" $! _ _ (Some (v, b)) with "[%] [$Ht $Hv] Hrs").
      destruct Hx as [->|[Hb ->]]; auto.
    + iApply (wp_owned_outside with "Hl Hs"). iIntros "Ht !>".
      by iApply ("IH" $! _ _ None with "[//] Ht Hrs").
  - destruct s as [[v b]|]; [|done]. destruct Hc as [Hv Hc]. iDestruct "Hs" as "[Ht Hv]".
    iApply wp_seq. iApply (wp_wait_for_notification with "Hn Hl Ht [Hv]"); [by iExists v; iFrame|].
    iIntros "Ht (%v' & Hv & %Hv') !>".
    iApply ("IH" $! _ _ (Some (v', false)) with "[%] [$Ht $Hv] Hrs"). by apply Hc.
  - destruct Hc as [Hms Hc]. destruct s as [[v b]|]; [|done]. destruct Hc as [Hv Hc].
    iDestruct "Hs" as "[Ht Hv]".
    iApply wp_seq. iApply (wp_wait_for_notification_timed with "Hn Hl Ht [Hv]");
      [done|by iExists v; iFrame|].
    destruct Hc as [Hc Hbad].
    iIntros (x) "[(%Hx & Ht & %v' & Hv & %Hv')|([-> %Hlimit] & Ht & %v' & Hv & %Hv')] !>".
    + iApply ("IH" $! _ _ (Some (v', false)) with "[%] [$Ht $Hv] Hrs").
      destruct Hx as [-> | ->]; by apply Hc.
    + iApply ("IH" $! _ _ (Some (v', b)) with "[%] [$Ht $Hv] Hrs"). by apply Hbad.
  - iApply wp_seq. iAssert (∀ Ψ : val threads → iProp Σ, Ψ OK -∗
      WP ((if all then primitive_release_all_notification (o_notification e) (o_lock e)
           else primitive_release_notification (o_notification e) (o_lock e)) : expr threads)
        {{ Ψ }})%I as "Hrel".
    { iIntros (Ψ) "HΨ". iDestruct (wp_release_notification with "Hn Hl HΨ") as "H".
      destruct all; [by iDestruct "H" as "[_ $]"|by iDestruct "H" as "[$ _]"]. }
    iApply "Hrel". iIntros "!>". by iApply ("IH" with "[//] Hs Hrs").
  - destruct s as [[v b]|]; [|done]. iDestruct "Hs" as "[Ht Hv]".
    iApply wp_seq. iApply (wp_load with "Hv"). iIntros "!> Hv !>".
    by iApply ("IH" $! _ _ (Some (v, b)) with "[//] [$Ht $Hv] Hrs").
  - destruct s as [[v' b]|]; [|done]. iDestruct "Hs" as "[Ht Hv]".
    iApply wp_seq. iApply (wp_store with "Hv"). iIntros "!> Hv !>".
    by iApply ("IH" $! _ (Some (v, b)) with "[//] [$Ht $Hv] Hrs").
  - iApply wp_seq. destruct r as [[v d]|].
    + iDestruct "Hrs" as "[Ht Hv]". iApply (wp_wait_for_recursive_lock_again with "Hr Ht").
      iIntros "Ht !>". by iApply ("IH" $! _ _ _ (Some (v, S d)) with "[//] Hs [$Ht $Hv]").
    + iApply (wp_wait_for_recursive_lock with "Hr Hrs"). iIntros "Ht (%v & Hv & %Hv) !>".
      iApply ("IH" $! _ _ _ (Some (v, O)) with "[%] Hs [$Ht $Hv]"). by apply Hc.
  - destruct Hc as [Hms Hc]. iApply wp_seq. destruct r as [[v d]|].
    + iDestruct "Hrs" as "[Ht Hv]".
      iApply (wp_wait_for_recursive_lock_timed_again with "Hr Ht"); [done|].
      iIntros "Ht !>". by iApply ("IH" $! _ _ _ (Some (v, S d)) with "[//] Hs [$Ht $Hv]").
    + iApply (wp_wait_for_recursive_lock_timed with "Hr Hrs"); [done|].
      iIntros (x) "[(-> & Ht & %v & Hv & %Hv)|[%Hx Ht]] !>".
      * iApply ("IH" $! _ _ _ (Some (v, O)) with "[%] Hs [$Ht $Hv]"). by apply Hc.
      * iApply ("IH" $! _ _ _ None with "[%] Hs Ht"). by apply Hc.
  - destruct r as [[v [|d]]|]; [| |done].
    + destruct Hc as [Hv Hc]. iDestruct "Hrs" as "[Ht Hv]". iApply wp_seq.
      iApply (wp_release_recursive_lock with "Hr Ht [Hv]"); [by iExists v; iFrame|].
      iIntros "Ht !>". by iApply ("IH" $! _ _ _ None with "[//] Hs Ht").
    + iDestruct "Hrs" as "[Ht Hv]". iApply wp_seq.
      iApply (wp_release_recursive_lock_once with "Hr Ht").
      iIntros "Ht !>". by iApply ("IH" $! _ _ _ (Some (v, d)) with "[//] Hs [$Ht $Hv]").
  - destruct Hc as [H1 H0]. iApply wp_seq. destruct r as [[v d]|].
    + iDestruct "Hrs" as "[Ht Hv]". iApply (wp_owned_recursive with "Hr Ht"). iIntros "Ht !>".
      by iApply ("IH" $! _ _ _ (Some (v, d)) with "[//] Hs [$Ht $Hv]").
    + iApply (wp_owned_recursive_away with "Hr Hrs"). iIntros (x) "%Hx Ht !>".
      iApply ("IH" $! _ _ _ None with "[%] Hs Ht"). destruct Hx as [-> | ->]; auto.
  - destruct r as [[v d]|]; [|done]. iDestruct "Hrs" as "[Ht Hv]".
    iApply wp_seq. iApply (wp_load with "Hv"). iIntros "!> Hv !>".
    by iApply ("IH" $! _ _ _ (Some (v, d)) with "[//] Hs [$Ht $Hv]").
  - destruct r as [[v' d]|]; [|done]. iDestruct "Hrs" as "[Ht Hv]".
    iApply wp_seq. iApply (wp_store with "Hv"). iIntros "!> Hv !>".
    by iApply ("IH" $! _ _ (Some (v, d)) with "[//] Hs [$Ht $Hv]").
  - destruct Hc as [Hc Hk]. iApply wp_seq. iApply wp_fork.
    + iNext. iApply (wp_wand _ _ _ (λ v : val threads, ⌜True⌝)%I); [|by iIntros (v) "_"].
      iApply wp_seq. iApply wp_allocate. iIntros "!>" (teb Hteb) "Hteb !>".
      rw words_fields. iDestruct "Hteb" as "(_ & Hteb & _)".
      iApply fupd_wp. iMod (new_thread with "Hl Hr Hteb") as "[H1 H2]"; [lia|]. iModIntro.
      by iApply ("IHc" with "[//] H1 H2").
    + iIntros "!> !>". by iApply ("IHk" with "[//] Hs Hrs").
Qed.
End lock_clients.

(** ** All interleavings *)

Lemma wp_lock_process `{!lockGS Σ} r1 r2 r3 v w c P Q (φ : Z → Prop) :
  P v → Q w → lock_client_spec P Q c None None φ →
  ⊢ WP (lock_process r1 r2 r3 v w c : expr threads) {{ x, ⌜φ x⌝ }}.
Proof.
  iIntros (Hv Hw Hc). unfold lock_process.
  iApply wp_seq. iApply wp_allocate. iIntros "!>" (lock Hl) "Hlock !>".
  iApply wp_seq. iApply wp_allocate. iIntros "!>" (notif Hn) "Hnotif !>".
  iApply wp_seq. iApply wp_allocate. iIntros "!>" (word Hword) "Hword !>".
  iApply wp_seq. iApply wp_allocate. iIntros "!>" (rlock Hr) "Hrlock !>".
  iApply wp_seq. iApply wp_allocate. iIntros "!>" (rword Hrword) "Hrword !>".
  rw !words_fields !big_sepL_cons !idx_first.
  iDestruct "Hlock" as "(_ & Hlock & _)". iDestruct "Hnotif" as "(_ & Hnotif & _)".
  iDestruct "Hrlock" as "(_ & Hrlock & _)". iDestruct "Hword" as "[Hword _]".
  iDestruct "Hrword" as "[Hrword _]". unfold NULL in *.
  iApply wp_seq. iApply (wp_make_simple_lock with "Hlock"); [unfold NULL; lia|].
  iIntros (a) "Ha !>".
  iApply wp_seq. iApply (wp_make_notification with "Hnotif"); [unfold NULL; lia|].
  iIntros (b) "Hb !>".
  iApply wp_seq. iApply (wp_make_recursive_lock with "Hrlock"); [unfold NULL; lia|].
  iIntros (d) "Hd !>".
  iDestruct "Ha" as "[(-> & %slock & %Hs & H1 & H2 & H3)|[-> _]]"; [|iApply wp_halt].
  iDestruct "Hb" as "[(-> & %n & #Hnot)|[-> _]]"; [|iApply wp_halt].
  iDestruct "Hd" as "[(-> & %rl & %Hrl & H4 & H5 & H6 & H7 & H8)|[-> _]]"; [|iApply wp_halt].
  simpl. set (e := mkObjects lock notif word rlock rword).
  iApply fupd_wp.
  iMod (simple_alloc lock slock (word_res e P) with "H1 H2 H3 [Hword]") as (g) "#Hsimple";
    [unfold NULL; lia|done|by iExists v; iFrame|].
  iMod (recursive_alloc rlock rl (recursive_word_res e Q) with "H4 H5 H6 H7 H8 [Hrword]")
    as (gr gc) "#Hrec"; [unfold NULL; lia|done|by iExists w; iFrame|]. iModIntro.
  iApply wp_seq. iApply wp_allocate. iIntros "!>" (t Ht) "Hteb !>".
  rw words_fields. iDestruct "Hteb" as "(_ & Hteb & _)".
  iApply fupd_wp. iMod (new_thread g gr gc e slock rl P Q with "Hsimple Hrec Hteb") as "[Ho Ha]"; [lia|].
  iModIntro. iApply (wp_lock_client g gr gc e slock rl n P Q c t None None with "Hsimple Hrec Hnot Ho Ha").
  done.
Qed.

Definition lockΣ : gFunctors :=
  #[invΣ; ghost_mapΣ Z Z; tokenΣ; ghost_mapΣ Z (bool * bool); ghost_mapΣ Z bool;
    GFunctor (authR natUR)].

Class lockGpreS (Σ : gFunctors) := LockGpreS {
  #[global] lock_pre_inv :: invGpreS Σ;
  #[global] lock_pre_heap :: ghost_mapG Σ Z Z;
  #[global] lock_pre_token :: tokenG Σ;
  #[global] lock_pre_simple :: ghost_mapG Σ Z (bool * bool);
  #[global] lock_pre_recursive :: ghost_mapG Σ Z bool;
  #[global] lock_pre_count :: inG Σ (authR natUR)
}.

#[export] Instance subG_lock Σ : subG lockΣ Σ → lockGpreS Σ.
Proof. solve_inG. Qed.

(** Nothing is allocated yet. *)
Definition empty_cstate : cstate := mkC ∅ 1048576.

Lemma lock_process_adequate r1 r2 r3 v w c P Q (φ : Z → Prop) :
  P v → Q w → lock_client_spec P Q c None None φ →
  adequate NotStuck (lock_process r1 r2 r3 v w c : expr threads) empty_cstate (λ x _, φ x).
Proof.
  intros Hv Hw Hc. apply (wp_adequacy lockΣ threads). intros Hinv κs.
  iMod (ghost_map_alloc (cmem empty_cstate)) as (heap) "[Hs _]".
  iModIntro. iExists (λ s _, ghost_map_auth heap 1 (cmem s) ∗ ⌜cfresh s⌝)%I, (λ _, True)%I.
  iFrame "Hs". iSplit; [by iPureIntro|].
  iPoseProof (@wp_lock_process lockΣ (LockGS lockΣ (ConcurGS lockΣ Hinv _ heap _) _ _ _)
    r1 r2 r3 v w c P Q φ Hv Hw Hc) as "H".
  iApply "H".
Qed.

(** C5: A simple lock with its notification and a recursive lock of posix-
    threads.c, each protecting a word, are shared by threads whose programs
    respect a specification: a thread releases a simple lock, or waits for
    its notification, only while it has the lock, calls
    primitive_unlock_simple_lock only while it has the lock and has not
    waited for the notification since it took it, releases the recursive
    lock no more often than it took it, takes it nested fewer times than the
    limit of the pthread library (beyond which that answers EAGAIN, which is
    not modelled), never calls primitive_unlock_recursive_lock, does not
    destroy anything, touches a word only while it has its lock, gives
    timeouts as tagged integers, and is ready for every answer a call may
    give (OK, ALREADY_LOCKED, and of the timed calls TIMEOUT, or
    GENERAL_ERROR exactly when the end of the wait is no valid time, as with
    some negative timeouts). Then in every interleaving of their atomic
    actions the words satisfy their invariants whenever the locks are free,
    a thread that has a lock is alone with its word (a wait for the
    notification apart), each call answers one of these codes, as the
    specification says, and no thread gets stuck. *)
Theorem locks_protect r1 r2 r3 v w c P Q (φ : Z → Prop) (l : list nat) ps s :
  P v → Q w → lock_client_spec P Q c None None φ →
  run_schedule l ([lock_process r1 r2 r3 v w c], empty_cstate) = Some (ps, s) →
  (∀ x, ps !! 0%nat = Some (Ret x) → φ x) ∧ Forall (λ p, is_stuck p s = false) ps.
Proof.
  intros Hv Hw Hc. apply adequate_schedule. by apply (lock_process_adequate _ _ _ _ _ _ P Q).
Qed.

(** A thread adds 2 to the word in two steps; another one waits for the lock with a
    negative timeout; the initial thread looks at the word while it holds the lock, and
    takes the recursive lock twice. *)
Definition add_two : lock_client :=
  Wait (λ _, Get (λ v, Put (v + 1) (Get (λ v, Put (v + 1) (Release (λ _, Finish 0)))))).

Definition impatient : lock_client :=
  Wait_timed (mkTime 5 0) (λ _, 2%nat) (I (-1)) (λ r,
    if r =? OK then Get (λ v, if Z.even v then Release (λ _, Finish OK) else Failure)
    else Finish r).

Definition look : lock_client :=
  Wait (λ _, Get (λ v, if Z.even v then Release (λ _, Owned (λ o,
    Wait_recursive (λ _, Wait_recursive (λ _, Owned_recursive (λ b,
    if b =? I 1 then Release_recursive (λ _, Release_recursive (λ _, Finish o)) else Failure)))))
  else Failure)).

Definition three_clients : lock_client := Start add_two (Start impatient look).

Definition even_word : prog :=
  lock_process (mkMutexResults 0 0 0) (mkMutexResults 0 0 0) 0 0 0 three_clients.

Definition even_schedule : list nat :=
  replicate 43 0%nat ++ replicate 25 1%nat ++ replicate 13 2%nat ++
  concat (replicate 13 [1%nat; 0%nat]) ++ replicate 114 0%nat.

Lemma even_word_spec :
  lock_client_spec (λ v, Z.even v = true) (λ _, True) three_clients None None (λ v, v = I 0).
Proof.
  split; [|split]; simpl.
  - intros v Hv. split; [|done]. rw -Z.add_assoc Z.even_add. by rw Hv.
  - split; [done|]. split; [intros v Hv; by rw Hv|]. by intros x [-> |[-> _]].
  - intros v Hv. rw Hv. simpl. by repeat split.
Qed.

Lemma even_word_run :
  ∃ ps s, run_schedule even_schedule ([even_word], empty_cstate) = Some (ps, s) ∧
    prog_to_val <$> ps = [Some (I 0); Some 0; Some GENERAL_ERROR].
Proof. apply (observe_schedule (λ r, prog_to_val <$> r.1)). vm_compute. reflexivity. Qed.

Lemma locks_protect_witness :
  ∃ ps s, run_schedule even_schedule ([even_word], empty_cstate) = Some (ps, s) ∧
    prog_to_val <$> ps = [Some (I 0); Some 0; Some GENERAL_ERROR] ∧
    ((∀ v, ps !! 0%nat = Some (Ret v) → v = I 0) ∧ Forall (λ p, is_stuck p s = false) ps).
Proof.
  destruct even_word_run as (ps & s & E & Hps). exists ps, s. split; [exact E|]. split; [exact Hps|].
  apply (locks_protect (mkMutexResults 0 0 0) (mkMutexResults 0 0 0) 0 0 0 three_clients
    (λ v, Z.even v = true) (λ _, True) (λ v, v = I 0) even_schedule ps s); [done|done| |exact E].
  apply even_word_spec.
Defined.
