(* ===== verification/Semaphores.v ===== *)
(** * Semaphores count

    Threads that wait for a semaphore and release it, in any number and order: its
    value stays within bounds and accounts for the waits and releases that
    succeeded.  This file has what is common to the kinds of semaphores, the word of
    the value with what each thread has done so far, and the POSIX semaphore;
    [PosixSemaphores.v], [EmulatedSemaphores.v] and [HarpSemaphores.v] have the
    kinds. *)

From S2P Require Import Prelude Memory Tagging Concur ConcurLogic Tlv Locks LockLaws.
From stdpp Require Import base tactics option list numbers gmap fin_maps.
From Stdlib Require Import ZArith Lia.
From iris.proofmode Require Import proofmode.
From iris.algebra Require Import auth numbers.
From iris.base_logic.lib Require Import invariants token ghost_map own.
From iris.program_logic Require Import weakestpre adequacy.

Local Open Scope Z_scope.

(** The container and its semaphore; nothing else is allocated. *)
Definition the_container : Z := 2048.
Definition the_semaphore : Z := 4096.

Definition total (l : list Z) : Z := foldr Z.add 0 l.

Lemma total_insert l (i : nat) x y :
  l !! i = Some x → total (<[i := y]> l) = total l - x + y.
Proof.
  revert i. induction l as [|z l IH]; intros [|i] H; simplify_eq/=; [lia|].
  rw (IH i H). lia.
Qed.

Lemma total_replicate_0 n : total (replicate n 0) = 0.
Proof. induction n; simpl; lia. Qed.

(** ** The value *)

Definition semaphoreN : namespace := nroot .@ "semaphore".

Section value.
Context `{!lockGS Σ, !ghost_mapG Σ nat Z} (gn : gname) (q : Qp) (a initial max : Z) (N : nat).

(** The word [a] has the value, of which the invariant keeps the fraction [q]. *)
Definition value_state : iProp Σ :=
  ∃ c nets, a ↦{q} c ∗ ghost_map_auth gn 1 (map_seq 0 nets) ∗
    ⌜(0 <= c <= max)%Z ∧ c = (initial + total nets)%Z ∧ length nets = N⌝.

(** What thread [i] has done so far: releases less waits *)
Definition done_so_far (i : nat) (net : Z) : iProp Σ := i ↪[gn] net.

(** A thread changes the value and counts that. *)
Lemma count_change i net c nets d :
  0 <= c + d <= max → c = initial + total nets → length nets = N →
  ghost_map_auth gn 1 (map_seq 0 nets) -∗ done_so_far i net -∗ a ↦{q} (c + d) ==∗
  value_state ∗ done_so_far i (net + d).
Proof.
  iIntros (Hd Ht Hl) "Hn Hi Hc". iDestruct (ghost_map_lookup with "Hn Hi") as %Hi.
  iMod (ghost_map_update (net + d) with "Hn Hi") as "[Hn $]".
  apply lookup_map_seq_Some in Hi as [_ Hi]. rw Nat.sub_0_r in Hi. iModIntro.
  iExists (c + d), (<[i := net + d]> nets). rw map_seq_insert; [|by eapply lookup_lt_Some].
  iFrame. iPureIntro. rw (total_insert nets i net) // length_insert. lia.
Qed.
End value.

(** *** Starting, and all interleavings *)

Definition semaphoreΣ : gFunctors :=
  #[invΣ; ghost_mapΣ Z Z; tokenΣ; ghost_mapΣ Z (bool * bool); ghost_mapΣ Z bool;
    GFunctor (authR natUR); ghost_mapΣ nat Z].

Class semaphoreGpreS (Σ : gFunctors) := SemaphoreGpreS {
  #[global] sem_pre_inv :: invGpreS Σ;
  #[global] sem_pre_heap :: ghost_mapG Σ Z Z;
  #[global] sem_pre_token :: tokenG Σ;
  #[global] sem_pre_simple :: ghost_mapG Σ Z (bool * bool);
  #[global] sem_pre_recursive :: ghost_mapG Σ Z bool;
  #[global] sem_pre_count :: inG Σ (authR natUR);
  #[global] sem_pre_nets :: ghost_mapG Σ nat Z
}.

#[export] Instance subG_semaphore Σ : subG semaphoreΣ Σ → semaphoreGpreS Σ.
Proof. solve_inG. Qed.

Lemma start_value `{!lockGS Σ, !ghost_mapG Σ nat Z} q a initial max (N : nat) :
  0 <= initial <= max →
  a ↦{q} initial ={⊤}=∗
  ∃ gn, inv semaphoreN (value_state gn q a initial max N) ∗
    [∗ list] i ↦ _ ∈ replicate N 0, done_so_far gn i 0.
Proof.
  iIntros (Hr) "Hc". iMod (ghost_map_alloc (map_seq 0 (replicate N 0))) as (gn) "[Hn Hi]".
  iMod (inv_alloc semaphoreN _ (value_state gn q a initial max N) with "[Hc Hn]") as "Hinv".
  { iNext. iExists initial, (replicate N 0). iFrame. iPureIntro.
    rw total_replicate_0 length_replicate. lia. }
  iModIntro. iExists gn. iFrame.
  rw big_sepM_map_seq. iApply (big_sepL_impl with "Hi"). iIntros "!>" (i x [-> _]%lookup_replicate) "$".
Qed.

(** Threads that do what they answer *)
Lemma wp_all_clients `{!lockGS Σ, !ghost_mapG Σ nat Z} {A} gn (run : A → prog) (ok : A → Prop) cs start :
  Forall ok cs →
  □ (∀ c i, ⌜ok c⌝ -∗ done_so_far gn i 0 -∗ WP (run c : expr threads) {{ v, done_so_far gn i v }}) -∗
  ([∗ list] i ↦ _ ∈ replicate (length cs) 0, done_so_far gn (start + i) 0) -∗
  [∗ list] p;Φ ∈ (run <$> cs : list (expr threads));
    (done_so_far gn <$> seq start (length cs)), WP p {{ Φ }}.
Proof.
  iIntros (Hcs) "#Hrun H". iInduction Hcs as [|c cs Hc Hcs] "IH" forall (start); simpl; [done|].
  rw Nat.add_0_r. iDestruct "H" as "[Hi H]". iSplitL "Hi".
  - by iApply ("Hrun" with "[//] Hi").
  - iApply "IH". iApply (big_sepL_impl with "H"). iIntros "!>" (i x _) "H".
    by rw Nat.add_succ_r.
Qed.

(** When all threads are done, what they return is what they have done. *)
Lemma nets_returned `{!lockGS Σ, !ghost_mapG Σ nat Z} gn (nets rs : list Z) N :
  length nets = N → length rs = N →
  ghost_map_auth gn 1 (map_seq 0 nets) -∗
  ([∗ list] p;Φ ∈ (Ret <$> rs : list (expr threads)); (done_so_far gn <$> seq 0 N),
    from_option Φ True (language.to_val p)) -∗ ⌜nets = rs⌝.
Proof.
  iIntros (Hn Hr) "Hauth H".
  iAssert ⌜∀ i, nets !! i = rs !! i⌝%I as %E; [|iPureIntro; by apply list_eq]. iIntros (i).
  destruct (decide (i < N)%nat) as [Hi|Hi].
  - destruct (lookup_lt_is_Some_2 rs i) as [r Hri]; [lia|].
    iDestruct (big_sepL2_lookup _ _ _ i (Ret r : expr threads) (done_so_far gn i) with "H") as "Hi".
    { by rw list_lookup_fmap Hri. }
    { rw list_lookup_fmap lookup_seq_lt //. }
    simpl. iDestruct (ghost_map_lookup with "Hauth Hi") as %E. iPureIntro.
    apply lookup_map_seq_Some in E as [_ E]. rw Nat.sub_0_r in E. by rw E Hri.
  - iPureIntro. rw !lookup_ge_None_2 //; lia.
Qed.

(** Threads that are verified with the value of a semaphore *)
Lemma value_adequate {A} (run : A → prog) (cs : list A) cs0 a initial max (l : list nat) ps s :
  cfresh cs0 →
  (∀ (HL : lockGS semaphoreΣ), ([∗ map] a ↦ v ∈ cmem cs0, a ↦ v) ={⊤}=∗
    ∃ gn q, inv semaphoreN (value_state gn q a initial max (length cs)) ∗
      [∗ list] p;Φ ∈ (run <$> cs : list (expr threads)); (done_so_far gn <$> seq 0 (length cs)),
        WP p {{ Φ }}) →
  run_schedule l (run <$> cs, cs0) = Some (ps, s) →
  ∃ count, cmem s !! a = Some count ∧ 0 <= count <= max ∧
    (∀ nets, take (length cs) ps = Ret <$> nets → count = initial + total nets) ∧
    Forall (λ p, is_stuck p s = false) ps.
Proof.
  intros Hf0 Hstart Hl%run_schedule_steps. apply erased_steps_nsteps in Hl as (n & κs & Hsteps).
  eapply (wp_strong_adequacy semaphoreΣ threads NotStuck); [|exact Hsteps]. intros Hinv.
  iMod (ghost_map_alloc (cmem cs0)) as (heap) "[Hs Hm]".
  set (HL := LockGS semaphoreΣ (ConcurGS semaphoreΣ Hinv _ heap _) _ _ _).
  iMod (Hstart HL with "Hm") as (gn q) "[#Hinv Hwp]".
  iModIntro. iExists (λ s _ _ _, ghost_map_auth heap 1 (cmem s) ∗ ⌜cfresh s⌝)%I,
    (done_so_far gn <$> seq 0 (length cs)), (λ _, True)%I, _.
  iFrame "Hs Hwp". iSplit; [by iPureIntro|].
  iIntros (es' t2' -> Hlen Hns) "[Hs %Hf] Hdone _".
  iInv semaphoreN as ">(%c & %nets & Hc & Hn & (%Hc & %Ht & %Hlen'))" "_".
  iApply fupd_mask_intro_discard; [set_solver|].
  iDestruct (ghost_map_lookup with "Hs Hc") as %E.
  iAssert ⌜∀ rs, take (length cs) (es' ++ t2') = Ret <$> rs → nets = rs⌝%I as %Hnets.
  { iIntros (rs Hrs). rw length_fmap in Hlen. rw -Hlen take_app_length in Hrs. rw Hrs in Hlen |- *.
    rw length_fmap in Hlen. by iApply (nets_returned with "Hn Hdone"). }
  iPureIntro. exists c. split; [exact E|]. split; [done|]. split.
  - intros rs Hrs. by rw -(Hnets rs Hrs).
  - apply Forall_forall. intros p Hp. apply not_stuck_next. by apply Hns.
Qed.

(** ** The POSIX semaphore

    Its word is its value. *)

Section posix.
Context `{!lockGS Σ, !ghost_mapG Σ nat Z} (gn : gname) (a initial : Z) (N : nat).

Definition is_value : iProp Σ := inv semaphoreN (value_state gn 1 a initial SEM_VALUE_MAX N).

Lemma wp_sem_value Φ :
  is_value -∗ (∀ c, ⌜0 <= c <= SEM_VALUE_MAX⌝ -∗ Φ c) -∗
  WP (Act (Load a) : expr threads) {{ Φ }}.
Proof.
  iIntros "#Hinv HΦ". iInv semaphoreN as ">(%c & %nets & Hc & Hn & (%Hr & %Ht & %Hl))".
  iApply (wp_load with "Hc"). iIntros "!> Hc". iModIntro.
  iSplitR "HΦ"; [iNext; iExists c, nets; iFrame; by iPureIntro|by iApply "HΦ"].
Qed.

(** A change of the value by a thread that counts it, unless the value was another. *)
Lemma wp_sem_swap i net v d Φ :
  0 <= v + d <= SEM_VALUE_MAX →
  is_value -∗ done_so_far gn i net -∗
  (∀ r, ⌜r = v⌝ ∗ done_so_far gn i (net + d) ∨ ⌜r ≠ v⌝ ∗ done_so_far gn i net -∗ Φ r) -∗
  WP (Act (Compare_and_swap a (v + d) v) : expr threads) {{ Φ }}.
Proof.
  iIntros (Hd) "#Hinv Hi HΦ". iInv semaphoreN as ">(%c & %nets & Hc & Hn & (%Hr & %Ht & %Hl))".
  iApply (wp_compare_and_swap with "Hc"). iIntros "!> Hc". destruct (Z.eqb_spec c v) as [->|Hne].
  - iMod (count_change with "Hn Hi Hc") as "[Hv Hi]"; [done..|]. iModIntro.
    iSplitL "Hv"; [by iNext|]. iApply "HΦ". iLeft. by iFrame.
  - iModIntro. iSplitR "HΦ Hi"; [iNext; iExists c, nets; iFrame; by iPureIntro|].
    iApply "HΦ". iRight. by iFrame.
Qed.

(** Counting off: done, or the semaphore was at zero, or another thread was faster. *)
Lemma wp_attempt i net Φ :
  is_value -∗ done_so_far gn i net -∗
  (∀ r, ⌜r = 0⌝ ∗ done_so_far gn i (net - 1) ∨ ⌜r ≠ 0⌝ ∗ done_so_far gn i net -∗ Φ r) -∗
  WP (sem_attempt a : expr threads) {{ Φ }}.
Proof.
  iIntros "#Hsem Hi HΦ". unfold sem_attempt. iApply wp_seq.
  iApply (wp_sem_value with "Hsem"). iIntros (c) "%Hc !>". destruct (Z.leb_spec c 0).
  - iApply wp_ret. iApply "HΦ". iRight. by iFrame.
  - iApply wp_seq. iApply (wp_sem_swap i net c (-1) with "Hsem Hi"); [lia|].
    iIntros (r) "[[-> Hi]|[%Hne Hi]] !>".
    + rw Z.eqb_refl. iApply wp_ret. iApply "HΦ". iLeft. by iFrame.
    + rw (proj2 (Z.eqb_neq r c)) //. iApply wp_ret. iApply "HΦ". iRight. by iFrame.
Qed.

Lemma wp_sem_attempts i net Φ :
  is_value -∗ done_so_far gn i net -∗
  (∀ r, ⌜r = 0⌝ ∗ done_so_far gn i (net - 1) ∨ ⌜r ≠ 0⌝ ∗ done_so_far gn i net -∗ Φ r) -∗
  WP (Do (sem_attempt a) (λ r, r =? 2) : expr threads) {{ Φ }}.
Proof.
  iIntros "#Hsem Hi HΦ".
  iApply (wp_attempts _ (λ r, ⌜r = 0⌝ ∗ done_so_far gn i (net - 1) ∨
    ⌜r ≠ 0⌝ ∗ done_so_far gn i net)%I with "[Hi]").
  - iRight. by iFrame.
  - iIntros "!> [[%E _]|[_ Hi]]"; [done|]. iApply (wp_attempt with "Hsem Hi"). by iIntros (z) "H".
  - iIntros (r _) "H". by iApply "HΦ".
Qed.

Lemma wp_sem_tries n answer i net Φ :
  is_value -∗ done_so_far gn i net -∗
  (∀ r, ⌜r = 0⌝ ∗ done_so_far gn i (net - 1) ∨ ⌜r = answer⌝ ∗ done_so_far gn i net -∗ Φ r) -∗
  WP (sem_tries n answer a : expr threads) {{ Φ }}.
Proof.
  iIntros "#Hsem Hi HΦ". iInduction n as [|n] "IH"; cbn [sem_tries]; iApply wp_seq;
    iApply (wp_sem_attempts with "Hsem Hi"); iIntros (r) "[[-> Hi]|[%Hne Hi]] !>".
  1, 3: iApply wp_ret; iApply "HΦ"; iLeft; by iFrame.
  all: rw (proj2 (Z.eqb_neq r 0)) //.
  - iApply wp_ret. iApply "HΦ". iRight. by iFrame.
  - by iApply ("IH" with "Hi").
Qed.

(** A wait answers 0, or a signal handler interrupted it. *)
Lemma wp_sem_wait signal i net Φ :
  is_value -∗ done_so_far gn i net -∗
  (∀ r, ⌜r = 0⌝ ∗ done_so_far gn i (net - 1) ∨
    ⌜r = EINTR ∧ signal ≠ None⌝ ∗ done_so_far gn i net -∗ Φ r) -∗
  WP (sem_wait signal a : expr threads) {{ Φ }}.
Proof.
  iIntros "#Hsem Hi HΦ". unfold sem_wait. destruct signal as [n|].
  - iApply (wp_sem_tries with "Hsem Hi"). iIntros (r) "[[-> Hi]|[-> Hi]]"; iApply "HΦ";
      [iLeft|iRight]; by iFrame.
  - unfold Do at 1. iApply wp_seq.
    iApply (wp_wand _ _ _ (λ r : val threads, ⌜r = 0⌝ ∗ done_so_far gn i (net - 1) ∨
      ⌜r ≠ 0⌝ ∗ done_so_far gn i net)%I with "[Hi]").
    { iApply (wp_attempt with "Hsem Hi"). by iIntros (r) "H". }
    iIntros (r) "H !>".
    iApply (wp_while_inv (λ r : val threads, ⌜r = 0⌝ ∗ done_so_far gn i (net - 1) ∨
      ⌜r ≠ 0⌝ ∗ done_so_far gn i net)%I with "H").
    + iIntros "!>" (y Hy) "[[-> _]|[_ Hi]]"; [done|]. iApply (wp_attempt with "Hsem Hi").
      by iIntros (z) "H".
    + iIntros (y Hy) "[[-> Hi]|[%Hne _]]"; [iApply "HΦ"; iLeft; by iFrame|].
      by apply negb_false_iff, Z.eqb_eq in Hy.
Qed.

(** Until a time: a timeout, a signal handler, or an invalid time *)
Lemma wp_sem_timedwait limit n interrupted i net Φ :
  is_value -∗ done_so_far gn i net -∗
  (∀ r, ⌜r = 0⌝ ∗ done_so_far gn i (net - 1) ∨
    ⌜r = ETIMEDOUT ∨ r = EINTR ∧ interrupted = true ∨ r = EINVAL ∧ valid_time limit = false⌝ ∗
      done_so_far gn i net -∗ Φ r) -∗
  WP (sem_timedwait limit n interrupted a : expr threads) {{ Φ }}.
Proof.
  iIntros "#Hsem Hi HΦ". unfold sem_timedwait. iApply wp_seq.
  iApply (wp_sem_attempts with "Hsem Hi"). iIntros (r) "[[-> Hi]|[%Hne Hi]] !>".
  { iApply wp_ret. iApply "HΦ". iLeft. by iFrame. }
  rw (proj2 (Z.eqb_neq r 0)) //. destruct (valid_time limit) eqn:Hlimit; cbn [negb].
  - iApply (wp_sem_tries with "Hsem Hi"). iIntros (x) "[[-> Hi]|[-> Hi]]"; iApply "HΦ".
    + iLeft. by iFrame.
    + iRight. iFrame. iPureIntro. destruct interrupted; auto.
  - iApply wp_ret. iApply "HΦ". iRight. iFrame. iPureIntro. auto.
Qed.

Lemma wp_sem_post i net Φ :
  is_value -∗ done_so_far gn i net -∗
  (∀ r, ⌜r = 0⌝ ∗ done_so_far gn i (net + 1) ∨ ⌜r = -1⌝ ∗ done_so_far gn i net -∗ Φ r) -∗
  WP (sem_post a : expr threads) {{ Φ }}.
Proof.
  iIntros "#Hsem Hi HΦ". unfold sem_post. iApply wp_seq.
  iApply (wp_attempts _ (λ r, ⌜r = 0⌝ ∗ done_so_far gn i (net + 1) ∨
    ⌜r ≠ 0⌝ ∗ done_so_far gn i net)%I with "[Hi]").
  - iRight. by iFrame.
  - iIntros "!> [[%E _]|[_ Hi]]"; [done|]. iApply wp_seq.
    iApply (wp_sem_value with "Hsem"). iIntros (c) "%Hc !>". destruct (Z.eqb_spec c SEM_VALUE_MAX).
    + iApply wp_ret. iRight. by iFrame.
    + iApply wp_seq. iApply (wp_sem_swap i net c 1 with "Hsem Hi"); [lia|].
      iIntros (r) "[[-> Hi]|[%Hne Hi]] !>".
      * rw Z.eqb_refl. iApply wp_ret. iLeft. by iFrame.
      * rw (proj2 (Z.eqb_neq r c)) //. iApply wp_ret. iRight. by iFrame.
  - iIntros (r _) "[[-> Hi]|[%Hne Hi]] !>".
    + iApply wp_ret. iApply "HΦ". iLeft. by iFrame.
    + rw (proj2 (Z.eqb_neq r 0)) //. iApply wp_ret. iApply "HΦ". iRight. by iFrame.
Qed.

End posix.
