(* ===== verification/PosixSemaphores.v ===== *)
(** * POSIX semaphores of the C run-time

    The semaphores of [posix-threads.c] where the system has POSIX ones.  As in
    [Semaphores.v], threads wait and release in any number and order; the value
    accounts for the calls that succeeded.  A wait fails when a signal handler
    interrupts it, and a wait with a timeout also when its end is no valid time. *)

From S2P Require Import Prelude Memory Tagging Concur ConcurLogic Tlv Locks LockLaws Semaphores.
From stdpp Require Import base tactics option list numbers gmap fin_maps.
From Stdlib Require Import ZArith Lia.
From iris.proofmode Require Import proofmode.
From iris.algebra Require Import auth numbers.
From iris.base_logic.lib Require Import invariants token ghost_map own.
From iris.program_logic Require Import weakestpre adequacy.

Local Open Scope Z_scope.

(** ** Clients

    [signal]: how often a wait looks at the semaphore before a signal handler interrupts
    it, if one does. *)
Inductive semaphore_client :=
| Stop
| Failure
| Wait_semaphore (signal : option nat) (k : Z → semaphore_client)
| Wait_semaphore_timed (now : timespec) (tries : timespec → nat) (interrupted : bool) (ms : Z)
    (k : Z → semaphore_client)
| Release_semaphore (k : Z → semaphore_client).

(** A client returns how often it has released the semaphore more than it has waited
    for it, in calls that succeeded. *)
Fixpoint run_semaphore_client (lock : Z) (c : semaphore_client) (net : Z) : prog :=
  match c with
  | Stop => Ret net
  | Failure => Act (Load NULL)
  | Wait_semaphore signal k =>
      r <~ primitive_wait_for_semaphore signal lock;;
      run_semaphore_client lock (k r) (if r =? OK then net - 1 else net)
  | Wait_semaphore_timed now tries interrupted ms k =>
      r <~ primitive_wait_for_semaphore_timed now tries interrupted lock ms;;
      run_semaphore_client lock (k r) (if r =? OK then net - 1 else net)
  | Release_semaphore k =>
      r <~ primitive_release_semaphore lock;;
      run_semaphore_client lock (k r) (if r =? OK then net + 1 else net)
  end.

(** The answers a client must be ready for *)
Fixpoint answers_ok (c : semaphore_client) : Prop :=
  match c with
  | Stop => True
  | Failure => False
  | Wait_semaphore signal k =>
      answers_ok (k OK) ∧ (signal ≠ None → answers_ok (k GENERAL_ERROR))
  | Wait_semaphore_timed now _ interrupted ms k =>
      IS_ZINT ms = true ∧ answers_ok (k OK) ∧ answers_ok (k TIMEOUT) ∧
      (interrupted = true ∨ valid_time (timeout_end now ms) = false → answers_ok (k GENERAL_ERROR))
  | Release_semaphore k => answers_ok (k OK) ∧ answers_ok (k GENERAL_ERROR)
  end.

(** The container and its semaphore; nothing else is allocated. *)
Definition semaphore_cstate (initial : Z) : cstate :=
  mkC (<[container_handle the_container := the_semaphore]>
        {[semaphore_semaphore the_semaphore := initial]}) 1048576.

(** ** The primitives *)

Section semaphore.
Context `{!lockGS Σ, !ghost_mapG Σ nat Z} (gn : gname) (lock sem initial : Z) (N : nat).

Definition is_sem : iProp Σ :=
  handle_is lock sem ∗ is_value gn (semaphore_semaphore sem) initial N.

Lemma wp_wait_for_semaphore signal i net Φ :
  is_sem -∗ done_so_far gn i net -∗
  (∀ r, ⌜r = OK⌝ ∗ done_so_far gn i (net - 1) ∨
    ⌜r = GENERAL_ERROR ∧ signal ≠ None⌝ ∗ done_so_far gn i net -∗ Φ r) -∗
  WP (primitive_wait_for_semaphore signal lock : expr threads) {{ Φ }}.
Proof.
  iIntros "[#Hh #Hsem] Hi HΦ". unfold primitive_wait_for_semaphore.
  iApply wp_seq. iApply (wp_get_handle with "Hh"). iIntros "!>".
  iApply wp_seq. iApply (wp_sem_wait with "Hsem Hi"). iIntros (r) "[[-> Hi]|[[-> %Hs] Hi]] !>"; simpl;
    iApply wp_ret; iApply "HΦ"; [iLeft|iRight]; by iFrame.
Qed.

Lemma wp_wait_for_semaphore_timed now tries interrupted ms i net Φ :
  IS_ZINT ms = true →
  is_sem -∗ done_so_far gn i net -∗
  (∀ r, ⌜r = OK⌝ ∗ done_so_far gn i (net - 1) ∨
    ⌜r = TIMEOUT ∨
      r = GENERAL_ERROR ∧ (interrupted = true ∨ valid_time (timeout_end now ms) = false)⌝ ∗
      done_so_far gn i net -∗ Φ r) -∗
  WP (primitive_wait_for_semaphore_timed now tries interrupted lock ms : expr threads) {{ Φ }}.
Proof.
  iIntros (Hms) "[#Hh #Hsem] Hi HΦ". unfold primitive_wait_for_semaphore_timed.
  iApply wp_seq. iApply (wp_assert_handle with "Hh"). iIntros "!>".
  iApply wp_seq. iApply wp_assert; [done|]. iIntros "!>".
  iApply wp_seq. iApply (wp_load_handle with "Hh"). iIntros "!>".
  iApply wp_seq. iApply (wp_sem_timedwait with "Hsem Hi"). iIntros (r) "[[-> Hi]|[%Hr Hi]] !>".
  - iApply wp_ret. iApply "HΦ". iLeft. by iFrame.
  - destruct Hr as [-> |[[-> H]|[-> H]]]; iApply wp_ret; iApply "HΦ"; iRight; iFrame; iPureIntro; auto.
Qed.

Lemma wp_release_semaphore i net Φ :
  is_sem -∗ done_so_far gn i net -∗
  (∀ r, ⌜r = OK⌝ ∗ done_so_far gn i (net + 1) ∨ ⌜r = GENERAL_ERROR⌝ ∗ done_so_far gn i net -∗ Φ r) -∗
  WP (primitive_release_semaphore lock : expr threads) {{ Φ }}.
Proof.
  iIntros "[#Hh #Hsem] Hi HΦ". unfold primitive_release_semaphore.
  iApply wp_seq. iApply (wp_get_handle with "Hh"). iIntros "!>".
  iApply wp_seq. iApply (wp_sem_post with "Hsem Hi"). iIntros (r) "[[-> Hi]|[-> Hi]] !>"; simpl;
    iApply wp_ret; iApply "HΦ"; [iLeft|iRight]; by iFrame.
Qed.

Lemma wp_semaphore_client c i net :
  answers_ok c →
  is_sem -∗ done_so_far gn i net -∗
  WP (run_semaphore_client lock c net : expr threads) {{ v, done_so_far gn i v }}.
Proof.
  iIntros (Hc) "#Hsem Hi".
  iInduction c as [| |signal k IH|now tries interrupted ms k IH|k IH] forall (net Hc);
    cbn [run_semaphore_client]; simpl in Hc.
  - by iApply wp_ret.
  - done.
  - destruct Hc as [Hok Hbad]. iApply wp_seq. iApply (wp_wait_for_semaphore with "Hsem Hi").
    iIntros (r) "[[-> Hi]|[[-> %Hs] Hi]] !>"; iApply ("IH" with "[%] Hi"); auto.
  - destruct Hc as (Hms & Hok & Hto & Hbad). iApply wp_seq.
    iApply (wp_wait_for_semaphore_timed with "Hsem Hi"); [done|].
    iIntros (r) "[[-> Hi]|[%Hr Hi]] !>"; [by iApply ("IH" with "[%] Hi")|].
    destruct Hr as [-> |[-> Hr]]; iApply ("IH" with "[%] Hi"); auto.
  - destruct Hc as [Hok Hbad]. iApply wp_seq. iApply (wp_release_semaphore with "Hsem Hi").
    iIntros (r) "[[-> Hi]|[-> Hi]] !>"; by iApply ("IH" with "[%] Hi").
Qed.
End semaphore.

(** ** All interleavings *)

Lemma semaphore_fresh initial : cfresh (semaphore_cstate initial).
Proof.
  split; [done|]. intros a Ha. simpl in *.
  unfold container_handle, semaphore_semaphore, idx, the_container, the_semaphore.
  rw lookup_insert_ne; [|lia]. rw lookup_singleton_ne; [done|lia].
Qed.

(** C10: A semaphore of posix-threads.c built on POSIX semaphores, as on Linux,
    with an initial count from 0 to SEM_VALUE_MAX, is waited for, with or
    without a timeout, and released by any threads that are ready for the
    answers OK, TIMEOUT and GENERAL_ERROR (a wait that a signal interrupts,
    a wait until no valid time, a release at SEM_VALUE_MAX). In every
    interleaving the value stays between 0 and SEM_VALUE_MAX (the maximum
    given when it is made is not enforced), no thread is ever stuck, and
    when the threads are done the value is the initial one plus the releases
    that answered OK minus the waits that answered OK. *)
Theorem semaphore_counts initial (cs : list semaphore_client) (l : list nat) ps s :
  0 <= initial <= SEM_VALUE_MAX → Forall answers_ok cs →
  run_schedule l ((λ c, run_semaphore_client the_container c 0) <$> cs, semaphore_cstate initial)
    = Some (ps, s) →
  ∃ count, cmem s !! semaphore_semaphore the_semaphore = Some count ∧ 0 <= count <= SEM_VALUE_MAX ∧
    (∀ nets, take (length cs) ps = Ret <$> nets → count = initial + Semaphores.total nets) ∧
    Forall (λ p, is_stuck p s = false) ps.
Proof.
  intros Hr Hcs. apply value_adequate; [apply semaphore_fresh|]. intros HL.
  unfold semaphore_cstate. cbn [cmem]. iIntros "Hm". rw big_sepM_insert // big_sepM_singleton.
  iDestruct "Hm" as "[Hh Hc]". iMod (ghost_map_elem_persist with "Hh") as "#Hh".
  iMod (start_value _ _ _ _ (length cs) Hr with "Hc") as (gn) "[#Hinv Hi]".
  iModIntro. iExists gn, 1%Qp. iFrame "Hinv". iApply (wp_all_clients _ _ _ _ 0 Hcs with "[] Hi").
  iIntros "!>" (c i) "%Hc Hi". iApply (wp_semaphore_client with "[] Hi"); [done|].
  iFrame "Hinv Hh". by iPureIntro.
Qed.

(** One thread waits, is interrupted and waits again; the other releases, waits, and waits
    twice with a timeout, the second one negative. *)
Definition two_clients : list semaphore_client :=
  [ Wait_semaphore None (λ _, Wait_semaphore (Some 2%nat) (λ r,
      if r =? GENERAL_ERROR then Release_semaphore (λ _, Stop) else Stop));
    Release_semaphore (λ _, Wait_semaphore None (λ _,
      Wait_semaphore_timed (mkTime 0 0) (λ _, 3%nat) false (I 10) (λ _,
      Wait_semaphore_timed (mkTime 5 0) (λ _, 3%nat) false (I (-1)) (λ _, Stop))))].

Definition clients_schedule : list nat :=
  concat (replicate 56 [0%nat; 1%nat]) ++ replicate 49 1%nat.

Lemma two_clients_run :
  ∃ ps s, run_schedule clients_schedule
      ((λ c, run_semaphore_client the_container c 0) <$> two_clients, semaphore_cstate 0) = Some (ps, s) ∧
    prog_to_val <$> ps = [Some 0; Some 0].
Proof. apply (observe_schedule (λ r, prog_to_val <$> r.1)). vm_compute. reflexivity. Qed.

Lemma semaphore_counts_witness :
  ∃ ps s, run_schedule clients_schedule
      ((λ c, run_semaphore_client the_container c 0) <$> two_clients, semaphore_cstate 0) = Some (ps, s) ∧
    prog_to_val <$> ps = [Some 0; Some 0] ∧
    (∃ count, cmem s !! semaphore_semaphore the_semaphore = Some count ∧ 0 <= count <= SEM_VALUE_MAX ∧
      (∀ nets, take (length two_clients) ps = Ret <$> nets → count = 0 + Semaphores.total nets) ∧
      Forall (λ p, is_stuck p s = false) ps).
Proof.
  destruct two_clients_run as (ps & s & E & Hps). exists ps, s. split; [exact E|]. split; [exact Hps|].
  apply (semaphore_counts 0 two_clients clients_schedule ps s); [unfold SEM_VALUE_MAX; lia| |exact E].
  repeat constructor; by intros _.
Defined.
