(* ===== verification/EmulatedSemaphores.v ===== *)
(** * Emulated semaphores

    Semaphores of platforms without POSIX ones, made of a mutex, a condition variable
    and a count.  As in [Semaphores.v], threads wait and release in any number and
    order; the count stays below the maximum the semaphore was made with. *)

From S2P Require Import Prelude Memory Tagging Concur ConcurLogic Tlv Locks LockLaws Semaphores.
From stdpp Require Import base tactics option list numbers gmap fin_maps.
From Stdlib Require Import ZArith Lia.
From iris.proofmode Require Import proofmode.
From iris.algebra Require Import auth numbers.
From iris.base_logic.lib Require Import invariants token ghost_map own.
From iris.program_logic Require Import weakestpre adequacy.

Local Open Scope Z_scope.

(** ** Clients *)

Inductive emulated_semaphore_client :=
| Stop
| Wait_semaphore (k : Z → emulated_semaphore_client)
| Wait_semaphore_timed (now : timespec) (waits : timespec → nat) (ms : Z) (k : Z → emulated_semaphore_client)
| Release_semaphore (k : Z → emulated_semaphore_client).

(** A client returns how often it has released the semaphore [lock] more than it
    has waited for it, in calls that succeeded. *)
Fixpoint emulated_run_semaphore_client (lock : Z) (c : emulated_semaphore_client) (net : Z) : prog :=
  match c with
  | Stop => Ret net
  | Wait_semaphore k =>
      r <~ primitive_wait_for_semaphore_emulated lock;;
      emulated_run_semaphore_client lock (k r) (if r =? OK then net - 1 else net)
  | Wait_semaphore_timed now waits ms k =>
      r <~ primitive_wait_for_semaphore_timed_emulated now waits lock ms;;
      emulated_run_semaphore_client lock (k r) (if r =? OK then net - 1 else net)
  | Release_semaphore k =>
      r <~ primitive_release_semaphore_emulated lock;;
      emulated_run_semaphore_client lock (k r) (if r =? OK then net + 1 else net)
  end.

(** Timeouts are integers. *)
Fixpoint timeouts_ok (c : emulated_semaphore_client) : Prop :=
  match c with
  | Stop => True
  | Wait_semaphore k | Release_semaphore k => ∀ r, timeouts_ok (k r)
  | Wait_semaphore_timed _ _ ms k => IS_ZINT ms = true ∧ ∀ r, timeouts_ok (k r)
  end.

(** The container and its semaphore; nothing else is allocated. *)
Definition emulated_semaphore_cstate (initial max : Z) : cstate :=
  mkC (<[container_handle the_container := the_semaphore]> (<[semaphore_mutex the_semaphore := 0]>
        (<[semaphore_count the_semaphore := initial]>
          {[semaphore_max_count the_semaphore := max]}))) 1048576.

(** ** The semaphore's invariant *)

Section semaphore.
Context `{!lockGS Σ, !ghost_mapG Σ nat Z} (gm gn : gname) (lock sem initial max : Z) (N : nat).

Definition mutex_res : iProp Σ := ∃ c : Z, semaphore_count sem ↦{1/2} c.

Definition is_semaphore : iProp Σ :=
  handle_is lock sem ∗
  inv semaphoreN (value_state gn (1/2) (semaphore_count sem) initial max N) ∗
  is_mutex gm (semaphore_mutex sem) mutex_res ∗
  pointsto (semaphore_max_count sem) DfracDiscarded max.

#[global] Instance is_semaphore_persistent : Persistent is_semaphore.
Proof. apply _. Qed.

(** Changing the count, with the mutex. *)
Lemma wp_change_count i net c d Φ :
  0 <= c + d <= max →
  is_semaphore -∗ done_so_far gn i net -∗ semaphore_count sem ↦{1/2} c -∗
  (done_so_far gn i (net + d) -∗ mutex_res -∗ Φ (c + d)) -∗
  WP (Act (Store (semaphore_count sem) (c + d)) : expr threads) {{ Φ }}.
Proof.
  iIntros (Hd) "(_ & #Hinv & _) Hi Hc HΦ".
  iInv semaphoreN as ">(%c' & %nets & Hc' & Hn & (%Hr & %Ht & %Hl))".
  iDestruct (ghost_map_elem_agree with "Hc Hc'") as %<-. iCombine "Hc Hc'" as "Hc".
  iApply (wp_store with "Hc"). iIntros "!> [Hc Hc']".
  iMod (count_change with "Hn Hi Hc") as "[Hv Hi]"; [done..|].
  iModIntro. iSplitL "Hv"; [by iNext|]. iApply ("HΦ" with "Hi"). by iExists _.
Qed.

Lemma wp_look_count c Φ :
  is_semaphore -∗ semaphore_count sem ↦{1/2} c -∗
  (⌜0 <= c <= max⌝ -∗ semaphore_count sem ↦{1/2} c -∗ Φ c) -∗
  WP (Act (Load (semaphore_count sem)) : expr threads) {{ Φ }}.
Proof.
  iIntros "(_ & #Hinv & _) Hc HΦ".
  iInv semaphoreN as ">(%c' & %nets & Hc' & Hn & (%Hr & %Ht & %Hl))".
  iDestruct (ghost_map_elem_agree with "Hc Hc'") as %<-.
  iApply (wp_load with "Hc"). iIntros "!> Hc". iModIntro. iSplitR "Hc HΦ".
  - iNext. iExists c, nets. iFrame. by iPureIntro.
  - by iApply ("HΦ" with "[//] Hc").
Qed.

(** Waiting for the condition variable: the mutex is given up and taken again. *)
Lemma wp_pthread_cond_wait Φ :
  is_semaphore -∗ token gm -∗ mutex_res -∗ (token gm -∗ mutex_res -∗ Φ 0) -∗
  WP (pthread_cond_wait (semaphore_mutex sem) : expr threads) {{ Φ }}.
Proof.
  iIntros "(_ & _ & #Hm & _) Ht HR HΦ". unfold pthread_cond_wait.
  iApply wp_seq. iApply (wp_mutex_unlock with "Hm Ht HR"). iIntros "!>".
  by iApply (wp_mutex_lock with "Hm").
Qed.

(** Counting one off and giving the mutex back. *)
Lemma wp_take_one i net c Φ :
  0 < c <= max →
  is_semaphore -∗ done_so_far gn i net -∗ token gm -∗ semaphore_count sem ↦{1/2} c -∗
  (done_so_far gn i (net - 1) -∗ Φ OK) -∗
  WP (semaphore_count_off sem : expr threads) {{ Φ }}.
Proof.
  iIntros (Hc) "#Hsem Hi Ht Hc HΦ". unfold semaphore_count_off.
  iApply wp_seq. iApply (wp_look_count with "Hsem Hc"). iIntros "_ Hc !>".
  iApply wp_seq. iApply (wp_change_count i net c (-1) with "Hsem Hi Hc"); [lia|].
  iIntros "Hi HR !>". iDestruct "Hsem" as "(_ & _ & Hm & _)".
  iApply wp_seq. iApply (wp_mutex_unlock with "Hm Ht HR"). iIntros "!>". iApply wp_ret.
  by iApply "HΦ".
Qed.

Lemma wp_wait_for_semaphore_emulated i net Φ :
  is_semaphore -∗ done_so_far gn i net -∗ (done_so_far gn i (net - 1) -∗ Φ OK) -∗
  WP (primitive_wait_for_semaphore_emulated lock : expr threads) {{ Φ }}.
Proof.
  iIntros "#Hsem Hi HΦ". unfold primitive_wait_for_semaphore_emulated. iApply wp_seq.
  iApply wp_get_handle; [by iDestruct "Hsem" as "[$ _]"|]. iIntros "!>".
  iApply wp_seq. iApply wp_mutex_lock; [by iDestruct "Hsem" as "(_ & _ & $ & _)"|].
  iIntros "Ht (%c & Hc) !>".
  iApply wp_seq. iApply (wp_look_count with "Hsem Hc"). iIntros "%Hr Hc !>". iApply wp_seq.
  iApply (wp_while_inv (λ c : val threads,
    ⌜0 <= c <= max⌝ ∗ token gm ∗ semaphore_count sem ↦{1/2} (c : Z))%I with "[Ht Hc]").
  - by iFrame.
  - iIntros "!>" (y Hy) "(_ & Ht & Hc)". iApply wp_seq.
    iApply (wp_pthread_cond_wait with "Hsem Ht [Hc]"); [by iExists _|].
    iIntros "Ht (%c' & Hc) !>". iApply (wp_look_count with "Hsem Hc"). iIntros "%Hc' Hc". by iFrame.
  - iIntros (y Hy) "(%Hy' & Ht & Hc) !>". simpl in Hy. apply Z.leb_gt in Hy.
    iApply (wp_take_one with "Hsem Hi Ht Hc"); [lia|done].
Qed.

Lemma wp_semaphore_wait_timed n i net Φ :
  is_semaphore -∗ done_so_far gn i net -∗ token gm -∗ mutex_res -∗
  (∀ r, ⌜r = OK⌝ ∗ done_so_far gn i (net - 1) ∨ ⌜r = TIMEOUT⌝ ∗ done_so_far gn i net -∗ Φ r) -∗
  WP (semaphore_wait_timed n sem : expr threads) {{ Φ }}.
Proof.
  iIntros "#Hsem Hi Ht HR HΦ".
  iInduction n as [|n] "IH"; simpl; iDestruct "HR" as (c) "Hc"; iApply wp_seq;
    (iApply (wp_look_count with "Hsem Hc"); iIntros "%Hr Hc !>"; destruct (Z.leb_spec c 0);
      [iApply wp_seq; iApply (wp_pthread_cond_wait with "Hsem Ht [Hc]"); [by iExists _|];
       iIntros "Ht HR !>"
      |iApply (wp_take_one with "Hsem Hi Ht Hc"); [lia|]; iIntros "Hi"; iApply "HΦ"; iLeft;
       by iFrame]).
  - iDestruct "Hsem" as "(_ & _ & Hm & _)". iApply wp_seq.
    iApply (wp_mutex_unlock with "Hm Ht HR"). iIntros "!>". iApply wp_ret. iApply "HΦ".
    iRight. by iFrame.
  - by iApply ("IH" with "Hi Ht HR").
Qed.

Lemma wp_semaphore_wait_invalid i net Φ :
  is_semaphore -∗ done_so_far gn i net -∗ token gm -∗ mutex_res -∗
  (done_so_far gn i (net - 1) -∗ Φ OK) -∗
  WP (semaphore_wait_invalid sem : expr threads) {{ Φ }}.
Proof.
  iIntros "#Hsem Hi Ht (%c & Hc) HΦ". unfold semaphore_wait_invalid.
  iApply wp_seq. iApply (wp_look_count with "Hsem Hc"). iIntros "%Hr Hc !>". iApply wp_seq.
  iApply (wp_while_inv (λ c : val threads,
    ⌜0 <= c <= max⌝ ∗ token gm ∗ semaphore_count sem ↦{1/2} (c : Z))%I with "[Ht Hc]").
  - by iFrame.
  - iIntros "!>" (y Hy) "(_ & Ht & Hc)".
    iApply (wp_look_count with "Hsem Hc"). iIntros "%Hc' Hc". by iFrame.
  - iIntros (y Hy) "(%Hy' & Ht & Hc) !>". simpl in Hy. apply Z.leb_gt in Hy.
    iApply (wp_take_one with "Hsem Hi Ht Hc"); [lia|done].
Qed.

Lemma wp_wait_for_semaphore_timed_emulated now waits ms i net Φ :
  IS_ZINT ms = true →
  is_semaphore -∗ done_so_far gn i net -∗
  (∀ r, ⌜r = OK⌝ ∗ done_so_far gn i (net - 1) ∨ ⌜r = TIMEOUT⌝ ∗ done_so_far gn i net -∗ Φ r) -∗
  WP (primitive_wait_for_semaphore_timed_emulated now waits lock ms : expr threads) {{ Φ }}.
Proof.
  iIntros (Hms) "#Hsem Hi HΦ". unfold primitive_wait_for_semaphore_timed_emulated. iApply wp_seq.
  iApply wp_assert_handle; [by iDestruct "Hsem" as "[$ _]"|]. iIntros "!>".
  iApply wp_seq. iApply wp_assert; [done|]. iIntros "!>".
  iApply wp_seq. iApply wp_load_handle; [by iDestruct "Hsem" as "[$ _]"|]. iIntros "!>".
  iApply wp_seq. iApply wp_mutex_lock; [by iDestruct "Hsem" as "(_ & _ & $ & _)"|].
  iIntros "Ht HR !>". destruct (valid_time _).
  - by iApply (wp_semaphore_wait_timed with "Hsem Hi Ht HR").
  - iApply (wp_semaphore_wait_invalid with "Hsem Hi Ht HR"). iIntros "Hi". iApply "HΦ". iLeft.
    by iFrame.
Qed.

(** When the count is at its maximum the mutex is kept. *)
Lemma wp_release_semaphore_emulated i net Φ :
  is_semaphore -∗ done_so_far gn i net -∗
  (∀ r, ⌜r = OK⌝ ∗ done_so_far gn i (net + 1) ∨ ⌜r = COUNT_EXCEEDED⌝ ∗ done_so_far gn i net -∗ Φ r) -∗
  WP (primitive_release_semaphore_emulated lock : expr threads) {{ Φ }}.
Proof.
  iIntros "#Hsem Hi HΦ". unfold primitive_release_semaphore_emulated. iApply wp_seq.
  iApply wp_get_handle; [by iDestruct "Hsem" as "[$ _]"|]. iIntros "!>".
  iApply wp_seq. iApply wp_mutex_lock; [by iDestruct "Hsem" as "(_ & _ & $ & _)"|].
  iIntros "Ht (%c & Hc) !>".
  iApply wp_seq. iApply (wp_look_count with "Hsem Hc"). iIntros "%Hr Hc !>".
  iApply wp_seq. iApply wp_load; [by iDestruct "Hsem" as "(_ & _ & _ & $)"|]. iIntros "!> _ !>".
  destruct (Z.leb_spec max c).
  - iApply wp_ret. iApply "HΦ". iRight. by iFrame.
  - iApply wp_seq. iApply (wp_look_count with "Hsem Hc"). iIntros "_ Hc !>".
    iApply wp_seq. iApply (wp_change_count i net c 1 with "Hsem Hi Hc"); [lia|].
    iIntros "Hi HR !>". iDestruct "Hsem" as "(_ & _ & Hm & _)".
    iApply wp_seq. iApply (wp_mutex_unlock with "Hm Ht HR"). iIntros "!>".
    iApply wp_seq. iApply wp_ret. iIntros "!>". iApply wp_ret. iApply "HΦ". iLeft. by iFrame.
Qed.

Lemma wp_semaphore_client_emulated c i net :
  timeouts_ok c →
  is_semaphore -∗ done_so_far gn i net -∗
  WP (emulated_run_semaphore_client lock c net : expr threads) {{ v, done_so_far gn i v }}.
Proof.
  iIntros (Hc) "#Hsem Hi".
  iInduction c as [|k IH|now waits ms k IH|k IH] forall (net Hc); cbn [emulated_run_semaphore_client];
    simpl in Hc.
  - by iApply wp_ret.
  - iApply wp_seq. iApply (wp_wait_for_semaphore_emulated with "Hsem Hi"). iIntros "Hi !>".
    by iApply ("IH" with "[%] Hi").
  - destruct Hc as [Hms Hc]. iApply wp_seq.
    iApply (wp_wait_for_semaphore_timed_emulated with "Hsem Hi"); [done|].
    iIntros (r) "[[-> Hi]|[-> Hi]] !>"; by iApply ("IH" with "[%] Hi").
  - iApply wp_seq. iApply (wp_release_semaphore_emulated with "Hsem Hi").
    iIntros (r) "[[-> Hi]|[-> Hi]] !>"; by iApply ("IH" with "[%] Hi").
Qed.
End semaphore.

(** ** All interleavings *)

Lemma semaphore_fresh_emulated initial max : cfresh (emulated_semaphore_cstate initial max).
Proof.
  split; [done|]. intros a Ha. simpl in *. unfold container_handle, semaphore_mutex,
    semaphore_count, semaphore_max_count, idx, the_container, the_semaphore.
  rw !lookup_insert_ne; [|lia..]. apply lookup_empty.
Qed.

(** In every interleaving of threads that wait for an emulated semaphore, with or without
    a timeout, and release it, the count stays between zero and the maximum, no thread is
    stuck on unmapped memory, and when the threads are done the count is the initial one
    plus the releases minus the waits that returned OK. *)
Theorem emulated_semaphore_counts initial max (cs : list emulated_semaphore_client) (l : list nat) ps s :
  0 <= initial <= max → Forall timeouts_ok cs →
  run_schedule l ((λ c, emulated_run_semaphore_client the_container c 0) <$> cs,
    emulated_semaphore_cstate initial max) = Some (ps, s) →
  ∃ count, cmem s !! semaphore_count the_semaphore = Some count ∧ 0 <= count <= max ∧
    (∀ nets, take (length cs) ps = Ret <$> nets → count = initial + Semaphores.total nets) ∧
    Forall (λ p, is_stuck p s = false) ps.
Proof.
  intros Hr Hcs. apply value_adequate; [apply semaphore_fresh_emulated|]. intros HL.
  unfold emulated_semaphore_cstate. cbn [cmem]. iIntros "Hm". rw !big_sepM_insert // big_sepM_empty.
  iDestruct "Hm" as "(Hh & Hm & [Hc Hc'] & Hmax & _)".
  iMod (ghost_map_elem_persist with "Hh") as "#Hh".
  iMod (ghost_map_elem_persist with "Hmax") as "#Hmax".
  iMod (start_value _ _ _ _ (length cs) Hr with "Hc") as (gn) "[#Hinv Hi]".
  iMod (mutex_alloc _ (mutex_res the_semaphore) with "Hm [Hc']") as (gm) "#Hmutex"; [by iExists _|].
  iModIntro. iExists gn, (1/2)%Qp. iFrame "Hinv". iApply (wp_all_clients _ _ _ _ 0 Hcs with "[] Hi").
  iIntros "!>" (c i) "%Hc Hi". iApply (wp_semaphore_client_emulated with "[] Hi"); [done|].
  iFrame "Hinv Hh Hmutex Hmax". by iPureIntro.
Qed.

(** One thread waits and releases, the other releases, waits and waits again. *)
Definition emulated_two_clients : list emulated_semaphore_client :=
  [ Wait_semaphore (λ _, Release_semaphore (λ _, Stop));
    Release_semaphore (λ _, Wait_semaphore (λ _,
      Wait_semaphore_timed (mkTime 0 0) (λ _, 3%nat) (I 10) (λ _, Stop)))].

Definition emulated_clients_schedule : list nat :=
  concat (replicate 53 [0%nat; 1%nat]) ++ replicate 34 1%nat.

Lemma two_clients_run_emulated :
  ∃ ps s, run_schedule emulated_clients_schedule
      ((λ c, emulated_run_semaphore_client the_container c 0) <$> emulated_two_clients, emulated_semaphore_cstate 1 2) = Some (ps, s) ∧
    prog_to_val <$> ps = [Some 0; Some (-1)].
Proof. apply (observe_schedule (λ r, prog_to_val <$> r.1)). vm_compute. reflexivity. Qed.

Lemma emulated_semaphore_counts_witness :
  ∃ ps s, run_schedule emulated_clients_schedule
      ((λ c, emulated_run_semaphore_client the_container c 0) <$> emulated_two_clients, emulated_semaphore_cstate 1 2) = Some (ps, s) ∧
    prog_to_val <$> ps = [Some 0; Some (-1)] ∧
    (∃ count, cmem s !! semaphore_count the_semaphore = Some count ∧ 0 <= count <= 2 ∧
      (∀ nets, take (length emulated_two_clients) ps = Ret <$> nets → count = 1 + Semaphores.total nets) ∧
      Forall (λ p, is_stuck p s = false) ps).
Proof.
  destruct two_clients_run_emulated as (ps & s & E & Hps). exists ps, s. split; [exact E|]. split; [exact Hps|].
  apply (emulated_semaphore_counts 1 2 emulated_two_clients emulated_clients_schedule ps s); [lia| |exact E].
  repeat constructor.
Defined.
