(* ===== verification/Joins.v ===== *)
(** * Joins

    Threads that start other threads and wait for them to complete, also several of
    them for the same one.  A thread that has joined another one sees the results
    that one left in its thread object, and a thread is joined once. *)

From S2P Require Import Prelude Memory Tagging Concur ConcurLogic Tlv Locks LockLaws.
From stdpp Require Import base tactics option list numbers gmap fin_maps.
From Stdlib Require Import ZArith Lia.
From iris.proofmode Require Import proofmode.
From iris.algebra Require Import auth numbers.
From iris.base_logic.lib Require Import invariants token ghost_map ghost_var own.
From iris.program_logic Require Import weakestpre adequacy.

Local Open Scope Z_scope.

(** ** Clients *)

Inductive join_client :=
| Results (v : Z)
| Broken
| Start_joinable (c : join_client) (k : Z → join_client)
| Join (thread : Z) (k : Z → join_client)
| Get_results (thread : Z) (k : Z → join_client)
| Put_results (thread v : Z) (k : join_client).

(** The client of a thread object: its function's results are stored in the object
    when it returns. *)
Fixpoint run_join_client (c : join_client) (thread : Z) : prog :=
  match c with
  | Results v => Act (Store (thread_function_results thread) v);;; Ret v
  | Broken => Act (Load NULL)
  | Start_joinable c k =>
      child <~ Act (Allocate (replicate 8 0));;
      Fork (teb <~ make_teb;; run_join_client c child;;; complete_thread child;;; free_teb teb);;;
      run_join_client (k child) thread
  | Join t k => r <~ primitive_thread_join_single t;; run_join_client (k r) thread
  | Get_results t k =>
      v <~ Act (Load (thread_function_results t));; run_join_client (k v) thread
  | Put_results t v k =>
      Act (Store (thread_function_results t) v);;; run_join_client k thread
  end.

Definition join_process (c : join_client) : prog :=
  thread <~ Act (Allocate (replicate 8 0));; run_join_client c thread.

(** What a thread knows of other threads: of those that only it can join and those that
    others can join too, what their results will satisfy; of those it has joined, their
    results, which are its own from then on; and of those that somebody else has joined,
    that joining them is refused. *)
Inductive child :=
| Joinable (Ψ : Z → Prop)
| Shared (Ψ : Z → Prop)
| Joined (v : Z)
| Refused.

(** What a new thread knows *)
Definition passed (c : child) : option child :=
  match c with Shared _ | Refused => Some c | Joinable _ | Joined _ => None end.

Definition shared_of (ts : gmap Z child) : gmap Z child :=
  omap passed ts.

Fixpoint join_client_spec (c : join_client) (ts : gmap Z child) (Φ : Z → Prop) : Prop :=
  match c with
  | Results v => Φ v
  | Broken => False
  | Start_joinable c k =>
      ∃ Ψ (alone : bool), join_client_spec c (shared_of ts) Ψ ∧
        ∀ t, ts !! t = None →
          join_client_spec (k t) (<[t := if alone then Joinable Ψ else Shared Ψ]> ts) Φ
  | Join t k =>
      match ts !! t with
      | Some (Joinable Ψ) => ∀ v, Ψ v → join_client_spec (k OK) (<[t := Joined v]> ts) Φ
      | Some (Shared Ψ) =>
          (∀ v, Ψ v → join_client_spec (k OK) (<[t := Joined v]> ts) Φ) ∧
          join_client_spec (k GENERAL_ERROR) (<[t := Refused]> ts) Φ
      | Some (Joined v) => join_client_spec (k GENERAL_ERROR) ts Φ
      | Some Refused => join_client_spec (k GENERAL_ERROR) ts Φ
      | None => False
      end
  | Get_results t k =>
      match ts !! t with
      | Some (Joined v) => join_client_spec (k v) ts Φ
      | _ => False
      end
  | Put_results t v k =>
      match ts !! t with
      | Some (Joined _) => join_client_spec k (<[t := Joined v]> ts) Φ
      | _ => False
      end
  end.

(** ** The state of a thread object *)

Inductive join_state := Unjoined | Marked | Done.

(** [handle1] *)
Definition flags (completed : bool) (j : join_state) : Z :=
  (if completed then COMPLETED else 0) +
  match j with Unjoined => 0 | Marked => MARKED | Done => JOINED end.

(** What is known of a thread object: what its results satisfy, and the names of
    the ghost state of its completion, of its join and of whether somebody has it. *)
Record info := Info {
  info_results : Z → Prop; info_completed : gname; info_join : gname; info_claimed : gname
}.

Class joinGS (Σ : gFunctors) := JoinGS {
  #[global] join_lockGS :: lockGS Σ;
  #[global] join_infos :: ghost_mapG Σ Z info;
  #[global] join_completed :: ghost_varG Σ bool;
  #[global] join_joined :: ghost_varG Σ join_state
}.

Section joins.
Context `{!joinGS Σ} (gm gl gi : gname).

Definition joinN : namespace := nroot .@ "joins".

Definition results_of (t : Z) (Ψ : Z → Prop) : iProp Σ :=
  ∃ v, thread_function_results t ↦ v ∗ ⌜Ψ v⌝.

(** The right to join the thread, and that somebody used it *)
Definition join_right (x : info) : iProp Σ := ghost_var (info_join x) (1/2) Unjoined.
Definition claimed (x : info) : iProp Σ := 0 ↪[info_claimed x]□ true.
Definition unclaimed (x : info) : iProp Σ :=
  ghost_map_auth (info_claimed x) 1 ({[0 := false]} : gmap Z bool) ∗ 0 ↪[info_claimed x] false.

Lemma claim x : unclaimed x ==∗ claimed x.
Proof.
  iIntros "[Ha Hx]". iMod (ghost_map_update true with "Ha Hx") as "[_ Hx]".
  by iMod (ghost_map_elem_persist with "Hx") as "$".
Qed.

Lemma unclaimed_not x : unclaimed x -∗ claimed x -∗ False.
Proof. iIntros "[_ H1] H2". by iDestruct (ghost_map_elem_agree with "H1 H2") as %?. Qed.

Definition sharedN : namespace := nroot .@ "shared_join".

(** A thread object, for who holds the lock of joins. *)
Definition object_fields (t : Z) (x : info) (c : bool) (j : join_state) : iProp Σ :=
  ghost_var (info_completed x) (1/2) c ∗ ghost_var (info_join x) (1/2) j ∗
  thread_handle1 t ↦ flags c j ∗
  match c, j with
  | true, Unjoined | true, Marked => results_of t (info_results x)
  | false, Done => False
  | _, _ => True
  end.

Definition object_state (t : Z) (x : info) (c : bool) (j : join_state) : iProp Σ :=
  object_fields t x c j ∗ match j with Unjoined => unclaimed x | _ => claimed x end.

(** The holder of the lock can take out an object's state; the token of the lock
    stays in its place. *)
Definition objects_state : iProp Σ :=
  ∃ M : gmap Z info, ghost_map_auth gi 1 M ∗
    [∗ map] t ↦ x ∈ M,
      pointsto t DfracDiscarded 0 ∗ ((∃ c j, object_state t x c j) ∨ token gl).

Definition is_joins : iProp Σ :=
  inv joinN objects_state ∗ is_mutex gm thread_join_lock (token gl).

(** The thread's own part, and the part of the thread that started it. *)
Definition running (t : Z) (Ψ : Z → Prop) : iProp Σ :=
  ∃ x, t ↪[gi]□ x ∗ ⌜info_results x = Ψ⌝ ∗ ghost_var (info_completed x) (1/2) false.

Definition started (t : Z) (c : child) : iProp Σ :=
  ∃ x, ⌜t ≠ 0⌝ ∗ t ↪[gi]□ x ∗
    match c with
    | Joinable Ψ => ⌜info_results x = Ψ⌝ ∗ join_right x
    | Shared Ψ => ⌜info_results x = Ψ⌝ ∗ inv sharedN (join_right x ∨ claimed x)
    | Joined v => ghost_var (info_join x) (1/2) Done ∗ thread_function_results t ↦ v
    | Refused => claimed x
    end.

Definition all_started (ts : gmap Z child) : iProp Σ := [∗ map] t ↦ s ∈ ts, started t s.

#[global] Instance object_state_timeless t x c j : Timeless (object_state t x c j).
Proof. destruct c, j; apply _. Qed.

(** Taking out an object's state, and putting it back. *)
Lemma take_object t x E :
  ↑joinN ⊆ E →
  inv joinN objects_state -∗ t ↪[gi]□ x -∗ token gl ={E}=∗ ∃ c j, object_state t x c j.
Proof.
  iIntros (HE) "#Hinv #Ht Hl". iInv joinN as ">(%M & HM & Hall)".
  iDestruct (ghost_map_lookup with "HM Ht") as %Hx.
  iDestruct (big_sepM_lookup_acc with "Hall") as "[[#Hp Ht'] Hall]"; [exact Hx|].
  iDestruct "Ht'" as "[Ht'|Hl']"; [|by iDestruct (token_exclusive with "Hl Hl'") as %[]].
  iModIntro. iSplitR "Ht'"; [|by iModIntro].
  iNext. iExists M. iFrame "HM". iApply "Hall". by iFrame.
Qed.

Lemma put_object t x c j E :
  ↑joinN ⊆ E →
  inv joinN objects_state -∗ t ↪[gi]□ x -∗ object_state t x c j ={E}=∗ token gl.
Proof.
  iIntros (HE) "#Hinv #Ht Hst". iInv joinN as ">(%M & HM & Hall)".
  iDestruct (ghost_map_lookup with "HM Ht") as %Hx.
  iDestruct (big_sepM_lookup_acc with "Hall") as "[[#Hp Ht'] Hall]"; [exact Hx|].
  iDestruct "Ht'" as "[(%c' & %j' & Hst')|Hl]".
  - iDestruct "Hst" as "[(_ & _ & H1 & _) _]". iDestruct "Hst'" as "[(_ & _ & H2 & _) _]".
    by iDestruct (ghost_map_elem_ne with "H1 H2") as %?.
  - iModIntro. iSplitR "Hl"; [|by iModIntro].
    iNext. iExists M. iFrame "HM". iApply "Hall". iFrame "Hp". iLeft. by iFrame.
Qed.

(** A new object. *)
Lemma new_object t Ψ (alone : bool) ts :
  t ≠ 0 →
  inv joinN objects_state -∗ all_started ts -∗ t ↦ 0 -∗ thread_handle1 t ↦ 0 ={⊤}=∗
  ⌜ts !! t = None⌝ ∗ running t Ψ ∗ all_started (<[t := if alone then Joinable Ψ else Shared Ψ]> ts).
Proof.
  iIntros (Ht0) "#Hinv Hts Ht Hh". iInv joinN as ">(%M & HM & Hall)".
  iAssert ⌜M !! t = None⌝%I as %Hnew.
  { destruct (M !! t) as [x|] eqn:E1; [|done].
    iDestruct (big_sepM_lookup with "Hall") as "[Hp _]"; [exact E1|].
    by iDestruct (ghost_map_elem_ne with "Ht Hp") as %?. }
  iAssert ⌜ts !! t = None⌝%I as %Hts.
  { destruct (ts !! t) as [s|] eqn:E1; [|done].
    iDestruct (big_sepM_lookup with "Hts") as (x _) "[Hx _]"; [exact E1|].
    iDestruct (ghost_map_lookup with "HM Hx") as %E2. congruence. }
  iMod (ghost_var_alloc false) as (g1) "[Hc Hc']".
  iMod (ghost_var_alloc Unjoined) as (g2) "[Hj Hj']".
  iMod (ghost_map_alloc ({[0 := false]} : gmap Z bool)) as (g3) "[Ha Hx]". rw big_sepM_singleton.
  iMod (ghost_map_elem_persist with "Ht") as "Ht". set (x := Info Ψ g1 g2 g3).
  iMod (ghost_map_insert_persist t x with "HM") as "[HM #Hx']"; [done|].
  iModIntro. iSplitR "Hc' Hj' Hts".
  - iNext. iExists _. iFrame "HM". rw big_sepM_insert //. iFrame "Hall Ht". iLeft.
    iExists false, Unjoined. iFrame "Hc Hj Hh". simpl. by iFrame "Ha Hx".
  - iAssert (|={⊤}=> started t (if alone then Joinable Ψ else Shared Ψ))%I with "[Hj']" as ">Hs".
    { destruct alone; [iExists x; iFrame "Hx' Hj'"; by iPureIntro|].
      iMod (inv_alloc sharedN _ (join_right x ∨ claimed x) with "[Hj']") as "Hs"; [by iLeft|].
      iModIntro. iExists x. iFrame "Hx' Hs". by iPureIntro. }
    iModIntro. iSplit; [done|]. iSplitL "Hc'"; [iExists x; iFrame "Hx' Hc'"; by iPureIntro|].
    unfold all_started. rw big_sepM_insert //. iFrame.
Qed.

(** What can be passed on *)
#[global] Instance passed_persistent t c : Persistent (from_option (started t) emp%I (passed c)).
Proof. destruct c; apply _. Qed.

Lemma all_started_shared ts : all_started ts -∗ □ all_started (shared_of ts).
Proof.
  iIntros "H". unfold all_started, shared_of. rw big_sepM_omap.
  iAssert ([∗ map] t ↦ c ∈ ts, from_option (started t) emp (passed c))%I with "[H]" as "#H'".
  { iApply (big_sepM_impl with "H"). iIntros "!>" (t c _) "H". destruct c; simpl; by auto. }
  by iModIntro.
Qed.

(** A program that works on an object while it holds the lock. *)
Lemma wp_complete_thread t Ψ Φ :
  is_joins -∗ running t Ψ -∗ results_of t Ψ -∗ Φ 0 -∗
  WP (complete_thread t : expr threads) {{ Φ }}.
Proof.
  iIntros "[#Hinv #Hm] (%x & #Hx & %Hψ & Hc) Hres HΦ". unfold complete_thread.
  iApply wp_seq. iApply (wp_mutex_lock with "Hm"). iIntros "Hmt Hl !>".
  iApply fupd_wp. iMod (take_object with "Hinv Hx Hl") as (c j) "[(Hc' & Hj & Hf & Hrest) Hcl]"; [done|].
  iModIntro. iDestruct (ghost_var_agree with "Hc Hc'") as %<-.
  iApply wp_seq. iApply (wp_load with "Hf"). iIntros "!> Hf !>".
  iApply wp_seq. iApply (wp_store with "Hf"). iIntros "!> Hf !>".
  iApply fupd_wp. iMod (ghost_var_update_halves true with "Hc Hc'") as "[Hc Hc']".
  iMod (put_object t x true j with "Hinv Hx [Hc' Hj Hf Hcl Hrest Hres]") as "Hl"; [done| |].
  { replace (Z.lor (flags false j) COMPLETED) with (flags true j) by by destruct j.
    iFrame "Hcl Hc' Hj Hf". rw Hψ. destruct j; by iFrame. }
  iModIntro. by iApply (wp_mutex_unlock with "Hm Hmt Hl").
Qed.

Lemma in_join_flags c j : in_join (flags c j) = match j with Unjoined => false | _ => true end.
Proof. by destruct c, j. Qed.

Lemma wp_joins_cond_wait Φ :
  is_joins -∗ token gm -∗ token gl -∗ (token gm -∗ token gl -∗ Φ 0) -∗
  WP (pthread_cond_wait thread_join_lock : expr threads) {{ Φ }}.
Proof.
  iIntros "[_ #Hm] Hmt Hl HΦ". unfold pthread_cond_wait.
  iApply wp_seq. iApply (wp_mutex_unlock with "Hm Hmt Hl"). iIntros "!>".
  by iApply (wp_mutex_lock with "Hm").
Qed.

(** The loop that waits for the thread to complete; its value is the flag. *)
Lemma wp_wait_completed t x (c : bool) Φ :
  is_joins -∗ t ↪[gi]□ x -∗ token gm -∗ ghost_var (info_join x) (1/2) Marked -∗
  object_state t x c Marked -∗
  (∀ r, token gm -∗ ghost_var (info_join x) (1/2) Marked -∗ object_state t x true Marked -∗ Φ r) -∗
  WP (While (λ completed, completed =? 0) (Z.land (flags c Marked) COMPLETED) (λ _,
      pthread_cond_wait thread_join_lock;;;
      state <~ Act (Load (thread_handle1 t));;
      Ret (Z.land state COMPLETED)) : expr threads) {{ Φ }}.
Proof.
  iIntros "#Hj #Hx Hmt Hm Hst HΦ".
  iApply (wp_while_inv (λ y : val threads, ∃ c : bool, ⌜y = Z.land (flags c Marked) COMPLETED⌝ ∗
    token gm ∗ ghost_var (info_join x) (1/2) Marked ∗ object_state t x c Marked)%I with "[Hmt Hm Hst]").
  - iExists c. by iFrame.
  - iIntros "!>" (y _) "(%d & _ & Hmt & Hm & Hst)". iApply wp_seq. iApply fupd_wp.
    iMod (put_object with "[] Hx Hst") as "Hl"; [done|by iDestruct "Hj" as "[$ _]"|]. iModIntro.
    iApply (wp_joins_cond_wait with "Hj Hmt Hl"). iIntros "Hmt Hl !>".
    iApply fupd_wp. iMod (take_object with "[] Hx Hl") as (d' j) "[(Hc & Hm' & Hf & Hrest) Hcl]";
      [done|by iDestruct "Hj" as "[$ _]"|]. iModIntro.
    iDestruct (ghost_var_agree with "Hm Hm'") as %<-.
    iApply wp_seq. iApply (wp_load with "Hf"). iIntros "!> Hf !>". iApply wp_ret.
    iExists d'. iFrame "Hmt Hm". iSplit; [done|]. by iFrame "Hc Hm' Hf Hrest Hcl".
  - iIntros (y Hy) "(%d & -> & Hmt & Hm & Hst)". destruct d; [|done].
    iApply ("HΦ" with "Hmt Hm Hst").
Qed.

(** The beginning of a join: the flags are looked at with the lock held. *)
Lemma wp_begin_join t x Φ :
  t ≠ 0 →
  is_joins -∗ t ↪[gi]□ x -∗
  (∀ c j, token gm -∗ object_state t x c j -∗ WP ((if in_join (flags c j) then
      pthread_mutex_unlock thread_join_lock;;;
      Ret GENERAL_ERROR
    else
      Act (Store (thread_handle1 t) (Z.lor (flags c j) MARKED));;;
      While (λ completed, completed =? 0) (Z.land (flags c j) COMPLETED) (λ _,
        pthread_cond_wait thread_join_lock;;;
        state <~ Act (Load (thread_handle1 t));;
        Ret (Z.land state COMPLETED));;;
      state <~ Act (Load (thread_handle1 t));;
      Act (Store (thread_handle1 t) (Z.lxor state (Z.lor JOINED MARKED)));;;
      pthread_mutex_unlock thread_join_lock;;;
      Ret OK) : expr threads) {{ Φ }}) -∗
  WP (primitive_thread_join_single t : expr threads) {{ Φ }}.
Proof.
  iIntros (Ht) "[#Hinv #Hmutex] #Hx HΦ". unfold primitive_thread_join_single.
  iApply wp_seq. iApply wp_assert; [by apply negb_true_iff, Z.eqb_neq|]. iIntros "!>".
  iApply wp_seq. iApply (wp_mutex_lock with "Hmutex"). iIntros "Hmt Hl !>".
  iApply fupd_wp. iMod (take_object with "Hinv Hx Hl") as (c j) "[(Hc & Hm' & Hf & Hrest) Hcl]"; [done|].
  iModIntro. iApply wp_seq. iApply (wp_load with "Hf"). iIntros "!> Hf !>".
  iApply ("HΦ" with "Hmt"). iFrame "Hc Hm' Hf Hrest Hcl".
Qed.

(** With the right to join it, the thread is joined. *)
Lemma wp_do_join t x c Φ :
  is_joins -∗ t ↪[gi]□ x -∗ token gm -∗ object_fields t x c Unjoined -∗ join_right x -∗
  claimed x -∗
  (∀ v, ⌜info_results x v⌝ -∗ ghost_var (info_join x) (1/2) Done -∗
    thread_function_results t ↦ v -∗ Φ OK) -∗
  WP (Act (Store (thread_handle1 t) (Z.lor (flags c Unjoined) MARKED));;;
      While (λ completed, completed =? 0) (Z.land (flags c Unjoined) COMPLETED) (λ _,
        pthread_cond_wait thread_join_lock;;;
        state <~ Act (Load (thread_handle1 t));;
        Ret (Z.land state COMPLETED));;;
      state <~ Act (Load (thread_handle1 t));;
      Act (Store (thread_handle1 t) (Z.lxor state (Z.lor JOINED MARKED)));;;
      pthread_mutex_unlock thread_join_lock;;;
      Ret OK : expr threads) {{ Φ }}.
Proof.
  iIntros "#Hj #Hx Hmt (Hc & Hm' & Hf & Hrest) Hm #Hcl HΦ". iDestruct "Hj" as "[Hinv Hmutex]".
  iApply wp_seq. iApply (wp_store with "Hf"). iIntros "!> Hf !>".
  replace (Z.lor (flags c Unjoined) MARKED) with (flags c Marked) by by destruct c.
  replace (Z.land (flags c Unjoined) COMPLETED) with (Z.land (flags c Marked) COMPLETED)
    by by destruct c.
  iApply fupd_wp. iMod (ghost_var_update_halves Marked with "Hm Hm'") as "[Hm Hm']". iModIntro.
  iApply wp_seq. iApply (wp_wait_completed t x c with "[] Hx Hmt Hm [Hc Hm' Hf Hrest]").
  { by iFrame "Hinv Hmutex". }
  { iFrame "Hc Hm' Hf Hcl". by destruct c. }
  iIntros (r) "Hmt Hm [(Hc & Hm' & Hf & Hres) _] !>".
  iApply wp_seq. iApply (wp_load with "Hf"). iIntros "!> Hf !>".
  iApply wp_seq. iApply (wp_store with "Hf"). iIntros "!> Hf !>".
  iDestruct "Hres" as (v) "[Hv %Hv]".
  iApply fupd_wp. iMod (ghost_var_update_halves Done with "Hm Hm'") as "[Hm Hm']".
  iMod (put_object t x true Done with "Hinv Hx [Hc Hm' Hf]") as "Hl"; [done|by iFrame "Hc Hm' Hf Hcl"|].
  iModIntro. iApply wp_seq. iApply (wp_mutex_unlock with "Hmutex Hmt Hl"). iIntros "!>".
  iApply wp_ret. by iApply ("HΦ" with "[//] Hm Hv").
Qed.

(** The join is refused. *)
Lemma wp_refuse_join t x c j Φ :
  in_join (flags c j) = true →
  is_joins -∗ t ↪[gi]□ x -∗ token gm -∗ object_state t x c j -∗ Φ GENERAL_ERROR -∗
  WP (pthread_mutex_unlock thread_join_lock;;; Ret GENERAL_ERROR : expr threads) {{ Φ }}.
Proof.
  iIntros (Hin) "[#Hinv #Hmutex] #Hx Hmt Hst HΦ". iApply fupd_wp.
  iMod (put_object t x c j with "Hinv Hx Hst") as "Hl"; [done|]. iModIntro.
  iApply wp_seq. iApply (wp_mutex_unlock with "Hmutex Hmt Hl"). iIntros "!>". by iApply wp_ret.
Qed.

Lemma wp_join_single t Ψ Φ :
  is_joins -∗ started t (Joinable Ψ) -∗ (∀ v, ⌜Ψ v⌝ -∗ started t (Joined v) -∗ Φ OK) -∗
  WP (primitive_thread_join_single t : expr threads) {{ Φ }}.
Proof.
  iIntros "#Hj (%x & %Ht & #Hx & <- & Hm) HΦ". iApply (wp_begin_join with "Hj Hx"); [done|].
  iIntros (c j) "Hmt [(Hc & Hm' & Hf & Hrest) Hcl]". iDestruct (ghost_var_agree with "Hm Hm'") as %<-.
  rw in_join_flags. iApply fupd_wp. iMod (claim with "Hcl") as "#Hcl". iModIntro.
  iApply (wp_do_join t x c with "Hj Hx Hmt [Hc Hm' Hf Hrest] Hm Hcl"); [by iFrame "Hc Hm' Hf Hrest"|].
  iIntros (v) "%Hv Hm Hv". iApply ("HΦ" with "[//]"). iExists x. by iFrame "Hx Hm Hv".
Qed.

(** Of the threads that may join it, one does. *)
Lemma wp_join_shared t Ψ Φ :
  is_joins -∗ started t (Shared Ψ) -∗
  (∀ r, (∃ v, ⌜r = OK ∧ Ψ v⌝ ∗ started t (Joined v)) ∨
    ⌜r = GENERAL_ERROR⌝ ∗ started t Refused -∗ Φ r) -∗
  WP (primitive_thread_join_single t : expr threads) {{ Φ }}.
Proof.
  iIntros "#Hj (%x & %Ht & #Hx & <- & #Hs) HΦ". iApply (wp_begin_join with "Hj Hx"); [done|].
  iIntros (c j) "Hmt [Hst Hcl]". destruct (in_join (flags c j)) eqn:Hin; rw in_join_flags in Hin.
  - iAssert (claimed x) with "[Hcl]" as "#Hclaimed"; [by destruct j|].
    iApply (wp_refuse_join t x c j with "Hj Hx Hmt [$Hst $Hcl]"); [by rw in_join_flags|].
    iApply "HΦ". iRight. iSplit; [done|]. iExists x. by iFrame "Hx Hclaimed".
  - destruct j; [|done..]. iApply fupd_wp. iInv sharedN as ">[Hm|Hno]"; last first.
    { by iDestruct (unclaimed_not with "Hcl Hno") as %[]. }
    iMod (claim with "Hcl") as "#Hcl". iModIntro. iSplitR; [by iRight|]. iModIntro.
    iApply (wp_do_join t x c with "Hj Hx Hmt Hst Hm Hcl").
    iIntros (v) "%Hv Hm Hv". iApply "HΦ". iLeft. iExists v. iSplit; [done|].
    iExists x. by iFrame "Hx Hm Hv".
Qed.

(** A thread that was joined cannot be joined again. *)
Lemma wp_join_again t v Φ :
  is_joins -∗ started t (Joined v) -∗ (started t (Joined v) -∗ Φ GENERAL_ERROR) -∗
  WP (primitive_thread_join_single t : expr threads) {{ Φ }}.
Proof.
  iIntros "#Hj (%x & %Ht & #Hx & Hm & Hv) HΦ". iApply (wp_begin_join with "Hj Hx"); [done|].
  iIntros (c j) "Hmt [(Hc & Hm' & Hf & Hrest) Hcl]". iDestruct (ghost_var_agree with "Hm Hm'") as %<-.
  rw in_join_flags. iApply (wp_refuse_join t x c Done with "Hj Hx Hmt [Hc Hm' Hf Hrest Hcl]").
  { by rw in_join_flags. }
  { by iFrame "Hc Hm' Hf Hrest Hcl". }
  iApply "HΦ". iExists x. by iFrame "Hx Hm Hv".
Qed.

Lemma wp_join_refused t Φ :
  is_joins -∗ started t Refused -∗ (started t Refused -∗ Φ GENERAL_ERROR) -∗
  WP (primitive_thread_join_single t : expr threads) {{ Φ }}.
Proof.
  iIntros "#Hj (%x & %Ht & #Hx & #Hno) HΦ". iApply (wp_begin_join with "Hj Hx"); [done|].
  iIntros (c j) "Hmt [Hst Hcl]". destruct (in_join (flags c j)) eqn:Hin; rw in_join_flags in Hin.
  - iApply (wp_refuse_join t x c j with "Hj Hx Hmt [$Hst $Hcl]"); [by rw in_join_flags|].
    iApply "HΦ". iExists x. by iFrame "Hx Hno".
  - destruct j; [|done..]. by iDestruct (unclaimed_not with "Hcl Hno") as %[].
Qed.

(** What is known of one thread changes. *)
Lemma all_started_update ts t c :
  ts !! t = Some c →
  all_started ts -∗ started t c ∗ ∀ c', started t c' -∗ all_started (<[t := c']> ts).
Proof.
  iIntros (E) "Hts". unfold all_started.
  iDestruct (big_sepM_insert_acc with "Hts") as "[$ Hts]"; [exact E|]. iIntros (c') "H". by iApply "Hts".
Qed.

Lemma all_started_same ts t c :
  ts !! t = Some c → all_started ts -∗ started t c ∗ (started t c -∗ all_started ts).
Proof.
  iIntros (E) "Hts". iDestruct (all_started_update with "Hts") as "[$ Hts]"; [exact E|]. iIntros "H".
  rw -{2}(insert_id ts t c) //. by iApply "Hts".
Qed.

Lemma wp_join_client c t ts (φ : Z → Prop) :
  join_client_spec c ts φ →
  is_joins -∗ all_started ts -∗ (∃ v : Z, thread_function_results t ↦ v) -∗
  WP (run_join_client c t : expr threads) {{ v, ⌜φ v⌝ ∗ thread_function_results t ↦ v }}.
Proof.
  iIntros (Hc) "#Hj Hts [%v0 Hres]".
  iInduction c as [v| |c IHc k IHk|h k IH|h k IH|h v k IH] forall (t ts φ v0 Hc); cbn [run_join_client];
    simpl in Hc.
  - iApply wp_seq. iApply (wp_store with "Hres"). iIntros "!> Hres !>". iApply wp_ret. by iFrame.
  - done.
  - destruct Hc as (Ψ & alone & Hc & Hk).
    iApply wp_seq. iApply wp_allocate. iIntros "!>" (u Hu) "Hu !>".
    rw words_fields. iDestruct "Hu" as "(Hu & Hf & _ & _ & _ & _ & Hr & _)". rw idx_first.
    iDestruct (all_started_shared with "Hts") as "#Hshared".
    iApply fupd_wp. iMod (new_object u Ψ alone ts with "[] Hts Hu Hf") as "(%Hnew & Hrun & Hts)";
      [lia|by iDestruct "Hj" as "[$ _]"|]. iModIntro.
    iApply wp_seq. iApply (wp_fork with "[Hrun Hr]").
    + iNext. iApply wp_seq. iApply wp_allocate. iIntros "!>" (teb _) "Hteb !>".
      iApply wp_seq. iApply (wp_wand with "[Hr]").
      * iApply ("IHc" $! u (shared_of ts) Ψ 0 with "[//] Hshared Hr").
      * iIntros (v) "[%Hv Hr] !>". iApply wp_seq.
        iApply (wp_complete_thread with "Hj Hrun [Hr]"); [by iExists v; iFrame|]. iIntros "!>".
        iApply (wp_deallocate with "Hteb"); [done|]. done.
    + iIntros "!> !>". iApply ("IHk" with "[%] Hts Hres"). by apply Hk.
  - destruct (ts !! h) as [[Ψ|Ψ|v|]|] eqn:E; [| | | |done]; iApply wp_seq.
    + iDestruct (all_started_update with "Hts") as "[Hh Hts]"; [exact E|].
      iApply (wp_join_single with "Hj Hh"). iIntros (v) "%Hv Hh !>".
      iApply ("IH" $! _ _ (<[h := Joined v]> ts) with "[%] [Hh Hts] Hres"); [by apply Hc|by iApply "Hts"].
    + destruct Hc as [Hok Hno]. iDestruct (all_started_update with "Hts") as "[Hh Hts]"; [exact E|].
      iApply (wp_join_shared with "Hj Hh"). iIntros (r) "[(%v & [-> %Hv] & Hh)|[-> Hh]] !>".
      * iApply ("IH" $! _ _ (<[h := Joined v]> ts) with "[%] [Hh Hts] Hres"); [by apply Hok|by iApply "Hts"].
      * iApply ("IH" $! _ _ (<[h := Refused]> ts) with "[//] [Hh Hts] Hres"). by iApply "Hts".
    + iDestruct (all_started_same with "Hts") as "[Hh Hts]"; [exact E|].
      iApply (wp_join_again with "Hj Hh"). iIntros "Hh !>".
      iApply ("IH" $! _ _ ts with "[//] [Hh Hts] Hres"). by iApply "Hts".
    + iDestruct (all_started_same with "Hts") as "[Hh Hts]"; [exact E|].
      iApply (wp_join_refused with "Hj Hh"). iIntros "Hh !>".
      iApply ("IH" $! _ _ ts with "[//] [Hh Hts] Hres"). by iApply "Hts".
  - destruct (ts !! h) as [[Ψ|Ψ|v|]|] eqn:E; [done|done| |done|done].
    iDestruct (all_started_same with "Hts") as "[Hh Hts]"; [exact E|].
    iDestruct "Hh" as (x Ht) "(Hx & Hm & Hv)".
    iApply wp_seq. iApply (wp_load with "Hv"). iIntros "!> Hv !>".
    iApply ("IH" $! _ _ ts with "[//] [Hx Hm Hv Hts] Hres"). iApply "Hts". iExists x. by iFrame.
  - destruct (ts !! h) as [[Ψ|Ψ|v1|]|] eqn:E; [done|done| |done|done].
    iDestruct (all_started_update with "Hts") as "[Hh Hts]"; [exact E|].
    iDestruct "Hh" as (x Ht) "(Hx & Hm & Hv)".
    iApply wp_seq. iApply (wp_store with "Hv"). iIntros "!> Hv !>".
    iApply ("IH" $! _ (<[h := Joined v]> ts) with "[//] [Hx Hm Hv Hts] Hres"). iApply "Hts".
    iExists x. by iFrame.
Qed.
End joins.

(** ** All interleavings *)

Definition joinΣ : gFunctors :=
  #[invΣ; ghost_mapΣ Z Z; tokenΣ; ghost_mapΣ Z (bool * bool); ghost_mapΣ Z bool;
    GFunctor (authR natUR); ghost_mapΣ Z info; ghost_varΣ bool; ghost_varΣ join_state].

Class joinGpreS (Σ : gFunctors) := JoinGpreS {
  #[global] join_pre_inv :: invGpreS Σ;
  #[global] join_pre_heap :: ghost_mapG Σ Z Z;
  #[global] join_pre_token :: tokenG Σ;
  #[global] join_pre_simple :: ghost_mapG Σ Z (bool * bool);
  #[global] join_pre_recursive :: ghost_mapG Σ Z bool;
  #[global] join_pre_count :: inG Σ (authR natUR);
  #[global] join_pre_infos :: ghost_mapG Σ Z info;
  #[global] join_pre_completed :: ghost_varG Σ bool;
  #[global] join_pre_joined :: ghost_varG Σ join_state
}.

#[export] Instance subG_join Σ : subG joinΣ Σ → joinGpreS Σ.
Proof. solve_inG. Qed.

Definition join_cstate : cstate := mkC {[thread_join_lock := 0]} 1048576.

Lemma wp_join_process `{!joinGS Σ} c (φ : Z → Prop) :
  join_client_spec c ∅ φ →
  thread_join_lock ↦ 0 -∗ WP (join_process c : expr threads) {{ v, ⌜φ v⌝ }}.
Proof.
  iIntros (Hc) "Hl". unfold join_process. iApply fupd_wp.
  iMod token_alloc as (gl) "Hgl".
  iMod (mutex_alloc _ (token gl) with "Hl Hgl") as (gm) "#Hm".
  iMod (ghost_map_alloc_empty (K := Z) (V := info)) as (gi) "HM".
  iMod (inv_alloc joinN _ (objects_state gl gi) with "[HM]") as "#Hinv".
  { iNext. iExists ∅. iFrame "HM". by iApply big_sepM_empty. }
  iModIntro. iApply wp_seq. iApply wp_allocate. iIntros "!>" (t Ht) "Hw !>".
  rw words_fields. iDestruct "Hw" as "(_ & _ & _ & _ & _ & _ & Hr & _)".
  iApply (wp_wand with "[Hr]").
  - iApply (wp_join_client gm gl gi c t ∅ φ with "[] [] [Hr]"); [done|by iFrame "Hinv Hm"| |].
    + by iApply big_sepM_empty.
    + by iExists _.
  - by iIntros (v) "[% _]".
Qed.

Lemma join_process_adequate c (φ : Z → Prop) :
  join_client_spec c ∅ φ →
  adequate NotStuck (join_process c : expr threads) join_cstate (λ v _, φ v).
Proof.
  intros Hc. apply (wp_adequacy joinΣ threads). intros Hinv κs.
  iMod (ghost_map_alloc (cmem join_cstate)) as (heap) "[Hs Hm]".
  iModIntro. iExists (λ s _, ghost_map_auth heap 1 (cmem s) ∗ ⌜cfresh s⌝)%I, (λ _, True)%I.
  iFrame "Hs". iSplit.
  { iPureIntro. split; [done|]. intros a Ha. simpl in *. unfold thread_join_lock.
    rw lookup_insert_ne; [apply lookup_empty|lia]. }
  rw big_sepM_singleton.
  iPoseProof (@wp_join_process joinΣ
    (JoinGS joinΣ (LockGS joinΣ (ConcurGS joinΣ Hinv _ heap _) _ _ _) _ _ _) c φ Hc) as "H".
  iApply ("H" with "Hm").
Qed.

(** C9: Threads start others, hand out the right to join them, and join them,
    several threads the same one and at the same time included. In every
    interleaving at most one primitive_thread_join_single of a thread
    answers OK, and it does so only after the thread has completed: the
    results read from its object are then the ones it stored there, and
    belong to the joining thread alone. Any other join of that thread, tried
    before, during or after that one, answers GENERAL_ERROR, and no thread
    gets stuck. *)
Theorem joins_see_results c (φ : Z → Prop) (l : list nat) ps s :
  join_client_spec c ∅ φ →
  run_schedule l ([join_process c], join_cstate) = Some (ps, s) →
  (∀ v, ps !! 0%nat = Some (Ret v) → φ v) ∧ Forall (λ p, is_stuck p s = false) ps.
Proof. intros Hc. apply adequate_schedule. by apply join_process_adequate. Qed.

(** The initial thread starts one thread, and another one that joins the first as well;
    whoever of the two is refused says so, and any further join is refused. *)
Definition rival (t : Z) : join_client :=
  Join t (λ r, if r =? OK then
    Get_results t (λ v, Put_results t (v + 1) (Get_results t (λ w,
      Join t (λ r, if r =? GENERAL_ERROR then Results w else Broken))))
  else Join t (λ r, if r =? GENERAL_ERROR then Results 0 else Broken)).

Definition three_threads : join_client :=
  Start_joinable (Results 40) (λ t, Start_joinable (rival t) (λ u,
    Join t (λ r, Join t (λ r', if r' =? GENERAL_ERROR then
      Join u (λ _, Get_results u (λ w, if r =? OK then Get_results t Results else Results w))
    else Broken)))).

Lemma three_threads_spec : join_client_spec three_threads ∅ (λ v, v = 40 ∨ v = 41 ∨ v = 0).
Proof.
  exists (λ v, v = 40), false. split; [done|]. intros t _. exists (λ v, v = 41 ∨ v = 0), true. split.
  - assert (shared_of (<[t := Shared (λ v, v = 40)]> ∅) !! t = Some (Shared (λ v, v = 40))) as E.
    { unfold shared_of. by rw lookup_omap lookup_insert_eq. }
    simpl. rw E. split; [intros v ->|]; simpl; simplify_map_eq; by auto.
  - intros u Hu. assert (u ≠ t) by (intros ->; by rw lookup_insert_eq in Hu).
    simpl. simplify_map_eq. split; [intros v ->|]; simpl; simplify_map_eq; intros w Hw;
      simpl; simplify_map_eq; naive_solver.
Qed.

Definition three_schedule : list nat :=
  replicate 9 0%nat ++ replicate 40 2%nat ++ concat (replicate 33 [2%nat; 0%nat; 1%nat]) ++
  concat (replicate 55 [2%nat; 0%nat]) ++ replicate 18 0%nat.

Lemma three_threads_run :
  ∃ ps s, run_schedule three_schedule ([join_process three_threads], join_cstate) = Some (ps, s) ∧
    prog_to_val <$> ps = [Some 41; Some 0; Some 0].
Proof. apply (observe_schedule (λ r, prog_to_val <$> r.1)). vm_compute. reflexivity. Qed.

Lemma joins_see_results_witness :
  ∃ ps s, run_schedule three_schedule ([join_process three_threads], join_cstate) = Some (ps, s) ∧
    prog_to_val <$> ps = [Some 41; Some 0; Some 0] ∧
    ((∀ v, ps !! 0%nat = Some (Ret v) → v = 40 ∨ v = 41 ∨ v = 0) ∧ Forall (λ p, is_stuck p s = false) ps).
Proof.
  destruct three_threads_run as (ps & s & E & Hps). exists ps, s. split; [exact E|]. split; [exact Hps|].
  apply (joins_see_results three_threads (λ v, v = 40 ∨ v = 41 ∨ v = 0) three_schedule ps s); [|exact E].
  apply three_threads_spec.
Defined.
