(* ===== verification/LockExamples.v ===== *)
(** * What the lock primitives do not guarantee

    Runs of the primitives of [Locks.v] in which the state they leave differs from
    what their callers rely on. *)

From S2P Require Import Prelude Memory Tagging Concur Tlv Locks.
From stdpp Require Import base tactics option list numbers gmap.
From Stdlib Require Import ZArith Lia.

Local Open Scope Z_scope.
Local Open Scope prog_scope.

Definition made : mutex_results := mkMutexResults 0 0 0.

(** A program with a simple lock and a notification, run from an empty memory. *)
Definition with_simple_lock (f : Z → Z → Z → prog) : prog :=
  lock <~ Act (Allocate [0; 0]);;
  notification <~ Act (Allocate [0; 0]);;
  primitive_make_simple_lock made lock;;;
  primitive_make_notification 0 notification;;;
  teb <~ make_teb;;
  f lock notification teb.

Definition with_recursive_lock (f : Z → Z → prog) : prog :=
  lock <~ Act (Allocate [0; 0]);;
  primitive_make_recursive_lock made lock;;;
  teb <~ make_teb;;
  f lock teb.

Definition no_memory : cstate := mkC {[thread_join_lock := 0]} 1048576.

(** ** Simple locks *)

(** A thread waits for a notification while another one takes and releases the
    lock; it holds the lock again, and answers whether it owns it. *)
Definition owned_after_wait : prog :=
  with_simple_lock (λ lock notification teb,
    Fork (other <~ make_teb;;
      primitive_wait_for_simple_lock other lock;;;
      primitive_release_simple_lock other lock);;;
    primitive_wait_for_simple_lock teb lock;;;
    primitive_wait_for_notification teb notification lock;;;
    primitive_owned_simple_lock teb lock).

(** The owner of a lock is asked after another thread, which does not have it,
    tried to release it. *)
Definition owned_after_release : prog :=
  with_simple_lock (λ lock _ teb,
    primitive_wait_for_simple_lock teb lock;;;
    Fork (other <~ make_teb;; primitive_release_simple_lock other lock);;;
    primitive_owned_simple_lock teb lock).

(** What the threads return when they are finished. *)
Definition results (l : list nat) (p : prog) : option (list (option Z)) :=
  match run_schedule l ([p], no_memory) with
  | Some (ps, _) => Some (prog_to_val <$> ps)
  | None => None
  end.

Definition turns (i j k : nat) : list nat :=
  replicate i 0%nat ++ replicate j 1%nat ++ replicate k 0%nat.

(** The waiting thread holds the lock, but does not own it. *)
Example wait_for_notification_loses_owner :
  results (turns 53 29 15) owned_after_wait = Some [Some (I 0); Some OK].
Proof. vm_compute. reflexivity. Qed.

(** The release is refused, but the owner is gone. *)
Example release_by_another_clears_owner :
  results (turns 38 13 8) owned_after_release = Some [Some (I 0); Some NOT_LOCKED].
Proof. vm_compute. reflexivity. Qed.

(** ** Recursive locks *)

(** A thread that has released the lock asks for its owner while another one
    takes it. *)
Definition owned_by_previous : prog :=
  with_recursive_lock (λ lock teb,
    primitive_wait_for_recursive_lock teb lock;;;
    primitive_release_recursive_lock teb lock;;;
    Fork (other <~ make_teb;; primitive_wait_for_recursive_lock other lock);;;
    primitive_owned_recursive_lock teb lock).

(** It is told that it owns the lock. *)
Example owned_by_previous_owner :
  results (turns 56 18 10) owned_by_previous = Some [Some (I 1); None].
Proof. vm_compute. reflexivity. Qed.

(** Unlocking a lock that was taken twice; the mutex of the lock afterwards. *)
Definition mutex_after_unlock : prog :=
  with_recursive_lock (λ lock teb,
    primitive_wait_for_recursive_lock teb lock;;;
    primitive_wait_for_recursive_lock teb lock;;;
    primitive_unlock_recursive_lock teb lock;;;
    rlock <~ Act (Load (container_handle lock));;
    owner <~ Act (Load (rlock_mutex rlock));;
    Ret (if owner =? teb then 1 else 0)).

(** What a program returns when nothing else runs. *)
Definition answer (p : prog) : option Z := fst <$> run_alone 1000 p no_memory.

(** The thread that made the call still has the mutex. *)
Example unlock_recursive_lock_unlocks_once : answer mutex_after_unlock = Some 1.
Proof. vm_compute. reflexivity. Qed.

(** ** Semaphores *)

(** A POSIX semaphore at the maximum it was made with is released. *)
Definition release_at_maximum : prog :=
  lock <~ Act (Allocate [0; 0]);;
  primitive_make_semaphore 0 lock (I 1) (I 1);;;
  primitive_release_semaphore lock.

Example release_semaphore_exceeds_maximum : answer release_at_maximum = Some OK.
Proof. vm_compute. reflexivity. Qed.

(** A signal handler that runs while a thread waits for a semaphore ends the wait. *)
Definition wait_interrupted : prog :=
  lock <~ Act (Allocate [0; 0]);;
  primitive_make_semaphore 0 lock (I 0) (I 1);;;
  primitive_wait_for_semaphore (Some 3%nat) lock.

Example wait_for_semaphore_interrupted : answer wait_interrupted = Some GENERAL_ERROR.
Proof. vm_compute. reflexivity. Qed.

(** Releasing an emulated semaphore that is at its maximum; its mutex afterwards. *)
Definition mutex_after_release : prog :=
  lock <~ Act (Allocate [0; 0]);;
  primitive_make_semaphore_emulated 0 0 lock (I 1) (I 1);;;
  r <~ primitive_release_semaphore_emulated lock;;
  semaphore <~ Act (Load (container_handle lock));;
  m <~ Act (Load (semaphore_mutex semaphore));;
  Ret (if r =? COUNT_EXCEEDED then m else -1).

Example release_semaphore_keeps_mutex : answer mutex_after_release = Some 1.
Proof. vm_compute. reflexivity. Qed.

(** ** Joins *)

(** Waiting for several threads one of which is part of a join already; the lock
    of joins afterwards. *)
Definition lock_after_join : prog :=
  thread <~ Act (Allocate [0; MARKED; 0; 0; 0; 0; 0; 0]);;
  v <~ Act (Allocate [KLsimple_object_vectorGVKdW; I 1; thread]);;
  r <~ primitive_thread_join_multiple v;;
  m <~ Act (Load thread_join_lock);;
  Ret (if r =? GENERAL_ERROR then m else -1).

Example duplicate_join_keeps_lock : answer lock_after_join = Some 1.
Proof. vm_compute. reflexivity. Qed.

(** ** Timeouts *)

(** A negative timeout gives a time that is not valid. *)
Example negative_timeout_is_invalid :
  timespec_add_msecs (mkTime 5 0) (-1) = mkTime 5 (-1000000).
Proof. reflexivity. Qed.

(** A wait for a lock that is taken, or for a semaphore at zero, with such a timeout is an
    error and not a timeout. *)
Definition negative_wait : prog :=
  with_simple_lock (λ lock _ teb,
    other <~ make_teb;;
    primitive_wait_for_simple_lock other lock;;;
    primitive_wait_for_simple_lock_timed (mkTime 5 0) (λ _, 3%nat) teb lock (I (-1))).

Definition negative_semaphore_wait : prog :=
  lock <~ Act (Allocate [0; 0]);;
  primitive_make_semaphore 0 lock (I 0) (I 1);;;
  primitive_wait_for_semaphore_timed (mkTime 5 0) (λ _, 3%nat) false lock (I (-1)).

Example negative_timeout_is_an_error :
  (answer negative_wait, answer negative_semaphore_wait) = (Some GENERAL_ERROR, Some GENERAL_ERROR).
Proof. vm_compute. reflexivity. Qed.

(** An emulated semaphore is tried for ever, with its mutex held: there is no answer after
    any number of steps, and the mutex is the thread's own. *)
Definition negative_emulated_wait : prog :=
  lock <~ Act (Allocate [0; 0]);;
  primitive_make_semaphore_emulated 0 0 lock (I 0) (I 1);;;
  primitive_wait_for_semaphore_timed_emulated (mkTime 5 0) (λ _, 3%nat) lock (I (-1)).

Example negative_emulated_wait_spins : answer negative_emulated_wait = None.
Proof. vm_compute. reflexivity. Qed.
