(* ===== verification/Effects.v ===== *)
(** * Functions that change a state

    The monad of the components that keep their state in variables of a C file or in
    a structure passed around: a function of the state with a result, or [None] where
    C leaves the behaviour undefined. *)

From S2P Require Import Prelude.
From stdpp Require Import base tactics option list.

Definition St (S A : Type) : Type := S → option (A * S).

#[export] Instance St_ret S : MRet (St S) := λ A a s, Some (a, s).
#[export] Instance St_bind S : MBind (St S) := λ A B f m s, r ← m s; f r.1 r.2.

Definition get_st {S} : St S S := λ s, Some (s, s).
Definition modify_st {S} (f : S → S) : St S () := λ s, Some ((), f s).
Definition lift_st {S A} (o : option A) : St S A := λ s, a ← o; Some (a, s).

Definition undefined {S A} : St S A := λ _, None.

Lemma St_bind_Some {S A B} (m : St S A) (f : A → St S B) s a s' :
  m s = Some (a, s') → (m ≫= f) s = f a s'.
Proof. intros E. unfold mbind, St_bind. by rewrite E. Qed.

Lemma St_bind_assoc {S A B C} (m : St S A) (f : A → St S B) (g : B → St S C) s :
  ((m ≫= f) ≫= g) s = (m ≫= (λ a, f a ≫= g)) s.
Proof. unfold mbind, St_bind. by destruct (m s). Qed.

Lemma St_ret_bind {S A B} (a : A) (f : A → St S B) s : (mret a ≫= f) s = f a s.
Proof. done. Qed.

Lemma run_lift {S A} (a : A) (s : S) : lift_st (Some a) s = Some (a, s).
Proof. done. Qed.
Lemma run_get {S} (s : S) : get_st s = Some (s, s).
Proof. done. Qed.
Lemma run_modify {S} f (s : S) : modify_st f s = Some ((), f s).
Proof. done. Qed.

(** [sstep H] runs the first operation, of which [H] says what it does. *)
Ltac snorm := repeat first [rewrite St_bind_assoc | rewrite St_ret_bind | progress cbv beta].
Ltac sstep H := snorm; first [rewrite (St_bind_Some _ _ _ _ _ H) | rewrite H]; snorm.

(** [for (x : l) f(x)] *)
Fixpoint for_each {S A} (l : list A) (f : A → St S ()) : St S () :=
  match l with [] => mret () | x :: l => f x ;; for_each l f end.

(** [if (b) m] *)
Definition when_ {S} (b : bool) (m : St S ()) : St S () := if b then m else mret ().

(** ** What functions keep

    [Keeps R m]: when [m] returns, [R] relates the states before and after it.  For a
    preorder this follows the structure of [m]; with [R s s' := I s → I s'] it says that
    [m] preserves the invariant [I]. *)

Class Keeps {S A} (R : S → S → Prop) (m : St S A) : Prop :=
  keeps s a s' : m s = Some (a, s') → R s s'.

Lemma St_bind_inv {S A B} (m : St S A) (f : A → St S B) s b s' :
  (m ≫= f) s = Some (b, s') → ∃ a s1, m s = Some (a, s1) ∧ f a s1 = Some (b, s').
Proof. unfold mbind, St_bind. destruct (m s) as [[a s1]|]; [eauto | done]. Qed.

Section keeps.
Context {S : Type} (R : S → S → Prop) `{!PreOrder R}.

Lemma keeps_ret {A} (a : A) : Keeps R (mret a).
Proof. intros s b s' [= <- <-]. reflexivity. Qed.
Lemma keeps_undefined {A} : Keeps R (undefined (A := A)).
Proof. by intros s b s'. Qed.
Lemma keeps_get_st : Keeps R get_st.
Proof. intros s b s' [= <- <-]. reflexivity. Qed.
Lemma keeps_lift_st {A} (o : option A) : Keeps R (lift_st o).
Proof. intros s b s' H. unfold lift_st in H. destruct o; simplify_option_eq. reflexivity. Qed.
Lemma keeps_modify_st f : (∀ s, R s (f s)) → Keeps R (modify_st f).
Proof. intros H s b s' [= <- <-]. apply H. Qed.
Lemma keeps_bind {A B} (m : St S A) (f : A → St S B) :
  Keeps R m → (∀ a, Keeps R (f a)) → Keeps R (m ≫= f).
Proof.
  intros Hm Hf s b s' (a & s1 & H1 & H2)%St_bind_inv.
  transitivity s1; [exact (Hm _ _ _ H1) | exact (Hf _ _ _ _ H2)].
Qed.
Lemma keeps_for_each {A} (l : list A) f : (∀ a, Keeps R (f a)) → Keeps R (for_each l f).
Proof.
  intros H. induction l as [|a l IH]; [apply keeps_ret|].
  apply keeps_bind; [apply H | intros _; exact IH].
Qed.
Lemma keeps_when b m : Keeps R m → Keeps R (when_ b m).
Proof. destruct b; [done | intros _; apply keeps_ret]. Qed.

End keeps.

Create HintDb keeps.
#[export] Hint Resolve keeps_ret keeps_undefined keeps_get_st keeps_lift_st keeps_bind
  keeps_for_each keeps_when : keeps.

(** [solve_keeps] follows the structure of a function; what is left are the operations
    that the hints do not know. *)
Ltac keeps_step :=
  match goal with
  | |- ∀ _, _ => intros
  | |- Keeps _ (_ ≫= _) => apply keeps_bind
  | |- Keeps _ (mret _) => apply keeps_ret
  | |- Keeps _ undefined => apply keeps_undefined
  | |- Keeps _ get_st => apply keeps_get_st
  | |- Keeps _ (lift_st _) => apply keeps_lift_st
  | |- Keeps _ (for_each _ _) => apply keeps_for_each
  | |- Keeps _ (when_ _ _) => apply keeps_when
  | |- Keeps _ (if ?b then _ else _) => destruct b
  | |- Keeps _ (match ?x with _ => _ end) => destruct x
  | |- Keeps _ (let _ := _ in _) => cbv zeta
  | |- PreOrder _ => typeclasses eauto
  | |- _ => solve [eauto 3 with keeps typeclass_instances]
  end.
Ltac solve_keeps := repeat keeps_step.

(** [sinv H] takes apart that a function returned. *)
Ltac sinv H :=
  repeat (lazymatch type of H with (_ ≫= _) _ = _ => apply St_bind_inv in H end;
          let a := fresh "a" in let s1 := fresh "s" in let H1 := fresh "E" in
          destruct H as (a & s1 & H1 & H)).

(** ** What functions end with

    [ends m Q s]: from [s], [m] returns a result and a state that satisfy [Q]. *)

Definition ends {S A} (m : St S A) (Q : A → S → Prop) (s : S) : Prop :=
  ∃ a s', m s = Some (a, s') ∧ Q a s'.

Section ends.
Context {S : Type}.
Implicit Type s : S.

Lemma ends_ret {A} (a : A) (Q : A → S → Prop) s : Q a s → ends (mret a) Q s.
Proof. intros H. by exists a, s. Qed.
Lemma ends_bind {A B} (m : St S A) (f : A → St S B) Q s :
  ends m (λ a, ends (f a) Q) s → ends (m ≫= f) Q s.
Proof.
  intros (a & s1 & H1 & b & s2 & H2 & HQ). exists b, s2. split; [|done].
  by rewrite (St_bind_Some _ _ _ _ _ H1).
Qed.
Lemma ends_modify_st f (Q : () → S → Prop) s : Q () (f s) → ends (modify_st f) Q s.
Proof. intros H. by exists (), (f s). Qed.

(** A loop whose body ends, and keeps a relation under which it ends again *)
Lemma ends_for_each {A} (R : S → S → Prop) `{!PreOrder R} (l : list A) f s :
  (∀ a s', a ∈ l → R s s' → ends (f a) (λ _ s'', R s' s'') s') →
  ends (for_each l f) (λ _ s', R s s') s.
Proof.
  revert s. induction l as [|a l IH]; intros s H; simpl; [by apply ends_ret|].
  destruct (H a s) as (r & s1 & E & H1); [apply list_elem_of_here | done|].
  destruct (IH s1) as (u & s2 & E' & H2).
  { intros b s2 Hb H2. apply H; [by apply list_elem_of_further | by etransitivity]. }
  exists u, s2. split; [by rewrite (St_bind_Some _ _ _ _ _ E) | by etransitivity].
Qed.

End ends.

(** [for (i = first; n times; i++)], over a value [a] that the body passes on, or leaves
    with a result *)
Fixpoint for_loop {S A R} (n : nat) (i : Z) (body : Z → A → St S (R + A)) (a : A) : St S (R + A) :=
  match n with
  | O => mret (inr a)
  | S n =>
      r ← body i a;
      match r with inl x => mret (inl x) | inr a => for_loop n (i + 1) body a end
  end.

(** ** What functions compute

    [computes I m o]: from states with [I], [m] returns what [o] is and keeps [I]; what the
    state is besides does not show. *)
Section computes.
Context {S : Type} (I : S → Prop).

Definition computes {A} (m : St S A) (o : option A) : Prop :=
  ∀ c, I c → match m c with Some (a, c') => o = Some a ∧ I c' | None => o = None end.

Lemma computes_ret {A} (a : A) : computes (mret a) (Some a).
Proof. intros c H. by split. Qed.
Lemma computes_lift {A} (o : option A) : computes (lift_st o) o.
Proof. intros c H. unfold lift_st. by destruct o. Qed.
Lemma computes_bind {A B} (m : St S A) (f : A → St S B) o g :
  computes m o → (∀ a, o = Some a → computes (f a) (g a)) → computes (m ≫= f) (o ≫= g).
Proof.
  intros Hm Hf c Hc. unfold mbind at 1, St_bind at 1. specialize (Hm c Hc).
  destruct (m c) as [[a c']|]; simpl; [|by subst].
  destruct Hm as [-> Hc']. simpl. by apply Hf.
Qed.

Lemma computes_mapM {A B} (f : A → St S B) g (l : list A) :
  (∀ a, a ∈ l → computes (f a) (g a)) → computes (mapM f l) (mapM g l).
Proof.
  induction l as [|a l IH]; intros H; simpl; [apply computes_ret|].
  apply computes_bind; [apply H, list_elem_of_here|]. intros b _.
  apply computes_bind; [|intros; apply computes_ret].
  apply IH. intros x Hx. by apply H, list_elem_of_further.
Qed.

(** [each f l a] is the loop over a list that [f] may leave. *)
Fixpoint each {A R X} (f : X → A → option (R + A)) (l : list X) (a : A) : option (R + A) :=
  match l with
  | [] => Some (inr a)
  | x :: l => r ← f x a; match r with inl r => Some (inl r) | inr a => each f l a end
  end.

Lemma each_app {A R X} (f : X → A → option (R + A)) l k a :
  each f (l ++ k) a = r ← each f l a; match r with inl r => Some (inl r) | inr a => each f k a end.
Proof.
  revert a. induction l as [|x l IH]; intros a; simpl; [done|].
  destruct (f x a) as [[r|b]|]; simpl; [done | apply IH | done].
Qed.

Lemma each_concat {A R X Y} (f : X → A → option (R + A)) (g : Y → list X) l a :
  each (λ y, each f (g y)) l a = each f (concat (g <$> l)) a.
Proof.
  revert a. induction l as [|y l IH]; intros a; simpl; [done|].
  rewrite each_app. destruct (each f (g y) a) as [[r|b]|]; simpl; [done | apply IH | done].
Qed.

Lemma each_fmap {A R X Y} (f : X → A → option (R + A)) (g : Y → X) l a :
  each f (g <$> l) a = each (λ y, f (g y)) l a.
Proof.
  revert a. induction l as [|y l IH]; intros a; simpl; [done|].
  destruct (f (g y) a) as [[r|b]|]; simpl; [done | apply IH | done].
Qed.

Lemma computes_for_loop {A R X} (body : Z → A → St S (R + A)) (f : X → A → option (R + A)) l i a :
  (∀ k x a, l !! k = Some x → computes (body (i + Z.of_nat k)%Z a) (f x a)) →
  computes (for_loop (length l) i body a) (each f l a).
Proof.
  revert i a. induction l as [|x l IH]; intros i a H; simpl; [apply computes_ret|].
  apply computes_bind.
  { specialize (H 0%nat x a eq_refl). by rewrite Z.add_0_r in H. }
  intros [r|b] _; [apply computes_ret|]. apply IH. intros k y b' Hk.
  specialize (H (Datatypes.S k) y b' Hk).
  by replace (i + 1 + Z.of_nat k)%Z with (i + Z.of_nat (Datatypes.S k))%Z by lia.
Qed.
End computes.
