(* ===== verification/HeapTable.v ===== *)
(** * The hash table of the heap statistics

    [heap-table.c]: a table from pointers to pointers with open addressing and a
    second hash, used by the heap statistics of the runtimes on the Memory Pool
    System.  Those are 32-bit programs: pointers and [size_t] have 32 bits.  An
    entry is named by its index in the array; a failed assertion or an access
    outside the array is [None], which the theorems exclude. *)

From S2P Require Import Prelude.
From stdpp Require Import base tactics option list numbers gmap fin_maps.
From Stdlib Require Import ZArith Znumtheory Lia.

Local Open Scope Z_scope.

(** ** Data *)

Definition TABLE_UNUSED : Z := 716693568.
Definition TABLE_DELETED : Z := 716697063.
Definition TABLE_ACTIVE : Z := 716696258.

Record table_entry := mkEntry { status : Z; key : Z; value : Z }.

Record table := mkTable {
  table_length : Z;
  table_cnt : Z;
  table_array : list table_entry
}.

Definition set_array (t : table) (a : list table_entry) : table :=
  mkTable (table_length t) (table_cnt t) a.

Definition table_hash (k : Z) : Z := u32 k.

(** ** Operations *)

(** The body of the loop of [table_find] at index [i]; [fuel] bounds the rest of
    the loop. *)
Fixpoint table_probe (fuel : nat) (t : table) (hash k : Z) (skip_deleted : bool) (i : Z) :
    option (option Z) :=
  e ← table_array t !! Z.to_nat i;
  let next :=
    let i' := Z.land (u32 (i + Z.lor hash 1)) (u32 (table_length t - 1)) in
    if i' =? hash then Some None
    else match fuel with
         | O => None
         | S fuel => table_probe fuel t hash k skip_deleted i'
         end in
  if status e =? TABLE_ACTIVE then if key e =? k then Some (Some i) else next
  else if status e =? TABLE_DELETED then if skip_deleted then next else Some (Some i)
  else if status e =? TABLE_UNUSED then Some (Some i)
  else None.

Definition table_find (t : table) (k : Z) (skip_deleted : bool) : option (option Z) :=
  let hash := Z.land (table_hash k) (u32 (table_length t - 1)) in
  table_probe (Z.to_nat (table_length t)) t hash k skip_deleted hash.

Definition entry_at (t : table) (i : Z) : option table_entry := table_array t !! Z.to_nat i.

Definition set_entry (t : table) (i : Z) (e : table_entry) : table :=
  set_array t (<[Z.to_nat i := e]> (table_array t)).

Definition unused_entry : table_entry := mkEntry TABLE_UNUSED 0 0.

(** The second loop of [table_grow], over the entries of the old array. *)
Fixpoint table_rehash (t : table) (old : list table_entry) : option table :=
  match old with
  | [] => Some t
  | o :: old =>
      guard (status o = TABLE_ACTIVE);;
      r ← table_find t (key o) false;
      i ← r;
      e ← entry_at t i;
      guard (status e = TABLE_UNUSED);;
      table_rehash (set_entry t i (mkEntry TABLE_ACTIVE (key o) (value o))) old
  end.

(** [ok]: whether [alloc_obj] finds memory. *)
Definition table_grow (ok : bool) (t : table) : option (bool * table) :=
  let newLength := u32 (table_length t * 2) in
  if negb ok then Some (false, t)
  else
    t' ← table_rehash
           (mkTable newLength (table_cnt t) (replicate (Z.to_nat newLength) unused_entry))
           (take (Z.to_nat (table_length t)) (table_array t));
    Some (true, t').

Definition table_create (ok : bool) (length : Z) : option table :=
  if ok then Some (mkTable length 0 (replicate (Z.to_nat length) unused_entry)) else None.

(** The value found, if any; [Some None] is a call that answers [FALSE]. *)
Definition table_lookup (t : table) (k : Z) : option (option Z) :=
  r ← table_find t k true;
  match r with
  | None => Some None
  | Some i =>
      e ← entry_at t i;
      if status e =? TABLE_ACTIVE then Some (Some (value e)) else Some None
  end.

(** Storing the new mapping in an entry that is not in use. *)
Definition table_fill (t : table) (i k v : Z) : option (bool * table) :=
  e ← entry_at t i;
  guard (status e ≠ TABLE_ACTIVE);;
  let t := set_entry t i (mkEntry TABLE_ACTIVE k v) in
  Some (true, mkTable (table_length t) (u32 (table_cnt t + 1)) (table_array t)).

Definition table_define (ok : bool) (t : table) (k v : Z) : option (bool * table) :=
  r ← table_find t k true;
  match r with
  | Some i =>
      e ← entry_at t i;
      if status e =? TABLE_ACTIVE then Some (false, t) else table_fill t i k v
  | None =>
      r ← table_find t k false;
      match r with
      | Some i => table_fill t i k v
      | None =>
          g ← table_grow ok t;
          if negb g.1 then Some (false, t)
          else r ← table_find g.2 k false; i ← r; table_fill g.2 i k v
      end
  end.

Definition table_redefine (t : table) (k v : Z) : option (bool * table) :=
  r ← table_find t k true;
  match r with
  | None => Some (false, t)
  | Some i =>
      e ← entry_at t i;
      if status e =? TABLE_ACTIVE then
        guard (key e = k);;
        Some (true, set_entry t i (mkEntry (status e) (key e) v))
      else Some (false, t)
  end.

Definition table_remove (t : table) (k : Z) : option (bool * table) :=
  r ← table_find t k true;
  match r with
  | None => Some (false, t)
  | Some i =>
      e ← entry_at t i;
      if status e =? TABLE_ACTIVE then
        let t := set_entry t i (mkEntry TABLE_DELETED (key e) (value e)) in
        Some (true, mkTable (table_length t) (u32 (table_cnt t - 1)) (table_array t))
      else Some (false, t)
  end.

(** The mappings in the order in which [table_map] visits them. *)
Definition active_entries (l : list table_entry) : list (Z * Z) :=
  (λ e, (key e, value e)) <$> filter (λ e, status e = TABLE_ACTIVE) l.

(** [table_map]: [f] is the function called, on a state of its own. *)
Definition table_map {A} (f : Z → Z → A → option A) (t : table) (a : A) : option A :=
  foldl (λ r b, a ← r; f b.1 b.2 a) (Some a)
    (active_entries (take (Z.to_nat (table_length t)) (table_array t))).

Definition table_count (t : table) : Z := table_cnt t.
