(* ===== verification/HeapTableLaws.v ===== *)
(** * The hash table is a finite map

    The probe sequence of [table_find] visits every entry once, so that a search
    ends and a full table is recognised; with the invariant that no unused entry
    precedes a mapping on its probe sequence, the operations are those of a finite
    map, growth and deleted entries included. *)

From S2P Require Import Prelude HeapTable.
From stdpp Require Import base tactics option list numbers gmap fin_maps.
From Stdlib Require Import ZArith Znumtheory Lia Bool.

Local Open Scope Z_scope.

(** ** The probe sequence *)

(** The index visited after [n] steps from [h] in a table of length [L]. *)
Definition probe_pos (L h : Z) (n : nat) : Z := (h + n * Z.lor h 1) mod L.

Lemma lor_1_odd h : Z.odd (Z.lor h 1) = true.
Proof. by rewrite <- Z.bit0_odd, Z.lor_spec, orb_true_r. Qed.

Lemma lor_1_bound h : 0 <= h → h <= Z.lor h 1 <= h + 1.
Proof.
  intros Hh. destruct (Z.odd h) eqn:O.
  - replace (Z.lor h 1) with h; [lia|]. apply Z.bits_inj'. intros n Hn. rewrite Z.lor_spec.
    destruct (decide (n = 0)) as [->|N]; [by rewrite Z.bit0_odd, O|].
    by rewrite (testbit_small 1 1 n), orb_false_r by lia.
  - assert (Z.land h 1 = 0) as E.
    { apply Z.bits_inj'. intros n Hn. rewrite Z.land_spec, Z.bits_0.
      destruct (decide (n = 0)) as [->|N]; [by rewrite Z.bit0_odd, O|].
      by rewrite (testbit_small 1 1 n), andb_false_r by lia. }
    rewrite <- Z.lxor_lor, <- Z.add_nocarry_lxor by done. lia.
Qed.

(** An odd number has an inverse modulo each power of two. *)
Lemma odd_inverse s p : Z.odd s = true → 0 <= p → ∃ u, (2 ^ p | s * u - 1).
Proof.
  intros O Hp. revert p Hp. apply natlike_ind.
  - exists 0. apply Z.divide_1_l.
  - intros p Hp (u & c & E). destruct (decide (p = 0)) as [->|].
    { exists 1. apply Z.odd_spec in O as [m ->]. exists m. change (2 ^ Z.succ 0) with 2. lia. }
    exists (u * (2 - s * u)). exists (- c * c * 2 ^ (p - 1)).
    replace (Z.succ p) with (p + 1) by lia. rewrite Z.pow_add_r by lia.
    assert (2 ^ p = 2 * 2 ^ (p - 1)) as E2.
    { rewrite <- Z.pow_succ_r by lia. f_equal. lia. }
    replace (s * (u * (2 - s * u)) - 1) with (- (s * u - 1) * (s * u - 1)) by ring.
    rewrite E, E2. ring.
Qed.

Section probes.
Context (p h : Z) (Hp : 0 <= p <= 31) (Hh : 0 <= h < 2 ^ p).

Lemma pow_bound : 1 <= 2 ^ p <= 2147483648.
Proof.
  split; [pose proof (Z.pow_pos_nonneg 2 p); lia|].
  change 2147483648 with (2 ^ 31). apply Z.pow_le_mono_r; lia.
Qed.

Lemma probe_pos_range n : 0 <= probe_pos (2 ^ p) h n < 2 ^ p.
Proof. apply Z.mod_pos_bound. pose proof pow_bound. lia. Qed.

Lemma probe_pos_0 : probe_pos (2 ^ p) h 0 = h.
Proof. unfold probe_pos. rewrite Z.mul_0_l, Z.add_0_r. by apply Z.mod_small. Qed.

(** The step of the loop, in C's arithmetic. *)
Lemma probe_pos_step n :
  Z.land (u32 (probe_pos (2 ^ p) h n + Z.lor h 1)) (u32 (2 ^ p - 1)) = probe_pos (2 ^ p) h (S n).
Proof.
  pose proof pow_bound. pose proof (probe_pos_range n). destruct (lor_1_bound h); [lia|].
  assert (probe_pos (2 ^ p) h n + Z.lor h 1 < 4294967296) as Hs by lia.
  rewrite (u32_id (2 ^ p - 1)), u32_id by (unfold in_u32; lia). rewrite land_mask by lia.
  unfold probe_pos. rewrite Zplus_mod_idemp_l. f_equal. lia.
Qed.

(** Coming back to the start takes as many steps as the table has entries. *)
Lemma probe_pos_return n : probe_pos (2 ^ p) h n = h → (2 ^ p | n).
Proof.
  unfold probe_pos. intros E. pose proof pow_bound.
  rewrite <- (Z.mod_small h (2 ^ p)) in E at 3 by done.
  apply Z.cong_iff_ex in E as [c E].
  destruct (odd_inverse (Z.lor h 1) p (lor_1_odd h)) as (u & d & Eu); [lia|].
  exists (c * u - n * d).
  replace ((c * u - n * d) * 2 ^ p) with (c * 2 ^ p * u - n * (d * 2 ^ p)) by ring.
  rewrite <- E, <- Eu. ring.
Qed.

(** Every index is visited before that. *)
Lemma probe_pos_all i : 0 <= i < 2 ^ p → ∃ n : nat, n < 2 ^ p ∧ probe_pos (2 ^ p) h n = i.
Proof.
  intros Hi. pose proof pow_bound.
  destruct (odd_inverse (Z.lor h 1) p (lor_1_odd h)) as (u & d & Eu); [lia|].
  exists (Z.to_nat (((i - h) * u) mod 2 ^ p)).
  pose proof (Z.mod_pos_bound ((i - h) * u) (2 ^ p)). unfold probe_pos.
  rewrite Z2Nat.id by lia. split; [lia|]. rewrite <- (Z.mod_small i (2 ^ p)) at 2 by done. apply Z.cong_iff_ex.
  exists ((i - h) * d - (i - h) * u / 2 ^ p * Z.lor h 1). rewrite Z.mod_eq by lia.
  generalize ((i - h) * u / 2 ^ p). intros q.
  pose proof (f_equal (Z.mul (i - h)) Eu) as Eu'.
  generalize dependent (2 ^ p). generalize (Z.lor h 1). intros s L **. nia.
Qed.

End probes.

(** ** Searching *)

(** A table of [2 ^ p] entries with valid statuses. *)
Record shape (t : table) (p : Z) : Prop := {
  shape_p : 0 <= p <= 31;
  shape_length : table_length t = 2 ^ p;
  shape_array : Z.of_nat (length (table_array t)) = 2 ^ p;
  shape_status i e : table_array t !! i = Some e →
    status e = TABLE_UNUSED ∨ status e = TABLE_DELETED ∨ status e = TABLE_ACTIVE
}.

(** The entries at which a search for [k] ends. *)
Definition stops (k : Z) (skip_deleted : bool) (e : table_entry) : Prop :=
  status e = TABLE_ACTIVE ∧ key e = k ∨
  status e = TABLE_DELETED ∧ skip_deleted = false ∨ status e = TABLE_UNUSED.

#[export] Instance stops_dec k skip e : Decision (stops k skip e).
Proof. unfold stops. apply _. Defined.

Definition start (t : table) (k : Z) : Z := u32 k mod table_length t.

(** The [n]th entry on the probe sequence of [k] *)
Definition probed (t : table) (k : Z) (n : nat) : option table_entry :=
  entry_at t (probe_pos (table_length t) (start t k) n).

Lemma entry_in_range t p i : shape t p → 0 <= i < 2 ^ p → is_Some (entry_at t i).
Proof.
  intros S Hi. unfold entry_at. apply lookup_lt_is_Some. pose proof (shape_array t p S). lia.
Qed.

Lemma start_range t p k : shape t p → 0 <= start t k < 2 ^ p.
Proof.
  intros S. unfold start. rewrite (shape_length t p S). apply Z.mod_pos_bound.
  pose proof (pow_bound p (shape_p t p S)). lia.
Qed.

(** Where a search ends: at the first entry that stops it, or nowhere. *)
Definition found_at (t : table) (k : Z) (skip_deleted : bool) (r : option Z) : Prop :=
  match r with
  | Some i => ∃ n e, i = probe_pos (table_length t) (start t k) n ∧
      entry_at t i = Some e ∧ stops k skip_deleted e ∧
      ∀ j e', (j < n)%nat → probed t k j = Some e' → ¬ stops k skip_deleted e'
  | None => ∀ i e, 0 <= i < table_length t → entry_at t i = Some e → ¬ stops k skip_deleted e
  end.

Lemma table_probe_unfold fuel t hash k skip i e :
  entry_at t i = Some e →
  status e = TABLE_UNUSED ∨ status e = TABLE_DELETED ∨ status e = TABLE_ACTIVE →
  table_probe fuel t hash k skip i =
    if decide (stops k skip e) then Some (Some i)
    else
      let i' := Z.land (u32 (i + Z.lor hash 1)) (u32 (table_length t - 1)) in
      if i' =? hash then Some None
      else match fuel with O => None | S fuel => table_probe fuel t hash k skip i' end.
Proof.
  unfold entry_at. intros He Hs.
  assert (∀ A (x y : A),
    (if status e =? TABLE_ACTIVE then if key e =? k then x else y
     else if status e =? TABLE_DELETED then if skip then y else x
     else if status e =? TABLE_UNUSED then x else y)
    = if decide (stops k skip e) then x else y) as Hif.
  { intros A x y. destruct (decide (stops k skip e)) as [Hd|Hd]; unfold stops in Hd;
      destruct Hs as [Hs|[Hs|Hs]]; rewrite Hs in *; simpl;
      destruct (Z.eqb_spec (key e) k), skip; try done; exfalso; naive_solver. }
  destruct fuel; cbn [table_probe]; rewrite He; cbn [mbind option_bind]; cbv zeta;
    rewrite <- Hif; destruct Hs as [Hs|[Hs|Hs]]; by rewrite Hs.
Qed.

Section search.
Context (t : table) (p k : Z) (skip : bool) (S : shape t p).

Let h := start t k.

Lemma visited_all (n : nat) :
  0 < n → n <= 2 ^ p → probe_pos (2 ^ p) h n = h →
  (∀ j e, (j < n)%nat → probed t k j = Some e → ¬ stops k skip e) →
  found_at t k skip None.
Proof.
  intros Hn HL Hr Hj i e Hi He. pose proof (shape_p t p S) as Hp.
  pose proof (start_range t p k S) as Hh. fold h in Hh. rewrite (shape_length t p S) in Hi.
  apply (probe_pos_return p h Hp Hh) in Hr. apply Z.divide_pos_le in Hr; [|lia].
  destruct (probe_pos_all p h Hp Hh i Hi) as (j & Hlt & E). apply (Hj j e); [lia|].
  unfold probed. rewrite (shape_length t p S). fold h. by rewrite E.
Qed.

Lemma table_probe_ok (fuel n : nat) :
  n < 2 ^ p → 2 ^ p <= n + fuel + 1 →
  (∀ j e, (j < n)%nat → probed t k j = Some e → ¬ stops k skip e) →
  ∃ r, table_probe fuel t h k skip (probe_pos (2 ^ p) h n) = Some r ∧ found_at t k skip r.
Proof.
  pose proof (shape_p t p S) as Hp. pose proof (start_range t p k S) as Hh. fold h in Hh.
  pose proof (shape_length t p S) as HL.
  revert n. induction fuel as [|fuel IH]; intros n Hn Hf Hj;
    (destruct (entry_in_range t p (probe_pos (2 ^ p) h n) S (probe_pos_range p h Hp n)) as [e He]);
    rewrite (table_probe_unfold _ t h k skip _ e He (shape_status t p S _ _ He));
    rewrite HL, probe_pos_step by done; cbv zeta;
    assert (probed t k n = Some e) as Hpr by (unfold probed; rewrite HL; exact He);
    (destruct (decide (stops k skip e)) as [Hs|Hs];
      [eexists; split; [done|]; exists n, e; rewrite HL; done|]);
    (assert (∀ j e, (j < Datatypes.S n)%nat → probed t k j = Some e → ¬ stops k skip e) as Hnext
      by (intros j e' Hlt Hje; destruct (decide (j = n)) as [->|];
        [congruence|apply (Hj j e'); [lia|done]]));
    destruct (Z.eqb_spec (probe_pos (2 ^ p) h (Datatypes.S n)) h) as [Hr|Hr].
  1, 3: eexists; split; [done|]; apply (visited_all (Datatypes.S n)); [lia|lia| |done];
    by rewrite Hr.
  - exfalso. apply Hr. assert (Z.of_nat (Datatypes.S n) = 2 ^ p) as E by lia.
    unfold probe_pos. rewrite E, Z.mul_comm, Z_mod_plus_full. by apply Z.mod_small.
  - apply IH; [|lia|done]. apply Z.le_neq. split; [lia|]. intros E.
    apply Hr. unfold probe_pos. rewrite E, Z.mul_comm, Z_mod_plus_full. by apply Z.mod_small.
Qed.

(** A search ends, with the first entry that stops it or when there is none. *)
Lemma table_find_ok : ∃ r, table_find t k skip = Some r ∧ found_at t k skip r.
Proof.
  pose proof (start_range t p k S) as Hh. pose proof (pow_bound p (shape_p t p S)).
  assert (Z.land (table_hash k) (u32 (table_length t - 1)) = h) as E.
  { unfold h, start, table_hash. rewrite (shape_length t p S), (u32_id (2 ^ p - 1)) by (unfold in_u32; lia).
    apply land_mask, S. }
  unfold table_find. rewrite E.
  destruct (table_probe_ok (Z.to_nat (table_length t)) 0) as (r & Hr & F).
  - lia.
  - rewrite (shape_length t p S). lia.
  - intros j e Hj. lia.
  - rewrite probe_pos_0 in Hr by done. by exists r.
Qed.

End search.

(** ** The invariant *)

(** No unused entry precedes index [i] on the probe sequence of [k]. *)
Definition free_for (t : table) (k i : Z) : Prop :=
  ∃ n, i = probe_pos (table_length t) (start t k) n ∧
    ∀ j e, (j < n)%nat → probed t k j = Some e → status e ≠ TABLE_UNUSED.

(** The active entry with key [k] and value [v] is at [i]. *)
Definition active_at (t : table) (i k v : Z) : Prop :=
  0 <= i ∧ entry_at t i = Some (mkEntry TABLE_ACTIVE k v).

Record represents (p : Z) (t : table) (m : gmap Z Z) : Prop := {
  rep_shape : shape t p;
  rep_map k v : m !! k = Some v ↔ ∃ i, active_at t i k v;
  rep_unique i j k v w : active_at t i k v → active_at t j k w → i = j;
  rep_probe i k v : active_at t i k v → free_for t k i
}.

Lemma active_at_range p t i k v : shape t p → active_at t i k v → 0 <= i < 2 ^ p.
Proof.
  intros S [Hi He]. split; [done|]. apply lookup_lt_Some in He.
  pose proof (shape_array t p S). lia.
Qed.

Lemma active_entry t i e :
  0 <= i → entry_at t i = Some e → status e = TABLE_ACTIVE → active_at t i (key e) (value e).
Proof. intros Hi He Hs. split; [done|]. destruct e; simpl in *. by subst. Qed.

Lemma probe_range t p k n : shape t p → 0 <= probe_pos (table_length t) (start t k) n < 2 ^ p.
Proof.
  intros S. rewrite (shape_length t p S). apply probe_pos_range, S.
Qed.

Lemma find_present p t m k v :
  represents p t m → m !! k = Some v →
  ∃ i, table_find t k true = Some (Some i) ∧ active_at t i k v.
Proof.
  intros R Hk. pose proof (rep_shape p t m R) as S.
  apply (rep_map p t m R) in Hk as [i Ha].
  destruct (table_find_ok t p k true S) as (r & Hr & F). destruct r as [i'|].
  2: { exfalso. destruct Ha as [Hi He].
       apply (F i (mkEntry TABLE_ACTIVE k v)); [rewrite (shape_length t p S)|done|by left].
       by eapply active_at_range. }
  exists i'. split; [done|]. destruct F as (n' & e' & -> & He' & Hs & Hj).
  destruct (rep_probe p t m R i k v Ha) as (n & Ei & Hn). pose proof Ha as [Hi He]. subst i.
  destruct (lt_eq_lt_dec n n') as [[Hlt|<-]|Hlt]; [|done|].
  - exfalso. apply (Hj n (mkEntry TABLE_ACTIVE k v) Hlt); [exact He|by left].
  - destruct Hs as [[Hs Hke]|[[_ ?]|Hs]]; [|done|].
    + pose proof (probe_range t p k n' S) as Hr'.
      pose proof (active_entry _ _ _ (proj1 Hr') He' Hs) as Ha'. rewrite Hke in Ha'.
      by rewrite <- (rep_unique p t m R _ _ _ _ _ Ha Ha').
    + exfalso. by apply (Hn n' e' Hlt).
Qed.

Lemma find_absent p t m k skip :
  represents p t m → m !! k = None →
  ∃ r, table_find t k skip = Some r ∧
    match r with
    | Some i => 0 <= i < 2 ^ p ∧ free_for t k i ∧
        ∃ e, entry_at t i = Some e ∧ status e ≠ TABLE_ACTIVE ∧ (status e = TABLE_DELETED → skip = false)
    | None => skip = false → ∀ i e, 0 <= i < 2 ^ p → entry_at t i = Some e → status e = TABLE_ACTIVE
    end.
Proof.
  intros R Hk. pose proof (rep_shape p t m R) as S.
  destruct (table_find_ok t p k skip S) as (r & Hr & F). exists r. split; [done|].
  destruct r as [i|].
  - destruct F as (n & e & -> & He & Hs & Hj). pose proof (probe_range t p k n S).
    split; [done|]. split.
    + exists n. split; [done|]. intros j f Hlt Hf Hu. apply (Hj j f Hlt Hf). by right; right.
    + exists e. split; [done|]. unfold stops in Hs. destruct Hs as [[Hs Hke]|[[Hs Hsk]|Hs]].
      * exfalso. assert (m !! k = Some (value e)) as E; [|congruence].
        apply (rep_map p t m R). exists (probe_pos (table_length t) (start t k) n).
        rewrite <- Hke at 2. by apply active_entry; [lia| |].
      * by rewrite Hs.
      * by rewrite Hs.
  - intros Hsk i e Hi He. rewrite <- (shape_length t p S) in Hi. specialize (F i e Hi He).
    unfold entry_at in He. destruct (shape_status t p S _ _ He) as [Hs|[Hs|Hs]]; [| |done];
      exfalso; apply F; unfold stops; tauto.
Qed.

(** ** Changing one entry *)

Lemma entry_set p t i j e :
  shape t p → 0 <= i < 2 ^ p → 0 <= j →
  entry_at (set_entry t i e) j = if decide (i = j) then Some e else entry_at t j.
Proof.
  intros S Hi Hj. unfold entry_at, set_entry. simpl. pose proof (shape_array t p S).
  case_decide as D.
  - subst. rewrite list_lookup_insert_eq; [done|lia].
  - rewrite list_lookup_insert_ne; [done|lia].
Qed.

Lemma shape_set p t i k v st :
  shape t p → st = TABLE_DELETED ∨ st = TABLE_ACTIVE → shape (set_entry t i (mkEntry st k v)) p.
Proof.
  intros S Hst. constructor; simpl; try apply S.
  - rewrite length_insert. apply S.
  - intros j f [(_ & <- & _)|[_ Hf]]%list_lookup_insert_Some; [simpl; tauto|].
    by apply (shape_status t p S j).
Qed.

Lemma free_for_set p t i k v st k' j :
  shape t p → 0 <= i < 2 ^ p → st = TABLE_DELETED ∨ st = TABLE_ACTIVE →
  free_for t k' j → free_for (set_entry t i (mkEntry st k v)) k' j.
Proof.
  intros S Hi Hst (n & -> & Hn). exists n. split; [done|]. intros l f Hl Hf.
  unfold probed in Hf. rewrite (entry_set p) in Hf; [|done|done|by apply (probe_range t p)].
  case_decide; [injection Hf as <-; simpl; by destruct Hst as [-> | ->]|by apply (Hn l f)].
Qed.

Lemma active_set p t i j e k v :
  shape t p → 0 <= i < 2 ^ p →
  active_at (set_entry t i e) j k v ↔
  (i = j ∧ e = mkEntry TABLE_ACTIVE k v) ∨ (i ≠ j ∧ active_at t j k v).
Proof.
  intros S Hi. unfold active_at. split.
  - intros [Hj He]. rewrite (entry_set p) in He by done. case_decide; [left|by right].
    by injection He as ->.
  - intros [[<- ->]|[N [Hj He]]]; (split; [lia|]); rewrite (entry_set p) by (done || lia).
    + by rewrite decide_True.
    + by rewrite decide_False.
Qed.

(** A new mapping *)
Lemma represents_fill p t m i k v e :
  represents p t m → m !! k = None → 0 <= i < 2 ^ p → entry_at t i = Some e →
  status e ≠ TABLE_ACTIVE → free_for t k i →
  represents p (set_entry t i (mkEntry TABLE_ACTIVE k v)) (<[k := v]> m).
Proof.
  intros R Hk Hi He Hst Hf. pose proof (rep_shape p t m R) as S.
  assert (∀ k' v', ¬ active_at t i k' v') as Hna by (intros k' v' [_ E]; rewrite He in E; naive_solver).
  assert (∀ j v', ¬ active_at t j k v') as Hnk.
  { intros j v' Ha. assert (m !! k = Some v'); [|congruence]. apply (rep_map p t m R). eauto. }
  constructor.
  - apply shape_set; tauto.
  - intros k' v'. setoid_rewrite (active_set p); [|done..].
    rewrite lookup_insert_Some, (rep_map p t m R). split.
    + intros [[<- <-]|[N [j Ha]]]; [by exists i; left|].
      exists j. right. split; [|done]. intros <-. by apply (Hna k' v').
    + intros (j & [[<- [= <- <-]]|[N Ha]]); [by left|]. right. split; [|by exists j].
      intros <-. by apply (Hnk j v').
  - intros j l k' v' w'. rewrite !(active_set p) by done.
    intros [[<- [= <- <-]]|[N Ha]] [[<- [= <-]]|[N' Ha']]; try done;
      [by apply Hnk in Ha'|subst; by apply Hnk in Ha|by apply (rep_unique p t m R j l k' v' w')].
  - intros j k' v'. rewrite (active_set p) by done. intros [[<- [= <- <-]]|[N Ha]];
      (apply (free_for_set p); [done..|tauto|]); [done|by apply (rep_probe p t m R j k' v')].
Qed.

(** A mapping removed or redefined *)
Lemma represents_delete p t m i k v w :
  represents p t m → active_at t i k v →
  represents p (set_entry t i (mkEntry TABLE_DELETED k w)) (delete k m).
Proof.
  intros R Ha. pose proof (rep_shape p t m R) as S. pose proof (active_at_range p t i k v S Ha) as Hi.
  constructor.
  - apply shape_set; tauto.
  - intros k' v'. setoid_rewrite (active_set p); [|done..].
    rewrite lookup_delete_Some, (rep_map p t m R). split.
    + intros [N [j Hj]]. exists j. right. split; [|done]. intros <-.
      destruct Ha as [_ Ha], Hj as [_ Hj]. rewrite Ha in Hj. congruence.
    + intros (j & [[_ [= ]]|[N Hj]]). split; [|by exists j]. intros <-.
      by apply N, (rep_unique p t m R i j k v v').
  - intros j l k' v' w'. rewrite !(active_set p) by done. intros [[_ [= ]]|[N Hj]] [[_ [= ]]|[N' Hl]].
    by apply (rep_unique p t m R j l k' v' w').
  - intros j k' v'. rewrite (active_set p) by done. intros [[_ [= ]]|[N Hj]].
    apply (free_for_set p); [done..|tauto|]. by apply (rep_probe p t m R j k' v').
Qed.

Lemma represents_update p t m i k v w :
  represents p t m → active_at t i k v →
  represents p (set_entry t i (mkEntry TABLE_ACTIVE k w)) (<[k := w]> m).
Proof.
  intros R Ha. pose proof (rep_shape p t m R) as S. pose proof (active_at_range p t i k v S Ha) as Hi.
  constructor.
  - apply shape_set; tauto.
  - intros k' v'. setoid_rewrite (active_set p); [|done..].
    rewrite lookup_insert_Some, (rep_map p t m R). split.
    + intros [[<- <-]|[N [j Hj]]]; [by exists i; left|]. exists j. right. split; [|done].
      intros <-. destruct Ha as [_ Ha], Hj as [_ Hj]. rewrite Ha in Hj. congruence.
    + intros (j & [[<- [= <- <-]]|[N Hj]]); [by left|]. right. split; [|by exists j].
      intros <-. by apply N, (rep_unique p t m R i j k v v').
  - intros j l k' v' w'. rewrite !(active_set p) by done.
    intros [[<- [= <- <-]]|[N Hj]] [[<- [= <-]]|[N' Hl]]; try done.
    + by eapply (rep_unique p t m R).
    + subst. by eapply (rep_unique p t m R).
    + by eapply (rep_unique p t m R).
  - intros j k' v'. rewrite (active_set p) by done. intros [[<- [= <- <-]]|[N Hj]];
      (apply (free_for_set p); [done..|tauto|]).
    + by apply (rep_probe p t m R i k v).
    + by apply (rep_probe p t m R j k' v').
Qed.

(** ** The mappings of a table *)

Lemma active_entries_spec l k v :
  (k, v) ∈ active_entries l ↔ ∃ i : nat, l !! i = Some (mkEntry TABLE_ACTIVE k v).
Proof.
  unfold active_entries. rewrite list_elem_of_fmap. split.
  - intros ([st k' v'] & [= -> ->] & [Hs Hin]%list_elem_of_filter). simpl in Hs. subst.
    by apply list_elem_of_lookup in Hin.
  - intros [i Hi]. exists (mkEntry TABLE_ACTIVE k v). split; [done|].
    apply list_elem_of_filter. split; [done|]. by apply list_elem_of_lookup_2 in Hi.
Qed.

Lemma active_entries_NoDup l :
  (∀ (i j : nat) k v w, l !! i = Some (mkEntry TABLE_ACTIVE k v) →
     l !! j = Some (mkEntry TABLE_ACTIVE k w) → i = j) →
  NoDup (active_entries l).*1.
Proof.
  induction l as [|[st k v] l IH]; intros U; [constructor|].
  assert (NoDup (active_entries l).*1) as Hl.
  { apply IH. intros i j k' v' w' Hi Hj. by apply Nat.succ_inj, (U (S i) (S j) k' v' w'). }
  unfold active_entries. destruct (decide (st = TABLE_ACTIVE)) as [->|N].
  - rewrite filter_cons_True by done. simpl. constructor; [|exact Hl].
    intros ([k' w] & Ek & Hin)%list_elem_of_fmap. simpl in Ek. subst k'.
    apply (active_entries_spec l) in Hin as [j Hj].
    by specialize (U 0%nat (S j) k v w eq_refl Hj).
  - rewrite filter_cons_False by done. exact Hl.
Qed.

Lemma represents_entries p t m :
  represents p t m → map_to_list m ≡ₚ active_entries (table_array t).
Proof.
  intros R.
  assert (∀ i k v, active_at t (Z.of_nat i) k v ↔ table_array t !! i = Some (mkEntry TABLE_ACTIVE k v))
    as Hat.
  { intros i k v. unfold active_at, entry_at. rewrite Nat2Z.id. intuition lia. }
  assert (NoDup (active_entries (table_array t)).*1) as ND.
  { apply active_entries_NoDup. intros i j k v w Hi%Hat Hj%Hat.
    apply Nat2Z.inj. by eapply (rep_unique p t m R). }
  rewrite <- (map_to_list_to_map (M := gmap Z) _ ND). f_equiv. apply map_eq. intros k.
  apply option_eq. intros v.
  rewrite (rep_map p t m R), <- elem_of_list_to_map by done. rewrite active_entries_spec. split.
  - intros (i & Hi). exists (Z.to_nat i). apply Hat. destruct Hi as [H0 Hi].
    by rewrite Z2Nat.id by done.
  - intros (i & Hi%Hat). eauto.
Qed.

Lemma represents_size p t m :
  represents p t m → size m = length (active_entries (table_array t)).
Proof. intros R. by rewrite <- (represents_entries p t m R), length_map_to_list. Qed.

Lemma active_entries_full l :
  Forall (λ e, status e = TABLE_ACTIVE) l →
  active_entries l = (λ e, (key e, value e)) <$> l.
Proof.
  intros H. unfold active_entries. f_equal. induction H; [done|].
  rewrite filter_cons_True by done. by f_equal.
Qed.

Lemma full_size p t m :
  represents p t m →
  (∀ i e, 0 <= i < 2 ^ p → entry_at t i = Some e → status e = TABLE_ACTIVE) ↔
  Z.of_nat (size m) = 2 ^ p.
Proof.
  intros R. pose proof (shape_array t p (rep_shape p t m R)) as HL.
  rewrite (represents_size p t m R), <- HL. split.
  - intros H. rewrite active_entries_full; [by rewrite length_fmap|]. apply Forall_lookup. intros i e Hi.
    apply (H (Z.of_nat i)); [|unfold entry_at; by rewrite Nat2Z.id].
    apply lookup_lt_Some in Hi. lia.
  - intros E%Nat2Z.inj i e Hi He. unfold active_entries in E. rewrite length_fmap in E.
    destruct (decide (status e = TABLE_ACTIVE)) as [|N]; [done|]. exfalso.
    apply list_elem_of_lookup_2 in He.
    pose proof (length_filter_lt (λ e, status e = TABLE_ACTIVE) _ e He N). lia.
Qed.

(** ** Growth *)

Lemma represents_empty p n :
  0 <= p <= 31 → represents p (mkTable (2 ^ p) n (replicate (Z.to_nat (2 ^ p)) unused_entry)) ∅.
Proof.
  intros Hp. pose proof (pow_bound p Hp).
  assert (∀ i k v, ¬ active_at (mkTable (2 ^ p) n (replicate (Z.to_nat (2 ^ p)) unused_entry)) i k v)
    as Hn.
  { intros i k v [_ He]. unfold entry_at in He. simpl in He. apply lookup_replicate in He as [E _].
    done. }
  constructor.
  - constructor; simpl; [done|done|rewrite length_replicate; lia|].
    intros i e [-> _]%lookup_replicate. by left.
  - intros k v. rewrite lookup_empty. split; [done|]. by intros (i & ?%Hn).
  - by intros i j k v w ?%Hn.
  - by intros i k v ?%Hn.
Qed.

Definition none_deleted (t : table) : Prop :=
  ∀ i e, entry_at t i = Some e → status e ≠ TABLE_DELETED.

Lemma table_rehash_ok p t m old :
  represents p t m → none_deleted t → Forall (λ e, status e = TABLE_ACTIVE) old →
  NoDup (key <$> old) → (∀ k, k ∈ key <$> old → m !! k = None) →
  size m + length old <= 2 ^ p →
  ∃ t', table_rehash t old = Some t' ∧ none_deleted t' ∧ table_cnt t' = table_cnt t ∧
    represents p t' (list_to_map ((λ e, (key e, value e)) <$> old) ∪ m).
Proof.
  revert t m. induction old as [|o old IH]; intros t m R D HA ND Hm Hs.
  { exists t. simpl. by rewrite (left_id_L ∅ (∪)). }
  apply Forall_cons in HA as [Ho HA]. cbn [fmap list_fmap] in ND, Hm. apply NoDup_cons in ND as [Hnin ND].
  assert (m !! key o = None) as Hk by (apply Hm; by left).
  destruct (find_absent p t m (key o) false R Hk) as (r & Hr & F). destruct r as [i|].
  2: { specialize (F eq_refl). apply (full_size p t m R) in F. simpl in Hs. lia. }
  destruct F as (Hi & Hf & e & He & Hna & _). pose proof (rep_shape p t m R) as S.
  assert (status e = TABLE_UNUSED) as Hu.
  { unfold entry_at in He. destruct (shape_status t p S _ _ He) as [|[E|E]]; [done| |done].
    by specialize (D i e He). }
  cbn [table_rehash]. rewrite Ho, Hr. simpl. rewrite He. simpl. rewrite Hu. simpl.
  pose proof (represents_fill p t m i (key o) (value o) e R Hk Hi He Hna Hf) as R'.
  destruct (IH _ _ R') as (t' & Ht' & D' & Hc & R''); [|done|done| | |].
  - intros j f Hj. destruct (decide (0 <= j)).
    + rewrite (entry_set p) in Hj by done. case_decide; [by injection Hj as <-|by apply (D j)].
    + unfold entry_at in Hj. replace (Z.to_nat j) with (Z.to_nat 0) in Hj by lia.
      change (entry_at (set_entry t i (mkEntry TABLE_ACTIVE (key o) (value o))) 0 = Some f) in Hj.
      rewrite (entry_set p) in Hj by done. case_decide; [by injection Hj as <-|by apply (D 0)].
  - intros k Hin. rewrite lookup_insert_ne; [apply Hm; by right|]. intros <-. done.
  - rewrite map_size_insert_None by done. simpl in Hs. lia.
  - exists t'. split; [done|]. split; [done|]. split; [done|]. simpl.
    rewrite <- insert_union_l, insert_union_r; [done|].
    apply not_elem_of_list_to_map_1. by rewrite <- list_fmap_compose.
Qed.

Lemma table_grow_ok p t m ok :
  represents p t m → 0 <= p <= 30 → Z.of_nat (size m) = 2 ^ p →
  ∃ t', table_grow ok t = Some (ok, t') ∧
    (if ok then represents (p + 1) t' m ∧ table_cnt t' = table_cnt t else t' = t).
Proof.
  intros R Hp Hs. pose proof (rep_shape p t m R) as S. unfold table_grow.
  destruct ok; simpl; [|by exists t]. rewrite (shape_length t p S).
  assert (2 ^ (p + 1) = 2 ^ p * 2) as E2 by (rewrite Z.pow_add_r by lia; done).
  pose proof (pow_bound (p + 1)). rewrite u32_id, <- E2 by (unfold in_u32; lia).
  rewrite take_ge by (pose proof (shape_array t p S); lia).
  assert (Forall (λ e, status e = TABLE_ACTIVE) (table_array t)) as HA.
  { apply Forall_lookup. intros i e Hi. apply (full_size p t m R) with (Z.of_nat i); [done| |].
    - apply lookup_lt_Some in Hi. rewrite <- (shape_array t p S). lia.
    - unfold entry_at. by rewrite Nat2Z.id. }
  pose proof (represents_entries p t m R) as Hent. rewrite active_entries_full in Hent by done.
  destruct (table_rehash_ok (p + 1) (mkTable (2 ^ (p + 1)) (table_cnt t)
      (replicate (Z.to_nat (2 ^ (p + 1))) unused_entry)) ∅ (table_array t))
    as (t' & Ht' & _ & Hc & R'); [apply represents_empty; lia| |done| | | |].
  - intros i e He. unfold entry_at in He. simpl in He. by apply lookup_replicate in He as [-> _].
  - assert (NoDup (map_to_list m).*1) as ND by apply NoDup_fst_map_to_list.
    rewrite Hent, <- list_fmap_compose in ND. exact ND.
  - intros k _. apply lookup_empty.
  - rewrite map_size_empty. pose proof (shape_array t p S). lia.
  - rewrite Ht'. simpl. exists t'. split; [done|]. split; [|done].
    rewrite (right_id_L ∅ (∪)) in R'.
    replace (list_to_map _ : gmap Z Z) with m in R'; [done|].
    rewrite <- (list_to_map_to_list m) at 1. apply list_to_map_proper; [|done].
    apply NoDup_fst_map_to_list.
Qed.

(** ** The operations *)

(** A table that holds the map [m] and its size. *)
Definition table_ok (t : table) (m : gmap Z Z) : Prop :=
  ∃ p, represents p t m ∧ table_cnt t = size m.

(** With fewer mappings than this a table fits the address space. *)
Definition table_max : Z := 268435456.

Lemma table_create_ok p : 0 <= p <= 28 → ∃ t, table_create true (2 ^ p) = Some t ∧ table_ok t ∅.
Proof.
  intros Hp. eexists. split; [done|]. exists p. split; [apply represents_empty; lia|done].
Qed.

Lemma active_lookup t i k v : active_at t i k v → entry_at t i = Some (mkEntry TABLE_ACTIVE k v).
Proof. by intros [_ ?]. Qed.

(** A search for a key that is not there answers with an entry that is not active,
    if at all. *)
Lemma find_absent_entry p t m k skip :
  represents p t m → m !! k = None →
  table_find t k skip = Some None ∨
  ∃ i e, table_find t k skip = Some (Some i) ∧ 0 <= i < 2 ^ p ∧ free_for t k i ∧
    entry_at t i = Some e ∧ status e ≠ TABLE_ACTIVE.
Proof.
  intros R Hk. destruct (find_absent p t m k skip R Hk) as ([i|] & Hr & F); [right|by left].
  destruct F as (Hi & Hf & e & He & Hs & _). by exists i, e.
Qed.

Lemma table_lookup_ok t m k : table_ok t m → table_lookup t k = Some (m !! k).
Proof.
  intros (p & R & _). unfold table_lookup. destruct (m !! k) as [v|] eqn:Hk.
  - destruct (find_present p t m k v R Hk) as (i & -> & Ha). simpl.
    by rewrite (active_lookup _ _ _ _ Ha).
  - destruct (find_absent_entry p t m k true R Hk) as [->|(i & e & -> & _ & _ & He & Hs)]; [done|].
    simpl. rewrite He. simpl. by rewrite (proj2 (Z.eqb_neq _ _) Hs).
Qed.

Lemma table_fill_ok p t m i e k v :
  represents p t m → table_cnt t = size m → size m < table_max → m !! k = None →
  0 <= i < 2 ^ p → entry_at t i = Some e → status e ≠ TABLE_ACTIVE → free_for t k i →
  ∃ t', table_fill t i k v = Some (true, t') ∧ table_ok t' (<[k := v]> m).
Proof.
  intros R Hc Hm Hk Hi He Hs Hf. unfold table_fill. rewrite He. simpl.
  rewrite option_guard_True by done. simpl. eexists. split; [done|]. exists p. split.
  - destruct (represents_fill p t m i k v e R Hk Hi He Hs Hf) as [S M U P].
    constructor; [by destruct S|done..].
  - simpl. rewrite Hc, map_size_insert_None by done. unfold table_max in Hm.
    rewrite u32_id; [lia|unfold in_u32; lia].
Qed.

Lemma table_define_ok ok t m k v :
  table_ok t m → size m < table_max →
  ∃ b t', table_define ok t k v = Some (b, t') ∧
    match m !! k with
    | Some _ => b = false ∧ t' = t
    | None => b = true ∧ table_ok t' (<[k := v]> m) ∨
              b = false ∧ t' = t ∧ ok = false ∧ ∃ q, Z.of_nat (size m) = 2 ^ q
    end.
Proof.
  intros (p & R & Hc) Hm. unfold table_define. destruct (m !! k) as [w|] eqn:Hk.
  { destruct (find_present p t m k w R Hk) as (i & -> & Ha). simpl.
    rewrite (active_lookup _ _ _ _ Ha). simpl. by exists false, t. }
  destruct (find_absent_entry p t m k true R Hk) as [->|(i & e & -> & Hi & Hf & He & Hs)].
  2: { simpl. rewrite He. simpl. rewrite (proj2 (Z.eqb_neq _ _) Hs).
       destruct (table_fill_ok p t m i e k v) as (t' & -> & T); [done..|]. exists true, t'. tauto. }
  simpl. destruct (find_absent p t m k false R Hk) as ([i|] & -> & F).
  { destruct F as (Hi & Hf & e & He & Hs & _). simpl.
    destruct (table_fill_ok p t m i e k v) as (t' & -> & T); [done..|]. exists true, t'. tauto. }
  specialize (F eq_refl). apply (full_size p t m R) in F. simpl.
  pose proof (shape_p t p (rep_shape p t m R)) as Hp.
  assert (p <= 30) as Hp30.
  { destruct (Z.le_gt_cases p 30) as [|Hgt]; [done|]. unfold table_max in Hm.
    pose proof (Z.pow_le_mono_r 2 31 p). lia. }
  destruct (table_grow_ok p t m ok R ltac:(lia) F) as (t1 & -> & Hg). simpl.
  destruct ok; simpl; [|by exists false, t; eauto 10]. destruct Hg as [R1 Hc1].
  destruct (find_absent (p + 1) t1 m k false R1 Hk) as ([i|] & -> & F1).
  2: { exfalso. specialize (F1 eq_refl). apply (full_size (p + 1) t1 m R1) in F1.
       rewrite F, Z.pow_add_r in F1 by lia. pose proof (pow_bound p Hp). lia. }
  destruct F1 as (Hi & Hf & e & He & Hs & _). simpl.
  destruct (table_fill_ok (p + 1) t1 m i e k v) as (t' & -> & T); try done; [congruence|].
  exists true, t'. tauto.
Qed.

Lemma table_redefine_ok t m k v :
  table_ok t m →
  ∃ b t', table_redefine t k v = Some (b, t') ∧
    match m !! k with
    | Some _ => b = true ∧ table_ok t' (<[k := v]> m)
    | None => b = false ∧ t' = t
    end.
Proof.
  intros (p & R & Hc). unfold table_redefine. destruct (m !! k) as [w|] eqn:Hk.
  - destruct (find_present p t m k w R Hk) as (i & -> & Ha). simpl.
    rewrite (active_lookup _ _ _ _ Ha). simpl. rewrite option_guard_True by done. simpl.
    exists true. eexists. split; [done|]. split; [done|]. exists p. split.
    + by apply (represents_update p t m i k w v).
    + simpl. by rewrite map_size_insert_Some by eauto.
  - exists false, t. split; [|done].
    destruct (find_absent_entry p t m k true R Hk) as [->|(i & e & -> & _ & _ & He & Hs)]; [done|].
    simpl. rewrite He. simpl. by rewrite (proj2 (Z.eqb_neq _ _) Hs).
Qed.

Lemma table_remove_ok t m k :
  table_ok t m → size m <= table_max →
  ∃ b t', table_remove t k = Some (b, t') ∧
    match m !! k with
    | Some _ => b = true ∧ table_ok t' (delete k m)
    | None => b = false ∧ t' = t
    end.
Proof.
  intros (p & R & Hc) Hm. unfold table_remove. destruct (m !! k) as [w|] eqn:Hk.
  - destruct (find_present p t m k w R Hk) as (i & -> & Ha). simpl.
    rewrite (active_lookup _ _ _ _ Ha). simpl.
    exists true. eexists. split; [done|]. split; [done|]. exists p. split.
    + destruct (represents_delete p t m i k w w R Ha) as [S M U P]. constructor; [by destruct S|done..].
    + simpl. rewrite Hc, map_size_delete_Some by eauto.
      assert (size m ≠ 0%nat) by (apply map_size_non_empty_iff; intros ->; done).
      unfold table_max in Hm. rewrite u32_id; [lia|unfold in_u32; lia].
  - exists false, t. split; [|done].
    destruct (find_absent_entry p t m k true R Hk) as [->|(i & e & -> & _ & _ & He & Hs)]; [done|].
    simpl. rewrite He. simpl. by rewrite (proj2 (Z.eqb_neq _ _) Hs).
Qed.

(** [table_map] folds over the mappings, each once. *)
Lemma table_map_ok {A} (f : Z → Z → A → option A) t m a :
  table_ok t m → ∃ l, l ≡ₚ map_to_list m ∧
    table_map f t a = foldl (λ r b, a ← r; f b.1 b.2 a) (Some a) l.
Proof.
  intros (p & R & _). pose proof (rep_shape p t m R) as S.
  exists (active_entries (table_array t)). split; [by rewrite (represents_entries p t m R)|].
  unfold table_map. rewrite take_ge; [done|].
  rewrite (shape_length t p S), <- (shape_array t p S). lia.
Qed.

(** ** Sequences of operations *)

Inductive table_op :=
| Define (ok : bool) (k v : Z)
| Redefine (k v : Z)
| Lookup (k : Z)
| Remove (k : Z)
| Count
| Map.

Inductive table_result :=
| Truth (b : bool)
| Value (v : option Z)
| Number (n : Z)
| Mappings (l : list (Z * Z)).

Definition table_step (t : table) (op : table_op) : option (table_result * table) :=
  match op with
  | Define ok k v => r ← table_define ok t k v; Some (Truth r.1, r.2)
  | Redefine k v => r ← table_redefine t k v; Some (Truth r.1, r.2)
  | Lookup k => r ← table_lookup t k; Some (Value r, t)
  | Remove k => r ← table_remove t k; Some (Truth r.1, r.2)
  | Count => Some (Number (table_count t), t)
  | Map => l ← table_map (λ k v l, Some (l ++ [(k, v)])) t []; Some (Mappings l, t)
  end.

Fixpoint table_run (t : table) (ops : list table_op) : option (list table_result * table) :=
  match ops with
  | [] => Some ([], t)
  | op :: ops => r ← table_step t op; rs ← table_run r.2 ops; Some (r.1 :: rs.1, rs.2)
  end.

(** What each operation may answer and leave on a finite map. *)
Inductive map_step : gmap Z Z → table_op → table_result → gmap Z Z → Prop :=
| define_new m ok k v : m !! k = None → map_step m (Define ok k v) (Truth true) (<[k := v]> m)
| define_old m ok k v w : m !! k = Some w → map_step m (Define ok k v) (Truth false) m
| define_no_memory m k v q :
    m !! k = None → Z.of_nat (size m) = 2 ^ q → map_step m (Define false k v) (Truth false) m
| redefine_old m k v w : m !! k = Some w → map_step m (Redefine k v) (Truth true) (<[k := v]> m)
| redefine_none m k v : m !! k = None → map_step m (Redefine k v) (Truth false) m
| lookup_any m k : map_step m (Lookup k) (Value (m !! k)) m
| remove_old m k w : m !! k = Some w → map_step m (Remove k) (Truth true) (delete k m)
| remove_none m k : m !! k = None → map_step m (Remove k) (Truth false) m
| count_any m : map_step m Count (Number (size m)) m
| map_any m l : l ≡ₚ map_to_list m → map_step m Map (Mappings l) m.

Inductive map_steps : gmap Z Z → list table_op → list table_result → gmap Z Z → Prop :=
| map_steps_nil m : map_steps m [] [] m
| map_steps_cons m op r m' ops rs m'' :
    map_step m op r m' → map_steps m' ops rs m'' → map_steps m (op :: ops) (r :: rs) m''.

Lemma foldl_append (l k : list (Z * Z)) :
  foldl (λ r b, a ← r; Some (a ++ [(b.1, b.2)])) (Some k) l = Some (k ++ l).
Proof.
  revert k. induction l as [|[x y] l IH]; intros k; simpl; [by rewrite app_nil_r|].
  by rewrite IH, <- app_assoc.
Qed.

Lemma table_step_ok t m op :
  table_ok t m → size m < table_max →
  ∃ r t' m', table_step t op = Some (r, t') ∧ map_step m op r m' ∧ table_ok t' m'.
Proof.
  intros T Hm. destruct op as [ok k v|k v|k|k| |]; simpl.
  - destruct (table_define_ok ok t m k v T Hm) as (b & t' & -> & H). simpl.
    exists (Truth b), t'. destruct (m !! k) as [w|] eqn:Hk.
    + destruct H as [-> ->]. exists m. split; [done|]. split; [by apply (define_old _ _ _ _ w)|done].
    + destruct H as [[-> T']|(-> & -> & -> & q & Hq)].
      * eexists. split; [done|]. split; [by apply define_new|done].
      * exists m. split; [done|]. split; [by apply (define_no_memory _ _ _ q)|done].
  - destruct (table_redefine_ok t m k v T) as (b & t' & -> & H). simpl.
    exists (Truth b), t'. destruct (m !! k) as [w|] eqn:Hk; destruct H as [-> H].
    + eexists. split; [done|]. split; [by apply (redefine_old _ _ _ w)|done].
    + subst. exists m. split; [done|]. split; [by apply redefine_none|done].
  - rewrite (table_lookup_ok t m k T). simpl. eexists _, _, m. split; [done|].
    split; [constructor|done].
  - destruct (table_remove_ok t m k T ltac:(lia)) as (b & t' & -> & H). simpl.
    exists (Truth b), t'. destruct (m !! k) as [w|] eqn:Hk; destruct H as [-> H].
    + eexists. split; [done|]. split; [by apply (remove_old _ _ w)|done].
    + subst. exists m. split; [done|]. split; [by apply remove_none|done].
  - exists (Number (table_count t)), t, m. split; [done|]. split; [|done].
    destruct T as (p & _ & Hc). unfold table_count. rewrite Hc. constructor.
  - destruct (table_map_ok (λ k v l, Some (l ++ [(k, v)])) t m [] T) as (l & Hl & ->).
    rewrite foldl_append. simpl. eexists _, t, m. split; [done|]. split; [by constructor|done].
Qed.

Lemma map_step_size m op r m' : map_step m op r m' → (size m' ≤ S (size m))%nat.
Proof.
  destruct 1; rewrite ?map_size_insert_None, ?map_size_insert_Some, ?map_size_delete_Some by eauto;
    lia.
Qed.

(** C17: For every sequence of definitions, redefinitions, removals, lookups and
    counts on a new hash table of any power of two length, with or without
    memory for its growth, every call returns, no assertion fails, and the
    answers are those of a finite map; the table then holds exactly that
    map. *)
Theorem hash_table_is_a_map p ops :
  0 <= p <= 28 → length ops < table_max →
  ∃ t rs t' m, table_create true (2 ^ p) = Some t ∧ table_run t ops = Some (rs, t') ∧
    map_steps ∅ ops rs m ∧ table_count t' = size m ∧ ∀ k, table_lookup t' k = Some (m !! k).
Proof.
  intros Hp Hops. destruct (table_create_ok p Hp) as (t & Ht & T). exists t.
  assert (∀ m, table_ok t m → size m + length ops < table_max → ∃ rs t' m',
    table_run t ops = Some (rs, t') ∧ map_steps m ops rs m' ∧ table_ok t' m') as H.
  { clear Ht T Hops. revert t. induction ops as [|op ops IH]; intros t m T Hs.
    - exists [], t, m. split; [done|]. split; [constructor|done].
    - simpl in Hs. destruct (table_step_ok t m op T ltac:(lia)) as (r & t1 & m1 & E & Hm & T1).
      pose proof (map_step_size _ _ _ _ Hm).
      destruct (IH t1 m1 T1 ltac:(lia)) as (rs & t' & m' & E' & Hm' & T').
      exists (r :: rs), t', m'. simpl. rewrite E. simpl. rewrite E'. split; [done|].
      split; [by econstructor|done]. }
  destruct (H ∅ T) as (rs & t' & m & E & Hm & T'); [rewrite map_size_empty; lia|].
  exists rs, t', m. split_and!; try done.
  - destruct T' as (q & _ & Hc). exact Hc.
  - intros k. by apply table_lookup_ok.
Qed.

(** Sixteen keys of one hash in a table of one entry, which grows four times, a
    removal and a redefinition of the key removed. *)
Definition sixteen_keys : list table_op :=
  ((λ n : nat, Define true (1024 * n) n) <$> seq 0 16) ++ [Remove 2048; Redefine 2048 7; Count].

Example hash_table_is_a_map_witness :
  ∃ t rs t' m, table_create true (2 ^ 0) = Some t ∧ table_run t sixteen_keys = Some (rs, t') ∧
    map_steps ∅ sixteen_keys rs m ∧ table_count t' = size m ∧
    ∀ k, table_lookup t' k = Some (m !! k).
Proof. apply hash_table_is_a_map; [lia|vm_compute; reflexivity]. Defined.

Example sixteen_keys_run :
  (t ← table_create true 1; r ← table_run t sixteen_keys; Some (r.1, table_length r.2)) =
  Some (replicate 16 (Truth true) ++ [Truth true; Truth false; Number 15], 16).
Proof. vm_compute. reflexivity. Qed.
