(* ===== verification/HeapUtils.v ===== *)
(** * Walking objects and printing: the utilities of the heap statistics

    [heap-utils.c]: decoding the wrapper of an object, tracing its references and
    the columns of the reports.  The memory is that of a 32-bit program: words of 32
    bits at multiples of 4, which these functions only read.  A function that prints
    is the list of characters it prints; reading memory that is not mapped, or a
    signed overflow, is [None]. *)

From S2P Require Import Prelude Effects HeapTable.
From Stdlib Require Import ZArith Lia Bool Ascii String.
From stdpp Require Import base tactics option list numbers gmap.

Local Open Scope Z_scope.

(** ** Words and characters *)

(** The characters of a literal *)
Definition chars (s : string) : list Z := (λ c, Z.of_nat (nat_of_ascii c)) <$> list_ascii_of_string s.

(** An [int] result *)
Definition int32 (x : Z) : option Z := if decide (in_s32 x) then Some x else None.

(** What a report prints, and the stops at which the debugger may look at it. *)
Inductive out := Char (c : Z) | Debug_break.

Section heap_utils.
Context (mem : gmap Z Z).

(** [((void** )p)[i]] and [((int* )p)[i]] *)
Definition word_at (p i : Z) : option Z := mem !! (p + 4 * i).
Definition int_at (p i : Z) : option Z := s32 <$> word_at p i.

(** The characters at [a] up to the null byte; [fuel] bounds their number. *)
Fixpoint c_string (fuel : nat) (a : Z) : option (list Z) :=
  w ← mem !! (a - a mod 4);
  let c := Z.land (Z.shiftr w (8 * (a mod 4))) 255 in
  if c =? 0 then Some []
  else match fuel with
       | O => None
       | S fuel => l ← c_string fuel (a + 1); Some (c :: l)
       end.

(** The string at [a]: it lies in mapped memory, which bounds its length. *)
Definition string_at (a : Z) : option (list Z) := c_string (4 * size mem) a.

(** ** Wrappers *)

Definition wrapper_fixed_format (wrapper : Z) : option Z :=
  wf ← int_at wrapper 3; Some (Z.land wf 3).

Definition wrapper_fixed_length_in_words (wrapper : Z) : option Z :=
  wf ← int_at wrapper 3; Some (Z.shiftr wf 2 + 1).

Definition wrapper_vector_format (wrapper : Z) : option Z :=
  wf ← int_at wrapper 4; Some (Z.land wf 7).

Definition wrapper_vector_scaling_in_bytes (wrapper : Z) : option Z :=
  wv ← int_at wrapper 4;
  let vf := Z.land wv 7 in
  Some (if vf =? 7 then 0 else if (vf =? 4) || (vf =? 5) then 1 else 4).

Definition wrapper_pattern (wrapper pat_index : Z) : option Z := int_at wrapper (6 + pat_index).

Definition object_repeated_size (object fixed_offset : Z) : option Z :=
  tagged_size ← int_at object fixed_offset; Some (Z.shiftr tagged_size 2).

Definition size_of_object (object wrapper : Z) : option Z :=
  fixed ← wrapper_fixed_length_in_words wrapper;
  vec_scale ← wrapper_vector_scaling_in_bytes wrapper;
  if negb (vec_scale =? 0) then
    n ← object_repeated_size object fixed;
    int32 (4 * fixed + 4 + vec_scale * n)
  else int32 (4 * fixed).

Definition traceable_word_size_of_object (object wrapper : Z) : option Z :=
  fixed ← wrapper_fixed_length_in_words wrapper;
  vec_scale ← wrapper_vector_scaling_in_bytes wrapper;
  if vec_scale =? 4 then
    n ← object_repeated_size object fixed; int32 (fixed + 1 + n)
  else Some fixed.

(** ** Tracing

    The tracer function has a state of its own; it answers whether to go on. *)

Section trace.
Context {S : Type} (fn : Z → Z → Z → St S bool).

(** [fn] on the words [i] to [i + n - 1] of [parent]; [false] is [goto done]. *)
Fixpoint trace_fields (parent parent_size i : Z) (n : nat) (s : S) : option (bool * S) :=
  match n with
  | O => Some (true, s)
  | Datatypes.S n =>
      ref ← word_at parent i;
      r ← fn ref parent parent_size s;
      if (r.1 : bool) then trace_fields parent parent_size (i + 1) n r.2 else Some (false, r.2)
  end.

Fixpoint trace_patterned (wrapper parent parent_size i : Z) (n : nat) (patindex seen pat : Z)
    (s : S) : option (bool * S) :=
  match n with
  | O => Some (true, s)
  | Datatypes.S n =>
      p ← (if seen =? 0 then p ← wrapper_pattern wrapper patindex; Some (p, patindex + 1)
           else Some (pat, patindex));
      r ← (if negb (Z.land p.1 1 =? 0) then
             ref ← word_at parent i; fn ref parent parent_size s
           else Some (true, s));
      if (r.1 : bool) then
        let seen := seen + 1 in
        trace_patterned wrapper parent parent_size (i + 1) n p.2
          (if seen =? 32 then 0 else seen) (Z.shiftr p.1 1) r.2
      else Some (false, r.2)
  end.

Definition trace_object (parent : Z) (s : S) : option (Z * S) :=
  wrapper ← word_at parent 0;
  if negb (wrapper =? 0) && (Z.land (s32 wrapper) 3 =? 0) then
    fixlen ← wrapper_fixed_length_in_words wrapper;
    fixform ← wrapper_fixed_format wrapper;
    vecform ← wrapper_vector_format wrapper;
    parent_size ← size_of_object parent wrapper;
    r ← (if fixform =? 1 then
           trace_fields parent parent_size 1 (Z.to_nat (fixlen - 1)) s
         else if fixform =? 2 then
           trace_patterned wrapper parent parent_size 1 (Z.to_nat (fixlen - 1)) 0 0 0 s
         else Some (true, s));
    if negb r.1 then Some (parent_size, r.2)
    else if vecform =? 2 then
      replen ← object_repeated_size parent fixlen;
      let totlen := fixlen + replen + 1 in
      r ← trace_fields parent parent_size (fixlen + 1) (Z.to_nat (totlen - (fixlen + 1))) r.2;
      Some (parent_size, r.2)
    else Some (parent_size, r.2)
  else Some (0, s).

End trace.

(** ** Reports *)

Definition wrapper_class (wrapper : Z) : option Z :=
  iclass ← word_at wrapper 1; word_at iclass 2.

(** The address of the name *)
Definition class_name_from_wrapper (wrapper : Z) : option Z :=
  class ← wrapper_class wrapper;
  name ← word_at class 2;
  Some (name + 8).

End heap_utils.

(** The digit for the power of ten [power], the remaining powers below it. *)
Fixpoint display_digits (n : nat) (power remainder : Z) (leading : bool) : list Z :=
  match n with
  | O => []
  | S n =>
      let digit := Z.quot remainder power in
      let remainder := Z.rem remainder power in
      let leading' := if digit =? 0 then leading else false in
      let blank (c : Z) := if leading then 32 else c in
      (if digit =? 0 then [blank 48] else [48 + digit]) ++
      (if (power =? 1000000) || (power =? 1000) then
         if digit =? 0 then [blank 44] else [44]
       else []) ++
      display_digits n (Z.quot power 10) remainder leading'
  end.

Definition display_integer (integer : Z) : list Z :=
  if integer =? 0 then chars "       0" else display_digits 8 10000000 integer true.

Fixpoint display_hex_digits (n : nat) (power remainder : Z) (leading : bool) : list Z :=
  match n with
  | O => []
  | S n =>
      let digit := remainder / power in
      let remainder := remainder mod power in
      (if digit =? 0 then [if leading then 32 else 48]
       else if 9 <? digit then [65 + digit - 10] else [48 + digit]) ++
      display_hex_digits n (power / 16) remainder (if digit =? 0 then leading else false)
  end.

Definition display_hex_address (address : Z) : list Z :=
  display_hex_digits 8 268435456 (u32 address) true.

(** Strings are the characters before their null byte. *)
Definition padding_for_string (string : list Z) (len : Z) : Z :=
  len - Z.of_nat (length string).

Definition display_padding_for_string (string : list Z) (pad field : Z) : list Z :=
  replicate (Z.to_nat (padding_for_string string field)) pad.

(** [mps_lib_fputs_]: at most [field] characters. *)
Definition mps_lib_fputs_ (string : list Z) (field : Z) : list Z := take (Z.to_nat field) string.

Definition class_name_size : Z := 45.

(** The two low bits of a pointer *)
Lemma wrapper_tag wrapper : Z.land (s32 wrapper) 3 = wrapper mod 4.
Proof. change 3 with (2 ^ 2 - 1). rewrite land_mask by lia. unfold s32. zmod. Qed.

(** ** The references of an object

    What the code computes by shifting pattern words, as a property of each field:
    field [j] (from 0, the wrapper left out) of a patterned object is a reference
    when bit [j mod 32] of pattern word [j / 32] is set. *)

Section references.
Context (mem : gmap Z Z).

Definition field_is_reference (wrapper form j : Z) : option bool :=
  if form =? 1 then Some true
  else if form =? 2 then p ← wrapper_pattern mem wrapper (j / 32); Some (Z.testbit p (j mod 32))
  else Some false.

Fixpoint references_from (wrapper form parent j : Z) (n : nat) : option (list Z) :=
  match n with
  | O => Some []
  | S n =>
      b ← field_is_reference wrapper form j;
      l ← references_from wrapper form parent (j + 1) n;
      if (b : bool) then ref ← word_at mem parent (j + 1); Some (ref :: l) else Some l
  end.

Fixpoint words_from (p i : Z) (n : nat) : option (list Z) :=
  match n with
  | O => Some []
  | S n => v ← word_at mem p i; l ← words_from p (i + 1) n; Some (v :: l)
  end.

(** The size of an object and its references; a word whose wrapper is not one is no
    object. *)
Definition references (parent : Z) : option (Z * list Z) :=
  wrapper ← word_at mem parent 0;
  if (wrapper =? 0) || negb (wrapper mod 4 =? 0) then Some (0, [])
  else
    fixlen ← wrapper_fixed_length_in_words mem wrapper;
    fixform ← wrapper_fixed_format mem wrapper;
    vecform ← wrapper_vector_format mem wrapper;
    size ← size_of_object mem parent wrapper;
    fixed ← references_from wrapper fixform parent 0 (Z.to_nat (fixlen - 1));
    if vecform =? 2 then
      replen ← object_repeated_size mem parent fixlen;
      l ← words_from parent (fixlen + 1) (Z.to_nat replen);
      Some (size, fixed ++ l)
    else Some (size, fixed).

Section visit.
Context {S : Type} (fn : Z → Z → Z → St S bool).

(** Calling [fn] on each of them until it answers [false]. *)
Fixpoint visit (parent size : Z) (refs : list Z) (s : S) : option (bool * S) :=
  match refs with
  | [] => Some (true, s)
  | ref :: refs =>
      r ← fn ref parent size s;
      if (r.1 : bool) then visit parent size refs r.2 else Some (false, r.2)
  end.

Lemma visit_app parent size l k s :
  visit parent size (l ++ k) s =
  r ← visit parent size l s; if (r.1 : bool) then visit parent size k r.2 else Some (false, r.2).
Proof.
  revert s. induction l as [|x l IH]; intros s; simpl; [done|].
  destruct (fn x parent size s) as [[[] s']|]; simpl; [apply IH|done|done].
Qed.

Lemma trace_fields_visit parent size i n l s :
  words_from parent i n = Some l → trace_fields mem fn parent size i n s = visit parent size l s.
Proof.
  revert i l s. induction n as [|n IH]; intros i l s; simpl; [by intros [= <-]|].
  destruct (word_at mem parent i) as [v|]; simpl; [|done].
  destruct (words_from parent (i + 1) n) as [k|] eqn:E; simpl; [|done]. intros [= <-]. simpl.
  destruct (fn v parent size s) as [[[] s']|]; simpl; [by apply IH|done|done].
Qed.

Lemma references_from_all wrapper parent j n :
  references_from wrapper 1 parent j n = words_from parent (j + 1) n.
Proof.
  revert j. induction n as [|n IH]; intros j; simpl; [done|]. rewrite IH.
  by destruct (words_from parent (j + 1 + 1) n), (word_at mem parent (j + 1)).
Qed.

Lemma references_from_none wrapper form parent j n :
  form ≠ 1 → form ≠ 2 → references_from wrapper form parent j n = Some [].
Proof.
  intros H1 H2. revert j. induction n as [|n IH]; intros j; simpl; [done|].
  unfold field_is_reference. rewrite (proj2 (Z.eqb_neq _ _) H1), (proj2 (Z.eqb_neq _ _) H2). simpl.
  by rewrite IH.
Qed.

(** The pattern word in use, with the bits of the fields already seen shifted out. *)
Lemma trace_patterned_visit wrapper parent size j n patindex seen pat l s :
  0 <= j → seen = j mod 32 → patindex = (j + 31) / 32 →
  (seen ≠ 0 → (λ p, Z.shiftr p seen) <$> wrapper_pattern mem wrapper (j / 32) = Some pat) →
  references_from wrapper 2 parent j n = Some l →
  trace_patterned mem fn wrapper parent size (j + 1) n patindex seen pat s = visit parent size l s.
Proof.
  revert j patindex seen pat l s. induction n as [|n IH]; intros j patindex seen pat l s Hj Hs Hpi Hpat;
    simpl; [by intros [= <-]|].
  unfold field_is_reference; simpl.
  destruct (wrapper_pattern mem wrapper (j / 32)) as [p|] eqn:Ep; simpl; [|done].
  destruct (references_from wrapper 2 parent (j + 1) n) as [k|] eqn:Ek; simpl; [|done].
  set (q := if seen =? 0 then _ else _).
  assert (q = Some (Z.shiftr p seen, (j + 32) / 32)) as ->.
  { unfold q. destruct (Z.eqb_spec seen 0) as [E|E].
    - rewrite E, Z.shiftr_0_r. replace patindex with (j / 32) by zmod. rewrite Ep. simpl.
      do 2 f_equal. zmod.
    - specialize (Hpat E). injection Hpat as <-. do 2 f_equal. zmod. }
  simpl.
  assert (Z.land (Z.shiftr p seen) 1 = 0 ↔ Z.testbit p (j mod 32) = false) as Hbit.
  { rewrite <- Hs. change 1 with (2 ^ 1 - 1). rewrite land_mask by lia. change (2 ^ 1) with 2.
    rewrite <- (Z.add_0_l seen) at 2. rewrite <- Z.shiftr_spec by lia.
    rewrite Z.bit0_odd, Zmod_odd. by destruct (Z.odd (Z.shiftr p seen)). }
  assert (∀ s', trace_patterned mem fn wrapper parent size (j + 1 + 1) n ((j + 32) / 32)
    (if seen + 1 =? 32 then 0 else seen + 1) (Z.shiftr (Z.shiftr p seen) 1) s' =
    visit parent size k s') as Hnext.
  { intros s'. apply IH; [lia| | | |done].
    - destruct (Z.eqb_spec (seen + 1) 32); zmod.
    - zmod.
    - intros Hne. destruct (Z.eqb_spec (seen + 1) 32); [done|].
      replace ((j + 1) / 32) with (j / 32) by zmod. rewrite Ep. simpl.
      by rewrite Z.shiftr_shiftr by zmod. }
  destruct (Z.eqb_spec (Z.land (Z.shiftr p seen) 1) 0) as [E|E]; simpl.
  - rewrite (proj1 Hbit E). intros [= <-]. apply Hnext.
  - destruct (Z.testbit p (j mod 32)) eqn:Eb; [|tauto].
    destruct (word_at mem parent (j + 1)) as [v|]; simpl; [|done]. intros [= <-]. simpl.
    destruct (fn v parent size s) as [[[] s']|]; simpl; [apply Hnext|done|done].
Qed.

(** [trace_object] calls the tracer on the references, in order, until it says to
    stop. *)
Lemma trace_object_visit parent size refs s :
  references parent = Some (size, refs) →
  trace_object mem fn parent s = r ← visit parent size refs s; Some (size, r.2).
Proof.
  unfold references, trace_object. destruct (word_at mem parent 0) as [wrapper|]; simpl; [|done].
  rewrite wrapper_tag.
  destruct (Z.eqb_spec wrapper 0); simpl; [by intros [= <- <-]|].
  destruct (Z.eqb_spec (wrapper mod 4) 0); simpl; [|by intros [= <- <-]].
  destruct (wrapper_fixed_length_in_words mem wrapper) as [fixlen|]; simpl; [|done].
  destruct (wrapper_fixed_format mem wrapper) as [fixform|]; simpl; [|done].
  destruct (wrapper_vector_format mem wrapper) as [vecform|]; simpl; [|done].
  destruct (size_of_object mem parent wrapper) as [sz|]; simpl; [|done].
  destruct (references_from wrapper fixform parent 0 (Z.to_nat (fixlen - 1))) as [fixed|] eqn:Ef;
    simpl; [|done].
  intros H.
  set (q := if fixform =? 1 then _ else _).
  assert (q = visit parent sz fixed s) as ->.
  { unfold q. destruct (Z.eqb_spec fixform 1) as [->|].
    { rewrite references_from_all in Ef. by apply trace_fields_visit. }
    destruct (Z.eqb_spec fixform 2) as [->|].
    { by apply (trace_patterned_visit wrapper parent sz 0). }
    rewrite references_from_none in Ef by done. by injection Ef as <-. }
  destruct (vecform =? 2).
  - destruct (object_repeated_size mem parent fixlen) as [replen|]; simpl in *; [|done].
    replace (fixlen + replen + 1 - (fixlen + 1)) with replen by lia.
    destruct (words_from parent (fixlen + 1) (Z.to_nat replen)) as [l|] eqn:El; simpl in H; [|done].
    injection H as <- <-. rewrite visit_app.
    destruct (visit parent sz fixed s) as [[[] s']|]; simpl; [|done|done].
    by rewrite (trace_fields_visit _ _ _ _ l).
  - injection H as <- <-. by destruct (visit parent sz fixed s) as [[[] s']|].
Qed.

End visit.
End references.

(** ** Printed numbers read back *)

(** The number in a column: blanks and commas are skipped. *)
Fixpoint read_column (base acc : Z) (l : list Z) : Z :=
  match l with
  | [] => acc
  | c :: l =>
      if (c =? 32) || (c =? 44) then read_column base acc l
      else read_column base (acc * base + (if 65 <=? c then c - 65 + 10 else c - 48)) l
  end.

Lemma read_column_app base acc l k :
  read_column base acc (l ++ k) = read_column base (read_column base acc l) k.
Proof.
  revert acc. induction l as [|c l IH]; intros acc; simpl; [done|].
  destruct ((c =? 32) || (c =? 44)); apply IH.
Qed.

Lemma read_digit base acc d : 0 <= d < 10 → read_column base acc [48 + d] = acc * base + d.
Proof.
  intros Hd. unfold read_column. replace ((48 + d =? 32) || (48 + d =? 44)) with false by lia.
  replace (65 <=? 48 + d) with false by lia. lia.
Qed.

Lemma display_digits_read n r (leading : bool) acc :
  0 <= r < 10 ^ Z.of_nat n → (leading = true → acc = 0) →
  read_column 10 acc (display_digits n (10 ^ (Z.of_nat n - 1)) r leading) = acc * 10 ^ Z.of_nat n + r.
Proof.
  revert r leading acc. induction n as [|n IH]; intros r leading acc Hr Hl; simpl display_digits.
  { simpl. change (10 ^ Z.of_nat 0) with 1 in *. lia. }
  replace (Z.of_nat (S n)) with (Z.of_nat n + 1) in * by lia.
  replace (Z.of_nat n + 1 - 1) with (Z.of_nat n) by lia.
  rewrite Z.pow_add_r in Hr |- * by lia. change (10 ^ 1) with 10 in *.
  pose proof (Z.pow_pos_nonneg 10 (Z.of_nat n)) as Hpos. set (P := 10 ^ Z.of_nat n) in *.
  rewrite Z.quot_div_nonneg, Z.rem_mod_nonneg by lia.
  pose proof (Z.div_mod r P). pose proof (Z.mod_pos_bound r P).
  assert (0 <= r / P < 10) as Hd by (split; [apply Z.div_pos; lia|apply Z.div_lt_upper_bound; lia]).
  assert (n ≠ 0%nat → Z.quot P 10 = 10 ^ (Z.of_nat n - 1)) as Hq.
  { intros Hn. unfold P. replace (Z.of_nat n) with (Z.of_nat n - 1 + 1) at 1 by lia.
    rewrite Z.pow_add_r by lia. by apply Z.quot_mul. }
  assert (∀ b acc', (b = true → acc' = 0) → read_column 10 acc'
    (display_digits n (Z.quot P 10) (r mod P) b) = acc' * P + r mod P) as Hnext.
  { intros b acc' Hb. destruct n as [|n]; [|rewrite Hq by done; apply IH; [lia|done]].
    simpl. change P with 1 in *. rewrite Z.mod_1_r. lia. }
  rewrite !read_column_app.
  assert (∀ acc', read_column 10 acc'
    (if (P =? 1000000) || (P =? 1000) then
       if r / P =? 0 then [if leading then 32 else 44] else [44] else []) = acc') as Hcomma.
  { intros acc'. destruct ((P =? 1000000) || (P =? 1000)); [|done].
    destruct (r / P =? 0), leading; done. }
  rewrite Hcomma. destruct (Z.eqb_spec (r / P) 0) as [E|E].
  - destruct leading.
    + simpl (read_column 10 acc [32]). rewrite Hnext, (Hl eq_refl) by done. lia.
    + rewrite Hnext by done. simpl. lia.
  - rewrite (read_digit _ _ _ Hd), Hnext by done. lia.
Qed.

Fixpoint columns (n : nat) (power : Z) : nat :=
  match n with
  | O => 0
  | S n => (if (power =? 1000000) || (power =? 1000) then 2 else 1) + columns n (Z.quot power 10)
  end.

Lemma length_display_digits n power r leading :
  length (display_digits n power r leading) = columns n power.
Proof.
  revert power r leading. induction n as [|n IH]; intros power r leading; simpl; [done|].
  rewrite !length_app, IH.
  by destruct (Z.quot r power =? 0), ((power =? 1000000) || (power =? 1000)).
Qed.

(** The column that display_integer prints for an integer below 10^8,
    spaces and commas skipped, reads back as the integer, and it is 10
    characters wide, or 8 for zero. *)
Theorem display_integer_reads_back n :
  0 <= n < 100000000 →
  read_column 10 0 (display_integer n) = n ∧
  length (display_integer n) = if n =? 0 then 8%nat else 10%nat.
Proof.
  intros Hn. unfold display_integer. destruct (Z.eqb_spec n 0) as [->|N]; [done|].
  rewrite length_display_digits. split; [|done].
  apply (display_digits_read 8 n true 0); [|done]. change (10 ^ Z.of_nat 8) with 100000000. lia.
Qed.

(** *** A number in its column

    The eight last decimal digits of a number with a comma before each three, blanks in
    place of what is before the first digit. *)
Definition place (n k : Z) : Z := if n <? 10 ^ k then 32 else 48 + n / 10 ^ k mod 10.
Definition comma (n k : Z) : Z := if n <? 10 ^ k then 32 else 44.
Definition number_column (n : Z) : list Z :=
  if n =? 0 then replicate 7 32 ++ [48]
  else [place n 7; place n 6; comma n 6; place n 5; place n 4; place n 3; comma n 3;
        place n 2; place n 1; place n 0].

(** The places from the power [10 ^ (n - 1)] down *)
Fixpoint places (N : Z) (n : nat) : list Z :=
  match n with
  | O => []
  | S n =>
      let k := Z.of_nat n in
      place N k :: (if (k =? 6) || (k =? 3) then [comma N k] else []) ++ places N n
  end.

Lemma display_digits_places N n (m : nat) :
  0 <= N → (n + m = 8)%nat →
  display_digits n (10 ^ (Z.of_nat n - 1)) (N mod 10 ^ Z.of_nat n) (N <? 10 ^ Z.of_nat n) = places N n.
Proof.
  revert m. induction n as [|n IH]; intros m HN Hm; [done|]. cbn [display_digits places].
  replace (Z.of_nat (S n)) with (Z.of_nat n + 1) by lia.
  replace (Z.of_nat n + 1 - 1) with (Z.of_nat n) by lia.
  rewrite Z.pow_add_r by lia. change (10 ^ 1) with 10.
  assert (((10 ^ Z.of_nat n =? 1000000) || (10 ^ Z.of_nat n =? 1000))
          = ((Z.of_nat n =? 6) || (Z.of_nat n =? 3))) as ->.
  { destruct n as [|[|[|[|[|[|[|[|?]]]]]]]]; [reflexivity..|lia]. }
  assert (n ≠ 0%nat → Z.quot (10 ^ Z.of_nat n) 10 = 10 ^ (Z.of_nat n - 1)) as Hq.
  { intros Hn. replace (Z.of_nat n) with (Z.of_nat n - 1 + 1) at 1 by lia.
    rewrite Z.pow_add_r by lia. by apply Z.quot_mul. }
  pose proof (Z.pow_pos_nonneg 10 (Z.of_nat n) ltac:(lia) ltac:(lia)) as Hpos.
  set (P := 10 ^ Z.of_nat n) in *.
  pose proof (Z.mod_pos_bound N (P * 10) ltac:(lia)) as Hb.
  rewrite Z.quot_div_nonneg, Z.rem_mod_nonneg by lia.
  assert (N mod (P * 10) / P = N / P mod 10) as ->.
  { rewrite Z.rem_mul_r, (Z.mul_comm P), Z.div_add by lia.
    by rewrite (Z.div_small (N mod P)) by (apply Z.mod_pos_bound; lia). }
  assert ((N mod (P * 10)) mod P = N mod P) as ->.
  { rewrite Z.rem_mul_r, (Z.mul_comm P), Z.mod_add by lia. apply Z.mod_mod. lia. }
  assert ((if N / P mod 10 =? 0 then N <? P * 10 else false) = (N <? P)) as K.
  { destruct (Z.ltb_spec N P) as [L | L].
    - rewrite (Z.div_small N P) by lia. simpl. lia.
    - assert (1 <= N / P) by (apply Z.div_le_lower_bound; lia).
      destruct (Z.ltb_spec N (P * 10)) as [L' | L']; [|by destruct (_ =? _)].
      assert (N / P < 10) by (apply Z.div_lt_upper_bound; lia).
      rewrite Z.mod_small by lia. rewrite (proj2 (Z.eqb_neq _ _)) by lia. done. }
  assert (display_digits n (Z.quot P 10) (N mod P) (N <? P) = places N n) as R.
  { destruct n as [|n]; [done|]. rewrite Hq by done. apply (IH (S m)); lia. }
  cbv zeta. rewrite K, R. unfold place, comma. fold P. rewrite <- K.
  destruct (Z.eqb_spec (N / P mod 10) 0) as [-> | ?]; [destruct (N <? P * 10)|];
    by destruct ((Z.of_nat n =? 6) || (Z.of_nat n =? 3)).
Qed.

(** Below 10^8, display_integer prints this column. *)
Lemma display_integer_column n : 0 <= n < 100000000 → display_integer n = number_column n.
Proof.
  intros Hn. unfold display_integer, number_column. destruct (Z.eqb_spec n 0); [done|].
  pose proof (display_digits_places n 8 0 ltac:(lia) eq_refl) as E.
  change (10 ^ Z.of_nat 8) with 100000000 in E. rewrite Z.mod_small in E by lia.
  rewrite (proj2 (Z.ltb_lt n 100000000)) in E by lia. exact E.
Qed.

Example display_integer_reads_back_witness :
  read_column 10 0 (display_integer 1234567) = 1234567 ∧
  length (display_integer 1234567) = 10%nat.
Proof. apply (display_integer_reads_back 1234567). lia. Defined.

(** From nine digits on the first character is none, and a zero is two columns
    narrower than other numbers. *)
Example display_integer_nine_digits : display_integer 123456789 = chars "<3,456,789".
Proof. reflexivity. Qed.

Example display_integer_zero : (length (display_integer 0), length (display_integer 1)) = (8, 10)%nat.
Proof. reflexivity. Qed.
