(* ===== verification/HeapTrail.v ===== *)
(** * Following reference paths to an object

    [heap-trail.c]: a breadth-first search against the direction of the references,
    from the objects of interest to objects that a root refers to, over four hash
    tables of records chained by pointers.  The walks over the heap and its roots
    are those of the Memory Pool System: lists of the objects and of the addresses of
    the root references. *)

From S2P Require Import Prelude Effects HeapTable HeapUtils.
From Stdlib Require Import ZArith Lia Bool String.
From stdpp Require Import base tactics option list numbers gmap.

Local Open Scope Z_scope.

(** ** Data *)

(** [obj_rec_st]; records lie in a store of their own. *)
Record obj_rec := mkRec { next : Z; parent : Z; object : Z }.

Definition TABLE_SIZE : Z := 4096.
Definition TABLE_MASK : Z := TABLE_SIZE - 1.
Definition TABLE_SHIFT : Z := 3.

(** The four tables of the file *)
Inductive obj_table := Root | Processed | Current | Child.

#[export] Instance obj_table_eq_dec : EqDecision obj_table.
Proof. solve_decision. Defined.

Record trails := mkTrails {
  recs : gmap Z obj_rec;
  free_rec : Z;                     (* where the next record is allocated *)
  tables : obj_table → list Z;
  output : list out
}.

(** The variables set from the debugger *)
Record limits := mkLimits {
  prompt_after_checking_references : bool;
  depth_limit : Z;
  trail_limit : Z;
  cold_trail_limit : Z;
  object_report_limit : Z
}.

Definition initial_limits : limits := mkLimits true 0 4 1 4.

Inductive variable := V_object_to_follow | V_wrapper_to_follow | V_depth_limit | V_trail_limit
  | V_cold_trail_limit | V_object_report_limit.

Definition empty_table : list Z := replicate (Z.to_nat TABLE_SIZE) 0.

Definition initial_trails : trails := mkTrails ∅ 4 (λ _, empty_table) [].

Definition with_recs (r : gmap Z obj_rec) (s : trails) : trails :=
  mkTrails r (free_rec s) (tables s) (output s).
Definition with_table (t : obj_table) (l : list Z) (s : trails) : trails :=
  mkTrails (recs s) (free_rec s) (λ u, if decide (u = t) then l else tables s u) (output s).

Definition print (l : list Z) : St trails () :=
  modify_st (λ s, mkTrails (recs s) (free_rec s) (tables s) (output s ++ (Char <$> l))).

(** [report_break] *)
Definition report_break (message : string) : St trails () :=
  print (chars "Break to debugger:
    ") ;; print (chars message) ;; print [10] ;;
  modify_st (λ s, mkTrails (recs s) (free_rec s) (tables s) (output s ++ [Debug_break])).

(** ** Records and tables *)

Definition get_rec (p : Z) : St trails obj_rec := s ← get_st; lift_st (recs s !! p).
Definition set_rec (p : Z) (r : obj_rec) : St trails () :=
  get_rec p ;; modify_st (λ s, with_recs (<[p := r]> (recs s)) s).

Definition get_head (t : obj_table) (i : Z) : St trails Z :=
  s ← get_st; lift_st (tables s t !! Z.to_nat i).
Definition set_head (t : obj_table) (i p : Z) : St trails () :=
  modify_st (λ s, with_table t (<[Z.to_nat i := p]> (tables s t)) s).

(** Bound of the loops along a chain: there are no more records. *)
Definition chain_fuel : St trails nat := s ← get_st; mret (S (size (recs s))).

Definition hash_val (obj : Z) : Z := Z.land (Z.shiftr (s32 obj) TABLE_SHIFT) TABLE_MASK.

(** An allocation that succeeds; the code does not look whether it did. *)
Definition alloc_obj_rec (obj : Z) : St trails Z :=
  s ← get_st;
  modify_st (λ s, mkTrails (<[free_rec s := mkRec 0 0 obj]> (recs s)) (free_rec s + 12)
                 (tables s) (output s)) ;;
  mret (free_rec s).

Definition free_obj_rec (p : Z) : St trails () :=
  get_rec p ;; modify_st (λ s, with_recs (delete p (recs s)) s).

Fixpoint free_chain (fuel : nat) (p : Z) : St trails () :=
  if p =? 0 then mret ()
  else match fuel with
       | O => undefined
       | S fuel => r ← get_rec p; free_obj_rec p ;; free_chain fuel (next r)
       end.

Fixpoint free_table_loop (t : obj_table) (i : Z) (n : nat) : St trails () :=
  match n with
  | O => mret ()
  | S n =>
      head ← get_head t i; fuel ← chain_fuel; free_chain fuel head ;;
      set_head t i 0 ;; free_table_loop t (i + 1) n
  end.

Definition free_table (t : obj_table) : St trails () :=
  free_table_loop t 0 (Z.to_nat TABLE_SIZE).

Definition add_to_table (t : obj_table) (objrec : Z) : St trails () :=
  r ← get_rec objrec;
  let hash := hash_val (object r) in
  head ← get_head t hash;
  set_rec objrec (mkRec head (parent r) (object r)) ;;
  set_head t hash objrec.

Fixpoint find_in_chain (fuel : nat) (obj current : Z) : St trails Z :=
  if current =? 0 then mret 0
  else match fuel with
       | O => undefined
       | S fuel =>
           r ← get_rec current;
           if object r =? obj then mret current else find_in_chain fuel obj (next r)
       end.

Definition find_obj_in_table (t : obj_table) (obj : Z) : St trails Z :=
  current ← get_head t (hash_val obj); fuel ← chain_fuel; find_in_chain fuel obj current.

(** The last record of a chain *)
Fixpoint last_in_chain (fuel : nat) (p : Z) : St trails Z :=
  r ← get_rec p;
  if next r =? 0 then mret p
  else match fuel with O => undefined | S fuel => last_in_chain fuel (next r) end.

Fixpoint merge_tables_loop (dest src : obj_table) (i : Z) (n : nat) : St trails () :=
  match n with
  | O => mret ()
  | S n =>
      dchain ← get_head dest i;
      schain ← get_head src i;
      (if negb (schain =? 0) then
         set_head dest i schain ;;
         set_head src i 0 ;;
         if negb (dchain =? 0) then
           fuel ← chain_fuel;
           p ← last_in_chain fuel schain;
           r ← get_rec p;
           set_rec p (mkRec dchain (parent r) (object r))
         else mret ()
       else mret ()) ;;
      merge_tables_loop dest src (i + 1) n
  end.

Definition merge_tables (dest src : obj_table) : St trails () :=
  merge_tables_loop dest src 0 (Z.to_nat TABLE_SIZE).

Fixpoint chain_length (fuel : nat) (p size : Z) : St trails Z :=
  if p =? 0 then mret size
  else match fuel with
       | O => undefined
       | S fuel => r ← get_rec p; chain_length fuel (next r) (size + 1)
       end.

Fixpoint size_of_table_loop (t : obj_table) (i : Z) (n : nat) (size : Z) : St trails Z :=
  match n with
  | O => mret size
  | S n =>
      head ← get_head t i; fuel ← chain_fuel; size ← chain_length fuel head size;
      size_of_table_loop t (i + 1) n size
  end.

Definition size_of_table (t : obj_table) : St trails Z :=
  size_of_table_loop t 0 (Z.to_nat TABLE_SIZE) 0.

Definition add_new_to_table (t : obj_table) (obj : Z) : St trails Z :=
  new ← alloc_obj_rec obj; add_to_table t new ;; mret new.

Definition new_obj_rec (obj : Z) : St trails Z := add_new_to_table Child obj.

Definition new_root (obj root : Z) : St trails Z :=
  new ← add_new_to_table Root obj;
  par ← alloc_obj_rec root;
  r ← get_rec new;
  set_rec new (mkRec (next r) par (object r)) ;;
  mret new.

Definition clear_object_reference_paths : St trails () :=
  free_table Root ;; free_table Processed ;; free_table Current ;; free_table Child.

Definition object_in_roots (obj : Z) : St trails Z := find_obj_in_table Root obj.
Definition object_in_processed_set (obj : Z) : St trails Z := find_obj_in_table Processed obj.
Definition object_in_current_set (obj : Z) : St trails Z := find_obj_in_table Current obj.
Definition size_of_current_set : St trails Z := size_of_table Current.

(** Merge the current into the processed set, then make the children the current
    set. *)
Definition advance_generation : St trails () :=
  merge_tables Processed Current ;; merge_tables Current Child.

Section walk.
Context (mem : gmap Z Z) (objects : list Z) (roots : list Z) (lim : limits)
  (address : variable → Z).

(** ** Printing *)

Definition display_object_reference (obj : Z) : option (list Z) :=
  wrapper ← word_at mem obj 0;
  name ← class_name_from_wrapper mem wrapper;
  class_name ← string_at mem name;
  Some (chars "    " ++ class_name ++ display_padding_for_string class_name 32 class_name_size ++
        display_hex_address obj ++ [10]).

Fixpoint display_reference_paths (fuel : nat) (p : Z) : St trails () :=
  if negb (p =? 0) then
    r ← get_rec p;
    match fuel with
    | O => undefined
    | S fuel =>
        display_reference_paths fuel (parent r) ;;
        l ← lift_st (display_object_reference (object r)); print l
    end
  else mret ().

Definition newline : string := "
".

Definition display_cold_trail_intro (gensize : Z) : St trails () :=
  print (chars newline) ;;
  print (chars "Failed to find any objects referenced from a root.") ;; print [10] ;;
  print (chars "Hence all detected objects are 'floating garbage'.") ;; print [10] ;;
  print (chars "There were ") ;; print (display_integer gensize) ;;
  print (chars " objects encountered while processing the last depth.") ;; print [10] ;;
  print (chars "Here are some cold trails:") ;; print [10].

Definition display_cold_trail_details (p : Z) : St trails () :=
  print [10] ;; print (chars "Start of a cold trail of object references") ;; print [10] ;;
  (fuel ← chain_fuel; display_reference_paths fuel p) ;;
  print (chars "End of cold trail") ;; print [10].

Definition display_trail_details (p root : Z) : St trails () :=
  print [10] ;; print (chars "Start of a trail of object references") ;; print [10] ;;
  (fuel ← chain_fuel; display_reference_paths fuel p) ;;
  print (chars "Referenced from a root at address                     ") ;;
  r ← get_rec root;
  q ← get_rec (parent r);
  print (display_hex_address (object q)) ;; print [10] ;;
  print (chars "End of trail") ;; print [10].

(** One chain of the table; [None] for the count is the early return. *)
Fixpoint display_generation_chain (fuel : nat) (p count : Z) : St trails (option Z) :=
  if p =? 0 then mret (Some count)
  else match fuel with
       | O => undefined
       | S fuel =>
           let count := count + 1 in
           if object_report_limit lim <? count then
             print (chars "    To display more objects, ") ;;
             print (chars "use the debugger to set the variable at address: ") ;;
             print (display_hex_address (address V_object_report_limit)) ;; print [10] ;;
             mret None
           else
             r ← get_rec p;
             (l ← lift_st (display_object_reference (object r)); print l) ;;
             display_generation_chain fuel (next r) count
       end.

Fixpoint display_generation_loop (t : obj_table) (i : Z) (n : nat) (count : Z) : St trails () :=
  match n with
  | O => mret ()
  | S n =>
      head ← get_head t i; fuel ← chain_fuel;
      count ← display_generation_chain fuel head count;
      match count with
      | None => mret ()
      | Some count => display_generation_loop t (i + 1) n count
      end
  end.

Definition display_generation_details (gennum gensize : Z) (t : obj_table) : St trails () :=
  print (chars "Processing depth ") ;; print (display_integer gennum) ;;
  print (chars " containing ") ;; print (display_integer gensize) ;;
  print (chars " objects:") ;; print [10] ;;
  display_generation_loop t 0 (Z.to_nat TABLE_SIZE) 0.

Definition display_reference_variables_addresses : St trails () :=
  print [10] ;; print (chars "To find a trail of references to an object, ") ;; print [10] ;;
  print (chars "use the debugger to set one of the following variables:") ;; print [10] ;;
  print (chars "      object_to_follow  - set address ") ;;
  print (display_hex_address (address V_object_to_follow)) ;; print [10] ;;
  print (chars "      wrapper_to_follow - set address ") ;;
  print (display_hex_address (address V_wrapper_to_follow)) ;; print [10].

Definition display_gen_limit_addresses (gennum : Z) : St trails () :=
  print [10] ;; print (chars "To find deeper trails of references to an object, ") ;; print [10] ;;
  print (chars "use the debugger to set the following variable") ;; print [10] ;;
  print (chars "to a depth limit greater than ") ;; print (display_integer gennum) ;;
  print (chars ":") ;; print [10] ;;
  print (chars "      depth_limit  - set address ") ;;
  print (display_hex_address (address V_depth_limit)) ;; print [10].

Definition display_trail_limit_addresses (rootnum : Z) : St trails () :=
  print [10] ;; print (chars "To display more trails of references at this depth, ") ;; print [10] ;;
  print (chars "use the debugger to set the following variable") ;; print [10] ;;
  print (chars "to a trail limit greater than ") ;; print (display_integer rootnum) ;;
  print (chars ":") ;; print [10] ;;
  print (chars "      trail_limit  - set address ") ;;
  print (display_hex_address (address V_trail_limit)) ;; print [10].

Definition display_cold_trail_limit_addresses (reported : Z) : St trails () :=
  print [10] ;; print (chars "To display more cold trails, ") ;; print [10] ;;
  print (chars "use the debugger to set the following variable") ;; print [10] ;;
  print (chars "to a trail limit greater than ") ;; print (display_integer reported) ;;
  print (chars ":") ;; print [10] ;;
  print (chars "      cold_trail_limit  - set address ") ;;
  print (display_hex_address (address V_cold_trail_limit)) ;; print [10].

(** ** The search *)

Definition add_target_object (obj : Z) : St trails () := new_obj_rec obj ;; mret ().

Definition add_target_object_of_wrapper (wrapper obj : Z) : St trails () :=
  found_wrapper ← lift_st (word_at mem obj 0);
  if found_wrapper =? wrapper then add_target_object obj else mret ().

(** The walks of the Memory Pool System, [mps_arena_formatted_objects_walk] and
    [mps_arena_roots_walk], call their function on each object or reference. *)
Definition add_target_objects_from_wrapper (wrapper : Z) : St trails () :=
  for_each objects (add_target_object_of_wrapper wrapper).

Definition trace_reference (obj par parent_size : Z) : St trails bool :=
  refrec ← object_in_current_set obj;
  if negb (refrec =? 0) then
    processed ← object_in_processed_set par;
    known ← (if negb (processed =? 0) then mret true
             else current ← object_in_current_set par; mret (negb (current =? 0)));
    if (known : bool) then mret false
    else
      this_or ← new_obj_rec par;
      r ← get_rec this_or;
      set_rec this_or (mkRec (next r) refrec (object r)) ;;
      mret false
  else mret true.

Definition look_for_reference (obj : Z) : St trails () :=
  trace_object mem trace_reference obj ≫= λ _, mret ().

Definition process_generation : St trails () := for_each objects look_for_reference.

Fixpoint display_roots_chain (fuel : nat) (p rootnum : Z) : St trails Z :=
  if p =? 0 then mret rootnum
  else match fuel with
       | O => undefined
       | S fuel =>
           r ← get_rec p;
           refrec ← object_in_roots (object r);
           rootnum ← (if negb (refrec =? 0) then
                        let rootnum := rootnum + 1 in
                        (if trail_limit lim =? rootnum then
                           display_trail_limit_addresses rootnum ;;
                           report_break ("Set the trail limit to show more if required" ++ newline)
                         else mret ()) ;;
                        (if rootnum <? trail_limit lim then display_trail_details p refrec
                         else mret ()) ;;
                        mret rootnum
                      else mret rootnum);
           display_roots_chain fuel (next r) rootnum
       end.

Fixpoint display_roots_loop (i : Z) (n : nat) (rootnum : Z) : St trails Z :=
  match n with
  | O => mret rootnum
  | S n =>
      head ← get_head Current i; fuel ← chain_fuel;
      rootnum ← display_roots_chain fuel head rootnum;
      display_roots_loop (i + 1) n rootnum
  end.

Definition display_roots_in_current_set : St trails Z :=
  display_roots_loop 0 (Z.to_nat TABLE_SIZE) 0.

Fixpoint display_cold_chain (fuel : nat) (p reported : Z) : St trails Z :=
  if p =? 0 then mret reported
  else match fuel with
       | O => undefined
       | S fuel =>
           (if cold_trail_limit lim =? reported then
              display_cold_trail_limit_addresses reported ;;
              report_break ("Set the cold trail limit to show more if required" ++ newline)
            else mret ()) ;;
           (if reported <? cold_trail_limit lim then display_cold_trail_details p else mret ()) ;;
           r ← get_rec p;
           display_cold_chain fuel (next r) (reported + 1)
       end.

Fixpoint display_cold_loop (i : Z) (n : nat) (reported : Z) : St trails () :=
  match n with
  | O => mret ()
  | S n =>
      head ← get_head Current i; fuel ← chain_fuel;
      reported ← display_cold_chain fuel head reported;
      display_cold_loop (i + 1) n reported
  end.

Definition display_cold_trail : St trails () :=
  size ← size_of_current_set;
  if 0 <? size then
    display_cold_trail_intro size ;; display_cold_loop 0 (Z.to_nat TABLE_SIZE) 0
  else mret ().

(** The endless loop of [advance_through_generations], [fuel] bounding it. At a break a
    debugger could raise the depth limit; here the limits stay as they are, so the second
    look at it always ends the loop. *)
Fixpoint generations (fuel : nat) (gennum : Z) : St trails () :=
  gensize ← size_of_table Child;
  if gensize =? 0 then display_cold_trail
  else
    display_generation_details gennum gensize Child ;;
    advance_generation ;;
    num ← display_roots_in_current_set;
    stop ← (if 0 <? num then
              if depth_limit lim <=? gennum then
                display_gen_limit_addresses gennum ;;
                report_break ("Set the depth limit to trace further if required" ++ newline) ;;
                mret true
              else mret false
            else mret false);
    if (stop : bool) then mret ()
    else
      process_generation ;;
      match fuel with O => undefined | S fuel => generations fuel (gennum + 1) end.

Definition advance_through_generations : St trails () := generations (S (length objects)) 0.

Definition record_a_root (objectref : Z) : St trails () :=
  obj ← lift_st (word_at mem objectref 0);
  wrapper ← lift_st (word_at mem obj 0);
  if negb (wrapper =? 0) && (Z.land (s32 wrapper) 3 =? 0) then
    rootrec ← object_in_roots obj;
    if rootrec =? 0 then new_root obj objectref ;; mret () else mret ()
  else mret ().

Definition find_all_roots : St trails () := for_each roots record_a_root.

Definition find_trails (object_to_follow wrapper_to_follow : Z) : St trails () :=
  (if negb (wrapper_to_follow =? 0) then
     print [10] ;; print (chars "Tracing paths to all objects with selected wrapper ...") ;; print [10] ;;
     add_target_objects_from_wrapper wrapper_to_follow
   else if negb (object_to_follow =? 0) then
     print [10] ;; print (chars "Tracing paths to selected object ...") ;; print [10] ;;
     add_target_object object_to_follow
   else mret ()) ;;
  advance_through_generations.

(** The loop, one iteration for each pair of values found in [object_to_follow] and
    [wrapper_to_follow]: after the first, what the debugger sets at the break. *)
Fixpoint follow_reference_paths (follow : list (Z * Z)) : St trails () :=
  match follow with
  | [] => mret ()
  | (obj, wrapper) :: follow =>
      if negb (obj =? 0) || negb (wrapper =? 0) then
        find_all_roots ;;
        find_trails obj wrapper ;;
        if prompt_after_checking_references lim then
          display_reference_variables_addresses ;;
          clear_object_reference_paths ;;
          report_break ("Set a new object or wrapper to trace if required" ++ newline) ;;
          follow_reference_paths follow
        else clear_object_reference_paths
      else mret ()
  end.

Definition display_reference_trails (follow : list (Z * Z)) : St trails () :=
  match follow with
  | (obj, wrapper) :: _ =>
      if negb (obj =? 0) || negb (wrapper =? 0) then follow_reference_paths follow
      else display_reference_variables_addresses
  | [] => display_reference_variables_addresses
  end.

End walk.
