(* ===== verification/HeapTrailTables.v ===== *)
(** * The tables of the trail search

    [heap-trail.c]: the records of the four tables form disjoint chains; finding,
    adding, merging and freeing are operations on sets of records.  Printing leaves
    all of it alone. *)

From S2P Require Import Prelude Effects HeapTable HeapUtils HeapTrail.
From Stdlib Require Import ZArith Lia Bool String.
From stdpp Require Import base tactics option list numbers gmap fin_maps.

Local Open Scope Z_scope.

Notation tsize := (Z.to_nat TABLE_SIZE).

(** ** Chains *)

Fixpoint chain (r : gmap Z obj_rec) (p : Z) (l : list Z) : Prop :=
  match l with
  | [] => p = 0
  | q :: l => p = q ∧ q ≠ 0 ∧ ∃ x, r !! q = Some x ∧ chain r (next x) l
  end.

Lemma chain_dom r p l q : chain r p l → q ∈ l → is_Some (r !! q).
Proof.
  revert p. induction l as [|q' l IH]; intros p H Hq; [by apply elem_of_nil in Hq|].
  destruct H as (_ & _ & x & Hx & H). apply elem_of_cons in Hq as [->|Hq]; eauto.
Qed.

Lemma chain_insert r p l q y : q ∉ l → chain r p l → chain (<[q := y]> r) p l.
Proof.
  revert p. induction l as [|q' l IH]; intros p Hq H; [done|].
  apply not_elem_of_cons in Hq as [N Hq]. destruct H as (-> & Hn & x & Hx & H).
  split_and!; [done|done|]. exists x. split; [by rewrite lookup_insert_ne|]. by apply IH.
Qed.

Lemma chain_delete r p l q : q ∉ l → chain r p l → chain (delete q r) p l.
Proof.
  revert p. induction l as [|q' l IH]; intros p Hq H; [done|].
  apply not_elem_of_cons in Hq as [N Hq]. destruct H as (-> & Hn & x & Hx & H).
  split_and!; [done|done|]. exists x. split; [by rewrite lookup_delete_ne|]. by apply IH.
Qed.

Lemma NoDup_dom_length (r : gmap Z obj_rec) l :
  NoDup l → (∀ q, q ∈ l → is_Some (r !! q)) → (length l ≤ size r)%nat.
Proof.
  intros ND H. rewrite <- size_dom, <- (size_list_to_set (C := gset Z) l) by done.
  apply subseteq_size. intros q Hq%elem_of_list_to_set. by apply elem_of_dom, H.
Qed.

Lemma chain_fuel_enough r p l : chain r p l → NoDup l → (length l < S (size r))%nat.
Proof.
  intros H ND. pose proof (NoDup_dom_length r l ND (λ q, chain_dom r p l q H)). lia.
Qed.

(** ** The tables

    [cs t i]: the records of bucket [i] of table [t], in the order of its chain. *)
Definition buckets := obj_table → nat → list Z.

Record tables_ok (s : trails) (cs : buckets) : Prop := {
  tk_length t : length (tables s t) = tsize;
  tk_chain t i p : tables s t !! i = Some p → chain (recs s) p (cs t i);
  tk_range t i : (tsize ≤ i)%nat → cs t i = [];
  tk_nodup t i : NoDup (cs t i);
  tk_disjoint t i t' i' q : q ∈ cs t i → q ∈ cs t' i' → t = t' ∧ i = i';
  tk_hash t i q x : q ∈ cs t i → recs s !! q = Some x → hash_val (object x) = Z.of_nat i;
  tk_free : 0 < free_rec s;
  tk_fresh q : free_rec s <= q → recs s !! q = None;
  tk_positive q : q <= 0 → recs s !! q = None
}.

Definition member (cs : buckets) (t : obj_table) (q : Z) : Prop := ∃ i, q ∈ cs t i.

(** [q] is a record of the table for the object [o]. *)
Definition holds (s : trails) (cs : buckets) (t : obj_table) (q o : Z) : Prop :=
  member cs t q ∧ ∃ x, recs s !! q = Some x ∧ object x = o.

Lemma member_rec s cs t q : tables_ok s cs → member cs t q → ∃ x, recs s !! q = Some x.
Proof.
  intros T [i Hi]. destruct (decide (i < tsize)%nat) as [Hlt|Hge].
  - destruct (lookup_lt_is_Some_2 (tables s t) i) as [p Hp]; [by rewrite (tk_length s cs T)|].
    eapply chain_dom; [by apply (tk_chain s cs T t i p)|done].
  - rewrite (tk_range s cs T) in Hi by lia. by apply elem_of_nil in Hi.
Qed.

Lemma hash_val_range o : 0 <= hash_val o < TABLE_SIZE.
Proof.
  unfold hash_val, TABLE_MASK. change (TABLE_SIZE - 1) with (2 ^ 12 - 1).
  rewrite land_mask by lia. by apply Z.mod_pos_bound.
Qed.

Lemma get_head_ok s cs t i :
  tables_ok s cs → 0 <= i < TABLE_SIZE →
  ∃ p, get_head t i s = Some (p, s) ∧ tables s t !! Z.to_nat i = Some p ∧
    chain (recs s) p (cs t (Z.to_nat i)).
Proof.
  intros T Hi. destruct (lookup_lt_is_Some_2 (tables s t) (Z.to_nat i)) as [p Hp].
  { rewrite (tk_length s cs T). lia. }
  exists p. split; [|split; [done|by apply (tk_chain s cs T)]].
  unfold get_head, lift_st, get_st, mbind, St_bind. simpl. by rewrite Hp.
Qed.

Lemma get_rec_ok s p x : recs s !! p = Some x → get_rec p s = Some (x, s).
Proof. intros E. unfold get_rec, lift_st, get_st, mbind, St_bind. simpl. by rewrite E. Qed.

Lemma set_rec_ok s p x y : recs s !! p = Some x →
  set_rec p y s = Some ((), with_recs (<[p := y]> (recs s)) s).
Proof. intros E. unfold set_rec. by sstep (get_rec_ok s p x E). Qed.

Lemma chain_fuel_ok s : chain_fuel s = Some (S (size (recs s)), s).
Proof. done. Qed.

(** *** Searching *)

Lemma find_in_chain_ok s fuel obj p l :
  chain (recs s) p l → (length l ≤ fuel)%nat →
  ∃ q, find_in_chain fuel obj p s = Some (q, s) ∧
    (q = 0 ∧ (∀ q' x, q' ∈ l → recs s !! q' = Some x → object x ≠ obj) ∨
     q ≠ 0 ∧ q ∈ l ∧ ∃ x, recs s !! q = Some x ∧ object x = obj).
Proof.
  revert p fuel. induction l as [|q l IH]; intros p fuel H Hf; simpl in H.
  - subst. exists 0. split; [by destruct fuel|]. left. split; [done|].
    by intros q' x Hq%elem_of_nil.
  - destruct H as (-> & Hn & x & Hx & H). destruct fuel as [|fuel]; [simpl in Hf; lia|].
    simpl. rewrite (proj2 (Z.eqb_neq q 0) Hn). sstep (get_rec_ok _ _ _ Hx).
    destruct (Z.eqb_spec (object x) obj) as [E|E].
    + exists q. split; [done|]. right. split; [done|]. split; [by left|]. by exists x.
    + destruct (IH (next x) fuel H) as (q' & -> & Hq'); [simpl in Hf; lia|]. exists q'.
      split; [done|]. destruct Hq' as [[-> Hnone]|(N & Hin & Hx')]; [left|right].
      * split; [done|]. intros q1 x1 [->|Hin]%elem_of_cons; [congruence|by apply Hnone].
      * split; [done|]. split; [by right|done].
Qed.

Lemma find_obj_in_table_ok s cs t obj :
  tables_ok s cs →
  ∃ q, find_obj_in_table t obj s = Some (q, s) ∧
    (q = 0 ∧ (∀ q', ¬ holds s cs t q' obj) ∨ q ≠ 0 ∧ holds s cs t q obj).
Proof.
  intros T. unfold find_obj_in_table. pose proof (hash_val_range obj) as Hr.
  destruct (get_head_ok s cs t (hash_val obj) T Hr) as (p & Eh & _ & Hc). sstep Eh.
  sstep (chain_fuel_ok s).
  destruct (find_in_chain_ok s (S (size (recs s))) obj p _ Hc) as (q & -> & Hq).
  { pose proof (chain_fuel_enough _ _ _ Hc (tk_nodup s cs T _ _)). lia. }
  exists q. split; [done|]. destruct Hq as [[-> Hnone]|(N & Hin & Hx)]; [left|right].
  - split; [done|]. intros q' [[i Hi] (x & Hx & Ho)]. apply (Hnone q' x); [|done|done].
    rewrite <- Ho, (tk_hash s cs T t i q' x Hi Hx), Nat2Z.id. done.
  - split; [done|]. split; [by eexists|done].
Qed.

Lemma chain_length_ok s fuel p l size :
  chain (recs s) p l → (length l ≤ fuel)%nat →
  chain_length fuel p size s = Some (size + Z.of_nat (length l), s).
Proof.
  revert p fuel size. induction l as [|q l IH]; intros p fuel size H Hf; simpl in H.
  - subst. rewrite Z.add_0_r. by destruct fuel.
  - destruct H as (-> & Hn & x & Hx & H). destruct fuel as [|fuel]; [simpl in Hf; lia|].
    simpl. rewrite (proj2 (Z.eqb_neq q 0) Hn). sstep (get_rec_ok _ _ _ Hx).
    rewrite (IH (next x) fuel) by (done || (simpl in Hf; lia)).
    do 2 f_equal. simpl. lia.
Qed.

Lemma size_of_table_loop_ok s cs t i n size :
  tables_ok s cs → 0 <= i → i + Z.of_nat n <= TABLE_SIZE →
  ∃ k, size_of_table_loop t i n size s = Some (k, s) ∧ size <= k ∧
    (k = size ↔ ∀ j, i <= Z.of_nat j < i + Z.of_nat n → cs t j = []).
Proof.
  intros T. revert i size. induction n as [|n IH]; intros i size Hi Hn.
  - exists size. split; [done|]. split; [lia|]. split; [intros _ j Hj; lia|done].
  - simpl. destruct (get_head_ok s cs t i T ltac:(lia)) as (p & Eh & _ & Hc). sstep Eh.
    sstep (chain_fuel_ok s).
    sstep (chain_length_ok s (S (base.size (recs s))) p (cs t (Z.to_nat i)) size Hc
      ltac:(pose proof (chain_fuel_enough _ _ _ Hc (tk_nodup s cs T _ _)); lia)).
    destruct (IH (i + 1) (size + Z.of_nat (length (cs t (Z.to_nat i))))) as (k & -> & Hk & Hz);
      [lia|lia|]. exists k. split; [done|]. split; [lia|]. split.
    + intros -> j Hj. destruct (decide (Z.of_nat j = i)) as [<-|].
      * rewrite Nat2Z.id in *. apply nil_length_inv. lia.
      * apply Hz; [lia|lia].
    + intros Hall. rewrite (Hall (Z.to_nat i)) in Hz, Hk by lia. simpl in Hz, Hk.
      rewrite Z.add_0_r in Hz. apply Hz. intros j Hj. apply Hall. lia.
Qed.

Lemma size_of_table_ok s cs t :
  tables_ok s cs →
  ∃ k, size_of_table t s = Some (k, s) ∧ 0 <= k ∧ (k = 0 ↔ ∀ q, ¬ member cs t q).
Proof.
  intros T. unfold size_of_table.
  destruct (size_of_table_loop_ok s cs t 0 tsize 0 T) as (k & E & Hk & Hz); [lia|done|].
  exists k. split; [done|]. split; [done|]. rewrite Hz. split.
  - intros H q [i Hi]. destruct (decide (i < tsize)%nat).
    + rewrite H in Hi by lia. by apply elem_of_nil in Hi.
    + rewrite (tk_range s cs T) in Hi by lia. by apply elem_of_nil in Hi.
  - intros H j _. destruct (cs t j) as [|q l] eqn:E'; [done|]. exfalso.
    apply (H q). exists j. rewrite E'. by left.
Qed.

Lemma member_dec s cs t : tables_ok s cs → (∃ q, member cs t q) ∨ ∀ q, ¬ member cs t q.
Proof.
  intros T. destruct (decide (Exists (λ i, cs t i ≠ []) (seq 0 tsize))) as [H|H].
  - left. apply Exists_exists in H as (i & _ & Hi). destruct (cs t i) as [|q l] eqn:E; [done|].
    exists q, i. rewrite E. by left.
  - right. intros q [i Hi]. destruct (decide (i < tsize)%nat).
    + apply H, Exists_exists. exists i. split; [apply elem_of_seq; lia|]. intros E. rewrite E in Hi.
      by apply elem_of_nil in Hi.
    + rewrite (tk_range s cs T) in Hi by lia. by apply elem_of_nil in Hi.
Qed.

(** *** Changing the tables *)

Definition upd (t : obj_table) (i : nat) (l : list Z) (cs : buckets) : buckets :=
  λ t' i', if decide (t' = t ∧ i' = i) then l else cs t' i'.

Lemma upd_same t i l cs : upd t i l cs t i = l.
Proof. unfold upd. by rewrite decide_True. Qed.

Lemma upd_other t i l cs t' i' : ¬ (t' = t ∧ i' = i) → upd t i l cs t' i' = cs t' i'.
Proof. intros N. unfold upd. by rewrite decide_False. Qed.

(** Records changed without their links and objects *)
Definition same_links (r r' : gmap Z obj_rec) : Prop :=
  ∀ q, (λ x, (next x, object x)) <$> r' !! q = (λ x, (next x, object x)) <$> r !! q.

Lemma same_links_chain r r' p l : same_links r r' → chain r p l → chain r' p l.
Proof.
  intros E. revert p. induction l as [|q l IH]; intros p H; [done|].
  destruct H as (-> & Hn & x & Hx & H). split_and!; [done|done|]. specialize (E q). rewrite Hx in E.
  destruct (r' !! q) as [y|] eqn:Hy; [|done]. injection E as En _. exists y. split; [done|].
  rewrite En. by apply IH.
Qed.

Lemma same_links_None r r' q : same_links r r' → r !! q = None → r' !! q = None.
Proof. intros E H. specialize (E q). rewrite H in E. by destruct (r' !! q). Qed.

Lemma same_links_object r r' q y :
  same_links r r' → r' !! q = Some y → ∃ x, r !! q = Some x ∧ object x = object y.
Proof.
  intros E H. specialize (E q). rewrite H in E. destruct (r !! q) as [x|]; [|done].
  injection E as _ E. by exists x.
Qed.

Lemma tables_ok_recs s r' cs :
  tables_ok s cs → same_links (recs s) r' → tables_ok (with_recs r' s) cs.
Proof.
  intros T E. destruct T. constructor; simpl; try done.
  - intros t i p Hp. eapply same_links_chain; [done|by apply tk_chain0].
  - intros t i q x Hq Hx. destruct (same_links_object _ _ _ _ E Hx) as (y & Hy & <-). eauto.
  - intros q Hq. eapply same_links_None; eauto.
  - intros q Hq. eapply same_links_None; eauto.
Qed.

Lemma same_links_insert r q x y :
  r !! q = Some x → next y = next x → object y = object x → same_links r (<[q := y]> r).
Proof.
  intros Hx Hn Ho p. destruct (decide (p = q)) as [->|N].
  - rewrite lookup_insert_eq, Hx. simpl. by rewrite Hn, Ho.
  - by rewrite lookup_insert_ne.
Qed.

Lemma not_member_fresh s cs t i q : tables_ok s cs → recs s !! q = None → q ∉ cs t i.
Proof.
  intros T E Hq. destruct (member_rec s cs t q T) as [x Hx]; [by exists i|]. congruence.
Qed.

(** A new record, in no table yet. *)
Lemma alloc_obj_rec_ok s cs obj :
  tables_ok s cs →
  ∃ s', alloc_obj_rec obj s = Some (free_rec s, s') ∧ tables_ok s' cs ∧
    recs s' = <[free_rec s := mkRec 0 0 obj]> (recs s) ∧ recs s !! free_rec s = None ∧
    0 < free_rec s ∧ tables s' = tables s ∧ output s' = output s ∧ free_rec s < free_rec s'.
Proof.
  intros T. eexists. split; [done|]. pose proof (tk_fresh s cs T (free_rec s)) as Hf.
  pose proof (tk_free s cs T). split_and!; simpl; try done; try (apply Hf; lia); try lia.
  assert (∀ t i, free_rec s ∉ cs t i) as Hn.
  { intros t i. apply (not_member_fresh s cs t i _ T). apply Hf. lia. }
  destruct T. constructor; simpl; try done.
  - intros t i p Hp. apply chain_insert; [done|by apply tk_chain0].
  - intros t i q x Hq Hx. rewrite lookup_insert_ne in Hx; [by eapply tk_hash0|].
    intros <-. by apply (Hn t i).
  - lia.
  - intros q Hq. rewrite lookup_insert_ne by lia. apply tk_fresh0. lia.
  - intros q Hq. rewrite lookup_insert_ne by lia. by apply tk_positive0.
Qed.

Lemma add_to_table_ok s cs t q x :
  tables_ok s cs → recs s !! q = Some x → (∀ t' i, q ∉ cs t' i) →
  ∃ h, let s' := with_table t (<[Z.to_nat (hash_val (object x)) := q]> (tables s t))
         (with_recs (<[q := mkRec h (parent x) (object x)]> (recs s)) s) in
    let i := Z.to_nat (hash_val (object x)) in
    add_to_table t q s = Some ((), s') ∧ tables_ok s' (upd t i (q :: cs t i) cs).
Proof.
  intros T Hx Hn. pose proof (hash_val_range (object x)) as Hr. unfold add_to_table.
  destruct (get_head_ok s cs t (hash_val (object x)) T Hr) as (p & Eh & Hp & Hc).
  exists p. cbv zeta. split.
  { sstep (get_rec_ok s q x Hx). sstep Eh. by sstep (set_rec_ok s q x (mkRec p (parent x) (object x)) Hx). }
  set (i := Z.to_nat (hash_val (object x))) in *.
  assert (q ≠ 0) as Hq0.
  { intros ->. pose proof (tk_positive s cs T 0 ltac:(lia)). congruence. }
  destruct T. constructor; simpl; try done.
  - intros t'. case_decide; [|done]. by rewrite length_insert.
  - intros t' j p' Hp'. case_decide as D.
    + subst t'. destruct (decide (j = i)) as [->|N].
      * rewrite list_lookup_insert_eq in Hp' by (apply lookup_lt_Some in Hp; lia).
        injection Hp' as <-. rewrite upd_same. split_and!; [done|done|].
        eexists. rewrite lookup_insert_eq. split; [done|]. simpl. by apply chain_insert.
      * rewrite list_lookup_insert_ne in Hp' by done. rewrite upd_other by tauto.
        apply chain_insert; [done|by apply tk_chain0].
    + rewrite upd_other by tauto. apply chain_insert; [done|by apply tk_chain0].
  - intros t' j Hj. rewrite upd_other; [by apply tk_range0|]. intros [_ ->]. unfold i in Hj. lia.
  - intros t' j. unfold upd. case_decide; [|done]. constructor; [apply Hn|done].
  - intros t1 i1 t2 i2 q'. unfold upd.
    repeat case_decide; destruct_and?; subst; rewrite ?elem_of_cons; intros Ha Hb;
      destruct_or?; subst; try done; try (by exfalso; eapply Hn); eauto.
  - intros t' j q' y. unfold upd. intros Hq' Hy. destruct (decide (q' = q)) as [->|N].
    + rewrite lookup_insert_eq in Hy. injection Hy as <-. simpl.
      case_decide as D; [destruct D as [_ ->]; unfold i; lia|]. by exfalso; apply (Hn t' j).
    + rewrite lookup_insert_ne in Hy by done. eapply (tk_hash0 t' j); [|done].
      case_decide as D; [destruct D as [-> ->]|done].
      by apply elem_of_cons in Hq' as [->|Hq'].
  - intros q' Hq'. rewrite lookup_insert_ne; [by apply tk_fresh0|]. intros <-.
    rewrite tk_fresh0 in Hx by done. done.
  - intros q' Hq'. rewrite lookup_insert_ne; [by apply tk_positive0|]. intros <-.
    rewrite tk_positive0 in Hx by done. done.
Qed.

(** The table [t] has one more record [q]. *)
Definition adds (cs cs' : buckets) (t : obj_table) (q : Z) : Prop :=
  ∀ t' q', member cs' t' q' ↔ member cs t' q' ∨ t' = t ∧ q' = q.

Lemma upd_adds cs t i q : adds cs (upd t i (q :: cs t i) cs) t q.
Proof.
  intros t' q'. unfold member, upd. split.
  - intros [j Hj]. case_decide as D; [destruct D as [-> ->]|by left; exists j].
    apply elem_of_cons in Hj as [->|Hj]; [by right|left; by exists i].
  - intros [[j Hj]|[-> ->]].
    + exists j. case_decide as D; [destruct D as [-> ->]; by right|done].
    + exists i. rewrite decide_True by done. by left.
Qed.

Lemma add_new_to_table_ok s cs t obj :
  tables_ok s cs →
  ∃ q s' cs' h, add_new_to_table t obj s = Some (q, s') ∧ tables_ok s' cs' ∧
    recs s !! q = None ∧ 0 < q ∧ recs s' = <[q := mkRec h 0 obj]> (recs s) ∧ adds cs cs' t q ∧
    output s' = output s ∧ q < free_rec s' ∧ (∀ p x, recs s !! p = Some x → p < q).
Proof.
  intros T. unfold add_new_to_table.
  destruct (alloc_obj_rec_ok s cs obj T) as (s1 & E1 & T1 & R1 & F1 & P1 & Tb1 & O1 & L1). sstep E1.
  assert (recs s1 !! free_rec s = Some (mkRec 0 0 obj)) as Hx by (rewrite R1; apply lookup_insert_eq).
  destruct (add_to_table_ok s1 cs t (free_rec s) _ T1 Hx) as (h & E2 & T2).
  { intros t' i. by apply (not_member_fresh s). }
  cbv zeta in E2, T2. sstep E2. eexists (free_rec s), _, _, h. split; [done|].
  split; [exact T2|]. split_and!; try done; simpl; try lia.
  - rewrite R1. apply insert_insert_eq.
  - apply upd_adds.
  - intros p x Hp. destruct (Z.lt_ge_cases p (free_rec s)) as [|Hge]; [done|].
    rewrite (tk_fresh s cs T p Hge) in Hp. done.
Qed.

(** *** Merging tables *)

(** Records whose links changed *)
Definition same_objects (r r' : gmap Z obj_rec) : Prop :=
  ∀ q, (λ x, (parent x, object x)) <$> r' !! q = (λ x, (parent x, object x)) <$> r !! q.

Lemma same_objects_refl r : same_objects r r.
Proof. done. Qed.

Lemma same_objects_trans r1 r2 r3 : same_objects r1 r2 → same_objects r2 r3 → same_objects r1 r3.
Proof. intros H1 H2 q. by rewrite H2, H1. Qed.

Lemma same_objects_lookup r r' q x :
  same_objects r r' → r !! q = Some x →
  ∃ y, r' !! q = Some y ∧ parent y = parent x ∧ object y = object x.
Proof.
  intros E H. specialize (E q). rewrite H in E. destruct (r' !! q) as [y|]; [|done].
  injection E as E1 E2. by exists y.
Qed.

Lemma same_objects_lookup_inv r r' q y :
  same_objects r r' → r' !! q = Some y →
  ∃ x, r !! q = Some x ∧ parent y = parent x ∧ object y = object x.
Proof.
  intros E H. specialize (E q). rewrite H in E. destruct (r !! q) as [x|]; [|done].
  injection E as E1 E2. by exists x.
Qed.

Lemma same_objects_insert r q x y :
  r !! q = Some x → parent y = parent x → object y = object x → same_objects r (<[q := y]> r).
Proof.
  intros Hx Hn Ho p. destruct (decide (p = q)) as [->|N].
  - rewrite lookup_insert_eq, Hx. simpl. by rewrite Hn, Ho.
  - by rewrite lookup_insert_ne.
Qed.

Lemma tables_ok_ext s cs cs' : tables_ok s cs → (∀ t i, cs' t i = cs t i) → tables_ok s cs'.
Proof.
  intros T E. destruct T. constructor; try done.
  - intros t i p. rewrite E. apply tk_chain0.
  - intros t i. rewrite E. apply tk_range0.
  - intros t i. rewrite E. apply tk_nodup0.
  - intros t i t' i' q. rewrite !E. apply tk_disjoint0.
  - intros t i q x. rewrite E. apply tk_hash0.
Qed.

Lemma last_in_chain_ok s fuel p l :
  chain (recs s) p l → l ≠ [] → (length l ≤ S fuel)%nat →
  ∃ q l' x, l = l' ++ [q] ∧ last_in_chain fuel p s = Some (q, s) ∧ recs s !! q = Some x.
Proof.
  revert p fuel. induction l as [|q l IH]; intros p fuel H Hl Hf; [done|].
  destruct H as (-> & Hn & x & Hx & H). destruct fuel as [|fuel], l as [|q' l];
    cbn [last_in_chain]; sstep (get_rec_ok _ _ _ Hx).
  - simpl in H. rewrite H. simpl. by exists q, [], x.
  - simpl in Hf. lia.
  - simpl in H. rewrite H. simpl. by exists q, [], x.
  - destruct (IH (next x) fuel H) as (q1 & l' & y & -> & E & Hy); [done|simpl in *; lia|].
    destruct H as (En & Hn' & _). rewrite <- En in Hn'. rewrite (proj2 (Z.eqb_neq _ _) Hn'), E.
    by exists q1, (q :: l'), y.
Qed.

Lemma chain_join r p l q x d k y :
  chain r p (l ++ [q]) → r !! q = Some x → NoDup (l ++ [q]) → chain r d k → q ∉ k → next y = d →
  chain (<[q := y]> r) p (l ++ q :: k).
Proof.
  intros Hc Hx ND Hk Hn Hy. revert p Hc. induction l as [|q' l IH]; intros p Hc; simpl in *.
  - destruct Hc as (-> & Hn' & _). split_and!; [done|done|]. exists y.
    rewrite lookup_insert_eq. split; [done|]. rewrite Hy. by apply chain_insert.
  - apply NoDup_cons in ND as [Hq' ND]. destruct Hc as (-> & Hn' & z & Hz & Hc).
    split_and!; [done|done|]. exists z. rewrite lookup_insert_ne.
    + split; [done|]. by apply IH.
    + intros <-. apply Hq'. apply elem_of_app. right. by left.
Qed.

Lemma chain_zero r l : chain r 0 l → l = [].
Proof. destruct l as [|q l]; [done|]. intros (<- & N & _). done. Qed.

Lemma chain_nonzero r p l : chain r p l → p ≠ 0 → l ≠ [].
Proof. intros H N ->. done. Qed.

Definition merged (dest src : obj_table) (i : nat) (cs : buckets) : buckets :=
  upd dest i (cs src i ++ cs dest i) (upd src i [] cs).

Lemma merged_dest dest src i cs : merged dest src i cs dest i = cs src i ++ cs dest i.
Proof. apply upd_same. Qed.

Lemma merged_src dest src i cs : dest ≠ src → merged dest src i cs src i = [].
Proof. intros N. unfold merged. rewrite upd_other by naive_solver. apply upd_same. Qed.

Lemma merged_other dest src i cs t j :
  ¬ (t = dest ∧ j = i) → ¬ (t = src ∧ j = i) → merged dest src i cs t j = cs t j.
Proof. intros H1 H2. unfold merged. by rewrite !upd_other. Qed.

(** Which of the three cases a bucket is in *)
Ltac merged_cases dest src i t j :=
  destruct (decide (t = dest ∧ j = i)) as [[-> ->]|];
    [rewrite ?merged_dest|
     destruct (decide (t = src ∧ j = i)) as [[-> ->]|];
       [rewrite ?merged_src by done|rewrite ?merged_other by done]].

(** Where a record of a merged table was before. *)
Definition merge_to (dest src : obj_table) (i : nat) (l : obj_table * nat) : obj_table * nat :=
  if decide (l = (src, i)) then (dest, i) else l.

Lemma merged_in dest src i cs t j q :
  dest ≠ src →
  q ∈ merged dest src i cs t j ↔ ∃ l, q ∈ cs l.1 l.2 ∧ merge_to dest src i l = (t, j).
Proof.
  intros N. unfold merge_to. split.
  - merged_cases dest src i t j.
    + intros [H|H]%elem_of_app; [exists (src, i)|exists (dest, i)]; (split; [done|]).
      * by rewrite decide_True.
      * rewrite decide_False; [done|]. congruence.
    + by intros H%elem_of_nil.
    + intros H. exists (t, j). split; [done|]. rewrite decide_False; [done|]. intros [= -> ->]. tauto.
  - intros ([t' j'] & H & E). simpl in H. case_decide as D.
    + injection D as -> ->. injection E as <- <-. rewrite merged_dest. apply elem_of_app. by left.
    + injection E as -> ->. merged_cases dest src i t j; [apply elem_of_app; by right| |done].
      by destruct D.
Qed.

(** The state after bucket [i] of [src] has been put before that of [dest]. *)
Lemma merged_tables_ok s s' cs dest src (i : nat) p :
  tables_ok s cs → dest ≠ src → (i < tsize)%nat → free_rec s' = free_rec s →
  tables s' = (λ u, if decide (u = src) then <[i := 0]> (tables s src)
                    else if decide (u = dest) then <[i := p]> (tables s dest) else tables s u) →
  chain (recs s') p (cs src i ++ cs dest i) →
  (∀ t j q, ¬ (t = dest ∧ j = i) → ¬ (t = src ∧ j = i) →
     chain (recs s) q (cs t j) → chain (recs s') q (cs t j)) →
  same_objects (recs s) (recs s') →
  tables_ok s' (merged dest src i cs).
Proof.
  intros T N Hi Hf Ht Hc Ho Hs. pose proof T as T'. destruct T. constructor.
  - intros t. rewrite Ht. repeat case_decide; subst; by rewrite ?length_insert.
  - intros t j q. rewrite Ht. intros Hq. merged_cases dest src i t j.
    + rewrite decide_False, decide_True in Hq by done.
      rewrite list_lookup_insert_eq in Hq by (by rewrite tk_length0). by injection Hq as <-.
    + rewrite decide_True in Hq by done.
      rewrite list_lookup_insert_eq in Hq by (by rewrite tk_length0). by injection Hq as <-.
    + apply Ho; [done|done|]. apply tk_chain0. repeat case_decide; subst; try done;
        rewrite list_lookup_insert_ne in Hq by naive_solver; done.
  - intros t j Hj. merged_cases dest src i t j; [lia|done|by apply tk_range0].
  - intros t j. merged_cases dest src i t j; [|constructor|apply tk_nodup0].
    apply NoDup_app. split_and!; [apply tk_nodup0| |apply tk_nodup0].
    intros q Hq Hq'. by destruct (tk_disjoint0 _ _ _ _ _ Hq Hq').
  - intros t j t' j' q ([t1 j1] & H1 & E1)%merged_in ([t2 j2] & H2 & E2)%merged_in; [|done..].
    destruct (tk_disjoint0 _ _ _ _ _ H1 H2) as [E3 E4]. simpl in E3, E4. subst.
    rewrite E1 in E2. by injection E2.
  - intros t j q x ([t1 j1] & H1 & E1)%merged_in Hx; [|done].
    destruct (same_objects_lookup_inv _ _ _ _ Hs Hx) as (y & Hy & _ & ->).
    rewrite (tk_hash0 _ _ _ _ H1 Hy). unfold merge_to in E1; simpl. case_decide as D; [|by injection E1 as _ ->].
    injection D as -> ->. by injection E1 as _ ->.
  - by rewrite Hf.
  - intros q Hq. rewrite Hf in Hq. destruct (recs s' !! q) as [x|] eqn:Hx; [|done].
    destruct (same_objects_lookup_inv _ _ _ _ Hs Hx) as (y & Hy & _). rewrite tk_fresh0 in Hy; done.
  - intros q Hq. destruct (recs s' !! q) as [x|] eqn:Hx; [|done].
    destruct (same_objects_lookup_inv _ _ _ _ Hs Hx) as (y & Hy & _). rewrite tk_positive0 in Hy; done.
Qed.

Lemma merged_cong dest src j cs cs' t :
  (∀ t', cs t' j = cs' t' j) → merged dest src j cs t j = merged dest src j cs' t j.
Proof.
  intros E. unfold merged, upd. destruct (decide (t = dest ∧ j = j)); [by rewrite !E|].
  by destruct (decide (t = src ∧ j = j)).
Qed.

(** The body of the loop of [merge_tables] *)
Definition merge_bucket (dest src : obj_table) (i : Z) : St trails () :=
  dchain ← get_head dest i;
  schain ← get_head src i;
  if negb (schain =? 0) then
    set_head dest i schain ;;
    set_head src i 0 ;;
    if negb (dchain =? 0) then
      fuel ← chain_fuel;
      p ← last_in_chain fuel schain;
      r ← get_rec p;
      set_rec p (mkRec dchain (parent r) (object r))
    else mret ()
  else mret ().

Lemma merge_bucket_ok s cs dest src (i : nat) :
  tables_ok s cs → dest ≠ src → (i < tsize)%nat →
  ∃ s', merge_bucket dest src (Z.of_nat i) s = Some ((), s') ∧
    tables_ok s' (merged dest src i cs) ∧ same_objects (recs s) (recs s') ∧ output s' = output s.
Proof.
  intros T N Hi. unfold merge_bucket.
  destruct (get_head_ok s cs dest (Z.of_nat i) T ltac:(lia)) as (d & Ed & Hd & Cd). sstep Ed.
  destruct (get_head_ok s cs src (Z.of_nat i) T ltac:(lia)) as (c & Ec & Hc & Cc). sstep Ec.
  rewrite Nat2Z.id in *. destruct (Z.eqb_spec c 0) as [->|Nc]; simpl.
  { exists s. split; [done|]. split; [|done]. apply chain_zero in Cc. eapply tables_ok_ext; [done|].
    intros t j. merged_cases dest src i t j; by rewrite ?Cc. }
  set (s1 := with_table src (<[i := 0]> (tables s src)) (with_table dest (<[i := c]> (tables s dest)) s)).
  assert (set_head dest (Z.of_nat i) c s = Some ((), with_table dest (<[i := c]> (tables s dest)) s))
    as E1 by (unfold set_head, modify_st; by rewrite Nat2Z.id).
  assert (set_head src (Z.of_nat i) 0 (with_table dest (<[i := c]> (tables s dest)) s) = Some ((), s1))
    as E2.
  { unfold set_head, modify_st, s1. rewrite Nat2Z.id. simpl. by rewrite decide_False by done. }
  sstep E1. sstep E2.
  assert (tables s1 = (λ u, if decide (u = src) then <[i := 0]> (tables s src)
    else if decide (u = dest) then <[i := c]> (tables s dest) else tables s u)) as Ht by done.
  destruct (Z.eqb_spec d 0) as [->|Nd]; simpl.
  { exists s1. split; [done|]. apply chain_zero in Cd.
    split; [|done]. apply (merged_tables_ok s s1 cs dest src i c); try done.
    by rewrite Cd, app_nil_r. }
  sstep (chain_fuel_ok s1).
  destruct (last_in_chain_ok s1 (S (size (recs s1))) c (cs src i)) as (q & l & x & El & E3 & Hx).
  { done. } { by eapply chain_nonzero. }
  { pose proof (chain_fuel_enough _ _ _ Cc (tk_nodup s cs T _ _)). simpl. lia. }
  sstep E3. sstep (get_rec_ok s1 q x Hx). rewrite (set_rec_ok s1 q x _ Hx).
  eexists. split; [done|]. split; [|split; [by apply (same_objects_insert _ _ x)|done]].
  assert (q ∈ cs src i) as Hq by (rewrite El; apply elem_of_app; right; by left).
  apply (merged_tables_ok s _ cs dest src i c); simpl; try done.
  - rewrite El, <- app_assoc. simpl. eapply chain_join; [by rewrite <- El|exact Hx| |exact Cd| |done].
    + rewrite <- El. apply T.
    + intros Hq'. by destruct (tk_disjoint s cs T _ _ _ _ _ Hq Hq').
  - intros t j p H1 H2 Hcj. apply chain_insert; [|done]. intros Hq'.
    destruct (tk_disjoint s cs T _ _ _ _ _ Hq Hq') as [<- <-]. tauto.
  - by apply (same_objects_insert _ _ x).
Qed.

Lemma merge_tables_loop_S dest src i n s :
  merge_tables_loop dest src i (S n) s =
  (merge_bucket dest src i ≫= λ _, merge_tables_loop dest src (i + 1) n) s.
Proof.
  unfold merge_bucket. cbn [merge_tables_loop]. snorm.
  unfold mbind, St_bind. destruct (get_head dest i s) as [[d s1]|]; simpl; [|done].
  destruct (get_head src i s1) as [[c s2]|]; simpl; [|done]. done.
Qed.

Lemma merge_tables_loop_ok s cs dest src (i n : nat) :
  tables_ok s cs → dest ≠ src → (i + n ≤ tsize)%nat →
  ∃ s' cs', merge_tables_loop dest src (Z.of_nat i) n s = Some ((), s') ∧ tables_ok s' cs' ∧
    (∀ t j, cs' t j = if decide ((i ≤ j < i + n)%nat) then merged dest src j cs t j else cs t j) ∧
    same_objects (recs s) (recs s') ∧ output s' = output s.
Proof.
  revert s cs i. induction n as [|n IH]; intros s cs i T N Hi.
  { exists s, cs. split_and!; try done. intros t j. rewrite decide_False; [done|lia]. }
  rewrite merge_tables_loop_S.
  destruct (merge_bucket_ok s cs dest src i T N ltac:(lia)) as (s1 & E1 & T1 & S1 & O1). sstep E1.
  destruct (IH s1 (merged dest src i cs) (S i) T1 N ltac:(lia)) as (s2 & cs2 & E2 & T2 & C2 & S2 & O2).
  replace (Z.of_nat i + 1) with (Z.of_nat (S i)) by lia.
  exists s2, cs2. split_and!; [done|done| |by eapply same_objects_trans|congruence].
  intros t j. rewrite C2. destruct (decide (i = j)) as [->|Nij].
  - rewrite decide_False by lia. by rewrite decide_True by lia.
  - destruct (decide (S i ≤ j < S i + n)%nat) as [D|D].
    + rewrite decide_True by lia.
      apply merged_cong. intros t'. apply merged_other; naive_solver.
    + rewrite decide_False by lia. by rewrite merged_other by naive_solver.
Qed.

Lemma merge_tables_ok s cs dest src :
  tables_ok s cs → dest ≠ src →
  ∃ s' cs', merge_tables dest src s = Some ((), s') ∧ tables_ok s' cs' ∧
    (∀ t q, member cs' t q ↔
       (t = dest ∧ (member cs dest q ∨ member cs src q)) ∨ (t ≠ dest ∧ t ≠ src ∧ member cs t q)) ∧
    same_objects (recs s) (recs s') ∧ output s' = output s.
Proof.
  intros T N. unfold merge_tables.
  destruct (merge_tables_loop_ok s cs dest src 0 tsize T N ltac:(lia)) as (s' & cs' & E & T' & C & S' & O').
  exists s', cs'. split_and!; [done|done| |done|done].
  assert (∀ t j, cs' t j = merged dest src j cs t j) as C'.
  { intros t j. rewrite C. case_decide as D; [done|].
    assert (∀ u, cs u j = []) as Hnil by (intros u; apply (tk_range s cs T); lia).
    unfold merged, upd. by repeat case_decide; rewrite ?Hnil. }
  intros t q. unfold member. setoid_rewrite C'. split.
  - intros (j & ([t' j'] & H & E')%merged_in); [|done]. unfold merge_to in E'. simpl in H.
    case_decide as D; [injection D as -> ->; injection E' as <-; left; eauto|].
    injection E' as -> ->. destruct (decide (t = dest)) as [->|]; [left; eauto|right].
    split; [done|]. split; [|by exists j]. intros ->. done.
  - intros [[-> [[j H]|[j H]]]|(Hd & Hs & j & H)]; exists j.
    + rewrite merged_dest. apply elem_of_app. by right.
    + rewrite merged_dest. apply elem_of_app. by left.
    + by rewrite merged_other by tauto.
Qed.

(** *** Freeing tables *)

Lemma free_chain_ok s fuel p l :
  chain (recs s) p l → NoDup l → (length l ≤ fuel)%nat →
  ∃ r, free_chain fuel p s = Some ((), with_recs r s) ∧
    ∀ q, r !! q = if decide (q ∈ l) then None else recs s !! q.
Proof.
  revert s p fuel. induction l as [|q l IH]; intros s p fuel H ND Hf; simpl in H.
  - subst. exists (recs s). split; [destruct s; by destruct fuel|]. intros q.
    rewrite decide_False; [done|apply not_elem_of_nil].
  - destruct H as (-> & Hn & x & Hx & H). destruct fuel as [|fuel]; [simpl in Hf; lia|].
    apply NoDup_cons in ND as [Hq ND]. simpl. rewrite (proj2 (Z.eqb_neq q 0) Hn).
    sstep (get_rec_ok _ _ _ Hx).
    assert (free_obj_rec q s = Some ((), with_recs (delete q (recs s)) s)) as E.
    { unfold free_obj_rec. by sstep (get_rec_ok _ _ _ Hx). }
    sstep E. destruct (IH (with_recs (delete q (recs s)) s) (next x) fuel) as (r & E' & Hr).
    { by apply chain_delete. } { done. } { simpl in Hf. lia. }
    exists r. split; [exact E'|]. intros q'. rewrite Hr. simpl.
    destruct (decide (q' = q)) as [->|N].
    + rewrite (decide_True (P := q ∈ q :: l)) by by left. case_decide; [done|]. apply lookup_delete_eq.
    + rewrite lookup_delete_ne by done. repeat case_decide; set_solver.
Qed.

Definition free_bucket (t : obj_table) (i : Z) : St trails () :=
  head ← get_head t i; fuel ← chain_fuel; free_chain fuel head ;; set_head t i 0.

Lemma free_bucket_ok s cs t (i : nat) :
  tables_ok s cs → (i < tsize)%nat →
  ∃ s', free_bucket t (Z.of_nat i) s = Some ((), s') ∧ tables_ok s' (upd t i [] cs) ∧
    output s' = output s.
Proof.
  intros T Hi. unfold free_bucket.
  destruct (get_head_ok s cs t (Z.of_nat i) T ltac:(lia)) as (p & Ep & Hp & Hc). sstep Ep.
  rewrite Nat2Z.id in *. sstep (chain_fuel_ok s).
  destruct (free_chain_ok s (S (size (recs s))) p (cs t i) Hc (tk_nodup s cs T t i)) as (r & E & Hr).
  { pose proof (chain_fuel_enough _ _ _ Hc (tk_nodup s cs T t i)). lia. }
  sstep E. eexists. split; [unfold set_head, modify_st; by rewrite Nat2Z.id|]. split; [|done].
  destruct T. constructor; simpl; try done.
  - intros t'. case_decide; [|done]. by rewrite length_insert.
  - intros t' j q Hq.
    assert (∀ l u, (∀ q', q' ∈ l → q' ∉ cs t i) → chain (recs s) u l → chain r u l) as Hkeep.
    { intros l. induction l as [|q' l IH]; intros u Hl Hu; [done|].
      destruct Hu as (-> & Hn & x & Hx & Hu). split_and!; [done|done|]. exists x. split.
      - rewrite Hr, decide_False; [done|]. apply Hl. by left.
      - apply IH; [|done]. intros q1 Hq1. apply Hl. by right. }
    destruct (decide (t' = t ∧ j = i)) as [[-> ->]|N].
    + rewrite upd_same. rewrite decide_True in Hq by done.
      rewrite list_lookup_insert_eq in Hq by (by rewrite tk_length0). by injection Hq as <-.
    + rewrite upd_other by done. apply Hkeep.
      * intros q' Hq' Hin. apply N. by apply (tk_disjoint0 _ _ _ _ q').
      * apply tk_chain0. case_decide; [|done]. subst.
        by rewrite list_lookup_insert_ne in Hq by naive_solver.
  - intros t' j Hj. unfold upd. case_decide; [done|by apply tk_range0].
  - intros t' j. unfold upd. case_decide; [constructor|apply tk_nodup0].
  - intros t1 j1 t2 j2 q. unfold upd.
    repeat case_decide; rewrite ?elem_of_nil; try done. apply tk_disjoint0.
  - intros t' j q x. unfold upd. case_decide; [by rewrite elem_of_nil|]. intros Hq Hx.
    rewrite Hr in Hx. case_decide; [done|]. by eapply tk_hash0.
  - intros q Hq. rewrite Hr. case_decide; [done|by apply tk_fresh0].
  - intros q Hq. rewrite Hr. case_decide; [done|by apply tk_positive0].
Qed.

Lemma free_table_loop_ok s cs t (i n : nat) :
  tables_ok s cs → (i + n ≤ tsize)%nat →
  ∃ s' cs', free_table_loop t (Z.of_nat i) n s = Some ((), s') ∧ tables_ok s' cs' ∧
    (∀ t' j, cs' t' j = if decide (t' = t ∧ (i ≤ j < i + n)%nat) then [] else cs t' j) ∧
    output s' = output s.
Proof.
  revert s cs i. induction n as [|n IH]; intros s cs i T Hi.
  { exists s, cs. split_and!; try done. intros t' j. rewrite decide_False; [done|lia]. }
  destruct (free_bucket_ok s cs t i T ltac:(lia)) as (s1 & E1 & T1 & O1).
  assert (∀ m : St trails (), (free_bucket t (Z.of_nat i) ≫= λ _, m) s = m s1) as Hrun.
  { intros m. by sstep E1. }
  unfold free_bucket in Hrun.
  destruct (IH s1 (upd t i [] cs) (S i) T1 ltac:(lia)) as (s2 & cs2 & E2 & T2 & C2 & O2).
  exists s2, cs2. split_and!; [|done| |congruence].
  - cbn [free_table_loop]. replace (Z.of_nat i + 1) with (Z.of_nat (S i)) by lia. rewrite <- E2, <- Hrun.
    unfold mbind, St_bind. generalize chain_fuel. intros cf.
    destruct (get_head t (Z.of_nat i) s) as [[p s0]|]; simpl; [|done].
    destruct (cf s0) as [[fuel s0']|]; simpl; [|done].
    by destruct (free_chain fuel p s0') as [[[] s0'']|].
  - intros t' j. rewrite C2. unfold upd. destruct (decide (t' = t)) as [->|].
    2: { by rewrite !decide_False by tauto. }
    destruct (decide (j = i)) as [->|].
    { rewrite decide_False by (intros [_ ?]; lia). by rewrite !decide_True by (split; [done|lia]). }
    rewrite (decide_False (P := t = t ∧ j = i)) by tauto.
    destruct (decide (t = t ∧ (S i ≤ j < S i + n)%nat)) as [[_ D]|D].
    + by rewrite decide_True by (split; [done|lia]).
    + rewrite decide_False; [done|]. intros [_ ?]. apply D. split; [done|lia].
Qed.

Lemma free_table_ok s cs t :
  tables_ok s cs →
  ∃ s' cs', free_table t s = Some ((), s') ∧ tables_ok s' cs' ∧
    (∀ t' q, member cs' t' q ↔ t' ≠ t ∧ member cs t' q) ∧ output s' = output s.
Proof.
  intros T. unfold free_table.
  destruct (free_table_loop_ok s cs t 0 tsize T ltac:(lia)) as (s' & cs' & E & T' & C & O).
  exists s', cs'. split_and!; [done|done| |done]. intros t' q. unfold member. split.
  - intros [j Hj]. rewrite C in Hj. case_decide as D; [by apply elem_of_nil in Hj|].
    split; [|by exists j]. intros ->. destruct (decide (j < tsize)%nat); [apply D; split; [done|lia]|].
    rewrite (tk_range s cs T) in Hj by lia. by apply elem_of_nil in Hj.
  - intros [N [j Hj]]. exists j. rewrite C, decide_False; [done|]. by intros [? _].
Qed.

(** All four tables empty *)
Definition cleared (s : trails) : Prop := ∃ cs, tables_ok s cs ∧ ∀ t q, ¬ member cs t q.

Lemma initial_cleared : cleared initial_trails.
Proof.
  exists (λ _ _, []). split; [|by intros t q [i Hi%elem_of_nil]].
  constructor; try done.
  - intros t i p Hp. by apply lookup_replicate in Hp as [-> _].
  - intros. constructor.
  - by intros t i t' i' q Hq%elem_of_nil.
Qed.

Lemma clear_object_reference_paths_ok s cs :
  tables_ok s cs →
  ∃ s', clear_object_reference_paths s = Some ((), s') ∧ cleared s' ∧ output s' = output s.
Proof.
  intros T. unfold clear_object_reference_paths.
  destruct (free_table_ok s cs Root T) as (s1 & c1 & E1 & T1 & M1 & O1). sstep E1.
  destruct (free_table_ok s1 c1 Processed T1) as (s2 & c2 & E2 & T2 & M2 & O2). sstep E2.
  destruct (free_table_ok s2 c2 Current T2) as (s3 & c3 & E3 & T3 & M3 & O3). sstep E3.
  destruct (free_table_ok s3 c3 Child T3) as (s4 & c4 & E4 & T4 & M4 & O4). rewrite E4.
  exists s4. split; [done|]. split; [|congruence]. exists c4. split; [done|].
  intros t q. rewrite M4, M3, M2, M1. destruct t; tauto.
Qed.

(** ** Printing *)

Definition add_output (l : list out) (s : trails) : trails :=
  mkTrails (recs s) (free_rec s) (tables s) (output s ++ l).

Lemma add_output_nil s : add_output [] s = s.
Proof. destruct s. unfold add_output. simpl. by rewrite app_nil_r. Qed.

Lemma add_output_app l k s : add_output k (add_output l s) = add_output (l ++ k) s.
Proof. unfold add_output. simpl. by rewrite app_assoc. Qed.

Lemma tables_ok_output s cs l : tables_ok s cs → tables_ok (add_output l s) cs.
Proof. intros T. by destruct T. Qed.

(** [m] answers [a], and all it does is print [l]. *)
Definition prints {A} (m : St trails A) (s : trails) (a : A) (l : list out) : Prop :=
  m s = Some (a, add_output l s).

Lemma prints_read {A} (m : St trails A) s a : m s = Some (a, s) → prints m s a [].
Proof. intros E. unfold prints. by rewrite add_output_nil. Qed.

Lemma prints_ret {A} (a : A) s : prints (mret a) s a [].
Proof. by apply prints_read. Qed.

Lemma prints_bind {A B} (m : St trails A) (f : A → St trails B) s a l b k :
  prints m s a l → prints (f a) (add_output l s) b k → prints (m ≫= f) s b (l ++ k).
Proof.
  intros E1 E2. unfold prints in *. rewrite (St_bind_Some _ _ _ _ _ E1), E2.
  by rewrite add_output_app.
Qed.

Lemma prints_print l s : prints (print l) s () (Char <$> l).
Proof. done. Qed.

Lemma prints_lift {A} (o : option A) s a : o = Some a → prints (lift_st o) s a [].
Proof. intros ->. by apply prints_read. Qed.

(** Some output, whatever it is. *)
Definition reports {A} (m : St trails A) (s : trails) (a : A) : Prop := ∃ l, prints m s a l.

Lemma reports_ret {A} (a : A) s : reports (mret a) s a.
Proof. eexists. apply prints_ret. Qed.

Lemma reports_bind {A B} (m : St trails A) (f : A → St trails B) s a b :
  reports m s a → (∀ l, reports (f a) (add_output l s) b) → reports (m ≫= f) s b.
Proof. intros [l E] H. destruct (H l) as [k E']. eexists. by eapply prints_bind. Qed.

Lemma reports_print l s : reports (print l) s ().
Proof. eexists. apply prints_print. Qed.

Lemma reports_read {A} (m : St trails A) s a : m s = Some (a, s) → reports m s a.
Proof. intros E. exists []. by apply prints_read. Qed.

Lemma reports_break message s : reports (report_break message) s ().
Proof. unfold report_break. eexists. by repeat (eapply prints_bind; [apply prints_print|]). Qed.

Lemma reports_if {A} (b : bool) (m n : St trails A) s a :
  (b = true → reports m s a) → (b = false → reports n s a) → reports (if b then m else n) s a.
Proof. destruct b; auto. Qed.

(** Programs that only print. *)
Ltac reporting :=
  repeat lazymatch goal with
    | |- reports (print _) _ _ => apply reports_print
    | |- reports (report_break _) _ _ => apply reports_break
    | |- reports (mret _) _ _ => apply reports_ret
    | |- reports (mbind _ (print _)) _ _ => eapply reports_bind; [apply reports_print|intros ?; cbv beta]
    | |- reports (mbind _ (report_break _)) _ _ =>
        eapply reports_bind; [apply reports_break|intros ?; cbv beta]
    end.
