(* ===== verification/HeapTrailLaws.v ===== *)
(** * The trail search finds shortest trails

    [heap-trail.c], [advance_through_generations]: the records of generation [n] are
    those of the objects whose shortest path to a target has [n] references, each
    with such a path in its parent links.  The search ends, prints a shortest trail
    from a root when there is one, and the report of its failure when no trail was
    found. *)

From S2P Require Import Prelude Effects HeapTable HeapUtils HeapTrail HeapTrailTables.
From Stdlib Require Import ZArith Lia Bool String.
From stdpp Require Import base tactics option list numbers gmap fin_maps.

Local Open Scope Z_scope.

Section laws.
Context (mem : gmap Z Z) (objects roots : list Z) (lim : limits) (address : variable → Z).

(** ** Specification *)

(** The references of an object *)
Definition refs (o : Z) : list Z :=
  match references mem o with Some (_, l) => l | None => [] end.

(** A root at address [a] refers to the object [o]. *)
Definition rooted_at (a o : Z) : Prop :=
  a ∈ roots ∧ word_at mem a 0 = Some o ∧
  ∃ w, word_at mem o 0 = Some w ∧ negb (w =? 0) && (Z.land (s32 w) 3 =? 0) = true.

Definition rooted (o : Z) : Prop := ∃ a, rooted_at a o.

(** What is searched for *)
Definition target_objects (obj wrapper : Z) : list Z :=
  if negb (wrapper =? 0) then filter (λ o, word_at mem o 0 = Some wrapper) objects
  else if negb (obj =? 0) then [obj] else [].

(** The report of a trail from a root at [a]: [l] goes from its object to a target. *)
Definition trail_text (a : Z) (l : list Z) : option (list out) :=
  displays ← mapM (display_object_reference mem) (reverse l);
  Some (Char <$> ([10] ++ chars "Start of a trail of object references" ++ [10] ++
    concat displays ++
    chars "Referenced from a root at address                     " ++ display_hex_address a ++
    [10] ++ chars "End of trail" ++ [10])).

Definition failure_text : list out :=
  Char <$> (chars "Failed to find any objects referenced from a root." ++ [10]).

Definition contains (out text : list out) : Prop := ∃ l k, out = l ++ text ++ k.

Section targets.
Context (targets : list Z).

(** A path of references through objects, to a target *)
Fixpoint path (l : list Z) : Prop :=
  match l with
  | [] => False
  | o :: l =>
      match l with
      | [] => o ∈ targets
      | o' :: _ => o ∈ objects ∧ o' ∈ refs o ∧ path l
      end
  end.

(** There is one of [n] references from [o]. *)
Fixpoint reaches (n : nat) (o : Z) : Prop :=
  match n with
  | O => o ∈ targets
  | S n => o ∈ objects ∧ Exists (reaches n) (refs o)
  end.

Definition shortest (n : nat) (o : Z) : Prop := reaches n o ∧ ∀ k, (k < n)%nat → ¬ reaches k o.

#[local] Instance reaches_dec n : ∀ o, Decision (reaches n o).
Proof. induction n as [|n IH]; intros o; simpl; apply _. Defined.

Lemma reaches_path n o : reaches n o ↔ ∃ l, path (o :: l) ∧ length l = n.
Proof.
  revert o. induction n as [|n IH]; intros o; simpl.
  - split; [intros H; by exists []|]. by intros ([|o' l] & H & Hl).
  - rewrite Exists_exists. setoid_rewrite IH. split.
    + intros (Ho & o' & Hr & l & Hp & Hl). exists (o' :: l). simpl. auto.
    + intros ([|o' l] & Hp & Hl); [done|]. injection Hl as Hl. destruct Hp as (Ho & Hr & Hp).
      split; [done|]. exists o'. split; [done|]. by exists l.
Qed.

Lemma shortest_exists n o : reaches n o → ∃ k, (k ≤ n)%nat ∧ shortest k o.
Proof.
  induction (lt_wf n) as [n _ IH]. intros H.
  destruct (decide (Exists (λ k, reaches k o) (seq 0 n))) as [Hk|Hk].
  - apply Exists_exists in Hk as (k & Hk%elem_of_seq & Hr). destruct (IH k ltac:(lia) Hr) as (j & Hj & Hs).
    exists j. split; [lia|done].
  - exists n. split; [done|]. split; [done|]. intros k Hlt Hr. apply Hk, Exists_exists. exists k.
    split; [apply elem_of_seq; lia|done].
Qed.

Lemma shortest_unique n m o : shortest n o → shortest m o → n = m.
Proof.
  intros [Hn Hn'] [Hm Hm']. destruct (Nat.lt_trichotomy n m) as [H|[H|H]]; [|done|].
  - by destruct (Hm' n H).
  - by destruct (Hn' m H).
Qed.

Lemma shortest_S n o :
  shortest (S n) o ↔
  o ∈ objects ∧ (∃ o', o' ∈ refs o ∧ shortest n o') ∧ ¬ ∃ k, (k ≤ n)%nat ∧ shortest k o.
Proof.
  split.
  - intros [[Ho (o' & Hr & Hn)%Exists_exists] Hmin]. split; [done|]. split.
    + exists o'. split; [done|]. split; [done|]. intros k Hk Hr'.
      apply (Hmin (S k) ltac:(lia)). split; [done|]. apply Exists_exists. by exists o'.
    + intros (k & Hk & Hs & _). by apply (Hmin k ltac:(lia)).
  - intros (Ho & (o' & Hr & Hn & _) & Hno). split.
    + split; [done|]. apply Exists_exists. by exists o'.
    + intros k Hk Hrk. destruct (shortest_exists k o Hrk) as (j & Hj & Hs). apply Hno.
      exists j. split; [lia|done].
Qed.

(** No generation is skipped. *)
Lemma shortest_below n m o : shortest m o → (n ≤ m)%nat → ∃ o', shortest n o'.
Proof.
  revert o. induction m as [|m IH]; intros o Hs Hle.
  - exists o. by replace n with 0%nat by lia.
  - destruct (decide (n = S m)) as [->|]; [by exists o|].
    apply shortest_S in Hs as (_ & (o' & _ & Hs) & _). apply (IH o'); [done|lia].
Qed.

(** There are no more generations than objects. *)
Lemma shortest_bound n o : shortest n o → (n ≤ length objects)%nat.
Proof.
  intros Hs.
  assert (∃ l, NoDup l ∧ length l = n ∧
    ∀ o', o' ∈ l → o' ∈ objects ∧ ∃ k, (k ≤ n)%nat ∧ shortest k o') as (l & ND & Hl & Hin).
  { revert o Hs. induction n as [|n IH]; intros o Hs.
    - exists []. split; [constructor|]. split; [done|]. by intros o' H%elem_of_nil.
    - pose proof Hs as (Ho & (o' & _ & Hs') & Hno)%shortest_S.
      destruct (IH o' Hs') as (l & ND & Hl & Hin). exists (o :: l). split_and!.
      + constructor; [|done]. intros (_ & Hk)%Hin. done.
      + simpl. by rewrite Hl.
      + intros o1 [->|(Ho1 & k & Hk & Hs1)%Hin]%elem_of_cons; (split; [done|]).
        * by exists (S n).
        * exists k. split; [lia|done]. }
  rewrite <- Hl. apply submseteq_length, NoDup_submseteq; [done|].
  intros o' Ho'. by apply Hin.
Qed.

End targets.

(** ** Parent links *)

(** The objects along the parent links from [p]; parents are allocated before. *)
Fixpoint ptrail (r : gmap Z obj_rec) (p : Z) (l : list Z) : Prop :=
  match l with
  | [] => p = 0
  | o :: l => p ≠ 0 ∧ ∃ x, r !! p = Some x ∧ object x = o ∧ parent x < p ∧ ptrail r (parent x) l
  end.

(** Records kept, but for their links *)
Definition extends (r r' : gmap Z obj_rec) : Prop :=
  ∀ q x, r !! q = Some x → ∃ y, r' !! q = Some y ∧ parent y = parent x ∧ object y = object x.

Lemma recs_extend_refl r : extends r r.
Proof. intros q x H. by exists x. Qed.

Lemma recs_extend_trans r1 r2 r3 : extends r1 r2 → extends r2 r3 → extends r1 r3.
Proof.
  intros H1 H2 q x Hx. destruct (H1 q x Hx) as (y & Hy & <- & <-). by apply H2.
Qed.

Lemma extends_insert r q x : r !! q = None → extends r (<[q := x]> r).
Proof.
  intros H p y Hy. exists y. rewrite lookup_insert_ne; [done|]. intros ->. congruence.
Qed.

Lemma same_objects_extends r r' : same_objects r r' → extends r r'.
Proof. intros H q x Hx. by apply (same_objects_lookup r r' q x). Qed.

Lemma ptrail_extends r r' p l : extends r r' → ptrail r p l → ptrail r' p l.
Proof.
  intros E. revert p. induction l as [|o l IH]; intros p H; [done|].
  destruct H as (N & x & Hx & Ho & Hp & H). destruct (E p x Hx) as (y & Hy & Ep & Eo).
  split; [done|]. exists y. rewrite Ep, Eo. auto.
Qed.

Lemma ptrail_length r p l : ptrail r p l → (length l ≤ size r)%nat.
Proof.
  intros H.
  assert (∃ ps, length ps = length l ∧ NoDup ps ∧ ∀ q, q ∈ ps → q <= p ∧ is_Some (r !! q))
    as (ps & <- & ND & Hps).
  { revert p H. induction l as [|o l IH]; intros p H.
    - exists []. split; [done|]. split; [constructor|]. by intros q Hq%elem_of_nil.
    - destruct H as (_ & x & Hx & _ & Hlt & H). destruct (IH _ H) as (ps & Hl & ND & Hps).
      exists (p :: ps). simpl. split_and!; [by rewrite Hl| |].
      + constructor; [|done]. intros [Hle _]%Hps. lia.
      + intros q [->|[Hle Hs]%Hps]%elem_of_cons; [split; [lia|by eexists]|]. split; [lia|done]. }
  apply NoDup_dom_length; [done|]. intros q Hq. by apply Hps.
Qed.

Lemma display_reference_paths_ok s p l displays fuel :
  ptrail (recs s) p l → mapM (display_object_reference mem) (reverse l) = Some displays →
  (length l ≤ fuel)%nat →
  prints (display_reference_paths mem fuel p) s () (Char <$> concat displays).
Proof.
  revert p fuel displays. induction l as [|o l IH]; intros p fuel displays H Hd Hf.
  - simpl in H. subst p. injection Hd as <-. destruct fuel; apply prints_ret.
  - destruct H as (N & x & Hx & <- & _ & H). rewrite reverse_cons in Hd.
    apply mapM_Some, Forall2_app_inv_l in Hd as (d1 & d2 & H1 & H2 & ->).
    apply Forall2_cons_inv_l in H2 as (d & d' & Hd & H2 & ->).
    apply Forall2_nil_inv_l in H2 as ->. destruct fuel as [|fuel]; [simpl in Hf; lia|].
    cbn [display_reference_paths]. rewrite (proj2 (Z.eqb_neq p 0) N). cbn [negb].
    rewrite concat_app, fmap_app. simpl. rewrite app_nil_r. rewrite <- (app_nil_l (_ ++ _)).
    eapply prints_bind; [apply prints_read; by apply get_rec_ok|]. rewrite add_output_nil.
    eapply prints_bind; [apply IH; [done|by apply mapM_Some|simpl in Hf; lia]|].
    rewrite <- (app_nil_l (Char <$> d)). eapply prints_bind; [by apply prints_lift|].
    apply prints_print.
Qed.

(** ** The state of the search *)

Section search.
Context (targets : list Z).

(** Records of the root table: each of a rooted object, its parent link of the root. *)
Definition roots_ok (s : trails) (cs : buckets) : Prop :=
  ∀ q, member cs Root q → ∃ x y, recs s !! q = Some x ∧ recs s !! parent x = Some y ∧
    rooted_at (object y) (object x).

Definition has (s : trails) (cs : buckets) (t : obj_table) (o : Z) : Prop := ∃ q, holds s cs t q o.

(** Records with paths to targets of [n] references. *)
Definition trails_ok (s : trails) (cs : buckets) (t : obj_table) (n : nat) : Prop :=
  ∀ q, member cs t q → ∃ o l, ptrail (recs s) q (o :: l) ∧ path targets (o :: l) ∧ length l = n.

Record search (done cur : Z → Prop) (nc : nat) (child : Z → Prop) (nd : nat) (s : trails)
    (cs : buckets) : Prop := {
  se_tables : tables_ok s cs;
  se_roots : roots_ok s cs;
  se_rooted o : rooted o → has s cs Root o;
  se_done o : has s cs Processed o ↔ done o;
  se_cur o : has s cs Current o ↔ cur o;
  se_child o : has s cs Child o ↔ child o;
  se_cur_trails : trails_ok s cs Current nc;
  se_child_trails : trails_ok s cs Child nd
}.

Lemma search_iff done cur nc child nd done' cur' child' s cs :
  search done cur nc child nd s cs →
  (∀ o, done o ↔ done' o) → (∀ o, cur o ↔ cur' o) → (∀ o, child o ↔ child' o) →
  search done' cur' nc child' nd s cs.
Proof.
  intros [] H1 H2 H3. constructor; try done.
  - intros o. by rewrite <- H1.
  - intros o. by rewrite <- H2.
  - intros o. by rewrite <- H3.
Qed.

Lemma search_output done cur nc child nd s cs l :
  search done cur nc child nd s cs → search done cur nc child nd (add_output l s) cs.
Proof. intros []. constructor; try done. by apply tables_ok_output. Qed.

Lemma has_extends s cs s' cs' t o :
  tables_ok s cs → extends (recs s) (recs s') → (∀ q, member cs' t q ↔ member cs t q) →
  has s' cs' t o ↔ has s cs t o.
Proof.
  intros T E Hm. split; intros (q & Hq & x & Hx & Ho); exists q.
  - rewrite Hm in Hq. split; [done|]. destruct (member_rec s cs t q T Hq) as [y Hy].
    destruct (E q y Hy) as (z & Hz & _ & Eo). exists y. split; [done|]. congruence.
  - split; [by apply Hm|]. destruct (E q x Hx) as (z & Hz & _ & Eo). exists z. split; [done|]. congruence.
Qed.

Lemma roots_ok_extends s cs s' cs' :
  extends (recs s) (recs s') → (∀ q, member cs' Root q → member cs Root q) →
  roots_ok s cs → roots_ok s' cs'.
Proof.
  intros E Hm R q Hq. destruct (R q (Hm q Hq)) as (x & y & Hx & Hy & Hr).
  destruct (E q x Hx) as (x' & Hx' & Ep & Eo). destruct (E _ y Hy) as (y' & Hy' & _ & Eo').
  exists x', y'. rewrite Ep, Eo, Eo'. done.
Qed.

Lemma trails_ok_extends s cs s' cs' t t' n :
  extends (recs s) (recs s') → (∀ q, member cs' t' q → member cs t q) →
  trails_ok s cs t n → trails_ok s' cs' t' n.
Proof.
  intros E Hm R q Hq. destruct (R q (Hm q Hq)) as (o & l & Hp & Hl).
  exists o, l. split; [by eapply ptrail_extends|done].
Qed.

(** A new child *)
Lemma search_add_child done cur nc child nd s cs s' cs' q h pr par l :
  search done cur nc child nd s cs → tables_ok s' cs' →
  recs s !! q = None → 0 < q → recs s' = <[q := mkRec h pr par]> (recs s) → adds cs cs' Child q →
  ptrail (recs s) pr l → pr < q → path targets (par :: l) → length l = nd →
  search done cur nc (λ o, child o ∨ o = par) nd s' cs'.
Proof.
  intros S T' Hn Hq0 Hr Ha Hp Hlt Hpath Hlen.
  pose proof (se_tables _ _ _ _ _ _ _ S) as T.
  assert (extends (recs s) (recs s')) as E by (rewrite Hr; by apply extends_insert).
  assert (∀ t p, t ≠ Child → member cs' t p ↔ member cs t p) as Hm.
  { intros t p Ht. rewrite (Ha t p). tauto. }
  assert (recs s' !! q = Some (mkRec h pr par)) as Hx by (rewrite Hr; apply lookup_insert_eq).
  destruct S as [_ SR Sr Sd Sc Sch Sct Scht]. constructor; [done| | | | | | |].
  - eapply roots_ok_extends; [exact E| |exact SR]. intros p. by apply Hm.
  - intros o Ho. apply (has_extends s cs); [done|done|by intros; apply Hm|by apply Sr].
  - intros o. rewrite (has_extends s cs) by (done || (intros; by apply Hm)). apply Sd.
  - intros o. rewrite (has_extends s cs) by (done || (intros; by apply Hm)). apply Sc.
  - intros o. rewrite <- Sch. split.
    + intros (p & Hp' & x & Hx' & Ho). apply Ha in Hp' as [Hp'|[_ ->]].
      * left. exists p. split; [done|]. destruct (member_rec s cs Child p T Hp') as [y Hy].
        destruct (E p y Hy) as (z & Hz & _ & Eo). exists y. split; [done|]. congruence.
      * right. rewrite Hx in Hx'. by injection Hx' as <-.
    + intros [(p & Hp' & x & Hx' & Ho)|Heq].
      * exists p. split; [apply Ha; by left|]. destruct (E p x Hx') as (z & Hz & _ & Eo).
        exists z. split; [done|]. congruence.
      * subst o. exists q. split; [apply Ha; by right|]. by exists (mkRec h pr par).
  - eapply trails_ok_extends; [exact E| |exact Sct]. intros p. by apply Hm.
  - intros p Hp'. apply Ha in Hp' as [Hp'|[_ ->]].
    + destruct (Scht p Hp') as (o & k & Hk & Hk'). exists o, k. split; [by eapply ptrail_extends|done].
    + exists par, l. split; [|done]. split; [lia|]. exists (mkRec h pr par). simpl.
      split_and!; [done|done|done|by eapply ptrail_extends].
Qed.

(** ** The next generation *)

Lemma find_has s cs t o :
  tables_ok s cs →
  ∃ q, find_obj_in_table t o s = Some (q, s) ∧ (q = 0 ∧ ¬ has s cs t o ∨ q ≠ 0 ∧ holds s cs t q o).
Proof.
  intros T. destruct (find_obj_in_table_ok s cs t o T) as (q & E & H). exists q. split; [done|].
  destruct H as [[Hq H]|H]; [left|by right]. split; [done|]. intros [q' Hq']. by apply (H q').
Qed.

(** The parent is in the processed or the current set. *)
Definition known (done cur : Z → Prop) (o : Z) : Prop := done o ∨ cur o.

Lemma trace_reference_ok done cur child n s cs obj par size :
  search done cur n child (S n) s cs → par ∈ objects → obj ∈ refs par →
  ∃ b s' cs', trace_reference obj par size s = Some (b, s') ∧ output s' = output s ∧
    (b = true ∧ ¬ cur obj ∧ search done cur n child (S n) s' cs' ∨
     b = false ∧ cur obj ∧ known done cur par ∧ search done cur n child (S n) s' cs' ∨
     b = false ∧ cur obj ∧ ¬ known done cur par ∧
       search done cur n (λ o, child o ∨ o = par) (S n) s' cs').
Proof.
  intros S Hpar Href. pose proof (se_tables _ _ _ _ _ _ _ S) as T. unfold trace_reference.
  destruct (find_has s cs Current obj T) as (q & E & Hq).
  unfold object_in_current_set, object_in_processed_set. sstep E.
  destruct Hq as [[-> Hq]|[Nq Hq]]; cbn [negb Z.eqb].
  { exists true, s, cs. split; [done|]. split; [done|]. left. split; [done|]. split; [|done].
    by rewrite <- (se_cur _ _ _ _ _ _ _ S). }
  rewrite (proj2 (Z.eqb_neq q 0) Nq). cbn [negb].
  assert (cur obj) as Hcur by (apply (se_cur _ _ _ _ _ _ _ S); by exists q).
  destruct (find_has s cs Processed par T) as (p & E1 & Hp). sstep E1.
  destruct Hp as [[-> Hp]|[Np Hp]]; cbn [negb Z.eqb].
  2: { rewrite (proj2 (Z.eqb_neq p 0) Np). cbn [negb]. exists false, s, cs. split; [done|].
       split; [done|]. right; left. split_and!; [done|done| |done]. left.
       apply (se_done _ _ _ _ _ _ _ S). by exists p. }
  rewrite (se_done _ _ _ _ _ _ _ S) in Hp.
  destruct (find_has s cs Current par T) as (c & E2 & Hc). sstep E2.
  destruct Hc as [[-> Hc]|[Nc Hc]]; cbn [negb Z.eqb].
  2: { rewrite (proj2 (Z.eqb_neq c 0) Nc). cbn [negb]. exists false, s, cs. split; [done|].
       split; [done|]. right; left. split_and!; [done|done| |done]. right.
       apply (se_cur _ _ _ _ _ _ _ S). by exists c. }
  rewrite (se_cur _ _ _ _ _ _ _ S) in Hc. unfold new_obj_rec.
  destruct (add_new_to_table_ok s cs Child par T)
    as (k & s1 & cs1 & h & E3 & T1 & F1 & P1 & R1 & A1 & O1 & L1 & Lt1). sstep E3.
  assert (recs s1 !! k = Some (mkRec h 0 par)) as Hx by (rewrite R1; apply lookup_insert_eq).
  sstep (get_rec_ok _ _ _ Hx). sstep (set_rec_ok _ _ _ (mkRec h q par) Hx). simpl.
  eexists false, _, cs1. split; [done|]. split; [done|]. right; right.
  split; [done|]. split; [done|]. split; [by intros [?|?]|].
  destruct Hq as [Hq (x & Hqx & Ho)].
  destruct (se_cur_trails _ _ _ _ _ _ _ S q Hq) as (o & l & Hpt & Hpath & Hlen).
  assert (o = obj) as ->.
  { destruct Hpt as (_ & y & Hy & Hyo & _). congruence. }
  eapply (search_add_child done cur n child (Datatypes.S n) s cs _ cs1 k h q par (obj :: l)); try done.
  - apply tables_ok_recs; [done|]. by eapply same_links_insert.
  - simpl. rewrite R1. apply insert_insert_eq.
  - by eapply Lt1.
  - simpl. by rewrite Hlen.
Qed.

Lemma visit_references_ok done cur child n s cs par size l :
  search done cur n child (S n) s cs → par ∈ objects → (∀ o, o ∈ l → o ∈ refs par) →
  ∃ b s' cs', visit trace_reference par size l s = Some (b, s') ∧ output s' = output s ∧
    search done cur n
      (λ o, child o ∨ o = par ∧ (∃ o', o' ∈ l ∧ cur o') ∧ ¬ known done cur par) (S n) s' cs'.
Proof.
  revert s cs. induction l as [|obj l IH]; intros s cs S Hpar Hl.
  - exists true, s, cs. split; [done|]. split; [done|]. eapply search_iff; [exact S|done|done|].
    intros o. split; [by left|]. intros [?|(_ & (o' & Ho'%elem_of_nil & _) & _)]; done.
  - destruct (trace_reference_ok done cur child n s cs obj par size S Hpar)
      as (b & s1 & cs1 & E & O1 & H); [apply Hl; by left|]. cbn [visit]. rewrite E. simpl.
    destruct H as [(-> & Hc & S1)|[(-> & Hc & Hk & S1)|(-> & Hc & Hk & S1)]].
    + destruct (IH s1 cs1 S1 Hpar) as (b & s2 & cs2 & E2 & O2 & S2).
      { intros o Ho. apply Hl. by right. }
      rewrite E2. exists b, s2, cs2. split; [done|]. split; [congruence|].
      eapply search_iff; [exact S2|done|done|]. intros o. split.
      * intros [?|(-> & (o' & Ho' & Hc') & Hk)]; [by left|]. right. split; [done|]. split; [|done].
        exists o'. split; [by right|done].
      * intros [?|(-> & (o' & [->|Ho']%elem_of_cons & Hc') & Hk)]; [by left|done|].
        right. split; [done|]. split; [|done]. by exists o'.
    + exists false, s1, cs1. split; [done|]. split; [done|]. eapply search_iff; [exact S1|done|done|].
      intros o. split; [by left|]. intros [?|(_ & _ & Hk')]; done.
    + exists false, s1, cs1. split; [done|]. split; [done|]. eapply search_iff; [exact S1|done|done|].
      intros o. split; [|tauto]. intros [?|?]; [by left|]. right. split; [done|]. split; [|done].
      exists obj. split; [by left|done].
Qed.

(** The references of every object can be read. *)
Context (Hrefs : ∀ o, o ∈ objects → is_Some (references mem o)).

Lemma look_for_reference_ok done cur child n s cs par :
  search done cur n child (S n) s cs → par ∈ objects →
  ∃ s' cs', look_for_reference mem par s = Some ((), s') ∧ output s' = output s ∧
    search done cur n
      (λ o, child o ∨ o = par ∧ (∃ o', o' ∈ refs par ∧ cur o') ∧ ¬ known done cur par) (S n) s' cs'.
Proof.
  intros S Hpar. destruct (Hrefs par Hpar) as [[size l] Hl]. unfold look_for_reference.
  assert (refs par = l) as Er by (unfold refs; by rewrite Hl).
  destruct (visit_references_ok done cur child n s cs par size l S Hpar)
    as (b & s' & cs' & E & O & S'); [by rewrite Er|].
  exists s', cs'. rewrite Er. split; [|done]. unfold mbind, St_bind.
  rewrite (trace_object_visit _ _ _ _ _ _ Hl), E. done.
Qed.

(** The children are the parents of the current objects that are not known. *)
Lemma process_generation_ok done cur n s cs :
  search done cur n (λ _, False) (S n) s cs →
  ∃ s' cs', process_generation mem objects s = Some ((), s') ∧ output s' = output s ∧
    search done cur n
      (λ o, o ∈ objects ∧ (∃ o', o' ∈ refs o ∧ cur o') ∧ ¬ known done cur o) (S n) s' cs'.
Proof.
  intros S. unfold process_generation.
  assert (∀ l child s cs, (∀ o, o ∈ l → o ∈ objects) → search done cur n child (Datatypes.S n) s cs →
    ∃ s' cs', for_each l (look_for_reference mem) s = Some ((), s') ∧ output s' = output s ∧
      search done cur n (λ o, child o ∨ o ∈ l ∧ (∃ o', o' ∈ refs o ∧ cur o') ∧ ¬ known done cur o)
        (Datatypes.S n) s' cs') as H.
  { clear S s cs. induction l as [|par l IH]; intros child s cs Hl S.
    - exists s, cs. split; [done|]. split; [done|]. eapply search_iff; [exact S|done|done|].
      intros o. split; [by left|]. intros [?|(Ho%elem_of_nil & _)]; done.
    - destruct (look_for_reference_ok done cur child n s cs par S) as (s1 & cs1 & E1 & O1 & S1).
      { apply Hl. by left. }
      destruct (IH _ s1 cs1 (λ o Ho, Hl o (proj2 (elem_of_cons _ _ _) (or_intror Ho))) S1)
        as (s2 & cs2 & E2 & O2 & S2).
      exists s2, cs2. cbn [for_each]. sstep E1. split; [done|]. split; [congruence|].
      eapply search_iff; [exact S2|done|done|]. intros o. rewrite elem_of_cons. split.
      + intros [[?|(-> & ? & ?)]|(? & ? & ?)]; auto.
      + intros [?|([->|?] & ? & ?)]; auto. }
  destruct (H objects (λ _, False) s cs (λ o Ho, Ho) S) as (s' & cs' & E & O & S').
  exists s', cs'. split; [done|]. split; [done|]. eapply search_iff; [exact S'|done|done|].
  intros o. split; [intros [[]|?]; done|by right].
Qed.

(** The current set joins the processed one, and the children become current. *)
Lemma advance_generation_ok done cur nc child nd s cs :
  search done cur nc child nd s cs →
  ∃ s' cs', advance_generation s = Some ((), s') ∧ output s' = output s ∧
    search (known done cur) child nd (λ _, False) (S nd) s' cs'.
Proof.
  intros S. pose proof (se_tables _ _ _ _ _ _ _ S) as T. unfold advance_generation.
  destruct (merge_tables_ok s cs Processed Current T) as (s1 & cs1 & E1 & T1 & M1 & X1 & O1); [done|].
  destruct (merge_tables_ok s1 cs1 Current Child T1) as (s2 & cs2 & E2 & T2 & M2 & X2 & O2); [done|].
  sstep E1. rewrite E2. exists s2, cs2. split; [done|]. split; [congruence|].
  assert (extends (recs s) (recs s2)) as X.
  { apply same_objects_extends. by eapply same_objects_trans. }
  assert (∀ q, member cs2 Root q ↔ member cs Root q) as MR.
  { intros q. rewrite M2, M1. split; [|naive_solver]. naive_solver. }
  assert (∀ q, member cs2 Processed q ↔ member cs Processed q ∨ member cs Current q) as MP.
  { intros q. rewrite M2, M1. split; naive_solver. }
  assert (∀ q, member cs2 Current q ↔ member cs Child q) as MC.
  { intros q. rewrite M2, !M1. split; naive_solver. }
  assert (∀ q, ¬ member cs2 Child q) as MD.
  { intros q. rewrite M2. naive_solver. }
  destruct S as [_ SR Sr Sd Sc Sch Sct Scht]. constructor; [done| | | | | | |].
  - eapply roots_ok_extends; [exact X| |exact SR]. intros q. by apply MR.
  - intros o Ho. apply (has_extends s cs); auto.
  - intros o. unfold known. rewrite <- Sd, <- Sc. split.
    + intros (q & Hq & y & Hy & Ho). apply MP in Hq as [Hq|Hq]; [left|right]; exists q;
        (split; [done|]); destruct (member_rec s cs _ q T Hq) as [x Hx]; exists x;
        destruct (X q x Hx) as (z & Hz & _ & Eo); split; congruence.
    + intros [(q & Hq & x & Hx & Ho)|(q & Hq & x & Hx & Ho)]; exists q; (split; [apply MP; auto|]);
        destruct (X q x Hx) as (z & Hz & _ & Eo); exists z; split; congruence.
  - intros o. rewrite <- Sch. split.
    + intros (q & Hq & y & Hy & Ho). apply MC in Hq. exists q. split; [done|].
      destruct (member_rec s cs _ q T Hq) as [x Hx]. exists x.
      destruct (X q x Hx) as (z & Hz & _ & Eo). split; congruence.
    + intros (q & Hq & x & Hx & Ho). exists q. split; [by apply MC|].
      destruct (X q x Hx) as (z & Hz & _ & Eo). exists z. split; congruence.
  - intros o. split; [|done]. intros (q & Hq & _). by destruct (MD q).
  - eapply trails_ok_extends; [exact X| |exact Scht]. intros q. by apply MC.
  - intros q Hq. by destruct (MD q).
Qed.

(** ** The reports *)

(** What is printed of an object is mapped. *)
Context (Hdisplay : ∀ o, o ∈ targets ∨ o ∈ objects → is_Some (display_object_reference mem o)).

Lemma path_objects l : path targets l → ∀ o, o ∈ l → o ∈ targets ∨ o ∈ objects.
Proof.
  induction l as [|o [|o' l] IH]; intros H o1 Ho; [done| |].
  - apply list_elem_of_singleton in Ho as ->. by left.
  - destruct H as (Hobj & _ & H). apply elem_of_cons in Ho as [->|Ho]; [by right|by apply IH].
Qed.

Lemma trail_displays l :
  path targets l → is_Some (mapM (display_object_reference mem) (reverse l)).
Proof.
  intros H. apply mapM_is_Some, Forall_forall. intros o Ho.
  apply Hdisplay, (path_objects l H). by rewrite <- (reverse_involutive l); apply elem_of_reverse.
Qed.

(** The trail of a record is displayed on a path of [n] references. *)
Definition shown (n : nat) (l : list out) : Prop :=
  ∃ a o k t, rooted_at a o ∧ path targets (o :: k) ∧ length k = n ∧ trail_text a (o :: k) = Some t ∧
    contains l t.

Lemma contains_app_l l k t : contains l t → contains (l ++ k) t.
Proof. intros (a & b & ->). exists a, (b ++ k). by rewrite <- !app_assoc. Qed.

Lemma contains_app_r l k t : contains l t → contains (k ++ l) t.
Proof. intros (a & b & ->). exists (k ++ a), b. by rewrite <- !app_assoc. Qed.

Lemma contains_self t : contains t t.
Proof. exists [], []. by rewrite app_nil_r. Qed.

Lemma shown_app_l n l k : shown n l → shown n (l ++ k).
Proof. intros (a & o & l' & t & ? & ? & ? & ? & ?). exists a, o, l', t. split_and!; auto using contains_app_l. Qed.

Lemma shown_app_r n l k : shown n l → shown n (k ++ l).
Proof. intros (a & o & l' & t & ? & ? & ? & ? & ?). exists a, o, l', t. split_and!; auto using contains_app_r. Qed.

Lemma prints_eq {A} (m : St trails A) s a l k : prints m s a l → l = k → prints m s a k.
Proof. by intros H <-. Qed.

Lemma chain_fuel_prints s : prints chain_fuel s (S (size (recs s))) [].
Proof. by apply prints_read. Qed.

Lemma display_paths_prints s p l displays :
  ptrail (recs s) p l → mapM (display_object_reference mem) (reverse l) = Some displays →
  prints (fuel ← chain_fuel; display_reference_paths mem fuel p) s () (Char <$> concat displays).
Proof.
  intros Hp Hd. eapply prints_eq; [eapply prints_bind; [apply chain_fuel_prints|]|done].
  eapply display_reference_paths_ok; [done|done|]. pose proof (ptrail_length _ _ _ Hp). simpl. lia.
Qed.

Lemma display_trail_details_ok s p root l x y :
  ptrail (recs s) p l → path targets l → recs s !! root = Some x → recs s !! parent x = Some y →
  ∃ t, trail_text (object y) l = Some t ∧ prints (display_trail_details mem p root) s () t.
Proof.
  intros Hp Hpath Hx Hy. destruct (trail_displays l Hpath) as [d Hd]. unfold trail_text.
  rewrite Hd. cbn [mbind option_bind]. eexists. split; [done|]. unfold display_trail_details.
  eapply prints_eq.
  { eapply prints_bind; [apply prints_print|]. eapply prints_bind; [apply prints_print|].
    eapply prints_bind; [apply prints_print|].
    eapply prints_bind; [by eapply display_paths_prints|].
    eapply prints_bind; [apply prints_print|].
    eapply prints_bind; [apply prints_read; by apply (get_rec_ok _ root x)|].
    eapply prints_bind; [apply prints_read; by apply (get_rec_ok _ (parent x) y)|].
    eapply prints_bind; [apply prints_print|]. eapply prints_bind; [apply prints_print|].
    eapply prints_bind; [apply prints_print|]. apply prints_print. }
  rewrite !fmap_app, !app_nil_l. done.
Qed.

(** [m] prints something, its answer and what it prints in [Q]. *)
Definition runs {A} (m : St trails A) (s : trails) (Q : A → list out → Prop) : Prop :=
  ∃ a l, prints m s a l ∧ Q a l.

Lemma runs_bind {A B} (m : St trails A) (f : A → St trails B) s Q :
  runs m s (λ a l, runs (f a) (add_output l s) (λ b k, Q b (l ++ k))) → runs (m ≫= f) s Q.
Proof.
  intros (a & l & E & b & k & E' & HQ). exists b, (l ++ k). split; [by eapply prints_bind|done].
Qed.

Lemma runs_mono {A} (m : St trails A) s (Q Q' : A → list out → Prop) :
  runs m s Q → (∀ a l, Q a l → Q' a l) → runs m s Q'.
Proof. intros (a & l & E & HQ) H. exists a, l. auto. Qed.

Lemma runs_prints {A} (m : St trails A) s a l (Q : A → list out → Prop) :
  prints m s a l → Q a l → runs m s Q.
Proof. intros. by exists a, l. Qed.

Lemma runs_ret {A} (a : A) s (Q : A → list out → Prop) : Q a [] → runs (mret a) s Q.
Proof. intros. exists a, []. split; [apply prints_ret|done]. Qed.

Lemma runs_reports {A} (m : St trails A) s a (Q : A → list out → Prop) :
  reports m s a → (∀ l, Q a l) → runs m s Q.
Proof. intros [l E] H. by exists a, l. Qed.

Lemma runs_read {A} (m : St trails A) s a (Q : A → list out → Prop) :
  m s = Some (a, s) → (runs (mret a) s Q) → runs m s Q.
Proof. intros E (b & l & E' & H). exists b, l. split; [|done]. unfold prints in *. by rewrite E. Qed.

Lemma display_object_reports s o :
  is_Some (display_object_reference mem o) →
  reports (l ← lift_st (display_object_reference mem o); print l) s ().
Proof. intros [d Hd]. eexists. eapply prints_bind; [by apply prints_lift|apply prints_print]. Qed.

Lemma display_generation_chain_ok s fuel p l count :
  chain (recs s) p l → (length l ≤ fuel)%nat →
  (∀ q x, q ∈ l → recs s !! q = Some x → is_Some (display_object_reference mem (object x))) →
  runs (display_generation_chain mem lim address fuel p count) s (λ _ _, True).
Proof.
  revert s p fuel count. induction l as [|q l IH]; intros s p fuel count H Hf Hd; simpl in H.
  - subst. destruct fuel; by apply runs_ret.
  - destruct H as (-> & Hn & x & Hx & H). destruct fuel as [|fuel]; [simpl in Hf; lia|].
    cbn [display_generation_chain]. rewrite (proj2 (Z.eqb_neq q 0) Hn).
    destruct (object_report_limit lim <? count + 1).
    { eapply runs_reports; [by reporting|done]. }
    apply runs_bind, (runs_read _ _ x); [by apply get_rec_ok|]. apply runs_ret. rewrite add_output_nil.
    apply runs_bind. eapply runs_reports; [apply display_object_reports; eapply Hd; [by left|done]|].
    intros d. apply IH; [done|simpl in Hf; lia|]. intros q' y Hq'. apply Hd. by right.
Qed.

Lemma member_display s cs t n q x :
  trails_ok s cs t n → member cs t q → recs s !! q = Some x →
  is_Some (display_object_reference mem (object x)).
Proof.
  intros T Hq Hx. destruct (T q Hq) as (o & l & (_ & y & Hy & Ho & _) & Hp & _).
  apply Hdisplay. rewrite Hx in Hy. injection Hy as <-. subst o. eapply path_objects; [done|by left].
Qed.

Lemma get_head_reads s cs t i :
  tables_ok s cs → 0 <= i < TABLE_SIZE →
  ∃ p, get_head t i s = Some (p, s) ∧ chain (recs s) p (cs t (Z.to_nat i)) ∧
    (length (cs t (Z.to_nat i)) ≤ S (size (recs s)))%nat.
Proof.
  intros T Hi. destruct (get_head_ok s cs t i T Hi) as (p & E & _ & Hc). exists p.
  split; [done|]. split; [done|]. pose proof (chain_fuel_enough _ _ _ Hc (tk_nodup s cs T _ _)). lia.
Qed.

Lemma display_generation_loop_ok s cs t k i n count :
  tables_ok s cs → trails_ok s cs t k → 0 <= i → i + Z.of_nat n <= TABLE_SIZE →
  reports (display_generation_loop mem lim address t i n count) s ().
Proof.
  intros T TO. revert s i count T TO. induction n as [|n IH]; intros s i count T TO Hi Hn.
  - apply reports_ret.
  - cbn [display_generation_loop]. destruct (get_head_reads s cs t i T ltac:(lia)) as (p & E & Hc & Hl).
    eapply reports_bind; [by apply reports_read|]. intros l1.
    eapply reports_bind; [by apply reports_read|]. intros l2.
    destruct (display_generation_chain_ok (add_output l2 (add_output l1 s)) (S (size (recs s))) p _ count Hc Hl)
      as (a & l & E' & _).
    { intros q x Hq. eapply member_display; [exact TO|by eexists]. }
    eapply reports_bind; [by exists l|]. intros l3.
    destruct a as [a|]; [|apply reports_ret]. apply IH; [|done|lia|lia]. by repeat apply tables_ok_output.
Qed.

Lemma display_generation_details_ok s cs t k gennum gensize :
  tables_ok s cs → trails_ok s cs t k →
  reports (display_generation_details mem lim address gennum gensize t) s ().
Proof.
  intros T TO. unfold display_generation_details.
  reporting. eapply display_generation_loop_ok; [by repeat apply tables_ok_output|exact TO|lia|].
  unfold TABLE_SIZE. lia.
Qed.

(** *** Trails from roots *)

Lemma search_root done cur nc child nd s cs o :
  search done cur nc child nd s cs → has s cs Root o ↔ rooted o.
Proof.
  intros S. split; [|apply (se_rooted _ _ _ _ _ _ _ S)].
  intros (q & Hq & x & Hx & <-). destruct (se_roots _ _ _ _ _ _ _ S q Hq) as (x' & y & Hx' & _ & Hr).
  exists (object y). rewrite Hx in Hx'. by injection Hx' as ->.
Qed.

Definition none_rooted (s : trails) (l : list Z) : Prop :=
  ∀ q x, q ∈ l → recs s !! q = Some x → ¬ rooted (object x).

Lemma none_rooted_cons s q x l :
  recs s !! q = Some x → none_rooted s (q :: l) ↔ ¬ rooted (object x) ∧ none_rooted s l.
Proof.
  intros Hx. split.
  - intros H. split; [apply (H q x); [by left|done]|]. intros q' y Hq'. apply H. by right.
  - intros [H1 H2] q' y [->|Hq']%elem_of_cons Hy; [congruence|by apply (H2 q')].
Qed.

Definition roots_shown (n : nat) (none : Prop) (rootnum k : Z) (l : list out) : Prop :=
  rootnum <= k ∧ (k = rootnum ↔ none) ∧ (rootnum = 0 → 0 < k → 1 < trail_limit lim → shown n l).

Lemma roots_shown_seq n P1 P2 r1 r2 r3 l1 l2 :
  0 <= r1 → roots_shown n P1 r1 r2 l1 → roots_shown n P2 r2 r3 l2 →
  roots_shown n (P1 ∧ P2) r1 r3 (l1 ++ l2).
Proof.
  intros Hr (H1 & N1 & S1) (H2 & N2 & S2). split; [lia|]. split.
  - rewrite <- N1, <- N2. lia.
  - intros E Hk Ht. destruct (Z.eq_dec r2 0) as [->|].
    + apply shown_app_r. by apply S2.
    + apply shown_app_l. apply S1; [done|lia|done].
Qed.

Lemma roots_shown_iff n P1 P2 r k l :
  (P1 ↔ P2) → roots_shown n P1 r k l → roots_shown n P2 r k l.
Proof. intros E (H1 & H2 & H3). split; [done|]. split; [by rewrite <- E|done]. Qed.

(** One record of the current set *)
Definition display_root (p : Z) (r : obj_rec) (rootnum : Z) : St trails Z :=
  refrec ← object_in_roots (object r);
  if negb (refrec =? 0) then
    let rootnum := rootnum + 1 in
    (if trail_limit lim =? rootnum then
       display_trail_limit_addresses address rootnum ;;
       report_break ("Set the trail limit to show more if required" ++ newline)
     else mret ()) ;;
    (if rootnum <? trail_limit lim then display_trail_details mem p refrec else mret ()) ;;
    mret rootnum
  else mret rootnum.

Lemma display_root_ok done cur n child nd s cs p x rootnum :
  search done cur n child nd s cs → member cs Current p → recs s !! p = Some x → 0 <= rootnum →
  runs (display_root p x rootnum) s (roots_shown n (¬ rooted (object x)) rootnum).
Proof.
  intros S Hp Hx Hr. unfold display_root, object_in_roots.
  destruct (find_has s cs Root (object x) (se_tables _ _ _ _ _ _ _ S)) as (q & E & Hq).
  apply runs_bind, (runs_read _ _ q); [done|]. apply runs_ret. rewrite add_output_nil.
  destruct Hq as [[-> Hq]|[Nq Hq]].
  { rewrite (search_root _ _ _ _ _ _ _ _ S) in Hq. cbn [negb Z.eqb]. apply runs_ret.
    split; [lia|]. split; [done|]. lia. }
  rewrite (proj2 (Z.eqb_neq q 0) Nq). cbn [negb].
  assert (rooted (object x)) as Hro by (rewrite <- (search_root _ _ _ _ _ _ _ _ S); by exists q).
  apply runs_bind. apply (runs_reports _ _ ()).
  { destruct (trail_limit lim =? rootnum + 1); [|apply reports_ret].
    unfold display_trail_limit_addresses. eapply (reports_bind _ _ _ ()); [|intros; apply reports_break].
    by reporting. }
  intros l1. apply runs_bind. destruct (Z.ltb_spec (rootnum + 1) (trail_limit lim)) as [Hlt|Hge].
  - destruct Hq as [Hq (z & Hz & Ho)].
    destruct (se_roots _ _ _ _ _ _ _ S q Hq) as (z' & y & Hz' & Hy & Hat).
    rewrite Hz in Hz'. injection Hz' as <-. rewrite Ho in Hat.
    destruct (se_cur_trails _ _ _ _ _ _ _ S p Hp) as (o & k & Hpt & Hpath & Hlen).
    assert (o = object x) as -> by (destruct Hpt as (_ & w & Hw & Hwo & _); congruence).
    destruct (display_trail_details_ok (add_output l1 s) p q (object x :: k) z y Hpt Hpath Hz Hy)
      as (t & Ht & Et).
    eapply runs_prints; [exact Et|]. apply runs_ret. split; [lia|]. split; [split; [lia|done]|].
    intros _ _ _. exists (object y), (object x), k, t. split_and!; try done.
    apply contains_app_r, contains_app_r, contains_app_l, contains_self.
  - apply runs_ret, runs_ret. split; [lia|]. split; [split; [lia|done]|]. lia.
Qed.

Lemma display_roots_chain_ok done cur n child nd s cs fuel p l rootnum :
  search done cur n child nd s cs → chain (recs s) p l → (length l ≤ fuel)%nat →
  (∀ q, q ∈ l → member cs Current q) → 0 <= rootnum →
  runs (display_roots_chain mem lim address fuel p rootnum) s
    (roots_shown n (none_rooted s l) rootnum).
Proof.
  revert s p fuel rootnum. induction l as [|q l IH]; intros s p fuel rootnum S H Hf Hm Hr; simpl in H.
  - subst. assert (none_rooted s []) by (intros q x Hq%elem_of_nil; done).
    destruct fuel; apply runs_ret; (split; [lia|]; split; [done|]; lia).
  - destruct H as (-> & Hn & x & Hx & H). destruct fuel as [|fuel]; [simpl in Hf; lia|].
    cbn [display_roots_chain]. rewrite (proj2 (Z.eqb_neq q 0) Hn).
    apply runs_bind, (runs_read _ _ x); [by apply get_rec_ok|]. apply runs_ret. rewrite add_output_nil.
    enough (runs (rootnum ← display_root q x rootnum;
      display_roots_chain mem lim address fuel (next x) rootnum) s
      (roots_shown n (none_rooted s (q :: l)) rootnum)) as Hruns.
    { destruct Hruns as (a & o & E & HQ). exists a, o. split; [|done]. unfold prints in *. rewrite <- E.
      unfold display_root. by rewrite St_bind_assoc. }
    apply runs_bind. eapply runs_mono; [apply (display_root_ok _ _ _ _ _ _ _ q x rootnum S); [apply Hm; by left|done|done]|].
    intros k o1 H1. eapply runs_mono; [apply IH; [by apply search_output|done|simpl in Hf; lia| |]|].
    + intros q' Hq'. apply Hm. by right.
    + destruct H1 as [H1 _]. lia.
    + intros k' o2 H2. eapply roots_shown_iff; [|exact (roots_shown_seq _ _ _ _ _ _ _ _ Hr H1 H2)].
      symmetry. exact (none_rooted_cons s q x l Hx).
Qed.

Lemma display_roots_loop_ok done cur n child nd s cs (i k : nat) rootnum :
  search done cur n child nd s cs → (i + k ≤ tsize)%nat → 0 <= rootnum →
  runs (display_roots_loop mem lim address (Z.of_nat i) k rootnum) s
    (roots_shown n (∀ j, (i ≤ j < i + k)%nat → none_rooted s (cs Current j)) rootnum).
Proof.
  revert s i rootnum. induction k as [|k IH]; intros s i rootnum S Hi Hr.
  - apply runs_ret. split; [lia|]. split; [split; [intros _ j Hj; lia|done]|lia].
  - cbn [display_roots_loop].
    destruct (get_head_reads s cs Current (Z.of_nat i) (se_tables _ _ _ _ _ _ _ S)) as (p & E & Hc & Hl); [lia|].
    rewrite Nat2Z.id in Hc, Hl.
    apply runs_bind, (runs_read _ _ p); [done|]. apply runs_ret. rewrite add_output_nil.
    apply runs_bind, (runs_read _ _ _ _ (chain_fuel_ok s)), runs_ret. rewrite add_output_nil.
    apply runs_bind. eapply runs_mono; [eapply display_roots_chain_ok; [done..| |done]|].
    { intros q Hq. by eexists. }
    intros r o1 H1. replace (Z.of_nat i + 1) with (Z.of_nat (Datatypes.S i)) by lia.
    eapply runs_mono; [apply IH; [by apply search_output|lia|destruct H1 as [H1 _]; lia]|].
    intros r' o2 H2. eapply roots_shown_iff; [|exact (roots_shown_seq _ _ _ _ _ _ _ _ Hr H1 H2)].
    split.
    + intros [Ha Hb] j Hj. destruct (decide (j = i)) as [->|]; [done|apply Hb; lia].
    + intros Ha. split; [apply Ha; lia|]. intros j Hj. apply Ha. lia.
Qed.

Lemma display_roots_ok done cur n child nd s cs :
  search done cur n child nd s cs →
  runs (display_roots_in_current_set mem lim address) s
    (roots_shown n (∀ o, cur o → ¬ rooted o) 0).
Proof.
  intros S. unfold display_roots_in_current_set.
  eapply runs_mono; [apply (display_roots_loop_ok _ _ n _ _ _ cs 0 tsize 0 S); lia|].
  intros k l H. eapply roots_shown_iff; [|exact H]. split.
  - intros Hall o Ho Hro. apply (se_cur _ _ _ _ _ _ _ S) in Ho as (q & [j Hq] & x & Hx & <-).
    destruct (decide (j < tsize)%nat).
    + by apply (Hall j ltac:(lia) q x Hq Hx).
    + rewrite (tk_range s cs (se_tables _ _ _ _ _ _ _ S)) in Hq by lia. by apply elem_of_nil in Hq.
  - intros Hall j Hj q x Hq Hx. apply Hall, (se_cur _ _ _ _ _ _ _ S). exists q.
    split; [by exists j|]. by exists x.
Qed.

(** *** Cold trails *)

Lemma display_cold_trail_details_ok s cs n q :
  trails_ok s cs Current n → member cs Current q →
  reports (display_cold_trail_details mem q) s ().
Proof.
  intros TO Hq. destruct (TO q Hq) as (o & k & Hp & Hpath & _).
  destruct (trail_displays _ Hpath) as [d Hd]. unfold display_cold_trail_details.
  eapply (reports_bind _ _ _ ()); [apply reports_print|intros l1].
  eapply (reports_bind _ _ _ ()); [apply reports_print|intros l2].
  eapply (reports_bind _ _ _ ()); [apply reports_print|intros l3].
  eapply (reports_bind _ _ _ ()); [eexists; by eapply display_paths_prints|intros l4].
  by reporting.
Qed.

Lemma display_cold_chain_ok s cs n fuel p l reported :
  trails_ok s cs Current n → chain (recs s) p l → (length l ≤ fuel)%nat →
  (∀ q, q ∈ l → member cs Current q) →
  runs (display_cold_chain mem lim address fuel p reported) s (λ _ _, True).
Proof.
  revert s p fuel reported. induction l as [|q l IH]; intros s p fuel reported TO H Hf Hm; simpl in H.
  - subst. destruct fuel; by apply runs_ret.
  - destruct H as (-> & Hn & x & Hx & H). destruct fuel as [|fuel]; [simpl in Hf; lia|].
    cbn [display_cold_chain]. rewrite (proj2 (Z.eqb_neq q 0) Hn).
    apply runs_bind, (runs_reports _ _ ()).
    { destruct (cold_trail_limit lim =? reported); [|apply reports_ret].
      eapply (reports_bind _ _ _ ()); [|intros; apply reports_break].
      unfold display_cold_trail_limit_addresses. by reporting. }
    intros l1. apply runs_bind, (runs_reports _ _ ()).
    { destruct (reported <? cold_trail_limit lim); [|apply reports_ret].
      eapply display_cold_trail_details_ok; [exact TO|]. apply Hm. by left. }
    intros l2. apply runs_bind, (runs_read _ _ x); [by apply get_rec_ok|]. apply runs_ret.
    apply IH; [exact TO|done|simpl in Hf; lia|]. intros q' Hq'. apply Hm. by right.
Qed.

Lemma display_cold_loop_ok s cs n i k reported :
  tables_ok s cs → trails_ok s cs Current n → 0 <= i → i + Z.of_nat k <= TABLE_SIZE →
  runs (display_cold_loop mem lim address i k reported) s (λ _ _, True).
Proof.
  revert s i reported. induction k as [|k IH]; intros s i reported T TO Hi Hk.
  - by apply runs_ret.
  - cbn [display_cold_loop]. destruct (get_head_reads s cs Current i T ltac:(lia)) as (p & E & Hc & Hl).
    apply runs_bind, (runs_read _ _ p); [done|]. apply runs_ret. rewrite add_output_nil.
    apply runs_bind, (runs_read _ _ _ _ (chain_fuel_ok s)), runs_ret. rewrite add_output_nil.
    apply runs_bind. eapply runs_mono; [eapply display_cold_chain_ok; [exact TO|done|done|]|].
    { intros q Hq. by eexists. }
    intros r o1 _. apply IH; [by apply tables_ok_output|exact TO|lia|lia].
Qed.

Lemma display_cold_trail_ok done cur n child nd s cs :
  search done cur n child nd s cs →
  runs (display_cold_trail mem lim address) s (λ _ l, (∃ o, cur o) → contains l failure_text).
Proof.
  intros S. pose proof (se_tables _ _ _ _ _ _ _ S) as T. unfold display_cold_trail.
  destruct (size_of_table_ok s cs Current T) as (k & E & Hk & Hz).
  apply runs_bind, (runs_read _ _ k); [done|]. apply runs_ret. rewrite add_output_nil.
  destruct (Z.ltb_spec 0 k) as [Hlt|Hle].
  - apply runs_bind. unfold display_cold_trail_intro.
    apply runs_bind. eapply runs_prints; [apply prints_print|].
    apply runs_bind. eapply runs_prints; [apply prints_print|].
    apply runs_bind. eapply runs_prints; [apply prints_print|].
    apply (runs_reports _ _ ()); [by reporting|]. intros l.
    eapply runs_mono; [eapply (display_cold_loop_ok _ cs n)|].
    + by repeat apply tables_ok_output.
    + apply (se_cur_trails _ _ _ _ _ _ _ S).
    + lia.
    + unfold TABLE_SIZE. lia.
    + intros [] l' _ _. rewrite !(assoc_L (++)). apply contains_app_l, contains_app_l.
      rewrite <- !(assoc_L (++)). apply contains_app_r, contains_app_r.
      unfold failure_text. rewrite fmap_app. apply contains_self.
  - apply runs_ret. intros (o & (q & Hq & _)%(se_cur _ _ _ _ _ _ _ S)). exfalso.
    by apply (proj1 Hz ltac:(lia) q).
Qed.

(** ** The search *)

(** Generation [n] is about to be displayed and made current. *)
Definition at_generation (n : nat) (s : trails) (cs : buckets) : Prop :=
  ∃ done cur nc, search done cur nc (shortest targets n) n s cs ∧
    (∀ o, known done cur o ↔ ∃ k, (k < n)%nat ∧ shortest targets k o) ∧
    ((0 < n)%nat → ∃ o, cur o).

Lemma next_generation n o :
  o ∈ objects ∧ (∃ o', o' ∈ refs o ∧ shortest targets n o') ∧
    ¬ known (λ o, ∃ k, (k < n)%nat ∧ shortest targets k o) (shortest targets n) o ↔
  shortest targets (S n) o.
Proof.
  rewrite shortest_S.
  assert (known (λ o, ∃ k, (k < n)%nat ∧ shortest targets k o) (shortest targets n) o ↔
    ∃ k, (k ≤ n)%nat ∧ shortest targets k o) as ->; [|done].
  unfold known. split.
  - intros [(k & Hk & Hs)|Hs]; [exists k; split; [lia|done]|by exists n].
  - intros (k & Hk & Hs). destruct (decide (k = n)) as [->|]; [by right|]. left. exists k.
    split; [lia|done].
Qed.

(** What the search prints from generation [n] on. *)
Definition searched (n : nat) (l : list out) : Prop :=
  (∀ m o, (n ≤ m)%nat → shortest targets m o → rooted o →
     (∀ k o', (n ≤ k < m)%nat → shortest targets k o' → ¬ rooted o') →
     1 < trail_limit lim → shown m l) ∧
  ((n = 0%nat → ∃ o, shortest targets 0 o) →
   (∀ m o, (n ≤ m)%nat → depth_limit lim <= Z.of_nat m → shortest targets m o → ¬ rooted o) →
   contains l failure_text).

Lemma at_generation_S done cur child n s cs :
  search done cur n child (S n) s cs →
  (∀ o, done o ↔ ∃ k, (k < n)%nat ∧ shortest targets k o) → (∀ o, cur o ↔ shortest targets n o) →
  (∀ o, child o ↔ shortest targets (S n) o) → (∃ o, shortest targets n o) →
  at_generation (S n) s cs.
Proof.
  intros S Hd Hc Hch [o Ho]. exists done, cur, n. split; [by eapply search_iff|]. split.
  - intros o'. unfold known. rewrite Hd, Hc. split.
    + intros [(k & Hk & Hs)|Hs]; [exists k; split; [lia|done]|exists n; split; [lia|done]].
    + intros (k & Hk & Hs). destruct (decide (k = n)) as [->|]; [by right|]. left. exists k.
      split; [lia|done].
  - intros _. exists o. by apply Hc.
Qed.

Lemma St_bind_seq {X A} (m n : St X ()) (r : St X Z) (f : Z → St X A) s :
  ((m ;; n ;; r) ≫= f) s = (m ;; n ;; r ≫= f) s.
Proof.
  unfold mbind, St_bind. destruct (m s) as [[[] s1]|]; simpl; [|done].
  by destruct (n s1) as [[[] s2]|].
Qed.

(** A generation displayed, made current and looked through for roots *)
Definition generation_shown (n : nat) (gensize : Z) : St trails Z :=
  display_generation_details mem lim address (Z.of_nat n) gensize Child ;;
  advance_generation ;;
  display_roots_in_current_set mem lim address.

Lemma generation_shown_ok n s cs gensize :
  at_generation n s cs →
  ∃ k s' cs' l, generation_shown n gensize s = Some (k, s') ∧ output s' = output s ++ l ∧
    search (λ o, ∃ k, (k < n)%nat ∧ shortest targets k o) (shortest targets n) n
      (λ _, False) (S n) s' cs' ∧
    roots_shown n (∀ o, shortest targets n o → ¬ rooted o) 0 k l.
Proof.
  intros (done & cur & nc & S & Hknown & _). pose proof (se_tables _ _ _ _ _ _ _ S) as T.
  unfold generation_shown.
  destruct (display_generation_details_ok s cs Child n (Z.of_nat n) gensize T
    (se_child_trails _ _ _ _ _ _ _ S)) as [l1 E1].
  sstep E1.
  destruct (advance_generation_ok _ _ _ _ _ _ _ (search_output _ _ _ _ _ _ _ l1 S))
    as (s2 & cs2 & E2 & O2 & S2). sstep E2.
  destruct (display_roots_ok _ _ _ _ _ _ _ S2) as (k & l & E3 & H). rewrite E3.
  eexists k, _, cs2, (l1 ++ l). split; [done|]. split; [simpl; rewrite O2; simpl; by rewrite app_assoc|].
  split.
  - apply search_output. by eapply search_iff.
  - destruct H as (H1 & H2 & H3). split; [done|]. split; [done|]. intros ? ? ?.
    apply shown_app_r. by apply H3.
Qed.

(** Nothing is left to trace. *)
Lemma last_generation n s cs :
  at_generation n s cs → (∀ o, ¬ shortest targets n o) →
  runs (display_cold_trail mem lim address) s (λ _, searched n).
Proof.
  intros (done & cur & nc & S & _ & Hcur) Hno.
  eapply runs_mono; [by eapply display_cold_trail_ok|]. intros [] l Hl. split.
  - intros m o Hm Hs _ _ _. destruct (shortest_below targets n m o Hs Hm) as [o' Ho']. by destruct (Hno o').
  - intros H0 _. destruct n as [|n].
    + destruct (H0 eq_refl) as [o Ho]. by destruct (Hno o).
    + apply Hl, Hcur. lia.
Qed.

(** The search stops at this generation, or goes on with the next one. *)
Lemma searched_stop n k l l' :
  roots_shown n (∀ o, shortest targets n o → ¬ rooted o) 0 k l → 0 < k →
  depth_limit lim <= Z.of_nat n → searched n (l ++ l').
Proof.
  intros (_ & Hk & Hs) Hpos Hd. split.
  - intros m o Hm Ho Hro Hfirst Ht. destruct (decide (m = n)) as [->|].
    + apply shown_app_l. by apply Hs.
    + assert (k = 0); [|lia]. apply Hk. intros o' Ho'. apply (Hfirst n); [lia|done].
  - intros _ Hnone. assert (k = 0); [|lia]. apply Hk. intros o Ho. by apply (Hnone n).
Qed.

Lemma searched_next n k l l' :
  roots_shown n (∀ o, shortest targets n o → ¬ rooted o) 0 k l →
  searched (S n) l' → searched n (l ++ l').
Proof.
  intros (H0 & Hk & Hs) [H1 H2]. split.
  - intros m o Hm Ho Hro Hfirst Ht. destruct (decide (m = n)) as [->|].
    + apply shown_app_l, Hs; [done| |done]. destruct (Z.eq_dec k 0) as [E|]; [|lia].
      destruct (proj1 Hk E o Ho Hro).
    + apply shown_app_r. apply (H1 m o); [lia|done|done| |done]. intros j o' Hj. apply Hfirst. lia.
  - intros _ Hnone. apply contains_app_r, H2; [done|]. intros m o Hm. apply Hnone. lia.
Qed.

Lemma generations_ok fuel n s cs :
  at_generation n s cs → (S (length objects) ≤ fuel + n)%nat →
  ∃ s' cs' l, generations mem objects lim address fuel (Z.of_nat n) s = Some ((), s') ∧
    tables_ok s' cs' ∧ output s' = output s ++ l ∧ searched n l.
Proof.
  revert n s cs. induction fuel as [|fuel IH]; intros n s cs G Hf;
    pose proof G as (done' & cur & nc & S & _ & _); pose proof (se_tables _ _ _ _ _ _ _ S) as T;
    destruct (size_of_table_ok s cs Child T) as (gensize & E & Hg & Hz); cbn [generations]; sstep E;
    (destruct (Z.eqb_spec gensize 0) as [E0|N0];
      [destruct (last_generation n s cs G) as ([] & l & E1 & H1);
         [by intros o (q & Hq & _)%(se_child _ _ _ _ _ _ _ S); apply (proj1 Hz E0 q)|];
       exists (add_output l s), cs, l; split; [exact E1|]; split; [by apply tables_ok_output|done]|]);
    (assert (∃ o, shortest targets n o) as [o Ho];
      [destruct (member_dec s cs Child T) as [[q Hq]|Hno]; [|by destruct N0; apply Hz];
       destruct (member_rec s cs Child q T Hq) as [x Hx]; exists (object x);
       apply (se_child _ _ _ _ _ _ _ S); exists q; split; [done|by exists x]|]);
    pose proof (shortest_bound targets n o Ho) as Hbound; [simpl in Hf; lia|].
  destruct (generation_shown_ok n s cs gensize G) as (k & s1 & cs1 & l1 & E1 & O1 & S1 & H1).
  enough (∃ s' cs' l, (num ← generation_shown n gensize;
    stop ← (if 0 <? num then
              if depth_limit lim <=? Z.of_nat n then
                display_gen_limit_addresses address (Z.of_nat n) ;;
                report_break ("Set the depth limit to trace further if required" ++ newline) ;;
                mret true
              else mret false
            else mret false);
    if (stop : bool) then mret ()
    else process_generation mem objects ;;
      generations mem objects lim address fuel (Z.of_nat n + 1)) s = Some ((), s') ∧
    tables_ok s' cs' ∧ output s' = output s ++ l ∧ searched n l) as (s' & cs' & l & E' & H').
  { exists s', cs', l. split; [|done]. rewrite <- E'. unfold generation_shown. by rewrite St_bind_seq. }
  sstep E1.
  destruct (decide (0 < k ∧ depth_limit lim <= Z.of_nat n)) as [[Hk Hd]|Hgo].
  - rewrite (proj2 (Z.ltb_lt _ _) Hk), (proj2 (Z.leb_le _ _) Hd).
    assert (reports (display_gen_limit_addresses address (Z.of_nat n) ;;
      report_break ("Set the depth limit to trace further if required" ++ newline) ;; mret true) s1 true)
      as [l2 E2].
    { eapply (reports_bind _ _ _ ()); [|intros; by reporting].
      unfold display_gen_limit_addresses. by reporting. }
    rewrite (St_bind_Some _ _ _ _ _ E2).
    exists (add_output l2 s1), cs1, (l1 ++ l2). split; [|split; [|split]].
    + done.
    + apply tables_ok_output, (se_tables _ _ _ _ _ _ _ S1).
    + simpl. by rewrite O1, app_assoc.
    + by eapply searched_stop.
  - match goal with |- ∃ _ _ _, (?m ≫= _) _ = _ ∧ _ => assert (m s1 = Some (false, s1)) as E2 end.
    { destruct (Z.ltb_spec 0 k); [|done]. destruct (Z.leb_spec (depth_limit lim) (Z.of_nat n)); [|done].
      tauto. }
    sstep E2. destruct (process_generation_ok _ _ _ _ _ S1) as (s2 & cs2 & E3 & O3 & S2). sstep E3.
    destruct (IH (Datatypes.S n) s2 cs2) as (s3 & cs3 & l3 & E4 & T4 & O4 & H4).
    { eapply at_generation_S; [exact S2|done|done| |by exists o]. intros o'. apply next_generation. }
    { lia. }
    replace (Z.of_nat n + 1) with (Z.of_nat (Datatypes.S n)) by lia.
    exists s3, cs3, (l1 ++ l3). split; [done|]. split; [done|].
    split; [rewrite O4, O3, O1; by rewrite app_assoc|by eapply searched_next].
Qed.

(** ** Starting the search *)

(** The root references and what they refer to are mapped. *)
Context (Hroots : ∀ a, a ∈ roots → ∃ o, word_at mem a 0 = Some o ∧ is_Some (word_at mem o 0)).

(** The roots [seen] are in the root table, and nothing is in the others. *)
Definition rooting (seen : list Z) (s : trails) (cs : buckets) : Prop :=
  tables_ok s cs ∧ roots_ok s cs ∧ (∀ t q, t ≠ Root → ¬ member cs t q) ∧
  ∀ a o, a ∈ seen → rooted_at a o → has s cs Root o.

Lemma new_root_ok seen s cs o a :
  rooting seen s cs → rooted_at a o →
  ∃ q s' cs', new_root o a s = Some (q, s') ∧ output s' = output s ∧ rooting (a :: seen) s' cs'.
Proof.
  intros (T & R & N & Hs) Hat. unfold new_root.
  destruct (add_new_to_table_ok s cs Root o T)
    as (q & s1 & cs1 & h & E1 & T1 & F1 & P1 & R1 & A1 & O1 & L1 & Lt1). sstep E1.
  destruct (alloc_obj_rec_ok s1 cs1 a T1) as (s2 & E2 & T2 & R2 & F2 & P2 & Tb2 & O2 & L2). sstep E2.
  set (p := free_rec s1) in *.
  assert (recs s2 !! q = Some (mkRec h 0 o)) as Hx.
  { rewrite R2, lookup_insert_ne by lia. rewrite R1. apply lookup_insert_eq. }
  sstep (get_rec_ok _ _ _ Hx). sstep (set_rec_ok _ _ _ (mkRec h p o) Hx). simpl.
  eexists q, _, cs1. split; [done|]. split; [simpl; congruence|].
  assert (recs s2 !! p = Some (mkRec 0 0 a)) as Hp by (rewrite R2; apply lookup_insert_eq).
  assert (extends (recs s) (<[q := mkRec h p o]> (recs s2))) as X.
  { intros r x Hr. exists x. rewrite lookup_insert_ne, R2, lookup_insert_ne, R1, lookup_insert_ne;
      [done|by intros ->; rewrite F1 in Hr|pose proof (Lt1 r x Hr); lia|by intros ->; rewrite F1 in Hr]. }
  split_and!.
  - apply tables_ok_recs; [done|]. by eapply same_links_insert.
  - intros r Hr. simpl. destruct (decide (r = q)) as [->|Nr].
    + exists (mkRec h p o), (mkRec 0 0 a). rewrite lookup_insert_eq. simpl.
      split; [done|]. split; [by rewrite lookup_insert_ne by lia|done].
    + apply A1 in Hr as [Hr|[_ ?]]; [|done]. destruct (R r Hr) as (x & y & Hx1 & Hy1 & Hat1).
      destruct (X r x Hx1) as (x' & Hx' & Ep & Eo). destruct (X _ y Hy1) as (y' & Hy' & _ & Eo').
      exists x', y'. by rewrite Ep, Eo, Eo'.
  - intros t r Ht Hr. apply A1 in Hr as [Hr|[-> _]]; [by apply (N t r)|done].
  - intros b o' Hb Hat'. apply elem_of_cons in Hb as [->|Hb].
    + assert (o' = o) as -> by (destruct Hat as (_ & ? & _), Hat' as (_ & ? & _); congruence).
      exists q. split; [apply A1; by right|]. exists (mkRec h p o). split; [apply lookup_insert_eq|done].
    + destruct (Hs b o' Hb Hat') as (r & Hr & x & Hx1 & Ho). exists r. split; [apply A1; by left|].
      destruct (X r x Hx1) as (x' & Hx' & _ & Eo). exists x'. split; [done|congruence].
Qed.

Lemma record_a_root_ok seen s cs a :
  rooting seen s cs → a ∈ roots →
  ∃ s' cs', record_a_root mem a s = Some ((), s') ∧ output s' = output s ∧ rooting (a :: seen) s' cs'.
Proof.
  intros R Ha. destruct (Hroots a Ha) as (o & Ho & w & Hw). unfold record_a_root, lift_st.
  rewrite Ho. cbn [mbind option_bind]. sstep (eq_refl (Some (o, s))).
  rewrite Hw. cbn [mbind option_bind]. sstep (eq_refl (Some (w, s))).
  destruct (negb (w =? 0) && (Z.land (s32 w) 3 =? 0)) eqn:Ew.
  - assert (rooted_at a o) as Hat by (split; [done|]; split; [done|]; by exists w).
    destruct (find_has s cs Root o (proj1 R)) as (q & E & Hq). unfold object_in_roots. sstep E.
    destruct Hq as [[-> Hq]|[Nq Hq]].
    + cbn [Z.eqb]. destruct (new_root_ok seen s cs o a R Hat) as (q & s' & cs' & E' & H').
      sstep E'. by exists s', cs'.
    + rewrite (proj2 (Z.eqb_neq q 0) Nq). exists s, cs. split; [done|]. split; [done|].
      destruct R as (T & R & N & Hs). split_and!; [done|done|done|].
      intros b o' [->|Hb]%elem_of_cons Hat'; [|by apply (Hs b)]. exists q.
      assert (o' = o) as -> by (destruct Hat as (_ & ? & _), Hat' as (_ & ? & _); congruence). done.
  - exists s, cs. split; [done|]. split; [done|]. destruct R as (T & R & N & Hs).
    split_and!; [done|done|done|]. intros b o' [->|Hb]%elem_of_cons Hat'; [|by apply (Hs b)].
    destruct Hat' as (_ & ? & w' & ? & ?). congruence.
Qed.

Lemma find_all_roots_ok s cs :
  rooting [] s cs →
  ∃ s' cs', find_all_roots mem roots s = Some ((), s') ∧ output s' = output s ∧
    search (λ _, False) (λ _, False) 0 (λ _, False) 0 s' cs'.
Proof.
  intros R. unfold find_all_roots.
  assert (∀ l seen s cs, rooting seen s cs → (∀ a, a ∈ l → a ∈ roots) →
    ∃ s' cs', for_each l (record_a_root mem) s = Some ((), s') ∧ output s' = output s ∧
      rooting (reverse l ++ seen) s' cs') as H.
  { clear R s cs. induction l as [|a l IH]; intros seen s cs R Hl.
    - by exists s, cs.
    - destruct (record_a_root_ok seen s cs a R) as (s1 & cs1 & E1 & O1 & R1); [apply Hl; by left|].
      destruct (IH _ _ _ R1) as (s2 & cs2 & E2 & O2 & R2); [intros b Hb; apply Hl; by right|].
      exists s2, cs2. cbn [for_each]. sstep E1. split; [done|]. split; [congruence|].
      by rewrite reverse_cons, <- app_assoc. }
  destruct (H roots [] s cs R) as (s' & cs' & E & O & T & R' & N & Hs); [done|].
  exists s', cs'. split; [done|]. split; [done|].
  assert (∀ t o, t ≠ Root → has s' cs' t o ↔ False) as Hno.
  { intros t o Ht. split; [|done]. intros (q & Hq & _). by apply (N t q Ht). }
  constructor; try done.
  - intros o [a Ha]. apply (Hs a o); [|done]. rewrite app_nil_r.
    destruct Ha as [Ha _]. by apply elem_of_reverse.
  - intros o. by apply Hno.
  - intros o. by apply Hno.
  - intros o. by apply Hno.
  - intros q Hq. by destruct (N Current q).
  - intros q Hq. by destruct (N Child q).
Qed.

Lemma add_target_object_ok done cur nc child s cs o :
  search done cur nc child 0 s cs → o ∈ targets →
  ∃ s' cs', add_target_object o s = Some ((), s') ∧ output s' = output s ∧
    search done cur nc (λ o', child o' ∨ o' = o) 0 s' cs'.
Proof.
  intros S Ho. unfold add_target_object, new_obj_rec.
  destruct (add_new_to_table_ok s cs Child o (se_tables _ _ _ _ _ _ _ S))
    as (q & s1 & cs1 & h & E1 & T1 & F1 & P1 & R1 & A1 & O1 & L1 & Lt1). sstep E1.
  exists s1, cs1. split; [done|]. split; [done|].
  by eapply (search_add_child done cur nc child 0 s cs s1 cs1 q h 0 o []).
Qed.

Lemma add_target_objects_from_wrapper_ok done cur nc wrapper s cs :
  search done cur nc (λ _, False) 0 s cs →
  (∀ o, o ∈ objects → word_at mem o 0 = Some wrapper → o ∈ targets) →
  ∃ s' cs', add_target_objects_from_wrapper mem objects wrapper s = Some ((), s') ∧
    output s' = output s ∧
    search done cur nc (λ o, o ∈ objects ∧ word_at mem o 0 = Some wrapper) 0 s' cs'.
Proof.
  intros S Ht. unfold add_target_objects_from_wrapper.
  assert (∀ l child s cs, (∀ o, o ∈ l → o ∈ objects) → search done cur nc child 0 s cs →
    ∃ s' cs', for_each l (add_target_object_of_wrapper mem wrapper) s = Some ((), s') ∧
      output s' = output s ∧
      search done cur nc (λ o, child o ∨ o ∈ l ∧ word_at mem o 0 = Some wrapper) 0 s' cs') as H.
  { clear S s cs. induction l as [|o l IH]; intros child s cs Hl S.
    - exists s, cs. split; [done|]. split; [done|]. eapply search_iff; [exact S|done|done|].
      intros o. split; [by left|]. intros [?|(Ho%elem_of_nil & _)]; done.
    - assert (o ∈ objects) as Hobj by (apply Hl; by left).
      assert (∃ w, word_at mem o 0 = Some w) as [w Hw].
      { destruct (Hrefs o Hobj) as [r Hr]. unfold references in Hr.
        destruct (word_at mem o 0) as [w|]; [by exists w|done]. }
      assert (∃ s1 cs1, add_target_object_of_wrapper mem wrapper o s = Some ((), s1) ∧
        output s1 = output s ∧
        search done cur nc (λ o', child o' ∨ o' = o ∧ w = wrapper) 0 s1 cs1)
        as (s1 & cs1 & E1 & O1 & S1).
      { unfold add_target_object_of_wrapper, lift_st. rewrite Hw. cbn [mbind option_bind].
        sstep (eq_refl (Some (w, s))). destruct (Z.eqb_spec w wrapper) as [->|Nw].
        - destruct (add_target_object_ok _ _ _ _ s cs o S (Ht o Hobj Hw)) as (s1 & cs1 & E1 & O1 & S1).
          exists s1, cs1. split; [done|]. split; [done|]. eapply search_iff; [exact S1|done|done|].
          intros o'. tauto.
        - exists s, cs. split; [done|]. split; [done|]. eapply search_iff; [exact S|done|done|].
          intros o'. tauto. }
      destruct (IH _ s1 cs1 (λ o' Ho', Hl o' (proj2 (elem_of_cons _ _ _) (or_intror Ho'))) S1)
        as (s2 & cs2 & E2 & O2 & S2).
      exists s2, cs2. cbn [for_each]. sstep E1. split; [done|]. split; [congruence|].
      eapply search_iff; [exact S2|done|done|]. intros o'. rewrite elem_of_cons. split.
      + intros [[?|(-> & ->)]|(? & ?)]; auto.
      + intros [?|([->|?] & Hw')]; [by auto| |by auto]. left; right. split; [done|congruence]. }
  destruct (H objects (λ _, False) s cs (λ o Ho, Ho) S) as (s' & cs' & E & O & S').
  exists s', cs'. split; [done|]. split; [done|]. eapply search_iff; [exact S'|done|done|].
  intros o. split; [intros [[]|?]; done|by right].
Qed.

(** Everything [find_trails] does for a request *)
Lemma find_trails_ok obj wrapper s cs :
  search (λ _, False) (λ _, False) 0 (λ _, False) 0 s cs → targets = target_objects obj wrapper →
  ∃ s' cs' l, find_trails mem objects lim address obj wrapper s = Some ((), s') ∧ tables_ok s' cs' ∧
    output s' = output s ++ l ∧ searched 0 l.
Proof.
  intros S Et.
  assert (∃ s1 cs1 l1, (if negb (wrapper =? 0) then
      print [10] ;; print (chars "Tracing paths to all objects with selected wrapper ...") ;; print [10] ;;
      add_target_objects_from_wrapper mem objects wrapper
    else if negb (obj =? 0) then
      print [10] ;; print (chars "Tracing paths to selected object ...") ;; print [10] ;;
      add_target_object obj
    else mret ()) s = Some ((), s1) ∧ output s1 = output s ++ l1 ∧
    search (λ _, False) (λ _, False) 0 (λ o, o ∈ targets) 0 s1 cs1) as (s1 & cs1 & l1 & E1 & O1 & S1).
  { rewrite Et. unfold target_objects.
    destruct (Z.eqb_spec wrapper 0) as [->|Nw]; cbn [negb]; [destruct (Z.eqb_spec obj 0) as [->|No]; cbn [negb]|].
    - exists s, cs, []. rewrite app_nil_r. split; [done|]. split; [done|].
      eapply search_iff; [exact S|done|done|]. intros o. by rewrite elem_of_nil.
    - sstep (prints_print [10] s). sstep (prints_print (chars "Tracing paths to selected object ...")
        (add_output (Char <$> [10]) s)).
      match goal with |- context [add_target_object obj] => idtac end.
      sstep (prints_print [10] (add_output (Char <$> chars "Tracing paths to selected object ...")
        (add_output (Char <$> [10]) s))).
      destruct (add_target_object_ok (λ _, False) (λ _, False) 0 (λ _, False)
        (add_output (Char <$> [10]) (add_output (Char <$> chars "Tracing paths to selected object ...")
        (add_output (Char <$> [10]) s))) cs obj) as (s1 & cs1 & E1 & O1 & S1).
      { by repeat apply search_output. }
      { rewrite Et. unfold target_objects. rewrite (proj2 (Z.eqb_neq obj 0) No). by left. }
      exists s1, cs1. eexists. split; [exact E1|]. split; [rewrite O1; simpl; by rewrite <- !app_assoc|].
      eapply search_iff; [exact S1|done|done|]. intros o. rewrite list_elem_of_singleton. tauto.
    - sstep (prints_print [10] s).
      sstep (prints_print (chars "Tracing paths to all objects with selected wrapper ...")
        (add_output (Char <$> [10]) s)).
      sstep (prints_print [10] (add_output
        (Char <$> chars "Tracing paths to all objects with selected wrapper ...")
        (add_output (Char <$> [10]) s))).
      destruct (add_target_objects_from_wrapper_ok (λ _, False) (λ _, False) 0 wrapper
        (add_output (Char <$> [10]) (add_output
        (Char <$> chars "Tracing paths to all objects with selected wrapper ...")
        (add_output (Char <$> [10]) s))) cs) as (s1 & cs1 & E1 & O1 & S1).
      { by repeat apply search_output. }
      { intros o Ho Hw. rewrite Et. unfold target_objects. rewrite (proj2 (Z.eqb_neq wrapper 0) Nw).
        by apply list_elem_of_filter. }
      exists s1, cs1. eexists. split; [exact E1|]. split; [rewrite O1; simpl; by rewrite <- !app_assoc|].
      eapply search_iff; [exact S1|done|done|]. intros o. rewrite list_elem_of_filter. tauto. }
  destruct (generations_ok (Datatypes.S (length objects)) 0 s1 cs1) as (s' & cs' & l & E2 & T2 & O2 & H2).
  { exists (λ _, False), (λ _, False), 0%nat. split.
    - eapply search_iff; [exact S1|done|done|]. intros o. unfold shortest. simpl. split; [|tauto].
      intros Ho. split; [done|]. lia.
    - split; [|lia]. intros o. split; [intros [[]|[]]|]. intros (k & Hk & _). lia. }
  { lia. }
  exists s', cs', (l1 ++ l). split; [|split; [done|split; [rewrite O2, O1; by rewrite app_assoc|]]].
  - unfold find_trails, advance_through_generations. by sstep E1.
  - destruct H2 as [H1 H2]. split.
    + intros m o Hm Hs Hro Hf Ht. apply shown_app_r. by eapply H1.
    + intros H0 Hn. apply contains_app_r. by apply H2.
Qed.

Lemma request_ok obj wrapper s :
  cleared s → targets = target_objects obj wrapper →
  ∃ s' cs' l, (find_all_roots mem roots ;; find_trails mem objects lim address obj wrapper) s =
    Some ((), s') ∧ tables_ok s' cs' ∧ output s' = output s ++ l ∧ searched 0 l.
Proof.
  intros (cs & T & N) Et. destruct (find_all_roots_ok s cs) as (s1 & cs1 & E1 & O1 & S1).
  { split_and!; [done|intros q Hq; by destruct (N Root q)|done|]. by intros a o Ha%elem_of_nil. }
  destruct (find_trails_ok obj wrapper s1 cs1 S1 Et) as (s2 & cs2 & l & E2 & T2 & O2 & H2).
  exists s2, cs2, l. sstep E1. split; [done|]. split; [done|]. by rewrite O2, O1.
Qed.

End search.

Lemma cleared_output s l : cleared s → cleared (add_output l s).
Proof. intros (cs & T & N). exists cs. split; [by apply tables_ok_output|done]. Qed.

(** ** The contract of the search

    For a request, with its targets: at the least distance at which a rooted object
    leads to a target, a trail is reported; when no object at the depth limit or
    beyond is rooted the search goes on until nothing is left, and ends with the
    report of its failure. *)
Definition answers (obj wrapper : Z) (l : list out) : Prop :=
  let targets := target_objects obj wrapper in
  (∀ n o, shortest targets n o → rooted o →
     (∀ k o', (k < n)%nat → shortest targets k o' → ¬ rooted o') →
     1 < trail_limit lim → shown targets n l) ∧
  ((∃ o, o ∈ targets) →
   (∀ n o, depth_limit lim <= Z.of_nat n → shortest targets n o → ¬ rooted o) →
   contains l failure_text).

Lemma searched_answers obj wrapper l l' :
  searched (target_objects obj wrapper) 0 l → answers obj wrapper (l ++ l').
Proof.
  intros [H1 H2]. split.
  - intros n o Hs Hr Hf Ht. apply shown_app_l. apply (H1 n o); [lia|done|done| |done].
    intros k o' Hk. apply Hf. lia.
  - intros [o Ho] Hn. apply contains_app_l, H2; [|intros n o' _; apply Hn].
    intros _. exists o. split; [done|]. lia.
Qed.

(** The objects and roots of a heap whose walks meet only mapped memory *)
Record walkable : Prop := {
  walk_references o : o ∈ objects → is_Some (references mem o);
  walk_display o : o ∈ objects → is_Some (display_object_reference mem o);
  walk_roots a : a ∈ roots → ∃ o, word_at mem a 0 = Some o ∧ is_Some (word_at mem o 0)
}.

(** A request for something, that can be displayed. *)
Definition requestable (r : Z * Z) : Prop :=
  (r.1 ≠ 0 ∨ r.2 ≠ 0) ∧
  ∀ o, o ∈ target_objects r.1 r.2 → is_Some (display_object_reference mem o).

Lemma follow_reference_paths_ok follow s :
  walkable → Forall requestable follow → cleared s →
  ∃ s' ls, follow_reference_paths mem objects roots lim address follow s = Some ((), s') ∧
    cleared s' ∧ output s' = output s ++ concat ls ∧
    Forall2 (λ r, answers r.1 r.2)
      (if prompt_after_checking_references lim then follow else take 1 follow) ls.
Proof.
  intros W. revert s. induction follow as [|[obj wrapper] follow IH]; intros s HF C.
  { exists s, []. simpl. rewrite app_nil_r. split_and!; [done|done|done|].
    destruct (prompt_after_checking_references lim); constructor. }
  apply Forall_cons in HF as [[Hreq Hdisp] HF]. simpl in Hreq, Hdisp. cbn [follow_reference_paths].
  assert (negb (obj =? 0) || negb (wrapper =? 0) = true) as -> by lia.
  destruct (request_ok (target_objects obj wrapper)
    (walk_references W) (λ o Ho, match Ho with or_introl H => Hdisp o H | or_intror H => walk_display W o H end)
    (walk_roots W) obj wrapper s C eq_refl) as (s1 & cs1 & l1 & E1 & T1 & O1 & H1).
  assert (∀ A (f : St trails A), (find_all_roots mem roots ;;
    find_trails mem objects lim address obj wrapper ;; f) s = f s1) as Hrun.
  { intros A f. rewrite <- (St_bind_Some _ (λ _, f) _ _ _ E1). by snorm. }
  rewrite Hrun. destruct (prompt_after_checking_references lim).
  - assert (reports (display_reference_variables_addresses address) s1 ()) as [l2 E2].
    { unfold display_reference_variables_addresses. by reporting. }
    sstep E2.
    destruct (clear_object_reference_paths_ok _ _ (tables_ok_output _ _ l2 T1)) as (s3 & E3 & C3 & O3).
    sstep E3.
    destruct (reports_break ("Set a new object or wrapper to trace if required" ++ newline) s3) as [l4 E4].
    sstep E4.
    destruct (IH (add_output l4 s3) HF (cleared_output _ _ C3)) as (s' & ls & E' & C' & O' & H').
    exists s', ((l1 ++ l2 ++ l4) :: ls). split; [done|]. split; [done|].
    split; [|constructor; [by apply searched_answers|done]].
    rewrite O'. simpl. rewrite O3. simpl. by rewrite O1, <- !app_assoc.
  - destruct (clear_object_reference_paths_ok _ _ T1) as (s3 & E3 & C3 & O3).
    exists s3, [l1]. split; [done|]. split; [done|].
    split; [by rewrite O3, O1; simpl; rewrite app_nil_r|].
    constructor; [|constructor]. rewrite <- (app_nil_r l1). by apply searched_answers.
Qed.

(** C16: display_reference_trails, for any sequence of requests and any heap
    whose walks meet mapped memory, with limits that stay as they are (the
    debugger does not change them at a break) and memory for every record it
    allocates, always returns, with its tables empty again, and answers
    every request: at the least distance at which an object that a root
    refers to leads to a target, through references of the walked objects,
    it prints a shortest such trail (when the trail limit exceeds 1), with
    the address of a root; and when no object at the depth limit or beyond
    is rooted the search goes through all generations and ends with the
    report of its failure. *)
Theorem trails_found_are_shortest follow s :
  walkable → Forall requestable follow → follow ≠ [] → cleared s →
  ∃ s' ls, display_reference_trails mem objects roots lim address follow s = Some ((), s') ∧
    cleared s' ∧ output s' = output s ++ concat ls ∧
    Forall2 (λ r, answers r.1 r.2)
      (if prompt_after_checking_references lim then follow else take 1 follow) ls.
Proof.
  intros W HF Hne C. destruct (follow_reference_paths_ok follow s W HF C) as (s' & ls & E & H).
  exists s', ls. split; [|done]. rewrite <- E. unfold display_reference_trails.
  destruct follow as [|[obj wrapper] follow]; [done|].
  apply Forall_cons in HF as [[Hreq _] _]. simpl in Hreq.
  by assert (negb (obj =? 0) || negb (wrapper =? 0) = true) as -> by lia.
Qed.

End laws.

(** *** A small heap

    A root at 768 holds the object at 512, that refers to the object at 520; both are
    of a class with the name [Ob] and one slot. *)

Definition small_heap : gmap Z Z := list_to_map
  [(256, 0); (260, 320); (264, 0); (268, 5); (272, 7); (328, 336); (344, 352); (360, 25167);
   (512, 256); (516, 520); (520, 256); (524, 1); (768, 512)].

Definition deep_limits : limits := mkLimits true 5 4 1 4.

Lemma small_heap_walkable : walkable small_heap [512; 520] [768].
Proof.
  split.
  - intros o Ho. repeat (apply elem_of_cons in Ho as [->|Ho]; [by vm_compute; eexists|]).
    by apply elem_of_nil in Ho.
  - intros o Ho. repeat (apply elem_of_cons in Ho as [->|Ho]; [by vm_compute; eexists|]).
    by apply elem_of_nil in Ho.
  - intros a Ha. apply list_elem_of_singleton in Ha as ->. exists 512. split; [done|by vm_compute; eexists].
Defined.

Lemma small_heap_requestable : requestable small_heap [512; 520] (520, 0).
Proof.
  split; [by left|]. intros o Ho. apply list_elem_of_singleton in Ho as ->. by vm_compute; eexists.
Defined.

Example trails_found_are_shortest_witness :
  ∃ s' ls, display_reference_trails small_heap [512; 520] [768] deep_limits (λ _, 0) [(520, 0)]
      initial_trails = Some ((), s') ∧
    cleared s' ∧ output s' = output initial_trails ++ concat ls ∧
    Forall2 (λ r, answers small_heap [512; 520] [768] deep_limits r.1 r.2) [(520, 0)] ls.
Proof.
  apply (trails_found_are_shortest small_heap [512; 520] [768] deep_limits (λ _, 0) [(520, 0)]
    initial_trails small_heap_walkable).
  - constructor; [apply small_heap_requestable|constructor].
  - done.
  - apply initial_cleared.
Defined.

(** With a depth limit beyond the trail the failure is reported after it. *)
Example failure_reported_after_a_trail :
  ∃ s' l t, follow_reference_paths small_heap [512; 520] [768] deep_limits (λ _, 0) [(520, 0)]
      initial_trails = Some ((), s') ∧ output s' = l ∧
    trail_text small_heap 768 [512; 520] = Some t ∧ contains l t ∧ contains l failure_text.
Proof.
  destruct (follow_reference_paths_ok small_heap [512; 520] [768] deep_limits (λ _, 0) [(520, 0)]
    initial_trails small_heap_walkable) as (s' & ls & E & _ & O & H).
  { constructor; [apply small_heap_requestable|constructor]. } { apply initial_cleared. }
  apply Forall2_cons_inv_l in H as (l & ls' & [H1 H2] & H & ->). apply Forall2_nil_inv_l in H as ->.
  simpl in O. rewrite app_nil_r in O.
  assert (∀ n o, shortest small_heap [512; 520] [520] n o → (n ≤ 1)%nat) as Hlevels.
  { intros n o Hs. destruct (Nat.le_gt_cases n 1) as [|Hn]; [done|].
    apply (shortest_below _ _ _ 2) in Hs as [o' Hs]; [|lia].
    apply shortest_S in Hs as (Ho & (o1 & Hr & Hs) & Hno).
    apply shortest_S in Hs as (Ho1 & (o2 & Hr1 & Hs) & Hno1).
    destruct Hno. apply elem_of_cons in Ho as [->|Ho].
    - exists 1%nat. split; [lia|]. apply shortest_S. split; [by left|]. split.
      + exists 520. split; [by left|]. split; [by left|]. lia.
      + intros (k & Hk & Hs' & _). replace k with 0%nat in Hs' by lia.
        by apply list_elem_of_singleton in Hs'.
    - apply list_elem_of_singleton in Ho as ->. exists 0%nat. split; [lia|]. split; [by left|lia]. }
  assert (shortest small_heap [512; 520] [520] 1 512) as Hs.
  { apply shortest_S. split; [by left|]. split.
    - exists 520. split; [by left|]. split; [by left|]. lia.
    - intros (k & Hk & Hs' & _). replace k with 0%nat in Hs' by lia.
      by apply list_elem_of_singleton in Hs'. }
  destruct (H1 1%nat 512 Hs) as (a & o & k & t & Hat & Hp & Hl & Ht & Hc).
  - exists 768. split; [by left|]. split; [done|]. exists 256. split; reflexivity.
  - intros j o' Hj [Hs' _] (a & Ha & Hw & _). replace j with 0%nat in Hs' by lia.
    apply list_elem_of_singleton in Hs' as ->. apply list_elem_of_singleton in Ha as ->. done.
  - done.
  - exists s', l, t. split; [done|]. split; [done|]. split; [|split; [done|]].
    + destruct k as [|o1 [|]]; [done| |done]. destruct Hp as (_ & _ & Hp).
      apply list_elem_of_singleton in Hp as ->. destruct Hat as (Ha & Hw & _).
      apply list_elem_of_singleton in Ha as ->. by injection Hw as <-.
    + apply H2; [exists 520; by left|]. intros n o' Hd Hs'%Hlevels. simpl in Hd. lia.
Qed.
