(* ===== verification/HeapOrder.v ===== *)
(** * Counting the objects of each class

    [heap-order1.c]: an array of counts and sizes by wrapper, filled by a walk over the
    heap or by the allocator, and its display in the order of the sizes.  [None] stands
    for undefined behaviour and for [mps_lib_abort]; a signed overflow is undefined. *)

From S2P Require Import Prelude Effects HeapTable HeapUtils.
From Stdlib Require Import ZArith Lia Bool String.
From stdpp Require Import base tactics option list numbers gmap sorting.

Local Open Scope Z_scope.

(** [wrapper_stats_s] *)
Record wrapper_stat := mkStat { wrapper_address : Z; usage_count : Z; usage_size : Z }.

Definition STAT_SIZE : Z := 10000.
Definition very_big : Z := 2147483647.

(** The variables of the file, and what is printed.  The elements of the array from
    [wrapper_cursor] on are those that [clear_wrapper_stats] leaves; the list is that of
    the elements before. *)
Record order_1 := mkOrder { wrapper_stats : list wrapper_stat; printed : list Z }.

Definition wrapper_cursor (s : order_1) : Z := Z.of_nat (length (wrapper_stats s)).

Definition print (l : list Z) : St order_1 () :=
  modify_st (λ s, mkOrder (wrapper_stats s) (printed s ++ l)).

Definition clear_wrapper_stats : St order_1 () := modify_st (λ s, mkOrder [] (printed s)).

(** The index of the first element with the wrapper *)
Fixpoint find_wrapper (wrapper : Z) (l : list wrapper_stat) (i : Z) : option Z :=
  match l with
  | [] => None
  | x :: l => if wrapper_address x =? wrapper then Some i else find_wrapper wrapper l (i + 1)
  end.

Definition default_index_for_wrapper (wrapper : Z) : St order_1 Z :=
  s ← get_st;
  match find_wrapper wrapper (wrapper_stats s) 0 with
  | Some i => mret i
  | None =>
      let cursor := wrapper_cursor s in
      if cursor <? STAT_SIZE then
        modify_st (λ s, mkOrder (wrapper_stats s ++ [mkStat wrapper 0 0]) (printed s)) ;;
        mret cursor
      else undefined
  end.

Definition index_for_wrapper (wrapper : Z) : St order_1 Z := default_index_for_wrapper wrapper.

Definition add_stat_for_object (wrapper size : Z) : St order_1 () :=
  index ← index_for_wrapper wrapper;
  s ← get_st;
  x ← lift_st (wrapper_stats s !! Z.to_nat index);
  count ← lift_st (int32 (usage_count x + 1));
  total ← lift_st (int32 (usage_size x + size));
  modify_st (λ s, mkOrder
    (<[Z.to_nat index := mkStat (wrapper_address x) count total]> (wrapper_stats s)) (printed s)).

(** ** Display *)

Definition sort_criterion_for_index (x : wrapper_stat) : Z := usage_size x.

(** The loop over the elements *)
Fixpoint biggest_from (value largest_found : Z) (l : list wrapper_stat) : Z :=
  match l with
  | [] => largest_found
  | x :: l =>
      let count := sort_criterion_for_index x in
      biggest_from value
        (if (count <? value) && (largest_found <? count) then count else largest_found) l
  end.
Definition biggest_below_value (value : Z) : St order_1 Z :=
  s ← get_st; mret (biggest_from value (-1) (wrapper_stats s)).

Definition display_stat_line (message : list Z) (count size : Z) : St order_1 () :=
  print (mps_lib_fputs_ message class_name_size) ;;
  print (display_padding_for_string message 32 class_name_size) ;;
  print (display_integer count) ;; print [32] ;; print (display_integer size) ;; print [10].

Section walk.
Context (mem : gmap Z Z).

Definition record_order_1_object (object : Z) : St order_1 () :=
  wrapper ← lift_st (word_at mem object 0);
  when_ (negb (wrapper =? 0) && (Z.land (s32 wrapper) 3 =? 0))
    (size ← lift_st (size_of_object mem object wrapper); add_stat_for_object wrapper size).

Definition display_one_wrapper (x : wrapper_stat) : St order_1 () :=
  name ← lift_st (class_name_from_wrapper mem (wrapper_address x));
  class_name ← lift_st (string_at mem name);
  display_stat_line class_name (usage_count x) (usage_size x).

Definition display_wrappers_of_size (size : Z) : St order_1 () :=
  s ← get_st;
  for_each (wrapper_stats s) (λ x, when_ (sort_criterion_for_index x =? size) (display_one_wrapper x)).

Fixpoint sum_totals (l : list wrapper_stat) (tot_count tot_size : Z) : option (Z * Z) :=
  match l with
  | [] => Some (tot_count, tot_size)
  | x :: l =>
      size ← int32 (tot_size + usage_size x);
      count ← int32 (tot_count + usage_count x);
      sum_totals l count size
  end.

Definition display_totals : St order_1 () :=
  s ← get_st;
  t ← lift_st (sum_totals (wrapper_stats s) 0 0);
  display_stat_line (chars "TOTAL:") t.1 t.2.

(** There are no more sizes than elements. *)
Fixpoint display_sizes (fuel : nat) (largest : Z) : St order_1 () :=
  if 0 <=? largest then
    match fuel with
    | O => undefined
    | S fuel =>
        display_wrappers_of_size largest ;;
        largest ← biggest_below_value largest;
        display_sizes fuel largest
    end
  else mret ().

Definition heading : list Z :=
  let message := chars "Start of heap statistics" in
  [10] ++ message ++ display_padding_for_string message 32 class_name_size ++
  chars "   (count)     (size)" ++ [10; 10].

Definition ending : list Z := chars "End of heap statistics" ++ [10; 10].

Definition display_wrapper_stats : St order_1 () :=
  print heading ;;
  display_totals ;;
  print [10] ;;
  s ← get_st;
  largest ← biggest_below_value very_big;
  display_sizes (length (wrapper_stats s)) largest ;;
  print ending.

(** The walk calls its function on each object. *)
Definition display_heap_stats_order_1 (objects : list Z) : St order_1 () :=
  clear_wrapper_stats ;; for_each objects record_order_1_object ;; display_wrapper_stats.

End walk.
