(* ===== verification/HeapOrderLaws.v ===== *)
(** * The heap statistics by class are complete and in order

    Every object of the walk is counted with its class, once; the report lists every
    class, the greatest total size first. *)

From S2P Require Import Prelude Effects HeapTable HeapUtils HeapOrder.
From Stdlib Require Import ZArith Lia Bool String.
From stdpp Require Import base tactics option list numbers gmap sorting.

Local Open Scope Z_scope.

(** ** Sums *)

Definition sum (l : list Z) : Z := foldr Z.add 0 l.
#[global] Arguments sum : simpl never.

Lemma sum_nil : sum [] = 0.
Proof. done. Qed.
Lemma sum_cons x l : sum (x :: l) = x + sum l.
Proof. done. Qed.
Lemma sum_app l k : sum (l ++ k) = sum l + sum k.
Proof. induction l; simpl; rewrite ?sum_cons; [done | lia]. Qed.
Lemma sum_nonneg l : Forall (λ x, 0 <= x) l → 0 <= sum l.
Proof. induction 1; rewrite ?sum_cons; [done | lia]. Qed.

(** The classes and sizes of the objects seen *)
Definition count_of (w : Z) (objs : list (Z * Z)) : Z :=
  Z.of_nat (length (filter (λ x, x.1 = w) objs)).
Definition size_of (w : Z) (objs : list (Z * Z)) : Z :=
  sum (snd <$> filter (λ x, x.1 = w) objs).

Record tallies (objs : list (Z * Z)) (l : list wrapper_stat) : Prop := {
  t_nodup : NoDup (wrapper_address <$> l);
  t_classes w : w ∈ wrapper_address <$> l ↔ w ∈ objs.*1;
  t_exact x : x ∈ l →
    usage_count x = count_of (wrapper_address x) objs ∧
    usage_size x = size_of (wrapper_address x) objs;
  t_count : sum (usage_count <$> l) = Z.of_nat (length objs);
  t_size : sum (usage_size <$> l) = sum objs.*2
}.

Lemma find_wrapper_spec w l i :
  match find_wrapper w l i with
  | Some j => ∃ k x, j = i + Z.of_nat k ∧ l !! k = Some x ∧ wrapper_address x = w
  | None => w ∉ wrapper_address <$> l
  end.
Proof.
  revert i. induction l as [|x l IH]; intros i; simpl; [apply not_elem_of_nil|].
  destruct (Z.eqb_spec (wrapper_address x) w) as [E | E].
  - exists 0%nat, x. split; [lia | done].
  - specialize (IH (i + 1)). destruct (find_wrapper w l (i + 1)) as [j|].
    + destruct IH as (k & y & -> & Hy & Hw). exists (S k), y. split; [lia | done].
    + apply not_elem_of_cons. by split.
Qed.

Lemma count_of_app w objs v z :
  count_of w (objs ++ [(v, z)]) = count_of w objs + if decide (v = w) then 1 else 0.
Proof.
  unfold count_of. rewrite filter_app, length_app, filter_cons, filter_nil. simpl.
  destruct (decide (v = w)); simpl; lia.
Qed.
Lemma size_of_app w objs v z :
  size_of w (objs ++ [(v, z)]) = size_of w objs + if decide (v = w) then z else 0.
Proof.
  unfold size_of. rewrite filter_app, fmap_app, sum_app, filter_cons, filter_nil. simpl.
  destruct (decide (v = w)); simpl; rewrite ?sum_cons, ?sum_nil; lia.
Qed.

Lemma sum_insert {A} (f : A → Z) (l : list A) k x y :
  l !! k = Some x → sum (f <$> <[k := y]> l) = sum (f <$> l) - f x + f y.
Proof.
  revert k. induction l as [|a l IH]; intros [|k]; try done; cbn [lookup list_lookup].
  - intros [= ->]. change (<[0%nat := y]> (x :: l)) with (y :: l). rewrite !fmap_cons, !sum_cons. lia.
  - intros H. specialize (IH k H). change (<[S k := y]> (a :: l)) with (a :: <[k := y]> l).
    rewrite !fmap_cons, !sum_cons. lia.
Qed.

(** One more object of a class that is known *)
Lemma tallies_again objs l k x z : tallies objs l → l !! k = Some x →
  tallies (objs ++ [(wrapper_address x, z)])
    (<[k := mkStat (wrapper_address x) (usage_count x + 1) (usage_size x + z)]> l).
Proof.
  intros T Hk.
  assert (wrapper_address <$> <[k := mkStat (wrapper_address x) (usage_count x + 1) (usage_size x + z)]> l =
    wrapper_address <$> l) as Ha.
  { rewrite list_fmap_insert. apply list_insert_id. by rewrite list_lookup_fmap, Hk. }
  split; rewrite ?Ha.
  - apply T.
  - intros w. rewrite fmap_app, elem_of_app, (t_classes _ _ T). simpl. split; [by left|].
    intros [? | ->%list_elem_of_singleton]; [done|]. apply (t_classes _ _ T).
    apply list_elem_of_fmap. exists x. split; [done | by eapply list_elem_of_lookup_2].
  - intros y Hy. rewrite count_of_app, size_of_app. apply list_elem_of_lookup in Hy as [i Hi].
    destruct (decide (i = k)) as [-> | Hne].
    + rewrite list_lookup_insert_eq in Hi by (by eapply lookup_lt_Some). injection Hi as <-. simpl.
      destruct (t_exact _ _ T x) as [-> ->]; [by eapply list_elem_of_lookup_2|].
      by rewrite !decide_True.
    + rewrite list_lookup_insert_ne in Hi by done.
      destruct (t_exact _ _ T y) as [-> ->]; [by eapply list_elem_of_lookup_2|].
      assert (wrapper_address x ≠ wrapper_address y); [|by rewrite !decide_False, !Z.add_0_r].
      intros E. apply Hne.
      eapply NoDup_lookup; [apply T | |]; rewrite list_lookup_fmap; [by rewrite Hi | by rewrite Hk; simpl; rewrite E].
  - rewrite (sum_insert _ _ _ _ _ Hk), (t_count _ _ T), length_app. simpl. lia.
  - rewrite (sum_insert _ _ _ _ _ Hk), (t_size _ _ T), fmap_app, sum_app. simpl. rewrite ?sum_cons, ?sum_nil. lia.
Qed.

(** And of a new one *)
Lemma tallies_new objs l w : tallies objs l → w ∉ wrapper_address <$> l →
  ∀ z, tallies (objs ++ [(w, z)]) (l ++ [mkStat w 1 z]).
Proof.
  intros T Hw z. assert (w ∉ objs.*1) as Hw' by (by rewrite <- (t_classes _ _ T)).
  assert (filter (λ x, x.1 = w) objs = []) as Hnone.
  { apply elem_of_nil_inv. intros x [<- Hx]%list_elem_of_filter. apply Hw'.
    apply list_elem_of_fmap. by exists x. }
  split; rewrite ?fmap_app; simpl.
  - apply NoDup_app. split; [apply T|]. split; [|apply NoDup_singleton].
    intros v Hv ->%list_elem_of_singleton. done.
  - intros v. rewrite !elem_of_app, (t_classes _ _ T). done.
  - intros y [Hy | ->%list_elem_of_singleton]%elem_of_app; rewrite count_of_app, size_of_app.
    + destruct (t_exact _ _ T y) as [-> ->]; [done|].
      assert (w ≠ wrapper_address y); [|by rewrite !decide_False, !Z.add_0_r].
      intros ->. apply Hw. apply list_elem_of_fmap. by exists y.
    + simpl. unfold count_of, size_of. rewrite Hnone. unfold sum. simpl.
      by rewrite !decide_True.
  - rewrite sum_app, (t_count _ _ T), length_app. simpl. rewrite ?sum_cons, ?sum_nil. lia.
  - rewrite !sum_app, (t_size _ _ T). done.
Qed.

Lemma tallies_nil : tallies [] [].
Proof. split; [apply NoDup_nil_2 | done | by intros x ?%elem_of_nil | done | done]. Qed.

(** The order of the elements does not matter. *)
Lemma tallies_permutation objs l k : l ≡ₚ k → tallies objs l → tallies objs k.
Proof.
  intros P [Hn Hc He Hs Hz]. assert (∀ f, sum (f <$> l) = sum (f <$> k)) as Hsum.
  { intros f. clear -P. induction P; rewrite ?fmap_cons, ?sum_cons; lia. }
  split; rewrite <- ?Hsum; try done.
  - by rewrite <- P.
  - intros w. by rewrite <- Hc, P.
  - intros x Hx. apply He. by rewrite P.
Qed.

(** ** Counting *)

Definition sized (objs : list (Z * Z)) : Prop := Forall (λ x, 0 <= x.2) objs.

(** The arithmetic of the counts does not overflow, and the array is large enough. *)
Record fits (objs : list (Z * Z)) : Prop := {
  fits_sized : sized objs;
  fits_size : sum objs.*2 < 100000000;
  fits_count : Z.of_nat (length objs) < 100000000;
  fits_classes : Z.of_nat (length (remove_dups objs.*1)) <= STAT_SIZE
}.

Lemma size_of_bounds w objs : sized objs → 0 <= size_of w objs <= sum objs.*2.
Proof.
  unfold size_of. induction 1 as [|[v z] objs Hz H IH]; [done|].
  rewrite filter_cons. destruct (decide _); rewrite !fmap_cons, !sum_cons; cbn [snd] in *; lia.
Qed.

Lemma count_of_bounds w objs : 0 <= count_of w objs <= Z.of_nat (length objs).
Proof. unfold count_of. pose proof (length_filter (λ x : Z * Z, x.1 = w) objs). lia. Qed.

Lemma fits_app objs k : fits (objs ++ k) → fits objs.
Proof.
  intros [Hs Hz Hc Hl]. apply Forall_app in Hs as [Hs Hk].
  rewrite fmap_app, sum_app in Hz. rewrite length_app in Hc.
  assert (0 <= sum k.*2) by (by apply sum_nonneg, Forall_fmap).
  split; [done | lia | lia |].
  etransitivity; [apply inj_le, submseteq_length | exact Hl].
  apply NoDup_submseteq; [apply NoDup_remove_dups|].
  intros x. rewrite !elem_of_remove_dups, fmap_app, elem_of_app. by left.
Qed.

Lemma tallies_length objs l : tallies objs l → length l = length (remove_dups objs.*1).
Proof.
  intros T. rewrite <- (length_fmap wrapper_address). apply Permutation_length.
  apply NoDup_Permutation; [apply T | apply NoDup_remove_dups |].
  intros w. by rewrite (t_classes _ _ T), elem_of_remove_dups.
Qed.

Lemma int32_fits x : 0 <= x <= very_big → int32 x = Some x.
Proof. intros H. unfold int32. apply decide_True. unfold very_big in H. word. Qed.

Lemma very_big_bound : 100000000 < very_big.
Proof. done. Qed.

Lemma add_stat_for_object_ok objs w z s :
  tallies objs (wrapper_stats s) → fits (objs ++ [(w, z)]) →
  ∃ l, add_stat_for_object w z s = Some ((), mkOrder l (printed s)) ∧ tallies (objs ++ [(w, z)]) l.
Proof.
  intros T F. destruct (F) as [Hs Hz Hc Hl]. pose proof very_big_bound.
  apply Forall_app in Hs as [Hs [Hk _]%Forall_cons]. simpl in Hk.
  rewrite fmap_app, sum_app in Hz. rewrite length_app in Hc.
  change [(w, z)].*2 with [z] in Hz. change (length [(w, z)]) with 1%nat in Hc.
  rewrite sum_cons, sum_nil in Hz.
  pose proof (size_of_bounds w objs Hs). pose proof (count_of_bounds w objs).
  unfold add_stat_for_object, index_for_wrapper, default_index_for_wrapper.
  pose proof (find_wrapper_spec w (wrapper_stats s) 0) as Hf. sstep (run_get s).
  destruct (find_wrapper w (wrapper_stats s) 0) as [i|].
  - destruct Hf as (k & x & -> & Hx & <-).
    destruct (t_exact _ _ T x) as [Ec Es]; [by eapply list_elem_of_lookup_2|].
    snorm. sstep (run_get s). rewrite Z.add_0_l, Nat2Z.id, Hx. sstep (run_lift x s).
    rewrite !int32_fits by lia. eexists. split; [done|]. by apply tallies_again.
  - assert (wrapper_cursor s < STAT_SIZE) as Hroom.
    { pose proof (tallies_new _ _ _ T Hf z) as T'. unfold wrapper_cursor.
      apply tallies_length in T'. rewrite length_app in T'. simpl in T'. lia. }
    rewrite (proj2 (Z.ltb_lt _ _) Hroom). snorm. rewrite (St_bind_Some _ _ _ _ _ (run_modify _ s)). snorm.
    rewrite (St_bind_Some _ _ _ _ _ (run_get _)).
    unfold wrapper_cursor. cbn [wrapper_stats]. rewrite Nat2Z.id, list_lookup_middle by done.
    snorm. rewrite (St_bind_Some _ _ _ _ _ (run_lift _ _)). cbn [usage_count usage_size wrapper_address].
    rewrite !int32_fits by lia. eexists. split; [done|].
    simpl. replace (<[length (wrapper_stats s) := mkStat w 1 z]> (wrapper_stats s ++ [mkStat w 0 0]))
      with (wrapper_stats s ++ [mkStat w 1 z]); [by apply tallies_new|].
    by rewrite insert_app_r_alt, Nat.sub_diag by done.
Qed.

(** ** The walk *)

Section walk.
Context (mem : gmap Z Z).

(** The class and the size of an object; a word whose wrapper is not one is no object. *)
Definition measured (object : Z) : option (list (Z * Z)) :=
  wrapper ← word_at mem object 0;
  if (wrapper =? 0) || negb (wrapper mod 4 =? 0) then Some []
  else size ← size_of_object mem object wrapper; Some [(wrapper, size)].

Fixpoint walked (objects : list Z) : option (list (Z * Z)) :=
  match objects with
  | [] => Some []
  | object :: objects => x ← measured object; l ← walked objects; Some (x ++ l)
  end.

Lemma record_order_1_object_ok object x objs s :
  measured object = Some x → tallies objs (wrapper_stats s) → fits (objs ++ x) →
  ∃ l, record_order_1_object mem object s = Some ((), mkOrder l (printed s)) ∧ tallies (objs ++ x) l.
Proof.
  unfold measured, record_order_1_object. intros Hm T F.
  destruct (word_at mem object 0) as [w|]; simpl in Hm; [|done].
  rewrite (St_bind_Some _ _ _ _ _ (run_lift w s)), wrapper_tag.
  destruct (Z.eqb_spec w 0); simpl in *.
  { injection Hm as <-. rewrite app_nil_r. exists (wrapper_stats s). by destruct s. }
  destruct (Z.eqb_spec (w mod 4) 0); simpl in *.
  2:{ injection Hm as <-. rewrite app_nil_r. exists (wrapper_stats s). by destruct s. }
  destruct (size_of_object mem object w) as [z|]; simpl in Hm; [|done]. injection Hm as <-.
  rewrite (St_bind_Some _ _ _ _ _ (run_lift z s)). by apply add_stat_for_object_ok.
Qed.

Lemma walk_ok objects k objs s :
  walked objects = Some k → tallies objs (wrapper_stats s) → fits (objs ++ k) →
  ∃ l, for_each objects (record_order_1_object mem) s = Some ((), mkOrder l (printed s)) ∧
    tallies (objs ++ k) l.
Proof.
  revert k objs s. induction objects as [|o objects IH]; intros k objs s; simpl.
  { intros [= <-] T F. rewrite app_nil_r. exists (wrapper_stats s). by destruct s. }
  destruct (measured o) as [x|] eqn:Em; simpl; [|done].
  destruct (walked objects) as [k'|]; simpl; [|done]. intros [= <-] T F.
  rewrite (assoc_L (++)) in F |- *.
  destruct (record_order_1_object_ok o x objs s) as (l & E & T'); [done | done | by eapply fits_app|].
  rewrite (St_bind_Some _ _ _ _ _ E). apply (IH k' (objs ++ x) (mkOrder l (printed s))); done.
Qed.

(** ** The order of the display *)

Lemma biggest_from_spec v f l : let b := biggest_from v f l in
  f <= b ∧ (b = f ∨ ∃ x, x ∈ l ∧ usage_size x = b ∧ b < v) ∧
  ∀ x, x ∈ l → usage_size x < v → usage_size x <= b.
Proof.
  revert f. induction l as [|y l IH]; intros f; simpl.
  { split; [lia|]. split; [by left|]. by intros x ?%elem_of_nil. }
  unfold sort_criterion_for_index.
  set (f' := if (usage_size y <? v) && (f <? usage_size y) then usage_size y else f).
  destruct (IH f') as (H1 & H2 & H3).
  assert (f <= f' ∧ (f' = f ∨ f' = usage_size y ∧ f' < v) ∧ (usage_size y < v → usage_size y <= f'))
    as (F1 & F2 & F3).
  { unfold f'. destruct (Z.ltb_spec (usage_size y) v), (Z.ltb_spec f (usage_size y)); simpl; lia. }
  split; [lia|]. split.
  - destruct H2 as [-> | (x & Hx & ?)]; [|right; exists x; split; [by right | done]].
    destruct F2 as [-> | [-> ?]]; [by left|]. right. exists y. split; [by left | done].
  - intros x [-> | Hx]%elem_of_cons Hv; [|by apply H3]. specialize (F3 Hv). lia.
Qed.

(** The elements below a size are those of the greatest such size and those below it. *)
Lemma below_split (v b : Z) (l : list wrapper_stat) :
  b < v → (∀ x, x ∈ l → usage_size x < v → usage_size x <= b) →
  filter (λ x, usage_size x < v) l ≡ₚ
    filter (λ x, usage_size x = b) l ++ filter (λ x, usage_size x < b) l.
Proof.
  intros Hb. induction l as [|x l IH]; intros H; [done|]. rewrite !filter_cons.
  specialize (H x (list_elem_of_here _ _)) as Hx.
  specialize (IH (λ y Hy, H y (list_elem_of_further _ _ _ Hy))).
  destruct (decide (usage_size x < v)); [|rewrite !decide_False by lia; done].
  specialize (Hx l0). destruct (decide (usage_size x = b)).
  - rewrite decide_False by lia. simpl. by constructor.
  - rewrite decide_True by lia. rewrite IH. by rewrite Permutation_middle.
Qed.

(** ** The lines *)

(** A line of the report: the name in its column, the count and the size in theirs. *)
Definition stat_line (message : list Z) (count size : Z) : list Z :=
  take 45 message ++ replicate (45 - length message) 32 ++
  number_column count ++ [32] ++ number_column size ++ [10].

Definition prints (l : list Z) (m : St order_1 ()) : Prop :=
  ∀ s, m s = Some ((), mkOrder (wrapper_stats s) (printed s ++ l)).

Lemma print_prints l : prints l (print l).
Proof. done. Qed.
Lemma prints_then l k m n : prints l m → prints k n → prints (l ++ k) (m ;; n).
Proof. intros Hm Hn s. rewrite (St_bind_Some _ _ _ _ _ (Hm s)), Hn. simpl. by rewrite (assoc_L (++)). Qed.

(** The numbers have eight digits at most. *)
Definition eight_digits (n : Z) : Prop := 0 <= n < 100000000.

Lemma display_stat_line_prints message count size :
  eight_digits count → eight_digits size →
  prints (stat_line message count size) (display_stat_line message count size).
Proof.
  intros Hc Hs. unfold stat_line, display_stat_line.
  rewrite <- !display_integer_column by done. repeat apply prints_then; try done.
  assert (replicate (45 - length message) 32 = display_padding_for_string message 32 class_name_size)
    as ->; [|done].
  unfold display_padding_for_string, padding_for_string, class_name_size. f_equal. lia.
Qed.

Definition class_name (wrapper : Z) : option (list Z) :=
  name ← class_name_from_wrapper mem wrapper; string_at mem name.

Context (names : Z → list Z).

Definition class_line (x : wrapper_stat) : list Z :=
  stat_line (names (wrapper_address x)) (usage_count x) (usage_size x).

Lemma display_one_wrapper_prints x :
  class_name (wrapper_address x) = Some (names (wrapper_address x)) →
  eight_digits (usage_count x) → eight_digits (usage_size x) →
  prints (class_line x) (display_one_wrapper mem x).
Proof.
  unfold class_name, display_one_wrapper. intros Hn Hc Hs s.
  destruct (class_name_from_wrapper mem (wrapper_address x)) as [a|]; simpl in Hn; [|done].
  rewrite (St_bind_Some _ _ _ _ _ (run_lift a s)), Hn, (St_bind_Some _ _ _ _ _ (run_lift _ s)).
  by apply display_stat_line_prints.
Qed.

Definition named (l : list wrapper_stat) : Prop :=
  ∀ x, x ∈ l → class_name (wrapper_address x) = Some (names (wrapper_address x)) ∧
    eight_digits (usage_count x) ∧ eight_digits (usage_size x).

Lemma display_elements_of_size v l s : named l →
  for_each l (λ x, when_ (sort_criterion_for_index x =? v) (display_one_wrapper mem x)) s =
  Some ((), mkOrder (wrapper_stats s)
    (printed s ++ concat (class_line <$> filter (λ x, usage_size x = v) l))).
Proof.
  revert s. induction l as [|x l IH]; intros s Hn; cbn [for_each].
  { simpl. rewrite app_nil_r. by destruct s. }
  assert (named l) as Hl by (intros y Hy; by apply Hn, list_elem_of_further).
  rewrite filter_cons. change (sort_criterion_for_index x) with (usage_size x).
  destruct (Z.eqb_spec (usage_size x) v) as [E | E].
  - rewrite decide_True by done. cbn [when_].
    destruct (Hn x (list_elem_of_here _ _)) as (Hx & Hc & Hz).
    rewrite (St_bind_Some _ _ _ _ _ (display_one_wrapper_prints x Hx Hc Hz s)).
    rewrite IH by done. simpl. by rewrite (assoc_L (++)).
  - rewrite decide_False by done. cbn [when_]. rewrite St_ret_bind. by apply IH.
Qed.

Definition decreasing : list wrapper_stat → Prop :=
  StronglySorted (λ x y, usage_size y <= usage_size x).

Lemma decreasing_app b l k : decreasing k →
  (∀ x, x ∈ l → usage_size x = b) → (∀ x, x ∈ k → usage_size x < b) → decreasing (l ++ k).
Proof.
  intros Hk Hl Hb. induction l as [|x l IH]; [done|]. simpl. constructor.
  - apply IH. intros y Hy. by apply Hl, list_elem_of_further.
  - apply Forall_forall. intros y. rewrite (Hl x (list_elem_of_here _ _)).
    intros [Hy | Hy]%elem_of_app; [by rewrite (Hl y (list_elem_of_further _ _ _ Hy)) | specialize (Hb y Hy); lia].
Qed.

Lemma list_filter_all (P : wrapper_stat → Prop) `{∀ x, Decision (P x)} (l : list wrapper_stat) :
  (∀ x, x ∈ l → P x) → filter P l = l.
Proof.
  induction l as [|x l IH]; intros H'; [done|].
  rewrite filter_cons_True by (apply H', list_elem_of_here).
  by rewrite IH by (intros y Hy; by apply H', list_elem_of_further).
Qed.

(** Each round displays the classes of one size; it ends. *)
Lemma display_sizes_ok l v fuel s : wrapper_stats s = l → named l →
  (∀ x, x ∈ l → 0 <= usage_size x) → (length (filter (λ x, (usage_size x < v)%Z) l) ≤ fuel)%nat →
  ∃ k, display_sizes mem fuel (biggest_from v (-1) l) s =
      Some ((), mkOrder l (printed s ++ concat (class_line <$> k))) ∧
    k ≡ₚ filter (λ x, usage_size x < v) l ∧ decreasing k.
Proof.
  intros Hs Hn Hpos. revert v s Hs. induction fuel as [|fuel IH]; intros v s Hs Hf;
    destruct (biggest_from_spec v (-1) l) as (H1 & H2 & H3); set (b := biggest_from v (-1) l) in *;
    cbn [display_sizes]; destruct (Z.leb_spec 0 b) as [Hb | Hb].
  2, 4: exists []; simpl; rewrite app_nil_r; repeat split; [by destruct s; simpl in *; subst | | constructor];
    symmetry; apply Permutation_nil_r, elem_of_nil_inv; intros x [Hx Hxl]%list_elem_of_filter;
    specialize (H3 x Hxl Hx); specialize (Hpos x Hxl); lia.
  all: destruct H2 as [? | (x & Hx & Hxb & Hbv)]; [lia|].
  { exfalso. apply Nat.le_0_r, nil_length_inv in Hf.
    eapply not_elem_of_nil. rewrite <- Hf. apply list_elem_of_filter. split; [|exact Hx]. lia. }
  pose proof (below_split v b l Hbv H3) as P.
  destruct (IH b (mkOrder l (printed s ++ concat (class_line <$> filter (λ x, usage_size x = b) l))))
    as (k & E & Pk & Dk); [done | |].
  { apply Permutation_length in P. rewrite length_app in P.
    assert (x ∈ filter (λ x, usage_size x = b) l) as [i Hi%lookup_lt_Some]%list_elem_of_lookup
      by (by apply list_elem_of_filter). lia. }
  exists (filter (λ x, usage_size x = b) l ++ k). unfold display_wrappers_of_size.
  snorm. rewrite (St_bind_Some _ _ _ _ _ (run_get s)), Hs. snorm.
  rewrite (St_bind_Some _ _ _ _ _ (display_elements_of_size b l s Hn)), Hs. snorm.
  unfold biggest_below_value. snorm. rewrite (St_bind_Some _ _ _ _ _ (run_get _)). snorm.
  cbn [wrapper_stats]. rewrite E. cbn [printed].
  rewrite fmap_app, concat_app, (assoc_L (++)). split; [done|].
  split; [etransitivity; [apply Permutation_app_head, Pk | by symmetry]|].
  apply (decreasing_app b); [done | by intros y [? _]%list_elem_of_filter |].
  intros y Hy. rewrite Pk in Hy. by apply list_elem_of_filter in Hy as [? _].
Qed.

(** ** The report *)

Lemma sum_totals_ok l count size : Forall (λ x, 0 <= usage_count x ∧ 0 <= usage_size x) l →
  0 <= count → 0 <= size → count + sum (usage_count <$> l) <= very_big →
  size + sum (usage_size <$> l) <= very_big →
  sum_totals l count size = Some (count + sum (usage_count <$> l), size + sum (usage_size <$> l)).
Proof.
  intros H. revert count size. induction H as [|x l [Hc Hs] H IH]; intros count size ????.
  { cbn. rewrite !sum_nil, !Z.add_0_r. done. }
  rewrite !fmap_cons, !sum_cons in *. cbn [sum_totals].
  assert (0 <= sum (usage_count <$> l)) by
    (apply sum_nonneg, Forall_fmap; eapply Forall_impl; [done|]; by intros y []).
  assert (0 <= sum (usage_size <$> l)) by
    (apply sum_nonneg, Forall_fmap; eapply Forall_impl; [done|]; by intros y []).
  rewrite int32_fits by lia. cbn. rewrite int32_fits by lia. cbn. rewrite IH by lia.
  do 2 f_equal; lia.
Qed.

Lemma tallies_nonneg objs l : sized objs → tallies objs l →
  Forall (λ x, 0 <= usage_count x ∧ 0 <= usage_size x) l.
Proof.
  intros Hs T. apply Forall_forall. intros x Hx. destruct (t_exact _ _ T x Hx) as [-> ->].
  split; [apply count_of_bounds | by apply size_of_bounds].
Qed.

(** The report on objects counted in [l] *)
Definition report (objs : list (Z * Z)) (l : list wrapper_stat) : list Z :=
  heading ++ stat_line (chars "TOTAL:") (Z.of_nat (length objs)) (sum objs.*2) ++ [10] ++
  concat (class_line <$> l) ++ ending.

Lemma display_wrapper_stats_ok objs s :
  tallies objs (wrapper_stats s) → fits objs → named (wrapper_stats s) →
  ∃ l s', display_wrapper_stats mem s = Some ((), s') ∧ l ≡ₚ wrapper_stats s ∧ decreasing l ∧
    printed s' = printed s ++ report objs l.
Proof.
  intros T F Hn. pose proof very_big_bound. destruct (F) as [Hs Hz Hc _]. pose proof (tallies_nonneg _ _ Hs T) as Hpos.
  unfold display_wrapper_stats, display_totals, biggest_below_value.
  snorm. rewrite (St_bind_Some _ _ _ _ _ (print_prints heading s)).
  snorm. rewrite (St_bind_Some _ _ _ _ _ (run_get _)). snorm. cbn [wrapper_stats printed].
  rewrite sum_totals_ok, (t_count _ _ T), (t_size _ _ T), !Z.add_0_l;
    rewrite ?(t_count _ _ T), ?(t_size _ _ T); try done; try lia.
  rewrite (St_bind_Some _ _ _ _ _ (run_lift _ _)). snorm. cbn [fst snd].
  assert (eight_digits (Z.of_nat (length objs)) ∧ eight_digits (sum objs.*2)) as [Lc Lz].
  { pose proof (size_of_bounds 0 objs Hs). unfold eight_digits. lia. }
  rewrite (St_bind_Some _ _ _ _ _ (display_stat_line_prints _ _ _ Lc Lz _)). snorm.
  rewrite (St_bind_Some _ _ _ _ _ (print_prints _ _)). snorm.
  do 2 (rewrite (St_bind_Some _ _ _ _ _ (run_get _)); snorm). cbn [wrapper_stats printed].
  set (ws := wrapper_stats s) in *.
  destruct (display_sizes_ok ws very_big (length ws) (mkOrder ws
    (((printed s ++ heading) ++ stat_line (chars "TOTAL:") (Z.of_nat (length objs)) (sum objs.*2)) ++ [10])))
    as (l & E & P & D); [done | done | | apply length_filter |].
  { intros x Hx. rewrite Forall_forall in Hpos. by apply Hpos. }
  exists l. eexists. rewrite (St_bind_Some _ _ _ _ _ E). split; [apply print_prints|].
  split; [|split; [done|]].
  - rewrite P, list_filter_all; [done|]. intros x Hx. destruct (t_exact _ _ T x Hx) as [_ ->].
    pose proof (size_of_bounds (wrapper_address x) objs Hs). lia.
  - unfold report. cbn [printed]. by rewrite <- !(assoc_L (++)).
Qed.

(** C18: display_heap_stats_order_1, on a walk over fewer than 10^8 readable
    objects of at most 10000 classes whose total size is below 10^8 bytes,
    returns and prints the heading, the line of the totals and, after it,
    one line for every class met and no other, with the number of its
    objects and the sum of their sizes, in decreasing order of the sizes;
    each number is in its column as its decimal digits, with a comma before
    each group of three and blanks before the first digit. (From 10^8 on,
    display_integer prints no number.) *)
Theorem heap_stats_list_every_class objects objs s :
  walked objects = Some objs → fits objs →
  (∀ w, w ∈ objs.*1 → class_name w = Some (names w)) →
  ∃ l s', display_heap_stats_order_1 mem objects s = Some ((), s') ∧
    tallies objs l ∧ decreasing l ∧ printed s' = printed s ++ report objs l.
Proof.
  intros Hw F Hn. unfold display_heap_stats_order_1, clear_wrapper_stats.
  snorm. rewrite (St_bind_Some _ _ _ _ _ (run_modify _ s)). snorm.
  destruct (walk_ok objects objs [] (mkOrder [] (printed s))) as (ws & E & T);
    [done | apply tallies_nil | done |].
  rewrite (St_bind_Some _ _ _ _ _ E).
  destruct (display_wrapper_stats_ok objs (mkOrder ws (printed s))) as (l & s' & E' & P & D & Ep);
    [done | done | |].
  { intros x Hx. split; [apply Hn, (t_classes _ _ T), list_elem_of_fmap; by exists x|]. simpl in T.
    destruct F as [Fs Fz Fc _], (t_exact _ _ T x Hx) as [-> ->].
    pose proof (size_of_bounds (wrapper_address x) objs Fs).
    pose proof (count_of_bounds (wrapper_address x) objs). unfold eight_digits. lia. }
  exists l, s'. split; [done|]. split; [|done]. by eapply tallies_permutation.
Qed.

End walk.

(** *** A heap with objects of two classes, [Ob] and [Pq] *)

Definition two_classes : gmap Z Z := list_to_map
  [(256, 0); (260, 320); (264, 0); (268, 5); (272, 7); (328, 336); (344, 352); (360, 25167);
   (400, 0); (404, 448); (408, 0); (412, 17); (416, 7); (456, 464); (472, 480); (488, 29008);
   (512, 256); (516, 520); (520, 256); (524, 1); (528, 400); (552, 3)].

Definition two_names (wrapper : Z) : list Z := chars (if wrapper =? 256 then "Ob" else "Pq").

Example heap_stats_list_every_class_witness :
  ∃ l s', display_heap_stats_order_1 two_classes [512; 552; 520; 528] (mkOrder [] []) = Some ((), s') ∧
    tallies [(256, 8); (256, 8); (400, 20)] l ∧ decreasing l ∧
    printed s' = [] ++ report two_names [(256, 8); (256, 8); (400, 20)] l.
Proof.
  apply (heap_stats_list_every_class two_classes two_names [512; 552; 520; 528] _ (mkOrder [] [])).
  - by vm_compute.
  - split; [repeat constructor; done | by vm_compute | by vm_compute | by vm_compute].
  - intros w Hw. repeat (apply elem_of_cons in Hw as [->|Hw]; [by vm_compute|]).
    by apply elem_of_nil in Hw.
Defined.

(** The class with the greater total comes first. *)
Example display_two_classes :
  printed <$> (snd <$> display_heap_stats_order_1 two_classes [512; 552; 520; 528] (mkOrder [] [])) =
  Some (report two_names [(256, 8); (256, 8); (400, 20)] [mkStat 400 1 20; mkStat 256 2 16]).
Proof. by vm_compute. Qed.

(** A class whose objects have the size [very_big] is left out of the report: the search
    for the greatest size starts below it. *)
Example very_big_class_left_out : biggest_from very_big (-1) [mkStat 256 1 very_big] = -1.
Proof. reflexivity. Qed.
