(* ===== verification/HarpLocks.v ===== *)
(** * Locks of the HARP run-time

    The synchronization primitives of [unix-threads-primitives.c], for code of the
    native back end, as programs of [Concur.v] over the mutexes of [Locks.v].  A
    simple lock is an error-checking mutex with a field that names its owner, which
    every operation looks at first, without the mutex; a recursive lock has a count
    of its own besides.  A thread is named by its handle, that is not 0 once the
    thread is initialized.  Here [int] and [long] have 32 bits.  Sleeping and
    messages have no effect on the memory. *)

From S2P Require Import Prelude Memory Tagging Concur Tlv Locks.
From stdpp Require Import base tactics option list numbers gmap.
From Stdlib Require Import ZArith Lia.

Local Open Scope Z_scope.
Local Open Scope prog_scope.

(** ** The pthread library, and semaphores *)

Definition EBUSY : Z := 16.

Definition pthread_mutex_trylock (self m : Z) : prog :=
  r <~ Act (Compare_and_swap m self 0);; Ret (if r =? 0 then 0 else EBUSY).

(** [sem_wait] is called in a loop that it is interrupted in whenever it would block; the
    answers are 0 and [EINTR]. *)
Definition sem_wait (sema : Z) : prog :=
  r <~ Do (sem_attempt sema) (λ r, r =? 2);; Ret (if r =? 0 then 0 else EINTR).
Definition sem_trywait (sema : Z) : prog :=
  r <~ Do (sem_attempt sema) (λ r, r =? 2);; Ret (if r =? 0 then 0 else EAGAIN).

(** What the library answers when a mutex is made. *)
Record mutex_init_results := mkMutexInit {
  res_mutexattr_init : Z;
  res_mutexattr_settype : Z;
  res_mutex_init : Z;
  res_mutexattr_destroy : Z
}.

Definition sleeptime : Z := 100.

Definition primitive_sleep (zmilsecs : Z) : prog := assert (IS_ZINT zmilsecs).

(** [(int)(zmilsecs >> 2)] *)
Definition milliseconds (zmilsecs : Z) : Z := s32 (Z.shiftr (s32 zmilsecs) 2).

(** Sleeps until the timeout is over. *)
Definition sleeps (timeout : Z) : nat := Z.to_nat (timeout / sleeptime + 1).

(** ** Layouts *)

Definition slock_mutex (s : Z) : Z := idx s 0.
Definition slock_owner (s : Z) : Z := idx s 1.
Definition rlock_mutex (r : Z) : Z := idx r 0.
Definition rlock_owner (r : Z) : Z := idx r 1.
Definition rlock_recursion_count (r : Z) : Z := idx r 2.
Definition semaphore_sema (s : Z) : Z := idx s 0.

(** ** Simple locks *)

Definition primitive_wait_for_simple_lock (hThread lock : Z) : prog :=
  slock <~ get_handle lock;;
  owner <~ Act (Load (slock_owner slock));;
  if (owner =? hThread) && negb (hThread =? 0) then Ret ALREADY_LOCKED
  else
    status <~ errorcheck_lock hThread (slock_mutex slock);;
    if negb (status =? 0) then Ret GENERAL_ERROR
    else
      Act (Store (slock_owner slock) hThread);;;
      Ret OK.

(** The loop over [pthread_mutex_trylock]; [n] is more than the sleeps that are
    left. *)
Fixpoint trylock_loop (n : nat) (self m timeleft : Z) : prog :=
  status <~ pthread_mutex_trylock self m;;
  if status =? 0 then Ret OK
  else if status =? EBUSY then
    if timeleft <=? 0 then Ret TIMEOUT
    else
      primitive_sleep (I sleeptime);;;
      match n with O => halt | S n => trylock_loop n self m (timeleft - sleeptime) end
  else Ret GENERAL_ERROR.

Definition primitive_wait_for_simple_lock_timed (hThread lock zmilsecs : Z) : prog :=
  let timeout := milliseconds zmilsecs in
  assert_handle lock;;;
  assert (IS_ZINT zmilsecs);;;
  slock <~ Act (Load (container_handle lock));;
  owner <~ Act (Load (slock_owner slock));;
  if owner =? hThread then Ret ALREADY_LOCKED
  else
    r <~ trylock_loop (sleeps timeout) hThread (slock_mutex slock) timeout;;
    if r =? OK then
      Act (Store (slock_owner slock) hThread);;;
      Ret OK
    else Ret r.

Definition primitive_release_simple_lock (hThread lock : Z) : prog :=
  slock <~ get_handle lock;;
  owner <~ Act (Load (slock_owner slock));;
  if negb (owner =? hThread) then Ret NOT_LOCKED
  else
    Act (Store (slock_owner slock) 0);;;
    status <~ errorcheck_unlock hThread (slock_mutex slock);;
    if negb (status =? 0) then Ret GENERAL_ERROR else Ret OK.

Definition primitive_make_simple_lock (r : mutex_init_results) (lock : Z) : prog :=
  assert (negb (lock =? NULL));;;
  slock <~ Act (Allocate [0; 0]);;
  if slock =? NULL then Ret GENERAL_ERROR
  else
    Act (Store (slock_owner slock) 0);;;
    if negb (res_mutexattr_init r =? 0) then Ret GENERAL_ERROR
    else if negb (res_mutexattr_settype r =? 0) then Ret GENERAL_ERROR
    else if negb (res_mutex_init r =? 0) then Ret GENERAL_ERROR
    else
      Act (Store (slock_mutex slock) 0);;;
      if negb (res_mutexattr_destroy r =? 0) then Ret GENERAL_ERROR
      else
        Act (Store (container_handle lock) slock);;;
        Ret OK.

(** [res]: the answer of [pthread_mutex_destroy]. *)
Definition primitive_destroy_simple_lock (res lock : Z) : prog :=
  slock <~ get_handle lock;;
  if negb (res =? 0) then Ret GENERAL_ERROR
  else Act (Deallocate slock 2);;; Ret OK.

Definition primitive_owned_simple_lock (hThread lock : Z) : prog :=
  slock <~ get_handle lock;;
  owner <~ Act (Load (slock_owner slock));;
  if owner =? hThread then Ret (I 1) else Ret (I 0).

Definition primitive_unlock_simple_lock (hThread lock : Z) : prog :=
  slock <~ get_handle lock;;
  owner <~ Act (Load (slock_owner slock));;
  if owner =? 0 then Ret OK else primitive_release_simple_lock hThread lock.

(** ** Notifications *)

(** [res]: the answer of [pthread_cond_init]. *)
Definition primitive_make_notification (res notif : Z) : prog :=
  assert (negb (notif =? NULL));;;
  notification <~ Act (Allocate [0]);;
  if notification =? NULL then Ret GENERAL_ERROR
  else if negb (res =? 0) then Ret GENERAL_ERROR
  else
    Act (Store (container_handle notif) notification);;;
    Ret OK.

Definition primitive_destroy_notification (res notif : Z) : prog :=
  notification <~ get_handle notif;;
  if negb (res =? 0) then Ret GENERAL_ERROR
  else Act (Deallocate notification 1);;; Ret OK.

(** The assertion after the mutex has been taken again, and the claim. *)
Definition reclaim (hThread slock result : Z) : prog :=
  owner <~ Act (Load (slock_owner slock));;
  assert (owner =? 0);;;
  Act (Store (slock_owner slock) hThread);;;
  Ret result.

Definition primitive_wait_for_notification (hThread notif lock : Z) : prog :=
  assert_handle notif;;;
  assert_handle lock;;;
  notification <~ Act (Load (container_handle notif));;
  slock <~ Act (Load (container_handle lock));;
  owner <~ Act (Load (slock_owner slock));;
  if negb (owner =? hThread) then Ret NOT_LOCKED
  else
    Act (Store (slock_owner slock) 0);;;
    status <~ errorcheck_cond_wait hThread (slock_mutex slock) 0;;
    if negb (status =? 0) then Ret GENERAL_ERROR else reclaim hThread slock OK.

(** The timeout in whole seconds, at least one. *)
Definition notification_seconds (zmilsecs : Z) : Z :=
  let secs := Z.quot (milliseconds zmilsecs) 1000 in
  if secs =? 0 then secs + 1 else secs.

(** [up end]: whether the time [end] comes before a signal; [time] is now. *)
Definition primitive_wait_for_notification_timed (time : Z) (up : timespec → bool)
    (hThread notif lock zmilsecs : Z) : prog :=
  assert_handle notif;;;
  assert_handle lock;;;
  assert (IS_ZINT zmilsecs);;;
  notification <~ Act (Load (container_handle notif));;
  slock <~ Act (Load (container_handle lock));;
  let limit := mkTime (notification_seconds zmilsecs + time) 0 in
  owner <~ Act (Load (slock_owner slock));;
  if negb (owner =? hThread) then Ret NOT_LOCKED
  else
    Act (Store (slock_owner slock) 0);;;
    status <~ errorcheck_cond_wait hThread (slock_mutex slock) (if up limit then ETIMEDOUT else 0);;
    if status =? 0 then reclaim hThread slock OK
    else if status =? ETIMEDOUT then reclaim hThread slock TIMEOUT
    else Ret GENERAL_ERROR.

Definition primitive_release_notification (hThread notif lock : Z) : prog :=
  assert_handle notif;;;
  assert_handle lock;;;
  notification <~ Act (Load (container_handle notif));;
  slock <~ Act (Load (container_handle lock));;
  owner <~ Act (Load (slock_owner slock));;
  if negb (owner =? hThread) then Ret NOT_LOCKED
  else
    r <~ pthread_cond_signal;;
    if negb (r =? 0) then Ret GENERAL_ERROR else Ret OK.

Definition primitive_release_all_notification (hThread notif lock : Z) : prog :=
  assert_handle notif;;;
  assert_handle lock;;;
  notification <~ Act (Load (container_handle notif));;
  slock <~ Act (Load (container_handle lock));;
  owner <~ Act (Load (slock_owner slock));;
  if negb (owner =? hThread) then Ret NOT_LOCKED
  else
    r <~ pthread_cond_broadcast;;
    if negb (r =? 0) then Ret GENERAL_ERROR else Ret OK.

(** ** Recursive locks *)

Definition primitive_make_recursive_lock (r : mutex_init_results) (lock : Z) : prog :=
  assert (negb (lock =? NULL));;;
  rlock <~ Act (Allocate [0; 0; 0]);;
  if rlock =? NULL then Ret GENERAL_ERROR
  else
    Act (Store (rlock_owner rlock) 0);;;
    Act (Store (rlock_recursion_count rlock) 0);;;
    if negb (res_mutexattr_init r =? 0) then Ret GENERAL_ERROR
    else if negb (res_mutexattr_settype r =? 0) then Ret GENERAL_ERROR
    else if negb (res_mutex_init r =? 0) then Ret GENERAL_ERROR
    else
      Act (Store (rlock_mutex rlock) 0);;;
      if negb (res_mutexattr_destroy r =? 0) then Ret GENERAL_ERROR
      else
        Act (Store (container_handle lock) rlock);;;
        Ret OK.

Definition primitive_destroy_recursive_lock (res lock : Z) : prog :=
  rlock <~ get_handle lock;;
  if negb (res =? 0) then Ret GENERAL_ERROR
  else Act (Deallocate rlock 3);;; Ret OK.

(** [recursion_count++], by the owner. *)
Definition lock_again (rlock : Z) : prog :=
  count <~ Act (Load (rlock_recursion_count rlock));;
  assert (0 <? count);;;
  count <~ Act (Load (rlock_recursion_count rlock));;
  Act (Store (rlock_recursion_count rlock) (s32 (count + 1)));;;
  Ret OK.

(** The mutex has been taken. *)
Definition lock_first (hThread rlock : Z) : prog :=
  count <~ Act (Load (rlock_recursion_count rlock));;
  assert (count =? 0);;;
  Act (Store (rlock_recursion_count rlock) 1);;;
  Act (Store (rlock_owner rlock) hThread);;;
  Ret OK.

Definition primitive_wait_for_recursive_lock (hThread lock : Z) : prog :=
  rlock <~ get_handle lock;;
  owner <~ Act (Load (rlock_owner rlock));;
  if owner =? hThread then lock_again rlock
  else
    status <~ errorcheck_lock hThread (rlock_mutex rlock);;
    if negb (status =? 0) then Ret GENERAL_ERROR else lock_first hThread rlock.

Definition primitive_wait_for_recursive_lock_timed (hThread lock zmilsecs : Z) : prog :=
  let timeout := milliseconds zmilsecs in
  assert_handle lock;;;
  assert (IS_ZINT zmilsecs);;;
  rlock <~ Act (Load (container_handle lock));;
  owner <~ Act (Load (rlock_owner rlock));;
  if owner =? hThread then lock_again rlock
  else
    r <~ trylock_loop (sleeps timeout) hThread (rlock_mutex rlock) timeout;;
    if r =? OK then lock_first hThread rlock else Ret r.

Definition primitive_release_recursive_lock (hThread lock : Z) : prog :=
  rlock <~ get_handle lock;;
  owner <~ Act (Load (rlock_owner rlock));;
  if negb (owner =? hThread) then Ret NOT_LOCKED
  else
    count <~ Act (Load (rlock_recursion_count rlock));;
    Act (Store (rlock_recursion_count rlock) (s32 (count - 1)));;;
    if s32 (count - 1) =? 0 then
      Act (Store (rlock_owner rlock) 0);;;
      status <~ errorcheck_unlock hThread (rlock_mutex rlock);;
      if negb (status =? 0) then Ret GENERAL_ERROR else Ret OK
    else Ret OK.

Definition primitive_owned_recursive_lock (hThread lock : Z) : prog :=
  rlock <~ get_handle lock;;
  owner <~ Act (Load (rlock_owner rlock));;
  if owner =? hThread then Ret (I 1) else Ret (I 0).

(** The loop of [primitive_unlock_recursive_lock]: it ends when a release fails. *)
Definition primitive_unlock_recursive_lock (hThread lock : Z) : prog :=
  rlock <~ get_handle lock;;
  owner <~ Act (Load (rlock_owner rlock));;
  if owner =? 0 then
    count <~ Act (Load (rlock_recursion_count rlock));;
    assert (count =? 0);;;
    Ret OK
  else
    While (λ res, res =? NULL) NULL (λ _,
      count <~ Act (Load (rlock_recursion_count rlock));;
      if 0 <? count then
        res <~ primitive_release_recursive_lock hThread lock;;
        Ret (if res =? OK then NULL else res)
      else Ret OK).

(** ** Semaphores *)

(** [res]: the answer of [sem_init]; the maximum is not used. *)
Definition primitive_make_semaphore (res lock zinitial zmax : Z) : prog :=
  assert (negb (lock =? NULL));;;
  assert (IS_ZINT zinitial);;;
  assert (IS_ZINT zmax);;;
  semaphore <~ Act (Allocate [0]);;
  if semaphore =? NULL then Ret GENERAL_ERROR
  else if res =? -1 then Ret GENERAL_ERROR
  else
    Act (Store (semaphore_sema semaphore) (milliseconds zinitial));;;
    Act (Store (container_handle lock) semaphore);;;
    Ret OK.

Definition primitive_destroy_semaphore (res lock : Z) : prog :=
  semaphore <~ get_handle lock;;
  if res =? -1 then Ret GENERAL_ERROR
  else Act (Deallocate semaphore 1);;; Ret OK.

Definition primitive_wait_for_semaphore (lock : Z) : prog :=
  semaphore <~ Act (Load (container_handle lock));;
  assert (negb (lock =? NULL));;;
  assert (negb (semaphore =? NULL));;;
  r <~ Do (sem_wait (semaphore_sema semaphore)) (λ errno, errno =? EINTR);;
  if r =? 0 then Ret OK else Ret GENERAL_ERROR.

Fixpoint trywait_loop (n : nat) (semaphore timeleft : Z) : prog :=
  errno <~ sem_trywait (semaphore_sema semaphore);;
  if errno =? 0 then Ret OK
  else if (errno =? EAGAIN) || (errno =? EINTR) then
    if timeleft <=? 0 then Ret TIMEOUT
    else
      primitive_sleep (I sleeptime);;;
      match n with O => halt | S n => trywait_loop n semaphore (timeleft - sleeptime) end
  else Ret GENERAL_ERROR.

Definition primitive_wait_for_semaphore_timed (lock zmilsecs : Z) : prog :=
  let timeout := milliseconds zmilsecs in
  assert_handle lock;;;
  assert (IS_ZINT zmilsecs);;;
  semaphore <~ Act (Load (container_handle lock));;
  trywait_loop (sleeps timeout) semaphore timeout.

Definition primitive_release_semaphore (lock : Z) : prog :=
  semaphore <~ get_handle lock;;
  r <~ sem_post (semaphore_sema semaphore);;
  if negb (r =? 0) then Ret COUNT_EXCEEDED else Ret OK.
