(* ===== verification/Ownership.v ===== *)
(** * A lock and the field that names its owner

    What the locks of the native run-times have in common, whatever is behind them: a
    lock hands over a resource, and a field beside it is 0 or names the thread that has
    the lock.  A thread looks at the field without the lock; the look tells it whether
    the lock is its own. *)

From S2P Require Import Prelude Memory Tagging Concur ConcurLogic Tlv Locks LockLaws.
From stdpp Require Import base tactics option list numbers gmap fin_maps.
From Stdlib Require Import ZArith Lia.
From iris.proofmode Require Import proofmode.
From iris.base_logic.lib Require Import invariants ghost_map.
From iris.program_logic Require Import weakestpre.

Local Open Scope Z_scope.

(** ** Nesting

    A recursive lock that was taken [k] times more than once has the count [k + 1], an
    [int]. *)
Definition nesting_fits (k : nat) : Prop := Z.of_nat (S k) < 2147483648.

Lemma nesting_up k : nesting_fits (S k) → s32 (Z.of_nat (S k) + 1) = Z.of_nat (S (S k)).
Proof. unfold nesting_fits. intros H. rw s32_id; [lia|unfold in_s32; lia]. Qed.

Lemma nesting_down k : nesting_fits (S k) → s32 (Z.of_nat (S (S k)) - 1) = Z.of_nat (S k).
Proof. unfold nesting_fits. intros H. rw s32_id; [lia|unfold in_s32; lia]. Qed.

Lemma nesting_less k : nesting_fits (S k) → nesting_fits k.
Proof. unfold nesting_fits. lia. Qed.

(** ** The owner

    [W w]: the words of the lock while the thread [w] has it, or nobody when [w] is 0. *)

Section owned.
Context `{!lockGS Σ} (N : namespace) (g : gname) (W : Z → iProp Σ) (ow : Z) (R : iProp Σ)
  `{!∀ w, Timeless (W w), !Timeless R}.
Implicit Types (M : gmap Z bool).

Definition owned_res (w : Z) : iProp Σ := (if w =? 0 then R ∗ ow ↦{1/2} 0 else True)%I.

Definition owned_state : iProp Σ :=
  ∃ M (w o : Z), ghost_map_auth g 1 M ∗ threads_of M ∗ W w ∗ ow ↦{1/2} o ∗
    ⌜map_Forall (λ t b, b = bool_decide (t = w)) M ∧ (w = 0 ∨ is_Some (M !! w)) ∧ (o = 0 ∨ o = w)⌝ ∗
    owned_res w.

Definition is_owned : iProp Σ := inv N owned_state.

(** A thread without the mutex, and one that has it, with what the field says. *)
Definition without (t : Z) : iProp Σ := t ↪[g] false.
Definition having (t o : Z) : iProp Σ := t ↪[g] true ∗ ow ↦{1/2} o.

#[global] Instance owned_res_timeless w : Timeless (owned_res w).
Proof using Type*. unfold owned_res. destruct (w =? 0); apply _. Qed.

#[global] Instance owned_state_timeless : Timeless owned_state.
Proof using Type*. apply _. Qed.

Lemma owned_access t b :
  owned_state -∗ t ↪[g] b -∗
  ∃ (w o : Z), ⌜t ≠ 0 ∧ b = bool_decide (t = w) ∧ (o = 0 ∨ o = w)⌝ ∗ W w ∗ ow ↦{1/2} o ∗
    owned_res w ∗
    (∀ (b' : bool) (w' o' : Z),
      ⌜(w' = w ∨ w = 0 ∧ w' = t ∨ w = t ∧ w' = 0) ∧ b' = bool_decide (t = w') ∧ (o' = 0 ∨ o' = w')⌝ -∗
      W w' -∗ ow ↦{1/2} o' -∗ owned_res w' ==∗ owned_state ∗ t ↪[g] b').
Proof.
  iIntros "(%M & %w & %o & HM & [%H0 Hthreads] & Hw & Ho & (%Hst & %Hdw & %How) & HR) Ht".
  iDestruct (ghost_map_lookup with "HM Ht") as %Ht. iExists w, o. iFrame "Hw Ho HR". iSplit.
  { iPureIntro. split; [congruence|]. split; [by apply (Hst t)|done]. }
  iIntros (b' w' o') "(%Hw & %Hb & %Ho') Hw Ho HR".
  iMod (ghost_map_update b' with "HM Ht") as "[HM $]".
  iModIntro. iExists _, w', o'. iFrame "HM Hw Ho HR". iSplit.
  - iApply (threads_of_update with "[$Hthreads //]"); done.
  - iPureIntro. split_and!; [| |done].
    + intros u c Hu. destruct (decide (u = t)) as [->|Hne].
      * rw lookup_insert_eq in Hu. by injection Hu as <-.
      * rw lookup_insert_ne // in Hu. rw (Hst u c Hu). apply bool_decide_ext.
        assert (u ≠ 0) by congruence. naive_solver.
    + destruct (decide (w' = t)) as [->|Hne]; [rw lookup_insert_eq; by eauto|].
      rw lookup_insert_ne //. naive_solver.
Qed.

Lemma without_nonzero t b : is_owned -∗ t ↪[g] b ={⊤}=∗ ⌜t ≠ 0⌝ ∗ t ↪[g] b.
Proof using Type*.
  iIntros "#Hinv Ht". iInv N as ">Hst".
  iDestruct (owned_access with "Hst Ht") as (w o (Ht0 & Hb & Ho')) "(Hw & Ho & HR & Hclose)".
  by iMod ("Hclose" $! b w o with "[%] Hw Ho HR") as "[$ $]"; [by auto|].
Qed.

(** *** The owner field *)

Lemma wp_look_without t Φ :
  is_owned -∗ without t -∗ (∀ o, ⌜o ≠ t⌝ -∗ without t -∗ Φ o) -∗
  WP (Act (Load ow) : expr threads) {{ Φ }}.
Proof using Type*.
  iIntros "#Hinv Ht HΦ". iInv N as ">Hst".
  iDestruct (owned_access with "Hst Ht") as (w o (Ht0 & Hb & Ho')) "(Hw & Ho & HR & Hclose)".
  symmetry in Hb. apply bool_decide_eq_false in Hb.
  iApply (wp_load with "Ho"). iIntros "!> Ho".
  iMod ("Hclose" $! false w o with "[%] Hw Ho HR") as "[$ Ht]".
  { split_and!; [by left|by rw bool_decide_false|done]. }
  iModIntro. iApply ("HΦ" with "[%] Ht"). naive_solver.
Qed.

Lemma wp_look_having t o Φ :
  having t o -∗ (having t o -∗ Φ o) -∗ WP (Act (Load ow) : expr threads) {{ Φ }}.
Proof. iIntros "[Ht Ho] HΦ". iApply (wp_load with "Ho"). iIntros "!> Ho". iApply "HΦ". iFrame. Qed.

Lemma wp_set_owner t o v Φ :
  v = t ∨ v = 0 →
  is_owned -∗ having t o -∗ (having t v -∗ Φ v) -∗ WP (Act (Store ow v) : expr threads) {{ Φ }}.
Proof using Type*.
  iIntros (Hv) "#Hinv [Ht Ho'] HΦ". iInv N as ">Hst".
  iDestruct (owned_access with "Hst Ht") as (w o1 (Ht0 & Hb & _)) "(Hw & Ho & HR & Hclose)".
  symmetry in Hb. apply bool_decide_eq_true in Hb as <-.
  iDestruct (ghost_map_elem_agree with "Ho Ho'") as %->. iCombine "Ho Ho'" as "Ho".
  iApply (wp_store with "Ho"). iIntros "!> [Ho Ho']".
  iMod ("Hclose" $! true t v with "[%] Hw Ho HR") as "[$ Ht]".
  { split_and!; [by left|by rw bool_decide_true|naive_solver]. }
  iModIntro. iApply "HΦ". iFrame.
Qed.

(** A new thread *)
Lemma owned_enroll t v :
  t ≠ 0 →
  owned_state -∗ teb_thread t ↦ v -∗
  teb_thread t ↦ v ∗ (thread_block t ==∗ owned_state ∗ without t).
Proof.
  iIntros (Ht0) "(%M & %w & %o & HM & Hthreads & Hw & Ho & (%HM & %Hdw & %How) & HR) Hv".
  iDestruct (threads_of_new with "Hv Hthreads") as %Hnew. iFrame "Hv". iIntros "Hb".
  iMod (ghost_map_insert t false with "HM") as "[HM $]"; [done|]. iModIntro.
  iExists _, w, o. iFrame "HM Hw Ho HR". iSplitL "Hthreads Hb".
  - by iApply (threads_of_insert with "Hb Hthreads").
  - iPureIntro. assert (t ≠ w) as Hne by (destruct Hdw as [->|[a Ha]]; congruence).
    split_and!; [|rw lookup_insert_ne; [done|by auto]|done].
    apply map_Forall_insert_2; [by rw bool_decide_false|done].
Qed.

Lemma owned_alloc_at E :
  ghost_map_auth g 1 (∅ : gmap Z bool) -∗ W 0 -∗ ow ↦ 0 -∗ R ={E}=∗ is_owned.
Proof.
  iIntros "HM Hw [Ho Ho'] HR". iApply inv_alloc. iNext. iExists ∅, 0, 0. iFrame "HM Hw Ho".
  iSplit; [iSplit; [done|by iApply big_sepM_empty]|].
  iSplit; [iPureIntro; split_and!; [apply map_Forall_empty|by left|by left]|].
  unfold owned_res. simpl. iFrame.
Qed.
End owned.

Lemma owned_alloc `{!lockGS Σ} N (W : Z → iProp Σ) ow R E :
  W 0 -∗ ow ↦ 0 -∗ R ={E}=∗ ∃ g, is_owned N g W ow R.
Proof.
  iIntros "Hw Ho HR". iMod (ghost_map_alloc_empty (K := Z) (V := bool)) as (g) "HM". iExists g.
  iApply (owned_alloc_at with "HM Hw Ho HR").
Qed.

(** A new thread that will use two locks *)
Lemma enroll_both `{!lockGS Σ} N1 N2 g1 g2 (W1 W2 : Z → iProp Σ) ow1 ow2 R1 R2 t v
    `{!∀ w, Timeless (W1 w), !∀ w, Timeless (W2 w), !Timeless R1, !Timeless R2} :
  N1 ## N2 → t ≠ 0 →
  is_owned N1 g1 W1 ow1 R1 -∗ is_owned N2 g2 W2 ow2 R2 -∗ teb_thread t ↦ v ={⊤}=∗
  without g1 t ∗ without g2 t.
Proof.
  iIntros (HN Ht) "#H1 #H2 Hv". unfold is_owned. iInv N1 as ">Hs". iInv N2 as ">Hr".
  iDestruct (owned_enroll with "Hs Hv") as "[Hv Hs]"; [done|].
  iDestruct (owned_enroll with "Hr Hv") as "[Hv Hr]"; [done|].
  iMod (ghost_map_elem_persist with "Hv") as "#Hv".
  iMod ("Hs" with "[]") as "[$ $]"; [by iExists v|].
  iMod ("Hr" with "[]") as "[$ $]"; [by iExists v|]. done.
Qed.
