(* ===== verification/HarpLockLaws.v ===== *)
(** * Specifications of the HARP locks

    A mutex with a field that names its owner, as in [Ownership.v], hands over a
    resource, whether the lock is a simple or a recursive one. *)

From S2P Require Import Prelude Memory Tagging Concur ConcurLogic Tlv Locks LockLaws Ownership HarpLocks.
From stdpp Require Import base tactics option list numbers gmap fin_maps.
From Stdlib Require Import ZArith Lia.
From iris.proofmode Require Import proofmode.
From iris.base_logic.lib Require Import invariants ghost_map.
From iris.program_logic Require Import weakestpre.

Local Open Scope Z_scope.

(** ** The mutex *)

Section mutex.
Context `{!lockGS Σ} (N : namespace) (g : gname) (m ow : Z) (R : iProp Σ) `{!Timeless R}.

Definition mutex_word (w : Z) : iProp Σ := m ↦ w.

#[global] Instance mutex_word_timeless w : Timeless (mutex_word w).
Proof. apply _. Qed.

Definition is_owned_mutex : iProp Σ := is_owned N g mutex_word ow R.

Notation without t := (without g t).
Notation having t o := (having g ow t o).


Lemma wp_try t Φ :
  is_owned_mutex -∗ without t -∗
  (∀ r, ⌜r = 0⌝ ∗ having t 0 ∗ R ∨ ⌜r ≠ 0 ∧ r ≠ t⌝ ∗ without t -∗ Φ r) -∗
  WP (Act (Compare_and_swap m t 0) : expr threads) {{ Φ }}.
Proof using Type*.
  iIntros "#Hinv Ht HΦ". iInv N as ">Hst".
  iDestruct (owned_access with "Hst Ht") as (w o (Ht0 & Hb & Ho')) "(Hw & Ho & HR & Hclose)".
  symmetry in Hb. apply bool_decide_eq_false in Hb.
  iApply (wp_compare_and_swap with "Hw"). iIntros "!> Hw". destruct (Z.eqb_spec w 0) as [->|Hne].
  - unfold owned_res at 1. simpl. iDestruct "HR" as "[HR Ho2]".
    iDestruct (ghost_map_elem_agree with "Ho Ho2") as %->.
    iMod ("Hclose" $! true t 0 with "[%] Hw Ho []") as "[$ Ht]".
    { split_and!; [by auto|by rw bool_decide_true|by left]. }
    { unfold owned_res. by rw (proj2 (Z.eqb_neq t 0)). }
    iModIntro. iApply "HΦ". iLeft. by iFrame.
  - iMod ("Hclose" $! false w o with "[%] Hw Ho HR") as "[$ Ht]".
    { split_and!; [by auto|by rw bool_decide_false|done]. }
    iModIntro. iApply "HΦ". iRight. iFrame. by iPureIntro.
Qed.

Lemma wp_errorcheck_lock t Φ :
  is_owned_mutex -∗ without t -∗ (having t 0 -∗ R -∗ Φ 0) -∗
  WP (errorcheck_lock t m : expr threads) {{ Φ }}.
Proof using Type*.
  iIntros "#Hlock Ht HΦ". iApply fupd_wp.
  iMod (without_nonzero with "Hlock Ht") as "[%Ht0 Ht]". iModIntro.
  unfold errorcheck_lock. iApply wp_seq. unfold Do. iApply wp_seq.
  iApply (wp_try with "Hlock Ht"). iIntros (r) "H !>".
  iApply (wp_while_inv (λ r : val threads,
    ⌜r = 0⌝ ∗ having t 0 ∗ R ∨ ⌜r ≠ 0 ∧ r ≠ t⌝ ∗ without t)%I with "H").
  - iIntros "!>" (y Hy) "[[-> _]|[_ Ht]]"; [done|].
    iApply (wp_try with "Hlock Ht"). by iIntros (z) "H".
  - iIntros (y Hy) "[(-> & Ht & HR)|[[%H0 %H1] _]]".
    + iNext. rw (proj2 (Z.eqb_neq 0 t)) //. iApply wp_ret. by iApply ("HΦ" with "Ht").
    + apply negb_false_iff, orb_true_iff in Hy. by rw !Z.eqb_eq in Hy; destruct Hy.
Qed.

(** The number of sleeps is enough for the timeout. *)
Lemma wp_trylock_loop n timeleft t Φ :
  timeleft <= sleeptime * Z.of_nat n →
  is_owned_mutex -∗ without t -∗
  (∀ r, ⌜r = OK⌝ ∗ having t 0 ∗ R ∨ ⌜r = TIMEOUT⌝ ∗ without t -∗ Φ r) -∗
  WP (trylock_loop n t m timeleft : expr threads) {{ Φ }}.
Proof using Type*.
  iIntros (Hn) "#Hlock Ht HΦ". iInduction n as [|n] "IH" forall (timeleft Hn);
    cbn [trylock_loop]; iApply wp_seq; unfold pthread_mutex_trylock; iApply wp_seq;
    iApply (wp_try with "Hlock Ht"); iIntros (r) "[(-> & Ht & HR)|[[%Hne _] Ht]] !>";
    iApply wp_ret; iIntros "!>".
  1,3: iApply wp_ret; iApply "HΦ"; iLeft; by iFrame.
  all: rw (proj2 (Z.eqb_neq r 0)) //; cbn [Z.eqb Pos.eqb EBUSY].
  - rw (proj2 (Z.leb_le timeleft 0)); [|lia]. iApply wp_ret. iApply "HΦ". iRight. by iFrame.
  - destruct (timeleft <=? 0); [iApply wp_ret; iApply "HΦ"; iRight; by iFrame|].
    iApply wp_seq. iApply wp_assert; [done|]. iIntros "!>".
    iApply ("IH" with "[%] Ht HΦ"). lia.
Qed.

Lemma sleeps_enough timeout : timeout <= sleeptime * Z.of_nat (sleeps timeout).
Proof. unfold sleeps, sleeptime. Z.to_euclidean_division_equations. lia. Qed.

Lemma wp_look_mutex t o Φ :
  is_owned_mutex -∗ having t o -∗ (having t o -∗ Φ t) -∗ WP (Act (Load m) : expr threads) {{ Φ }}.
Proof using Type*.
  iIntros "#Hinv [Ht Ho'] HΦ". iInv N as ">Hst".
  iDestruct (owned_access with "Hst Ht") as (w o1 (Ht0 & Hb & Ho1)) "(Hw & Ho & HR & Hclose)".
  pose proof Hb as Hw. symmetry in Hw. apply bool_decide_eq_true in Hw as <-.
  iApply (wp_load with "Hw"). iIntros "!> Hw".
  iMod ("Hclose" $! true t o1 with "[%] Hw Ho HR") as "[$ Ht]"; [by auto|].
  iModIntro. iApply "HΦ". iFrame.
Qed.

Lemma wp_give t Φ :
  is_owned_mutex -∗ having t 0 -∗ R -∗ (without t -∗ Φ 0) -∗
  WP (Act (Store m 0) : expr threads) {{ Φ }}.
Proof using Type*.
  iIntros "#Hinv [Ht Ho'] HR HΦ". iInv N as ">Hst".
  iDestruct (owned_access with "Hst Ht") as (w o1 (Ht0 & Hb & Ho1)) "(Hw & Ho & _ & Hclose)".
  symmetry in Hb. apply bool_decide_eq_true in Hb as <-.
  iDestruct (ghost_map_elem_agree with "Ho Ho'") as %->.
  iApply (wp_store with "Hw"). iIntros "!> Hw".
  iMod ("Hclose" $! false 0 0 with "[%] Hw Ho [HR Ho']") as "[$ Ht]".
  { split_and!; [by auto|by rw bool_decide_false|by left]. }
  { unfold owned_res. simpl. iFrame. }
  iModIntro. by iApply "HΦ".
Qed.

Lemma wp_unlock_owned t Φ :
  is_owned_mutex -∗ having t 0 -∗ R -∗ (without t -∗ Φ 0) -∗
  WP (errorcheck_unlock t m : expr threads) {{ Φ }}.
Proof using Type*.
  iIntros "#Hlock Ht HR HΦ". unfold errorcheck_unlock. iApply wp_seq.
  iApply (wp_look_mutex with "Hlock Ht"). iIntros "Ht !>". rw Z.eqb_refl. iApply wp_seq.
  iApply (wp_give with "Hlock Ht HR"). iIntros "Ht !>". iApply wp_ret. by iApply "HΦ".
Qed.

(** Waiting for a condition variable gives the mutex up and takes it again. *)
Lemma wp_errorcheck_cond_wait t r Φ :
  is_owned_mutex -∗ having t 0 -∗ R -∗ (having t 0 -∗ R -∗ Φ r) -∗
  WP (errorcheck_cond_wait t m r : expr threads) {{ Φ }}.
Proof using Type*.
  iIntros "#Hlock Ht HR HΦ". unfold errorcheck_cond_wait.
  iApply wp_seq. iApply (wp_look_mutex with "Hlock Ht"). iIntros "Ht !>". rw Z.eqb_refl.
  iApply wp_seq. iApply (wp_give with "Hlock Ht HR"). iIntros "Ht !>".
  iApply wp_seq. unfold Do. iApply wp_seq.
  iApply (wp_try with "Hlock Ht"). iIntros (x) "H !>".
  iApply (wp_while_inv (λ r : val threads,
    ⌜r = 0⌝ ∗ having t 0 ∗ R ∨ ⌜r ≠ 0 ∧ r ≠ t⌝ ∗ without t)%I with "H").
  - iIntros "!>" (y Hy) "[[-> _]|[_ Ht]]"; [done|].
    iApply (wp_try with "Hlock Ht"). by iIntros (z) "H".
  - iIntros (y Hy) "[(-> & Ht & HR)|[[%Hne _] _]]".
    + iNext. iApply wp_ret. by iApply ("HΦ" with "Ht").
    + by apply negb_false_iff, Z.eqb_eq in Hy.
Qed.

End mutex.

(** ** Simple locks *)

Section simple.
Context `{!lockGS Σ} (g : gname) (lock slock : Z) (R : iProp Σ) `{!Timeless R}.

Definition simpleN : namespace := nroot .@ "harp_simple_lock".

Definition is_lock : iProp Σ :=
  handle_is lock slock ∗ is_owned_mutex simpleN g (slock_mutex slock) (slock_owner slock) R.

Definition unowned (t : Z) : iProp Σ := without g t.
Definition owning (t : Z) : iProp Σ := having g (slock_owner slock) t t.

(** Claiming the lock after the mutex was taken. *)
Lemma wp_claim_owner t r Φ :
  is_lock -∗ having g (slock_owner slock) t 0 -∗ (owning t -∗ Φ r) -∗
  WP (Bind (Act (Store (slock_owner slock) t)) (λ _, Ret r) : expr threads) {{ Φ }}.
Proof using Type*.
  iIntros "[_ #Hlock] Ht HΦ". iApply wp_seq. iApply (wp_set_owner with "Hlock Ht"); [by left|].
  iIntros "Ht !>". iApply wp_ret. by iApply "HΦ".
Qed.

Lemma wp_wait_simple t Φ :
  is_lock -∗ unowned t -∗ (owning t -∗ R -∗ Φ OK) -∗
  WP (primitive_wait_for_simple_lock t lock : expr threads) {{ Φ }}.
Proof using Type*.
  iIntros "#Hlock Ht HΦ". iPoseProof "Hlock" as "[Hh Hown]". unfold primitive_wait_for_simple_lock.
  iApply wp_seq. iApply (wp_get_handle with "Hh"). iIntros "!>".
  iApply wp_seq. iApply (wp_look_without with "Hown Ht"). iIntros (o) "%Ho Ht !>".
  rw (proj2 (Z.eqb_neq o t)) //. cbn [andb].
  iApply wp_seq. iApply (wp_errorcheck_lock with "Hown Ht"). iIntros "Ht HR !>". cbn [negb Z.eqb].
  iApply (wp_claim_owner with "Hlock Ht"). iIntros "Ht". by iApply ("HΦ" with "Ht").
Qed.

Lemma wp_wait_simple_held t Φ :
  is_lock -∗ owning t -∗ (owning t -∗ Φ ALREADY_LOCKED) -∗
  WP (primitive_wait_for_simple_lock t lock : expr threads) {{ Φ }}.
Proof using Type*.
  iIntros "[#Hh #Hown] Ht HΦ". iApply fupd_wp. iDestruct "Ht" as "[Ht Ho]".
  iMod (without_nonzero with "Hown Ht") as "[%Ht0 Ht]". iModIntro.
  unfold primitive_wait_for_simple_lock. iApply wp_seq. iApply (wp_get_handle with "Hh"). iIntros "!>".
  iApply wp_seq. iApply (wp_look_having with "[$Ht $Ho]"). iIntros "Ht !>".
  rw Z.eqb_refl (proj2 (Z.eqb_neq t 0)) //. iApply wp_ret. by iApply "HΦ".
Qed.

Lemma wp_wait_simple_timed t ms Φ :
  IS_ZINT ms = true →
  is_lock -∗ unowned t -∗ (∀ r, ⌜r = OK⌝ ∗ owning t ∗ R ∨ ⌜r = TIMEOUT⌝ ∗ unowned t -∗ Φ r) -∗
  WP (primitive_wait_for_simple_lock_timed t lock ms : expr threads) {{ Φ }}.
Proof using Type*.
  iIntros (Hms) "#Hlock Ht HΦ". iPoseProof "Hlock" as "[Hh Hown]".
  unfold primitive_wait_for_simple_lock_timed.
  iApply wp_seq. iApply (wp_assert_handle with "Hh"). iIntros "!>".
  iApply wp_seq. iApply wp_assert; [done|]. iIntros "!>".
  iApply wp_seq. iApply (wp_load_handle with "Hh"). iIntros "!>".
  iApply wp_seq. iApply (wp_look_without with "Hown Ht"). iIntros (o) "%Ho Ht !>".
  rw (proj2 (Z.eqb_neq o t)) //.
  iApply wp_seq. iApply (wp_trylock_loop with "Hown Ht"); [apply sleeps_enough|].
  iIntros (r) "[(-> & Ht & HR)|[-> Ht]] !>".
  - iApply (wp_claim_owner with "Hlock Ht"). iIntros "Ht". iApply "HΦ". iLeft. by iFrame.
  - iApply wp_ret. iApply "HΦ". iRight. by iFrame.
Qed.

Lemma wp_wait_simple_timed_held t ms Φ :
  IS_ZINT ms = true →
  is_lock -∗ owning t -∗ (owning t -∗ Φ ALREADY_LOCKED) -∗
  WP (primitive_wait_for_simple_lock_timed t lock ms : expr threads) {{ Φ }}.
Proof using Type*.
  iIntros (Hms) "[#Hh #Hown] Ht HΦ". unfold primitive_wait_for_simple_lock_timed.
  iApply wp_seq. iApply (wp_assert_handle with "Hh"). iIntros "!>".
  iApply wp_seq. iApply wp_assert; [done|]. iIntros "!>".
  iApply wp_seq. iApply (wp_load_handle with "Hh"). iIntros "!>".
  iApply wp_seq. iApply (wp_look_having with "Ht"). iIntros "Ht !>". rw Z.eqb_refl.
  iApply wp_ret. by iApply "HΦ".
Qed.

Lemma wp_release_simple t Φ :
  is_lock -∗ owning t -∗ R -∗ (unowned t -∗ Φ OK) -∗
  WP (primitive_release_simple_lock t lock : expr threads) {{ Φ }}.
Proof using Type*.
  iIntros "[#Hh #Hown] Ht HR HΦ". unfold primitive_release_simple_lock.
  iApply wp_seq. iApply (wp_get_handle with "Hh"). iIntros "!>".
  iApply wp_seq. iApply (wp_look_having with "Ht"). iIntros "Ht !>". rw Z.eqb_refl. cbn [negb].
  iApply wp_seq. iApply (wp_set_owner with "Hown Ht"); [by right|]. iIntros "Ht !>".
  iApply wp_seq. iApply (wp_unlock_owned with "Hown Ht HR"). iIntros "Ht !>".
  iApply wp_ret. by iApply "HΦ".
Qed.

(** The lock is another thread's, or nobody's: that is told and nothing changes. *)
Lemma wp_release_simple_unowned t Φ :
  is_lock -∗ unowned t -∗ (unowned t -∗ Φ NOT_LOCKED) -∗
  WP (primitive_release_simple_lock t lock : expr threads) {{ Φ }}.
Proof using Type*.
  iIntros "[#Hh #Hown] Ht HΦ". unfold primitive_release_simple_lock.
  iApply wp_seq. iApply (wp_get_handle with "Hh"). iIntros "!>".
  iApply wp_seq. iApply (wp_look_without with "Hown Ht"). iIntros (o) "%Ho Ht !>".
  rw (proj2 (Z.eqb_neq o t)) //. iApply wp_ret. by iApply "HΦ".
Qed.

Lemma wp_owned_simple t Φ :
  is_lock -∗ owning t -∗ (owning t -∗ Φ (I 1)) -∗
  WP (primitive_owned_simple_lock t lock : expr threads) {{ Φ }}.
Proof using Type*.
  iIntros "[#Hh #Hown] Ht HΦ". unfold primitive_owned_simple_lock.
  iApply wp_seq. iApply (wp_get_handle with "Hh"). iIntros "!>".
  iApply wp_seq. iApply (wp_look_having with "Ht"). iIntros "Ht !>". rw Z.eqb_refl.
  iApply wp_ret. by iApply "HΦ".
Qed.

Lemma wp_owned_simple_unowned t Φ :
  is_lock -∗ unowned t -∗ (unowned t -∗ Φ (I 0)) -∗
  WP (primitive_owned_simple_lock t lock : expr threads) {{ Φ }}.
Proof using Type*.
  iIntros "[#Hh #Hown] Ht HΦ". unfold primitive_owned_simple_lock.
  iApply wp_seq. iApply (wp_get_handle with "Hh"). iIntros "!>".
  iApply wp_seq. iApply (wp_look_without with "Hown Ht"). iIntros (o) "%Ho Ht !>".
  rw (proj2 (Z.eqb_neq o t)) //. iApply wp_ret. by iApply "HΦ".
Qed.

Lemma wp_unlock_simple t Φ :
  is_lock -∗ owning t -∗ R -∗ (unowned t -∗ Φ OK) -∗
  WP (primitive_unlock_simple_lock t lock : expr threads) {{ Φ }}.
Proof using Type*.
  iIntros "#Hlock Ht HR HΦ". iPoseProof "Hlock" as "[Hh Hown]". iApply fupd_wp.
  iDestruct "Ht" as "[Ht Ho]". iMod (without_nonzero with "Hown Ht") as "[%Ht0 Ht]". iModIntro.
  unfold primitive_unlock_simple_lock. iApply wp_seq. iApply (wp_get_handle with "Hh"). iIntros "!>".
  iApply wp_seq. iApply (wp_look_having with "[$Ht $Ho]"). iIntros "Ht !>".
  rw (proj2 (Z.eqb_neq t 0)) //. iApply (wp_release_simple with "Hlock Ht HR HΦ").
Qed.

Lemma wp_unlock_simple_unowned t Φ :
  is_lock -∗ unowned t -∗ (∀ r, ⌜r = OK ∨ r = NOT_LOCKED⌝ -∗ unowned t -∗ Φ r) -∗
  WP (primitive_unlock_simple_lock t lock : expr threads) {{ Φ }}.
Proof using Type*.
  iIntros "#Hlock Ht HΦ". iPoseProof "Hlock" as "[Hh Hown]". unfold primitive_unlock_simple_lock.
  iApply wp_seq. iApply (wp_get_handle with "Hh"). iIntros "!>".
  iApply wp_seq. iApply (wp_look_without with "Hown Ht"). iIntros (o) "%Ho Ht !>".
  destruct (o =? 0); [iApply wp_ret; iApply ("HΦ" with "[%] Ht"); by left|].
  iApply (wp_release_simple_unowned with "Hlock Ht"). iApply "HΦ". by iRight.
Qed.

(** *** Notifications *)

Lemma wp_reclaim t r Φ :
  is_lock -∗ having g (slock_owner slock) t 0 -∗ (owning t -∗ Φ r) -∗
  WP (reclaim t slock r : expr threads) {{ Φ }}.
Proof using Type*.
  iIntros "#Hlock Ht HΦ". unfold reclaim.
  iApply wp_seq. iApply (wp_look_having with "Ht"). iIntros "Ht !>".
  iApply wp_seq. iApply wp_assert; [done|]. iIntros "!>". iApply (wp_claim_owner with "Hlock Ht HΦ").
Qed.

Lemma wp_wait_notification notif n t Φ :
  handle_is notif n -∗ is_lock -∗ owning t -∗ R -∗ (owning t -∗ R -∗ Φ OK) -∗
  WP (primitive_wait_for_notification t notif lock : expr threads) {{ Φ }}.
Proof using Type*.
  iIntros "#Hn #Hlock Ht HR HΦ". iPoseProof "Hlock" as "[Hh Hown]".
  unfold primitive_wait_for_notification.
  iApply wp_seq. iApply (wp_assert_handle with "Hn"). iIntros "!>".
  iApply wp_seq. iApply (wp_assert_handle with "Hh"). iIntros "!>".
  iApply wp_seq. iApply (wp_load_handle with "Hn"). iIntros "!>".
  iApply wp_seq. iApply (wp_load_handle with "Hh"). iIntros "!>".
  iApply wp_seq. iApply (wp_look_having with "Ht"). iIntros "Ht !>". rw Z.eqb_refl. cbn [negb].
  iApply wp_seq. iApply (wp_set_owner with "Hown Ht"); [by right|]. iIntros "Ht !>".
  iApply wp_seq. iApply (wp_errorcheck_cond_wait with "Hown Ht HR"). iIntros "Ht HR !>".
  cbn [Z.eqb negb]. iApply (wp_reclaim with "Hlock Ht"). iIntros "Ht". by iApply ("HΦ" with "Ht").
Qed.

Lemma wp_wait_notification_timed time up notif n t ms Φ :
  IS_ZINT ms = true →
  handle_is notif n -∗ is_lock -∗ owning t -∗ R -∗
  (∀ r, ⌜r = OK ∨ r = TIMEOUT⌝ -∗ owning t -∗ R -∗ Φ r) -∗
  WP (primitive_wait_for_notification_timed time up t notif lock ms : expr threads) {{ Φ }}.
Proof using Type*.
  iIntros (Hms) "#Hn #Hlock Ht HR HΦ". iPoseProof "Hlock" as "[Hh Hown]".
  unfold primitive_wait_for_notification_timed.
  iApply wp_seq. iApply (wp_assert_handle with "Hn"). iIntros "!>".
  iApply wp_seq. iApply (wp_assert_handle with "Hh"). iIntros "!>".
  iApply wp_seq. iApply wp_assert; [done|]. iIntros "!>".
  iApply wp_seq. iApply (wp_load_handle with "Hn"). iIntros "!>".
  iApply wp_seq. iApply (wp_load_handle with "Hh"). iIntros "!>".
  iApply wp_seq. iApply (wp_look_having with "Ht"). iIntros "Ht !>". rw Z.eqb_refl. cbn [negb].
  iApply wp_seq. iApply (wp_set_owner with "Hown Ht"); [by right|]. iIntros "Ht !>".
  iApply wp_seq. iApply (wp_errorcheck_cond_wait with "Hown Ht HR"). iIntros "Ht HR !>".
  destruct (up _); cbn [Z.eqb Pos.eqb ETIMEDOUT]; iApply (wp_reclaim with "Hlock Ht");
    iIntros "Ht"; iApply ("HΦ" with "[%] Ht HR"); auto.
Qed.

(** The operations on a notification, for a thread without the lock. *)
Lemma wp_notification_unowned notif n t (f : Z → prog) Φ :
  handle_is notif n -∗ is_lock -∗ unowned t -∗ (unowned t -∗ Φ NOT_LOCKED) -∗
  WP (Bind (assert_handle notif) (λ _, Bind (assert_handle lock) (λ _,
      notification <~ Act (Load (container_handle notif));;
      slock <~ Act (Load (container_handle lock));;
      owner <~ Act (Load (slock_owner slock));;
      if negb (owner =? t) then Ret NOT_LOCKED else f slock)) : expr threads) {{ Φ }}.
Proof using Type*.
  iIntros "#Hn [#Hh #Hown] Ht HΦ".
  iApply wp_seq. iApply (wp_assert_handle with "Hn"). iIntros "!>".
  iApply wp_seq. iApply (wp_assert_handle with "Hh"). iIntros "!>".
  iApply wp_seq. iApply (wp_load_handle with "Hn"). iIntros "!>".
  iApply wp_seq. iApply (wp_load_handle with "Hh"). iIntros "!>".
  iApply wp_seq. iApply (wp_look_without with "Hown Ht"). iIntros (o) "%Ho Ht !>".
  rw (proj2 (Z.eqb_neq o t)) //. iApply wp_ret. by iApply "HΦ".
Qed.

Lemma wp_wait_notification_timed_unowned time up notif n t ms Φ :
  IS_ZINT ms = true →
  handle_is notif n -∗ is_lock -∗ unowned t -∗ (unowned t -∗ Φ NOT_LOCKED) -∗
  WP (primitive_wait_for_notification_timed time up t notif lock ms : expr threads) {{ Φ }}.
Proof using Type*.
  iIntros (Hms) "#Hn [#Hh #Hown] Ht HΦ". unfold primitive_wait_for_notification_timed.
  iApply wp_seq. iApply (wp_assert_handle with "Hn"). iIntros "!>".
  iApply wp_seq. iApply (wp_assert_handle with "Hh"). iIntros "!>".
  iApply wp_seq. iApply wp_assert; [done|]. iIntros "!>".
  iApply wp_seq. iApply (wp_load_handle with "Hn"). iIntros "!>".
  iApply wp_seq. iApply (wp_load_handle with "Hh"). iIntros "!>".
  iApply wp_seq. iApply (wp_look_without with "Hown Ht"). iIntros (o) "%Ho Ht !>".
  rw (proj2 (Z.eqb_neq o t)) //. iApply wp_ret. by iApply "HΦ".
Qed.

Definition release_notification_of (all : bool) (t notif : Z) : prog :=
  if all then primitive_release_all_notification t notif lock
  else primitive_release_notification t notif lock.

Lemma wp_release_notification_of all notif n t Φ :
  handle_is notif n -∗ is_lock -∗ owning t -∗ (owning t -∗ Φ OK) -∗
  WP (release_notification_of all t notif : expr threads) {{ Φ }}.
Proof using Type*.
  iIntros "#Hn [#Hh #Hown] Ht HΦ". unfold release_notification_of. destruct all; iApply wp_seq;
    (iApply (wp_assert_handle with "Hn"); iIntros "!>";
     iApply wp_seq; iApply (wp_assert_handle with "Hh"); iIntros "!>";
     iApply wp_seq; iApply (wp_load_handle with "Hn"); iIntros "!>";
     iApply wp_seq; iApply (wp_load_handle with "Hh"); iIntros "!>";
     iApply wp_seq; iApply (wp_look_having with "Ht"); iIntros "Ht !>"; rw Z.eqb_refl; cbn [negb];
     iApply wp_seq; iApply wp_ret; iIntros "!>"; iApply wp_ret; by iApply "HΦ").
Qed.
End simple.

(** ** Recursive locks

    The count is 0 whenever the mutex is free. *)

Section recursive.
Context `{!lockGS Σ} (g : gname) (lock rlock : Z) (R : iProp Σ) `{!Timeless R}.

Definition counted : iProp Σ := (R ∗ rlock_recursion_count rlock ↦ 0)%I.

Definition recursiveN : namespace := nroot .@ "harp_recursive_lock".

Definition is_rlock : iProp Σ :=
  handle_is lock rlock ∗ is_owned_mutex recursiveN g (rlock_mutex rlock) (rlock_owner rlock) counted.

Definition off (t : Z) : iProp Σ := without g t.

(** The thread has taken the lock [k] times more than once. *)
Definition within (t : Z) (k : nat) : iProp Σ :=
  having g (rlock_owner rlock) t t ∗ rlock_recursion_count rlock ↦ Z.of_nat (S k) ∗
  ⌜nesting_fits k⌝.

Lemma wp_lock_again t k Φ :
  nesting_fits (S k) → within t k -∗ (within t (S k) -∗ Φ OK) -∗ WP (lock_again rlock : expr threads) {{ Φ }}.
Proof.
  iIntros (Hk) "(Ht & Hc & %Hfits) HΦ". unfold lock_again.
  iApply wp_seq. iApply (wp_load with "Hc"). iIntros "!> Hc !>".
  iApply wp_seq. iApply wp_assert; [apply Z.ltb_lt; lia|]. iIntros "!>".
  iApply wp_seq. iApply (wp_load with "Hc"). iIntros "!> Hc !>".
  iApply wp_seq. iApply (wp_store with "Hc"). iIntros "!> Hc !>". iApply wp_ret. iApply "HΦ".
  rw nesting_up //. by iFrame.
Qed.

Lemma wp_lock_first t Φ :
  is_rlock -∗ having g (rlock_owner rlock) t 0 -∗ counted -∗ (within t 0 -∗ R -∗ Φ OK) -∗
  WP (lock_first t rlock : expr threads) {{ Φ }}.
Proof using Type*.
  iIntros "[_ #Hown] Ht [HR Hc] HΦ". unfold lock_first.
  iApply wp_seq. iApply (wp_load with "Hc"). iIntros "!> Hc !>".
  iApply wp_seq. iApply wp_assert; [done|]. iIntros "!>".
  iApply wp_seq. iApply (wp_store with "Hc"). iIntros "!> Hc !>".
  iApply wp_seq. iApply (wp_set_owner with "Hown Ht"); [by left|]. iIntros "Ht !>".
  iApply wp_ret. iApply ("HΦ" with "[$Ht $Hc //] HR").
Qed.

Lemma wp_wait_recursive t Φ :
  is_rlock -∗ off t -∗ (within t 0 -∗ R -∗ Φ OK) -∗
  WP (primitive_wait_for_recursive_lock t lock : expr threads) {{ Φ }}.
Proof using Type*.
  iIntros "#Hlock Ht HΦ". iPoseProof "Hlock" as "[Hh Hown]".
  unfold primitive_wait_for_recursive_lock. iApply wp_seq. iApply (wp_get_handle with "Hh"). iIntros "!>".
  iApply wp_seq. iApply (wp_look_without with "Hown Ht"). iIntros (o) "%Ho Ht !>".
  rw (proj2 (Z.eqb_neq o t)) //.
  iApply wp_seq. iApply (wp_errorcheck_lock with "Hown Ht"). iIntros "Ht HR !>". cbn [negb Z.eqb].
  iApply (wp_lock_first with "Hlock Ht HR HΦ").
Qed.

Lemma wp_wait_recursive_again t k Φ :
  nesting_fits (S k) →
  is_rlock -∗ within t k -∗ (within t (S k) -∗ Φ OK) -∗
  WP (primitive_wait_for_recursive_lock t lock : expr threads) {{ Φ }}.
Proof.
  iIntros (Hk) "[#Hh _] [Ht Hc] HΦ". unfold primitive_wait_for_recursive_lock.
  iApply wp_seq. iApply (wp_get_handle with "Hh"). iIntros "!>".
  iApply wp_seq. iApply (wp_look_having with "Ht"). iIntros "Ht !>". rw Z.eqb_refl.
  iApply (wp_lock_again with "[$Ht $Hc] HΦ"); done.
Qed.

Lemma wp_wait_recursive_timed t ms Φ :
  IS_ZINT ms = true →
  is_rlock -∗ off t -∗ (∀ r, ⌜r = OK⌝ ∗ within t 0 ∗ R ∨ ⌜r = TIMEOUT⌝ ∗ off t -∗ Φ r) -∗
  WP (primitive_wait_for_recursive_lock_timed t lock ms : expr threads) {{ Φ }}.
Proof using Type*.
  iIntros (Hms) "#Hlock Ht HΦ". iPoseProof "Hlock" as "[Hh Hown]".
  unfold primitive_wait_for_recursive_lock_timed.
  iApply wp_seq. iApply (wp_assert_handle with "Hh"). iIntros "!>".
  iApply wp_seq. iApply wp_assert; [done|]. iIntros "!>".
  iApply wp_seq. iApply (wp_load_handle with "Hh"). iIntros "!>".
  iApply wp_seq. iApply (wp_look_without with "Hown Ht"). iIntros (o) "%Ho Ht !>".
  rw (proj2 (Z.eqb_neq o t)) //.
  iApply wp_seq. iApply (wp_trylock_loop with "Hown Ht"); [apply sleeps_enough|].
  iIntros (r) "[(-> & Ht & HR)|[-> Ht]] !>".
  - iApply (wp_lock_first with "Hlock Ht HR"). iIntros "Ht HR". iApply "HΦ". iLeft. by iFrame.
  - iApply wp_ret. iApply "HΦ". iRight. by iFrame.
Qed.

Lemma wp_wait_recursive_timed_again t k ms Φ :
  IS_ZINT ms = true → nesting_fits (S k) →
  is_rlock -∗ within t k -∗ (within t (S k) -∗ Φ OK) -∗
  WP (primitive_wait_for_recursive_lock_timed t lock ms : expr threads) {{ Φ }}.
Proof.
  iIntros (Hms Hk) "[#Hh _] [Ht Hc] HΦ". unfold primitive_wait_for_recursive_lock_timed.
  iApply wp_seq. iApply (wp_assert_handle with "Hh"). iIntros "!>".
  iApply wp_seq. iApply wp_assert; [done|]. iIntros "!>".
  iApply wp_seq. iApply (wp_load_handle with "Hh"). iIntros "!>".
  iApply wp_seq. iApply (wp_look_having with "Ht"). iIntros "Ht !>". rw Z.eqb_refl.
  iApply (wp_lock_again with "[$Ht $Hc] HΦ"); done.
Qed.

Lemma wp_release_recursive_once t k Φ :
  is_rlock -∗ within t (S k) -∗ (within t k -∗ Φ OK) -∗
  WP (primitive_release_recursive_lock t lock : expr threads) {{ Φ }}.
Proof.
  iIntros "[#Hh _] (Ht & Hc & %Hk) HΦ". unfold primitive_release_recursive_lock.
  iApply wp_seq. iApply (wp_get_handle with "Hh"). iIntros "!>".
  iApply wp_seq. iApply (wp_look_having with "Ht"). iIntros "Ht !>". rw Z.eqb_refl. cbn [negb].
  iApply wp_seq. iApply (wp_load with "Hc"). iIntros "!> Hc !>".
  iApply wp_seq. iApply (wp_store with "Hc"). iIntros "!> Hc !>".
  rw nesting_down //. rw (proj2 (Z.eqb_neq (Z.of_nat (S k)) 0)); [|lia]. iApply wp_ret.
  iApply "HΦ". iFrame. iPureIntro. by apply nesting_less.
Qed.

Lemma wp_release_recursive_last t Φ :
  is_rlock -∗ within t 0 -∗ R -∗ (off t -∗ Φ OK) -∗
  WP (primitive_release_recursive_lock t lock : expr threads) {{ Φ }}.
Proof using Type*.
  iIntros "[#Hh #Hown] (Ht & Hc & _) HR HΦ". unfold primitive_release_recursive_lock.
  iApply wp_seq. iApply (wp_get_handle with "Hh"). iIntros "!>".
  iApply wp_seq. iApply (wp_look_having with "Ht"). iIntros "Ht !>". rw Z.eqb_refl. cbn [negb].
  iApply wp_seq. iApply (wp_load with "Hc"). iIntros "!> Hc !>".
  iApply wp_seq. iApply (wp_store with "Hc"). iIntros "!> Hc !>". simpl.
  iApply wp_seq. iApply (wp_set_owner with "Hown Ht"); [by right|]. iIntros "Ht !>".
  iApply wp_seq. iApply (wp_unlock_owned with "Hown Ht [$HR $Hc]"). iIntros "Ht !>".
  iApply wp_ret. by iApply "HΦ".
Qed.

Lemma wp_release_recursive_off t Φ :
  is_rlock -∗ off t -∗ (off t -∗ Φ NOT_LOCKED) -∗
  WP (primitive_release_recursive_lock t lock : expr threads) {{ Φ }}.
Proof using Type*.
  iIntros "[#Hh #Hown] Ht HΦ". unfold primitive_release_recursive_lock.
  iApply wp_seq. iApply (wp_get_handle with "Hh"). iIntros "!>".
  iApply wp_seq. iApply (wp_look_without with "Hown Ht"). iIntros (o) "%Ho Ht !>".
  rw (proj2 (Z.eqb_neq o t)) //. iApply wp_ret. by iApply "HΦ".
Qed.

Lemma wp_owned_recursive_within t k Φ :
  is_rlock -∗ within t k -∗ (within t k -∗ Φ (I 1)) -∗
  WP (primitive_owned_recursive_lock t lock : expr threads) {{ Φ }}.
Proof.
  iIntros "[#Hh _] [Ht Hc] HΦ". unfold primitive_owned_recursive_lock.
  iApply wp_seq. iApply (wp_get_handle with "Hh"). iIntros "!>".
  iApply wp_seq. iApply (wp_look_having with "Ht"). iIntros "Ht !>". rw Z.eqb_refl.
  iApply wp_ret. iApply "HΦ". iFrame.
Qed.

Lemma wp_owned_recursive_off t Φ :
  is_rlock -∗ off t -∗ (off t -∗ Φ (I 0)) -∗
  WP (primitive_owned_recursive_lock t lock : expr threads) {{ Φ }}.
Proof using Type*.
  iIntros "[#Hh #Hown] Ht HΦ". unfold primitive_owned_recursive_lock.
  iApply wp_seq. iApply (wp_get_handle with "Hh"). iIntros "!>".
  iApply wp_seq. iApply (wp_look_without with "Hown Ht"). iIntros (o) "%Ho Ht !>".
  rw (proj2 (Z.eqb_neq o t)) //. iApply wp_ret. by iApply "HΦ".
Qed.
End recursive.

(** ** Making locks *)

Section making.
Context `{!lockGS Σ}.

Lemma lock_alloc lock slock R E :
  lock ≠ NULL → slock ≠ NULL →
  container_handle lock ↦ slock -∗ slock_mutex slock ↦ 0 -∗ slock_owner slock ↦ 0 -∗ R ={E}=∗
  ∃ g, is_lock g lock slock R.
Proof.
  iIntros (Hl Hs) "Hc Hm Ho HR". iMod (ghost_map_elem_persist with "Hc") as "#Hc".
  iMod (owned_alloc simpleN with "Hm Ho HR") as (g) "#Hown". iModIntro. iExists g. by iFrame "Hown Hc".
Qed.

Lemma rlock_alloc lock rlock R E :
  lock ≠ NULL → rlock ≠ NULL →
  container_handle lock ↦ rlock -∗ rlock_mutex rlock ↦ 0 -∗ rlock_owner rlock ↦ 0 -∗
  rlock_recursion_count rlock ↦ 0 -∗ R ={E}=∗ ∃ g, is_rlock g lock rlock R.
Proof.
  iIntros (Hl Hs) "Hc Hm Ho Hn HR". iMod (ghost_map_elem_persist with "Hc") as "#Hc".
  iMod (owned_alloc recursiveN _ _ (counted rlock R) with "Hm Ho [HR Hn]") as (g) "#Hown"; [unfold counted; iFrame|].
  iModIntro. iExists g. by iFrame "Hown Hc".
Qed.

Lemma wp_make_simple r lock v Φ :
  lock ≠ NULL →
  container_handle lock ↦ v -∗
  (∀ res, ⌜res = OK⌝ ∗ (∃ slock, ⌜slock ≠ NULL⌝ ∗ container_handle lock ↦ slock ∗
      slock_mutex slock ↦ 0 ∗ slock_owner slock ↦ 0) ∨
    ⌜res = GENERAL_ERROR⌝ ∗ container_handle lock ↦ v -∗ Φ res) -∗
  WP (primitive_make_simple_lock r lock : expr threads) {{ Φ }}.
Proof.
  iIntros (Hl) "Hc HΦ". unfold primitive_make_simple_lock.
  iApply wp_seq. iApply wp_assert; [by apply negb_true_iff, Z.eqb_neq|]. iIntros "!>".
  iApply wp_seq. iApply wp_allocate. iIntros "!>" (p Hp) "Hw !>".
  rw (proj2 (Z.eqb_neq p NULL)); [|unfold NULL; lia].
  rw words_fields. iDestruct "Hw" as "(Hm & Ho & _)".
  iApply wp_seq. iApply (wp_store with "Ho"). iIntros "!> Ho !>".
  destruct (negb (res_mutexattr_init r =? 0)); [iApply wp_ret; iApply "HΦ"; iRight; by iFrame|].
  destruct (negb (res_mutexattr_settype r =? 0)); [iApply wp_ret; iApply "HΦ"; iRight; by iFrame|].
  destruct (negb (res_mutex_init r =? 0)); [iApply wp_ret; iApply "HΦ"; iRight; by iFrame|].
  iApply wp_seq. iApply (wp_store with "Hm"). iIntros "!> Hm !>".
  destruct (negb (res_mutexattr_destroy r =? 0)); [iApply wp_ret; iApply "HΦ"; iRight; by iFrame|].
  iApply wp_seq. iApply (wp_store with "Hc"). iIntros "!> Hc !>".
  iApply wp_ret. iApply "HΦ". iLeft. iSplit; [done|]. iExists p. iFrame.
  iPureIntro. unfold NULL. lia.
Qed.

Lemma wp_make_recursive r lock v Φ :
  lock ≠ NULL →
  container_handle lock ↦ v -∗
  (∀ res, ⌜res = OK⌝ ∗ (∃ rlock, ⌜rlock ≠ NULL⌝ ∗ container_handle lock ↦ rlock ∗
      rlock_mutex rlock ↦ 0 ∗ rlock_owner rlock ↦ 0 ∗ rlock_recursion_count rlock ↦ 0) ∨
    ⌜res = GENERAL_ERROR⌝ ∗ container_handle lock ↦ v -∗ Φ res) -∗
  WP (primitive_make_recursive_lock r lock : expr threads) {{ Φ }}.
Proof.
  iIntros (Hl) "Hc HΦ". unfold primitive_make_recursive_lock.
  iApply wp_seq. iApply wp_assert; [by apply negb_true_iff, Z.eqb_neq|]. iIntros "!>".
  iApply wp_seq. iApply wp_allocate. iIntros "!>" (p Hp) "Hw !>".
  rw (proj2 (Z.eqb_neq p NULL)); [|unfold NULL; lia].
  rw words_fields. iDestruct "Hw" as "(Hm & Ho & Hn & _)".
  iApply wp_seq. iApply (wp_store with "Ho"). iIntros "!> Ho !>".
  iApply wp_seq. iApply (wp_store with "Hn"). iIntros "!> Hn !>".
  destruct (negb (res_mutexattr_init r =? 0)); [iApply wp_ret; iApply "HΦ"; iRight; by iFrame|].
  destruct (negb (res_mutexattr_settype r =? 0)); [iApply wp_ret; iApply "HΦ"; iRight; by iFrame|].
  destruct (negb (res_mutex_init r =? 0)); [iApply wp_ret; iApply "HΦ"; iRight; by iFrame|].
  iApply wp_seq. iApply (wp_store with "Hm"). iIntros "!> Hm !>".
  destruct (negb (res_mutexattr_destroy r =? 0)); [iApply wp_ret; iApply "HΦ"; iRight; by iFrame|].
  iApply wp_seq. iApply (wp_store with "Hc"). iIntros "!> Hc !>".
  iApply wp_ret. iApply "HΦ". iLeft. iSplit; [done|]. iExists p. iFrame.
  iPureIntro. unfold NULL. lia.
Qed.

Lemma wp_make_notify r notif v Φ :
  notif ≠ NULL →
  container_handle notif ↦ v -∗
  (∀ res, ⌜res = OK⌝ ∗ (∃ n, handle_is notif n) ∨
    ⌜res = GENERAL_ERROR⌝ ∗ container_handle notif ↦ v -∗ Φ res) -∗
  WP (primitive_make_notification r notif : expr threads) {{ Φ }}.
Proof.
  iIntros (Hl) "Hc HΦ". unfold primitive_make_notification.
  iApply wp_seq. iApply wp_assert; [by apply negb_true_iff, Z.eqb_neq|]. iIntros "!>".
  iApply wp_seq. iApply wp_allocate. iIntros "!>" (p Hp) "Hw !>".
  rw (proj2 (Z.eqb_neq p NULL)); [|unfold NULL; lia].
  destruct (negb (r =? 0)); [iApply wp_ret; iApply "HΦ"; iRight; by iFrame|].
  iApply wp_seq. iApply (wp_store with "Hc"). iIntros "!> Hc !>".
  iApply fupd_wp. iMod (ghost_map_elem_persist with "Hc") as "Hc". iModIntro.
  iApply wp_ret. iApply "HΦ". iLeft. iSplit; [done|]. iExists p. iFrame.
  iPureIntro. split; [done|unfold NULL; lia].
Qed.
End making.
