(* ===== verification/LockLibrary.v ===== *)
(** * What the locks of a run-time promise

    The native run-times have a library of locks each, for every operating system its
    own, behind one interface.  [lock_library] is that interface: the operations on a
    simple lock with its notification and on a recursive lock.  [lock_library_laws]
    says what each operation promises its callers, in the logic of [ConcurLogic.v].
    Programs that use the locks are verified here against the promises alone, whatever
    the library; [HarpClients.v] and [WinClients.v] have the libraries for it. *)

From S2P Require Import Prelude Memory Tagging Concur ConcurLogic Tlv Locks LockLaws Ownership.
From stdpp Require Import base tactics option list numbers gmap fin_maps.
From Stdlib Require Import ZArith Lia.
From iris.proofmode Require Import proofmode.
From iris.algebra Require Import auth numbers.
From iris.base_logic.lib Require Import invariants token ghost_map own.
From iris.program_logic Require Import weakestpre adequacy.

Local Open Scope Z_scope.

(** ** Operations

    The first argument of an operation is the calling thread.  [lib_clock] is what a
    wait with a timeout depends on besides its argument: the time that passes. *)
Class lock_library := LockLibrary {
  lib_clock : Type;
  lib_make_simple : Z → prog;
  lib_make_notification : Z → prog;
  lib_make_recursive : Z → prog;
  lib_wait : Z → Z → prog;
  lib_wait_timed : lib_clock → Z → Z → Z → prog;
  lib_release : Z → Z → prog;
  lib_unlock : Z → Z → prog;
  lib_owned : Z → Z → prog;
  lib_wait_notification : Z → Z → Z → prog;
  lib_wait_notification_timed : lib_clock → Z → Z → Z → Z → prog;
  lib_release_notification : bool → Z → Z → Z → prog;
  lib_wait_recursive : Z → Z → prog;
  lib_wait_recursive_timed : lib_clock → Z → Z → Z → prog;
  lib_release_recursive : Z → Z → prog;
  lib_unlock_recursive : Z → Z → prog;
  lib_owned_recursive : Z → Z → prog;
  lib_unlock_checks : bool;        (* [lib_unlock] looks who has the lock *)
  lib_unlocks_recursive : bool;    (* [lib_unlock_recursive] may be used *)
  lib_counts_waits : bool          (* waits are counted, within bounds *)
}.

(** ** Clients

    A client is a program of calls.  It knows from the answers which locks it has. *)

Record shared := mkShared {
  sh_lock : Z; sh_notification : Z; sh_word : Z; sh_recursive_lock : Z; sh_recursive_word : Z
}.

Inductive client `{L : lock_library} :=
| Finish (v : Z)
| Failure
| Wait (k : Z → client)
| Wait_timed (clock : lib_clock) (ms : Z) (k : Z → client)
| Release (k : Z → client)
| Unlock_simple (k : Z → client)
| Owned (k : Z → client)
| Wait_notification (k : Z → client)
| Wait_notification_timed (clock : lib_clock) (ms : Z) (k : Z → client)
| Release_notification (all : bool) (k : Z → client)
| Get (k : Z → client)
| Put (v : Z) (k : client)
| Wait_recursive (k : Z → client)
| Wait_recursive_timed (clock : lib_clock) (ms : Z) (k : Z → client)
| Release_recursive (k : Z → client)
| Unlock_recursive (k : Z → client)
| Owned_recursive (k : Z → client)
| Get_recursive (k : Z → client)
| Put_recursive (v : Z) (k : client)
| Start (c k : client).
#[global] Arguments client : clear implicits.

Section clients.
Context (L : lock_library).

Fixpoint run_client (e : shared) (c : client L) (t : Z) : prog :=
  match c with
  | Finish v => Ret v
  | Failure => Act (Load NULL)
  | Wait k => r <~ lib_wait t (sh_lock e);; run_client e (k r) t
  | Wait_timed clock ms k =>
      r <~ lib_wait_timed clock t (sh_lock e) ms;; run_client e (k r) t
  | Release k => r <~ lib_release t (sh_lock e);; run_client e (k r) t
  | Unlock_simple k => r <~ lib_unlock t (sh_lock e);; run_client e (k r) t
  | Owned k => r <~ lib_owned t (sh_lock e);; run_client e (k r) t
  | Wait_notification k =>
      r <~ lib_wait_notification t (sh_notification e) (sh_lock e);; run_client e (k r) t
  | Wait_notification_timed clock ms k =>
      r <~ lib_wait_notification_timed clock t (sh_notification e) (sh_lock e) ms;;
      run_client e (k r) t
  | Release_notification all k =>
      r <~ lib_release_notification all t (sh_notification e) (sh_lock e);; run_client e (k r) t
  | Get k => v <~ Act (Load (sh_word e));; run_client e (k v) t
  | Put v k => Act (Store (sh_word e) v);;; run_client e k t
  | Wait_recursive k => r <~ lib_wait_recursive t (sh_recursive_lock e);; run_client e (k r) t
  | Wait_recursive_timed clock ms k =>
      r <~ lib_wait_recursive_timed clock t (sh_recursive_lock e) ms;; run_client e (k r) t
  | Release_recursive k =>
      r <~ lib_release_recursive t (sh_recursive_lock e);; run_client e (k r) t
  | Unlock_recursive k =>
      r <~ lib_unlock_recursive t (sh_recursive_lock e);; run_client e (k r) t
  | Owned_recursive k => r <~ lib_owned_recursive t (sh_recursive_lock e);; run_client e (k r) t
  | Get_recursive k => v <~ Act (Load (sh_recursive_word e));; run_client e (k v) t
  | Put_recursive v k => Act (Store (sh_recursive_word e) v);;; run_client e k t
  | Start c k => Fork (t <~ make_teb;; run_client e c t);;; run_client e k t
  end.

(** The initial thread makes the locks, for words with the values [v] and [w]. *)
Definition process (v w : Z) (c : client L) : prog :=
  lock <~ Act (Allocate [0; 0]);;
  notification <~ Act (Allocate [0; 0]);;
  word <~ Act (Allocate [v]);;
  recursive_lock <~ Act (Allocate [0; 0]);;
  recursive_word <~ Act (Allocate [w]);;
  a <~ lib_make_simple lock;;
  b <~ lib_make_notification notification;;
  d <~ lib_make_recursive recursive_lock;;
  if (a =? OK) && (b =? OK) && (d =? OK) then
    t <~ make_teb;;
    run_client (mkShared lock notification word recursive_lock recursive_word) c t
  else halt.

(** What a thread knows: the values of the protected words while it holds the locks,
    and how many times more than once it has taken the recursive one.  [P] and [Q]
    are what the words satisfy while the locks are free. *)
Fixpoint client_spec (P Q : Z → Prop) (c : client L) (s : option Z) (r : option (Z * nat))
    (Φ : Z → Prop) : Prop :=
  match c with
  | Finish v => Φ v
  | Failure => False
  | Wait k =>
      match s with
      | None => ∀ v, P v → client_spec P Q (k OK) (Some v) r Φ
      | Some _ => client_spec P Q (k ALREADY_LOCKED) s r Φ
      end
  | Wait_timed _ ms k =>
      IS_ZINT ms = true ∧
      match s with
      | None =>
          (∀ v, P v → client_spec P Q (k OK) (Some v) r Φ) ∧
          client_spec P Q (k TIMEOUT) None r Φ
      | Some _ => client_spec P Q (k ALREADY_LOCKED) s r Φ
      end
  | Release k =>
      match s with
      | None => client_spec P Q (k NOT_LOCKED) s r Φ
      | Some v => P v ∧ client_spec P Q (k OK) None r Φ
      end
  | Unlock_simple k =>
      match s with
      | None =>
          lib_unlock_checks = true ∧
          client_spec P Q (k OK) s r Φ ∧ client_spec P Q (k NOT_LOCKED) s r Φ
      | Some v => P v ∧ client_spec P Q (k OK) None r Φ
      end
  | Owned k => client_spec P Q (k (I (if s then 1 else 0))) s r Φ
  | Wait_notification k =>
      match s with
      | None => client_spec P Q (k NOT_LOCKED) s r Φ
      | Some v => P v ∧ ∀ v, P v → client_spec P Q (k OK) (Some v) r Φ
      end
  | Wait_notification_timed _ ms k =>
      IS_ZINT ms = true ∧
      match s with
      | None => client_spec P Q (k NOT_LOCKED) s r Φ
      | Some v =>
          P v ∧ ∀ v, P v → client_spec P Q (k OK) (Some v) r Φ ∧
            client_spec P Q (k TIMEOUT) (Some v) r Φ
      end
  | Release_notification _ k =>
      client_spec P Q (k (if s then OK else NOT_LOCKED)) s r Φ
  | Get k => match s with None => False | Some v => client_spec P Q (k v) s r Φ end
  | Put v k => match s with None => False | Some _ => client_spec P Q k (Some v) r Φ end
  | Wait_recursive k =>
      match r with
      | None => ∀ v, Q v → client_spec P Q (k OK) s (Some (v, O)) Φ
      | Some (v, n) => nesting_fits (S n) ∧ client_spec P Q (k OK) s (Some (v, S n)) Φ
      end
  | Wait_recursive_timed _ ms k =>
      IS_ZINT ms = true ∧
      match r with
      | None =>
          (∀ v, Q v → client_spec P Q (k OK) s (Some (v, O)) Φ) ∧
          client_spec P Q (k TIMEOUT) s None Φ
      | Some (v, n) => nesting_fits (S n) ∧ client_spec P Q (k OK) s (Some (v, S n)) Φ
      end
  | Release_recursive k =>
      match r with
      | None => client_spec P Q (k NOT_LOCKED) s r Φ
      | Some (v, O) => Q v ∧ client_spec P Q (k OK) s None Φ
      | Some (v, S n) => client_spec P Q (k OK) s (Some (v, n)) Φ
      end
  | Unlock_recursive k =>
      match r with
      | None => False
      | Some (v, _) => lib_unlocks_recursive = true ∧ Q v ∧ client_spec P Q (k OK) s None Φ
      end
  | Owned_recursive k => client_spec P Q (k (I (if r then 1 else 0))) s r Φ
  | Get_recursive k =>
      match r with None => False | Some (v, _) => client_spec P Q (k v) s r Φ end
  | Put_recursive v k =>
      match r with None => False | Some (_, n) => client_spec P Q k s (Some (v, n)) Φ end
  | Start c k =>
      client_spec P Q c None None (λ _, True) ∧ client_spec P Q k s r Φ
  end.

(** No run of the client, with the threads it starts, makes more than [n] calls that wait
    for a lock. *)
Fixpoint waits_within (c : client L) (n : nat) : Prop :=
  match c with
  | Finish _ | Failure => True
  | Wait k | Wait_timed _ _ k | Wait_notification k | Wait_notification_timed _ _ k
  | Wait_recursive k | Wait_recursive_timed _ _ k =>
      ∃ m, n = S m ∧ ∀ r, waits_within (k r) m
  | Release k | Unlock_simple k | Owned k | Release_notification _ k | Get k
  | Release_recursive k | Unlock_recursive k | Owned_recursive k | Get_recursive k =>
      ∀ r, waits_within (k r) n
  | Put _ k | Put_recursive _ k => waits_within k n
  | Start c k => ∃ i j, n = (i + j)%nat ∧ waits_within c i ∧ waits_within k j
  end.

End clients.

(** ** Promises

    [simple_lock γ lock R]: the container has a simple lock that hands over [R];
    [simple_off] and [simple_on]: a thread without it, and one that has it.  A thread has
    a recursive lock with the number of times more than once that it took it.  An
    operation of a thread without the lock that needs it answers [NOT_LOCKED].  A library
    that counts the waits has its bound on them in [bounded], and a wait uses one of the
    [budget] of waits. *)
Class lock_library_laws `{!lockGS Σ} (L : lock_library) := {
  names : Type;
  simple_lock : names → Z → iProp Σ → iProp Σ;
  simple_off : names → Z → iProp Σ;
  simple_on : names → Z → iProp Σ;
  recursive_lock : names → Z → iProp Σ → iProp Σ;
  recursive_off : names → Z → iProp Σ;
  recursive_on : names → Z → nat → iProp Σ;
  notification : Z → iProp Σ;
  bounded : iProp Σ;
  budget : nat → iProp Σ;
  #[global] simple_lock_persistent γ lock R :: Persistent (simple_lock γ lock R);
  #[global] recursive_lock_persistent γ lock R :: Persistent (recursive_lock γ lock R);
  #[global] notification_persistent notif :: Persistent (notification notif);
  #[global] bounded_persistent :: Persistent bounded;
  law_budget n m : budget (n + m) -∗ budget n ∗ budget m;
  law_uncounted n : lib_counts_waits = false → ⊢ budget n;

  law_make_simple lock v R `{!Timeless R} Φ : lock ≠ NULL →
    bounded -∗ container_handle lock ↦ v -∗ R -∗
    (∀ r, ⌜r = OK⌝ ∗ (∃ γ, simple_lock γ lock R) ∨ ⌜r ≠ OK⌝ -∗ Φ r) -∗
    WP (lib_make_simple lock : expr threads) {{ Φ }};
  law_make_notification notif v Φ : notif ≠ NULL →
    container_handle notif ↦ v -∗ (∀ r, ⌜r = OK⌝ ∗ notification notif ∨ ⌜r ≠ OK⌝ -∗ Φ r) -∗
    WP (lib_make_notification notif : expr threads) {{ Φ }};
  law_make_recursive lock v R `{!Timeless R} Φ : lock ≠ NULL →
    bounded -∗ container_handle lock ↦ v -∗ R -∗
    (∀ r, ⌜r = OK⌝ ∗ (∃ γ, recursive_lock γ lock R) ∨ ⌜r ≠ OK⌝ -∗ Φ r) -∗
    WP (lib_make_recursive lock : expr threads) {{ Φ }};
  law_enroll γ δ lock rlock R `{!Timeless R} S `{!Timeless S} t v : t ≠ 0 →
    simple_lock γ lock R -∗ recursive_lock δ rlock S -∗ teb_thread t ↦ v ={⊤}=∗
    simple_off γ t ∗ recursive_off δ t;

  law_wait γ lock R `{!Timeless R} t Φ :
    simple_lock γ lock R -∗ budget 1 -∗ simple_off γ t -∗ (simple_on γ t -∗ R -∗ Φ OK) -∗
    WP (lib_wait t lock : expr threads) {{ Φ }};
  law_wait_held γ lock R `{!Timeless R} t Φ :
    simple_lock γ lock R -∗ budget 1 -∗ simple_on γ t -∗ (simple_on γ t -∗ Φ ALREADY_LOCKED) -∗
    WP (lib_wait t lock : expr threads) {{ Φ }};
  law_wait_timed γ lock R `{!Timeless R} clock t ms Φ : IS_ZINT ms = true →
    simple_lock γ lock R -∗ budget 1 -∗ simple_off γ t -∗
    (∀ r, ⌜r = OK⌝ ∗ simple_on γ t ∗ R ∨ ⌜r = TIMEOUT⌝ ∗ simple_off γ t -∗ Φ r) -∗
    WP (lib_wait_timed clock t lock ms : expr threads) {{ Φ }};
  law_wait_timed_held γ lock R `{!Timeless R} clock t ms Φ : IS_ZINT ms = true →
    simple_lock γ lock R -∗ budget 1 -∗ simple_on γ t -∗ (simple_on γ t -∗ Φ ALREADY_LOCKED) -∗
    WP (lib_wait_timed clock t lock ms : expr threads) {{ Φ }};
  law_release γ lock R `{!Timeless R} t Φ :
    simple_lock γ lock R -∗ simple_on γ t -∗ R -∗ (simple_off γ t -∗ Φ OK) -∗
    WP (lib_release t lock : expr threads) {{ Φ }};
  law_release_off γ lock R `{!Timeless R} t Φ :
    simple_lock γ lock R -∗ simple_off γ t -∗ (simple_off γ t -∗ Φ NOT_LOCKED) -∗
    WP (lib_release t lock : expr threads) {{ Φ }};
  law_unlock γ lock R `{!Timeless R} t Φ :
    simple_lock γ lock R -∗ simple_on γ t -∗ R -∗ (simple_off γ t -∗ Φ OK) -∗
    WP (lib_unlock t lock : expr threads) {{ Φ }};
  law_unlock_off γ lock R `{!Timeless R} t Φ : lib_unlock_checks = true →
    simple_lock γ lock R -∗ simple_off γ t -∗
    (∀ r, ⌜r = OK ∨ r = NOT_LOCKED⌝ -∗ simple_off γ t -∗ Φ r) -∗
    WP (lib_unlock t lock : expr threads) {{ Φ }};
  law_owned γ lock R `{!Timeless R} t Φ :
    simple_lock γ lock R -∗ simple_on γ t -∗ (simple_on γ t -∗ Φ (I 1)) -∗
    WP (lib_owned t lock : expr threads) {{ Φ }};
  law_owned_off γ lock R `{!Timeless R} t Φ :
    simple_lock γ lock R -∗ simple_off γ t -∗ (simple_off γ t -∗ Φ (I 0)) -∗
    WP (lib_owned t lock : expr threads) {{ Φ }};

  law_wait_notification γ lock R `{!Timeless R} notif t Φ :
    simple_lock γ lock R -∗ budget 1 -∗ notification notif -∗ simple_on γ t -∗ R -∗
    (simple_on γ t -∗ R -∗ Φ OK) -∗
    WP (lib_wait_notification t notif lock : expr threads) {{ Φ }};
  law_wait_notification_off γ lock R `{!Timeless R} notif t Φ :
    simple_lock γ lock R -∗ notification notif -∗ simple_off γ t -∗
    (simple_off γ t -∗ Φ NOT_LOCKED) -∗
    WP (lib_wait_notification t notif lock : expr threads) {{ Φ }};
  law_wait_notification_timed γ lock R `{!Timeless R} notif clock t ms Φ : IS_ZINT ms = true →
    simple_lock γ lock R -∗ budget 1 -∗ notification notif -∗ simple_on γ t -∗ R -∗
    (∀ r, ⌜r = OK ∨ r = TIMEOUT⌝ -∗ simple_on γ t -∗ R -∗ Φ r) -∗
    WP (lib_wait_notification_timed clock t notif lock ms : expr threads) {{ Φ }};
  law_wait_notification_timed_off γ lock R `{!Timeless R} notif clock t ms Φ : IS_ZINT ms = true →
    simple_lock γ lock R -∗ notification notif -∗ simple_off γ t -∗
    (simple_off γ t -∗ Φ NOT_LOCKED) -∗
    WP (lib_wait_notification_timed clock t notif lock ms : expr threads) {{ Φ }};
  law_release_notification γ lock R `{!Timeless R} notif all t Φ :
    simple_lock γ lock R -∗ notification notif -∗ simple_on γ t -∗ (simple_on γ t -∗ Φ OK) -∗
    WP (lib_release_notification all t notif lock : expr threads) {{ Φ }};
  law_release_notification_off γ lock R `{!Timeless R} notif all t Φ :
    simple_lock γ lock R -∗ notification notif -∗ simple_off γ t -∗
    (simple_off γ t -∗ Φ NOT_LOCKED) -∗
    WP (lib_release_notification all t notif lock : expr threads) {{ Φ }};

  law_wait_recursive γ lock R `{!Timeless R} t Φ :
    recursive_lock γ lock R -∗ budget 1 -∗ recursive_off γ t -∗ (recursive_on γ t 0 -∗ R -∗ Φ OK) -∗
    WP (lib_wait_recursive t lock : expr threads) {{ Φ }};
  law_wait_recursive_again γ lock R `{!Timeless R} t k Φ : nesting_fits (S k) →
    recursive_lock γ lock R -∗ recursive_on γ t k -∗ (recursive_on γ t (S k) -∗ Φ OK) -∗
    WP (lib_wait_recursive t lock : expr threads) {{ Φ }};
  law_wait_recursive_timed γ lock R `{!Timeless R} clock t ms Φ : IS_ZINT ms = true →
    recursive_lock γ lock R -∗ budget 1 -∗ recursive_off γ t -∗
    (∀ r, ⌜r = OK⌝ ∗ recursive_on γ t 0 ∗ R ∨ ⌜r = TIMEOUT⌝ ∗ recursive_off γ t -∗ Φ r) -∗
    WP (lib_wait_recursive_timed clock t lock ms : expr threads) {{ Φ }};
  law_wait_recursive_timed_again γ lock R `{!Timeless R} clock t k ms Φ : IS_ZINT ms = true →
    nesting_fits (S k) →
    recursive_lock γ lock R -∗ recursive_on γ t k -∗ (recursive_on γ t (S k) -∗ Φ OK) -∗
    WP (lib_wait_recursive_timed clock t lock ms : expr threads) {{ Φ }};
  law_release_recursive_once γ lock R `{!Timeless R} t k Φ :
    recursive_lock γ lock R -∗ recursive_on γ t (S k) -∗ (recursive_on γ t k -∗ Φ OK) -∗
    WP (lib_release_recursive t lock : expr threads) {{ Φ }};
  law_release_recursive_last γ lock R `{!Timeless R} t Φ :
    recursive_lock γ lock R -∗ recursive_on γ t 0 -∗ R -∗ (recursive_off γ t -∗ Φ OK) -∗
    WP (lib_release_recursive t lock : expr threads) {{ Φ }};
  law_release_recursive_off γ lock R `{!Timeless R} t Φ :
    recursive_lock γ lock R -∗ recursive_off γ t -∗ (recursive_off γ t -∗ Φ NOT_LOCKED) -∗
    WP (lib_release_recursive t lock : expr threads) {{ Φ }};
  law_unlock_recursive γ lock R `{!Timeless R} t k Φ : lib_unlocks_recursive = true →
    recursive_lock γ lock R -∗ recursive_on γ t k -∗ R -∗ (recursive_off γ t -∗ Φ OK) -∗
    WP (lib_unlock_recursive t lock : expr threads) {{ Φ }};
  law_owned_recursive γ lock R `{!Timeless R} t k Φ :
    recursive_lock γ lock R -∗ recursive_on γ t k -∗ (recursive_on γ t k -∗ Φ (I 1)) -∗
    WP (lib_owned_recursive t lock : expr threads) {{ Φ }};
  law_owned_recursive_off γ lock R `{!Timeless R} t Φ :
    recursive_lock γ lock R -∗ recursive_off γ t -∗ (recursive_off γ t -∗ Φ (I 0)) -∗
    WP (lib_owned_recursive t lock : expr threads) {{ Φ }}
}.

(** ** Clients meet their specification *)

Section client_laws.
Context `{!lockGS Σ} {L : lock_library} `{!lock_library_laws L}.
Context (γ δ : names) (e : shared) (P Q : Z → Prop).

Definition word_res : iProp Σ := ∃ v, sh_word e ↦ v ∗ ⌜P v⌝.
Definition recursive_word_res : iProp Σ := ∃ v, sh_recursive_word e ↦ v ∗ ⌜Q v⌝.

Definition the_lock : iProp Σ := simple_lock γ (sh_lock e) word_res.
Definition the_rlock : iProp Σ := recursive_lock δ (sh_recursive_lock e) recursive_word_res.

(** What a thread has. *)
Definition has (t : Z) (s : option Z) : iProp Σ :=
  match s with
  | None => simple_off γ t
  | Some v => simple_on γ t ∗ sh_word e ↦ v
  end.

Definition has_recursive (t : Z) (r : option (Z * nat)) : iProp Σ :=
  match r with
  | None => recursive_off δ t
  | Some (v, k) => recursive_on δ t k ∗ sh_recursive_word e ↦ v
  end.

Lemma spend_budget n (X : nat → Prop) :
  (lib_counts_waits = true → ∃ m, n = S m ∧ X m) →
  budget n -∗ budget 1 ∗ ∃ m, ⌜lib_counts_waits = true → X m⌝ ∗ budget m.
Proof.
  iIntros (HX) "Hb". destruct lib_counts_waits eqn:E.
  - destruct (HX eq_refl) as (m & -> & Hm). iDestruct (law_budget 1 m with "Hb") as "[$ Hb]".
    iExists m. by iFrame.
  - iSplitR; [by iApply law_uncounted|]. iExists n. by iFrame.
Qed.

Lemma split_budget n (X Y : nat → Prop) :
  (lib_counts_waits = true → ∃ i j, n = (i + j)%nat ∧ X i ∧ Y j) →
  budget n -∗ (∃ i, ⌜lib_counts_waits = true → X i⌝ ∗ budget i) ∗
    ∃ j, ⌜lib_counts_waits = true → Y j⌝ ∗ budget j.
Proof.
  iIntros (HX) "Hb". destruct lib_counts_waits eqn:E.
  - destruct (HX eq_refl) as (i & j & -> & Hi & Hj). iDestruct (law_budget with "Hb") as "[H1 H2]".
    iSplitL "H1"; [iExists i|iExists j]; by iFrame.
  - iSplitR; [iExists n; iSplit; [done|by iApply law_uncounted]|]. iExists n. by iFrame.
Qed.

Lemma wp_library_client c t s r n (φ : Z → Prop) :
  client_spec L P Q c s r φ → (lib_counts_waits = true → waits_within L c n) →
  budget n -∗ the_lock -∗ the_rlock -∗ notification (sh_notification e) -∗
  has t s -∗ has_recursive t r -∗
  WP (run_client L e c t : expr threads) {{ v, ⌜φ v⌝ }}.
Proof.
  iIntros (Hc Hw) "Hb #Hl #Hr #Hn Hs Hrs".
  iInduction c as [v| |k IH|clock ms k IH|k IH|k IH|k IH|k IH|clock ms k IH|all k IH|k IH|v k IH
    |k IH|clock ms k IH|k IH|k IH|k IH|k IH|v k IH|c IHc k IHk] forall (t s r n φ Hc Hw);
    cbn [run_client]; simpl in Hc, Hw.
  - by iApply wp_ret.
  - done.
  - iDestruct (spend_budget with "Hb") as "(Hone & %m & %Hm & Hb)"; [exact Hw|]. clear Hw.
    iApply wp_seq. destruct s as [v|].
    + iDestruct "Hs" as "[Ht Hv]". iApply (law_wait_held with "Hl Hone Ht").
      iIntros "Ht !>". iApply ("IH" $! _ _ (Some v) with "[%] [%] Hb [$Ht $Hv] Hrs"); naive_solver.
    + iApply (law_wait with "Hl Hone Hs"). iIntros "Ht (%v & Hv & %Hv) !>".
      iApply ("IH" $! _ _ (Some v) with "[%] [%] Hb [$Ht $Hv] Hrs"); naive_solver.
  - iDestruct (spend_budget with "Hb") as "(Hone & %m & %Hm & Hb)"; [exact Hw|]. clear Hw.
    destruct Hc as [Hms Hc]. iApply wp_seq. destruct s as [v|].
    + iDestruct "Hs" as "[Ht Hv]". iApply (law_wait_timed_held with "Hl Hone Ht"); [done|].
      iIntros "Ht !>". iApply ("IH" $! _ _ (Some v) with "[%] [%] Hb [$Ht $Hv] Hrs"); naive_solver.
    + iApply (law_wait_timed with "Hl Hone Hs"); [done|].
      iIntros (x) "[(-> & Ht & %v & Hv & %Hv)|[-> Ht]] !>".
      * iApply ("IH" $! _ _ (Some v) with "[%] [%] Hb [$Ht $Hv] Hrs"); naive_solver.
      * iApply ("IH" $! _ _ None with "[%] [%] Hb Ht Hrs"); naive_solver.
  - iApply wp_seq. destruct s as [v|].
    + destruct Hc as [Hv Hc]. iDestruct "Hs" as "[Ht Hv]".
      iApply (law_release with "Hl Ht [Hv]"); [by iExists v; iFrame|].
      iIntros "Ht !>". iApply ("IH" $! _ _ None with "[%] [%] Hb Ht Hrs"); naive_solver.
    + iApply (law_release_off with "Hl Hs"). iIntros "Ht !>".
      iApply ("IH" $! _ _ None with "[%] [%] Hb Ht Hrs"); naive_solver.
  - iApply wp_seq. destruct s as [v|].
    + destruct Hc as [Hv Hc]. iDestruct "Hs" as "[Ht Hv]".
      iApply (law_unlock with "Hl Ht [Hv]"); [by iExists v; iFrame|].
      iIntros "Ht !>". iApply ("IH" $! _ _ None with "[%] [%] Hb Ht Hrs"); naive_solver.
    + destruct Hc as (Hchecks & Hok & Hnot). iApply (law_unlock_off with "Hl Hs"); [done|]. iIntros (x) "%Hx Ht !>".
      iApply ("IH" $! _ _ None with "[%] [%] Hb Ht Hrs"); naive_solver.
  - iApply wp_seq. destruct s as [v|].
    + iDestruct "Hs" as "[Ht Hv]". iApply (law_owned with "Hl Ht").
      iIntros "Ht !>". iApply ("IH" $! _ _ (Some v) with "[%] [%] Hb [$Ht $Hv] Hrs"); naive_solver.
    + iApply (law_owned_off with "Hl Hs"). iIntros "Ht !>".
      iApply ("IH" $! _ _ None with "[%] [%] Hb Ht Hrs"); naive_solver.
  - iDestruct (spend_budget with "Hb") as "(Hone & %m & %Hm & Hb)"; [exact Hw|]. clear Hw.
    iApply wp_seq. destruct s as [v|].
    + destruct Hc as [Hv Hc]. iDestruct "Hs" as "[Ht Hv]".
      iApply (law_wait_notification with "Hl Hone Hn Ht [Hv]"); [by iExists v; iFrame|].
      iIntros "Ht (%v' & Hv & %Hv') !>".
      iApply ("IH" $! _ _ (Some v') with "[%] [%] Hb [$Ht $Hv] Hrs"); naive_solver.
    + iApply (law_wait_notification_off with "Hl Hn Hs"). iIntros "Ht !>".
      iApply ("IH" $! _ _ None with "[%] [%] Hb Ht Hrs"); naive_solver.
  - iDestruct (spend_budget with "Hb") as "(Hone & %m & %Hm & Hb)"; [exact Hw|]. clear Hw.
    destruct Hc as [Hms Hc]. iApply wp_seq. destruct s as [v|].
    + destruct Hc as [Hv Hc]. iDestruct "Hs" as "[Ht Hv]".
      iApply (law_wait_notification_timed with "Hl Hone Hn Ht [Hv]"); [done|by iExists v; iFrame|].
      iIntros (x) "%Hx Ht (%v' & Hv & %Hv') !>".
      iApply ("IH" $! _ _ (Some v') with "[%] [%] Hb [$Ht $Hv] Hrs"); naive_solver.
    + iApply (law_wait_notification_timed_off with "Hl Hn Hs"); [done|]. iIntros "Ht !>".
      iApply ("IH" $! _ _ None with "[%] [%] Hb Ht Hrs"); naive_solver.
  - iApply wp_seq. destruct s as [v|].
    + iDestruct "Hs" as "[Ht Hv]". iApply (law_release_notification with "Hl Hn Ht").
      iIntros "Ht !>". iApply ("IH" $! _ _ (Some v) with "[%] [%] Hb [$Ht $Hv] Hrs"); naive_solver.
    + iApply (law_release_notification_off with "Hl Hn Hs"). iIntros "Ht !>".
      iApply ("IH" $! _ _ None with "[%] [%] Hb Ht Hrs"); naive_solver.
  - destruct s as [v|]; [|done]. iDestruct "Hs" as "[Ht Hv]".
    iApply wp_seq. iApply (wp_load with "Hv"). iIntros "!> Hv !>".
    iApply ("IH" $! _ _ (Some v) with "[%] [%] Hb [$Ht $Hv] Hrs"); naive_solver.
  - destruct s as [v'|]; [|done]. iDestruct "Hs" as "[Ht Hv]".
    iApply wp_seq. iApply (wp_store with "Hv"). iIntros "!> Hv !>".
    iApply ("IH" $! _ (Some v) with "[%] [%] Hb [$Ht $Hv] Hrs"); naive_solver.
  - iDestruct (spend_budget with "Hb") as "(Hone & %m & %Hm & Hb)"; [exact Hw|]. clear Hw.
    iApply wp_seq. destruct r as [[v d]|].
    + destruct Hc as [Hfits Hc]. iDestruct "Hrs" as "[Ht Hv]".
      iApply (law_wait_recursive_again with "Hr Ht"); [done|].
      iIntros "Ht !>". iApply ("IH" $! _ _ _ (Some (v, S d)) with "[%] [%] Hb Hs [$Ht $Hv]"); naive_solver.
    + iApply (law_wait_recursive with "Hr Hone Hrs"). iIntros "Ht (%v & Hv & %Hv) !>".
      iApply ("IH" $! _ _ _ (Some (v, O)) with "[%] [%] Hb Hs [$Ht $Hv]"); naive_solver.
  - iDestruct (spend_budget with "Hb") as "(Hone & %m & %Hm & Hb)"; [exact Hw|]. clear Hw.
    destruct Hc as [Hms Hc]. iApply wp_seq. destruct r as [[v d]|].
    + destruct Hc as [Hfits Hc]. iDestruct "Hrs" as "[Ht Hv]".
      iApply (law_wait_recursive_timed_again with "Hr Ht"); [done..|].
      iIntros "Ht !>". iApply ("IH" $! _ _ _ (Some (v, S d)) with "[%] [%] Hb Hs [$Ht $Hv]"); naive_solver.
    + iApply (law_wait_recursive_timed with "Hr Hone Hrs"); [done|].
      iIntros (x) "[(-> & Ht & %v & Hv & %Hv)|[-> Ht]] !>".
      * iApply ("IH" $! _ _ _ (Some (v, O)) with "[%] [%] Hb Hs [$Ht $Hv]"); naive_solver.
      * iApply ("IH" $! _ _ _ None with "[%] [%] Hb Hs Ht"); naive_solver.
  - iApply wp_seq. destruct r as [[v [|d]]|].
    + destruct Hc as [Hv Hc]. iDestruct "Hrs" as "[Ht Hv]".
      iApply (law_release_recursive_last with "Hr Ht [Hv]"); [by iExists v; iFrame|].
      iIntros "Ht !>". iApply ("IH" $! _ _ _ None with "[%] [%] Hb Hs Ht"); naive_solver.
    + iDestruct "Hrs" as "[Ht Hv]". iApply (law_release_recursive_once with "Hr Ht").
      iIntros "Ht !>". iApply ("IH" $! _ _ _ (Some (v, d)) with "[%] [%] Hb Hs [$Ht $Hv]"); naive_solver.
    + iApply (law_release_recursive_off with "Hr Hrs"). iIntros "Ht !>".
      iApply ("IH" $! _ _ _ None with "[%] [%] Hb Hs Ht"); naive_solver.
  - destruct r as [[v d]|]; [|done]. destruct Hc as (Hu & Hv & Hc). iDestruct "Hrs" as "[Ht Hv]".
    iApply wp_seq. iApply (law_unlock_recursive with "Hr Ht [Hv]"); [done|by iExists v; iFrame|].
    iIntros "Ht !>". iApply ("IH" $! _ _ _ None with "[%] [%] Hb Hs Ht"); naive_solver.
  - iApply wp_seq. destruct r as [[v d]|].
    + iDestruct "Hrs" as "[Ht Hv]". iApply (law_owned_recursive with "Hr Ht"). iIntros "Ht !>".
      iApply ("IH" $! _ _ _ (Some (v, d)) with "[%] [%] Hb Hs [$Ht $Hv]"); naive_solver.
    + iApply (law_owned_recursive_off with "Hr Hrs"). iIntros "Ht !>".
      iApply ("IH" $! _ _ _ None with "[%] [%] Hb Hs Ht"); naive_solver.
  - destruct r as [[v d]|]; [|done]. iDestruct "Hrs" as "[Ht Hv]".
    iApply wp_seq. iApply (wp_load with "Hv"). iIntros "!> Hv !>".
    iApply ("IH" $! _ _ _ (Some (v, d)) with "[%] [%] Hb Hs [$Ht $Hv]"); naive_solver.
  - destruct r as [[v' d]|]; [|done]. iDestruct "Hrs" as "[Ht Hv]".
    iApply wp_seq. iApply (wp_store with "Hv"). iIntros "!> Hv !>".
    iApply ("IH" $! _ _ (Some (v, d)) with "[%] [%] Hb Hs [$Ht $Hv]"); naive_solver.
  - destruct Hc as [Hc Hk].
    iDestruct (split_budget with "Hb") as "[(%i & %Hi & Hbi) (%j & %Hj & Hbj)]"; [exact Hw|].
    iApply wp_seq. iApply (wp_fork with "[Hbi]").
    + iNext. iApply (wp_wand _ _ _ (λ v : val threads, ⌜True⌝)%I with "[Hbi]"); [|by iIntros (v) "_"].
      iApply wp_seq. iApply wp_allocate. iIntros "!>" (teb Hteb) "Hteb !>".
      rw words_fields. iDestruct "Hteb" as "(_ & Hteb & _)".
      iApply fupd_wp. iMod (law_enroll with "Hl Hr Hteb") as "[H1 H2]"; [lia|]. iModIntro.
      by iApply ("IHc" with "[//] [//] Hbi H1 H2").
    + iIntros "!> !>". by iApply ("IHk" with "[//] [//] Hbj Hs Hrs").
Qed.
End client_laws.

(** ** All interleavings *)

Lemma wp_library_process `{!lockGS Σ} L `{!lock_library_laws L} v w c n P Q (φ : Z → Prop) :
  P v → Q w → client_spec L P Q c None None φ → (lib_counts_waits = true → waits_within L c n) →
  bounded -∗ budget n -∗ WP (process L v w c : expr threads) {{ x, ⌜φ x⌝ }}.
Proof.
  iIntros (Hv Hw Hc Hn) "#Hbounded Hbudget". unfold process.
  iApply wp_seq. iApply wp_allocate. iIntros "!>" (lock Hl) "Hlock !>".
  iApply wp_seq. iApply wp_allocate. iIntros "!>" (notif Hno) "Hnotif !>".
  iApply wp_seq. iApply wp_allocate. iIntros "!>" (word Hword) "Hword !>".
  iApply wp_seq. iApply wp_allocate. iIntros "!>" (rlock Hr) "Hrlock !>".
  iApply wp_seq. iApply wp_allocate. iIntros "!>" (rword Hrword) "Hrword !>".
  rw !words_fields !big_sepL_cons !idx_first.
  iDestruct "Hlock" as "(_ & Hlock & _)". iDestruct "Hnotif" as "(_ & Hnotif & _)".
  iDestruct "Hrlock" as "(_ & Hrlock & _)". iDestruct "Hword" as "[Hword _]".
  iDestruct "Hrword" as "[Hrword _]".
  set (e := mkShared lock notif word rlock rword).
  iApply wp_seq. iApply (law_make_simple _ _ (word_res e P) with "Hbounded Hlock [Hword]");
    [unfold NULL; lia|by iExists v; iFrame|]. iIntros (a) "Ha !>".
  iApply wp_seq. iApply (law_make_notification with "Hnotif"); [unfold NULL; lia|]. iIntros (b) "Hb !>".
  iApply wp_seq. iApply (law_make_recursive _ _ (recursive_word_res e Q) with "Hbounded Hrlock [Hrword]");
    [unfold NULL; lia|by iExists w; iFrame|]. iIntros (d) "Hd !>".
  iDestruct "Ha" as "[(-> & %γ & #Ha)|%Ha]"; [|rw (proj2 (Z.eqb_neq a OK)) //; iApply wp_halt].
  iDestruct "Hb" as "[(-> & #Hb)|%Hb]"; [|rw (proj2 (Z.eqb_neq b OK)) //; iApply wp_halt].
  iDestruct "Hd" as "[(-> & %δ & #Hd)|%Hd]"; [|rw (proj2 (Z.eqb_neq d OK)) //; iApply wp_halt].
  cbn [andb Z.eqb Pos.eqb OK].
  iApply wp_seq. iApply wp_allocate. iIntros "!>" (t Ht) "Hteb !>".
  rw words_fields. iDestruct "Hteb" as "(_ & Hteb & _)".
  iApply fupd_wp. iMod (law_enroll with "Ha Hd Hteb") as "[Hon Hoff]"; [lia|].
  iModIntro. by iApply (wp_library_client γ δ e P Q c t None None n with "Hbudget Ha Hd Hb Hon Hoff").
Qed.

Definition libraryΣ : gFunctors :=
  #[invΣ; ghost_mapΣ Z Z; tokenΣ; ghost_mapΣ Z (bool * bool); ghost_mapΣ Z bool;
    GFunctor (authR natUR)].

Class libraryGpreS (Σ : gFunctors) := LibraryGpreS {
  #[global] library_pre_inv :: invGpreS Σ;
  #[global] library_pre_heap :: ghost_mapG Σ Z Z;
  #[global] library_pre_token :: tokenG Σ;
  #[global] library_pre_simple :: ghost_mapG Σ Z (bool * bool);
  #[global] library_pre_recursive :: ghost_mapG Σ Z bool;
  #[global] library_pre_count :: inG Σ (authR natUR)
}.

#[export] Instance subG_library Σ : subG libraryΣ Σ → libraryGpreS Σ.
Proof. solve_inG. Qed.

Definition empty_cstate : cstate := mkC ∅ 1048576.

Lemma library_process_adequate L v w c n P Q (φ : Z → Prop) :
  (∀ H : lockGS libraryΣ, ⊢ |==> ∃ laws : lock_library_laws L, bounded ∗ budget n) →
  P v → Q w → client_spec L P Q c None None φ → (lib_counts_waits = true → waits_within L c n) →
  adequate NotStuck (process L v w c : expr threads) empty_cstate (λ x _, φ x).
Proof.
  intros HL Hv Hw Hc Hn. apply (wp_adequacy libraryΣ threads). intros Hinv κs.
  iMod (ghost_map_alloc (cmem empty_cstate)) as (heap) "[Hs _]".
  set (H := LockGS libraryΣ (ConcurGS libraryΣ Hinv _ heap _) _ _ _).
  iMod (HL H) as (laws) "[Hbounded Hbudget]".
  iModIntro. iExists (λ s _, ghost_map_auth heap 1 (cmem s) ∗ ⌜cfresh s⌝)%I, (λ _, True)%I.
  iFrame "Hs". iSplit; [by iPureIntro|].
  iPoseProof (@wp_library_process libraryΣ H L laws v w c n P Q φ Hv Hw Hc Hn) as "Hp".
  iApply ("Hp" with "Hbounded Hbudget").
Qed.
