(* ===== verification/HarpClients.v ===== *)
(** * Programs that use the HARP locks

    The HARP locks are a lock library in the sense of [LockLibrary.v].  They look at
    their owner before anything else, so that no use of them is forbidden, but
    [primitive_unlock_recursive_lock], of which the end of this file shows why.  A thread
    may release or wait for a notification of a lock it does not have; the specification
    says what it is told. *)

From S2P Require Import Prelude Memory Tagging Concur ConcurLogic Tlv Locks LockLaws Ownership LockLibrary HarpLocks HarpLockLaws.
From stdpp Require Import base tactics option list numbers gmap fin_maps.
From Stdlib Require Import ZArith Lia.
From iris.proofmode Require Import proofmode.
From iris.base_logic.lib Require Import invariants ghost_map.
From iris.program_logic Require Import weakestpre.

Local Open Scope Z_scope.

(** ** The library

    [r1], [r2] and [r3]: what the pthread library answers when a simple lock, a recursive
    one and a notification are made.  Only the wait for a notification looks at the
    time. *)

Record harp_clock := mkHarpClock { clock_time : Z; clock_up : timespec → bool }.

Definition harp_library (r1 r2 : mutex_init_results) (r3 : Z) : lock_library := {|
  lib_clock := harp_clock;
  lib_make_simple := primitive_make_simple_lock r1;
  lib_make_notification := primitive_make_notification r3;
  lib_make_recursive := primitive_make_recursive_lock r2;
  lib_wait := primitive_wait_for_simple_lock;
  lib_wait_timed _ := primitive_wait_for_simple_lock_timed;
  lib_release := primitive_release_simple_lock;
  lib_unlock := primitive_unlock_simple_lock;
  lib_owned := primitive_owned_simple_lock;
  lib_wait_notification := primitive_wait_for_notification;
  lib_wait_notification_timed c :=
    primitive_wait_for_notification_timed (clock_time c) (clock_up c);
  lib_release_notification all t notif lock := release_notification_of lock all t notif;
  lib_wait_recursive := primitive_wait_for_recursive_lock;
  lib_wait_recursive_timed _ := primitive_wait_for_recursive_lock_timed;
  lib_release_recursive := primitive_release_recursive_lock;
  lib_unlock_recursive := primitive_unlock_recursive_lock;
  lib_owned_recursive := primitive_owned_recursive_lock;
  lib_unlock_checks := true;
  lib_unlocks_recursive := false;
  lib_counts_waits := false
|}.

Section laws.
Context `{!lockGS Σ} (r1 r2 : mutex_init_results) (r3 : Z).

Lemma wp_make_harp_simple lock v R `{!Timeless R} Φ : lock ≠ NULL →
  container_handle lock ↦ v -∗ R -∗
  (∀ r, ⌜r = OK⌝ ∗ (∃ γ : gname * Z, is_lock γ.1 lock γ.2 R) ∨ ⌜r ≠ OK⌝ -∗ Φ r) -∗
  WP (primitive_make_simple_lock r1 lock : expr threads) {{ Φ }}.
Proof.
  iIntros (Hl) "Hc HR HΦ". iApply wp_fupd. iApply (wp_make_simple with "Hc"); [done|].
  iIntros (r) "[(-> & %slock & %Hs & H1 & H2 & H3)|[-> _]]"; [|iModIntro; iApply "HΦ"; by iRight].
  iMod (lock_alloc with "H1 H2 H3 HR") as (g) "#H"; [done|done|]. iModIntro.
  iApply "HΦ". iLeft. iSplit; [done|]. by iExists (g, slock).
Qed.

Lemma wp_make_harp_recursive lock v R `{!Timeless R} Φ : lock ≠ NULL →
  container_handle lock ↦ v -∗ R -∗
  (∀ r, ⌜r = OK⌝ ∗ (∃ γ : gname * Z, is_rlock γ.1 lock γ.2 R) ∨ ⌜r ≠ OK⌝ -∗ Φ r) -∗
  WP (primitive_make_recursive_lock r2 lock : expr threads) {{ Φ }}.
Proof.
  iIntros (Hl) "Hc HR HΦ". iApply wp_fupd. iApply (wp_make_recursive with "Hc"); [done|].
  iIntros (r) "[(-> & %rlock & %Hs & H1 & H2 & H3 & H4)|[-> _]]"; [|iModIntro; iApply "HΦ"; by iRight].
  iMod (rlock_alloc with "H1 H2 H3 H4 HR") as (g) "#H"; [done|done|]. iModIntro.
  iApply "HΦ". iLeft. iSplit; [done|]. by iExists (g, rlock).
Qed.

Lemma harp_enroll (γ δ : gname * Z) lock rlock R S t v `{!Timeless R, !Timeless S} : t ≠ 0 →
  is_lock γ.1 lock γ.2 R -∗ is_rlock δ.1 rlock δ.2 S -∗ teb_thread t ↦ v ={⊤}=∗
  unowned γ.1 t ∗ off δ.1 t.
Proof.
  iIntros (Ht) "[_ #H1] [_ #H2] Hv". iApply (enroll_both with "H1 H2 Hv"); [solve_ndisj|done].
Qed.

#[export] Instance harp_library_laws : lock_library_laws (harp_library r1 r2 r3).
Proof.
  refine {|
    names := gname * Z;
    simple_lock γ lock R := is_lock γ.1 lock γ.2 R;
    simple_off γ t := unowned γ.1 t;
    simple_on γ t := owning γ.1 γ.2 t;
    recursive_lock γ lock R := is_rlock γ.1 lock γ.2 R;
    recursive_off γ t := off γ.1 t;
    recursive_on γ t k := within γ.1 γ.2 t k;
    notification notif := (∃ n, handle_is notif n)%I;
    bounded := True%I;
    budget _ := True%I
  |}; cbn [harp_library lib_make_simple lib_make_notification lib_make_recursive lib_wait
    lib_wait_timed lib_release lib_unlock lib_owned lib_wait_notification
    lib_wait_notification_timed lib_release_notification lib_wait_recursive
    lib_wait_recursive_timed lib_release_recursive lib_unlock_recursive lib_owned_recursive
    lib_unlock_checks lib_unlocks_recursive lib_counts_waits]; intros.
  - auto.
  - auto.
  - iIntros "_". by iApply wp_make_harp_simple.
  - iIntros "Hc HΦ". iApply (wp_make_notify with "Hc"); [done|].
    iIntros (r) "[[-> H]|[-> _]]"; iApply "HΦ"; [iLeft; by iFrame|by iRight].
  - iIntros "_". by iApply wp_make_harp_recursive.
  - by apply harp_enroll.
  - iIntros "#Hl _". by iApply wp_wait_simple.
  - iIntros "#Hl _". by iApply wp_wait_simple_held.
  - iIntros "#Hl _". by iApply wp_wait_simple_timed.
  - iIntros "#Hl _". by iApply wp_wait_simple_timed_held.
  - by apply wp_release_simple.
  - by apply wp_release_simple_unowned.
  - by apply wp_unlock_simple.
  - by apply wp_unlock_simple_unowned.
  - by apply wp_owned_simple.
  - by apply wp_owned_simple_unowned.
  - iIntros "#Hl _ [%n #Hn]". by iApply wp_wait_notification.
  - iIntros "#Hl [%n #Hn]". by iApply wp_notification_unowned.
  - iIntros "#Hl _ [%n #Hn]". by iApply wp_wait_notification_timed.
  - iIntros "#Hl [%n #Hn]". by iApply wp_wait_notification_timed_unowned.
  - iIntros "#Hl [%n #Hn]". by iApply wp_release_notification_of.
  - iIntros "#Hl [%n #Hn]". destruct all; by iApply wp_notification_unowned.
  - iIntros "#Hl _". by iApply wp_wait_recursive.
  - by apply wp_wait_recursive_again.
  - iIntros "#Hl _". by iApply wp_wait_recursive_timed.
  - by apply wp_wait_recursive_timed_again.
  - by apply wp_release_recursive_once.
  - by apply wp_release_recursive_last.
  - by apply wp_release_recursive_off.
  - done.
  - by apply wp_owned_recursive_within.
  - by apply wp_owned_recursive_off.
Defined.
End laws.

Definition harp_process (r1 r2 : mutex_init_results) (r3 v w : Z)
    (c : client (harp_library r1 r2 r3)) : prog := process (harp_library r1 r2 r3) v w c.

(** C6: Threads share a HARP simple lock with its notification and a recursive
    lock of unix-threads-primitives.c, and call every primitive on them but
    primitive_unlock_recursive_lock (which fails an assertion on a free
    lock, HarpLocks.unlock_free_lock_fails) and the destroy primitives;
    releases and waits by threads that do not have the lock are included. A
    thread takes the recursive lock at most 2^31 - 1 times without releasing
    it, touches a word only while it has its lock, and gives timeouts as
    tagged integers. Then in every interleaving of their atomic actions each
    call answers exactly the code the specification gives it, the words
    behind the locks satisfy their invariants whenever the locks are free, a
    thread that has a lock is alone with its word, and no thread is ever
    stuck in an assertion or on unmapped memory. *)
Theorem harp_locks_protect r1 r2 r3 v w c P Q (φ : Z → Prop) (l : list nat) ps s :
  P v → Q w → client_spec (harp_library r1 r2 r3) P Q c None None φ →
  run_schedule l ([harp_process r1 r2 r3 v w c], empty_cstate) = Some (ps, s) →
  (∀ x, ps !! 0%nat = Some (Ret x) → φ x) ∧ Forall (λ p, is_stuck p s = false) ps.
Proof.
  intros Hv Hw Hc. apply adequate_schedule. apply (library_process_adequate _ v w c 0 P Q); [|done..].
  intros H. iModIntro. iExists (harp_library_laws r1 r2 r3). by iSplit.
Qed.

Definition mutex_init_ok : mutex_init_results := mkMutexInit 0 0 0 0.

Notation the_library := (harp_library mutex_init_ok mutex_init_ok 0).
Notation harp_client := (client the_library).

Definition in_time : @lib_clock the_library := mkHarpClock 0 (λ _, false).

(** A thread that does not have the lock tries to release it and to wait for its
    notification, and then counts to two with it; the initial thread sees even
    numbers only, and the timed waits of another one may fail. *)
Definition clumsy : harp_client :=
  Release (λ r, if r =? NOT_LOCKED then
    Wait_notification (λ r, if r =? NOT_LOCKED then
      Wait (λ _, Get (λ v, Put (v + 1) (Get (λ v, Put (v + 1)
        (Unlock_simple (λ _, Release_recursive (λ r, if r =? NOT_LOCKED then Finish 0 else Failure)))))))
    else Failure) else Failure).

Definition watcher : harp_client :=
  Wait_timed in_time (I 250) (λ r, if r =? OK then Wait (λ r, if r =? ALREADY_LOCKED then
    Get (λ v, if Z.even v then Wait_notification (λ _, Owned (λ o, Release (λ _, 
      Wait_recursive (λ _, Wait_recursive (λ _, Release_recursive (λ _, Owned_recursive (λ b,
      if b =? I 1 then Release_recursive (λ _, Finish o) else Failure)))))))
      else Failure) else Failure) else Finish (I 1)).

Definition even_harp_word : prog :=
  harp_process mutex_init_ok mutex_init_ok 0 0 0 (Start clumsy watcher).

Lemma even_harp_word_spec :
  client_spec the_library (λ v, Z.even v = true) (λ _, True) (Start clumsy watcher) None None (λ v, v = I 1).
Proof.
  split; simpl.
  - intros v Hv. rw -Z.add_assoc Z.even_add Hv. done.
  - split; [done|]. split; [|done]. intros v Hv. rw Hv. split; [done|]. intros v' Hv'. split; [done|]. 
    intros u _. by split.
Qed.

Definition even_harp_schedule : list nat :=
  replicate 41 0%nat ++ concat (replicate 131 [1%nat; 0%nat]) ++ replicate 32 0%nat.

Lemma even_harp_word_run :
  ∃ ps s, run_schedule even_harp_schedule ([even_harp_word], empty_cstate) = Some (ps, s) ∧
    prog_to_val <$> ps = [Some (I 1); Some 0].
Proof. apply (observe_schedule (λ r, prog_to_val <$> r.1)). vm_compute. reflexivity. Qed.

Lemma harp_locks_protect_witness :
  ∃ ps s, run_schedule even_harp_schedule ([even_harp_word], empty_cstate) = Some (ps, s) ∧
    prog_to_val <$> ps = [Some (I 1); Some 0] ∧
    ((∀ v, ps !! 0%nat = Some (Ret v) → v = I 1) ∧ Forall (λ p, is_stuck p s = false) ps).
Proof.
  destruct even_harp_word_run as (ps & s & E & Hps). exists ps, s. split; [exact E|]. split; [exact Hps|].
  apply (harp_locks_protect mutex_init_ok mutex_init_ok 0 0 0 (Start clumsy watcher)
    (λ v, Z.even v = true) (λ _, True) (λ v, v = I 1) even_harp_schedule ps s); [done|done| |exact E].
  apply even_harp_word_spec.
Defined.

(** ** Unlocking recursive locks

    [primitive_unlock_recursive_lock] reads the count of a lock it does not hold. *)

Definition with_rlock (f : Z → Z → prog) : prog :=
  lock <~ Act (Allocate [0; 0]);;
  primitive_make_recursive_lock mutex_init_ok lock;;;
  t <~ make_teb;;
  f lock t.

(** Nobody has the lock, but another thread takes it between the two reads. *)
Definition unlock_free_lock : prog :=
  with_rlock (λ lock t,
    Fork (other <~ make_teb;; primitive_wait_for_recursive_lock other lock);;;
    primitive_unlock_recursive_lock t lock).

(** The thread has the lock once; another one takes it when it is released. *)
Definition unlock_own_lock : prog :=
  with_rlock (λ lock t,
    primitive_wait_for_recursive_lock t lock;;;
    Fork (other <~ make_teb;; primitive_wait_for_recursive_lock other lock);;;
    primitive_unlock_recursive_lock t lock).

(** The assertion that the count is 0 fails. *)
Example unlock_free_lock_fails :
  ∃ ps s, run_schedule (replicate 25 0%nat ++ replicate 22 1%nat ++ replicate 3 0%nat)
      ([unlock_free_lock], empty_cstate) = Some (ps, s) ∧
    (prog_to_val <$> ps, (λ p, is_stuck p s) <$> ps) = ([None; Some OK], [true; false]).
Proof.
  apply (observe_schedule (λ r, (prog_to_val <$> r.1, (λ p, is_stuck p r.2) <$> r.1))).
  vm_compute. reflexivity.
Qed.

(** The lock was released, but the answer is that it was not the thread's. *)
Example unlock_own_lock_not_locked :
  ∃ ps s, run_schedule (replicate 67 0%nat ++ replicate 22 1%nat ++ replicate 18 0%nat)
      ([unlock_own_lock], empty_cstate) = Some (ps, s) ∧ prog_to_val <$> ps = [Some NOT_LOCKED; Some OK].
Proof. apply (observe_schedule (λ r, prog_to_val <$> r.1)). vm_compute. reflexivity. Qed.
