(* ===== verification/HarpSemaphores.v ===== *)
(** * Semaphores of the HARP run-time

    The semaphores of [unix-threads-primitives.c] are POSIX ones.  As in
    [Semaphores.v], threads wait and release in any number and order; the value
    accounts for the calls that succeeded.  The maximum the semaphore was made with
    bounds nothing. *)

From S2P Require Import Prelude Memory Tagging Concur ConcurLogic Tlv Locks LockLaws Semaphores HarpLocks.
From stdpp Require Import base tactics option list numbers gmap fin_maps.
From Stdlib Require Import ZArith Lia.
From iris.proofmode Require Import proofmode.
From iris.algebra Require Import auth numbers.
From iris.base_logic.lib Require Import invariants token ghost_map own.
From iris.program_logic Require Import weakestpre adequacy.

Local Open Scope Z_scope.

(** ** Clients *)

Inductive harp_semaphore_client :=
| Stop
| Wait_semaphore (k : Z → harp_semaphore_client)
| Wait_semaphore_timed (ms : Z) (k : Z → harp_semaphore_client)
| Release_semaphore (k : Z → harp_semaphore_client).

(** A client returns how often it has released the semaphore more than it has waited
    for it, in calls that succeeded. *)
Fixpoint run_harp_semaphore_client (lock : Z) (c : harp_semaphore_client) (net : Z) : prog :=
  match c with
  | Stop => Ret net
  | Wait_semaphore k =>
      r <~ primitive_wait_for_semaphore lock;;
      run_harp_semaphore_client lock (k r) (if r =? OK then net - 1 else net)
  | Wait_semaphore_timed ms k =>
      r <~ primitive_wait_for_semaphore_timed lock ms;;
      run_harp_semaphore_client lock (k r) (if r =? OK then net - 1 else net)
  | Release_semaphore k =>
      r <~ primitive_release_semaphore lock;;
      run_harp_semaphore_client lock (k r) (if r =? OK then net + 1 else net)
  end.

(** Timeouts are integers. *)
Fixpoint harp_timeouts_ok (c : harp_semaphore_client) : Prop :=
  match c with
  | Stop => True
  | Wait_semaphore k | Release_semaphore k => ∀ r, harp_timeouts_ok (k r)
  | Wait_semaphore_timed ms k => IS_ZINT ms = true ∧ ∀ r, harp_timeouts_ok (k r)
  end.

(** The container and its semaphore; nothing else is allocated. *)
Definition harp_semaphore_cstate (initial : Z) : cstate :=
  mkC (<[container_handle the_container := the_semaphore]>
        {[semaphore_sema the_semaphore := initial]}) 1048576.

(** ** The semaphore's invariant *)

Section semaphore.
Context `{!lockGS Σ, !ghost_mapG Σ nat Z} (gn : gname) (lock sem initial : Z) (N : nat).

Definition is_sem : iProp Σ :=
  handle_is lock sem ∗ is_value gn (semaphore_sema sem) initial N.

Lemma wp_harp_sem_wait i net Φ :
  is_sem -∗ done_so_far gn i net -∗
  (∀ r, ⌜r = 0⌝ ∗ done_so_far gn i (net - 1) ∨ ⌜r = EINTR⌝ ∗ done_so_far gn i net -∗ Φ r) -∗
  WP (sem_wait (semaphore_sema sem) : expr threads) {{ Φ }}.
Proof.
  iIntros "[_ #Hsem] Hi HΦ". unfold sem_wait. iApply wp_seq. iApply (wp_sem_attempts with "Hsem Hi").
  iIntros (r) "[[-> Hi]|[%Hne Hi]] !>".
  - iApply wp_ret. iApply "HΦ". iLeft. by iFrame.
  - rw (proj2 (Z.eqb_neq r 0)) //. iApply wp_ret. iApply "HΦ". iRight. by iFrame.
Qed.

Lemma wp_sem_trywait i net Φ :
  is_sem -∗ done_so_far gn i net -∗
  (∀ r, ⌜r = 0⌝ ∗ done_so_far gn i (net - 1) ∨ ⌜r = EAGAIN⌝ ∗ done_so_far gn i net -∗ Φ r) -∗
  WP (sem_trywait (semaphore_sema sem) : expr threads) {{ Φ }}.
Proof.
  iIntros "[_ #Hsem] Hi HΦ". unfold sem_trywait. iApply wp_seq. iApply (wp_sem_attempts with "Hsem Hi").
  iIntros (r) "[[-> Hi]|[%Hne Hi]] !>".
  - iApply wp_ret. iApply "HΦ". iLeft. by iFrame.
  - rw (proj2 (Z.eqb_neq r 0)) //. iApply wp_ret. iApply "HΦ". iRight. by iFrame.
Qed.

(** *** The primitives *)

Lemma wp_wait_sem i net Φ :
  is_sem -∗ done_so_far gn i net -∗ (done_so_far gn i (net - 1) -∗ Φ OK) -∗
  WP (primitive_wait_for_semaphore lock : expr threads) {{ Φ }}.
Proof.
  iIntros "#Hsem Hi HΦ". iPoseProof "Hsem" as "[Hh _]". unfold primitive_wait_for_semaphore.
  iApply wp_seq. iApply (wp_load_handle with "Hh"). iIntros "!>".
  iDestruct "Hh" as "[[%Hc %Hs] _]".
  iApply wp_seq. iApply wp_assert; [by apply negb_true_iff, Z.eqb_neq|]. iIntros "!>".
  iApply wp_seq. iApply wp_assert; [by apply negb_true_iff, Z.eqb_neq|]. iIntros "!>".
  iApply wp_seq. unfold Do. iApply wp_seq. iApply (wp_harp_sem_wait with "Hsem Hi"). iIntros (r) "H !>".
  iApply (wp_while_inv (λ r : val threads, ⌜r = 0⌝ ∗ done_so_far gn i (net - 1) ∨
    ⌜r = EINTR⌝ ∗ done_so_far gn i net)%I with "H").
  - iIntros "!>" (y Hy) "[[-> _]|[_ Hi]]"; [done|]. iApply (wp_harp_sem_wait with "Hsem Hi"). by iIntros (z) "H".
  - iIntros (y Hy) "[[-> Hi]|[-> _]] !>"; [|done]. iApply wp_ret. by iApply "HΦ".
Qed.

Lemma wp_trywait_loop n timeleft i net Φ :
  timeleft <= sleeptime * Z.of_nat n →
  is_sem -∗ done_so_far gn i net -∗
  (∀ r, ⌜r = OK⌝ ∗ done_so_far gn i (net - 1) ∨ ⌜r = TIMEOUT⌝ ∗ done_so_far gn i net -∗ Φ r) -∗
  WP (trywait_loop n sem timeleft : expr threads) {{ Φ }}.
Proof.
  iIntros (Hn) "#Hsem Hi HΦ". iInduction n as [|n] "IH" forall (timeleft Hn);
    cbn [trywait_loop]; iApply wp_seq; iApply (wp_sem_trywait with "Hsem Hi");
    iIntros (r) "[[-> Hi]|[-> Hi]] !>"; simpl.
  1,3: iApply wp_ret; iApply "HΦ"; iLeft; by iFrame.
  - rw (proj2 (Z.leb_le timeleft 0)); [|lia]. iApply wp_ret. iApply "HΦ". iRight. by iFrame.
  - destruct (timeleft <=? 0); [iApply wp_ret; iApply "HΦ"; iRight; by iFrame|].
    iApply wp_seq. iApply wp_assert; [done|]. iIntros "!>". iApply ("IH" with "[%] Hi HΦ"). lia.
Qed.

Lemma wp_wait_sem_timed ms i net Φ :
  IS_ZINT ms = true →
  is_sem -∗ done_so_far gn i net -∗
  (∀ r, ⌜r = OK⌝ ∗ done_so_far gn i (net - 1) ∨ ⌜r = TIMEOUT⌝ ∗ done_so_far gn i net -∗ Φ r) -∗
  WP (primitive_wait_for_semaphore_timed lock ms : expr threads) {{ Φ }}.
Proof.
  iIntros (Hms) "#Hsem Hi HΦ". iPoseProof "Hsem" as "[Hh _]". unfold primitive_wait_for_semaphore_timed.
  iApply wp_seq. iApply (wp_assert_handle with "Hh"). iIntros "!>".
  iApply wp_seq. iApply wp_assert; [done|]. iIntros "!>".
  iApply wp_seq. iApply (wp_load_handle with "Hh"). iIntros "!>".
  iApply (wp_trywait_loop with "Hsem Hi HΦ").
  unfold sleeps, sleeptime. Z.to_euclidean_division_equations. lia.
Qed.

Lemma wp_release_sem i net Φ :
  is_sem -∗ done_so_far gn i net -∗
  (∀ r, ⌜r = OK⌝ ∗ done_so_far gn i (net + 1) ∨ ⌜r = COUNT_EXCEEDED⌝ ∗ done_so_far gn i net -∗ Φ r) -∗
  WP (primitive_release_semaphore lock : expr threads) {{ Φ }}.
Proof.
  iIntros "#Hsem Hi HΦ". iPoseProof "Hsem" as "[Hh Hv]". unfold primitive_release_semaphore.
  iApply wp_seq. iApply (wp_get_handle with "Hh"). iIntros "!>".
  iApply wp_seq. iApply (wp_sem_post with "Hv Hi"). iIntros (r) "[[-> Hi]|[-> Hi]] !>"; simpl;
    iApply wp_ret; iApply "HΦ"; [iLeft|iRight]; by iFrame.
Qed.

Lemma wp_harp_semaphore_client c i net :
  harp_timeouts_ok c →
  is_sem -∗ done_so_far gn i net -∗
  WP (run_harp_semaphore_client lock c net : expr threads) {{ v, done_so_far gn i v }}.
Proof.
  iIntros (Hc) "#Hsem Hi".
  iInduction c as [|k IH|ms k IH|k IH] forall (net Hc); cbn [run_harp_semaphore_client]; simpl in Hc.
  - by iApply wp_ret.
  - iApply wp_seq. iApply (wp_wait_sem with "Hsem Hi"). iIntros "Hi !>". by iApply ("IH" with "[%] Hi").
  - destruct Hc as [Hms Hc]. iApply wp_seq. iApply (wp_wait_sem_timed with "Hsem Hi"); [done|].
    iIntros (r) "[[-> Hi]|[-> Hi]] !>"; by iApply ("IH" with "[%] Hi").
  - iApply wp_seq. iApply (wp_release_sem with "Hsem Hi").
    iIntros (r) "[[-> Hi]|[-> Hi]] !>"; by iApply ("IH" with "[%] Hi").
Qed.
End semaphore.

(** ** All interleavings *)

Lemma harp_semaphore_fresh initial : cfresh (harp_semaphore_cstate initial).
Proof.
  split; [done|]. intros a Ha. simpl in *.
  unfold container_handle, semaphore_sema, idx, the_container, the_semaphore.
  rw lookup_insert_ne; [|lia]. rw lookup_singleton_ne; [done|lia].
Qed.

(** C11: In every interleaving of threads that wait for a HARP semaphore, with
    or without a timeout, and release it, the value of the POSIX semaphore
    stays between zero and SEM_VALUE_MAX, no thread is ever stuck, and when
    the threads are done the value is the initial one plus the releases
    minus the waits that returned OK. *)
Theorem harp_semaphore_counts initial (cs : list harp_semaphore_client) (l : list nat) ps s :
  0 <= initial <= SEM_VALUE_MAX → Forall harp_timeouts_ok cs →
  run_schedule l ((λ c, run_harp_semaphore_client the_container c 0) <$> cs,
    harp_semaphore_cstate initial) = Some (ps, s) →
  ∃ count, cmem s !! semaphore_sema the_semaphore = Some count ∧ 0 <= count <= SEM_VALUE_MAX ∧
    (∀ nets, take (length cs) ps = Ret <$> nets → count = initial + Semaphores.total nets) ∧
    Forall (λ p, is_stuck p s = false) ps.
Proof.
  intros Hr Hcs. apply value_adequate; [apply harp_semaphore_fresh|]. intros HL.
  unfold harp_semaphore_cstate. cbn [cmem]. iIntros "Hm". rw big_sepM_insert // big_sepM_singleton. iDestruct "Hm" as "[Hh Hc]".
  iMod (ghost_map_elem_persist with "Hh") as "#Hh".
  iMod (start_value _ _ _ _ (length cs) Hr with "Hc") as (gn) "[#Hinv Hi]".
  iModIntro. iExists gn, 1%Qp. iFrame "Hinv". iApply (wp_all_clients _ _ _ _ 0 Hcs with "[] Hi").
  iIntros "!>" (c i) "%Hc Hi". iApply (wp_harp_semaphore_client with "[] Hi"); [done|].
  iFrame "Hinv Hh". by iPureIntro.
Qed.

(** One thread waits and releases, the other releases, waits and waits again. *)
Definition two_harp_clients : list harp_semaphore_client :=
  [ Wait_semaphore (λ _, Release_semaphore (λ _, Stop));
    Release_semaphore (λ _, Wait_semaphore (λ _,
      Wait_semaphore_timed (I 250) (λ _, Wait_semaphore_timed (I 250) (λ _, Stop))))].

Definition harp_clients_schedule : list nat :=
  concat (replicate 36 [0%nat; 1%nat]) ++ replicate 45 1%nat.

Lemma two_harp_clients_run :
  ∃ ps s, run_schedule harp_clients_schedule
      ((λ c, run_harp_semaphore_client the_container c 0) <$> two_harp_clients,
       harp_semaphore_cstate 1) = Some (ps, s) ∧
    prog_to_val <$> ps = [Some 0; Some (-1)].
Proof. apply (observe_schedule (λ r, prog_to_val <$> r.1)). vm_compute. reflexivity. Qed.

Lemma harp_semaphore_counts_witness :
  ∃ ps s, run_schedule harp_clients_schedule
      ((λ c, run_harp_semaphore_client the_container c 0) <$> two_harp_clients,
       harp_semaphore_cstate 1) = Some (ps, s) ∧
    prog_to_val <$> ps = [Some 0; Some (-1)] ∧
    (∃ count, cmem s !! semaphore_sema the_semaphore = Some count ∧ 0 <= count <= SEM_VALUE_MAX ∧
      (∀ nets, take (length two_harp_clients) ps = Ret <$> nets → count = 1 + Semaphores.total nets) ∧
      Forall (λ p, is_stuck p s = false) ps).
Proof.
  destruct two_harp_clients_run as (ps & s & E & Hps). exists ps, s. split; [exact E|]. split; [exact Hps|].
  apply (harp_semaphore_counts 1 two_harp_clients harp_clients_schedule ps s).
  - unfold SEM_VALUE_MAX. lia.
  - repeat constructor.
  - exact E.
Defined.

(** A semaphore at the maximum it was made with is released. *)
Definition release_full : prog :=
  lock <~ Act (Allocate [0; 0]);;
  primitive_make_semaphore 0 lock (I 1) (I 1);;;
  primitive_release_semaphore lock.

Example maximum_ignored : ∃ s, run_alone 100 release_full (mkC ∅ 1048576) = Some (OK, s).
Proof. eexists. vm_compute. reflexivity. Qed.
