(* ===== verification/HarpProgress.v ===== *)
(** * HARP calls that return

    Which primitives of [unix-threads-primitives.c] return whatever the other
    threads do: those that wait for a lock with a timeout, and those that release a
    lock or look at it or signal a notification.  The bound is on the steps of the
    calling thread.  The other primitives have none: a wait for a notification takes
    its lock again however long that lasts, and the operations on semaphores repeat
    an exchange as long as other threads are faster. *)

From S2P Require Import Prelude Memory Tagging Concur Tlv Locks HarpLocks.
From stdpp Require Import base tactics option list numbers gmap.
From Stdlib Require Import ZArith Lia.

Local Open Scope Z_scope.

(** ** Programs with a bound *)

(** [p] returns within [n] steps, whatever it reads. *)
Inductive returns : nat → prog → Prop :=
| returns_ret n v : returns n (Ret v)
| returns_act n x : returns (S n) (Act x)
| returns_bind n m p f : returns n p → (∀ v, returns m (f v)) → returns (S (n + m)) (Bind p f)
| returns_exit n (c : Z → bool) x body : c x = false → returns (S n) (While c x body)
| returns_fork n p : returns (S n) (Fork p).

Lemma returns_mono n m p : returns n p → (n ≤ m)%nat → returns m p.
Proof.
  intros H. revert m. induction H as [n v|n x|n m p f _ IHp _ IHf|n c x body Hc|n p]; intros k Hk.
  - constructor.
  - destruct k; [lia|constructor].
  - destruct k as [|k]; [lia|]. replace k with (n + (k - n))%nat by lia. constructor.
    + by apply IHp.
    + intros v. apply IHf. lia.
  - destruct k; [lia|by constructor].
  - destruct k; [lia|constructor].
Qed.

Lemma returns_if n m (b : bool) p q :
  returns n p → returns m q → returns (Nat.max n m) (if b then p else q).
Proof. intros H1 H2. destruct b; eapply returns_mono; try eassumption; lia. Qed.

(** Every step is one less. *)
Lemma returns_step n p s p' s' ps :
  returns n p → next p s = Some (p', s', ps) → ∃ m, n = S m ∧ returns m p'.
Proof.
  intros H. revert p' s' ps.
  induction H as [n v|n x|n m p f Hp IHp Hf _|n c x body Hc|n p]; intros p' s' ps E.
  - done.
  - simpl in E. destruct (act x s) as [[v s1]|]; [|done]. injection E as <- <- <-.
    exists n. split; [done|constructor].
  - assert ((∃ v, p = Ret v ∧ p' = f v) ∨
      ∃ q, next p s = Some (q, s', ps) ∧ p' = Bind q f) as [(v & -> & ->)|(q & Eq & ->)].
    { simpl in E. destruct p; try (right; destruct (next _ s) as [[[q s1] qs]|]; [|done];
        injection E as <- <- <-; eauto; fail).
      injection E as <- <- <-. left. eauto. }
    + exists (n + m)%nat. split; [done|]. eapply returns_mono; [apply Hf|lia].
    + destruct (IHp _ _ _ Eq) as (k & -> & Hq). exists (k + S m)%nat. split; [lia|].
      replace (k + S m)%nat with (S (k + m)) by lia. by constructor.
  - simpl in E. rewrite Hc in E. injection E as <- <- <-. exists n. split; [done|constructor].
  - simpl in E. injection E as <- <- <-. exists n. split; [done|constructor].
Qed.

(** How often a schedule names a thread. *)
Definition turns (i : nat) (l : list nat) : nat := length (filter (λ j, j = i) l).

Lemma returns_schedule i n p l ps s ps' s' :
  ps !! i = Some p → returns n p → run_schedule l (ps, s) = Some (ps', s') →
  ∃ p' m, ps' !! i = Some p' ∧ returns m p' ∧ (m + turns i l = n)%nat.
Proof.
  revert n p ps s. induction l as [|j l IH]; intros n p ps s Hi Hp E; simpl in E.
  - injection E as <- <-. exists p, n. unfold turns. rewrite filter_nil. simpl. auto.
  - destruct (pool_step j (ps, s)) as [[ps1 s1]|] eqn:Ej; [|done]. unfold pool_step in Ej; simpl in Ej.
    destruct (ps !! j) as [q|] eqn:Hj; [|done]. simpl in Ej.
    destruct (next q s) as [[[q' s2] fs]|] eqn:Eq; [|done]. injection Ej as <- ->.
    assert (j < length ps)%nat as Hlt by by eapply lookup_lt_Some.
    unfold turns. rewrite filter_cons. destruct (decide (j = i)) as [->|N].
    + rewrite Hi in Hj. injection Hj as <-. destruct (returns_step _ _ _ _ _ _ Hp Eq) as (m & -> & Hm).
      destruct (IH m q' (<[i := q']> ps ++ fs) s1) as (p' & k & H1 & H2 & H3); [|done|done|].
      { rewrite lookup_app_l by (by rewrite length_insert). by apply list_lookup_insert_eq. }
      exists p', k. split; [done|]. split; [done|]. unfold turns in H3. simpl. lia.
    + destruct (IH n p (<[j := q']> ps ++ fs) s1) as (p' & k & H1 & H2 & H3); [|done|done|].
      { rewrite lookup_app_l by (rewrite length_insert; by eapply lookup_lt_Some).
        by rewrite list_lookup_insert_ne. }
      exists p', k. auto.
Qed.

(** ** The calls *)

Inductive call :=
| Call_wait_timed (lock ms : Z)
| Call_release (lock : Z)
| Call_unlock (lock : Z)
| Call_owned (lock : Z)
| Call_release_notification (notif lock : Z)
| Call_release_all_notification (notif lock : Z)
| Call_wait_recursive_timed (lock ms : Z)
| Call_release_recursive (lock : Z)
| Call_owned_recursive (lock : Z).

Definition run_call (t : Z) (c : call) : prog :=
  match c with
  | Call_wait_timed lock ms => primitive_wait_for_simple_lock_timed t lock ms
  | Call_release lock => primitive_release_simple_lock t lock
  | Call_unlock lock => primitive_unlock_simple_lock t lock
  | Call_owned lock => primitive_owned_simple_lock t lock
  | Call_release_notification notif lock => primitive_release_notification t notif lock
  | Call_release_all_notification notif lock => primitive_release_all_notification t notif lock
  | Call_wait_recursive_timed lock ms => primitive_wait_for_recursive_lock_timed t lock ms
  | Call_release_recursive lock => primitive_release_recursive_lock t lock
  | Call_owned_recursive lock => primitive_owned_recursive_lock t lock
  end.

(** Twelve steps for each attempt to take a mutex, and a constant. *)
Definition call_bound (c : call) : nat :=
  match c with
  | Call_wait_timed _ ms | Call_wait_recursive_timed _ ms => 60 + 12 * sleeps (milliseconds ms)
  | _ => 60
  end.

(** Straight-line code, with its bound left open. *)
Ltac returning :=
  repeat match goal with
    | |- returns _ (Ret _) => apply (returns_ret 0)
    | |- returns _ (Act _) => apply (returns_act 0)
    | |- returns _ (Bind _ _) => eapply returns_bind; [|intros ?]
    | |- returns _ (if _ then _ else _) => eapply returns_if
    | |- returns _ (assert _) => unfold assert, If
    | |- returns _ (assert_handle _) => unfold assert_handle
    | |- returns _ (get_handle _) => unfold get_handle
    | |- returns _ (errorcheck_unlock _ _) => unfold errorcheck_unlock
    | |- returns _ (pthread_mutex_trylock _ _) => unfold pthread_mutex_trylock
    | |- returns _ (primitive_sleep _) => unfold primitive_sleep
    | |- returns _ (primitive_release_simple_lock _ _) => unfold primitive_release_simple_lock
    | |- returns _ (lock_again _) => unfold lock_again
    | |- returns _ (lock_first _ _) => unfold lock_first
    | |- returns _ pthread_cond_signal => unfold pthread_cond_signal
    | |- returns _ pthread_cond_broadcast => unfold pthread_cond_broadcast
    end.

Lemma returns_trylock_loop n self m timeleft :
  timeleft <= sleeptime * Z.of_nat n → returns (12 + 12 * n) (trylock_loop n self m timeleft).
Proof.
  revert timeleft. induction n as [|n IH]; intros timeleft Ht; cbn [trylock_loop].
  - rewrite (proj2 (Z.leb_le timeleft 0)) by lia. eapply returns_mono; [returning|]. simpl. lia.
  - eapply returns_mono; [returning; apply (IH (timeleft - sleeptime)); lia|]. simpl. lia.
Qed.

Lemma call_returns t c : returns (call_bound c) (run_call t c).
Proof.
  assert (∀ timeout, timeout <= sleeptime * Z.of_nat (sleeps timeout)) as Hs.
  { intros timeout. unfold sleeps, sleeptime. Z.to_euclidean_division_equations. lia. }
  destruct c; unfold run_call, call_bound.
  - unfold primitive_wait_for_simple_lock_timed. eapply returns_mono.
    { returning. apply returns_trylock_loop, Hs. } { simpl. lia. }
  - eapply returns_mono; [returning|simpl; lia].
  - unfold primitive_unlock_simple_lock. eapply returns_mono; [returning|simpl; lia].
  - unfold primitive_owned_simple_lock. eapply returns_mono; [returning|simpl; lia].
  - unfold primitive_release_notification. eapply returns_mono; [returning|simpl; lia].
  - unfold primitive_release_all_notification. eapply returns_mono; [returning|simpl; lia].
  - unfold primitive_wait_for_recursive_lock_timed. eapply returns_mono.
    { returning. apply returns_trylock_loop, Hs. } { simpl. lia. }
  - unfold primitive_release_recursive_lock. eapply returns_mono; [returning|simpl; lia].
  - unfold primitive_owned_recursive_lock. eapply returns_mono; [returning|simpl; lia].
Qed.

(** C8: A call of one of nine primitives of unix-threads-primitives.c (the timed
    waits for a simple and a recursive lock, primitive_release_simple_lock,
    primitive_unlock_simple_lock, primitive_owned_simple_lock,
    primitive_release_recursive_lock, primitive_owned_recursive_lock,
    primitive_release_notification and primitive_release_all_notification)
    takes no more steps, whatever the state and whatever the other threads
    do in between, than a bound that depends on the timeout alone. The timed
    waits for notifications and semaphores and the unlocking of recursive
    locks are not among them. *)
Theorem harp_calls_return t c i l ps s ps' s' :
  ps !! i = Some (run_call t c) → run_schedule l (ps, s) = Some (ps', s') →
  (turns i l ≤ call_bound c)%nat.
Proof.
  intros Hi E. destruct (returns_schedule _ _ _ _ _ _ _ _ Hi (call_returns t c) E) as (p & m & _ & _ & H).
  lia.
Qed.

(** A lock that another thread never releases *)
Definition held_lock : cstate :=
  mkC (<[container_handle 2048 := 4096]> (<[slock_mutex 4096 := 777]>
        {[slock_owner 4096 := 777]})) 1048576.

Definition timed_wait : call := Call_wait_timed 2048 (I 250).

Lemma timed_wait_run :
  ∃ ps s, run_schedule (replicate 25 0%nat) ([run_call 999 timed_wait], held_lock) = Some (ps, s) ∧
    prog_to_val <$> ps = [Some TIMEOUT].
Proof. apply (observe_schedule (λ r, prog_to_val <$> r.1)). vm_compute. reflexivity. Qed.

Lemma harp_calls_return_witness :
  ∃ ps s, run_schedule (replicate 25 0%nat) ([run_call 999 timed_wait], held_lock) = Some (ps, s) ∧
    prog_to_val <$> ps = [Some TIMEOUT] ∧
    (turns 0 (replicate 25 0%nat) ≤ call_bound timed_wait)%nat.
Proof.
  destruct timed_wait_run as (ps & s & E & Hps). exists ps, s. split; [exact E|]. split; [exact Hps|].
  apply (harp_calls_return 999 timed_wait 0 (replicate 25 0%nat) [run_call 999 timed_wait] held_lock ps s
    eq_refl E).
Defined.
