(* ===== verification/WinLocks.v ===== *)
(** * Locks of Windows

    The synchronization primitives of [windows-threads-primitives.c] as programs of
    [Concur.v].  A simple or a recursive lock counts the threads that have it or want it,
    from -1 on, with interlocked instructions; the threads that find it taken wait for a
    semaphore of the system, of which a release gives one unit when it finds that others
    want the lock.  A notification is made of two events of the system that are reset by
    hand.

    Objects of the system are words of the memory, named by their handles: a semaphore is
    its count and its maximum, an event is 1 when it is signalled.  Here [int] and [LONG]
    have 32 bits, and counts wrap around.  Messages have no effect. *)

From S2P Require Import Prelude Memory Tagging Concur Tlv Locks HarpLocks.
From stdpp Require Import base tactics option list numbers gmap.
From Stdlib Require Import ZArith Lia.

Local Open Scope Z_scope.
Local Open Scope prog_scope.

(** ** The system *)

Definition WAIT_OBJECT_0 : Z := 0.
Definition WAIT_TIMEOUT : Z := 258.
Definition WAIT_FAILED : Z := 4294967295.
Definition INFINITE : Z := 4294967295.

Definition hsem_count (h : Z) : Z := idx h 0.
Definition hsem_max (h : Z) : Z := idx h 1.
Definition event_state (h : Z) : Z := idx h 0.

(** What a wait depends on: how many attempts are made in so many milliseconds, and the
    answers of [GetTickCount]. *)
Record win_clock := mkWinClock { attempts : Z → nat; ticks : nat → Z }.

(** Attempts answer 0 when the object is signalled, 2 to be repeated at once. *)
Definition attempt_event (h : Z) : prog :=
  v <~ Act (Load (event_state h));; Ret (if v =? 0 then 1 else 0).

Fixpoint wait_polling (attempt : prog) (n : nat) : prog :=
  r <~ Do attempt (λ r, r =? 2);;
  if r =? 0 then Ret WAIT_OBJECT_0
  else match n with O => Ret WAIT_TIMEOUT | S n => wait_polling attempt n end.

Definition WaitForSingleObject (c : win_clock) (attempt : prog) (milliseconds : Z) : prog :=
  if milliseconds =? INFINITE then
    Do attempt (λ r, negb (r =? 0));;; Ret WAIT_OBJECT_0
  else wait_polling attempt (attempts c milliseconds).

(** Without a timeout *)
Definition wait_for_object (attempt : prog) : prog :=
  WaitForSingleObject (mkWinClock (λ _, O) (λ _, 0)) attempt INFINITE.

(** [TRUE], or [FALSE] when the count would exceed the maximum *)
Definition ReleaseSemaphore (h : Z) : prog :=
  m <~ Act (Load (hsem_max h));;
  r <~ Do (v <~ Act (Load (hsem_count h));;
           if m <? v + 1 then Ret 1
           else r <~ Act (Compare_and_swap (hsem_count h) (v + 1) v);; Ret (if r =? v then 0 else 2))
    (λ r, r =? 2);;
  Ret (if r =? 0 then 1 else 0).

Definition SetEvent (h : Z) : prog := Act (Store (event_state h) 1);;; Ret 1.
Definition ResetEvent (h : Z) : prog := Act (Store (event_state h) 0);;; Ret 1.

(** [ok]: the system has room for the object. *)
Definition CreateSemaphore (ok : bool) (initial max : Z) : prog :=
  if ok && (0 <=? initial) && (0 <? max) && (initial <=? max) then Act (Allocate [initial; max])
  else Ret NULL.
Definition CreateEvent (ok : bool) (initial : Z) : prog :=
  if ok then Act (Allocate [initial]) else Ret NULL.
Definition CloseHandle (ok : bool) (h n : Z) : prog :=
  if ok then Act (Deallocate h n);;; Ret 1 else Ret 0.

Definition internal_InterlockedIncrement (a : Z) : prog := Act (Fetch_and_add32 a 1).
Definition internal_InterlockedDecrement (a : Z) : prog := Act (Fetch_and_add32 a (-1)).
Definition internal_InterlockedCompareExchange (a exchange compare : Z) : prog :=
  Act (Compare_and_swap a exchange compare).

(** ** Layouts *)

Definition slock_owner (s : Z) : Z := idx s 0.
Definition slock_semaphore (s : Z) : Z := idx s 1.
Definition slock_lock_count (s : Z) : Z := idx s 2.
Definition rlock_owner (r : Z) : Z := idx r 0.
Definition rlock_semaphore (r : Z) : Z := idx r 1.
Definition rlock_lock_count (r : Z) : Z := idx r 2.
Definition rlock_recursion_count (r : Z) : Z := idx r 3.
Definition notification_notifier (n : Z) : Z := idx n 0.
Definition notification_anti_notifier (n : Z) : Z := idx n 1.
Definition notification_target (n : Z) : Z := idx n 2.
Definition notification_count (n : Z) : Z := idx n 3.

(** ** Simple locks *)

Definition primitive_make_simple_lock (ok : bool) (lock : Z) : prog :=
  assert (negb (lock =? NULL));;;
  slock <~ Act (Allocate [0; 0; 0]);;
  if slock =? NULL then Ret GENERAL_ERROR
  else
    Act (Store (slock_lock_count slock) (-1));;;
    semaphore <~ CreateSemaphore ok 0 1;;
    Act (Store (slock_semaphore slock) semaphore);;;
    if semaphore =? NULL then Ret GENERAL_ERROR
    else
      Act (Store (slock_owner slock) 0);;;
      Act (Store (container_handle lock) slock);;;
      Ret OK.

Definition primitive_destroy_simple_lock (ok : bool) (lock : Z) : prog :=
  slock <~ get_handle lock;;
  semaphore <~ Act (Load (slock_semaphore slock));;
  r <~ CloseHandle ok semaphore 2;;
  if r =? 0 then Ret GENERAL_ERROR
  else Act (Deallocate slock 3);;; Ret OK.

(** [slock->lock_count--], which is not interlocked *)
Definition drop_lock_count (slock : Z) : prog :=
  v <~ Act (Load (slock_lock_count slock));;
  Act (Store (slock_lock_count slock) (s32 (v - 1))).

Definition primitive_wait_for_simple_lock_internal (slock hThread : Z) : prog :=
  owner <~ Act (Load (slock_owner slock));;
  if owner =? hThread then drop_lock_count slock;;; Ret ALREADY_LOCKED
  else
    semaphore <~ Act (Load (slock_semaphore slock));;
    r <~ wait_for_object (sem_attempt (hsem_count semaphore));;
    if negb (r =? WAIT_OBJECT_0) then Ret GENERAL_ERROR
    else Act (Store (slock_owner slock) hThread);;; Ret OK.

Definition primitive_wait_for_simple_lock (hThread lock : Z) : prog :=
  slock <~ get_handle lock;;
  r <~ internal_InterlockedIncrement (slock_lock_count slock);;
  if r =? 0 then Act (Store (slock_owner slock) hThread);;; Ret OK
  else primitive_wait_for_simple_lock_internal slock hThread.

(** The argument in milliseconds as an [int], which [WaitForSingleObject] takes for an
    unsigned number *)
Definition wait_milliseconds (zmilsecs : Z) : Z := u32 (milliseconds zmilsecs).

Definition primitive_wait_for_simple_lock_timed_internal (c : win_clock)
    (slock hThread ztimeout : Z) : prog :=
  owner <~ Act (Load (slock_owner slock));;
  if owner =? hThread then drop_lock_count slock;;; Ret ALREADY_LOCKED
  else
    semaphore <~ Act (Load (slock_semaphore slock));;
    r <~ WaitForSingleObject c (sem_attempt (hsem_count semaphore)) (wait_milliseconds ztimeout);;
    if r =? WAIT_OBJECT_0 then Act (Store (slock_owner slock) hThread);;; Ret OK
    else if r =? WAIT_TIMEOUT then Ret TIMEOUT
    else Ret GENERAL_ERROR.

Definition primitive_wait_for_simple_lock_timed (c : win_clock) (hThread lock zmilsecs : Z) : prog :=
  assert_handle lock;;;
  assert (IS_ZINT zmilsecs);;;
  slock <~ Act (Load (container_handle lock));;
  r <~ internal_InterlockedIncrement (slock_lock_count slock);;
  if r =? 0 then Act (Store (slock_owner slock) hThread);;; Ret OK
  else primitive_wait_for_simple_lock_timed_internal c slock hThread zmilsecs.

Definition primitive_release_simple_lock_internal (slock : Z) : prog :=
  semaphore <~ Act (Load (slock_semaphore slock));;
  r <~ ReleaseSemaphore semaphore;;
  if r =? 0 then Ret GENERAL_ERROR else Ret OK.

Definition primitive_release_simple_lock (hThread lock : Z) : prog :=
  slock <~ get_handle lock;;
  owner <~ Act (Load (slock_owner slock));;
  if negb (owner =? hThread) then Ret NOT_LOCKED
  else
    Act (Store (slock_owner slock) 0);;;
    decRes <~ internal_InterlockedDecrement (slock_lock_count slock);;
    if 0 <=? decRes then primitive_release_simple_lock_internal slock else Ret OK.

Definition primitive_owned_simple_lock (hThread lock : Z) : prog :=
  slock <~ get_handle lock;;
  owner <~ Act (Load (slock_owner slock));;
  if owner =? hThread then Ret (I 1) else Ret (I 0).

Definition primitive_unlock_simple_lock (lock : Z) : prog :=
  slock <~ get_handle lock;;
  owner <~ Act (Load (slock_owner slock));;
  if owner =? 0 then
    count <~ Act (Load (slock_lock_count slock));;
    assert (count =? -1);;;
    Ret OK
  else
    Act (Store (slock_owner slock) 0);;;
    decRes <~ internal_InterlockedDecrement (slock_lock_count slock);;
    if 0 <=? decRes then primitive_release_simple_lock_internal slock else Ret OK.

(** ** Recursive locks *)

Definition primitive_make_recursive_lock (ok : bool) (lock : Z) : prog :=
  assert (negb (lock =? NULL));;;
  rlock <~ Act (Allocate [0; 0; 0; 0]);;
  if rlock =? NULL then Ret GENERAL_ERROR
  else
    Act (Store (rlock_lock_count rlock) (-1));;;
    semaphore <~ CreateSemaphore ok 0 1;;
    Act (Store (rlock_semaphore rlock) semaphore);;;
    if semaphore =? NULL then Ret GENERAL_ERROR
    else
      Act (Store (rlock_owner rlock) 0);;;
      Act (Store (rlock_recursion_count rlock) 0);;;
      Act (Store (container_handle lock) rlock);;;
      Ret OK.

Definition primitive_destroy_recursive_lock (ok : bool) (lock : Z) : prog :=
  rlock <~ get_handle lock;;
  semaphore <~ Act (Load (rlock_semaphore rlock));;
  r <~ CloseHandle ok semaphore 2;;
  if r =? 0 then Ret GENERAL_ERROR
  else Act (Deallocate rlock 4);;; Ret OK.

Definition claim_recursive_lock (rlock hThread : Z) : prog :=
  Act (Store (rlock_owner rlock) hThread);;;
  Act (Store (rlock_recursion_count rlock) 1);;;
  Ret OK.

Definition primitive_wait_for_recursive_lock_internal (rlock hThread : Z) : prog :=
  semaphore <~ Act (Load (rlock_semaphore rlock));;
  r <~ wait_for_object (sem_attempt (hsem_count semaphore));;
  if negb (r =? WAIT_OBJECT_0) then Ret GENERAL_ERROR
  else claim_recursive_lock rlock hThread.

(** The lock is the thread's own, or free, or [wait] is called. *)
Definition enter_recursive_lock (rlock hThread : Z) (wait : prog) : prog :=
  owner <~ Act (Load (rlock_owner rlock));;
  if owner =? hThread then
    count <~ Act (Load (rlock_recursion_count rlock));;
    Act (Store (rlock_recursion_count rlock) (s32 (count + 1)));;;
    Ret OK
  else
    r <~ internal_InterlockedIncrement (rlock_lock_count rlock);;
    if r =? 0 then claim_recursive_lock rlock hThread else wait.

Definition primitive_wait_for_recursive_lock (hThread lock : Z) : prog :=
  rlock <~ get_handle lock;;
  enter_recursive_lock rlock hThread (primitive_wait_for_recursive_lock_internal rlock hThread).

(** Any other answer of the wait counts as success. *)
Definition primitive_wait_for_recursive_lock_timed_internal (c : win_clock)
    (rlock hThread ztimeout : Z) : prog :=
  semaphore <~ Act (Load (rlock_semaphore rlock));;
  r <~ WaitForSingleObject c (sem_attempt (hsem_count semaphore)) (wait_milliseconds ztimeout);;
  if r =? WAIT_OBJECT_0 then claim_recursive_lock rlock hThread
  else if r =? WAIT_TIMEOUT then Ret TIMEOUT
  else if r =? WAIT_FAILED then Ret GENERAL_ERROR
  else Ret OK.

Definition primitive_wait_for_recursive_lock_timed (c : win_clock) (hThread lock zmilsecs : Z) : prog :=
  assert_handle lock;;;
  assert (IS_ZINT zmilsecs);;;
  rlock <~ Act (Load (container_handle lock));;
  enter_recursive_lock rlock hThread
    (primitive_wait_for_recursive_lock_timed_internal c rlock hThread zmilsecs).

Definition primitive_release_recursive_lock_internal (rlock : Z) : prog :=
  semaphore <~ Act (Load (rlock_semaphore rlock));;
  r <~ ReleaseSemaphore semaphore;;
  if r =? 0 then Ret GENERAL_ERROR else Ret OK.

Definition primitive_release_recursive_lock (hThread lock : Z) : prog :=
  rlock <~ get_handle lock;;
  owner <~ Act (Load (rlock_owner rlock));;
  if negb (owner =? hThread) then Ret NOT_LOCKED
  else
    count <~ Act (Load (rlock_recursion_count rlock));;
    Act (Store (rlock_recursion_count rlock) (s32 (count - 1)));;;
    if s32 (count - 1) =? 0 then
      Act (Store (rlock_owner rlock) 0);;;
      decRes <~ internal_InterlockedDecrement (rlock_lock_count rlock);;
      if 0 <=? decRes then primitive_release_recursive_lock_internal rlock else Ret OK
    else Ret OK.

Definition primitive_owned_recursive_lock (hThread lock : Z) : prog :=
  rlock <~ get_handle lock;;
  owner <~ Act (Load (rlock_owner rlock));;
  if owner =? hThread then Ret (I 1) else Ret (I 0).

Definition primitive_unlock_recursive_lock (lock : Z) : prog :=
  rlock <~ get_handle lock;;
  owner <~ Act (Load (rlock_owner rlock));;
  if owner =? 0 then
    count <~ Act (Load (rlock_lock_count rlock));;
    assert (count =? -1);;;
    recursion <~ Act (Load (rlock_recursion_count rlock));;
    assert (recursion =? 0);;;
    Ret OK
  else
    Act (Store (rlock_recursion_count rlock) 0);;;
    Act (Store (rlock_owner rlock) 0);;;
    decRes <~ internal_InterlockedDecrement (rlock_lock_count rlock);;
    if 0 <=? decRes then primitive_release_recursive_lock_internal rlock else Ret OK.

(** ** Notifications *)

Definition primitive_make_notification (ok1 ok2 : bool) (notif : Z) : prog :=
  assert (negb (notif =? NULL));;;
  notification <~ Act (Allocate [0; 0; 0; 0]);;
  if notification =? NULL then Ret GENERAL_ERROR
  else
    notifier <~ CreateEvent ok1 0;;
    Act (Store (notification_notifier notification) notifier);;;
    anti_notifier <~ CreateEvent ok2 1;;
    Act (Store (notification_anti_notifier notification) anti_notifier);;;
    if (notifier =? NULL) || (anti_notifier =? NULL) then Ret GENERAL_ERROR
    else
      Act (Store (notification_target notification) 1);;;
      Act (Store (notification_count notification) 0);;;
      Act (Store (container_handle notif) notification);;;
      Ret OK.

Definition primitive_destroy_notification (ok1 ok2 : bool) (notif : Z) : prog :=
  notification <~ get_handle notif;;
  notifier <~ Act (Load (notification_notifier notification));;
  r1 <~ CloseHandle ok1 notifier 1;;
  if r1 =? 0 then Ret GENERAL_ERROR
  else
    anti_notifier <~ Act (Load (notification_anti_notifier notification));;
    r2 <~ CloseHandle ok2 anti_notifier 1;;
    if r2 =? 0 then Ret GENERAL_ERROR
    else Act (Deallocate notification 4);;; Ret OK.

Definition on_notifier (f : Z → prog) (notification : Z) : prog :=
  h <~ Act (Load (notification_notifier notification));; f h.
Definition on_anti_notifier (f : Z → prog) (notification : Z) : prog :=
  h <~ Act (Load (notification_anti_notifier notification));; f h.

Definition wait_event (c : win_clock) (ms h : Z) : prog := WaitForSingleObject c (attempt_event h) ms.

(** Whether both succeeded *)
Definition rearm (notification : Z) : prog :=
  r <~ on_notifier ResetEvent notification;;
  if r =? 0 then Ret 0 else on_anti_notifier SetEvent notification.

Definition fire (notification : Z) : prog :=
  r <~ on_anti_notifier ResetEvent notification;;
  if r =? 0 then Ret 0 else on_notifier SetEvent notification.

(** [owned = (int)primitive_owned_simple_lock(lock) >> 2] *)
Definition owned_lock (hThread lock : Z) : prog :=
  r <~ primitive_owned_simple_lock hThread lock;; Ret (Z.shiftr (s32 r) 2).

(** Woken: the last one, or the only one, rearms the notification; then the lock is
    taken again. *)
Definition finish_wait (hThread lock notification tmp1 : Z) : prog :=
  tmp2 <~ internal_InterlockedDecrement (notification_count notification);;
  r <~ (if negb (tmp1 =? -1) || (tmp2 <=? 0) then rearm notification else Ret 1);;
  if r =? 0 then Ret GENERAL_ERROR
  else
    r <~ primitive_wait_for_simple_lock hThread lock;;
    if negb (r =? OK) then Ret GENERAL_ERROR else Ret OK.

Definition no_clock : win_clock := mkWinClock (λ _, O) (λ _, 0).

(** One round of the loop of a wait: the old target, or 2 for an error *)
Definition await_target (notification : Z) : prog :=
  r <~ on_notifier (wait_event no_clock INFINITE) notification;;
  if negb (r =? WAIT_OBJECT_0) then Ret 2
  else internal_InterlockedCompareExchange (notification_target notification) 1 0.

Definition primitive_wait_for_notification (hThread notif lock : Z) : prog :=
  assert_handle notif;;;
  assert_handle lock;;;
  notification <~ Act (Load (container_handle notif));;
  slock <~ Act (Load (container_handle lock));;
  owned <~ owned_lock hThread lock;;
  if owned =? 0 then Ret NOT_LOCKED
  else
    r <~ on_anti_notifier (wait_event no_clock INFINITE) notification;;
    if negb (r =? WAIT_OBJECT_0) then Ret GENERAL_ERROR
    else
      internal_InterlockedIncrement (notification_count notification);;;
      r <~ primitive_release_simple_lock hThread lock;;
      if negb (r =? OK) then Ret GENERAL_ERROR
      else
        tmp1 <~ Do (await_target notification) (λ tmp1, tmp1 =? 1);;
        if tmp1 =? 2 then Ret GENERAL_ERROR
        else finish_wait hThread lock notification tmp1.

(** The time that is left in round [i] of the loop; the subtraction is unsigned. *)
Definition remaining (c : win_clock) (zmilsecs : Z) (i : nat) : Z :=
  u32 (milliseconds zmilsecs - u32 (ticks c (S i) - ticks c 0)).

(** A round of the loop: the number of the next round, or -1 after a timeout, -2 after an
    error, -3 when the thread is the one to be woken and -4 when all are. *)
Definition await_target_timed (c : win_clock) (zmilsecs notification i : Z) : prog :=
  r <~ on_notifier (wait_event c (remaining c zmilsecs (Z.to_nat i))) notification;;
  if r =? WAIT_TIMEOUT then Ret (-1)
  else if r =? WAIT_FAILED then Ret (-2)
  else
    tmp1 <~ internal_InterlockedCompareExchange (notification_target notification) 1 0;;
    Ret (if tmp1 =? 1 then i + 1 else if tmp1 =? -1 then -4 else -3).

(** No signal in time *)
Definition give_up_wait (hThread lock notification : Z) : prog :=
  tmp2 <~ internal_InterlockedDecrement (notification_count notification);;
  r <~ on_notifier (wait_event no_clock 0) notification;;
  If ((r =? WAIT_OBJECT_0) && (tmp2 <=? 0)) 
    (on_notifier ResetEvent notification;;; on_anti_notifier SetEvent notification);;;
  primitive_wait_for_simple_lock hThread lock;;;
  Ret TIMEOUT.

Definition primitive_wait_for_notification_timed (c : win_clock) (hThread notif lock zmilsecs : Z) : prog :=
  assert_handle notif;;;
  assert_handle lock;;;
  assert (IS_ZINT zmilsecs);;;
  notification <~ Act (Load (container_handle notif));;
  slock <~ Act (Load (container_handle lock));;
  owned <~ owned_lock hThread lock;;
  if owned =? 0 then Ret NOT_LOCKED
  else
    r <~ on_anti_notifier (wait_event c (wait_milliseconds zmilsecs)) notification;;
    if r =? WAIT_TIMEOUT then Ret TIMEOUT
    else if r =? WAIT_FAILED then Ret GENERAL_ERROR
    else
      internal_InterlockedIncrement (notification_count notification);;;
      primitive_release_simple_lock hThread lock;;;
      r <~ While (λ i, 0 <=? i) 0 (await_target_timed c zmilsecs notification);;
      if r =? -1 then give_up_wait hThread lock notification
      else if r =? -2 then Ret GENERAL_ERROR
      else finish_wait hThread lock notification (if r =? -4 then -1 else 0).

(** [target]: 0 to wake one thread, -1 for all. *)
Definition release_waiting (hThread notif lock target : Z) : prog :=
  assert_handle notif;;;
  assert_handle lock;;;
  notification <~ Act (Load (container_handle notif));;
  slock <~ Act (Load (container_handle lock));;
  owned <~ owned_lock hThread lock;;
  if owned =? 0 then Ret NOT_LOCKED
  else
    r <~ on_anti_notifier (wait_event no_clock INFINITE) notification;;
    if negb (r =? WAIT_OBJECT_0) then Ret GENERAL_ERROR
    else
      count <~ Act (Load (notification_count notification));;
      if 0 <? count then
        Act (Store (notification_target notification) target);;;
        r <~ fire notification;;
        if r =? 0 then Ret GENERAL_ERROR else Ret OK
      else Ret OK.

Definition primitive_release_notification (hThread notif lock : Z) : prog :=
  release_waiting hThread notif lock 0.

Definition primitive_release_all_notification (hThread notif lock : Z) : prog :=
  release_waiting hThread notif lock (-1).

(** ** Semaphores

    The container has the handle of the system's semaphore. *)

Definition primitive_make_semaphore (ok : bool) (lock zinitial zmax : Z) : prog :=
  assert (negb (lock =? NULL));;;
  assert (IS_ZINT zinitial);;;
  assert (IS_ZINT zmax);;;
  hSemaphore <~ CreateSemaphore ok (milliseconds zinitial) (milliseconds zmax);;
  if hSemaphore =? NULL then Ret GENERAL_ERROR
  else Act (Store (container_handle lock) hSemaphore);;; Ret OK.

Definition primitive_destroy_semaphore (ok : bool) (lock : Z) : prog :=
  h <~ get_handle lock;;
  r <~ CloseHandle ok h 2;;
  if r =? 0 then Ret GENERAL_ERROR else Ret OK.

Definition primitive_wait_for_semaphore (lock : Z) : prog :=
  hSemaphore <~ get_handle lock;;
  r <~ wait_for_object (sem_attempt (hsem_count hSemaphore));;
  if negb (r =? WAIT_OBJECT_0) then Ret GENERAL_ERROR else Ret OK.

Definition primitive_wait_for_semaphore_timed (c : win_clock) (lock zmilsecs : Z) : prog :=
  assert_handle lock;;;
  assert (IS_ZINT zmilsecs);;;
  hSemaphore <~ Act (Load (container_handle lock));;
  r <~ WaitForSingleObject c (sem_attempt (hsem_count hSemaphore)) (wait_milliseconds zmilsecs);;
  if r =? WAIT_OBJECT_0 then Ret OK
  else if r =? WAIT_TIMEOUT then Ret TIMEOUT
  else Ret GENERAL_ERROR.

Definition primitive_release_semaphore (lock : Z) : prog :=
  hSemaphore <~ get_handle lock;;
  r <~ ReleaseSemaphore hSemaphore;;
  if r =? 0 then Ret COUNT_EXCEEDED else Ret OK.

(** ** Priorities *)

Definition THREAD_PRIORITY_IDLE : Z := -15.
Definition THREAD_PRIORITY_TIME_CRITICAL : Z := 15.

Definition priority_map (dylan_priority : Z) : Z :=
  if dylan_priority <? 0 then
    if dylan_priority <? -1249 then THREAD_PRIORITY_IDLE
    else Z.quot (dylan_priority - 250) 500
  else
    if 1249 <? dylan_priority then THREAD_PRIORITY_TIME_CRITICAL
    else Z.quot (dylan_priority + 250) 500.
