(* ===== verification/WinLockLaws.v ===== *)
(** * Specifications of the Windows locks

    A counted lock, as in [Ownership.v]: the thread that counts it from -1 to 0 has it, or
    the one that takes the unit of its semaphore.  While the lock is free, either the
    count is -1 and the semaphore is empty or the count is not negative and the semaphore
    has its unit; while a thread has it the count is not negative and the semaphore is
    empty.  The timeouts that stay in the count do no harm to that as long as the count, an
    [int], has room for all calls that wait: each of them pays with a credit, and there
    are less than 2^31 of those. *)

From S2P Require Import Prelude Memory Tagging Concur ConcurLogic Tlv Locks LockLaws Ownership HarpLocks WinLocks.
From stdpp Require Import base tactics option list numbers gmap fin_maps.
From Stdlib Require Import ZArith Lia.
From iris.proofmode Require Import proofmode.
From iris.algebra Require Import auth numbers.
From iris.base_logic.lib Require Import invariants ghost_map own.
From iris.program_logic Require Import weakestpre.

Local Open Scope Z_scope.

(** ** Credits *)

Section credits.
Context `{!lockGS Σ} (gc : gname).

Definition credit_limit : iProp Σ := ∃ B : nat, ⌜Z.of_nat B < 2147483648⌝ ∗ own gc (●□ B).
Definition credits (n : nat) : iProp Σ := own gc (◯ n).

#[global] Instance credit_limit_persistent : Persistent credit_limit.
Proof. apply _. Qed.

#[global] Instance credit_limit_timeless : Timeless credit_limit.
Proof. apply _. Qed.

#[global] Instance credits_timeless n : Timeless (credits n).
Proof. apply _. Qed.

Lemma credits_split n m : credits (n + m) ⊣⊢ credits n ∗ credits m.
Proof. unfold credits. by rw -own_op -auth_frag_op. Qed.

Lemma credits_bound n : credit_limit -∗ credits n -∗ ⌜Z.of_nat n < 2147483648⌝.
Proof.
  iIntros "(%B & %HB & Hl) Hn".
  iDestruct (own_valid_2 with "Hl Hn") as %(_ & Hle%nat_included & _)%auth_both_dfrac_valid_discrete.
  iPureIntro. lia.
Qed.

Lemma credits_none : ⊢ |==> credits 0.
Proof. apply (own_unit (authR natUR)). Qed.
End credits.

Lemma credits_alloc `{!lockGS Σ} (n : nat) :
  Z.of_nat n < 2147483648 → ⊢ |==> ∃ gc, credit_limit gc ∗ credits gc n.
Proof.
  iIntros (Hn). iMod (own_alloc (● n ⋅ ◯ n)) as (gc) "[Ha Hf]"; [by apply auth_both_valid|].
  iMod (own_update with "Ha") as "Ha"; [apply auth_update_auth_persist|].
  iModIntro. iExists gc. iFrame. by iPureIntro.
Qed.

(** ** Waits *)

Section waits.
Context `{!concurGS Σ}.

(** A wait for an object: an attempt turns [A] into [B]; a timeout leaves [A]. *)
Lemma wp_wait_single c (attempt : prog) ms (A B : iProp Σ) Φ :
  A -∗ □ (A -∗ WP (attempt : expr threads) {{ r, ⌜r = 0⌝ ∗ B ∨ ⌜r ≠ 0⌝ ∗ A }}) -∗
  (∀ r, ⌜r = WAIT_OBJECT_0⌝ ∗ B ∨ ⌜r = WAIT_TIMEOUT ∧ ms ≠ INFINITE⌝ ∗ A -∗ Φ r) -∗
  WP (WaitForSingleObject c attempt ms : expr threads) {{ Φ }}.
Proof.
  iIntros "HA #Hattempt HΦ". unfold WaitForSingleObject.
  set (J := (λ r : val threads, ⌜r = 0⌝ ∗ B ∨ ⌜r ≠ 0⌝ ∗ A)%I). fold J.
  destruct (Z.eqb_spec ms INFINITE) as [->|Hms].
  - iApply wp_seq. unfold Do. iApply wp_seq.
    iApply (wp_wand with "[HA]"); [by iApply "Hattempt"|]. iIntros (r) "HJ !>".
    iApply (wp_while_inv J with "HJ").
    + iIntros "!>" (y Hy) "[[-> _]|[_ HA]]"; [done|]. by iApply "Hattempt".
    + iIntros (y Hy) "[[-> HB]|[%Hne _]] !>".
      * iApply wp_ret. iApply "HΦ". iLeft. by iFrame.
      * by apply negb_false_iff, Z.eqb_eq in Hy.
  - iInduction (attempts c ms) as [|n] "IH"; cbn [wait_polling]; iApply wp_seq;
      (iApply (wp_attempts attempt J with "[HA]");
       [by iRight; iFrame|iIntros "!> [[% _]|[_ HA]]"; [done|by iApply "Hattempt"]|]);
      iIntros (r _) "[[-> HB]|[%Hne HA]] !>".
    1, 3: iApply wp_ret; iApply "HΦ"; iLeft; by iFrame.
    all: rw (proj2 (Z.eqb_neq r 0)) //.
    + iApply wp_ret. iApply "HΦ". iRight. by iFrame.
    + by iApply ("IH" with "HA").
Qed.

End waits.

(** ** Counted locks *)

(** What [counted_words] says of the count and the semaphore *)
Ltac counting :=
  iPureIntro; repeat match goal with |- context [?x =? ?y] => destruct (Z.eqb_spec x y) end;
  naive_solver lia.

Section counted.
Context `{!lockGS Σ} (N : namespace) (gc g g2 : gname) (lc h ow : Z) (R : iProp Σ) `{!Timeless R}.

(** A positive [k]: the thread that has the lock has counted it once more than that, and
    no value it stores in the count is more than [k]. *)
Definition again (k : Z) : iProp Σ := 0 ↪[g2] k.

Definition counted_words (w : Z) : iProp Σ :=
  ∃ (c q k : Z) (n : nat), lc ↦ c ∗ hsem_count h ↦ q ∗
    ghost_map_auth g2 1 ({[0 := k]} : gmap Z Z) ∗ credit_limit gc ∗ credits gc n ∗
    ⌜(if w =? 0 then c = -1 ∧ q = 0 ∨ 0 <= c ∧ q = 1 else 0 <= c ∧ q = 0) ∧ (0 < k → 1 <= c) ∧
      c < Z.of_nat n ∧ k <= Z.of_nat n⌝.

#[global] Instance counted_words_timeless w : Timeless (counted_words w).
Proof. apply _. Qed.

Definition kept : iProp Σ := again 0 ∗ R.

Definition is_counted : iProp Σ := is_owned N g counted_words ow kept.

Notation without t := (without g t).
Notation having t o := (having g ow t o).

#[global] Instance is_counted_persistent : Persistent is_counted.
Proof. apply _. Qed.

(** *** The count

    The next value of the count, with one credit more *)
Lemma next_count c n :
  -1 <= c → c < Z.of_nat n → Z.of_nat n < 2147483648 → s32 (c + 1) = c + 1.
Proof. intros H1 H2 H3. apply s32_id. unfold in_s32. lia. Qed.

Lemma wp_count_in t Φ :
  is_counted -∗ credits gc 1 -∗ without t -∗
  (∀ r, ⌜r = 0⌝ ∗ having t 0 ∗ kept ∨ ⌜r ≠ 0⌝ ∗ without t -∗ Φ r) -∗
  WP (internal_InterlockedIncrement lc : expr threads) {{ Φ }}.
Proof using Type*.
  iIntros "#Hinv Hone Ht HΦ". unfold internal_InterlockedIncrement. iInv N as ">Hst".
  iDestruct (owned_access with "Hst Ht") as (w o (Ht0 & Hb & Ho')) "(Hw & Ho & HR & Hclose)".
  symmetry in Hb. apply bool_decide_eq_false in Hb.
  iDestruct "Hw" as (c q k n) "(Hc & Hq & Hg & #Hlimit & Hn & %Hs & %Hmore & %Hcn & %Hkn)".
  iDestruct (credits_bound with "Hlimit Hn") as %Hbound.
  iAssert (credits gc (n + 1)) with "[Hone Hn]" as "Hn"; [rw credits_split; iFrame|].
  iApply (wp_fetch_and_add32 with "Hc"). iIntros "!> Hc".
  rw (next_count c n); [|destruct (w =? 0); lia..].
  destruct (Z.eqb_spec w 0) as [->|Hw]; [destruct Hs as [[-> ->]|[Hc ->]]|].
  - iEval (unfold owned_res; simpl) in "HR". iDestruct "HR" as "[HR Ho2]".
    iDestruct (ghost_map_elem_agree with "Ho Ho2") as %->.
    iMod ("Hclose" $! true t 0 with "[%] [Hc Hq Hg Hn] Ho []") as "[$ Ht]".
    { split_and!; [by auto|by rw bool_decide_true|by left]. }
    { iExists 0, 0, k, (n + 1)%nat. iFrame "Hc Hq Hg Hlimit Hn". by counting. }
    { unfold owned_res. by rw (proj2 (Z.eqb_neq t 0)). }
    iModIntro. iApply "HΦ". iLeft. by iFrame.
  - iMod ("Hclose" $! false 0 o with "[%] [Hc Hq Hg Hn] Ho HR") as "[$ Ht]".
    { split_and!; [by left|by rw bool_decide_false|done]. }
    { iExists (c + 1), 1, k, (n + 1)%nat. iFrame "Hc Hq Hg Hlimit Hn". by counting. }
    iModIntro. iApply "HΦ". iRight. iFrame. iPureIntro. lia.
  - iMod ("Hclose" $! false w o with "[%] [Hc Hq Hg Hn] Ho HR") as "[$ Ht]".
    { split_and!; [by left|by rw bool_decide_false|done]. }
    { iExists (c + 1), q, k, (n + 1)%nat. iFrame "Hc Hq Hg Hlimit Hn". by counting. }
    iModIntro. iApply "HΦ". iRight. iFrame. iPureIntro. lia.
Qed.

(** What the thread that has the lock may do with the count *)
Lemma counted_having t o k : owned_state g counted_words ow kept -∗ having t o -∗ again k -∗
  ∃ (c : Z) (n : nat), ⌜0 <= c ∧ (0 < k → 1 <= c) ∧ c < Z.of_nat n ∧ k <= Z.of_nat n ∧
      Z.of_nat n < 2147483648⌝ ∗ lc ↦ c ∗ credits gc n ∗
    (∀ (c' k' : Z) (n' : nat), ⌜0 <= c' ∧ (0 < k' → 1 <= c') ∧ c' < Z.of_nat n' ∧ k' <= Z.of_nat n'⌝ -∗
      lc ↦ c' -∗ credits gc n' ==∗
      owned_state g counted_words ow kept ∗ having t o ∗ again k').
Proof using Type*.
  iIntros "Hst [Ht Ho'] Hag".
  iDestruct (owned_access with "Hst Ht") as (w o1 (Ht0 & Hb & Ho1)) "(Hw & Ho & HR & Hclose)".
  symmetry in Hb. pose proof Hb as Hw. apply bool_decide_eq_true in Hw as <-.
  iDestruct "Hw" as (c q k1 n) "(Hc & Hq & Hg & #Hlimit & Hn & %Hs & %Hmore & %Hcn & %Hkn)".
  iDestruct (ghost_map_lookup with "Hg Hag") as %Hl. rw lookup_singleton_eq in Hl. injection Hl as ->.
  rw (proj2 (Z.eqb_neq t 0)) // in Hs. destruct Hs as [Hc0 ->].
  iDestruct (credits_bound with "Hlimit Hn") as %Hbound.
  iExists c, n. iFrame "Hc Hn". iSplit; [done|]. iIntros (c' k' n') "%Hc' Hc Hn".
  iMod (ghost_map_update k' with "Hg Hag") as "[Hg $]". rw insert_singleton_eq.
  iMod ("Hclose" $! true t o1 with "[%] [Hc Hq Hg Hn] Ho HR") as "[$ $]"; [by auto| |by iFrame].
  iExists c', 0, k', n'. iFrame "Hc Hq Hg Hlimit Hn". by counting.
Qed.

Lemma wp_count_again t o Φ :
  is_counted -∗ credits gc 1 -∗ having t o -∗ again 0 -∗
  (∀ r, ⌜r ≠ 0⌝ -∗ having t o -∗ again 1 -∗ Φ r) -∗
  WP (internal_InterlockedIncrement lc : expr threads) {{ Φ }}.
Proof using Type*.
  iIntros "#Hinv Hone Ht Hag HΦ". unfold internal_InterlockedIncrement. iInv N as ">Hst".
  iDestruct (counted_having with "Hst Ht Hag") as (c n (Hc & _ & Hcn & _ & Hbound)) "(Hc & Hn & Hclose)".
  iApply (wp_fetch_and_add32 with "Hc"). iIntros "!> Hc". rw (next_count c n); [|lia..].
  iMod ("Hclose" $! (c + 1) 1 (n + 1)%nat with "[%] Hc [Hone Hn]") as "($ & Ht & Hag)"; [lia| |].
  { rw credits_split. iFrame. }
  iModIntro. iApply ("HΦ" with "[%] Ht Hag"). lia.
Qed.

(** The decrement that is not interlocked may lose the counts of others, never its
    own. *)
Lemma wp_look_count_win t o Φ :
  is_counted -∗ having t o -∗ again 1 -∗
  (∀ c, ⌜1 <= c < 2147483648⌝ -∗ having t o -∗ again c -∗ Φ c) -∗
  WP (Act (Load lc) : expr threads) {{ Φ }}.
Proof using Type*.
  iIntros "#Hinv Ht Hag HΦ". iInv N as ">Hst".
  iDestruct (counted_having with "Hst Ht Hag") as (c n (_ & Hc & Hcn & _ & Hbound)) "(Hc & Hn & Hclose)".
  specialize (Hc ltac:(lia)). iApply (wp_load with "Hc"). iIntros "!> Hc".
  iMod ("Hclose" $! c c n with "[%] Hc Hn") as "($ & Ht & Hag)"; [lia|].
  iModIntro. iApply ("HΦ" with "[%] Ht Hag"). lia.
Qed.

Lemma wp_store_count t o c Φ :
  1 <= c →
  is_counted -∗ having t o -∗ again c -∗ (having t o -∗ again 0 -∗ Φ (c - 1)) -∗
  WP (Act (Store lc (c - 1)) : expr threads) {{ Φ }}.
Proof using Type*.
  iIntros (H1) "#Hinv Ht Hag HΦ". iInv N as ">Hst".
  iDestruct (counted_having with "Hst Ht Hag") as (c1 n (_ & _ & _ & Hcn & _)) "(Hc & Hn & Hclose)".
  iApply (wp_store with "Hc"). iIntros "!> Hc".
  iMod ("Hclose" $! (c - 1) 0 n with "[%] Hc Hn") as "($ & Ht & Hag)"; [lia|].
  iModIntro. iApply ("HΦ" with "Ht Hag").
Qed.

(** Counted off, the lock is free, or its semaphore must have a unit. *)
Lemma wp_count_out t Φ :
  is_counted -∗ having t 0 -∗ kept -∗
  (∀ r, ⌜r < 0⌝ ∗ without t ∨ ⌜0 <= r⌝ ∗ having t 0 ∗ kept -∗ Φ r) -∗
  WP (internal_InterlockedDecrement lc : expr threads) {{ Φ }}.
Proof using Type*.
  iIntros "#Hinv [Ht Ho'] [Hag HR] HΦ". unfold internal_InterlockedDecrement. iInv N as ">Hst".
  iDestruct (owned_access with "Hst Ht") as (w o (Ht0 & Hb & Ho1)) "(Hw & Ho & HR' & Hclose)".
  symmetry in Hb. pose proof Hb as Hw. apply bool_decide_eq_true in Hw as <-.
  iDestruct "Hw" as (c q k n) "(Hc & Hq & Hg & #Hlimit & Hn & %Hs & %Hmore & %Hcn & %Hkn)".
  iDestruct (ghost_map_lookup with "Hg Hag") as %Hl. rw lookup_singleton_eq in Hl. injection Hl as ->.
  rw (proj2 (Z.eqb_neq t 0)) // in Hs. destruct Hs as [Hc0 ->].
  iDestruct (ghost_map_elem_agree with "Ho Ho'") as %->.
  iDestruct (credits_bound with "Hlimit Hn") as %Hbound.
  iApply (wp_fetch_and_add32 with "Hc"). iIntros "!> Hc".
  rw (s32_id (c + -1)); [|unfold in_s32; lia]. destruct (decide (c = 0)) as [->|Hc].
  - iMod ("Hclose" $! false 0 0 with "[%] [Hc Hq Hg Hn] Ho [Hag HR Ho']") as "[$ Ht]".
    { split_and!; [by auto|by rw bool_decide_false|by left]. }
    { iExists (-1), 0, 0, n. iFrame "Hc Hq Hg Hlimit Hn". by counting. }
    { unfold owned_res. simpl. iFrame. }
    iModIntro. iApply "HΦ". iLeft. iFrame. iPureIntro. lia.
  - iMod ("Hclose" $! true t 0 with "[%] [Hc Hq Hg Hn] Ho HR'") as "[$ Ht]".
    { by auto. }
    { iExists (c + -1), 0, 0, n. iFrame "Hc Hq Hg Hlimit Hn". by counting. }
    iModIntro. iApply "HΦ". iRight. iFrame. iPureIntro. lia.
Qed.

(** *** The semaphore *)

Lemma wp_take_unit t Φ :
  is_counted -∗ without t -∗
  (∀ r, ⌜r = 0⌝ ∗ having t 0 ∗ kept ∨ ⌜r ≠ 0⌝ ∗ without t -∗ Φ r) -∗
  WP (sem_attempt (hsem_count h) : expr threads) {{ Φ }}.
Proof using Type*.
  iIntros "#Hinv Ht HΦ". unfold sem_attempt. iApply wp_seq.
  iApply (wp_wand _ _ _ (λ v : val threads, ⌜v = 0 ∨ v = 1⌝ ∗ without t)%I with "[Ht]").
  { iInv N as ">Hst".
    iDestruct (owned_access with "Hst Ht") as (w o (Ht0 & Hb & Ho')) "(Hw & Ho & HR & Hclose)".
    iDestruct "Hw" as (c q k n) "(Hc & Hq & Hg & #Hlimit & Hn & %Hs)".
    iApply (wp_load with "Hq"). iIntros "!> Hq".
    iMod ("Hclose" $! false w o with "[%] [Hc Hq Hg Hn] Ho HR") as "[$ $]"; [by auto| |].
    { iExists c, q, k, n. iFrame "Hc Hq Hg Hlimit Hn". by iPureIntro. }
    iPureIntro. destruct (w =? 0); naive_solver. }
  iIntros (v) "[%Hv Ht] !>". destruct Hv as [-> | ->]; simpl.
  { iApply wp_ret. iApply "HΦ". iRight. by iFrame. }
  iApply wp_seq.
  iApply (wp_wand _ _ _ (λ r : val threads, ⌜r = 1⌝ ∗ having t 0 ∗ kept ∨ ⌜r ≠ 1⌝ ∗ without t)%I
    with "[Ht]").
  { iInv N as ">Hst".
    iDestruct (owned_access with "Hst Ht") as (w o (Ht0 & Hb & Ho')) "(Hw & Ho & HR & Hclose)".
    symmetry in Hb. apply bool_decide_eq_false in Hb.
    iDestruct "Hw" as (c q k n) "(Hc & Hq & Hg & #Hlimit & Hn & %Hs & %Hmore)".
    iApply (wp_compare_and_swap with "Hq"). iIntros "!> Hq". destruct (Z.eqb_spec q 1) as [->|Hq].
    - assert (w = 0 ∧ 0 <= c) as [-> Hc0] by (destruct (Z.eqb_spec w 0); naive_solver lia).
      iEval (unfold owned_res; simpl) in "HR". iDestruct "HR" as "[HR Ho2]".
      iDestruct (ghost_map_elem_agree with "Ho Ho2") as %->.
      iMod ("Hclose" $! true t 0 with "[%] [Hc Hq Hg Hn] Ho []") as "[$ Ht]".
      { split_and!; [by auto|by rw bool_decide_true|by left]. }
      { iExists c, 0, k, n. iFrame "Hc Hq Hg Hlimit Hn". by counting. }
      { unfold owned_res. by rw (proj2 (Z.eqb_neq t 0)). }
      iModIntro. iLeft. by iFrame.
    - iMod ("Hclose" $! false w o with "[%] [Hc Hq Hg Hn] Ho HR") as "[$ Ht]".
      { split_and!; [by left|by rw bool_decide_false|done]. }
      { iExists c, q, k, n. iFrame "Hc Hq Hg Hlimit Hn". by iPureIntro. }
      iModIntro. iRight. by iFrame. }
  iIntros (r) "[(-> & H)|[%Hr Ht]] !>".
  - iApply wp_ret. iApply "HΦ". iLeft. by iFrame.
  - rw (proj2 (Z.eqb_neq r 1)) //. iApply wp_ret. iApply "HΦ". iRight. by iFrame.
Qed.

Lemma wp_wait_unit c t ms Φ :
  is_counted -∗ without t -∗
  (∀ r, ⌜r = WAIT_OBJECT_0⌝ ∗ having t 0 ∗ kept ∨ ⌜r = WAIT_TIMEOUT ∧ ms ≠ INFINITE⌝ ∗ without t -∗
    Φ r) -∗
  WP (WaitForSingleObject c (sem_attempt (hsem_count h)) ms : expr threads) {{ Φ }}.
Proof using Type*.
  iIntros "#Hinv Ht HΦ".
  iApply (wp_wait_single _ _ _ (without t) (having t 0 ∗ kept) with "Ht"); [|iApply "HΦ"].
  iIntros "!> Ht". iApply (wp_take_unit with "Hinv Ht"). by iIntros (r) "H".
Qed.

(** The step of the thread that has the lock on the semaphore, which is empty *)
Lemma counted_semaphore t : owned_state g counted_words ow kept -∗ having t 0 -∗
  hsem_count h ↦ 0 ∗
    (∀ q' : Z, hsem_count h ↦ q' -∗
      (⌜q' = 0⌝ ==∗ owned_state g counted_words ow kept ∗ having t 0) ∧
      (⌜q' = 1⌝ -∗ kept ==∗ owned_state g counted_words ow kept ∗ without t)).
Proof using Type*.
  iIntros "Hst [Ht Ho']".
  iDestruct (owned_access with "Hst Ht") as (w o1 (Ht0 & Hb & Ho1)) "(Hw & Ho & HR & Hclose)".
  symmetry in Hb. pose proof Hb as Hw. apply bool_decide_eq_true in Hw as <-.
  iDestruct "Hw" as (c q k n) "(Hc & Hq & Hg & #Hlimit & Hn & %Hs & %Hmore)".
  rw (proj2 (Z.eqb_neq t 0)) // in Hs. destruct Hs as [Hc0 ->].
  iDestruct (ghost_map_elem_agree with "Ho Ho'") as %->.
  iFrame "Hq". iIntros (q') "Hq". iSplit.
  - iIntros (->). iMod ("Hclose" $! true t 0 with "[%] [Hc Hq Hg Hn] Ho HR") as "[$ $]"; [by auto| |by iFrame].
    iExists c, 0, k, n. iFrame "Hc Hq Hg Hlimit Hn". by counting.
  - iIntros (->) "HR'".
    iMod ("Hclose" $! false 0 0 with "[%] [Hc Hq Hg Hn] Ho [HR' Ho']") as "[$ $]"; [| | |done].
    + split_and!; [by auto|by rw bool_decide_false|by left].
    + iExists c, 1, k, n. iFrame "Hc Hq Hg Hlimit Hn". by counting.
    + unfold owned_res. simpl. iFrame.
Qed.

Lemma wp_give_unit t Φ :
  is_counted -∗ pointsto (hsem_max h) DfracDiscarded 1 -∗ having t 0 -∗ kept -∗
  (without t -∗ Φ 1) -∗
  WP (ReleaseSemaphore h : expr threads) {{ Φ }}.
Proof using Type*.
  iIntros "#Hinv #Hmax Ht HR HΦ". unfold ReleaseSemaphore.
  iApply wp_seq. iApply (wp_load with "Hmax"). iIntros "!> _ !>".
  iApply wp_seq.
  iApply (wp_attempts _ (λ r, ⌜r = 2⌝ ∗ having t 0 ∗ kept ∨ ⌜r = 0⌝ ∗ without t)%I with "[Ht HR]").
  { iLeft. by iFrame. }
  - iIntros "!> [(_ & Ht & HR)|[% _]]"; [|done]. iApply wp_seq.
    iApply (wp_wand _ _ _ (λ v : val threads, ⌜v = 0⌝ ∗ having t 0)%I with "[Ht]").
    { iInv N as ">Hst". iDestruct (counted_semaphore with "Hst Ht") as "[Hq Hclose]".
      iApply (wp_load with "Hq"). iIntros "!> Hq". iDestruct ("Hclose" with "Hq") as "[Hclose _]".
      by iMod ("Hclose" with "[//]") as "[$ $]". }
    iIntros (v) "[-> Ht] !>". simpl. iApply wp_seq. iInv N as ">Hst".
    iDestruct (counted_semaphore with "Hst Ht") as "[Hq Hclose]".
    iApply (wp_compare_and_swap with "Hq"). iIntros "!> Hq". simpl.
    iDestruct ("Hclose" with "Hq") as "[_ Hclose]".
    iMod ("Hclose" with "[//] HR") as "[$ Ht]". iIntros "!> !>". iApply wp_ret. iRight. by iFrame.
  - iIntros (r Hr) "[[-> _]|[-> Ht]] !>"; [done|]. iApply wp_ret. by iApply "HΦ".
Qed.

End counted.

Lemma counted_alloc `{!lockGS Σ} N gc lc h ow R E :
  credit_limit gc -∗ lc ↦ (-1) -∗ hsem_count h ↦ 0 -∗ ow ↦ 0 -∗ R ={E}=∗
  ∃ g g2, is_counted N gc g g2 lc h ow R.
Proof.
  iIntros "#Hlimit Hc Hq Ho HR". iMod (credits_none gc) as "Hn".
  iMod (ghost_map_alloc ({[0 := 0]} : gmap Z Z)) as (g2) "[Hg Hag]".
  rw big_sepM_singleton.
  iMod (owned_alloc N (counted_words gc g2 lc h) ow (kept g2 R) with "[Hc Hq Hg Hn] Ho [Hag HR]") as (g) "H".
  - iExists (-1), 0, 0, 0%nat. iFrame "Hc Hq Hg Hlimit Hn". by counting.
  - iFrame.
  - iModIntro. by iExists g, g2.
Qed.

(** ** Locks

    A container with a counted lock; the fields of a recursive lock that matter here lie
    where those of a simple lock do. *)

Record win_names := WinNames {
  wn_owned : gname; wn_again : gname; wn_struct : Z; wn_semaphore : Z
}.

Section lock.
Context `{!lockGS Σ} (N : namespace) (gc : gname) (γ : win_names) (lock : Z) (R : iProp Σ) `{!Timeless R}.

Notation s := (wn_struct γ).
Notation sem := (wn_semaphore γ).

Definition is_win : iProp Σ :=
  handle_is lock s ∗ pointsto (slock_semaphore s) DfracDiscarded sem ∗
  pointsto (hsem_max sem) DfracDiscarded 1 ∗
  is_counted N gc (wn_owned γ) (wn_again γ) (slock_lock_count s) sem (slock_owner s) R.

Definition win_off (t : Z) : iProp Σ := without (wn_owned γ) t.
Definition win_on (t : Z) : iProp Σ := having (wn_owned γ) (slock_owner s) t t ∗ again (wn_again γ) 0.

Notation taken t := (having (wn_owned γ) (slock_owner s) t 0 ∗ kept (wn_again γ) R)%I.

#[global] Instance is_win_persistent : Persistent is_win.
Proof. apply _. Qed.

Lemma win_on_nonzero t : is_win -∗ win_on t ={⊤}=∗ ⌜t ≠ 0⌝ ∗ win_on t.
Proof using Type*.
  iIntros "(_ & _ & _ & #Hc) [[Ht Ho] Ha]". iMod (without_nonzero with "Hc Ht") as "[$ Ht]". by iFrame.
Qed.

(** The lock was counted from -1, or the unit taken. *)
Lemma wp_claim_win t (p : prog) Φ :
  is_win -∗ taken t -∗ (win_on t -∗ R -∗ WP (p : expr threads) {{ Φ }}) -∗
  WP (Bind (Act (Store (slock_owner s) t)) (λ _, p) : expr threads) {{ Φ }}.
Proof using Type*.
  iIntros "(_ & _ & _ & #Hc) [Ht [Ha HR]] HΦ". iApply wp_seq.
  iApply (wp_set_owner with "Hc Ht"); [by left|]. iIntros "Ht !>". iApply ("HΦ" with "[$Ht $Ha] HR").
Qed.

(** Waiting for the semaphore, until some time or for ever *)
Lemma wp_wait_lock c ms t (f : Z → prog) Φ :
  is_win -∗ win_off t -∗
  (∀ r, ⌜r = WAIT_OBJECT_0⌝ ∗ taken t ∨ ⌜r = WAIT_TIMEOUT ∧ ms ≠ INFINITE⌝ ∗ win_off t -∗
    WP (f r : expr threads) {{ Φ }}) -∗
  WP (Bind (Act (Load (slock_semaphore s))) (λ semaphore,
      Bind (WaitForSingleObject c (sem_attempt (hsem_count semaphore)) ms) f) : expr threads) {{ Φ }}.
Proof using Type*.
  iIntros "(_ & #Hs & _ & #Hc) Ht HΦ". iApply wp_seq. iApply (wp_load with "Hs"). iIntros "!> _ !>".
  iApply wp_seq. iApply (wp_wait_unit with "Hc Ht"). iIntros (r) "H !>". by iApply "HΦ".
Qed.

(** Giving the lock up *)
Lemma wp_leave_win t Φ :
  is_win -∗ win_on t -∗ R -∗ (win_off t -∗ Φ OK) -∗
  WP (Bind (Act (Store (slock_owner s) 0)) (λ _,
      decRes <~ internal_InterlockedDecrement (slock_lock_count s);;
      if 0 <=? decRes then primitive_release_simple_lock_internal s else Ret OK)
    : expr threads) {{ Φ }}.
Proof using Type*.
  iIntros "(_ & #Hs & #Hm & #Hc) [Ht Ha] HR HΦ". iApply wp_seq.
  iApply (wp_set_owner with "Hc Ht"); [by right|]. iIntros "Ht !>". iApply wp_seq.
  iApply (wp_count_out with "Hc Ht [$Ha $HR]"). iIntros (r) "[[%Hr Ht]|(%Hr & Ht & HR)] !>".
  - rw (proj2 (Z.leb_gt 0 r)) //. iApply wp_ret. by iApply "HΦ".
  - rw (proj2 (Z.leb_le 0 r)) //. unfold primitive_release_simple_lock_internal.
    iApply wp_seq. iApply (wp_load with "Hs"). iIntros "!> _ !>". iApply wp_seq.
    iApply (wp_give_unit with "Hc Hm Ht HR"). iIntros "Ht !>". iApply wp_ret. by iApply "HΦ".
Qed.

(** What the field says to a thread with the lock and to one without *)
Lemma wp_owner_on t (f : Z → prog) Φ :
  is_win -∗ win_on t -∗ (win_on t -∗ WP (f t : expr threads) {{ Φ }}) -∗
  WP (Bind (Act (Load (slock_owner s))) f : expr threads) {{ Φ }}.
Proof using Type*.
  iIntros "_ [Ht Ha] HΦ". iApply wp_seq. iApply (wp_look_having with "Ht").
  iIntros "Ht !>". iApply "HΦ". iFrame.
Qed.

Lemma wp_owner_off t (f : Z → prog) Φ :
  is_win -∗ win_off t -∗ (∀ o, ⌜(o =? t) = false⌝ -∗ win_off t -∗ WP (f o : expr threads) {{ Φ }}) -∗
  WP (Bind (Act (Load (slock_owner s))) f : expr threads) {{ Φ }}.
Proof using Type*.
  iIntros "(_ & _ & _ & #Hc) Ht HΦ". iApply wp_seq. iApply (wp_look_without with "Hc Ht").
  iIntros (o) "%Ho Ht !>". iApply ("HΦ" with "[%] Ht"). by apply Z.eqb_neq.
Qed.

Lemma wp_handle (f : Z → prog) Φ :
  is_win -∗ WP (f s : expr threads) {{ Φ }} -∗
  WP (Bind (get_handle lock) f : expr threads) {{ Φ }}.
Proof.
  iIntros "[#Hh _] HΦ". iApply wp_seq. iApply (wp_get_handle with "Hh"). by iIntros "!>".
Qed.

(** The beginning of a wait with a timeout *)
Lemma wp_handle_timed ms (f : Z → prog) Φ :
  IS_ZINT ms = true → is_win -∗ WP (f s : expr threads) {{ Φ }} -∗
  WP (Bind (assert_handle lock) (λ _, Bind (assert (IS_ZINT ms)) (λ _,
    Bind (Act (Load (container_handle lock))) f)) : expr threads) {{ Φ }}.
Proof.
  iIntros (Hms) "[#Hh _] HΦ". iApply wp_seq. iApply (wp_assert_handle with "Hh"). iIntros "!>".
  iApply wp_seq. iApply wp_assert; [done|]. iIntros "!>".
  iApply wp_seq. iApply (wp_load_handle with "Hh"). by iIntros "!>".
Qed.

(** Counting the lock *)
Lemma wp_enter_win t (f : Z → prog) Φ :
  is_win -∗ credits gc 1 -∗ win_off t -∗
  (∀ r, ⌜r = 0⌝ ∗ taken t ∨ ⌜r ≠ 0⌝ ∗ win_off t -∗ WP (f r : expr threads) {{ Φ }}) -∗
  WP (Bind (internal_InterlockedIncrement (slock_lock_count s)) f : expr threads) {{ Φ }}.
Proof using Type*.
  iIntros "(_ & _ & _ & #Hc) Hone Ht HΦ". iApply wp_seq. iApply (wp_count_in with "Hc Hone Ht").
  iIntros (r) "H !>". by iApply "HΦ".
Qed.

End lock.

(** *** Simple locks *)

Section simple.
Context `{!lockGS Σ} (gc : gname) (γ : win_names) (lock : Z) (R : iProp Σ) `{!Timeless R}.

Definition winN : namespace := nroot .@ "win_simple_lock".

Notation is_simple := (is_win winN gc γ lock R).
Notation off := (win_off γ).
Notation on := (win_on γ).

Lemma wp_win_wait t Φ :
  is_simple -∗ credits gc 1 -∗ off t -∗ (on t -∗ R -∗ Φ OK) -∗
  WP (primitive_wait_for_simple_lock t lock : expr threads) {{ Φ }}.
Proof using Type*.
  iIntros "#Hl Hone Ht HΦ". unfold primitive_wait_for_simple_lock. iApply (wp_handle with "Hl").
  iApply (wp_enter_win with "Hl Hone Ht"). iIntros (r) "[[-> Ht]|[%Hr Ht]]".
  - iApply (wp_claim_win with "Hl Ht"). iIntros "Ht HR". iApply wp_ret. iApply ("HΦ" with "Ht HR").
  - rw (proj2 (Z.eqb_neq r 0)) //. unfold primitive_wait_for_simple_lock_internal.
    iApply (wp_owner_off with "Hl Ht"). iIntros (o ->) "Ht".
    iApply (wp_wait_lock with "Hl Ht"). iIntros (r1) "[[-> Ht]|[[_ %] _]]"; [|done].
    iApply (wp_claim_win with "Hl Ht"). iIntros "Ht HR". iApply wp_ret. iApply ("HΦ" with "Ht HR").
Qed.

(** The thread counted its own lock once more. *)
Lemma wp_already t Φ :
  is_simple -∗ having (wn_owned γ) (slock_owner (wn_struct γ)) t t -∗ again (wn_again γ) 1 -∗
  (on t -∗ Φ ALREADY_LOCKED) -∗
  WP (Bind (drop_lock_count (wn_struct γ)) (λ _, Ret ALREADY_LOCKED) : expr threads) {{ Φ }}.
Proof using Type*.
  iIntros "(_ & _ & _ & #Hc) Ht Ha HΦ". iApply wp_seq. unfold drop_lock_count.
  iApply wp_seq. iApply (wp_look_count_win with "Hc Ht Ha"). iIntros (c Hc) "Ht Ha !>".
  rw (s32_id (c - 1)); [|unfold in_s32; lia].
  iApply (wp_store_count with "Hc Ht Ha"); [lia|]. iIntros "Ht Ha !>".
  iApply wp_ret. iApply "HΦ". iFrame.
Qed.

Lemma wp_win_wait_held t Φ :
  is_simple -∗ credits gc 1 -∗ on t -∗ (on t -∗ Φ ALREADY_LOCKED) -∗
  WP (primitive_wait_for_simple_lock t lock : expr threads) {{ Φ }}.
Proof using Type*.
  iIntros "#Hl Hone [Ht Ha] HΦ". iPoseProof "Hl" as "(_ & _ & _ & Hc)".
  unfold primitive_wait_for_simple_lock. iApply (wp_handle with "Hl").
  iApply wp_seq. iApply (wp_count_again with "Hc Hone Ht Ha"). iIntros (r Hr) "Ht Ha !>".
  rw (proj2 (Z.eqb_neq r 0)) //. unfold primitive_wait_for_simple_lock_internal.
  iApply wp_seq. iApply (wp_look_having with "Ht"). iIntros "Ht !>". rw Z.eqb_refl.
  iApply (wp_already with "Hl Ht Ha HΦ").
Qed.
Lemma wp_win_wait_timed c t ms Φ :
  IS_ZINT ms = true →
  is_simple -∗ credits gc 1 -∗ off t -∗ (∀ r, ⌜r = OK⌝ ∗ on t ∗ R ∨ ⌜r = TIMEOUT⌝ ∗ off t -∗ Φ r) -∗
  WP (primitive_wait_for_simple_lock_timed c t lock ms : expr threads) {{ Φ }}.
Proof using Type*.
  iIntros (Hms) "#Hl Hone Ht HΦ". unfold primitive_wait_for_simple_lock_timed.
  iApply (wp_handle_timed with "Hl"); [done|].
  iApply (wp_enter_win with "Hl Hone Ht"). iIntros (r) "[[-> Ht]|[%Hr Ht]]".
  - iApply (wp_claim_win with "Hl Ht"). iIntros "Ht HR". iApply wp_ret. iApply "HΦ". iLeft. by iFrame.
  - rw (proj2 (Z.eqb_neq r 0)) //. unfold primitive_wait_for_simple_lock_timed_internal.
    iApply (wp_owner_off with "Hl Ht"). iIntros (o ->) "Ht".
    iApply (wp_wait_lock with "Hl Ht"). iIntros (r1) "[[-> Ht]|[[-> _] Ht]]"; simpl.
    + iApply (wp_claim_win with "Hl Ht"). iIntros "Ht HR". iApply wp_ret. iApply "HΦ". iLeft. by iFrame.
    + iApply wp_ret. iApply "HΦ". iRight. by iFrame.
Qed.

Lemma wp_win_wait_timed_held c t ms Φ :
  IS_ZINT ms = true →
  is_simple -∗ credits gc 1 -∗ on t -∗ (on t -∗ Φ ALREADY_LOCKED) -∗
  WP (primitive_wait_for_simple_lock_timed c t lock ms : expr threads) {{ Φ }}.
Proof using Type*.
  iIntros (Hms) "#Hl Hone [Ht Ha] HΦ". iPoseProof "Hl" as "(_ & _ & _ & Hc)".
  unfold primitive_wait_for_simple_lock_timed. iApply (wp_handle_timed with "Hl"); [done|].
  iApply wp_seq. iApply (wp_count_again with "Hc Hone Ht Ha"). iIntros (r Hr) "Ht Ha !>".
  rw (proj2 (Z.eqb_neq r 0)) //. unfold primitive_wait_for_simple_lock_timed_internal.
  iApply wp_seq. iApply (wp_look_having with "Ht"). iIntros "Ht !>". rw Z.eqb_refl.
  iApply (wp_already with "Hl Ht Ha HΦ").
Qed.

Lemma wp_win_release t Φ :
  is_simple -∗ on t -∗ R -∗ (off t -∗ Φ OK) -∗
  WP (primitive_release_simple_lock t lock : expr threads) {{ Φ }}.
Proof using Type*.
  iIntros "#Hl Ht HR HΦ". unfold primitive_release_simple_lock. iApply (wp_handle with "Hl").
  iApply (wp_owner_on with "Hl Ht"). iIntros "Ht". rw Z.eqb_refl. cbn [negb].
  iApply (wp_leave_win with "Hl Ht HR HΦ").
Qed.

Lemma wp_win_release_off t Φ :
  is_simple -∗ off t -∗ (off t -∗ Φ NOT_LOCKED) -∗
  WP (primitive_release_simple_lock t lock : expr threads) {{ Φ }}.
Proof using Type*.
  iIntros "#Hl Ht HΦ". unfold primitive_release_simple_lock. iApply (wp_handle with "Hl").
  iApply (wp_owner_off with "Hl Ht"). iIntros (o ->) "Ht". iApply wp_ret. by iApply "HΦ".
Qed.

Lemma wp_win_unlock t Φ :
  is_simple -∗ on t -∗ R -∗ (off t -∗ Φ OK) -∗
  WP (primitive_unlock_simple_lock lock : expr threads) {{ Φ }}.
Proof using Type*.
  iIntros "#Hl Ht HR HΦ". iApply fupd_wp. iMod (win_on_nonzero with "Hl Ht") as "[%Ht0 Ht]". iModIntro.
  unfold primitive_unlock_simple_lock. iApply (wp_handle with "Hl").
  iApply (wp_owner_on with "Hl Ht"). iIntros "Ht". rw (proj2 (Z.eqb_neq t 0)) //.
  iApply (wp_leave_win with "Hl Ht HR HΦ").
Qed.

Lemma wp_win_owned t Φ :
  is_simple -∗ on t -∗ (on t -∗ Φ (I 1)) -∗
  WP (primitive_owned_simple_lock t lock : expr threads) {{ Φ }}.
Proof using Type*.
  iIntros "#Hl Ht HΦ". unfold primitive_owned_simple_lock. iApply (wp_handle with "Hl").
  iApply (wp_owner_on with "Hl Ht"). iIntros "Ht". rw Z.eqb_refl. iApply wp_ret. by iApply "HΦ".
Qed.

Lemma wp_win_owned_off t Φ :
  is_simple -∗ off t -∗ (off t -∗ Φ (I 0)) -∗
  WP (primitive_owned_simple_lock t lock : expr threads) {{ Φ }}.
Proof using Type*.
  iIntros "#Hl Ht HΦ". unfold primitive_owned_simple_lock. iApply (wp_handle with "Hl").
  iApply (wp_owner_off with "Hl Ht"). iIntros (o ->) "Ht". iApply wp_ret. by iApply "HΦ".
Qed.

End simple.

(** *** Recursive locks

    The count of the thread that has the lock *)

Section recursive.
Context `{!lockGS Σ} (gc : gname) (γ : win_names) (lock : Z) (R : iProp Σ) `{!Timeless R}.

Definition recursiveN : namespace := nroot .@ "win_recursive_lock".

Definition with_count : iProp Σ := R ∗ ∃ n : Z, rlock_recursion_count (wn_struct γ) ↦ n.

Notation is_recursive := (is_win recursiveN gc γ lock with_count).
Notation off := (win_off γ).

(** The thread took the lock [k] times more than once. *)
Definition win_within (t : Z) (k : nat) : iProp Σ :=
  win_on γ t ∗ rlock_recursion_count (wn_struct γ) ↦ Z.of_nat (S k) ∗ ⌜nesting_fits k⌝.

Lemma wp_claim_recursive_win t Φ :
  is_recursive -∗
  having (wn_owned γ) (slock_owner (wn_struct γ)) t 0 ∗ kept (wn_again γ) with_count -∗
  (win_within t 0 -∗ R -∗ Φ OK) -∗
  WP (claim_recursive_lock (wn_struct γ) t : expr threads) {{ Φ }}.
Proof using Type*.
  iIntros "#Hl Ht HΦ". unfold claim_recursive_lock. iApply (wp_claim_win with "Hl Ht").
  iIntros "Ht [HR [%n Hn]]". iApply wp_seq. iApply (wp_store with "Hn"). iIntros "!> Hn !>".
  iApply wp_ret. iApply ("HΦ" with "[$Ht $Hn //] HR").
Qed.

Lemma wp_enter_recursive t (p : prog) Φ :
  is_recursive -∗ credits gc 1 -∗ off t -∗
  (∀ r, (⌜r = OK⌝ ∗ win_within t 0 ∗ R) -∗ Φ r) ∧ (off t -∗ WP (p : expr threads) {{ Φ }}) -∗
  WP (enter_recursive_lock (wn_struct γ) t p : expr threads) {{ Φ }}.
Proof using Type*.
  iIntros "#Hl Hone Ht HΦ". unfold enter_recursive_lock. iApply (wp_owner_off with "Hl Ht").
  iIntros (o ->) "Ht". iApply (wp_enter_win with "Hl Hone Ht"). iIntros (r) "[[-> Ht]|[%Hr Ht]]".
  - iDestruct "HΦ" as "[HΦ _]". iApply (wp_claim_recursive_win with "Hl Ht"). iIntros "Ht HR".
    iApply "HΦ". by iFrame.
  - rw (proj2 (Z.eqb_neq r 0)) //. iDestruct "HΦ" as "[_ HΦ]". by iApply "HΦ".
Qed.

Lemma wp_enter_again t k (p : prog) Φ :
  nesting_fits (S k) →
  is_recursive -∗ win_within t k -∗ (win_within t (S k) -∗ Φ OK) -∗
  WP (enter_recursive_lock (wn_struct γ) t p : expr threads) {{ Φ }}.
Proof using Type*.
  iIntros (Hk) "#Hl (Ht & Hn & _) HΦ". unfold enter_recursive_lock. iApply (wp_owner_on with "Hl Ht").
  iIntros "Ht". rw Z.eqb_refl. iApply wp_seq. iApply (wp_load with "Hn"). iIntros "!> Hn !>".
  iApply wp_seq. iApply (wp_store with "Hn"). iIntros "!> Hn !>". iApply wp_ret. iApply "HΦ".
  rw nesting_up //. by iFrame.
Qed.

Lemma wp_win_wait_recursive t Φ :
  is_recursive -∗ credits gc 1 -∗ off t -∗ (win_within t 0 -∗ R -∗ Φ OK) -∗
  WP (primitive_wait_for_recursive_lock t lock : expr threads) {{ Φ }}.
Proof using Type*.
  iIntros "#Hl Hone Ht HΦ". unfold primitive_wait_for_recursive_lock. iApply (wp_handle with "Hl").
  iApply (wp_enter_recursive with "Hl Hone Ht"). iSplit.
  - iIntros (r) "(-> & Ht & HR)". iApply ("HΦ" with "Ht HR").
  - iIntros "Ht". unfold primitive_wait_for_recursive_lock_internal.
    iApply (wp_wait_lock with "Hl Ht"). iIntros (r1) "[[-> Ht]|[[_ %] _]]"; [|done].
    iApply (wp_claim_recursive_win with "Hl Ht HΦ").
Qed.

Lemma wp_win_wait_recursive_again t k Φ :
  nesting_fits (S k) →
  is_recursive -∗ win_within t k -∗ (win_within t (S k) -∗ Φ OK) -∗
  WP (primitive_wait_for_recursive_lock t lock : expr threads) {{ Φ }}.
Proof using Type*.
  iIntros (Hk) "#Hl Ht HΦ". unfold primitive_wait_for_recursive_lock. iApply (wp_handle with "Hl").
  by iApply (wp_enter_again with "Hl Ht HΦ").
Qed.

Lemma wp_win_wait_recursive_timed c t ms Φ :
  IS_ZINT ms = true →
  is_recursive -∗ credits gc 1 -∗ off t -∗
  (∀ r, ⌜r = OK⌝ ∗ win_within t 0 ∗ R ∨ ⌜r = TIMEOUT⌝ ∗ off t -∗ Φ r) -∗
  WP (primitive_wait_for_recursive_lock_timed c t lock ms : expr threads) {{ Φ }}.
Proof using Type*.
  iIntros (Hms) "#Hl Hone Ht HΦ". unfold primitive_wait_for_recursive_lock_timed.
  iApply (wp_handle_timed with "Hl"); [done|]. iApply (wp_enter_recursive with "Hl Hone Ht"). iSplit.
  - iIntros (r) "H". iApply "HΦ". by iLeft.
  - iIntros "Ht". unfold primitive_wait_for_recursive_lock_timed_internal.
    iApply (wp_wait_lock with "Hl Ht"). iIntros (r1) "[[-> Ht]|[[-> _] Ht]]"; simpl.
    + iApply (wp_claim_recursive_win with "Hl Ht"). iIntros "Ht HR". iApply "HΦ". iLeft. by iFrame.
    + iApply wp_ret. iApply "HΦ". iRight. by iFrame.
Qed.

Lemma wp_win_wait_recursive_timed_again c t k ms Φ :
  IS_ZINT ms = true → nesting_fits (S k) →
  is_recursive -∗ win_within t k -∗ (win_within t (S k) -∗ Φ OK) -∗
  WP (primitive_wait_for_recursive_lock_timed c t lock ms : expr threads) {{ Φ }}.
Proof using Type*.
  iIntros (Hms Hk) "#Hl Ht HΦ". unfold primitive_wait_for_recursive_lock_timed.
  iApply (wp_handle_timed with "Hl"); [done|]. by iApply (wp_enter_again with "Hl Ht HΦ").
Qed.

Lemma wp_win_release_recursive_once t k Φ :
  is_recursive -∗ win_within t (S k) -∗ (win_within t k -∗ Φ OK) -∗
  WP (primitive_release_recursive_lock t lock : expr threads) {{ Φ }}.
Proof using Type*.
  iIntros "#Hl (Ht & Hn & %Hk) HΦ". unfold primitive_release_recursive_lock. iApply (wp_handle with "Hl").
  iApply (wp_owner_on with "Hl Ht"). iIntros "Ht". rw Z.eqb_refl. cbn [negb].
  iApply wp_seq. iApply (wp_load with "Hn"). iIntros "!> Hn !>".
  iApply wp_seq. iApply (wp_store with "Hn"). iIntros "!> Hn !>".
  rw nesting_down //. rw (proj2 (Z.eqb_neq (Z.of_nat (S k)) 0)); [|lia]. iApply wp_ret.
  iApply "HΦ". iFrame. iPureIntro. by apply nesting_less.
Qed.

Lemma wp_win_release_recursive_last t Φ :
  is_recursive -∗ win_within t 0 -∗ R -∗ (off t -∗ Φ OK) -∗
  WP (primitive_release_recursive_lock t lock : expr threads) {{ Φ }}.
Proof using Type*.
  iIntros "#Hl (Ht & Hn & _) HR HΦ". unfold primitive_release_recursive_lock. iApply (wp_handle with "Hl").
  iApply (wp_owner_on with "Hl Ht"). iIntros "Ht". rw Z.eqb_refl. cbn [negb].
  iApply wp_seq. iApply (wp_load with "Hn"). iIntros "!> Hn !>".
  iApply wp_seq. iApply (wp_store with "Hn"). iIntros "!> Hn !>". simpl.
  iApply (wp_leave_win with "Hl Ht [HR Hn] HΦ"). iFrame.
Qed.

Lemma wp_win_release_recursive_off t Φ :
  is_recursive -∗ off t -∗ (off t -∗ Φ NOT_LOCKED) -∗
  WP (primitive_release_recursive_lock t lock : expr threads) {{ Φ }}.
Proof using Type*.
  iIntros "#Hl Ht HΦ". unfold primitive_release_recursive_lock. iApply (wp_handle with "Hl").
  iApply (wp_owner_off with "Hl Ht"). iIntros (o ->) "Ht". iApply wp_ret. by iApply "HΦ".
Qed.

Lemma wp_win_unlock_recursive t k Φ :
  is_recursive -∗ win_within t k -∗ R -∗ (off t -∗ Φ OK) -∗
  WP (primitive_unlock_recursive_lock lock : expr threads) {{ Φ }}.
Proof using Type*.
  iIntros "#Hl (Ht & Hn & _) HR HΦ". iApply fupd_wp.
  iMod (win_on_nonzero with "Hl Ht") as "[%Ht0 Ht]". iModIntro.
  unfold primitive_unlock_recursive_lock. iApply (wp_handle with "Hl").
  iApply (wp_owner_on with "Hl Ht"). iIntros "Ht". rw (proj2 (Z.eqb_neq t 0)) //.
  iApply wp_seq. iApply (wp_store with "Hn"). iIntros "!> Hn !>".
  iApply (wp_leave_win with "Hl Ht [HR Hn] HΦ"). iFrame.
Qed.

Lemma wp_win_owned_recursive t k Φ :
  is_recursive -∗ win_within t k -∗ (win_within t k -∗ Φ (I 1)) -∗
  WP (primitive_owned_recursive_lock t lock : expr threads) {{ Φ }}.
Proof using Type*.
  iIntros "#Hl [Ht Hn] HΦ". unfold primitive_owned_recursive_lock. iApply (wp_handle with "Hl").
  iApply (wp_owner_on with "Hl Ht"). iIntros "Ht". rw Z.eqb_refl. iApply wp_ret. iApply "HΦ". iFrame.
Qed.

Lemma wp_win_owned_recursive_off t Φ :
  is_recursive -∗ off t -∗ (off t -∗ Φ (I 0)) -∗
  WP (primitive_owned_recursive_lock t lock : expr threads) {{ Φ }}.
Proof using Type*.
  iIntros "#Hl Ht HΦ". unfold primitive_owned_recursive_lock. iApply (wp_handle with "Hl").
  iApply (wp_owner_off with "Hl Ht"). iIntros (o ->) "Ht". iApply wp_ret. by iApply "HΦ".
Qed.

End recursive.
