(* ===== verification/WinNotifications.v ===== *)
(** * Notifications of Windows, and making locks

    A notification is two events and two counts that its threads change without the
    lock; to the lock it matters only that a wait gives it up and takes it again.  So its
    words may have any values here. *)

From S2P Require Import Prelude Memory Tagging Concur ConcurLogic Tlv Locks LockLaws Ownership HarpLocks WinLocks WinLockLaws.
From stdpp Require Import base tactics option list numbers gmap fin_maps.
From Stdlib Require Import ZArith Lia.
From iris.proofmode Require Import proofmode.
From iris.base_logic.lib Require Import invariants ghost_map.
From iris.program_logic Require Import weakestpre.

Local Open Scope Z_scope.

(** ** Words that any thread changes

    [P]: what their values satisfy. *)

Section any.
Context `{!concurGS Σ}.
Implicit Type P : Z → Prop.

Definition anyN : namespace := nroot .@ "any_word".

Definition word_of P (a : Z) : iProp Σ := inv anyN (∃ v : Z, a ↦ v ∗ ⌜P v⌝).

Notation any_word := (word_of (λ _, True)).

Lemma word_of_alloc P a v E : P v → a ↦ v ={E}=∗ word_of P a.
Proof. iIntros (Hv) "Ha". iApply inv_alloc. iNext. iExists v. by iFrame. Qed.

Lemma wp_any_store P a w Φ : P w → word_of P a -∗ Φ w -∗ WP (Act (Store a w) : expr threads) {{ Φ }}.
Proof.
  iIntros (Hw) "#Ha HΦ". iInv anyN as (v) ">[Hv _]". iApply (wp_store with "Hv"). iIntros "!> Hv !>".
  iSplitL "Hv"; [iExists w; by iFrame|done].
Qed.

Lemma wp_any_load a Φ : any_word a -∗ (∀ v, Φ v) -∗ WP (Act (Load a) : expr threads) {{ Φ }}.
Proof.
  iIntros "#Ha HΦ". iInv anyN as (v) ">[Hv _]". iApply (wp_load with "Hv"). iIntros "!> Hv !>".
  iSplitL "Hv"; [iExists v; by iFrame|done].
Qed.

Lemma wp_any_add a n Φ : any_word a -∗ (∀ v, Φ v) -∗ WP (Act (Fetch_and_add32 a n) : expr threads) {{ Φ }}.
Proof.
  iIntros "#Ha HΦ". iInv anyN as (v) ">[Hv _]". iApply (wp_fetch_and_add32 with "Hv"). iIntros "!> Hv !>".
  iSplitL "Hv"; [iExists (s32 (v + n)); by iFrame|done].
Qed.

Lemma wp_any_swap P a x y Φ :
  P x → word_of P a -∗ (∀ v, ⌜P v⌝ -∗ Φ v) -∗ WP (Act (Compare_and_swap a x y) : expr threads) {{ Φ }}.
Proof.
  iIntros (Hx) "#Ha HΦ". iInv anyN as (v) ">[Hv %Hp]". iApply (wp_compare_and_swap with "Hv").
  iIntros "!> Hv !>". iSplitL "Hv"; [|by iApply "HΦ"].
  iExists _. iFrame. iPureIntro. by destruct (v =? y).
Qed.

(** An event may be signalled at any time. *)
Lemma wp_wait_event c ms e Φ :
  any_word (event_state e) -∗
  (∀ r, ⌜r = WAIT_OBJECT_0 ∨ r = WAIT_TIMEOUT ∧ ms ≠ INFINITE⌝ -∗ Φ r) -∗
  WP (wait_event c ms e : expr threads) {{ Φ }}.
Proof.
  iIntros "#He HΦ". iApply (wp_wait_single _ _ _ True True); [done| |].
  - iIntros "!> _". unfold attempt_event. iApply wp_seq. iApply (wp_any_load with "He").
    iIntros (v) "!>". iApply wp_ret. destruct (v =? 0); [by iRight|by iLeft].
  - iIntros (r) "[[-> _]|[[-> %Hms] _]]"; iApply "HΦ"; iPureIntro; auto.
Qed.

End any.

(** ** Notifications *)

Section notifications.
Context `{!lockGS Σ} (gc : gname) (γ : win_names) (lock : Z) (R : iProp Σ) `{!Timeless R}.

Notation is_simple := (is_win winN gc γ lock R).
Notation off := (win_off γ).
Notation on := (win_on γ).

(** No thread, one, or all are to be woken. *)
Definition is_target (v : Z) : Prop := v = 1 ∨ v = 0 ∨ v = -1.

Notation any_word := (word_of (λ _, True)).

Definition notification_words (n : Z) : iProp Σ :=
  ∃ e1 e2 : Z, pointsto (notification_notifier n) DfracDiscarded e1 ∗
    pointsto (notification_anti_notifier n) DfracDiscarded e2 ∗
    any_word (event_state e1) ∗ any_word (event_state e2) ∗
    word_of is_target (notification_target n) ∗ any_word (notification_count n).

Definition is_notification (notif : Z) : iProp Σ := ∃ n, handle_is notif n ∗ notification_words n.

#[global] Instance is_notification_persistent notif : Persistent (is_notification notif).
Proof. apply _. Qed.

Lemma wp_on_notifier n f Φ :
  notification_words n -∗ (∀ e, any_word (event_state e) -∗ WP (f e : expr threads) {{ Φ }}) -∗
  WP (on_notifier f n : expr threads) {{ Φ }}.
Proof.
  iIntros "(%e1 & %e2 & #H1 & _ & He & _) HΦ". iApply wp_seq. iApply (wp_load with "H1").
  iIntros "!> _ !>". by iApply "HΦ".
Qed.

Lemma wp_on_anti_notifier n f Φ :
  notification_words n -∗ (∀ e, any_word (event_state e) -∗ WP (f e : expr threads) {{ Φ }}) -∗
  WP (on_anti_notifier f n : expr threads) {{ Φ }}.
Proof.
  iIntros "(%e1 & %e2 & _ & #H2 & _ & He & _) HΦ". iApply wp_seq. iApply (wp_load with "H2").
  iIntros "!> _ !>". by iApply "HΦ".
Qed.

Lemma wp_set_event e Φ : any_word (event_state e) -∗ Φ 1 -∗ WP (SetEvent e : expr threads) {{ Φ }}.
Proof.
  iIntros "#He HΦ". iApply wp_seq. iApply (wp_any_store with "He"); [done|]. iIntros "!>". by iApply wp_ret.
Qed.

Lemma wp_reset_event e Φ : any_word (event_state e) -∗ Φ 1 -∗ WP (ResetEvent e : expr threads) {{ Φ }}.
Proof.
  iIntros "#He HΦ". iApply wp_seq. iApply (wp_any_store with "He"); [done|]. iIntros "!>". by iApply wp_ret.
Qed.

Lemma wp_rearm n Φ : notification_words n -∗ Φ 1 -∗ WP (rearm n : expr threads) {{ Φ }}.
Proof.
  iIntros "#Hn HΦ". unfold rearm. iApply wp_seq. iApply (wp_on_notifier with "Hn"). iIntros (e) "He".
  iApply (wp_reset_event with "He"). iIntros "!>". simpl.
  iApply (wp_on_anti_notifier with "Hn"). iIntros (e') "He". by iApply (wp_set_event with "He").
Qed.

Lemma wp_fire n Φ : notification_words n -∗ Φ 1 -∗ WP (fire n : expr threads) {{ Φ }}.
Proof.
  iIntros "#Hn HΦ". unfold fire. iApply wp_seq. iApply (wp_on_anti_notifier with "Hn"). iIntros (e) "He".
  iApply (wp_reset_event with "He"). iIntros "!>". simpl.
  iApply (wp_on_notifier with "Hn"). iIntros (e') "He". by iApply (wp_set_event with "He").
Qed.

Lemma wp_count_waiting n d (f : Z → prog) Φ :
  notification_words n -∗ (∀ r, WP (f r : expr threads) {{ Φ }}) -∗
  WP (Bind (Act (Fetch_and_add32 (notification_count n) d)) f : expr threads) {{ Φ }}.
Proof.
  iIntros "(%e1 & %e2 & _ & _ & _ & _ & _ & #Hc) HΦ". iApply wp_seq.
  iApply (wp_any_add with "Hc"). iIntros (v) "!>". iApply "HΦ".
Qed.

Lemma wp_take_target n Φ :
  notification_words n -∗ (∀ r, ⌜is_target r⌝ -∗ Φ r) -∗
  WP (internal_InterlockedCompareExchange (notification_target n) 1 0 : expr threads) {{ Φ }}.
Proof.
  iIntros "(%e1 & %e2 & _ & _ & _ & _ & #Ht & _) HΦ". iApply (wp_any_swap with "Ht"); [by left|done].
Qed.

(** *** The beginning of the operations *)

Lemma wp_owned_lock t Φ : is_simple -∗ on t -∗ (on t -∗ Φ 1) -∗ WP (owned_lock t lock : expr threads) {{ Φ }}.
Proof using Type*.
  iIntros "#Hl Ht HΦ". iApply wp_seq. iApply (wp_win_owned with "Hl Ht"). iIntros "Ht !>".
  iApply wp_ret. by iApply "HΦ".
Qed.

Lemma wp_owned_lock_off t Φ :
  is_simple -∗ off t -∗ (off t -∗ Φ 0) -∗ WP (owned_lock t lock : expr threads) {{ Φ }}.
Proof using Type*.
  iIntros "#Hl Ht HΦ". iApply wp_seq. iApply (wp_win_owned_off with "Hl Ht"). iIntros "Ht !>".
  iApply wp_ret. by iApply "HΦ".
Qed.

(** The handles, and who has the lock *)
Lemma wp_begin (b : bool) t notif (f : Z → prog) Φ :
  is_simple -∗ is_notification notif -∗ (if b then on t else off t) -∗
  (if b then on t -∗ ∀ n, notification_words n -∗ WP (f n : expr threads) {{ Φ }}
   else off t -∗ Φ NOT_LOCKED) -∗
  WP (Bind (Act (Load (container_handle notif))) (λ notification,
      slock <~ Act (Load (container_handle lock));;
      owned <~ owned_lock t lock;;
      if owned =? 0 then Ret NOT_LOCKED else f notification) : expr threads) {{ Φ }}.
Proof using Type*.
  iIntros "#Hl (%n & #Hh & #Hn) Ht HΦ". iPoseProof "Hl" as "[Hlh _]".
  iApply wp_seq. iApply (wp_load_handle with "Hh"). iIntros "!>".
  iApply wp_seq. iApply (wp_load_handle with "Hlh"). iIntros "!>".
  iApply wp_seq. destruct b.
  - iApply (wp_owned_lock with "Hl Ht"). iIntros "Ht !>". simpl. by iApply ("HΦ" with "Ht").
  - iApply (wp_owned_lock_off with "Hl Ht"). iIntros "Ht !>". simpl. iApply wp_ret. by iApply "HΦ".
Qed.

Lemma wp_assert_handles notif (p : prog) Φ :
  is_simple -∗ is_notification notif -∗ WP (p : expr threads) {{ Φ }} -∗
  WP (Bind (assert_handle notif) (λ _, Bind (assert_handle lock) (λ _, p)) : expr threads) {{ Φ }}.
Proof.
  iIntros "[#Hl _] (%n & #Hh & _) HΦ". iApply wp_seq. iApply (wp_assert_handle with "Hh").
  iIntros "!>". iApply wp_seq. iApply (wp_assert_handle with "Hl"). by iIntros "!>".
Qed.

(** *** Waiting *)

Lemma wp_finish_wait t n tmp1 Φ :
  is_simple -∗ credits gc 1 -∗ notification_words n -∗ off t -∗ (on t -∗ R -∗ Φ OK) -∗
  WP (finish_wait t lock n tmp1 : expr threads) {{ Φ }}.
Proof using Type*.
  iIntros "#Hl Hone #Hn Ht HΦ". unfold finish_wait. iApply (wp_count_waiting with "Hn"). iIntros (tmp2).
  iApply wp_seq. iApply (wp_wand _ _ _ (λ r : val threads, ⌜r = 1⌝)%I).
  { destruct (negb (tmp1 =? -1) || (tmp2 <=? 0)); [by iApply (wp_rearm with "Hn")|by iApply wp_ret]. }
  iIntros (r ->) "!>". simpl. iApply wp_seq. iApply (wp_win_wait with "Hl Hone Ht"). iIntros "Ht HR !>".
  iApply wp_ret. iApply ("HΦ" with "Ht HR").
Qed.

Lemma wp_await_target n Φ :
  notification_words n -∗ (∀ r, ⌜is_target r⌝ -∗ Φ r) -∗ WP (await_target n : expr threads) {{ Φ }}.
Proof.
  iIntros "#Hn HΦ". unfold await_target. iApply wp_seq. iApply (wp_on_notifier with "Hn").
  iIntros (e) "He". iApply (wp_wait_event with "He"). iIntros (r) "[-> |[_ %]] !>"; [|done]. simpl.
  iApply (wp_take_target with "Hn HΦ").
Qed.

Lemma wp_win_wait_notification t notif Φ :
  is_simple -∗ credits gc 1 -∗ is_notification notif -∗ on t -∗ R -∗ (on t -∗ R -∗ Φ OK) -∗
  WP (primitive_wait_for_notification t notif lock : expr threads) {{ Φ }}.
Proof using Type*.
  iIntros "#Hl Hone #Hnot Ht HR HΦ". unfold primitive_wait_for_notification.
  iApply (wp_assert_handles with "Hl Hnot"). iApply (wp_begin true with "Hl Hnot Ht").
  iIntros "Ht" (n) "#Hn". iApply wp_seq. iApply (wp_on_anti_notifier with "Hn"). iIntros (e) "He".
  iApply (wp_wait_event with "He"). iIntros (r) "[-> |[_ %]] !>"; [|done]. cbn [negb Z.eqb WAIT_OBJECT_0].
  iApply (wp_count_waiting with "Hn"). iIntros (r1).
  iApply wp_seq. iApply (wp_win_release with "Hl Ht HR"). iIntros "Ht !>". rw Z.eqb_refl. cbn [negb].
  iApply wp_seq. unfold Do. iApply wp_seq. iApply (wp_await_target with "Hn"). iIntros (r2) "%Hr2 !>".
  iApply (wp_while_inv (λ r : val threads, ⌜is_target r⌝)%I); [done| |].
  - iIntros "!>" (y _) "_". iApply (wp_await_target with "Hn"). by iIntros (r3) "%Hr3".
  - iIntros (y Hy) "%Ht !>". rw (proj2 (Z.eqb_neq y 2)); [|unfold is_target in *; lia].
    iApply (wp_finish_wait with "Hl Hone Hn Ht HΦ").
Qed.

Lemma wp_win_wait_notification_off t notif Φ :
  is_simple -∗ is_notification notif -∗ off t -∗ (off t -∗ Φ NOT_LOCKED) -∗
  WP (primitive_wait_for_notification t notif lock : expr threads) {{ Φ }}.
Proof using Type*.
  iIntros "#Hl #Hnot Ht HΦ". unfold primitive_wait_for_notification.
  iApply (wp_assert_handles with "Hl Hnot"). iApply (wp_begin false with "Hl Hnot Ht HΦ").
Qed.

Lemma wp_await_target_timed c ms n i Φ :
  0 <= i → notification_words n -∗ (∀ r, ⌜0 <= r ∨ r = -1 ∨ r = -3 ∨ r = -4⌝ -∗ Φ r) -∗
  WP (await_target_timed c ms n i : expr threads) {{ Φ }}.
Proof.
  iIntros (Hi) "#Hn HΦ". unfold await_target_timed. iApply wp_seq.
  iApply (wp_on_notifier with "Hn"). iIntros (e) "He". iApply (wp_wait_event with "He").
  iIntros (r) "[-> |[-> _]] !>"; simpl.
  - iApply wp_seq. iApply (wp_take_target with "Hn"). iIntros (tmp1) "%Ht !>". iApply wp_ret.
    iApply "HΦ". iPureIntro. destruct (tmp1 =? 1), (tmp1 =? -1); lia.
  - iApply wp_ret. iApply "HΦ". iPureIntro. auto.
Qed.

Lemma wp_give_up_wait t n Φ :
  is_simple -∗ credits gc 1 -∗ notification_words n -∗ off t -∗ (on t -∗ R -∗ Φ TIMEOUT) -∗
  WP (give_up_wait t lock n : expr threads) {{ Φ }}.
Proof using Type*.
  iIntros "#Hl Hone #Hn Ht HΦ". unfold give_up_wait. iApply (wp_count_waiting with "Hn"). iIntros (tmp2).
  iApply wp_seq. iApply (wp_on_notifier with "Hn"). iIntros (e) "He". iApply (wp_wait_event with "He").
  iIntros (r) "_ !>". iApply wp_seq. iApply (wp_wand _ _ _ (λ _ : val threads, True)%I).
  { destruct (_ && _); simpl; [|by iApply wp_ret]. iApply wp_seq.
    iApply (wp_on_notifier with "Hn"). iIntros (e1) "He1". iApply (wp_reset_event with "He1"). iIntros "!>".
    iApply (wp_on_anti_notifier with "Hn"). iIntros (e2) "He2". by iApply (wp_set_event with "He2"). }
  iIntros (_) "_ !>". iApply wp_seq. iApply (wp_win_wait with "Hl Hone Ht"). iIntros "Ht HR !>".
  iApply wp_ret. iApply ("HΦ" with "Ht HR").
Qed.

Lemma wp_win_wait_notification_timed c t notif ms Φ :
  IS_ZINT ms = true →
  is_simple -∗ credits gc 1 -∗ is_notification notif -∗ on t -∗ R -∗
  (∀ r, ⌜r = OK ∨ r = TIMEOUT⌝ -∗ on t -∗ R -∗ Φ r) -∗
  WP (primitive_wait_for_notification_timed c t notif lock ms : expr threads) {{ Φ }}.
Proof using Type*.
  iIntros (Hms) "#Hl Hone #Hnot Ht HR HΦ". unfold primitive_wait_for_notification_timed.
  iApply (wp_assert_handles with "Hl Hnot"). iApply wp_seq. iApply wp_assert; [done|]. iIntros "!>".
  iApply (wp_begin true with "Hl Hnot Ht"). iIntros "Ht" (n) "#Hn".
  iApply wp_seq. iApply (wp_on_anti_notifier with "Hn"). iIntros (e) "He".
  iApply (wp_wait_event with "He"). iIntros (r) "[-> |[-> _]] !>"; simpl.
  2:{ iApply wp_ret. iApply ("HΦ" with "[%] Ht HR"). by right. }
  iApply (wp_count_waiting with "Hn"). iIntros (r1).
  iApply wp_seq. iApply (wp_win_release with "Hl Ht HR"). iIntros "Ht !>". iApply wp_seq.
  iApply (wp_while_inv (λ r : val threads, ⌜0 <= r ∨ r = -1 ∨ r = -3 ∨ r = -4⌝)%I); [iPureIntro; by left| |].
  - iIntros "!>" (y Hy) "_". iApply (wp_await_target_timed with "Hn"); [by apply Z.leb_le|].
    by iIntros (r3) "%Hr3".
  - iIntros (y Hy) "%Hr !>". apply Z.leb_gt in Hy.
    destruct Hr as [? | [-> | [-> | ->]]]; [lia|simpl..].
    + iApply (wp_give_up_wait with "Hl Hone Hn Ht"). iIntros "Ht HR". iApply ("HΦ" with "[%] Ht HR"). by right.
    + iApply (wp_finish_wait with "Hl Hone Hn Ht"). iIntros "Ht HR". iApply ("HΦ" with "[%] Ht HR"). by left.
    + iApply (wp_finish_wait with "Hl Hone Hn Ht"). iIntros "Ht HR". iApply ("HΦ" with "[%] Ht HR"). by left.
Qed.

Lemma wp_win_wait_notification_timed_off c t notif ms Φ :
  IS_ZINT ms = true →
  is_simple -∗ is_notification notif -∗ off t -∗ (off t -∗ Φ NOT_LOCKED) -∗
  WP (primitive_wait_for_notification_timed c t notif lock ms : expr threads) {{ Φ }}.
Proof using Type*.
  iIntros (Hms) "#Hl #Hnot Ht HΦ". unfold primitive_wait_for_notification_timed.
  iApply (wp_assert_handles with "Hl Hnot"). iApply wp_seq. iApply wp_assert; [done|]. iIntros "!>".
  iApply (wp_begin false with "Hl Hnot Ht HΦ").
Qed.

(** *** Releasing *)

Lemma wp_release_waiting t notif target Φ :
  is_target target →
  is_simple -∗ is_notification notif -∗ on t -∗ (on t -∗ Φ OK) -∗
  WP (release_waiting t notif lock target : expr threads) {{ Φ }}.
Proof using Type*.
  iIntros (Htarget) "#Hl #Hnot Ht HΦ". unfold release_waiting.
  iApply (wp_assert_handles with "Hl Hnot"). iApply (wp_begin true with "Hl Hnot Ht").
  iIntros "Ht" (n) "#Hn". iApply wp_seq. iApply (wp_on_anti_notifier with "Hn"). iIntros (e) "He".
  iApply (wp_wait_event with "He"). iIntros (r) "[-> |[_ %]] !>"; [|done]. simpl.
  iPoseProof "Hn" as (e1 e2) "(_ & _ & _ & _ & Htgt & Hcount)".
  iApply wp_seq. iApply (wp_any_load with "Hcount"). iIntros (count) "!>".
  destruct (0 <? count); [|iApply wp_ret; by iApply "HΦ"].
  iApply wp_seq. iApply (wp_any_store with "Htgt"); [done|]. iIntros "!>".
  iApply wp_seq. iApply (wp_fire with "Hn"). iIntros "!>". iApply wp_ret. by iApply "HΦ".
Qed.

Lemma wp_release_waiting_off t notif target Φ :
  is_simple -∗ is_notification notif -∗ off t -∗ (off t -∗ Φ NOT_LOCKED) -∗
  WP (release_waiting t notif lock target : expr threads) {{ Φ }}.
Proof using Type*.
  iIntros "#Hl #Hnot Ht HΦ". unfold release_waiting.
  iApply (wp_assert_handles with "Hl Hnot"). iApply (wp_begin false with "Hl Hnot Ht HΦ").
Qed.

End notifications.

(** ** Making *)

Section making.
Context `{!lockGS Σ}.

Lemma wp_create_semaphore ok Φ :
  (∀ h, ⌜h = NULL⌝ ∨ ⌜h ≠ NULL⌝ ∗ hsem_count h ↦ 0 ∗ pointsto (hsem_max h) DfracDiscarded 1 -∗ Φ h) -∗
  WP (CreateSemaphore ok 0 1 : expr threads) {{ Φ }}.
Proof.
  iIntros "HΦ". unfold CreateSemaphore. destruct ok; simpl; [|iApply wp_ret; iApply "HΦ"; by iLeft].
  iApply wp_fupd. iApply wp_allocate. iIntros "!>" (h Hh) "Hw". rw words_fields. iDestruct "Hw" as "(H1 & H2 & _)".
  iMod (ghost_map_elem_persist with "H2") as "H2". iModIntro. iApply "HΦ". iRight. iFrame.
  iPureIntro. unfold NULL. lia.
Qed.

(** A lock with the fields of both kinds; [l]: the words of a recursive one. *)
Lemma win_alloc N gc lock s sem R E :
  lock ≠ NULL → s ≠ NULL →
  credit_limit gc -∗ container_handle lock ↦ s -∗ slock_semaphore s ↦ sem -∗
  pointsto (hsem_max sem) DfracDiscarded 1 -∗ hsem_count sem ↦ 0 -∗
  slock_lock_count s ↦ (-1) -∗ slock_owner s ↦ 0 -∗ R ={E}=∗
  ∃ γ, ⌜wn_struct γ = s⌝ ∗ is_win N gc γ lock R.
Proof.
  iIntros (Hl Hs) "#Hlimit Hc Hs Hm Hq Hn Ho HR".
  iMod (ghost_map_elem_persist with "Hc") as "#Hc". iMod (ghost_map_elem_persist with "Hs") as "#Hs".
  iMod (counted_alloc N with "Hlimit Hn Hq Ho HR") as (g g2) "#H". iModIntro.
  iExists (WinNames g g2 s sem). iSplit; [done|]. iFrame "Hc Hs Hm H". by iPureIntro.
Qed.

Lemma wp_make_win_simple gc ok lock v R `{!Timeless R} Φ : lock ≠ NULL →
  credit_limit gc -∗ container_handle lock ↦ v -∗ R -∗
  (∀ r, ⌜r = OK⌝ ∗ (∃ γ, is_win winN gc γ lock R) ∨ ⌜r ≠ OK⌝ -∗ Φ r) -∗
  WP (primitive_make_simple_lock ok lock : expr threads) {{ Φ }}.
Proof.
  iIntros (Hl) "#Hlimit Hc HR HΦ". unfold primitive_make_simple_lock.
  iApply wp_seq. iApply wp_assert; [by apply negb_true_iff, Z.eqb_neq|]. iIntros "!>".
  iApply wp_seq. iApply wp_allocate. iIntros "!>" (s Hs) "Hw !>".
  rw (proj2 (Z.eqb_neq s NULL)); [|unfold NULL; lia].
  rw words_fields. iDestruct "Hw" as "(Ho & Hsem & Hn & _)".
  iApply wp_seq. iApply (wp_store with "Hn"). iIntros "!> Hn !>".
  iApply wp_seq. iApply wp_create_semaphore. iIntros (sem) "H !>".
  iApply wp_seq. iApply (wp_store with "Hsem"). iIntros "!> Hsem !>".
  iDestruct "H" as "[-> |(%Hsem & Hq & Hm)]"; [iApply wp_ret; iApply "HΦ"; by iRight|].
  rw (proj2 (Z.eqb_neq sem NULL)) //.
  iApply wp_seq. iApply (wp_store with "Ho"). iIntros "!> Ho !>".
  iApply wp_seq. iApply (wp_store with "Hc"). iIntros "!> Hc !>".
  iApply fupd_wp. iMod (win_alloc winN with "Hlimit Hc Hsem Hm Hq Hn Ho HR") as (γ) "[_ #H]";
    [done|unfold NULL; lia|]. iModIntro.
  iApply wp_ret. iApply "HΦ". iLeft. iSplit; [done|]. by iExists γ.
Qed.

Lemma wp_make_win_recursive gc ok lock v R `{!Timeless R} Φ : lock ≠ NULL →
  credit_limit gc -∗ container_handle lock ↦ v -∗ R -∗
  (∀ r, ⌜r = OK⌝ ∗ (∃ γ, is_win recursiveN gc γ lock (with_count γ R)) ∨ ⌜r ≠ OK⌝ -∗ Φ r) -∗
  WP (primitive_make_recursive_lock ok lock : expr threads) {{ Φ }}.
Proof.
  iIntros (Hl) "#Hlimit Hc HR HΦ". unfold primitive_make_recursive_lock.
  iApply wp_seq. iApply wp_assert; [by apply negb_true_iff, Z.eqb_neq|]. iIntros "!>".
  iApply wp_seq. iApply wp_allocate. iIntros "!>" (s Hs) "Hw !>".
  rw (proj2 (Z.eqb_neq s NULL)); [|unfold NULL; lia].
  rw words_fields. iDestruct "Hw" as "(Ho & Hsem & Hn & Hk & _)".
  iApply wp_seq. iApply (wp_store with "Hn"). iIntros "!> Hn !>".
  iApply wp_seq. iApply wp_create_semaphore. iIntros (sem) "H !>".
  iApply wp_seq. iApply (wp_store with "Hsem"). iIntros "!> Hsem !>".
  iDestruct "H" as "[-> |(%Hsem & Hq & Hm)]"; [iApply wp_ret; iApply "HΦ"; by iRight|].
  rw (proj2 (Z.eqb_neq sem NULL)) //.
  iApply wp_seq. iApply (wp_store with "Ho"). iIntros "!> Ho !>".
  iApply wp_seq. iApply (wp_store with "Hk"). iIntros "!> Hk !>".
  iApply wp_seq. iApply (wp_store with "Hc"). iIntros "!> Hc !>".
  iApply fupd_wp.
  iMod (win_alloc recursiveN _ _ _ _ (R ∗ ∃ n : Z, rlock_recursion_count s ↦ n)
    with "Hlimit Hc Hsem Hm Hq Hn Ho [HR Hk]") as (γ) "[<- #H]"; [done|unfold NULL; lia|iFrame|]. iModIntro.
  iApply wp_ret. iApply "HΦ". iLeft. iSplit; [done|]. by iExists γ.
Qed.

Lemma wp_create_event ok v Φ :
  (∀ h, ⌜h = NULL⌝ ∨ ⌜h ≠ NULL⌝ ∗ event_state h ↦ v -∗ Φ h) -∗
  WP (CreateEvent ok v : expr threads) {{ Φ }}.
Proof.
  iIntros "HΦ". unfold CreateEvent. destruct ok; [|iApply wp_ret; iApply "HΦ"; by iLeft].
  iApply wp_allocate. iIntros "!>" (h Hh) "Hw". rw words_fields. iDestruct "Hw" as "(H1 & _)".
  iApply "HΦ". iRight. iFrame. iPureIntro. unfold NULL. lia.
Qed.

Lemma wp_make_win_notification ok1 ok2 notif v Φ : notif ≠ NULL →
  container_handle notif ↦ v -∗
  (∀ r, ⌜r = OK⌝ ∗ is_notification notif ∨ ⌜r ≠ OK⌝ -∗ Φ r) -∗
  WP (primitive_make_notification ok1 ok2 notif : expr threads) {{ Φ }}.
Proof.
  iIntros (Hl) "Hc HΦ". unfold primitive_make_notification.
  iApply wp_seq. iApply wp_assert; [by apply negb_true_iff, Z.eqb_neq|]. iIntros "!>".
  iApply wp_seq. iApply wp_allocate. iIntros "!>" (n Hn) "Hw !>".
  rw (proj2 (Z.eqb_neq n NULL)); [|unfold NULL; lia].
  rw words_fields. iDestruct "Hw" as "(H1 & H2 & Ht & Hk & _)".
  iApply wp_seq. iApply wp_create_event. iIntros (e1) "He1 !>".
  iApply wp_seq. iApply (wp_store with "H1"). iIntros "!> H1 !>".
  iApply wp_seq. iApply wp_create_event. iIntros (e2) "He2 !>".
  iApply wp_seq. iApply (wp_store with "H2"). iIntros "!> H2 !>".
  iDestruct "He1" as "[-> |[%Hne1 He1]]"; [iApply wp_ret; iApply "HΦ"; by iRight|].
  rw (proj2 (Z.eqb_neq e1 NULL)) //. cbn [orb].
  iDestruct "He2" as "[-> |[%Hne2 He2]]"; [iApply wp_ret; iApply "HΦ"; by iRight|].
  rw (proj2 (Z.eqb_neq e2 NULL)) //.
  iApply wp_seq. iApply (wp_store with "Ht"). iIntros "!> Ht !>".
  iApply wp_seq. iApply (wp_store with "Hk"). iIntros "!> Hk !>".
  iApply wp_seq. iApply (wp_store with "Hc"). iIntros "!> Hc !>".
  iApply fupd_wp. iMod (ghost_map_elem_persist with "Hc") as "Hc".
  iMod (ghost_map_elem_persist with "H1") as "H1". iMod (ghost_map_elem_persist with "H2") as "H2".
  iMod (word_of_alloc (λ _, True) with "He1") as "He1"; [done|].
  iMod (word_of_alloc (λ _, True) with "He2") as "He2"; [done|].
  iMod (word_of_alloc is_target with "Ht") as "Ht"; [by left|].
  iMod (word_of_alloc (λ _, True) with "Hk") as "Hk"; [done|]. iModIntro.
  iApply wp_ret. iApply "HΦ". iLeft. iSplit; [done|]. iExists n. iFrame "Hc".
  iSplit; [iPureIntro; split; [done|unfold NULL; lia]|]. iExists e1, e2. iFrame.
Qed.
End making.
