(* ===== verification/WinClients.v ===== *)
(** * Programs that use the Windows locks

    The Windows locks are a lock library in the sense of [LockLibrary.v].  A thread may
    use them as it likes, but it must not unlock a lock it does not have:
    [primitive_unlock_simple_lock] and [primitive_unlock_recursive_lock] do not look whose
    the lock is; [WinExamples.v] shows what comes of it. *)

From S2P Require Import Prelude Memory Tagging Concur ConcurLogic Tlv Locks LockLaws Ownership LockLibrary HarpLocks WinLocks WinLockLaws WinNotifications.
From stdpp Require Import base tactics option list numbers gmap fin_maps.
From Stdlib Require Import ZArith Lia.
From iris.proofmode Require Import proofmode.
From iris.base_logic.lib Require Import invariants ghost_map.
From iris.program_logic Require Import weakestpre.

Local Open Scope Z_scope.

(** ** The library

    Whether the system has room for the semaphore of a simple lock, that of a recursive
    one, and the two events of a notification *)
Record win_room := mkRoom { room_simple : bool; room_recursive : bool; room_event : bool; room_anti : bool }.

Definition release_notification_of (all : bool) (t notif lock : Z) : prog :=
  if all then primitive_release_all_notification t notif lock
  else primitive_release_notification t notif lock.

Definition win_library (room : win_room) : lock_library := {|
  lib_clock := win_clock;
  lib_make_simple := primitive_make_simple_lock (room_simple room);
  lib_make_notification := primitive_make_notification (room_event room) (room_anti room);
  lib_make_recursive := primitive_make_recursive_lock (room_recursive room);
  lib_wait := primitive_wait_for_simple_lock;
  lib_wait_timed := primitive_wait_for_simple_lock_timed;
  lib_release := primitive_release_simple_lock;
  lib_unlock _ := primitive_unlock_simple_lock;
  lib_owned := primitive_owned_simple_lock;
  lib_wait_notification := primitive_wait_for_notification;
  lib_wait_notification_timed := primitive_wait_for_notification_timed;
  lib_release_notification := release_notification_of;
  lib_wait_recursive := primitive_wait_for_recursive_lock;
  lib_wait_recursive_timed := primitive_wait_for_recursive_lock_timed;
  lib_release_recursive := primitive_release_recursive_lock;
  lib_unlock_recursive _ := primitive_unlock_recursive_lock;
  lib_owned_recursive := primitive_owned_recursive_lock;
  lib_unlock_checks := false;
  lib_unlocks_recursive := true;
  lib_counts_waits := true
|}.

Section laws.
Context `{!lockGS Σ} (room : win_room) (gc : gname).

Lemma win_enroll (γ δ : win_names) lock rlock R S t v `{!Timeless R, !Timeless S} : t ≠ 0 →
  is_win winN gc γ lock R -∗ is_win recursiveN gc δ rlock S -∗ teb_thread t ↦ v ={⊤}=∗
  win_off γ t ∗ win_off δ t.
Proof.
  iIntros (Ht) "(_ & _ & _ & #H1) (_ & _ & _ & #H2) Hv".
  iApply (enroll_both with "H1 H2 Hv"); [solve_ndisj|done].
Qed.

#[export] Instance win_library_laws : lock_library_laws (win_library room).
Proof.
  refine {|
    names := win_names;
    simple_lock γ lock R := is_win winN gc γ lock R;
    simple_off := win_off;
    simple_on := win_on;
    recursive_lock γ lock R := is_win recursiveN gc γ lock (with_count γ R);
    recursive_off := win_off;
    recursive_on := win_within;
    notification := is_notification;
    simple_lock_persistent γ lock R := is_win_persistent winN gc γ lock R;
    recursive_lock_persistent γ lock R := is_win_persistent recursiveN gc γ lock (with_count γ R);
    notification_persistent notif := _;
    bounded := credit_limit gc;
    bounded_persistent := credit_limit_persistent gc;
    budget := credits gc
  |}; cbn [win_library lib_make_simple lib_make_notification lib_make_recursive lib_wait
    lib_wait_timed lib_release lib_unlock lib_owned lib_wait_notification
    lib_wait_notification_timed lib_release_notification lib_wait_recursive
    lib_wait_recursive_timed lib_release_recursive lib_unlock_recursive lib_owned_recursive
    lib_unlock_checks lib_unlocks_recursive lib_counts_waits]; intros.
  - by rewrite credits_split; iIntros "[$ $]".
  - done.
  - by apply wp_make_win_simple.
  - by apply wp_make_win_notification.
  - by apply wp_make_win_recursive.
  - by apply win_enroll; [apply _|apply _|].
  - by apply wp_win_wait.
  - by apply wp_win_wait_held.
  - by apply wp_win_wait_timed.
  - by apply wp_win_wait_timed_held.
  - by apply wp_win_release.
  - by apply wp_win_release_off.
  - by apply wp_win_unlock.
  - done.
  - by apply wp_win_owned.
  - by apply wp_win_owned_off.
  - by apply wp_win_wait_notification.
  - by apply wp_win_wait_notification_off.
  - by apply wp_win_wait_notification_timed.
  - by apply wp_win_wait_notification_timed_off.
  - destruct all; apply wp_release_waiting; try apply _; unfold is_target; auto.
  - destruct all; by apply wp_release_waiting_off.
  - by apply wp_win_wait_recursive.
  - by apply wp_win_wait_recursive_again.
  - by apply wp_win_wait_recursive_timed.
  - by apply wp_win_wait_recursive_timed_again.
  - by apply wp_win_release_recursive_once.
  - by apply wp_win_release_recursive_last.
  - by apply wp_win_release_recursive_off.
  - by eapply wp_win_unlock_recursive.
  - by apply wp_win_owned_recursive.
  - by apply wp_win_owned_recursive_off.
Defined.
End laws.

Definition win_process (room : win_room) (v w : Z) (c : client (win_library room)) : prog :=
  process (win_library room) v w c.

(** C7: Threads share a simple lock with its notification and a recursive lock
    of windows-threads-primitives.c, whose 32-bit count of waiting threads,
    semaphore and events the primitives keep; all the threads together make
    at most 2^31 - 1 calls that wait for a lock or a notification (more of
    them could wrap the count around, which a timed-out wait leaves
    incremented), no thread unlocks, with primitive_unlock_simple_lock or
    primitive_unlock_recursive_lock, a lock that it does not have, none
    touches a word without having its lock, and none destroys a lock; waits
    and releases by threads that do not have the lock are included. Then in
    every interleaving no thread is ever stuck, no assertion fails, the
    words the locks protect satisfy their invariants whenever the locks are
    free, and a thread that has a lock has its word for itself, so that the
    result of the initial thread is one its specification allows. *)
Theorem windows_locks_protect room v w c n P Q (φ : Z → Prop) (l : list nat) ps s :
  P v → Q w → client_spec (win_library room) P Q c None None φ →
  waits_within (win_library room) c n → Z.of_nat n < 2147483648 →
  run_schedule l ([win_process room v w c], empty_cstate) = Some (ps, s) →
  (∀ x, ps !! 0%nat = Some (Ret x) → φ x) ∧ Forall (λ p, is_stuck p s = false) ps.
Proof.
  intros Hv Hw Hc Hn Hmax. apply adequate_schedule.
  apply (library_process_adequate _ v w c n P Q); [|done..].
  intros H. iMod (credits_alloc n Hmax) as (gc) "[#Hlimit Hn]". iModIntro.
  iExists (win_library_laws room gc). iFrame "Hlimit Hn".
Qed.

(** A thread that does not have the locks tries to release them, and then counts to two;
    the initial thread sees even numbers only. *)
Definition big_room : win_room := mkRoom true true true true.

Notation the_library := (win_library big_room).
Notation win_client := (client the_library).

Definition some_time : @lib_clock the_library := mkWinClock (λ _, 3%nat) (λ i, 100 * Z.of_nat i).

Definition counter : win_client :=
  Release (λ r, if r =? NOT_LOCKED then
    Wait_notification (λ r, if r =? NOT_LOCKED then
      Wait (λ _, Get (λ v, Put (v + 1) (Get (λ v, Put (v + 1)
        (Release_notification true (λ _, Unlock_simple (λ _,
        Wait_recursive (λ _, Wait_recursive (λ _, Unlock_recursive (λ _,
        Release_recursive (λ r, if r =? NOT_LOCKED then Finish 0 else Failure)))))))))))
    else Failure) else Failure).

Definition watcher : win_client :=
  Wait_timed some_time (I 250) (λ r, if r =? OK then Wait (λ r, if r =? ALREADY_LOCKED then
    Get (λ v, if Z.even v then Wait_notification_timed some_time (I 500) (λ _, Owned (λ o,
      Get (λ v, if Z.even v then Release (λ _, Finish o) else Failure)))
      else Failure) else Failure) else Finish (I 1)).

Definition even_win_word : prog := win_process big_room 0 0 (Start counter watcher).

Lemma even_win_word_spec :
  client_spec the_library (λ v, Z.even v = true) (λ _, True) (Start counter watcher) None None
    (λ v, v = I 1).
Proof.
  split; simpl.
  - intros v Hv. rewrite <- Z.add_assoc, Z.even_add, Hv. done.
  - split; [done|]. split; [|done]. intros v Hv. rewrite Hv. split; [done|]. split; [done|].
    intros u Hu. simpl. rewrite Hu. done.
Qed.

Lemma even_win_word_waits : waits_within the_library (Start counter watcher) 7.
Proof.
  exists 4%nat, 3%nat. split; [done|]. split.
  - intros r1. destruct (r1 =? NOT_LOCKED); [|done]. exists 3%nat. split; [done|]. intros r2.
    destruct (r2 =? NOT_LOCKED); [|done]. exists 2%nat. split; [done|]. intros r3 r4 r5 r6 r7.
    exists 1%nat. split; [done|]. intros r8. exists 0%nat. split; [done|]. intros r9 r10 r11.
    by destruct (r11 =? NOT_LOCKED).
  - exists 2%nat. split; [done|]. intros r1. destruct (r1 =? OK); [|done].
    exists 1%nat. split; [done|]. intros r2. destruct (r2 =? ALREADY_LOCKED); [|done]. intros r3.
    destruct (Z.even r3); [|done]. exists 0%nat. split; [done|]. intros r4 r5 r6.
    by destruct (Z.even r6).
Qed.

Definition even_win_schedule : list nat :=
  replicate 61 0%nat ++ concat (replicate 190 [1%nat; 0%nat]) ++ replicate 21 1%nat.

Lemma even_win_word_run :
  ∃ ps s, run_schedule even_win_schedule ([even_win_word], empty_cstate) = Some (ps, s) ∧
    prog_to_val <$> ps = [Some (I 1); Some 0].
Proof. apply (observe_schedule (λ r, prog_to_val <$> r.1)). vm_compute. reflexivity. Qed.

Lemma windows_locks_protect_witness :
  ∃ ps s, run_schedule even_win_schedule ([even_win_word], empty_cstate) = Some (ps, s) ∧
    prog_to_val <$> ps = [Some (I 1); Some 0] ∧
    ((∀ v, ps !! 0%nat = Some (Ret v) → v = I 1) ∧ Forall (λ p, is_stuck p s = false) ps).
Proof.
  destruct even_win_word_run as (ps & s & E & Hps). exists ps, s. split; [exact E|]. split; [exact Hps|].
  apply (windows_locks_protect big_room 0 0 (Start counter watcher) 7
    (λ v, Z.even v = true) (λ _, True) (λ v, v = I 1) even_win_schedule ps s);
    [done|done|apply even_win_word_spec|apply even_win_word_waits|done|exact E].
Defined.
