(* ===== verification/WinExamples.v ===== *)
(** * What else the Windows primitives do

    The priorities of threads, and runs in which the primitives of [WinLocks.v] fall
    short. *)

From S2P Require Import Prelude Memory Tagging Concur Tlv Locks LockLibrary HarpLocks WinLocks.
From stdpp Require Import base tactics option list numbers gmap.
From Stdlib Require Import ZArith Lia.

Local Open Scope Z_scope.
Local Open Scope prog_scope.

(** ** Priorities

    The classes of Windows, as the table above the function has them; the table counts
    -250 twice. *)
Lemma priority_map_classes p :
  priority_map p =
    if p <=? -1250 then THREAD_PRIORITY_IDLE
    else if p <=? -750 then -2
    else if p <=? -250 then -1
    else if p <=? 249 then 0
    else if p <=? 749 then 1
    else if p <=? 1249 then 2
    else THREAD_PRIORITY_TIME_CRITICAL.
Proof.
  unfold priority_map, THREAD_PRIORITY_IDLE, THREAD_PRIORITY_TIME_CRITICAL.
  assert (p < 0 -> Z.quot (p - 250) 500 = - ((250 - p) / 500)) as Hneg.
  { intros. rewrite <- (Z.opp_involutive (p - 250)), Z.quot_opp_l, Z.quot_div_nonneg by lia.
    do 2 f_equal. lia. }
  assert (0 <= p -> Z.quot (p + 250) 500 = (p + 250) / 500) as Hpos
    by (intros; apply Z.quot_div_nonneg; lia).
  repeat match goal with |- context [?x <=? ?y] => destruct (Z.leb_spec x y) end;
  repeat match goal with |- context [?x <? ?y] => destruct (Z.ltb_spec x y) end;
  try lia; first [rewrite Hneg by lia | rewrite Hpos by lia];
  clear Hneg Hpos; Z.div_mod_to_equations; lia.
Qed.

(** ** Deadlines

    In a wait for a notification, a round of the loop that begins after the deadline waits
    for 24 days and more: the subtraction is unsigned.  One millisecond late, it waits
    without a limit. *)
Lemma deadline_missed c ms i :
  0 <= milliseconds ms -> milliseconds ms < u32 (ticks c (S i) - ticks c 0) < 2147483648 ->
  2147483648 <= remaining c ms i <= INFINITE.
Proof.
  unfold remaining, INFINITE. intros Hm He. set (e := u32 (ticks c (S i) - ticks c 0)) in *.
  unfold u32. Z.div_mod_to_equations. lia.
Qed.

(** *** Runs that never end

    A thread that comes back to where it was goes on for ever. *)

Lemma run_schedule_app l k p : run_schedule (l ++ k) p = r ← run_schedule l p; run_schedule k r.
Proof.
  revert p. induction l as [|i l IH]; intros p; simpl; [done|].
  destruct (pool_step i p); simpl; [apply IH|done].
Qed.

Lemma run_schedule_round l k p n :
  run_schedule (l ++ k) p = run_schedule l p →
  run_schedule (l ++ concat (replicate n k)) p = run_schedule l p.
Proof.
  intros H. induction n as [|n IH]; simpl; [by rewrite app_nil_r|].
  rewrite run_schedule_app. rewrite run_schedule_app in H.
  destruct (run_schedule l p) as [q|] eqn:E; simpl in *; [|done].
  rewrite run_schedule_app, H. simpl. by rewrite run_schedule_app, E in IH.
Qed.

(** The threads that wait here spin in a loop: [k] steps of the body lead from [x] back to
    [x], and change nothing. *)
Fixpoint steps (n : nat) (p : prog) (s : cstate) : option (prog * cstate) :=
  match n with
  | O => Some (p, s)
  | S n => match next p s with Some (p, s, []) => steps n p s | _ => None end
  end.

Fixpoint spins (k : nat) (p : prog) (s : cstate) : bool :=
  match p with
  | Bind p _ => spins k p s
  | While c x body =>
      c x && match steps k (body x) s with
             | Some (Ret v, s') =>
                 (v =? x) && bool_decide (cmem s' = cmem s) && (cbrk s' =? cbrk s)
             | _ => false
             end
  | _ => false
  end.

Lemma steps_bind n p f s p' s' :
  steps n p s = Some (p', s') → steps n (Bind p f) s = Some (Bind p' f, s').
Proof.
  revert p s. induction n as [|n IH]; intros p s H; cbn [steps] in *; [by injection H as <- <-|].
  destruct (next p s) as [[[q s1] [|]]|] eqn:E; [|done..].
  assert (next (Bind p f) s = Some (Bind q f, s1, [])) as ->; [|by apply IH].
  cbn [next]. destruct p; [done|..]; by rewrite E.
Qed.

Lemma steps_app n m p s q s' :
  steps n p s = Some (q, s') → steps (n + m) p s = steps m q s'.
Proof.
  revert p s. induction n as [|n IH]; intros p s H; simpl in *; [by injection H as -> ->|].
  destruct (next p s) as [[[q1 s1] [|]]|]; [by apply IH|done..].
Qed.

Lemma spins_steps k p s : spins k p s = true → steps (S (k + 1)) p s = Some (p, s).
Proof.
  induction p as [v|x|p IH f _|c x body _|p IH]; cbn [spins]; intros H; try done.
  - by apply steps_bind, IH.
  - apply andb_true_iff in H as [Hc H]. change (steps (S (k + 1)) (While c x body) s)
      with (steps (k + 1) (if c x then Bind (body x) (λ x, While c x body) else Ret x) s).
    rewrite Hc. destruct (steps k (body x) s) as [[[v| | | |] [m b]]|] eqn:E; try done.
    apply andb_true_iff in H as [[Hv Hm]%andb_true_iff Hb].
    apply bool_decide_eq_true in Hm. apply Z.eqb_eq in Hv, Hb. simpl in Hm, Hb. subst m b v.
    rewrite (steps_app _ _ _ _ _ _ (steps_bind _ _ _ _ _ _ E)). by destruct s.
Qed.

Lemma run_schedule_of_thread n i ps p s p' s' :
  ps !! i = Some p → steps n p s = Some (p', s') →
  run_schedule (replicate n i) (ps, s) = Some (<[i := p']> ps, s').
Proof.
  revert ps p s. induction n as [|n IH]; intros ps p s Hp H; simpl in *.
  - injection H as <- <-. by rewrite list_insert_id.
  - unfold pool_step. simpl. rewrite Hp. simpl.
    destruct (next p s) as [[[q s1] [|]]|]; [|done..]. simpl. rewrite app_nil_r.
    rewrite (IH _ q s1); [by rewrite list_insert_insert_eq| |done].
    apply list_lookup_insert_eq. by apply lookup_lt_Some in Hp.
Qed.

Lemma run_schedule_spins l i k p n :
  match run_schedule l p with
  | Some (ps, s) => match ps !! i with Some q => spins k q s | None => false end
  | None => false
  end = true →
  run_schedule (l ++ concat (replicate n (replicate (S (k + 1)) i))) p = run_schedule l p.
Proof.
  intros H. apply run_schedule_round. rewrite run_schedule_app.
  destruct (run_schedule l p) as [[ps s]|]; [|done].
  change (run_schedule (replicate (S (k + 1)) i) (ps, s) = Some (ps, s)).
  destruct (ps !! i) as [q|] eqn:Hq; [|done].
  rewrite (run_schedule_of_thread _ _ _ _ _ q s Hq) by by apply spins_steps.
  by rewrite list_insert_id.
Qed.

(** *** Processes

    A process that makes a simple lock and, for the later runs, a notification; its
    initial thread goes on with [f]. *)
Definition with_slock (f : Z → Z → prog) : prog :=
  lock <~ Act (Allocate [0; 0]);;
  primitive_make_simple_lock true lock;;;
  t <~ make_teb;;
  f lock t.

Definition the_slock : Z := 1048592.
Definition the_semaphore : Z := 1048616.

(** ** Unlocking

    Another thread unlocks the lock and takes it: two threads have it. *)
Definition unlock_of_another : prog :=
  with_slock (λ lock t,
    r <~ primitive_wait_for_simple_lock t lock;;
    Fork (other <~ make_teb;; primitive_unlock_simple_lock lock;;;
          primitive_wait_for_simple_lock other lock);;;
    Ret r).

Example two_threads_have_the_lock :
  ∃ ps s, run_schedule (replicate 31 0%nat ++ replicate 25 1%nat)
      ([unlock_of_another], empty_cstate) = Some (ps, s) ∧ prog_to_val <$> ps = [Some OK; Some OK].
Proof. apply (observe_schedule (λ r, prog_to_val <$> r.1)). vm_compute. reflexivity. Qed.

(** ** Timeouts

    A wait that times out leaves the lock counted.  The lock is released and free, but
    its count is not -1, and the assertion that it is fails. *)
Definition no_time : win_clock := mkWinClock (λ _, O) (λ _, 0).

Definition timeout_counted : prog :=
  with_slock (λ lock t,
    primitive_wait_for_simple_lock t lock;;;
    Fork (other <~ make_teb;; primitive_wait_for_simple_lock_timed no_time other lock (I 100));;;
    primitive_release_simple_lock t lock;;;
    primitive_unlock_simple_lock lock).

Example unlock_after_timeout_fails :
  ∃ ps s, run_schedule (replicate 30 0%nat ++ replicate 21 1%nat ++ replicate 36 0%nat)
      ([timeout_counted], empty_cstate) = Some (ps, s) ∧
    (prog_to_val <$> ps, (λ p, is_stuck p s) <$> ps, cmem s !! slock_lock_count the_slock) =
      ([None; Some TIMEOUT], [true; false], Some 0).
Proof.
  apply (observe_schedule
    (λ r, (prog_to_val <$> r.1, (λ p, is_stuck p r.2) <$> r.1, cmem r.2 !! slock_lock_count the_slock))).
  vm_compute. reflexivity.
Qed.

(** ** Lost counts

    The owner of a lock waits for it once more, and takes the count of that back with an
    instruction that is not interlocked; meanwhile another thread counts the lock and
    waits for its semaphore.  The count of the other thread is lost, and the release of the
    lock does not give it the semaphore. *)
Definition lost_count : prog :=
  with_slock (λ lock t,
    primitive_wait_for_simple_lock t lock;;;
    Fork (other <~ make_teb;; primitive_wait_for_simple_lock other lock);;;
    primitive_wait_for_simple_lock t lock;;;
    primitive_release_simple_lock t lock).

Definition lost_count_schedule : list nat :=
  replicate 43 0%nat ++ replicate 29 1%nat ++ replicate 15 0%nat.

(** The owner has released the lock, which is free; the other thread waits for ever. *)
Lemma lost_count_waits_forever n :
  ∃ ps s, run_schedule (lost_count_schedule ++ concat (replicate n (replicate 4 1%nat)))
      ([lost_count], empty_cstate) = Some (ps, s) ∧
    (prog_to_val <$> ps, cmem s !! slock_lock_count the_slock, cmem s !! hsem_count the_semaphore) =
      ([Some OK; None], Some (-1), Some 0).
Proof.
  rewrite (run_schedule_spins _ 1 2) by (vm_compute; reflexivity).
  apply (observe_schedule (λ r, (prog_to_val <$> r.1, cmem r.2 !! slock_lock_count the_slock,
    cmem r.2 !! hsem_count the_semaphore))).
  vm_compute. reflexivity.
Qed.

(** ** Lost signals

    The clients of a notification, each in a thread of its own *)
Definition with_notification (f : Z → Z → prog) : prog :=
  with_slock (λ lock t,
    notif <~ Act (Allocate [0; 0]);;
    primitive_make_notification true true notif;;;
    f lock notif).

Definition awaiting (lock notif : Z) : prog :=
  t <~ make_teb;; primitive_wait_for_simple_lock t lock;;;
  r <~ primitive_wait_for_notification t notif lock;;
  primitive_release_simple_lock t lock;;; Ret r.

Definition awaiting_timed (lock notif : Z) : prog :=
  t <~ make_teb;; primitive_wait_for_simple_lock t lock;;;
  r <~ primitive_wait_for_notification_timed no_time t notif lock (I 100);;
  primitive_release_simple_lock t lock;;; Ret r.

Definition releasing (lock notif : Z) : prog :=
  t <~ make_teb;; primitive_wait_for_simple_lock t lock;;;
  r <~ primitive_release_notification t notif lock;;
  primitive_release_simple_lock t lock;;; Ret r.

(** Threads 1 and 2 wait, the latter with a timeout, and thread 3 releases the
    notification; then thread 4 waits and thread 5 releases. *)
Definition lost_signal : prog :=
  with_notification (λ lock notif,
    Fork (awaiting lock notif);;; Fork (awaiting_timed lock notif);;; Fork (releasing lock notif);;;
    Fork (awaiting lock notif);;; Fork (releasing lock notif);;; Ret OK).

(** Thread 1 is woken and counts itself off; thread 2 runs out of time, finds nobody left
    and rearms the notification.  The last release, of thread 5, signals thread 4, and
    then thread 1 rearms the notification. *)
Definition lost_signal_schedule : list nat :=
  replicate 48 0%nat ++ replicate 60 1%nat ++ replicate 71 2%nat ++ replicate 71 3%nat ++
  replicate 11 1%nat ++ replicate 45 2%nat ++ replicate 80 4%nat ++ replicate 71 5%nat ++
  replicate 36 1%nat ++ replicate 39 4%nat.

(** The releases returned [OK], the lock is free, and thread 4 waits for ever. *)
Lemma lost_signal_waits_forever n :
  ∃ ps s, run_schedule (lost_signal_schedule ++ concat (replicate n (replicate 4 4%nat)))
      ([lost_signal], empty_cstate) = Some (ps, s) ∧
    (prog_to_val <$> ps, cmem s !! slock_lock_count the_slock) =
      ([Some OK; Some OK; Some TIMEOUT; Some OK; None; Some OK], Some (-1)).
Proof.
  rewrite (run_schedule_spins _ 4 2) by (vm_compute; reflexivity).
  apply (observe_schedule (λ r, (prog_to_val <$> r.1, cmem r.2 !! slock_lock_count the_slock))).
  vm_compute. reflexivity.
Qed.
