(* ===== verification/NubOS.v ===== *)
(** * Windows, as the debugger nub uses it

    The nub (src/sources/runtime-manager/debugger-nub/x86-win32) watches a process
    through the debugging functions of Win32.  They are not part of the program: the
    class [Windows] lists those the nub calls, on a world [W] that holds the process
    it debugs, and [WindowsLaws] states of them what their documentation says and the
    nub relies on.  Handles, identifiers and addresses are numbers of 32 bits.

    A context is read and written as a whole: the nub writes back, for a thread that
    is stopped, a context that it has just read with the same [ContextFlags]. Windows
    corrects it without a word: of the flags, only the trap flag is sure to be kept, and
    nothing is of the segments. *)

From S2P Require Import Prelude.
From stdpp Require Import base tactics option list numbers gmap sets.
From Stdlib Require Import ZArith Lia.

Local Open Scope Z_scope.

(** ** Data *)

(** [CONTEXT]; [RegisterArea] is the one of [FloatSave], 80 bytes. *)
Record context := mkContext {
  Eax : Z; Edx : Z; Ecx : Z; Ebx : Z; Ebp : Z; Esi : Z; Edi : Z;
  Esp : Z; Eip : Z; EFlags : Z;
  SegCs : Z; SegDs : Z; SegSs : Z; SegEs : Z; SegFs : Z; SegGs : Z;
  RegisterArea : list Z
}.

Definition set_Esp (x : Z) (c : context) : context :=
  mkContext (Eax c) (Edx c) (Ecx c) (Ebx c) (Ebp c) (Esi c) (Edi c) x (Eip c) (EFlags c)
    (SegCs c) (SegDs c) (SegSs c) (SegEs c) (SegFs c) (SegGs c) (RegisterArea c).
Definition set_Eip (x : Z) (c : context) : context :=
  mkContext (Eax c) (Edx c) (Ecx c) (Ebx c) (Ebp c) (Esi c) (Edi c) (Esp c) x (EFlags c)
    (SegCs c) (SegDs c) (SegSs c) (SegEs c) (SegFs c) (SegGs c) (RegisterArea c).
Definition set_EFlags (x : Z) (c : context) : context :=
  mkContext (Eax c) (Edx c) (Ecx c) (Ebx c) (Ebp c) (Esi c) (Edi c) (Esp c) (Eip c) x
    (SegCs c) (SegDs c) (SegSs c) (SegEs c) (SegFs c) (SegGs c) (RegisterArea c).

(** [DEBUG_EVENT]: the union by the kinds of [dwDebugEventCode]. *)
Inductive event_information :=
| Exception (ExceptionCode ExceptionAddress dwFirstChance : Z) (ExceptionInformation : list Z)
| CreateThread (hThread lpStartAddress lpThreadLocalBase : Z)
| CreateProcessInfo (hFile hThread lpBaseOfImage lpThreadLocalBase
    dwDebugInfoFileOffset nDebugInfoSize lpImageName fUnicode : Z)
| ExitThread (dwExitCode : Z)
| ExitProcess (dwExitCode : Z)
| LoadDll (hFile lpBaseOfDll dwDebugInfoFileOffset nDebugInfoSize lpImageName fUnicode : Z)
| UnloadDll (lpBaseOfDll : Z)
| DebugString (lpDebugStringData fUnicode nDebugStringLength : Z)
| RipInfo
| OtherEvent.

Record debug_event := mkEvent {
  dwProcessId : Z;
  dwThreadId : Z;
  information : event_information
}.

(** [STACKFRAME], the fields in use *)
Record stackframe := mkFrame {
  AddrPC : Z; AddrStack : Z; AddrFrame : Z; AddrReturn : Z
}.

(** The constants of the Win32 headers *)
Definition DBG_CONTINUE : Z := 65538.
Definition DBG_EXCEPTION_NOT_HANDLED : Z := 2147549185.
Definition INFINITE : Z := 4294967295.

Definition EXCEPTION_ACCESS_VIOLATION : Z := 3221225477.
Definition EXCEPTION_ARRAY_BOUNDS_EXCEEDED : Z := 3221225612.
Definition EXCEPTION_FLT_DENORMAL_OPERAND : Z := 3221225613.
Definition EXCEPTION_FLT_DIVIDE_BY_ZERO : Z := 3221225614.
Definition EXCEPTION_FLT_INEXACT_RESULT : Z := 3221225615.
Definition EXCEPTION_FLT_INVALID_OPERATION : Z := 3221225616.
Definition EXCEPTION_FLT_OVERFLOW : Z := 3221225617.
Definition EXCEPTION_FLT_STACK_CHECK : Z := 3221225618.
Definition EXCEPTION_FLT_UNDERFLOW : Z := 3221225619.
Definition EXCEPTION_ILLEGAL_INSTRUCTION : Z := 3221225501.
Definition EXCEPTION_PRIV_INSTRUCTION : Z := 3221225622.
Definition EXCEPTION_BREAKPOINT : Z := 2147483651.
Definition EXCEPTION_SINGLE_STEP : Z := 2147483652.
Definition EXCEPTION_INT_OVERFLOW : Z := 3221225621.
Definition EXCEPTION_STACK_OVERFLOW : Z := 3221225725.

(** ** The functions *)

(** Reading and writing memory transfers everything or fails.  [SuspendThread] and
    [ResumeThread] answer the previous count, or -1.  [WaitForDebugEvent] takes a
    number of milliseconds or [INFINITE], and answers no event when that is over. *)
Class Windows (W : Type) := {
  ReadProcessMemory : Z → nat → W → option (list Z);
  WriteProcessMemory : Z → list Z → W → bool * W;
  GetThreadContext : Z → W → option context;
  SetThreadContext : Z → context → W → bool * W;
  SuspendThread : Z → W → Z * W;
  ResumeThread : Z → W → Z * W;
  ContinueDebugEvent : Z → Z → Z → W → bool * W;
  WaitForDebugEvent : Z → W → option debug_event * W;
  GetSystemTimeAsFileTime : W → Z * W;
  StackWalk : Z → stackframe → context → W → bool * stackframe * context;
  SymInitialize : W → bool * W;
  SymCleanup : W → W;
  SetEvent : Z → W → W;
  TerminateProcess : W → W
}.

(** ** The threads of a process, by its events *)

Definition is_create_thread (e : debug_event) : bool :=
  match information e with CreateThread _ _ _ => true | _ => false end.

Section alive.
Context (pid main : Z).

Definition alive_after (A : gset Z) (e : debug_event) : gset Z :=
  if dwProcessId e =? pid then
    match information e with
    | CreateThread _ _ _ => {[dwThreadId e]} ∪ A
    | ExitThread _ => A ∖ {[dwThreadId e]}
    | _ => A
    end
  else A.
Definition alive (l : list debug_event) : gset Z := foldl alive_after ∅ l.

(** The thread of the event is [main], the one the process starts with, or another that
    was made before. *)
Definition known (l : list debug_event) (e : debug_event) : Prop :=
  dwThreadId e = main ∨ dwThreadId e ∈ alive l ∨ is_create_thread e = true.

End alive.

(** ** What the nub relies on *)

Section bytes.

(** The bytes at an address *)
Fixpoint bytes_at (m : gmap Z Z) (a : Z) (n : nat) : option (list Z) :=
  match n with
  | O => Some []
  | S n => b ← m !! a; l ← bytes_at m (a + 1) n; Some (b :: l)
  end.

Fixpoint put_bytes (m : gmap Z Z) (a : Z) (l : list Z) : gmap Z Z :=
  match l with
  | [] => m
  | b :: l => put_bytes (<[a := b]> m) (a + 1) l
  end.

(** Little-endian numbers *)
Fixpoint little_endian (l : list Z) : Z :=
  match l with [] => 0 | b :: l => b + 256 * little_endian l end.

Fixpoint bytes_of (n : nat) (x : Z) : list Z :=
  match n with O => [] | S n => x mod 256 :: bytes_of n (x / 256) end.

End bytes.

(** What is left of a context [c] that was set: the general registers, the stack and
    instruction pointers, the floating-point registers and the trap flag, which is bit 8
    of the flags. *)
Record accepted (c c' : context) : Prop := {
  accepted_general : Eax c' = Eax c ∧ Edx c' = Edx c ∧ Ecx c' = Ecx c ∧ Ebx c' = Ebx c ∧
    Ebp c' = Ebp c ∧ Esi c' = Esi c ∧ Edi c' = Edi c;
  accepted_Esp : Esp c' = Esp c;
  accepted_Eip : Eip c' = Eip c;
  accepted_trap : Z.testbit (EFlags c') 8 = Z.testbit (EFlags c) 8;
  accepted_floats : RegisterArea c' = RegisterArea c
}.

#[export] Instance accepted_preorder : PreOrder accepted.
Proof.
  split; [by intros c|]. intros c1 c2 c3 [(?&?&?&?&?&?&?) ????] [(?&?&?&?&?&?&?) ????].
  split; [split_and!|..]; congruence.
Qed.

(** [memory] and [contexts]: the memory of the process and the contexts of its threads
    by their handles.  [writable]: the addresses its protection lets the debugger write.
    [received] and [continued]: the events reported so far, and the calls of
    [ContinueDebugEvent] so far.  [text] is memory that the process does not write
    itself but the debugger can, like its code; the rest may change whenever a thread
    runs. *)
Class WindowsLaws (W : Type) `{Windows W} := {
  memory : W → gmap Z Z;
  contexts : W → gmap Z context;
  received : W → list debug_event;
  continued : W → list (Z * Z * Z);
  writable : W → Z → Prop;
  text : Z → Prop;

  read_memory a n w : ReadProcessMemory a n w = bytes_at (memory w) a n;
  write_memory a l w :
    (∀ b, a <= b < a + length l → is_Some (memory w !! b) ∧ writable w b) →
    (WriteProcessMemory a l w).1 = true ∧
    memory (WriteProcessMemory a l w).2 = put_bytes (memory w) a l;
  write_refused a l w b :
    a <= b < a + length l → ¬ (is_Some (memory w !! b) ∧ writable w b) →
    (WriteProcessMemory a l w).1 = false ∧ memory (WriteProcessMemory a l w).2 = memory w;
  text_writable w a : text a → is_Some (memory w !! a) → writable w a;
  write_contexts a l w : contexts (WriteProcessMemory a l w).2 = contexts w;
  write_received a l w : received (WriteProcessMemory a l w).2 = received w;
  write_continued a l w : continued (WriteProcessMemory a l w).2 = continued w;

  get_context h w : GetThreadContext h w = contexts w !! h;
  set_context h c w : is_Some (contexts w !! h) →
    (SetThreadContext h c w).1 = true ∧
    ∃ c', contexts (SetThreadContext h c w).2 = <[h := c']> (contexts w) ∧ accepted c c';
  set_context_memory h c w : memory (SetThreadContext h c w).2 = memory w;
  set_context_received h c w : received (SetThreadContext h c w).2 = received w;
  set_context_continued h c w : continued (SetThreadContext h c w).2 = continued w;

  suspend_memory h w : memory (SuspendThread h w).2 = memory w;
  suspend_received h w : received (SuspendThread h w).2 = received w;
  suspend_continued h w : continued (SuspendThread h w).2 = continued w;
  resume_text h w a : text a → memory (ResumeThread h w).2 !! a = memory w !! a;
  resume_received h w : received (ResumeThread h w).2 = received w;
  resume_continued h w : continued (ResumeThread h w).2 = continued w;

  continue_text p t x w a : text a → memory (ContinueDebugEvent p t x w).2 !! a = memory w !! a;
  continue_received p t x w : received (ContinueDebugEvent p t x w).2 = received w;
  continue_continued p t x w :
    continued (ContinueDebugEvent p t x w).2 = continued w ++ [(p, t, x)];

  wait_text n w a : text a → memory (WaitForDebugEvent n w).2 !! a = memory w !! a;
  wait_received n w :
    received (WaitForDebugEvent n w).2 = received w ++ option_list (WaitForDebugEvent n w).1;
  wait_continued n w : continued (WaitForDebugEvent n w).2 = continued w;

  time_memory w : memory (GetSystemTimeAsFileTime w).2 = memory w;
  time_received w : received (GetSystemTimeAsFileTime w).2 = received w;
  time_continued w : continued (GetSystemTimeAsFileTime w).2 = continued w;
  symbols_memory w : memory (SymInitialize w).2 = memory w ∧ memory (SymCleanup w) = memory w;
  symbols_received w :
    received (SymInitialize w).2 = received w ∧ received (SymCleanup w) = received w;
  symbols_continued w :
    continued (SymInitialize w).2 = continued w ∧ continued (SymCleanup w) = continued w;
  set_event_memory h w : memory (SetEvent h w) = memory w;
  set_event_received h w : received (SetEvent h w) = received w;
  set_event_continued h w : continued (SetEvent h w) = continued w
}.
