(* ===== verification/Nub.v ===== *)
(** * The state of the debugger nub

    [nub-core.h]: the descriptors of the process that is debugged, of its threads and of
    its breakpoints, as records; a descriptor in C memory has an address, under which
    it is found until it is freed.  A linked list is the list of the addresses of its
    nodes.  The state holds the world of [NubOS.v] as well.

    What concerns symbols and images, and the names of threads and libraries, is left
    out. *)

From S2P Require Import Prelude Effects NubOS.
From stdpp Require Import base tactics option list numbers gmap.
From Stdlib Require Import ZArith Lia.

Local Open Scope Z_scope.

(** Kinds of debug points and of breakpoints *)

Definition DBG_POINT_BREAKPOINT : Z := 1.
Definition APPLICATION_BREAKPOINT : Z := 3.
Definition INTERNAL_BREAKPOINT : Z := 4.
Definition UNKNOWN_BREAKPOINT : Z := 5.
Definition CAPTURE_STEP_OUT_BREAKPOINT : Z := 7.
Definition CAPTURE_STEP_OVER_BREAKPOINT : Z := 8.
Definition CAPTURE_STEP_INTO_BREAKPOINT : Z := 9.
Definition BREAKPOINT_OUT_OF_CONTEXT : Z := 10.

(** States of the application *)

Definition STOPPED_BY_COMMAND : Z := 1.
Definition STOPPED_BY_EVENT : Z := 2.
Definition RUNNING : Z := 3.
Definition UNSTARTED : Z := 4.
Definition DEAD : Z := 5.
Definition STOPPED_AT_BREAKPOINT : Z := 7.

(** States of a thread while the application is stopped *)

Definition THREAD_FROZEN : Z := 1.
Definition THREAD_DEAD : Z := 0.
Definition THREAD_STOPPED_BY_DEBUGGER : Z := 2.
Definition THREAD_STOPPED_AT_KNOWN_BREAKPOINT : Z := 3.
Definition THREAD_STOPPED_AT_FIRST_CHANCE_EXCEPTION : Z := 4.
Definition THREAD_STOPPED_AT_SECOND_CHANCE_EXCEPTION : Z := 5.
Definition THREAD_STOPPED_AT_DEBUG_EVENT : Z := 6.
Definition THREAD_INVOKED_DEBUGGER : Z := 7.

(** Stop reasons *)

Definition TIMED_OUT : Z := 0.
Definition TIMED_OUT_HANDLED : Z := 32.
Definition TIMED_OUT_UNHANDLED : Z := 33.
Definition ACCESS_VIOLATION_EXCEPTION_DBG_EVENT : Z := 1.
Definition ARRAY_BOUNDS_EXCEPTION_DBG_EVENT : Z := 2.
Definition ILLEGAL_INSTRUCTION_EXCEPTION_DBG_EVENT : Z := 3.
Definition PRIVILEGED_INSTRUCTION_EXCEPTION_DBG_EVENT : Z := 4.
Definition DENORMAL_EXCEPTION_DBG_EVENT : Z := 5.
Definition FLOAT_DIVIDE_BY_ZERO_EXCEPTION_DBG_EVENT : Z := 6.
Definition INEXACT_RESULT_EXCEPTION_DBG_EVENT : Z := 7.
Definition INVALID_OPERATION_EXCEPTION_DBG_EVENT : Z := 8.
Definition FLOAT_OVERFLOW_EXCEPTION_DBG_EVENT : Z := 9.
Definition FLOAT_UNDERFLOW_EXCEPTION_DBG_EVENT : Z := 10.
Definition FLOAT_STACK_CHECK_EXCEPTION_DBG_EVENT : Z := 11.
Definition INTEGER_DIVIDE_BY_ZERO_EXCEPTION_DBG_EVENT : Z := 12.
Definition NONCONTINUABLE_EXCEPTION_DBG_EVENT : Z := 13.
Definition BREAKPOINT_EXCEPTION_DBG_EVENT : Z := 14.
Definition HARD_CODED_BREAKPOINT_DBG_EVENT : Z := 15.
Definition SINGLE_STEP_DBG_EVENT : Z := 16.
Definition CREATE_PROCESS_DBG_EVENT : Z := 17.
Definition EXIT_PROCESS_DBG_EVENT : Z := 18.
Definition CREATE_THREAD_DBG_EVENT : Z := 19.
Definition EXIT_THREAD_DBG_EVENT : Z := 20.
Definition LOAD_DLL_DBG_EVENT : Z := 21.
Definition UNLOAD_DLL_DBG_EVENT : Z := 22.
Definition RIP_DBG_EVENT : Z := 23.
Definition OUTPUT_DEBUG_STRING_DBG_EVENT : Z := 24.
Definition UNCLASSIFIED_DBG_EVENT : Z := 26.
Definition INTEGER_OVERFLOW_EXCEPTION_DBG_EVENT : Z := 27.
Definition STACK_OVERFLOW_EXCEPTION_DBG_EVENT : Z := 28.
Definition SOURCE_STEP_OVER_DBG_EVENT : Z := 29.
Definition SOURCE_STEP_OUT_DBG_EVENT : Z := 30.
Definition SOURCE_STEP_INTO_DBG_EVENT : Z := 31.
Definition FILTER_HANDLED_DBG_EVENT : Z := 35.
Definition FILTER_UNHANDLED_DBG_EVENT : Z := 36.
Definition SPY_RETURN_DBG_EVENT : Z := 37.

(** Ways to continue, and to wait *)

Definition EXCEPTIONS_HANDLED : Z := 1.
Definition EXCEPTIONS_UNHANDLED : Z := 2.
Definition STOP_REASON_WAIT_NORMAL : Z := 1.
Definition STOP_REASON_WAIT_SPY : Z := 2.

(** Answers *)

Definition ACCESS_VIOLATION_ERROR : Z := 1.
Definition ACCESS_OK : Z := 0.
Definition NOT_SUPPORTED : Z := 0.
Definition BREAKPOINT_ALREADY_EXISTS : Z := 1.
Definition BREAKPOINT_DOES_NOT_EXIST : Z := 2.
Definition BREAKPOINT_WAS_DISABLED : Z := 8.

(** Platforms, and limits *)

Definition PLATFORM_WINDOWS_NT : Z := 1.
Definition PLATFORM_WINDOWS_95 : Z := 2.
Definition STACK_TRACE_MAX_SIZE : Z := 512.

Definition OK : Z := 7.

(** ** Descriptors

    [DEBUG_POINT] with its [DBGBREAKPOINT]; watchpoints are not supported.
    [SavedCodeSegment] is [None] before it is written. *)

Record debug_point := mkPoint {
  DebugPointType : Z;
  Type_ : Z;
  Address : Z;
  BreakpointEnabled : bool;
  SavedCodeSegment : option Z;
  BreakpointThread : Z;
  FramePointerContext : Z;
  CallingFramePointerContext : Z
}.

Definition set_BreakpointEnabled (x : bool) (r : debug_point) : debug_point :=
  mkPoint (DebugPointType r) (Type_ r) (Address r) x (SavedCodeSegment r) (BreakpointThread r)
    (FramePointerContext r) (CallingFramePointerContext r).
Definition set_SavedCodeSegment (x : option Z) (r : debug_point) : debug_point :=
  mkPoint (DebugPointType r) (Type_ r) (Address r) (BreakpointEnabled r) x (BreakpointThread r)
    (FramePointerContext r) (CallingFramePointerContext r).

(** [DBGTHREAD].  [ThreadContext] is a null pointer or [CachedThreadContext]; the
    four vectors of the stack trace are one, a map from indices: what a trace does not
    reach keeps its value. *)

Record dbgthread := mkThread {
  ThreadHandle : Z;
  ThreadID : Z;
  ThreadContext : bool;
  CachedThreadContext : option context;
  StackTraceValid : bool;
  StackTraceSize : Z;
  StackTrace : gmap Z stackframe;
  Valid : bool;
  WaitingForDebugger : bool;
  SingleStepping : bool;
  NeedsBreakpointReplacement : bool;
  AddressOfSpyBreakpoint : Z;
  BreakpointToReplace : Z;
  SteppingCaptureBreakpoints : list Z;
  StoppedState : Z;
  LastReceivedEvent : option debug_event;
  NubCodeOfLastEvent : Z
}.

Definition set_ThreadHandle (x : Z) (r : dbgthread) : dbgthread :=
  mkThread x (ThreadID r) (ThreadContext r) (CachedThreadContext r) (StackTraceValid r)
    (StackTraceSize r) (StackTrace r) (Valid r) (WaitingForDebugger r) (SingleStepping r)
    (NeedsBreakpointReplacement r) (AddressOfSpyBreakpoint r) (BreakpointToReplace r)
    (SteppingCaptureBreakpoints r) (StoppedState r) (LastReceivedEvent r) (NubCodeOfLastEvent
    r).
Definition set_ThreadID (x : Z) (r : dbgthread) : dbgthread :=
  mkThread (ThreadHandle r) x (ThreadContext r) (CachedThreadContext r) (StackTraceValid r)
    (StackTraceSize r) (StackTrace r) (Valid r) (WaitingForDebugger r) (SingleStepping r)
    (NeedsBreakpointReplacement r) (AddressOfSpyBreakpoint r) (BreakpointToReplace r)
    (SteppingCaptureBreakpoints r) (StoppedState r) (LastReceivedEvent r) (NubCodeOfLastEvent
    r).
Definition set_ThreadContext (x : bool) (r : dbgthread) : dbgthread :=
  mkThread (ThreadHandle r) (ThreadID r) x (CachedThreadContext r) (StackTraceValid r)
    (StackTraceSize r) (StackTrace r) (Valid r) (WaitingForDebugger r) (SingleStepping r)
    (NeedsBreakpointReplacement r) (AddressOfSpyBreakpoint r) (BreakpointToReplace r)
    (SteppingCaptureBreakpoints r) (StoppedState r) (LastReceivedEvent r) (NubCodeOfLastEvent
    r).
Definition set_CachedThreadContext (x : option context) (r : dbgthread) : dbgthread :=
  mkThread (ThreadHandle r) (ThreadID r) (ThreadContext r) x (StackTraceValid r) (StackTraceSize
    r) (StackTrace r) (Valid r) (WaitingForDebugger r) (SingleStepping r)
    (NeedsBreakpointReplacement r) (AddressOfSpyBreakpoint r) (BreakpointToReplace r)
    (SteppingCaptureBreakpoints r) (StoppedState r) (LastReceivedEvent r) (NubCodeOfLastEvent
    r).
Definition set_StackTraceValid (x : bool) (r : dbgthread) : dbgthread :=
  mkThread (ThreadHandle r) (ThreadID r) (ThreadContext r) (CachedThreadContext r) x
    (StackTraceSize r) (StackTrace r) (Valid r) (WaitingForDebugger r) (SingleStepping r)
    (NeedsBreakpointReplacement r) (AddressOfSpyBreakpoint r) (BreakpointToReplace r)
    (SteppingCaptureBreakpoints r) (StoppedState r) (LastReceivedEvent r) (NubCodeOfLastEvent
    r).
Definition set_StackTraceSize (x : Z) (r : dbgthread) : dbgthread :=
  mkThread (ThreadHandle r) (ThreadID r) (ThreadContext r) (CachedThreadContext r)
    (StackTraceValid r) x (StackTrace r) (Valid r) (WaitingForDebugger r) (SingleStepping r)
    (NeedsBreakpointReplacement r) (AddressOfSpyBreakpoint r) (BreakpointToReplace r)
    (SteppingCaptureBreakpoints r) (StoppedState r) (LastReceivedEvent r) (NubCodeOfLastEvent
    r).
Definition set_StackTrace (x : gmap Z stackframe) (r : dbgthread) : dbgthread :=
  mkThread (ThreadHandle r) (ThreadID r) (ThreadContext r) (CachedThreadContext r)
    (StackTraceValid r) (StackTraceSize r) x (Valid r) (WaitingForDebugger r) (SingleStepping r)
    (NeedsBreakpointReplacement r) (AddressOfSpyBreakpoint r) (BreakpointToReplace r)
    (SteppingCaptureBreakpoints r) (StoppedState r) (LastReceivedEvent r) (NubCodeOfLastEvent
    r).
Definition set_Valid (x : bool) (r : dbgthread) : dbgthread :=
  mkThread (ThreadHandle r) (ThreadID r) (ThreadContext r) (CachedThreadContext r)
    (StackTraceValid r) (StackTraceSize r) (StackTrace r) x (WaitingForDebugger r)
    (SingleStepping r) (NeedsBreakpointReplacement r) (AddressOfSpyBreakpoint r)
    (BreakpointToReplace r) (SteppingCaptureBreakpoints r) (StoppedState r) (LastReceivedEvent
    r) (NubCodeOfLastEvent r).
Definition set_WaitingForDebugger (x : bool) (r : dbgthread) : dbgthread :=
  mkThread (ThreadHandle r) (ThreadID r) (ThreadContext r) (CachedThreadContext r)
    (StackTraceValid r) (StackTraceSize r) (StackTrace r) (Valid r) x (SingleStepping r)
    (NeedsBreakpointReplacement r) (AddressOfSpyBreakpoint r) (BreakpointToReplace r)
    (SteppingCaptureBreakpoints r) (StoppedState r) (LastReceivedEvent r) (NubCodeOfLastEvent
    r).
Definition set_SingleStepping (x : bool) (r : dbgthread) : dbgthread :=
  mkThread (ThreadHandle r) (ThreadID r) (ThreadContext r) (CachedThreadContext r)
    (StackTraceValid r) (StackTraceSize r) (StackTrace r) (Valid r) (WaitingForDebugger r) x
    (NeedsBreakpointReplacement r) (AddressOfSpyBreakpoint r) (BreakpointToReplace r)
    (SteppingCaptureBreakpoints r) (StoppedState r) (LastReceivedEvent r) (NubCodeOfLastEvent
    r).
Definition set_NeedsBreakpointReplacement (x : bool) (r : dbgthread) : dbgthread :=
  mkThread (ThreadHandle r) (ThreadID r) (ThreadContext r) (CachedThreadContext r)
    (StackTraceValid r) (StackTraceSize r) (StackTrace r) (Valid r) (WaitingForDebugger r)
    (SingleStepping r) x (AddressOfSpyBreakpoint r) (BreakpointToReplace r)
    (SteppingCaptureBreakpoints r) (StoppedState r) (LastReceivedEvent r) (NubCodeOfLastEvent
    r).
Definition set_AddressOfSpyBreakpoint (x : Z) (r : dbgthread) : dbgthread :=
  mkThread (ThreadHandle r) (ThreadID r) (ThreadContext r) (CachedThreadContext r)
    (StackTraceValid r) (StackTraceSize r) (StackTrace r) (Valid r) (WaitingForDebugger r)
    (SingleStepping r) (NeedsBreakpointReplacement r) x (BreakpointToReplace r)
    (SteppingCaptureBreakpoints r) (StoppedState r) (LastReceivedEvent r) (NubCodeOfLastEvent
    r).
Definition set_BreakpointToReplace (x : Z) (r : dbgthread) : dbgthread :=
  mkThread (ThreadHandle r) (ThreadID r) (ThreadContext r) (CachedThreadContext r)
    (StackTraceValid r) (StackTraceSize r) (StackTrace r) (Valid r) (WaitingForDebugger r)
    (SingleStepping r) (NeedsBreakpointReplacement r) (AddressOfSpyBreakpoint r) x
    (SteppingCaptureBreakpoints r) (StoppedState r) (LastReceivedEvent r) (NubCodeOfLastEvent
    r).
Definition set_SteppingCaptureBreakpoints (x : list Z) (r : dbgthread) : dbgthread :=
  mkThread (ThreadHandle r) (ThreadID r) (ThreadContext r) (CachedThreadContext r)
    (StackTraceValid r) (StackTraceSize r) (StackTrace r) (Valid r) (WaitingForDebugger r)
    (SingleStepping r) (NeedsBreakpointReplacement r) (AddressOfSpyBreakpoint r)
    (BreakpointToReplace r) x (StoppedState r) (LastReceivedEvent r) (NubCodeOfLastEvent r).
Definition set_StoppedState (x : Z) (r : dbgthread) : dbgthread :=
  mkThread (ThreadHandle r) (ThreadID r) (ThreadContext r) (CachedThreadContext r)
    (StackTraceValid r) (StackTraceSize r) (StackTrace r) (Valid r) (WaitingForDebugger r)
    (SingleStepping r) (NeedsBreakpointReplacement r) (AddressOfSpyBreakpoint r)
    (BreakpointToReplace r) (SteppingCaptureBreakpoints r) x (LastReceivedEvent r)
    (NubCodeOfLastEvent r).
Definition set_LastReceivedEvent (x : option debug_event) (r : dbgthread) : dbgthread :=
  mkThread (ThreadHandle r) (ThreadID r) (ThreadContext r) (CachedThreadContext r)
    (StackTraceValid r) (StackTraceSize r) (StackTrace r) (Valid r) (WaitingForDebugger r)
    (SingleStepping r) (NeedsBreakpointReplacement r) (AddressOfSpyBreakpoint r)
    (BreakpointToReplace r) (SteppingCaptureBreakpoints r) (StoppedState r) x
    (NubCodeOfLastEvent r).
Definition set_NubCodeOfLastEvent (x : Z) (r : dbgthread) : dbgthread :=
  mkThread (ThreadHandle r) (ThreadID r) (ThreadContext r) (CachedThreadContext r)
    (StackTraceValid r) (StackTraceSize r) (StackTrace r) (Valid r) (WaitingForDebugger r)
    (SingleStepping r) (NeedsBreakpointReplacement r) (AddressOfSpyBreakpoint r)
    (BreakpointToReplace r) (SteppingCaptureBreakpoints r) (StoppedState r) (LastReceivedEvent
    r) x.

(** [DBGPROCESS], with the descriptors in use and the world.  A library is its
    [ImageBase] and its [ImageFileHandle]; [ReceivingFirstChance] is the list of the
    codes for which that flag is set. *)

Record nub (W : Type) := mkNub {
  ProcessID : Z;
  State : Z;
  Platform : Z;
  ProcessAttached : bool;
  JITEventHandle : Z;
  SymbolHandlerWorking : bool;
  ThreadList : list Z;
  ThreadRunningSpy : Z;
  ThreadCreatedDuringSpyCall : Z;
  PendingEventThread : Z;
  LibraryList : list (Z * Z);
  DebugPointList : list Z;
  PendingEvent : option debug_event;
  EventQueue : list debug_event;
  ReceivingFirstChance : list Z;
  HardCodedBreakpointCounter : Z;
  LastActivationWallClockTime : Z;
  CumulativeWallClockTime : Z;
  ExitProcessFunction : Z;
  ExitingProcess : bool;
  threads : gmap Z dbgthread;
  points : gmap Z debug_point;
  free_address : Z;
  world : W
}.
Arguments mkNub {W}.
Arguments ProcessID {W}.
Arguments State {W}.
Arguments Platform {W}.
Arguments ProcessAttached {W}.
Arguments JITEventHandle {W}.
Arguments SymbolHandlerWorking {W}.
Arguments ThreadList {W}.
Arguments ThreadRunningSpy {W}.
Arguments ThreadCreatedDuringSpyCall {W}.
Arguments PendingEventThread {W}.
Arguments LibraryList {W}.
Arguments DebugPointList {W}.
Arguments PendingEvent {W}.
Arguments EventQueue {W}.
Arguments ReceivingFirstChance {W}.
Arguments HardCodedBreakpointCounter {W}.
Arguments LastActivationWallClockTime {W}.
Arguments CumulativeWallClockTime {W}.
Arguments ExitProcessFunction {W}.
Arguments ExitingProcess {W}.
Arguments threads {W}.
Arguments points {W}.
Arguments free_address {W}.
Arguments world {W}.

Definition set_State {W} (x : Z) (r : nub W) : nub W :=
  mkNub (ProcessID r) x (Platform r) (ProcessAttached r) (JITEventHandle r)
    (SymbolHandlerWorking r) (ThreadList r) (ThreadRunningSpy r) (ThreadCreatedDuringSpyCall r)
    (PendingEventThread r) (LibraryList r) (DebugPointList r) (PendingEvent r) (EventQueue r)
    (ReceivingFirstChance r) (HardCodedBreakpointCounter r) (LastActivationWallClockTime r)
    (CumulativeWallClockTime r) (ExitProcessFunction r) (ExitingProcess r) (threads r) (points
    r) (free_address r) (world r).
Definition set_JITEventHandle {W} (x : Z) (r : nub W) : nub W :=
  mkNub (ProcessID r) (State r) (Platform r) (ProcessAttached r) x (SymbolHandlerWorking r)
    (ThreadList r) (ThreadRunningSpy r) (ThreadCreatedDuringSpyCall r) (PendingEventThread r)
    (LibraryList r) (DebugPointList r) (PendingEvent r) (EventQueue r) (ReceivingFirstChance r)
    (HardCodedBreakpointCounter r) (LastActivationWallClockTime r) (CumulativeWallClockTime r)
    (ExitProcessFunction r) (ExitingProcess r) (threads r) (points r) (free_address r) (world
    r).
Definition set_SymbolHandlerWorking {W} (x : bool) (r : nub W) : nub W :=
  mkNub (ProcessID r) (State r) (Platform r) (ProcessAttached r) (JITEventHandle r) x
    (ThreadList r) (ThreadRunningSpy r) (ThreadCreatedDuringSpyCall r) (PendingEventThread r)
    (LibraryList r) (DebugPointList r) (PendingEvent r) (EventQueue r) (ReceivingFirstChance r)
    (HardCodedBreakpointCounter r) (LastActivationWallClockTime r) (CumulativeWallClockTime r)
    (ExitProcessFunction r) (ExitingProcess r) (threads r) (points r) (free_address r) (world
    r).
Definition set_ThreadList {W} (x : list Z) (r : nub W) : nub W :=
  mkNub (ProcessID r) (State r) (Platform r) (ProcessAttached r) (JITEventHandle r)
    (SymbolHandlerWorking r) x (ThreadRunningSpy r) (ThreadCreatedDuringSpyCall r)
    (PendingEventThread r) (LibraryList r) (DebugPointList r) (PendingEvent r) (EventQueue r)
    (ReceivingFirstChance r) (HardCodedBreakpointCounter r) (LastActivationWallClockTime r)
    (CumulativeWallClockTime r) (ExitProcessFunction r) (ExitingProcess r) (threads r) (points
    r) (free_address r) (world r).
Definition set_ThreadRunningSpy {W} (x : Z) (r : nub W) : nub W :=
  mkNub (ProcessID r) (State r) (Platform r) (ProcessAttached r) (JITEventHandle r)
    (SymbolHandlerWorking r) (ThreadList r) x (ThreadCreatedDuringSpyCall r) (PendingEventThread
    r) (LibraryList r) (DebugPointList r) (PendingEvent r) (EventQueue r) (ReceivingFirstChance
    r) (HardCodedBreakpointCounter r) (LastActivationWallClockTime r) (CumulativeWallClockTime
    r) (ExitProcessFunction r) (ExitingProcess r) (threads r) (points r) (free_address r) (world
    r).
Definition set_ThreadCreatedDuringSpyCall {W} (x : Z) (r : nub W) : nub W :=
  mkNub (ProcessID r) (State r) (Platform r) (ProcessAttached r) (JITEventHandle r)
    (SymbolHandlerWorking r) (ThreadList r) (ThreadRunningSpy r) x (PendingEventThread r)
    (LibraryList r) (DebugPointList r) (PendingEvent r) (EventQueue r) (ReceivingFirstChance r)
    (HardCodedBreakpointCounter r) (LastActivationWallClockTime r) (CumulativeWallClockTime r)
    (ExitProcessFunction r) (ExitingProcess r) (threads r) (points r) (free_address r) (world
    r).
Definition set_PendingEventThread {W} (x : Z) (r : nub W) : nub W :=
  mkNub (ProcessID r) (State r) (Platform r) (ProcessAttached r) (JITEventHandle r)
    (SymbolHandlerWorking r) (ThreadList r) (ThreadRunningSpy r) (ThreadCreatedDuringSpyCall r)
    x (LibraryList r) (DebugPointList r) (PendingEvent r) (EventQueue r) (ReceivingFirstChance
    r) (HardCodedBreakpointCounter r) (LastActivationWallClockTime r) (CumulativeWallClockTime
    r) (ExitProcessFunction r) (ExitingProcess r) (threads r) (points r) (free_address r) (world
    r).
Definition set_LibraryList {W} (x : list (Z * Z)) (r : nub W) : nub W :=
  mkNub (ProcessID r) (State r) (Platform r) (ProcessAttached r) (JITEventHandle r)
    (SymbolHandlerWorking r) (ThreadList r) (ThreadRunningSpy r) (ThreadCreatedDuringSpyCall r)
    (PendingEventThread r) x (DebugPointList r) (PendingEvent r) (EventQueue r)
    (ReceivingFirstChance r) (HardCodedBreakpointCounter r) (LastActivationWallClockTime r)
    (CumulativeWallClockTime r) (ExitProcessFunction r) (ExitingProcess r) (threads r) (points
    r) (free_address r) (world r).
Definition set_DebugPointList {W} (x : list Z) (r : nub W) : nub W :=
  mkNub (ProcessID r) (State r) (Platform r) (ProcessAttached r) (JITEventHandle r)
    (SymbolHandlerWorking r) (ThreadList r) (ThreadRunningSpy r) (ThreadCreatedDuringSpyCall r)
    (PendingEventThread r) (LibraryList r) x (PendingEvent r) (EventQueue r)
    (ReceivingFirstChance r) (HardCodedBreakpointCounter r) (LastActivationWallClockTime r)
    (CumulativeWallClockTime r) (ExitProcessFunction r) (ExitingProcess r) (threads r) (points
    r) (free_address r) (world r).
Definition set_PendingEvent {W} (x : option debug_event) (r : nub W) : nub W :=
  mkNub (ProcessID r) (State r) (Platform r) (ProcessAttached r) (JITEventHandle r)
    (SymbolHandlerWorking r) (ThreadList r) (ThreadRunningSpy r) (ThreadCreatedDuringSpyCall r)
    (PendingEventThread r) (LibraryList r) (DebugPointList r) x (EventQueue r)
    (ReceivingFirstChance r) (HardCodedBreakpointCounter r) (LastActivationWallClockTime r)
    (CumulativeWallClockTime r) (ExitProcessFunction r) (ExitingProcess r) (threads r) (points
    r) (free_address r) (world r).
Definition set_EventQueue {W} (x : list debug_event) (r : nub W) : nub W :=
  mkNub (ProcessID r) (State r) (Platform r) (ProcessAttached r) (JITEventHandle r)
    (SymbolHandlerWorking r) (ThreadList r) (ThreadRunningSpy r) (ThreadCreatedDuringSpyCall r)
    (PendingEventThread r) (LibraryList r) (DebugPointList r) (PendingEvent r) x
    (ReceivingFirstChance r) (HardCodedBreakpointCounter r) (LastActivationWallClockTime r)
    (CumulativeWallClockTime r) (ExitProcessFunction r) (ExitingProcess r) (threads r) (points
    r) (free_address r) (world r).
Definition set_ReceivingFirstChance {W} (x : list Z) (r : nub W) : nub W :=
  mkNub (ProcessID r) (State r) (Platform r) (ProcessAttached r) (JITEventHandle r)
    (SymbolHandlerWorking r) (ThreadList r) (ThreadRunningSpy r) (ThreadCreatedDuringSpyCall r)
    (PendingEventThread r) (LibraryList r) (DebugPointList r) (PendingEvent r) (EventQueue r) x
    (HardCodedBreakpointCounter r) (LastActivationWallClockTime r) (CumulativeWallClockTime r)
    (ExitProcessFunction r) (ExitingProcess r) (threads r) (points r) (free_address r) (world
    r).
Definition set_HardCodedBreakpointCounter {W} (x : Z) (r : nub W) : nub W :=
  mkNub (ProcessID r) (State r) (Platform r) (ProcessAttached r) (JITEventHandle r)
    (SymbolHandlerWorking r) (ThreadList r) (ThreadRunningSpy r) (ThreadCreatedDuringSpyCall r)
    (PendingEventThread r) (LibraryList r) (DebugPointList r) (PendingEvent r) (EventQueue r)
    (ReceivingFirstChance r) x (LastActivationWallClockTime r) (CumulativeWallClockTime r)
    (ExitProcessFunction r) (ExitingProcess r) (threads r) (points r) (free_address r) (world
    r).
Definition set_LastActivationWallClockTime {W} (x : Z) (r : nub W) : nub W :=
  mkNub (ProcessID r) (State r) (Platform r) (ProcessAttached r) (JITEventHandle r)
    (SymbolHandlerWorking r) (ThreadList r) (ThreadRunningSpy r) (ThreadCreatedDuringSpyCall r)
    (PendingEventThread r) (LibraryList r) (DebugPointList r) (PendingEvent r) (EventQueue r)
    (ReceivingFirstChance r) (HardCodedBreakpointCounter r) x (CumulativeWallClockTime r)
    (ExitProcessFunction r) (ExitingProcess r) (threads r) (points r) (free_address r) (world
    r).
Definition set_CumulativeWallClockTime {W} (x : Z) (r : nub W) : nub W :=
  mkNub (ProcessID r) (State r) (Platform r) (ProcessAttached r) (JITEventHandle r)
    (SymbolHandlerWorking r) (ThreadList r) (ThreadRunningSpy r) (ThreadCreatedDuringSpyCall r)
    (PendingEventThread r) (LibraryList r) (DebugPointList r) (PendingEvent r) (EventQueue r)
    (ReceivingFirstChance r) (HardCodedBreakpointCounter r) (LastActivationWallClockTime r) x
    (ExitProcessFunction r) (ExitingProcess r) (threads r) (points r) (free_address r) (world
    r).
Definition set_ExitProcessFunction {W} (x : Z) (r : nub W) : nub W :=
  mkNub (ProcessID r) (State r) (Platform r) (ProcessAttached r) (JITEventHandle r)
    (SymbolHandlerWorking r) (ThreadList r) (ThreadRunningSpy r) (ThreadCreatedDuringSpyCall r)
    (PendingEventThread r) (LibraryList r) (DebugPointList r) (PendingEvent r) (EventQueue r)
    (ReceivingFirstChance r) (HardCodedBreakpointCounter r) (LastActivationWallClockTime r)
    (CumulativeWallClockTime r) x (ExitingProcess r) (threads r) (points r) (free_address r)
    (world r).
Definition set_ExitingProcess {W} (x : bool) (r : nub W) : nub W :=
  mkNub (ProcessID r) (State r) (Platform r) (ProcessAttached r) (JITEventHandle r)
    (SymbolHandlerWorking r) (ThreadList r) (ThreadRunningSpy r) (ThreadCreatedDuringSpyCall r)
    (PendingEventThread r) (LibraryList r) (DebugPointList r) (PendingEvent r) (EventQueue r)
    (ReceivingFirstChance r) (HardCodedBreakpointCounter r) (LastActivationWallClockTime r)
    (CumulativeWallClockTime r) (ExitProcessFunction r) x (threads r) (points r) (free_address
    r) (world r).
Definition set_threads {W} (x : gmap Z dbgthread) (r : nub W) : nub W :=
  mkNub (ProcessID r) (State r) (Platform r) (ProcessAttached r) (JITEventHandle r)
    (SymbolHandlerWorking r) (ThreadList r) (ThreadRunningSpy r) (ThreadCreatedDuringSpyCall r)
    (PendingEventThread r) (LibraryList r) (DebugPointList r) (PendingEvent r) (EventQueue r)
    (ReceivingFirstChance r) (HardCodedBreakpointCounter r) (LastActivationWallClockTime r)
    (CumulativeWallClockTime r) (ExitProcessFunction r) (ExitingProcess r) x (points r)
    (free_address r) (world r).
Definition set_points {W} (x : gmap Z debug_point) (r : nub W) : nub W :=
  mkNub (ProcessID r) (State r) (Platform r) (ProcessAttached r) (JITEventHandle r)
    (SymbolHandlerWorking r) (ThreadList r) (ThreadRunningSpy r) (ThreadCreatedDuringSpyCall r)
    (PendingEventThread r) (LibraryList r) (DebugPointList r) (PendingEvent r) (EventQueue r)
    (ReceivingFirstChance r) (HardCodedBreakpointCounter r) (LastActivationWallClockTime r)
    (CumulativeWallClockTime r) (ExitProcessFunction r) (ExitingProcess r) (threads r) x
    (free_address r) (world r).
Definition set_free_address {W} (x : Z) (r : nub W) : nub W :=
  mkNub (ProcessID r) (State r) (Platform r) (ProcessAttached r) (JITEventHandle r)
    (SymbolHandlerWorking r) (ThreadList r) (ThreadRunningSpy r) (ThreadCreatedDuringSpyCall r)
    (PendingEventThread r) (LibraryList r) (DebugPointList r) (PendingEvent r) (EventQueue r)
    (ReceivingFirstChance r) (HardCodedBreakpointCounter r) (LastActivationWallClockTime r)
    (CumulativeWallClockTime r) (ExitProcessFunction r) (ExitingProcess r) (threads r) (points
    r) x (world r).
Definition set_world {W} (x : W) (r : nub W) : nub W :=
  mkNub (ProcessID r) (State r) (Platform r) (ProcessAttached r) (JITEventHandle r)
    (SymbolHandlerWorking r) (ThreadList r) (ThreadRunningSpy r) (ThreadCreatedDuringSpyCall r)
    (PendingEventThread r) (LibraryList r) (DebugPointList r) (PendingEvent r) (EventQueue r)
    (ReceivingFirstChance r) (HardCodedBreakpointCounter r) (LastActivationWallClockTime r)
    (CumulativeWallClockTime r) (ExitProcessFunction r) (ExitingProcess r) (threads r) (points
    r) (free_address r) x.

(** ** Access to the state *)

Section access.
Context {W : Type}.

Definition ask {A} (f : nub W → A) : St (nub W) A := s ← get_st; mret (f s).
Definition ask_world {A} (f : W → A) : St (nub W) A := ask (λ s, f (world s)).
Definition in_world {A} (f : W → A * W) : St (nub W) A :=
  r ← ask_world f; modify_st (set_world r.2) ;; mret r.1.

Definition get_thread (t : Z) : St (nub W) dbgthread := s ← get_st; lift_st (threads s !! t).
Definition upd_thread (t : Z) (f : dbgthread → dbgthread) : St (nub W) () :=
  d ← get_thread t; modify_st (λ s, set_threads (<[t := f d]> (threads s)) s).

Definition get_point (p : Z) : St (nub W) debug_point := s ← get_st; lift_st (points s !! p).
Definition upd_point (p : Z) (f : debug_point → debug_point) : St (nub W) () :=
  d ← get_point p; modify_st (λ s, set_points (<[p := f d]> (points s)) s).

(** [malloc], that never fails here, and [free] *)
Definition new_point (d : debug_point) : St (nub W) Z :=
  p ← ask free_address;
  modify_st (λ s, set_points (<[p := d]> (points s)) (set_free_address (p + 1) s)) ;;
  mret p.
Definition free_point (p : Z) : St (nub W) () :=
  get_point p ;; modify_st (λ s, set_points (delete p (points s)) s).

Definition new_thread_descriptor (d : dbgthread) : St (nub W) Z :=
  p ← ask free_address;
  modify_st (λ s, set_threads (<[p := d]> (threads s)) (set_free_address (p + 1) s)) ;;
  mret p.
Definition free_thread (t : Z) : St (nub W) () :=
  get_thread t ;; modify_st (λ s, set_threads (delete t (threads s)) s).

End access.
