(* ===== verification/NubPoints.v ===== *)
(** * Breakpoints of the debugger nub, and the threads they stop

    [debug_points.c], and from [app_control.c] and [stack_backtrace2.c] what it uses:
    the suspension of threads, their contexts and their stack traces. *)

From S2P Require Import Prelude Effects HeapTable NubOS Nub.
From stdpp Require Import base tactics option list numbers gmap.
From Stdlib Require Import ZArith Lia Bool.

Local Open Scope Z_scope.

Section nub.
Context {W : Type} `{!Windows W}.

Notation M := (St (nub W)).

(** ** Threads *)

Definition resume_thread (thread : Z) : M Z :=
  t ← get_thread thread;
  if negb (WaitingForDebugger t) then
    status ← in_world (ResumeThread (ThreadHandle t));
    when_ (status =? 1) (upd_thread thread (set_ThreadContext false)) ;;
    mret status
  else mret (-1).

(** The context cached at the last event of the thread becomes the active one. *)
Definition suspend_thread (thread : Z) : M Z :=
  t ← get_thread thread;
  if negb (WaitingForDebugger t) then
    status ← in_world (SuspendThread (ThreadHandle t));
    when_ (status =? 0) (upd_thread thread (λ t,
      set_ThreadContext (bool_decide (is_Some (CachedThreadContext t))) t)) ;;
    mret status
  else mret (-1).

Definition suspend_all_except (thread : Z) : M () :=
  l ← ask ThreadList;
  for_each l (λ t, when_ (negb (t =? thread)) (suspend_thread t ;; mret ())).
Definition suspend_all : M () :=
  l ← ask ThreadList; for_each l (λ t, suspend_thread t ;; mret ()).
Definition resume_all_except (thread : Z) : M () :=
  l ← ask ThreadList;
  for_each l (λ t, when_ (negb (t =? thread)) (resume_thread t ;; mret ())).
Definition resume_all : M () :=
  l ← ask ThreadList; for_each l (λ t, resume_thread t ;; mret ()).

(** The context of a thread, [None] when the call fails: that of Windows, or on
    Windows 95 the cached one for a thread that the last event was not for. *)
Definition get_thread_context (thread : Z) : M (option context) :=
  t ← get_thread thread;
  pending ← ask PendingEventThread;
  platform ← ask Platform;
  if (pending =? thread) || (platform =? PLATFORM_WINDOWS_NT) || negb (ThreadContext t)
  then ask_world (GetThreadContext (ThreadHandle t))
  else c ← lift_st (CachedThreadContext t); mret (Some c).

Definition set_thread_context (Cthread : Z) : M () :=
  t ← get_thread Cthread;
  c ← ask_world (GetThreadContext (ThreadHandle t));
  c ← lift_st c;
  upd_thread Cthread (set_CachedThreadContext (Some c)).

Definition thread_return_address (thread : Z) : M Z :=
  t ← get_thread thread;
  c ← ask_world (GetThreadContext (ThreadHandle t));
  match c with
  | None => mret 0
  | Some c =>
      r ← ask_world (ReadProcessMemory (Esp c) 4);
      match r with Some l => mret (little_endian l) | None => mret 0 end
  end.

(** ** Breakpoints in memory *)

Definition ValidatedWriteProcessMemory (a : Z) (l : list Z) : M bool :=
  in_world (WriteProcessMemory a l).

Definition primitive_drop_breakpoint (p address : Z) : M Z :=
  r ← ask_world (ReadProcessMemory address 1);
  match r with
  | Some [b] =>
      upd_point p (set_SavedCodeSegment (Some b)) ;;
      write_status ← ValidatedWriteProcessMemory address [204];
      if negb write_status then mret 0 else mret 1
  | _ => mret 0
  end.

Definition drop_breakpoint (p : Z) : M Z :=
  upd_point p (set_BreakpointEnabled true) ;;
  b ← get_point p;
  primitive_drop_breakpoint p (Address b).

Definition primitive_lift_breakpoint (address holder : Z) : M Z :=
  write_status ← ValidatedWriteProcessMemory address [holder];
  if negb write_status then mret 0 else mret 1.

Definition lift_breakpoint (p : Z) : M Z :=
  upd_point p (set_BreakpointEnabled false) ;;
  b ← get_point p;
  holder ← lift_st (SavedCodeSegment b);
  primitive_lift_breakpoint (Address b) holder.

(** ** Finding breakpoints *)

Fixpoint find_point (f : debug_point → bool) (l : list Z) : M Z :=
  match l with
  | [] => mret 0
  | p :: l => b ← get_point p; if f b then mret p else find_point f l
  end.

Definition at_address (address : Z) (b : debug_point) : bool :=
  (DebugPointType b =? DBG_POINT_BREAKPOINT) && (Address b =? address).

Definition breakpoint_from_address (address : Z) : M Z :=
  l ← ask DebugPointList; find_point (at_address address) l.

Definition stepping_capture_breakpoint_for_this_thread (thread address : Z) : M Z :=
  t ← get_thread thread; find_point (at_address address) (SteppingCaptureBreakpoints t).

Fixpoint find_in_threads (address : Z) (l : list Z) : M Z :=
  match l with
  | [] => mret 0
  | thread :: l =>
      p ← stepping_capture_breakpoint_for_this_thread thread address;
      if negb (p =? 0) then mret p else find_in_threads address l
  end.

Definition stepping_capture_breakpoint_for_any_thread (address : Z) : M Z :=
  l ← ask ThreadList; find_in_threads address l.

Definition application_breakpoint_exists (address : Z) : M bool :=
  candidate ← breakpoint_from_address address;
  if negb (candidate =? 0) then
    b ← get_point candidate; mret (Type_ b =? APPLICATION_BREAKPOINT)
  else mret false.

(** ** Stack traces *)

(** The loop over [StackWalk]; there are at most [STACK_TRACE_MAX_SIZE] frames, and
    [fuel] is more than are left.  The answer is their number. *)
Fixpoint walk_stack (fuel : nat) (thread handle counter fp_new : Z) (frame : stackframe)
    (c : context) : M Z :=
  r ← ask_world (StackWalk handle frame c);
  let status := r.1.1 in
  let frame := r.1.2 in
  let c := r.2 in
  let fp_in_hand := fp_new in
  let fp_new := AddrFrame frame in
  if (0 <? counter) && negb status then mret counter
  else if (0 <? counter) && (fp_new <=? fp_in_hand) then mret counter
  else if counter =? STACK_TRACE_MAX_SIZE then mret counter
  else
    upd_thread thread (λ t, set_StackTrace (<[counter := frame]> (StackTrace t)) t) ;;
    let counter := counter + 1 in
    if (status : bool) then
      match fuel with
      | O => undefined
      | S fuel => walk_stack fuel thread handle counter fp_new frame c
      end
    else mret counter.

Definition nub_initialize_stack_vectors (thread : Z) : M Z :=
  t ← get_thread thread;
  c ← ask_world (GetThreadContext (ThreadHandle t));
  counter ← (match c with
             | None => mret 0
             | Some c =>
                 walk_stack (Z.to_nat STACK_TRACE_MAX_SIZE) thread (ThreadHandle t) 0 0
                   (mkFrame (Eip c) (Esp c) (Ebp c) 0) c
             end);
  upd_thread thread (λ t, set_StackTraceValid true (set_StackTraceSize counter t)) ;;
  mret counter.

(** The vectors as they are copied out: frame pointers, instruction pointers and
    return addresses.  The loop goes up to the size less one, as an unsigned number: for
    an empty trace it does not end. *)
Definition nub_read_stack_vectors (thread : Z) : M (option (list (Z * Z * Z))) :=
  t ← get_thread thread;
  if negb (StackTraceValid t) then mret None
  else if StackTraceSize t =? 0 then undefined
  else
    l ← lift_st (mapM (λ i : nat, StackTrace t !! Z.of_nat i)
                   (seq 0 (Z.to_nat (StackTraceSize t))));
    mret (Some ((λ f, (AddrFrame f, AddrPC f, AddrReturn f)) <$> l)).

(** ** Stepping *)

Definition check_context_for_stepping_capture (thread bp : Z) : M bool :=
  b ← get_point bp;
  if BreakpointThread b =? thread then
    if Type_ b =? CAPTURE_STEP_INTO_BREAKPOINT then mret true
    else
      nub_initialize_stack_vectors thread ;;
      t ← get_thread thread;
      f0 ← lift_st (StackTrace t !! 0);
      if AddrFrame f0 =? FramePointerContext b then mret true
      else
        f1 ← lift_st (StackTrace t !! 1);
        mret (AddrFrame f1 =? CallingFramePointerContext b)
  else mret false.

(** Past the breakpoint instruction, which is one byte *)
Definition rewind_thread_eip (thread : Z) : M () :=
  t ← get_thread thread;
  c ← ask_world (GetThreadContext (ThreadHandle t));
  match c with
  | None => mret ()
  | Some c =>
      in_world (SetThreadContext (ThreadHandle t) (set_Eip (u32 (Eip c - 1)) c)) ;; mret ()
  end.

(** The trap flag *)
Definition trap_on (c : context) : context := set_EFlags (Z.lor (EFlags c) 256) c.
Definition trap_off (c : context) : context := set_EFlags (Z.land (EFlags c) 4294967039) c.

Definition prepare_to_single_step_for_breakpoint_recovery (thread : Z) : M () :=
  t ← get_thread thread;
  c ← ask_world (GetThreadContext (ThreadHandle t));
  match c with
  | None => mret ()
  | Some c => in_world (SetThreadContext (ThreadHandle t) (trap_on c)) ;; mret ()
  end.

Definition recover_from_breakpoint (thread : Z) : M () :=
  c ← get_thread_context thread;
  upd_thread thread (set_NeedsBreakpointReplacement false) ;;
  t ← get_thread thread;
  drop_breakpoint (BreakpointToReplace t) ;;
  c ← lift_st c;
  let c := if negb (SingleStepping t) then trap_off c else c in
  in_world (SetThreadContext (ThreadHandle t) c) ;; mret ().

Definition handle_application_breakpoint (thread breakpoint : Z) : M () :=
  lift_breakpoint breakpoint ;;
  rewind_thread_eip thread ;;
  exiting ← ask ExitingProcess;
  when_ (negb exiting)
    (prepare_to_single_step_for_breakpoint_recovery thread ;;
     upd_thread thread (λ t,
       set_BreakpointToReplace breakpoint (set_NeedsBreakpointReplacement true t))).

Definition handle_stepping_capture_breakpoint (thread breakpoint : Z) : M () :=
  lift_breakpoint breakpoint ;;
  rewind_thread_eip thread.

Definition handle_breakpoint_hit (thread address : Z) : M Z :=
  breakpoint ← stepping_capture_breakpoint_for_this_thread thread address;
  global_breakpoint ← breakpoint_from_address address;
  captured ← (if negb (breakpoint =? 0)
              then check_context_for_stepping_capture thread breakpoint else mret false);
  if (captured : bool) then
    b ← get_point breakpoint;
    handle_stepping_capture_breakpoint thread breakpoint ;;
    mret (Type_ b)
  else
    breakpoint ← stepping_capture_breakpoint_for_any_thread address;
    return_code ← (if negb (breakpoint =? 0) then
                     when_ (global_breakpoint =? 0) (handle_application_breakpoint thread breakpoint) ;;
                     mret BREAKPOINT_OUT_OF_CONTEXT
                   else mret UNKNOWN_BREAKPOINT);
    if negb (global_breakpoint =? 0) then
      handle_application_breakpoint thread global_breakpoint ;;
      mret APPLICATION_BREAKPOINT
    else mret return_code.

Definition add_stepping_capture_breakpoint_for_thread
    (thread address frame calling_frame type : Z) : M () :=
  t ← get_thread thread;
  step_point ← new_point
    (mkPoint DBG_POINT_BREAKPOINT type address false None thread frame calling_frame);
  upd_thread thread (set_SteppingCaptureBreakpoints (step_point :: SteppingCaptureBreakpoints t)) ;;
  drop_breakpoint step_point ;; mret ().

Definition lift_all_stepping_capture_breakpoints (thread : Z) : M () :=
  t ← get_thread thread;
  for_each (SteppingCaptureBreakpoints t) (λ p, lift_breakpoint p ;; free_point p) ;;
  upd_thread thread (set_SteppingCaptureBreakpoints []).

(** ** Breakpoints of the application *)

Definition set_application_breakpoint (address : Z) : M () :=
  abp ← new_point
    (mkPoint DBG_POINT_BREAKPOINT APPLICATION_BREAKPOINT address false None 0 0 0);
  modify_st (λ s, set_DebugPointList (DebugPointList s ++ [abp]) s) ;;
  drop_breakpoint abp ;; mret ().

(** A thread that waits to write the breakpoint back need not do so. *)
Definition forget_replacement (point thread : Z) : M () :=
  t ← get_thread thread;
  when_ (NeedsBreakpointReplacement t && (BreakpointToReplace t =? point))
    (upd_thread thread (set_NeedsBreakpointReplacement false) ;;
     when_ (negb (SingleStepping t))
       (c ← get_thread_context thread;
        c ← lift_st c;
        in_world (SetThreadContext (ThreadHandle t) (trap_off c)) ;; mret ())).

(** The loop over the debug points: the answer is what remains of the list. *)
Fixpoint clear_points (address : Z) (l : list Z) : M (list Z) :=
  match l with
  | [] => mret []
  | p :: l =>
      b ← get_point p;
      if (DebugPointType b =? DBG_POINT_BREAKPOINT) && (Type_ b =? APPLICATION_BREAKPOINT) &&
         (Address b =? address)
      then
        lift_breakpoint p ;;
        ts ← ask ThreadList;
        for_each ts (forget_replacement p) ;;
        free_point p ;;
        clear_points address l
      else
        l ← clear_points address l; mret (p :: l)
  end.

Definition clear_application_breakpoint (address : Z) : M () :=
  exiting ← ask ExitingProcess;
  when_ (negb exiting)
    (l ← ask DebugPointList;
     l ← clear_points address l;
     modify_st (set_DebugPointList l)).

(** ** The interface *)

Definition nub_set_breakpoint (address : Z) : M Z :=
  candidate ← breakpoint_from_address address;
  b ← (if negb (candidate =? 0) then b ← get_point candidate; mret (Some b) else mret None);
  match b with
  | Some b =>
      if Type_ b =? APPLICATION_BREAKPOINT then
        if BreakpointEnabled b then mret BREAKPOINT_ALREADY_EXISTS
        else drop_breakpoint candidate ;; mret BREAKPOINT_WAS_DISABLED
      else set_application_breakpoint address ;; mret OK
  | None => set_application_breakpoint address ;; mret OK
  end.

Definition nub_clear_breakpoint (address : Z) : M Z :=
  e ← application_breakpoint_exists address;
  if (e : bool) then clear_application_breakpoint address ;; mret OK
  else mret BREAKPOINT_DOES_NOT_EXIST.

Definition nub_query_breakpoint (address : Z) : M Z :=
  e ← application_breakpoint_exists address;
  if (e : bool) then mret 1 else mret 0.

Definition nub_set_watchpoint (address flag size : Z) : M Z := mret NOT_SUPPORTED.
Definition nub_clear_watchpoint (address flag size : Z) : M Z := mret NOT_SUPPORTED.

(** A location that the thread is at is left out: it could not go on. *)
Definition nub_set_stepping_control_on_thread (thread frame calling_frame : Z)
    (locations : list Z) (type : Z) : M Z :=
  t ← get_thread thread;
  c ← ask_world (GetThreadContext (ThreadHandle t));
  c ← lift_st c;
  for_each locations (λ a,
    when_ (negb (a =? Eip c))
      (add_stepping_capture_breakpoint_for_thread thread a frame calling_frame type)) ;;
  mret 1.

Definition nub_clear_stepping_control_on_thread (thread : Z) : M Z :=
  lift_all_stepping_capture_breakpoints thread ;; mret 1.

End nub.
