(* ===== verification/NubEvents.v ===== *)
(** * Debug events of the debugger nub

    [stop_reasons.c], the parts of [app_control.c] that continue and stop the
    application, and the descriptors of threads and libraries of [misc_utils.c].

    Loading symbols and the names of images is left out, and so are the queue's
    readers: [pop_debug_event] does nothing. *)

From S2P Require Import Prelude Effects HeapTable NubOS Nub NubPoints.
From stdpp Require Import base tactics option list numbers gmap.
From Stdlib Require Import ZArith Lia Bool.

Local Open Scope Z_scope.

(** ** Codes of events *)

Definition exception_to_nub_code (ExceptionCode : Z) : Z :=
  if ExceptionCode =? EXCEPTION_ACCESS_VIOLATION then ACCESS_VIOLATION_EXCEPTION_DBG_EVENT
  else if ExceptionCode =? EXCEPTION_ARRAY_BOUNDS_EXCEEDED then ARRAY_BOUNDS_EXCEPTION_DBG_EVENT
  else if ExceptionCode =? EXCEPTION_FLT_DENORMAL_OPERAND then DENORMAL_EXCEPTION_DBG_EVENT
  else if ExceptionCode =? EXCEPTION_FLT_DIVIDE_BY_ZERO then FLOAT_DIVIDE_BY_ZERO_EXCEPTION_DBG_EVENT
  else if ExceptionCode =? EXCEPTION_FLT_INEXACT_RESULT then INEXACT_RESULT_EXCEPTION_DBG_EVENT
  else if ExceptionCode =? EXCEPTION_FLT_INVALID_OPERATION then INVALID_OPERATION_EXCEPTION_DBG_EVENT
  else if ExceptionCode =? EXCEPTION_FLT_OVERFLOW then FLOAT_OVERFLOW_EXCEPTION_DBG_EVENT
  else if ExceptionCode =? EXCEPTION_FLT_UNDERFLOW then FLOAT_UNDERFLOW_EXCEPTION_DBG_EVENT
  else if ExceptionCode =? EXCEPTION_FLT_STACK_CHECK then FLOAT_STACK_CHECK_EXCEPTION_DBG_EVENT
  else if ExceptionCode =? EXCEPTION_ILLEGAL_INSTRUCTION then ILLEGAL_INSTRUCTION_EXCEPTION_DBG_EVENT
  else if ExceptionCode =? EXCEPTION_PRIV_INSTRUCTION then PRIVILEGED_INSTRUCTION_EXCEPTION_DBG_EVENT
  else if ExceptionCode =? EXCEPTION_BREAKPOINT then BREAKPOINT_EXCEPTION_DBG_EVENT
  else if ExceptionCode =? EXCEPTION_SINGLE_STEP then SINGLE_STEP_DBG_EVENT
  else if ExceptionCode =? EXCEPTION_INT_OVERFLOW then INTEGER_OVERFLOW_EXCEPTION_DBG_EVENT
  else if ExceptionCode =? EXCEPTION_STACK_OVERFLOW then STACK_OVERFLOW_EXCEPTION_DBG_EVENT
  else UNCLASSIFIED_DBG_EVENT.

Definition stop_reason_to_nub_code (e : event_information) : Z :=
  match e with
  | Exception code _ _ _ => exception_to_nub_code code
  | CreateThread _ _ _ => CREATE_THREAD_DBG_EVENT
  | ExitThread _ => EXIT_THREAD_DBG_EVENT
  | CreateProcessInfo _ _ _ _ _ _ _ _ => CREATE_PROCESS_DBG_EVENT
  | ExitProcess _ => EXIT_PROCESS_DBG_EVENT
  | LoadDll _ _ _ _ _ _ => LOAD_DLL_DBG_EVENT
  | UnloadDll _ => UNLOAD_DLL_DBG_EVENT
  | RipInfo => RIP_DBG_EVENT
  | DebugString _ _ _ => OUTPUT_DEBUG_STRING_DBG_EVENT
  | OtherEvent => UNCLASSIFIED_DBG_EVENT
  end.

(** The exceptions whose first chance the nub can report *)
Definition receivable_first_chance : list Z :=
  [ACCESS_VIOLATION_EXCEPTION_DBG_EVENT; ARRAY_BOUNDS_EXCEPTION_DBG_EVENT;
   ILLEGAL_INSTRUCTION_EXCEPTION_DBG_EVENT; PRIVILEGED_INSTRUCTION_EXCEPTION_DBG_EVENT;
   DENORMAL_EXCEPTION_DBG_EVENT; FLOAT_DIVIDE_BY_ZERO_EXCEPTION_DBG_EVENT;
   INEXACT_RESULT_EXCEPTION_DBG_EVENT; INVALID_OPERATION_EXCEPTION_DBG_EVENT;
   FLOAT_OVERFLOW_EXCEPTION_DBG_EVENT; FLOAT_UNDERFLOW_EXCEPTION_DBG_EVENT;
   FLOAT_STACK_CHECK_EXCEPTION_DBG_EVENT; INTEGER_DIVIDE_BY_ZERO_EXCEPTION_DBG_EVENT;
   NONCONTINUABLE_EXCEPTION_DBG_EVENT; BREAKPOINT_EXCEPTION_DBG_EVENT;
   HARD_CODED_BREAKPOINT_DBG_EVENT; SINGLE_STEP_DBG_EVENT;
   STACK_OVERFLOW_EXCEPTION_DBG_EVENT; UNCLASSIFIED_DBG_EVENT;
   INTEGER_OVERFLOW_EXCEPTION_DBG_EVENT].

Section nub.
Context {W : Type} `{!Windows W}.

Notation M := (St (nub W)).

Definition initialize_process_exception_information : M () :=
  modify_st (set_ReceivingFirstChance
    [BREAKPOINT_EXCEPTION_DBG_EVENT; HARD_CODED_BREAKPOINT_DBG_EVENT]).

Definition nub_can_receive_first_chance (code : Z) : Z :=
  if bool_decide (code ∈ receivable_first_chance) then 1 else 0.

Definition nub_set_first_chance (code : Z) : M () :=
  modify_st (λ s, set_ReceivingFirstChance (code :: ReceivingFirstChance s) s).
Definition nub_unset_first_chance (code : Z) : M () :=
  modify_st (λ s, set_ReceivingFirstChance
                    (filter (λ c, c ≠ code) (ReceivingFirstChance s)) s).

Definition nub_first_hard_coded_breakpoint : M Z :=
  n ← ask HardCodedBreakpointCounter; if n =? 1 then mret 1 else mret 0.

(** ** State of the application *)

(** In milliseconds; the conversion to [int] keeps the low bits. *)
Definition get_os_wall_clock_time : M Z :=
  t ← in_world GetSystemTimeAsFileTime; mret (s32 (t / 10000)).

Definition set_application_state (state : Z) : M Z :=
  current ← get_os_wall_clock_time;
  (if state =? RUNNING then modify_st (set_LastActivationWallClockTime current)
   else modify_st (λ s, set_CumulativeWallClockTime
          (s32 (CumulativeWallClockTime s + (current - LastActivationWallClockTime s))) s)) ;;
  modify_st (set_State state) ;;
  mret current.

Definition get_application_state : M Z := ask State.

(** ** The queue of made-up events *)

Definition push_debug_event (event : debug_event) : M bool :=
  modify_st (λ s, set_EventQueue (EventQueue s ++ [event]) s) ;; mret true.
Definition pop_debug_event : M bool := mret false.
Definition initialize_debug_event_queue : M () := modify_st (set_EventQueue []).
Definition clear_debug_event_queue : M () := modify_st (set_EventQueue []).
Definition nub_flush_all_stop_reasons : M () := clear_debug_event_queue.

(** ** Descriptors of threads and libraries *)

Fixpoint find_thread (f : dbgthread → bool) (l : list Z) (default : Z) : M Z :=
  match l with
  | [] => mret default
  | t :: l => d ← get_thread t; if f d then mret t else find_thread f l default
  end.

(** A thread that is not found is taken for the first of the list. *)
Definition thread_descriptor_from_thread_handle (handle : Z) : M Z :=
  l ← ask ThreadList; find_thread (λ t, handle =? ThreadHandle t) l (hd 0 l).
Definition thread_descriptor_from_thread_ID (id : Z) : M Z :=
  l ← ask ThreadList; find_thread (λ t, id =? ThreadID t) l (hd 0 l).
Definition thread_handle_from_thread_descriptor (thread : Z) : M Z :=
  t ← get_thread thread; mret (ThreadHandle t).
Definition thread_descriptor_from_index (index : Z) : M Z :=
  l ← ask ThreadList;
  match (if 0 <? index then l !! Z.to_nat (index - 1) else None) with
  | Some t => mret t
  | None => mret (hd 0 l)
  end.

Definition add_thread_descriptor (thread_handle thread_id : Z) : M () :=
  new_thread ← new_thread_descriptor
    (mkThread thread_handle thread_id false None false 0 ∅ true false false false 0 0 [] 0 None 0);
  modify_st (λ s, set_ThreadList (ThreadList s ++ [new_thread]) s).

Definition add_library_descriptor (hFile lpBaseOfDll : Z) : M () :=
  modify_st (λ s, set_LibraryList (LibraryList s ++ [(lpBaseOfDll, hFile)]) s).

(** By its position in the list: the first one when no base is the address. *)
Fixpoint find_base (base : Z) (l : list (Z * Z)) (i : nat) : nat :=
  match l with
  | [] => 0
  | (b, _) :: l => if b =? base then i else find_base base l (S i)
  end.
Definition library_descriptor_from_base_address (base : Z) : M nat :=
  l ← ask LibraryList; mret (find_base base l 0).

(** The library with the greatest base below the address *)
Fixpoint find_closest (address closest_base : Z) (result i : nat) (l : list (Z * Z)) : nat :=
  match l with
  | [] => result
  | (base, _) :: l =>
      if (base <? address) && ((closest_base <? base) || (address <? closest_base))
      then find_closest address base i (S i) l
      else find_closest address closest_base result (S i) l
  end.
Definition library_descriptor_from_address (address : Z) : M nat :=
  l ← ask LibraryList;
  match l with
  | [] => undefined
  | (base, _) :: _ => mret (find_closest address base 0 0 l)
  end.

Definition lowest_base_address : M Z :=
  l ← ask LibraryList;
  match l with
  | [] => undefined
  | (base, _) :: _ => mret (foldl (λ lowest b, if b.1 <? lowest then b.1 else lowest) base l)
  end.

(** ** Continuing *)

Definition continue_thread (thread handling : Z) : M bool :=
  t ← get_thread thread;
  p ← ask ProcessID;
  in_world (ContinueDebugEvent p (ThreadID t) handling).

Definition execute_thread (thread : Z) : M Z :=
  t ← get_thread thread;
  status ← in_world (ResumeThread (ThreadHandle t));
  status ← (fix resume (n : nat) (status : Z) : M Z :=
     if 1 <? status then
       match n with
       | O => undefined
       | S n => status ← in_world (ResumeThread (ThreadHandle t)); resume n status
       end
     else mret status) (Z.to_nat status) status;
  upd_thread thread (set_ThreadContext false) ;;
  mret status.

Definition apply_appropriate_continuation_to_thread (thread handling : Z) : M () :=
  if thread =? 0 then mret ()
  else
    t ← get_thread thread;
    let state := StoppedState t in
    if state =? THREAD_STOPPED_BY_DEBUGGER then resume_thread thread ;; mret ()
    else if state =? THREAD_FROZEN then mret ()
    else if state =? THREAD_DEAD then mret ()
    else if (state =? THREAD_STOPPED_AT_KNOWN_BREAKPOINT) || (state =? THREAD_INVOKED_DEBUGGER) then
      continue_thread thread DBG_CONTINUE ;; mret ()
    else if (state =? THREAD_STOPPED_AT_FIRST_CHANCE_EXCEPTION) ||
            (state =? THREAD_STOPPED_AT_SECOND_CHANCE_EXCEPTION) then
      if handling =? EXCEPTIONS_UNHANDLED
      then continue_thread thread DBG_EXCEPTION_NOT_HANDLED ;; mret ()
      else continue_thread thread DBG_CONTINUE ;; mret ()
    else if state =? THREAD_STOPPED_AT_DEBUG_EVENT then
      continue_thread thread DBG_CONTINUE ;; mret ()
    else mret ().

(** The threads of the list that live on: a thread that has exited is freed, but for
    the main one. *)
Fixpoint continue_threads (main_thread handling : Z) (l : list Z) : M (list Z) :=
  match l with
  | [] => mret []
  | thread :: l =>
      apply_appropriate_continuation_to_thread thread handling ;;
      upd_thread thread (set_StackTraceValid false) ;;
      t ← get_thread thread;
      if negb (thread =? main_thread) && negb (Valid t) then
        free_thread thread ;; continue_threads main_thread handling l
      else l ← continue_threads main_thread handling l; mret (thread :: l)
  end.

Definition continue_application (handling : Z) : M () :=
  l ← ask ThreadList;
  set_application_state RUNNING ;;
  l ← continue_threads (hd 0 l) handling l;
  modify_st (set_ThreadList l).

Definition nub_application_continue : M () := continue_application EXCEPTIONS_HANDLED.
Definition nub_application_continue_unhandled : M () :=
  continue_application EXCEPTIONS_UNHANDLED.

Definition nub_application_stop : M () :=
  l ← ask ThreadList;
  state ← get_application_state;
  if negb (state =? RUNNING) then mret ()
  else
    for_each l (λ thread,
      t ← get_thread thread;
      when_ (negb (WaitingForDebugger t))
        (suspend_thread thread ;; upd_thread thread (set_StoppedState THREAD_STOPPED_BY_DEBUGGER))) ;;
    set_application_state STOPPED_BY_COMMAND ;;
    modify_st (set_PendingEventThread 0).

Definition nub_thread_stop (thread : Z) : M () := suspend_thread thread ;; mret ().
Definition nub_thread_continue (thread : Z) : M () := resume_thread thread ;; mret ().
Definition nub_thread_suspended (thread : Z) : M () :=
  upd_thread thread (set_WaitingForDebugger true).
Definition nub_thread_suspendedQ (thread : Z) : M bool :=
  t ← get_thread thread; mret (WaitingForDebugger t).
Definition nub_thread_resumed (thread : Z) : M () :=
  upd_thread thread (set_WaitingForDebugger false).
Definition nub_threads_continue : M () :=
  l ← ask ThreadList; for_each l (λ t, continue_thread t DBG_CONTINUE ;; mret ()).

Definition nub_recover_breakpoint (thread : Z) : M () :=
  t ← get_thread thread;
  when_ (NeedsBreakpointReplacement t) (recover_from_breakpoint thread).

(** 0 when both calls succeed. *)
Definition instruction_stepping (on : bool) (thread : Z) : M Z :=
  t ← get_thread thread;
  c ← ask_world (GetThreadContext (ThreadHandle t));
  c ← lift_st c;
  set_ok ← in_world (SetThreadContext (ThreadHandle t) (if on then trap_on c else trap_off c));
  upd_thread thread (set_SingleStepping on) ;;
  mret (if (set_ok : bool) then 0 else 1).
Definition nub_thread_begin_instruction_stepping : Z → M Z := instruction_stepping true.
Definition nub_thread_end_instruction_stepping : Z → M Z := instruction_stepping false.

(** ** Housekeeping *)

Definition set_JIT_event : M () :=
  attached ← ask ProcessAttached;
  h ← ask JITEventHandle;
  when_ (attached && negb (h =? 0))
    (modify_st (λ s, set_world (SetEvent h (world s)) s) ;; modify_st (set_JITEventHandle 0)).

Definition housekeep_for_stop_reason (event : debug_event) : M () :=
  match information event with
  | CreateProcessInfo hFile hThread lpBaseOfImage lpThreadLocalBase offset size name fUnicode =>
      l ← ask ThreadList;
      attached ← ask ProcessAttached;
      when_ attached
        (upd_thread (hd 0 l) (λ t,
           set_ThreadID (dwThreadId event) (set_ThreadHandle hThread t))) ;;
      libraries ← ask LibraryList;
      modify_st (set_LibraryList ((lpBaseOfImage, hFile) :: tl libraries)) ;;
      push_debug_event (mkEvent 0 0 (LoadDll hFile lpBaseOfImage offset size name fUnicode)) ;;
      ok ← in_world SymInitialize;
      modify_st (set_SymbolHandlerWorking ok) ;;
      platform ← ask Platform;
      when_ (platform =? PLATFORM_WINDOWS_95) set_JIT_event
  | ExitProcess _ =>
      ok ← ask SymbolHandlerWorking;
      when_ ok (modify_st (λ s, set_world (SymCleanup (world s)) s))
  | CreateThread hThread _ _ => add_thread_descriptor hThread (dwThreadId event)
  | ExitThread _ =>
      dead_thread ← thread_descriptor_from_thread_ID (dwThreadId event);
      upd_thread dead_thread (set_Valid false) ;;
      platform ← ask Platform;
      when_ (platform =? PLATFORM_WINDOWS_NT) set_JIT_event
  | LoadDll hFile lpBaseOfDll _ _ _ _ => add_library_descriptor hFile lpBaseOfDll
  | Exception code _ _ _ =>
      when_ (code =? EXCEPTION_BREAKPOINT) (set_application_state STOPPED_AT_BREAKPOINT ;; mret ())
  | _ => mret ()
  end.

Definition flag_all_threads_frozen : M () :=
  l ← ask ThreadList; for_each l (λ t, upd_thread t (set_StoppedState THREAD_FROZEN)).

End nub.
