(* ===== verification/NubWait.v ===== *)
(** * Waiting for a stop reason

    [stop_reasons.c]: what is made of a debug event, and the loop that waits for one
    that the debugger should see.  [create_thread_stop_reason_handler] is a function of
    the Dylan side, called for threads made while a function is called in the
    application. *)

From S2P Require Import Prelude Effects HeapTable NubOS Nub NubPoints NubEvents.
From stdpp Require Import base tactics option list numbers gmap.
From Stdlib Require Import ZArith Lia Bool.

Local Open Scope Z_scope.

Section nub.
Context {W : Type} `{!Windows W}.

Notation M := (St (nub W)).

Context (create_thread_stop_reason_handler : Z → M ()).

Definition set_StoppedState_of (thread state : Z) : M () :=
  upd_thread thread (set_StoppedState state).

(** ** Decisions *)

Definition process_this_first_chance_breakpoint (thread address mode : Z) : M Z :=
  code ← handle_breakpoint_hit thread address;
  if code =? UNKNOWN_BREAKPOINT then
    set_StoppedState_of thread THREAD_INVOKED_DEBUGGER ;;
    modify_st (λ s, set_HardCodedBreakpointCounter (HardCodedBreakpointCounter s + 1) s) ;;
    mret HARD_CODED_BREAKPOINT_DBG_EVENT
  else
    set_StoppedState_of thread THREAD_STOPPED_AT_KNOWN_BREAKPOINT ;;
    if (code =? INTERNAL_BREAKPOINT) || (code =? BREAKPOINT_OUT_OF_CONTEXT) then
      mret FILTER_HANDLED_DBG_EVENT
    else if mode =? STOP_REASON_WAIT_SPY then mret FILTER_HANDLED_DBG_EVENT
    else if code =? CAPTURE_STEP_OVER_BREAKPOINT then mret SOURCE_STEP_OVER_DBG_EVENT
    else if code =? CAPTURE_STEP_OUT_BREAKPOINT then mret SOURCE_STEP_OUT_DBG_EVENT
    else if code =? CAPTURE_STEP_INTO_BREAKPOINT then mret SOURCE_STEP_INTO_DBG_EVENT
    else mret BREAKPOINT_EXCEPTION_DBG_EVENT.

Definition process_this_first_chance_single_step (thread mode : Z) : M Z :=
  t ← get_thread thread;
  when_ (NeedsBreakpointReplacement t) (recover_from_breakpoint thread) ;;
  t ← get_thread thread;
  set_StoppedState_of thread THREAD_STOPPED_AT_FIRST_CHANCE_EXCEPTION ;;
  if SingleStepping t && negb (mode =? STOP_REASON_WAIT_SPY) then mret SINGLE_STEP_DBG_EVENT
  else mret FILTER_HANDLED_DBG_EVENT.

Definition process_this_first_chance_exception (thread code address mode : Z) : M Z :=
  let nubcode := exception_to_nub_code code in
  t ← get_thread thread;
  if code =? EXCEPTION_BREAKPOINT then
    if (mode =? STOP_REASON_WAIT_SPY) && (address =? AddressOfSpyBreakpoint t) then
      set_StoppedState_of thread THREAD_STOPPED_AT_KNOWN_BREAKPOINT ;; mret SPY_RETURN_DBG_EVENT
    else process_this_first_chance_breakpoint thread address mode
  else if code =? EXCEPTION_SINGLE_STEP then process_this_first_chance_single_step thread mode
  else
    receiving ← ask ReceivingFirstChance;
    set_StoppedState_of thread THREAD_STOPPED_AT_FIRST_CHANCE_EXCEPTION ;;
    if bool_decide (nubcode ∈ receiving) && negb (mode =? STOP_REASON_WAIT_SPY) then mret nubcode
    else mret FILTER_UNHANDLED_DBG_EVENT.

Definition process_this_second_chance_exception (thread code : Z) : M Z :=
  if code =? EXCEPTION_BREAKPOINT then
    set_StoppedState_of thread THREAD_INVOKED_DEBUGGER ;; mret HARD_CODED_BREAKPOINT_DBG_EVENT
  else
    set_StoppedState_of thread THREAD_STOPPED_AT_SECOND_CHANCE_EXCEPTION ;;
    mret (exception_to_nub_code code).

(** What is stored for every event but an exception. *)
Definition decide_event (thread decision : Z) : M Z :=
  upd_thread thread (λ t,
    set_StoppedState THREAD_STOPPED_AT_DEBUG_EVENT (set_NubCodeOfLastEvent decision t)) ;;
  mret decision.

Definition process_this_debug_event (thread : Z) (event : debug_event) (mode : Z) : M Z :=
  match information event with
  | CreateProcessInfo _ _ _ _ _ _ _ _ => decide_event thread CREATE_PROCESS_DBG_EVENT
  | ExitProcess _ => decide_event thread EXIT_PROCESS_DBG_EVENT
  | CreateThread _ _ _ =>
      if mode =? STOP_REASON_WAIT_SPY then
        create_thread_stop_reason_handler thread ;; decide_event thread FILTER_HANDLED_DBG_EVENT
      else decide_event thread CREATE_THREAD_DBG_EVENT
  | ExitThread _ => decide_event thread EXIT_THREAD_DBG_EVENT
  | LoadDll _ _ _ _ _ _ => decide_event thread LOAD_DLL_DBG_EVENT
  | UnloadDll _ => decide_event thread UNLOAD_DLL_DBG_EVENT
  | DebugString _ _ _ => decide_event thread OUTPUT_DEBUG_STRING_DBG_EVENT
  | RipInfo => decide_event thread CREATE_PROCESS_DBG_EVENT
  | Exception code address first_chance _ =>
      decision ← (if negb (first_chance =? 0)
                  then process_this_first_chance_exception thread code address mode
                  else process_this_second_chance_exception thread code);
      upd_thread thread (set_NubCodeOfLastEvent decision) ;;
      mret decision
  | OtherEvent => decide_event thread UNCLASSIFIED_DBG_EVENT
  end.

(** ** The next event *)

(** Events of other processes are continued at once; [fuel] bounds their number. *)
Fixpoint get_next_debug_event_for_this_process (fuel : nat) (timeout : Z) :
    M (option debug_event) :=
  event ← in_world (WaitForDebugEvent (u32 timeout));
  match event with
  | None => mret None
  | Some e =>
      p ← ask ProcessID;
      if negb (dwProcessId e =? p) then
        in_world (ContinueDebugEvent (dwProcessId e) (dwThreadId e) DBG_CONTINUE) ;;
        match fuel with
        | O => undefined
        | S fuel => get_next_debug_event_for_this_process fuel timeout
        end
      else mret (Some e)
  end.

(** The part of the loop that looks at an event: the decision and the time. *)
Definition receive_event (mode : Z) (event : debug_event) : M (Z * Z) :=
  let normal := mode =? STOP_REASON_WAIT_NORMAL in
  let created := (mode =? STOP_REASON_WAIT_SPY) &&
    match information event with CreateThread _ _ _ => true | _ => false end in
  current_time ← (if normal then
                    current_time ← set_application_state STOPPED_BY_EVENT;
                    flag_all_threads_frozen ;;
                    housekeep_for_stop_reason event ;;
                    mret current_time
                  else mret 0);
  when_ created (housekeep_for_stop_reason event) ;;
  thread ← thread_descriptor_from_thread_ID (dwThreadId event);
  when_ (normal || created)
    (modify_st (set_PendingEvent (Some event)) ;;
     upd_thread thread (set_LastReceivedEvent (Some event))) ;;
  modify_st (set_PendingEventThread thread) ;;
  decision ← process_this_debug_event thread event mode;
  platform ← ask Platform;
  when_ (platform =? PLATFORM_WINDOWS_95) (set_thread_context thread) ;;
  mret (decision, current_time).

(** ** The loop *)

(** The times kept from one iteration to the next *)
Record wait_state := mkWait {
  current_timeout_value : Z;
  LastActivation : Z;
  Cumulative : Z
}.

(** After an event that the debugger does not see, which [handled] says was taken care
    of: [Some code] ends the loop. *)
Definition filtered (timeout : bool) (timeout_value mode : Z) (handled : bool) (st : wait_state) :
    M (option Z * wait_state) :=
  if mode =? STOP_REASON_WAIT_NORMAL then
    exiting ← ask ExitingProcess;
    if negb exiting && timeout && (timeout_value <=? Cumulative st) then
      mret (Some (if handled then TIMED_OUT_HANDLED else TIMED_OUT_UNHANDLED), st)
    else
      (if handled then nub_application_continue else nub_application_continue_unhandled) ;;
      last ← ask LastActivationWallClockTime;
      mret (None, mkWait (s32 (timeout_value - Cumulative st)) last (Cumulative st))
  else
    spy ← ask ThreadRunningSpy;
    thread ← ask PendingEventThread;
    (if handled then
       t ← get_thread thread;
       if StoppedState t =? THREAD_STOPPED_AT_DEBUG_EVENT then
         modify_st (set_ThreadCreatedDuringSpyCall thread) ;;
         apply_appropriate_continuation_to_thread thread EXCEPTIONS_HANDLED
       else apply_appropriate_continuation_to_thread spy EXCEPTIONS_HANDLED
     else apply_appropriate_continuation_to_thread spy EXCEPTIONS_UNHANDLED) ;;
    mret (None, st).

(** While the process exits, only the end of a thread or of the process is reported. *)
Definition reported (mode decision : Z) : M (option Z) :=
  exiting ← ask ExitingProcess;
  if exiting && (mode =? STOP_REASON_WAIT_NORMAL) &&
     negb ((decision =? EXIT_THREAD_DBG_EVENT) || (decision =? EXIT_PROCESS_DBG_EVENT))
  then nub_application_continue ;; mret None
  else mret (Some decision).

(** [fuel] bounds the number of iterations. *)
Fixpoint wait_loop (fuel : nat) (timeout : bool) (timeout_value mode : Z) (st : wait_state) : M Z :=
  event ← get_next_debug_event_for_this_process fuel
    (if timeout then current_timeout_value st else INFINITE);
  r ← (match event with
       | Some e =>
           r ← receive_event mode e;
           mret (r.1, if (mode =? STOP_REASON_WAIT_NORMAL) && timeout
                      then mkWait (current_timeout_value st) (LastActivation st)
                             (s32 (Cumulative st + (r.2 - LastActivation st)))
                      else st)
       | None => mret (TIMED_OUT, st)
       end);
  let decision := r.1 in
  let st := r.2 in
  r ← (if decision =? FILTER_HANDLED_DBG_EVENT then filtered timeout timeout_value mode true st
       else if decision =? FILTER_UNHANDLED_DBG_EVENT then filtered timeout timeout_value mode false st
       else r ← reported mode decision; mret (r, st));
  match r.1 with
  | Some code => mret code
  | None =>
      match fuel with
      | O => undefined
      | S fuel => wait_loop fuel timeout timeout_value mode r.2
      end
  end.

Definition wait_for_stop_reason_internal (fuel : nat) (timeout : bool) (timeout_value mode : Z) :
    M Z :=
  last ← (if timeout && (mode =? STOP_REASON_WAIT_NORMAL) then get_os_wall_clock_time else mret 0);
  wait_loop fuel timeout timeout_value mode (mkWait timeout_value last 0).

Definition nub_wait_for_stop_reason_with_timeout (fuel : nat) (timeout : Z) : M Z :=
  wait_for_stop_reason_internal fuel true timeout STOP_REASON_WAIT_NORMAL.
Definition nub_wait_for_stop_reason_no_timeout (fuel : nat) : M Z :=
  wait_for_stop_reason_internal fuel false 0 STOP_REASON_WAIT_NORMAL.

(** ** The last event *)

(** [None]: the member of the union that is read is not the one of this event. *)
Definition pending_information : M event_information :=
  e ← ask PendingEvent; e ← lift_st e; mret (information e).

Definition nub_stop_reason_debug_point_address : M Z :=
  e ← pending_information;
  match e with Exception _ address _ _ => mret address | _ => undefined end.
Definition nub_stop_reason_exception_address : M Z := nub_stop_reason_debug_point_address.

Definition nub_stop_reason_violation_address : M Z :=
  e ← pending_information;
  match e with Exception _ _ _ (_ :: address :: _) => mret address | _ => undefined end.
Definition nub_stop_reason_violation_op : M Z :=
  e ← pending_information;
  match e with
  | Exception _ _ _ (info_member :: _) => if info_member =? 0 then mret 1 else mret 2
  | _ => undefined
  end.
Definition nub_exception_first_chance : M Z :=
  e ← pending_information;
  match e with
  | Exception _ _ first _ => if first =? 0 then mret 0 else mret 1
  | _ => undefined
  end.

Definition nub_stop_reason_process : M Z :=
  e ← ask PendingEvent; e ← lift_st e; mret (dwProcessId e).
Definition nub_stop_reason_thread : M Z :=
  e ← ask PendingEvent; e ← lift_st e; thread_descriptor_from_thread_ID (dwThreadId e).

(** The position of the library, [None] for a null pointer. *)
Definition nub_stop_reason_library : M (option nat) :=
  e ← pending_information;
  match e with
  | CreateProcessInfo _ _ _ _ _ _ _ _ => mret (Some 0%nat)
  | LoadDll _ base _ _ _ _ => i ← library_descriptor_from_base_address base; mret (Some i)
  | UnloadDll base => i ← library_descriptor_from_base_address base; mret (Some i)
  | _ => mret None
  end.

Definition nub_stop_reason_process_exit_code : M Z :=
  e ← pending_information; match e with ExitProcess code => mret code | _ => undefined end.
Definition nub_stop_reason_thread_exit_code : M Z :=
  e ← pending_information; match e with ExitThread code => mret code | _ => undefined end.
Definition nub_stop_reason_RIP_exit_code : M Z := mret 0.

Definition nub_stop_reason_debug_string_address : M Z :=
  e ← pending_information; match e with DebugString data _ _ => mret data | _ => undefined end.
Definition nub_stop_reason_debug_string_length : M Z :=
  e ← pending_information; match e with DebugString _ _ n => mret (n - 1) | _ => undefined end.
Definition nub_stop_reason_debug_string_is_unicode : M Z :=
  e ← pending_information;
  match e with DebugString _ u _ => if u =? 0 then mret 0 else mret 1 | _ => undefined end.

End nub.
