(* ===== verification/NubCalls.v ===== *)
(** * Calling functions of the application

    [remote_function_call.c], [nub_remote_call_spy] of [remote_object_registration.c] and
    [nub_kill_application] of [app_control.c]: code planted on the stack of a stopped
    thread, that runs while the other threads are suspended, and a stack frame made up
    for a call.  [fuel] bounds the loops that wait.

    The bytes that pad the planted code are arbitrary in C and 0 here.  The saved state
    of a thread, that callers keep as an opaque handle, is a value. *)

From S2P Require Import Prelude Effects HeapTable NubOS Nub NubPoints NubEvents NubWait.
From stdpp Require Import base tactics option list numbers gmap.
From Stdlib Require Import ZArith Lia Bool.

Local Open Scope Z_scope.

(** [THREAD_MEMORY] *)
Record thread_memory := mkMemory {
  saved_WaitingForDebugger : bool;
  saved_SingleStepping : bool;
  saved_NeedsBreakpointReplacement : bool;
  saved_BreakpointToReplace : Z;
  saved_StoppedState : Z;
  saved_LastReceivedEvent : option debug_event;
  saved_NubCodeOfLastEvent : Z;
  saved_ThreadContext : context
}.

(** [NOP; NOP; SUB ESP, count; INT 3] *)
Definition allocator_instruction_sequence (count : Z) : list Z :=
  [144; 144; 129; 236] ++ bytes_of 4 count ++ [204; 0; 0; 0].

(** [CALL ESI; INT 3] *)
Definition spy_call_instruction_sequence : list Z := [255; 214; 204; 0].

Definition set_Esi (x : Z) (c : context) : context :=
  mkContext (Eax c) (Edx c) (Ecx c) (Ebx c) (Ebp c) x (Edi c) (Esp c) (Eip c) (EFlags c)
    (SegCs c) (SegDs c) (SegSs c) (SegEs c) (SegFs c) (SegGs c) (RegisterArea c).

Section nub.
Context {W : Type} `{!Windows W}.

Notation M := (St (nub W)).

Context (create_thread_stop_reason_handler : Z → M ()) (fuel : nat).

Notation wait_for_stop_reason_internal :=
  (wait_for_stop_reason_internal create_thread_stop_reason_handler fuel).

Definition nub_get_function_result (thread : Z) : M Z :=
  t ← get_thread thread;
  c ← ask_world (GetThreadContext (ThreadHandle t));
  c ← lift_st c;
  mret (Eax c).

Definition nub_restore_context (thread : Z) (saved_thread : thread_memory) : M () :=
  t ← get_thread thread;
  in_world (SetThreadContext (ThreadHandle t) (saved_ThreadContext saved_thread)) ;;
  platform ← ask Platform;
  when_ (platform =? PLATFORM_WINDOWS_95) (set_thread_context thread).

(** ** Space on the stack of a thread

    The answer is the new stack pointer, or 0. *)
Definition nub_allocate_stack_space (thread byte_count : Z) : M Z :=
  context_as_was ← get_thread_context thread;
  context_as_was ← lift_st context_as_was;
  t ← get_thread thread;
  let c := if NeedsBreakpointReplacement t then trap_off context_as_was else context_as_was in
  let instruction_position := Esp c in
  let c := set_Eip instruction_position c in
  saved_stack_memory ← ask_world (ReadProcessMemory instruction_position 12);
  saved_stack_memory ← lift_st saved_stack_memory;
  ValidatedWriteProcessMemory instruction_position
    (allocator_instruction_sequence (u32 byte_count)) ;;
  status_set_context ← in_world (SetThreadContext (ThreadHandle t) c);
  if negb status_set_context then
    ValidatedWriteProcessMemory instruction_position saved_stack_memory ;;
    in_world (SetThreadContext (ThreadHandle t) context_as_was) ;;
    mret 0
  else
    suspend_all ;;
    modify_st (set_ThreadRunningSpy thread) ;;
    upd_thread thread (set_AddressOfSpyBreakpoint (u32 (instruction_position + 8))) ;;
    nub_threads_continue ;;
    execute_thread thread ;;
    code ← wait_for_stop_reason_internal true 30000 STOP_REASON_WAIT_SPY;
    resume_all_except thread ;;
    ValidatedWriteProcessMemory instruction_position saved_stack_memory ;;
    if code =? SPY_RETURN_DBG_EVENT then
      c ← ask_world (GetThreadContext (ThreadHandle t));
      c ← lift_st c;
      mret (Esp c)
    else
      in_world (SetThreadContext (ThreadHandle t) context_as_was) ;;
      mret 0.

(** Words pushed upwards from an address: [false] when a write fails. *)
Fixpoint push_words (stack_position : Z) (args : list Z) : M bool :=
  match args with
  | [] => mret true
  | x :: args =>
      write_status ← ValidatedWriteProcessMemory stack_position (bytes_of 4 x);
      if negb write_status then mret false else push_words (u32 (stack_position + 4)) args
  end.

(** ** Making up a call

    The address to break at, or 0; and the saved thread. *)
Definition nub_setup_function_call (thread function : Z) (args : list Z) :
    M (Z * option thread_memory) :=
  status ← get_thread_context thread;
  c ← lift_st status;
  t ← get_thread thread;
  let saved_thread := mkMemory (WaitingForDebugger t) (SingleStepping t)
    (NeedsBreakpointReplacement t) (BreakpointToReplace t) (StoppedState t)
    (LastReceivedEvent t) (NubCodeOfLastEvent t) c in
  stack_position ← nub_allocate_stack_space thread ((length args + 1) * 4);
  if stack_position =? 0 then mret (0, None)
  else
    c ← (if saved_NeedsBreakpointReplacement saved_thread then
           drop_breakpoint (saved_BreakpointToReplace saved_thread) ;;
           upd_thread thread (set_NeedsBreakpointReplacement false) ;;
           mret (if negb (saved_SingleStepping saved_thread) then trap_off c else c)
         else mret c);
    let original_IP := Eip c in
    status ← in_world (SetThreadContext (ThreadHandle t)
                         (set_Eip function (set_Esp stack_position c)));
    if negb status then mret (0, None)
    else
      pushed ← push_words stack_position (original_IP :: args);
      if negb pushed then mret (0, None) else mret (original_IP, Some saved_thread).

(** Write failures are not noticed here. *)
Fixpoint write_words_at (stack_address : Z) (vals : list Z) : M () :=
  match vals with
  | [] => mret ()
  | x :: vals =>
      ValidatedWriteProcessMemory stack_address (bytes_of 4 x) ;;
      write_words_at (u32 (stack_address + 4)) vals
  end.

Definition nub_stack_push_values (thread : Z) (vals : list Z) : M () :=
  stack_address ← nub_allocate_stack_space thread (length vals * 4);
  when_ (negb (stack_address =? 0)) (write_words_at stack_address vals).

Fixpoint read_words_at (stack_position : Z) (count : nat) : M (list Z) :=
  match count with
  | O => mret []
  | S count =>
      l ← ask_world (ReadProcessMemory stack_position 4);
      l ← lift_st l;
      vals ← read_words_at (u32 (stack_position + 4)) count;
      mret (little_endian l :: vals)
  end.

Definition nub_stack_pop_values (thread : Z) (count : nat) : M (list Z) :=
  t ← get_thread thread;
  c ← ask_world (GetThreadContext (ThreadHandle t));
  c ← lift_st c;
  vals ← read_words_at (Esp c) count;
  in_world (SetThreadContext (ThreadHandle t) (set_Esp (u32 (Esp c + count * 4)) c)) ;;
  mret vals.

(** ** Spy functions

    The result, 0 when the call fails; and [aborted], when it is set. *)
Definition nub_remote_call_spy (thread function : Z) (args : list Z) : M (Z * option Z) :=
  status ← get_thread_context thread;
  t ← get_thread thread;
  let replace := BreakpointToReplace t in
  let needs := NeedsBreakpointReplacement t in
  match status with
  | None => mret (0, None)
  | Some saved_context =>
      let c := if needs then trap_off saved_context else saved_context in
      thread_sp ← nub_allocate_stack_space thread (4 + 4 * length args);
      if thread_sp =? 0 then mret (0, Some 1)
      else
        let instruction_position := u32 (thread_sp + 4 * length args) in
        pushed ← push_words thread_sp args;
        if negb pushed then mret (0, None)
        else
          let c := set_Esi function c in
          status ← ValidatedWriteProcessMemory instruction_position spy_call_instruction_sequence;
          if negb status then mret (0, None)
          else
            status ← in_world (SetThreadContext (ThreadHandle t)
                       (set_Esp thread_sp (set_Eip instruction_position c)));
            if negb status then mret (0, None)
            else
              modify_st (set_ThreadCreatedDuringSpyCall 0) ;;
              suspend_all_except thread ;;
              upd_thread thread (set_AddressOfSpyBreakpoint (u32 (instruction_position + 2))) ;;
              modify_st (set_ThreadRunningSpy thread) ;;
              apply_appropriate_continuation_to_thread thread EXCEPTIONS_HANDLED ;;
              code ← wait_for_stop_reason_internal true 5000 STOP_REASON_WAIT_SPY;
              if negb (code =? SPY_RETURN_DBG_EVENT) then mret (0, Some 1)
              else
                c ← ask_world (GetThreadContext (ThreadHandle t));
                c ← lift_st c;
                let result := Eax c in
                SpyThread ← ask ThreadCreatedDuringSpyCall;
                (if negb (SpyThread =? 0) then
                   event ← ask_world (ReadProcessMemory (u32 (result + 4)) 4);
                   event ← lift_st event;
                   modify_st (λ s, set_world (SetEvent (little_endian event) (world s)) s) ;;
                   suspend_thread thread ;;
                   apply_appropriate_continuation_to_thread thread EXCEPTIONS_HANDLED ;;
                   upd_thread SpyThread (set_AddressOfSpyBreakpoint 0) ;;
                   modify_st (set_ThreadRunningSpy SpyThread) ;;
                   wait_for_stop_reason_internal true 5000 STOP_REASON_WAIT_SPY ;;
                   resume_all_except SpyThread
                 else resume_all_except thread) ;;
                in_world (SetThreadContext (ThreadHandle t) saved_context) ;;
                upd_thread thread (λ t, set_NeedsBreakpointReplacement needs
                                          (set_BreakpointToReplace replace t)) ;;
                mret (result, Some 0)
  end.

(** ** Ending the application *)

(** The first thread on hold, taken out of it; 0 when there is none. *)
Fixpoint find_held_thread (l : list Z) : M Z :=
  match l with
  | [] => mret 0
  | thread :: l =>
      t ← get_thread thread;
      if WaitingForDebugger t && Valid t then nub_thread_resumed thread ;; mret thread
      else find_held_thread l
  end.

Definition nub_register_exit_process_function (ExitProcess : Z) : M () :=
  modify_st (set_ExitProcessFunction ExitProcess).

Definition nub_kill_application : M Z :=
  exiting ← ask ExitingProcess;
  if (exiting : bool) then nub_application_continue ;; mret (-1)
  else
    ExitProcess ← ask ExitProcessFunction;
    l ← ask ThreadList;
    thread ← find_held_thread l;
    if (ExitProcess =? 0) || (thread =? 0) then
      nub_application_continue ;;
      modify_st (λ s, set_world (TerminateProcess (world s)) s) ;;
      set_application_state DEAD ;;
      mret 0
    else
      modify_st (set_ExitingProcess true) ;;
      nub_setup_function_call thread ExitProcess [] ;;
      suspend_all_except thread ;;
      continue_thread thread DBG_CONTINUE ;;
      mret (-1).

End nub.
