(* ===== verification/NubAccess.v ===== *)
(** * Memory and registers of the application

    [memory_access.c] and [register_access.c].  A value that is read comes with the
    error code; [INT64] is the type of 64 bits of the Windows headers, and a float is
    the list of its bytes.

    The instructions that convert floats, [fld] and [fstp], are parameters of the
    functions that use them. *)

From Stdlib Require Import String Ascii.
From S2P Require Import Prelude Effects HeapTable NubOS Nub NubPoints.
From stdpp Require Import base tactics option list numbers gmap.
From Stdlib Require Import ZArith Lia Bool.

Local Open Scope Z_scope.

(** ** Signs *)

Definition s8 (x : Z) : Z := (x + 128) mod 256 - 128.
Definition s16 (x : Z) : Z := (x + 32768) mod 65536 - 32768.

Definition sign_reduce_integer_to_8 (x : Z) : Z := s8 x.
Definition sign_reduce_integer_to_16 (x : Z) : Z := s16 x.
Definition sign_reduce_integer_to_32 (x : Z) : Z := s32 x.
Definition sign_reduce_integer_to_64 (x : Z) : Z := s64 x.

(** With the sign taken off and put back *)
Definition sign_extend_8_to_integer (x : Z) : Z :=
  let byte := x mod 256 in
  if negb (Z.land byte 128 =? 0) then - ((- byte) mod 256) else byte.
Definition sign_extend_16_to_integer (x : Z) : Z :=
  let word := x mod 65536 in
  if negb (Z.land word 32768 =? 0) then - ((- word) mod 65536) else word.
Definition sign_extend_32_to_integer (x : Z) : Z := s32 x.
Definition sign_extend_64_to_integer (x : Z) : Z := s32 x.

(** ** Registers *)

Definition NUB_REGISTER_ILLEGAL : Z := 0.
Definition NUB_REGISTER_EAX : Z := 1.
Definition NUB_REGISTER_EDX : Z := 2.
Definition NUB_REGISTER_ECX : Z := 3.
Definition NUB_REGISTER_EBX : Z := 4.
Definition NUB_REGISTER_EBP : Z := 5.
Definition NUB_REGISTER_ESI : Z := 6.
Definition NUB_REGISTER_EDI : Z := 7.
Definition NUB_REGISTER_ESP : Z := 8.
Definition NUB_REGISTER_EIP : Z := 9.
Definition NUB_REGISTER_EFL : Z := 10.
Definition NUB_REGISTER_CS : Z := 11.
Definition NUB_REGISTER_DS : Z := 12.
Definition NUB_REGISTER_SS : Z := 13.
Definition NUB_REGISTER_ES : Z := 14.
Definition NUB_REGISTER_FS : Z := 15.
Definition NUB_REGISTER_GS : Z := 16.
Definition NUB_REGISTER_FLT0 : Z := 17.
Definition NUB_REGISTER_FLT7 : Z := 24.

(** [NameLength], [Name] and [CodeviewEnumeration] *)
Definition register_names : list (Z * string * Z) :=
  [(16, "<Not a register>", 0); (3, "EAX", 17); (3, "EDX", 19); (3, "ECX", 18);
   (3, "EBX", 20); (3, "EBP", 22); (3, "ESI", 23); (3, "EDI", 24); (3, "ESP", 21);
   (3, "EIP", 33); (3, "EFL", 34); (2, "CS", 26); (2, "DS", 28); (2, "SS", 27);
   (2, "ES", 25); (2, "FS", 29); (2, "GS", 30); (6, "FLT(0)", 128); (6, "FLT(1)", 129);
   (6, "FLT(2)", 130); (6, "FLT(3)", 131); (6, "FLT(4)", 132); (6, "FLT(5)", 133);
   (6, "FLT(6)", 134); (6, "FLT(7)", 135)]%string.

(** The indices up to 24; the rest of the array, illegal, is not used. *)
Definition register_codeview_indices : list Z :=
  [NUB_REGISTER_ILLEGAL;
   NUB_REGISTER_EAX; NUB_REGISTER_ECX; NUB_REGISTER_EDX; NUB_REGISTER_EBX;
   NUB_REGISTER_EAX; NUB_REGISTER_ECX; NUB_REGISTER_EDX; NUB_REGISTER_EBX;
   NUB_REGISTER_EAX; NUB_REGISTER_ECX; NUB_REGISTER_EDX; NUB_REGISTER_EBX;
   NUB_REGISTER_ESP; NUB_REGISTER_EBP; NUB_REGISTER_ESI; NUB_REGISTER_EDI;
   NUB_REGISTER_EAX; NUB_REGISTER_ECX; NUB_REGISTER_EDX; NUB_REGISTER_EBX;
   NUB_REGISTER_ESP; NUB_REGISTER_EBP; NUB_REGISTER_ESI; NUB_REGISTER_EDI].

Definition nub_all_registers : Z * Z := (1, 24).
Definition nub_general_registers : Z * Z := (1, 7).
Definition nub_special_registers : Z * Z := (8, 16).
Definition nub_floating_registers : Z * Z := (17, 24).

Definition map_cv_register_index (index : Z) : Z :=
  if (0 <? index) && (index <? 25)
  then nth (Z.to_nat index) register_codeview_indices NUB_REGISTER_ILLEGAL
  else NUB_REGISTER_EAX.

(** The high and the low register *)
Definition register_index_from_codeview_enumerate (cvr : Z) : Z * Z :=
  (map_cv_register_index (Z.shiftr cvr 8 mod 256), map_cv_register_index (Z.land cvr 255)).

Definition register_name (i : Z) : option (Z * string * Z) :=
  if i <? 0 then None else register_names !! Z.to_nat i.
Definition nub_get_register_enumeration_code (i : Z) : option Z := snd <$> register_name i.
Definition nub_get_register_name_length (i : Z) : option Z := (λ r, r.1.1) <$> register_name i.

(** The characters that are written into the buffer *)
Fixpoint copy_name (name : string) (limit : nat) : list ascii :=
  match limit with
  | O => []
  | S limit =>
      match name with
      | EmptyString => [Ascii.zero]
      | String c name => c :: copy_name name limit
      end
  end.
Definition nub_get_register_name (i buf_size : Z) : option (list ascii) :=
  (λ r, copy_name r.1.2 (Z.to_nat buf_size)) <$> register_name i.

(** The members of a context by the numbers of the registers: [Some] for those of 32
    bits and the segments, with what the [switch] of [register_get32] returns. *)
Definition context_get (c : context) (reg : Z) : option Z :=
  if reg =? NUB_REGISTER_EAX then Some (Eax c)
  else if reg =? NUB_REGISTER_EDX then Some (Edx c)
  else if reg =? NUB_REGISTER_ECX then Some (Ecx c)
  else if reg =? NUB_REGISTER_EBX then Some (Ebx c)
  else if reg =? NUB_REGISTER_EBP then Some (Ebp c)
  else if reg =? NUB_REGISTER_ESI then Some (Esi c)
  else if reg =? NUB_REGISTER_EDI then Some (Edi c)
  else if reg =? NUB_REGISTER_ESP then Some (Esp c)
  else if reg =? NUB_REGISTER_EIP then Some (Eip c)
  else if reg =? NUB_REGISTER_EFL then Some (EFlags c)
  else if reg =? NUB_REGISTER_CS then Some (SegCs c)
  else if reg =? NUB_REGISTER_DS then Some (SegCs c)
  else if reg =? NUB_REGISTER_SS then Some (SegSs c)
  else if reg =? NUB_REGISTER_ES then Some (SegEs c)
  else if reg =? NUB_REGISTER_FS then Some (SegFs c)
  else if reg =? NUB_REGISTER_GS then Some (SegGs c)
  else None.

Definition context_put (reg x : Z) (c : context) : context :=
  let on r old := if reg =? r then x else old in
  mkContext (on NUB_REGISTER_EAX (Eax c)) (on NUB_REGISTER_EDX (Edx c))
    (on NUB_REGISTER_ECX (Ecx c)) (on NUB_REGISTER_EBX (Ebx c)) (on NUB_REGISTER_EBP (Ebp c))
    (on NUB_REGISTER_ESI (Esi c)) (on NUB_REGISTER_EDI (Edi c)) (on NUB_REGISTER_ESP (Esp c))
    (on NUB_REGISTER_EIP (Eip c)) (on NUB_REGISTER_EFL (EFlags c)) (on NUB_REGISTER_CS (SegCs c))
    (on NUB_REGISTER_DS (SegDs c)) (on NUB_REGISTER_SS (SegSs c)) (on NUB_REGISTER_ES (SegEs c))
    (on NUB_REGISTER_FS (SegFs c)) (on NUB_REGISTER_GS (SegGs c)) (RegisterArea c).

Definition is_float (reg : Z) : bool := (NUB_REGISTER_FLT0 <=? reg) && (reg <=? NUB_REGISTER_FLT7).
Definition is_register (reg : Z) : bool := (NUB_REGISTER_EAX <=? reg) && (reg <=? NUB_REGISTER_GS).

Definition read_nth_float (area : list Z) (n : nat) : list Z := take 10 (drop (n * 10) area).
Definition store_nth_float (area value : list Z) (n : nat) : list Z :=
  list_inserts (n * 10) (take 10 value) area.

Definition set_RegisterArea (x : list Z) (c : context) : context :=
  mkContext (Eax c) (Edx c) (Ecx c) (Ebx c) (Ebp c) (Esi c) (Edi c) (Esp c) (Eip c) (EFlags c)
    (SegCs c) (SegDs c) (SegSs c) (SegEs c) (SegFs c) (SegGs c) x.

Section nub.
Context {W : Type} `{!Windows W}.

Notation M := (St (nub W)).

(** ** Memory *)

(** A number of bytes, or the error *)
Definition read_process_memory (address : Z) (n : nat) : M (option (list Z)) :=
  ask_world (ReadProcessMemory address n).
Definition write_process_memory (address : Z) (l : list Z) : M Z :=
  status ← ValidatedWriteProcessMemory address l;
  mret (if negb status then ACCESS_VIOLATION_ERROR else ACCESS_OK).

Definition read_value_from_process_memory (address : Z) : M (Z * Z) :=
  r ← read_process_memory address 4;
  mret (match r with
        | None => (0, ACCESS_VIOLATION_ERROR)
        | Some holder => (little_endian holder, ACCESS_OK)
        end).
Definition write_value_to_process_memory (address value : Z) : M Z :=
  write_process_memory address (bytes_of 4 value).

Definition read_8b_from_process_memory (address : Z) : M (Z * Z) :=
  r ← read_process_memory address 1;
  mret (match r with
        | None => (0, ACCESS_VIOLATION_ERROR)
        | Some holder => (sign_extend_8_to_integer (s8 (little_endian holder)), ACCESS_OK)
        end).
Definition write_8b_to_process_memory (address value : Z) : M Z :=
  write_process_memory address (bytes_of 1 (sign_reduce_integer_to_8 value)).

Definition read_16b_from_process_memory (address : Z) : M (Z * Z) :=
  r ← read_process_memory address 2;
  mret (match r with
        | None => (0, ACCESS_VIOLATION_ERROR)
        | Some holder => (sign_extend_16_to_integer (s16 (little_endian holder)), ACCESS_OK)
        end).
Definition write_16b_to_process_memory (address value : Z) : M Z :=
  write_process_memory address (bytes_of 2 (sign_reduce_integer_to_16 value)).

Definition read_32b_from_process_memory (address : Z) : M (Z * Z) :=
  r ← read_process_memory address 4;
  mret (match r with
        | None => (0, ACCESS_VIOLATION_ERROR)
        | Some holder => (sign_extend_32_to_integer (s32 (little_endian holder)), ACCESS_OK)
        end).
Definition write_32b_to_process_memory (address value : Z) : M Z :=
  write_process_memory address (bytes_of 4 (sign_reduce_integer_to_32 value)).

Definition read_64b_from_process_memory (address : Z) : M (Z * Z) :=
  r ← read_process_memory address 8;
  mret (match r with
        | None => (0, ACCESS_VIOLATION_ERROR)
        | Some holder => (sign_extend_64_to_integer (s64 (little_endian holder)), ACCESS_OK)
        end).
Definition write_64b_to_process_memory (address value : Z) : M Z :=
  write_process_memory address (bytes_of 8 (sign_reduce_integer_to_64 value)).

(** The bytes that are read; a float of value 0 when that fails. *)
Definition read_float (address : Z) (n : nat) : M (list Z * Z) :=
  r ← read_process_memory address n;
  mret (match r with
        | None => (replicate n 0, ACCESS_VIOLATION_ERROR)
        | Some holder => (holder, ACCESS_OK)
        end).
Definition read_single_float_from_process_memory (address : Z) : M (list Z * Z) :=
  read_float address 4.
Definition write_single_float_to_process_memory (address : Z) (value : list Z) : M Z :=
  write_process_memory address (take 4 value).
Definition read_double_float_from_process_memory (address : Z) : M (list Z * Z) :=
  read_float address 8.
Definition write_double_float_to_process_memory (address : Z) (value : list Z) : M Z :=
  write_process_memory address (take 8 value).

(** [None]: the buffer is not written. *)
Definition read_string (address : Z) (n : nat) : M (option (list Z) * Z) :=
  r ← read_process_memory address n;
  mret (match r with
        | None => (None, ACCESS_VIOLATION_ERROR)
        | Some buf => (Some buf, ACCESS_OK)
        end).
Definition read_byte_string_from_process_memory (address size : Z) : M (option (list Z) * Z) :=
  read_string address (Z.to_nat (u32 size)).
Definition write_byte_string_to_process_memory (address size : Z) (buf : list Z) : M Z :=
  write_process_memory address (take (Z.to_nat (u32 size)) buf).
Definition read_unicode_string_from_process_memory (address size : Z) : M (option (list Z) * Z) :=
  read_string address (Z.to_nat (u32 (2 * u32 size))).
Definition write_unicode_string_to_process_memory (address size : Z) (buf : list Z) : M Z :=
  write_process_memory address (take (Z.to_nat (u32 (2 * u32 size))) buf).

Definition nub_calculate_stack_address (thread offset : Z) : M Z :=
  t ← get_thread thread;
  c ← ask_world (GetThreadContext (ThreadHandle t));
  c ← lift_st c;
  mret (u32 (Esp c + 4 * u32 offset)).

(** ** Registers

    An error code that a function may leave alone is an argument; the value is a
    [DWORD]. *)

Definition register_get32 (thread reg : Z) : M (Z * Z) :=
  t ← get_thread thread;
  c ← ask_world (GetThreadContext (ThreadHandle t));
  match c with
  | None => mret (0, ACCESS_VIOLATION_ERROR)
  | Some c =>
      match context_get c reg with
      | Some x => mret (x, ACCESS_OK)
      | None => if is_float reg then mret (0, ACCESS_VIOLATION_ERROR) else undefined
      end
  end.

Definition register_put32 (thread reg value error : Z) : M Z :=
  t ← get_thread thread;
  c ← ask_world (GetThreadContext (ThreadHandle t));
  match c with
  | None => mret ACCESS_VIOLATION_ERROR
  | Some c =>
      let error := if is_register reg then ACCESS_OK
                   else if is_float reg then ACCESS_VIOLATION_ERROR else error in
      status ← in_world (SetThreadContext (ThreadHandle t) (context_put reg (u32 value) c));
      mret (if negb status then ACCESS_VIOLATION_ERROR else error)
  end.

(** [value]: the ten bytes at the pointer, before and after. *)
Definition register_getfloat (thread reg : Z) (value : list Z) (error : Z) : M (list Z * Z) :=
  t ← get_thread thread;
  c ← ask_world (GetThreadContext (ThreadHandle t));
  match c with
  | None => mret (value, ACCESS_VIOLATION_ERROR)
  | Some c =>
      if is_register reg then mret (value, ACCESS_VIOLATION_ERROR)
      else if is_float reg then
        mret (read_nth_float (RegisterArea c) (Z.to_nat (reg - NUB_REGISTER_FLT0)), ACCESS_OK)
      else mret (value, error)
  end.

Definition register_putfloat (thread reg : Z) (value : list Z) (error : Z) : M Z :=
  t ← get_thread thread;
  c ← ask_world (GetThreadContext (ThreadHandle t));
  match c with
  | None => mret ACCESS_VIOLATION_ERROR
  | Some c =>
      if is_register reg then mret ACCESS_VIOLATION_ERROR
      else
        let r := if is_float reg then
                   (set_RegisterArea
                      (store_nth_float (RegisterArea c) value (Z.to_nat (reg - NUB_REGISTER_FLT0))) c,
                    ACCESS_OK)
                 else (c, error) in
        status ← in_world (SetThreadContext (ThreadHandle t) r.1);
        mret (if negb status then ACCESS_VIOLATION_ERROR else r.2)
  end.

Definition read_value_from_process_register : Z → Z → M (Z * Z) := register_get32.
Definition write_value_to_process_register (thread reg val error : Z) : M Z :=
  register_put32 thread reg val error.

Definition read_value_from_process_register_in_stack_frame (thread reg stackframe : Z) :
    M (Z * Z) :=
  t ← get_thread thread;
  if reg =? NUB_REGISTER_EBP then
    f ← lift_st (StackTrace t !! stackframe); mret (AddrFrame f, ACCESS_OK)
  else if reg =? NUB_REGISTER_ESP then
    f ← lift_st (StackTrace t !! stackframe); mret (AddrStack f, ACCESS_OK)
  else if reg =? NUB_REGISTER_EIP then
    f ← lift_st (StackTrace t !! stackframe); mret (AddrPC f, ACCESS_OK)
  else read_value_from_process_register thread reg.

(** The conversions of the floating-point unit, from and to ten bytes; [holder] is what
    a variable on the stack happens to hold. *)
Section conversions.
Context (fstp_single fstp_double fld_single fld_double : list Z → list Z).

Definition extended_float_to_single_float (ext_float : list Z) : list Z := fstp_single ext_float.
Definition extended_float_to_double_float (ext_float : list Z) : list Z := fstp_double ext_float.
Definition single_float_to_extended_float (single_float : list Z) : list Z := fld_single single_float.
Definition double_float_to_extended_float (double_float : list Z) : list Z := fld_double double_float.

Definition read_single_float_from_process_register (holder : list Z) (thread reg error : Z) :
    M (list Z * Z) :=
  r ← register_getfloat thread reg holder error;
  mret (extended_float_to_single_float r.1, r.2).
Definition write_single_float_to_process_register (thread reg : Z) (value : list Z) (error : Z) :
    M Z :=
  register_putfloat thread reg (single_float_to_extended_float value) error.
Definition read_double_float_from_process_register (holder : list Z) (thread reg error : Z) :
    M (list Z * Z) :=
  r ← register_getfloat thread reg holder error;
  mret (extended_float_to_double_float r.1, r.2).
Definition write_double_float_to_process_register (thread reg : Z) (value : list Z) (error : Z) :
    M Z :=
  register_putfloat thread reg (double_float_to_extended_float value) error.

End conversions.

End nub.
