(* ===== verification/NubLaws.v ===== *)
(** * What the functions of the nub leave alone

    The functions that do not deal with breakpoints are [quiet]: they keep the debug
    points and the code of the application, and make no thread wait for a breakpoint. *)

From S2P Require Import Prelude Effects HeapTable NubOS Nub NubPoints NubEvents NubWait.
From stdpp Require Import base tactics option list numbers gmap.
From Stdlib Require Import ZArith Lia Bool.

Local Open Scope Z_scope.

Section nub.
Context {W : Type} `{!Windows W} `{!WindowsLaws W}.

Notation M := (St (nub W)).

(** [thread] waits to write the breakpoint [p] back. *)
Definition pending (s : nub W) (thread p : Z) : Prop :=
  ∃ d, threads s !! thread = Some d ∧ NeedsBreakpointReplacement d = true ∧
       BreakpointToReplace d = p.

Definition threads_listed (s : nub W) : Prop :=
  ∀ t, is_Some (threads s !! t) → t ∈ ThreadList s.

(** [calm] is [quiet] but for the list of the threads. *)
Record calm (s s' : nub W) : Prop := {
  calm_points : points s' = points s;
  calm_free : free_address s ≤ free_address s';
  calm_text a : text a → memory (world s') !! a = memory (world s) !! a;
  calm_pending t p : pending s' t p → pending s t p
}.

Record quiet (s s' : nub W) : Prop := {
  quiet_calm : calm s s';
  quiet_listed : threads_listed s → threads_listed s'
}.

#[export] Instance calm_preorder : PreOrder calm.
Proof.
  split.
  - intros s. split; eauto with lia.
  - intros s1 s2 s3 [] []. split; [congruence | lia | | eauto].
    intros a Ha. rewrite calm_text1 by done. eauto.
Qed.
#[export] Instance quiet_preorder : PreOrder quiet.
Proof.
  split.
  - intros s. split; [reflexivity | done].
  - intros s1 s2 s3 [] []. split; [by etransitivity | eauto].
Qed.

Lemma keeps_calm {A} (m : M A) : Keeps quiet m → Keeps calm m.
Proof. intros H s a s' E. exact (quiet_calm _ _ (H _ _ _ E)). Qed.

(** ** The state *)

(** A function of Windows that leaves the code of the application alone *)
Definition leaves_text {A} (f : W → A * W) : Prop :=
  ∀ w a, text a → memory (f w).2 !! a = memory w !! a.

Lemma quiet_same (s s' : nub W) :
  points s' = points s → free_address s' = free_address s → world s' = world s →
  threads s' = threads s → ThreadList s' = ThreadList s → quiet s s'.
Proof.
  intros Hp Hf Hw Ht Hl. split; [split|].
  - done.
  - lia.
  - by rewrite Hw.
  - unfold pending. by rewrite Ht.
  - unfold threads_listed. by rewrite Ht, Hl.
Qed.

Lemma quiet_world (s : nub W) w :
  (∀ a, text a → memory w !! a = memory (world s) !! a) → quiet s (set_world w s).
Proof. intros H. split; [split|]; [done | simpl; lia | done | done | done]. Qed.

Lemma quiet_in_world {A} (f : W → A * W) :
  leaves_text f → Keeps quiet (in_world f).
Proof. intros H s a s' [= <- <-]. apply quiet_world. intros b Hb. by apply H. Qed.
Lemma quiet_modify f :
  (∀ s : nub W, points (f s) = points s ∧ free_address (f s) = free_address s ∧
     world (f s) = world s ∧ threads (f s) = threads s ∧ ThreadList (f s) = ThreadList s) →
  Keeps quiet (modify_st f).
Proof.
  intros H. apply keeps_modify_st. intros s.
  destruct (H s) as (?&?&?&?&?). by apply quiet_same.
Qed.

(** A change of a thread that does not make it wait for a breakpoint *)
Class Gentle (f : dbgthread → dbgthread) : Prop :=
  gentle d : NeedsBreakpointReplacement (f d) = true →
    NeedsBreakpointReplacement d = true ∧ BreakpointToReplace (f d) = BreakpointToReplace d.

Lemma get_thread_inv t (s : nub W) d s' :
  get_thread t s = Some (d, s') → threads s !! t = Some d ∧ s' = s.
Proof.
  unfold get_thread, lift_st. intros H. sinv H. injection E as <- <-.
  destruct (threads s !! t) as [d'|]; [|done]. by injection H as <- <-.
Qed.
Lemma get_point_inv p (s : nub W) b s' :
  get_point p s = Some (b, s') → points s !! p = Some b ∧ s' = s.
Proof.
  unfold get_point, lift_st. intros H. sinv H. injection E as <- <-.
  destruct (points s !! p) as [d'|]; [|done]. by injection H as <- <-.
Qed.
Lemma upd_thread_inv t f (s : nub W) a s' :
  upd_thread t f s = Some (a, s') →
  ∃ d, threads s !! t = Some d ∧ s' = set_threads (<[t := f d]> (threads s)) s.
Proof.
  unfold upd_thread. intros H. sinv H. apply get_thread_inv in E as [Hd ->].
  injection H as _ <-. eauto.
Qed.

Lemma quiet_upd_thread t f : Gentle f → Keeps quiet (upd_thread t f).
Proof.
  intros Hf s a s' (d & Hd & ->)%upd_thread_inv. split; [split|]; simpl; [done | lia | done | |].
  - intros t' p (d' & H' & Hn & Hp). simpl in H'. apply lookup_insert_Some in H'.
    destruct H' as [[<- <-] | [? ?]]; [|by exists d'].
    destruct (gentle d Hn) as [? Hb]. exists d. rewrite <- Hp, Hb. done.
  - intros Hl t' Ht'. simpl in Ht'. destruct (decide (t' = t)) as [-> | ?].
    + apply Hl. eauto.
    + rewrite lookup_insert_ne in Ht' by done. by apply Hl.
Qed.

End nub.

#[export] Hint Resolve quiet_preorder calm_preorder : keeps.
#[export] Hint Extern 1 (Keeps quiet (upd_thread _ _)) =>
  apply quiet_upd_thread; intros ? ?; simpl in *; first [done | by split] : keeps.
#[export] Hint Extern 1 (Keeps quiet (modify_st _)) =>
  apply quiet_modify; intros ?; simpl; repeat split; reflexivity : keeps.

(** ** Functions that only read *)

Section reads.
Context {W : Type} `{!Windows W}.

Notation Reads := (Keeps (S := nub W) eq).

Lemma reads_ask {A} (f : nub W → A) : Reads (ask f).
Proof. by intros s a s' [= _ <-]. Qed.
Lemma reads_ask_world {A} (f : W → A) : Reads (ask_world f).
Proof. by intros s a s' [= _ <-]. Qed.
Lemma reads_get_thread t : Reads (get_thread t).
Proof. unfold get_thread. solve_keeps. Qed.
Lemma reads_get_point t : Reads (get_point t).
Proof. unfold get_point. solve_keeps. Qed.
#[local] Hint Resolve reads_ask reads_ask_world reads_get_thread reads_get_point : keeps.

Lemma reads_get_thread_context t : Reads (get_thread_context t).
Proof. unfold get_thread_context. solve_keeps. Qed.
Lemma reads_find_point f l : Reads (find_point f l).
Proof. induction l; simpl; solve_keeps. Qed.
#[local] Hint Resolve reads_find_point : keeps.
Lemma reads_breakpoint_from_address a : Reads (breakpoint_from_address a).
Proof. unfold breakpoint_from_address. solve_keeps. Qed.
Lemma reads_stepping_for_this t a : Reads (stepping_capture_breakpoint_for_this_thread t a).
Proof. unfold stepping_capture_breakpoint_for_this_thread. solve_keeps. Qed.
#[local] Hint Resolve reads_breakpoint_from_address reads_stepping_for_this : keeps.
Lemma reads_find_in_threads a l : Reads (find_in_threads a l).
Proof. induction l; simpl; solve_keeps. Qed.
#[local] Hint Resolve reads_find_in_threads : keeps.
Lemma reads_stepping_for_any a : Reads (stepping_capture_breakpoint_for_any_thread a).
Proof. unfold stepping_capture_breakpoint_for_any_thread. solve_keeps. Qed.
Lemma reads_application_breakpoint_exists a : Reads (application_breakpoint_exists a).
Proof. unfold application_breakpoint_exists. solve_keeps. Qed.
Lemma reads_find_thread f l d : Reads (find_thread f l d).
Proof. induction l; simpl; solve_keeps. Qed.
#[local] Hint Resolve reads_find_thread : keeps.
Lemma reads_thread_from_ID i : Reads (thread_descriptor_from_thread_ID i).
Proof. unfold thread_descriptor_from_thread_ID. solve_keeps. Qed.

(** What reads is quiet, whatever else is asked for. *)
Lemma reads_keeps {A} (R : nub W → nub W → Prop) `{!PreOrder R} (m : St (nub W) A) :
  Reads m → Keeps R m.
Proof. intros H s a s' E. by rewrite (H _ _ _ E). Qed.

End reads.

#[export] Hint Resolve reads_ask reads_ask_world reads_get_thread reads_get_point
  reads_get_thread_context reads_find_point reads_breakpoint_from_address
  reads_stepping_for_this reads_find_in_threads reads_stepping_for_any
  reads_application_breakpoint_exists reads_find_thread reads_thread_from_ID : reads.
#[export] Hint Extern 2 (Keeps _ _) =>
  apply reads_keeps; [typeclasses eauto | solve [eauto 2 with reads]] : keeps.

Section windows.
Context {W : Type} `{!Windows W} `{!WindowsLaws W}.

(** ** Functions of Windows that do not write memory *)

Lemma suspend_leaves h : leaves_text (SuspendThread h).
Proof. intros w a _. by rewrite suspend_memory. Qed.
Lemma resume_leaves h : leaves_text (ResumeThread h).
Proof. intros w a. apply resume_text. Qed.
Lemma set_context_leaves h c : leaves_text (SetThreadContext h c).
Proof. intros w a _. by rewrite set_context_memory. Qed.
Lemma continue_leaves p t x : leaves_text (ContinueDebugEvent p t x).
Proof. intros w a. apply continue_text. Qed.
Lemma wait_leaves n : leaves_text (WaitForDebugEvent n).
Proof. intros w a. apply wait_text. Qed.
Lemma time_leaves : leaves_text GetSystemTimeAsFileTime.
Proof. intros w a _. by rewrite time_memory. Qed.
Lemma symbols_leaves : leaves_text SymInitialize.
Proof. intros w a _. by rewrite (proj1 (symbols_memory w)). Qed.

Lemma quiet_set_world (f : W → W) :
  (∀ w, memory (f w) = memory w) → Keeps quiet (modify_st (λ s, set_world (f (world s)) s)).
Proof.
  intros H. apply keeps_modify_st. intros s. apply quiet_world. intros a _. by rewrite H.
Qed.

End windows.

#[export] Hint Resolve suspend_leaves resume_leaves set_context_leaves continue_leaves
  wait_leaves time_leaves symbols_leaves : keeps.
#[export] Hint Resolve quiet_in_world : keeps.

Ltac quiet f := unfold f; solve_keeps.

Section functions.
Context {W : Type} `{!Windows W} `{!WindowsLaws W}.

Notation Quiet := (Keeps (S := nub W) quiet).

(** ** Threads and stacks *)

Lemma quiet_resume_thread t : Quiet (resume_thread t).
Proof. quiet (@resume_thread). Qed.
Lemma quiet_suspend_thread t : Quiet (suspend_thread t).
Proof. quiet (@suspend_thread). Qed.
Lemma quiet_set_thread_context t : Quiet (set_thread_context t).
Proof. quiet (@set_thread_context). Qed.
#[local] Hint Resolve quiet_resume_thread quiet_suspend_thread
  quiet_set_thread_context : keeps.

Lemma quiet_walk_stack fuel t h n fp f c : Quiet (walk_stack fuel t h n fp f c).
Proof.
  revert n fp f c. induction fuel as [|fuel IH]; intros n fp f c;
    (unfold walk_stack; fold (@walk_stack W _)); solve_keeps; apply IH.
Qed.
#[local] Hint Resolve quiet_walk_stack : keeps.
Lemma quiet_nub_initialize_stack_vectors t : Quiet (nub_initialize_stack_vectors t).
Proof. quiet (@nub_initialize_stack_vectors). Qed.
#[local] Hint Resolve quiet_nub_initialize_stack_vectors : keeps.

Lemma quiet_check_context t p : Quiet (check_context_for_stepping_capture t p).
Proof. quiet (@check_context_for_stepping_capture). Qed.
Lemma quiet_rewind_thread_eip t : Quiet (rewind_thread_eip t).
Proof. quiet (@rewind_thread_eip). Qed.
Lemma quiet_prepare t : Quiet (prepare_to_single_step_for_breakpoint_recovery t).
Proof. quiet (@prepare_to_single_step_for_breakpoint_recovery). Qed.
Lemma quiet_forget_replacement p t : Quiet (forget_replacement p t).
Proof. quiet (@forget_replacement). Qed.

(** ** Continuing, stopping *)

Lemma quiet_set_application_state x : Quiet (set_application_state x).
Proof. unfold set_application_state, get_os_wall_clock_time. solve_keeps. Qed.
Lemma quiet_continue_thread t x : Quiet (continue_thread t x).
Proof. quiet (@continue_thread). Qed.
#[local] Hint Resolve quiet_set_application_state quiet_continue_thread : keeps.
Lemma quiet_apply_continuation t x : Quiet (apply_appropriate_continuation_to_thread t x).
Proof. quiet (@apply_appropriate_continuation_to_thread). Qed.
#[local] Hint Resolve quiet_apply_continuation : keeps.
Lemma quiet_nub_application_stop : Quiet nub_application_stop.
Proof. unfold nub_application_stop, get_application_state. solve_keeps. Qed.
Lemma quiet_nub_threads_continue : Quiet nub_threads_continue.
Proof. quiet (@nub_threads_continue). Qed.
Lemma quiet_instruction_stepping b t : Quiet (instruction_stepping b t).
Proof. quiet (@instruction_stepping). Qed.

End functions.
