(* ===== verification/NubBreakpoints.v ===== *)
(** * Breakpoints only borrow a byte

    [Breakpoints code s]: the code of the application is [code], but for the byte 0xCC
    where a breakpoint is enabled, and every breakpoint knows the byte it replaced.  A
    thread that waits to write a breakpoint back waits for one that is lifted, and is
    the only one to do so: a breakpoint that is written twice would take its own 0xCC
    for the code.  The functions of [debug_points.c] keep this. *)

From S2P Require Import Prelude Effects HeapTable NubOS Nub NubPoints NubEvents NubWait NubLaws.
From stdpp Require Import base tactics option list numbers gmap.
From Stdlib Require Import ZArith Lia Bool.

Local Open Scope Z_scope.

Section nub.
Context {W : Type} `{!Windows W} `{!WindowsLaws W}.

Notation M := (St (nub W)).

Context (code : Z → option Z).

Record Breakpoints (s : nub W) : Prop := {
  bp_code p b : points s !! p = Some b → text (Address b) ∧
    ∃ x, code (Address b) = Some x ∧ x ≠ 204 ∧ ∀ y, SavedCodeSegment b = Some y → y = x;
  bp_address p q b c :
    points s !! p = Some b → points s !! q = Some c → Address b = Address c → p = q;
  bp_enabled p b : points s !! p = Some b → BreakpointEnabled b = true →
    memory (world s) !! Address b = Some 204;
  bp_memory a : text a →
    (∀ p b, points s !! p = Some b → BreakpointEnabled b = true → Address b ≠ a) →
    memory (world s) !! a = code a;
  bp_pending t p : pending s t p →
    ∃ b, points s !! p = Some b ∧ BreakpointEnabled b = false;
  bp_alone t t' p : pending s t p → pending s t' p → t = t';
  bp_listed : threads_listed s;
  bp_fresh p : is_Some (points s !! p) → 0 < p < free_address s;
  bp_free : 0 < free_address s
}.

(** What may hold while the list of the threads is rebuilt *)
Lemma Breakpoints_calm (s s' : nub W) :
  calm s s' → threads_listed s' → Breakpoints s → Breakpoints s'.
Proof.
  intros [Hp Hf Hm Hw] Hl B. split; rewrite ?Hp.
  - apply B.
  - apply B.
  - intros p b Hb He. rewrite Hm; [by eapply bp_enabled|]. by eapply bp_code.
  - intros a Ha H. rewrite Hm by done. by apply bp_memory.
  - intros t p H. eapply bp_pending; eauto.
  - intros t t' p H H'. eapply bp_alone; eauto.
  - done.
  - intros p H. apply (bp_fresh _ B) in H. lia.
  - pose proof (bp_free _ B). lia.
Qed.
Lemma Breakpoints_quiet (s s' : nub W) : quiet s s' → Breakpoints s → Breakpoints s'.
Proof. intros [Hc Hl] B. eapply Breakpoints_calm; [done | | done]. apply Hl, B. Qed.

(** A lifted point shows the code. *)
Lemma bp_lifted s p b : Breakpoints s → points s !! p = Some b → BreakpointEnabled b = false →
  memory (world s) !! Address b = code (Address b).
Proof.
  intros B Hb He. apply (bp_memory _ B); [by eapply bp_code|].
  intros q c Hc Hec Ha. assert (q = p) as -> by (eapply bp_address; eauto). congruence.
Qed.
(** Where a point is, 0xCC means that it is enabled. *)
Lemma bp_hit s p b : Breakpoints s → points s !! p = Some b →
  memory (world s) !! Address b = Some 204 → BreakpointEnabled b = true.
Proof.
  intros B Hb Hm. destruct (BreakpointEnabled b) eqn:He; [done|].
  rewrite (bp_lifted _ _ _ B Hb He) in Hm.
  destruct (bp_code _ B _ _ Hb) as (_ & x & Hx & Hne & _). congruence.
Qed.
Lemma bp_mapped s p b : Breakpoints s → points s !! p = Some b →
  is_Some (memory (world s) !! Address b).
Proof.
  intros B Hb. destruct (BreakpointEnabled b) eqn:He.
  - rewrite (bp_enabled _ B _ _ Hb He). eauto.
  - rewrite (bp_lifted _ _ _ B Hb He).
    destruct (bp_code _ B _ _ Hb) as (_ & x & -> & _). eauto.
Qed.

(** No point is at the null address. *)
Lemma bp_null s : Breakpoints s → points s !! 0 = None.
Proof.
  intros B. apply eq_None_not_Some. intros H. apply (bp_fresh _ B) in H. lia.
Qed.

(** ** Changes of the state *)

Lemma Breakpoints_planted s p b b' w :
  Breakpoints s → points s !! p = Some b → Address b' = Address b →
  BreakpointEnabled b' = true → SavedCodeSegment b' = code (Address b) →
  memory w = <[Address b := 204]> (memory (world s)) →
  (∀ t, ¬ pending s t p) →
  Breakpoints (set_world w (set_points (<[p := b']> (points s)) s)).
Proof.
  intros B Hb Ha He Hs Hw Hn. split; simpl; rewrite ?Hw.
  - intros q c [[<- <-] | [Hne Hc]]%lookup_insert_Some; [|by apply (bp_code _ B q)].
    rewrite Ha, Hs. destruct (bp_code _ B _ _ Hb) as (? & x & Hx & ? & _).
    split; [done|]. exists x. split_and!; [done..|]. intros y. congruence.
  - intros q r c d [[<- <-] | [Hne Hc]]%lookup_insert_Some
      [[<- <-] | [Hne' Hd]]%lookup_insert_Some; [done | | |].
    + rewrite Ha. intros E. by eapply (bp_address _ B).
    + rewrite Ha. intros E. by eapply (bp_address _ B).
    + intros E. by eapply (bp_address _ B).
  - intros q c [[<- <-] | [Hne Hc]]%lookup_insert_Some He'.
    + rewrite Ha. by rewrite lookup_insert_eq.
    + destruct (decide (Address b = Address c)) as [-> | Hd]; [by rewrite lookup_insert_eq|].
      rewrite lookup_insert_ne by done. by eapply (bp_enabled _ B).
  - intros a Hta H. rewrite lookup_insert_ne.
    2: { intros <-. apply (H p b'); [by rewrite lookup_insert_eq | done | done]. }
    apply (bp_memory _ B); [done|]. intros q c Hc Hec <-.
    destruct (decide (q = p)) as [-> | Hne].
    + apply (H p b'); [by rewrite lookup_insert_eq | done | congruence].
    + apply (H q c); [by rewrite lookup_insert_ne | done | done].
  - intros t q Hq. destruct (decide (q = p)) as [-> | Hne]; [by destruct (Hn t)|].
    rewrite lookup_insert_ne by done. by apply (bp_pending _ B t).
  - intros t t' q. apply (bp_alone _ B).
  - apply (bp_listed _ B).
  - intros q Hq. apply (bp_fresh _ B). destruct (decide (q = p)) as [-> | Hne]; [eauto|].
    by rewrite lookup_insert_ne in Hq.
  - apply (bp_free _ B).
Qed.

Lemma Breakpoints_lifted s p b w x :
  Breakpoints s → points s !! p = Some b → code (Address b) = Some x →
  memory w = <[Address b := x]> (memory (world s)) →
  Breakpoints (set_world w (set_points (<[p := set_BreakpointEnabled false b]> (points s)) s)).
Proof.
  intros B Hb Hx Hw. split; simpl; rewrite ?Hw.
  - intros q c [[<- <-] | [Hne Hc]]%lookup_insert_Some;
      [exact (bp_code _ B _ _ Hb) | exact (bp_code _ B _ _ Hc)].
  - intros q r c d [[<- <-] | [Hne Hc]]%lookup_insert_Some
      [[<- <-] | [Hne' Hd]]%lookup_insert_Some; [done | | |]; intros E;
      first [exact (bp_address _ B _ _ _ _ Hb Hd E) | exact (bp_address _ B _ _ _ _ Hc Hb E)
            | exact (bp_address _ B _ _ _ _ Hc Hd E)].
  - intros q c [[<- <-] | [Hne Hc]]%lookup_insert_Some He'; [done|].
    rewrite lookup_insert_ne; [by eapply (bp_enabled _ B)|].
    intros E. apply Hne. exact (bp_address _ B _ _ _ _ Hb Hc E).
  - intros a Hta H. destruct (decide (Address b = a)) as [<- | Hne];
      [by rewrite lookup_insert_eq|].
    rewrite lookup_insert_ne by done. apply (bp_memory _ B); [done|]. intros q c Hc Hec.
    destruct (decide (q = p)) as [-> | Hne']; [congruence|].
    apply (H q c); [by rewrite lookup_insert_ne | done].
  - intros t q Hq. destruct (bp_pending _ B _ _ Hq) as (c & Hc & He).
    destruct (decide (q = p)) as [-> | Hne]; [rewrite lookup_insert_eq; eauto|].
    rewrite lookup_insert_ne by done. eauto.
  - intros t t' q. apply (bp_alone _ B).
  - apply (bp_listed _ B).
  - intros q Hq. apply (bp_fresh _ B). destruct (decide (q = p)) as [-> | Hne]; [eauto|].
    by rewrite lookup_insert_ne in Hq.
  - apply (bp_free _ B).
Qed.

Lemma Breakpoints_new s b x :
  Breakpoints s → text (Address b) → code (Address b) = Some x → x ≠ 204 →
  BreakpointEnabled b = false → SavedCodeSegment b = None →
  (∀ p c, points s !! p = Some c → Address c ≠ Address b) →
  Breakpoints (set_points (<[free_address s := b]> (points s))
                 (set_free_address (free_address s + 1) s)).
Proof.
  intros B Ht Hx Hne He Hs Hn.
  assert (points s !! free_address s = None) as Hfresh.
  { apply eq_None_not_Some. intros H. apply (bp_fresh _ B) in H. lia. }
  split; simpl.
  - intros q c [[<- <-] | [? Hc]]%lookup_insert_Some; [|by apply (bp_code _ B q)].
    split; [done|]. exists x. split_and!; [done..|]. congruence.
  - intros q r c d [[<- <-] | [? Hc]]%lookup_insert_Some
      [[<- <-] | [? Hd]]%lookup_insert_Some; [done | | |]; intros E.
    + by destruct (Hn _ _ Hd).
    + by destruct (Hn _ _ Hc).
    + by eapply (bp_address _ B).
  - intros q c [[<- <-] | [? Hc]]%lookup_insert_Some He'; [congruence|].
    by eapply (bp_enabled _ B).
  - intros a Hta H. apply (bp_memory _ B); [done|]. intros q c Hc.
    apply (H q). rewrite lookup_insert_ne; [done | congruence].
  - intros t q Hq. destruct (bp_pending _ B _ _ Hq) as (c & Hc & ?).
    exists c. rewrite lookup_insert_ne; [done | congruence].
  - intros t t' q. apply (bp_alone _ B).
  - apply (bp_listed _ B).
  - intros q Hq. pose proof (bp_free _ B).
    destruct (decide (q = free_address s)) as [-> | ?]; [lia|].
    rewrite lookup_insert_ne in Hq by done. apply (bp_fresh _ B) in Hq. lia.
  - pose proof (bp_free _ B). lia.
Qed.

Lemma Breakpoints_freed s p b :
  Breakpoints s → points s !! p = Some b → BreakpointEnabled b = false →
  (∀ t, ¬ pending s t p) → Breakpoints (set_points (delete p (points s)) s).
Proof.
  intros B Hb He Hn. split; simpl.
  - intros q c [_ Hc]%lookup_delete_Some. by apply (bp_code _ B q).
  - intros q r c d [_ Hc]%lookup_delete_Some [_ Hd]%lookup_delete_Some. by apply (bp_address _ B).
  - intros q c [_ Hc]%lookup_delete_Some. by apply (bp_enabled _ B q).
  - intros a Hta H. apply (bp_memory _ B); [done|]. intros q c Hc Hec.
    apply (H q); [|done]. rewrite lookup_delete_ne; [done | congruence].
  - intros t q Hq. destruct (bp_pending _ B _ _ Hq) as (c & Hc & ?). exists c.
    rewrite lookup_delete_ne; [done|]. intros ->. by destruct (Hn t).
  - intros t t' q. apply (bp_alone _ B).
  - apply (bp_listed _ B).
  - intros q [c Hc]. apply lookup_delete_Some in Hc as [_ Hc]. apply (bp_fresh _ B). eauto.
  - apply (bp_free _ B).
Qed.

Lemma Breakpoints_waiting s t d p b :
  Breakpoints s → threads s !! t = Some d → points s !! p = Some b →
  BreakpointEnabled b = false → (∀ t', ¬ pending s t' p) →
  Breakpoints (set_threads
    (<[t := set_BreakpointToReplace p (set_NeedsBreakpointReplacement true d)]> (threads s)) s).
Proof.
  intros B Hd Hb He Hn.
  assert (∀ t' q, pending (set_threads (<[t := set_BreakpointToReplace p
            (set_NeedsBreakpointReplacement true d)]> (threads s)) s) t' q →
          (t' = t ∧ q = p) ∨ (t' ≠ t ∧ pending s t' q)) as Hp.
  { intros t' q (d' & Hd' & Hn' & Hq). simpl in Hd'.
    apply lookup_insert_Some in Hd' as [[<- <-] | [? ?]]; [by left|].
    right. split; [done|]. by exists d'. }
  split; simpl; [exact (bp_code _ B) | exact (bp_address _ B) | exact (bp_enabled _ B) |
    exact (bp_memory _ B) | | | | exact (bp_fresh _ B) | exact (bp_free _ B)].
  - intros t' q [[-> ->] | [_ Hq]]%Hp; [eauto|]. by apply (bp_pending _ B t').
  - intros t1 t2 q [[-> ->] | [? H1]]%Hp [[-> ?] | [? H2]]%Hp; subst; [done | | |].
    + by destruct (Hn t2).
    + by destruct (Hn t1).
    + by eapply (bp_alone _ B).
  - intros t' Ht'. simpl in Ht'. apply (bp_listed _ B).
    destruct (decide (t' = t)) as [-> | ?]; [eauto|]. by rewrite lookup_insert_ne in Ht'.
Qed.

(** ** Running the operations *)

Lemma run_in_world {A} (f : W → A * W) (s : nub W) :
  in_world f s = Some ((f (world s)).1, set_world (f (world s)).2 s).
Proof. done. Qed.
Lemma run_get_point p (s : nub W) b : points s !! p = Some b → get_point p s = Some (b, s).
Proof. intros H. unfold get_point, mbind, St_bind, get_st, lift_st. simpl. by rewrite H. Qed.
Lemma run_upd_point p f (s : nub W) b : points s !! p = Some b →
  upd_point p f s = Some ((), set_points (<[p := f b]> (points s)) s).
Proof. intros H. unfold upd_point. by sstep (run_get_point _ _ _ H). Qed.
Lemma run_get_thread t (s : nub W) d : threads s !! t = Some d → get_thread t s = Some (d, s).
Proof. intros H. unfold get_thread, mbind, St_bind, get_st, lift_st. simpl. by rewrite H. Qed.
Lemma run_upd_thread t f (s : nub W) d : threads s !! t = Some d →
  upd_thread t f s = Some ((), set_threads (<[t := f d]> (threads s)) s).
Proof. intros H. unfold upd_thread. by sstep (run_get_thread _ _ _ H). Qed.

Lemma read_byte a (w : W) x : memory w !! a = Some x → ReadProcessMemory a 1 w = Some [x].
Proof. intros H. rewrite read_memory. simpl. by rewrite H. Qed.
Lemma write_byte a x (w : W) : text a → is_Some (memory w !! a) →
  (WriteProcessMemory a [x] w).1 = true ∧
  memory (WriteProcessMemory a [x] w).2 = <[a := x]> (memory w).
Proof.
  intros Ht H. destruct (write_memory a [x] w) as [H1 H2]; [|done].
  simpl. intros b Hb. assert (b = a) as -> by lia. split; [done|]. by apply text_writable.
Qed.

(** [drop_breakpoint] and [lift_breakpoint] in a state where the byte can be reached *)
Lemma run_drop_breakpoint (s : nub W) p b x :
  points s !! p = Some b → text (Address b) → memory (world s) !! Address b = Some x →
  drop_breakpoint p s =
    Some (1, set_world (WriteProcessMemory (Address b) [204] (world s)).2
      (set_points (<[p := set_SavedCodeSegment (Some x) (set_BreakpointEnabled true b)]> (points s)) s)).
Proof.
  intros Hb Ht Hx. unfold drop_breakpoint. sstep (run_upd_point p (set_BreakpointEnabled true) _ _ Hb).
  assert (points (set_points (<[p := set_BreakpointEnabled true b]> (points s)) s) !! p =
          Some (set_BreakpointEnabled true b)) as Hb' by (simpl; by rewrite lookup_insert_eq).
  sstep (run_get_point _ _ _ Hb'). unfold primitive_drop_breakpoint, ask_world, ask. snorm.
  sstep (eq_refl (get_st (set_points (<[p := set_BreakpointEnabled true b]> (points s)) s))).
  simpl. rewrite (read_byte _ _ _ Hx).
  sstep (run_upd_point p (set_SavedCodeSegment (Some x)) _ _ Hb').
  unfold ValidatedWriteProcessMemory. sstep (run_in_world (WriteProcessMemory (Address b) [204])
    (set_points (<[p := set_SavedCodeSegment (Some x) (set_BreakpointEnabled true b)]>
       (points (set_points (<[p := set_BreakpointEnabled true b]> (points s)) s)))
       (set_points (<[p := set_BreakpointEnabled true b]> (points s)) s))).
  simpl. rewrite (proj1 (write_byte (Address b) 204 (world s) Ht ltac:(eauto))).
  unfold set_points, set_world. simpl. by rewrite insert_insert_eq.
Qed.

Lemma run_lift_breakpoint (s : nub W) p b x :
  points s !! p = Some b → SavedCodeSegment b = Some x →
  text (Address b) → is_Some (memory (world s) !! Address b) →
  lift_breakpoint p s =
    Some (1, set_world (WriteProcessMemory (Address b) [x] (world s)).2
      (set_points (<[p := set_BreakpointEnabled false b]> (points s)) s)).
Proof.
  intros Hb Hs Ht Hx. unfold lift_breakpoint.
  sstep (run_upd_point p (set_BreakpointEnabled false) _ _ Hb).
  assert (points (set_points (<[p := set_BreakpointEnabled false b]> (points s)) s) !! p =
          Some (set_BreakpointEnabled false b)) as Hb' by (simpl; by rewrite lookup_insert_eq).
  sstep (run_get_point _ _ _ Hb'). simpl. rewrite Hs.
  sstep (run_lift x (set_points (<[p := set_BreakpointEnabled false b]> (points s)) s)).
  unfold primitive_lift_breakpoint, ValidatedWriteProcessMemory.
  sstep (run_in_world (WriteProcessMemory (Address b) [x])
    (set_points (<[p := set_BreakpointEnabled false b]> (points s)) s)).
  simpl. by rewrite (proj1 (write_byte (Address b) x (world s) Ht Hx)).
Qed.

(** ** The operations keep the invariant *)

Lemma Breakpoints_drop s p b :
  Breakpoints s → points s !! p = Some b → BreakpointEnabled b = false →
  (∀ t, ¬ pending s t p) →
  ∃ w b', drop_breakpoint p s = Some (1, set_world w (set_points (<[p := b']> (points s)) s)) ∧
    Address b' = Address b ∧ BreakpointEnabled b' = true ∧
    Breakpoints (set_world w (set_points (<[p := b']> (points s)) s)).
Proof.
  intros B Hb He Hn. destruct (bp_mapped _ _ _ B Hb) as [x Hx].
  pose proof (proj1 (bp_code _ B _ _ Hb)) as Ht.
  eexists _, _. split; [by apply run_drop_breakpoint|]. split; [done|]. split; [done|].
  eapply Breakpoints_planted; [done.. | | | done].
  - simpl. by rewrite <- Hx, (bp_lifted _ _ _ B Hb He).
  - apply write_byte; eauto.
Qed.

Lemma upd_point_inv p f (s : nub W) r s' : upd_point p f s = Some (r, s') →
  ∃ b, points s !! p = Some b ∧ s' = set_points (<[p := f b]> (points s)) s.
Proof.
  unfold upd_point. intros H. sinv H. apply get_point_inv in E as [? ->].
  injection H as _ <-. eauto.
Qed.

Lemma Breakpoints_lift s p r s' :
  Breakpoints s → lift_breakpoint p s = Some (r, s') →
  ∃ b w, points s !! p = Some b ∧
    s' = set_world w (set_points (<[p := set_BreakpointEnabled false b]> (points s)) s) ∧
    Breakpoints s'.
Proof.
  intros B H. assert (∃ b x, points s !! p = Some b ∧ SavedCodeSegment b = Some x)
    as (b & x & Hb & Hs).
  { unfold lift_breakpoint in H. sinv H. apply upd_point_inv in E as (b & Hb & ->).
    apply get_point_inv in E0 as [Hb' ->]. simpl in Hb'. rewrite lookup_insert_eq in Hb'.
    injection Hb' as <-. unfold lift_st in E1. simpl in E1.
    destruct (SavedCodeSegment b) as [x|] eqn:Hs; [|done]. eauto. }
  pose proof (bp_mapped _ _ _ B Hb) as Hm.
  pose proof (proj1 (bp_code _ B _ _ Hb)) as Ht.
  rewrite (run_lift_breakpoint _ _ _ _ Hb Hs Ht Hm) in H. injection H as _ <-.
  eexists _, _. split; [done|]. split; [done|].
  destruct (bp_code _ B _ _ Hb) as (_ & y & Hy & _ & Hsy). rewrite (Hsy _ Hs).
  eapply Breakpoints_lifted; [done.. |]. by apply write_byte.
Qed.

Notation Preserves := (Keeps (λ s s', Breakpoints s → Breakpoints s')).

#[export] Instance preserves_preorder : PreOrder (λ s s' : nub W, Breakpoints s → Breakpoints s').
Proof. split; [by intros s | by intros s1 s2 s3 H1 H2 B; apply H2, H1]. Qed.

Lemma preserves_quiet {A} (m : M A) : Keeps quiet m → Preserves m.
Proof. intros H s a s' E. apply Breakpoints_quiet. by eapply H. Qed.

Lemma preserves_lift p : Preserves (lift_breakpoint p).
Proof. intros s r s' E B. by destruct (Breakpoints_lift _ _ _ _ B E) as (b & w & _ & _ & ?). Qed.

(** A point that is hit is lifted, and the thread waits to write it back. *)
Lemma Breakpoints_handle_application_breakpoint t p s b a s' :
  Breakpoints s → points s !! p = Some b → BreakpointEnabled b = true →
  handle_application_breakpoint t p s = Some (a, s') → Breakpoints s'.
Proof.
  intros B Hb He H. unfold handle_application_breakpoint in H. sinv H.
  destruct (Breakpoints_lift _ _ _ _ B E) as (b0 & w & Hb0 & -> & B1).
  assert (b0 = b) as -> by congruence. clear Hb0.
  set (m := set_world w _) in *.
  assert (∀ t', ¬ pending m t' p) as Hn.
  { intros t' Hp. destruct (bp_pending _ B t' p Hp) as (c & Hc & ?). congruence. }
  pose proof (quiet_rewind_thread_eip t _ _ _ E0) as Q1.
  pose proof (Breakpoints_quiet _ _ Q1 B1) as B2.
  apply reads_ask in E1 as <-.
  destruct a2; simpl in H; [by injection H as _ <-|].
  sinv H. apply quiet_prepare in E1 as Q3. pose proof (Breakpoints_quiet _ _ Q3 B2) as B3.
  assert (quiet m s0) as [Qc _] by (by etransitivity).
  apply upd_thread_inv in H as (d & Hd & ->).
  eapply Breakpoints_waiting; [done | done | | | ].
  - rewrite (calm_points _ _ Qc). unfold m. simpl. by rewrite lookup_insert_eq.
  - done.
  - intros t' Hp. apply (Hn t'). by apply (calm_pending _ _ Qc).
Qed.

Lemma Breakpoints_recover t s a s' :
  Breakpoints s → (∃ d, threads s !! t = Some d ∧ NeedsBreakpointReplacement d = true) →
  recover_from_breakpoint t s = Some (a, s') → Breakpoints s'.
Proof.
  intros B (d & Hd & Hn) H. unfold recover_from_breakpoint in H. sinv H.
  apply reads_get_thread_context in E as <-.
  apply upd_thread_inv in E0 as (d' & Hd' & ->). assert (d' = d) as -> by congruence.
  apply get_thread_inv in E1 as [Hd1 ->]. simpl in Hd1. rewrite lookup_insert_eq in Hd1.
  injection Hd1 as <-. set (m := set_threads _ s) in *.
  assert (quiet s m) as Q.
  { apply (quiet_upd_thread t (set_NeedsBreakpointReplacement false)) with (a := ()).
    - intros d1. done.
    - unfold m. by rewrite (run_upd_thread _ _ _ _ Hd). }
  pose proof (Breakpoints_quiet _ _ Q B) as B1.
  assert (pending s t (BreakpointToReplace d)) as Hp by (exists d; done).
  destruct (bp_pending _ B _ _ Hp) as (b & Hb & He).
  assert (∀ t', ¬ pending m t' (BreakpointToReplace d)) as Hnone.
  { intros t' Hp'. assert (t' = t) as ->.
    { eapply (bp_alone _ B); [|exact Hp]. by apply (calm_pending _ _ (quiet_calm _ _ Q)). }
    destruct Hp' as (d' & Hd2 & Hn2 & _). unfold m in Hd2. simpl in Hd2.
    rewrite lookup_insert_eq in Hd2. injection Hd2 as <-. done. }
  simpl in E2. destruct (Breakpoints_drop m _ b B1 Hb He Hnone) as (w & b' & Hrun & _ & _ & B2).
  rewrite Hrun in E2. injection E2 as _ <-.
  injection H as _ <-.
  unfold lift_st in E3. destruct a0; [|done]. injection E3 as _ <-.
  eapply Breakpoints_quiet; [|exact B2]. eapply quiet_in_world; [|exact E4].
  apply set_context_leaves.
Qed.

End nub.
