(* ===== verification/NubSessions.v ===== *)
(** * Sessions with the debugger nub

    The functions of the interface keep [Breakpoints], when they are called the way
    [polite] says, and so does a whole session. *)

From S2P Require Import Prelude Effects HeapTable NubOS Nub NubPoints NubEvents NubWait.
From S2P Require Import NubLaws NubBreakpoints.
From stdpp Require Import base tactics option list numbers gmap.
From Stdlib Require Import ZArith Lia Bool.

Local Open Scope Z_scope.

Section nub.
Context {W : Type} `{!Windows W} `{!WindowsLaws W}.
Context (code : Z → option Z).

Notation M := (St (nub W)).
Notation Breakpoints := (Breakpoints code).
Notation Preserves := (Keeps (λ s s', Breakpoints s → Breakpoints s')).

(** ** Breakpoints that are hit *)

Lemma find_point_found f l (s : nub W) p s' :
  find_point f l s = Some (p, s') → p ≠ 0 → ∃ b, points s !! p = Some b ∧ f b = true.
Proof.
  intros H Hp. induction l as [|q l IH]; simpl in H; [injection H as <- _; done|].
  sinv H. apply get_point_inv in E as [Hb ->]. destruct (f a) eqn:Hf; [|by apply IH].
  injection H as <- _. eauto.
Qed.
Lemma breakpoint_from_address_found a (s : nub W) p s' :
  breakpoint_from_address a s = Some (p, s') → p ≠ 0 →
  ∃ b, points s !! p = Some b ∧ Address b = a.
Proof.
  unfold breakpoint_from_address. intros H Hp. sinv H. apply reads_ask in E as <-.
  destruct (find_point_found _ _ _ _ _ H Hp) as (b & Hb & Hat).
  unfold at_address in Hat. exists b. split; [done|]. lia.
Qed.
Lemma stepping_for_this_found t a (s : nub W) p s' :
  stepping_capture_breakpoint_for_this_thread t a s = Some (p, s') → p ≠ 0 →
  ∃ b, points s !! p = Some b ∧ Address b = a.
Proof.
  unfold stepping_capture_breakpoint_for_this_thread. intros H Hp. sinv H.
  apply get_thread_inv in E as [_ ->].
  destruct (find_point_found _ _ _ _ _ H Hp) as (b & Hb & Hat).
  unfold at_address in Hat. exists b. split; [done|]. lia.
Qed.
Lemma stepping_for_any_found a (s : nub W) p s' :
  stepping_capture_breakpoint_for_any_thread a s = Some (p, s') → p ≠ 0 →
  ∃ b, points s !! p = Some b ∧ Address b = a.
Proof.
  unfold stepping_capture_breakpoint_for_any_thread. intros H Hp. sinv H.
  apply reads_ask in E as <-. induction a0 as [|t l IH]; simpl in H; [injection H as <- _; done|].
  sinv H. pose proof (reads_stepping_for_this t a _ _ _ E) as <-.
  destruct (decide (a0 = 0)) as [-> | Hne]; [by apply IH|].
  rewrite (proj2 (Z.eqb_neq a0 0) Hne) in H. injection H as <- _.
  by eapply stepping_for_this_found.
Qed.

(** The processor stops at an address of the code only where there is a breakpoint. *)
Definition stopped_at (address : Z) (s : nub W) : Prop :=
  text address → memory (world s) !! address = Some 204.

Lemma stopped_at_calm a (s s' : nub W) : calm s s' → stopped_at a s → stopped_at a s'.
Proof. intros Hc H Ha. rewrite (calm_text _ _ Hc) by done. auto. Qed.

Lemma stopped_enabled a s p b : Breakpoints s → stopped_at a s →
  points s !! p = Some b → Address b = a → BreakpointEnabled b = true.
Proof.
  intros B H Hb <-. eapply bp_hit; [done | done |]. apply H. by eapply bp_code.
Qed.

Lemma preserves_handle_stepping t p : Preserves (handle_stepping_capture_breakpoint t p).
Proof.
  unfold handle_stepping_capture_breakpoint. solve_keeps.
  - apply preserves_lift.
  - apply preserves_quiet, quiet_rewind_thread_eip.
Qed.

Lemma Breakpoints_handle_breakpoint_hit t address s a s' :
  Breakpoints s → stopped_at address s →
  handle_breakpoint_hit t address s = Some (a, s') → Breakpoints s'.
Proof.
  intros B Hs H. unfold handle_breakpoint_hit in H. sinv H.
  apply reads_stepping_for_this in E as <-. apply reads_breakpoint_from_address in E0 as Hr.
  subst s1. assert (quiet s s2) as Q.
  { destruct (negb (a0 =? 0)); [by eapply quiet_check_context|].
    injection E1 as _ <-. reflexivity. }
  pose proof (Breakpoints_quiet _ _ _ Q B) as B2.
  pose proof (stopped_at_calm _ _ _ (quiet_calm _ _ Q) Hs) as Hs2.
  assert (∀ p r s', p ≠ 0 → (∃ b, points s2 !! p = Some b ∧ Address b = address) →
            handle_application_breakpoint t p s2 = Some (r, s') → Breakpoints s') as Happ.
  { intros p r s0 _ (b & Hb & Ha) Hrun.
    eapply Breakpoints_handle_application_breakpoint; [done | done | | done].
    by eapply stopped_enabled. }
  destruct a2.
  - sinv H. apply get_point_inv in E as [_ ->]. injection H as _ <-.
    by eapply preserves_handle_stepping.
  - sinv H. pose proof (reads_stepping_for_any _ _ _ _ E) as <-.
    destruct (decide (a1 = 0)) as [-> | Hne]; simpl in *.
    + injection H as _ <-. destruct (a2 =? 0) eqn:H2; simpl in E2; sinv E2;
        injection E2 as _ <-; [done|].
      eapply Happ; [| |done]; [lia|]. eapply stepping_for_any_found; [done | lia].
    + rewrite (proj2 (Z.eqb_neq a1 0) Hne) in *. simpl in *. sinv H. injection H as _ <-.
      assert (s1 = s2) as ->.
      { destruct (a2 =? 0); simpl in E2; sinv E2; injection E2 as _ <-; [done|].
        by injection E4 as _ <-. }
      eapply Happ; [done | | done]. rewrite (calm_points _ _ (quiet_calm _ _ Q)).
      by eapply breakpoint_from_address_found.
Qed.

(** ** New breakpoints *)

(** An address where a breakpoint may be planted *)
Definition plantable (a : Z) : Prop := text a ∧ ∃ x, code a = Some x ∧ x ≠ 204.
Definition unused (s : nub W) (a : Z) : Prop := ∀ p b, points s !! p = Some b → Address b ≠ a.

(** A new point, and its drop after something [quiet] *)
Lemma Breakpoints_plant_new s b s2 r s3 :
  Breakpoints s → plantable (Address b) → unused s (Address b) →
  BreakpointEnabled b = false → SavedCodeSegment b = None →
  quiet (set_points (<[free_address s := b]> (points s))
           (set_free_address (free_address s + 1) s)) s2 →
  drop_breakpoint (free_address s) s2 = Some (r, s3) →
  Breakpoints s3 ∧ threads s3 = threads s2 ∧
  ∀ q c, points s3 !! q = Some c → Address c = Address b ∨ points s !! q = Some c.
Proof.
  intros B [Ht (x & Hx & Hne)] Hu He Hs Q H.
  set (s1 := set_points _ _) in *.
  assert (Breakpoints s1) as B1 by (eapply Breakpoints_new; eauto).
  pose proof (Breakpoints_quiet _ _ _ Q B1) as B2.
  destruct Q as [C _]. pose proof (calm_points _ _ C) as Hp. simpl in Hp.
  assert (∀ t, ¬ pending s2 t (free_address s)) as Hn.
  { intros t Hpe%(calm_pending _ _ C). destruct (bp_pending _ _ B _ _ Hpe) as (c & Hc & _).
    destruct (bp_fresh _ _ B (free_address s)); eauto with lia. }
  destruct (Breakpoints_drop code s2 (free_address s) b) as (w & b' & Hrun & Ha & _ & B3);
    [done | | done | done |].
  { rewrite Hp. by rewrite lookup_insert_eq. }
  rewrite Hrun in H. injection H as _ <-. split; [done|]. split; [done|].
  simpl. rewrite Hp. intros q c [[<- <-] | [Hq Hc]]%lookup_insert_Some; [by left|].
  rewrite lookup_insert_ne in Hc by done. by right.
Qed.

Lemma find_point_none f l (s : nub W) s' q b :
  find_point f l s = Some (0, s') → q ∈ l → points s !! 0 = None → points s !! q = Some b →
  f b = false.
Proof.
  intros H Hq H0 Hb. induction l as [|p l IH]; simpl in H; [by apply not_elem_of_nil in Hq|].
  sinv H. apply get_point_inv in E as [Hp ->]. destruct (f a) eqn:Hf.
  - injection H as -> _. congruence.
  - apply elem_of_cons in Hq as [-> | Hq]; [congruence | by apply IH].
Qed.

Lemma run_new_point b (s : nub W) : new_point b s =
  Some (free_address s, set_points (<[free_address s := b]> (points s))
                          (set_free_address (free_address s + 1) s)).
Proof. done. Qed.

Lemma Breakpoints_set_application_breakpoint a s r s' :
  Breakpoints s → plantable a → unused s a →
  set_application_breakpoint a s = Some (r, s') → Breakpoints s'.
Proof.
  intros B Hp Hu H. unfold set_application_breakpoint in H. sinv H.
  injection H as _ <-. rewrite run_new_point in E. injection E as <- <-. injection E0 as _ <-.
  eapply (Breakpoints_plant_new s (mkPoint DBG_POINT_BREAKPOINT APPLICATION_BREAKPOINT a false
    None 0 0 0)); [done.. | | done].
  by apply quiet_same.
Qed.

(** The client sets a breakpoint only on code, where there is no other point, and not
    again on one that a thread waits to write back. *)
Definition polite_set (s : nub W) (a : Z) : Prop :=
  plantable a ∧
  ∀ p b, points s !! p = Some b → Address b = a →
    p ∈ DebugPointList s ∧ DebugPointType b = DBG_POINT_BREAKPOINT ∧
    Type_ b = APPLICATION_BREAKPOINT ∧
    (BreakpointEnabled b = false → ∀ t, ¬ pending s t p).

Lemma Breakpoints_nub_set_breakpoint a s r s' :
  Breakpoints s → polite_set s a → nub_set_breakpoint a s = Some (r, s') → Breakpoints s'.
Proof.
  intros B [Hp Hu] H. unfold nub_set_breakpoint in H. sinv H.
  pose proof (reads_breakpoint_from_address _ _ _ _ E) as <-.
  destruct (decide (a0 = 0)) as [-> | Hne].
  - simpl in E0. injection E0 as <- <-. sinv H. injection H as _ <-.
    eapply Breakpoints_set_application_breakpoint; [done | done | | done].
    intros p b Hb Ha. destruct (Hu _ _ Hb Ha) as (Hin & Hk & _ & _).
    unfold breakpoint_from_address in E. sinv E. injection E1 as <- <-.
    pose proof (find_point_none _ _ _ _ _ _ E Hin (bp_null _ _ B) Hb) as Hat.
    unfold at_address in Hat. by rewrite Hk, Ha, !Z.eqb_refl in Hat.
  - rewrite (proj2 (Z.eqb_neq a0 0) Hne) in E0. simpl in E0. sinv E0.
    apply get_point_inv in E1 as [Hb ->]. injection E0 as <- <-.
    destruct (breakpoint_from_address_found _ _ _ _ E Hne) as (b & Hb' & Ha).
    assert (a2 = b) as -> by congruence.
    destruct (Hu _ _ Hb Ha) as (Hin & Hk & Ht & Hpend). rewrite Ht in H. simpl in H.
    destruct (BreakpointEnabled b) eqn:He; [by injection H as _ <-|]. sinv H.
    injection H as _ <-.
    destruct (Breakpoints_drop code s _ _ B Hb He (Hpend eq_refl)) as (w & b' & Hrun & _ & _ & ?).
    rewrite Hrun in E0. by injection E0 as _ <-.
Qed.

(** ** Clearing *)

Lemma forget_replacement_done p t s r s' :
  forget_replacement p t s = Some (r, s') → ¬ pending s' t p.
Proof.
  unfold forget_replacement. intros H. sinv H. apply get_thread_inv in E as [Hd ->].
  destruct (NeedsBreakpointReplacement a && (BreakpointToReplace a =? p)) eqn:Hn; simpl in H.
  - sinv H. apply upd_thread_inv in E as (d & Hd' & ->).
    assert (d = a) as -> by congruence. intros Hp.
    assert (calm (set_threads (<[t := set_NeedsBreakpointReplacement false a]> (threads s)) s) s')
      as C.
    { refine ((_ : Keeps calm _) _ _ _ H). apply keeps_calm. solve_keeps. }
    apply (calm_pending _ _ C) in Hp as (d & Hd2 & Hn2 & _). simpl in Hd2.
    rewrite lookup_insert_eq in Hd2. by injection Hd2 as <-.
  - injection H as _ <-. intros (d & Hd' & Hn' & Hp).
    assert (d = a) as -> by congruence. rewrite Hn' in Hn. simpl in Hn. lia.
Qed.

Lemma forget_replacements p ts s r s' :
  for_each ts (forget_replacement p) s = Some (r, s') →
  quiet s s' ∧ ∀ t, t ∈ ts → ¬ pending s' t p.
Proof.
  revert s r. induction ts as [|t ts IH]; simpl; intros s r H.
  - injection H as _ <-. split; [reflexivity|]. intros t Ht. by apply not_elem_of_nil in Ht.
  - sinv H. destruct (IH _ _ H) as [Q Hn]. pose proof (quiet_forget_replacement _ _ _ _ _ E) as Q0.
    split; [by etransitivity|]. intros t' [-> | Ht']%elem_of_cons; [|by apply Hn].
    intros Hp%(calm_pending _ _ (quiet_calm _ _ Q)). revert Hp.
    by eapply forget_replacement_done.
Qed.

Lemma free_point_inv p (s : nub W) r s' :
  free_point p s = Some (r, s') → s' = set_points (delete p (points s)) s.
Proof.
  unfold free_point. intros H. sinv H. apply get_point_inv in E as [_ ->].
  by injection H as _ <-.
Qed.

Lemma Breakpoints_clear_points address l s l' s' :
  Breakpoints s → clear_points address l s = Some (l', s') → Breakpoints s'.
Proof.
  revert s l' s'. induction l as [|p l IH]; simpl; intros s l' s' B H;
    [by injection H as _ <-|].
  sinv H. apply get_point_inv in E as [Hb ->].
  destruct (_ && _ && _).
  - sinv H. destruct (Breakpoints_lift _ _ _ _ _ B E) as (b & w & Hb' & -> & B1).
    injection E0 as <- <-.
    destruct (forget_replacements _ _ _ _ _ E1) as [Q Hn].
    pose proof (Breakpoints_quiet _ _ _ Q B1) as B2. apply free_point_inv in E2 as ->.
    eapply IH; [|exact H]. eapply (Breakpoints_freed code _ p (set_BreakpointEnabled false b));
      [done | | done |].
    + rewrite (calm_points _ _ (quiet_calm _ _ Q)). simpl. by rewrite lookup_insert_eq.
    + intros t Hp. assert (t ∈ ThreadList s) as Ht; [|by apply (Hn t Ht)].
      apply (calm_pending _ _ (quiet_calm _ _ Q)) in Hp as (d & Hd & _).
      apply (bp_listed _ _ B). by exists d.
  - sinv H. injection H as _ <-. by eapply IH.
Qed.

Lemma preserves_nub_clear_breakpoint a : Preserves (nub_clear_breakpoint a).
Proof.
  unfold nub_clear_breakpoint, clear_application_breakpoint. solve_keeps.
  - intros s l' s' H B. by eapply Breakpoints_clear_points.
  - apply preserves_quiet. solve_keeps.
Qed.

(** ** Stepping *)

(** The locations are code, different, and unused. *)
Definition polite_locations (s : nub W) (locations : list Z) : Prop :=
  NoDup locations ∧ ∀ a, a ∈ locations → plantable a ∧ unused s a.

Lemma Breakpoints_add_stepping t a fr cf ty s r s' :
  Breakpoints s → plantable a → unused s a →
  add_stepping_capture_breakpoint_for_thread t a fr cf ty s = Some (r, s') →
  Breakpoints s' ∧ ∀ q c, points s' !! q = Some c → Address c = a ∨ points s !! q = Some c.
Proof.
  intros B Hp Hu H. unfold add_stepping_capture_breakpoint_for_thread in H. sinv H.
  injection H as _ <-. apply get_thread_inv in E as [_ ->].
  rewrite run_new_point in E0. injection E0 as <- <-.
  assert (Breakpoints s3 ∧ threads s3 = threads s2 ∧ ∀ q c,
    points s3 !! q = Some c → Address c = a ∨ points s !! q = Some c) as (? & _ & ?); [|done].
  eapply (Breakpoints_plant_new s (mkPoint DBG_POINT_BREAKPOINT ty a false None t fr cf));
    [done.. | | done].
  eapply quiet_upd_thread; [|exact E1]. intros d. done.
Qed.

Lemma Breakpoints_add_all t eip fr cf ty locations s r s' :
  Breakpoints s → polite_locations s locations →
  for_each locations (λ a, when_ (negb (a =? eip))
    (add_stepping_capture_breakpoint_for_thread t a fr cf ty)) s = Some (r, s') →
  Breakpoints s'.
Proof.
  revert s r. induction locations as [|a l IH]; simpl; intros s r B [Hnd Hl] H;
    [by injection H as _ <-|].
  apply NoDup_cons in Hnd as [Ha Hnd]. sinv H.
  destruct (negb (a =? eip)); simpl in E.
  - destruct (Hl a (list_elem_of_here _ _)) as [Hp Hu].
    destruct (Breakpoints_add_stepping _ _ _ _ _ _ _ _ B Hp Hu E) as [B1 Hpoints].
    eapply IH; [exact B1 | | exact H]. split; [done|]. intros a' Ha'.
    destruct (Hl a' (list_elem_of_further _ _ _ Ha')) as [Hp' Hu']. split; [done|].
    intros q c Hc Heq. destruct (Hpoints _ _ Hc) as [<- | Hc']; [congruence|].
    by eapply Hu'.
  - injection E as _ <-. eapply IH; [exact B | | exact H]. split; [done|].
    intros a' Ha'. apply Hl. by apply list_elem_of_further.
Qed.

Lemma Breakpoints_set_stepping t fr cf locations ty s r s' :
  Breakpoints s → polite_locations s locations →
  nub_set_stepping_control_on_thread t fr cf locations ty s = Some (r, s') → Breakpoints s'.
Proof.
  intros B Hl H. unfold nub_set_stepping_control_on_thread in H. sinv H.
  apply get_thread_inv in E as [_ ->]. injection E0 as _ <-.
  unfold lift_st in E1. destruct a0 as [c|]; [|done]. injection E1 as <- <-.
  injection H as _ <-. by eapply Breakpoints_add_all.
Qed.

(** The points of a thread are not taken away while a thread waits to write one back. *)
Definition polite_clear_stepping (s : nub W) (t : Z) : Prop :=
  ∀ d, threads s !! t = Some d → ∀ p, p ∈ SteppingCaptureBreakpoints d →
    ∀ t', ¬ pending s t' p.

Lemma Breakpoints_lift_all l s r s' :
  Breakpoints s → (∀ p, p ∈ l → ∀ t, ¬ pending s t p) →
  for_each l (λ p, lift_breakpoint p ;; free_point p) s = Some (r, s') → Breakpoints s'.
Proof.
  revert s r. induction l as [|p l IH]; simpl; intros s r B Hn H; [by injection H as _ <-|].
  sinv H. sinv E. destruct (Breakpoints_lift _ _ _ _ _ B E0) as (b & w & Hb & -> & B1).
  apply free_point_inv in E as ->. eapply IH; [| |exact H].
  - eapply (Breakpoints_freed code _ p (set_BreakpointEnabled false b)); [done | | done |].
    + simpl. by rewrite lookup_insert_eq.
    + apply Hn. by apply list_elem_of_here.
  - intros q Hq. apply Hn. by apply list_elem_of_further.
Qed.

Lemma Breakpoints_clear_stepping t s r s' :
  Breakpoints s → polite_clear_stepping s t →
  nub_clear_stepping_control_on_thread t s = Some (r, s') → Breakpoints s'.
Proof.
  intros B Hp H. unfold nub_clear_stepping_control_on_thread in H. sinv H.
  injection H as _ <-. unfold lift_all_stepping_capture_breakpoints in E. sinv E.
  apply get_thread_inv in E0 as [Hd ->].
  assert (Breakpoints s2) as B2 by (eapply Breakpoints_lift_all; [done | | done]; by apply Hp).
  eapply Breakpoints_quiet; [|exact B2]. eapply quiet_upd_thread; [|exact E]. intros d. done.
Qed.

End nub.
