(* ===== verification/NubDebuggee.v ===== *)
(** * A process to debug

    An instance of [Windows] and of its laws, for examples: a processor with a few
    instructions of one byte, and the events that are given in a script beforehand.  Its
    thread has the handle and the identifier 1. *)

From S2P Require Import Prelude Effects HeapTable NubOS Nub NubPoints NubEvents NubWait.
From stdpp Require Import base tactics option list numbers gmap sets.
From Stdlib Require Import ZArith Lia Bool.

Local Open Scope Z_scope.

Record debuggee := mkDebuggee {
  d_memory : gmap Z Z;
  d_contexts : gmap Z context;
  d_script : list debug_event;
  d_received : list debug_event;
  d_continued : list (Z * Z * Z);
  d_time : Z
}.

(** ** The processor

    0xCC stops, 0xEB with a displacement of one byte, unsigned and backwards, jumps,
    0xC3 ends the process, and everything else does nothing. *)

Definition exception_event (code address : Z) : debug_event :=
  mkEvent 1 1 (Exception code address 1 []).

Inductive outcome := Stopped (e : debug_event) (c : context) | Going (c : context).

Definition instruction (m : gmap Z Z) (c : context) : outcome :=
  match m !! Eip c with
  | Some b =>
      if b =? 204 then
        Stopped (exception_event EXCEPTION_BREAKPOINT (Eip c)) (set_Eip (Eip c + 1) c)
      else if b =? 195 then Stopped (mkEvent 1 1 (ExitProcess 0)) c
      else
        let c' := if b =? 235 then set_Eip (Eip c - default 0 (m !! (Eip c + 1))) c
                  else set_Eip (Eip c + 1) c in
        if Z.testbit (EFlags c) 8
        then Stopped (exception_event EXCEPTION_SINGLE_STEP (Eip c')) (trap_off c')
        else Going c'
  | None => Stopped (exception_event EXCEPTION_ACCESS_VIOLATION (Eip c)) c
  end.

Fixpoint execute (fuel : nat) (m : gmap Z Z) (c : context) : option debug_event * context :=
  match fuel with
  | O => (None, c)
  | S fuel =>
      match instruction m c with
      | Stopped e c => (Some e, c)
      | Going c => execute fuel m c
      end
  end.

(** ** The functions of Windows *)

Definition d_set_memory (m : gmap Z Z) (w : debuggee) : debuggee :=
  mkDebuggee m (d_contexts w) (d_script w) (d_received w) (d_continued w) (d_time w).
Definition d_set_contexts (c : gmap Z context) (w : debuggee) : debuggee :=
  mkDebuggee (d_memory w) c (d_script w) (d_received w) (d_continued w) (d_time w).
Definition d_answer (x : Z * Z * Z) (w : debuggee) : debuggee :=
  mkDebuggee (d_memory w) (d_contexts w) (d_script w) (d_received w) (d_continued w ++ [x])
    (d_time w).
Definition d_deliver (e : option debug_event) (script : list debug_event)
    (c : gmap Z context) (w : debuggee) : debuggee :=
  mkDebuggee (d_memory w) c script (d_received w ++ option_list e) (d_continued w) (d_time w).
Definition d_tick (w : debuggee) : debuggee :=
  mkDebuggee (d_memory w) (d_contexts w) (d_script w) (d_received w) (d_continued w)
    (d_time w + 10000).

(** A breakpoint in the script is one in memory, and threads are made before they do
    something. *)
Definition genuine (w : debuggee) (e : debug_event) : bool :=
  match information e with
  | Exception code address _ _ =>
      if code =? EXCEPTION_BREAKPOINT then bool_decide (d_memory w !! address = Some 204) else true
  | _ => true
  end && bool_decide (dwProcessId e = 1 → known 1 1 (d_received w) e).

(** The debugger may write below 6000. *)
Fixpoint d_writable (m : gmap Z Z) (a : Z) (n : nat) : bool :=
  match n with
  | O => true
  | S n => bool_decide (is_Some (m !! a)) && (a <? 6000) && d_writable m (a + 1) n
  end.

Lemma d_writable_spec m a n :
  d_writable m a n = true ↔ ∀ b, a <= b < a + n → is_Some (m !! b) ∧ b < 6000.
Proof.
  revert a. induction n as [|n IH]; intros a; cbn [d_writable]; [split; [lia|done]|].
  rewrite !andb_true_iff, IH, bool_decide_eq_true, Z.ltb_lt. split.
  - intros [[H1 H2] H] b Hb. destruct (decide (b = a)) as [-> | ?]; [done|]. apply H. lia.
  - intros H. split; [apply H; lia|]. intros b Hb. apply H. lia.
Qed.

(** A context as the processor can have it: of the flags only those that a program may
    change, and segments that do not change. *)
Definition d_context (c : context) : context :=
  mkContext (Eax c) (Edx c) (Ecx c) (Ebx c) (Ebp c) (Esi c) (Edi c) (Esp c) (Eip c)
    (Z.lor (Z.land (EFlags c) 3541) 514) 27 35 35 35 59 0 (RegisterArea c).

Definition d_next (w : debuggee) : option debug_event * debuggee :=
  match d_script w with
  | e :: script =>
      if genuine w e then (Some e, d_deliver (Some e) script (d_contexts w) w)
      else (None, d_deliver None script (d_contexts w) w)
  | [] =>
      match d_contexts w !! 1 with
      | Some c =>
          let r := execute 100 (d_memory w) c in
          (r.1, d_deliver r.1 [] (<[1 := r.2]> (d_contexts w)) w)
      | None => (None, d_deliver None [] (d_contexts w) w)
      end
  end.

#[export] Instance debuggee_windows : Windows debuggee := {
  ReadProcessMemory a n w := bytes_at (d_memory w) a n;
  WriteProcessMemory a l w :=
    if d_writable (d_memory w) a (length l)
    then (true, d_set_memory (put_bytes (d_memory w) a l) w) else (false, w);
  GetThreadContext h w := d_contexts w !! h;
  SetThreadContext h c w :=
    if bool_decide (is_Some (d_contexts w !! h))
    then (true, d_set_contexts (<[h := d_context c]> (d_contexts w)) w) else (false, w);
  SuspendThread h w := (0, w);
  ResumeThread h w := (1, w);
  ContinueDebugEvent p t x w := (true, d_answer (p, t, x) w);
  WaitForDebugEvent n w := d_next w;
  GetSystemTimeAsFileTime w := (d_time w, d_tick w);
  StackWalk h f c w := (false, f, c);
  SymInitialize w := (true, w);
  SymCleanup w := w;
  SetEvent h w := w;
  TerminateProcess w := w
}.

Lemma d_next_memory w : d_memory (d_next w).2 = d_memory w.
Proof. unfold d_next. by repeat case_match. Qed.
Lemma d_next_received w : d_received (d_next w).2 = d_received w ++ option_list (d_next w).1.
Proof. unfold d_next. by repeat case_match. Qed.
Lemma d_next_continued w : d_continued (d_next w).2 = d_continued w.
Proof. unfold d_next. by repeat case_match. Qed.

(** Nothing writes memory but the nub. *)
#[export] Program Instance debuggee_laws : WindowsLaws debuggee := {
  memory := d_memory; contexts := d_contexts; received := d_received; continued := d_continued;
  writable w a := a < 6000; text a := a < 6000
}.
Solve Obligations with done.
Next Obligation. intros a l w H. simpl. by rewrite (proj2 (d_writable_spec _ _ _) H). Qed.
Next Obligation.
  intros a l w b Hb H. simpl. destruct (d_writable _ _ _) eqn:E; [|done].
  destruct H. by apply (proj1 (d_writable_spec _ _ _) E).
Qed.
Next Obligation. intros. simpl. by case_match. Qed.
Next Obligation. intros. simpl. by case_match. Qed.
Next Obligation. intros. simpl. by case_match. Qed.
Next Obligation.
  intros h c w H. simpl. rewrite bool_decide_true by done. split; [done|]. exists (d_context c).
  split; [done|]. split; try done. unfold d_context. cbn [EFlags].
  by rewrite Z.lor_spec, Z.land_spec, andb_true_r, orb_false_r.
Qed.
Next Obligation. intros. simpl. by case_match. Qed.
Next Obligation. intros. simpl. by case_match. Qed.
Next Obligation. intros. simpl. by case_match. Qed.
Next Obligation. intros. simpl. by rewrite d_next_memory. Qed.
Next Obligation. intros. apply d_next_received. Qed.
Next Obligation. intros. apply d_next_continued. Qed.

Lemma execute_stops fuel m c e c' xc a first info :
  execute fuel m c = (Some e, c') → information e = Exception xc a first info →
  xc = EXCEPTION_BREAKPOINT → m !! a = Some 204.
Proof.
  revert c. induction fuel as [|fuel IH]; simpl; intros c H Hi Hx; [done|].
  destruct (instruction m c) as [e1 c1 | c1] eqn:Hins; [|by eapply IH].
  injection H as <- <-. unfold instruction in Hins.
  destruct (m !! Eip c) as [b|] eqn:Hb; [|by injection Hins as <- _; simplify_eq/=].
  destruct (b =? 204) eqn:H204; [injection Hins as <- _; simplify_eq/=; rewrite Hb; f_equal; lia|].
  destruct (b =? 195); [by injection Hins as <- _|]. case_match; [|done].
  injection Hins as <- _. by simplify_eq/=.
Qed.

Lemma execute_thread fuel m c e c' : execute fuel m c = (Some e, c') → dwThreadId e = 1.
Proof.
  revert c. induction fuel as [|fuel IH]; simpl; intros c H; [done|].
  destruct (instruction m c) as [e1 c1 | c1] eqn:Hins; [|by eapply IH].
  injection H as <- <-. unfold instruction in Hins. repeat case_match; by simplify_eq/=.
Qed.
Lemma d_next_stops w e xc a first info :
  (d_next w).1 = Some e → information e = Exception xc a first info →
  xc = EXCEPTION_BREAKPOINT → d_memory w !! a = Some 204.
Proof.
  unfold d_next. intros H Hi Hx. destruct (d_script w) as [|e' l].
  - destruct (d_contexts w !! 1) as [c|]; [|done].
    destruct (execute 100 (d_memory w) c) as [r c'] eqn:Hexec. simpl in H. subst r.
    by eapply execute_stops.
  - destruct (genuine w e') eqn:Hg; [|done]. injection H as ->.
    unfold genuine in Hg. rewrite Hi in Hg. subst xc. rewrite Z.eqb_refl in Hg.
    apply andb_true_iff in Hg as [Hg _]. by apply bool_decide_eq_true in Hg.
Qed.

(** ** A nub that debugs it

    One thread; a program of two instructions and a jump back to the first. *)

Definition no_context (eip : Z) : context :=
  mkContext 0 0 0 0 0 0 0 5000 eip 512 27 35 35 35 59 0 (replicate 80 0).
Definition example_code : gmap Z Z :=
  list_to_map [(1000, 144); (1001, 64); (1002, 235); (1003, 2); (1004, 195);
               (5000, 0); (5001, 0); (5002, 0); (5003, 0); (6000, 7)].
Definition example_world (script : list debug_event) : debuggee :=
  mkDebuggee example_code {[1 := no_context 1000]} script [] [] 0.
Definition example_thread : dbgthread :=
  mkThread 1 1 false None false 0 ∅ true false false false 0 0 [] 0 None 0.
Definition example_nub (script : list debug_event) : nub debuggee :=
  mkNub 1 STOPPED_BY_COMMAND PLATFORM_WINDOWS_NT false 0 false [20] 0 0 0 [(0, 0)] [] None [] []
    0 0 0 0 false {[20 := example_thread]} ∅ 30 (example_world script).
