(* ===== verification/NubInvariant.v ===== *)
(** * The breakpoints of a whole session

    Continuing and waiting keep [Breakpoints] too, so that a session of the debugger
    does: at the end the application's code is what it was. *)

From S2P Require Import Prelude Effects HeapTable NubOS Nub NubPoints NubEvents NubWait.
From S2P Require Import NubLaws NubBreakpoints NubSessions NubDebuggee.
From stdpp Require Import base tactics option list numbers gmap.
From Stdlib Require Import ZArith Lia Bool.

Local Open Scope Z_scope.

(** ** Continuing *)

Section settled.
Context {W : Type} `{!Windows W} `{!WindowsLaws W}.

(** No thread is made, and the list stays. *)
Record settled (s s' : nub W) : Prop := {
  settled_list : ThreadList s' = ThreadList s;
  settled_threads t : is_Some (threads s' !! t) → is_Some (threads s !! t)
}.

#[export] Instance settled_preorder : PreOrder settled.
Proof.
  split; [by intros s; split|]. intros s1 s2 s3 [] []. split; [congruence | eauto].
Qed.

Notation Settled := (Keeps (S := nub W) settled).

Lemma settled_in_world {A} (f : W → A * W) : Settled (in_world f).
Proof. intros s a s' [= _ <-]. by split. Qed.
Lemma settled_upd_thread t f : Settled (upd_thread t f).
Proof.
  intros s a s' (d & Hd & ->)%upd_thread_inv. split; [done|]. intros t' Ht'. simpl in Ht'.
  destruct (decide (t' = t)) as [-> | ?]; [eauto|]. by rewrite lookup_insert_ne in Ht'.
Qed.
Lemma free_thread_inv t (s : nub W) a s' :
  free_thread t s = Some (a, s') → s' = set_threads (delete t (threads s)) s.
Proof.
  unfold free_thread. intros H. sinv H. apply get_thread_inv in E as [_ ->].
  by injection H as _ <-.
Qed.
Lemma settled_modify f :
  (∀ s : nub W, threads (f s) = threads s ∧ ThreadList (f s) = ThreadList s) →
  Settled (modify_st f).
Proof.
  intros H. apply keeps_modify_st. intros s. destruct (H s) as [Ht Hl].
  split; [done|]. by rewrite Ht.
Qed.
#[local] Hint Resolve settled_in_world settled_upd_thread : keeps.
#[local] Hint Extern 1 (Keeps settled (modify_st _)) => by apply settled_modify : keeps.

Lemma settled_apply_continuation t x : Settled (apply_appropriate_continuation_to_thread t x).
Proof.
  unfold apply_appropriate_continuation_to_thread, resume_thread, continue_thread. solve_keeps.
Qed.

Lemma calm_free_thread t : Keeps (S := nub W) calm (free_thread t).
Proof.
  intros s a s' ->%free_thread_inv. split; simpl; [done | lia | done|].
  intros t' p (d & Hd & Hn). simpl in Hd. apply lookup_delete_Some in Hd as [_ Hd].
  by exists d.
Qed.
Lemma settled_set_application_state x : Settled (set_application_state x).
Proof. unfold set_application_state, get_os_wall_clock_time. solve_keeps. Qed.

(** The descriptors that remain are those of the list that remains. *)
Lemma continue_threads_calm main h l s l' s' :
  continue_threads main h l s = Some (l', s') →
  calm s s' ∧ settled s s' ∧ ∀ t, is_Some (threads s' !! t) → t ∈ l → t ∈ l'.
Proof.
  revert s l' s'. induction l as [|t l IH]; simpl; intros s l' s' H.
  { injection H as <- <-. split_and!; [reflexivity | reflexivity | done]. }
  sinv H. apply get_thread_inv in E1 as [_ ->].
  assert (quiet s s0) as Q0 by (by eapply quiet_apply_continuation).
  assert (settled s s0) as S0 by (by eapply settled_apply_continuation).
  assert (quiet s0 s1) as Q1 by (eapply quiet_upd_thread; [|exact E0]; intros ?; done).
  assert (settled s0 s1) as S1 by (by eapply settled_upd_thread).
  assert (calm s s1) as C1 by (apply quiet_calm; by etransitivity).
  assert (settled s s1) as S2 by (by etransitivity).
  destruct (negb (t =? main) && negb (Valid a1)); sinv H.
  - pose proof (calm_free_thread _ _ _ _ E1) as C2. apply free_thread_inv in E1 as ->.
    destruct (IH _ _ _ H) as (C3 & S3 & Hl).
    assert (settled s1 (set_threads (delete t (threads s1)) s1)) as S4.
    { split; [done|]. intros t' [d Hd]. simpl in Hd. apply lookup_delete_Some in Hd as [_ Hd]. eauto. }
    split; [by do 2 (etransitivity; [eassumption|])|].
    split; [by do 2 (etransitivity; [eassumption|])|].
    intros t' Ht' [-> | Hin]%elem_of_cons; [|by apply Hl].
    apply (settled_threads _ _ S3) in Ht' as [d Hd]. simpl in Hd.
    by rewrite lookup_delete_eq in Hd.
  - injection H as <- <-. destruct (IH _ _ _ E1) as (C3 & S3 & Hl).
    split; [by etransitivity|]. split; [by etransitivity|].
    intros t' Ht' [-> | Hin]%elem_of_cons; [by apply list_elem_of_here|].
    apply list_elem_of_further. by apply Hl.
Qed.

(** So continuing is quiet. *)
Lemma quiet_continue_application h : Keeps (S := nub W) quiet (continue_application h).
Proof.
  intros s a s' H. unfold continue_application in H. sinv H. injection H as _ <-.
  pose proof (reads_ask _ _ _ _ E) as <-. injection E as <-.
  pose proof (quiet_set_application_state _ _ _ _ E0) as Q0.
  destruct (continue_threads_calm _ _ _ _ _ _ E1) as (C1 & S1 & Hl).
  split; [etransitivity; [apply quiet_calm, Q0|]; etransitivity; [exact C1|]|].
  - split; simpl; [done | lia | done | done].
  - intros HL t Ht. simpl in *. apply Hl; [done|].
    apply (settled_threads _ _ S1) in Ht.
    apply (settled_threads _ _ (settled_set_application_state _ _ _ _ E0)) in Ht.
    by apply HL.
Qed.

End settled.

#[export] Hint Resolve quiet_resume_thread quiet_suspend_thread quiet_set_thread_context
  quiet_set_application_state quiet_continue_thread quiet_apply_continuation
  quiet_continue_application quiet_nub_initialize_stack_vectors : keeps.

(** ** Waiting *)

Section waiting.
Context {W : Type} `{!Windows W} `{!WindowsLaws W}.
Context (code : Z → option Z) (create_thread_stop_reason_handler : Z → St (nub W) ()).

Notation Breakpoints := (Breakpoints code).
Notation Preserves := (Keeps (λ s s', Breakpoints s → Breakpoints s')).
Notation Quiet := (Keeps (S := nub W) quiet).
Notation process_this_debug_event := (process_this_debug_event create_thread_stop_reason_handler).
Notation receive_event := (receive_event create_thread_stop_reason_handler).
Notation wait_loop := (wait_loop create_thread_stop_reason_handler).

Lemma quiet_add_thread_descriptor h i : Quiet (add_thread_descriptor h i).
Proof.
  intros s a s' H. unfold add_thread_descriptor, new_thread_descriptor in H. sinv H. sinv E.
  injection H as _ <-. injection E0 as <- <-. injection E1 as _ <-. injection E as <- <-.
  split; [split|]; simpl; [done | lia | done | |].
  - intros t p (d & Hd & Hn & Hp). simpl in Hd.
    apply lookup_insert_Some in Hd as [[<- <-] | [? ?]]; [done | by exists d].
  - intros HL t Ht. simpl in *. apply elem_of_app.
    destruct (decide (t = free_address s)) as [-> | ?]; [right; by apply list_elem_of_here|].
    left. apply HL. by rewrite lookup_insert_ne in Ht.
Qed.
#[local] Hint Resolve quiet_add_thread_descriptor : keeps.

Lemma quiet_housekeep e : Quiet (housekeep_for_stop_reason e).
Proof.
  unfold housekeep_for_stop_reason, set_JIT_event, push_debug_event, add_library_descriptor.
  solve_keeps; apply quiet_set_world; intros w;
    first [apply set_event_memory | apply (proj2 (symbols_memory w))].
Qed.
Lemma quiet_flag_all_threads_frozen : Quiet flag_all_threads_frozen.
Proof. quiet (@flag_all_threads_frozen). Qed.
#[local] Hint Resolve quiet_housekeep quiet_flag_all_threads_frozen : keeps.

Lemma quiet_decide_event t x : Quiet (decide_event t x).
Proof. quiet (@decide_event). Qed.
#[local] Hint Resolve quiet_decide_event : keeps.

(** A breakpoint is reported where there is one. *)
Definition stops_at_breakpoint (e : debug_event) (s : nub W) : Prop :=
  match information e with
  | Exception code address first_chance _ =>
      code = EXCEPTION_BREAKPOINT → first_chance ≠ 0 → stopped_at address s
  | _ => True
  end.

Lemma stops_at_breakpoint_calm e (s s' : nub W) :
  calm s s' → stops_at_breakpoint e s → stops_at_breakpoint e s'.
Proof.
  unfold stops_at_breakpoint. intros C H. destruct (information e); try done.
  intros H1 H2. eapply stopped_at_calm; [done | auto].
Qed.

Lemma Breakpoints_first_chance_breakpoint t address mode s a s' :
  Breakpoints s → stopped_at address s →
  process_this_first_chance_breakpoint t address mode s = Some (a, s') → Breakpoints s'.
Proof.
  intros B Hs H. unfold process_this_first_chance_breakpoint in H. sinv H.
  eapply Breakpoints_handle_breakpoint_hit in E; [|done..].
  revert H E. apply (preserves_quiet code
    (if a0 =? UNKNOWN_BREAKPOINT then _ else _)). unfold set_StoppedState_of. solve_keeps.
Qed.

Lemma preserves_single_step t mode : Preserves (process_this_first_chance_single_step t mode).
Proof.
  intros s a s' H B. unfold process_this_first_chance_single_step in H. sinv H.
  apply get_thread_inv in E as [Hd ->].
  assert (Breakpoints s1) as B1.
  { destruct (NeedsBreakpointReplacement a0) eqn:Hn; simpl in E0; [|by injection E0 as _ <-].
    eapply Breakpoints_recover; [exact B | by exists a0 | exact E0]. }
  apply get_thread_inv in E1 as [_ ->].
  assert (quiet s1 s3) as Q.
  { eapply quiet_upd_thread; [|exact E2]. intros d. done. }
  destruct (_ && _); injection H as _ <-; by eapply Breakpoints_quiet.
Qed.

Lemma Breakpoints_process_event t e mode s a s' :
  mode = STOP_REASON_WAIT_NORMAL → Breakpoints s → stops_at_breakpoint e s →
  process_this_debug_event t e mode s = Some (a, s') → Breakpoints s'.
Proof.
  intros Hm B He H. unfold NubWait.process_this_debug_event in H. unfold stops_at_breakpoint in He.
  destruct (information e) as [xc address first info | | | | | | | | |] eqn:Hi.
  2-10: revert H B; apply preserves_quiet; try (subst mode; simpl); solve_keeps.
  sinv H. injection H as _ <-.
  enough (Breakpoints s0) as B0.
  { eapply Breakpoints_quiet; [|exact B0]. eapply quiet_upd_thread; [|exact E0]. intros ?; done. }
  destruct (negb (first =? 0)) eqn:Hf.
  - unfold process_this_first_chance_exception in E. sinv E.
    apply get_thread_inv in E1 as [_ ->].
    destruct (xc =? EXCEPTION_BREAKPOINT) eqn:Hx.
    + subst mode. simpl in E. eapply Breakpoints_first_chance_breakpoint; [exact B | | exact E].
      apply He; lia.
    + destruct (xc =? EXCEPTION_SINGLE_STEP); [by eapply preserves_single_step|].
      revert E B. refine ((_ : Preserves _) _ _ _). apply preserves_quiet.
      unfold set_StoppedState_of. solve_keeps.
  - revert E B. refine ((_ : Preserves _) _ _ _). apply preserves_quiet.
    unfold process_this_second_chance_exception, set_StoppedState_of. solve_keeps.
Qed.

Lemma Breakpoints_receive_event mode e s a s' :
  mode = STOP_REASON_WAIT_NORMAL → Breakpoints s → stops_at_breakpoint e s →
  receive_event mode e s = Some (a, s') → Breakpoints s'.
Proof.
  intros Hm B He H. unfold NubWait.receive_event in H. rewrite Hm in H. simpl in H.
  sinv H. assert (quiet s s3) as Q.
  { assert (quiet s s0) as Q0.
    { revert E. refine ((_ : Quiet _) _ _ _). solve_keeps. }
    injection E0 as _ <-. apply reads_thread_from_ID in E1 as <-.
    etransitivity; [exact Q0|]. revert E2. refine ((_ : Quiet _) _ _ _). solve_keeps. }
  assert (quiet s3 s4) as Q3 by (revert E3; refine ((_ : Quiet _) _ _ _); solve_keeps).
  assert (quiet s s4) as Q4 by (by etransitivity).
  assert (Breakpoints s5) as B5.
  { eapply Breakpoints_process_event; [reflexivity | | | exact E4].
    - by eapply Breakpoints_quiet.
    - eapply stops_at_breakpoint_calm; [by apply quiet_calm | done]. }
  injection H as _ <-. apply reads_ask in E5 as <-.
  eapply Breakpoints_quiet; [|exact B5]. revert E6. refine ((_ : Quiet _) _ _ _). solve_keeps.
Qed.

(** What a processor without races does: when a breakpoint is reported, the instruction
    that stopped the thread is still there. *)
Definition breakpoints_stop : Prop :=
  ∀ n w e xc a first info,
    (WaitForDebugEvent n w).1 = Some e → information e = Exception xc a first info →
    xc = EXCEPTION_BREAKPOINT → first ≠ 0 → text a →
    memory (WaitForDebugEvent n w).2 !! a = Some 204.
Context (Hstop : breakpoints_stop).

Lemma next_event_stops fuel timeout (s : nub W) r s' :
  get_next_debug_event_for_this_process fuel timeout s = Some (r, s') →
  quiet s s' ∧ ∀ e, r = Some e → stops_at_breakpoint e s'.
Proof.
  revert s r s'. induction fuel as [|fuel IH]; intros s r s' H;
    (unfold get_next_debug_event_for_this_process in H;
     fold (@get_next_debug_event_for_this_process W _) in H); sinv H;
    assert (quiet s s0) as Q0 by (eapply quiet_in_world; [|exact E]; apply wait_leaves);
    (destruct a as [e|]; [|by injection H as <- <-]);
    sinv H; apply reads_ask in E0 as <-; destruct (negb _); sinv H.
  1: done.
  2: { assert (quiet s0 s1) as Q1 by (eapply quiet_in_world; [|exact E0]; apply continue_leaves).
       destruct (IH _ _ _ H) as [Q2 He]. split; [|exact He].
       etransitivity; [exact Q0|]. by etransitivity. }
  all: injection H as <- <-; split; [done|]; intros e' [= <-];
    rewrite run_in_world in E; injection E as E <-; unfold stops_at_breakpoint;
    destruct (information e) eqn:Hi; try done; intros Hx Hf Ht; simpl; by eapply Hstop.
Qed.

Lemma quiet_filtered to tv mode h st : mode = STOP_REASON_WAIT_NORMAL →
  Quiet (filtered to tv mode h st).
Proof.
  intros ->. unfold filtered, nub_application_continue, nub_application_continue_unhandled.
  simpl. solve_keeps.
Qed.
Lemma quiet_reported mode d : Quiet (reported mode d).
Proof. unfold reported, nub_application_continue. solve_keeps. Qed.
#[local] Hint Resolve quiet_filtered quiet_reported : keeps.

Lemma preserves_wait_loop fuel to tv mode st :
  mode = STOP_REASON_WAIT_NORMAL → Preserves (wait_loop fuel to tv mode st).
Proof.
  intros Hm. revert st. induction fuel as [|fuel IH]; intros st s a s' H B;
    (unfold NubWait.wait_loop in H; fold (NubWait.wait_loop create_thread_stop_reason_handler) in H);
    sinv H;
    (match type of E with _ = Some (?r, _) => destruct (next_event_stops _ _ _ _ _ E) as [Q He] end);
    pose proof (Breakpoints_quiet _ _ _ Q B) as B0;
    (assert (Breakpoints s1) as B1;
     [destruct a0 as [e|];
      [sinv E0; injection E0 as _ <-;
       eapply Breakpoints_receive_event; [exact Hm | exact B0 | by apply He | exact E2]
      | by injection E0 as _ <-] |]);
    (assert (quiet s1 s2) as Q1;
     [revert E1; refine ((_ : Quiet _) _ _ _); solve_keeps |]);
    pose proof (Breakpoints_quiet _ _ _ Q1 B1) as B2.
  - destruct a2 as [[code'|] ?]; simpl in H; [by injection H as _ <-|done].
  - destruct a2 as [[code'|] ?]; simpl in H; [by injection H as _ <-|]. by eapply IH.
Qed.

Lemma preserves_wait fuel to tv :
  Preserves (wait_for_stop_reason_internal create_thread_stop_reason_handler fuel to tv
               STOP_REASON_WAIT_NORMAL).
Proof.
  unfold wait_for_stop_reason_internal. apply keeps_bind; [typeclasses eauto | |].
  - apply preserves_quiet. unfold get_os_wall_clock_time. solve_keeps.
  - intros last. by apply preserves_wait_loop.
Qed.

End waiting.

(** ** Sessions *)

(** What the debugger asks of the nub *)
Inductive command :=
| SetBreakpoint (address : Z)
| ClearBreakpoint (address : Z)
| QueryBreakpoint (address : Z)
| SetStepping (thread frame calling_frame : Z) (locations : list Z) (type : Z)
| ClearStepping (thread : Z)
| WaitForStopReason (fuel : nat) (timeout : option Z)
| Continue
| ContinueUnhandled
| Stop
| RecoverBreakpoint (thread : Z)
| BeginInstructionStepping (thread : Z)
| EndInstructionStepping (thread : Z)
| StopThread (thread : Z)
| ContinueThread (thread : Z).

Section sessions.
Context {W : Type} `{!Windows W} `{!WindowsLaws W}.
Context (code : Z → option Z) (create_thread_stop_reason_handler : Z → St (nub W) ()).

Notation M := (St (nub W)).
Notation Breakpoints := (Breakpoints code).

Definition run_command (c : command) : M () :=
  match c with
  | SetBreakpoint a => nub_set_breakpoint a ;; mret ()
  | ClearBreakpoint a => nub_clear_breakpoint a ;; mret ()
  | QueryBreakpoint a => nub_query_breakpoint a ;; mret ()
  | SetStepping t fr cf l ty => nub_set_stepping_control_on_thread t fr cf l ty ;; mret ()
  | ClearStepping t => nub_clear_stepping_control_on_thread t ;; mret ()
  | WaitForStopReason fuel None =>
      nub_wait_for_stop_reason_no_timeout create_thread_stop_reason_handler fuel ;; mret ()
  | WaitForStopReason fuel (Some n) =>
      nub_wait_for_stop_reason_with_timeout create_thread_stop_reason_handler fuel n ;; mret ()
  | Continue => nub_application_continue
  | ContinueUnhandled => nub_application_continue_unhandled
  | Stop => nub_application_stop
  | RecoverBreakpoint t => nub_recover_breakpoint t
  | BeginInstructionStepping t => nub_thread_begin_instruction_stepping t ;; mret ()
  | EndInstructionStepping t => nub_thread_end_instruction_stepping t ;; mret ()
  | StopThread t => nub_thread_stop t
  | ContinueThread t => nub_thread_continue t
  end.

Definition polite (c : command) (s : nub W) : Prop :=
  match c with
  | SetBreakpoint a => polite_set code s a
  | SetStepping _ _ _ l _ => polite_locations code s l
  | ClearStepping t => polite_clear_stepping s t
  | _ => True
  end.

Fixpoint run_session (cs : list command) : M () :=
  match cs with [] => mret () | c :: cs => run_command c ;; run_session cs end.

Fixpoint polite_session (cs : list command) (s : nub W) : Prop :=
  match cs with
  | [] => True
  | c :: cs => polite c s ∧ ∀ r s', run_command c s = Some (r, s') → polite_session cs s'
  end.

Lemma Breakpoints_command c s r s' : breakpoints_stop (W := W) →
  Breakpoints s → polite c s → run_command c s = Some (r, s') → Breakpoints s'.
Proof.
  intros Hstop B Hp H. destruct c; simpl in Hp, H.
  - sinv H. injection H as _ <-. by eapply Breakpoints_nub_set_breakpoint.
  - sinv H. injection H as _ <-. by eapply preserves_nub_clear_breakpoint.
  - revert H B. apply (preserves_quiet code). unfold nub_query_breakpoint. solve_keeps.
  - sinv H. injection H as _ <-. by eapply Breakpoints_set_stepping.
  - sinv H. injection H as _ <-. by eapply Breakpoints_clear_stepping.
  - destruct timeout; sinv H; injection H as _ <-; by eapply preserves_wait.
  - revert H B. apply (preserves_quiet code), quiet_continue_application.
  - revert H B. apply (preserves_quiet code), quiet_continue_application.
  - revert H B. apply (preserves_quiet code), quiet_nub_application_stop.
  - unfold nub_recover_breakpoint in H. sinv H. apply get_thread_inv in E as [Hd ->].
    destruct (NeedsBreakpointReplacement a) eqn:Hn; simpl in H; [|by injection H as _ <-].
    eapply Breakpoints_recover; [done | by exists a | done].
  - revert H B. apply (preserves_quiet code).
    unfold nub_thread_begin_instruction_stepping, instruction_stepping. solve_keeps.
  - revert H B. apply (preserves_quiet code).
    unfold nub_thread_end_instruction_stepping, instruction_stepping. solve_keeps.
  - revert H B. apply (preserves_quiet code). unfold nub_thread_stop. solve_keeps.
  - revert H B. apply (preserves_quiet code). unfold nub_thread_continue. solve_keeps.
Qed.

Lemma Breakpoints_session cs s r s' : breakpoints_stop (W := W) →
  Breakpoints s → polite_session cs s → run_session cs s = Some (r, s') → Breakpoints s'.
Proof.
  intros Hstop. revert s r. induction cs as [|c cs IH]; simpl; intros s r B Hp H.
  - by injection H as _ <-.
  - destruct Hp as [Hp Hps]. sinv H. eapply IH; [|by eapply Hps|done].
    by eapply Breakpoints_command.
Qed.

(** Before the first breakpoint *)
Definition no_points_yet (s : nub W) : Prop :=
  points s = ∅ ∧ 0 < free_address s ∧ threads_listed s ∧ (∀ t p, ¬ pending s t p) ∧
  ∀ a, text a → memory (world s) !! a = code a.

Lemma Breakpoints_initial s : no_points_yet s → Breakpoints s.
Proof.
  intros (Hp & Hf & Hl & Hn & Hm). split; rewrite ?Hp.
  - intros p b Hb. by simplify_map_eq.
  - intros p q b c Hb. by simplify_map_eq.
  - intros p b Hb. by simplify_map_eq.
  - intros a Ha _. by apply Hm.
  - intros t p Ht. by destruct (Hn t p).
  - intros t t' p Ht. by destruct (Hn t p).
  - done.
  - intros p [b Hb]. by simplify_map_eq.
  - done.
Qed.

(** C4: Whatever sequence of commands a debugger gives the nub (setting,
    clearing and querying breakpoints, stepping points, waiting for stop
    reasons, continuing, stopping, single-stepping, suspending and resuming
    threads), afterwards there is a breakpoint instruction at the address of
    every enabled breakpoint, all other code is as it was, and the byte that
    each breakpoint keeps is the one of the original code. The debugger sets
    points on code that it can write and that is no breakpoint instruction,
    stepping points only where there is no other point, no breakpoint at a
    stepping point or at one that is lifted for a thread to step over it,
    and clears no stepping points that a thread still has to write back; a
    breakpoint in its code is reported while its instruction is there (two
    threads that meet one at once break this,
    NubRecovery.written_back_twice). *)
Theorem breakpoints_borrow_bytes cs s s' :
  breakpoints_stop (W := W) → no_points_yet s → polite_session cs s →
  run_session cs s = Some ((), s') →
  (∀ p b, points s' !! p = Some b → BreakpointEnabled b = true →
     memory (world s') !! Address b = Some 204) ∧
  (∀ a, text a →
     (∀ p b, points s' !! p = Some b → BreakpointEnabled b = true → Address b ≠ a) →
     memory (world s') !! a = code a) ∧
  (∀ p b y, points s' !! p = Some b → SavedCodeSegment b = Some y → code (Address b) = Some y).
Proof.
  intros Hstop H0 Hp H.
  assert (Breakpoints s') as B
    by (eapply Breakpoints_session; [done | by apply Breakpoints_initial | done | done]).
  split; [apply (bp_enabled _ _ B)|]. split; [apply (bp_memory _ _ B)|].
  intros p b y Hb Hy. destruct (bp_code _ _ B _ _ Hb) as (_ & x & Hx & _ & Hs).
  by rewrite Hx, (Hs _ Hy).
Qed.

End sessions.

(** The example, before anything happens *)
Lemma example_no_points_yet script :
  no_points_yet (λ a, example_code !! a) (example_nub script).
Proof.
  split; [reflexivity|]. split; [reflexivity|]. split; [|split; [|reflexivity]].
  - intros t [d Hd]. simpl in Hd. apply lookup_singleton_Some in Hd as [<- _].
    by apply list_elem_of_here.
  - intros t p (d & Hd & Hn & _). simpl in Hd. apply lookup_singleton_Some in Hd as [_ <-].
    discriminate.
Qed.
Lemma example_breakpoints_stop : breakpoints_stop (W := debuggee).
Proof.
  intros n w e xc a first info H Hi Hx Hf _. simpl. rewrite d_next_memory.
  by eapply d_next_stops.
Qed.
Lemma example_unused script a : unused (example_nub script) a.
Proof. intros p b Hb. exfalso. revert Hb. vm_compute. discriminate. Qed.
Lemma example_plantable : plantable (W := debuggee) (λ a, example_code !! a) 1001.
Proof. split; [done|]. exists 64. split; [reflexivity | lia]. Qed.

(** The program goes round its loop, and is stopped at 1001 twice; when the breakpoint is
    cleared, its code is what it was. *)
Lemma breakpoints_borrow_bytes_witness :
  ∃ s', run_session (λ _, mret ())
          [SetBreakpoint 1001; WaitForStopReason 10 None; Continue; WaitForStopReason 10 None;
           ClearBreakpoint 1001; QueryBreakpoint 1001] (example_nub []) = Some ((), s') ∧
        length (d_received (world s')) = 3%nat ∧ memory (world s') !! 1001 = Some 64.
Proof.
  eexists. split; [vm_compute; reflexivity|]. split; [vm_compute; reflexivity|].
  refine (_ (breakpoints_borrow_bytes (W := debuggee) (λ a, example_code !! a) (λ _, mret ())
    [SetBreakpoint 1001; WaitForStopReason 10 None; Continue; WaitForStopReason 10 None;
     ClearBreakpoint 1001; QueryBreakpoint 1001] (example_nub []) _ _ _ _ _)).
  - intros (_ & H & _). rewrite H; [vm_compute; reflexivity | reflexivity |].
    intros p b Hb. exfalso. revert Hb. vm_compute. discriminate.
  - apply example_breakpoints_stop.
  - apply example_no_points_yet.
  - split; [|repeat (split; [exact I | intros ? ?  _ ]); exact I].
    split; [apply example_plantable|]. intros p b Hb Ha. by destruct (example_unused [] 1001 p b).
  - vm_compute. reflexivity.
Defined.
