(* ===== verification/NubRecovery.v ===== *)
(** * What happens to one breakpoint

    A breakpoint that is set and cleared, and one that is hit and written back after a
    single step: results, memory and contexts. *)

From S2P Require Import Prelude Effects HeapTable NubOS Nub NubPoints NubEvents NubWait.
From S2P Require Import NubLaws NubBreakpoints NubSessions NubDebuggee NubInvariant.
From stdpp Require Import base tactics option list numbers gmap.
From Stdlib Require Import ZArith Lia Bool.

Local Open Scope Z_scope.

Section nub.
Context {W : Type} `{!Windows W} `{!WindowsLaws W}.
Context (code : Z → option Z).

Notation M := (St (nub W)).
Notation Breakpoints := (Breakpoints code).

(** The lists hold descriptors. *)
Record in_order (s : nub W) : Prop := {
  points_in_order p : p ∈ DebugPointList s → is_Some (points s !! p);
  threads_in_order t : t ∈ ThreadList s → is_Some (threads s !! t);
  not_exiting : ExitingProcess s = false
}.

(** ** Finding *)

Lemma run_find_point_none f l (s : nub W) :
  (∀ p, p ∈ l → ∃ b, points s !! p = Some b ∧ f b = false) → find_point f l s = Some (0, s).
Proof.
  induction l as [|p l IH]; intros H; simpl; [done|].
  destruct (H p (list_elem_of_here _ _)) as (b & Hb & Hf).
  sstep (run_get_point _ _ _ Hb). rewrite Hf. apply IH. intros q Hq. apply H.
  by apply list_elem_of_further.
Qed.
Lemma run_find_point_last f l p b (s : nub W) :
  (∀ q, q ∈ l → ∃ c, points s !! q = Some c ∧ f c = false) →
  points s !! p = Some b → f b = true → find_point f (l ++ [p]) s = Some (p, s).
Proof.
  intros H Hb Hf. induction l as [|q l IH]; simpl.
  - sstep (run_get_point _ _ _ Hb). by rewrite Hf.
  - destruct (H q (list_elem_of_here _ _)) as (c & Hc & Hfc).
    sstep (run_get_point _ _ _ Hc). rewrite Hfc. apply IH. intros r Hr. apply H.
    by apply list_elem_of_further.
Qed.
Lemma run_ask {A} (f : nub W → A) s : ask f s = Some (f s, s).
Proof. done. Qed.

Lemma at_unused a b : Address b ≠ a → at_address a b = false.
Proof. intros H. unfold at_address. rewrite (proj2 (Z.eqb_neq _ _) H). by destruct (_ =? _). Qed.

(** ** Set, query, clear *)

Definition fresh_point (a : Z) : debug_point :=
  mkPoint DBG_POINT_BREAKPOINT APPLICATION_BREAKPOINT a false None 0 0 0.

(** The state after a breakpoint is planted as the last of the list *)
Definition planted (s : nub W) (a x : Z) (w : W) : nub W :=
  let p := free_address s in
  set_world w (set_points (<[p := mkPoint DBG_POINT_BREAKPOINT APPLICATION_BREAKPOINT a true
    (Some x) 0 0 0]> (points s))
    (set_DebugPointList (DebugPointList s ++ [p]) (set_free_address (p + 1) s))).

Lemma run_set_application_breakpoint s a x :
  text a → memory (world s) !! a = Some x →
  set_application_breakpoint a s =
    Some ((), planted s a x (WriteProcessMemory a [204] (world s)).2).
Proof.
  intros Ht Hx. unfold set_application_breakpoint. sstep (run_new_point (fresh_point a) s).
  set (s1 := set_points _ _).
  sstep (run_modify (λ s0, set_DebugPointList (DebugPointList s0 ++ [free_address s]) s0) s1).
  set (s2 := set_DebugPointList _ s1).
  assert (points s2 !! free_address s = Some (fresh_point a)) as Hb
    by (simpl; by rewrite lookup_insert_eq).
  sstep (run_drop_breakpoint s2 _ _ x Hb Ht Hx). unfold planted, set_world, set_points. simpl.
  by rewrite insert_insert_eq.
Qed.

Section planted.
Context (s : nub W) (a x : Z) (w : W).
Context (B : Breakpoints s) (O : in_order s).
Context (Hx : code a = Some x) (Htext : text a) (Hu : unused s a).

Let s1 := planted s a x w.
Let p := free_address s.

Lemma planted_new : points s !! p = None.
Proof. apply eq_None_not_Some. intros H. apply (bp_fresh _ _ B) in H. unfold p in H. lia. Qed.

Lemma planted_point : points s1 !! p =
  Some (mkPoint DBG_POINT_BREAKPOINT APPLICATION_BREAKPOINT a true (Some x) 0 0 0).
Proof. unfold s1, p. simpl. by rewrite lookup_insert_eq. Qed.

Lemma planted_other q : q ∈ DebugPointList s →
  ∃ b, points s1 !! q = Some b ∧ at_address a b = false.
Proof.
  intros Hq. destruct (points_in_order _ O q Hq) as [b Hb]. exists b. split.
  - unfold s1. simpl. rewrite lookup_insert_ne; [done|]. intros <-.
    pose proof planted_new as Hnone. unfold p in Hnone. congruence.
  - apply at_unused. by eapply Hu.
Qed.

Lemma run_find_planted : breakpoint_from_address a s1 = Some (p, s1).
Proof.
  unfold breakpoint_from_address. sstep (run_ask DebugPointList s1).
  eapply run_find_point_last; [apply planted_other | apply planted_point|].
  unfold at_address. simpl. by rewrite Z.eqb_refl.
Qed.

Lemma planted_nonzero : (p =? 0) = false.
Proof. apply Z.eqb_neq. pose proof (bp_free _ _ B). unfold p. lia. Qed.

Lemma run_exists_planted : application_breakpoint_exists a s1 = Some (true, s1).
Proof.
  unfold application_breakpoint_exists. sstep run_find_planted. rewrite planted_nonzero. simpl.
  by sstep (run_get_point _ _ _ planted_point).
Qed.

(** The state after it is cleared *)
Definition cleared (w' : W) : nub W :=
  set_world w' (set_points (points s) (set_free_address (p + 1) s)).

Lemma run_forget_none ts (s2 : nub W) q :
  (∀ t, t ∈ ts → is_Some (threads s2 !! t)) → (∀ t, ¬ pending s2 t q) →
  for_each ts (forget_replacement q) s2 = Some ((), s2).
Proof.
  intros Ht Hn. induction ts as [|t ts IH]; simpl; [done|].
  destruct (Ht t (list_elem_of_here _ _)) as [d Hd].
  assert (forget_replacement q t s2 = Some ((), s2)) as H.
  { unfold forget_replacement. sstep (run_get_thread _ _ _ Hd).
    destruct (NeedsBreakpointReplacement d && (BreakpointToReplace d =? q)) eqn:Hb; [|done].
    destruct (Hn t). exists d. apply andb_true_iff in Hb as [? ?]. split_and!; [done..|]. lia. }
  sstep H. apply IH. intros t' Ht'. apply Ht. by apply list_elem_of_further.
Qed.

Lemma run_clear_points l (s2 : nub W) :
  points s2 = points s1 → threads s2 = threads s → ThreadList s2 = ThreadList s →
  is_Some (memory (world s2) !! a) → l ⊆ DebugPointList s →
  clear_points a (l ++ [p]) s2 =
    Some (l, set_world (WriteProcessMemory a [x] (world s2)).2 (set_points (points s) s2)).
Proof.
  intros Hp Ht Hl Hm Hsub. induction l as [|q l IH]; simpl.
  - assert (points s2 !! p = Some (mkPoint DBG_POINT_BREAKPOINT APPLICATION_BREAKPOINT a true
      (Some x) 0 0 0)) as Hb by (rewrite Hp; apply planted_point).
    sstep (run_get_point _ _ _ Hb). simpl. rewrite Z.eqb_refl. simpl.
    sstep (run_lift_breakpoint s2 _ _ _ Hb eq_refl Htext Hm). simpl. set (s3 := set_world _ _).
    sstep (run_ask ThreadList s3).
    assert (for_each (ThreadList s3) (forget_replacement p) s3 = Some ((), s3)) as Hf.
    { apply run_forget_none.
      - simpl. rewrite Ht, Hl. apply (threads_in_order _ O).
      - intros t (d & Hd & Hn & Hq). simpl in Hd. rewrite Ht in Hd.
        destruct (bp_pending _ _ B t p) as (b & Hb' & _); [by exists d|].
        pose proof planted_new. congruence. }
    sstep Hf. unfold free_point.
    assert (points s3 !! p = Some (set_BreakpointEnabled false
      (mkPoint DBG_POINT_BREAKPOINT APPLICATION_BREAKPOINT a true (Some x) 0 0 0))) as Hb3
      by (simpl; by rewrite lookup_insert_eq).
    snorm. sstep (run_get_point _ _ _ Hb3). sstep (run_modify (λ s0 : nub W, set_points (delete p (points s0)) s0) s3).
    assert (delete p (points s3) = points s) as ->; [|done].
    unfold s3. simpl. rewrite delete_insert_eq, Hp. unfold s1. simpl. fold p.
    rewrite delete_insert_eq. apply delete_id, planted_new.
  - destruct (planted_other q) as (b & Hb & Hat); [apply Hsub, list_elem_of_here|].
    rewrite <- Hp in Hb. sstep (run_get_point _ _ _ Hb).
    replace (_ && _ && _) with false.
    + by sstep (IH ltac:(intros r Hr; apply Hsub; by apply list_elem_of_further)).
    + unfold at_address in Hat. symmetry. rewrite <- andb_assoc, (andb_comm (Type_ b =? _)),
        andb_assoc, Hat. done.
Qed.

Lemma run_clear_planted : is_Some (memory w !! a) →
  nub_clear_breakpoint a s1 = Some (OK, cleared (WriteProcessMemory a [x] w).2).
Proof.
  intros Hm. unfold nub_clear_breakpoint. sstep run_exists_planted.
  unfold clear_application_breakpoint. sstep (run_ask ExitingProcess s1).
  assert (ExitingProcess s1 = false) as -> by apply O. simpl.
  sstep (run_ask DebugPointList s1).
  sstep (run_clear_points (DebugPointList s) s1 eq_refl eq_refl eq_refl Hm ltac:(done)).
  reflexivity.
Qed.

End planted.

Lemma run_exists_unused s a : in_order s → unused s a →
  application_breakpoint_exists a s = Some (false, s) ∧ breakpoint_from_address a s = Some (0, s).
Proof.
  intros O Hu. assert (breakpoint_from_address a s = Some (0, s)) as H; [|split; [|done]].
  - unfold breakpoint_from_address. sstep (run_ask DebugPointList s). apply run_find_point_none.
    intros p Hp. destruct (points_in_order _ O p Hp) as [b Hb]. exists b. split; [done|].
    apply at_unused. by eapply Hu.
  - unfold application_breakpoint_exists. by sstep H.
Qed.

(** C19: While the process is not exiting, setting a breakpoint at an address of
    the code that the debugger can write, where there is no debug point and
    no breakpoint instruction, plants it and answers OK, and nothing else
    changes in memory; it is then reported by a query and refused when set
    again; clearing it gives back the memory, the debug points and the list
    as they were, and clearing it again answers that it does not exist. *)
Theorem breakpoint_set_and_cleared s a :
  Breakpoints s → in_order s → plantable code a → unused s a →
  ∃ s1 s2,
    nub_set_breakpoint a s = Some (OK, s1) ∧
    memory (world s1) = <[a := 204]> (memory (world s)) ∧
    nub_query_breakpoint a s1 = Some (1, s1) ∧
    nub_set_breakpoint a s1 = Some (BREAKPOINT_ALREADY_EXISTS, s1) ∧
    nub_clear_breakpoint a s1 = Some (OK, s2) ∧
    memory (world s2) = memory (world s) ∧
    points s2 = points s ∧ DebugPointList s2 = DebugPointList s ∧
    nub_query_breakpoint a s2 = Some (0, s2) ∧
    nub_clear_breakpoint a s2 = Some (BREAKPOINT_DOES_NOT_EXIST, s2).
Proof.
  intros B O [Ht (x & Hx & Hne)] Hu.
  assert (memory (world s) !! a = Some x) as Hm.
  { rewrite <- Hx. apply (bp_memory _ _ B); [done|]. intros p b Hb _. by eapply Hu. }
  destruct (write_byte a 204 (world s)) as [_ Hw1]; [done | eauto|].
  set (w1 := (WriteProcessMemory a [204] (world s)).2) in *.
  assert (is_Some (memory w1 !! a)) as Hm1 by (rewrite Hw1, lookup_insert_eq; eauto).
  destruct (write_byte a x w1 Ht Hm1) as [_ Hw2].
  destruct (run_exists_unused s a O Hu) as [_ Hfind].
  exists (planted s a x w1), (cleared s (WriteProcessMemory a [x] w1).2).
  pose proof (run_find_planted s a x w1 B O Hu) as Hf.
  pose proof (run_exists_planted s a x w1 B O Hu) as He.
  destruct (run_exists_unused (cleared s (WriteProcessMemory a [x] w1).2) a) as [He2 _];
    [by split; apply O | done |].
  split_and!.
  - unfold nub_set_breakpoint. sstep Hfind. change (0 =? 0) with true. cbn [negb]. snorm.
    by sstep (run_set_application_breakpoint s a x Ht Hm).
  - done.
  - unfold nub_query_breakpoint. by sstep He.
  - unfold nub_set_breakpoint. sstep Hf. rewrite (planted_nonzero s B). simpl.
    by sstep (run_get_point _ _ _ (planted_point s a x w1)).
  - by apply run_clear_planted.
  - simpl. by rewrite Hw2, Hw1, insert_insert_eq, insert_id.
  - done.
  - done.
  - unfold nub_query_breakpoint. by sstep He2.
  - unfold nub_clear_breakpoint. by sstep He2.
Qed.

(** ** Hit, and written back *)

Lemma run_find_point_unique f l p b (s : nub W) :
  p ∈ l → points s !! p = Some b → f b = true →
  (∀ q, q ∈ l → ∃ c, points s !! q = Some c ∧ (f c = true → q = p)) →
  find_point f l s = Some (p, s).
Proof.
  intros Hin Hb Hf H. induction l as [|q l IH]; simpl; [by apply not_elem_of_nil in Hin|].
  destruct (H q (list_elem_of_here _ _)) as (c & Hc & Hq).
  sstep (run_get_point _ _ _ Hc). destruct (f c) eqn:Hfc; [by rewrite (Hq eq_refl)|].
  apply IH; [|intros r Hr; apply H; by apply list_elem_of_further].
  apply elem_of_cons in Hin as [<- | ?]; [congruence | done].
Qed.

Lemma run_find_point_at s a p b : Breakpoints s → in_order s →
  points s !! p = Some b → p ∈ DebugPointList s → DebugPointType b = DBG_POINT_BREAKPOINT →
  Address b = a → breakpoint_from_address a s = Some (p, s).
Proof.
  intros B O Hb Hin Hk Ha. unfold breakpoint_from_address. sstep (run_ask DebugPointList s).
  eapply run_find_point_unique; [done | done | |].
  - unfold at_address. by rewrite Hk, Ha, !Z.eqb_refl.
  - intros q Hq. destruct (points_in_order _ O q Hq) as [c Hc]. exists c. split; [done|].
    intros Hat. eapply (bp_address _ _ B); [done..|]. unfold at_address in Hat. lia.
Qed.

(** No thread is stepping through the source. *)
Definition no_stepping (s : nub W) : Prop :=
  ∀ t d, threads s !! t = Some d → SteppingCaptureBreakpoints d = [].

Lemma run_stepping_for_this s t a : no_stepping s → is_Some (threads s !! t) →
  stepping_capture_breakpoint_for_this_thread t a s = Some (0, s).
Proof.
  intros Hn [d Hd]. unfold stepping_capture_breakpoint_for_this_thread.
  sstep (run_get_thread _ _ _ Hd). by rewrite (Hn _ _ Hd).
Qed.
Lemma run_stepping_for_any s a : no_stepping s → in_order s →
  stepping_capture_breakpoint_for_any_thread a s = Some (0, s).
Proof.
  intros Hn O. unfold stepping_capture_breakpoint_for_any_thread. sstep (run_ask ThreadList s).
  pose proof (threads_in_order _ O) as Ht. induction (ThreadList s) as [|t l IH]; simpl; [done|].
  sstep (run_stepping_for_this s t a Hn (Ht t (list_elem_of_here _ _))). simpl.
  apply IH. intros t' Ht'. apply Ht. by apply list_elem_of_further.
Qed.

Lemma run_set_context (s : nub W) h c : is_Some (contexts (world s) !! h) →
  in_world (SetThreadContext h c) s = Some (true, set_world (SetThreadContext h c (world s)).2 s).
Proof. intros H. rewrite run_in_world. by rewrite (proj1 (set_context h c (world s) H)). Qed.
Lemma run_get_context (s : nub W) h :
  ask_world (GetThreadContext h) s = Some (contexts (world s) !! h, s).
Proof. unfold ask_world. by rewrite run_ask, get_context. Qed.

Lemma run_rewind (s : nub W) t d c :
  threads s !! t = Some d → contexts (world s) !! ThreadHandle d = Some c →
  rewind_thread_eip t s = Some ((), set_world (SetThreadContext (ThreadHandle d)
    (set_Eip (u32 (Eip c - 1)) c) (world s)).2 s).
Proof.
  intros Hd Hc. unfold rewind_thread_eip. sstep (run_get_thread _ _ _ Hd).
  sstep (run_get_context s (ThreadHandle d)). rewrite Hc.
  by sstep (run_set_context s (ThreadHandle d) (set_Eip (u32 (Eip c - 1)) c) ltac:(eauto)).
Qed.
Lemma run_prepare (s : nub W) t d c :
  threads s !! t = Some d → contexts (world s) !! ThreadHandle d = Some c →
  prepare_to_single_step_for_breakpoint_recovery t s =
    Some ((), set_world (SetThreadContext (ThreadHandle d) (trap_on c) (world s)).2 s).
Proof.
  intros Hd Hc. unfold prepare_to_single_step_for_breakpoint_recovery.
  sstep (run_get_thread _ _ _ Hd). sstep (run_get_context s (ThreadHandle d)). rewrite Hc.
  by sstep (run_set_context s (ThreadHandle d) (trap_on c) ltac:(eauto)).
Qed.

(** The contexts [m'] are [m] but for one that was set to [c]. *)
Definition context_set (h : Z) (c : context) (m m' : gmap Z context) : Prop :=
  ∃ c', m' = <[h := c']> m ∧ accepted c c'.

Lemma trap_on_bit c : Z.testbit (EFlags (trap_on c)) 8 = true.
Proof. unfold trap_on, set_EFlags. cbn [EFlags]. by rewrite Z.lor_spec, orb_true_r. Qed.
Lemma accepted_trap_on c c' : accepted c c' → accepted (trap_on c) (trap_on c').
Proof. intros [? ? ? ? ?]. split; try done. by rewrite !trap_on_bit. Qed.

Lemma run_handle_application_breakpoint (s : nub W) t p d b x c :
  threads s !! t = Some d → points s !! p = Some b → SavedCodeSegment b = Some x →
  text (Address b) → is_Some (memory (world s) !! Address b) → ExitingProcess s = false →
  contexts (world s) !! ThreadHandle d = Some c →
  ∃ w, handle_application_breakpoint t p s = Some ((), set_threads
         (<[t := set_BreakpointToReplace p (set_NeedsBreakpointReplacement true d)]> (threads s))
         (set_world w (set_points (<[p := set_BreakpointEnabled false b]> (points s)) s))) ∧
    memory w = <[Address b := x]> (memory (world s)) ∧
    context_set (ThreadHandle d) (trap_on (set_Eip (u32 (Eip c - 1)) c))
      (contexts (world s)) (contexts w).
Proof.
  intros Hd Hb Hs Ht Hm He Hc. unfold handle_application_breakpoint.
  sstep (run_lift_breakpoint s p b x Hb Hs Ht Hm).
  set (w1 := (WriteProcessMemory (Address b) [x] (world s)).2). set (s1 := set_world w1 _).
  assert (contexts w1 = contexts (world s)) as Hw1 by apply write_contexts.
  assert (contexts (world s1) !! ThreadHandle d = Some c) as Hc1 by (simpl; by rewrite Hw1).
  sstep (run_rewind s1 t d c Hd Hc1). set (c2 := set_Eip (u32 (Eip c - 1)) c).
  destruct (set_context (ThreadHandle d) c2 w1) as (_ & c2' & Hw2 & A2); [simpl in Hc1; eauto|].
  pose proof (set_context_memory (ThreadHandle d) c2 w1) as Hm2.
  change (world s1) with w1. set (w2 := (SetThreadContext (ThreadHandle d) c2 w1).2) in *.
  set (s2 := set_world w2 s1). sstep (run_ask ExitingProcess s2).
  assert (ExitingProcess s2 = false) as -> by done. cbn [negb when_].
  assert (contexts (world s2) !! ThreadHandle d = Some c2') as Hc2
    by (simpl; by rewrite Hw2, lookup_insert_eq).
  sstep (run_prepare s2 t d c2' Hd Hc2).
  destruct (set_context (ThreadHandle d) (trap_on c2') w2) as (_ & c3 & Hw3 & A3);
    [simpl in Hc2; eauto|].
  pose proof (set_context_memory (ThreadHandle d) (trap_on c2') w2) as Hm3.
  change (world s2) with w2. set (w3 := (SetThreadContext (ThreadHandle d) (trap_on c2') w2).2) in *.
  exists w3. split_and!.
  - set (s3 := set_world w3 s2). assert (threads s3 !! t = Some d) as Hd3 by done.
    by sstep (run_upd_thread t (λ t, set_BreakpointToReplace p
      (set_NeedsBreakpointReplacement true t)) s3 d Hd3).
  - rewrite Hm3, Hm2. apply write_byte; [done|eauto].
  - exists c3. split; [by rewrite Hw3, Hw2, insert_insert_eq, Hw1|].
    etrans; [by apply accepted_trap_on|done].
Qed.

Lemma run_handle_breakpoint_hit (s : nub W) t p d b x c a :
  Breakpoints s → in_order s → no_stepping s →
  threads s !! t = Some d → p ∈ DebugPointList s → points s !! p = Some b →
  DebugPointType b = DBG_POINT_BREAKPOINT → Address b = a → SavedCodeSegment b = Some x →
  contexts (world s) !! ThreadHandle d = Some c →
  ∃ w, handle_breakpoint_hit t a s = Some (APPLICATION_BREAKPOINT, set_threads
         (<[t := set_BreakpointToReplace p (set_NeedsBreakpointReplacement true d)]> (threads s))
         (set_world w (set_points (<[p := set_BreakpointEnabled false b]> (points s)) s))) ∧
    memory w = <[a := x]> (memory (world s)) ∧
    context_set (ThreadHandle d) (trap_on (set_Eip (u32 (Eip c - 1)) c))
      (contexts (world s)) (contexts w).
Proof.
  intros B O Hn Hd Hin Hb Hk Ha Hs Hc. pose proof (bp_mapped _ _ _ _ B Hb) as Hm.
  pose proof (proj1 (bp_code _ _ B _ _ Hb)) as Ht.
  destruct (run_handle_application_breakpoint s t p d b x c Hd Hb Hs Ht Hm (not_exiting _ O) Hc)
    as (w & Hrun & Hw). rewrite Ha in Hw. exists w. split; [|done].
  unfold handle_breakpoint_hit. sstep (run_stepping_for_this s t a Hn ltac:(eauto)).
  sstep (run_find_point_at s a p b B O Hb Hin Hk Ha). change (0 =? 0) with true. cbn [negb].
  snorm. sstep (run_stepping_for_any s a Hn O). change (0 =? 0) with true. cbn [negb]. snorm.
  assert ((p =? 0) = false) as ->.
  { apply Z.eqb_neq. intros ->. pose proof (bp_null _ _ B). congruence. }
  cbn [negb]. by sstep Hrun.
Qed.

Lemma run_recover_from_breakpoint (s : nub W) t p d b x c :
  Platform s = PLATFORM_WINDOWS_NT → threads s !! t = Some d → BreakpointToReplace d = p →
  points s !! p = Some b → text (Address b) → memory (world s) !! Address b = Some x →
  contexts (world s) !! ThreadHandle d = Some c →
  ∃ w, recover_from_breakpoint t s = Some ((), set_world w
         (set_points (<[p := set_SavedCodeSegment (Some x) (set_BreakpointEnabled true b)]> (points s))
           (set_threads (<[t := set_NeedsBreakpointReplacement false d]> (threads s)) s))) ∧
    memory w = <[Address b := 204]> (memory (world s)) ∧
    context_set (ThreadHandle d) (if SingleStepping d then c else trap_off c)
      (contexts (world s)) (contexts w).
Proof.
  intros HNT Hd Hp Hb Ht Hx Hc. unfold recover_from_breakpoint, get_thread_context. snorm.
  sstep (run_get_thread _ _ _ Hd). sstep (run_ask PendingEventThread s).
  sstep (run_ask Platform s). rewrite HNT, Z.eqb_refl, orb_true_r. cbn [orb].
  sstep (run_get_context s (ThreadHandle d)). rewrite Hc.
  sstep (run_upd_thread t (set_NeedsBreakpointReplacement false) s d Hd).
  set (d2 := set_NeedsBreakpointReplacement false d). set (s1 := set_threads _ s).
  assert (threads s1 !! t = Some d2) as Hd1 by (simpl; by rewrite lookup_insert_eq).
  sstep (run_get_thread _ _ _ Hd1). change (BreakpointToReplace d2) with (BreakpointToReplace d).
  rewrite Hp. sstep (run_drop_breakpoint s1 p b x Hb Ht Hx).
  change (world s1) with (world s). destruct (write_byte (Address b) 204 (world s)) as [_ Hwm]; [done | eauto|].
  pose proof (write_contexts (Address b) [204] (world s)) as Hwc.
  set (w1 := (WriteProcessMemory (Address b) [204] (world s)).2) in *. set (s2 := set_world w1 _).
  sstep (run_lift c s2). change (SingleStepping d2) with (SingleStepping d).
  set (c2 := if negb (SingleStepping d) then trap_off c else c).
  assert (is_Some (contexts w1 !! ThreadHandle d)) as Hc1 by (rewrite Hwc; eauto).
  sstep (run_set_context s2 (ThreadHandle d) c2 Hc1).
  destruct (set_context (ThreadHandle d) c2 w1 Hc1) as (_ & c3 & Hsc & A).
  eexists. split; [reflexivity|]. split; [by rewrite set_context_memory|].
  change (world s2) with w1. exists c3. rewrite Hsc, Hwc. split; [done|]. revert A. unfold c2.
  by destruct (SingleStepping d).
Qed.

(** C15: On Windows NT, while the process is not exiting and no thread has
    stepping points, a thread that meets an application breakpoint is
    reported to the debugger with the original byte back in its code, its
    instruction pointer back on it and the trap flag set (Windows may
    correct other flags and the segments of the context), and it remembers
    the breakpoint; at the single-step event that follows, the breakpoint is
    written again and remembered no more, and the trap flag is cleared
    unless the debugger is stepping the thread. The code can be written by
    the debugger. *)
Theorem breakpoint_hit_and_recovered (s : nub W) t p d b x c a :
  Breakpoints s → in_order s → no_stepping s → Platform s = PLATFORM_WINDOWS_NT →
  threads s !! t = Some d → p ∈ DebugPointList s → points s !! p = Some b →
  DebugPointType b = DBG_POINT_BREAKPOINT → Address b = a → SavedCodeSegment b = Some x →
  contexts (world s) !! ThreadHandle d = Some c →
  ∃ s1, process_this_first_chance_breakpoint t a STOP_REASON_WAIT_NORMAL s =
          Some (BREAKPOINT_EXCEPTION_DBG_EVENT, s1) ∧
    memory (world s1) = <[a := x]> (memory (world s)) ∧
    context_set (ThreadHandle d) (trap_on (set_Eip (u32 (Eip c - 1)) c))
      (contexts (world s)) (contexts (world s1)) ∧
    pending s1 t p ∧
    ∀ w c', memory w !! a = Some x → contexts w !! ThreadHandle d = Some c' →
      ∃ s2, process_this_first_chance_single_step t STOP_REASON_WAIT_NORMAL (set_world w s1) =
              Some (if SingleStepping d then SINGLE_STEP_DBG_EVENT else FILTER_HANDLED_DBG_EVENT,
                    s2) ∧
        memory (world s2) = <[a := 204]> (memory w) ∧
        context_set (ThreadHandle d) (if SingleStepping d then c' else trap_off c')
          (contexts w) (contexts (world s2)) ∧
        (∀ q, ¬ pending s2 t q) ∧
        ∃ b', points s2 = <[p := b']> (points s) ∧ Address b' = a ∧
          BreakpointEnabled b' = true ∧ SavedCodeSegment b' = Some x.
Proof.
  intros B O Hn HNT Hd Hin Hb Hk Ha Hs Hc.
  destruct (run_handle_breakpoint_hit s t p d b x c a) as (w1 & Hrun & Hm1 & Hc1); [done..|].
  set (d1 := set_BreakpointToReplace p (set_NeedsBreakpointReplacement true d)) in *.
  set (s0 := set_threads _ _) in Hrun.
  assert (threads s0 !! t = Some d1) as Hd0 by (simpl; by rewrite lookup_insert_eq).
  set (d2 := set_StoppedState THREAD_STOPPED_AT_KNOWN_BREAKPOINT d1).
  exists (set_threads (<[t := d2]> (threads s0)) s0). split; [|split; [|split; [|split]]].
  - unfold process_this_first_chance_breakpoint. sstep Hrun.
    change (APPLICATION_BREAKPOINT =? UNKNOWN_BREAKPOINT) with false. cbv iota.
    unfold set_StoppedState_of.
    by sstep (run_upd_thread t (set_StoppedState THREAD_STOPPED_AT_KNOWN_BREAKPOINT) s0 d1 Hd0).
  - done.
  - done.
  - exists d2. split; [|done]. simpl. by rewrite lookup_insert_eq.
  - intros w c' Hm Hc'. set (s1 := set_world w _).
    assert (threads s1 !! t = Some d2) as Hd1 by (simpl; by rewrite lookup_insert_eq).
    assert (Platform s1 = PLATFORM_WINDOWS_NT) as HNT1 by done.
    assert (contexts (world s1) !! ThreadHandle d2 = Some c') as Hc1' by done.
    unfold process_this_first_chance_single_step. sstep (run_get_thread _ _ _ Hd1).
    change (NeedsBreakpointReplacement d2) with true. cbn [when_].
    destruct (run_recover_from_breakpoint s1 t p d2 (set_BreakpointEnabled false b) x c')
      as (w2 & Hrun2 & Hm2 & Hc2); [done | done | done | | | | done |].
    { simpl. by rewrite lookup_insert_eq. }
    { exact (proj1 (bp_code _ _ B _ _ Hb)). }
    { simpl. by rewrite Ha. }
    sstep Hrun2. set (s2 := set_world w2 _).
    set (d3 := set_NeedsBreakpointReplacement false d2) in *.
    assert (threads s2 !! t = Some d3) as Hd2 by (simpl; by rewrite lookup_insert_eq).
    sstep (run_get_thread _ _ _ Hd2). unfold set_StoppedState_of.
    sstep (run_upd_thread t (set_StoppedState THREAD_STOPPED_AT_FIRST_CHANCE_EXCEPTION) s2 d3 Hd2).
    set (s3 := set_threads _ s2). exists s3. split; [|split; [|split; [|split]]].
    + change (SingleStepping d3) with (SingleStepping d). by destruct (SingleStepping d).
    + simpl. by rewrite Hm2, <- Ha.
    + done.
    + intros q (d' & Hd' & Hn' & _). simpl in Hd'. rewrite lookup_insert_eq in Hd'.
      by injection Hd' as <-.
    + eexists. split; [simpl; by rewrite insert_insert_eq|]. done.
Qed.

End nub.

(** ** The example *)

Definition breakpoint_nub : nub debuggee :=
  match nub_set_breakpoint 1001 (example_nub []) with
  | Some (_, s) => s
  | None => example_nub []
  end.
Lemma breakpoint_nub_set : nub_set_breakpoint 1001 (example_nub []) = Some (OK, breakpoint_nub).
Proof. vm_compute. reflexivity. Qed.

Lemma example_in_order script : in_order (example_nub script).
Proof.
  split; simpl.
  - intros p Hp. by apply not_elem_of_nil in Hp.
  - intros t Ht. apply list_elem_of_singleton in Ht as ->. vm_compute. eauto.
  - done.
Qed.

Lemma breakpoint_set_and_cleared_witness :
  ∃ s1, nub_set_breakpoint 1001 (example_nub []) = Some (OK, s1) ∧
        nub_query_breakpoint 1001 s1 = Some (1, s1).
Proof.
  destruct (breakpoint_set_and_cleared (W := debuggee) (λ a, example_code !! a)
    (example_nub []) 1001) as (s1 & s2 & H1 & _ & H2 & _).
  - apply Breakpoints_initial, example_no_points_yet.
  - apply example_in_order.
  - apply example_plantable.
  - apply example_unused.
  - exists s1. by split.
Defined.

Lemma breakpoint_hit_and_recovered_witness :
  ∃ s1, process_this_first_chance_breakpoint 20 1001 STOP_REASON_WAIT_NORMAL breakpoint_nub =
          Some (BREAKPOINT_EXCEPTION_DBG_EVENT, s1) ∧
        memory (world s1) !! 1001 = Some 64 ∧ pending s1 20 30.
Proof.
  destruct (breakpoint_hit_and_recovered (W := debuggee) (λ a, example_code !! a)
    breakpoint_nub 20 30 example_thread
    (mkPoint DBG_POINT_BREAKPOINT APPLICATION_BREAKPOINT 1001 true (Some 64) 0 0 0)
    64 (no_context 1000) 1001) as (s1 & H1 & H2 & _ & H3 & _).
  - eapply Breakpoints_nub_set_breakpoint; [| |apply breakpoint_nub_set].
    + apply Breakpoints_initial, example_no_points_yet.
    + split; [apply example_plantable|]. intros p b Hb Ha. by destruct (example_unused [] 1001 p b).
  - split; [intros p Hp | intros t Ht | done].
    + apply list_elem_of_singleton in Hp as ->. vm_compute. eauto.
    + apply list_elem_of_singleton in Ht as ->. vm_compute. eauto.
  - intros t d Hd. change (threads breakpoint_nub) with ({[20 := example_thread]} : gmap Z dbgthread) in Hd.
    apply lookup_singleton_Some in Hd as [_ <-]. done.
  - reflexivity.
  - reflexivity.
  - by apply list_elem_of_here.
  - vm_compute. reflexivity.
  - reflexivity.
  - reflexivity.
  - reflexivity.
  - vm_compute. reflexivity.
  - exists s1. split; [done|]. split; [|done]. rewrite H2. by rewrite lookup_insert_eq.
Defined.

(** A thread that hits a breakpoint goes on; only then another thread, stopped there
    before, is reported: both wait to write the breakpoint back, and the second takes its
    0xCC for the code. *)
Definition two_threads : nub debuggee :=
  set_ThreadList [20; 21]
    (set_threads {[20 := example_thread; 21 := set_ThreadHandle 2 (set_ThreadID 2 example_thread)]}
      (set_world (d_set_contexts {[1 := no_context 1002; 2 := no_context 1002]}
        (example_world [])) (example_nub []))).
Example written_back_twice :
  ∃ s', (nub_set_breakpoint 1001 ;;
         handle_breakpoint_hit 20 1001 ;; handle_breakpoint_hit 21 1001 ;;
         recover_from_breakpoint 20 ;; recover_from_breakpoint 21 ;;
         nub_clear_breakpoint 1001) two_threads = Some (OK, s') ∧
        memory (world s') !! 1001 = Some 204.
Proof. eexists. split; vm_compute; reflexivity. Qed.

(** A breakpoint that is set again while a thread waits to write it back *)
Example set_while_lifted :
  ∃ s', (nub_set_breakpoint 1001 ;; handle_breakpoint_hit 20 1001 ;;
         nub_set_breakpoint 1001 ;; recover_from_breakpoint 20 ;;
         nub_clear_breakpoint 1001) (example_nub []) = Some (OK, s') ∧
        memory (world s') !! 1001 = Some 204.
Proof. eexists. split; vm_compute; reflexivity. Qed.

(** A breakpoint that is cleared before the step that was planted over it *)
Example cleared_out_of_order :
  ∃ s', (nub_set_breakpoint 1001 ;;
         nub_set_stepping_control_on_thread 20 0 0 [1001] CAPTURE_STEP_OVER_BREAKPOINT ;;
         nub_clear_breakpoint 1001 ;; nub_clear_stepping_control_on_thread 20)
          (example_nub []) = Some (1, s') ∧
        memory (world s') !! 1001 = Some 204.
Proof. eexists. split; vm_compute; reflexivity. Qed.
