(* ===== verification/NubAccessLaws.v ===== *)
(** * Memory and registers give back what is written

    For [NubAccess.v]: a value that is written is read again, with the sign of its
    width, and nothing else changes; registers likewise. *)

From Stdlib Require Import String Ascii.
From S2P Require Import Prelude Effects HeapTable NubOS Nub NubPoints NubAccess.
From S2P Require Import NubEvents NubWait NubLaws NubBreakpoints NubDebuggee NubSessions NubInvariant NubRecovery.
From stdpp Require Import base tactics option list numbers gmap.
From Stdlib Require Import ZArith Lia Bool.

Local Open Scope Z_scope.

(** ** Bytes *)

Lemma bytes_of_length n x : length (bytes_of n x) = n.
Proof. revert x. induction n; simpl; intros; [done|]. by rewrite IHn. Qed.

Lemma little_endian_bytes_of n x : little_endian (bytes_of n x) = x mod 256 ^ Z.of_nat n.
Proof.
  revert x. induction n as [|n IH]; intros x; [simpl; by rewrite Z.mod_1_r|].
  rewrite Nat2Z.inj_succ, Z.pow_succ_r by lia. simpl bytes_of. simpl little_endian.
  rewrite IH, (Z.rem_mul_r x 256) by lia. lia.
Qed.

Lemma put_bytes_below m a l b : b < a → put_bytes m a l !! b = m !! b.
Proof.
  revert m a. induction l as [|x l IH]; simpl; intros m a H; [done|].
  rewrite IH by lia. by rewrite lookup_insert_ne by lia.
Qed.
Lemma put_bytes_outside m a l b : b < a ∨ a + length l ≤ b → put_bytes m a l !! b = m !! b.
Proof.
  revert m a. induction l as [|x l IH]; simpl; intros m a H; [done|].
  rewrite IH by lia. by rewrite lookup_insert_ne by lia.
Qed.
Lemma bytes_at_put m a l : bytes_at (put_bytes m a l) a (length l) = Some l.
Proof.
  revert m a. induction l as [|x l IH]; simpl; intros m a; [done|].
  rewrite put_bytes_below by lia. rewrite lookup_insert_eq. simpl. by rewrite IH.
Qed.

(** ** Signs *)

Lemma s8_mod x : s8 (x mod 256) = s8 x.
Proof. unfold s8. by rewrite Z.add_mod_idemp_l by lia. Qed.
Lemma s16_mod x : s16 (x mod 65536) = s16 x.
Proof. unfold s16. by rewrite Z.add_mod_idemp_l by lia. Qed.
Lemma s32_mod x : s32 (x mod 4294967296) = s32 x.
Proof. unfold s32. by rewrite Z.add_mod_idemp_l by lia. Qed.
Lemma s64_mod x : s64 (x mod 18446744073709551616) = s64 x.
Proof. unfold s64. by rewrite Z.add_mod_idemp_l by lia. Qed.

Lemma s8_range x : -128 ≤ s8 x < 128.
Proof. unfold s8. pose proof (Z.mod_pos_bound (x + 128) 256). lia. Qed.
Lemma s16_range x : -32768 ≤ s16 x < 32768.
Proof. unfold s16. pose proof (Z.mod_pos_bound (x + 32768) 65536). lia. Qed.
Lemma s8_s8 x : s8 (s8 x) = s8 x.
Proof. pose proof (s8_range x). unfold s8 at 1. rewrite Z.mod_small; lia. Qed.
Lemma s16_s16 x : s16 (s16 x) = s16 x.
Proof. pose proof (s16_range x). unfold s16 at 1. rewrite Z.mod_small; lia. Qed.
Lemma s32_s32 x : s32 (s32 x) = s32 x.
Proof.
  unfold s32 at 1. rewrite Z.mod_small; [lia|].
  unfold s32. pose proof (Z.mod_pos_bound (x + 2147483648) 4294967296). lia.
Qed.
Lemma s64_s32 x : s32 (s64 x) = s32 x.
Proof.
  unfold s64, s32. rewrite (Z.mod_eq _ 18446744073709551616) by lia.
  set (q := (x + 9223372036854775808) / 18446744073709551616).
  replace (x + 9223372036854775808 - 18446744073709551616 * q - 9223372036854775808 + 2147483648)
    with (x + 2147483648 + (- q * 4294967296) * 4294967296) by lia.
  by rewrite Z.mod_add by lia.
Qed.

(** The bit that is tested is the sign. *)
Lemma top_bit k x : 0 ≤ k → 0 ≤ x < 2 ^ (k + 1) → negb (Z.land x (2 ^ k) =? 0) = (2 ^ k <=? x).
Proof.
  intros Hk Hx. rewrite Z.pow_add_r in Hx by lia.
  assert (Z.land x (2 ^ k) = if 2 ^ k <=? x then 2 ^ k else 0) as ->.
  { apply Z.bits_inj'. intros n Hn. rewrite Z.land_spec, Z.pow2_bits_eqb by lia.
    destruct (Z.eqb_spec k n) as [<- | Hne].
    - rewrite andb_true_r, (Z.testbit_eqb x k) by lia.
      destruct (Z.leb_spec (2 ^ k) x).
      + assert (x / 2 ^ k = 1) as -> by (symmetry; apply (Z.div_unique x (2 ^ k) 1 (x - 2 ^ k)); lia).
        by rewrite Z.pow2_bits_true by lia.
      + rewrite (Z.div_small x) by lia. by rewrite Z.bits_0.
    - rewrite andb_false_r. destruct (Z.leb_spec (2 ^ k) x); [|by rewrite Z.bits_0].
      symmetry. by apply Z.pow2_bits_false. }
  destruct (Z.leb_spec (2 ^ k) x); [|done].
  assert (0 < 2 ^ k) by (apply Z.pow_pos_nonneg; lia). simpl. lia.
Qed.

Lemma sign_extend_8_spec x : sign_extend_8_to_integer x = s8 x.
Proof.
  unfold sign_extend_8_to_integer. pose proof (Z.mod_pos_bound x 256 ltac:(lia)) as Hb.
  rewrite <- (s8_mod x). generalize dependent (x mod 256). intros y Hb.
  pose proof (top_bit 7 y ltac:(lia) Hb) as Ht. change (2 ^ 7) with 128 in Ht. rewrite Ht.
  unfold s8.
  destruct (Z.leb_spec 128 y).
  - rewrite Z_mod_nz_opp_full; rewrite ?(Z.mod_small y) by lia; [|lia].
    replace (y + 128) with (y - 128 + 1 * 256) by lia. rewrite Z.mod_add by lia.
    rewrite Z.mod_small by lia. lia.
  - rewrite Z.mod_small by lia. lia.
Qed.
Lemma sign_extend_16_spec x : sign_extend_16_to_integer x = s16 x.
Proof.
  unfold sign_extend_16_to_integer. pose proof (Z.mod_pos_bound x 65536 ltac:(lia)) as Hb.
  rewrite <- (s16_mod x). generalize dependent (x mod 65536). intros y Hb.
  pose proof (top_bit 15 y ltac:(lia) Hb) as Ht. change (2 ^ 15) with 32768 in Ht. rewrite Ht.
  unfold s16.
  destruct (Z.leb_spec 32768 y).
  - rewrite Z_mod_nz_opp_full; rewrite ?(Z.mod_small y) by lia; [|lia].
    replace (y + 32768) with (y - 32768 + 1 * 65536) by lia. rewrite Z.mod_add by lia.
    rewrite Z.mod_small by lia. lia.
  - rewrite Z.mod_small by lia. lia.
Qed.

(** ** Memory *)

Section nub.
Context {W : Type} `{!Windows W} `{!WindowsLaws W}.

Definition mapped (s : nub W) (a : Z) (n : nat) : Prop :=
  is_Some (bytes_at (memory (world s)) a n).

(** The debugger can write the [n] bytes at [a]. *)
Definition can_write (s : nub W) (a : Z) (n : nat) : Prop :=
  ∀ b, a <= b < a + n → is_Some (memory (world s) !! b) ∧ writable (world s) b.

Lemma run_write_process_memory (s : nub W) a l : can_write s a (length l) →
  ∃ w, write_process_memory a l s = Some (ACCESS_OK, set_world w s) ∧
    bytes_at (memory w) a (length l) = Some l ∧
    ∀ b, b < a ∨ a + length l ≤ b → memory w !! b = memory (world s) !! b.
Proof.
  intros H. destruct (write_memory a l (world s) H) as [H1 H2].
  exists (WriteProcessMemory a l (world s)).2. split_and!.
  - unfold write_process_memory, ValidatedWriteProcessMemory.
    sstep (run_in_world (WriteProcessMemory a l) s). by rewrite H1.
  - rewrite H2. apply bytes_at_put.
  - intros b Hb. rewrite H2. by apply put_bytes_outside.
Qed.
Lemma run_write_refused (s : nub W) a l b :
  a <= b < a + length l → ¬ (is_Some (memory (world s) !! b) ∧ writable (world s) b) →
  ∃ w, write_process_memory a l s = Some (ACCESS_VIOLATION_ERROR, set_world w s) ∧
    memory w = memory (world s).
Proof.
  intros Hb H. destruct (write_refused a l (world s) b Hb H) as [H1 H2].
  exists (WriteProcessMemory a l (world s)).2. split; [|done].
  unfold write_process_memory, ValidatedWriteProcessMemory.
  sstep (run_in_world (WriteProcessMemory a l) s). by rewrite H1.
Qed.
Lemma run_read_process_memory (s : nub W) a n :
  read_process_memory a n s = Some (bytes_at (memory (world s)) a n, s).
Proof. unfold read_process_memory, ask_world. by rewrite run_ask, read_memory. Qed.

(** The accessors of integers: how many bytes, what they read as *)
Definition integer_access : list (nat * (Z → Z) *
    (Z → Z → St (nub W) Z) * (Z → St (nub W) (Z * Z))) :=
  [(4%nat, u32, write_value_to_process_memory, read_value_from_process_memory);
   (1%nat, s8, write_8b_to_process_memory, read_8b_from_process_memory);
   (2%nat, s16, write_16b_to_process_memory, read_16b_from_process_memory);
   (4%nat, s32, write_32b_to_process_memory, read_32b_from_process_memory);
   (8%nat, s32, write_64b_to_process_memory, read_64b_from_process_memory)].

(** Each of them writes some bytes of its width, and reads them back. *)
Lemma integer_access_bytes n sign write read a x :
  (n, sign, write, read) ∈ integer_access →
  ∃ l, length l = n ∧ write a x = write_process_memory a l ∧
    ∀ s, bytes_at (memory (world s)) a n = Some l → read a s = Some ((sign x, ACCESS_OK), s).
Proof.
  intros Hin. unfold integer_access in Hin.
  repeat (apply elem_of_cons in Hin as [[= -> -> -> ->] | Hin]);
    [| | | | | by apply not_elem_of_nil in Hin];
    (eexists; split; [apply bytes_of_length|]; split; [reflexivity|]; intros s' Hs';
     unfold read_value_from_process_memory, read_8b_from_process_memory,
       read_16b_from_process_memory, read_32b_from_process_memory,
       read_64b_from_process_memory;
     rewrite (St_bind_Some _ _ _ _ _ (run_read_process_memory s' a _)); rewrite Hs', little_endian_bytes_of;
     unfold mret, St_ret; do 3 f_equal).
  - rewrite sign_extend_8_spec. unfold sign_reduce_integer_to_8. simpl. by rewrite s8_mod, !s8_s8.
  - rewrite sign_extend_16_spec. unfold sign_reduce_integer_to_16. simpl.
    change (Z.pow_pos 256 2) with 65536. by rewrite s16_mod, !s16_s16.
  - unfold sign_extend_32_to_integer, sign_reduce_integer_to_32. simpl.
    change (Z.pow_pos 256 4) with 4294967296. by rewrite s32_mod, !s32_s32.
  - unfold sign_extend_64_to_integer, sign_reduce_integer_to_64. simpl.
    change (Z.pow_pos 256 8) with 18446744073709551616. by rewrite s64_mod, !s64_s32.
Qed.

Lemma integer_access_unmapped n sign write read a (s : nub W) :
  (n, sign, write, read) ∈ integer_access → ¬ mapped s a n →
  read a s = Some ((0, ACCESS_VIOLATION_ERROR), s).
Proof.
  intros Hin Hm. assert (bytes_at (memory (world s)) a n = None) as Hnone.
  { unfold mapped in Hm. destruct (bytes_at _ a n); [|done]. destruct Hm. eauto. }
  unfold integer_access in Hin.
  repeat (apply elem_of_cons in Hin as [[= -> -> -> ->] | Hin]);
    [| | | | | by apply not_elem_of_nil in Hin];
    unfold read_value_from_process_memory, read_8b_from_process_memory,
      read_16b_from_process_memory, read_32b_from_process_memory,
      read_64b_from_process_memory;
    rewrite (St_bind_Some _ _ _ _ _ (run_read_process_memory s a _)); by rewrite Hnone.
Qed.

(** C33: An integer of 8, 16, 32 or 64 bits or a word, written where all the
    bytes of the access are mapped and can be written, reads back as the
    integer reduced to the width of the access and its sign, and no byte
    outside is changed; when one of the bytes is unmapped or cannot be
    written, the write answers an access violation and memory is as it was;
    and a read of unmapped memory answers an access violation. *)
Theorem memory_gives_back_what_is_written n sign write read (s : nub W) a x :
  (n, sign, write, read) ∈ integer_access →
  (can_write s a n →
     ∃ w, write a x s = Some (ACCESS_OK, set_world w s) ∧
       read a (set_world w s) = Some ((sign x, ACCESS_OK), set_world w s) ∧
       ∀ b, b < a ∨ a + n ≤ b → memory w !! b = memory (world s) !! b) ∧
  (∀ b, a <= b < a + n → ¬ (is_Some (memory (world s) !! b) ∧ writable (world s) b) →
     ∃ w, write a x s = Some (ACCESS_VIOLATION_ERROR, set_world w s) ∧
       memory w = memory (world s)) ∧
  (¬ mapped s a n → read a s = Some ((0, ACCESS_VIOLATION_ERROR), s)).
Proof.
  intros Hin. destruct (integer_access_bytes n sign write read a x Hin) as (l & Hl & Hw & Hr).
  rewrite Hw. split_and!.
  - intros Hm. rewrite <- Hl in Hm.
    destruct (run_write_process_memory s a l Hm) as (w & H1 & H2 & H3).
    exists w. rewrite Hl in H2, H3. split; [done|]. split; [by apply Hr | done].
  - rewrite <- Hl. intros b. apply run_write_refused.
  - by eapply integer_access_unmapped.
Qed.

(** ** Registers *)

Lemma registers_enumerated reg : is_register reg = true →
  reg = 1 ∨ reg = 2 ∨ reg = 3 ∨ reg = 4 ∨ reg = 5 ∨ reg = 6 ∨ reg = 7 ∨ reg = 8 ∨ reg = 9 ∨
  reg = 10 ∨ reg = 11 ∨ reg = 12 ∨ reg = 13 ∨ reg = 14 ∨ reg = 15 ∨ reg = 16.
Proof.
  unfold is_register. change NUB_REGISTER_EAX with 1. change NUB_REGISTER_GS with 16. lia.
Qed.

Lemma context_get_put c reg v : is_register reg = true → reg ≠ NUB_REGISTER_DS →
  context_get (context_put reg v c) reg = Some v.
Proof.
  intros Hr Hne. apply registers_enumerated in Hr. change NUB_REGISTER_DS with 12 in Hne.
  repeat (destruct Hr as [-> | Hr]; [reflexivity || done|]). by subst.
Qed.
Lemma context_get_put_ne c reg reg' v : is_register reg = true → is_register reg' = true →
  reg' ≠ reg → reg' ≠ NUB_REGISTER_DS →
  context_get (context_put reg v c) reg' = context_get c reg'.
Proof.
  intros Hr Hr' Hne Hds. apply registers_enumerated in Hr, Hr'.
  change NUB_REGISTER_DS with 12 in Hds.
  repeat (destruct Hr' as [-> | Hr']; [repeat (destruct Hr as [-> | Hr]; [done || reflexivity|]);
    subst; done || reflexivity|]).
  subst. repeat (destruct Hr as [-> | Hr]; [done || reflexivity|]). by subst.
Qed.

Lemma nth_float_stored area value n : length area = 80%nat → length value = 10%nat → (n < 8)%nat →
  read_nth_float (store_nth_float area value n) n = value ∧
  ∀ k, (k < 8)%nat → k ≠ n →
    read_nth_float (store_nth_float area value n) k = read_nth_float area k.
Proof.
  intros Ha Hv Hn. unfold read_nth_float, store_nth_float. rewrite (take_ge value) by lia.
  split.
  - apply list_eq. intros i. destruct (decide (i < 10)%nat) as [Hi | Hi].
    + rewrite lookup_take_lt, lookup_drop by lia.
      rewrite list_lookup_inserts by lia. f_equal. lia.
    + rewrite lookup_take_ge by lia. symmetry. apply lookup_ge_None. lia.
  - intros k Hk Hne. apply list_eq. intros i. destruct (decide (i < 10)%nat) as [Hi | Hi].
    + rewrite !lookup_take_lt, !lookup_drop by lia.
      destruct (decide (k < n)%nat).
      * by rewrite list_lookup_inserts_lt by lia.
      * by rewrite list_lookup_inserts_ge by lia.
    + by rewrite !lookup_take_ge by lia.
Qed.

Lemma run_register_get32 (s : nub W) t d c reg x :
  threads s !! t = Some d → contexts (world s) !! ThreadHandle d = Some c →
  context_get c reg = Some x → register_get32 t reg s = Some ((x, ACCESS_OK), s).
Proof.
  intros Hd Hc Hx. unfold register_get32. sstep (run_get_thread _ _ _ Hd).
  sstep (run_get_context s (ThreadHandle d)). by rewrite Hc, Hx.
Qed.
Lemma context_get_defined c reg : is_register reg = true → is_Some (context_get c reg).
Proof.
  intros Hr%registers_enumerated. repeat (destruct Hr as [-> | Hr]; [by eexists|]). subst. by eexists.
Qed.

(** The registers whose value Windows keeps as it is given: all but the flags and the
    segments, which it may correct. *)
Definition is_kept (reg : Z) : bool := (NUB_REGISTER_EAX <=? reg) && (reg <=? NUB_REGISTER_EIP).

Lemma kept_enumerated reg : is_kept reg = true →
  reg = 1 ∨ reg = 2 ∨ reg = 3 ∨ reg = 4 ∨ reg = 5 ∨ reg = 6 ∨ reg = 7 ∨ reg = 8 ∨ reg = 9.
Proof.
  unfold is_kept. change NUB_REGISTER_EAX with 1. change NUB_REGISTER_EIP with 9. lia.
Qed.
Lemma kept_accepted c c' reg : accepted c c' → is_kept reg = true →
  context_get c' reg = context_get c reg.
Proof.
  intros [(H1 & H2 & H3 & H4 & H5 & H6 & H7) H8 H9 _ _] Hr%kept_enumerated.
  repeat (destruct Hr as [-> | Hr]; [unfold context_get; simpl; congruence|]).
  subst. unfold context_get. simpl. congruence.
Qed.
Lemma kept_register reg : is_kept reg = true → is_register reg = true ∧ reg ≠ NUB_REGISTER_DS.
Proof.
  unfold is_kept, is_register. change NUB_REGISTER_EAX with 1. change NUB_REGISTER_EIP with 9.
  change NUB_REGISTER_GS with 16. change NUB_REGISTER_DS with 12. lia.
Qed.

(** C34: A value written to a general register of a thread, its stack pointer or
    its instruction pointer (the flags and the segments, which Windows may
    correct, are left out), reads back as the 32-bit number it is modulo
    2^32, and the others of these registers read as before; memory and the
    contexts of the other threads do not change. *)
Theorem registers_give_back_what_is_written (s : nub W) t d c reg v error :
  threads s !! t = Some d → contexts (world s) !! ThreadHandle d = Some c →
  is_kept reg = true →
  ∃ w, register_put32 t reg v error s = Some (ACCESS_OK, set_world w s) ∧
    register_get32 t reg (set_world w s) = Some ((u32 v, ACCESS_OK), set_world w s) ∧
    (∀ reg', is_kept reg' = true → reg' ≠ reg →
       ∃ x, register_get32 t reg' s = Some ((x, ACCESS_OK), s) ∧
         register_get32 t reg' (set_world w s) = Some ((x, ACCESS_OK), set_world w s)) ∧
    memory w = memory (world s) ∧
    ∀ h, h ≠ ThreadHandle d → contexts w !! h = contexts (world s) !! h.
Proof.
  intros Hd Hc Hk. destruct (kept_register _ Hk) as [Hr Hds].
  destruct (set_context (ThreadHandle d) (context_put reg (u32 v) c) (world s))
    as (Hok & c' & Hw & A); [eauto|].
  set (w := (SetThreadContext (ThreadHandle d) (context_put reg (u32 v) c) (world s)).2) in *.
  assert (contexts w !! ThreadHandle d = Some c') as Hc' by (by rewrite Hw, lookup_insert_eq).
  exists w. split_and!.
  - unfold register_put32. sstep (run_get_thread _ _ _ Hd).
    sstep (run_get_context s (ThreadHandle d)). rewrite Hc. cbv zeta. rewrite Hr.
    by sstep (run_set_context s (ThreadHandle d) (context_put reg (u32 v) c) ltac:(eauto)).
  - eapply run_register_get32; [done | done |]. rewrite (kept_accepted _ _ _ A Hk).
    by apply context_get_put.
  - intros reg' Hk' Hne. destruct (kept_register _ Hk') as [Hr' Hds'].
    destruct (context_get_defined c reg' Hr') as [x Hx].
    exists x. split; [by eapply run_register_get32|].
    eapply run_register_get32; [done | done |]. rewrite (kept_accepted _ _ _ A Hk').
    by rewrite context_get_put_ne.
  - apply set_context_memory.
  - intros h Hne. by rewrite Hw, lookup_insert_ne.
Qed.

Theorem floats_give_back_what_is_written (s : nub W) t d c reg v error old :
  threads s !! t = Some d → contexts (world s) !! ThreadHandle d = Some c →
  length (RegisterArea c) = 80%nat → length v = 10%nat → is_float reg = true →
  ∃ w, register_putfloat t reg v error s = Some (ACCESS_OK, set_world w s) ∧
    register_getfloat t reg old error (set_world w s) = Some ((v, ACCESS_OK), set_world w s).
Proof.
  intros Hd Hc Ha Hv Hf.
  assert (is_register reg = false) as Hr.
  { unfold is_float, is_register in *. change NUB_REGISTER_EAX with 1.
    change NUB_REGISTER_GS with 16. change NUB_REGISTER_FLT0 with 17 in Hf. lia. }
  set (n := Z.to_nat (reg - NUB_REGISTER_FLT0)).
  assert (n < 8)%nat as Hn.
  { unfold n, is_float in *. change NUB_REGISTER_FLT0 with 17 in *.
    change NUB_REGISTER_FLT7 with 24 in *. lia. }
  set (c' := set_RegisterArea (store_nth_float (RegisterArea c) v n) c).
  destruct (set_context (ThreadHandle d) c' (world s)) as (Hok & c2 & Hw & A); [eauto|].
  exists (SetThreadContext (ThreadHandle d) c' (world s)).2. split.
  - unfold register_putfloat. sstep (run_get_thread _ _ _ Hd).
    sstep (run_get_context s (ThreadHandle d)). rewrite Hc, Hr. cbv zeta. rewrite Hf.
    by sstep (run_set_context s (ThreadHandle d) c' ltac:(eauto)).
  - set (s' := set_world _ s). unfold register_getfloat.
    assert (threads s' !! t = Some d) as Hd' by done. sstep (run_get_thread _ _ _ Hd').
    sstep (run_get_context s' (ThreadHandle d)). simpl. rewrite Hw, lookup_insert_eq, Hr, Hf.
    rewrite (accepted_floats _ _ A). unfold mret, St_ret. do 3 f_equal. by apply nth_float_stored.
Qed.

End nub.

(** ** Examples *)

Lemma memory_gives_back_what_is_written_witness :
  ∃ w, write_16b_to_process_memory 5000 (-2) (example_nub []) =
         Some (ACCESS_OK, set_world w (example_nub [])) ∧
       read_16b_from_process_memory 5000 (set_world w (example_nub [])) =
         Some ((-2, ACCESS_OK), set_world w (example_nub [])).
Proof.
  destruct (proj1 (memory_gives_back_what_is_written 2 s16 write_16b_to_process_memory
    read_16b_from_process_memory (example_nub []) 5000 (-2) ltac:(right; right; left)))
    as (w & H1 & H2 & _).
  { refine (proj1 (d_writable_spec example_code 5000 2) _). vm_compute. reflexivity. }
  exists w. split; [exact H1 | exact H2].
Defined.

Lemma registers_give_back_what_is_written_witness :
  ∃ w, register_put32 20 NUB_REGISTER_ECX 77 0 (example_nub []) =
         Some (ACCESS_OK, set_world w (example_nub [])) ∧
       register_get32 20 NUB_REGISTER_ECX (set_world w (example_nub [])) =
         Some ((77, ACCESS_OK), set_world w (example_nub [])).
Proof.
  destruct (registers_give_back_what_is_written (example_nub []) 20 example_thread
    (no_context 1000) NUB_REGISTER_ECX 77 0) as (w & H1 & H2 & _); [reflexivity..|].
  exists w. by split.
Defined.

(** Memory that can be read only *)
Example read_only_data :
  (write_8b_to_process_memory 6000 1 ;; read_8b_from_process_memory 6000) (example_nub []) =
    Some ((7, ACCESS_OK), example_nub []).
Proof. vm_compute. reflexivity. Qed.

(** DS reads as CS. *)
Example DS_reads_as_CS :
  ∃ s, (register_put32 20 NUB_REGISTER_DS 43 0 ;; register_get32 20 NUB_REGISTER_DS)
         (example_nub []) = Some ((27, ACCESS_OK), s).
Proof. eexists. vm_compute. reflexivity. Qed.
