(* ===== verification/NubStack.v ===== *)
(** * Stack traces and interactive code

    [stack_backtrace2.c]: the tables of the segments of interactive code, and what
    [NubPoints.nub_initialize_stack_vectors] finds on a stack.

    A table holds 256 segments; the tables are linked from the first to the current one,
    and are the list of their contents. *)

From S2P Require Import Prelude Effects HeapTable NubOS Nub NubPoints NubEvents NubWait.
From S2P Require Import NubLaws NubBreakpoints NubDebuggee NubSessions NubInvariant NubRecovery.
From stdpp Require Import base tactics option list numbers gmap.
From Stdlib Require Import ZArith Lia Bool.

Local Open Scope Z_scope.

(** ** Interactive code *)

Definition INTERACTIVE_CODE_TABLE_GRANULARITY : nat := 256.

(** [SegmentLowerBoundary] and [SegmentUpperBoundary] *)
Definition segment : Type := Z * Z.

(** At the end of [CurrentSegmentTable] *)
Fixpoint add_to_current (x : segment) (tables : list (list segment)) : list (list segment) :=
  match tables with
  | [] => []
  | [table] => [table ++ [x]]
  | table :: tables => table :: add_to_current x tables
  end.

Definition nub_register_interactive_code_segment (tables : list (list segment))
    (x : segment) : list (list segment) :=
  match tables with
  | [] => [[x]]
  | _ =>
      if (length (List.last tables []) =? INTERACTIVE_CODE_TABLE_GRANULARITY)%nat
      then tables ++ [[x]] else add_to_current x tables
  end.

Definition in_segment (IP : Z) (x : segment) : bool := (x.1 <=? IP) && (IP <=? x.2).

Fixpoint search_segments (IP : Z) (l : list segment) : option Z :=
  match l with
  | [] => None
  | x :: l => if in_segment IP x then Some x.1 else search_segments IP l
  end.

(** The lower boundary, when there is a segment with the address *)
Fixpoint code_address_is_interactive (tables : list (list segment)) (IP : Z) : option Z :=
  match tables with
  | [] => None
  | table :: tables =>
      match search_segments IP table with
      | Some base => Some base
      | None => code_address_is_interactive tables IP
      end
  end.

Section finder.
Context {W : Type}.

Definition generic_DLL_base_address_finder (tables : list (list segment)) (IP : Z) :
    St (nub W) Z :=
  l ← ask LibraryList;
  match code_address_is_interactive tables IP with
  | Some _ => b ← lift_st (l !! 0%nat); mret b.1
  | None => i ← library_descriptor_from_address IP; b ← lift_st (l !! i); mret b.1
  end.

End finder.

(** ** Laws *)

Definition granular (tables : list (list segment)) : Prop :=
  (∀ t, t ∈ tables → 1 ≤ length t ≤ INTERACTIVE_CODE_TABLE_GRANULARITY)%nat ∧
  ∀ t, t ∈ removelast tables → length t = INTERACTIVE_CODE_TABLE_GRANULARITY.

Lemma removelast_cons {A} (x y : A) l : removelast (x :: y :: l) = x :: removelast (y :: l).
Proof. done. Qed.

Lemma add_to_current_spec x tables :
  tables ≠ [] → (length (List.last tables []) < INTERACTIVE_CODE_TABLE_GRANULARITY)%nat →
  granular tables →
  concat (add_to_current x tables) = concat tables ++ [x] ∧ granular (add_to_current x tables) ∧
  add_to_current x tables ≠ [].
Proof.
  induction tables as [|t tables IH]; [done|]. intros _ Hl [Hg Hf].
  destruct tables as [|t' tables].
  - simpl in *. rewrite !app_nil_r. split; [done|]. split; [|done]. split.
    + intros u Hu. apply list_elem_of_singleton in Hu as ->. rewrite length_app. simpl. lia.
    + intros u Hu. by apply not_elem_of_nil in Hu.
  - assert (granular (t' :: tables)) as Hg'.
    { split; [intros u Hu; apply Hg; by apply list_elem_of_further|].
      intros u Hu. apply Hf. rewrite removelast_cons. by apply list_elem_of_further. }
    destruct (IH ltac:(done) Hl Hg') as (Hc & [Hg1 Hf1] & Hne).
    change (add_to_current x (t :: t' :: tables)) with (t :: add_to_current x (t' :: tables)).
    split; [change (t ++ concat (add_to_current x (t' :: tables)) = (t ++ concat (t' :: tables)) ++ [x]);
            by rewrite Hc, app_assoc|].
    split; [|done].
    split.
    + intros u [-> | Hu]%elem_of_cons; [apply Hg, list_elem_of_here | by apply Hg1].
    + destruct (add_to_current x (t' :: tables)) as [|u us] eqn:Hadd; [done|].
      intros v Hv. rewrite removelast_cons in Hv. apply elem_of_cons in Hv as [-> | Hv].
      * apply Hf. rewrite removelast_cons. apply list_elem_of_here.
      * by apply Hf1.
Qed.

Lemma removelast_snoc {A} (l : list A) x : removelast (l ++ [x]) = l.
Proof. rewrite removelast_app by done. simpl. apply app_nil_r. Qed.

Lemma elem_of_last_or {A} (l : list A) d x :
  x ∈ l → x ∈ removelast l ∨ x = List.last l d.
Proof.
  intros Hx. destruct l as [|y l] using rev_ind; [by apply not_elem_of_nil in Hx|].
  rewrite removelast_snoc, last_last. apply elem_of_app in Hx as [? | Hx]; [by left|].
  right. by apply list_elem_of_singleton in Hx.
Qed.

Lemma register_spec tables x : granular tables →
  concat (nub_register_interactive_code_segment tables x) = concat tables ++ [x] ∧
  granular (nub_register_interactive_code_segment tables x).
Proof.
  intros Hg. unfold nub_register_interactive_code_segment. destruct tables as [|t tables].
  - split; [done|]. split.
    + intros u Hu. apply list_elem_of_singleton in Hu as ->. unfold INTERACTIVE_CODE_TABLE_GRANULARITY. simpl. lia.
    + intros u Hu. by apply not_elem_of_nil in Hu.
  - set (l := t :: tables) in *. assert (l ≠ []) as Hne by done.
    assert (List.last l [] ∈ l) as Hin.
    { rewrite (app_removelast_last [] Hne) at 2. apply elem_of_app. right.
      apply list_elem_of_here. }
    destruct (Nat.eqb_spec (length (List.last l [])) INTERACTIVE_CODE_TABLE_GRANULARITY)
      as [Heq | Hlt].
    + split; [rewrite concat_app; simpl; done|]. destruct Hg as [Hg Hf]. split.
      * intros u [Hu | Hu]%elem_of_app; [by apply Hg|].
        apply list_elem_of_singleton in Hu as ->. unfold INTERACTIVE_CODE_TABLE_GRANULARITY. simpl. lia.
      * rewrite removelast_snoc. intros u Hu.
        destruct (elem_of_last_or l [] u Hu) as [? | ->]; [by apply Hf | done].
    + destruct (add_to_current_spec x l Hne) as (? & ? & _); [|done|done].
      destruct Hg as [Hg _]. pose proof (Hg _ Hin). lia.
Qed.

Lemma search_segments_app IP l l' :
  search_segments IP (l ++ l') =
    match search_segments IP l with Some b => Some b | None => search_segments IP l' end.
Proof. induction l as [|x l IH]; simpl; [done|]. by destruct (in_segment IP x). Qed.

Lemma interactive_concat IP tables :
  code_address_is_interactive tables IP = search_segments IP (concat tables).
Proof.
  induction tables as [|t tables IH]; simpl; [done|]. by rewrite search_segments_app, <- IH.
Qed.

(** C36: After any sequence of registrations of interactive code segments,
    looking up an address answers as searching the segments in the order of
    their registration does; all tables but the last are full, so that there
    are no more of them than needed. *)
Theorem interactive_segments_in_order l IP :
  let tables := foldl nub_register_interactive_code_segment [] l in
  code_address_is_interactive tables IP = fst <$> List.find (in_segment IP) l ∧
  granular tables ∧
  (length tables * INTERACTIVE_CODE_TABLE_GRANULARITY < length l + INTERACTIVE_CODE_TABLE_GRANULARITY)%nat.
Proof.
  intros tables. assert (concat tables = l ∧ granular tables) as [Hc Hg].
  { unfold tables. induction l as [|x l IH] using rev_ind.
    - split; [done|]. split; intros u Hu; by apply not_elem_of_nil in Hu.
    - rewrite foldl_app. simpl. destruct IH as [Hc Hg].
      destruct (register_spec (foldl nub_register_interactive_code_segment [] l) x Hg) as [H1 H2].
      by rewrite H1, Hc. }
  split; [|split; [done|]].
  - rewrite interactive_concat, Hc. clear tables Hc Hg. induction l as [|x l IH]; simpl; [done|].
    by destruct (in_segment IP x).
  - rewrite <- Hc. clear Hc. destruct Hg as [Hg Hf]. generalize dependent tables. clear l.
    intros tables. induction tables as [|t tables IH]; intros Hg Hf; [apply Nat.lt_0_succ|].
    cbn [concat]. rewrite length_app. cbn [length].
    destruct tables as [|t' tables].
    + pose proof (Hg t ltac:(by apply list_elem_of_here)). cbn [concat length]. lia.
    + assert (length t = INTERACTIVE_CODE_TABLE_GRANULARITY) as Ht
        by (apply Hf; rewrite removelast_cons; apply list_elem_of_here).
      assert (length (t' :: tables) * INTERACTIVE_CODE_TABLE_GRANULARITY <
        length (concat (t' :: tables)) + INTERACTIVE_CODE_TABLE_GRANULARITY)%nat as H.
      { apply IH.
        - intros u Hu. apply Hg. by apply list_elem_of_further.
        - intros u Hu. apply Hf. rewrite removelast_cons. by apply list_elem_of_further. }
      rewrite Ht. cbn [length concat] in *. lia.
Qed.

(** ** Stack traces *)

(** The first [n] frames are there, from the top of the stack down to [fp]. *)
Definition is_trace (m : gmap Z stackframe) (n fp : Z) : Prop :=
  (∀ i, 0 ≤ i < n → ∃ f, m !! i = Some f ∧ AddrFrame f ≤ fp) ∧
  ∀ i j f g, 0 ≤ i < j → j < n → m !! i = Some f → m !! j = Some g → AddrFrame f < AddrFrame g.

Lemma is_trace_add m n fp f : 0 ≤ n → is_trace m n fp → (0 < n → fp < AddrFrame f) →
  is_trace (<[n := f]> m) (n + 1) (AddrFrame f).
Proof.
  intros Hn [Hb Ho] Hf. split.
  - intros i Hi. destruct (decide (i = n)) as [-> | Hne].
    + exists f. rewrite lookup_insert_eq. split; [done | lia].
    + destruct (Hb i ltac:(lia)) as (g & Hg & Hle). exists g.
      rewrite lookup_insert_ne by done. split; [done|]. lia.
  - intros i j g h Hi Hj Hg Hh. rewrite lookup_insert_ne in Hg by lia.
    destruct (decide (j = n)) as [-> | Hne].
    + rewrite lookup_insert_eq in Hh. injection Hh as <-.
      destruct (Hb i ltac:(lia)) as (g' & Hg' & Hle). assert (g' = g) as -> by congruence. lia.
    + rewrite lookup_insert_ne in Hh by done. eapply Ho; [| |done..]; lia.
Qed.

Section traces.
Context {W : Type} `{!Windows W}.
Context (s : nub W) (thread : Z) (d : dbgthread) (Hd : threads s !! thread = Some d).

Definition with_trace (m : gmap Z stackframe) : nub W :=
  set_threads (<[thread := set_StackTrace m d]> (threads s)) s.

Lemma with_own_trace : with_trace (StackTrace d) = s.
Proof.
  unfold with_trace. replace (set_StackTrace (StackTrace d) d) with d by by destruct d.
  rewrite insert_id by done. by destruct s.
Qed.

(** The limit on the size ends the loop, whatever [StackWalk] answers. *)
Lemma run_walk_stack fuel h n fp frame c m :
  0 ≤ n → n + Z.of_nat fuel = STACK_TRACE_MAX_SIZE → is_trace m n fp →
  ∃ k m' fp', walk_stack fuel thread h n fp frame c (with_trace m) = Some (k, with_trace m') ∧
    n ≤ k ≤ STACK_TRACE_MAX_SIZE ∧ (n = 0 → 1 ≤ k) ∧ is_trace m' k fp'.
Proof.
  revert n fp frame c m. induction fuel as [|fuel IH]; intros n fp frame c m Hn Hfuel Hm;
    (unfold walk_stack; fold (@walk_stack W _); unfold ask_world;
     sstep (run_ask (λ s, StackWalk h frame c (world s)) (with_trace m));
     destruct (StackWalk h frame c _) as [[ok frame'] c']; simpl;
     destruct ((0 <? n) && negb ok) eqn:H1;
       [exists n, m, fp; split_and!; [done | lia | unfold STACK_TRACE_MAX_SIZE in *; lia | lia | done]|];
     destruct ((0 <? n) && (AddrFrame frame' <=? fp)) eqn:H2;
       [exists n, m, fp; split_and!; [done | lia | unfold STACK_TRACE_MAX_SIZE in *; lia | lia | done]|];
     destruct (Z.eqb_spec n STACK_TRACE_MAX_SIZE) as [H3 | H3];
       [exists n, m, fp; split_and!; [done | lia | lia | unfold STACK_TRACE_MAX_SIZE in *; lia | done]|]).
  - exfalso. lia.
  - assert (threads (with_trace m) !! thread = Some (set_StackTrace m d)) as Ht
      by (simpl; by rewrite lookup_insert_eq).
    sstep (run_upd_thread thread (λ t, set_StackTrace (<[n := frame']> (StackTrace t)) t) _ _ Ht).
    set (s' := set_threads _ (with_trace m)).
    assert (s' = with_trace (<[n := frame']> m)) as ->.
    { unfold s', with_trace, set_threads. simpl. by rewrite insert_insert_eq. }
    assert (is_trace (<[n := frame']> m) (n + 1) (AddrFrame frame')) as Htr
      by (eapply is_trace_add; [done | exact Hm | lia]).
    destruct ok.
    + destruct (IH (n + 1) (AddrFrame frame') frame' c' (<[n := frame']> m))
        as (k & m' & fp' & Hrun & Hk & _ & Htr'); [lia | lia | done|].
      exists k, m', fp'. split; [exact Hrun|]. split_and!; [lia | lia | lia | done].
    + exists (n + 1), (<[n := frame']> m), (AddrFrame frame'). split; [done|].
      split_and!; [lia | unfold STACK_TRACE_MAX_SIZE in *; lia | lia | done].
Qed.

Lemma run_initialize_stack_vectors :
  ∃ n m fp, nub_initialize_stack_vectors thread s =
      Some (n, set_threads (<[thread := set_StackTraceValid true (set_StackTraceSize n
                 (set_StackTrace m d))]> (threads s)) s) ∧
    0 ≤ n ≤ STACK_TRACE_MAX_SIZE ∧
    (is_Some (GetThreadContext (ThreadHandle d) (world s)) → 1 ≤ n) ∧ is_trace m n fp.
Proof.
  unfold nub_initialize_stack_vectors. sstep (run_get_thread _ _ _ Hd). unfold ask_world.
  sstep (run_ask (λ s, GetThreadContext (ThreadHandle d) (world s)) s).
  assert (∃ n m fp, (match GetThreadContext (ThreadHandle d) (world s) with
       | None => mret 0
       | Some c => walk_stack (Z.to_nat STACK_TRACE_MAX_SIZE) thread (ThreadHandle d) 0 0
                     (mkFrame (Eip c) (Esp c) (Ebp c) 0) c
       end) s = Some (n, with_trace m) ∧ 0 ≤ n ≤ STACK_TRACE_MAX_SIZE ∧
     (is_Some (GetThreadContext (ThreadHandle d) (world s)) → 1 ≤ n) ∧ is_trace m n fp)
    as (n & m & fp & Hrun & Hn & H1 & Htr).
  { destruct (GetThreadContext (ThreadHandle d) (world s)) as [c|].
    - destruct (run_walk_stack (Z.to_nat STACK_TRACE_MAX_SIZE) (ThreadHandle d) 0 0
        (mkFrame (Eip c) (Esp c) (Ebp c) 0) c (StackTrace d)) as (n & m & fp & Hrun & Hn & H1 & Htr);
        [lia | done | split; lia |].
      rewrite with_own_trace in Hrun. exists n, m, fp. split_and!; [done | lia | lia | auto | done].
    - exists 0, (StackTrace d), 0. rewrite with_own_trace.
      split_and!; [done | lia | done | by intros [? ?] | split; lia]. }
  sstep Hrun.
  assert (threads (with_trace m) !! thread = Some (set_StackTrace m d)) as Hm
    by (simpl; by rewrite lookup_insert_eq).
  sstep (run_upd_thread thread (λ t, set_StackTraceValid true (set_StackTraceSize n t)) _ _ Hm).
  exists n, m, fp. split; [|done].
  unfold with_trace, set_threads. simpl. by rewrite insert_insert_eq.
Qed.

Lemma read_trace m n fp k : is_trace m n fp → 0 ≤ n →
  ∀ i, (i + k = Z.to_nat n)%nat →
  ∃ l, mapM (λ j : nat, m !! Z.of_nat j) (seq i k) = Some l ∧ length l = k ∧
    ∀ j, (j < k)%nat → l !! j = m !! Z.of_nat (i + j).
Proof.
  intros [Hb _] Hn. induction k as [|k IH]; intros i Hi;
    [exists []; split_and!; [done | done | intros; lia]|].
  destruct (Hb (Z.of_nat i)) as (f & Hf & _); [lia|].
  destruct (IH (S i)) as (l & Hl & Hlen & Hlook); [lia|]. exists (f :: l). split.
  - simpl. by rewrite Hf, Hl.
  - split; [simpl; lia|]. intros [|j] Hj; simpl; [by rewrite Nat.add_0_r, Hf|].
    rewrite Hlook by lia. f_equal. lia.
Qed.

(** C35: Walking the stack of a thread whose context can be read always ends,
    whatever the frames the system's walker produces, with between 1 and 512
    frames, of strictly increasing frame pointers, which
    nub_read_stack_vectors then copies out. *)
Theorem stack_trace_ends :
  is_Some (GetThreadContext (ThreadHandle d) (world s)) →
  ∃ n s' l, nub_initialize_stack_vectors thread s = Some (n, s') ∧
    1 ≤ n ≤ STACK_TRACE_MAX_SIZE ∧ world s' = world s ∧
    nub_read_stack_vectors thread s' = Some (Some l, s') ∧ length l = Z.to_nat n ∧
    ∀ i j f g, (i < j)%nat → l !! i = Some f → l !! j = Some g → f.1.1 < g.1.1.
Proof.
  intros Hc. destruct run_initialize_stack_vectors as (n & m & fp & Hrun & Hn & H1 & Htr).
  specialize (H1 Hc). set (d' := set_StackTraceValid true _) in Hrun.
  set (s' := set_threads _ s) in Hrun.
  destruct (read_trace m n fp (Z.to_nat n) Htr ltac:(lia) 0 ltac:(lia)) as (l & Hl & Hlen & Hlook).
  exists n, s', ((λ f, (AddrFrame f, AddrPC f, AddrReturn f)) <$> l). split_and!; try done; try lia.
  - unfold nub_read_stack_vectors.
    assert (threads s' !! thread = Some d') as Hd' by (simpl; by rewrite lookup_insert_eq).
    sstep (run_get_thread _ _ _ Hd'). cbn [d' StackTraceValid set_StackTraceValid negb].
    change (StackTraceSize d') with n. rewrite (proj2 (Z.eqb_neq n 0)) by lia.
    change (StackTrace d') with m. rewrite Hl. by sstep (run_lift l s').
  - by rewrite length_fmap.
  - intros i j f g Hij Hf Hg.
    apply list_lookup_fmap_Some in Hf as (f' & -> & Hf), Hg as (g' & -> & Hg). simpl.
    assert (j < length l)%nat by (by apply lookup_lt_Some in Hg).
    rewrite Hlook in Hf, Hg by lia. destruct Htr as [_ Ho].
    eapply (Ho (Z.of_nat (0 + i)) (Z.of_nat (0 + j))); [lia | lia | done | done].
Qed.

End traces.

Lemma stack_trace_ends_witness :
  ∃ n s', nub_initialize_stack_vectors 20 (example_nub []) = Some (n, s') ∧ 1 ≤ n.
Proof.
  destruct (stack_trace_ends (example_nub []) 20 example_thread) as (n & s' & l & H & Hn & _);
    [vm_compute; reflexivity | vm_compute; eauto |].
  exists n, s'. split; [done | apply Hn].
Defined.
