(* ===== verification/NubAnswers.v ===== *)
(** * Every debug event is answered once

    Windows stops the process for each debug event until [ContinueDebugEvent] is called
    for it, with the identifiers of the event.  The nub does that when it continues the
    application, from what it noted of each thread; here: once per event, for the right
    thread, for every sequence of events. *)

From S2P Require Import Prelude Effects HeapTable NubOS Nub NubPoints NubEvents NubWait.
From S2P Require Import NubLaws NubBreakpoints NubSessions NubDebuggee NubInvariant.
From stdpp Require Import base tactics option list numbers gmap gmultiset sets.
From Stdlib Require Import ZArith Lia Bool.

Local Open Scope Z_scope.

Section still.
Context {W : Type} `{!Windows W} `{!WindowsLaws W}.

Notation M := (St (nub W)).

(** What the answer to an event depends on *)
Definition face (d : dbgthread) : Z * Z * bool := (ThreadID d, StoppedState d, Valid d).

Record still (s s' : nub W) : Prop := {
  still_received : received (world s') = received (world s);
  still_continued : continued (world s') = continued (world s);
  still_process : ProcessID s' = ProcessID s;
  still_attached : ProcessAttached s' = ProcessAttached s;
  still_exiting : ExitingProcess s' = ExitingProcess s;
  still_list : ThreadList s' = ThreadList s;
  still_free : free_address s ≤ free_address s';
  still_threads t : face <$> threads s' !! t = face <$> threads s !! t
}.

#[export] Instance still_preorder : PreOrder still.
Proof.
  split; [intros s; by split|]. intros s1 s2 s3 H H'. destruct H, H'.
  split; [congruence.. | lia |]. intros t. congruence.
Qed.

Definition leaves_trace {A} (f : W → A * W) : Prop :=
  ∀ w, received (f w).2 = received w ∧ continued (f w).2 = continued w.

Lemma still_in_world {A} (f : W → A * W) : leaves_trace f → Keeps still (in_world f).
Proof. intros H s a s' [= <- <-]. by split; try apply H. Qed.
Lemma still_modify f :
  (∀ s : nub W, world (f s) = world s ∧ ProcessID (f s) = ProcessID s ∧
     ProcessAttached (f s) = ProcessAttached s ∧ ExitingProcess (f s) = ExitingProcess s ∧
     ThreadList (f s) = ThreadList s ∧ free_address s ≤ free_address (f s) ∧
     threads (f s) = threads s) → Keeps still (modify_st f).
Proof.
  intros H. apply keeps_modify_st. intros s. destruct (H s) as (Hw & ? & ? & ? & ? & ? & Ht).
  split; [by rewrite Hw..| done | done | done | done | done |]. by rewrite Ht.
Qed.
Lemma still_set_world (f : W → W) :
  (∀ w, received (f w) = received w ∧ continued (f w) = continued w) →
  Keeps still (modify_st (λ s, set_world (f (world s)) s)).
Proof. intros H. apply keeps_modify_st. intros s. by split; try apply H. Qed.

Lemma upd_thread_face t f (s : nub W) a s' :
  upd_thread t f s = Some (a, s') →
  ∃ d, threads s !! t = Some d ∧ s' = set_threads (<[t := f d]> (threads s)) s ∧
    ∀ t', t' ≠ t → threads s' !! t' = threads s !! t'.
Proof.
  intros (d & Hd & ->)%upd_thread_inv. exists d. split; [done|]. split; [done|].
  intros t' Hne. simpl. by rewrite lookup_insert_ne.
Qed.
Lemma still_upd_thread t f : (∀ d, face (f d) = face d) → Keeps still (upd_thread t f).
Proof.
  intros Hf s a s' (d & Hd & -> & Hne)%upd_thread_face. split; try done. intros t'.
  destruct (decide (t' = t)) as [-> | ?]; [|by rewrite Hne].
  simpl. rewrite lookup_insert_eq, Hd. simpl. by rewrite Hf.
Qed.
Lemma still_upd_point p f : Keeps still (upd_point p f).
Proof. intros s a s' (b & Hb & ->)%upd_point_inv. by split. Qed.

Lemma suspend_trace h : leaves_trace (SuspendThread h).
Proof. intros w. split; [apply suspend_received | apply suspend_continued]. Qed.
Lemma resume_trace h : leaves_trace (ResumeThread h).
Proof. intros w. split; [apply resume_received | apply resume_continued]. Qed.
Lemma set_context_trace h c : leaves_trace (SetThreadContext h c).
Proof. intros w. split; [apply set_context_received | apply set_context_continued]. Qed.
Lemma write_trace a l : leaves_trace (WriteProcessMemory a l).
Proof. intros w. split; [apply write_received | apply write_continued]. Qed.
Lemma time_trace : leaves_trace GetSystemTimeAsFileTime.
Proof. intros w. split; [apply time_received | apply time_continued]. Qed.
Lemma symbols_trace : leaves_trace SymInitialize.
Proof. intros w. split; [apply symbols_received | apply symbols_continued]. Qed.

End still.

#[export] Hint Resolve still_in_world suspend_trace resume_trace set_context_trace write_trace
  time_trace symbols_trace still_upd_point : keeps.
#[export] Hint Extern 1 (Keeps still (upd_thread _ _)) =>
  apply still_upd_thread; intros ?; reflexivity : keeps.
#[export] Hint Extern 1 (Keeps still (modify_st _)) =>
  apply still_modify; intros ?; simpl; repeat split; first [reflexivity | lia] : keeps.

Ltac still f := unfold f; solve_keeps.

Section functions.
Context {W : Type} `{!Windows W} `{!WindowsLaws W}.

Notation Still := (Keeps (S := nub W) still).

Lemma still_walk_stack fuel t h n fp f c : Still (walk_stack fuel t h n fp f c).
Proof.
  revert n fp f c. induction fuel as [|fuel IH]; intros n fp f c;
    (unfold walk_stack; fold (@walk_stack W _)); solve_keeps; apply IH.
Qed.
#[local] Hint Resolve still_walk_stack : keeps.
Lemma still_nub_initialize_stack_vectors t : Still (nub_initialize_stack_vectors t).
Proof. still (@nub_initialize_stack_vectors). Qed.
#[local] Hint Resolve still_nub_initialize_stack_vectors : keeps.
Lemma still_check_context t p : Still (check_context_for_stepping_capture t p).
Proof. still (@check_context_for_stepping_capture). Qed.
Lemma still_rewind_thread_eip t : Still (rewind_thread_eip t).
Proof. still (@rewind_thread_eip). Qed.
Lemma still_prepare t : Still (prepare_to_single_step_for_breakpoint_recovery t).
Proof. still (@prepare_to_single_step_for_breakpoint_recovery). Qed.
Lemma still_lift_breakpoint p : Still (lift_breakpoint p).
Proof.
  unfold lift_breakpoint, primitive_lift_breakpoint, ValidatedWriteProcessMemory. solve_keeps.
Qed.
Lemma still_drop_breakpoint p : Still (drop_breakpoint p).
Proof.
  unfold drop_breakpoint, primitive_drop_breakpoint, ValidatedWriteProcessMemory. solve_keeps.
Qed.
#[local] Hint Resolve still_check_context still_rewind_thread_eip still_prepare
  still_lift_breakpoint still_drop_breakpoint : keeps.
Lemma still_recover_from_breakpoint t : Still (recover_from_breakpoint t).
Proof. still (@recover_from_breakpoint). Qed.
Lemma still_handle_application_breakpoint t p : Still (handle_application_breakpoint t p).
Proof. still (@handle_application_breakpoint). Qed.
Lemma still_handle_stepping t p : Still (handle_stepping_capture_breakpoint t p).
Proof. still (@handle_stepping_capture_breakpoint). Qed.
#[local] Hint Resolve still_recover_from_breakpoint still_handle_application_breakpoint
  still_handle_stepping : keeps.
Lemma still_handle_breakpoint_hit t a : Still (handle_breakpoint_hit t a).
Proof. still (@handle_breakpoint_hit). Qed.
Lemma still_set_application_state x : Still (set_application_state x).
Proof. unfold set_application_state, get_os_wall_clock_time. solve_keeps. Qed.
Lemma still_set_thread_context t : Still (set_thread_context t).
Proof. still (@set_thread_context). Qed.
Lemma still_set_JIT_event : Still set_JIT_event.
Proof. unfold set_JIT_event. solve_keeps. apply still_set_world. intros w.
  split; [apply set_event_received | apply set_event_continued].
Qed.
Lemma still_SymCleanup : Still (modify_st (λ s, set_world (SymCleanup (world s)) s)).
Proof.
  apply still_set_world. intros w.
  split; [apply symbols_received | apply symbols_continued].
Qed.

End functions.

#[export] Hint Resolve still_recover_from_breakpoint still_handle_breakpoint_hit
  still_set_application_state still_set_thread_context still_set_JIT_event
  still_SymCleanup : keeps.

(** ** Threads that are known *)

Section answers.
Context {W : Type} `{!Windows W} `{!WindowsLaws W}.
Context (pid main : Z).

Notation M := (St (nub W)).

Definition is_exception (e : debug_event) : Prop :=
  match information e with Exception _ _ _ _ => True | _ => False end.
(** The answer to an event; exceptions may be left to the process. *)
Definition answered (e : debug_event) (r : Z * Z * Z) : Prop :=
  r = (dwProcessId e, dwThreadId e, DBG_CONTINUE) ∨
  is_exception e ∧ r = (dwProcessId e, dwThreadId e, DBG_EXCEPTION_NOT_HANDLED).

Notation alive := (alive pid).
Notation alive_after := (alive_after pid).
Notation known := (known pid main).

Record Descriptors (A : gset Z) (s : nub W) : Prop := {
  d_nodup : NoDup (ThreadList s);
  d_fresh t : t ∈ ThreadList s → 0 < t < free_address s;
  d_main : ∃ t d, head (ThreadList s) = Some t ∧ threads s !! t = Some d ∧ ThreadID d = main;
  d_known i : i ∈ A → i ≠ main →
    ∃ t d, t ∈ ThreadList s ∧ threads s !! t = Some d ∧ ThreadID d = i ∧ Valid d = true;
  d_process : ProcessID s = pid;
  d_attached : ProcessAttached s = false;
  d_exiting : ExitingProcess s = false
}.

(** Like [still], but for the states the threads are stopped in *)
Record still_but (g : Z → Z → Z) (s s' : nub W) : Prop := {
  but_received : received (world s') = received (world s);
  but_continued : continued (world s') = continued (world s);
  but_process : ProcessID s' = ProcessID s;
  but_attached : ProcessAttached s' = ProcessAttached s;
  but_exiting : ExitingProcess s' = ExitingProcess s;
  but_list : ThreadList s' = ThreadList s;
  but_free : free_address s ≤ free_address s';
  but_threads t : face <$> threads s' !! t =
    (λ f, (f.1.1, g t f.1.2, f.2)) <$> (face <$> threads s !! t)
}.

Lemma still_but_r g s1 s2 s3 : still_but g s1 s2 → still s2 s3 → still_but g s1 s3.
Proof.
  intros H H'. destruct H, H'. split; [congruence.. | lia |]. intros t.
  by rewrite still_threads0, but_threads0.
Qed.
Lemma still_but_l g s1 s2 s3 : still s1 s2 → still_but g s2 s3 → still_but g s1 s3.
Proof.
  intros H H'. destruct H, H'. split; [congruence.. | lia |]. intros t.
  by rewrite but_threads0, still_threads0.
Qed.

Lemma but_thread_forward g s s' t d : still_but g s s' → threads s !! t = Some d →
  ∃ d', threads s' !! t = Some d' ∧ ThreadID d' = ThreadID d ∧ Valid d' = Valid d ∧
    StoppedState d' = g t (StoppedState d).
Proof.
  intros H Hd. pose proof (but_threads _ _ _ H t) as Ht. rewrite Hd in Ht. simpl in Ht.
  destruct (threads s' !! t) as [d'|]; [|done]. exists d'. by injection Ht as -> -> ->.
Qed.
Lemma but_thread_back g s s' t d' : still_but g s s' → threads s' !! t = Some d' →
  ∃ d, threads s !! t = Some d ∧ ThreadID d' = ThreadID d ∧ Valid d' = Valid d ∧
    StoppedState d' = g t (StoppedState d).
Proof.
  intros H Hd. pose proof (but_threads _ _ _ H t) as Ht. rewrite Hd in Ht. simpl in Ht.
  destruct (threads s !! t) as [d|]; [|done]. exists d. by injection Ht as -> -> ->.
Qed.

Lemma still_is_but s s' : still s s' → still_but (λ _ x, x) s s'.
Proof.
  intros []. split; try done. intros t. rewrite still_threads0.
  by destruct (threads s !! t).
Qed.

Lemma Descriptors_but g A s s' : still_but g s s' → Descriptors A s → Descriptors A s'.
Proof.
  intros H []. pose proof H as []. split; rewrite ?but_list0; try congruence.
  - intros t Ht. apply d_fresh0 in Ht. lia.
  - destruct d_main0 as (t & d & Ht & Hd & Hi).
    destruct (but_thread_forward _ _ _ _ _ H Hd) as (d' & Hd' & Hi' & _).
    exists t, d'. split_and!; congruence.
  - intros i Hi Hne. destruct (d_known0 i Hi Hne) as (t & d & Ht & Hd & Hid & Hv).
    destruct (but_thread_forward _ _ _ _ _ H Hd) as (d' & Hd' & Hi' & Hv' & _).
    exists t, d'. split_and!; congruence.
Qed.
Lemma Descriptors_still A s s' : still s s' → Descriptors A s → Descriptors A s'.
Proof. intros H%still_is_but. by eapply Descriptors_but. Qed.

(** A known thread has a descriptor. *)
Definition described (s : nub W) (i : Z) : Prop :=
  ∃ t d, t ∈ ThreadList s ∧ threads s !! t = Some d ∧ ThreadID d = i.

Lemma described_main A s : Descriptors A s → described s main.
Proof.
  intros []. destruct d_main0 as (t & d & Ht & Hd & Hi). exists t, d.
  split; [|done]. destruct (ThreadList s); [done|]. injection Ht as ->. apply list_elem_of_here.
Qed.
Lemma described_alive A s i : Descriptors A s → i ∈ A → described s i.
Proof.
  intros D Hi. destruct (decide (i = main)) as [-> | Hne]; [by eapply described_main|].
  destruct (d_known _ _ D i Hi Hne) as (t & d & Ht & Hd & Hid & _). by exists t, d.
Qed.
Lemma described_but g s s' i : still_but g s s' → described s i → described s' i.
Proof.
  intros H (t & d & Ht & Hd & Hi).
  destruct (but_thread_forward _ _ _ _ _ H Hd) as (d' & Hd' & Hi' & _). exists t, d'.
  split; [by rewrite (but_list _ _ _ H)|]. split; congruence.
Qed.

Lemma find_thread_spec (f : dbgthread → bool) l def (s : nub W) t s' :
  find_thread f l def s = Some (t, s') →
  s' = s ∧ ((∃ u d, u ∈ l ∧ threads s !! u = Some d ∧ f d = true) →
            t ∈ l ∧ ∃ d, threads s !! t = Some d ∧ f d = true).
Proof.
  intros H. split; [symmetry; by eapply reads_find_thread|].
  revert H. induction l as [|u l IH]; simpl; intros H (v & d & Hv & Hd & Hf);
    [by apply not_elem_of_nil in Hv|].
  sinv H. apply get_thread_inv in E as [Hu ->]. destruct (f a) eqn:Hfa.
  - injection H as <- <-. split; [apply list_elem_of_here | by exists a].
  - apply elem_of_cons in Hv as [-> | Hv]; [congruence|].
    destruct (IH H) as [Ht Hex]; [by exists v, d|]. split; [|done].
    by apply list_elem_of_further.
Qed.

Lemma thread_from_ID_spec i s t s' :
  thread_descriptor_from_thread_ID i s = Some (t, s') → described s i →
  s' = s ∧ t ∈ ThreadList s ∧ ∃ d, threads s !! t = Some d ∧ ThreadID d = i.
Proof.
  unfold thread_descriptor_from_thread_ID. intros H (u & d & Hu & Hd & Hi). sinv H.
  injection E as <- <-. destruct (find_thread_spec _ _ _ _ _ _ H) as [-> Hs].
  destruct Hs as [Ht (d' & Hd' & Hi')]; [exists u, d; split_and!; [done | done | lia]|].
  split; [done|]. split; [done|]. exists d'. split; [done | lia].
Qed.

(** ** The states the threads are stopped in *)

Definition inactive (x : Z) : Prop := x = THREAD_FROZEN ∨ x = THREAD_DEAD.

(** The states after the event, each with the answer it leads to *)
Definition active (e : debug_event) (x : Z) : Prop :=
  x = THREAD_STOPPED_AT_KNOWN_BREAKPOINT ∨ x = THREAD_INVOKED_DEBUGGER ∨
  x = THREAD_STOPPED_AT_DEBUG_EVENT ∨
  (x = THREAD_STOPPED_AT_FIRST_CHANCE_EXCEPTION ∨ x = THREAD_STOPPED_AT_SECOND_CHANCE_EXCEPTION) ∧
  is_exception e.

Lemma upd_state_but (t x : Z) f (s : nub W) a s' :
  (∀ d, face (f d) = (ThreadID d, x, Valid d)) → upd_thread t f s = Some (a, s') →
  still_but (λ u y, if decide (u = t) then x else y) s s'.
Proof.
  intros Hf (d & Hd & -> & Hne)%upd_thread_face. split; try done. intros u.
  destruct (decide (u = t)) as [-> | ?].
  - simpl. rewrite lookup_insert_eq, Hd. simpl. by rewrite Hf.
  - rewrite Hne by done. by destruct (threads s !! u).
Qed.

Lemma flag_all_spec (s : nub W) a s' : flag_all_threads_frozen s = Some (a, s') →
  still_but (λ t x, if decide (t ∈ ThreadList s) then THREAD_FROZEN else x) s s'.
Proof.
  unfold flag_all_threads_frozen. intros H. sinv H. injection E as <- <-.
  assert (∀ l s1 s2 r, for_each l (λ t, upd_thread t (set_StoppedState THREAD_FROZEN)) s1 = Some (r, s2) →
    still_but (λ t x, if decide (t ∈ l) then THREAD_FROZEN else x) s1 s2) as Hl; [|by eapply Hl].
  induction l as [|t l IH]; simpl; intros s1 s2 r H'.
  - injection H' as _ <-. split; try done. intros t.
    destruct (decide (t ∈ [])) as [Ht|]; [by apply not_elem_of_nil in Ht|].
    by destruct (threads s1 !! t).
  - sinv H'. apply (upd_state_but t THREAD_FROZEN) in E; [|done]. apply IH in H'.
    destruct E, H'. split; [congruence.. | lia |]. intros u. rewrite but_threads1, but_threads0.
    destruct (threads s1 !! u) as [d|]; [|done]. simpl. f_equal. f_equal. f_equal.
    destruct (decide (u = t)), (decide (u ∈ l)), (decide (u ∈ t :: l)); try done; set_solver.
Qed.

(** ** Housekeeping *)

Definition all_inactive (s : nub W) : Prop :=
  ∀ t d, t ∈ ThreadList s → threads s !! t = Some d → inactive (StoppedState d).

Lemma all_inactive_still s s' : still s s' → all_inactive s → all_inactive s'.
Proof.
  intros H%still_is_but Hs t d' Ht Hd'. destruct (but_thread_back _ _ _ _ _ H Hd') as (d & Hd & _ & _ & ->).
  eapply Hs; [|done]. by rewrite <- (but_list _ _ _ H).
Qed.

Lemma housekeep_create h i A s a s' : Descriptors A s → all_inactive s →
  add_thread_descriptor h i s = Some (a, s') →
  received (world s') = received (world s) ∧ continued (world s') = continued (world s) ∧
  Descriptors ({[i]} ∪ A) s' ∧ all_inactive s' ∧ described s' i.
Proof.
  intros D Hin H. unfold add_thread_descriptor, new_thread_descriptor in H. sinv H. sinv E.
  injection H as _ <-. injection E0 as <- <-. injection E1 as _ <-. injection E as <- <-.
  set (d0 := mkThread _ _ _ _ _ _ _ _ _ _ _ _ _ _ _ _ _).
  assert (∀ t, t ∈ ThreadList s → t ≠ free_address s) as Hne
    by (intros t Ht ->; apply (d_fresh _ _ D) in Ht; lia).
  split; [done|]. split; [done|]. split; [|split].
  - pose proof D as []. split; simpl; try done.
    + apply NoDup_app. split; [done|]. split; [|apply NoDup_singleton].
      intros t Ht Ht'. apply list_elem_of_singleton in Ht'. by apply (Hne t).
    + assert (0 < free_address s).
      { destruct d_main0 as (t & d & Ht & _). assert (t ∈ ThreadList s) as Hl%d_fresh0; [|lia].
        destruct (ThreadList s); [done|]. injection Ht as ->. apply list_elem_of_here. }
      intros t [Ht%d_fresh0 | Ht]%elem_of_app; [lia|]. apply list_elem_of_singleton in Ht. lia.
    + destruct d_main0 as (t & d & Ht & Hd & Hi). exists t, d.
      assert (t ∈ ThreadList s) as Htl
        by (destruct (ThreadList s); [done|]; injection Ht as ->; apply list_elem_of_here).
      split; [by destruct (ThreadList s)|]. rewrite lookup_insert_ne; [done|].
      intros E. by apply (Hne t).
    + intros j Hj Hjm. destruct (decide (j = i)) as [-> | Hji].
      * exists (free_address s), d0. rewrite lookup_insert_eq. split; [|done].
        apply elem_of_app. right. apply list_elem_of_here.
      * destruct (d_known0 j) as (t & d & Ht & Hd & Hid & Hv); [set_solver | done |].
        exists t, d. split; [apply elem_of_app; by left|].
        rewrite lookup_insert_ne; [done|]. intros E. by apply (Hne t).
  - intros t d Ht Hd. simpl in Ht, Hd. apply lookup_insert_Some in Hd as [[<- <-] | [Hnt Hd]].
    + by right.
    + apply elem_of_app in Ht as [Ht | Ht]; [by eapply Hin|].
      apply list_elem_of_singleton in Ht. congruence.
  - exists (free_address s), d0. split; [apply elem_of_app; right; apply list_elem_of_here|].
    simpl. by rewrite lookup_insert_eq.
Qed.

Lemma housekeep_exit A i t s a s' : Descriptors A s → all_inactive s →
  (∃ d, threads s !! t = Some d ∧ ThreadID d = i) → t ∈ ThreadList s →
  upd_thread t (set_Valid false) s = Some (a, s') →
  received (world s') = received (world s) ∧ continued (world s') = continued (world s) ∧
  Descriptors (A ∖ {[i]}) s' ∧ all_inactive s' ∧ described s' i.
Proof.
  intros D Hin (d0 & Hd0 & Hi0) Ht0 (d & Hd & -> & Hne)%upd_thread_face.
  assert (d = d0) as -> by congruence. split; [done|]. split; [done|]. split; [|split].
  - pose proof D as []. split; simpl; try done.
    + destruct d_main0 as (u & du & Hu & Hdu & Hiu).
      destruct (decide (u = t)) as [-> | Hut].
      * exists t, (set_Valid false d0). rewrite lookup_insert_eq. split_and!; [done | done |].
        simpl. congruence.
      * exists u, du. split; [done|]. split; [by rewrite lookup_insert_ne by congruence | done].
    + intros j Hj Hjm. destruct (d_known0 j) as (u & du & Hu & Hdu & Hiu & Hv); [set_solver | done|].
      exists u, du. rewrite lookup_insert_ne; [done|]. intros <-. set_solver.
  - intros u du Hu Hdu. simpl in Hdu. apply lookup_insert_Some in Hdu as [[<- <-] | [_ Hdu]];
      [exact (Hin _ _ Ht0 Hd0) | exact (Hin _ _ Hu Hdu)].
  - exists t, (set_Valid false d0). split; [done|]. simpl. by rewrite lookup_insert_eq.
Qed.

Lemma alive_snoc l e : alive (l ++ [e]) = alive_after (alive l) e.
Proof. unfold NubOS.alive. by rewrite foldl_app. Qed.

Lemma described_known l e s : Descriptors (alive l) s → known l e → is_create_thread e = false →
  described s (dwThreadId e).
Proof.
  intros D [-> | [Ha | Hc]] Hnc; [by eapply described_main | by eapply described_alive |].
  congruence.
Qed.

(** An event that makes or ends no thread *)
Lemma housekeep_still e s a s' : ProcessAttached s = false →
  match information e with CreateThread _ _ _ | ExitThread _ => False | _ => True end →
  housekeep_for_stop_reason e s = Some (a, s') → still s s'.
Proof.
  intros Hat Hk H. unfold housekeep_for_stop_reason in H.
  destruct (information e); try done;
    try (revert H; refine ((_ : Keeps still _) _ _ _);
         unfold add_library_descriptor; solve_keeps; fail).
  assert (∀ (A : Type) (f : nub W → A), ask f s = Some (f s, s)) as Hask by done.
  rewrite (St_bind_Some _ _ _ _ _ (Hask _ ThreadList)) in H.
  rewrite (St_bind_Some _ _ _ _ _ (Hask _ (@ProcessAttached W))), Hat in H.
  cbn [when_] in H.
  revert H. refine ((_ : Keeps still _) _ _ _). unfold push_debug_event. solve_keeps.
Qed.

Lemma housekeep_spec e l s a s' : dwProcessId e = pid → known l e →
  Descriptors (alive l) s → all_inactive s →
  housekeep_for_stop_reason e s = Some (a, s') →
  received (world s') = received (world s) ∧ continued (world s') = continued (world s) ∧
  Descriptors (alive (l ++ [e])) s' ∧ all_inactive s' ∧ described s' (dwThreadId e).
Proof.
  intros Hpid Hk D Hin H. rewrite alive_snoc. unfold NubOS.alive_after.
  rewrite Hpid, Z.eqb_refl.
  assert (match information e with CreateThread _ _ _ | ExitThread _ => False | _ => True end →
    received (world s') = received (world s) ∧ continued (world s') = continued (world s) ∧
    Descriptors (alive l) s' ∧ all_inactive s' ∧ described s' (dwThreadId e)) as Hstill.
  { intros He. assert (still s s') as S by (eapply housekeep_still; [apply D | done | done]).
    split; [apply S|]. split; [apply S|]. split; [by eapply Descriptors_still|].
    split; [by eapply all_inactive_still|].
    eapply described_but; [by apply still_is_but|]. eapply described_known; [done..|].
    unfold is_create_thread. by destruct (information e). }
  destruct (information e) eqn:Hi; try (by apply Hstill).
  - unfold housekeep_for_stop_reason in H. rewrite Hi in H. by eapply housekeep_create.
  - unfold housekeep_for_stop_reason in H. rewrite Hi in H. sinv H.
    assert (described s (dwThreadId e)) as Hd.
    { eapply described_known; [done..|]. unfold is_create_thread. by rewrite Hi. }
    destruct (thread_from_ID_spec _ _ _ _ E Hd) as (-> & Ht & Hid).
    destruct (housekeep_exit _ _ _ _ _ _ D Hin Hid Ht E0) as (H1 & H2 & H3 & H4 & H5).
    apply reads_ask in E1 as <-.
    assert (still s1 s') as S by (revert H; refine ((_ : Keeps still _) _ _ _); solve_keeps).
    split; [by rewrite (still_received _ _ S)|]. split; [by rewrite (still_continued _ _ S)|].
    split; [by eapply Descriptors_still|]. split; [by eapply all_inactive_still|].
    eapply described_but; [by apply still_is_but | done].
Qed.

(** ** The event in hand *)

Section events.
Context (create_thread_stop_reason_handler : Z → M ()).

Notation process_this_debug_event :=
  (process_this_debug_event create_thread_stop_reason_handler).
Notation receive_event := (receive_event create_thread_stop_reason_handler).

Notation takes t x := (still_but (λ u y, if decide (u = t) then x else y)).

Lemma process_event_spec t e (s : nub W) dec s' :
  process_this_debug_event t e STOP_REASON_WAIT_NORMAL s = Some (dec, s') →
  ∃ x, active e x ∧ takes t x s s'.
Proof.
  intros H. unfold NubWait.process_this_debug_event in H.
  change (STOP_REASON_WAIT_NORMAL =? STOP_REASON_WAIT_SPY) with false in H. cbv iota in H.
  assert (∀ x, decide_event t x s = Some (dec, s') → ∃ x, active e x ∧ takes t x s s') as Hd.
  { intros x Hx. unfold decide_event in Hx. sinv Hx. injection Hx as _ <-.
    exists THREAD_STOPPED_AT_DEBUG_EVENT. split; [right; right; by left|].
    eapply (upd_state_but t); [|exact E]. done. }
  destruct (information e) eqn:Hi; try (by eapply Hd).
  assert (is_exception e) as He by (unfold is_exception; by rewrite Hi).
  sinv H. injection H as _ <-.
  assert (still s0 s1) as S1 by (revert E0; refine ((_ : Keeps still _) _ _ _); solve_keeps).
  enough (∃ x, active e x ∧ takes t x s s0) as (x & Hx & Hb).
  { exists x. split; [done|]. by eapply still_but_r. }
  assert (∀ x s2 s3 r, set_StoppedState_of t x s2 = Some (r, s3) → takes t x s2 s3) as Hset
    by (intros x s2 s3 r Hx; eapply (upd_state_but t); [|exact Hx]; done).
  destruct (negb _).
  - unfold process_this_first_chance_exception in E. sinv E.
    apply get_thread_inv in E1 as [_ ->]. destruct (_ =? EXCEPTION_BREAKPOINT).
    + change (STOP_REASON_WAIT_NORMAL =? STOP_REASON_WAIT_SPY) with false in E. cbn [andb] in E.
      unfold process_this_first_chance_breakpoint in E. sinv E.
      apply still_handle_breakpoint_hit in E1. destruct (_ =? UNKNOWN_BREAKPOINT); sinv E.
      * injection E as _ <-. exists THREAD_INVOKED_DEBUGGER. split; [right; by left|].
        eapply still_but_l; [exact E1|]. eapply still_but_r; [by eapply Hset|].
        revert E3. refine ((_ : Keeps still _) _ _ _). solve_keeps.
      * exists THREAD_STOPPED_AT_KNOWN_BREAKPOINT. split; [by left|].
        eapply still_but_l; [exact E1|]. eapply still_but_r; [by eapply Hset|].
        revert E. refine ((_ : Keeps still _) _ _ _). solve_keeps.
    + destruct (_ =? EXCEPTION_SINGLE_STEP).
      * unfold process_this_first_chance_single_step in E. sinv E.
        apply get_thread_inv in E1 as [_ ->].
        assert (still s s3) as S3
          by (revert E2; refine ((_ : Keeps still _) _ _ _); solve_keeps).
        apply get_thread_inv in E3 as [_ ->].
        exists THREAD_STOPPED_AT_FIRST_CHANCE_EXCEPTION.
        split; [right; right; right; split; [by left | done]|].
        eapply still_but_l; [exact S3|]. eapply still_but_r; [by eapply Hset|].
        revert E. refine ((_ : Keeps still _) _ _ _). solve_keeps.
      * sinv E. apply reads_ask in E1 as <-. exists THREAD_STOPPED_AT_FIRST_CHANCE_EXCEPTION.
        split; [right; right; right; split; [by left | done]|].
        eapply still_but_r; [by eapply Hset|].
        revert E. refine ((_ : Keeps still _) _ _ _). solve_keeps.
  - unfold process_this_second_chance_exception in E. destruct (_ =? _); sinv E.
    + injection E as _ <-. exists THREAD_INVOKED_DEBUGGER. split; [right; by left|].
      by eapply Hset.
    + injection E as _ <-. exists THREAD_STOPPED_AT_SECOND_CHANCE_EXCEPTION.
      split; [right; right; right; split; [by right | done]|]. by eapply Hset.
Qed.

End events.

(** ** The answers *)

(** Only the answers, the states and the descriptors change. *)
Record scene (s s' : nub W) : Prop := {
  scene_received : received (world s') = received (world s);
  scene_process : ProcessID s' = ProcessID s;
  scene_attached : ProcessAttached s' = ProcessAttached s;
  scene_exiting : ExitingProcess s' = ExitingProcess s;
  scene_list : ThreadList s' = ThreadList s;
  scene_free : free_address s ≤ free_address s'
}.
#[local] Instance scene_preorder : PreOrder scene.
Proof.
  split; [by split|]. intros s1 s2 s3 H H'. destruct H, H'. split; [congruence.. | lia].
Qed.
Lemma still_scene s s' : still s s' → scene s s'.
Proof. intros []. by split. Qed.

Lemma continuation_inactive t h (s : nub W) d a s' :
  threads s !! t = Some d → inactive (StoppedState d) →
  apply_appropriate_continuation_to_thread t h s = Some (a, s') → s' = s.
Proof.
  intros Hd Hin H. unfold apply_appropriate_continuation_to_thread in H.
  destruct (t =? 0); [by injection H as _ <-|]. sinv H. apply get_thread_inv in E as [Hd' ->].
  assert (a0 = d) as -> by congruence. destruct Hin as [Hx | Hx]; rewrite Hx in H;
    by injection H as _ <-.
Qed.

Lemma continuation_active t h e (s : nub W) d a s' :
  t ≠ 0 → threads s !! t = Some d → active e (StoppedState d) → ThreadID d = dwThreadId e →
  ProcessID s = dwProcessId e →
  apply_appropriate_continuation_to_thread t h s = Some (a, s') →
  scene s s' ∧ threads s' = threads s ∧
  ∃ r, answered e r ∧ continued (world s') = continued (world s) ++ [r].
Proof.
  intros Ht Hd Hac Hid Hp H. unfold apply_appropriate_continuation_to_thread in H.
  rewrite (proj2 (Z.eqb_neq t 0) Ht) in H. sinv H. apply get_thread_inv in E as [Hd' ->].
  assert (a0 = d) as -> by congruence.
  assert (∀ x a' s1, continue_thread t x s = Some (a', s1) →
    scene s s1 ∧ threads s1 = threads s ∧
    continued (world s1) = continued (world s) ++ [(dwProcessId e, dwThreadId e, x)]) as Hc.
  { intros x a' s1 Hx. unfold continue_thread in Hx. sinv Hx. apply get_thread_inv in E as [Hd2 ->].
    injection E0 as <- <-. rewrite run_in_world in Hx. injection Hx as _ <-.
    assert (a0 = d) as -> by congruence. split; [|split; [done|]].
    - split; try done. simpl. apply continue_received.
    - simpl. rewrite continue_continued. by rewrite Hp, Hid. }
  assert (∀ x, (continue_thread t x ;; mret ()) s = Some (a, s') →
    answered e (dwProcessId e, dwThreadId e, x) →
    scene s s' ∧ threads s' = threads s ∧
    ∃ r, answered e r ∧ continued (world s') = continued (world s) ++ [r]) as Hans.
  { intros x Hx Hax. sinv Hx. injection Hx as _ <-. destruct (Hc _ _ _ E) as (H1 & H2 & H3).
    split; [done|]. split; [done|]. eauto. }
  destruct Hac as [Hx | [Hx | [Hx | [[Hx | Hx] He]]]]; rewrite Hx in H; cbn in H.
  1-3: eapply Hans; [exact H | by left].
  all: destruct (h =? EXCEPTIONS_UNHANDLED); (eapply Hans; [exact H|]); [right | left]; done.
Qed.

(** What continuing the threads of [l] is to do: the thread [t], when it is one of them,
    is answered; the threads of [l'] go on and are what they were; those that live are
    among them. *)
Definition one_answer (e : debug_event) (b : Prop) (s s' : nub W) : Prop :=
  ∃ rs, continued (world s') = continued (world s) ++ rs ∧
    (b → ∃ r, rs = [r] ∧ answered e r) ∧ (¬ b → rs = []).

Record Continued (m : Z) (e : debug_event) (t : Z) (l : list Z) (s : nub W)
    (l' : list Z) (s' : nub W) : Prop := {
  co_scene : scene s s';
  co_answer : one_answer e (t ∈ l) s s';
  co_face u : u ∉ l ∨ u ∈ l' → face <$> threads s' !! u = face <$> threads s !! u;
  co_lives u d : u ∈ l → threads s !! u = Some d → u = m ∨ Valid d = true → u ∈ l';
  co_sub u : u ∈ l' → u ∈ l;
  co_nodup : NoDup l';
  co_head : head l = Some m → head l' = Some m
}.

(** Only [t] waits for an answer. *)
Definition awaits (e : debug_event) (t : Z) (l : list Z) (s : nub W) : Prop :=
  (∀ u d, u ∈ l → u ≠ t → threads s !! u = Some d → inactive (StoppedState d)) ∧
  (t ∈ l → ∃ d, threads s !! t = Some d ∧ active e (StoppedState d) ∧ ThreadID d = dwThreadId e).

Lemma awaits_rest e t u l s s' : u ∉ l → awaits e t (u :: l) s →
  (∀ v, v ≠ u → face <$> threads s' !! v = face <$> threads s !! v) → awaits e t l s'.
Proof.
  intros Hu [Hin Hac] F.
  assert (∀ v d, v ∈ l → threads s' !! v = Some d →
    ∃ d', threads s !! v = Some d' ∧ face d = face d') as Hback.
  { intros v d Hv Hd. specialize (F v ltac:(by intros ->)). rewrite Hd in F.
    destruct (threads s !! v) as [d'|]; [|done]. exists d'. simpl in F. split; [done|]. congruence. }
  split.
  - intros v d Hv Hne Hd. destruct (Hback v d Hv Hd) as (d' & Hd' & [= _ -> _]).
    eapply Hin; [by apply list_elem_of_further | done | done].
  - intros Ht. destruct Hac as (d & Hd & Hx & Hi); [by apply list_elem_of_further|].
    specialize (F t ltac:(by intros ->)). rewrite Hd in F.
    destruct (threads s' !! t) as [d'|]; [|done]. injection F as Hid Hst _. exists d'.
    split; [done|]. split; congruence.
Qed.

(** One thread, that is answered or not and then kept or not, and the rest *)
Lemma Continued_cons m e t u l s s1 s2 l' s' (kept : bool) :
  u ∉ l → scene s s1 → one_answer e (t = u) s s1 →
  (∀ v, face <$> threads s1 !! v = face <$> threads s !! v) →
  scene s1 s2 → continued (world s2) = continued (world s1) →
  (∀ v, v ≠ u ∨ kept = true → face <$> threads s2 !! v = face <$> threads s1 !! v) →
  (u = m → kept = true) →
  (∀ d, threads s !! u = Some d → Valid d = true → kept = true) →
  Continued m e t l s2 l' s' →
  Continued m e t (u :: l) s (if kept then u :: l' else l') s'.
Proof.
  intros Hu C1 (rs1 & R1 & A1 & N1) F1 C2 R2 F2 Hm Hv [C3 (rs & R3 & A3 & N3) F3 L3 S3 D3 _].
  assert (∀ v, v ∈ (if kept then u :: l' else l') → (v = u ∧ kept = true) ∨ v ∈ l') as Hl'
    by (destruct kept; [intros v [-> | ?]%elem_of_cons; [by left | by right] | by right]).
  split.
  - by do 2 (etransitivity; [eassumption|]).
  - exists (rs1 ++ rs). rewrite R3, R2, R1, app_assoc. split; [done|]. split.
    + intros [-> | Ht]%elem_of_cons.
      * destruct (A1 eq_refl) as (r & -> & Hr). rewrite N3 by done. eauto.
      * rewrite N1 by (intros ->; done). by apply A3.
    + intros [? ?]%not_elem_of_cons. by rewrite N1, N3.
  - intros v [[Hv1 Hv2]%not_elem_of_cons | [[-> Ha] | Hin]%Hl'].
    + rewrite F3 by (by left). by rewrite F2, F1 by (by left).
    + rewrite F3 by (by left). by rewrite F2, F1 by (by right).
    + rewrite F3 by (by right). rewrite F2, F1; [done|]. left. intros ->. by apply Hu, S3.
  - intros v d [-> | Hin]%elem_of_cons Hd Hk.
    + assert (kept = true) as -> by (destruct Hk; eauto). apply list_elem_of_here.
    + assert (v ∈ l') as Hl; [|destruct kept; [by apply list_elem_of_further | done]].
      specialize (F1 v). rewrite Hd in F1. rewrite <- F2 in F1 by (left; by intros ->).
      destruct (threads s2 !! v) as [d'|] eqn:Hd'; [|done]. injection F1 as _ _ HV.
      eapply L3; [done | done|]. destruct Hk; [by left | right; congruence].
  - intros v [[-> _] | Hin]%Hl'; [apply list_elem_of_here | by apply list_elem_of_further, S3].
  - destruct kept; [|done]. apply NoDup_cons. split; [by intros ?%S3 | done].
  - intros [= ->]. by rewrite (Hm eq_refl).
Qed.

(** The first thread gets its answer, if it is the one. *)
Lemma continuation_first h e t u l (s : nub W) r s0 s1 : t ≠ 0 → awaits e t (u :: l) s →
  ProcessID s = dwProcessId e → is_Some (threads s0 !! u) → still s0 s1 →
  apply_appropriate_continuation_to_thread u h s = Some (r, s0) →
  scene s s1 ∧ one_answer e (t = u) s s1 ∧
  ∀ v, face <$> threads s1 !! v = face <$> threads s !! v.
Proof.
  intros Ht [Hin Hac] Hp Hsome S1 E.
  assert (scene s s0 ∧ threads s0 = threads s ∧ one_answer e (t = u) s s0) as (C0 & T0 & rs & R0).
  { destruct (decide (t = u)) as [-> | Hne].
    - destruct Hac as (d & Hd & Hx & Hid); [apply list_elem_of_here|].
      destruct (continuation_active _ _ _ _ _ _ _ Ht Hd Hx Hid Hp E) as (? & ? & x & ? & ?).
      split; [done|]. split; [done|]. exists [x]. split; [done|]. split; [by eauto | done].
    - assert (is_Some (threads s !! u)) as [d Hd].
      { unfold apply_appropriate_continuation_to_thread in E.
        destruct (u =? 0) eqn:H0; [by injection E as _ <-|]. sinv E.
        apply get_thread_inv in E0 as [Hu _]. eauto. }
      assert (s0 = s) as -> by (eapply continuation_inactive; [exact Hd | | exact E];
        eapply Hin; [apply list_elem_of_here | congruence | done]).
      split; [done|]. split; [done|]. exists []. rewrite app_nil_r. split; [done|].
      split; [congruence | done]. }
  split; [etransitivity; [exact C0 | by apply still_scene]|]. split.
  - exists rs. by rewrite (still_continued _ _ S1).
  - intros v. by rewrite (still_threads _ _ S1), T0.
Qed.

Lemma continue_threads_spec m h e t l (s : nub W) l' s' :
  continue_threads m h l s = Some (l', s') → NoDup l → t ≠ 0 → awaits e t l s →
  ProcessID s = dwProcessId e → Continued m e t l s l' s'.
Proof.
  intros H Hnd Ht. revert s l' s' H Hnd. induction l as [|u l IH]; simpl;
    intros s l' s' H Hnd Haw Hp.
  { injection H as <- <-. split; try done.
    exists []. rewrite app_nil_r. split; [done|]. split; [|done]. by intros ?%not_elem_of_nil. }
  apply NoDup_cons in Hnd as [Hu Hnd]. sinv H. apply get_thread_inv in E1 as [Hd1 ->].
  assert (still s0 s1) as S1 by (revert E0; refine ((_ : Keeps still _) _ _ _); solve_keeps).
  assert (is_Some (threads s0 !! u)) as Hsome
    by (destruct (upd_thread_inv _ _ _ _ _ E0) as (d & ? & _); eauto).
  destruct (continuation_first _ _ _ _ _ _ _ _ _ Ht Haw Hp Hsome S1 E) as (C1 & A1 & F1).
  assert (∀ d, threads s !! u = Some d → Valid d = Valid a1) as HV.
  { intros d Hd. specialize (F1 u). rewrite Hd, Hd1 in F1. by injection F1 as _ _ HV. }
  destruct (negb (u =? m) && negb (Valid a1)) eqn:Hdead; sinv H.
  - apply free_thread_inv in E1 as ->. apply andb_true_iff in Hdead as [Hm HVa].
    set (s2 := set_threads (delete u (threads s1)) s1) in *.
    assert (∀ v, v ≠ u → threads s2 !! v = threads s1 !! v) as T2
      by (intros v Hv; unfold s2; simpl; by rewrite lookup_delete_ne).
    assert (scene s1 s2) as C2 by by split.
    apply (Continued_cons m e t u l s s1 s2 l' s' false); [done.. | | | |].
    + intros v [Hv | Hv]; [by rewrite T2 | done].
    + intros ->. by rewrite Z.eqb_refl in Hm.
    + intros d Hd Hval. rewrite (HV d Hd) in Hval. by rewrite Hval in HVa.
    + eapply IH; [exact H | done | |].
      * eapply awaits_rest; [exact Hu | exact Haw|]. intros v Hv. by rewrite T2, F1.
      * rewrite (scene_process _ _ C2). by rewrite (scene_process _ _ C1).
  - injection H as <- <-.
    apply (Continued_cons m e t u l s s1 s1 a2 _ true); [done.. |].
    eapply IH; [done | done | |].
    + eapply awaits_rest; [exact Hu | exact Haw|]. intros v Hv. by rewrite F1.
    + by rewrite (scene_process _ _ C1).
Qed.

(** ** Between the events *)

(** Every event is answered. *)
Definition Ready (s : nub W) : Prop :=
  Descriptors (alive (received (world s))) s ∧
  Forall2 answered (received (world s)) (continued (world s)).

(** The last one is not, and nothing was done for it yet. *)
Definition Arrived (e : debug_event) (s : nub W) : Prop :=
  ∃ l, received (world s) = l ++ [e] ∧ Forall2 answered l (continued (world s)) ∧
    Descriptors (alive l) s ∧ dwProcessId e = pid ∧ known l e.

(** The last one is not; its thread is the only one in a state that leads to an answer. *)
Definition Held (e : debug_event) (s : nub W) : Prop :=
  ∃ l, received (world s) = l ++ [e] ∧ Forall2 answered l (continued (world s)) ∧
    Descriptors (alive (l ++ [e])) s ∧ dwProcessId e = pid ∧
    ∃ t d, t ∈ ThreadList s ∧ threads s !! t = Some d ∧ ThreadID d = dwThreadId e ∧
      active e (StoppedState d) ∧
      ∀ u du, u ∈ ThreadList s → u ≠ t → threads s !! u = Some du → inactive (StoppedState du).

Lemma Ready_still s s' : still s s' → Ready s → Ready s'.
Proof.
  intros S [D F]. unfold Ready. rewrite (still_received _ _ S), (still_continued _ _ S).
  split; [by eapply Descriptors_still | done].
Qed.
Lemma Held_still e s s' : still s s' → Held e s → Held e s'.
Proof.
  intros S (l & R & F & D & P & t & d & Ht & Hd & Hid & Hac & Hin).
  exists l. rewrite (still_received _ _ S), (still_continued _ _ S).
  split; [done|]. split; [done|]. split; [by eapply Descriptors_still|]. split; [done|].
  pose proof (still_is_but _ _ S) as B.
  destruct (but_thread_forward _ _ _ _ _ B Hd) as (d' & Hd' & Hid' & _ & Hst).
  exists t, d'. rewrite (still_list _ _ S). split; [done|]. split; [done|].
  split; [congruence|]. split; [by rewrite Hst|]. intros u du Hu Hne Hdu.
  destruct (but_thread_back _ _ _ _ _ B Hdu) as (du' & Hdu' & _ & _ & ->). by eapply Hin.
Qed.

(** Windows tells of the threads of the process before it tells of their events. *)
Definition events_of_known_threads : Prop :=
  ∀ n (w : W) e, (WaitForDebugEvent n w).1 = Some e → dwProcessId e = pid →
    known (received w) e.
Context (Hknown : events_of_known_threads).

Lemma next_event_spec fuel timeout s r s' : Ready s →
  get_next_debug_event_for_this_process fuel timeout s = Some (r, s') →
  match r with Some e => Arrived e s' | None => Ready s' end.
Proof.
  revert s r s'. induction fuel as [|fuel IH]; intros s r s' [D F] H;
    (unfold get_next_debug_event_for_this_process in H;
     fold (@get_next_debug_event_for_this_process W _) in H); sinv H;
    rewrite run_in_world in E; injection E as Hev <-;
    pose proof (wait_received (u32 timeout) (world s)) as Hr;
    pose proof (wait_continued (u32 timeout) (world s)) as Hc; rewrite Hev in Hr;
    (destruct a as [e|]; simpl in Hr;
     [|injection H as <- <-; unfold Ready; simpl; rewrite Hr, Hc, app_nil_r;
       split; [eapply Descriptors_still; [|exact D]; split; try done; simpl;
         by rewrite ?Hr, ?app_nil_r | done]]);
    sinv H; injection E as <- <-; simpl in H;
    destruct (Z.eqb_spec (dwProcessId e) (ProcessID s)) as [Hpid | Hpid]; simpl in H.
  1, 3: injection H as <- <-; exists (received (world s)); simpl; rewrite Hr, Hc;
    (split; [done|]); (split; [done|]);
    assert (dwProcessId e = pid) as Hp by (rewrite Hpid; apply D);
    (split; [|split; [done | by eapply Hknown]]);
    destruct D; split; try done.
  1: by sinv H.
  sinv H. rewrite run_in_world in E. injection E as _ <-. eapply IH; [|exact H].
  assert (dwProcessId e ≠ pid) as Hp by (intros Hp; apply Hpid; rewrite Hp; symmetry; apply D).
  unfold Ready. simpl. rewrite continue_received, continue_continued, Hr, Hc, alive_snoc.
  unfold NubOS.alive_after. rewrite (proj2 (Z.eqb_neq _ _) Hp). split.
  - destruct D; split; try done.
  - apply Forall2_app; [done|]. constructor; [by left | constructor].
Qed.

Lemma head_elem (l : list Z) t : head l = Some t → t ∈ l.
Proof. destruct l; [done|]. intros [= ->]. apply list_elem_of_here. Qed.

(** Continuing answers the event in hand. *)
Lemma continue_application_spec h e s a s' : Held e s →
  continue_application h s = Some (a, s') →
  Ready s' ∧ received (world s') = received (world s).
Proof.
  intros HH H. unfold continue_application in H. sinv H. injection H as _ <-.
  injection E as <- <-. apply still_set_application_state in E0 as S.
  rewrite <- (still_received _ _ S).
  apply (Held_still _ _ _ S) in HH as (l & R & F & D & P & t & d & Ht & Hd & Hid & Hac & Hin).
  rewrite <- (still_list _ _ S) in E1. set (m := hd 0 (ThreadList s1)) in *.
  assert (head (ThreadList s1) = Some m) as Hm.
  { destruct (d_main _ _ D) as (u & du & Hu & _). unfold m. by destruct (ThreadList s1). }
  destruct (continue_threads_spec m h e t (ThreadList s1) s1 a2 s2 E1)
    as [C (rs & Rc & R1 & _) Ff L L' N Hh].
  - apply D.
  - apply (d_fresh _ _ D) in Ht. lia.
  - split; [exact Hin|]. intros _. by exists d.
  - rewrite P. apply D.
  - destruct (R1 Ht) as (r & -> & Hr). unfold Ready. simpl.
    rewrite (scene_received _ _ C), R, Rc. split; [|done]. split; [|by apply Forall2_app; [|constructor]].
    assert (∀ u d0, u ∈ a2 → threads s1 !! u = Some d0 →
      ∃ d', threads s2 !! u = Some d' ∧ face d' = face d0) as Hface.
    { intros u d0 Hu Hd0. specialize (Ff u (or_intror Hu)). rewrite Hd0 in Ff.
      destruct (threads s2 !! u) as [d'|]; [|done]. exists d'. split; [done|].
      simpl in Ff. congruence. }
    pose proof D as []. split; simpl.
    + done.
    + intros u Hu. pose proof (scene_free _ _ C).
      apply L', d_fresh0 in Hu. lia.
    + destruct d_main0 as (u & du & Hu & Hdu & Hiu). assert (u = m) as -> by congruence.
      destruct (Hface m du) as (d' & Hd' & [= Hi _ _]); [by apply head_elem, Hh | done|].
      exists m, d'. split; [by apply Hh|]. split; [done | congruence].
    + intros i Hi Hne. destruct (d_known0 i Hi Hne) as (u & du & Hu & Hdu & Hiu & Hv).
      assert (u ∈ a2) as Hua by (eapply L; eauto).
      destruct (Hface u du Hua Hdu) as (d' & Hd' & [= Hi' _ Hv']).
      exists u, d'. split_and!; congruence.
    + rewrite (scene_process _ _ C). done.
    + rewrite (scene_attached _ _ C). done.
    + rewrite (scene_exiting _ _ C). done.
Qed.

(** ** The loop *)

Section loop.
Context (create_thread_stop_reason_handler : Z → M ()).

Notation receive_event := (receive_event create_thread_stop_reason_handler).
Notation wait_loop := (wait_loop create_thread_stop_reason_handler).
Notation wait_for_stop_reason_internal :=
  (wait_for_stop_reason_internal create_thread_stop_reason_handler).

Lemma receive_event_spec e (s : nub W) r s' : Arrived e s →
  receive_event STOP_REASON_WAIT_NORMAL e s = Some (r, s') → Held e s'.
Proof.
  intros (l & R & F & D & P & K) H. unfold NubWait.receive_event in H.
  change (STOP_REASON_WAIT_NORMAL =? STOP_REASON_WAIT_NORMAL) with true in H.
  change (STOP_REASON_WAIT_NORMAL =? STOP_REASON_WAIT_SPY) with false in H.
  cbn [andb orb when_] in H. sinv H. sinv E. injection H as _ <-. injection E as _ <-.
  injection E0 as _ <-.
  apply still_set_application_state in E7 as S1. pose proof (flag_all_spec _ _ _ E8) as B1.
  assert (Descriptors (alive l) s9) as D9
    by (eapply Descriptors_but; [exact B1 | by eapply Descriptors_still]).
  assert (all_inactive s9) as I9.
  { intros t d' Ht Hd'. rewrite (but_list _ _ _ B1) in Ht.
    destruct (but_thread_back _ _ _ _ _ B1 Hd') as (d & Hd & _ & _ & ->).
    rewrite decide_True by done. by left. }
  destruct (housekeep_spec _ _ _ _ _ P K D9 I9 E9) as (R8 & C8 & D8 & I8 & Hdesc).
  destruct (thread_from_ID_spec _ _ _ _ E1 Hdesc) as (-> & Ht & dt & Hdt & Hidt).
  sinv E2. injection E as _ <-.
  assert (still s10 s3) as S2.
  { etransitivity; [|revert E2; refine ((_ : Keeps still _) _ _ _); solve_keeps]. by split. }
  injection E3 as _ <-. destruct (process_event_spec _ _ _ _ _ _ E4) as (x & Hx & B4).
  apply reads_ask in E5 as <-.
  assert (still s5 s7) as S5 by (revert E6; refine ((_ : Keeps still _) _ _ _); solve_keeps).
  assert (still_but (λ u y, if decide (u = a1) then x else y) s10 s7) as B.
  { eapply still_but_r; [|exact S5]. eapply still_but_l; [exact S2|].
    eapply still_but_l; [|exact B4]. by split. }
  exists l. rewrite (but_received _ _ _ B), (but_continued _ _ _ B), R8, C8,
    (but_received _ _ _ B1), (but_continued _ _ _ B1), (still_received _ _ S1),
    (still_continued _ _ S1).
  split; [done|]. split; [done|]. split; [by eapply Descriptors_but|]. split; [done|].
  destruct (but_thread_forward _ _ _ _ _ B Hdt) as (d' & Hd' & Hi' & _ & Hst).
  exists a1, d'. rewrite (but_list _ _ _ B). split; [done|]. split; [done|].
  split; [congruence|]. split; [rewrite Hst; by rewrite decide_True|].
  intros u du Hu Hne Hdu. destruct (but_thread_back _ _ _ _ _ B Hdu) as (du' & Hdu' & _ & _ & ->).
  rewrite decide_False by done. by eapply I8.
Qed.

Lemma filtered_spec to tv h st e (s : nub W) r s' : Held e s →
  filtered to tv STOP_REASON_WAIT_NORMAL h st s = Some (r, s') →
  match r.1 with Some _ => Held e s' | None => Ready s' end.
Proof.
  intros HH H. unfold filtered in H.
  change (STOP_REASON_WAIT_NORMAL =? STOP_REASON_WAIT_NORMAL) with true in H. cbv iota in H.
  sinv H. apply reads_ask in E as <-.
  destruct (negb a && to && (tv <=? Cumulative st)); [by injection H as <- <-|]. sinv H.
  apply reads_ask in E0 as <-. injection H as <- <-. simpl.
  destruct h; exact (proj1 (continue_application_spec _ _ _ _ _ HH E)).
Qed.
Lemma reported_spec mode d (s : nub W) r s' : ExitingProcess s = false →
  reported mode d s = Some (r, s') → r = Some d ∧ s' = s.
Proof.
  intros Hx H. unfold reported in H. sinv H. injection E as <- <-. rewrite Hx in H.
  by injection H as <- <-.
Qed.

(** What one iteration decides *)
Lemma decision_spec to tv (d : Z * wait_state) e (s : nub W) r s' : Held e s →
  (if d.1 =? FILTER_HANDLED_DBG_EVENT
   then filtered to tv STOP_REASON_WAIT_NORMAL true d.2
   else if d.1 =? FILTER_UNHANDLED_DBG_EVENT
        then filtered to tv STOP_REASON_WAIT_NORMAL false d.2
        else r ← reported STOP_REASON_WAIT_NORMAL d.1; mret (r, d.2)) s = Some (r, s') →
  match r.1 with Some _ => Held e s' | None => Ready s' end.
Proof.
  intros HH H. destruct (d.1 =? FILTER_HANDLED_DBG_EVENT); [by eapply filtered_spec|].
  destruct (d.1 =? FILTER_UNHANDLED_DBG_EVENT); [by eapply filtered_spec|]. sinv H.
  destruct HH as (l & HH). destruct (reported_spec _ _ _ _ _ (d_exiting _ _ (proj1 (proj2 (proj2 HH)))) E)
    as [-> ->]. injection H as <- <-. by exists l.
Qed.

Lemma wait_loop_spec fuel to tv st s code s' : Ready s →
  wait_loop fuel to tv STOP_REASON_WAIT_NORMAL st s = Some (code, s') →
  (code = TIMED_OUT ∧ Ready s') ∨ ∃ e, Held e s'.
Proof.
  revert st s. induction fuel as [|fuel IH]; intros st s HR H;
    (unfold NubWait.wait_loop in H; fold (NubWait.wait_loop create_thread_stop_reason_handler) in H);
    sinv H; apply (next_event_spec _ _ _ _ _ HR) in E; destruct a as [e|].
  1, 3: sinv E0; injection E0 as _ <-; apply (receive_event_spec _ _ _ _ E) in E2;
    apply (decision_spec _ _ _ _ _ _ _ E2) in E1; destruct (a1.1) eqn:Ha1.
  1, 3: injection H as _ <-; right; by exists e.
  1: done.
  1: by eapply IH.
  all: injection E0 as <- <-; cbn in E1; sinv E1; injection E1 as <- <-;
    destruct (reported_spec _ _ _ _ _ (d_exiting _ _ (proj1 E)) E0) as [-> ->];
    injection H as <- <-; by left.
Qed.

(** C13: While the process is not exiting and the nub was not attached to it,
    from a state in which every event received has been answered: a wait for
    a stop reason that returns has called ContinueDebugEvent exactly once,
    in order and for the event's process and thread, for every event it
    received but the last (the events of other processes and those that are
    not reported to the debugger included), or for all of them when it timed
    out; continuing the application then answers the last one, so that all
    are answered again. Windows reports events of known threads only. *)
Theorem debug_events_answered_once fuel to tv (s : nub W) code s' : Ready s →
  wait_for_stop_reason_internal fuel to tv STOP_REASON_WAIT_NORMAL s = Some (code, s') →
  (code = TIMED_OUT ∧ Ready s' ∧
     Forall2 answered (received (world s')) (continued (world s'))) ∨
  (∃ l e, received (world s') = l ++ [e] ∧ Forall2 answered l (continued (world s')) ∧
     ∀ handling r s'', continue_application handling s' = Some (r, s'') →
       Ready s'' ∧ received (world s'') = l ++ [e] ∧
       Forall2 answered (l ++ [e]) (continued (world s''))).
Proof.
  intros HR H. unfold wait_for_stop_reason_internal in H. sinv H.
  assert (still s s0) as S.
  { revert E. refine ((_ : Keeps still _) _ _ _). unfold get_os_wall_clock_time. solve_keeps. }
  destruct (wait_loop_spec _ _ _ _ _ _ _ (Ready_still _ _ S HR) H) as [[-> HR'] | [e HH]].
  - left. split; [done|]. split; [done | apply HR'].
  - right. pose proof HH as (l & R & F & _). exists l, e. split; [done|]. split; [done|].
    intros h r s'' Hrun. destruct (continue_application_spec _ _ _ _ _ HH Hrun) as [HR'' R''].
    rewrite R in R''. split; [done|]. split; [done|]. rewrite <- R''. apply HR''.
Qed.

End loop.

End answers.

(** The example: a thread that comes and goes, an exception that the debugger does not
    see, and an event of another process. *)
Definition example_script : list debug_event :=
  [mkEvent 1 7 (CreateThread 7 0 0); mkEvent 9 3 (LoadDll 0 0 0 0 0 0);
   mkEvent 1 7 (Exception EXCEPTION_FLT_OVERFLOW 1000 1 []); mkEvent 1 7 (ExitThread 0)].

Lemma example_known : events_of_known_threads (W := debuggee) 1 1.
Proof.
  intros n w e. simpl. unfold d_next. destruct (d_script w) as [|e' l].
  - destruct (d_contexts w !! 1) as [c|]; [|done].
    destruct (execute 100 (d_memory w) c) as [r c'] eqn:Hexec. simpl. intros -> _. left.
    by eapply execute_thread.
  - destruct (genuine w e') eqn:Hg; [|done]. intros [= ->] Hpid. unfold genuine in Hg.
    apply andb_true_iff in Hg as [_ Hg]. apply bool_decide_eq_true in Hg. by apply Hg.
Qed.

Lemma example_ready script : Ready (W := debuggee) 1 1 (example_nub script).
Proof.
  split; [|constructor]. split; simpl; try done.
  - apply NoDup_singleton.
  - intros t ->%list_elem_of_singleton. lia.
  - exists 20, example_thread. split_and!; reflexivity.
Qed.

Definition after {A} (m : St (nub debuggee) A) (s : nub debuggee) : nub debuggee :=
  match m s with Some (_, s') => s' | None => s end.

Lemma debug_events_answered_once_witness :
  let s0 := example_nub example_script in
  let wait := nub_wait_for_stop_reason_no_timeout (λ _, mret ()) 9 in
  let s1 := after wait s0 in
  let s2 := after nub_application_continue s1 in
  let s3 := after wait s2 in
  wait s0 = Some (CREATE_THREAD_DBG_EVENT, s1) ∧ nub_application_continue s1 = Some ((), s2) ∧
  wait s2 = Some (EXIT_THREAD_DBG_EVENT, s3) ∧
  ∃ l e, received (world s3) = l ++ [e] ∧ Forall2 answered l (continued (world s3)).
Proof.
  intros s0 wait s1 s2 s3.
  assert (wait s0 = Some (CREATE_THREAD_DBG_EVENT, s1)) as H1 by (vm_compute; reflexivity).
  assert (nub_application_continue s1 = Some ((), s2)) as H2 by (vm_compute; reflexivity).
  assert (wait s2 = Some (EXIT_THREAD_DBG_EVENT, s3)) as H3 by (vm_compute; reflexivity).
  clearbody s3. clearbody s2. clearbody s1. unfold wait in *. clear wait.
  split; [exact H1|]. split; [exact H2|]. split; [exact H3|].
  unfold nub_wait_for_stop_reason_no_timeout in H1, H3.
  destruct (debug_events_answered_once 1 1 example_known (λ _, mret ()) 9 false 0 _ _ _
    (example_ready example_script) H1) as [(? & _) | (l & e & _ & _ & Hc)]; [discriminate|].
  destruct (debug_events_answered_once 1 1 example_known (λ _, mret ()) 9 false 0 _ _ _
    (proj1 (Hc _ _ _ H2)) H3) as [(? & _) | (l' & e' & H4 & H5 & _)]; [discriminate|].
  exists l', e'. split; [exact H4 | exact H5].
Defined.
