(* ===== verification/NubProgress.v ===== *)
(** * Waiting for a stop reason comes to an end

    [nub_wait_for_stop_reason_no_timeout] returns when Windows has, after any number of
    events of other processes and of exceptions that the process may handle itself, an
    event for the debugger; whatever state the threads are in.  Breakpoints and single
    steps, for which the code of the process matters, are left to [NubRecovery.v]. *)

From S2P Require Import Prelude Effects HeapTable NubOS Nub NubPoints NubEvents NubWait.
From S2P Require Import NubLaws NubBreakpoints.
From stdpp Require Import base tactics option list numbers gmap relations.
From Stdlib Require Import ZArith Lia Bool.

Local Open Scope Z_scope.

(** ** What becomes of an event *)

Definition plain (e : debug_event) : Prop :=
  match information e with
  | Exception code _ first _ => first = 0 ∨ code ≠ EXCEPTION_BREAKPOINT ∧ code ≠ EXCEPTION_SINGLE_STEP
  | _ => True
  end.

Definition verdict (receiving : list Z) (e : debug_event) : Z :=
  match information e with
  | Exception code _ first _ =>
      if first =? 0 then
        if code =? EXCEPTION_BREAKPOINT then HARD_CODED_BREAKPOINT_DBG_EVENT
        else exception_to_nub_code code
      else if bool_decide (exception_to_nub_code code ∈ receiving) then exception_to_nub_code code
      else FILTER_UNHANDLED_DBG_EVENT
  | RipInfo => CREATE_PROCESS_DBG_EVENT
  | i => stop_reason_to_nub_code i
  end.

Lemma exception_code_reported code :
  exception_to_nub_code code ≠ FILTER_HANDLED_DBG_EVENT ∧
  exception_to_nub_code code ≠ FILTER_UNHANDLED_DBG_EVENT.
Proof. unfold exception_to_nub_code. repeat case_match; done. Qed.
Lemma verdict_not_handled receiving e : verdict receiving e ≠ FILTER_HANDLED_DBG_EVENT.
Proof.
  unfold verdict. pose proof exception_code_reported as H.
  repeat case_match; solve [done | apply H].
Qed.
Lemma verdict_exception receiving e :
  verdict receiving e = FILTER_UNHANDLED_DBG_EVENT →
  ∃ code a first info, information e = Exception code a first info.
Proof. unfold verdict. destruct (information e); [eauto | done..]. Qed.

Section progress.
Context {W : Type} `{!Windows W}.

Notation M := (St (nub W)).

(** What the nub does to the process while it waits *)
Inductive touched : W → W → Prop :=
| touch_time w : touched w (GetSystemTimeAsFileTime w).2
| touch_resume h w : touched w (ResumeThread h w).2
| touch_continue p t x w : touched w (ContinueDebugEvent p t x w).2.

Section events.
Context (pid : Z) (receiving : list Z).

Definition wanted (e : debug_event) : Prop :=
  dwProcessId e = pid ∧ plain e ∧ verdict receiving e ≠ FILTER_UNHANDLED_DBG_EVENT.
Definition passed (e : debug_event) : Prop :=
  dwProcessId e ≠ pid ∨ plain e ∧ verdict receiving e = FILTER_UNHANDLED_DBG_EVENT.

(** Windows has an event for the debugger, after at most [n] others and whatever the nub
    does meanwhile. *)
Fixpoint eventually (n : nat) (w : W) : Prop :=
  ∀ w', rtc touched w w' →
    ∃ e, (WaitForDebugEvent INFINITE w').1 = Some e ∧
      (wanted e ∨
       passed e ∧ match n with
                  | O => False
                  | S n => eventually n (WaitForDebugEvent INFINITE w').2
                  end).

Lemma eventually_touched n w w' : rtc touched w w' → eventually n w → eventually n w'.
Proof. destruct n; intros H E w2 H2; apply E; by etransitivity. Qed.

End events.

(** ** Operations that end *)

Lemma ends_ask {A} (f : nub W → A) (Q : A → nub W → Prop) s : Q (f s) s → ends (ask f) Q s.
Proof. intros H. by exists (f s), s. Qed.
Lemma ends_in_world {A} (f : W → A * W) (Q : A → nub W → Prop) s :
  Q (f (world s)).1 (set_world (f (world s)).2 s) → ends (in_world f) Q s.
Proof. intros H. eexists _, _. split; [apply run_in_world | done]. Qed.
Lemma ends_get_thread t d (Q : dbgthread → nub W → Prop) s :
  threads s !! t = Some d → Q d s → ends (get_thread t) Q s.
Proof. intros Hd H. eexists _, _. split; [by apply run_get_thread | done]. Qed.
Lemma ends_upd_thread t f d (Q : () → nub W → Prop) s :
  threads s !! t = Some d → Q () (set_threads (<[t := f d]> (threads s)) s) →
  ends (upd_thread t f) Q s.
Proof. intros Hd H. eexists _, _. split; [by apply run_upd_thread | done]. Qed.

(** The same process, touched *)
Record easy (s s' : nub W) : Prop := {
  easy_world : rtc touched (world s) (world s');
  easy_process : ProcessID s' = ProcessID s;
  easy_platform : Platform s' = Platform s;
  easy_exiting : ExitingProcess s' = ExitingProcess s;
  easy_receiving : ReceivingFirstChance s' = ReceivingFirstChance s;
  easy_state : State s' = State s
}.
(** And no thread lost *)
Record steady (s s' : nub W) : Prop := {
  steady_easy : easy s s';
  steady_list : ThreadList s' = ThreadList s;
  steady_threads t : is_Some (threads s !! t) → is_Some (threads s' !! t)
}.

#[export] Instance easy_preorder : PreOrder easy.
Proof.
  split; [intros s; by split|]. intros s1 s2 s3 [] []. split; [by etransitivity | congruence..].
Qed.
#[export] Instance steady_preorder : PreOrder steady.
Proof.
  split; [intros s; by split|]. intros s1 s2 s3 [] []. split; [by etransitivity | congruence | eauto].
Qed.

Record manned (s : nub W) : Prop := {
  manned_nodup : NoDup (ThreadList s);
  manned_threads t : t ∈ ThreadList s → is_Some (threads s !! t);
  manned_some : ThreadList s ≠ [];
  manned_platform : Platform s = PLATFORM_WINDOWS_NT;
  manned_exiting : ExitingProcess s = false
}.

Lemma manned_steady s s' : steady s s' → manned s → manned s'.
Proof.
  intros [[] Hl Ht] []. split; rewrite ?Hl; try done; [|congruence..].
  intros t H. apply Ht. by apply manned_threads0.
Qed.

(** ** Steady operations *)

Definition Steadily {A} (m : M A) (s : nub W) : Prop := ends m (λ _ s', steady s s') s.

Lemma steadily_bind {A B} (m : M A) (f : A → M B) s :
  Steadily m s → (∀ a s', steady s s' → Steadily (f a) s') → Steadily (m ≫= f) s.
Proof.
  intros (a & s1 & E1 & H1) Hf. destruct (Hf a s1 H1) as (b & s2 & E2 & H2).
  exists b, s2. split; [by rewrite (St_bind_Some _ _ _ _ _ E1) | by etransitivity].
Qed.
Lemma steadily_ret {A} (a : A) s : Steadily (mret a) s.
Proof. by apply ends_ret. Qed.
Lemma steadily_ask {A} (f : nub W → A) s : Steadily (ask f) s.
Proof. by apply ends_ask. Qed.
Lemma steadily_in_world {A} (f : W → A * W) s :
  touched (world s) (f (world s)).2 → Steadily (in_world f) s.
Proof. intros H. apply ends_in_world. split; [split|..]; try done. by apply rtc_once. Qed.
Lemma steadily_get_thread t s : is_Some (threads s !! t) → Steadily (get_thread t) s.
Proof. intros [d Hd]. by eapply ends_get_thread. Qed.
Lemma is_some_insert (m : gmap Z dbgthread) t d t' :
  is_Some (m !! t') → is_Some (<[t := d]> m !! t').
Proof. rewrite lookup_insert_is_Some'. by right. Qed.
Lemma steadily_upd_thread t f s : is_Some (threads s !! t) → Steadily (upd_thread t f) s.
Proof.
  intros [d Hd]. eapply ends_upd_thread; [done|]. split; [by split | done |].
  intros t'. apply is_some_insert.
Qed.
Lemma steadily_when b m s : Steadily m s → Steadily (when_ b m) s.
Proof. destruct b; [done | intros _; apply steadily_ret]. Qed.
Lemma steadily_for_each {A} (l : list A) f s :
  (∀ a s', a ∈ l → steady s s' → Steadily (f a) s') → Steadily (for_each l f) s.
Proof. intros H. by apply (ends_for_each steady). Qed.

End progress.

(** [solve_steadily] follows the structure of a function; threads stay allocated. *)
Ltac steadily_step :=
  match goal with
  | |- ∀ _, _ => intros
  | |- Steadily (_ ≫= _) _ => apply steadily_bind
  | |- Steadily (mret _) _ => apply steadily_ret
  | |- Steadily (ask _) _ => apply steadily_ask
  | |- Steadily (ask_world _) _ => apply steadily_ask
  | |- Steadily (in_world _) _ => apply steadily_in_world; by constructor
  | |- Steadily (get_thread _) _ => apply steadily_get_thread
  | |- Steadily (upd_thread _ _) _ => apply steadily_upd_thread
  | |- Steadily (when_ _ _) _ => apply steadily_when
  | |- Steadily (if ?b then _ else _) _ => destruct b
  | |- Steadily (let _ := _ in _) _ => cbv zeta
  | |- is_Some (threads _ !! _) =>
      first [eassumption | eapply steady_threads; [eassumption|]]
  end.
Ltac solve_steadily := repeat steadily_step.

Section operations.
Context {W : Type} `{!Windows W}.

Notation M := (St (nub W)).

Lemma steadily_resume_thread t (s : nub W) : is_Some (threads s !! t) → Steadily (resume_thread t) s.
Proof. intros Ht. unfold resume_thread. solve_steadily. Qed.
Lemma steadily_continue_thread t x (s : nub W) :
  is_Some (threads s !! t) → Steadily (continue_thread t x) s.
Proof. intros Ht. unfold continue_thread. solve_steadily. Qed.
Lemma steadily_apply t x (s : nub W) : is_Some (threads s !! t) →
  Steadily (apply_appropriate_continuation_to_thread t x) s.
Proof.
  intros Ht. unfold apply_appropriate_continuation_to_thread. solve_steadily;
    (apply steadily_resume_thread || apply steadily_continue_thread); solve_steadily.
Qed.
Lemma steadily_flag (s : nub W) : manned s → Steadily flag_all_threads_frozen s.
Proof.
  intros Hm. unfold flag_all_threads_frozen. apply ends_bind, ends_ask.
  apply steadily_for_each. intros t s' Ht Hs. solve_steadily.
  by apply manned_threads.
Qed.

Lemma ends_set_application_state x (s : nub W) :
  ends (set_application_state x) (λ _ s', steady (set_State x s) s') s.
Proof.
  unfold set_application_state, get_os_wall_clock_time.
  do 2 apply ends_bind. apply ends_in_world, ends_ret, ends_bind.
  assert (∀ f : nub W → nub W,
    (∀ s, steady s (f s)) → (∀ s, set_State x (f s) = f (set_State x s)) →
    ends (modify_st f) (λ _, ends (modify_st (set_State x) ;;
        mret (s32 ((GetSystemTimeAsFileTime (world s)).1 / 10000))) (λ _ s', steady (set_State x s) s'))
      (set_world (GetSystemTimeAsFileTime (world s)).2 s)) as H.
  { intros f Hf Hc. apply ends_modify_st, ends_bind, ends_modify_st, ends_ret. rewrite Hc.
    etransitivity; [|apply Hf]. split; [split|..]; try done. by apply rtc_once; constructor. }
  by destruct (x =? RUNNING); apply H.
Qed.

(** ** Continuing *)

Lemma ends_free_thread t (Q : () → nub W → Prop) s : is_Some (threads s !! t) →
  Q () (set_threads (delete t (threads s)) s) → ends (free_thread t) Q s.
Proof.
  intros [d Hd] H. apply ends_bind. eapply ends_get_thread; [done|]. by apply ends_modify_st.
Qed.

(** The threads that live on are allocated, and no others have gone. *)
Lemma ends_continue_threads main h l (s : nub W) :
  NoDup l → (∀ t, t ∈ l → is_Some (threads s !! t)) →
  ends (continue_threads main h l) (λ l' s', easy s s' ∧ ThreadList s' = ThreadList s ∧
    l' `sublist_of` l ∧ (main ∈ l → main ∈ l') ∧
    (∀ t, t ∈ l' → is_Some (threads s' !! t)) ∧
    ∀ t, t ∉ l → is_Some (threads s !! t) → is_Some (threads s' !! t)) s.
Proof.
  revert s. induction l as [|t l IH]; intros s Hnd Hs; simpl.
  { by apply ends_ret. }
  apply NoDup_cons in Hnd as [Ht Hnd].
  assert (Steadily (apply_appropriate_continuation_to_thread t h ;;
    upd_thread t (set_StackTraceValid false) ;; get_thread t) s) as H.
  { assert (is_Some (threads s !! t)) by (apply Hs, list_elem_of_here).
    apply steadily_bind; [by apply steadily_apply|]. solve_steadily. }
  destruct H as (d & s1 & E & Hst).
  assert (∀ u, is_Some (threads s !! u) → is_Some (threads s1 !! u)) as H1 by apply Hst.
  apply ends_bind. destruct (Hs t) as [d0 Hd0]; [apply list_elem_of_here|].
  apply St_bind_inv in E as (a & s2 & E1 & E). exists a, s2. split; [done|].
  apply ends_bind. apply St_bind_inv in E as (a' & s3 & E2 & E). exists a', s3. split; [done|].
  apply ends_bind. exists d, s1. split; [done|]. clear a a' s2 s3 E1 E2 E.
  destruct (negb (t =? main) && negb (Valid d)) eqn:Hfree.
  - apply ends_bind, ends_free_thread; [apply H1; eauto|].
    destruct (IH (set_threads (delete t (threads s1)) s1)) as (l' & s' & E & He & Hl & Hsub & Hm & Hl' & Hr);
      [done|..].
    { intros u Hu. simpl. rewrite lookup_delete_ne by congruence.
      apply H1, Hs. by apply list_elem_of_further. }
    exists l', s'. split; [done|]. split_and!.
    + etransitivity; [apply Hst|]. etransitivity; [|exact He]. by split.
    + rewrite Hl. simpl. apply Hst.
    + by apply sublist_cons.
    + intros [-> | Hin]%elem_of_cons; [|by apply Hm].
      apply andb_true_iff in Hfree as [Hf _]. rewrite Z.eqb_refl in Hf. done.
    + done.
    + intros u [Hut Hu]%not_elem_of_cons Hsu. apply Hr; [done|]. simpl.
      rewrite lookup_delete_ne by congruence. by apply H1.
  - apply ends_bind.
    destruct (IH s1) as (l' & s' & E & He & Hl & Hsub & Hm & Hl' & Hr); [done|..].
    { intros u Hu. apply H1, Hs. by apply list_elem_of_further. }
    exists l', s'. split; [done|]. apply ends_ret. split_and!.
    + etransitivity; [apply Hst | exact He].
    + rewrite Hl. apply Hst.
    + by apply sublist_skip.
    + intros [-> | Hin]%elem_of_cons; [apply list_elem_of_here|].
      apply list_elem_of_further. by apply Hm.
    + intros u [-> | Hu]%elem_of_cons; [|by apply Hl'].
      apply Hr; [done|]. apply H1. eauto.
    + intros u [_ Hu]%not_elem_of_cons Hsu. apply Hr; [done | by apply H1].
Qed.

Lemma ends_continue_application h (s : nub W) : manned s →
  ends (continue_application h) (λ _ s', easy (set_State RUNNING s) s' ∧ manned s') s.
Proof.
  intros Hm. unfold continue_application. apply ends_bind, ends_ask, ends_bind.
  destruct (ends_set_application_state RUNNING s) as (x & s1 & E & Hs1).
  exists x, s1. split; [done|]. clear x E.
  assert (manned s1) as Hm1 by (eapply manned_steady; [exact Hs1 |]; by destruct Hm).
  pose proof (steady_list _ _ Hs1) as Hl. simpl in Hl. rewrite <- Hl.
  apply ends_bind.
  destruct (ends_continue_threads (hd 0 (ThreadList s1)) h (ThreadList s1) s1)
    as (l' & s' & E & He & Hl' & Hsub & Hin & Ht & _); [by destruct Hm1..|].
  exists l', s'. split; [done|]. apply ends_modify_st. split.
  - etransitivity; [apply Hs1|]. etransitivity; [exact He|]. by split.
  - destruct Hm1, He. split; simpl; try done; [| |congruence..].
    + by eapply sublist_NoDup.
    + intros ->. destruct (ThreadList s1) as [|m l]; [done|].
      eapply not_elem_of_nil, Hin, list_elem_of_here.
Qed.

(** ** Looking at an event *)

(** What is left of [manned] for the last event, which may add a thread *)
Record seated (s : nub W) : Prop := {
  seated_threads t : t ∈ ThreadList s → is_Some (threads s !! t);
  seated_some : ThreadList s ≠ [];
  seated_platform : Platform s = PLATFORM_WINDOWS_NT;
  seated_exiting : ExitingProcess s = false;
  seated_state : State s ≠ RUNNING
}.

Lemma seated_steady s s' : steady s s' → seated s → seated s'.
Proof.
  intros [[] Hl Ht] []. split; rewrite ?Hl; try done; [|congruence..].
  intros t H. apply Ht. by apply seated_threads0.
Qed.
Lemma manned_seated s : manned s → State s ≠ RUNNING → seated s.
Proof. by intros [] H. Qed.

Lemma head_alloc s : seated s → ∃ d, threads s !! hd 0 (ThreadList s) = Some d.
Proof.
  intros []. destruct (ThreadList s) as [|t l]; [done|].
  apply seated_threads0, list_elem_of_here.
Qed.

Lemma ends_thread_from_ID i (s : nub W) : seated s →
  ends (thread_descriptor_from_thread_ID i) (λ t s', s' = s ∧ t ∈ ThreadList s) s.
Proof.
  intros Hs. unfold thread_descriptor_from_thread_ID. apply ends_bind, ends_ask.
  assert (hd 0 (ThreadList s) ∈ ThreadList s) as Hd.
  { destruct Hs. destruct (ThreadList s); [done | apply list_elem_of_here]. }
  assert (∀ l f def, def ∈ ThreadList s → l ⊆ ThreadList s →
    ends (find_thread f l def) (λ t s', s' = s ∧ t ∈ ThreadList s) s) as H; [|by apply H].
  induction l as [|t l IH]; intros f def Hdef Hl; simpl; [by apply ends_ret|].
  assert (t ∈ ThreadList s) as Ht by (apply Hl, list_elem_of_here).
  destruct (seated_threads _ Hs t Ht) as [d Hdt].
  eapply ends_bind, ends_get_thread; [done|]. destruct (f d); [by apply ends_ret|].
  apply IH; [done|]. intros u Hu. apply Hl. by apply list_elem_of_further.
Qed.

Lemma ends_set_JIT_event (s : nub W) : seated s →
  ends set_JIT_event (λ _ s', seated s' ∧ ReceivingFirstChance s' = ReceivingFirstChance s) s.
Proof.
  intros []. unfold set_JIT_event. apply ends_bind, ends_ask, ends_bind, ends_ask.
  destruct (_ && _); simpl.
  - by apply ends_bind, ends_modify_st, ends_modify_st.
  - by apply ends_ret.
Qed.

Lemma ends_add_thread h i (s : nub W) : seated s →
  ends (add_thread_descriptor h i) (λ _ s', seated s' ∧
    ReceivingFirstChance s' = ReceivingFirstChance s) s.
Proof.
  intros []. unfold add_thread_descriptor, new_thread_descriptor.
  do 2 apply ends_bind. apply ends_ask, ends_bind, ends_modify_st, ends_ret, ends_modify_st.
  split; [|done]. split; simpl; [|by destruct (ThreadList s) | done | done | done].
  intros t [Ht | Ht]%elem_of_app; [apply is_some_insert; by apply seated_threads0|].
  apply list_elem_of_singleton in Ht as ->. rewrite lookup_insert_eq. eauto.
Qed.

Lemma seated_upd t f (s : nub W) : seated s → is_Some (threads s !! t) →
  ends (upd_thread t f) (λ _ s', seated s' ∧ ReceivingFirstChance s' = ReceivingFirstChance s) s.
Proof.
  intros Hs Ht. destruct (steadily_upd_thread t f s Ht) as (a & s' & E & Hst).
  exists a, s'. split; [done|]. split; [by eapply seated_steady | apply Hst].
Qed.

Lemma ends_process_started (s : nub W) e hThread hFile base offset size name fUnicode : seated s →
  ends (
    l ← ask ThreadList;
    attached ← ask ProcessAttached;
    when_ attached
      (upd_thread (hd 0 l) (λ t, set_ThreadID (dwThreadId e) (set_ThreadHandle hThread t))) ;;
    libraries ← ask LibraryList;
    modify_st (set_LibraryList ((base, hFile) :: tl libraries)) ;;
    push_debug_event (mkEvent 0 0 (LoadDll hFile base offset size name fUnicode)) ;;
    ok ← in_world SymInitialize;
    modify_st (set_SymbolHandlerWorking ok) ;;
    platform ← ask Platform;
    when_ (platform =? PLATFORM_WINDOWS_95) set_JIT_event)
   (λ _ s', seated s' ∧ ReceivingFirstChance s' = ReceivingFirstChance s) s.
Proof.
  intros Hs. do 2 apply ends_bind, ends_ask. apply ends_bind.
  assert (ends (when_ (ProcessAttached s) (upd_thread (hd 0 (ThreadList s))
    (λ t, set_ThreadID (dwThreadId e) (set_ThreadHandle hThread t))))
    (λ _ s', seated s' ∧ ReceivingFirstChance s' = ReceivingFirstChance s) s)
    as (a & s1 & E & Hs1 & Hr).
  { destruct (ProcessAttached s); [|by apply ends_ret].
    apply seated_upd; [done | by destruct (head_alloc s Hs); eauto]. }
  exists a, s1. split; [done|]. rewrite <- Hr. destruct Hs1.
  apply ends_bind, ends_ask, ends_bind, ends_modify_st, ends_bind. unfold push_debug_event.
  apply ends_bind, ends_modify_st, ends_ret, ends_bind, ends_in_world, ends_bind, ends_modify_st.
  apply ends_bind, ends_ask. simpl. rewrite seated_platform0. by apply ends_ret.
Qed.

Lemma ends_thread_exited i (s : nub W) : seated s →
  ends (
    dead_thread ← thread_descriptor_from_thread_ID i;
    upd_thread dead_thread (set_Valid false) ;;
    platform ← ask Platform;
    when_ (platform =? PLATFORM_WINDOWS_NT) set_JIT_event)
   (λ _ s', seated s' ∧ ReceivingFirstChance s' = ReceivingFirstChance s) s.
Proof.
  intros Hs. destruct (ends_thread_from_ID i s Hs) as (t & s1 & E & -> & Ht).
  apply ends_bind. exists t, s. split; [done|]. apply ends_bind.
  destruct (seated_upd t (set_Valid false) s Hs) as (a & s1 & E1 & Hs1 & Hr);
    [by apply seated_threads|].
  exists a, s1. split; [done|]. rewrite <- Hr. apply ends_bind, ends_ask.
  rewrite (seated_platform _ Hs1). by apply ends_set_JIT_event.
Qed.

Lemma ends_housekeep e (s : nub W) : seated s →
  ends (housekeep_for_stop_reason e) (λ _ s', seated s' ∧
    ReceivingFirstChance s' = ReceivingFirstChance s) s.
Proof.
  intros Hs. unfold housekeep_for_stop_reason.
  destruct (information e); try (by apply ends_ret).
  - destruct (_ =? _); [|by apply ends_ret]. apply ends_bind.
    destruct (ends_set_application_state STOPPED_AT_BREAKPOINT s) as (x & s1 & E & Hs1).
    exists x, s1. split; [done|]. apply ends_ret. split; [|apply Hs1].
    eapply seated_steady; [exact Hs1|]. by destruct Hs.
  - by apply ends_add_thread.
  - by apply ends_process_started.
  - by apply ends_thread_exited.
  - apply ends_bind, ends_ask. destruct (SymbolHandlerWorking s); [|by apply ends_ret].
    apply ends_modify_st. by destruct Hs.
  - apply ends_modify_st. by destruct Hs.
Qed.

(** The decision [c] is noted in the descriptor of the thread. *)
Definition noted (t : Z) (d : dbgthread) (c : Z) (s s' : nub W) : Prop :=
  steady s s' ∧ PendingEvent s' = PendingEvent s ∧ PendingEventThread s' = PendingEventThread s ∧
  ∃ d', threads s' !! t = Some d' ∧ LastReceivedEvent d' = LastReceivedEvent d ∧
    NubCodeOfLastEvent d' = c.

Lemma noted_insert t d d' (s : nub W) : LastReceivedEvent d' = LastReceivedEvent d →
  noted t d (NubCodeOfLastEvent d') s (set_threads (<[t := d']> (threads s)) s).
Proof.
  intros H. split_and!; [|done | done | exists d'; simpl; by rewrite lookup_insert_eq].
  split; [by split | done |]. intros u. apply is_some_insert.
Qed.

Lemma ends_decide t c d (s : nub W) : threads s !! t = Some d →
  ends (decide_event t c) (λ c' s', c' = c ∧ noted t d c s s') s.
Proof.
  intros Hd. unfold decide_event. eapply ends_bind, ends_upd_thread; [done|]. apply ends_ret.
  split; [done|]. by apply (noted_insert t d
    (set_StoppedState THREAD_STOPPED_AT_DEBUG_EVENT (set_NubCodeOfLastEvent c d))).
Qed.

Lemma ends_decide_exception t c x d (s : nub W) : threads s !! t = Some d →
  ends (decision ← (set_StoppedState_of t x ;; mret c);
        upd_thread t (set_NubCodeOfLastEvent decision) ;; mret decision)
    (λ c' s', c' = c ∧ noted t d c s s') s.
Proof.
  intros Hd. do 2 apply ends_bind. unfold set_StoppedState_of.
  eapply ends_upd_thread; [done|]. apply ends_ret.
  eapply ends_bind, (ends_upd_thread _ _ (set_StoppedState x d)).
  { simpl. by rewrite lookup_insert_eq. }
  apply ends_ret. split; [done|]. simpl. rewrite insert_insert_eq.
  exact (noted_insert t d (set_NubCodeOfLastEvent c (set_StoppedState x d)) s eq_refl).
Qed.

Lemma ends_process handler t e d (s : nub W) : plain e → threads s !! t = Some d →
  ends (process_this_debug_event handler t e STOP_REASON_WAIT_NORMAL)
    (λ c s', c = verdict (ReceivingFirstChance s) e ∧
       noted t d (verdict (ReceivingFirstChance s) e) s s') s.
Proof.
  intros Hp Hd. unfold process_this_debug_event, plain, verdict in *.
  destruct (information e) as [code a first info| | | | | | | | |]; try by apply ends_decide.
  destruct (Z.eqb_spec first 0) as [-> | Hf]; simpl.
  - unfold process_this_second_chance_exception.
    destruct (code =? EXCEPTION_BREAKPOINT); by apply ends_decide_exception.
  - destruct Hp as [? | [Hb Hss]]; [done|].
    unfold process_this_first_chance_exception.
    rewrite (proj2 (Z.eqb_neq _ _) Hb), (proj2 (Z.eqb_neq _ _) Hss).
    assert (∀ f : list Z → M Z, (get_thread t ;; receiving ← ask ReceivingFirstChance; f receiving) s =
      f (ReceivingFirstChance s) s) as Hskip.
    { intros f. by sstep (run_get_thread _ _ _ Hd). }
    apply ends_bind.
    set (r := bool_decide (exception_to_nub_code code ∈ ReceivingFirstChance s)).
    destruct (ends_decide_exception t
      (if r then exception_to_nub_code code else FILTER_UNHANDLED_DBG_EVENT)
      THREAD_STOPPED_AT_FIRST_CHANCE_EXCEPTION d s Hd) as (c & s' & E & H).
    apply St_bind_inv in E as (c1 & s1 & E1 & E2). exists c1, s1. split; [|by exists c, s'].
    rewrite Hskip. rewrite <- E1. rewrite andb_true_r. fold r. by destruct r.
Qed.

Lemma ends_receive handler e (s : nub W) : manned s → plain e →
  ends (receive_event handler STOP_REASON_WAIT_NORMAL e) (λ r s',
    r.1 = verdict (ReceivingFirstChance s) e ∧
    seated s' ∧ PendingEvent s' = Some e ∧
    (∃ d, threads s' !! PendingEventThread s' = Some d ∧ LastReceivedEvent d = Some e ∧
       NubCodeOfLastEvent d = r.1) ∧
    (r.1 = FILTER_UNHANDLED_DBG_EVENT → manned s' ∧ easy (set_State STOPPED_BY_EVENT s) s')) s.
Proof.
  intros Hm Hp. unfold receive_event. simpl.
  destruct (ends_set_application_state STOPPED_BY_EVENT s) as (x & s1 & E1 & Hs1).
  apply ends_bind, ends_bind. exists x, s1. split; [done|].
  assert (manned s1) as Hm1 by (eapply manned_steady; [exact Hs1|]; by destruct Hm).
  destruct (steadily_flag s1 Hm1) as (u & s2 & E2 & Hs2).
  apply ends_bind. exists u, s2. split; [done|].
  assert (steady (set_State STOPPED_BY_EVENT s) s2) as Hs02 by (by (etransitivity; [exact Hs1 | exact Hs2])).
  assert (manned s2) as Hm2 by exact (manned_steady _ _ Hs2 Hm1).
  assert (seated s2) as Hse2.
  { apply manned_seated; [done|]. by rewrite (easy_state _ _ (steady_easy _ _ Hs02)). }
  destruct (ends_housekeep e s2 Hse2) as (u3 & s3 & E3 & Hse3 & Hr3).
  apply ends_bind. exists u3, s3. split; [done|]. apply ends_ret, ends_bind, ends_ret.
  destruct (ends_thread_from_ID (dwThreadId e) s3 Hse3) as (t & s3' & E4 & -> & Ht).
  apply ends_bind. exists t, s3. split; [done|].
  destruct (seated_threads _ Hse3 t Ht) as [d Hd].
  apply ends_bind, ends_bind, ends_modify_st. eapply ends_upd_thread; [exact Hd|].
  apply ends_bind, ends_modify_st, ends_bind. set (s4 := set_PendingEventThread t _).
  destruct (ends_process handler t e (set_LastReceivedEvent (Some e) d) s4)
    as (c & s5 & E5 & -> & Hst & Hpe & Hpt & d' & Hd' & Hle & Hco); [done | simpl; by rewrite lookup_insert_eq |].
  exists (verdict (ReceivingFirstChance s4) e), s5. split; [done|].
  assert (steady s3 s4) as Hs34.
  { split; [by split | done |]. intros v. apply is_some_insert. }
  assert (steady s3 s5) as Hs35 by (etransitivity; [exact Hs34 | exact Hst]).
  assert (seated s5) as Hse5 by exact (seated_steady _ _ Hs35 Hse3).
  apply ends_bind, ends_ask. rewrite (seated_platform _ Hse5). apply ends_bind, ends_ret, ends_ret.
  assert (ReceivingFirstChance s4 = ReceivingFirstChance s) as Hrf.
  { change (ReceivingFirstChance s4) with (ReceivingFirstChance s3). rewrite Hr3.
    apply (easy_receiving _ _ (steady_easy _ _ Hs02)). }
  rewrite Hrf in *. cbn [fst]. split; [done|]. split; [done|]. split; [by rewrite Hpe|]. split.
  - exists d'. by rewrite Hpt.
  - intros Hfilter. destruct (verdict_exception _ _ Hfilter) as (code & a & first & info & Hi).
    assert (s3 = s2) as ->.
    { unfold housekeep_for_stop_reason in E3. rewrite Hi in E3.
      unfold verdict in Hfilter. rewrite Hi in Hfilter.
      destruct (Z.eqb_spec code EXCEPTION_BREAKPOINT) as [Hb | Hb]; [|by injection E3 as _ <-].
      unfold plain in Hp. rewrite Hi in Hp. destruct Hp as [-> | [? _]]; [discriminate Hfilter | done]. }
    split; [exact (manned_steady _ _ Hs35 Hm2)|]. etransitivity; [apply Hs02 | apply Hs35].
Qed.

(** ** The loop *)

Lemma eventually_next pid receiving n (w : W) : eventually pid receiving n w →
  ∃ e, (WaitForDebugEvent INFINITE w).1 = Some e ∧
    (wanted pid receiving e ∨
     passed pid receiving e ∧
     ∃ m, n = S m ∧ eventually pid receiving m (WaitForDebugEvent INFINITE w).2).
Proof.
  intros H. destruct n as [|n]; destruct (H w) as (e & He & [Hw | [Hp Hn]]); try done;
    exists e; split; eauto.
Qed.

(** The next event of the process *)
Lemma ends_next_event receiving fuel n (s : nub W) :
  eventually (ProcessID s) receiving n (world s) → (n ≤ fuel)%nat →
  ends (get_next_debug_event_for_this_process fuel INFINITE) (λ r s', ∃ e w,
    r = Some e ∧ s' = set_world w s ∧ dwProcessId e = ProcessID s ∧ plain e ∧
    (verdict receiving e = FILTER_UNHANDLED_DBG_EVENT →
     ∃ m, (m < n)%nat ∧ eventually (ProcessID s) receiving m w)) s.
Proof.
  revert n s. induction fuel as [|fuel IH]; intros n s Hev Hle;
    destruct (eventually_next _ _ _ _ Hev) as (e & He & Hcase);
    unfold get_next_debug_event_for_this_process;
    fold (@get_next_debug_event_for_this_process W _);
    apply ends_bind, ends_in_world; change (u32 INFINITE) with INFINITE; rewrite He;
    apply ends_bind, ends_ask; simpl;
    destruct (Z.eqb_spec (dwProcessId e) (ProcessID s)) as [Hpid | Hpid]; simpl.
  1, 3: apply ends_ret; eexists e, _; split_and!; try done;
    destruct Hcase as [(_ & ? & ?) | [[? | [? ?]] (m & -> & Hm)]]; try done;
    intros; exists m; by split; [lia|].
  - destruct Hcase as [(? & _) | (_ & m & -> & _)]; [done | lia].
  - destruct Hcase as [(? & _) | (_ & m & -> & Hm)]; [done|].
    apply ends_bind, ends_in_world. simpl.
    set (w' := (ContinueDebugEvent _ _ _ _).2).
    destruct (IH m (set_world w' s)) as (r & s' & E & e' & w & -> & -> & Hpe & Hpl & Hv);
      [|lia|].
    { eapply eventually_touched; [|exact Hm]. apply rtc_once. constructor. }
    exists (Some e'), (set_world w (set_world w' s)). split; [done|].
    exists e', w. split_and!; try done. intros Hf. destruct (Hv Hf) as (k & ? & ?).
    exists k. split; [lia | done].
Qed.

(** An event that is reported ends the loop. *)
Lemma ends_reported (rest : wait_state → M Z) decision (s : nub W) (Q : Z → nub W → Prop) st :
  seated s → Q decision s →
  ends (r ← (r ← reported STOP_REASON_WAIT_NORMAL decision; mret (r, st));
        match r.1 with Some code => mret code | None => rest r.2 end) Q s.
Proof.
  intros Hs HQ. do 2 apply ends_bind. unfold reported. apply ends_bind, ends_ask.
  rewrite (seated_exiting _ Hs). by do 3 apply ends_ret.
Qed.

Lemma ends_wait_loop handler tv fuel n st (s : nub W) : manned s → (n ≤ fuel)%nat →
  eventually (ProcessID s) (ReceivingFirstChance s) n (world s) →
  ends (wait_loop handler fuel false tv STOP_REASON_WAIT_NORMAL st) (λ code s', ∃ e d,
    dwProcessId e = ProcessID s ∧ plain e ∧ code = verdict (ReceivingFirstChance s) e ∧
    code ≠ FILTER_UNHANDLED_DBG_EVENT ∧ State s' ≠ RUNNING ∧ PendingEvent s' = Some e ∧
    threads s' !! PendingEventThread s' = Some d ∧ LastReceivedEvent d = Some e ∧
    NubCodeOfLastEvent d = code) s.
Proof.
  revert n st s. induction fuel as [|fuel IH]; intros n st s Hm Hle Hev;
    unfold wait_loop; fold (@wait_loop W _); apply ends_bind;
    destruct (ends_next_event _ _ _ _ Hev Hle) as (r & s1 & E & e & w & -> & -> & Hpid & Hp & Hcase);
    exists (Some e), (set_world w s); (split; [done|]); do 2 apply ends_bind;
    (assert (manned (set_world w s)) as Hm1 by (by destruct Hm));
    destruct (ends_receive handler e _ Hm1 Hp)
      as (r & s2 & E2 & Hr & Hse & Hpe & (d & Hd & Hle' & Hco) & Hfilter);
    exists r, s2; (split; [done|]); apply ends_ret; simpl; simpl in Hr, Hfilter;
    pose proof (verdict_not_handled (ReceivingFirstChance s) e) as Hnh; rewrite <- Hr in Hnh;
    rewrite (proj2 (Z.eqb_neq _ _) Hnh);
    destruct (Z.eqb_spec r.1 FILTER_UNHANDLED_DBG_EVENT) as [Hf | Hf].
  1, 3: pose proof Hf as Hf'; rewrite Hr in Hf'; destruct (Hcase Hf') as (m & Hmn & Hm').
  1: lia.
  2: apply (ends_reported (λ _, undefined)); [done|].
  3: apply (ends_reported (λ st, wait_loop handler fuel false tv STOP_REASON_WAIT_NORMAL st)); [done|].
  2, 3: exists e, d; by (split_and!; try apply Hse).
  destruct (Hfilter ltac:(congruence)) as [Hm2 He2].
  apply ends_bind. unfold filtered. simpl. apply ends_bind, ends_ask. rewrite andb_false_r. simpl.
  destruct (ends_continue_application EXCEPTIONS_UNHANDLED s2 Hm2) as (u & s3 & E3 & He3 & Hm3).
  apply ends_bind. exists u, s3. split; [done|]. apply ends_bind, ends_ask, ends_ret. simpl.
  assert (easy (set_State RUNNING (set_world w s)) s3) as He.
  { etransitivity; [|exact He3]. destruct He2. by split. }
  pose proof He as []. simpl in *.
  destruct (IH m (mkWait (s32 (tv - Cumulative st)) (LastActivationWallClockTime s3) (Cumulative st))
    s3 Hm3 ltac:(lia)) as (code & s4 & E4 & e' & d' & H).
  - rewrite easy_process0, easy_receiving0. by eapply eventually_touched.
  - exists code, s4. split; [exact E4|]. rewrite easy_process0, easy_receiving0 in H.
    by exists e', d'.
Qed.

(** C14: On Windows NT, while the process is not exiting and has a descriptor
    for each of its threads, of which there is one at least,
    nub_wait_for_stop_reason_no_timeout returns: when Windows has an event
    for the debugger after at most n events of other processes and first-
    chance exceptions that the debugger has not asked for (breakpoints and
    single steps apart), fuel n is enough, and the answer is the code of an
    event of the process that is not filtered out; the event is pending,
    noted with its code in the descriptor of a thread, and the application
    is not running. *)
Theorem wait_reports_an_event handler fuel n (s : nub W) :
  manned s → eventually (ProcessID s) (ReceivingFirstChance s) n (world s) → (n ≤ fuel)%nat →
  ∃ code e s' d,
    nub_wait_for_stop_reason_no_timeout handler fuel s = Some (code, s') ∧
    dwProcessId e = ProcessID s ∧ code = verdict (ReceivingFirstChance s) e ∧
    code ≠ FILTER_HANDLED_DBG_EVENT ∧ code ≠ FILTER_UNHANDLED_DBG_EVENT ∧
    State s' ≠ RUNNING ∧ PendingEvent s' = Some e ∧
    threads s' !! PendingEventThread s' = Some d ∧ LastReceivedEvent d = Some e ∧
    NubCodeOfLastEvent d = code.
Proof.
  intros Hm Hev Hle.
  destruct (ends_wait_loop handler 0 fuel n (mkWait 0 0 0) s Hm Hle Hev)
    as (code & s' & E & e & d & Hpid & _ & Hc & H).
  exists code, e, s', d. split; [exact E|]. split; [done|]. split; [done|].
  split; [rewrite Hc; apply verdict_not_handled | done].
Qed.

End operations.

(** ** An example

    Windows with a list of events to report, and nothing behind them *)
Record playback := mkPlayback { events : list debug_event }.

#[export] Instance playback_windows : Windows playback := {
  ReadProcessMemory _ _ _ := None;
  WriteProcessMemory _ _ w := (false, w);
  GetThreadContext _ _ := None;
  SetThreadContext _ _ w := (false, w);
  SuspendThread _ w := (0, w);
  ResumeThread _ w := (0, w);
  ContinueDebugEvent _ _ _ w := (true, w);
  WaitForDebugEvent _ w :=
    match events w with [] => (None, w) | e :: l => (Some e, mkPlayback l) end;
  GetSystemTimeAsFileTime w := (0, w);
  StackWalk _ f c _ := (false, f, c);
  SymInitialize w := (true, w);
  SymCleanup w := w;
  SetEvent _ w := w;
  TerminateProcess w := w
}.

Lemma playback_touched (w w' : playback) : rtc touched w w' → w' = w.
Proof. induction 1 as [|w w1 w' H _ ->]; [done|]. by destruct H. Qed.

(** An event of another process, an exception that the debugger does not want to see at
    its first chance, and a library that is loaded *)
Definition example_events : list debug_event :=
  [mkEvent 9 3 (LoadDll 0 0 0 0 0 0);
   mkEvent 1 7 (Exception EXCEPTION_ACCESS_VIOLATION 4660 1 [0; 0]);
   mkEvent 1 7 (LoadDll 0 4096 0 0 0 0)].
Definition example_debugger : nub playback :=
  mkNub 1 RUNNING PLATFORM_WINDOWS_NT false 0 false [20] 0 0 0 [] [] None [] [] 0 0 0 0 false
    {[20 := mkThread 1 7 false None false 0 ∅ true false false false 0 0 [] 0 None 0]} ∅ 21
    (mkPlayback example_events).

Lemma wait_reports_an_event_witness :
  manned example_debugger ∧
  ∃ e s' d, nub_wait_for_stop_reason_no_timeout (λ _, mret ()) 5 example_debugger =
      Some (LOAD_DLL_DBG_EVENT, s') ∧
    PendingEvent s' = Some e ∧ threads s' !! PendingEventThread s' = Some d ∧
    NubCodeOfLastEvent d = LOAD_DLL_DBG_EVENT.
Proof.
  assert (manned example_debugger) as Hm.
  { split; [apply NoDup_singleton | | done | done | done].
    intros t ->%list_elem_of_singleton. by eexists. }
  split; [exact Hm|].
  assert (eventually 1 [] 2 (world example_debugger)) as Hev.
  { intros w1 ->%playback_touched. eexists. split; [reflexivity|]. right.
    split; [by left|]. intros w2 ->%playback_touched. eexists. split; [reflexivity|]. right.
    split; [by right; split; [right|]|]. intros w3 ->%playback_touched.
    eexists. split; [reflexivity|]. by left. }
  destruct (wait_reports_an_event (λ _, mret ()) 5 2 example_debugger Hm Hev ltac:(lia))
    as (code & e & s' & d & E & _ & _ & _ & _ & _ & Hp & Hd & _ & Hc).
  assert (fst <$> nub_wait_for_stop_reason_no_timeout (λ _, mret ()) 5 example_debugger =
    Some LOAD_DLL_DBG_EVENT) as Hcode by (vm_compute; reflexivity).
  rewrite E in Hcode. injection Hcode as ->.
  exists e, s', d. split; [exact E|]. split; [exact Hp|]. split; [exact Hd | exact Hc].
Defined.
