(* ===== verification/CodeView.v ===== *)
(** * CodeView debug information

    The CodeView information of an image, as the debugger nub finds it in the view that
    the system maps of it ([debug_map.c], with the structures of [cv-extract.h]).  The view
    is a function from addresses to bytes; what lies outside of it is not defined.  An
    index is a [WORD], offsets and addresses are [DWORD]s. *)

From S2P Require Import Prelude Effects.
From stdpp Require Import base tactics option list numbers.
From Stdlib Require Import ZArith Lia.

Local Open Scope Z_scope.

(** ** The mapped view

    [IMAGE_DEBUG_INFORMATION] of the system, of whose sections the nub reads the virtual
    addresses *)
Record debug_information := mkDebugInformation {
  view : Z → option Z;
  CodeViewSymbols : Z;
  SizeOfCodeViewSymbols : Z;
  SizeOfCoffSymbols : Z;
  Sections : list Z
}.

(** What the descriptor of a library has of its image *)
Inductive debug_type := NONE | CODEVIEW_PDB | CODEVIEW_IMAGE | COFF_IMAGE | NOT_YET_LOADED.

#[export] Instance debug_type_dec : EqDecision debug_type.
Proof. solve_decision. Defined.

Record image := mkImage {
  ImageBase : Z;
  DebugMap : option debug_information;
  DebugType : debug_type
}.

Definition BYTE_at (d : debug_information) (p : Z) : option Z := view d p.
Definition WORD_at (d : debug_information) (p : Z) : option Z :=
  a ← view d p; b ← view d (p + 1); Some (a + 256 * b).
Definition DWORD_at (d : debug_information) (p : Z) : option Z :=
  a ← WORD_at d p; b ← WORD_at d (p + 2); Some (a + 65536 * b).

Definition CVMAP (d : debug_information) (y : Z) : Z := u32 (CodeViewSymbols d + y).

(** ** The directory of subsections

    [sizeof(SS_DIR_HEADER)] is 16 and [sizeof(SS_DIR_ENTRY)] 12. *)

Definition lfoBase (d : debug_information) : option Z := DWORD_at d (CodeViewSymbols d + 4).

Definition number_of_codeview_subsections (info : option debug_information) : option Z :=
  match info with
  | None => Some 0
  | Some d =>
      if CodeViewSymbols d =? 0 then Some 0
      else base ← lfoBase d; DWORD_at d (CVMAP d base + 4)
  end.

(** The entry of a subsection *)
Definition ss_dir_entry (d : debug_information) (subsection : Z) : option Z :=
  base ← lfoBase d; Some (u32 (CVMAP d (base + 16) + 12 * subsection)).

Definition codeview_subsection_type (info : option debug_information) (subsection : Z) : option Z :=
  match info with
  | None => Some 0
  | Some d =>
      if CodeViewSymbols d =? 0 then Some 0
      else e ← ss_dir_entry d subsection; WORD_at d e
  end.

Definition codeview_subsection_offset (info : option debug_information) (subsection : Z) : option Z :=
  match info with
  | None => Some 0
  | Some d =>
      if CodeViewSymbols d =? 0 then Some 0
      else e ← ss_dir_entry d subsection; DWORD_at d (e + 4)
  end.

Definition codeview_subsection_size (info : option debug_information) (subsection : Z) : option Z :=
  match info with
  | None => Some 0
  | Some d =>
      if CodeViewSymbols d =? 0 then Some 0
      else e ← ss_dir_entry d subsection; DWORD_at d (e + 8)
  end.

(** The four characters of the signature of the view *)
Definition signature (d : debug_information) : option (list Z) :=
  mapM (BYTE_at d) [CodeViewSymbols d; CodeViewSymbols d + 1; CodeViewSymbols d + 2; CodeViewSymbols d + 3].

Definition signature_is (signatures : list (list Z)) (info : option debug_information) : option bool :=
  match info with
  | None => Some false
  | Some d =>
      if (CodeViewSymbols d =? 0) || (SizeOfCodeViewSymbols d =? 0) then Some false
      else sig ← signature d; Some (bool_decide (sig ∈ signatures))
  end.

(** NB09 and NB11 *)
Definition codeview_present_in_image : option debug_information → option bool :=
  signature_is [[78; 66; 48; 57]; [78; 66; 49; 49]].

(** NB10 and RSDS *)
Definition codeview_present_in_pdb : option debug_information → option bool :=
  signature_is [[78; 66; 49; 48]; [82; 83; 68; 83]].

Definition coff_table_present_in_image (d : debug_information) : bool := negb (SizeOfCoffSymbols d =? 0).

Definition SST_PUBLIC_SYM : Z := 291.
Definition SST_SYMBOLS : Z := 292.
Definition SST_ALIGN_SYM : Z := 293.
Definition SST_SRC_MODULE : Z := 295.
Definition SST_GLOBAL_SYM : Z := 297.
Definition SST_GLOBAL_PUB : Z := 298.
Definition SST_STATIC_SYM : Z := 308.

Definition one_of (x : Z) (l : list Z) : bool := bool_decide (x ∈ l).

(** [sizeof(HASH_INFO_RECORD)] is 16. *)
Definition size_of_subsection_prolog (subsection_type : Z) : Z :=
  if one_of subsection_type [SST_ALIGN_SYM; SST_SYMBOLS; SST_PUBLIC_SYM] then 4
  else if one_of subsection_type [SST_GLOBAL_SYM; SST_GLOBAL_PUB; SST_STATIC_SYM] then 16
  else 0.

(** ** Symbol records

    Every record begins with its length, which does not count the two bytes of the length
    itself, and its kind. *)

Definition CV_S_COMPILE : Z := 1.
Definition CV_S_REGISTER : Z := 2.
Definition CV_S_REGISTER_NEW : Z := 4097.
Definition CV_S_END : Z := 6.
Definition CV_S_BPREL16 : Z := 256.
Definition CV_S_LDATA16 : Z := 257.
Definition CV_S_GDATA16 : Z := 258.
Definition CV_S_PUB16 : Z := 259.
Definition CV_S_LPROC16 : Z := 260.
Definition CV_S_GPROC16 : Z := 261.
Definition CV_S_BPREL32 : Z := 512.
Definition CV_S_BPREL32_NEW : Z := 4102.
Definition CV_S_LDATA32 : Z := 513.
Definition CV_S_LDATA32_NEW : Z := 4103.
Definition CV_S_GDATA32 : Z := 514.
Definition CV_S_GDATA32_NEW : Z := 4104.
Definition CV_S_PUB32 : Z := 515.
Definition CV_S_PUB32_NEW : Z := 4105.
Definition CV_S_LPROC32 : Z := 516.
Definition CV_S_LPROC32_NEW : Z := 4106.
Definition CV_S_GPROC32 : Z := 517.
Definition CV_S_GPROC32_NEW : Z := 4107.
Definition CV_S_BLOCK32 : Z := 519.

Definition header_Length (d : debug_information) (p : Z) : option Z := WORD_at d p.
Definition header_Index (d : debug_information) (p : Z) : option Z := WORD_at d (p + 2).

(** The record that follows *)
Definition next_header (d : debug_information) (p : Z) : option Z :=
  n ← header_Length d p; Some (u32 (p + (n + 2))).

(** A field of a record, a [WORD] or a [DWORD] at an offset *)
Inductive field := word_field (offset : Z) | dword_field (offset : Z).

Definition read_field (d : debug_information) (p : Z) (f : field) : option Z :=
  match f with word_field o => WORD_at d (p + o) | dword_field o => DWORD_at d (p + o) end.

(** A symbol that stands for data or a function: its place, and the offset of the byte with
    the length of its name, which the name follows *)
Record proc_fields := mkProc { ProcLength : field; DebugStart : field; DebugEnd : field }.
Record symbol_layout := mkSymbol {
  Offset : field; Segment : field; NameLength : Z; proc : option proc_fields
}.

Definition CV_LDATA16 := mkSymbol (word_field 4) (word_field 6) 10 None.
Definition CV_GDATA16 := mkSymbol (word_field 4) (word_field 6) 10 None.
Definition CV_PUB16 := mkSymbol (word_field 4) (word_field 6) 10 None.
Definition CV_LPROC16 := mkSymbol (word_field 22) (word_field 24) 29
  (Some (mkProc (word_field 16) (word_field 18) (word_field 20))).
Definition CV_GPROC16 := mkSymbol (word_field 22) (word_field 24) 29
  (Some (mkProc (word_field 16) (word_field 18) (word_field 20))).
Definition CV_LDATA32 := mkSymbol (dword_field 4) (word_field 8) 12 None.
Definition CV_GDATA32 := mkSymbol (dword_field 4) (word_field 8) 12 None.
Definition CV_PUB32 := mkSymbol (dword_field 4) (word_field 8) 12 None.
Definition CV_LPROC32 := mkSymbol (dword_field 28) (word_field 32) 37
  (Some (mkProc (dword_field 16) (dword_field 20) (dword_field 24))).
Definition CV_GPROC32 := mkSymbol (dword_field 28) (word_field 32) 37
  (Some (mkProc (dword_field 16) (dword_field 20) (dword_field 24))).
Definition CV_LDATA32_NEW := mkSymbol (dword_field 8) (word_field 12) 14 None.
Definition CV_GDATA32_NEW := mkSymbol (dword_field 8) (word_field 12) 14 None.
Definition CV_PUB32_NEW := mkSymbol (dword_field 8) (word_field 12) 14 None.
Definition CV_LPROC32_NEW := mkSymbol (dword_field 32) (word_field 36) 39
  (Some (mkProc (dword_field 16) (dword_field 20) (dword_field 24))).
Definition CV_GPROC32_NEW := mkSymbol (dword_field 32) (word_field 36) 39
  (Some (mkProc (dword_field 16) (dword_field 20) (dword_field 24))).

(** A block: its length and place *)
Definition CV_BLOCK32 : field * field * field := (dword_field 12, dword_field 16, word_field 20).

(** A variable of a frame or in a register: its offset or register, and its name *)
Definition CV_BPREL16 : field * Z := (word_field 4, 8).
Definition CV_BPREL32 : field * Z := (dword_field 4, 10).
Definition CV_BPREL32_NEW : field * Z := (dword_field 4, 12).
Definition CV_REGISTER : field * Z := (word_field 6, 8).
Definition CV_REGISTER_NEW : field * Z := (word_field 8, 10).

(** The language, of a compiler record: [Flags[1]] *)
Definition CV_COMPILE_FLAG_Flags1 : Z := 6.

(** The structure that a [switch] on the kind chooses, where it has cases for the symbols
    of data and functions *)
Definition layout_of (index : Z) : option symbol_layout :=
  if index =? CV_S_LDATA16 then Some CV_LDATA16
  else if index =? CV_S_GDATA16 then Some CV_GDATA16
  else if index =? CV_S_PUB16 then Some CV_PUB16
  else if index =? CV_S_LPROC16 then Some CV_LPROC16
  else if index =? CV_S_GPROC16 then Some CV_GPROC16
  else if index =? CV_S_LDATA32 then Some CV_LDATA32
  else if index =? CV_S_LDATA32_NEW then Some CV_LDATA32_NEW
  else if index =? CV_S_GDATA32 then Some CV_GDATA32
  else if index =? CV_S_GDATA32_NEW then Some CV_GDATA32_NEW
  else if index =? CV_S_PUB32 then Some CV_PUB32
  else if index =? CV_S_PUB32_NEW then Some CV_PUB32_NEW
  else if index =? CV_S_LPROC32 then Some CV_LPROC32
  else if index =? CV_S_LPROC32_NEW then Some CV_LPROC32_NEW
  else if index =? CV_S_GPROC32 then Some CV_GPROC32
  else if index =? CV_S_GPROC32_NEW then Some CV_GPROC32_NEW
  else None.

(** The same for the variables of a frame *)
Definition lexical_layout_of (index : Z) : option (field * Z) :=
  if index =? CV_S_BPREL16 then Some CV_BPREL16
  else if index =? CV_S_BPREL32 then Some CV_BPREL32
  else if index =? CV_S_BPREL32_NEW then Some CV_BPREL32_NEW
  else if index =? CV_S_REGISTER then Some CV_REGISTER
  else if index =? CV_S_REGISTER_NEW then Some CV_REGISTER_NEW
  else None.

Definition should_be_in_all_symbols_scan (d : debug_information) (sym : Z) : option bool :=
  index ← header_Index d sym; Some (bool_decide (is_Some (layout_of index))).

(** ** What a record says

    Pointers to records are addresses in the view; 0 is [NULL]. *)

(** [info->Sections[segment - 1].VirtualAddress] *)
Definition section_address (d : debug_information) (segment : Z) : option Z :=
  if segment =? 0 then None else Sections d !! Z.to_nat (segment - 1).

Section records.
Context (im : image).

(** The offset, and whether it is valid *)
Definition proc_offset (get : proc_fields → field) (sym : Z) : option (Z * bool) :=
  if sym =? 0 then Some (0, false)
  else
    d ← DebugMap im;
    index ← header_Index d sym;
    match layout_of index ≫= proc with
    | Some f => o ← read_field d sym (get f); Some (o, true)
    | None => Some (0, false)
    end.

Definition cv_symbol_debug_start_offset : Z → option (Z * bool) := proc_offset DebugStart.
Definition cv_symbol_debug_end_offset : Z → option (Z * bool) := proc_offset DebugEnd.

(** The offsets of the start and the end of the frame, and of the end of the function *)
Definition cv_get_function_offsets (sym : Z) : option (option (Z * Z * Z)) :=
  if sym =? 0 then Some None
  else
    d ← DebugMap im;
    index ← header_Index d sym;
    match layout_of index ≫= proc with
    | Some f =>
        ds ← read_field d sym (DebugStart f); de ← read_field d sym (DebugEnd f);
        e ← read_field d sym (ProcLength f);
        Some (Some (ds, de, e))
    | None => Some None
    end.

Definition cv_symbol_address (FP sym : Z) : option Z :=
  if sym =? 0 then Some 0
  else
    d ← DebugMap im;
    index ← header_Index d sym;
    if index =? CV_S_BPREL16 then
      frame_offset ← read_field d sym CV_BPREL16.1;
      Some (if frame_offset <? 0 then u32 (FP - u32 (- frame_offset)) else u32 (FP + frame_offset))
    else if index =? CV_S_BPREL32 then
      o ← read_field d sym CV_BPREL32.1; Some (u32 (FP + o))
    else if index =? CV_S_BPREL32_NEW then
      o ← read_field d sym CV_BPREL32_NEW.1; Some (u32 (FP + o))
    else
      match layout_of index with
      | Some l =>
          offset ← read_field d sym (Offset l);
          segment ← read_field d sym (Segment l);
          rva ← section_address d segment;
          Some (u32 (ImageBase im + offset + rva))
      | None => Some 0
      end.

(** Whether the code at [offset] of a segment, [length] bytes, has [IP] in it *)
Definition encloses (d : debug_information) (IP offset segment length : Z) : option bool :=
  segment_rva ← section_address d segment;
  let code_start := u32 (ImageBase im + segment_rva + offset) in
  let code_end := u32 (code_start + length - 1) in
  Some ((code_start <=? IP) && (IP <=? code_end)).

Definition cv_sym_encloses_IP32 (sym IP : Z) : option bool :=
  if sym =? 0 then Some false
  else
    d ← DebugMap im;
    index ← header_Index d sym;
    let of_proc l :=
      f ← proc l;
      offset ← read_field d sym (Offset l); segment ← read_field d sym (Segment l);
      length ← read_field d sym (ProcLength f);
      encloses d IP offset segment length in
    if one_of index [CV_S_LPROC32; CV_S_GPROC32] then of_proc CV_GPROC32
    else if one_of index [CV_S_LPROC32_NEW; CV_S_GPROC32_NEW] then of_proc CV_GPROC32_NEW
    else if index =? CV_S_BLOCK32 then
      offset ← read_field d sym CV_BLOCK32.1.2; segment ← read_field d sym CV_BLOCK32.2;
      length ← read_field d sym CV_BLOCK32.1.1;
      encloses d IP offset segment length
    else Some false.
End records.

(** ** Names *)

(** The rest of two names, of [n] characters from [p] and [q] on *)
Fixpoint equal_characters (name1 name2 : Z → option Z) (n : nat) (i1 i2 : Z) : option bool :=
  match n with
  | O => Some true
  | S n =>
      a ← name1 i1; b ← name2 i2;
      if negb (a =? b) then Some false else equal_characters name1 name2 n (i1 + 1) (i2 + 1)
  end.

(** A name has an underscore more than the other where a compiler added one.  [l1] and
    [l2] are [BYTE]s; the counter runs from [i1] up to [l1]. *)
Definition equal_symbolic_names (l1 l2 : Z) (name1 name2 : Z → option Z) : option bool :=
  u1 ← (if l1 =? l2 + 1 then c ← name1 0; Some (c =? 95) else Some false);
  u2 ← (if u1 then Some false
        else if l2 =? l1 + 1 then c ← name2 0; Some (c =? 95) else Some false);
  let (i1, l1) := if (u1 : bool) then (1, l1 - 1) else (0, l1) in
  let (i2, l2) := if (u2 : bool) then (1, l2 - 1) else (0, l2) in
  if negb (l1 =? l2) then Some false
  else equal_characters name1 name2 (Z.to_nat (l1 - i1)) i1 i2.

(** The length of a symbol's name, and where it is *)
Definition name_of_symbol (d : debug_information) (rec : Z) : option (option (Z * Z)) :=
  index ← header_Index d rec;
  match layout_of index with
  | Some l => n ← BYTE_at d (rec + NameLength l); Some (Some (n, rec + NameLength l + 1))
  | None => Some None
  end.

Definition equal_cv_names (d : debug_information) (rec l : Z) (name : Z → option Z) : option bool :=
  if rec =? 0 then Some false
  else
    r ← name_of_symbol d rec;
    match r with
    | Some (n, p) => equal_symbolic_names l n name (λ i, view d (p + i))
    | None => Some false
    end.

(** ** Line numbers

    An [sstSrcModule] subsection has a table of source files, each with a table of the
    segments to which it contributes code, each with pairs of an offset and a line.
    [sizeof(OFFSET_PAIR)] is 8. *)
Section lines.
Context (d : debug_information).

Definition source_table_base (subsection : Z) : option Z :=
  offset ← codeview_subsection_offset (Some d) subsection; Some (CVMAP d offset).

Definition file_table_base (base file : Z) : option Z :=
  o ← DWORD_at d (base + 4 + 4 * file); Some (u32 (base + o)).

Definition segment_table_base (base file_base segment : Z) : option Z :=
  o ← DWORD_at d (file_base + 4 + 4 * segment); Some (u32 (base + o)).

(** Whether the subsection has line numbers *)
Definition src_module (subsection : Z) : option () :=
  t ← codeview_subsection_type (Some d) subsection;
  if t =? SST_SRC_MODULE then Some () else None.

Definition per_source_table_info_from_debug_map (subsection : Z) : option Z :=
  base ← source_table_base subsection;
  src_module subsection;;
  WORD_at d base.

(** The number of segments, the length of the name and the name *)
Definition per_file_info_from_debug_map (subsection file : Z) : option (Z * Z * Z) :=
  base ← source_table_base subsection;
  src_module subsection;;
  file_base ← file_table_base base file;
  cSegFile ← WORD_at d file_base;
  let cbName := file_base + 4 + cSegFile * 4 + cSegFile * 8 in
  name_length ← BYTE_at d cbName;
  Some (cSegFile, name_length, cbName + 1).

(** The index of the segment and the number of pairs *)
Definition per_segment_info_from_debug_map (subsection file segment : Z) : option (Z * Z) :=
  base ← source_table_base subsection;
  src_module subsection;;
  file_base ← file_table_base base file;
  segment_base ← segment_table_base base file_base segment;
  seg_index ← WORD_at d segment_base;
  cPair ← WORD_at d (segment_base + 2);
  Some (seg_index, cPair).

Definition per_pair_info_from_debug_map (subsection file segment pair : Z) : option (Z * Z) :=
  base ← source_table_base subsection;
  src_module subsection;;
  file_base ← file_table_base base file;
  segment_base ← segment_table_base base file_base segment;
  cPair ← WORD_at d (segment_base + 2);
  offset ← DWORD_at d (segment_base + 4 + 4 * pair);
  linenumber ← WORD_at d (segment_base + 4 + cPair * 4 + 2 * pair);
  Some (offset, linenumber).
End lines.

(** Compares the wanted name with the part of a file's name after the last slash or
    backslash.  [name_length], [i] and [j] are [BYTE]s. *)
Definition leaf_start (this_filename : Z → option Z) : nat → Z → option Z :=
  fix go (n : nat) (i : Z) : option Z :=
    match n with
    | O => Some i
    | S n =>
        if 0 <? i then
          c ← this_filename (i - 1);
          if (c =? 47) || (c =? 92) then Some i else go n (i - 1)
        else Some i
    end.

Fixpoint match_leaf (fuel : nat) (wanted this_filename : Z → option Z) (name_length i j : Z) :
    option bool :=
  match fuel with
  | O => None
  | S n =>
      c ← wanted j;
      if c =? 0 then Some (i =? name_length)
      else if i =? name_length then Some false
      else
        b ← this_filename i;
        if negb (c =? b) then Some false
        else match_leaf n wanted this_filename name_length ((i + 1) mod 256) ((j + 1) mod 256)
  end.

(** 257 rounds are enough: [i] comes to [name_length]. *)
Definition file_names_match_in_debug_map (filename_wanted this_filename : Z → option Z)
    (name_length : Z) : option bool :=
  i ← leaf_start this_filename 256 ((name_length - 1) mod 256);
  match_leaf 257 filename_wanted this_filename name_length i 0.

Definition absolute_difference (x y : Z) : Z := if y <? x then x - y else y - x.

Definition is_closer_linenumber (this_one than_this_one to_this_one : Z) : bool :=
  absolute_difference this_one to_this_one <? absolute_difference than_this_one to_this_one.
