(* ===== verification/DebugMap.v ===== *)
(** * Searching the symbols of an image

    The functions of [debug_map.c] that go through the symbols of an image, and the table
    of symbols that they fill in ([symbol_lookup.c]).  The descriptor of a library
    remembers the last record that was asked for. *)

From S2P Require Import Prelude Effects CodeView.
From Stdlib Require Import ZArith Lia.
From stdpp Require Import base tactics option list numbers.

Local Open Scope Z_scope.

(** ** Tables of symbols

    A table is a list of segments of ten entries, of which the last is the one that is
    being filled. *)

Record lookup_entry := mkEntry { LookupType : Z; Pointer : Z; LanguageCode : Z }.
Definition lookup_table : Type := list (list lookup_entry).

Definition MAPPED_CODEVIEW_SYMBOL : Z := 1.
Definition LOOKUP_TABLE_SEGMENT_SIZE : nat := 10.

Definition new_lookup_table : lookup_table := [[]].

Definition add_lookup_table_entry (table : lookup_table) (lookup_type pointer lang : Z) : lookup_table :=
  let e := mkEntry lookup_type pointer lang in
  match list.last table with
  | Some segment =>
      if decide (length segment = LOOKUP_TABLE_SEGMENT_SIZE) then table ++ [[e]]
      else removelast table ++ [segment ++ [e]]
  | None => table
  end.

(** Indices begin with 1; an entry that was not filled in is not defined. *)
Definition find_entry (table : lookup_table) (index : Z) : option lookup_entry :=
  let i := Z.to_nat (u32 (index - 1)) in
  segment ← table !! (i / LOOKUP_TABLE_SEGMENT_SIZE)%nat;
  segment !! (i mod LOOKUP_TABLE_SEGMENT_SIZE)%nat.

Definition add_symbol (table : lookup_table) (sym lang : Z) : lookup_table :=
  add_lookup_table_entry table MAPPED_CODEVIEW_SYMBOL sym lang.

(** ** Symbols of a subsection *)

Record symbol_cache := mkCache { Subsection : Z; Symbol : Z; SymbolPointer : Z }.

Definition no_symbol : symbol_cache := mkCache 0 0 0.

Section scans.
Context (im : image).

Notation M := (St symbol_cache).
Notation info := (DebugMap im).

(** [n] records further *)
Fixpoint following_records (d : debug_information) (n : nat) (p : Z) : option Z :=
  match n with O => Some p | S n => q ← next_header d p; following_records d n q end.

Definition get_cv_sym_from_debug_map (subsection symbol : Z) : M Z :=
  c ← get_st;
  if (Subsection c =? subsection) && (Symbol c =? symbol) && negb (SymbolPointer c =? 0) then
    mret (SymbolPointer c)
  else if (Subsection c =? subsection) && (Symbol c <? symbol) && negb (SymbolPointer c =? 0) then
    d ← lift_st info;
    p ← lift_st (following_records d (Z.to_nat (symbol - Symbol c)) (SymbolPointer c));
    modify_st (λ _, mkCache subsection symbol p) ;;
    mret p
  else
    d ← lift_st info;
    lfo ← lift_st (codeview_subsection_offset info subsection);
    t ← lift_st (codeview_subsection_type info subsection);
    p ← lift_st (following_records d (Z.to_nat symbol) (u32 (CVMAP d lfo + size_of_subsection_prolog t)));
    modify_st (λ _, mkCache subsection symbol p) ;;
    mret p.

(** Counts records up to a size; a record has at least two bytes. *)
Fixpoint count_symbols (d : debug_information) (fuel : nat) (size total p n : Z) : option Z :=
  if total <? size then
    match fuel with
    | O => None
    | S fuel =>
        len ← header_Length d p;
        count_symbols d fuel size (u32 (total + (len + 2))) (u32 (p + (len + 2))) (n + 1)
    end
  else Some n.

(** [HASH_INFO_RECORD] has the size of the symbols at offset 4. *)
Definition last_symbol_in_subsection (subsection : Z) : option Z :=
  offset ← codeview_subsection_offset info subsection;
  t ← codeview_subsection_type info subsection;
  size ← codeview_subsection_size info subsection;
  d ← info;
  let map_pointer := CVMAP d offset in
  if one_of t [SST_SYMBOLS; SST_ALIGN_SYM; SST_PUBLIC_SYM] then
    count_symbols d (Z.to_nat size) size 0 (u32 (map_pointer + 4)) 0
  else if one_of t [SST_GLOBAL_SYM; SST_GLOBAL_PUB; SST_STATIC_SYM] then
    size ← DWORD_at d (map_pointer + 4);
    count_symbols d (Z.to_nat size) size 0 (u32 (map_pointer + 16)) 0
  else Some 0.

(** The loop over the symbols of a subsection, and that over the subsections of the types
    in [types] *)
Definition for_symbols {A R} (subsection : Z) (body : Z → A → M (R + A)) (a : A) : M (R + A) :=
  max_symbols ← lift_st (last_symbol_in_subsection subsection);
  for_loop (Z.to_nat max_symbols) 0 (λ this_symbol a,
    r ← get_cv_sym_from_debug_map subsection this_symbol; body r a) a.

Definition for_subsections {A R} (body : Z → Z → A → M (R + A)) (a : A) : M (R + A) :=
  max_subsections ← lift_st (number_of_codeview_subsections info);
  for_loop (Z.to_nat max_subsections) 0 (λ this_subsection a,
    t ← lift_st (codeview_subsection_type info this_subsection);
    body t this_subsection a) a.

(** A loop without an early exit *)
Definition done_with {A} (r : Empty_set + A) : A := match r with inl x => match x with end | inr a => a end.

(** ** All symbols *)

(** The table, and the number of symbols in it *)
Definition all_symbols_of (types : list Z) : M (lookup_table * Z) :=
  r ← for_subsections (R := Empty_set) (λ t this_subsection a,
    if one_of t types then
      for_symbols this_subsection (λ this_record (a : lookup_table * Z),
        if this_record =? 0 then mret (inr a)
        else
          d ← lift_st info;
          b ← lift_st (should_be_in_all_symbols_scan d this_record);
          mret (inr (if b : bool then (add_symbol a.1 this_record 0, a.2 + 1) else a))) a
    else mret (inr a)) (new_lookup_table, 0);
  mret (done_with r).

Definition static_symbols_from_debug_map : M (lookup_table * Z) :=
  all_symbols_of [SST_SYMBOLS; SST_ALIGN_SYM; SST_STATIC_SYM].

Definition global_symbols_from_debug_map : M (lookup_table * Z) :=
  all_symbols_of [SST_GLOBAL_SYM; SST_GLOBAL_PUB].

(** Looks at the types of the subsections and finds nothing *)
Definition exported_symbols_from_debug_map : M (lookup_table * Z) :=
  for_subsections (R := Empty_set) (λ _ _ (a : ()), mret (inr a)) () ;;
  mret (new_lookup_table, 0).

(** ** The symbol of an address *)

(** The closest symbol so far, its address and the language of the last compiler record,
    if there was one *)
Record closest := mkClosest { closest_symbol : Z; closest_symbol_address : Z; lang : option Z }.

Definition compiler_language (d : debug_information) (r : Z) : option (option Z) :=
  if r =? 0 then Some None
  else
    index ← header_Index d r;
    if index =? CV_S_COMPILE then l ← BYTE_at d (r + CV_COMPILE_FLAG_Flags1); Some (Some l)
    else Some None.

Definition update_language (l : option Z) (a : closest) : closest :=
  mkClosest (closest_symbol a) (closest_symbol_address a) (match l with Some x => Some x | None => lang a end).

Definition update_closest (IP r symbol_address : Z) (a : closest) : closest :=
  if (closest_symbol_address a <? symbol_address) && (symbol_address <=? IP) then
    mkClosest r symbol_address (lang a)
  else a.

(** A record that encloses the address ends the search. *)
Definition look_at_symbol (IP : Z) (enclosing : bool) (r : Z) (a : closest) : M (Z * option Z + closest) :=
  d ← lift_st info;
  l ← lift_st (compiler_language d r);
  let a := update_language l a in
  e ← lift_st (if enclosing then cv_sym_encloses_IP32 im r IP else Some false);
  if e : bool then mret (inl (r, lang a))
  else
    symbol_address ← lift_st (cv_symbol_address im 0 r);
    mret (inr (update_closest IP r symbol_address a)).

Definition PRIVATE_TYPES : list Z := [SST_SYMBOLS; SST_ALIGN_SYM; SST_GLOBAL_SYM; SST_STATIC_SYM].
Definition PUBLIC_TYPES : list Z := [SST_PUBLIC_SYM; SST_GLOBAL_PUB].

Definition IP32_to_cv_sym_from_debug_map (IP : Z) : M (Z * option Z) :=
  if decide (DebugType im = CODEVIEW_IMAGE) then
    r ← for_subsections (λ t this_subsection a,
      if one_of t PRIVATE_TYPES then for_symbols this_subsection (look_at_symbol IP true) a
      else if one_of t PUBLIC_TYPES then for_symbols this_subsection (look_at_symbol IP false) a
      else mret (inr a)) (mkClosest 0 0 None);
    match r with
    | inl r => mret r
    | inr a => mret (closest_symbol a, lang a)
    end
  else mret (0, None).

(** The answer of a search: [debug_start] and the others are offsets from 0 where the symbol
    is no function.  [None] is a value that was not assigned. *)
Record found_symbol := mkFound {
  actual_address : Z;
  is_function : bool;
  debug_start : Z;
  debug_end : Z;
  last_address : option Z;
  language : option Z
}.

(** What [NameCache] gets, and the length of the name: a name in the view, or the literal
    NAME_SEARCH_ERROR, with 40 for the length *)
Definition found_name (r : Z) : option (option (Z * Z)) := d ← info; name_of_symbol d r.

Definition closest_symbol_in_debug_map (address : Z) : M (option (found_symbol * option (Z * Z))) :=
  r ← IP32_to_cv_sym_from_debug_map address;
  let (nearest_symbol, byte_language) := r : Z * option Z in
  if nearest_symbol =? 0 then mret None
  else
    dword_address ← lift_st (cv_symbol_address im 0 nearest_symbol);
    offsets ← lift_st (cv_get_function_offsets im nearest_symbol);
    name ← lift_st (found_name nearest_symbol);
    mret (Some (match offsets with
      | Some (ds, de, e) =>
          mkFound dword_address true (u32 (dword_address + ds)) (u32 (dword_address + de))
            (Some (u32 (dword_address + e - 1))) byte_language
      | None => mkFound dword_address false 0 0 (Some 0) byte_language
      end, name)).

(** The answer about a symbol whose name matches; [last] is 1 for static symbols. *)
Definition symbol_found (last : Z) (lang : option Z) (r : Z) : option found_symbol :=
  sym_addr ← cv_symbol_address im 0 r;
  offsets ← cv_get_function_offsets im r;
  Some (match offsets with
    | Some (ds, de, e) =>
        mkFound sym_addr true (u32 (sym_addr + ds)) (u32 (sym_addr + de))
          (Some (u32 (sym_addr + e - last))) lang
    | None => mkFound sym_addr false sym_addr sym_addr None lang
    end).

Inductive symbol_classification := STATIC_SYMBOL | GLOBAL_SYMBOL | EXPORTED_SYMBOL.

(** One symbol; only the static ones tell the language. *)
Definition match_symbol (static : bool) (name_length : Z) (name : Z → option Z) (r : Z)
    (lang : option Z) : M (symbol_classification * found_symbol + option Z) :=
  d ← lift_st info;
  l ← lift_st (if static then compiler_language d r else Some None);
  let lang := match l with Some x => Some x | None => lang end in
  b ← lift_st (equal_cv_names d r name_length name);
  if b : bool then
    x ← lift_st (symbol_found (if static then 1 else 0) lang r);
    mret (inl (if static then STATIC_SYMBOL else GLOBAL_SYMBOL, x))
  else mret (inr lang).

Definition find_symbol_in_debug_map (name_length : Z) (name : Z → option Z) :
    M (option (symbol_classification * found_symbol)) :=
  r ← for_subsections (λ t this_subsection lang,
    if one_of t [SST_SYMBOLS; SST_ALIGN_SYM; SST_STATIC_SYM] then
      for_symbols this_subsection (match_symbol true name_length name) lang
    else if one_of t [SST_GLOBAL_SYM; SST_GLOBAL_PUB] then
      for_symbols this_subsection (match_symbol false name_length name) lang
    else mret (inr lang)) None;
  mret (match r with inl x => Some x | inr _ => None end).

(** ** The neighbours of a symbol *)

(** The closest symbols below and above: record, address and language *)
Record neighbours := mkNeighbours { previous_cv : option (Z * Z * Z); next_cv : option (Z * Z * Z) }.

Definition update_neighbours (nearest_address : Z) (r sym_address language : Z) (a : neighbours) : neighbours :=
  if sym_address <? nearest_address then
    match previous_cv a with
    | Some (_, previous_address, _) =>
        if previous_address <? sym_address then mkNeighbours (Some (r, sym_address, language)) (next_cv a) else a
    | None => mkNeighbours (Some (r, sym_address, language)) (next_cv a)
    end
  else if nearest_address <? sym_address then
    match next_cv a with
    | Some (_, next_address, _) =>
        if sym_address <? next_address then mkNeighbours (previous_cv a) (Some (r, sym_address, language)) else a
    | None => mkNeighbours (previous_cv a) (Some (r, sym_address, language))
    end
  else a.

(** [current_language] is a variable of the loop's body: each symbol begins with 0. *)
Definition look_for_neighbours (nearest_address r : Z) (a : neighbours) : M (Empty_set + neighbours) :=
  d ← lift_st info;
  current_language ← lift_st (compiler_language d r);
  sym_address ← lift_st (cv_symbol_address im 0 r);
  mret (inr (update_neighbours nearest_address r sym_address (default 0 current_language) a)).

Definition neighbours_of (nearest_address : Z) : M neighbours :=
  r ← for_subsections (λ t this_subsection a,
    if one_of t (PRIVATE_TYPES ++ PUBLIC_TYPES) then
      for_symbols this_subsection (look_for_neighbours nearest_address) a
    else mret (inr a)) (mkNeighbours None None);
  mret (done_with r).

Definition record_of (x : option (Z * Z * Z)) : Z := match x with Some (r, _, _) => r | None => 0 end.
Definition language_of (x : option (Z * Z * Z)) : Z := match x with Some (_, _, l) => l | None => 0 end.

Definition nearest_symbols_in_debug_map (IP : Z) : M lookup_table :=
  r ← IP32_to_cv_sym_from_debug_map IP;
  let (nearest_cv, lang_nearest) := r : Z * option Z in
  nearest_address ← lift_st (cv_symbol_address im 0 nearest_cv);
  a ← neighbours_of nearest_address;
  let table := add_symbol new_lookup_table nearest_cv (default 0 lang_nearest) in
  let table := add_symbol table (record_of (previous_cv a)) (language_of (previous_cv a)) in
  mret (add_symbol table (record_of (next_cv a)) (language_of (next_cv a))).

(** The address of the symbol, and that of the next one *)
Definition function_bounding_addresses_in_debug_map (IP : Z) : M (Z * Z) :=
  r ← IP32_to_cv_sym_from_debug_map IP;
  let (nearest_cv, _) := r : Z * option Z in
  if nearest_cv =? 0 then mret (IP, IP)
  else
    nearest_address ← lift_st (cv_symbol_address im 0 nearest_cv);
    a ← neighbours_of nearest_address;
    mret (nearest_address, match next_cv a with Some (_, next_address, _) => next_address | None => IP end).

(** ** Lexical variables *)

Definition OPENS_SCOPE : list Z :=
  [CV_S_LPROC32; CV_S_LPROC32_NEW; CV_S_GPROC32; CV_S_GPROC32_NEW; CV_S_BLOCK32].
Definition LEXICALS : list Z :=
  [CV_S_BPREL16; CV_S_BPREL32; CV_S_BPREL32_NEW; CV_S_REGISTER; CV_S_REGISTER_NEW].

(** Skips the records up to the end of a scope. *)
Fixpoint skip_scope (d : debug_information) (fuel : nat) (temp_level p : Z) : option Z :=
  match fuel with
  | O => None
  | S fuel =>
      index ← header_Index d p; q ← next_header d p;
      if one_of index OPENS_SCOPE then skip_scope d fuel (temp_level + 1) q
      else if index =? CV_S_END then
        if 0 <? temp_level then skip_scope d fuel (temp_level - 1) q else Some q
      else skip_scope d fuel temp_level q
  end.

(** The loop over the records of a scope; the loop inside may use as much fuel. *)
Fixpoint pull_lexicals (d : debug_information) (IP : Z) (fuel : nat) (level p : Z)
    (table : lookup_table) (counter : Z) : option (lookup_table * Z) :=
  match fuel with
  | O => None
  | S fuel =>
      index ← header_Index d p;
      if index =? CV_S_END then
        if 0 <? level then q ← next_header d p; pull_lexicals d IP fuel (level - 1) q table counter
        else Some (table, counter)
      else
        q ← next_header d p;
        if one_of index LEXICALS then
          pull_lexicals d IP fuel level q (add_symbol table p 0) (counter + 1)
        else if one_of index OPENS_SCOPE then
          e ← cv_sym_encloses_IP32 im p IP;
          if e : bool then pull_lexicals d IP fuel (level + 1) q table counter
          else q ← skip_scope d fuel 0 q; pull_lexicals d IP fuel level q table counter
        else pull_lexicals d IP fuel level q table counter
  end.

Definition pull_lexicals_within_scope (fuel : nat) (scope_start : Z) (table : lookup_table) (IP : Z) :
    option (lookup_table * Z) :=
  if scope_start =? 0 then Some (table, 0)
  else
    d ← info;
    index ← header_Index d scope_start;
    if one_of index [CV_S_GPROC32; CV_S_GPROC32_NEW; CV_S_LPROC32; CV_S_LPROC32_NEW; CV_S_GPROC16; CV_S_LPROC16]
    then q ← next_header d scope_start; pull_lexicals d IP fuel 0 q table 0
    else Some (table, 0).

(** The table and the number of variables *)
Definition all_lexicals_from_debug_map (fuel : nat) (IP : Z) : M (lookup_table * Z) :=
  r ← IP32_to_cv_sym_from_debug_map IP;
  lift_st (pull_lexicals_within_scope fuel r.1 new_lookup_table IP).
End scans.

(** ** What the entries of a table say

    [symbol_address_from_debug_map] and its siblings get a table, for its library, and an
    entry.  The segment is 0 where the kind has no case. *)
Section entries.
Context (im : image).
Notation info := (DebugMap im).

(** The address of the segment and the offset *)
Definition symbol_place (sym : lookup_entry) (extra : proc_fields → option field) : option (option (Z * Z)) :=
  let header := Pointer sym in
  if header =? 0 then Some None
  else
    d ← info;
    index ← header_Index d header;
    match layout_of index with
    | None => Some None
    | Some l =>
        segment ← read_field d header (Segment l);
        offset ← read_field d header (Offset l);
        more ← match proc l ≫= extra with Some f => read_field d header f | None => Some 0 end;
        if segment =? 0 then Some None
        else
          rva ← section_address d segment;
          Some (Some (u32 (ImageBase im + rva), u32 (offset + more)))
    end.

Definition symbol_address_from_debug_map (sym : lookup_entry) : option Z :=
  r ← symbol_place sym (λ _, None);
  Some (match r with Some (segment_rva, offset) => u32 (segment_rva + offset) | None => 0 end).

Definition function_debug_start_from_debug_map (sym : lookup_entry) : option Z :=
  r ← symbol_place sym (λ f, Some (DebugStart f));
  Some (match r with Some (segment_rva, offset) => u32 (segment_rva + offset) | None => 0 end).

Definition function_debug_end_from_debug_map (sym : lookup_entry) : option Z :=
  r ← symbol_place sym (λ f, Some (DebugEnd f));
  Some (match r with Some (segment_rva, offset) => u32 (segment_rva + offset) | None => 0 end).

Definition function_end_from_debug_map (sym : lookup_entry) : option Z :=
  r ← symbol_place sym (λ f, Some (ProcLength f));
  Some (match r with Some (segment_rva, offset) => u32 (segment_rva + offset - 1) | None => 0 end).

Definition symbol_is_function_from_debug_map (sym : lookup_entry) : option Z :=
  if Pointer sym =? 0 then Some 0
  else
    d ← info;
    index ← header_Index d (Pointer sym);
    Some (match layout_of index ≫= proc with Some _ => 1 | None => 0 end).

(** The length of the name and where it is; 0 where the kind has no case *)
Definition symbol_name_length_from_debug_map (sym : lookup_entry) : option Z :=
  if Pointer sym =? 0 then Some 0
  else
    d ← info;
    r ← name_of_symbol d (Pointer sym);
    Some (match r with Some (n, _) => n | None => 0 end).

Definition lexical_name (d : debug_information) (p : Z) : option (option (Z * Z)) :=
  index ← header_Index d p;
  match lexical_layout_of index with
  | Some (_, o) => n ← BYTE_at d (p + o); Some (Some (n, p + o + 1))
  | None => Some None
  end.

Definition lexical_name_length_from_debug_map (sym : lookup_entry) : option Z :=
  if Pointer sym =? 0 then Some 0
  else
    d ← info;
    r ← lexical_name d (Pointer sym);
    Some (match r with Some (n, _) => n | None => 0 end).

(** Copies a name into a buffer, and ends it with a null byte if there is room. *)
Definition copy_record_name (d : debug_information) (n p : Z) (buf : list Z) : option (list Z) :=
  let i := Nat.min (length buf) (Z.to_nat n) in
  name ← mapM (λ k, view d (p + k)) (seqZ 0 i);
  let buf := list_inserts 0 name buf in
  Some (if (i <? length buf)%nat then <[i := 0]> buf else buf).

Definition copy_found (d : debug_information) (r : option (Z * Z)) (buf : list Z) : option (list Z) :=
  match r with Some (n, p) => copy_record_name d n p buf | None => Some buf end.

(** [buf] has [buf_size] bytes, one at least. *)
Definition name_from_debug_map (name_of : debug_information → Z → option (option (Z * Z)))
    (sym : lookup_entry) (buf : list Z) : option (list Z) :=
  match buf with
  | [] => None
  | _ :: rest =>
      let buf := 0 :: rest in
      if Pointer sym =? 0 then Some buf
      else d ← info; r ← name_of d (Pointer sym); copy_found d r buf
  end.

Definition symbol_name_from_debug_map := name_from_debug_map name_of_symbol.
Definition lexical_name_from_debug_map := name_from_debug_map lexical_name.

(** The offset, or the number of a register in CodeView's numbering *)
Definition lexical_address_from_debug_map (sym : lookup_entry) : option (Z + Z) :=
  if Pointer sym =? 0 then Some (inl 0)
  else
    d ← info;
    index ← header_Index d (Pointer sym);
    match lexical_layout_of index with
    | Some (f, _) =>
        x ← read_field d (Pointer sym) f;
        Some (if one_of index [CV_S_REGISTER; CV_S_REGISTER_NEW] then inr x else inl x)
    | None => Some (inl 0)
    end.
End entries.
