(* ===== verification/SourceLocations.v ===== *)
(** * Lines of source and addresses

    The tables of source locations ([debug_map.c], [source_location_info.c]): the lines of
    a range of addresses, and the address of a line. *)

From S2P Require Import Prelude Effects CodeView.
From Stdlib Require Import ZArith Lia.
From stdpp Require Import base tactics option list numbers.

Local Open Scope Z_scope.

(** Loops that change nothing *)
Notation R := (St ()).

Section lines.
Context (im : image).
Notation info := (DebugMap im).

(** [module->ImageInformation.ImageBase + info->Sections[segment_index - 1].VirtualAddress] *)
Definition segment_base (segment_index : Z) : option Z :=
  d ← info; rva ← section_address d segment_index; Some (u32 (ImageBase im + rva)).

(** The loops over the source modules of an image, the files of one and the segments of a
    file; the first result ends them. *)
Definition for_files {A X} (body : Z → Z → Z → Z → Z → A → R (X + A)) (a : A) : R (X + A) :=
  max_subsections ← lift_st (number_of_codeview_subsections info);
  for_loop (Z.to_nat max_subsections) 0 (λ this_subsection a,
    t ← lift_st (codeview_subsection_type info this_subsection);
    if t =? SST_SRC_MODULE then
      d ← lift_st info;
      num_files ← lift_st (per_source_table_info_from_debug_map d this_subsection);
      for_loop (Z.to_nat num_files) 0 (λ file a,
        f ← lift_st (per_file_info_from_debug_map d this_subsection file);
        body this_subsection file f.1.1 f.1.2 f.2 a) a
    else mret (inr a)) a.

(** ** The lines of a range *)

Record source_locations := mkLocations {
  BaseAddress : Z;
  SegmentIndex : Z;
  SegmentAddress : Z;
  FilenameLength : Z;
  Filename : Z;
  Locations : list (Z * Z)     (* offsets and line numbers *)
}.

Definition MAX_SOURCE_LOCATIONS : nat := 500.

(** The loop over the pairs of the segment, which ends when the table is full *)
Fixpoint collect_locations (d : debug_information) (start end_ base subsection file segment : Z)
    (n : nat) (pair : Z) (l : list (Z * Z)) : option (list (Z * Z)) :=
  match n with
  | O => Some l
  | S n =>
      r ← per_pair_info_from_debug_map d subsection file segment pair;
      let a := u32 (base + r.1) in
      if (start <=? a) && (a <? end_) then
        let l := l ++ [(u32 (a - start), r.2)] in
        if (MAX_SOURCE_LOCATIONS <=? length l)%nat then Some l
        else collect_locations d start end_ base subsection file segment n (pair + 1) l
      else collect_locations d start end_ base subsection file segment n (pair + 1) l
  end.

(** A table without entries is none. *)
Definition unless_empty (t : source_locations) : option source_locations :=
  match Locations t with [] => None | _ => Some t end.

(** The first segment that has the range in it, or lies in the range, is the one.  With
    no pairs, the last one has the number 65535. *)
Definition locations_of_segment (start end_ subsection file name_length name segment : Z) :
    R (option source_locations + ()) :=
  d ← lift_st info;
  s ← lift_st (per_segment_info_from_debug_map d subsection file segment);
  let (segment_index, num_pairs) := s : Z * Z in
  base ← lift_st (segment_base segment_index);
  first ← lift_st (per_pair_info_from_debug_map d subsection file segment 0);
  last ← lift_st (per_pair_info_from_debug_map d subsection file segment ((num_pairs - 1) mod 65536));
  let first_address := u32 (base + first.1) in
  let last_address := u32 (base + last.1) in
  if ((first_address <=? start) && (end_ <=? last_address)) || ((start <=? first_address) && (last_address <=? end_))
  then
    l ← lift_st (collect_locations d start end_ base subsection file segment (Z.to_nat num_pairs) 0 []);
    mret (inl (unless_empty (mkLocations start segment_index base name_length name l)))
  else mret (inr ()).

Definition source_locations_from_debug_map (start end_ : Z) : R (option source_locations) :=
  r ← for_files (λ subsection file num_segments name_length name a,
    for_loop (Z.to_nat num_segments) 0 (λ segment _,
      locations_of_segment start end_ subsection file name_length name segment) a) ();
  mret (match r with inl x => x | inr _ => None end).

(** ** The address of a line *)

(** The pair whose line is closest so far: offset, line and index of its segment *)
Record closest_line := mkClosestLine { line_offset : Z; line_number : Z; line_segment : Z }.

(** One pair *)
Definition look_at_pair (subsection file segment base segment_index line pair : Z) (a : closest_line) :
    R (Z * bool + closest_line) :=
  d ← lift_st info;
  r ← lift_st (per_pair_info_from_debug_map d subsection file segment pair);
  let (offset, linenumber) := r : Z * Z in
  if linenumber =? line then mret (inl (u32 (base + offset), true))
  else if is_closer_linenumber linenumber (line_number a) line then
    mret (inr (mkClosestLine offset linenumber segment_index))
  else mret (inr a).

(** The information about the segment is that of segment 0, whichever it is. *)
Definition look_at_segment (subsection file line segment : Z) (a : closest_line) :
    R (Z * bool + closest_line) :=
  d ← lift_st info;
  s ← lift_st (per_segment_info_from_debug_map d subsection file 0);
  let (segment_index, num_pairs) := s : Z * Z in
  base ← lift_st (segment_base segment_index);
  for_loop (Z.to_nat num_pairs) 0 (look_at_pair subsection file segment base segment_index line) a.

Definition look_at_file (filename : Z → option Z) (line subsection file num_segments name_length name : Z) :
    R (Z * bool + ()) :=
  d ← lift_st info;
  b ← lift_st (file_names_match_in_debug_map filename (λ i, view d (name + i)) name_length);
  if b : bool then
    s ← lift_st (per_segment_info_from_debug_map d subsection file 0);
    p ← lift_st (per_pair_info_from_debug_map d subsection file 0 0);
    r ← for_loop (Z.to_nat num_segments) 0 (look_at_segment subsection file line)
          (mkClosestLine p.1 p.2 s.1);
    match r with
    | inl x => mret (inl x)
    | inr a =>
        base ← lift_st (segment_base (line_segment a));
        mret (inl (u32 (base + line_offset a), false))
    end
  else mret (inr ()).

(** The address and whether it is exact *)
Definition resolve_source_location_in_debug_map (filename : Z → option Z) (line : Z) : R (option (Z * bool)) :=
  match info with
  | None => mret None
  | Some _ =>
      r ← for_files (λ subsection file num_segments name_length name a,
        look_at_file filename line subsection file num_segments name_length name) ();
      mret (match r with inl x => Some x | inr _ => None end)
  end.
End lines.

(** ** The functions of the interface about a table *)

Section tables.
Context (locations : option source_locations).

Definition nub_source_location_address (i : Z) : option Z :=
  match locations with
  | None => Some 0
  | Some t => r ← Locations t !! Z.to_nat i; Some r.1
  end.

Definition nub_source_location_linenumber (i : Z) : option Z :=
  match locations with
  | None => Some 0
  | Some t => r ← Locations t !! Z.to_nat i; Some r.2
  end.

Definition nub_source_location_filename_length : Z :=
  match locations with None => 0 | Some t => FilenameLength t end.

Definition nub_number_of_source_locations : Z :=
  match locations with None => 0 | Some t => Z.of_nat (length (Locations t)) end.

(** The name is copied up to a null byte, which it does not have. *)
Fixpoint copy_filename (d : debug_information) (fuel : nat) (p : Z) (i : nat) (buf : list Z) : option (list Z) :=
  match fuel with
  | O => None
  | S fuel =>
      c ← view d (p + Z.of_nat i);
      if negb (c =? 0) && (i <? length buf)%nat then copy_filename d fuel p (S i) (<[i := c]> buf)
      else Some (if (i <? length buf)%nat then <[i := 0]> buf else buf)
  end.

Definition nub_source_location_filename (d : debug_information) (buf : list Z) : option (list Z) :=
  match locations with
  | None => Some buf
  | Some t => copy_filename d (S (length buf)) (Filename t) 0 buf
  end.
End tables.
