(* ===== verification/CodeViewExample.v ===== *)
(** * A small image

    CodeView information of one object file, for the examples: two functions, of which
    the first has a block with a variable of its own, and the lines of the first. *)

From S2P Require Import Prelude Effects CodeView DebugMap SourceLocations.
From Stdlib Require Import ZArith Lia.
From stdpp Require Import base tactics option list numbers.

Local Open Scope Z_scope.

Definition w16 (x : Z) : list Z := [x mod 256; x / 256].
Definition w32 (x : Z) : list Z := w16 (x mod 65536) ++ w16 (x / 65536).
Definition name (l : list Z) : list Z := Z.of_nat (length l) :: l.

(** A record, with the length that it begins with *)
Definition cv_record (index : Z) (l : list Z) : list Z := w16 (Z.of_nat (length l) + 2) ++ w16 index ++ l.

Definition compile_record (language : Z) : list Z := cv_record CV_S_COMPILE ([6; 0; language; 0] ++ name []).
Definition gproc32 (offset length_ : Z) (l : list Z) : list Z :=
  cv_record CV_S_GPROC32 (w32 0 ++ w32 0 ++ w32 0 ++ w32 length_ ++ w32 3 ++ w32 (length_ - 2) ++
    w32 offset ++ w16 1 ++ w16 0 ++ [0] ++ name l).
Definition block32 (offset length_ : Z) : list Z :=
  cv_record CV_S_BLOCK32 (w32 0 ++ w32 0 ++ w32 length_ ++ w32 offset ++ w16 1 ++ name []).
Definition bprel32 (offset : Z) (l : list Z) : list Z := cv_record CV_S_BPREL32 (w32 offset ++ w16 0 ++ name l).
Definition ldata32 (offset : Z) (l : list Z) : list Z :=
  cv_record CV_S_LDATA32 (w32 offset ++ w16 1 ++ w16 0 ++ name l).
Definition end_record : list Z := cv_record CV_S_END [].

(** Functions f (with x, and y in a block) and gg, and data d; a compiler record *)
Definition example_records : list (list Z) :=
  [compile_record 9; gproc32 16 32 [102]; bprel32 8 [120]; block32 24 8; bprel32 4294967292 [121];
   end_record; end_record; gproc32 48 16 [103; 103]; end_record; ldata32 80 [100]].

Definition symbols_subsection : list Z := w32 1 ++ concat example_records.

(** One file, a.c, with one segment: lines 10, 12 and 11 at offsets 16, 20 and 24 *)
Definition example_pairs : list (Z * Z) := [(16, 10); (20, 12); (24, 11)].

Definition line_subsection : list Z :=
  w16 1 ++ w16 1 ++ w32 18 ++ (w32 0 ++ w32 0) ++ w16 1 ++
  (w16 1 ++ w16 0 ++ w32 38 ++ (w32 0 ++ w32 0) ++ name [97; 46; 99]) ++
  (w16 1 ++ w16 3 ++ concat (w32 ∘ fst <$> example_pairs) ++ concat (w16 ∘ snd <$> example_pairs)).

(** The same file with two segments: line 10 at offset 16 of section 1, line 50 at offset 40 of
    section 2 *)
Definition two_segments : list Z :=
  w16 1 ++ w16 2 ++ w32 28 ++ (w32 0 ++ w32 0 ++ w32 0 ++ w32 0) ++ (w16 1 ++ w16 2) ++
  (w16 2 ++ w16 0 ++ (w32 60 ++ w32 70) ++ (w32 0 ++ w32 0 ++ w32 0 ++ w32 0) ++ name [97; 46; 99]) ++
  (w16 1 ++ w16 1 ++ w32 16 ++ w16 10) ++ (w16 2 ++ w16 1 ++ w32 40 ++ w16 50).

Definition symbols_offset : Z := 48.
Definition lines_offset : Z := symbols_offset + Z.of_nat (length symbols_subsection).

Definition bytes_with (lines : list Z) : list Z :=
  [78; 66; 48; 57] ++ w32 8 ++
  (w16 16 ++ w16 12 ++ w32 2 ++ w32 0 ++ w32 0) ++
  (w16 SST_ALIGN_SYM ++ w16 1 ++ w32 symbols_offset ++ w32 (Z.of_nat (length symbols_subsection))) ++
  (w16 SST_SRC_MODULE ++ w16 1 ++ w32 lines_offset ++ w32 (Z.of_nat (length lines))) ++
  symbols_subsection ++ lines.

(** The view begins at 4096; the sections are at 8192 and 16384. *)
Definition map_with (lines : list Z) : debug_information :=
  let bytes := bytes_with lines in
  mkDebugInformation (λ p, if 4096 <=? p then bytes !! Z.to_nat (p - 4096) else None)
    4096 (Z.of_nat (length bytes)) 0 [8192; 16384].

Definition image_with (lines : list Z) : image := mkImage 1048576 (Some (map_with lines)) CODEVIEW_IMAGE.
Definition example_map : debug_information := map_with line_subsection.
Definition example_image : image := image_with line_subsection.

(** The code of f begins here. *)
Definition f_address : Z := 1048576 + 8192 + 16.

Definition a_c (i : Z) : option Z := [97; 46; 99; 0] !! Z.to_nat i.

Example example_counts :
  (codeview_present_in_image (Some example_map), number_of_codeview_subsections (Some example_map),
   codeview_subsection_type (Some example_map) 1) = (Some true, Some 2, Some SST_SRC_MODULE).
Proof. vm_compute. reflexivity. Qed.

(** The count of symbols goes on past the end of the subsection: its size has the four bytes of
    the signature in it. *)
Example count_goes_past_the_end : length example_records = 10%nat ∧
  last_symbol_in_subsection example_image 0 = Some 12.
Proof. split; vm_compute; reflexivity. Qed.

Example symbol_of_address :
  fst <$> closest_symbol_in_debug_map example_image (f_address + 10) no_symbol =
    Some (Some (mkFound f_address true (f_address + 3) (f_address + 30) (Some (f_address + 31)) (Some 9),
                Some (1, 4195))).
Proof. vm_compute. reflexivity. Qed.
