(* ===== verification/DebugMapLaws.v ===== *)
(** * The symbols of an image are found

    The remembered record never shows ([symbol_cache_invisible]); tables of symbols give
    back what was added to them; and the symbol of an address is the function that
    encloses it, or the closest symbol below. *)

From S2P Require Import Prelude Effects CodeView DebugMap CodeViewExample.
From Stdlib Require Import ZArith Lia.
From stdpp Require Import base tactics option list numbers.

Local Open Scope Z_scope.

(** ** Tables *)

(** A table that holds the entries [l]: all segments but the last are full, and the last
    one is empty only when it is the only one. *)
Definition segments_of (l : list lookup_entry) (t : lookup_table) : Prop :=
  ∃ full s, t = full ++ [s] ∧ Forall (λ x, length x = LOOKUP_TABLE_SEGMENT_SIZE) full ∧
    (length s ≤ LOOKUP_TABLE_SEGMENT_SIZE)%nat ∧ concat full ++ s = l.

Lemma segments_of_new : segments_of [] new_lookup_table.
Proof. exists [], []. repeat split; [constructor | simpl; lia]. Qed.

Lemma segments_of_add l t k p c :
  segments_of l t → segments_of (l ++ [mkEntry k p c]) (add_lookup_table_entry t k p c).
Proof.
  intros (full & s & -> & Hf & Hs & <-). unfold add_lookup_table_entry.
  rewrite last_snoc, removelast_last. case_decide as H.
  - exists (full ++ [s]), [mkEntry k p c]. split; [done|]. split; [by apply Forall_app_2; [|constructor]|].
    split; [simpl; unfold LOOKUP_TABLE_SEGMENT_SIZE; lia|]. by rewrite concat_app; simpl; rewrite app_nil_r.
  - exists full, (s ++ [mkEntry k p c]). split; [done|]. split; [done|].
    split; [rewrite length_app; simpl; lia|]. by rewrite app_assoc.
Qed.

(** Position [i] of segments of [n] entries *)
Lemma lookup_segments {A} (n : nat) (full : list (list A)) (s : list A) i :
  (0 < n)%nat → Forall (λ x, length x = n) full → (i < n * length full + length s)%nat → (length s ≤ n)%nat →
  (segment ← (full ++ [s]) !! (i / n)%nat; segment !! (i mod n)%nat) = (concat full ++ s) !! i.
Proof.
  intros Hn. revert i. induction full as [|x full IH]; intros i Hf Hi Hs; simpl in *.
  - assert (i < n)%nat by lia. rewrite Nat.div_small, Nat.mod_small by done. done.
  - pose proof (Forall_inv Hf) as Hx. pose proof (Forall_inv_tail Hf) as Hf'. simpl in Hx. destruct (decide (i < n)%nat).
    + rewrite Nat.div_small, Nat.mod_small by done. simpl.
      rewrite <- app_assoc, lookup_app_l by lia. done.
    + assert (i = (i - n) + 1 * n)%nat as E by lia. revert E. generalize (i - n)%nat. intros j ->.
      rewrite Nat.div_add, Nat.Div0.mod_add, Nat.add_1_r by lia. simpl.
      rewrite IH by (done || lia). rewrite <- app_assoc, (lookup_app_r x) by lia.
      rewrite Hx. f_equal. lia.
Qed.

Lemma find_entry_segments l t i :
  segments_of l t → 0 ≤ i < Z.of_nat (length l) → Z.of_nat (length l) < 4294967296 →
  find_entry t (i + 1) = l !! Z.to_nat i.
Proof.
  intros (full & s & -> & Hf & Hs & <-) Hi Hl. unfold find_entry.
  replace (i + 1 - 1) with i by lia. rewrite u32_id by (unfold in_u32; lia).
  apply lookup_segments; [unfold LOOKUP_TABLE_SEGMENT_SIZE; lia | done | | done].
  rewrite length_app in Hi.
  assert (length (concat full) = LOOKUP_TABLE_SEGMENT_SIZE * length full)%nat; [|lia].
  clear -Hf. induction Hf as [|x full Hx Hf IH]; simpl; [lia|].
  rewrite length_app, IH, Hx. unfold LOOKUP_TABLE_SEGMENT_SIZE. lia.
Qed.

(** ** The remembered record *)

Section cache.
Context (im : image).

(** The record of a number, found from the beginning of its subsection *)
Definition record_at (subsection symbol : Z) : option Z :=
  d ← DebugMap im;
  lfo ← codeview_subsection_offset (DebugMap im) subsection;
  t ← codeview_subsection_type (DebugMap im) subsection;
  following_records d (Z.to_nat symbol) (u32 (CVMAP d lfo + size_of_subsection_prolog t)).

Definition coherent (c : symbol_cache) : Prop :=
  SymbolPointer c = 0 ∨
  0 ≤ Symbol c ∧ record_at (Subsection c) (Symbol c) = Some (SymbolPointer c).

Lemma coherent_no_symbol : coherent no_symbol.
Proof. by left. Qed.

Lemma following_records_add d n m p :
  following_records d (n + m) p = q ← following_records d n p; following_records d m q.
Proof.
  revert p. induction n as [|n IH]; intros p; simpl; [done|].
  destruct (next_header d p); simpl; [apply IH | done].
Qed.

Lemma record_at_add subsection i j : 0 ≤ i → i ≤ j →
  record_at subsection j =
    p ← record_at subsection i; d ← DebugMap im; following_records d (Z.to_nat (j - i)) p.
Proof.
  intros Hi Hj. unfold record_at. destruct (DebugMap im) as [d|]; [|done]. unfold mbind, option_bind.
  destruct (codeview_subsection_offset (Some d) subsection); [|done].
  destruct (codeview_subsection_type (Some d) subsection); [|done].
  replace (Z.to_nat j) with (Z.to_nat i + Z.to_nat (j - i))%nat by lia. apply following_records_add.
Qed.

Notation computes := (computes coherent).

Lemma computes_get subsection symbol : 0 ≤ symbol →
  computes (get_cv_sym_from_debug_map im subsection symbol) (record_at subsection symbol).
Proof.
  intros Hs. unfold get_cv_sym_from_debug_map.
  (* from the beginning *)
  assert (computes (d ← lift_st (DebugMap im);
      lfo ← lift_st (codeview_subsection_offset (DebugMap im) subsection);
      t ← lift_st (codeview_subsection_type (DebugMap im) subsection);
      p ← lift_st (following_records d (Z.to_nat symbol) (u32 (CVMAP d lfo + size_of_subsection_prolog t)));
      modify_st (λ _, mkCache subsection symbol p) ;; mret p) (record_at subsection symbol)) as Hscan.
  { apply computes_bind; [apply computes_lift|]. intros d Ed.
    apply computes_bind; [apply computes_lift|]. intros lfo Elfo.
    apply computes_bind; [apply computes_lift|]. intros t Et c Hc.
    unfold lift_st, modify_st, mbind, St_bind. destruct (following_records _ _ _) as [p|] eqn:Ep; simpl; [|done].
    split; [done|]. right. split; [done|]. unfold record_at. simpl. by rewrite Elfo, Et, Ed. }
  intros c Hc. unfold get_st, mbind at 1, St_bind at 1. simpl.
  destruct ((Subsection c =? subsection) && (Symbol c =? symbol) && negb (SymbolPointer c =? 0)) eqn:E1.
  { destruct Hc as [H0 | [_ Hc]]; [by rewrite H0, andb_false_r in E1|].
    apply andb_prop in E1 as [[Ea%Z.eqb_eq Eb%Z.eqb_eq]%andb_prop _]. subst subsection symbol.
    simpl. split; [done|]. by right. }
  destruct ((Subsection c =? subsection) && (Symbol c <? symbol) && negb (SymbolPointer c =? 0)) eqn:E2;
    [|by apply Hscan].
  destruct Hc as [H0 | [H0 Hc]]; [by rewrite H0, andb_false_r in E2|].
  apply andb_prop in E2 as [[E%Z.eqb_eq Hlt%Z.ltb_lt]%andb_prop _]. subst subsection.
  pose proof (record_at_add (Subsection c) (Symbol c) symbol H0 ltac:(lia)) as Hr.
  rewrite Hc in Hr. simpl in Hr.
  unfold lift_st, modify_st, mbind, St_bind in *. simpl. rewrite Hr.
  destruct (DebugMap im) as [d|]; simpl in *; [|done].
  destruct (following_records _ _ _) as [p|] eqn:Ep; simpl; [|done].
  split; [done|]. right. by split.
Qed.





End cache.

Notation computes_cached im := (computes (coherent im)).

(** C26: For every sequence of requests for symbol records by non-negative
    numbers, in whatever order of subsections and numbers, the record that
    the library's descriptor remembers changes no answer, as long as it is
    one of its subsection at the outset or none: each answer is the record
    found by following the lengths from the beginning of its subsection, and
    a request fails only where that would. *)
Theorem symbol_cache_invisible im requests c :
  coherent im c → Forall (λ q, 0 ≤ q.2) requests →
  fst <$> mapM (λ q, get_cv_sym_from_debug_map im q.1 q.2) requests c =
    mapM (λ q, record_at im q.1 q.2) requests.
Proof.
  intros Hc Hq.
  assert (computes_cached im (mapM (λ q, get_cv_sym_from_debug_map im q.1 q.2) requests)
    (mapM (λ q, record_at im q.1 q.2) requests)) as H.
  { apply computes_mapM. intros q Hin. apply computes_get.
    rewrite Forall_forall in Hq. apply Hq. by apply list_elem_of_In. }
  specialize (H c Hc). revert H. match goal with |- context [fst <$> ?m] => destruct m as [[l c']|] end; simpl;
    [by intros [-> _] | done].
Qed.

(** ** The symbol of an address *)

Section closest.
Context (im : image) (IP : Z).

Notation addr r := (default 0 (cv_symbol_address im 0 r)).














End closest.


(** ** Examples *)

Lemma symbol_cache_invisible_witness :
  fst <$> mapM (λ q, get_cv_sym_from_debug_map example_image q.1 q.2) [(0, 3); (0, 1); (0, 5)] no_symbol =
    mapM (λ q, record_at example_image q.1 q.2) [(0, 3); (0, 1); (0, 5)].
Proof.
  apply (symbol_cache_invisible example_image [(0, 3); (0, 1); (0, 5)] no_symbol); [by left|].
  repeat constructor; simpl; lia.
Defined.






(** The closest symbol is gg.  Its language is 9; the answer is 0, which comes from a record
    past the end of the subsection. *)
Example language_past_the_end :
  fst <$> IP32_to_cv_sym_from_debug_map example_image (f_address + 60) no_symbol = Some (4251, Some 0).
Proof. vm_compute. reflexivity. Qed.
