(* ===== verification/LexicalLaws.v ===== *)
(** * The variables of a frame

    The records of a function nest: a block or an inner function begins a scope, which
    ends with a record of its own.  The lexical variables found for an address are those
    of the scopes that have the address in them. *)

From S2P Require Import Prelude Effects CodeView DebugMap DebugMapLaws CodeViewExample.
From Stdlib Require Import ZArith Lia.
From stdpp Require Import base tactics option list numbers.

Local Open Scope Z_scope.

(** Records, by their addresses; a scope has a record that opens it and one that ends it. *)
Inductive item := Lexical (p : Z) | Plain (p : Z) | Nested (p : Z) (items : list item) (e : Z).

Section items.
Context (im : image) (d : debug_information) (IP : Z).

Definition kind (p : Z) (P : Z → Prop) : Prop := ∃ index, header_Index d p = Some index ∧ P index.

(** [laid x p q]: the records of [x] begin at [p], and end where [q] is. *)
Fixpoint laid (x : item) (p q : Z) : Prop :=
  match x with
  | Lexical v => v = p ∧ kind p (λ k, k ∈ LEXICALS) ∧ next_header d p = Some q
  | Plain o => o = p ∧ kind p (λ k, k ∉ LEXICALS ∧ k ∉ OPENS_SCOPE ∧ k ≠ CV_S_END) ∧ next_header d p = Some q
  | Nested s items e =>
      s = p ∧ kind p (λ k, k ∈ OPENS_SCOPE) ∧ is_Some (cv_sym_encloses_IP32 im p IP) ∧
      (∃ a, next_header d p = Some a ∧
         (fix all (l : list item) (p : Z) : Prop :=
            match l with [] => p = e | x :: l => ∃ m, laid x p m ∧ all l m end) items a) ∧
      kind e (λ k, k = CV_S_END) ∧ next_header d e = Some q
  end.

Fixpoint laid_all (l : list item) (p q : Z) : Prop :=
  match l with [] => p = q | x :: l => ∃ m, laid x p m ∧ laid_all l m q end.

(** The number of records *)
Fixpoint size (x : item) : nat :=
  match x with
  | Lexical _ | Plain _ => 1
  | Nested _ items _ => S (S (foldr (λ x n, size x + n)%nat 0%nat items))
  end.
Definition size_all (l : list item) : nat := foldr (λ x n, size x + n)%nat 0%nat l.

(** The variables that are visible at the address *)
Fixpoint visible (x : item) : list Z :=
  match x with
  | Lexical p => [p]
  | Plain _ => []
  | Nested p items _ =>
      if default false (cv_sym_encloses_IP32 im p IP) then concat (visible <$> items) else []
  end.
Definition visible_all (l : list item) : list Z := concat (visible <$> l).

Lemma laid_scope s items e p q :
  laid (Nested s items e) p q ↔
    s = p ∧ kind p (λ k, k ∈ OPENS_SCOPE) ∧ is_Some (cv_sym_encloses_IP32 im p IP) ∧
    (∃ a, next_header d p = Some a ∧ laid_all items a e) ∧
    kind e (λ k, k = CV_S_END) ∧ next_header d e = Some q.
Proof.
  assert (∀ a, (fix all (l : list item) (p : Z) : Prop :=
            match l with [] => p = e | x :: l => ∃ m, laid x p m ∧ all l m end) items a ↔ laid_all items a e) as H.
  { clear. induction items as [|x l IH]; intros a; simpl; [done|].
    split; intros (m & Hm & Hl); exists m; (split; [done|]); by apply IH. }
  simpl. split; intros (? & ? & ? & (a & ? & Ha) & ? & ?); repeat split; try done;
    exists a; (split; [done|]); by apply H.
Qed.

(** Induction over scopes *)
Lemma item_ind' (P : item → Prop) (HV : ∀ p, P (Lexical p)) (HO : ∀ p, P (Plain p))
    (HS : ∀ p l e, Forall P l → P (Nested p l e)) : ∀ x, P x.
Proof.
  fix IH 1. intros [p|p|p l e]; [apply HV | apply HO | apply HS].
  induction l as [|x l IHl]; constructor; [apply IH | apply IHl].
Qed.

Lemma one_of_true x l : x ∈ l → one_of x l = true.
Proof. intros H. unfold one_of. by apply bool_decide_eq_true. Qed.
Lemma one_of_false x l : x ∉ l → one_of x l = false.
Proof. intros H. unfold one_of. by apply bool_decide_eq_false. Qed.

Lemma lexical_kind k : k ∈ LEXICALS → k ∉ OPENS_SCOPE ∧ k ≠ CV_S_END.
Proof.
  rewrite list_elem_of_In. revert k. apply Forall_forall. refine (bool_decide_unpack _ _). vm_compute. exact I.
Qed.
Lemma opening_kind k : k ∈ OPENS_SCOPE → k ∉ LEXICALS ∧ k ≠ CV_S_END.
Proof.
  rewrite list_elem_of_In. revert k. apply Forall_forall. refine (bool_decide_unpack _ _). vm_compute. exact I.
Qed.

Lemma skip_step n lvl p k q : header_Index d p = Some k → next_header d p = Some q →
  skip_scope d (S n) lvl p =
    if one_of k OPENS_SCOPE then skip_scope d n (lvl + 1) q
    else if k =? CV_S_END then if 0 <? lvl then skip_scope d n (lvl - 1) q else Some q
    else skip_scope d n lvl q.
Proof. intros Hk Hq. simpl. by rewrite Hk, Hq. Qed.

Lemma skip_items l : ∀ p m lvl fuel, laid_all l p m → 0 <= lvl →
  skip_scope d (size_all l + fuel) lvl p = skip_scope d fuel lvl m.
Proof.
  assert (∀ l, Forall (λ x, ∀ p m lvl fuel, laid x p m → 0 <= lvl →
      skip_scope d (size x + fuel) lvl p = skip_scope d fuel lvl m) l →
    ∀ p m lvl fuel, laid_all l p m → 0 <= lvl →
      skip_scope d (size_all l + fuel) lvl p = skip_scope d fuel lvl m) as Hall.
  { clear l. induction 1 as [|x l Hx _ IH]; intros p m lvl fuel; simpl; [by intros ->|].
    intros (q & Hq & Hl) Hlvl. unfold size_all. simpl. rewrite <- Nat.add_assoc.
    rewrite (Hx _ _ _ _ Hq Hlvl). by apply IH. }
  apply Hall, Forall_forall. intros x _. clear l.
  induction x as [p|p|p l e IH] using item_ind'; intros q m lvl fuel Hx Hlvl.
  - destruct Hx as (-> & (k & Hk & Hin) & Hm). destruct (lexical_kind k Hin) as [Ho He].
    simpl size. rewrite Nat.add_1_l, (skip_step _ _ _ _ _ Hk Hm).
    by rewrite (one_of_false _ _ Ho), (proj2 (Z.eqb_neq _ _) He).
  - destruct Hx as (-> & (k & Hk & _ & Ho & He) & Hm).
    simpl size. rewrite Nat.add_1_l, (skip_step _ _ _ _ _ Hk Hm).
    by rewrite (one_of_false _ _ Ho), (proj2 (Z.eqb_neq _ _) He).
  - apply laid_scope in Hx as (-> & (k & Hk & Hin) & _ & (a & Ha & Hl) & (ke & Hke & ->) & Hm).
    change (size (Nested q l e) + fuel)%nat with (S (S (size_all l + fuel))).
    rewrite (skip_step _ _ _ _ _ Hk Ha), (one_of_true _ _ Hin), plus_n_Sm.
    rewrite (Hall l IH _ _ (lvl + 1) (S fuel) Hl ltac:(lia)), (skip_step _ _ _ _ _ Hke Hm).
    rewrite one_of_false by (intros Hc; by destruct (opening_kind _ Hc)). rewrite Z.eqb_refl.
    rewrite (proj2 (Z.ltb_lt _ _)) by lia. by replace (lvl + 1 - 1) with lvl by lia.
Qed.

(** ** The visible variables *)

Definition add_symbols (t : lookup_table) (l : list Z) : lookup_table := foldl (λ t p, add_symbol t p 0) t l.

Lemma add_symbols_app t l k : add_symbols t (l ++ k) = add_symbols (add_symbols t l) k.
Proof. apply foldl_app. Qed.

Lemma segments_of_add_symbols es t l :
  segments_of es t → segments_of (es ++ ((λ p, mkEntry MAPPED_CODEVIEW_SYMBOL p 0) <$> l)) (add_symbols t l).
Proof.
  revert es t. induction l as [|p l IH]; intros es t H; simpl; [by rewrite app_nil_r|].
  specialize (IH _ _ (segments_of_add _ _ MAPPED_CODEVIEW_SYMBOL p 0 H)). by rewrite <- app_assoc in IH.
Qed.

Lemma pull_step n lvl p k q t c : header_Index d p = Some k → next_header d p = Some q →
  pull_lexicals im d IP (S n) lvl p t c =
    if k =? CV_S_END then if 0 <? lvl then pull_lexicals im d IP n (lvl - 1) q t c else Some (t, c)
    else if one_of k LEXICALS then pull_lexicals im d IP n lvl q (add_symbol t p 0) (c + 1)
    else if one_of k OPENS_SCOPE then
      e ← cv_sym_encloses_IP32 im p IP;
      if e : bool then pull_lexicals im d IP n (lvl + 1) q t c
      else q ← skip_scope d n 0 q; pull_lexicals im d IP n lvl q t c
    else pull_lexicals im d IP n lvl q t c.
Proof. intros Hk Hq. simpl. by rewrite Hk, Hq. Qed.

(** What the loop does over items that take no more than the fuel there is *)
Definition pulls (n : nat) (p m : Z) (vs : list Z) : Prop := ∀ lvl k fuel t c,
  0 <= lvl → (n + k <= fuel)%nat → ∃ fuel', (k <= fuel')%nat ∧
    pull_lexicals im d IP fuel lvl p t c =
      pull_lexicals im d IP fuel' lvl m (add_symbols t vs) (c + Z.of_nat (length vs)).

Lemma pulls_all l : Forall (λ x, ∀ p m, laid x p m → pulls (size x) p m (visible x)) l →
  ∀ p m, laid_all l p m → pulls (size_all l) p m (visible_all l).
Proof.
  induction 1 as [|x l Hx _ IH]; intros p m; simpl.
  - intros -> lvl k fuel t c _ Hf. exists fuel. split; [done|]. simpl. f_equal; lia.
  - intros (q & Hq & Hl) lvl k fuel t c Hlvl Hf. unfold size_all in Hf. simpl in Hf.
    destruct (Hx _ _ Hq lvl (size_all l + k)%nat fuel t c Hlvl) as (f1 & Hf1 & ->); [unfold size_all; lia|].
    destruct (IH _ _ Hl lvl k f1 (add_symbols t (visible x)) (c + Z.of_nat (length (visible x))) Hlvl Hf1)
      as (f2 & Hf2 & ->).
    exists f2. split; [done|]. change (visible_all (x :: l)) with (visible x ++ visible_all l). rewrite add_symbols_app, length_app. f_equal. lia.
Qed.

Lemma pulls_item x : ∀ p m, laid x p m → pulls (size x) p m (visible x).
Proof.
  induction x as [p|p|p l e IH] using item_ind'; intros q m Hx lvl n fuel t c Hlvl Hf.
  - destruct Hx as (-> & (k & Hk & Hin) & Hm). destruct fuel as [|fuel]; [simpl in Hf; lia|].
    exists fuel. split; [simpl in Hf; lia|]. rewrite (pull_step _ _ _ _ _ _ _ Hk Hm).
    destruct (lexical_kind k Hin) as [_ He]. by rewrite (proj2 (Z.eqb_neq _ _) He), (one_of_true _ _ Hin).
  - destruct Hx as (-> & (k & Hk & Hl & Ho & He) & Hm). destruct fuel as [|fuel]; [simpl in Hf; lia|].
    exists fuel. split; [simpl in Hf; lia|]. rewrite (pull_step _ _ _ _ _ _ _ Hk Hm).
    rewrite (proj2 (Z.eqb_neq _ _) He), (one_of_false _ _ Hl), (one_of_false _ _ Ho). simpl. f_equal. lia.
  - apply laid_scope in Hx as (-> & (k & Hk & Hin) & [b Hb] & (a & Ha & Hl) & (ke & Hke & ->) & Hm).
    change (size (Nested q l e)) with (S (S (size_all l))) in Hf.
    destruct fuel as [|fuel]; [lia|]. destruct (opening_kind k Hin) as [Hnl He].
    rewrite (pull_step _ _ _ _ _ _ _ Hk Ha), (proj2 (Z.eqb_neq _ _) He), (one_of_false _ _ Hnl), (one_of_true _ _ Hin).
    cbn [visible]. rewrite Hb. cbn [mbind option_bind default]. destruct b.
    + destruct (pulls_all l IH _ _ Hl (lvl + 1) (S n) fuel t c ltac:(lia) ltac:(lia)) as (f1 & Hf1 & ->).
      destruct f1 as [|f1]; [lia|]. exists f1. split; [lia|].
      rewrite (pull_step _ _ _ _ _ _ _ Hke Hm). rewrite Z.eqb_refl, (proj2 (Z.ltb_lt _ _)) by lia.
      by replace (lvl + 1 - 1) with lvl by lia.
    + exists fuel. split; [lia|].
      replace fuel with (size_all l + S (fuel - size_all l - 1))%nat at 1 by lia.
      rewrite (skip_items l _ _ 0 _ Hl ltac:(lia)), (skip_step _ _ _ _ _ Hke Hm).
      rewrite one_of_false by (intros Hc; by destruct (opening_kind _ Hc)). rewrite Z.eqb_refl. simpl. f_equal. lia.
Qed.

(** A function with its items, from the record that opens it to the one that ends it *)
Definition function_at (scope_start : Z) (items : list item) : Prop :=
  scope_start ≠ 0 ∧ DebugMap im = Some d ∧
  kind scope_start (λ k, k ∈ [CV_S_GPROC32; CV_S_GPROC32_NEW; CV_S_LPROC32; CV_S_LPROC32_NEW; CV_S_GPROC16; CV_S_LPROC16]) ∧
  ∃ p e q, next_header d scope_start = Some p ∧ laid_all items p e ∧
    kind e (λ k, k = CV_S_END) ∧ next_header d e = Some q.
End items.

(** C28: For a function whose records are laid out as a tree of variables, other
    records and nested scopes, each opened by a block or a procedure and
    closed by an end record, and can be read, the search for the variables
    in scope at an address, with more fuel than there are records, returns a
    table of exactly the variables of the function and of those nested
    scopes that have the address in their code, all their enclosing scopes
    included, in the order of the records, with their number; the variables
    of the other scopes are skipped, whatever is nested in them. *)
Theorem lexicals_in_scope im d IP fuel scope_start items :
  function_at im d IP scope_start items → (size_all items < fuel)%nat →
  ∃ table, pull_lexicals_within_scope im fuel scope_start new_lookup_table IP =
      Some (table, Z.of_nat (length (visible_all im IP items))) ∧
    segments_of ((λ p, mkEntry MAPPED_CODEVIEW_SYMBOL p 0) <$> visible_all im IP items) table.
Proof.
  intros (H0 & Hd & (k & Hk & Hin) & p & e & q & Hp & Hl & (ke & Hke & ->) & Hq) Hf.
  unfold pull_lexicals_within_scope. rewrite (proj2 (Z.eqb_neq _ _) H0), Hd. simpl.
  rewrite Hk. simpl. rewrite (one_of_true _ _ Hin), Hp. simpl.
  assert (pulls im d IP (size_all items) p e (visible_all im IP items)) as H.
  { apply pulls_all; [|done]. apply Forall_forall. intros x _. apply pulls_item. }
  destruct (H 0 1%nat fuel new_lookup_table 0 ltac:(lia) ltac:(lia)) as (f1 & Hf1 & ->).
  destruct f1 as [|f1]; [lia|]. rewrite (pull_step _ _ _ _ _ _ _ _ _ _ Hke Hq), Z.eqb_refl. simpl.
  eexists. split; [done|]. by apply (segments_of_add_symbols [] new_lookup_table), segments_of_new.
Qed.

(** The function f: x is visible everywhere, y in the block. *)
Definition f_items : list item := [Lexical 4196; Nested 4208 [Lexical 4231] 4243].

Lemma lexicals_in_scope_witness :
  function_at example_image example_map (f_address + 10) 4157 f_items ∧
  visible_all example_image (f_address + 10) f_items = [4196; 4231] ∧
  ∃ table, pull_lexicals_within_scope example_image 5 4157 new_lookup_table (f_address + 10) =
      Some (table, Z.of_nat (length (visible_all example_image (f_address + 10) f_items))) ∧
    segments_of ((λ p, mkEntry MAPPED_CODEVIEW_SYMBOL p 0) <$> visible_all example_image (f_address + 10) f_items) table.
Proof.
  assert (function_at example_image example_map (f_address + 10) 4157 f_items) as H.
  { split; [discriminate|]. split; [reflexivity|].
    split; [exists 517; split; [vm_compute; reflexivity|]; refine (bool_decide_unpack _ _); vm_compute; exact I|].
    exists 4196, 4247, 4251. split; [vm_compute; reflexivity|]. split.
    - exists 4208. split; [split; [reflexivity|]; split; [|vm_compute; reflexivity]|].
      { exists 512. split; [vm_compute; reflexivity|]. refine (bool_decide_unpack _ _). vm_compute. exact I. }
      exists 4247. split; [|reflexivity].
      split; [reflexivity|]. split.
      { exists 519. split; [vm_compute; reflexivity|]. refine (bool_decide_unpack _ _). vm_compute. exact I. }
      split; [vm_compute; eauto|]. split.
      { exists 4231. split; [vm_compute; reflexivity|]. exists 4243. split; [|reflexivity].
        split; [reflexivity|]. split; [|vm_compute; reflexivity].
        exists 512. split; [vm_compute; reflexivity|]. refine (bool_decide_unpack _ _). vm_compute. exact I. }
      split; [|vm_compute; reflexivity]. exists CV_S_END. split; [vm_compute; reflexivity | reflexivity].
    - split; [|vm_compute; reflexivity]. exists CV_S_END. split; [vm_compute; reflexivity | reflexivity]. }
  split; [exact H|]. split; [vm_compute; reflexivity|].
  apply (lexicals_in_scope example_image example_map (f_address + 10) 5 4157 f_items H). simpl. lia.
Defined.

(** At another address of f only x is. *)
Example lexicals_outside_block :
  fst <$> all_lexicals_from_debug_map example_image 9 f_address no_symbol = Some ([[mkEntry 1 4196 0]], 1).
Proof. vm_compute. reflexivity. Qed.
