(* ===== verification/SourceLaws.v ===== *)
(** * The address of a line

    The nub looks for the first source file with the name that is asked for, and in it for
    the line, or one as near as possible. *)

From S2P Require Import Prelude Effects CodeView SourceLocations CodeViewExample.
From Stdlib Require Import ZArith Lia.
From stdpp Require Import base tactics option list numbers.

Local Open Scope Z_scope.

Section lines.
Context (im : image).

(** These functions have no state. *)
Notation computes := (computes (λ _ : (), True)).

Lemma computes_run {A} (m : St () A) o : computes m o → m () = (λ a, (a, ())) <$> o.
Proof.
  intros H. specialize (H () I). destruct (m ()) as [[a []]|]; [by destruct H as [-> _] | by subst].
Qed.









(** ** One file *)











End lines.



(** The segments after the first are read with the address of the first: line 50 is at
    16384 + 40 in the image, and is found at 8192 + 40. *)
Example second_segment_at_first :
  resolve_source_location_in_debug_map (image_with two_segments) a_c 50 () =
    Some (Some (1048576 + 8192 + 40, true), ()).
Proof. vm_compute. reflexivity. Qed.
