(* ===== verification/CoffMap.v ===== *)
(** * COFF symbols

    The symbol table that the nub uses for images without CodeView information
    ([coff_map.c], with the structures of [coff-extract.h]): symbols of 18 bytes, each
    followed by as many auxiliary ones as it says, and a table of the names of more
    than eight characters. *)

From S2P Require Import Prelude Effects CodeView.
From Stdlib Require Import ZArith Lia.
From stdpp Require Import base tactics option list numbers.

Local Open Scope Z_scope.

(** What the descriptor of an image has for this; both bases are of the image, the one it
    was linked for and the one it was loaded at. *)
Record coff_image := mkCoffImage {
  coff_view : Z → option Z;
  NumberOfCoffSymbols : Z;
  CoffSymbolTable : Z;
  CoffStringTable : Z;
  preferred_base : Z;
  loaded_base : Z
}.

Definition SIZEOF_SYMBOL_ENTRY : Z := 18.
Definition COFF_SYMBOL_TYPE_FUNCTION : Z := 32.

Section coff.
Context (im : coff_image).

Definition coff_WORD (p : Z) : option Z :=
  a ← coff_view im p; b ← coff_view im (p + 1); Some (a + 256 * b).
Definition coff_DWORD (p : Z) : option Z :=
  a ← coff_WORD p; b ← coff_WORD (p + 2); Some (a + 65536 * b).

(** [COFF_SYMBOL_ENTRY]; the name is either in the entry or a null and an offset. *)
Definition NullDWord (x : Z) : option Z := coff_DWORD x.
Definition StringTableOffset (x : Z) : option Z := coff_DWORD (x + 4).
Definition Value (x : Z) : option Z := coff_DWORD (x + 8).
Definition SectionNumber (x : Z) : option Z := coff_WORD (x + 12).
Definition Type_ (x : Z) : option Z := coff_WORD (x + 14).
Definition StorageClass (x : Z) : option Z := coff_view im (x + 16).
Definition NumberOfAuxSymbols (x : Z) : option Z := coff_view im (x + 17).

Definition following_coff_symbol (x : Z) : Z := u32 (x + SIZEOF_SYMBOL_ENTRY).
Definition preceding_coff_symbol (x : Z) : Z := u32 (x - SIZEOF_SYMBOL_ENTRY).

(** ** Names *)

(** The offset counts the four bytes of the length of the string table. *)
Definition calculate_coff_symbol_name_pointer (symbol : Z) : option Z :=
  null ← NullDWord symbol;
  if null =? 0 then o ← StringTableOffset symbol; Some (u32 (CoffStringTable im + (o - 4)))
  else Some symbol.

Fixpoint name_length_from (fuel : nat) (limit : option Z) (p length : Z) : option Z :=
  match fuel with
  | O => None
  | S fuel =>
      if match limit with Some n => n <=? length | None => false end then Some length
      else
        c ← coff_view im (p + length);
        if c =? 0 then Some length else name_length_from fuel limit p (length + 1)
  end.

Definition calculate_coff_symbol_name_length (fuel : nat) (symbol : Z) : option Z :=
  null ← NullDWord symbol;
  p ← calculate_coff_symbol_name_pointer symbol;
  name_length_from fuel (if null =? 0 then None else Some 8) p 0.

(** Copies up to the end of the name or of the buffer. *)
Fixpoint copy_coff_name (fuel : nat) (limit : option Z) (p : Z) (length_ : nat) (buf : list Z) : option (list Z) :=
  match fuel with
  | O => None
  | S fuel =>
      if match limit with Some n => n <=? Z.of_nat length_ | None => false end then Some buf
      else
        c ← coff_view im (p + Z.of_nat length_);
        if negb (c =? 0) && (length_ <? length buf)%nat
        then copy_coff_name fuel limit p (S length_) (<[length_ := c]> buf)
        else Some buf
  end.

Definition copy_coff_symbol_name_into_buffer (symbol : Z) (buf : list Z) : option (list Z) :=
  null ← NullDWord symbol;
  p ← calculate_coff_symbol_name_pointer symbol;
  copy_coff_name (S (length buf)) (if null =? 0 then None else Some 8) p 0 buf.

(** Compares the characters up to [imax]: the index behind the last one, if they are equal.
    The counters are [BYTE]s. *)
Fixpoint compare_up_to (fuel : nat) (name candidate : Z → option Z) (imax i j : Z) : option (option Z) :=
  match fuel with
  | O => None
  | S fuel =>
      if i <=? imax then
        a ← name i;
        if a =? 0 then Some None
        else
          b ← candidate j;
          if negb (a =? b) then Some None
          else compare_up_to fuel name candidate imax ((i + 1) mod 256) ((j + 1) mod 256)
      else Some (Some i)
  end.

(** An underscore at the beginning of the symbol's name need not be in the candidate's. *)
Definition compare_coff_names (symbol length : Z) (candidate : Z → option Z) : option bool :=
  if (length <? 1) || (symbol =? 0) || (CoffStringTable im =? 0) then Some false
  else
    null ← NullDWord symbol;
    if negb (null =? 0) && (8 <? length) then Some false
    else
      p ← calculate_coff_symbol_name_pointer symbol;
      let name i := coff_view im (p + i) in
      a ← name 0; b ← candidate 0;
      let (i, imax) := if (a =? 95) && negb (b =? 95) then (1, length) else (0, length - 1) in
      r ← compare_up_to 256 name candidate imax i 0;
      match r with
      | None => Some false
      | Some i =>
          c ← name i;
          Some ((c =? 0) || (negb (null =? 0) && (i =? 8)))
      end.

(** ** Kinds of records *)

Definition is_function_defining_record (x : Z) : option bool :=
  t ← Type_ x; s ← StorageClass x;
  Some ((t =? COFF_SYMBOL_TYPE_FUNCTION) && (s =? 2)).

(** The name begins with these characters. *)
Definition name_begins (x : Z) (l : list Z) : option bool :=
  n ← mapM (λ i, coff_view im (x + i)) (seqZ 0 (Z.of_nat (length l))); Some (bool_decide (n = l)).

Definition is_begin_function_record (x : Z) : option bool := name_begins x [46; 98; 102; 0].
Definition is_end_function_record (x : Z) : option bool := name_begins x [46; 101; 102; 0].
Definition is_lines_in_function_record (x : Z) : option bool := name_begins x [46; 108; 102; 0].

(** _dylan_object_file_objs_start, _dylan_object_file_vars_start and
    _dylan_untraced_objs_start *)
Definition explicit_non_data_symbols : list (list Z) :=
  [[95; 100; 121; 108; 97; 110; 95; 111; 98; 106; 101; 99; 116; 95; 102; 105; 108; 101; 95; 111; 98; 106; 115;
    95; 115; 116; 97; 114; 116];
   [95; 100; 121; 108; 97; 110; 95; 111; 98; 106; 101; 99; 116; 95; 102; 105; 108; 101; 95; 118; 97; 114; 115;
    95; 115; 116; 97; 114; 116];
   [95; 100; 121; 108; 97; 110; 95; 117; 110; 116; 114; 97; 99; 101; 100; 95; 111; 98; 106; 115;
    95; 115; 116; 97; 114; 116]].

Definition null_terminated (l : list Z) (i : Z) : option Z := (l ++ [0]) !! Z.to_nat i.

Fixpoint is_one_of (x : Z) (names : list (list Z)) : option bool :=
  match names with
  | [] => Some false
  | n :: names =>
      b ← compare_coff_names x (Z.of_nat (length n)) (null_terminated n);
      if b : bool then Some true else is_one_of x names
  end.

Definition is_non_data_record (x : Z) : option bool :=
  c ← coff_view im x;
  if c =? 46 then Some true else is_one_of x explicit_non_data_symbols.

(** ** Addresses *)

(** An offset that is not below the preferred base is an address already. *)
Definition calculate_segmented_address (segment offset : Z) : Z :=
  if preferred_base im <=? offset then
    if preferred_base im =? loaded_base im then offset
    else u32 (offset - preferred_base im + loaded_base im)
  else u32 (offset + loaded_base im).

Definition calculate_coff_address (x : Z) : option Z :=
  s ← SectionNumber x; v ← Value x; Some (calculate_segmented_address s v).

(** Start and end of the frame, end of the function, and whether it is one *)
Definition calculate_function_debug_offsets (entry : Z) : option (Z * Z * Z * bool) :=
  start ← calculate_coff_address entry;
  f ← is_function_defining_record entry;
  if f : bool then
    let fdaux := following_coff_symbol entry in
    let bf := following_coff_symbol fdaux in
    let lf := following_coff_symbol (following_coff_symbol bf) in
    let ef := following_coff_symbol lf in
    b ← is_begin_function_record bf;
    e ← (if b : bool then is_end_function_record ef else Some false);
    l ← (if e : bool then is_lines_in_function_record lf else Some false);
    if l : bool then
      size ← coff_DWORD (fdaux + 4);
      Some (start, u32 (start + size), u32 (start + size), true)
    else Some (start, start, start, true)
  else Some (start, start, start, false).

(** ** Searches *)

Definition symbol_entry (i : Z) : Z := u32 (CoffSymbolTable im + i * SIZEOF_SYMBOL_ENTRY).

(** A symbol that was found: address, language, the places of a function *)
Record coff_symbol := mkCoffSymbol { coff_address : Z; coff_language : Z; coff_function : option (Z * Z * Z) }.

Definition function_part (r : Z * Z * Z * bool) : option (Z * Z * Z) :=
  if r.2 then Some r.1 else None.

(** What begins with an underscore is C. *)
Definition language_of_name (c : Z) : Z := if c =? 95 then 0 else 9.

(** [limit] rounds are enough: every round goes on to a later symbol. *)
Fixpoint find_coff (fuel : nat) (name_length : Z) (name : Z → option Z) (limit i : Z) :
    option (option coff_symbol) :=
  if i <? limit then
    match fuel with
    | O => None
    | S fuel =>
        let this_symbol := symbol_entry i in
        b ← compare_coff_names this_symbol name_length name;
        if b : bool then
          c ← name 0;
          addr ← calculate_coff_address this_symbol;
          r ← calculate_function_debug_offsets this_symbol;
          Some (Some (mkCoffSymbol addr (language_of_name c) (function_part r)))
        else aux ← NumberOfAuxSymbols this_symbol; find_coff fuel name_length name limit (i + (1 + aux))
    end
  else Some None.

Definition find_symbol_in_coff_map (name_length : Z) (name : Z → option Z) : option (option coff_symbol) :=
  if CoffSymbolTable im =? 0 then Some None
  else find_coff (Z.to_nat (NumberOfCoffSymbols im)) name_length name (NumberOfCoffSymbols im) 0.

(** The loop of a search by address: the closest symbol so far and its address, and the
    symbol that was looked at last *)
Fixpoint closest_coff (fuel : nat) (target limit i this_symbol closest_so_far closest_address : Z) :
    option (Z * Z * Z) :=
  if i <? limit then
    match fuel with
    | O => None
    | S fuel =>
        let this_symbol := symbol_entry i in
        n ← is_non_data_record this_symbol;
        aux ← NumberOfAuxSymbols this_symbol;
        if n : bool then closest_coff fuel target limit (i + (1 + aux)) this_symbol closest_so_far closest_address
        else
          this_address ← calculate_coff_address this_symbol;
          if this_address =? target then Some (this_symbol, this_address, this_symbol)
          else if (this_address <? target) && (closest_address <? this_address) then
            closest_coff fuel target limit (i + (1 + aux)) this_symbol this_symbol this_address
          else closest_coff fuel target limit (i + (1 + aux)) this_symbol closest_so_far closest_address
    end
  else Some (closest_so_far, closest_address, this_symbol).

(** The symbol with the pointer to its name and the length of it.  The places of the
    function are those of the symbol that was looked at last. *)
Definition closest_symbol_in_coff_map (fuel : nat) (address : Z) : option (option (coff_symbol * Z * Z)) :=
  if CoffSymbolTable im =? 0 then Some None
  else
    r ← closest_coff (Z.to_nat (NumberOfCoffSymbols im)) address (NumberOfCoffSymbols im) 0 0 0 0;
    let '(closest_so_far, closest_address, this_symbol) := r : Z * Z * Z in
    if closest_so_far =? 0 then Some None
    else
      p ← calculate_coff_symbol_name_pointer closest_so_far;
      n ← calculate_coff_symbol_name_length fuel closest_so_far;
      c ← coff_view im p;
      f ← calculate_function_debug_offsets this_symbol;
      Some (Some (mkCoffSymbol closest_address (language_of_name c) (function_part f), p, n)).
End coff.
