(* ===== verification/SymbolLookup.v ===== *)
(** * The nub's interface to symbols

    What the debugger asks the nub about symbols ([symbol_lookup.c],
    [source_location_info.c], [stack_backtrace2.c]), by the kind of the debug information
    of the library, with the cache of the bounds of functions. *)

From S2P Require Import Prelude Effects CodeView DebugMap SourceLocations CoffMap.
From Stdlib Require Import ZArith Lia.
From stdpp Require Import base tactics option list numbers.

Local Open Scope Z_scope.

(** ** The cache of bounds *)

Record boundary_entry := mkBoundary { HitCount : Z; LowerBound : Z; UpperBound : Z; AddrAtLastHit : Z }.

Definition MAX_BOUNDARY_CACHE_ENTRIES : nat := 1024.

(** The entries in use, in the order of the table; the cache is full when all are. *)
Record boundary_cache := mkBoundaries { EntryTable : list boundary_entry; IndexLastAddition : Z }.

Definition empty_boundaries : boundary_cache := mkBoundaries [] 0.

Definition CacheFull (c : boundary_cache) : bool := (MAX_BOUNDARY_CACHE_ENTRIES <=? length (EntryTable c))%nat.

(** The first entry that was last hit by the address, or has it between its bounds, and the
    table with the hit counted *)
Fixpoint search_entries (addr : Z) (l : list boundary_entry) : option (boundary_entry * list boundary_entry) :=
  match l with
  | [] => None
  | e :: l =>
      if AddrAtLastHit e =? addr then
        Some (e, mkBoundary (u32 (HitCount e + 1)) (LowerBound e) (UpperBound e) (AddrAtLastHit e) :: l)
      else if (LowerBound e <=? addr) && (addr <=? UpperBound e) then
        Some (e, mkBoundary (u32 (HitCount e + 1)) (LowerBound e) (UpperBound e) addr :: l)
      else r ← search_entries addr l; Some (r.1, e :: r.2)
  end.

(** The lower and the upper bound *)
Definition search_boundary_cache (addr : Z) : St boundary_cache (option (Z * Z)) :=
  c ← get_st;
  match search_entries addr (EntryTable c) with
  | Some (e, l) =>
      modify_st (λ c, mkBoundaries l (IndexLastAddition c)) ;; mret (Some (LowerBound e, UpperBound e))
  | None => mret None
  end.

(** The first entry with the fewest hits: the loop goes on from [i], with the candidate so
    far. *)
Fixpoint least_hit (l : list boundary_entry) (i : nat) (lowest_count : Z) (candidate_index : nat) : nat :=
  match l with
  | [] => candidate_index
  | e :: l =>
      if HitCount e <? lowest_count then least_hit l (S i) (HitCount e) i
      else least_hit l (S i) lowest_count candidate_index
  end.

Definition add_boundary_cache (addr lower upper : Z) : St boundary_cache () :=
  if upper =? lower then mret ()
  else
    modify_st (λ c,
      let e := mkBoundary 0 lower upper addr in
      if negb (CacheFull c) then mkBoundaries (EntryTable c ++ [e]) (Z.of_nat (length (EntryTable c)))
      else
        let lowest := match EntryTable c with e :: _ => HitCount e | [] => 0 end in
        let i := least_hit (EntryTable c) 0 lowest 0 in
        mkBoundaries (<[i := e]> (EntryTable c)) (Z.of_nat i)).

(** ** Libraries

    The part of a library's descriptor that has to do with symbols *)
Record library := mkLibrary {
  lib_image : image;
  lib_coff : coff_image;
  lib_symbols : symbol_cache;
  lib_boundaries : boundary_cache
}.

(** What the system and the file of the library have: the mapped view, the symbol table of
    the file, if it has one, and the symbols that DbgHelp's symbol handler knows, if it works *)
Record handler_symbol := mkHandlerSymbol {
  handler_address : Z; handler_size : Z; handler_function : bool; handler_name : list Z
}.

Class LibraryFile := {
  MapDebugInformation : option debug_information;
  coff_symbols_of_file : option coff_image;
  SymFromAddr : Z → option (handler_symbol * Z);
  SymEnumSymbols : list Z → option handler_symbol;
  SymEnumSymbolsForAddr : Z → option handler_symbol
}.

Section interface.
Context `{!LibraryFile}.

Notation M := (St library).

Definition set_image (im : image) (s : library) : library :=
  mkLibrary im (lib_coff s) (lib_symbols s) (lib_boundaries s).

(** Runs a function on the descriptor's record of the last symbol. *)
Definition in_symbols {A} (m : image → St symbol_cache A) : M A := λ s,
  r ← m (lib_image s) (lib_symbols s);
  Some (r.1, mkLibrary (lib_image s) (lib_coff s) r.2 (lib_boundaries s)).

Definition in_boundaries {A} (m : St boundary_cache A) : M A := λ s,
  r ← m (lib_boundaries s);
  Some (r.1, mkLibrary (lib_image s) (lib_coff s) (lib_symbols s) r.2).

Definition in_lines {A} (m : image → St () A) : M A := λ s,
  r ← m (lib_image s) (); Some (r.1, s).

(** *** Loading *)

Definition set_debug_type (t : debug_type) : M () :=
  modify_st (λ s, set_image (mkImage (ImageBase (lib_image s)) (DebugMap (lib_image s)) t) s).

Definition create_library_debug_map : M () :=
  modify_st (λ s, set_image (mkImage (ImageBase (lib_image s)) MapDebugInformation NONE) s) ;;
  match MapDebugInformation with
  | None => mret ()
  | Some d =>
      modify_st (λ s, mkLibrary (lib_image s) (lib_coff s) no_symbol (lib_boundaries s)) ;;
      i ← lift_st (codeview_present_in_image (Some d));
      p ← lift_st (if i : bool then Some false else codeview_present_in_pdb (Some d));
      if i : bool then set_debug_type CODEVIEW_IMAGE
      else if p : bool then set_debug_type CODEVIEW_PDB
      else when_ (coff_table_present_in_image d) (set_debug_type COFF_IMAGE)
  end.

Definition no_coff_symbols (c : coff_image) : coff_image :=
  mkCoffImage (coff_view c) 0 0 0 (preferred_base c) (loaded_base c).

Definition set_coff (f : coff_image → coff_image) : M () :=
  modify_st (λ s, mkLibrary (lib_image s) (f (lib_coff s)) (lib_symbols s) (lib_boundaries s)).

(** The part of [pull_image_information] about symbols: the table of the file is read when
    there is nothing else. *)
Definition pull_coff_symbols : M () :=
  s ← get_st;
  if decide (DebugType (lib_image s) = COFF_IMAGE) then mret ()
  else if decide (DebugType (lib_image s) = NONE) then
    match coff_symbols_of_file with
    | None => set_coff no_coff_symbols
    | Some c => set_debug_type COFF_IMAGE ;; set_coff (λ _, c)
    end
  else set_coff no_coff_symbols.

Definition ensure_debug_information_for_library : M () :=
  s ← get_st;
  when_ (bool_decide (DebugType (lib_image s) = NOT_YET_LOADED))
    (set_debug_type NONE ;; create_library_debug_map ;; pull_coff_symbols).

(** *** Symbols by address and by name *)

(** [NameCache]: a name in one of the views, a literal, or one of the symbol handler *)
Inductive name_cache := View_name (p : Z) | Coff_name (p : Z) | Literal_name | Handler_name (l : list Z).

Record symbol_answer := mkAnswer {
  ans_address : Z;
  ans_offset : Z;
  ans_name_length : Z;
  ans_is_function : bool;
  ans_debug_start : Z;
  ans_debug_end : Z;
  ans_language : option Z;
  ans_final : option Z;
  ans_name : name_cache
}.

Definition DYLAN_LANGUAGE : Z := 9.
Definition C_LANGUAGE : Z := 0.

(** Names of Dylan begin with K and end with I. *)
Definition handler_language (name : list Z) : Z :=
  if bool_decide (head name = Some 75 ∧ list.last name = Some 73) then DYLAN_LANGUAGE else C_LANGUAGE.

Definition codeview_answer (location : Z) (r : found_symbol * option (Z * Z)) : symbol_answer :=
  let f := r.1 in
  mkAnswer (actual_address f) (u32 (location - actual_address f))
    (match r.2 with Some (n, _) => n | None => 40 end)
    (is_function f) (debug_start f) (debug_end f) (language f) (last_address f)
    (match r.2 with Some (_, p) => View_name p | None => Literal_name end).

Definition coff_answer (location : Z) (r : coff_symbol * Z * Z) : symbol_answer :=
  let '(f, p, n) := r in
  let '(ds, de, fin) := default (0, 0, 0) (coff_function f) in
  mkAnswer (coff_address f) (u32 (location - coff_address f)) n (bool_decide (is_Some (coff_function f)))
    ds de (Some (coff_language f)) (Some fin) (Coff_name p).

(** [i] is a [BYTE]. *)
Definition handler_answer (s : handler_symbol) (displacement : Z) : symbol_answer :=
  let end_ := u32 (handler_address s + handler_size s) in
  mkAnswer (handler_address s) displacement (Z.of_nat (length (handler_name s)) mod 256)
    (handler_function s) (handler_address s) end_ (Some (handler_language (handler_name s))) (Some end_)
    (Handler_name (handler_name s)).

Definition nub_closest_symbol (fuel : nat) (location : Z) : M (option symbol_answer) :=
  ensure_debug_information_for_library ;;
  s ← get_st;
  match DebugType (lib_image s) with
  | CODEVIEW_IMAGE =>
      r ← in_symbols (λ im, closest_symbol_in_debug_map im location);
      mret (codeview_answer location <$> r)
  | COFF_IMAGE =>
      r ← lift_st (closest_symbol_in_coff_map (lib_coff s) fuel location);
      mret (coff_answer location <$> r)
  | _ => mret (r ← SymFromAddr location; Some (handler_answer r.1 r.2))
  end.

(** [NAME_SEARCH_ERROR] *)
Definition literal_name : list Z := [78; 65; 77; 69; 95; 83; 69; 65; 82; 67; 72; 95; 69; 82; 82; 79; 82].

Definition name_at (im : image) (c : coff_image) (n : name_cache) (i : Z) : option Z :=
  match n with
  | View_name p => d ← DebugMap im; view d (p + i)
  | Coff_name p => coff_view c (p + i)
  | Literal_name => (literal_name ++ [0]) !! Z.to_nat i
  | Handler_name l => (l ++ [0]) !! Z.to_nat i
  end.

(** Copies as many characters as the buffer has, whatever the length of the name. *)
Definition nub_closest_symbol_name (n : name_cache) (buf_size : Z) : M (list Z) :=
  s ← get_st;
  lift_st (mapM (name_at (lib_image s) (lib_coff s) n) (seqZ 0 buf_size)).

(** The answer about a symbol in a library; [ModuleName] is the name of the module that the
    symbol handler goes by. *)
Definition handler_find (ModuleName name : list Z) : option found_symbol :=
  s ← SymEnumSymbols (take 32 ModuleName ++ [33] ++ name);
  let end_ := u32 (handler_address s + handler_size s) in
  Some (mkFound (handler_address s) (handler_function s) (handler_address s) end_ (Some end_)
    (Some (handler_language name))).

Definition nub_find_symbol_in_library (SymbolHandlerWorking : bool) (ModuleName name : list Z) :
    M (option found_symbol) :=
  ensure_debug_information_for_library ;;
  s ← get_st;
  let name_length := Z.of_nat (length name) mod 256 in
  let chars i := name !! Z.to_nat i in
  match DebugType (lib_image s) with
  | CODEVIEW_IMAGE =>
      r ← in_symbols (λ im, find_symbol_in_debug_map im name_length chars); mret (snd <$> r)
  | COFF_IMAGE =>
      r ← lift_st (find_symbol_in_coff_map (lib_coff s) name_length chars);
      mret ((λ f, let '(ds, de, fin) := default (0, 0, 0) (coff_function f) in
               mkFound (coff_address f) (bool_decide (is_Some (coff_function f))) ds de (Some fin)
                 (Some (coff_language f))) <$> r)
  | _ => mret (if SymbolHandlerWorking then handler_find ModuleName name else None)
  end.

(** *** Tables *)

(** First and last index and the table; none for a library without CodeView information *)
Definition symbol_table (f : image → St symbol_cache (lookup_table * Z)) : M (Z * Z * option lookup_table) :=
  s ← get_st;
  match DebugType (lib_image s) with
  | CODEVIEW_IMAGE => r ← in_symbols f; mret (1, r.2, Some r.1)
  | _ => mret (1, 0, None)
  end.

Definition nub_do_static_symbols := symbol_table static_symbols_from_debug_map.
Definition nub_do_global_symbols := symbol_table global_symbols_from_debug_map.
Definition nub_do_exported_symbols := symbol_table exported_symbols_from_debug_map.

Definition nub_all_frame_lexicals (fuel : nat) (address : Z) :=
  symbol_table (λ im, all_lexicals_from_debug_map im fuel address).

Definition nub_nearest_symbols (addr : Z) : M (option lookup_table) :=
  ensure_debug_information_for_library ;;
  s ← get_st;
  match DebugType (lib_image s) with
  | CODEVIEW_IMAGE => t ← in_symbols (λ im, nearest_symbols_in_debug_map im addr); mret (Some t)
  | _ => mret None
  end.

(** *** The bounds of a function *)

(** The search in the cache is called with its two results the other way round. *)
Definition nub_function_bounding_addresses (SymbolHandlerWorking : bool) (addr : Z) : M (Z * Z) :=
  ensure_debug_information_for_library ;;
  r ← in_boundaries (search_boundary_cache addr);
  match r with
  | Some (dwHi, dwLo) => mret (dwLo, dwHi)
  | None =>
      b ← match (if SymbolHandlerWorking then SymEnumSymbolsForAddr addr else None) with
          | Some h => mret (handler_address h, u32 (handler_address h + handler_size h - 1))
          | None =>
              s ← get_st;
              match DebugType (lib_image s) with
              | CODEVIEW_IMAGE => in_symbols (λ im, function_bounding_addresses_in_debug_map im addr)
              | _ => mret (addr, addr)
              end
          end;
      in_boundaries (add_boundary_cache addr b.1 b.2) ;;
      mret b
  end.

(** *** Entries of a table *)

Definition entry_in_table (table : lookup_table) (index : Z) (f : image → lookup_entry → option Z) : M Z :=
  s ← get_st;
  sym ← lift_st (find_entry table index);
  if LookupType sym =? MAPPED_CODEVIEW_SYMBOL then lift_st (f (lib_image s) sym) else mret 0.

Definition nub_get_lexical_variable_name_length table index := entry_in_table table index lexical_name_length_from_debug_map.
Definition nub_lookup_symbol_name_length table index := entry_in_table table index symbol_name_length_from_debug_map.
Definition nub_lookup_symbol_address table index := entry_in_table table index symbol_address_from_debug_map.
Definition nub_lookup_function_debug_start table index := entry_in_table table index function_debug_start_from_debug_map.
Definition nub_lookup_function_debug_end table index := entry_in_table table index function_debug_end_from_debug_map.
Definition nub_lookup_function_end table index := entry_in_table table index function_end_from_debug_map.
Definition nub_symbol_is_function table index := entry_in_table table index symbol_is_function_from_debug_map.

Definition nub_lookup_symbol_language_code (table : lookup_table) (index : Z) : M Z :=
  sym ← lift_st (find_entry table index); mret (LanguageCode sym).

Definition entry_name (f : image → lookup_entry → list Z → option (list Z)) (table : lookup_table)
    (index : Z) (buf : list Z) : M (list Z) :=
  s ← get_st;
  sym ← lift_st (find_entry table index);
  if LookupType sym =? MAPPED_CODEVIEW_SYMBOL then lift_st (f (lib_image s) sym buf) else mret buf.

Definition nub_get_lexical_variable_name := entry_name lexical_name_from_debug_map.
Definition nub_lookup_symbol_name := entry_name symbol_name_from_debug_map.

(** The address, whether it is above the frame, and the register to look up instead *)
Definition nub_lexical_variable_address (frame : Z) (table : lookup_table) (index : Z) :
    M (Z * bool * option Z) :=
  s ← get_st;
  sym ← lift_st (find_entry table index);
  if LookupType sym =? MAPPED_CODEVIEW_SYMBOL then
    r ← lift_st (lexical_address_from_debug_map (lib_image s) sym);
    let addr := u32 (frame + match r with inl offset => offset | inr _ => 0 end) in
    mret (addr, frame <? addr, match r with inl _ => None | inr x => Some x end)
  else mret (0, false, None).

(** *** Source locations *)

(** Both ends of the range have to be in the library. *)
Definition nub_fetch_source_locations (start end_ : Z) : M (option source_locations) :=
  ensure_debug_information_for_library ;;
  s ← get_st;
  match DebugType (lib_image s) with
  | CODEVIEW_IMAGE => in_lines (λ im, source_locations_from_debug_map im start end_)
  | _ => mret None
  end.

(** The address and whether it is exact; the line number is taken for a [WORD]. *)
Definition nub_resolve_source_location (filename : Z → option Z) (linenumber : Z) : M (option (Z * bool)) :=
  ensure_debug_information_for_library ;;
  s ← get_st;
  match DebugType (lib_image s) with
  | CODEVIEW_IMAGE =>
      in_lines (λ im, resolve_source_location_in_debug_map im filename (linenumber mod 65536))
  | _ => mret None
  end.
End interface.
