(* ===== verification/SymbolLookupLaws.v ===== *)
(** * What the nub's answers about symbols keep

    The cache of the bounds of functions: its size, what it answers, and which entry makes
    room for a new one; and how the answers of the nub depend on it. *)

From S2P Require Import Prelude Effects CodeView DebugMap SourceLocations CodeViewExample CoffMap SymbolLookup.
From Stdlib Require Import ZArith Lia.
From stdpp Require Import base tactics option list numbers.

Local Open Scope Z_scope.

(** ** The cache of bounds

    What the nub does with the cache *)
Inductive boundary_use := Searched (addr : Z) | Added (addr lower upper : Z).

Definition use_boundaries (u : boundary_use) : St boundary_cache () :=
  match u with
  | Searched addr => search_boundary_cache addr ;; mret ()
  | Added addr lower upper => add_boundary_cache addr lower upper
  end.

Definition is_added (us : list boundary_use) (lower upper : Z) : Prop :=
  ∃ addr, Added addr lower upper ∈ us.

(** An address is added with bounds that it is between. *)
Definition encloses_its_address (u : boundary_use) : Prop :=
  match u with Searched _ => True | Added addr lower upper => lower ≤ addr ≤ upper end.

Definition sound_boundary (us : list boundary_use) (e : boundary_entry) : Prop :=
  is_added us (LowerBound e) (UpperBound e) ∧ LowerBound e ≤ AddrAtLastHit e ≤ UpperBound e.

Definition sound_boundaries (us : list boundary_use) (c : boundary_cache) : Prop :=
  Forall (sound_boundary us) (EntryTable c) ∧ (length (EntryTable c) ≤ MAX_BOUNDARY_CACHE_ENTRIES)%nat.

(** Whether the search stops at an entry *)
Definition hits (addr : Z) (e : boundary_entry) : bool :=
  (AddrAtLastHit e =? addr) || ((LowerBound e <=? addr) && (addr <=? UpperBound e)).

Lemma search_entries_Some addr l e l' :
  search_entries addr l = Some (e, l') →
  ∃ l1 l2 n a, l = l1 ++ e :: l2 ∧ l' = l1 ++ mkBoundary n (LowerBound e) (UpperBound e) a :: l2 ∧
    hits addr e = true ∧ Forall (λ e, hits addr e = false) l1 ∧
    ((a = AddrAtLastHit e) ∨ LowerBound e ≤ a ≤ UpperBound e) ∧ a = addr.
Proof.
  revert l'. induction l as [|x l IH]; intros l'; simpl; [done|].
  destruct (Z.eqb_spec (AddrAtLastHit x) addr) as [E|NE].
  { intros [= <- <-]. exists [], l, (u32 (HitCount x + 1)), (AddrAtLastHit x).
    split_and!; try done; [|by left].
    unfold hits. by rewrite (proj2 (Z.eqb_eq _ _) E). }
  destruct ((LowerBound x <=? addr) && (addr <=? UpperBound x)) eqn:B.
  { intros [= <- <-]. exists [], l, (u32 (HitCount x + 1)), addr.
    split_and!; try done; [unfold hits; by rewrite B, orb_true_r | right; lia]. }
  intros H. destruct (search_entries addr l) as [[y k]|]; [|done]. simplify_eq/=.
  destruct (IH k eq_refl) as (l1 & l2 & n & a & -> & -> & Hh & Hl & Ha & Heq).
  exists (x :: l1), l2, n, a. split_and!; try done. constructor; [|done].
  unfold hits. rewrite B. by rewrite (proj2 (Z.eqb_neq _ _) NE).
Qed.

Lemma search_entries_None addr l :
  search_entries addr l = None ↔ Forall (λ e, hits addr e = false) l.
Proof.
  induction l as [|x l IH]; simpl; [split; [constructor | done]|]. rewrite Forall_cons_iff, <- IH. unfold hits.
  destruct (AddrAtLastHit x =? addr), ((LowerBound x <=? addr) && (addr <=? UpperBound x));
    simpl; try (split; [done | intros [? ?]; done]).
  destruct (search_entries addr l); simpl; [split; [done | intros [_ ?]; done] | done].
Qed.

(** The search always returns. *)
Lemma search_boundary_cache_runs addr c :
  search_boundary_cache addr c =
    Some (match search_entries addr (EntryTable c) with
          | Some (e, l) => (Some (LowerBound e, UpperBound e), mkBoundaries l (IndexLastAddition c))
          | None => (None, c)
          end).
Proof.
  unfold search_boundary_cache. sstep (run_get c).
  by destruct (search_entries addr (EntryTable c)) as [[e l]|].
Qed.

Lemma sound_boundary_mono us vs e : us ⊆ vs → sound_boundary us e → sound_boundary vs e.
Proof. intros S [[a Ha] H]. split; [exists a; by apply S | done]. Qed.

Lemma search_entries_sound us addr l e l' :
  Forall (sound_boundary us) l → search_entries addr l = Some (e, l') →
  sound_boundary us e ∧ LowerBound e ≤ addr ≤ UpperBound e ∧ Forall (sound_boundary us) l' ∧
  length l' = length l.
Proof.
  intros F (l1 & l2 & n & a & -> & -> & Hh & _ & _ & ->)%search_entries_Some.
  rewrite Forall_app, Forall_cons_iff in F. destruct F as (F1 & [Ha Hb] & F2).
  assert (LowerBound e ≤ addr ≤ UpperBound e) as B.
  { unfold hits in Hh. apply orb_prop in Hh as [H%Z.eqb_eq|H%andb_prop]; [by subst | lia]. }
  split; [by split|]. split; [done|]. split; [|by rewrite !length_app].
  apply Forall_app. split; [done|]. constructor; [by split | done].
Qed.

Lemma add_boundary_cache_sound us addr lower upper c c' :
  lower ≤ addr ≤ upper → Added addr lower upper ∈ us → sound_boundaries us c →
  add_boundary_cache addr lower upper c = Some ((), c') → sound_boundaries us c'.
Proof.
  intros B Hu [F L]. unfold add_boundary_cache. destruct (upper =? lower); [by intros [= <-]|].
  intros [= <-].
  assert (sound_boundary us (mkBoundary 0 lower upper addr)) as He by (split; [by exists addr | done]).
  unfold CacheFull, sound_boundaries. destruct (Nat.leb_spec MAX_BOUNDARY_CACHE_ENTRIES (length (EntryTable c)));
    cbn [negb EntryTable]; split.
  - by apply Forall_insert.
  - by rewrite length_insert.
  - apply Forall_app. split; [done | by constructor].
  - rewrite length_app. cbn [length]. lia.
Qed.

Lemma use_boundaries_sound us vs c c' :
  Forall encloses_its_address vs → sound_boundaries us c →
  for_each vs use_boundaries c = Some ((), c') → sound_boundaries (us ++ vs) c'.
Proof.
  revert us c. induction vs as [|v vs IH]; intros us c F Hc H.
  { rewrite app_nil_r. by injection H as <-. }
  inv F as [|? ? Hv F']. cbn [for_each] in H. apply St_bind_inv in H as ([] & c1 & H1 & H).
  assert (sound_boundaries (us ++ [v]) c) as Hc'.
  { destruct Hc as [Hf Hl]. split; [|done]. refine (Forall_impl _ _ Hf).
    intros e. apply sound_boundary_mono. intros x Hx. apply elem_of_app. by left. }
  rewrite (app_assoc us [v] vs : us ++ v :: vs = (us ++ [v]) ++ vs).
  apply (IH _ c1); [done | | done]. destruct v as [addr|addr lower upper].
  - cbn [use_boundaries] in H1. apply St_bind_inv in H1 as (r & c2 & H1 & [= <-]).
    rewrite search_boundary_cache_runs in H1.
    destruct (search_entries addr (EntryTable c)) as [[e l]|] eqn:E; injection H1 as <- <-; [|done].
    destruct Hc' as [Hf Hl]. destruct (search_entries_sound _ _ _ _ _ Hf E) as (_ & _ & Hf' & El).
    split; [done|]. cbn [EntryTable]. by rewrite El.
  - eapply add_boundary_cache_sound; [exact Hv | | exact Hc' | exact H1].
    apply elem_of_app. right. constructor.
Qed.

(** Every use of the cache returns. *)
Lemma use_boundaries_runs us c : ∃ c', for_each us use_boundaries c = Some ((), c').
Proof.
  revert c. induction us as [|u us IH]; intros c; [by exists c|].
  assert (∃ c1, use_boundaries u c = Some ((), c1)) as [c1 H].
  { destruct u as [addr|addr lower upper]; cbn [use_boundaries].
    - pose proof (search_boundary_cache_runs addr c) as H. eexists.
      unfold mbind, St_bind. rewrite H. reflexivity.
    - unfold add_boundary_cache. destruct (upper =? lower); eexists; reflexivity. }
  cbn [for_each]. setoid_rewrite (St_bind_Some _ _ _ _ _ H). apply IH.
Qed.

(** *** Making room *)

Lemma least_hit_spec l i low cand :
  (∃ k e, l !! k = Some e ∧ least_hit l i low cand = (i + k)%nat ∧ HitCount e < low ∧
     Forall (λ e', HitCount e ≤ HitCount e') l ∧ Forall (λ e', HitCount e < HitCount e') (take k l)) ∨
  (least_hit l i low cand = cand ∧ Forall (λ e', low ≤ HitCount e') l).
Proof.
  revert i low cand. induction l as [|x l IH]; intros i low cand; cbn [least_hit]; [right; by split|].
  destruct (Z.ltb_spec (HitCount x) low) as [Hlt|Hge].
  - left. destruct (IH (S i) (HitCount x) i) as [(k & e & Hk & E & Hl & Hm & Hf)|[E Hm]].
    + exists (S k), e. cbn [take]. split_and!; [done | rewrite E; lia | lia | |].
      all: constructor; [lia | done].
    + exists 0%nat, x. split_and!; [done | rewrite E; lia | lia | | constructor].
      constructor; [lia | done].
  - destruct (IH (S i) low cand) as [(k & e & Hk & E & Hl & Hm & Hf)|[E Hm]].
    + left. exists (S k), e. cbn [take]. split_and!; [done | rewrite E; lia | lia | |].
      all: constructor; [lia | done].
    + right. split; [done | by constructor].
Qed.

(** A full cache forgets the first of the entries with the fewest hits. *)
Lemma add_boundary_cache_full addr lower upper c :
  upper ≠ lower → (MAX_BOUNDARY_CACHE_ENTRIES ≤ length (EntryTable c))%nat →
  ∃ i old, EntryTable c !! i = Some old ∧
    Forall (λ e, HitCount old ≤ HitCount e) (EntryTable c) ∧
    Forall (λ e, HitCount old < HitCount e) (take i (EntryTable c)) ∧
    add_boundary_cache addr lower upper c =
      Some ((), mkBoundaries (<[i := mkBoundary 0 lower upper addr]> (EntryTable c)) (Z.of_nat i)).
Proof.
  intros NE Hfull. unfold add_boundary_cache, CacheFull, modify_st.
  rewrite (proj2 (Z.eqb_neq _ _) NE), (proj2 (Nat.leb_le _ _) Hfull). cbn [negb].
  destruct (EntryTable c) as [|x l] eqn:E; [unfold MAX_BOUNDARY_CACHE_ENTRIES in Hfull; simpl in Hfull; lia|].
  destruct (least_hit_spec (x :: l) 0 (HitCount x) 0) as [(k & e & Hk & Ei & _ & Hm & Hf)|[Ei Hm]].
  - exists k, e. rewrite Ei, Nat.add_0_l. done.
  - exists 0%nat, x. rewrite Ei. by split_and!.
Qed.

(** *** What a search finds *)

(** C40: Whatever sequence of searches and additions the cache of the bounds of
    functions goes through from empty, each address being added with bounds
    that it is between: no operation fails, the table never has more than
    1024 entries, and a search answers bounds that were added and that the
    address is between, or nothing, and leaves the cache as it is, when no
    entry has it between its bounds. *)
Theorem bounds_cached us addr (Hu : Forall encloses_its_address us) :
  ∃ c, for_each us use_boundaries empty_boundaries = Some ((), c) ∧
    (length (EntryTable c) ≤ MAX_BOUNDARY_CACHE_ENTRIES)%nat ∧
    match search_boundary_cache addr c with
    | None => False
    | Some (Some (lower, upper), c') => lower ≤ addr ≤ upper ∧ is_added us lower upper
    | Some (None, c') => c' = c ∧
        Forall (λ e, ¬ (LowerBound e ≤ addr ≤ UpperBound e)) (EntryTable c)
    end.
Proof.
  destruct (use_boundaries_runs us empty_boundaries) as [c Hc]. exists c. split; [done|].
  assert (sound_boundaries [] empty_boundaries) as H0 by (split; [constructor | cbn; lia]).
  destruct (use_boundaries_sound [] us _ _ Hu H0 Hc) as [F L]. split; [done|].
  rewrite search_boundary_cache_runs.
  destruct (search_entries addr (EntryTable c)) as [[e l]|] eqn:E.
  - by destruct (search_entries_sound _ _ _ _ _ F E) as ([? _] & ? & _).
  - split; [done|]. apply search_entries_None in E. refine (Forall_impl _ _ E).
    intros e He. unfold hits in He. apply orb_false_iff in He as [_ He]. lia.
Qed.

Lemma bounds_cached_witness :
  ∃ c, for_each [Added 20 16 47; Searched 30; Added 50 48 63] use_boundaries empty_boundaries = Some ((), c) ∧
    (length (EntryTable c) ≤ MAX_BOUNDARY_CACHE_ENTRIES)%nat ∧
    match search_boundary_cache 40 c with
    | None => False
    | Some (Some (lower, upper), c') =>
        lower ≤ 40 ≤ upper ∧ is_added [Added 20 16 47; Searched 30; Added 50 48 63] lower upper
    | Some (None, c') => c' = c ∧
        Forall (λ e, ¬ (LowerBound e ≤ 40 ≤ UpperBound e)) (EntryTable c)
    end.
Proof. apply bounds_cached. repeat constructor; cbn; lia. Defined.

(** ** The second request for the bounds of a function

    The search in the cache has its two results the other way round, so the request that
    is answered from the cache has its bounds swapped. *)

Section requests.
Context `{!LibraryFile}.

Lemma ensured s : DebugType (lib_image s) ≠ NOT_YET_LOADED →
  ensure_debug_information_for_library s = Some ((), s).
Proof.
  intros HD. unfold ensure_debug_information_for_library. sstep (run_get s).
  by rewrite bool_decide_false.
Qed.

(** What the cache has is answered without looking at the symbols. *)
Lemma bounds_of_cache handler addr s e l :
  DebugType (lib_image s) ≠ NOT_YET_LOADED →
  search_entries addr (EntryTable (lib_boundaries s)) = Some (e, l) →
  ∃ s', nub_function_bounding_addresses handler addr s = Some ((UpperBound e, LowerBound e), s').
Proof.
  intros HD HS. unfold nub_function_bounding_addresses. sstep (ensured s HD).
  unfold in_boundaries. setoid_rewrite (St_bind_Some _ _ _ (Some (LowerBound e, UpperBound e))
    (mkLibrary (lib_image s) (lib_coff s) (lib_symbols s)
       (mkBoundaries l (IndexLastAddition (lib_boundaries s))))).
  - eexists. reflexivity.
  - rewrite search_boundary_cache_runs, HS. reflexivity.
Qed.
End requests.

(** A library with CodeView information that nothing has asked for yet *)
Definition codeview_file : LibraryFile := {|
  MapDebugInformation := Some example_map;
  coff_symbols_of_file := None;
  SymFromAddr := λ _, None;
  SymEnumSymbols := λ _, None;
  SymEnumSymbolsForAddr := λ _, None
|}.

Definition new_library : library :=
  mkLibrary (mkImage 1048576 None NOT_YET_LOADED) (mkCoffImage (λ _, None) 0 0 0 0 0) no_symbol empty_boundaries.

(** The bounds of f, and the same again *)
Example second_request_swapped :
  let ask := @nub_function_bounding_addresses codeview_file false (f_address + 2) in
  fst <$> (a ← ask; b ← ask; mret (a, b)) new_library =
    Some ((f_address, f_address + 32), (f_address + 32, f_address)).
Proof. vm_compute. reflexivity. Qed.
